(* ===== verification/_CoqProject ===== *)
-Q . S2P
Prelude.v
Codegen.v
Mir.v
Worklist.v
MirExec.v
TritonCfg.v
TritonFold.v
TritonPhi.v
TritonPhiFacts.v
TritonPhiFix.v
TritonLoops.v
TritonLoopsFacts.v
TritonLoopsThms.v
Interval.v
IntervalFacts.v
IntervalSets.v
TritonEmit.v
TritonEmitFacts.v
BitWords.v
BitSet.v
BitSetFacts.v
BitSetRanges.v
ChunkedBitSet.v
ChunkFacts.v
ChunkedFacts.v
ChunkedThms.v
BitMatrix.v
BitMatrixThms.v
Traversal.v
Lattice.v
Dataflow.v
DataflowFacts.v
DataflowEngine.v
Visitor.v
Liveness.v
LivenessThms.v
DataflowCursor.v
Storage.v
StorageThms.v
RequiresStorage.v
DataflowThms.v
ScalarInts.v
IntOps.v
TritonArith.v
TritonArithFacts.v
TritonArithThms.v
TritonArithTypes.v
TritonArithBugs.v
TritonConst.v
TritonConstFacts.v
TritonConstThms.v
TritonScf.v
TritonFunc.v
TritonScfFacts.v
TritonForFacts.v
TritonSem.v
TritonSemFacts.v
TritonForSem.v
TritonScfModel.v
TritonScfThms.v
TritonWhileThms.v
TritonScfBugs.v
TritonConfined.v
TritonFuncFacts.v
TritonFuncThms.v
PlaceTypes.v
TritonTypes.v
TritonOperand.v
TritonAssign.v
TritonAssignSem.v
TritonAssignFacts.v
TritonAssignThms.v
TritonStraight.v
TritonTensor.v
TritonMath.v
TritonTensorTypes.v
TritonTensorThms.v
Leb128.v
Opaque.v
Serialize.v
