(* ===== verification/Prelude.v ===== *)
(** * Verified models of the compiler's core data structures and of the Triton backend

    The repository is a fork of the Rust compiler with a code generator of its
    own: [src/compiler/rustc_codegen_llvm/src/mlir/codegen/triton] turns the MIR
    of a GPU kernel into MLIR (dialects [arith], [cf], [scf], [tt]) through the
    bindings of [src/compiler/rustc_mlir].  The development models the logic of
    that backend that decides what is emitted, and the parts of the compiler it
    rests on: MIR, its traversals and visitor, the dataflow framework, the bit
    sets and interval sets of [rustc_index], and the interpreter's integer
    arithmetic, against which the emitted arithmetic is judged.

    ** Conventions

    A function that returns, panics or runs for ever is an [outcome] (below);
    [Result] is a sum; mutable state is passed explicitly.  Machine integers are
    [Z] with their wrap-around written out ([as_u], [as_i]); indices into vectors
    are [nat].  A failed [assert!], [unwrap], [bug!], [todo!] or an index out of
    bounds is [Panic], which the theorems exclude or exhibit.  A loop that is
    not structural runs on fuel and answers [Diverge] when it runs out; for every
    loop a fuel is defined, and a theorem says that it suffices:
    [const_disc_fuel] (each round makes a local known), [search_fuel],
    [reachable_fuel], [body_fuel] (a worklist expands a block once and pushes its
    successors), [arm_fuel] (one step per block), [phi_fuel] (rounds of phi
    placement: the number of phi locals grows), [traversal_fuel] (each step
    consumes a successor or visits a block), [engine_fuel] (an entry state grows
    at most the height of the lattice many times), [cursor_fuel] (two effects per
    statement and for the terminator of the longest block), [const_fold_fuel] (one call
    per statement, unless the recursion is cyclic), [map_fuel] (types are
    translated by recursion on their structure) and [read_fuel], [write_fuel]
    (a LEB128 byte takes seven bits).

    ** Parts

    MIR.
    - [Mir]: [rustc_middle/src/mir/syntax.rs], [terminator.rs], [mod.rs],
      [consts.rs] and the types and constants of [rustc_type_ir]: the data, and
      [SwitchTargets] with its operations.
    - [MirExec]: the abstract specification of control flow, a small step
      relation on blocks and environments; no code is mapped to it.
    - [Traversal]: predecessors, postorder, reverse postorder and preorder
      ([basic_blocks.rs], [traversal.rs]).
    - [Visitor]: the immutable visitor ([visit.rs]).

    The Triton backend ([triton/mod.rs], [triton/ops/terminator.rs],
    [triton/ops/binaryops.rs]).
    - [Worklist]: the graph search that its block-collection loops refine.
    - [TritonCfg], [TritonFold]: known discriminants, and the reachability that
      folds switches on them.  The analyses return and compute the derivable
      constants and the folded reachable set; against [MirExec], where an enum
      declares the discriminants of its variants, no block that runs is dropped
      when the recorded locals are assigned once and the enums that are set are
      numbered from 0; one is dropped whenever a declared discriminant differs from
      the index, and can be when a local is assigned twice.
    - [TritonPhi], [TritonPhiFacts], [TritonPhiFix]: phi placement.  It returns
      the least fixpoint of its round function for every hash order, and a local
      is a phi exactly when the chains of all predecessors define it.
    - [TritonLoops], [TritonLoopsFacts], [TritonLoopsThms]: recognition of
      [while] loops and of loops over ranges, their bodies, induction variable
      and carried locals, and switch arms.  Detection is total and what it
      reports is a loop.
    - [TritonEmit], [TritonEmitFacts]: the emission state and its tables, and
      branches with block arguments, over an interface of the MLIR builder: a
      branch passes, for the [i]-th phi local of its target, the value of that
      local as the [i]-th operand, and creates the block arguments it needs.
    - [Codegen]: computations on that state ([cg]), and the handlers of single
      statements and calls as a record of parameters.
    - [TritonScf]: [codegen_scf_for_loop], [codegen_scf_while_loop],
      [codegen_basic_block] and what they call in [ops/terminator.rs].
    - [TritonFunc]: [codegen_function]: creation of blocks, emission of each
      block and terminator, and the order of the work.
    - [TritonScfFacts], [TritonForFacts]: what the two loop emitters append to
      the IR.
    - [TritonSem], [TritonSemFacts]: meaning of emitted blocks and of MIR runs.
      [TritonForSem], [TritonScfModel], [TritonScfThms] (loops over ranges) and
      [TritonWhileThms] ([while] loops): the emitted loop
      computes, round by round, what the loop of the MIR computes; the MIR loop is
      run from its header, a range loop with the range its iterator was built
      from, which must be the first one before the loop and start at 0.
      [TritonScfBugs] exhibits the loops for which emission or detection fails.
    - [TritonConfined], [TritonFuncFacts], [TritonFuncThms]: every emitter only
      writes to blocks of its own; a function that is emitted has exactly one
      terminator in every block, at its end, that goes to blocks of the function
      and passes one operand per argument of its target, except that the branch
      from a loop to its exit passes none, also when the exit has arguments.
    - [TritonArith]: the lowering of binary and unary operations.
      [TritonArithFacts] and [TritonArithThms] compare the emitted operations
      with the interpreter ([IntOps]), [TritonArithTypes] proves them well typed,
      and [TritonArithBugs] exhibits where they go wrong.
    - [TritonConst]: constant folding of operands.  [TritonConstFacts]: when the
      recursion ends, and that its arithmetic is the interpreter's.
      [TritonConstThms]: the folded value is the value at run time, in the
      executions of [MirExec] with the interpreter's arithmetic, and where this
      fails.
    - [PlaceTypes]: types of places, operands and rvalues
      ([rustc_middle/src/mir/statement.rs]).  [TritonTypes]: [triton/types.rs],
      the translation of types.  [TritonOperand]: operands and constants
      ([codegen_operand]).  [TritonAssign]: [codegen_assign], casts, references,
      aggregates and copies.
    - [TritonAssignSem], [TritonAssignFacts], [TritonAssignThms]: meaning of
      straight-line MIR and of the emitted block, and the simulation between
      them.  [TritonStraight]: it composes over a list of assignments, and the
      assignments for which the emitted code computes something else.
    - [TritonTensor]: the operations a call can emit, and the handlers that
      create, load, store, reshape, cast, multiply and describe tensors
      ([ops/triton/tensor.rs], builders in [rustc_mlir/src/triton/tensor.rs]).
      [TritonMath]: the other handlers, the table that chooses one by the name of
      the function, and calls of compiled functions ([ops/terminator.rs],
      [ops/triton/program.rs], [ops/binaryops.rs]).
    - [TritonTensorTypes]: the rules of Triton's verifier and what the calls
      promise; a call that [call_ok] lists is compiled to operations the rules
      accept.  [call_ok] takes the operands of the API's signatures, and says which
      shapes and elements it covers and which calls it leaves out.
      [TritonTensorThms]: a meaning of the operations on tensors,
      the formulas that the compound calls compute, the calls whose code the rules
      refuse ([call_refused]) and the operands that are not read.

    Integers.
    - [ScalarInts]: [ScalarInt] of [rustc_middle/src/ty/consts/int.rs] over
      [rustc_abi::Size].
    - [IntOps]: [binary_int_op], [binary_bool_op] and the integer cases of
      [unary_op] of [rustc_const_eval/src/interpret/operator.rs], with the
      ranges of their results.

    Sets of indices ([rustc_index]).
    - [Interval], [IntervalFacts], [IntervalSets]: [IntervalSet] and the sparse
      matrix of interval sets ([interval.rs]).
    - [BitWords]: words, masks and the bit iterator ([bit_set.rs]).
    - [BitSet], [BitSetFacts], [BitSetRanges]: the interface of a bit set
      ([BitSetOps], [BitSetLaws]), [DenseBitSet] and [GrowableBitSet].
    - [ChunkedBitSet], [ChunkFacts], [ChunkedFacts], [ChunkedThms]:
      [ChunkedBitSet] and [MixedBitSet], instances of the same interface.
    - [BitMatrix], [BitMatrixThms]: [BitMatrix] and
      [SparseBitMatrix].

    Dataflow ([rustc_mir_dataflow]).
    - [Lattice]: the contract of a join semi-lattice ([LatticeLaws]) and its
      instances, bit sets through [BitSetLaws]; the trait [GenKill].
    - [Dataflow], [DataflowFacts], [DataflowEngine]: the trait [Analysis], the
      two directions and the fixpoint engine.  It terminates for every analysis
      whose laws hold, and for a monotone one computes the least solution.
    - [Liveness], [LivenessThms]: live locals; the result is liveness along
      paths.
    - [DataflowCursor]: reading the results inside a block: [ResultsCursor],
      [visit_results], and [DenseLocationMap] (Module [Points], [points.rs]).
    - [Storage], [StorageThms]: storage liveness; the result is
      the status of the storage along paths.
    - [RequiresStorage]: [MaybeBorrowedLocals], [borrowed_locals] and
      [MaybeRequiresStorage], whose constructor runs a cursor over the former;
      the results are borrowing and the need for storage along paths.  A path
      through the edge on which an asynchronous drop is cancelled, which the
      engine does not follow, contributes nothing.
    - [DataflowThms]: the properties of traversals, engine, cursor and analyses.

    Serialization ([rustc_serialize]).
    - [Leb128]: the cursor of [MemDecoder] and the readers and writers of
      variable-length integers ([leb128.rs]).
    - [Opaque]: [MemEncoder], [FileEncoder] with its buffer,
      [MemDecoder] ([opaque.rs]), and the laws of a sink of bytes ([SinkLaws]),
      which both encoders satisfy.
    - [Serialize]: [Encodable] and [Decodable] and their implementations
      ([serialize.rs]) as a class over any sink; what is written is read back,
      through either encoder; and what a [FileEncoder] has finished, cut to a
      proper prefix, is refused or fails to decode.

    ** How the parts interact

    Switch folding gives the reachable set that phi placement and loop
    detection work on; phi placement gives the phi locals of a join that branch
    emission creates block arguments for; loop detection decides which blocks
    the [scf] emitters take over from branch emission; [codegen_function] runs
    the analyses and then the emitters in order, all on the one state of
    [TritonEmit].  The arithmetic and the assignments append operations to the
    block that branch emission ends; assignments call operands, constant folding
    and arithmetic, and so do the handlers of calls, lifted to blocks that hold
    tensor operations too, on the same state with the block shapes of tensor
    descriptors beside it.  The dataflow engine is proved against
    [LatticeLaws] and [AnalysisLaws]; [DenseBitSet] and [MixedBitSet] discharge
    the first through [BitSetLaws], and the liveness and storage analyses the
    second.  [Storage] proves its path theorem once for forward bit-set
    analyses; the two storage analyses and borrowed locals instantiate it.  The
    cursor is proved against [AnalysisLaws] for either direction; the moves that
    [MaybeRequiresStorage] may kill are asked through it.  The implementations of [Encodable] are
    proved against [SinkLaws], which [MemEncoder] and [FileEncoder] discharge,
    and compose through [SerializableLaws].

    ** Parameters and hypotheses

    Code that is not in the repository, or that belongs to the type system, is a
    parameter: [instantiate] (substitution and normalisation of constants),
    [def_path] (names of definitions), the order in which a hash table is
    iterated ([HashOrder]), the MLIR builder ([MlirBuilder]), the inference of
    result types ([infer]), the handlers of operands, statements and calls
    (assumed [tame]: they append operations and record values, and touch no
    other table), the meaning of single operations ([Dialect]) and of single
    statements ([MirSem]), related by [loop_laws] and [range_laws], the declared discriminants of
    enums ([discr_of]), and the
    evaluation of [arith] operations, of which [arith_doc] states what the
    dialect documents; [arith_ref] shows that it can hold; the questions put to
    the type context (layouts, fields, associated items, the result and symbol of
    a function); how an operand prints; the meaning of operations on elements
    ([Elems], [FloatOps]); and the operating
    system's file ([FileOps], of which [FileLaws] says what a file opened for
    writing does when a write succeeds).  Bodies are assumed
    well formed where that is said ([body_ok]: edges stay in the body, every
    block has a terminator, a switch has one target more than values).

    ** Not modelled

    The pass pipeline and linking, whose results are built in C++ libraries behind
    a foreign interface; the attributes of tensor operations that the code never
    varies; and the handlers [load_full] and [store_full], which no call reaches.
    That the handlers of calls are [tame] is a hypothesis of the loop emitters and
    not derived for the handlers of [TritonMath].  The
    [scf.if] emitter is modelled and shown never to compile inside a [while]
    loop; its result is not related to the MIR.  Analyses that need move paths or
    layouts are left out of dataflow, as is graph output.
    Of [rustc_serialize], hash maps and sets, whose order is the hasher's, paths
    and the positions of the on-disk tables are left out.  The front end, type
    system, borrow checker, query system, upstream code generators, standard
    library and tools are not modelled: they are upstream code that the modelled
    parts use only through the parameters above. *)
From stdpp Require Export base option list sets gmap fin_maps fin_sets relations numbers strings.
From Stdlib Require Export ZArith Lia.

(** ** Outcomes

    A Rust function returns a value, panics, or (a loop) does not return.  The
    models make the three visible: a loop runs on explicit fuel and running out
    of it is [Diverge], so that every totality theorem has to exhibit enough
    fuel and to exclude both failures. *)
Inductive outcome (A : Type) : Type :=
  | Ret (a : A)
  | Panic
  | Diverge.
Arguments Ret {A} a.
Arguments Panic {A}.
Arguments Diverge {A}.

#[export] Instance outcome_ret : MRet outcome := @Ret.
#[export] Instance outcome_bind : MBind outcome := λ A B f m,
  match m with Ret a => f a | Panic => Panic | Diverge => Diverge end.
#[export] Instance outcome_fmap : FMap outcome := λ A B f m,
  match m with Ret a => Ret (f a) | Panic => Panic | Diverge => Diverge end.

(** [Option::unwrap], [expect] and slice indexing: [None] panics. *)
Definition unwrap {A} (o : option A) : outcome A :=
  match o with Some a => Ret a | None => Panic end.

(** Two results of the same computation are equal. *)
Ltac simplify_ret :=
  repeat match goal with
  | H1 : ?x = Ret ?a, H2 : ?x = Ret ?b |- _ =>
      rewrite H1 in H2; injection H2 as H2; first [subst b | subst a | idtac]
  end; simplify_eq/=.

(** Monadic left fold: a [for] loop over a slice whose body may panic. *)
Fixpoint ofold {A S} (f : S → A → outcome S) (s : S) (l : list A) : outcome S :=
  match l with
  | [] => Ret s
  | a :: l' => s' ← f s a; ofold f s' l'
  end.

(** Monadic map, in order. *)
Fixpoint omapM {A B} (f : A → outcome B) (l : list A) : outcome (list B) :=
  match l with
  | [] => Ret []
  | a :: l' => b ← f a; bs ← omapM f l'; Ret (b :: bs)
  end.

(** A [loop]/[while] statement: [step] either continues with a new state
    ([inl]) or leaves the loop with a result ([inr]). *)
Fixpoint loop {St R} (fuel : nat) (step : St → outcome (St + R)) (s : St) : outcome R :=
  match fuel with
  | O => Diverge
  | S n =>
      x ← step s;
      match x with
      | inl s' => loop n step s'
      | inr r => Ret r
      end
  end.

(** The total-correctness rule for loops: an invariant, a variant and a
    postcondition. *)
Lemma loop_total {St R} (step : St → outcome (St + R))
    (I : St → Prop) (m : St → nat) (Q : R → Prop) :
  (∀ s, I s →
     (∃ s', step s = Ret (inl s') ∧ I s' ∧ m s' < m s) ∨
     (∃ r, step s = Ret (inr r) ∧ Q r)) →
  ∀ fuel s, I s → m s < fuel → ∃ r, loop fuel step s = Ret r ∧ Q r.
Proof.
  intros Hstep fuel. induction fuel as [|n IH]; intros s HI Hm; [lia|].
  destruct (Hstep s HI) as [(s' & Hs & HI' & Hlt)|(r & Hs & HQ)]; simpl; rewrite Hs; simpl.
  - apply IH; [done|lia].
  - eauto.
Qed.

(** The partial-correctness rule: whatever the fuel, a returned value satisfies
    the postcondition. *)
Lemma loop_partial {St R} (step : St → outcome (St + R)) (I : St → Prop) (Q : R → Prop) :
  (∀ s x, I s → step s = Ret x → match x with inl s' => I s' | inr r => Q r end) →
  ∀ fuel s r, I s → loop fuel step s = Ret r → Q r.
Proof.
  intros Hstep fuel. induction fuel as [|n IH]; intros s r HI; simpl; [done|].
  destruct (step s) as [x| |] eqn:Hs; simpl; try done.
  specialize (Hstep s x HI Hs). destruct x as [s'|r']; [by apply IH|].
  by intros [= ->].
Qed.

(** More fuel does not change a result. *)
Lemma loop_mono {St R} (step : St → outcome (St + R)) fuel fuel' s r :
  loop fuel step s = Ret r → fuel ≤ fuel' → loop fuel' step s = Ret r.
Proof.
  revert fuel' s. induction fuel as [|n IH]; intros fuel' s; simpl; [done|].
  intros H Hle. destruct fuel' as [|n']; [lia|]. simpl.
  destruct (step s) as [[s'|r']| |]; simpl in *; try done.
  apply IH; [done|lia].
Qed.

Lemma loop_det {St R} (step : St → outcome (St + R)) f1 f2 s r1 r2 :
  loop f1 step s = Ret r1 → loop f2 step s = Ret r2 → r1 = r2.
Proof.
  intros H1 H2. destruct (decide (f1 ≤ f2)) as [Hle|Hgt].
  - apply (loop_mono _ _ f2) in H1; [congruence|done].
  - apply (loop_mono _ _ f1) in H2; [congruence|lia].
Qed.

(** *** Iterators

    [next] answers an item and the iterator after it; [iter_collect] runs it to
    the end, and [yields] says which items an iterator still holds. *)
Fixpoint iter_collect {It A} (next : It → outcome (option (A * It))) (fuel : nat) (it : It) : outcome (list A) :=
  match fuel with
  | O => Diverge
  | S f =>
      r ← next it;
      match r with
      | None => Ret []
      | Some (a, it') => l ← iter_collect next f it'; Ret (a :: l)
      end
  end.
Fixpoint yields {It A} (next : It → outcome (option (A * It))) (it : It) (l : list A) : Prop :=
  match l with
  | [] => next it = Ret None
  | a :: l' => ∃ it', next it = Ret (Some (a, it')) ∧ yields next it' l'
  end.

Lemma iter_collect_ok {It A} (next : It → outcome (option (A * It))) fuel : ∀ it l,
  yields next it l → length l < fuel → iter_collect next fuel it = Ret l.
Proof.
  induction fuel as [|f IH]; intros it l Hl Hf; [lia|]. destruct l as [|a l]; simpl in *.
  - by rewrite Hl.
  - destruct Hl as (it' & -> & Hl). simpl. rewrite (IH it' l Hl); [done|lia].
Qed.

(** A [for] loop establishes a relation between the list consumed and the state. *)
Lemma ofold_total {A St} (f : St → A → outcome St) (I : list A → St → Prop) (l : list A) s :
  I [] s →
  (∀ pre a s, a ∈ l → I pre s → ∃ s', f s a = Ret s' ∧ I (pre ++ [a]) s') →
  ∃ s', ofold f s l = Ret s' ∧ I l s'.
Proof.
  intros HI Hf.
  cut (∀ suf pre s, l = pre ++ suf → I pre s → ∃ s', ofold f s suf = Ret s' ∧ I l s').
  { intros H. by apply (H l [] s). }
  clear s HI. induction suf as [|a suf IH]; intros pre s -> HI; simpl.
  - rewrite app_nil_r in *. eauto.
  - destruct (Hf pre a s) as (s' & -> & HI'); [set_solver|done|]. simpl.
    apply (IH (pre ++ [a])); [by rewrite <-app_assoc|done].
Qed.

Lemma omapM_total {A B} (f : A → outcome B) (g : A → B) (l : list A) :
  (∀ a, a ∈ l → f a = Ret (g a)) → omapM f l = Ret (g <$> l).
Proof.
  induction l as [|a l IH]; intros Hf; simpl; [done|].
  rewrite Hf by set_solver. simpl. rewrite IH by set_solver. done.
Qed.

(** ** [Vec] as a stack: [push] and [pop] work at the end of the list. *)
Definition vec_push {A} (v : list A) (x : A) : list A := v ++ [x].
Definition vec_pop {A} (v : list A) : option (A * list A) :=
  match reverse v with
  | [] => None
  | x :: r => Some (x, reverse r)
  end.

Lemma vec_pop_Some {A} (v : list A) x v' : vec_pop v = Some (x, v') ↔ v = v' ++ [x].
Proof.
  unfold vec_pop. split.
  - destruct (reverse v) as [|y r] eqn:E; [done|]. intros [= <- <-].
    apply (f_equal reverse) in E. by rewrite reverse_involutive, reverse_cons in E.
  - intros ->. by rewrite reverse_snoc, reverse_involutive.
Qed.

Lemma vec_pop_None {A} (v : list A) : vec_pop v = None ↔ v = [].
Proof.
  unfold vec_pop. split; [|by intros ->].
  destruct (reverse v) eqn:E; [|done]. intros _.
  apply (f_equal reverse) in E. by rewrite reverse_involutive in E.
Qed.

(** [Vec::insert] and [Vec::drain(start..end)] panic out of range. *)
Definition vec_insert {A} (i : nat) (x : A) (v : list A) : outcome (list A) :=
  if i <=? length v then Ret (take i v ++ x :: drop i v) else Panic.
Definition vec_drain {A} (start end_ : nat) (v : list A) : outcome (list A) :=
  if (start <=? end_) && (end_ <=? length v) then Ret (take start v ++ drop end_ v) else Panic.

Lemma vec_insert_app {A} (l1 l2 : list A) i x :
  i = length l1 → vec_insert i x (l1 ++ l2) = Ret (l1 ++ x :: l2).
Proof.
  intros ->. unfold vec_insert. rewrite length_app, take_app_length, drop_app_length.
  by rewrite (proj2 (Nat.leb_le _ _)) by lia.
Qed.

Lemma vec_drain_app {A} (l1 l2 l3 : list A) i j :
  i = length l1 → j = length l1 + length l2 →
  vec_drain i j (l1 ++ l2 ++ l3) = Ret (l1 ++ l3).
Proof.
  intros -> ->. unfold vec_drain. rewrite !length_app, take_app_length.
  rewrite !(proj2 (Nat.leb_le _ _)) by lia. simpl.
  by rewrite (app_assoc l1), <-length_app, drop_app_length.
Qed.

(** [slice::partition_point]: the length of the prefix on which the predicate
    holds, for a slice that the predicate partitions. *)
Fixpoint partition_point {A} (p : A → bool) (l : list A) : nat :=
  match l with
  | [] => 0
  | x :: l' => if p x then S (partition_point p l') else 0
  end.

Lemma partition_point_split {A} (p : A → bool) (l : list A) :
  ∃ l1 l2, l = l1 ++ l2 ∧ partition_point p l = length l1 ∧
    (∀ x, x ∈ l1 → p x = true) ∧ (∀ x, head l2 = Some x → p x = false).
Proof.
  induction l as [|x l (l1 & l2 & -> & Hp & H1 & H2)]; simpl.
  - exists [], []. split_and!; [done..|by intros ? ?%elem_of_nil|done].
  - destruct (p x) eqn:E.
    + exists (x :: l1), l2. rewrite Hp. split_and!; [done..| |done].
      intros y [->|?]%elem_of_cons; auto.
    + exists [], (x :: l1 ++ l2). split_and!; [done..|by intros ? ?%elem_of_nil|].
      by intros ? [= <-].
Qed.

(** ** [std::ops::RangeBounds]: the bounds of a range of indices *)
Inductive Bound (A : Type) :=
  | Included (i : A)
  | Excluded (i : A)
  | Unbounded.
Arguments Included {A}.
Arguments Excluded {A}.
Arguments Unbounded {A}.
Record RangeBounds (A : Type) := mkBounds { start_bound : Bound A; end_bound : Bound A }.
Arguments mkBounds {A}.
Arguments start_bound {A}.
Arguments end_bound {A}.

(** [start..end] *)
Definition range_excl {A} (start end_ : A) : RangeBounds A := mkBounds (Included start) (Excluded end_).

(** ** Iteration order of hash sets

    [std::collections::HashSet] iterates in an unspecified order.  Code that
    loops over a set is modelled over this interface, and theorems hold for
    every instance. *)
Class HashOrder (A : Type) `{Countable A} := {
  set_iter : gset A → list A;
  set_iter_perm : ∀ s, set_iter s ≡ₚ elements s }.

#[export] Instance elements_order `{Countable A} : HashOrder A | 100 :=
  {| set_iter := elements; set_iter_perm := λ s, reflexivity _ |}.

Section hash_order.
Context `{HashOrder A}.
Implicit Types s : gset A.

Lemma elem_of_set_iter s x : x ∈ set_iter s ↔ x ∈ s.
Proof. rewrite set_iter_perm. apply elem_of_elements. Qed.

Lemma NoDup_set_iter s : NoDup (set_iter s).
Proof. rewrite set_iter_perm. apply NoDup_elements. Qed.

Lemma length_set_iter s : length (set_iter s) = size s.
Proof. by rewrite set_iter_perm. Qed.
End hash_order.

(** ** Machine integers *)
(** [x as u64] (and the other unsigned widths): reduce modulo [2^w]. *)
Definition as_u (w : Z) (x : Z) : Z := (x mod 2 ^ w)%Z.
(** [x as i64] (and the other signed widths): two's complement of the low bits. *)
Definition as_i (w : Z) (x : Z) : Z :=
  let u := as_u w x in if (u <? 2 ^ (w - 1))%Z then u else (u - 2 ^ w)%Z.

Lemma as_u_id w x : (0 ≤ x < 2 ^ w)%Z → as_u w x = x.
Proof. intros. by apply Z.mod_small. Qed.

Lemma as_u_range w x : (0 ≤ w)%Z → (0 ≤ as_u w x < 2 ^ w)%Z.
Proof. intros. apply Z.mod_pos_bound. lia. Qed.

(** ** List lemmas *)
Lemma NoDup_snoc {A} (l : list A) x : x ∉ l → NoDup l → NoDup (l ++ [x]).
Proof.
  intros Hx Hl. apply NoDup_app. split_and!; [done| |apply NoDup_singleton]. set_solver.
Qed.

Lemma NoDup_length_le {A} (l1 l2 : list A) : NoDup l1 → l1 ⊆ l2 → length l1 ≤ length l2.
Proof. intros. by apply submseteq_length, NoDup_submseteq. Qed.

Lemma length_omap_le {A B} (f : A → option B) (l : list A) : length (omap f l) ≤ length l.
Proof. induction l as [|x l IH]; simpl; [done|]. destruct (f x); simpl in *; unfold omap in *; lia. Qed.

Lemma size_list_to_set_le `{Countable A} (l : list A) :
  size (list_to_set (C:=gset A) l) ≤ length l.
Proof.
  induction l as [|x l IH]; [by rewrite list_to_set_nil, size_empty|].
  rewrite list_to_set_cons, size_union_alt, size_singleton. simpl.
  assert (size (list_to_set (C:=gset A) l ∖ {[x]}) ≤ size (list_to_set (C:=gset A) l)).
  { apply subseteq_size. set_solver. }
  lia.
Qed.

Lemma elem_of_concat {A} (x : A) (ls : list (list A)) :
  x ∈ concat ls ↔ ∃ l, x ∈ l ∧ l ∈ ls.
Proof.
  rewrite list_elem_of_In, in_concat. split; intros (l & ? & ?); exists l;
    rewrite ?list_elem_of_In in *; auto.
Qed.

Lemma ofold_inv {A St} (f : St → A → outcome St) (I : St → Prop) (l : list A) : ∀ s s',
  (∀ s x s', I s → f s x = Ret s' → I s') → I s → ofold f s l = Ret s' → I s'.
Proof.
  induction l as [|x l IH]; intros s s' Hf Hs; [by intros [= <-]|]. cbn [ofold].
  destruct (f s x) as [s1| |] eqn:E; simpl; try done. by eapply IH, Hf.
Qed.

Lemma ofold_ext {A St} (f g : St → A → outcome St) (l : list A) s :
  (∀ s a, a ∈ l → f s a = g s a) → ofold f s l = ofold g s l.
Proof.
  revert s. induction l as [|a l IH]; intros s Hfg; simpl; [done|].
  rewrite Hfg by (by left). destruct (g s a) as [s'| |]; simpl; [|done..].
  apply IH. intros ? ? ?. apply Hfg. by right.
Qed.

Lemma NoDup_filter_b {A} (f : A → bool) (l : list A) : NoDup l → NoDup (List.filter f l).
Proof. rewrite !NoDup_ListNoDup. apply List.NoDup_filter. Qed.

Lemma elem_of_filter_b {A} (f : A → bool) (l : list A) x :
  x ∈ List.filter f l ↔ x ∈ l ∧ f x = true.
Proof. by rewrite !list_elem_of_In, filter_In. Qed.

Lemma size_pos_elem `{Countable A} (X : gset A) : 2 ≤ size X → ∃ x, x ∈ X.
Proof. intros HX. apply set_choose_L. intros ->. rewrite size_empty in HX. lia. Qed.
