(* ===== verification/Codegen.v ===== *)
(** * The code generation monad

    The functions of the Triton backend take [&mut CodegenState], append to MLIR
    blocks and answer [Result<_, MlirError>]; [?] leaves at the first error and
    [panic!] at once.  [cg St A] is that: a computation over a state that
    returns a value, answers an error or panics. *)
From S2P Require Import Prelude.

(** [rustc_codegen_llvm/src/mlir/errors.rs] *)
Inductive MlirError := CodegenFailed | CreateOperation | InvalidScalar | InvalidType | IncompatibleTypes.

Definition cg (St A : Type) : Type := St → outcome (MlirError + (A * St)).

#[export] Instance cg_ret {St} : MRet (cg St) := λ A x s, Ret (inr (x, s)).
#[export] Instance cg_bind {St} : MBind (cg St) := λ A B f c s,
  r ← (c s : outcome (MlirError + (A * St)));
  match r with inl e => Ret (inl e) | inr (x, s') => f x s' end.

(** A computation that only panics or answers. *)
Definition cg_lift {St A} (o : outcome A) : cg St A := λ s, a ← o; Ret (inr (a, s)).
Definition cg_get {St A} (f : St → A) : cg St A := λ s, Ret (inr (f s, s)).
Definition cg_modify {St} (f : St → St) : cg St unit := λ s, Ret (inr (tt, f s)).
Definition cg_panic {St A} : cg St A := λ _, Panic.

(** A [for] loop whose body may fail. *)
Fixpoint cg_iter {St A} (f : A → cg St unit) (l : list A) : cg St unit :=
  match l with
  | [] => mret tt
  | a :: l' => _ ← f a; cg_iter f l'
  end.

Fixpoint cg_map {St A B} (f : A → cg St B) (l : list A) : cg St (list B) :=
  match l with
  | [] => mret []
  | a :: l' => b ← f a; bs ← cg_map f l'; mret (b :: bs)
  end.

(** [runs c s a s']: the computation succeeds. *)
Definition runs {St A} (c : cg St A) (s : St) (a : A) (s' : St) : Prop := c s = Ret (inr (a, s')).

Section runs.
Context {St : Type}.
Implicit Types s : St.

Lemma runs_ret {A} (x a : A) s s' : runs (mret x) s a s' ↔ a = x ∧ s' = s.
Proof. unfold runs, mret, cg_ret. naive_solver. Qed.

Lemma runs_bind {A B} (c : cg St A) (f : A → cg St B) s b s' :
  runs (c ≫= f) s b s' ↔ ∃ a s1, runs c s a s1 ∧ runs (f a) s1 b s'.
Proof.
  unfold runs, mbind, cg_bind. split.
  - destruct (c s) as [[e|[a s1]]| |] eqn:E; simpl; try done. intros H. by exists a, s1.
  - intros (a & s1 & -> & H). done.
Qed.

Lemma runs_lift {A} (o : outcome A) s a s' : runs (cg_lift o) s a s' ↔ o = Ret a ∧ s' = s.
Proof. unfold runs, cg_lift. destruct o; simpl; naive_solver. Qed.

Lemma runs_get {A} (f : St → A) s a s' : runs (cg_get f) s a s' ↔ a = f s ∧ s' = s.
Proof. unfold runs, cg_get. naive_solver. Qed.

Lemma runs_modify (f : St → St) s a s' : runs (cg_modify f) s a s' ↔ s' = f s.
Proof. unfold runs, cg_modify. destruct a. naive_solver. Qed.

Lemma runs_panic {A} s (a : A) s' : runs cg_panic s a s' ↔ False.
Proof. unfold runs, cg_panic. naive_solver. Qed.

Lemma runs_iter_nil {A} (f : A → cg St unit) s a s' : runs (cg_iter f []) s a s' ↔ s' = s.
Proof. destruct a. simpl. rewrite runs_ret. naive_solver. Qed.

Lemma runs_iter_cons {A} (f : A → cg St unit) x l s a s' :
  runs (cg_iter f (x :: l)) s a s' ↔ ∃ s1, runs (f x) s tt s1 ∧ runs (cg_iter f l) s1 tt s'.
Proof. destruct a. simpl. rewrite runs_bind. split; [intros ([] & s1 & ? & ?)|intros (s1 & ? & ?)]; eauto. Qed.

Lemma runs_iter_app {A} (f : A → cg St unit) l1 l2 s a s' :
  runs (cg_iter f (l1 ++ l2)) s a s' ↔ ∃ s1, runs (cg_iter f l1) s tt s1 ∧ runs (cg_iter f l2) s1 tt s'.
Proof.
  destruct a. revert s. induction l1 as [|x l1 IH]; intros s; cbn [app].
  - split; [intros H; exists s; by rewrite runs_iter_nil|].
    by intros (s1 & ->%runs_iter_nil & H).
  - rewrite runs_iter_cons. setoid_rewrite runs_iter_cons. split.
    + intros (s1 & H1 & (s2 & H2 & H3)%IH). eauto.
    + intros (s2 & (s1 & H1 & H2) & H3). exists s1. split; [done|]. apply IH. eauto.
Qed.

(** An invariant of the body is one of the loop. *)
Lemma runs_iter_ind {A} (f : A → cg St unit) (R : relation St) (l : list A) s s' :
  PreOrder R → (∀ x s s', x ∈ l → runs (f x) s tt s' → R s s') →
  runs (cg_iter f l) s tt s' → R s s'.
Proof.
  intros HR. revert s. induction l as [|x l IH]; intros s Hf.
  - by intros ->%runs_iter_nil.
  - intros (s1 & H1 & H2)%runs_iter_cons. transitivity s1; [by eapply Hf; [left|]|].
    apply IH; [|done]. intros y ?? Hy. apply Hf. by right.
Qed.
End runs.

(** Take a successful run apart. *)
Ltac runs_inv :=
  repeat match goal with
  | H : runs (_ ≫= _) _ _ _ |- _ => apply runs_bind in H as (? & ? & ? & H)
  | H : runs (mret _) _ _ _ |- _ => apply runs_ret in H as [? ?]; subst
  | H : runs (cg_get _) _ _ _ |- _ => apply runs_get in H as [? ?]; subst
  | H : runs (cg_modify _) _ _ _ |- _ => apply runs_modify in H; subst
  | H : runs (cg_lift _) _ _ _ |- _ => apply runs_lift in H as [? ?]; subst
  | H : runs cg_panic _ _ _ |- _ => apply runs_panic in H; destruct H
  end.
