(* ===== verification/Mir.v ===== *)
(** * MIR: the mid-level intermediate representation

    The part of [rustc_middle::mir] and [rustc_type_ir] that the Triton backend
    and the dataflow framework inspect: types, constants, places, operands,
    rvalues, statements, terminators and bodies, with the accessors of
    [mir/terminator.rs] and [mir/syntax.rs].  Every enum keeps all of its
    constructors; a payload that no modelled function reads (spans, regions,
    inline-asm templates, coverage data) is left out. *)
From S2P Require Import Prelude.

(** Newtyped indices ([rustc_index::newtype_index!]). *)
Abbreviation BasicBlock := nat (only parsing).
Abbreviation Local := nat (only parsing).
Abbreviation VariantIdx := nat (only parsing).
Abbreviation FieldIdx := nat (only parsing).
Abbreviation DefId := nat (only parsing).

(** ** Types *)
Inductive IntTy := Isize | I8 | I16 | I32 | I64 | I128.
Inductive UintTy := Usize | U8 | U16 | U32 | U64 | U128.
Inductive FloatTy := F16 | F32 | F64 | F128.

(** [ScalarInt]: the first [size] bytes of [data] are the value. *)
Record ScalarInt := mkScalarInt { si_data : Z; si_size : Z }.
Definition to_bits_unchecked (s : ScalarInt) : Z := si_data s.

(** [ValTreeKind]; the sub-trees of a branch are never read here. *)
Inductive ValTree := Leaf (s : ScalarInt) | Branch.

(** The length of an array is [try_to_target_usize]: known when it is a value.  An
    alias is named by a number. *)
Inductive Ty :=
  | TyBool
  | TyChar
  | TyInt (t : IntTy)
  | TyUint (t : UintTy)
  | TyFloat (t : FloatTy)
  | TyAdt (def : DefId) (args : list Ty)
  | TyForeign
  | TyStr
  | TyArray (elem : Ty) (len : option Z)
  | TyPat (t : Ty)
  | TySlice (elem : Ty)
  | TyRawPtr (t : Ty)
  | TyRef (t : Ty)
  | TyFnDef (def : DefId)
  | TyFnPtr
  | TyUnsafeBinder
  | TyDynamic
  | TyClosure
  | TyCoroutineClosure
  | TyCoroutine
  | TyCoroutineWitness
  | TyNever
  | TyTuple (tys : list Ty)
  | TyAlias (id : nat)
  | TyParam
  | TyBound
  | TyPlaceholder
  | TyInfer (is_int_var : bool)
  | TyError.

(** [ConstKind::Value] holds a [ty::Value]: a type and a value tree. *)
Inductive ConstKind :=
  | CkParam (index : nat)
  | CkInfer
  | CkBound
  | CkPlaceholder
  | CkAlias
  | CkValue (value : Ty * ValTree)
  | CkError
  | CkExpr.

Definition is_integral (t : Ty) : bool :=
  match t with TyInfer is_int_var => is_int_var | TyInt _ | TyUint _ => true | _ => false end.

(** A generic argument of an instance. *)
Inductive GenericArg := ArgLifetime | ArgType (t : Ty) | ArgConst (c : ConstKind).

(** [GenericArgs::const_at]: indexing panics out of range, and a non-constant
    argument is a compiler bug. *)
Definition const_at (args : list GenericArg) (i : nat) : outcome ConstKind :=
  match args !! i with Some (ArgConst c) => Ret c | _ => Panic end.

Definition try_to_value (c : ConstKind) : option (Ty * ValTree) :=
  match c with CkValue cv => Some cv | _ => None end.
Definition to_value (c : ConstKind) : outcome (Ty * ValTree) :=
  match c with CkValue cv => Ret cv | _ => Panic end.
Definition valtree_try_to_leaf (v : ValTree) : option ScalarInt :=
  match v with Leaf s => Some s | Branch => None end.
Definition const_try_to_leaf (c : ConstKind) : option ScalarInt :=
  cv ← try_to_value c; valtree_try_to_leaf cv.2.

(** ** Constants *)
(** A pointer is an allocation and an offset into it. *)
Abbreviation AllocId := nat (only parsing).
Inductive Scalar := ScalarInt_ (s : ScalarInt) | ScalarPtr (alloc : AllocId) (offset : Z).
Inductive ConstValue := CvScalar (s : Scalar) | CvZeroSized | CvSlice | CvIndirect (alloc : AllocId) (offset : Z).
Inductive Const :=
  | ConstTy (ty : Ty) (ck : ConstKind)
  | ConstUnevaluated (uv : nat) (ty : Ty)
  | ConstVal (cv : ConstValue) (ty : Ty).

Definition try_to_scalar_int (c : Const) : option ScalarInt :=
  match c with
  | ConstVal (CvScalar (ScalarInt_ x)) _ => Some x
  | ConstTy _ ck => const_try_to_leaf ck
  | _ => None
  end.

(** ** Places and operands *)
Inductive PlaceElem :=
  | Deref
  | Field (f : FieldIdx) (t : Ty)
  | Index (v : Local)
  | ConstantIndex (offset min_length : Z) (from_end : bool)
  | Subslice (from to : Z) (from_end : bool)
  | Downcast (v : VariantIdx)
  | OpaqueCast (t : Ty)
  | UnwrapUnsafeBinder (t : Ty).

Record Place := mkPlace { pl_local : Local; pl_projection : list PlaceElem }.

(** [Place::is_indirect]: the place contains a [Deref]. *)
Definition elem_is_indirect (e : PlaceElem) : bool := match e with Deref => true | _ => false end.
Definition is_indirect (p : Place) : bool := existsb elem_is_indirect (pl_projection p).

(** [place.projection.is_empty()] *)
Definition no_projection (p : Place) : bool :=
  match pl_projection p with [] => true | _ => false end.

(** [Place::as_local] *)
Definition as_local (p : Place) : option Local :=
  match pl_projection p with [] => Some (pl_local p) | _ => None end.

Inductive Operand :=
  | Copy (p : Place)
  | Move (p : Place)
  | Constant (c : Const)
  | RuntimeChecks.

(** The pattern [Operand::Copy(p) | Operand::Move(p) if p.projection.is_empty()]. *)
Definition operand_as_local (op : Operand) : option Local :=
  match op with
  | Copy p | Move p => if no_projection p then Some (pl_local p) else None
  | _ => None
  end.

(** ** Rvalues *)
Inductive BinOp :=
  | Add | AddUnchecked | AddWithOverflow | Sub | SubUnchecked | SubWithOverflow
  | Mul | MulUnchecked | MulWithOverflow | Div | Rem | BitXor | BitAnd | BitOr
  | Shl | ShlUnchecked | Shr | ShrUnchecked | BEq | BLt | BLe | BNe | BGe | BGt
  | Cmp | Offset.
Inductive UnOp := Not | Neg | PtrMetadata.
Inductive PointerCoercionKind :=
  | ReifyFnPointer | UnsafeFnPointer | ClosureFnPointer | MutToConstPointer | ArrayToPointer | Unsize.
Inductive CastKind :=
  | PointerExposeProvenance | PointerWithExposedProvenance | PointerCoercion (k : PointerCoercionKind)
  | IntToInt | FloatToInt | FloatToFloat | IntToFloat | PtrToPtr | FnPtrToPtr
  | Transmute | BoxDerefTransmute | Subtype.
Inductive BorrowKind := Shared | FakeBorrow | MutBorrow.
Inductive RawPtrKind := RpMut | RpConst | RpFakeForPtrMetadata.
Inductive Mutability := MutNot | MutMut.
Inductive AggregateKind :=
  | AggArray (t : Ty)
  | AggTuple
  | AggAdt (def : DefId) (v : VariantIdx)
  | AggClosure
  | AggCoroutine
  | AggCoroutineClosure
  | AggRawPtr (t : Ty).

Inductive Rvalue :=
  | Use (op : Operand)
  | Repeat (op : Operand) (ck : ConstKind)
  | RvRef (bk : BorrowKind) (p : Place)
  | ThreadLocalRef (def : DefId)
  | RvRawPtr (k : RawPtrKind) (p : Place)
  | Cast (ck : CastKind) (op : Operand) (t : Ty)
  | BinaryOp (op : BinOp) (l r : Operand)
  | UnaryOp (op : UnOp) (v : Operand)
  | Discriminant (p : Place)
  | Aggregate (k : AggregateKind) (fields : list Operand)
  | CopyForDeref (p : Place)
  | WrapUnsafeBinder (op : Operand) (t : Ty)
  | Reborrow (t : Ty) (m : Mutability) (p : Place).

(** [Rvalue::is_safe_to_remove] *)
Definition is_safe_to_remove (rv : Rvalue) : bool :=
  match rv with Cast PointerExposeProvenance _ _ => false | _ => true end.

(** ** Statements *)
Inductive NonDivergingIntrinsic :=
  | Assume (op : Operand)
  | CopyNonOverlapping (src dst count : Operand).

Inductive StatementKind :=
  | Assign (dest : Place) (rv : Rvalue)
  | FakeRead (p : Place)
  | SetDiscriminant (p : Place) (variant_index : VariantIdx)
  | StorageLive (l : Local)
  | StorageDead (l : Local)
  | PlaceMention (p : Place)
  | AscribeUserType (p : Place)
  | Coverage
  | Intrinsic (i : NonDivergingIntrinsic)
  | ConstEvalCounter
  | Nop
  | BackwardIncompatibleDropHint (p : Place).

(** ** Terminators *)
(** [SwitchTargets]: [targets] holds one more block than [values], the last one
    being the [otherwise] target. *)
Record SwitchTargets := mkSwitchTargets {
  st_values : list Z;
  st_targets : list BasicBlock }.

Inductive UnwindAction :=
  | UnwindContinue
  | UnwindUnreachable
  | UnwindTerm
  | UnwindCleanup (bb : BasicBlock).

(** [AssertKind]: the message of an [assert] terminator and its operands. *)
Inductive AssertKind :=
  | BoundsCheck (len index : Operand)
  | Overflow (op : BinOp) (l r : Operand)
  | OverflowNeg (op : Operand)
  | DivisionByZero (op : Operand)
  | RemainderByZero (op : Operand)
  | ResumedAfterReturn
  | ResumedAfterPanic
  | ResumedAfterDrop
  | MisalignedPointerDereference (required found : Operand)
  | NullPointerDereference
  | NullReferenceConstructed
  | InvalidEnumConstruction (op : Operand).

Inductive InlineAsmOperand :=
  | AsmIn (value : Operand)
  | AsmOut (place : option Place)
  | AsmInOut (in_value : Operand) (out_place : option Place)
  | AsmConst (value : Const)
  | AsmSymFn (value : Const)
  | AsmSymStatic (def : DefId)
  | AsmLabel (target_index : nat).

Inductive TerminatorKind :=
  | Goto (target : BasicBlock)
  | SwitchInt (discr : Operand) (targets : SwitchTargets)
  | UnwindResume
  | UnwindTerminate
  | Return
  | Unreachable
  | Drop (p : Place) (target : BasicBlock) (unwind : UnwindAction) (drop : option BasicBlock)
  | Call (func : Operand) (args : list Operand) (destination : Place)
      (target : option BasicBlock) (unwind : UnwindAction)
  | TailCall (func : Operand) (args : list Operand)
  | Assert (cond : Operand) (expected : bool) (msg : AssertKind) (target : BasicBlock)
      (unwind : UnwindAction)
  | Yield (value : Operand) (resume : BasicBlock) (resume_arg : Place) (drop : option BasicBlock)
  | CoroutineDrop
  | FalseEdge (real_target imaginary_target : BasicBlock)
  | FalseUnwind (real_target : BasicBlock) (unwind : UnwindAction)
  | InlineAsm (operands : list InlineAsmOperand) (targets : list BasicBlock) (unwind : UnwindAction).

(** ** Bodies *)
Record BasicBlockData := mkBlock {
  statements : list StatementKind;
  terminator_opt : option TerminatorKind }.

(** [local_decls] keeps the type of each local: the return place, the
    [arg_count] arguments, then variables and temporaries. *)
Record Body := mkBody {
  basic_blocks : list BasicBlockData;
  local_decls : list Ty;
  arg_count : nat }.

Definition RETURN_PLACE : Local := 0.
(** [Body::args_iter]: [1..arg_count + 1]. *)
Definition args_iter (mir : Body) : list Local := seq 1 (arg_count mir).
(** [Body::vars_and_temps_iter]: [arg_count + 1..local_decls.len()]. *)
Definition vars_and_temps_iter (mir : Body) : list Local :=
  seq (arg_count mir + 1) (length (local_decls mir) - (arg_count mir + 1)).

(** [BasicBlockData::terminator]: the expectation fails on a block under
    construction. *)
Definition terminator (d : BasicBlockData) : outcome TerminatorKind :=
  unwrap (terminator_opt d).

(** [mir.basic_blocks[bb]] *)
Definition block_at (mir : Body) (bb : BasicBlock) : outcome BasicBlockData :=
  unwrap (basic_blocks mir !! bb).

(** [mir.basic_blocks[bb].terminator().kind] *)
Definition terminator_at (mir : Body) (bb : BasicBlock) : outcome TerminatorKind :=
  d ← block_at mir bb; terminator d.

Definition local_ty (mir : Body) (l : Local) : outcome Ty := unwrap (local_decls mir !! l).

(** All statements of the body, in block order. *)
Definition all_statements (mir : Body) : list StatementKind :=
  concat (statements <$> basic_blocks mir).

(** ** [SwitchTargets] *)
Module Switch.
(** [SwitchTargets::new] *)
Definition new (targets : list (Z * BasicBlock)) (otherwise : BasicBlock) : SwitchTargets :=
  mkSwitchTargets targets.*1 (vec_push targets.*2 otherwise).

(** [SwitchTargets::static_if] *)
Definition static_if (value : Z) (then_ else_ : BasicBlock) : SwitchTargets :=
  mkSwitchTargets [value] [then_; else_].

(** [SwitchTargets::as_static_if] *)
Definition as_static_if (t : SwitchTargets) : option (Z * BasicBlock * BasicBlock) :=
  match st_values t, st_targets t with
  | [value], [then_; else_] => Some (value, then_, else_)
  | _, _ => None
  end.

(** [SwitchTargets::otherwise] *)
Definition otherwise (t : SwitchTargets) : outcome BasicBlock := unwrap (last (st_targets t)).

(** [SwitchTargets::iter] *)
Definition iter (t : SwitchTargets) : list (Z * BasicBlock) := zip (st_values t) (st_targets t).

(** [SwitchTargets::all_targets] *)
Definition all_targets (t : SwitchTargets) : list BasicBlock := st_targets t.

(** [self.iter().find_map(|(v, t)| (v == value).then_some(t))] *)
Fixpoint find_value (value : Z) (l : list (Z * BasicBlock)) : option BasicBlock :=
  match l with
  | [] => None
  | (v, t) :: l' => if (v =? value)%Z then Some t else find_value value l'
  end.

(** [SwitchTargets::target_for_value] *)
Definition target_for_value (t : SwitchTargets) (value : Z) : outcome BasicBlock :=
  match find_value value (iter t) with
  | Some bb => Ret bb
  | None => otherwise t
  end.

(** [SwitchTargets::add_target]: the block goes before the [otherwise] one;
    [usize] subtraction below zero and a duplicate value panic. *)
Definition add_target (t : SwitchTargets) (value : Z) (bb : BasicBlock) : outcome SwitchTargets :=
  if bool_decide (value ∈ st_values t) then Panic else
  match length (st_targets t) with
  | O => Panic
  | S i =>
      Ret (mkSwitchTargets (vec_push (st_values t) value)
             (take i (st_targets t) ++ bb :: drop i (st_targets t)))
  end.

(** [SwitchTargets::is_distinct] *)
Definition is_distinct (t : SwitchTargets) : bool :=
  size (list_to_set (C:=gset nat) (st_targets t)) =? length (st_targets t).
End Switch.

(** [TerminatorKind::if_] *)
Definition if_ (cond : Operand) (t f : BasicBlock) : TerminatorKind :=
  SwitchInt cond (Switch.static_if 0 f t).

(** [TerminatorKind::successors], in iteration order. *)
Definition successors (k : TerminatorKind) : list BasicBlock :=
  match k with
  | Drop _ t (UnwindCleanup u) (Some d) => [t; u; d]
  | Call _ _ _ (Some t) (UnwindCleanup u) => [t; u]
  | Yield _ t _ (Some u) => [t; u]
  | Drop _ t (UnwindCleanup u) None => [t; u]
  | Drop _ t _ (Some u) => [t; u]
  | Assert _ _ _ t (UnwindCleanup u) => [t; u]
  | FalseUnwind t (UnwindCleanup u) => [t; u]
  | Goto t => [t]
  | Call _ _ _ None (UnwindCleanup t) => [t]
  | Call _ _ _ (Some t) _ => [t]
  | Yield _ t _ None => [t]
  | Drop _ t _ _ => [t]
  | Assert _ _ _ t _ => [t]
  | FalseUnwind t _ => [t]
  | UnwindResume | UnwindTerminate | CoroutineDrop | Return | Unreachable => []
  | TailCall _ _ => []
  | Call _ _ _ None _ => []
  | InlineAsm _ ts (UnwindCleanup u) => ts ++ [u]
  | InlineAsm _ ts _ => ts
  | SwitchInt _ targets => st_targets targets
  | FalseEdge t i => [t; i]
  end.

(** ** Well-formed bodies

    What the MIR validator guarantees of a finished body: every block has a
    terminator whose targets exist, switch tables have one target more than
    values, and every local mentioned by an assignment is declared.  The
    predicate is executable so that witnesses evaluate it. *)
Definition switch_ok (t : SwitchTargets) : bool :=
  length (st_targets t) =? S (length (st_values t)).

Definition terminator_ok (n : nat) (k : TerminatorKind) : bool :=
  forallb (λ bb, bb <? n) (successors k) &&
  match k with SwitchInt _ t => switch_ok t | _ => true end.

Definition dest_local (s : StatementKind) : option Local :=
  match s with Assign p _ => if no_projection p then Some (pl_local p) else None | _ => None end.

Definition block_ok (mir : Body) (d : BasicBlockData) : bool :=
  match terminator_opt d with
  | Some k => terminator_ok (length (basic_blocks mir)) k
  | None => false
  end &&
  forallb (λ s, match dest_local s with Some l => l <? length (local_decls mir) | None => true end)
    (statements d).

Definition body_ok (mir : Body) : bool :=
  negb (length (basic_blocks mir) =? 0) && forallb (block_ok mir) (basic_blocks mir).

Lemma body_ok_block mir bb d :
  body_ok mir = true → basic_blocks mir !! bb = Some d → block_ok mir d = true.
Proof.
  unfold body_ok. rewrite andb_true_iff, forallb_forall. intros [_ H] Hd.
  apply H, list_elem_of_In. by eapply list_elem_of_lookup_2.
Qed.

(** In a well-formed body a block in range has a terminator. *)
Lemma terminator_at_ok mir bb :
  body_ok mir = true → bb < length (basic_blocks mir) → ∃ k, terminator_at mir bb = Ret k.
Proof.
  intros Hok Hlt. destruct (lookup_lt_is_Some_2 _ _ Hlt) as [d Hd].
  pose proof (body_ok_block _ _ _ Hok Hd) as Hb. unfold block_ok in Hb.
  unfold terminator_at, block_at, terminator. rewrite Hd. simpl.
  destruct (terminator_opt d); [eauto|done].
Qed.

(** ... and its terminator's successors are in range. *)
Lemma terminator_at_terminator_ok mir bb k :
  body_ok mir = true → terminator_at mir bb = Ret k →
  terminator_ok (length (basic_blocks mir)) k = true.
Proof.
  unfold terminator_at, block_at, terminator. intros Hok.
  destruct (basic_blocks mir !! bb) as [d|] eqn:Hd; simpl; [|done].
  pose proof (body_ok_block _ _ _ Hok Hd) as Hb. unfold block_ok in Hb.
  destruct (terminator_opt d); simpl; [|done]. intros [= ->].
  by apply andb_true_iff in Hb as [? _].
Qed.

Lemma successors_lt mir bb k s :
  body_ok mir = true → terminator_at mir bb = Ret k → s ∈ successors k →
  s < length (basic_blocks mir).
Proof.
  intros Hok Hk Hs. pose proof (terminator_at_terminator_ok _ _ _ Hok Hk) as H.
  unfold terminator_ok in H. apply andb_true_iff in H as [H _].
  rewrite forallb_forall in H. apply Nat.ltb_lt, H, list_elem_of_In, Hs.
Qed.

(** A block that is formal only: its terminator is [unreachable]. *)
Definition is_unreachable_block (mir : Body) (bb : BasicBlock) : bool :=
  match terminator_at mir bb with Ret Unreachable => true | _ => false end.

(** The largest number of successors of a block. *)
Definition max_successors (mir : Body) : nat :=
  max_list ((λ d, match terminator_opt d with Some k => length (successors k) | None => 0 end)
              <$> basic_blocks mir).

Lemma successors_le_max mir bb k :
  terminator_at mir bb = Ret k → length (successors k) ≤ max_successors mir.
Proof.
  unfold terminator_at, block_at, terminator. intros Hk.
  destruct (basic_blocks mir !! bb) as [d|] eqn:Hd; [|done]. simpl in Hk.
  apply max_list_elem_of_le, list_elem_of_fmap. exists d.
  split; [|by eapply list_elem_of_lookup_2]. by destruct (terminator_opt d); simplify_eq/=.
Qed.

(** ** Properties of switch tables *)
Module SwitchFacts.
Import Switch.

Lemma switch_ok_split t :
  switch_ok t = true → ∃ ts o, st_targets t = ts ++ [o] ∧ length ts = length (st_values t).
Proof.
  unfold switch_ok. rewrite Nat.eqb_eq. intros H.
  revert H. induction (st_targets t) as [|b bs _] using rev_ind; [done|].
  exists bs, b. split; [done|]. rewrite length_app in H. simpl in H. lia.
Qed.

Lemma otherwise_ok t :
  switch_ok t = true → ∃ bb, otherwise t = Ret bb ∧ bb ∈ st_targets t.
Proof.
  intros (ts & o & E & _)%switch_ok_split. exists o. unfold otherwise.
  rewrite E, last_snoc. split; [done|set_solver].
Qed.

Lemma find_value_Some v l bb : find_value v l = Some bb → bb ∈ l.*2.
Proof.
  induction l as [|[w t] l IH]; simpl; [done|].
  destruct (w =? v)%Z; [intros [= ->]; by left|right; auto].
Qed.

Lemma find_value_app v l1 l2 :
  find_value v (l1 ++ l2) =
    match find_value v l1 with Some bb => Some bb | None => find_value v l2 end.
Proof. induction l1 as [|[w t] l1 IH]; simpl; [done|]. by destruct (w =? v)%Z. Qed.

Lemma find_value_None v l : v ∉ l.*1 → find_value v l = None.
Proof.
  induction l as [|[w t] l IH]; simpl; [done|]. intros Hv.
  destruct (Z.eqb_spec w v); [set_solver|]. apply IH. set_solver.
Qed.

Lemma iter_targets t : (iter t).*2 ⊆ st_targets t.
Proof.
  unfold iter. intros x [[? ?] [-> Hin]]%list_elem_of_fmap.
  by apply elem_of_zip_r in Hin.
Qed.

Lemma target_for_value_ok t v :
  switch_ok t = true → ∃ bb, target_for_value t v = Ret bb ∧ bb ∈ st_targets t.
Proof.
  intros Hok. unfold target_for_value. destruct (find_value v (iter t)) as [bb|] eqn:E.
  - exists bb. split; [done|]. by apply iter_targets, (find_value_Some v).
  - by apply otherwise_ok.
Qed.

Lemma zip_excess {A B} (l : list A) (k k' : list B) :
  length k = length l → zip l (k ++ k') = zip l k.
Proof. revert k. induction l; intros [|??]; simpl; try done. intros. by f_equal; auto. Qed.

(** Adding a case to a well-formed switch table whose value is new succeeds,
    keeps the table well formed, sends the new value to the new block, and
    leaves every other value and the fallback where they were. *)
Theorem add_target_lookup (t : SwitchTargets) (value : Z) (bb : BasicBlock)
    (Hok : switch_ok t = true) (Hv : value ∉ st_values t) :
  ∃ t', add_target t value bb = Ret t' ∧ switch_ok t' = true ∧
    otherwise t' = otherwise t ∧
    ∀ v, target_for_value t' v = if (v =? value)%Z then Ret bb else target_for_value t v.
Proof.
  pose proof (switch_ok_split _ Hok) as (ts & o & E & Hlen).
  unfold add_target. rewrite bool_decide_false by done.
  rewrite E, length_app, Nat.add_1_r, take_app_length, drop_app_length.
  eexists. split; [done|]. unfold switch_ok, target_for_value, otherwise, iter, vec_push. simpl.
  rewrite E, !last_app. simpl. split_and!; [|done|].
  - rewrite !length_app. simpl. apply Nat.eqb_eq. lia.
  - intros v. change (bb :: [o]) with ([bb] ++ [o]).
    rewrite app_assoc, (zip_excess _ (ts ++ [bb])), (zip_excess _ ts [o])
      by (rewrite ?length_app; simpl; lia).
    rewrite zip_with_app, find_value_app by done. simpl. rewrite (Z.eqb_sym v).
    destruct (Z.eqb_spec value v) as [<-|]; [|by destruct (find_value v _)].
    rewrite find_value_None; [done|].
    intros [[? ?] [-> Hin]]%list_elem_of_fmap. by apply elem_of_zip_l in Hin.
Qed.

Lemma add_target_lookup_witness :
  switch_ok (static_if 0 1 2) = true ∧ (5%Z ∉ st_values (static_if 0 1 2)) ∧
  ∃ t', add_target (static_if 0 1 2) 5 7 = Ret t' ∧ target_for_value t' 5 = Ret 7.
Proof.
  assert (H1 : switch_ok (static_if 0 1 2) = true) by reflexivity.
  assert (H2 : (5%Z ∉ st_values (static_if 0 1 2))) by (simpl; set_solver).
  destruct (add_target_lookup (static_if 0 1 2) 5 7 H1 H2) as (t' & Ht & _ & _ & Hv).
  split; [exact H1|]. split; [exact H2|]. exists t'. split; [exact Ht|exact (Hv 5%Z)].
Defined.

(** [SwitchTargets::new] followed by [iter] and [otherwise] gives back the
    arguments; [static_if] and [as_static_if] are inverse. *)
Theorem new_iter_roundtrip (targets : list (Z * BasicBlock)) (o : BasicBlock) :
  switch_ok (new targets o) = true ∧ iter (new targets o) = targets ∧
  otherwise (new targets o) = Ret o ∧
  ∀ v t f, new targets o = static_if v t f ↔ as_static_if (new targets o) = Some (v, t, f).
Proof.
  unfold new, switch_ok, iter, otherwise, static_if, as_static_if, vec_push. simpl.
  rewrite last_snoc, length_app, !length_fmap. split_and!.
  - simpl. apply Nat.eqb_eq. lia.
  - rewrite zip_excess by by rewrite !length_fmap. apply zip_fst_snd.
  - done.
  - intros v t f. destruct targets as [|[v1 b1] [|[v2 b2] l]]; simpl; [done| |done].
    split; by intros [= -> -> ->].
Qed.
End SwitchFacts.
