(* ===== verification/Worklist.v ===== *)
(** * Worklist graph search

    The abstract search that the block-collection loops of the Triton backend
    refine: a worklist from which one node is popped at a time, a visited set,
    the visiting order, and the successors of a newly visited node appended to
    the worklist.  The discipline of [pop] (stack or queue) is a parameter: it
    affects the order but not the set of visited nodes. *)
From S2P Require Import Prelude.

Section search.
Context (pop : list nat → option (nat * list nat)).
Context (pop_Some : ∀ q x q', pop q = Some (x, q') → q ≡ₚ x :: q').
Context (pop_None : ∀ q, pop q = None → q = []).
Context (skip : nat → bool) (next : nat → list nat).

Record search_state := mkSearch {
  visited : gset nat;
  order : list nat;
  work : list nat }.

Definition search_step (s : search_state) : search_state + (gset nat * list nat) :=
  match pop (work s) with
  | None => inr (visited s, order s)
  | Some (x, q) =>
      if bool_decide (x ∈ visited s) || skip x then
        inl (mkSearch (visited s) (order s) q)
      else inl (mkSearch ({[x]} ∪ visited s) (order s ++ [x]) (q ++ next x))
  end.

(** The edges the search follows, and the nodes it must visit. *)
Definition search_edge (a b : nat) : Prop := skip a = false ∧ b ∈ next a.
Definition search_reach (roots : list nat) (x : nat) : Prop :=
  skip x = false ∧ ∃ r, r ∈ roots ∧ rtc search_edge r x.

(** Nodes are below [n] and have at most [d] successors. *)
Context (n d : nat) (roots : list nat).
Context (next_lt : ∀ x y, x < n → y ∈ next x → y < n).
Context (next_len : ∀ x, x < n → length (next x) ≤ d).
Context (roots_lt : ∀ r, r ∈ roots → r < n).

Record search_inv (s : search_state) : Prop := {
  inv_visited : visited s = list_to_set (order s);
  inv_nodup : NoDup (order s);
  inv_order_reach : ∀ x, x ∈ order s → search_reach roots x;
  inv_work_reach : ∀ x, x ∈ work s → ∃ r, r ∈ roots ∧ rtc search_edge r x;
  inv_roots : ∀ r, r ∈ roots → r ∈ order s ∨ r ∈ work s ∨ skip r = true;
  inv_closed : ∀ x y, x ∈ order s → y ∈ next x → y ∈ order s ∨ y ∈ work s ∨ skip y = true;
  inv_lt : ∀ x, x ∈ order s ∨ x ∈ work s → x < n }.

Definition search_measure (s : search_state) : nat :=
  (n - length (order s)) * S d + length (work s).

Definition search_init : search_state := mkSearch ∅ [] roots.
Definition search_fuel : nat := n * S d + length roots + 1.

Lemma search_inv_init : search_inv search_init.
Proof.
  split; simpl; [done|constructor|set_solver| |auto|set_solver|set_solver].
  intros x Hx. exists x. by split; [|constructor].
Qed.

(** Dropping a popped node that is visited or skipped keeps the invariant. *)
Lemma search_inv_drop s x q :
  search_inv s → work s ≡ₚ x :: q → x ∈ visited s ∨ skip x = true →
  search_inv (mkSearch (visited s) (order s) q).
Proof.
  intros [Hv Hn Ho Hw Hr Hc Hl] Hq Hx. rewrite Hv, elem_of_list_to_set in Hx.
  split; simpl; try done.
  - intros y Hy. apply Hw. rewrite Hq. by right.
  - intros r Hr'. destruct (Hr r Hr') as [?|[Hin|?]]; [by left| |by auto].
    rewrite Hq in Hin. apply elem_of_cons in Hin as [->|?]; [|by auto].
    destruct Hx; auto.
  - intros a y Ha Hy. destruct (Hc a y Ha Hy) as [?|[Hin|?]]; [by left| |by auto].
    rewrite Hq in Hin. apply elem_of_cons in Hin as [->|?]; [|by auto].
    destruct Hx; auto.
  - intros y [Hy|Hy]; apply Hl; [by left|]. right. rewrite Hq. by right.
Qed.

Lemma search_inv_visit s x q :
  search_inv s → work s ≡ₚ x :: q → x ∉ visited s → skip x = false →
  search_inv (mkSearch ({[x]} ∪ visited s) (order s ++ [x]) (q ++ next x)).
Proof.
  intros [Hv Hn Ho Hw Hr Hc Hl] Hq Hx Hs. rewrite Hv, elem_of_list_to_set in Hx.
  assert (Hxw : x ∈ work s) by (rewrite Hq; by left).
  assert (Hxr : search_reach roots x) by (split; [done|by apply Hw]).
  assert (Hsplit : ∀ y, y ∈ work s → y = x ∨ y ∈ q).
  { intros y. rewrite Hq. apply elem_of_cons. }
  split; simpl.
  - rewrite Hv, list_to_set_app_L. set_solver.
  - by apply NoDup_snoc.
  - intros y [?| ->%list_elem_of_singleton]%elem_of_app; [by apply Ho|done].
  - intros y [Hy|Hy]%elem_of_app.
    + apply Hw. rewrite Hq. by right.
    + destruct Hxr as [_ (r & Hr' & Hrtc)]. exists r. split; [done|].
      eapply rtc_r; [done|]. by split.
  - intros r Hr'. rewrite !elem_of_app. destruct (Hr r Hr') as [?|[[->|?]%Hsplit|?]]; auto.
    left. right. by left.
  - intros a y Ha Hy. rewrite !elem_of_app. apply elem_of_app in Ha as [Ha| ->%list_elem_of_singleton].
    + destruct (Hc a y Ha Hy) as [?|[[->|?]%Hsplit|?]]; auto. left. right. by left.
    + auto.
  - intros y. rewrite !elem_of_app, list_elem_of_singleton.
    intros [[?| ->]|[?|Hy]]; [by auto|by auto| |].
    + apply Hl. right. rewrite Hq. by right.
    + eapply next_lt; [|done]. apply Hl. auto.
Qed.

Lemma order_length s : search_inv s → length (order s) ≤ n.
Proof.
  intros [_ Hn _ _ _ _ Hl]. rewrite <-(length_seq n 0). apply NoDup_length_le; [done|].
  intros x Hx. apply elem_of_seq. specialize (Hl x (or_introl Hx)). lia.
Qed.

Lemma search_step_progress s s' :
  search_inv s → search_step s = inl s' →
  search_inv s' ∧ search_measure s' < search_measure s.
Proof.
  unfold search_step, search_measure. intros Hinv.
  destruct (pop (work s)) as [[x q]|] eqn:Hpop; [|done].
  pose proof (pop_Some _ _ _ Hpop) as Hq.
  assert (Hlen : length (work s) = S (length q)) by (by rewrite Hq).
  destruct (bool_decide (x ∈ visited s) || skip x) eqn:Hb; intros [= <-]; simpl.
  - split; [|lia]. eapply search_inv_drop; [done..|].
    apply orb_true_iff in Hb as [Hb|Hb]; [left|by right]. by eapply bool_decide_eq_true_1.
  - apply orb_false_iff in Hb as [Hb Hs]. apply bool_decide_eq_false_1 in Hb.
    pose proof (search_inv_visit _ _ _ Hinv Hq Hb Hs) as Hinv'. split; [done|].
    pose proof (order_length _ Hinv') as Hn. simpl in Hn. rewrite length_app in *. simpl in *.
    assert (Hx : x < n) by (apply (inv_lt _ Hinv); right; rewrite Hq; by left).
    specialize (next_len _ Hx). rewrite length_app.
    replace (n - length (order s)) with (S (n - (length (order s) + 1))) by lia. lia.
Qed.

Lemma search_step_done s vis ord :
  search_inv s → search_step s = inr (vis, ord) →
  vis = list_to_set ord ∧ NoDup ord ∧ ∀ x, x ∈ ord ↔ search_reach roots x.
Proof.
  unfold search_step. intros [Hv Hn Ho Hw Hr Hc Hl].
  destruct (pop (work s)) as [[x q]|] eqn:Hpop.
  { by destruct (_ || _). }
  apply pop_None in Hpop. rewrite Hpop in *. intros [= <- <-].
  split_and!; [done..|]. intros x. split; [by apply Ho|]. intros [Hx (r & Hr' & Hrtc)].
  assert (Hro : skip r = false → r ∈ order s).
  { intros Hsr. destruct (Hr r Hr') as [?|[?|?]]; [done|set_solver|congruence]. }
  clear Hr'. induction Hrtc as [|r y x [Hsr Hy] Hrtc IH]; [by apply Hro|].
  apply IH; [done|]. intros Hsy.
  destruct (Hc r y (Hro Hsr) Hy) as [?|[?|?]]; [done|set_solver|congruence].
Qed.

(** The search terminates within [search_fuel] iterations and visits exactly
    the reachable nodes, each once. *)
Lemma search_correct (step : search_state → outcome (search_state + (gset nat * list nat))) :
  (∀ s, search_inv s → step s = Ret (search_step s)) →
  ∃ vis ord, loop search_fuel step search_init = Ret (vis, ord) ∧
    vis = list_to_set ord ∧ NoDup ord ∧ ∀ x, x ∈ ord ↔ search_reach roots x.
Proof.
  intros Hstep.
  destruct (loop_total step search_inv search_measure
    (λ r, r.1 = list_to_set r.2 ∧ NoDup r.2 ∧ ∀ x, x ∈ r.2 ↔ search_reach roots x))
    with (fuel := search_fuel) (s := search_init) as ([vis ord] & Hr & HQ).
  - intros s Hinv. rewrite Hstep by done.
    destruct (search_step s) as [s'|[vis ord]] eqn:E.
    + left. exists s'. split; [done|]. by apply search_step_progress.
    + right. exists (vis, ord). split; [done|]. by apply (search_step_done s).
  - apply search_inv_init.
  - unfold search_measure, search_fuel. simpl. lia.
  - by exists vis, ord.
Qed.

End search.

(** The two disciplines. *)
Lemma vec_pop_perm {A} (q : list A) x q' : vec_pop q = Some (x, q') → q ≡ₚ x :: q'.
Proof. intros ->%vec_pop_Some. by rewrite Permutation_app_comm. Qed.

(** [queue.first().copied()] followed by [queue.remove(0)]. *)
Definition vec_pop_front {A} (q : list A) : option (A * list A) :=
  match q with [] => None | x :: q' => Some (x, q') end.

Lemma vec_pop_front_perm {A} (q : list A) x q' : vec_pop_front q = Some (x, q') → q ≡ₚ x :: q'.
Proof. by destruct q; intros [= <- <-]. Qed.

Lemma vec_pop_front_None {A} (q : list A) : vec_pop_front q = None → q = [].
Proof. by destruct q. Qed.
