(* ===== verification/MirExec.v ===== *)
(** * An operational semantics of MIR control flow

    The abstract specification against which switch folding is judged: a small
    step semantics of the terminators that the Triton backend accepts
    ([codegen_terminator]; every other kind is a [todo!] there), over an
    environment that gives the value of a scalar local or the discriminant of an
    enum local, which is the one the enum declares for the variant, not the index
    of the variant.  Rvalues other than constants, copies of whole locals and
    discriminant reads may produce anything; writes through a projection may
    change any local whose address is taken.  Unwinding is not modelled: kernels
    have no panic infrastructure. *)
From S2P Require Import Prelude Mir.

Section exec.
Context (instantiate : Const → Const).
(** The bits of the discriminant that an enum type declares for a variant. *)
Context (discr_of : Ty → nat → option Z).

(** The bits of a constant operand. *)
Definition eval_const (c : Const) : option Z :=
  match instantiate c with
  | ConstVal (CvScalar (ScalarInt_ s)) _ => Some (to_bits_unchecked s)
  | ConstTy _ (CkValue cv) => to_bits_unchecked <$> valtree_try_to_leaf cv.2
  | _ => None
  end.

Implicit Types env : gmap Local Z.

(** [Some w]: the rvalue evaluates to [w] ([None] when it reads an
    uninitialised local); [None]: unconstrained. *)
Definition rvalue_value env (rv : Rvalue) : option (option Z) :=
  match rv with
  | Use (Constant c) => Some <$> eval_const c
  | Use op => (λ q, env !! q) <$> operand_as_local op
  | Discriminant p => if no_projection p then Some (env !! pl_local p) else None
  | _ => None
  end.

Definition place_borrowed (l : Local) (s : StatementKind) : bool :=
  match s with
  | Assign _ (RvRef _ p) | Assign _ (RvRawPtr _ p) | Assign _ (Reborrow _ _ p) => pl_local p =? l
  | _ => false
  end.

(** Some statement takes the address of [l]. *)
Definition borrowed (mir : Body) (l : Local) : bool :=
  existsb (λ d, existsb (place_borrowed l) (statements d)) (basic_blocks mir).

(** [env'] differs from [env] at most on [l] and on borrowed locals. *)
Definition may_write (mir : Body) (l : Local) env env' : Prop :=
  ∀ x, x ≠ l → borrowed mir x = false → env' !! x = env !! x.

(** What setting the discriminant of a local to that of a variant stores. *)
Definition variant_discr (mir : Body) (l : Local) (vi : nat) : option Z :=
  t ← local_decls mir !! l; discr_of t vi.

Inductive exec_stmt (mir : Body) env : StatementKind → gmap Local Z → Prop :=
  | exec_assign p rv w :
      no_projection p = true →
      match rvalue_value env rv with Some v => w = v | None => is_Some w end →
      exec_stmt mir env (Assign p rv) (partial_alter (λ _, w) (pl_local p) env)
  | exec_assign_proj p rv env' :
      no_projection p = false → may_write mir (pl_local p) env env' →
      exec_stmt mir env (Assign p rv) env'
  | exec_set_discriminant p vi v :
      no_projection p = true → variant_discr mir (pl_local p) vi = Some v →
      exec_stmt mir env (SetDiscriminant p vi) (<[pl_local p := v]> env)
  | exec_set_discriminant_proj p vi env' :
      no_projection p = false → may_write mir (pl_local p) env env' →
      exec_stmt mir env (SetDiscriminant p vi) env'
  | exec_storage_live l : exec_stmt mir env (StorageLive l) (delete l env)
  | exec_storage_dead l : exec_stmt mir env (StorageDead l) (delete l env)
  | exec_other s :
      match s with
      | Assign _ _ | SetDiscriminant _ _ | StorageLive _ | StorageDead _ => false
      | _ => true
      end = true →
      exec_stmt mir env s env.

Inductive exec_stmts (mir : Body) : gmap Local Z → list StatementKind → gmap Local Z → Prop :=
  | exec_nil env : exec_stmts mir env [] env
  | exec_cons env1 env2 env3 s l :
      exec_stmt mir env1 s env2 → exec_stmts mir env2 l env3 → exec_stmts mir env1 (s :: l) env3.

Definition operand_value env (op : Operand) : option Z :=
  match op with
  | Constant c => eval_const c
  | _ => q ← operand_as_local op; env !! q
  end.

Inductive exec_term (mir : Body) env : TerminatorKind → BasicBlock → gmap Local Z → Prop :=
  | exec_goto t : exec_term mir env (Goto t) t env
  | exec_switch_known discr t v bb :
      operand_value env discr = Some v → Switch.target_for_value t v = Ret bb →
      exec_term mir env (SwitchInt discr t) bb env
  | exec_switch_unknown discr t bb :
      operand_value env discr = None → operand_as_local discr = None → bb ∈ st_targets t →
      exec_term mir env (SwitchInt discr t) bb env
  | exec_call func args dest t u env' :
      may_write mir (pl_local dest) env env' →
      exec_term mir env (Call func args dest (Some t) u) t env'
  | exec_drop p t u d env' :
      may_write mir (pl_local p) env env' → exec_term mir env (Drop p t u d) t env'
  | exec_assert c e m t u : exec_term mir env (Assert c e m t u) t env.

(** One block: its statements, then its terminator. *)
Definition exec_step (mir : Body) (c1 c2 : BasicBlock * gmap Local Z) : Prop :=
  ∃ d k env, block_at mir c1.1 = Ret d ∧ terminator d = Ret k ∧
    exec_stmts mir c1.2 (statements d) env ∧ exec_term mir env k c2.1 c2.2.

Definition exec_steps (mir : Body) : relation (BasicBlock * gmap Local Z) := rtc (exec_step mir).
End exec.

(** ** Single assignment

    The locals that a statement or terminator writes, whole or in part. *)
Definition stmt_writes (s : StatementKind) : list Local :=
  match s with
  | Assign p _ | SetDiscriminant p _ => [pl_local p]
  | _ => []
  end.

Definition term_writes (k : TerminatorKind) : list Local :=
  match k with
  | Call _ _ dest _ _ => [pl_local dest]
  | Drop p _ _ _ => [pl_local p]
  | _ => []
  end.

Definition block_writes (d : BasicBlockData) : list Local :=
  concat (stmt_writes <$> statements d) ++
  match terminator_opt d with Some k => term_writes k | None => [] end.

Definition body_writes (mir : Body) : list Local := concat (block_writes <$> basic_blocks mir).

Definition written_once (mir : Body) (l : Local) : bool :=
  length (filter (.= l) (body_writes mir)) =? 1.

Section writes.
Context (mir : Body).
Implicit Types (l : Local) (s : StatementKind).

Definition stmts_writes : list Local := concat (stmt_writes <$> all_statements mir).
Definition terms_writes : list Local :=
  concat ((λ d, match terminator_opt d with Some k => term_writes k | None => [] end)
            <$> basic_blocks mir).

Lemma body_writes_perm : body_writes mir ≡ₚ stmts_writes ++ terms_writes.
Proof.
  unfold body_writes, stmts_writes, terms_writes, all_statements, block_writes.
  induction (basic_blocks mir) as [|d ds IH]; simpl; [done|].
  rewrite IH, fmap_app, concat_app. solve_Permutation.
Qed.

Lemma filter_elem_pos l (xs : list nat) : l ∈ xs → 1 ≤ length (filter (.= l) xs).
Proof.
  intros [i Hi]%list_elem_of_lookup. assert (l ∈ filter (.= l) xs).
  { apply list_elem_of_filter. split; [done|]. by eapply list_elem_of_lookup_2. }
  destruct (filter _ xs); [set_solver|simpl; lia].
Qed.

(** A local written once is written by at most one statement, and then by no
    terminator. *)
Lemma written_once_stmt l s1 s2 :
  written_once mir l = true → s1 ∈ all_statements mir → s2 ∈ all_statements mir →
  l ∈ stmt_writes s1 → l ∈ stmt_writes s2 → s1 = s2.
Proof.
  unfold written_once. rewrite Nat.eqb_eq, body_writes_perm, filter_app, length_app.
  unfold stmts_writes. intros Hone [l1 [l2 E]]%list_elem_of_split Hs2 Hw1 Hw2.
  rewrite E in *. rewrite fmap_app, fmap_cons, concat_app in Hone. simpl in Hone.
  rewrite !filter_app, !length_app in Hone.
  pose proof (filter_elem_pos _ _ Hw1) as H1.
  assert (Hpos : ∀ ls, s2 ∈ ls → 1 ≤ length (filter (.= l) (concat (stmt_writes <$> ls)))).
  { intros ls Hin. apply filter_elem_pos, elem_of_concat.
    exists (stmt_writes s2). split; [done|]. by apply list_elem_of_fmap_2. }
  apply elem_of_app in Hs2 as [Hin|[->|Hin]%elem_of_cons]; [|done|];
    specialize (Hpos _ Hin); lia.
Qed.

Lemma written_once_term l s bb d k :
  written_once mir l = true → s ∈ all_statements mir → l ∈ stmt_writes s →
  basic_blocks mir !! bb = Some d → terminator_opt d = Some k → l ∉ term_writes k.
Proof.
  unfold written_once. rewrite Nat.eqb_eq, body_writes_perm, filter_app, length_app.
  intros Hone Hs Hw Hd Hk Hin.
  assert (1 ≤ length (filter (.= l) stmts_writes)).
  { apply filter_elem_pos, elem_of_concat. exists (stmt_writes s).
    split; [done|]. by apply list_elem_of_fmap_2. }
  assert (1 ≤ length (filter (.= l) terms_writes)); [|lia].
  apply filter_elem_pos, elem_of_concat. exists (term_writes k). split; [done|].
  apply list_elem_of_fmap. exists d. rewrite Hk. split; [done|].
  by eapply list_elem_of_lookup_2.
Qed.
End writes.
