(* ===== verification/TritonCfg.v ===== *)
(** * Control-flow analyses of the Triton backend

    [rustc_codegen_llvm/src/mlir/codegen/triton/mod.rs], first part: the
    pre-scan for statically known discriminants ([compute_const_disc_locals],
    [extract_switch_const]) and the reachability analysis that folds switches on
    them ([compute_reachable_blocks]).

    [instantiate] stands for
    [Instance::instantiate_mir_and_normalize_erasing_regions], a query of the
    type system. *)
From S2P Require Import Prelude Mir Worklist.

(** ** Statically known discriminants *)
Section const_disc.
Context (instantiate : Const → Const).

(** The closure [extract_scalar_const]: [s.to_bits_unchecked() as u64]. *)
Definition extract_scalar_const (c : Const) : option Z :=
  match instantiate c with
  | ConstVal (CvScalar (ScalarInt_ s)) _ => Some (as_u 64 (to_bits_unchecked s))
  | ConstTy _ ck =>
      match ck with
      | CkValue cv => (λ s, as_u 64 (to_bits_unchecked s)) <$> valtree_try_to_leaf cv.2
      | _ => None
      end
  | _ => None
  end.

(** Pass 1: [SetDiscriminant] statements and plain scalar constants. *)
Definition pass1_stmt (result : gmap Local Z) (s : StatementKind) : gmap Local Z :=
  match s with
  | SetDiscriminant place variant_index =>
      if no_projection place then <[pl_local place := Z.of_nat variant_index]> result else result
  | Assign place (Use (Constant c)) =>
      if no_projection place then
        match extract_scalar_const c with
        | Some v => <[pl_local place := v]> result
        | None => result
        end
      else result
  | _ => result
  end.

(** Pass 2: one statement of the propagation through discriminant reads and
    copies; the flag records a local that was not known before. *)
Definition known_rvalue (result : gmap Local Z) (rv : Rvalue) : option Z :=
  match rv with
  | Discriminant src => result !! pl_local src
  | Use (Copy p) | Use (Move p) =>
      if no_projection p then result !! pl_local p else None
  | _ => None
  end.

Definition pass2_stmt (st : gmap Local Z * bool) (s : StatementKind) : gmap Local Z * bool :=
  let '(result, changed) := st in
  match s with
  | Assign place rvalue =>
      if no_projection place then
        match known_rvalue result rvalue with
        | Some v =>
            (<[pl_local place := v]> result,
             match result !! pl_local place with None => true | Some _ => changed end)
        | None => (result, changed)
        end
      else (result, changed)
  | _ => (result, changed)
  end.

(** One round of the [while changed] loop. *)
Definition pass2_step (mir : Body) (result : gmap Local Z)
    : outcome (gmap Local Z + gmap Local Z) :=
  let '(result', changed) := foldl pass2_stmt (result, false) (all_statements mir) in
  Ret (if changed then inl result' else inr result').

Definition compute_const_disc_locals (fuel : nat) (mir : Body) : outcome (gmap Local Z) :=
  loop fuel (pass2_step mir) (foldl pass1_stmt ∅ (all_statements mir)).

(** Rounds that are always enough: every round but the last makes a new local
    known, and only targets of statements become known. *)
Definition const_disc_fuel (mir : Body) : nat := S (length (all_statements mir)).

(** [extract_switch_const] *)
Definition extract_switch_const (discr : Operand) (const_disc_locals : gmap Local Z) : option Z :=
  match discr with
  | Constant c => extract_scalar_const c
  | Copy p | Move p => if no_projection p then const_disc_locals !! pl_local p else None
  | RuntimeChecks => None
  end.

(** ** Reachable blocks *)

(** The blocks pushed on the worklist for a terminator, in order. *)
Definition push_targets (const_disc_locals : gmap Local Z) (k : TerminatorKind)
    : outcome (list BasicBlock) :=
  match k with
  | Goto target => Ret [target]
  | SwitchInt discr targets =>
      match extract_switch_const discr const_disc_locals with
      | Some const_val =>
          match Switch.find_value const_val (Switch.iter targets) with
          | Some bb => Ret [bb]
          | None => o ← Switch.otherwise targets; Ret [o]
          end
      | None => o ← Switch.otherwise targets; Ret (vec_push (Switch.iter targets).*2 o)
      end
  | Return | Unreachable => Ret []
  | Call _ _ _ target _ => Ret (option_list target)
  | Drop _ target _ _ => Ret [target]
  | Assert _ _ _ target _ => Ret [target]
  | _ => Ret (successors k)
  end.

(** One iteration of [while let Some(bb) = queue.pop()]. *)
Definition reachable_step (mir : Body) (const_disc_locals : gmap Local Z) (s : search_state)
    : outcome (search_state + (gset BasicBlock * list BasicBlock)) :=
  match vec_pop (work s) with
  | None => Ret (inr (visited s, order s))
  | Some (bb, queue) =>
      if bool_decide (bb ∈ visited s) then Ret (inl (mkSearch (visited s) (order s) queue))
      else
        bb_data ← block_at mir bb;
        k ← terminator bb_data;
        match k with
        | Unreachable => Ret (inl (mkSearch (visited s) (order s) queue))
        | _ =>
            ts ← push_targets const_disc_locals k;
            Ret (inl (mkSearch ({[bb]} ∪ visited s) (vec_push (order s) bb) (queue ++ ts)))
        end
  end.

Definition compute_reachable_blocks (fuel : nat) (mir : Body) (const_disc_locals : gmap Local Z)
    : outcome (gset BasicBlock * list BasicBlock) :=
  loop fuel (reachable_step mir const_disc_locals) (mkSearch ∅ [] [0]).
End const_disc.

(** ** What the pre-scan is meant to compute

    [derives mir l v]: some statement gives [l] the value [v], directly or
    through discriminant reads and copies of whole locals. *)
Inductive derives (instantiate : Const → Const) (mir : Body) : Local → Z → Prop :=
  | derives_set place vi :
      SetDiscriminant place vi ∈ all_statements mir → no_projection place = true →
      derives instantiate mir (pl_local place) (Z.of_nat vi)
  | derives_const place c v :
      Assign place (Use (Constant c)) ∈ all_statements mir → no_projection place = true →
      extract_scalar_const instantiate c = Some v →
      derives instantiate mir (pl_local place) v
  | derives_disc place src v :
      Assign place (Discriminant src) ∈ all_statements mir → no_projection place = true →
      derives instantiate mir (pl_local src) v →
      derives instantiate mir (pl_local place) v
  | derives_copy place op q v :
      Assign place (Use op) ∈ all_statements mir → no_projection place = true →
      operand_as_local op = Some q →
      derives instantiate mir q v →
      derives instantiate mir (pl_local place) v.

(** The whole local that a statement gives a new value or discriminant. *)
Definition stmt_target (s : StatementKind) : option Local :=
  match s with
  | Assign p _ | SetDiscriminant p _ => if no_projection p then Some (pl_local p) else None
  | _ => None
  end.

(** The blocks control may flow to from [bb] after folding. *)
Definition folded_targets (instantiate : Const → Const) (cdl : gmap Local Z) (mir : Body)
    (bb : BasicBlock) : list BasicBlock :=
  match terminator_at mir bb with
  | Ret k => match push_targets instantiate cdl k with Ret ts => ts | _ => [] end
  | _ => []
  end.

(** Iterations that are always enough: each block is expanded at most once and
    pushes at most [max_successors] entries. *)
Definition reachable_fuel (mir : Body) : nat :=
  search_fuel (length (basic_blocks mir)) (max_successors mir) [0].

Section const_disc_facts.
Context (instantiate : Const → Const) (mir : Body).
Abbreviation derives := (derives instantiate mir).
Abbreviation stmts := (all_statements mir).
Implicit Types r : gmap Local Z.

Definition disc_sound r : Prop := ∀ l v, r !! l = Some v → derives l v.
Definition targets (l : list StatementKind) : gset Local :=
  list_to_set (omap stmt_target l).

Lemma elem_of_targets (l : list StatementKind) s x :
  s ∈ l → stmt_target s = Some x → x ∈ targets l.
Proof. intros. apply elem_of_list_to_set, list_elem_of_omap. eauto. Qed.

Lemma disc_sound_insert r l v : disc_sound r → derives l v → disc_sound (<[l:=v]> r).
Proof. intros Hr Hl l' v' H. apply lookup_insert_Some in H as [[<- <-]|[_ ?]]; auto. Qed.

Lemma known_rvalue_sound r place rv v :
  disc_sound r → Assign place rv ∈ stmts → no_projection place = true →
  known_rvalue r rv = Some v → derives (pl_local place) v.
Proof.
  intros Hr Hin Hp. destruct rv as [[]| | | | | | | |src| | | |]; simpl; try done.
  1, 2: destruct (no_projection p) eqn:Hq; [|done]; intros Hv;
    (eapply derives_copy; [done|done| |by apply Hr]); simpl; by rewrite Hq.
  intros Hv. eapply derives_disc; [done..|]. by apply Hr.
Qed.

Lemma known_rvalue_dom r1 r2 rv :
  dom r1 = dom r2 → is_Some (known_rvalue r1 rv) → is_Some (known_rvalue r2 rv).
Proof.
  intros Hd. assert (∀ l, is_Some (r1 !! l) → is_Some (r2 !! l)).
  { intros l. by rewrite <-!elem_of_dom, Hd. }
  destruct rv as [[]| | | | | | | | | | | |]; simpl; try done; try destruct (no_projection _); auto.
Qed.

Lemma targets_cons s l : targets (s :: l) = targets [s] ∪ targets l.
Proof. unfold targets. simpl. destruct (stmt_target s); simpl; set_solver. Qed.
Lemma targets_head s l : targets [s] ⊆ targets (s :: l).
Proof. rewrite (targets_cons s l). set_solver. Qed.
Lemma targets_tail s l : targets l ⊆ targets (s :: l).
Proof. rewrite (targets_cons s l). set_solver. Qed.

Lemma union_chain (a b c d e f : gset nat) :
  c ⊆ b ∪ e → b ⊆ a ∪ d → d ⊆ f → e ⊆ f → c ⊆ a ∪ f.
Proof. set_solver. Qed.

(** Pass 1 *)
Lemma pass1_stmt_sound r s : s ∈ stmts → disc_sound r → disc_sound (pass1_stmt instantiate r s).
Proof.
  intros Hin Hr. destruct s as [place rv| |place vi| | | | | | | | |]; simpl; try done.
  - destruct rv as [[]| | | | | | | | | | | |]; try done.
    destruct (no_projection place) eqn:Hp; [|done].
    destruct (extract_scalar_const _ _) eqn:Hc; [|done].
    apply disc_sound_insert; [done|]. by eapply derives_const.
  - destruct (no_projection place) eqn:Hp; [|done].
    apply disc_sound_insert; [done|]. by apply derives_set.
Qed.

Lemma pass1_stmt_dom r s :
  dom r ⊆ dom (pass1_stmt instantiate r s) ∧
  dom (pass1_stmt instantiate r s) ⊆ dom r ∪ targets [s].
Proof.
  destruct s as [place rv| |place vi| | | | | | | | |]; simpl; try set_solver.
  - destruct rv as [[]| | | | | | | | | | | |]; simpl; try set_solver.
    destruct (no_projection place) eqn:Hp; [|set_solver].
    destruct (extract_scalar_const _ _); [|set_solver].
    rewrite dom_insert_L. unfold targets. simpl. rewrite Hp. simpl. set_solver.
  - destruct (no_projection place) eqn:Hp; [|set_solver].
    rewrite dom_insert_L. unfold targets. simpl. rewrite Hp. simpl. set_solver.
Qed.

Lemma pass1_sound (l : list StatementKind) r :
  l ⊆ stmts → disc_sound r → disc_sound (foldl (pass1_stmt instantiate) r l).
Proof.
  revert r. induction l as [|s l IH]; intros r Hl Hr; simpl; [done|].
  apply IH; [set_solver|]. apply pass1_stmt_sound; [set_solver|done].
Qed.

Lemma pass1_dom (l : list StatementKind) r :
  dom r ⊆ dom (foldl (pass1_stmt instantiate) r l) ∧
  dom (foldl (pass1_stmt instantiate) r l) ⊆ dom r ∪ targets l.
Proof.
  revert r. induction l as [|s l IH]; intros r; simpl; [set_solver|].
  destruct (IH (pass1_stmt instantiate r s)), (pass1_stmt_dom r s).
  rewrite targets_cons. set_solver.
Qed.

(** A statement of pass 1 makes its target known whatever comes before. *)
Lemma pass1_known s l r x :
  s ∈ l → (∀ r', x ∈ dom (pass1_stmt instantiate r' s)) →
  x ∈ dom (foldl (pass1_stmt instantiate) r l).
Proof.
  intros Hin Hs. revert r. induction l as [|s' l IH]; intros r; [set_solver|]. simpl.
  apply elem_of_cons in Hin as [<-|Hin]; [|by apply IH].
  by apply (pass1_dom l), Hs.
Qed.

(** Pass 2 *)
Definition saturated r (s : StatementKind) : Prop :=
  ∀ place rv, s = Assign place rv → no_projection place = true →
    is_Some (known_rvalue r rv) → pl_local place ∈ dom r.

(** What a run of pass 2 over [l] does, from [(r, c)] to [(r', c')]. *)
Definition pass2_rel (l : list StatementKind) (r : gmap Local Z) (c : bool)
    (r' : gmap Local Z) (c' : bool) : Prop :=
  disc_sound r' ∧ dom r ⊆ dom r' ∧ dom r' ⊆ dom r ∪ targets l ∧
  (c' = true → c = true ∨ ∃ x, x ∈ targets l ∧ x ∉ dom r ∧ x ∈ dom r') ∧
  (c' = false → c = false ∧ dom r' = dom r ∧ ∀ s, s ∈ l → saturated r s).

Lemma pass2_stmt_spec r c s :
  s ∈ stmts → disc_sound r →
  pass2_rel [s] r c (pass2_stmt (r, c) s).1 (pass2_stmt (r, c) s).2.
Proof.
  intros Hin Hr.
  assert (saturated r s → pass2_rel [s] r c r c) as Hid.
  { intros Hs. split_and!; [done|set_solver|set_solver|by left|].
    intros ->. split_and!; [done|done|]. by intros ? ->%list_elem_of_singleton. }
  destruct s as [place rv| | | | | | | | | | |]; simpl;
    try (apply Hid; intros ?? [=]; fail).
  destruct (no_projection place) eqn:Hp; simpl; cycle 1.
  { apply Hid. intros ?? [= <- <-]. congruence. }
  destruct (known_rvalue r rv) as [v|] eqn:Hk; simpl; cycle 1.
  { apply Hid. intros ?? [= <- <-] _ [v Hv]. congruence. }
  assert (Ht : pl_local place ∈ targets [Assign place rv]).
  { eapply elem_of_targets; [by left|]. simpl. by rewrite Hp. }
  split_and!.
  - apply disc_sound_insert; [done|]. by eapply known_rvalue_sound.
  - rewrite dom_insert_L. set_solver.
  - rewrite dom_insert_L. set_solver.
  - destruct (r !! pl_local place) eqn:Hl; [by left|]. intros _. right.
    exists (pl_local place). split_and!; [done|by apply not_elem_of_dom|].
    rewrite dom_insert_L. set_solver.
  - destruct (r !! pl_local place) eqn:Hl; [|done]. intros ->.
    assert (pl_local place ∈ dom r) by by apply elem_of_dom_2 in Hl.
    split_and!; [done|rewrite dom_insert_L; set_solver|].
    intros s' ->%list_elem_of_singleton ?? [= <- <-]. done.
Qed.

Lemma saturated_dom r1 r2 s : dom r1 = dom r2 → saturated r1 s → saturated r2 s.
Proof.
  intros Hd Hs place rv -> Hp Hk. rewrite <-Hd. eapply Hs; [done..|].
  by eapply known_rvalue_dom.
Qed.

Lemma pass2_spec (l : list StatementKind) r c :
  l ⊆ stmts → disc_sound r →
  pass2_rel l r c (foldl pass2_stmt (r, c) l).1 (foldl pass2_stmt (r, c) l).2.
Proof.
  revert r c. induction l as [|s l IH]; intros r c Hl Hr; cbn [foldl].
  { split_and!; [done|done|by intros x ?; apply elem_of_union_l|by left|].
    cbn [fst snd]. intros ->. split_and!; [done..|]. by intros ? ?%elem_of_nil. }
  destruct (pass2_stmt_spec r c s) as (Hr1 & Hd1 & Hd1' & Ht1 & Hf1); [set_solver|done|].
  destruct (pass2_stmt (r, c) s) as [r1 c1] eqn:E1. cbn [fst snd] in *.
  destruct (IH r1 c1) as (Hr2 & Hd2 & Hd2' & Ht2 & Hf2); [set_solver|done|].
  destruct (foldl pass2_stmt (r1, c1) l) as [r2 c2] eqn:E2. cbn [fst snd] in *.
  pose proof (targets_head s l) as Hsub. pose proof (targets_tail s l) as Hsub'.
  split_and!; [done|by etrans|by eapply union_chain| |].
  - intros Hc2. destruct (Ht2 Hc2) as [Hc1|(x & ? & ? & ?)].
    + destruct (Ht1 Hc1) as [?|(x & ? & ? & ?)]; [by left|]. right. exists x. split_and!; auto.
    + right. exists x. split_and!; auto.
  - intros Hc2. destruct (Hf2 Hc2) as (Hc1 & Hd & Hs2). destruct (Hf1 Hc1) as (-> & Hd' & Hs1).
    split_and!; [done|congruence|].
    intros s' [->|Hs']%elem_of_cons; [apply Hs1; by left|].
    apply (saturated_dom r1); [done|]. by apply Hs2.
Qed.

(** The pre-scan terminates within [const_disc_fuel] rounds; what it records
    follows from the statements, and it records a value for every local for
    which some value follows. *)
Lemma const_disc_spec :
  ∃ r, compute_const_disc_locals instantiate (const_disc_fuel mir) mir = Ret r ∧
    disc_sound r ∧ (∀ l v, derives l v → is_Some (r !! l)).
Proof.
  set (r0 := foldl (pass1_stmt instantiate) ∅ stmts).
  assert (Hr0 : disc_sound r0) by (apply pass1_sound; [set_solver|done]).
  assert (Hd0 : dom r0 ⊆ targets stmts).
  { destruct (pass1_dom stmts ∅). set_solver. }
  destruct (loop_total (pass2_step mir)
    (λ r, disc_sound r ∧ dom r0 ⊆ dom r ∧ dom r ⊆ targets stmts)
    (λ r, size (targets stmts ∖ dom r))
    (λ r, disc_sound r ∧ dom r0 ⊆ dom r ∧ ∀ s, s ∈ stmts → saturated r s))
    with (fuel := const_disc_fuel mir) (s := r0) as (r & Hr & Hs & Hd & Hsat).
  - intros r (Hr & Hd & Hd'). unfold pass2_step.
    destruct (pass2_spec stmts r false) as (Hr1 & Hd1 & Hd1' & Ht1 & Hf1); [set_solver|done|].
    destruct (foldl pass2_stmt (r, false) stmts) as [r1 c1] eqn:E. simpl in *.
    destruct c1.
    + left. exists r1. split_and!; [done|done|set_solver|set_solver|].
      destruct (Ht1 eq_refl) as [?|(x & ? & ? & ?)]; [done|].
      apply subset_size. split; set_solver.
    + right. exists r1. destruct (Hf1 eq_refl) as (_ & Hd2 & Hs2).
      split_and!; [done|done|set_solver|]. intros s Hin. eapply saturated_dom; [done|auto].
  - split_and!; done.
  - unfold const_disc_fuel. apply Nat.lt_succ_r.
    trans (size (targets stmts)); [apply subseteq_size; set_solver|]. unfold targets.
    etrans; [apply size_list_to_set_le|]. apply length_omap_le.
  - exists r. split_and!; [done|done|]. intros l v Hlv. apply elem_of_dom.
    induction Hlv as [place vi Hin Hp|place c v Hin Hp Hc|place src v Hin Hp _ IH|place op q v Hin Hp Ho _ IH].
    + apply Hd. eapply pass1_known; [done|]. intros r'. simpl. rewrite Hp, dom_insert_L. set_solver.
    + apply Hd. eapply pass1_known; [done|]. intros r'. simpl. rewrite Hp, Hc, dom_insert_L. set_solver.
    + eapply Hsat; [done..|]. simpl. by apply elem_of_dom.
    + eapply Hsat; [done..|]. destruct op as [p|p| |]; simpl in *; try done;
        destruct (no_projection p); simplify_eq; by apply elem_of_dom.
Qed.
End const_disc_facts.

Section reachable_facts.
Context (instantiate : Const → Const) (mir : Body) (cdl : gmap Local Z).
Context (Hok : body_ok mir = true).

Lemma push_targets_ok k :
  terminator_ok (length (basic_blocks mir)) k = true →
  ∃ ts, push_targets instantiate cdl k = Ret ts ∧ ts ⊆ successors k ∧
    length ts ≤ length (successors k).
Proof.
  unfold terminator_ok. rewrite andb_true_iff. intros [_ Hsw].
  destruct k as [| discr t| | | | | ? ? u d|? ? ? tg u| |? ? ? ? u| | | | |]; simpl;
    try (by eexists; split_and!; [done|set_solver|simpl; lia]).
  - destruct (SwitchFacts.otherwise_ok t Hsw) as (o & Ho & Hin).
    pose proof (SwitchFacts.switch_ok_split _ Hsw) as (ts & o' & E & Hlen).
    pose proof (SwitchFacts.iter_targets t) as Hit.
    assert (1 ≤ length (st_targets t)) by (rewrite E, length_app; simpl; lia).
    destruct (extract_switch_const _ _ _) as [v|].
    + destruct (Switch.find_value v (Switch.iter t)) as [bb|] eqn:Hf.
      * apply SwitchFacts.find_value_Some in Hf.
        eexists. split_and!; [done| |done]. set_solver.
      * rewrite Ho. simpl. eexists. split_and!; [done| |done]. set_solver.
    + rewrite Ho. simpl. eexists. split_and!; [done|unfold vec_push; set_solver|].
      unfold vec_push, Switch.iter. rewrite length_app, length_fmap, length_zip_with, E, length_app.
      simpl. lia.
  - destruct u, d; simpl; eexists; (split_and!; [done|set_solver|simpl; lia]).
  - destruct u, tg; simpl; eexists; (split_and!; [done|set_solver|simpl; lia]).
  - destruct u; simpl; eexists; (split_and!; [done|set_solver|simpl; lia]).
Qed.

Lemma folded_targets_spec bb :
  bb < length (basic_blocks mir) →
  ∃ k, terminator_at mir bb = Ret k ∧
    push_targets instantiate cdl k = Ret (folded_targets instantiate cdl mir bb) ∧
    folded_targets instantiate cdl mir bb ⊆ successors k ∧
    length (folded_targets instantiate cdl mir bb) ≤ length (successors k).
Proof.
  intros Hlt. destruct (terminator_at_ok _ _ Hok Hlt) as [k Hk]. exists k.
  destruct (push_targets_ok k) as (ts & Hts & ? & ?); [by eapply terminator_at_terminator_ok|].
  unfold folded_targets. by rewrite Hk, Hts.
Qed.

Lemma folded_targets_lt x y :
  x < length (basic_blocks mir) → y ∈ folded_targets instantiate cdl mir x →
  y < length (basic_blocks mir).
Proof.
  intros Hx Hy. destruct (folded_targets_spec x Hx) as (k & Hk & _ & Hsub & _).
  eapply successors_lt; [done..|]. by apply Hsub.
Qed.

Lemma folded_targets_degree x :
  x < length (basic_blocks mir) →
  length (folded_targets instantiate cdl mir x) ≤ max_successors mir.
Proof.
  intros Hx. destruct (folded_targets_spec x Hx) as (k & Hk & _ & _ & Hlen).
  etrans; [done|]. by eapply successors_le_max.
Qed.

Lemma reachable_step_refines (s : search_state) :
  search_inv (is_unreachable_block mir) (folded_targets instantiate cdl mir)
    (length (basic_blocks mir)) [0] s →
  reachable_step instantiate mir cdl s =
    Ret (search_step vec_pop (is_unreachable_block mir) (folded_targets instantiate cdl mir) s).
Proof.
  intros Hinv. unfold reachable_step, search_step.
  destruct (vec_pop (work s)) as [[bb q]|] eqn:Hpop; [|done].
  case_bool_decide as Hv; [done|]. simpl.
  assert (Hlt : bb < length (basic_blocks mir)).
  { apply (inv_lt _ _ _ _ _ Hinv). right. rewrite (vec_pop_perm _ _ _ Hpop). by left. }
  destruct (folded_targets_spec bb Hlt) as (k & Hk & Hts & _).
  unfold is_unreachable_block. rewrite Hk. unfold terminator_at in Hk.
  destruct (block_at mir bb) as [d| |]; simpl in *; try done. rewrite Hk. simpl.
  rewrite Hts. by destruct k.
Qed.

(** The reachability analysis terminates within [reachable_fuel] iterations,
    does not panic, and returns exactly the blocks that can be reached from
    block 0 along folded edges through blocks that are not [unreachable],
    each listed once. *)
Lemma reachable_spec :
  ∃ vis ord,
    compute_reachable_blocks instantiate (reachable_fuel mir) mir cdl = Ret (vis, ord) ∧
    vis = list_to_set ord ∧ NoDup ord ∧
    ∀ bb, bb ∈ ord ↔
      search_reach (is_unreachable_block mir) (folded_targets instantiate cdl mir) [0] bb.
Proof.
  apply (search_correct vec_pop vec_pop_perm (λ q, proj1 (vec_pop_None q))).
  - apply folded_targets_lt.
  - apply folded_targets_degree.
  - intros r ->%list_elem_of_singleton. unfold body_ok in Hok.
    apply andb_true_iff in Hok as [H _]. destruct (length _); [done|lia].
  - apply reachable_step_refines.
Qed.
End reachable_facts.
