(* ===== verification/TritonFold.v ===== *)
(** * Soundness of switch folding

    [compute_reachable_blocks] drops the blocks that only a folded switch could
    reach.  Against the execution semantics of [MirExec]: when the locals whose
    values were recorded are assigned once and the enums that are set are numbered
    from 0, no block that runs is dropped.  Both conditions are needed: a body that
    assigns a recorded local on two paths, and every enum that declares another
    discriminant than the index. *)
From S2P Require Import Prelude Mir Worklist TritonCfg MirExec.

(** The condition, executable: every recorded local is written by one statement
    or terminator and its address is not taken; constants fit in the [u64] that
    the pre-scan stores; discriminants are read from whole locals. *)
Definition const_fits (instantiate : Const → Const) (c : Const) : bool :=
  match eval_const instantiate c with
  | Some v => (0 <=? v)%Z && (v <? 2 ^ 64)%Z
  | None => true
  end.

Definition foldable_stmt (instantiate : Const → Const) (s : StatementKind) : bool :=
  match s with
  | Assign _ (Use (Constant c)) => const_fits instantiate c
  | Assign _ (Discriminant src) => no_projection src
  | _ => true
  end.

Definition foldable_term (instantiate : Const → Const) (d : BasicBlockData) : bool :=
  match terminator_opt d with
  | Some (SwitchInt (Constant c) _) => const_fits instantiate c
  | _ => true
  end.

Definition foldable (instantiate : Const → Const) (mir : Body) (cdl : gmap Local Z) : bool :=
  forallb (λ p : Local * Z, written_once mir p.1 && negb (borrowed mir p.1)) (map_to_list cdl) &&
  forallb (foldable_stmt instantiate) (all_statements mir) &&
  forallb (foldable_term instantiate) (basic_blocks mir).

(** The discriminants that statements set are the indices of their variants. *)
Definition index_discr (discr_of : Ty → nat → option Z) (mir : Body) (s : StatementKind) : bool :=
  match s with
  | SetDiscriminant p vi =>
      match variant_discr discr_of mir (pl_local p) vi with Some v => (v =? Z.of_nat vi)%Z | None => true end
  | _ => true
  end.
Definition index_discrs (discr_of : Ty → nat → option Z) (mir : Body) : bool :=
  forallb (index_discr discr_of mir) (all_statements mir).

Section fold.
Context (instantiate : Const → Const) (discr_of : Ty → nat → option Z) (mir : Body) (cdl : gmap Local Z).
Context (Hok : body_ok mir = true) (Hfold : foldable instantiate mir cdl = true).
Context (Hdiscr : index_discrs discr_of mir = true).
Context (Hsound : ∀ l v, cdl !! l = Some v → derives instantiate mir l v).
Context (Hcomplete : ∀ l v, derives instantiate mir l v → is_Some (cdl !! l)).
Implicit Types env : gmap Local Z.

Lemma tracked_once l : is_Some (cdl !! l) → written_once mir l = true ∧ borrowed mir l = false.
Proof.
  intros [v Hv]. unfold foldable in Hfold. rewrite !andb_true_iff in Hfold.
  destruct Hfold as [[H _] _]. rewrite forallb_forall in H.
  specialize (H (l, v)). rewrite <-list_elem_of_In, elem_of_map_to_list in H.
  specialize (H Hv). simpl in H. by rewrite andb_true_iff, negb_true_iff in H.
Qed.

Lemma foldable_stmt_in s : s ∈ all_statements mir → foldable_stmt instantiate s = true.
Proof.
  intros Hs. unfold foldable in Hfold. rewrite !andb_true_iff in Hfold.
  destruct Hfold as [[_ H] _]. rewrite forallb_forall in H. by apply H, list_elem_of_In.
Qed.

Lemma foldable_term_in bb d : basic_blocks mir !! bb = Some d → foldable_term instantiate d = true.
Proof.
  intros Hd. unfold foldable in Hfold. rewrite !andb_true_iff in Hfold.
  destruct Hfold as [_ H]. rewrite forallb_forall in H. apply H, list_elem_of_In.
  by eapply list_elem_of_lookup_2.
Qed.

(** On constants that fit, the recorded value is the value. *)
Lemma extract_eval c v w :
  const_fits instantiate c = true → extract_scalar_const instantiate c = Some v →
  eval_const instantiate c = Some w → v = w.
Proof.
  unfold const_fits, extract_scalar_const, eval_const.
  destruct (instantiate c) as [ty ck|ty|cv ty]; [destruct ck| |destruct cv as [[]| | |]];
    simpl; try done; [destruct (valtree_try_to_leaf _); simpl; [|done]|];
    rewrite andb_true_iff, Z.leb_le, Z.ltb_lt; intros ? [= <-] [= <-]; by apply as_u_id.
Qed.

Lemma extract_eval_none c v :
  extract_scalar_const instantiate c = Some v → is_Some (eval_const instantiate c).
Proof.
  unfold extract_scalar_const, eval_const.
  destruct (instantiate c) as [ty ck|ty|cv ty]; [destruct ck| |destruct cv as [[]| | |]];
    simpl; try done. destruct (valtree_try_to_leaf _); simpl; done.
Qed.

(** The statement behind a recorded value is the only one that writes it. *)
Lemma derives_stmt l v s :
  derives instantiate mir l v → s ∈ all_statements mir → l ∈ stmt_writes s →
  match s with
  | SetDiscriminant p vi => no_projection p = true ∧ v = Z.of_nat vi
  | Assign p rv =>
      no_projection p = true ∧
      match rv with
      | Use (Constant c) => extract_scalar_const instantiate c = Some v
      | Use op => ∃ q, operand_as_local op = Some q ∧ derives instantiate mir q v
      | Discriminant src => derives instantiate mir (pl_local src) v
      | _ => False
      end
  | _ => False
  end.
Proof.
  intros Hd Hs Hw. destruct (tracked_once l (Hcomplete _ _ Hd)) as [Hone _].
  destruct Hd as [p vi Hin Hp|p c v Hin Hp Hc|p src v Hin Hp Hd|p op q v Hin Hp Ho Hd];
    pose proof (written_once_stmt _ _ _ _ Hone Hin Hs) as Heq; simpl in Heq;
    specialize (Heq ltac:(set_solver) Hw); subst s; simpl; try done.
  split; [done|]. destruct op; simpl in *; try done; eauto.
Qed.

Lemma derives_written l v :
  derives instantiate mir l v → ∃ s, s ∈ all_statements mir ∧ l ∈ stmt_writes s.
Proof. intros []; eexists; (split; [done|]); simpl; set_solver. Qed.

Lemma derives_functional l v1 v2 :
  derives instantiate mir l v1 → derives instantiate mir l v2 → v1 = v2.
Proof.
  intros H1. revert v2.
  induction H1 as [p vi Hin Hp|p c v Hin Hp Hc|p src v Hin Hp Hd IH|p op q v Hin Hp Ho Hd IH];
    intros v2 H2; pose proof (derives_stmt _ _ _ H2 Hin) as H; simpl in H;
    specialize (H ltac:(set_solver)).
  - naive_solver.
  - naive_solver.
  - apply IH. naive_solver.
  - apply IH. destruct op; simpl in *; try done; naive_solver.
Qed.

(** The invariant: an initialised recorded local holds the recorded value. *)
Definition agrees env : Prop := ∀ l v w, cdl !! l = Some v → env !! l = Some w → w = v.

Lemma agrees_may_write l env env' :
  cdl !! l = None → agrees env → may_write mir l env env' → agrees env'.
Proof.
  intros Hl Henv Hw x v w Hx Hx'. destruct (tracked_once x ltac:(eauto)) as [_ Hb].
  rewrite Hw in Hx' by (congruence || done). by eapply Henv.
Qed.

Lemma exec_stmt_agrees env s env' :
  s ∈ all_statements mir → exec_stmt instantiate discr_of mir env s env' → agrees env → agrees env'.
Proof.
  intros Hin Hs Henv.
  destruct Hs as [p rv w Hp Hw|p rv env' Hp Hw|p vi d Hp Hvd|p vi env' Hp Hw|l|l|s Hs].
  - intros l v w' Hl Hl'. destruct (decide (l = pl_local p)) as [->|Hne].
    2:{ rewrite lookup_partial_alter_ne in Hl' by done. by eapply Henv. }
    rewrite lookup_partial_alter_eq in Hl'. subst w.
    pose proof (derives_stmt _ _ _ (Hsound _ _ Hl) Hin) as Hd. simpl in Hd.
    destruct (Hd ltac:(set_solver)) as [_ Hrv].
    destruct rv as [op| | | | | | | |src| | | |]; try done.
    + destruct op as [q|q|c|]; simpl in *.
      1, 2: destruct Hrv as (q' & Hq & Hd'); rewrite Hq in Hw; simpl in Hw;
        destruct (Hcomplete _ _ Hd') as [v' Hv']; symmetry in Hw;
        rewrite (Henv _ _ _ Hv' Hw); by eapply derives_functional; [apply Hsound|].
      * destruct (extract_eval_none _ _ Hrv) as [v' Hv']. rewrite Hv' in Hw. simplify_eq/=.
        symmetry. eapply extract_eval; [|done..]. by apply (foldable_stmt_in _ Hin).
      * by destruct Hrv as (? & ? & ?).
    + pose proof (foldable_stmt_in _ Hin) as Hsrc. simpl in Hsrc, Hw. rewrite Hsrc in Hw.
      destruct (Hcomplete _ _ Hrv) as [v' Hv']. symmetry in Hw.
      rewrite (Henv _ _ _ Hv' Hw). by eapply derives_functional; [apply Hsound|].
  - eapply agrees_may_write; [|done..]. destruct (cdl !! pl_local p) eqn:Hl; [|done].
    pose proof (derives_stmt _ _ _ (Hsound _ _ Hl) Hin) as Hd. simpl in Hd.
    destruct (Hd ltac:(set_solver)). congruence.
  - intros l v w' Hl Hl'. apply lookup_insert_Some in Hl' as [[<- <-]|[? ?]]; [|by eapply Henv].
    pose proof (derives_stmt _ _ _ (Hsound _ _ Hl) Hin) as Hd. simpl in Hd.
    destruct (Hd ltac:(set_solver)) as [_ ->].
    unfold index_discrs in Hdiscr. rewrite forallb_forall in Hdiscr.
    specialize (Hdiscr _ (proj1 (list_elem_of_In _ _) Hin)). simpl in Hdiscr. rewrite Hvd in Hdiscr. by apply Z.eqb_eq.
  - eapply agrees_may_write; [|done..]. destruct (cdl !! pl_local p) eqn:Hl; [|done].
    pose proof (derives_stmt _ _ _ (Hsound _ _ Hl) Hin) as Hd. simpl in Hd.
    destruct (Hd ltac:(set_solver)). congruence.
  - intros x v w Hx [_ ?]%lookup_delete_Some. by eapply Henv.
  - intros x v w Hx [_ ?]%lookup_delete_Some. by eapply Henv.
  - done.
Qed.

Lemma exec_stmts_agrees env l env' :
  l ⊆ all_statements mir → exec_stmts instantiate discr_of mir env l env' → agrees env → agrees env'.
Proof.
  intros Hl Hs. induction Hs as [|env1 env2 env3 s l Hs _ IH]; [done|]. intros Henv.
  apply IH; [set_solver|]. eapply exec_stmt_agrees; [|done..]. set_solver.
Qed.

Lemma switch_ok_at bb d discr t :
  basic_blocks mir !! bb = Some d → terminator_opt d = Some (SwitchInt discr t) → switch_ok t = true.
Proof.
  intros Hd Hk. pose proof (terminator_at_terminator_ok mir bb (SwitchInt discr t) Hok) as Hsw.
  unfold terminator_at, block_at, terminator in Hsw. rewrite Hd in Hsw. simpl in Hsw. rewrite Hk in Hsw.
  specialize (Hsw eq_refl). unfold terminator_ok in Hsw. by apply andb_true_iff in Hsw as [_ Hsw].
Qed.

(** The value of a discriminant that folds. *)
Lemma extract_switch_value env bb d discr t v v' :
  basic_blocks mir !! bb = Some d → terminator_opt d = Some (SwitchInt discr t) → agrees env →
  extract_switch_const instantiate discr cdl = Some v' → operand_value instantiate env discr = Some v → v' = v.
Proof.
  intros Hd Hk Henv He Hv. pose proof (foldable_term_in _ _ Hd) as Hft. unfold foldable_term in Hft. rewrite Hk in Hft.
  destruct discr as [q|q|c|]; simpl in *; try done.
  1, 2: destruct (no_projection q); [|done]; simpl in Hv; symmetry; by eapply Henv.
  by eapply extract_eval.
Qed.

(** A terminator goes to a block that the folded analysis pushes. *)
Lemma exec_term_pushed env bb d k bb' env' :
  basic_blocks mir !! bb = Some d → terminator_opt d = Some k → agrees env →
  exec_term instantiate mir env k bb' env' →
  bb' ∈ folded_targets instantiate cdl mir bb ∧ agrees env'.
Proof.
  intros Hd Hk Henv Ht.
  destruct (folded_targets_spec instantiate mir cdl Hok bb) as (k' & Hk' & Hts & _).
  { by eapply lookup_lt_Some. }
  unfold terminator_at, block_at, terminator in Hk'. rewrite Hd in Hk'. simpl in Hk'.
  rewrite Hk in Hk'. simpl in Hk'. injection Hk' as <-.
  assert (Hnw : ∀ l, l ∈ term_writes k → cdl !! l = None).
  { intros l Hin. destruct (cdl !! l) as [v|] eqn:Hl; [|done]. exfalso.
    destruct (tracked_once l ltac:(eauto)) as [Hone _].
    destruct (derives_written _ _ (Hsound _ _ Hl)) as (s & Hs & Hw).
    by eapply (written_once_term mir l s). }
  destruct Ht as [t|discr t v bb' Hv Hbb|discr t bb' Hv Hv' Hbb|func args dest t u env' Hw|p t u dr env' Hw|c e t u];
    simpl in Hts.
  - injection Hts as <-. split; [set_solver|done].
  - split; [|done]. pose proof (switch_ok_at _ _ _ _ Hd Hk) as Hsw.
    destruct (extract_switch_const instantiate discr cdl) as [v'|] eqn:He.
    + assert (v' = v) as -> by (by eapply extract_switch_value).
      unfold Switch.target_for_value in Hbb.
      destruct (Switch.find_value v (Switch.iter t)); simpl in *.
      * injection Hts as <-. injection Hbb as <-. set_solver.
      * rewrite Hbb in Hts. simpl in Hts. injection Hts as <-. set_solver.
    + unfold Switch.target_for_value in Hbb.
      destruct (SwitchFacts.otherwise_ok t Hsw) as (o & Ho & _). rewrite Ho in Hts. simpl in Hts.
      injection Hts as <-. unfold vec_push. rewrite elem_of_app, list_elem_of_singleton.
      destruct (Switch.find_value v (Switch.iter t)) as [b|] eqn:Hf.
      * left. simplify_eq. by eapply SwitchFacts.find_value_Some.
      * right. congruence.
  - split; [|done]. pose proof (switch_ok_at _ _ _ _ Hd Hk) as Hsw.
    assert (extract_switch_const instantiate discr cdl = None) as He.
    { destruct discr as [q|q|c|]; simpl in *; try done; try (by destruct (no_projection q)).
      destruct (extract_scalar_const _ _) eqn:Hc; [|done].
      apply extract_eval_none in Hc. rewrite Hv in Hc. by destruct Hc. }
    rewrite He in Hts.
    pose proof (SwitchFacts.switch_ok_split _ Hsw) as (ts & o & E & Hlen).
    unfold Switch.otherwise in Hts. rewrite E, last_snoc in Hts. simpl in Hts.
    injection Hts as <-. unfold vec_push, Switch.iter. rewrite E in Hbb.
    rewrite E, SwitchFacts.zip_excess by done. rewrite snd_zip by lia. done.
  - injection Hts as <-. split; [set_solver|]. eapply agrees_may_write; [|done..]. apply Hnw. set_solver.
  - injection Hts as <-. split; [set_solver|]. eapply agrees_may_write; [|done..]. apply Hnw. set_solver.
  - injection Hts as <-. split; [set_solver|done].
Qed.
End fold.

(** Runs stay inside what the folded analysis follows. *)
Lemma exec_steps_search (instantiate : Const → Const) (discr_of : Ty → nat → option Z) (mir : Body) (cdl : gmap Local Z) c1 c2 :
  body_ok mir = true → foldable instantiate mir cdl = true → index_discrs discr_of mir = true →
  (∀ l v, cdl !! l = Some v → derives instantiate mir l v) →
  (∀ l v, derives instantiate mir l v → is_Some (cdl !! l)) →
  exec_steps instantiate discr_of mir c1 c2 → agrees cdl c1.2 →
  rtc (search_edge (is_unreachable_block mir) (folded_targets instantiate cdl mir)) c1.1 c2.1.
Proof.
  intros Hok Hfold Hdiscr Hs Hc Hsteps. induction Hsteps as [c|c1 c2 c3 Hstep _ IH]; [done|].
  intros Hagree. destruct Hstep as (d & k & env & Hd & Hk & Hstmts & Hterm).
  unfold block_at, terminator in Hd, Hk.
  destruct (basic_blocks mir !! c1.1) as [d'|] eqn:Hd'; simplify_eq/=.
  destruct (terminator_opt d) as [k'|] eqn:Hk'; simplify_eq/=.
  destruct (exec_term_pushed instantiate discr_of mir cdl Hok Hfold Hdiscr Hs Hc env c1.1 d k c2.1 c2.2)
    as [Hin Hagree']; [done|done| |done|].
  { eapply exec_stmts_agrees; [done..| |done|done]. intros s Hin. apply elem_of_concat.
    exists (statements d). split; [done|]. apply list_elem_of_fmap_2.
    by eapply list_elem_of_lookup_2. }
  eapply rtc_l; [|by apply IH]. split; [|done].
  unfold is_unreachable_block, terminator_at, block_at, terminator.
  rewrite Hd'. simpl. rewrite Hk'. simpl. by destruct Hterm.
Qed.


(** ** Concrete bodies *)
(** An [Option]-like enum, and one with explicit discriminants. *)
Definition plain_enum (_ : Ty) (vi : nat) : option Z := Some (Z.of_nat vi).
Definition idc (c : Const) : Const := c.
Definition const_u32 (v : Z) : Const := ConstVal (CvScalar (ScalarInt_ (mkScalarInt v 4))) (TyUint U32).
Definition whole (l : Local) : Place := mkPlace l [].
Definition block (stmts : list StatementKind) (k : TerminatorKind) : BasicBlockData :=
  mkBlock stmts (Some k).

(** [let flag = const 0; switch flag { 0 => bb1, otherwise => bb2 }]: a constant
    generic flag, the case folding exists for. *)
Definition flag_body : Body := mkBody
  [ block [Assign (whole 1) (Use (Constant (const_u32 0)));
           Assign (whole 2) (Use (Copy (whole 1)))]
      (SwitchInt (Move (whole 2)) (Switch.static_if 0 1 2));
    block [] Return;
    block [] Return ]
  [TyBool; TyUint U32; TyUint U32] 0.


(** [match e { V => 1, _ => 2 }] after the discriminant of [e] is set to that of
    variant [vi], which is [v]. *)
Definition enum_body (ty : Ty) (vi : nat) (v : Z) : Body := mkBody
  [ block [SetDiscriminant (whole 1) vi; Assign (whole 2) (Discriminant (whole 1))]
      (SwitchInt (Move (whole 2)) (Switch.static_if v 1 2));
    block [] Return;
    block [] Return ]
  [TyBool; ty; TyUint U32] 0.



(** [flag] is set to 0 on one path and to 1 on the other, and then switched on:
    what [a && b] compiles to. *)
Definition two_paths_body : Body := mkBody
  [ block [] (SwitchInt (Copy (whole 2)) (Switch.static_if 0 1 2));
    block [Assign (whole 1) (Use (Constant (const_u32 0)))] (Goto 3);
    block [Assign (whole 1) (Use (Constant (const_u32 1)))] (Goto 3);
    block [] (SwitchInt (Copy (whole 1)) (Switch.static_if 0 4 5));
    block [] Return;
    block [] Return ]
  [TyBool; TyUint U32; TyUint U32] 0.

(** Without single assignment folding is not sound: the last constant wins, and
    the block that runs when the first path is taken is dropped. *)
Theorem folding_drops_executed_block :
  ∃ cdl ord env,
    body_ok two_paths_body = true ∧
    compute_const_disc_locals idc (const_disc_fuel two_paths_body) two_paths_body = Ret cdl ∧
    compute_reachable_blocks idc (reachable_fuel two_paths_body) two_paths_body cdl =
      Ret (list_to_set ord, ord) ∧
    exec_steps idc plain_enum two_paths_body (0, {[2 := 0%Z]}) (4, env) ∧
    is_unreachable_block two_paths_body 4 = false ∧ 4 ∉ ord.
Proof.
  exists {[1 := 1%Z]}, [0; 2; 3; 5; 1], (<[1 := 0%Z]> {[2 := 0%Z]}).
  split_and!; try (vm_compute; reflexivity).
  2: { rewrite !not_elem_of_cons. split_and!; [done..|apply not_elem_of_nil]. }
  apply (rtc_l _ _ (1, {[2 := 0%Z]})); [|apply (rtc_l _ _ (3, <[1 := 0%Z]> {[2 := 0%Z]}));
    [|apply (rtc_l _ _ (4, <[1 := 0%Z]> {[2 := 0%Z]})); [|reflexivity]]].
  - eexists _, _, _. split_and!; [reflexivity|reflexivity|apply exec_nil|].
    eapply (exec_switch_known _ _ _ _ _ 0%Z 1); reflexivity.
  - eexists _, _, _. split_and!; [reflexivity|reflexivity| |apply exec_goto].
    eapply exec_cons; [|apply exec_nil].
    apply (exec_assign idc plain_enum two_paths_body _ (whole 1) _ (Some 0%Z)); reflexivity.
  - eexists _, _, _. split_and!; [reflexivity|reflexivity|apply exec_nil|].
    eapply (exec_switch_known _ _ _ _ _ 0%Z 4); reflexivity.
Qed.

(** The visiting order is depth-first, not breadth-first, and not topological:
    on a diamond the join block 3 comes before the branch block 1 it follows. *)
Definition diamond_body : Body := mkBody
  [ block [] (SwitchInt (Copy (whole 1)) (Switch.static_if 0 1 2));
    block [] (Goto 3);
    block [] (Goto 3);
    block [] Return ]
  [TyBool; TyUint U32] 0.

Theorem reachable_order_not_topological :
  compute_reachable_blocks idc (reachable_fuel diamond_body) diamond_body ∅ =
    Ret (list_to_set [0; 2; 3; 1], [0; 2; 3; 1]) ∧
  3 ∈ folded_targets idc ∅ diamond_body 1.
Proof. split; [vm_compute; reflexivity|]. vm_compute. set_solver. Qed.

(** ** The two analyses *)
(** The pre-scan for known discriminants returns on every body within one round
    per statement; every value it reports is derivable from the statements, and
    every local with a derivable value is reported. *)
Theorem const_disc_locals_spec (instantiate : Const → Const) (mir : Body) :
  ∃ r, compute_const_disc_locals instantiate (const_disc_fuel mir) mir = Ret r ∧
    (∀ l v, r !! l = Some v → derives instantiate mir l v) ∧
    (∀ l v, derives instantiate mir l v → is_Some (r !! l)).
Proof.
  destruct (const_disc_spec instantiate mir) as (r & Hr & Hs & Hc). by exists r.
Qed.

(** Reachability returns on every well-formed body, without panicking, and its
    blocks are exactly those that the folded control flow reaches from block 0
    through blocks that do not end in [Unreachable], each listed once. *)
Theorem reachable_blocks_spec (instantiate : Const → Const) (mir : Body) (cdl : gmap Local Z)
    (Hok : body_ok mir = true) :
  ∃ vis ord,
    compute_reachable_blocks instantiate (reachable_fuel mir) mir cdl = Ret (vis, ord) ∧
    vis = list_to_set ord ∧ NoDup ord ∧
    ∀ bb, bb ∈ ord ↔
      search_reach (is_unreachable_block mir) (folded_targets instantiate cdl mir) [0] bb.
Proof. by apply reachable_spec. Qed.

Lemma reachable_blocks_spec_witness :
  body_ok diamond_body = true ∧
  3 ∈ [0; 2; 3; 1] ∧
  search_reach (is_unreachable_block diamond_body) (folded_targets idc ∅ diamond_body) [0] 3.
Proof.
  assert (Hok : body_ok diamond_body = true) by (vm_compute; reflexivity).
  destruct (reachable_blocks_spec idc diamond_body ∅ Hok) as (vis & ord & Hr & _ & _ & Hin).
  assert (Hr' := Hr). vm_compute in Hr'. injection Hr' as _ <-.
  assert (H3 : 3 ∈ [0; 2; 3; 1]) by (right; right; by left).
  split; [exact Hok|]. split; [exact H3|]. by apply Hin.
Defined.
