(* ===== verification/TritonPhi.v ===== *)
(** * Phi placement in the Triton backend

    [compute_phi_join_locals] of
    [rustc_codegen_llvm/src/mlir/codegen/triton/mod.rs]: the predecessor map
    restricted to reachable blocks outside loops, the backward trace along
    linear chains ([collect_chain_locals], with its inner trace above a branch),
    the count of chains per local, and the fixpoint over nested joins.

    Hash sets and hash maps are iterated in the order of a [HashOrder]
    instance; [def_path] stands for [tcx.def_path_str]. *)
From S2P Require Import Prelude Mir.

(** [str::ends_with] *)
Definition ends_with (s suffix : string) : bool :=
  let n := String.length s in let k := String.length suffix in
  (k <=? n) && String.eqb (String.substring (n - k) k s) suffix.

(** [types::is_option_ty] *)
Definition is_option_ty (def_path : DefId → string) (ty : Ty) : bool :=
  match ty with
  | TyAdt def _ =>
      let adt_path := def_path def in
      String.eqb adt_path "core::option::Option" || String.eqb adt_path "std::option::Option" ||
      String.eqb adt_path "Option" || ends_with adt_path "::Option"
  | _ => false
  end.

Definition is_tuple_ty (ty : Ty) : bool := match ty with TyTuple _ => true | _ => false end.

Section phi.
Context `{!HashOrder nat}.
Context (def_path : DefId → string) (mir : Body).
Context (reachable_bbs loop_region_blocks : gset BasicBlock).

(** The closure [|&b| reachable_bbs.contains(&b) && !loop_region_blocks.contains(&b)]. *)
Definition in_region (b : BasicBlock) : bool :=
  bool_decide (b ∈ reachable_bbs) && negb (bool_decide (b ∈ loop_region_blocks)).

(** [pred_map.entry(succ).or_default().insert(bb)] *)
Definition add_pred (bb : BasicBlock) (pm : gmap BasicBlock (gset BasicBlock))
    (succ : BasicBlock) : gmap BasicBlock (gset BasicBlock) :=
  if in_region succ then <[succ := {[bb]} ∪ default ∅ (pm !! succ)]> pm else pm.

Definition pred_map_step (pm : gmap BasicBlock (gset BasicBlock)) (bb : BasicBlock)
    : outcome (gmap BasicBlock (gset BasicBlock)) :=
  if bool_decide (bb ∈ loop_region_blocks) then Ret pm
  else k ← terminator_at mir bb; Ret (foldl (add_pred bb) pm (successors k)).

Definition build_pred_map : outcome (gmap BasicBlock (gset BasicBlock)) :=
  ofold pred_map_step ∅ (set_iter reachable_bbs).

(** Insert the whole locals assigned in block [bb]. *)
Definition insert_assigned (locals : gset Local) (bb : BasicBlock) : outcome (gset Local) :=
  d ← block_at mir bb;
  Ret (locals ∪ list_to_set (omap dest_local (statements d))).

Definition succ_count (bb : BasicBlock) : outcome nat :=
  k ← terminator_at mir bb; Ret (length (List.filter in_region (successors k))).

Context (pred_map : gmap BasicBlock (gset BasicBlock)).

Definition filtered_preds (bb : BasicBlock) : list BasicBlock :=
  match pred_map !! bb with
  | Some ps => List.filter in_region (set_iter ps)
  | None => []
  end.

(** The inner [loop]: ancestors of a branch block, while each has a single
    predecessor that is not itself a branch. *)
Definition ancestor_step (st : BasicBlock * gset Local)
    : outcome (BasicBlock * gset Local + gset Local) :=
  let '(ancestor, locals) := st in
  match filtered_preds ancestor with
  | [prev] =>
      locals' ← insert_assigned locals prev;
      c ← succ_count prev;
      Ret (if c =? 1 then inl (prev, locals') else inr locals')
  | _ => Ret (inr locals)
  end.

(** The outer [loop] of [collect_chain_locals]; the state is
    [(locals, current, visited)]. *)
Definition chain_step (fuel : nat) (join_preds : gset BasicBlock)
    (known_phis : gmap BasicBlock (list Local)) (st : gset Local * BasicBlock * gset BasicBlock)
    : outcome (gset Local * BasicBlock * gset BasicBlock + gset Local) :=
  let '(locals, current, visited) := st in
  if bool_decide (current ∈ visited) then Ret (inr locals)
  else
    locals' ← insert_assigned locals current;
    c ← succ_count current;
    if negb (c =? 1) then
      locals'' ← loop fuel ancestor_step (current, locals'); Ret (inr locals'')
    else
      match filtered_preds current with
      | [prev] =>
          if bool_decide (prev ∈ join_preds) then Ret (inr locals')
          else Ret (inl (locals', prev, {[current]} ∪ visited))
      | _ => Ret (inr (locals' ∪ list_to_set (default [] (known_phis !! current))))
      end.

Definition collect_chain_locals (fuel : nat) (start : BasicBlock) (join_preds : gset BasicBlock)
    (known_phis : gmap BasicBlock (list Local)) : outcome (gset Local) :=
  loop fuel (chain_step fuel join_preds known_phis) (∅, start, ∅).

(** [chain_count.entry(local).or_insert(0)] with the discovery order. *)
Definition count_local (st : gmap Local nat * list Local) (local : Local)
    : gmap Local nat * list Local :=
  let '(chain_count, local_order) := st in
  let entry := default 0 (chain_count !! local) in
  (<[local := S entry]> chain_count,
   if entry =? 0 then vec_push local_order local else local_order).

Definition count_chain (fuel : nat) (preds : gset BasicBlock)
    (known_phis : gmap BasicBlock (list Local)) (st : gmap Local nat * list Local)
    (pred_bb : BasicBlock) : outcome (gmap Local nat * list Local) :=
  ls ← collect_chain_locals fuel pred_bb preds known_phis;
  Ret (foldl count_local st (set_iter ls)).

(** Keep a local counted on every chain that is neither an option nor a tuple;
    [chain_count[&local]] panics on a missing key. *)
Definition select_phi (preds : gset BasicBlock) (chain_count : gmap Local nat)
    (phi_locals : list Local) (local : Local) : outcome (list Local) :=
  c ← unwrap (chain_count !! local);
  if c <? size preds then Ret phi_locals
  else
    raw_ty ← local_ty mir local;
    if is_option_ty def_path raw_ty then Ret phi_locals
    else if is_tuple_ty raw_ty then Ret phi_locals
    else Ret (vec_push phi_locals local).

Definition phi_locals_of (fuel : nat) (preds : gset BasicBlock)
    (known_phis : gmap BasicBlock (list Local)) : outcome (list Local) :=
  st ← ofold (count_chain fuel preds known_phis) (∅, []) (set_iter preds);
  let '(chain_count, local_order) := st in
  ofold (select_phi preds chain_count) [] local_order.

(** One join block of a round. *)
Definition round_join (fuel : nat) (known_phis : gmap BasicBlock (list Local))
    (new_result : gmap BasicBlock (list Local)) (join_bb : BasicBlock)
    : outcome (gmap BasicBlock (list Local)) :=
  preds ← unwrap (pred_map !! join_bb);
  if size preds <? 2 then Ret new_result
  else
    phi_locals ← phi_locals_of fuel preds known_phis;
    Ret (match phi_locals with [] => new_result | _ => <[join_bb := phi_locals]> new_result end).

Definition phi_round (fuel : nat) (known_phis : gmap BasicBlock (list Local))
    : outcome (gmap BasicBlock (list Local)) :=
  ofold (round_join fuel known_phis) ∅ (set_iter (dom pred_map)).

(** [result.values().map(|v| v.len()).sum()] *)
Definition phi_total (result : gmap BasicBlock (list Local)) : nat :=
  sum_list (length <$> (map_to_list result).*2).

Definition phi_step (fuel : nat) (result : gmap BasicBlock (list Local))
    : outcome (gmap BasicBlock (list Local) + gmap BasicBlock (list Local)) :=
  new_result ← phi_round fuel result;
  Ret (if phi_total new_result =? phi_total result then inr new_result else inl new_result).
End phi.

(** [fuel] bounds the chain traces, [rounds] the fixpoint. *)
Definition compute_phi_join_locals `{!HashOrder nat} (fuel rounds : nat) (def_path : DefId → string)
    (mir : Body) (reachable_bbs loop_region_blocks : gset BasicBlock)
    : outcome (gmap BasicBlock (list Local)) :=
  pred_map ← build_pred_map mir reachable_bbs loop_region_blocks;
  loop rounds (phi_step def_path mir reachable_bbs loop_region_blocks pred_map fuel) ∅.

Definition phi_fuel (mir : Body) : nat := S (length (basic_blocks mir)).
Definition phi_rounds (mir : Body) : nat :=
  S (S (length (basic_blocks mir) * length (local_decls mir))).
