(* ===== verification/TritonPhiFacts.v ===== *)
(** * Phi placement: termination and the least fixpoint

    The trace above a branch keeps no visited set; it terminates because each
    step goes to the single predecessor of a block through that predecessor's
    single successor.  The rounds stop when the number of phis stops growing;
    because a round is monotone this is a fixpoint, and the least one. *)
From S2P Require Import Prelude Mir TritonPhi.

(** The successors of a block, for stating specifications. *)
Definition succs_of (mir : Body) (bb : BasicBlock) : list BasicBlock :=
  match terminator_at mir bb with Ret k => successors k | _ => [] end.

(** The pointwise inclusion of phi assignments, as sets. *)
Definition phis_at (K : gmap BasicBlock (list Local)) (b : BasicBlock) : list Local :=
  default [] (K !! b).
Definition phi_le (K K' : gmap BasicBlock (list Local)) : Prop :=
  ∀ b l, l ∈ phis_at K b → l ∈ phis_at K' b.

#[export] Instance phi_le_preorder : PreOrder phi_le.
Proof. split; unfold phi_le; [by intros ?|intros ???; naive_solver]. Qed.

Section phi_facts.
Context `{!HashOrder nat}.
Context (mir : Body).
Context (reachable_bbs loop_region_blocks : gset BasicBlock).
Context (Hok : body_ok mir = true).
Context (Hreach : ∀ b, b ∈ reachable_bbs → b < length (basic_blocks mir)).
Abbreviation n := (length (basic_blocks mir)).
Abbreviation in_region := (in_region reachable_bbs loop_region_blocks).
Implicit Types (pm : gmap BasicBlock (gset BasicBlock)) (K : gmap BasicBlock (list Local)).

Lemma in_region_spec b : in_region b = true ↔ b ∈ reachable_bbs ∧ b ∉ loop_region_blocks.
Proof.
  unfold TritonPhi.in_region.
  by rewrite andb_true_iff, negb_true_iff, bool_decide_eq_true, bool_decide_eq_false.
Qed.

Lemma in_region_lt b : in_region b = true → b < n.
Proof. intros [? _]%in_region_spec. by apply Hreach. Qed.

Lemma add_pred_spec bb pm l x p :
  p ∈ default ∅ (foldl (add_pred reachable_bbs loop_region_blocks bb) pm l !! x) ↔
  p ∈ default ∅ (pm !! x) ∨ (p = bb ∧ in_region x = true ∧ x ∈ l).
Proof.
  revert pm. induction l as [|s l IH]; intros pm; simpl; [set_solver|].
  rewrite IH. unfold add_pred. destruct (in_region s) eqn:Hs; simpl.
  - rewrite lookup_insert. case_decide as Hsx; simpl; [subst|]; set_solver.
  - split; [set_solver|]. intros [?|(-> & Hx & [->|?]%elem_of_cons)]; [by left|congruence|set_solver].
Qed.

(** The predecessor map is the inverse of the successor relation inside the
    region. *)
Definition pred_map_ok pm : Prop := ∀ x p,
  p ∈ default ∅ (pm !! x) ↔
    p ∈ reachable_bbs ∧ p ∉ loop_region_blocks ∧ in_region x = true ∧ x ∈ succs_of mir p.

Lemma build_pred_map_ok :
  ∃ pm, build_pred_map mir reachable_bbs loop_region_blocks = Ret pm ∧ pred_map_ok pm.
Proof.
  destruct (ofold_total (pred_map_step mir reachable_bbs loop_region_blocks)
    (λ pre pm, ∀ x p, p ∈ default ∅ (pm !! x) ↔
       p ∈ pre ∧ p ∉ loop_region_blocks ∧ in_region x = true ∧ x ∈ succs_of mir p)
    (set_iter reachable_bbs) ∅) as (pm & Hpm & Hspec).
  - intros x p. rewrite lookup_empty. simpl.
    split; [by intros ?%not_elem_of_empty|by intros [?%elem_of_nil _]].
  - intros pre bb pm Hbb Hpm. unfold pred_map_step. rewrite elem_of_set_iter in Hbb.
    case_bool_decide as Hl.
    + exists pm. split; [done|]. intros x p. rewrite Hpm, elem_of_app, list_elem_of_singleton.
      naive_solver.
    + destruct (terminator_at_ok _ _ Hok (Hreach _ Hbb)) as [k Hk]. rewrite Hk. simpl.
      eexists. split; [done|]. intros x p.
      rewrite add_pred_spec, Hpm, elem_of_app, list_elem_of_singleton.
      assert (succs_of mir bb = successors k) as <- by (unfold succs_of; by rewrite Hk).
      naive_solver.
  - exists pm. split; [done|]. intros x p. rewrite Hspec. by rewrite elem_of_set_iter.
Qed.

(** ** The trace over a given predecessor map *)
Context (pm : gmap BasicBlock (gset BasicBlock)) (Hpm : pred_map_ok pm).
Abbreviation filtered_preds := (filtered_preds reachable_bbs loop_region_blocks pm).
Abbreviation succ_count := (succ_count mir reachable_bbs loop_region_blocks).
Abbreviation ancestor_step := (ancestor_step mir reachable_bbs loop_region_blocks pm).

Lemma elem_of_filtered_preds x p :
  p ∈ filtered_preds x ↔ in_region p = true ∧ in_region x = true ∧ x ∈ succs_of mir p.
Proof.
  unfold TritonPhi.filtered_preds. specialize (Hpm x p). rewrite !in_region_spec in *.
  destruct (pm !! x) as [ps|]; simpl in *.
  - rewrite elem_of_filter_b, elem_of_set_iter, in_region_spec, Hpm. tauto.
  - split; [by intros ?%elem_of_nil|]. intros ?. exfalso.
    apply (not_elem_of_empty (C:=gset nat) p), Hpm. tauto.
Qed.

Lemma insert_assigned_ok locals bb :
  bb < n → ∃ ls, insert_assigned mir locals bb = Ret (locals ∪ ls) ∧
    (∀ l, l ∈ ls → l < length (local_decls mir)).
Proof.
  intros Hlt. destruct (lookup_lt_is_Some_2 _ _ Hlt) as [d Hd].
  unfold insert_assigned, block_at. rewrite Hd. simpl. eexists. split; [done|].
  intros l [s [Hs Hl]]%elem_of_list_to_set%list_elem_of_omap.
  pose proof (body_ok_block _ _ _ Hok Hd) as Hb. unfold block_ok in Hb.
  apply andb_true_iff in Hb as [_ Hb]. rewrite forallb_forall in Hb.
  specialize (Hb s). rewrite <-list_elem_of_In, Hl in Hb. by apply Nat.ltb_lt, Hb.
Qed.

Lemma succ_count_ok bb :
  bb < n → succ_count bb = Ret (length (List.filter in_region (succs_of mir bb))).
Proof.
  intros Hlt. destruct (terminator_at_ok _ _ Hok Hlt) as [k Hk].
  unfold TritonPhi.succ_count, succs_of. by rewrite Hk.
Qed.

(** Two blocks whose single predecessor is the same one-successor block are equal. *)
Lemma single_pred_inj x y p :
  filtered_preds x = [p] → filtered_preds y = [p] → succ_count p = Ret 1 → x = y.
Proof.
  intros Hx Hy Hc.
  assert (Hpx : p ∈ filtered_preds x) by (rewrite Hx; by left).
  assert (Hpy : p ∈ filtered_preds y) by (rewrite Hy; by left).
  rewrite elem_of_filtered_preds in *. destruct Hpx as (Hp & Hxr & Hxs), Hpy as (_ & Hyr & Hys).
  rewrite succ_count_ok in Hc by by apply in_region_lt. injection Hc as Hc.
  assert (Hxf : x ∈ List.filter in_region (succs_of mir p)) by by apply elem_of_filter_b.
  assert (Hyf : y ∈ List.filter in_region (succs_of mir p)) by by apply elem_of_filter_b.
  destruct (List.filter _ _) as [|z [|]]; simpl in *; try done. set_solver.
Qed.

(** The path the trace has followed: newest first, each block the single
    predecessor, with a single successor, of the next. *)
Inductive trace (start : BasicBlock) : list BasicBlock → Prop :=
  | trace_start : trace start [start]
  | trace_step p x path :
      trace start (x :: path) → filtered_preds x = [p] → succ_count p = Ret 1 →
      trace start (p :: x :: path).

Lemma trace_elem start path y :
  trace start path → y ∈ path → y = start ∨ ∃ x, x ∈ tail path ∧ filtered_preds x = [y] ∧ succ_count y = Ret 1.
Proof.
  intros Ht. revert y. induction Ht as [|p x path Ht IH Hp Hc]; intros y Hy; [set_solver|].
  apply elem_of_cons in Hy as [->|Hy].
  - right. exists x. simpl. split_and!; [by left|done..].
  - destruct (IH y Hy) as [?|(z & Hz & ?)]; [by left|]. right. exists z. simpl.
    split; [|done]. by right.
Qed.

Lemma trace_nodup start path :
  succ_count start ≠ Ret 1 → trace start path → NoDup path.
Proof.
  intros Hs Ht. induction Ht as [|p x path Ht IH Hp Hc]; [apply NoDup_singleton|].
  apply NoDup_cons. split; [|done]. intros Hin.
  destruct (trace_elem _ _ _ Ht Hin) as [->|(z & Hz & Hzp & _)]; [done|].
  assert (z = x) as -> by by eapply single_pred_inj. simpl in Hz.
  apply NoDup_cons in IH. by destruct IH.
Qed.

Lemma trace_lt start path : start < n → trace start path → path ⊆ seq 0 n.
Proof.
  intros Hs Ht. induction Ht as [|p x path Ht IH Hp Hc].
  - intros y ->%list_elem_of_singleton. apply elem_of_seq. lia.
  - intros y [->|Hy]%elem_of_cons; [|by apply IH].
    assert (p ∈ filtered_preds x) as Hpx by (rewrite Hp; by left).
    apply elem_of_filtered_preds in Hpx as [Hpx%in_region_lt _]. apply elem_of_seq. lia.
Qed.

(** The trace above a branch terminates within [n] iterations although it
    keeps no visited set. *)
Lemma ancestor_loop_ok fuel start cur path locals :
  start < n → succ_count start ≠ Ret 1 → trace start (cur :: path) →
  n < fuel + length (cur :: path) →
  (∀ l, l ∈ locals → l < length (local_decls mir)) →
  ∃ ls, loop fuel ancestor_step (cur, locals) = Ret ls ∧
    (∀ l, l ∈ ls → l < length (local_decls mir)).
Proof.
  intros Hs Hc. revert cur path locals.
  induction fuel as [|f IH]; intros cur path locals Ht Hf Hl.
  { pose proof (NoDup_length_le _ _ (trace_nodup _ _ Hc Ht) (trace_lt _ _ Hs Ht)) as H.
    rewrite length_seq in H. lia. }
  simpl. destruct (filtered_preds cur) as [|p [|]] eqn:Hp; simpl; [by eauto| |by eauto].
  assert (Hpl : p < n).
  { assert (p ∈ filtered_preds cur) as Hpx by (rewrite Hp; by left).
    by apply elem_of_filtered_preds in Hpx as [?%in_region_lt _]. }
  destruct (insert_assigned_ok locals p Hpl) as (ls & -> & Hls). simpl.
  rewrite (succ_count_ok p Hpl). simpl.
  destruct (_ =? 1) eqn:E; simpl; [|exists (locals ∪ ls); set_solver].
  apply Nat.eqb_eq in E. apply (IH p (cur :: path)); [|simpl in *; lia|set_solver].
  apply trace_step; [done..|]. by rewrite succ_count_ok, E.
Qed.

(** ** Chains

  The blocks a chain visits do not depend on the phis known so far; these only
  contribute at the join the chain stops at, if it stops at one. *)
Definition inner_phis K (stop : option BasicBlock) : gset Local :=
  match stop with Some b => list_to_set (phis_at K b) | None => ∅ end.

Definition blocks : gset nat := list_to_set (seq 0 n).
Lemma size_blocks vis : vis ⊆ blocks → size vis ≤ n.
Proof.
  intros H%subseteq_size. etrans; [done|]. unfold blocks.
  etrans; [apply size_list_to_set_le|]. by rewrite length_seq.
Qed.

Lemma chain_loop_ok fuel f jp locals cur vis :
  n < fuel → cur < n → vis ⊆ blocks → n < f + size vis →
  (∀ l, l ∈ locals → l < length (local_decls mir)) →
  ∃ base stop, (∀ l, l ∈ base → l < length (local_decls mir)) ∧ ∀ K,
    loop f (chain_step mir reachable_bbs loop_region_blocks pm fuel jp K) (locals, cur, vis) =
      Ret (base ∪ inner_phis K stop).
Proof.
  intros Hfuel. revert locals cur vis.
  induction f as [|f IH]; intros locals cur vis Hcur Hvis Hf Hl.
  { apply size_blocks in Hvis. lia. }
  simpl. case_bool_decide as Hv.
  { exists locals, None. split; [done|]. intros K. simpl. by rewrite union_empty_r_L. }
  destruct (insert_assigned_ok locals cur Hcur) as (ls & -> & Hls). simpl.
  rewrite (succ_count_ok cur Hcur). simpl.
  destruct (_ =? 1) eqn:E; simpl; cycle 1.
  { destruct (ancestor_loop_ok fuel cur cur [] (locals ∪ ls)) as (ls' & Hls' & Hb);
      [done| |constructor|simpl; lia|set_solver|].
    { rewrite succ_count_ok by done. intros [= Heq]. by rewrite Heq in E. }
    exists ls', None. split; [done|]. intros K. rewrite Hls'. simpl. by rewrite union_empty_r_L. }
  destruct (filtered_preds cur) as [|p [|]] eqn:Hp.
  - exists (locals ∪ ls), (Some cur). split; [set_solver|done].
  - destruct (bool_decide (p ∈ jp)) eqn:Hj.
    { exists (locals ∪ ls), None. split; [set_solver|]. intros K. simpl. by rewrite union_empty_r_L. }
    simpl. apply IH; [| | |set_solver].
    + assert (p ∈ filtered_preds cur) as Hpx by (rewrite Hp; by left).
      by apply elem_of_filtered_preds in Hpx as [?%in_region_lt _].
    + assert (cur ∈ blocks) by (apply elem_of_list_to_set, elem_of_seq; lia). set_solver.
    + rewrite size_union, size_singleton by set_solver. lia.
  - exists (locals ∪ ls), (Some cur). split; [set_solver|done].
Qed.

Lemma collect_chain_ok fuel start jp :
  n < fuel → start < n →
  ∃ base stop, (∀ l, l ∈ base → l < length (local_decls mir)) ∧ ∀ K,
    collect_chain_locals mir reachable_bbs loop_region_blocks pm fuel start jp K =
      Ret (base ∪ inner_phis K stop).
Proof.
  intros. apply chain_loop_ok; [done|done|set_solver| |set_solver].
  rewrite size_empty. lia.
Qed.
End phi_facts.

(** ** Counting chains *)
Section counting.
Context `{!HashOrder nat}.
Implicit Types (cc : gmap Local nat) (lo : list Local).

Definition occurrences (l : Local) (xs : list Local) : nat := length (filter (.= l) xs).

(** The state after counting [xs]: how often each local occurred, and the
    locals in order of discovery. *)
Definition counted (xs : list Local) (st : gmap Local nat * list Local) : Prop :=
  (∀ l, default 0 (st.1 !! l) = occurrences l xs) ∧ (∀ l, l ∈ st.2 ↔ l ∈ xs) ∧ NoDup st.2.

Lemma occurrences_app l xs ys : occurrences l (xs ++ ys) = occurrences l xs + occurrences l ys.
Proof. unfold occurrences. by rewrite filter_app, length_app. Qed.

Lemma occurrences_0 l xs : occurrences l xs = 0 ↔ l ∉ xs.
Proof.
  unfold occurrences. rewrite length_zero_iff_nil. split.
  - intros E Hin. apply (not_elem_of_nil l). rewrite <-E. by apply list_elem_of_filter.
  - intros Hn. destruct (filter (.= l) xs) as [|y ys] eqn:E; [done|]. exfalso.
    assert (y ∈ filter (.= l) xs) as [-> ?]%list_elem_of_filter by (rewrite E; by left). done.
Qed.

Lemma occurrences_nodup l xs : NoDup xs → occurrences l xs = if decide (l ∈ xs) then 1 else 0.
Proof.
  induction 1 as [|x xs Hx Hxs IH]; [done|]. unfold occurrences in *. simpl.
  destruct (decide (x = l)) as [->|Hne].
  - rewrite filter_cons_True by done. simpl. rewrite decide_True by by left.
    rewrite decide_False in IH by done. lia.
  - rewrite filter_cons_False by done. rewrite IH.
    destruct (decide (l ∈ xs)); [rewrite decide_True; [done|by right]|].
    rewrite decide_False; [done|]. by intros [?|?]%elem_of_cons.
Qed.

Lemma counted_step xs st l : counted xs st → counted (xs ++ [l]) (count_local st l).
Proof.
  destruct st as [cc lo]. intros (Hcc & Hlo & Hnd). simpl in *. split_and!; simpl.
  - intros x. rewrite occurrences_app, lookup_insert. unfold occurrences at 2.
    case_decide as Hx; simpl.
    + subst x. rewrite filter_cons_True by done. simpl. rewrite Hcc. lia.
    + rewrite filter_cons_False by congruence. simpl. rewrite Hcc. lia.
  - intros x. rewrite elem_of_app, list_elem_of_singleton, Hcc.
    destruct (_ =? 0) eqn:E.
    + unfold vec_push. by rewrite elem_of_app, list_elem_of_singleton, Hlo.
    + rewrite Hlo. apply Nat.eqb_neq in E. rewrite occurrences_0 in E.
      destruct (decide (l ∈ xs)); [|done]. naive_solver.
  - rewrite Hcc. destruct (_ =? 0) eqn:E; [|done].
    apply Nat.eqb_eq, occurrences_0 in E. apply NoDup_snoc; [by rewrite Hlo|done].
Qed.

Lemma counted_fold xs ys st :
  counted xs st → counted (xs ++ ys) (foldl count_local st ys).
Proof.
  revert xs st. induction ys as [|y ys IH]; intros xs st Hst; simpl; [by rewrite app_nil_r|].
  change (y :: ys) with ([y] ++ ys). rewrite app_assoc. by apply IH, counted_step.
Qed.

(** Occurrences in the concatenation of sets: the number of sets. *)
Lemma occurrences_sets {A} (C : A → gset Local) (ps : list A) l :
  occurrences l (concat ((λ p, set_iter (C p)) <$> ps)) =
    length (List.filter (λ p, bool_decide (l ∈ C p)) ps).
Proof.
  induction ps as [|p ps IH]; [done|]. rewrite fmap_cons. cbn [concat List.filter].
  rewrite occurrences_app, IH, occurrences_nodup by apply NoDup_set_iter.
  destruct (decide (l ∈ set_iter (C p))) as [Hd|Hd]; rewrite elem_of_set_iter in Hd.
  - by rewrite bool_decide_true.
  - by rewrite bool_decide_false.
Qed.

Lemma filter_length_all {A} (f : A → bool) (ps : list A) :
  length (List.filter f ps) < length ps ↔ ¬ (∀ p, p ∈ ps → f p = true).
Proof.
  split.
  - intros Hlt Hall. assert (List.filter f ps = ps) as E; [|rewrite E in Hlt; lia].
    apply forallb_filter_id, forallb_forall. intros p Hp. by apply Hall, list_elem_of_In.
  - intros Hn. destruct (decide (length (List.filter f ps) = length ps)) as [E|].
    + exfalso. apply Hn. intros p Hp. apply filter_length_forallb in E.
      rewrite forallb_forall in E. by apply E, list_elem_of_In.
    + pose proof (filter_length_le f ps). lia.
Qed.
End counting.

(** ** One round *)
Section round.
Context `{!HashOrder nat}.
Context (def_path : DefId → string) (mir : Body).
Context (reachable_bbs loop_region_blocks : gset BasicBlock).
Context (Hok : body_ok mir = true).
Context (Hreach : ∀ b, b ∈ reachable_bbs → b < length (basic_blocks mir)).
Context (pm : gmap BasicBlock (gset BasicBlock)).
Context (Hpm : pred_map_ok mir reachable_bbs loop_region_blocks pm).
Context (fuel : nat) (Hfuel : length (basic_blocks mir) < fuel).
Implicit Types (K : gmap BasicBlock (list Local)) (ps : gset BasicBlock).
Abbreviation collect :=
  (collect_chain_locals mir reachable_bbs loop_region_blocks pm fuel).

(** The locals of the chain from predecessor [p]. *)
Definition chain ps K (p : BasicBlock) : gset Local :=
  match collect p ps K with Ret s => s | _ => ∅ end.

(** The type test of the round: neither an option nor a tuple. *)
Definition plain_local (l : Local) : bool :=
  match local_decls mir !! l with
  | Some ty => negb (is_option_ty def_path ty) && negb (is_tuple_ty ty)
  | None => false
  end.

Definition bounded K : Prop := ∀ b l, l ∈ phis_at K b → l < length (local_decls mir).

Lemma preds_lt j ps p : pm !! j = Some ps → p ∈ ps → p < length (basic_blocks mir).
Proof.
  intros Hj Hp. destruct (Hpm j p) as [H _]. rewrite Hj in H. simpl in H.
  apply Hreach. by apply H.
Qed.

Lemma chain_ok j ps p :
  pm !! j = Some ps → p ∈ ps →
  ∃ base stop, (∀ l, l ∈ base → l < length (local_decls mir)) ∧
    ∀ K, collect p ps K = Ret (base ∪ inner_phis K stop).
Proof.
  intros. eapply collect_chain_ok; [done..|]. by eapply preds_lt.
Qed.

Lemma chain_ret j ps p K : pm !! j = Some ps → p ∈ ps → collect p ps K = Ret (chain ps K p).
Proof.
  intros Hj Hp. destruct (chain_ok j ps p Hj Hp) as (base & stop & _ & H).
  unfold chain. by rewrite H.
Qed.

Lemma chain_bounded j ps p K l :
  pm !! j = Some ps → p ∈ ps → bounded K → l ∈ chain ps K p → l < length (local_decls mir).
Proof.
  intros Hj Hp HK. destruct (chain_ok j ps p Hj Hp) as (base & stop & Hb & H).
  unfold chain. rewrite H. intros [?|Hl]%elem_of_union; [by apply Hb|].
  destruct stop as [b|]; simpl in Hl; [|by apply not_elem_of_empty in Hl].
  apply elem_of_list_to_set in Hl. by eapply HK.
Qed.

Lemma chain_mono j ps p K K' :
  pm !! j = Some ps → p ∈ ps → phi_le K K' → chain ps K p ⊆ chain ps K' p.
Proof.
  intros Hj Hp HK. destruct (chain_ok j ps p Hj Hp) as (base & stop & _ & H).
  unfold chain. rewrite !H. apply union_mono_l.
  destruct stop as [b|]; simpl; [|done]. intros l. rewrite !elem_of_list_to_set. apply HK.
Qed.

(** The locals selected for the join of [ps]. *)
Lemma phi_locals_ok j ps K :
  pm !! j = Some ps → bounded K →
  ∃ v, phi_locals_of def_path mir reachable_bbs loop_region_blocks pm fuel ps K = Ret v ∧
    NoDup v ∧
    (∀ l, l ∈ v → ∀ p, p ∈ ps → l ∈ chain ps K p ∧ plain_local l = true) ∧
    (∀ l p, p ∈ ps → (∀ p, p ∈ ps → l ∈ chain ps K p) → plain_local l = true → l ∈ v).
Proof.
  intros Hj HK. unfold phi_locals_of.
  set (C := chain ps K).
  destruct (ofold_total (count_chain mir reachable_bbs loop_region_blocks pm fuel ps K)
    (λ pre st, counted (concat ((λ p, set_iter (C p)) <$> pre)) st)
    (set_iter ps) (∅, [])) as ([cc lo] & -> & Hcc & Hlo & Hnd).
  { split_and!; [intros l; simpl; by rewrite lookup_empty|done|constructor]. }
  { intros pre p st Hp Hst. rewrite elem_of_set_iter in Hp. unfold count_chain.
    rewrite (chain_ret j ps p K Hj Hp). simpl. eexists. split; [done|].
    rewrite fmap_app, concat_app. simpl. rewrite app_nil_r. by apply counted_fold. }
  simpl in *.
  set (keep := λ l, negb (occurrences l (concat ((λ p, set_iter (C p)) <$> set_iter ps)) <? size ps)
                     && plain_local l).
  assert (Hin : ∀ l, l ∈ lo → ∃ p, p ∈ ps ∧ l ∈ C p).
  { intros l. rewrite Hlo. intros (ls & Hl & Hls)%elem_of_concat.
    apply list_elem_of_fmap in Hls as (p & -> & Hp). rewrite !elem_of_set_iter in *. eauto. }
  destruct (ofold_total (select_phi def_path mir ps cc) (λ pre v, v = List.filter keep pre) lo [])
    as (v & -> & ->); [done| |].
  { intros pre l v Hl ->. destruct (Hin l Hl) as (p & Hp & Hlp). unfold select_phi.
    destruct (cc !! l) as [c|] eqn:Hc; cycle 1.
    { exfalso. specialize (Hcc l). rewrite Hc in Hcc. simpl in Hcc.
      symmetry in Hcc. rewrite occurrences_0 in Hcc. by rewrite <-Hlo in Hcc. }
    specialize (Hcc l). rewrite Hc in Hcc. simpl in *. subst c.
    rewrite List.filter_app. simpl.
    destruct (lookup_lt_is_Some_2 (local_decls mir) l) as [ty Hty].
    { by eapply (chain_bounded j ps p K). }
    unfold local_ty, keep, plain_local. rewrite Hty. simpl.
    destruct (_ <? size ps); simpl; [by rewrite app_nil_r; eauto|].
    destruct (is_option_ty def_path ty); simpl; [by rewrite app_nil_r; eauto|].
    destruct (is_tuple_ty ty); simpl; [by rewrite app_nil_r; eauto|]. eauto. }
  assert (Hkeep : ∀ l, keep l = true ↔ (∀ p, p ∈ ps → l ∈ C p) ∧ plain_local l = true).
  { intros l. unfold keep. rewrite andb_true_iff, negb_true_iff, Nat.ltb_ge, occurrences_sets.
    rewrite <-length_set_iter. rewrite <-Nat.nlt_ge, filter_length_all.
    setoid_rewrite bool_decide_eq_true. setoid_rewrite elem_of_set_iter.
    split; intros [H ?]; (split; [|done]); [|tauto].
    intros p Hp. destruct (decide (l ∈ C p)); [done|]. exfalso. apply H. intros Hall.
    by apply n, Hall. }
  eexists. split; [done|]. split_and!.
  - by apply NoDup_filter_b.
  - intros l [_ [H1 H2]%Hkeep]%elem_of_filter_b p Hp. auto.
  - intros l p Hp Hall Hpl. apply elem_of_filter_b. split; [|by apply Hkeep].
    apply Hlo, elem_of_concat. exists (set_iter (C p)).
    split; [by apply elem_of_set_iter, Hall|]. apply list_elem_of_fmap. exists p.
    by rewrite elem_of_set_iter.
Qed.

(** The specification of a round. *)
Definition round_spec K R : Prop :=
  (∀ j, NoDup (phis_at R j)) ∧
  (∀ j, R !! j ≠ Some []) ∧
  ∀ j l, l ∈ phis_at R j ↔
    ∃ ps, pm !! j = Some ps ∧ 2 ≤ size ps ∧ plain_local l = true ∧
          ∀ p, p ∈ ps → l ∈ chain ps K p.

Lemma round_ok K :
  bounded K →
  ∃ R, phi_round def_path mir reachable_bbs loop_region_blocks pm fuel K = Ret R ∧
    round_spec K R.
Proof.
  intros HK. unfold phi_round.
  destruct (ofold_total
    (round_join def_path mir reachable_bbs loop_region_blocks pm fuel K)
    (λ pre R, (∀ j, NoDup (phis_at R j)) ∧ (∀ j, R !! j ≠ Some []) ∧
       ∀ j l, l ∈ phis_at R j ↔ j ∈ pre ∧
         ∃ ps, pm !! j = Some ps ∧ 2 ≤ size ps ∧ plain_local l = true ∧
               ∀ p, p ∈ ps → l ∈ chain ps K p)
    (set_iter (dom pm)) ∅) as (R & HR & Hnd & Hne & Hspec).
  - unfold phis_at. split_and!; intros j; rewrite lookup_empty; simpl; [constructor|done|].
    intros l. split; [by intros ?%elem_of_nil|by intros [?%elem_of_nil _]].
  - intros pre j R Hj (Hnd & Hne & Hspec). rewrite elem_of_set_iter in Hj.
    apply elem_of_dom in Hj as [ps Hj]. unfold round_join. rewrite Hj. simpl.
    destruct (size ps <? 2) eqn:Hsz.
    + apply Nat.ltb_lt in Hsz. exists R. split_and!; [done..|]. intros j' l. rewrite Hspec.
      rewrite elem_of_app, list_elem_of_singleton. split; [naive_solver|].
      intros [[?| ->] (ps' & Hj' & ? & ?)]; [naive_solver|]. simplify_eq. lia.
    + apply Nat.ltb_ge in Hsz. destruct (size_pos_elem ps Hsz) as [p0 Hp0].
      destruct (phi_locals_ok j ps K Hj HK) as (v & -> & Hvd & Hv1 & Hv2). simpl.
      assert (Hv : ∀ l, l ∈ v ↔ plain_local l = true ∧ ∀ p, p ∈ ps → l ∈ chain ps K p).
      { intros l. split.
        - intros Hl. split; [by apply (Hv1 l Hl p0 Hp0)|]. intros p Hp. by apply (Hv1 l Hl p Hp).
        - intros [? ?]. by eapply Hv2. }
      assert (Hjpre : ∀ j' l, j' ≠ j → l ∈ phis_at R j' ↔ j' ∈ pre ++ [j] ∧
         ∃ ps, pm !! j' = Some ps ∧ 2 ≤ size ps ∧ plain_local l = true ∧
               ∀ p, p ∈ ps → l ∈ chain ps K p).
      { intros j' l Hne'. rewrite Hspec, elem_of_app, list_elem_of_singleton. tauto. }
      destruct v as [|x v].
      * exists R. split_and!; [done..|]. intros j' l. destruct (decide (j' = j)) as [->|Hne'].
        -- split.
           ++ rewrite Hspec. intros [Hpre ?]. split; [|done]. apply elem_of_app. by left.
           ++ intros [_ (ps' & Hj' & _ & Hl)]. simplify_eq. apply Hv in Hl.
              by apply elem_of_nil in Hl.
        -- by apply Hjpre.
      * exists (<[j:=x :: v]> R). unfold phis_at in *. split_and!; [done|..].
        -- intros j'. rewrite lookup_insert. by case_decide.
        -- intros j'. rewrite lookup_insert. by case_decide.
        -- intros j' l. rewrite lookup_insert. case_decide as Hjj; simpl; [|by apply Hjpre].
           subst j'. rewrite Hv, elem_of_app, list_elem_of_singleton. split.
           ++ intros ?. split; [by right|]. eauto.
           ++ intros [_ (ps' & Hj' & _ & ?)]. by simplify_eq.
  - exists R. split; [done|]. split_and!; [done..|]. intros j l. rewrite Hspec, elem_of_set_iter.
    split; [naive_solver|]. intros (ps & Hj & ?). split; [by eapply elem_of_dom_2|]. eauto.
Qed.
End round.
