(* ===== verification/TritonPhiFix.v ===== *)
(** * Phi placement: the least fixpoint *)
From S2P Require Import Prelude Mir TritonPhi TritonPhiFacts.

(** ** Phi assignments as sets of pairs *)
Section pairs.
Implicit Types K R : gmap BasicBlock (list Local).

Definition phi_pairs K : list (BasicBlock * Local) :=
  concat ((λ p : BasicBlock * list Local, (p.1,.) <$> p.2) <$> map_to_list K).

Lemma length_phi_pairs K : length (phi_pairs K) = phi_total K.
Proof.
  unfold phi_pairs, phi_total. induction (map_to_list K) as [|[j ls] l IH]; [done|].
  rewrite !fmap_cons. cbn [concat sum_list]. by rewrite length_app, IH, length_fmap.
Qed.

Lemma elem_of_phi_pairs K j l : (j, l) ∈ phi_pairs K ↔ l ∈ phis_at K j.
Proof.
  unfold phi_pairs, phis_at. rewrite elem_of_concat. split.
  - intros (xs & Hx & Hxs). apply list_elem_of_fmap in Hxs as ([j' ls] & -> & Hj).
    apply elem_of_map_to_list in Hj. apply list_elem_of_fmap in Hx as (l' & [= -> ->] & Hl).
    by rewrite Hj.
  - destruct (K !! j) as [ls|] eqn:Hj; simpl; [|by intros ?%elem_of_nil]. intros Hl.
    exists ((j,.) <$> ls). split; [by apply list_elem_of_fmap_2|].
    apply list_elem_of_fmap. exists (j, ls). by rewrite elem_of_map_to_list.
Qed.

Lemma NoDup_phi_pairs K : (∀ j, NoDup (phis_at K j)) → NoDup (phi_pairs K).
Proof.
  intros HK. unfold phi_pairs.
  assert (Hls : ∀ j ls, (j, ls) ∈ map_to_list K → NoDup ls).
  { intros j ls Hj%elem_of_map_to_list. specialize (HK j). unfold phis_at in HK.
    by rewrite Hj in HK. }
  pose proof (NoDup_fst_map_to_list K) as Hnd.
  induction (map_to_list K) as [|[j ls] l IH]; [constructor|].
  rewrite !fmap_cons in *. cbn [concat fst snd] in *. apply NoDup_cons in Hnd as [Hj Hnd].
  apply NoDup_app. split_and!.
  - apply NoDup_fmap_2; [by intros ?? [= ->]|]. apply (Hls j). by left.
  - intros [j' l'] Hin (xs & Hx & Hxs)%elem_of_concat.
    apply list_elem_of_fmap in Hin as (? & [= -> ->] & _).
    apply list_elem_of_fmap in Hxs as ([j2 ls2] & -> & Hj2).
    apply list_elem_of_fmap in Hx as (? & [= -> ->] & _).
    apply Hj, list_elem_of_fmap. by exists (j2, ls2).
  - apply IH; [|done]. intros ?? ?. eapply Hls. by right.
Qed.

Lemma phi_le_pairs K R : phi_le K R → phi_pairs K ⊆ phi_pairs R.
Proof. intros H [j l]. rewrite !elem_of_phi_pairs. apply H. Qed.

Lemma phi_total_mono K R : (∀ j, NoDup (phis_at K j)) → phi_le K R → phi_total K ≤ phi_total R.
Proof.
  intros HK HR. rewrite <-!length_phi_pairs.
  by apply NoDup_length_le; [apply NoDup_phi_pairs|apply phi_le_pairs].
Qed.

(** Growth by inclusion that does not change the number of phis changes no phi. *)
Lemma phi_total_eq K R :
  (∀ j, NoDup (phis_at K j)) → phi_le K R → phi_total R ≤ phi_total K → phi_le R K.
Proof.
  intros HK HR Ht j l. rewrite <-!elem_of_phi_pairs. intros Hin.
  assert (phi_pairs K ≡ₚ phi_pairs R) as ->; [|done].
  apply submseteq_length_Permutation.
  - apply NoDup_submseteq; [by apply NoDup_phi_pairs|by apply phi_le_pairs].
  - by rewrite !length_phi_pairs.
Qed.

Lemma phi_total_bound K n m :
  (∀ j, NoDup (phis_at K j)) → (∀ j l, l ∈ phis_at K j → j < n ∧ l < m) → phi_total K ≤ n * m.
Proof.
  intros HK Hb. rewrite <-length_phi_pairs.
  trans (length (list_prod (seq 0 n) (seq 0 m))); [|by rewrite length_prod, !length_seq].
  apply NoDup_length_le; [by apply NoDup_phi_pairs|]. intros [j l] Hin.
  apply elem_of_phi_pairs, Hb in Hin as [??].
  apply list_elem_of_In, in_prod; apply in_seq; lia.
Qed.
End pairs.

Section fixpoint.
Context `{!HashOrder nat}.
Context (def_path : DefId → string) (mir : Body).
Context (reachable_bbs loop_region_blocks : gset BasicBlock).
Context (Hok : body_ok mir = true).
Context (Hreach : ∀ b, b ∈ reachable_bbs → b < length (basic_blocks mir)).
Context (pm : gmap BasicBlock (gset BasicBlock)).
Context (Hpm : pred_map_ok mir reachable_bbs loop_region_blocks pm).
Context (fuel : nat) (Hfuel : length (basic_blocks mir) < fuel).
Implicit Types K R : gmap BasicBlock (list Local).
Abbreviation round := (phi_round def_path mir reachable_bbs loop_region_blocks pm fuel).
Abbreviation spec := (round_spec def_path mir reachable_bbs loop_region_blocks pm fuel).

Lemma round_spec_mono K K' R R' : phi_le K K' → spec K R → spec K' R' → phi_le R R'.
Proof.
  intros HK (_ & _ & HR) (_ & _ & HR') j l. rewrite HR, HR'.
  intros (ps & Hj & Hsz & Hpl & Hall). exists ps. split_and!; [done..|]. intros p Hp.
  eapply chain_mono; [done..|]. by apply Hall.
Qed.

Lemma round_spec_bounded K R : bounded mir K → spec K R → bounded mir R.
Proof.
  intros HK (_ & _ & HR) j l. rewrite HR. intros (ps & Hj & Hsz & Hpl & Hall).
  destruct (size_pos_elem ps Hsz) as [p Hp]. eapply chain_bounded; [done..|by apply Hall].
Qed.

Lemma round_spec_key K R j l : spec K R → l ∈ phis_at R j → j < length (basic_blocks mir).
Proof.
  intros (_ & _ & HR). rewrite HR. intros (ps & Hj & Hsz & _).
  destruct (size_pos_elem ps Hsz) as [p Hp]. destruct (Hpm j p) as [H _].
  rewrite Hj in H. destruct (H Hp) as (_ & _ & Hr & _). by eapply in_region_lt.
Qed.

(** A round sees the known phis only as sets. *)
Lemma round_ext K K' : phi_le K K' → phi_le K' K → round K = round K'.
Proof.
  intros H1 H2. unfold phi_round. apply ofold_ext. intros R j _. unfold round_join.
  destruct (pm !! j) as [ps|] eqn:Hj; simpl; [|done]. destruct (_ <? 2); [done|].
  assert (phi_locals_of def_path mir reachable_bbs loop_region_blocks pm fuel ps K =
          phi_locals_of def_path mir reachable_bbs loop_region_blocks pm fuel ps K') as ->; [|done].
  unfold phi_locals_of. f_equal. apply ofold_ext. intros st p Hp. unfold count_chain.
  rewrite elem_of_set_iter in Hp.
  rewrite !(chain_ret mir reachable_bbs loop_region_blocks Hok Hreach pm Hpm fuel Hfuel j ps p) by done.
  simpl. do 3 f_equal. apply (anti_symm (⊆)); by eapply chain_mono.
Qed.

Definition closed K : Prop := ∀ R, round K = Ret R → phi_le R K.

(** The rounds end in the least fixpoint. *)
Lemma phi_loop_ok rounds :
  length (basic_blocks mir) * length (local_decls mir) < rounds →
  ∃ R, loop rounds (phi_step def_path mir reachable_bbs loop_region_blocks pm fuel) ∅ = Ret R ∧
    round R = Ret R ∧ spec R R ∧ ∀ K, bounded mir K → closed K → phi_le R K.
Proof.
  intros Hrounds.
  set (I := λ K, bounded mir K ∧ (∀ j, NoDup (phis_at K j)) ∧
    phi_total K ≤ length (basic_blocks mir) * length (local_decls mir) ∧
    (∀ R, spec K R → phi_le K R) ∧ ∀ K', bounded mir K' → closed K' → phi_le K K').
  apply (loop_total _ I
    (λ K, length (basic_blocks mir) * length (local_decls mir) - phi_total K)); [|..].
  - intros K (HKb & HKn & HKt & Hinc & Hleast).
    destruct (round_ok def_path mir reachable_bbs loop_region_blocks Hok Hreach pm Hpm fuel Hfuel K HKb)
      as (R & HR & Hspec).
    pose proof (Hinc R Hspec) as HKR.
    assert (HRb : bounded mir R) by by eapply round_spec_bounded.
    assert (HRleast : ∀ K', bounded mir K' → closed K' → phi_le R K').
    { intros K' Hb' Hc'.
      destruct (round_ok def_path mir reachable_bbs loop_region_blocks Hok Hreach pm Hpm fuel Hfuel K' Hb')
        as (R' & HR' & Hspec').
      trans R'; [|by apply Hc']. eapply round_spec_mono; [|done..]. by apply Hleast. }
    assert (HRn : ∀ j, NoDup (phis_at R j)) by by apply Hspec.
    pose proof (phi_total_mono K R HKn HKR) as Hle.
    assert (HRt : phi_total R ≤ length (basic_blocks mir) * length (local_decls mir)).
    { apply phi_total_bound; [done|]. intros j l Hl. split; [by eapply round_spec_key|by eapply HRb]. }
    unfold phi_step. rewrite HR. simpl. destruct (_ =? _) eqn:E.
    + right. exists R. split; [done|]. apply Nat.eqb_eq in E.
      assert (HRK : phi_le R K) by (apply phi_total_eq; [done..|lia]).
      assert (HRR : round R = Ret R) by (by rewrite (round_ext R K)).
      split_and!; [done| |done].
      destruct (round_ok def_path mir reachable_bbs loop_region_blocks Hok Hreach pm Hpm fuel Hfuel R HRb)
        as (R' & HR' & Hspec'). rewrite HRR in HR'. by injection HR' as <-.
    + left. exists R. apply Nat.eqb_neq in E. split_and!; [done| |lia].
      split_and!; [done..| |done]. intros R' HR'. by eapply round_spec_mono.
  - unfold I, bounded, phis_at. split_and!.
    + intros b l. rewrite lookup_empty. by intros ?%elem_of_nil.
    + intros j. rewrite lookup_empty. constructor.
    + unfold phi_total. rewrite map_to_list_empty. simpl. lia.
    + intros R _ j l. unfold phis_at. rewrite lookup_empty. by intros ?%elem_of_nil.
    + intros K' _ _ j l. unfold phis_at. rewrite lookup_empty. by intros ?%elem_of_nil.
  - lia.
Qed.
End fixpoint.

(** Whatever the fuel, no phi is listed twice. *)
Lemma phi_joins_nodup `{!HashOrder nat} fuel rounds def_path mir reachable_bbs loop_region_blocks R :
  compute_phi_join_locals fuel rounds def_path mir reachable_bbs loop_region_blocks = Ret R →
  ∀ j, NoDup (phis_at R j).
Proof.
  unfold compute_phi_join_locals. destruct (build_pred_map _ _ _) as [pm| |]; simpl; try done.
  assert (Hsel : ∀ ps cc lo v0 v, NoDup (v0 ++ lo) → ofold (select_phi def_path mir ps cc) v0 lo = Ret v → NoDup v).
  { intros ps cc lo. induction lo as [|l lo IH]; intros v0 v Hnd; [rewrite app_nil_r in Hnd; by intros [= <-]|].
    cbn [ofold]. destruct (select_phi def_path mir ps cc v0 l) as [v1| |] eqn:E; simpl; try done. apply IH.
    unfold select_phi in E. destruct (unwrap (cc !! l)); simpl in E; try done.
    assert (Hskip : NoDup (v0 ++ lo)) by (eapply sublist_NoDup; [exact Hnd|by apply sublist_app; [|apply sublist_cons]]).
    assert (Hpush : NoDup (vec_push v0 l ++ lo)) by (unfold vec_push; by rewrite <-app_assoc).
    destruct (_ <? _); [by injection E as <-|]. destruct (local_ty mir l); simpl in E; try done.
    destruct (is_option_ty def_path _); [by injection E as <-|]. destruct (is_tuple_ty _); by injection E as <-. }
  assert (Hround : ∀ K R', phi_round def_path mir reachable_bbs loop_region_blocks pm fuel K = Ret R' → ∀ j, NoDup (phis_at R' j)).
  { intros K R'. apply (ofold_inv _ (λ R, ∀ j, NoDup (phis_at R j))).
    2: { intros j. unfold phis_at. rewrite lookup_empty. constructor. }
    clear R'. intros R0 j R1 HR0. unfold round_join. destruct (pm !! j) as [ps|]; simpl; [|done].
    destruct (_ <? 2); [by intros [= <-]|]. destruct (phi_locals_of _ _ _ _ _ _ _ _) as [v| |] eqn:E; simpl; try done.
    assert (Hv : NoDup v).
    { unfold phi_locals_of in E. destruct (ofold (count_chain _ _ _ _ _ _ _) (∅, []) _) as [[cc lo]| |] eqn:Ec; simpl in E; try done.
      eapply Hsel, E. apply (ofold_inv _ (λ st : gmap Local nat * list Local, ∃ xs, counted xs st)) in Ec as (xs & _ & _ & Hlo); [done| |].
      - intros st p st' [xs Hxs]. unfold count_chain. destruct (collect_chain_locals _ _ _ _ _ _ _ _) as [ls| |]; simpl; try done.
        intros [= <-]. exists (xs ++ set_iter ls). by apply counted_fold.
      - exists []. by split_and!; [intros l; simpl; rewrite lookup_empty|done|constructor]. }
    destruct v as [|l v]; intros [= <-]; [done|]. intros j'. unfold phis_at. rewrite lookup_insert.
    case_decide; [done|apply HR0]. }
  apply (loop_partial _ (λ R, ∀ j, NoDup (phis_at R j)) (λ R, ∀ j, NoDup (phis_at R j))).
  - intros K x _. unfold phi_step. destruct (phi_round _ _ _ _ _ _ K) as [R'| |] eqn:E; simpl; try done.
    destruct (_ =? _); intros [= <-]; by eapply Hround.
  - intros j. unfold phis_at. rewrite lookup_empty. constructor.
Qed.

(** C8: Phi placement terminates without panicking within [phi_fuel] steps per
    trace and [phi_rounds] rounds, whatever the hash iteration order; although
    the rounds only compare the number of phis, the result is a fixpoint of the
    round, and it is contained in every assignment that a round does not grow. *)
Theorem phi_placement_least_fixpoint `{!HashOrder nat} (def_path : DefId → string) (mir : Body)
    (reachable_bbs loop_region_blocks : gset BasicBlock)
    (Hok : body_ok mir = true)
    (Hreach : ∀ b, b ∈ reachable_bbs → b < length (basic_blocks mir)) :
  ∃ pm R,
    build_pred_map mir reachable_bbs loop_region_blocks = Ret pm ∧
    compute_phi_join_locals (phi_fuel mir) (phi_rounds mir) def_path mir
      reachable_bbs loop_region_blocks = Ret R ∧
    phi_round def_path mir reachable_bbs loop_region_blocks pm (phi_fuel mir) R = Ret R ∧
    ∀ K, bounded mir K →
      closed def_path mir reachable_bbs loop_region_blocks pm (phi_fuel mir) K → phi_le R K.
Proof.
  destruct (build_pred_map_ok mir reachable_bbs loop_region_blocks Hok Hreach) as (pm & Hpm & Hspec).
  destruct (phi_loop_ok def_path mir reachable_bbs loop_region_blocks Hok Hreach pm Hspec
    (phi_fuel mir) ltac:(unfold phi_fuel; lia) (phi_rounds mir) ltac:(unfold phi_rounds; lia))
    as (R & HR & Hfix & _ & Hleast).
  exists pm, R. unfold compute_phi_join_locals. rewrite Hpm. by split_and!.
Qed.

(** C13: A local gets a phi at a join exactly when the join has at least two
    predecessors in the region, the local is on the chain of every one of them
    (assigned on it, or merged at the join where it stops), and its type is
    neither an option nor a tuple; each phi is listed once and no join has an
    empty list. *)
Theorem phi_iff_on_every_chain `{!HashOrder nat} (def_path : DefId → string) (mir : Body)
    (reachable_bbs loop_region_blocks : gset BasicBlock)
    (Hok : body_ok mir = true)
    (Hreach : ∀ b, b ∈ reachable_bbs → b < length (basic_blocks mir)) :
  ∃ pm R,
    compute_phi_join_locals (phi_fuel mir) (phi_rounds mir) def_path mir
      reachable_bbs loop_region_blocks = Ret R ∧
    pred_map_ok mir reachable_bbs loop_region_blocks pm ∧
    (∀ j, NoDup (phis_at R j) ∧ R !! j ≠ Some []) ∧
    ∀ j l, l ∈ phis_at R j ↔
      ∃ ps, pm !! j = Some ps ∧ 2 ≤ size ps ∧ plain_local def_path mir l = true ∧
        ∀ p, p ∈ ps → ∃ ls,
          collect_chain_locals mir reachable_bbs loop_region_blocks pm (phi_fuel mir) p ps R = Ret ls ∧
          l ∈ ls.
Proof.
  destruct (build_pred_map_ok mir reachable_bbs loop_region_blocks Hok Hreach) as (pm & Hpm & Hspec).
  destruct (phi_loop_ok def_path mir reachable_bbs loop_region_blocks Hok Hreach pm Hspec
    (phi_fuel mir) ltac:(unfold phi_fuel; lia) (phi_rounds mir) ltac:(unfold phi_rounds; lia))
    as (R & HR & _ & (Hnd & Hne & HRspec) & _).
  exists pm, R. unfold compute_phi_join_locals. rewrite Hpm. split_and!; [done|done|by split|].
  intros j l. rewrite HRspec.
  split; intros (ps & Hj & Hsz & Hpl & Hall); exists ps; split_and!; try done; intros p Hp.
  - eexists. split; [|by apply (Hall p)].
    eapply chain_ret; [done..|unfold phi_fuel; lia|done|done].
  - destruct (Hall p Hp) as (ls & Hls & Hin). unfold chain. by rewrite Hls.
Qed.

(** ** Concrete bodies *)
Definition phi_whole (l : Local) : Place := mkPlace l [].
Definition phi_const (v : Z) : Rvalue :=
  Use (Constant (ConstVal (CvScalar (ScalarInt_ (mkScalarInt v 4))) (TyUint U32))).

(** [if c { x = 1 } else { x = 2 }]: block 3 is the join. *)
Definition if_else_body : Body := mkBody
  [ mkBlock [] (Some (SwitchInt (Copy (phi_whole 1)) (Switch.static_if 0 1 2)));
    mkBlock [Assign (phi_whole 2) (phi_const 1)] (Some (Goto 3));
    mkBlock [Assign (phi_whole 2) (phi_const 2)] (Some (Goto 3));
    mkBlock [] (Some Return) ]
  [TyBool; TyUint U32; TyUint U32] 0.

(** The same, with the two values returned by calls. *)
Definition if_else_call_body : Body := mkBody
  [ mkBlock [] (Some (SwitchInt (Copy (phi_whole 1)) (Switch.static_if 0 1 2)));
    mkBlock [] (Some (Call RuntimeChecks [] (phi_whole 2) (Some 3) UnwindContinue));
    mkBlock [] (Some (Call RuntimeChecks [] (phi_whole 2) (Some 3) UnwindContinue));
    mkBlock [] (Some Return) ]
  [TyBool; TyUint U32; TyUint U32] 0.

Definition four_blocks : gset BasicBlock := {[0; 1; 2; 3]}.

Lemma phi_placement_least_fixpoint_witness :
  body_ok if_else_body = true ∧ ∃ R,
    compute_phi_join_locals (phi_fuel if_else_body) (phi_rounds if_else_body) (λ _, EmptyString)
      if_else_body four_blocks ∅ = Ret R ∧ R !! 3 = Some [2].
Proof.
  assert (Hok : body_ok if_else_body = true) by (vm_compute; reflexivity).
  assert (Hr : ∀ b, b ∈ four_blocks → b < length (basic_blocks if_else_body)).
  { unfold four_blocks. simpl. intros b Hb. rewrite !elem_of_union, !elem_of_singleton in Hb. lia. }
  destruct (phi_placement_least_fixpoint (λ _, EmptyString) if_else_body four_blocks ∅ Hok Hr)
    as (pm & R & _ & HR & _ & _).
  split; [exact Hok|]. exists R. split; [exact HR|].
  assert (HR' := HR). vm_compute in HR'. injection HR' as <-. reflexivity.
Defined.

Lemma phi_iff_on_every_chain_witness :
  body_ok if_else_body = true ∧ ∃ R,
    compute_phi_join_locals (phi_fuel if_else_body) (phi_rounds if_else_body) (λ _, EmptyString)
      if_else_body four_blocks ∅ = Ret R ∧ ∀ j, NoDup (phis_at R j).
Proof.
  assert (Hok : body_ok if_else_body = true) by (vm_compute; reflexivity).
  assert (Hr : ∀ b, b ∈ four_blocks → b < length (basic_blocks if_else_body)).
  { unfold four_blocks. simpl. intros b Hb. rewrite !elem_of_union, !elem_of_singleton in Hb. lia. }
  destruct (phi_iff_on_every_chain (λ _, EmptyString) if_else_body four_blocks ∅ Hok Hr)
    as (pm & R & HR & _ & Hnd & _).
  split; [exact Hok|]. exists R. split; [exact HR|]. intros j. apply Hnd.
Defined.

(** The chains only see [Assign] statements: a local that both branches define
    by a call gets no block argument at the join. *)
Theorem call_results_get_no_phi :
  compute_phi_join_locals (phi_fuel if_else_call_body) (phi_rounds if_else_call_body)
    (λ _, EmptyString) if_else_call_body four_blocks ∅ = Ret ∅ ∧
  ∀ p, p ∈ [1; 2] → ∃ f args t u,
    terminator_at if_else_call_body p = Ret (Call f args (phi_whole 2) t u).
Proof.
  split; [vm_compute; reflexivity|].
  intros p Hp. rewrite !elem_of_cons in Hp. destruct Hp as [->|[->|?%elem_of_nil]]; [..|done];
    by eexists _, _, _, _.
Qed.
