(* ===== verification/TritonLoops.v ===== *)
(** * Loop detection in the Triton backend

    [rustc_codegen_llvm/src/mlir/codegen/triton/mod.rs], second part: the
    recognition of Range-based [for] loops and of [while] loops in MIR
    ([detect_range_loop], [detect_while_loop] and what they call), the
    collection of loop bodies, the induction variable and the loop-carried
    locals; and [collect_arm_chain] of [ops/terminator.rs].

    [args] are the generic arguments of the instance being compiled. *)
From S2P Require Import Prelude Mir Worklist.

(** ** Uses and assignments of a local *)
Definition operand_uses_local (op : Operand) (local : Local) : bool :=
  match op with
  | Copy p | Move p => pl_local p =? local
  | Constant _ | RuntimeChecks => false
  end.

Definition rvalue_uses_local (rvalue : Rvalue) (local : Local) : bool :=
  match rvalue with
  | Use op | Repeat op _ => operand_uses_local op local
  | Cast _ op _ => operand_uses_local op local
  | BinaryOp _ l r => operand_uses_local l local || operand_uses_local r local
  | UnaryOp _ op => operand_uses_local op local
  | Aggregate _ fields => existsb (λ f, operand_uses_local f local) fields
  | RvRef _ place | RvRawPtr _ place => pl_local place =? local
  | _ => false
  end.

Definition local_used_in_stmt (stmt : StatementKind) (local : Local) : bool :=
  match stmt with Assign _ rvalue => rvalue_uses_local rvalue local | _ => false end.

Definition local_assigned_in_stmt (stmt : StatementKind) (local : Local) : bool :=
  match stmt with
  | Assign dest _ => (pl_local dest =? local) && no_projection dest
  | _ => false
  end.

(** ** Loop-carried locals *)
(** Insert a candidate the first time it is assigned. *)
Definition push_candidate (st : gset Local * list Local) (l : Local) : gset Local * list Local :=
  let '(all_assigned, ordered) := st in
  if bool_decide (l ∈ all_assigned) then st else ({[l]} ∪ all_assigned, vec_push ordered l).

Definition candidates_of_stmt (st : gset Local * list Local) (s : StatementKind)
    : gset Local * list Local :=
  match s with
  | Assign dest _ => if no_projection dest then push_candidate st (pl_local dest) else st
  | _ => st
  end.

Definition candidates_of_block (mir : Body) (st : gset Local * list Local) (bb : BasicBlock)
    : outcome (gset Local * list Local) :=
  d ← block_at mir bb;
  k ← terminator d;
  let st := foldl candidates_of_stmt st (statements d) in
  Ret (match k with
       | Call _ _ destination _ _ =>
           if no_projection destination then push_candidate st (pl_local destination) else st
       | _ => st
       end).

(** The scan for one candidate; the state is [(assigned, use_before_assign)]
    and a use before the first assignment ends the scan ([break 'scan]). *)
Fixpoint scan_stmts (candidate : Local) (assigned : bool) (stmts : list StatementKind) : bool * bool :=
  match stmts with
  | [] => (assigned, false)
  | stmt :: stmts' =>
      if negb assigned && local_used_in_stmt stmt candidate then (assigned, true)
      else scan_stmts candidate (assigned || local_assigned_in_stmt stmt candidate) stmts'
  end.

Fixpoint scan_blocks (mir : Body) (candidate : Local) (assigned : bool) (bbs : list BasicBlock)
    : outcome bool :=
  match bbs with
  | [] => Ret false
  | bb :: bbs' =>
      d ← block_at mir bb;
      let '(assigned, used) := scan_stmts candidate assigned (statements d) in
      if used then Ret true
      else
        k ← terminator d;
        match k with
        | Call _ args destination _ _ =>
            if negb assigned && existsb (λ a, operand_uses_local a candidate) args then Ret true
            else scan_blocks mir candidate (assigned || (pl_local destination =? candidate)) bbs'
        | _ => scan_blocks mir candidate assigned bbs'
        end
  end.

Definition push_carried (mir : Body) (body_bbs : list BasicBlock) (iter_carry : list Local)
    (candidate : Local) : outcome (list Local) :=
  use_before_assign ← scan_blocks mir candidate false body_bbs;
  Ret (if (use_before_assign : bool) then vec_push iter_carry candidate else iter_carry).

Definition find_iter_carry_locals (mir : Body) (body_bbs : list BasicBlock) : outcome (list Local) :=
  st ← ofold (candidates_of_block mir) (∅, []) body_bbs;
  ofold (push_carried mir body_bbs) [] st.2.

(** ** The induction local *)
Definition is_downcast (e : PlaceElem) : bool := match e with Downcast _ => true | _ => false end.

(** [Some dest] when the statement extracts a field under a downcast. *)
Definition induction_stmt (s : StatementKind) : option Local :=
  match s with
  | Assign dest (Use (Copy src)) | Assign dest (Use (Move src)) =>
      if no_projection dest && existsb is_downcast (pl_projection src)
      then Some (pl_local dest) else None
  | _ => None
  end.

Fixpoint find_induction_local_in_bbs (mir : Body) (body_bbs : list BasicBlock)
    : outcome (option Local) :=
  match body_bbs with
  | [] => Ret None
  | bb :: bbs =>
      d ← block_at mir bb;
      match head (omap induction_stmt (statements d)) with
      | Some l => Ret (Some l)
      | None => find_induction_local_in_bbs mir bbs
      end
  end.

(** ** Loop bodies *)
(** The blocks queued after [bb], never the header itself; edges of other
    terminators are not followed. *)
Definition body_targets (header_bb : BasicBlock) (k : TerminatorKind) : list BasicBlock :=
  match k with
  | Goto target => if target =? header_bb then [] else [target]
  | Call _ _ _ (Some target) _ => if target =? header_bb then [] else [target]
  | Assert _ _ _ target _ => if target =? header_bb then [] else [target]
  | SwitchInt _ targets => List.filter (λ t, negb (t =? header_bb)) (Switch.all_targets targets)
  | _ => []
  end.

(** One iteration of [while let Some(bb) = queue.first().copied()]. *)
Definition body_step (mir : Body) (header_bb : BasicBlock) (s : search_state)
    : outcome (search_state + (gset BasicBlock * list BasicBlock)) :=
  match vec_pop_front (work s) with
  | None => Ret (inr (visited s, order s))
  | Some (bb, queue) =>
      if bool_decide (bb ∈ visited s) || (bb =? header_bb) then
        Ret (inl (mkSearch (visited s) (order s) queue))
      else
        d ← block_at mir bb;
        k ← terminator d;
        match k with
        | Unreachable => Ret (inl (mkSearch (visited s) (order s) queue))
        | _ => Ret (inl (mkSearch ({[bb]} ∪ visited s) (vec_push (order s) bb)
                           (queue ++ body_targets header_bb k)))
        end
  end.

Definition collect_body_blocks_ordered (fuel : nat) (mir : Body) (body_entry_bb header_bb : BasicBlock)
    : outcome (list BasicBlock) :=
  r ← loop fuel (body_step mir header_bb) (mkSearch ∅ [] [body_entry_bb]);
  Ret r.2.

(** ** While loops *)
Record WhileLoopInfo := mkWhile {
  wl_header_bb : BasicBlock;
  wl_body_entry_bb : BasicBlock;
  wl_body_bbs : list BasicBlock;
  wl_back_edge_bb : BasicBlock;
  wl_exit_bb : BasicBlock;
  wl_iter_carry_locals : list Local }.

Definition try_build_while_loop_info (fuel : nat) (mir : Body) (header_bb back_edge_bb : BasicBlock)
    (range_loop_blocks : gset BasicBlock) : outcome (option WhileLoopInfo) :=
  k ← terminator_at mir header_bb;
  match k with
  | SwitchInt _ targets =>
      match Switch.iter targets with
      | [(0%Z, exit_bb)] =>
          body_entry_bb ← Switch.otherwise targets;
          body_bbs ← collect_body_blocks_ordered fuel mir body_entry_bb header_bb;
          if match body_bbs with [] => true | _ => false end ||
             negb (bool_decide (back_edge_bb ∈ body_bbs)) then Ret None
          else if existsb (λ bb, bool_decide (bb ∈ range_loop_blocks)) body_bbs then Ret None
          else
            iter_carry_locals ← find_iter_carry_locals mir body_bbs;
            Ret (Some (mkWhile header_bb body_entry_bb body_bbs back_edge_bb exit_bb iter_carry_locals))
      | _ => Ret None
      end
  | _ => Ret None
  end.

Definition while_at (fuel : nat) (mir : Body) (range_loop_blocks : gset BasicBlock)
    (loops : list WhileLoopInfo) (bb : BasicBlock) : outcome (list WhileLoopInfo) :=
  k ← terminator_at mir bb;
  match k with
  | Goto target =>
      if target <? bb then
        if bool_decide (target ∈ range_loop_blocks) || bool_decide (bb ∈ range_loop_blocks)
        then Ret loops
        else
          info ← try_build_while_loop_info fuel mir target bb range_loop_blocks;
          Ret (match info with Some i => vec_push loops i | None => loops end)
      else Ret loops
  | _ => Ret loops
  end.

Definition detect_while_loop (fuel : nat) (mir : Body) (range_loop_blocks : gset BasicBlock)
    : outcome (list WhileLoopInfo) :=
  ofold (while_at fuel mir range_loop_blocks) [] (seq 0 (length (basic_blocks mir))).

(** ** Range loops *)
(** [c.const_.try_to_scalar_int().map(|s| s.to_bits_unchecked() as i64)] *)
Definition try_const_operand_as_i64 (c : Const) : option Z :=
  (λ s, as_i 64 (to_bits_unchecked s)) <$> try_to_scalar_int c.

(** The last assignment of [local] that copies or moves a whole local. *)
Definition copy_source (local : Local) (s : StatementKind) : option Local :=
  match s with
  | Assign dest (Use op) =>
      if (pl_local dest =? local) && no_projection dest then operand_as_local op else None
  | _ => None
  end.

Definition find_copy_source_in_stmts (stmts : list StatementKind) (local : Local) : option Local :=
  head (omap (copy_source local) (reverse stmts)).

(** The bound of an [Lt] whose right operand is a constant. *)
Definition lt_const_bound (args : list GenericArg) (c : Const) : outcome (option Z) :=
  match try_const_operand_as_i64 c with
  | Some v => Ret (Some v)
  | None =>
      match c with
      | ConstTy ty (CkParam index) =>
          if is_integral ty then
            subst ← const_at args index;
            cv ← to_value subst;
            Ret (option_map (λ si, as_i 64 (to_bits_unchecked si)) (valtree_try_to_leaf cv.2))
          else Ret None
      | _ => Ret None
      end
  end.

Fixpoint find_lt_from (args : list GenericArg) (all stmts : list StatementKind) (discr_local : Local)
    : outcome (option (Local * option Local * option Z)) :=
  match stmts with
  | [] => Ret None
  | Assign dest (BinaryOp BLt lhs rhs) :: stmts' =>
      if (pl_local dest =? discr_local) && no_projection dest then
        match operand_as_local lhs with
        | None => Ret None
        | Some counter_copy =>
            let counter_local := default counter_copy (find_copy_source_in_stmts all counter_copy) in
            match rhs with
            | Constant c =>
                b ← lt_const_bound args c;
                Ret (option_map (λ v, (counter_local, None, Some v)) b)
            | _ => Ret (option_map (λ l, (counter_local, Some l, None)) (operand_as_local rhs))
            end
        end
      else find_lt_from args all stmts' discr_local
  | _ :: stmts' => find_lt_from args all stmts' discr_local
  end.

Definition find_lt_locals_in_stmts (args : list GenericArg) (stmts : list StatementKind)
    (discr_local : Local) : outcome (option (Local * option Local * option Z)) :=
  find_lt_from args stmts stmts discr_local.

(** The end of a two-field aggregate: [(bound_const, bound_local)]. *)
Definition range_bound_stmt (s : StatementKind) : option (option Z * option Local) :=
  match s with
  | Assign _ (Aggregate (AggAdt _ _) [_; end_op]) =>
      match end_op with
      | Constant c => (λ v, (Some v, None)) <$> try_const_operand_as_i64 c
      | Copy p | Move p => if no_projection p then Some (None, Some (pl_local p)) else None
      | RuntimeChecks => None
      end
  | _ => None
  end.

Fixpoint find_range_bound_in (mir : Body) (bbs : list BasicBlock)
    : outcome (option (option Z * option Local)) :=
  match bbs with
  | [] => Ret None
  | bb :: bbs' =>
      d ← block_at mir bb;
      match head (omap range_bound_stmt (statements d)) with
      | Some b => Ret (Some b)
      | None => find_range_bound_in mir bbs'
      end
  end.

Definition find_range_bound (mir : Body) (header_bb : BasicBlock)
    : outcome (option (option Z * option Local)) :=
  find_range_bound_in mir (seq 0 header_bb).

(** [_discr = discriminant(src)] for a whole [src]. *)
Definition discriminant_source (discr_local : Local) (s : StatementKind) : option Local :=
  match s with
  | Assign dest (Discriminant src) =>
      if no_projection dest && (pl_local dest =? discr_local) && no_projection src
      then Some (pl_local src) else None
  | _ => None
  end.

(** The closure [goto_target]. *)
Definition goto_target (mir : Body) (bb : BasicBlock) : outcome (option BasicBlock) :=
  k ← terminator_at mir bb;
  Ret (match k with Goto target => Some target | _ => None end).

(** The switch block both branches converge on. *)
Definition convergent_block (mir : Body) (raw_exit_bb raw_body_entry_bb : BasicBlock)
    : outcome (option BasicBlock) :=
  t1 ← goto_target mir raw_exit_bb;
  match t1 with
  | None => Ret None
  | Some switch_bb =>
      t2 ← goto_target mir raw_body_entry_bb;
      match t2 with
      | None => Ret None
      | Some t => Ret (if t =? switch_bb then Some switch_bb else None)
      end
  end.

Definition try_detect_convergent_option_switch (mir : Body)
    (raw_exit_bb raw_body_entry_bb : BasicBlock)
    : outcome (option (BasicBlock * BasicBlock * BasicBlock * Local)) :=
  sw ← convergent_block mir raw_exit_bb raw_body_entry_bb;
  match sw with
  | None => Ret None
  | Some switch_bb =>
      d ← block_at mir switch_bb;
      k ← terminator d;
      match k with
      | SwitchInt discr targets =>
          match Switch.iter targets, operand_as_local discr with
          | [(0%Z, exit_bb); (1%Z, body_bb)], Some discr_local =>
              Ret (option_map (λ nrl, (switch_bb, exit_bb, body_bb, nrl))
                   (head (omap (discriminant_source discr_local) (statements d))))
          | _, _ => Ret None
          end
      | _ => Ret None
      end
  end.

Record HeaderInfo := mkHeader {
  hi_body_entry_bb : BasicBlock;
  hi_exit_bb : BasicBlock;
  hi_counter_local_hint : option Local;
  hi_bound_local : option Local;
  hi_bound_const : option Z;
  hi_switch_bb : option BasicBlock;
  hi_next_result_local : option Local;
  hi_extra_loop_region_bbs : list BasicBlock }.

Record RangeLoopInfo := mkRange {
  rl_header_bb : BasicBlock;
  rl_body_entry_bb : BasicBlock;
  rl_body_bbs : list BasicBlock;
  rl_back_edge_bb : BasicBlock;
  rl_exit_bb : BasicBlock;
  rl_counter_local : Local;
  rl_bound_local : option Local;
  rl_bound_const : option Z;
  rl_induction_local : Local;
  rl_iter_carry_locals : list Local;
  rl_switch_bb : option BasicBlock;
  rl_next_result_local : option Local;
  rl_extra_loop_region_bbs : list BasicBlock }.

(** Pattern 1: a [SwitchInt] header with an explicit [Lt] comparison, possibly
    with the two branches converging on a discriminant switch (1b). *)
Definition header_pattern_lt (args : list GenericArg) (mir : Body) (d : BasicBlockData)
    (k : TerminatorKind) : outcome (option HeaderInfo) :=
  match k with
  | SwitchInt discr targets =>
      match Switch.iter targets with
      | [(0%Z, raw_exit_bb)] =>
          raw_body_entry_bb ← Switch.otherwise targets;
          match operand_as_local discr with
          | None => Ret None
          | Some discr_local =>
              lt ← find_lt_locals_in_stmts args (statements d) discr_local;
              match lt with
              | None => Ret None
              | Some (counter_local, bl, bc) =>
                  conv ← try_detect_convergent_option_switch mir raw_exit_bb raw_body_entry_bb;
                  Ret (Some (match conv with
                    | Some (switch_bb, exit_bb, body_entry_bb, next_result_local) =>
                        mkHeader body_entry_bb exit_bb (Some counter_local) bl bc
                          (Some switch_bb) (Some next_result_local) [raw_exit_bb; raw_body_entry_bb]
                    | None =>
                        mkHeader raw_body_entry_bb raw_exit_bb (Some counter_local) bl bc None None []
                    end))
              end
          end
      | _ => Ret None
      end
  | _ => Ret None
  end.

(** Pattern 2: a call header ([Range::next]) followed by a discriminant switch. *)
Definition header_pattern_call (mir : Body) (header_bb : BasicBlock) (k : TerminatorKind)
    : outcome (option HeaderInfo) :=
  match k with
  | Call _ _ destination (Some switch_bb_cand) _ =>
      k' ← terminator_at mir switch_bb_cand;
      match k' with
      | SwitchInt _ targets =>
          match Switch.iter targets with
          | [(0%Z, exit_bb); (1%Z, body_entry_bb)] =>
              if no_projection destination then
                b ← find_range_bound mir header_bb;
                Ret (option_map (λ p : option Z * option Local,
                        mkHeader body_entry_bb exit_bb None p.2 p.1 (Some switch_bb_cand)
                          (Some (pl_local destination)) []) b)
              else Ret None
          | _ => Ret None
          end
      | _ => Ret None
      end
  | _ => Ret None
  end.

Definition detect_header (args : list GenericArg) (mir : Body) (header_bb : BasicBlock)
    : outcome (option HeaderInfo) :=
  d ← block_at mir header_bb;
  k ← terminator d;
  h ← header_pattern_lt args mir d k;
  match h with
  | Some hinfo => Ret (Some hinfo)
  | None => header_pattern_call mir header_bb k
  end.

Definition try_build_range_loop_info (fuel : nat) (args : list GenericArg) (mir : Body)
    (header_bb back_edge_bb : BasicBlock) : outcome (option RangeLoopInfo) :=
  h ← detect_header args mir header_bb;
  match h with
  | None => Ret None
  | Some hinfo =>
      body_bbs ← collect_body_blocks_ordered fuel mir (hi_body_entry_bb hinfo) header_bb;
      if negb (bool_decide (back_edge_bb ∈ body_bbs)) then Ret None
      else
        il ← find_induction_local_in_bbs mir body_bbs;
        match il with
        | None => Ret None
        | Some induction_local =>
            let counter_local := default induction_local (hi_counter_local_hint hinfo) in
            carry ← find_iter_carry_locals mir body_bbs;
            let iter_carry_locals :=
              match hi_next_result_local hinfo with
              | Some nrl => List.filter (λ l, negb (l =? nrl)) carry
              | None => carry
              end in
            Ret (Some (mkRange header_bb (hi_body_entry_bb hinfo) body_bbs back_edge_bb
              (hi_exit_bb hinfo) counter_local (hi_bound_local hinfo) (hi_bound_const hinfo)
              induction_local iter_carry_locals (hi_switch_bb hinfo) (hi_next_result_local hinfo)
              (hi_extra_loop_region_bbs hinfo)))
        end
  end.

Definition range_at (fuel : nat) (args : list GenericArg) (mir : Body)
    (loops : list RangeLoopInfo) (bb : BasicBlock) : outcome (list RangeLoopInfo) :=
  k ← terminator_at mir bb;
  match k with
  | Goto target =>
      if target <? bb then
        info ← try_build_range_loop_info fuel args mir target bb;
        Ret (match info with Some i => vec_push loops i | None => loops end)
      else Ret loops
  | _ => Ret loops
  end.

Definition detect_range_loop (fuel : nat) (args : list GenericArg) (mir : Body)
    : outcome (list RangeLoopInfo) :=
  ofold (range_at fuel args mir) [] (seq 0 (length (basic_blocks mir))).

(** ** Arm chains of a switch inside a loop body *)
(** One iteration of the [loop]; the state is [(chain, current, visited)]. *)
Definition arm_step (mir : Body) (back_edge_bb : BasicBlock) (body_bbs : gset BasicBlock)
    (st : list BasicBlock * BasicBlock * gset BasicBlock)
    : outcome (list BasicBlock * BasicBlock * gset BasicBlock + list BasicBlock) :=
  let '(chain, current, visited) := st in
  if bool_decide (current ∈ visited) then Ret (inr chain)
  else if negb (bool_decide (current ∈ body_bbs)) then Ret (inr chain)
  else
    let chain := vec_push chain current in
    if current =? back_edge_bb then Ret (inr chain)
    else
      k ← terminator_at mir current;
      Ret (match k with
           | Goto target => inl (chain, target, {[current]} ∪ visited)
           | Call _ _ _ (Some target) _ =>
               if bool_decide (target ∈ body_bbs) then inl (chain, target, {[current]} ∪ visited)
               else inr chain
           | _ => inr chain
           end).

Definition collect_arm_chain (fuel : nat) (mir : Body) (start back_edge_bb : BasicBlock)
    (body_bbs : gset BasicBlock) : outcome (list BasicBlock) :=
  if start =? back_edge_bb then Ret []
  else loop fuel (arm_step mir back_edge_bb body_bbs) ([], start, ∅).
