(* ===== verification/TritonLoopsFacts.v ===== *)
(** * Loop detection: what is detected is a loop *)
From S2P Require Import Prelude Mir Worklist TritonLoops.

(** ** Loop bodies *)
Definition body_fuel (mir : Body) : nat :=
  search_fuel (length (basic_blocks mir)) (max_successors mir) [0].

(** The blocks that may not be in a loop body, and the edges inside one. *)
Definition body_skip (mir : Body) (header_bb bb : BasicBlock) : bool :=
  (bb =? header_bb) || is_unreachable_block mir bb.

Definition body_next (mir : Body) (header_bb bb : BasicBlock) : list BasicBlock :=
  match terminator_at mir bb with Ret k => body_targets header_bb k | _ => [] end.

Section body.
Context (mir : Body) (Hok : body_ok mir = true) (header_bb : BasicBlock).

Lemma body_targets_sub k :
  body_targets header_bb k ⊆ successors k ∧
  length (body_targets header_bb k) ≤ length (successors k).
Proof.
  destruct k as [t|? t| | | | | |? ? ? [t|] u| |? ? ? t u| | | | |]; simpl;
    try (split; [set_solver|simpl; lia]);
    try (try destruct u; try destruct (_ =? header_bb); split; simpl; (set_solver || lia)).
  split; [|apply filter_length_le]. intros x. by intros [? _]%elem_of_filter_b.
Qed.

Lemma body_step_refines roots (s : search_state) :
  search_inv (body_skip mir header_bb) (body_next mir header_bb)
    (length (basic_blocks mir)) roots s →
  body_step mir header_bb s =
    Ret (search_step vec_pop_front (body_skip mir header_bb) (body_next mir header_bb) s).
Proof.
  intros Hinv. unfold body_step, search_step.
  destruct (vec_pop_front (work s)) as [[bb q]|] eqn:Hpop; [|done].
  assert (Hlt : bb < length (basic_blocks mir)).
  { apply (inv_lt _ _ _ _ _ Hinv). right. rewrite (vec_pop_front_perm _ _ _ Hpop). by left. }
  unfold body_skip, is_unreachable_block, body_next.
  destruct (terminator_at_ok _ _ Hok Hlt) as [k Hk]. rewrite Hk. unfold terminator_at in Hk.
  destruct (bool_decide _); simpl; [done|]. destruct (bb =? header_bb); simpl; [done|].
  destruct (block_at mir bb) as [d| |]; simpl in *; try done. rewrite Hk. simpl. by destruct k.
Qed.

Lemma collect_body_spec entry :
  entry < length (basic_blocks mir) →
  ∃ l, collect_body_blocks_ordered (body_fuel mir) mir entry header_bb = Ret l ∧ NoDup l ∧
    ∀ bb, bb ∈ l ↔
      search_reach (body_skip mir header_bb) (body_next mir header_bb) [entry] bb.
Proof.
  intros He.
  destruct (search_correct vec_pop_front vec_pop_front_perm vec_pop_front_None
    (body_skip mir header_bb) (body_next mir header_bb) (length (basic_blocks mir))
    (max_successors mir) [entry]) with (step := body_step mir header_bb)
    as (vis & ord & Hr & _ & Hnd & Hin).
  - intros x y Hx Hy. unfold body_next in Hy. destruct (terminator_at mir x) as [k| |] eqn:Hk;
      [|by apply elem_of_nil in Hy..].
    eapply successors_lt; [done..|]. by apply body_targets_sub in Hy.
  - intros x Hx. unfold body_next. destruct (terminator_at mir x) as [k| |] eqn:Hk; simpl; [|lia..].
    etrans; [apply body_targets_sub|]. by eapply successors_le_max.
  - by intros r ->%list_elem_of_singleton.
  - intros s Hs. by eapply body_step_refines.
  - exists ord. unfold collect_body_blocks_ordered, body_fuel.
    unfold search_init, search_fuel in *. simpl in *. by rewrite Hr.
Qed.

(** Whatever the fuel, a collected body never holds the header and only holds
    blocks of the body. *)
Lemma collect_body_sound fuel entry l :
  entry < length (basic_blocks mir) →
  collect_body_blocks_ordered fuel mir entry header_bb = Ret l →
  NoDup l ∧ header_bb ∉ l ∧ (∀ bb, bb ∈ l → bb < length (basic_blocks mir)) ∧
  ∀ bb, bb ∈ l ↔ search_reach (body_skip mir header_bb) (body_next mir header_bb) [entry] bb.
Proof.
  intros He Hl. destruct (collect_body_spec entry He) as (l' & Hl' & Hnd & Hin).
  assert (l' = l) as ->.
  { unfold collect_body_blocks_ordered in *.
    destruct (loop (body_fuel mir) _ _) as [r1| |] eqn:E1; simplify_eq/=.
    destruct (loop fuel _ _) as [r2| |] eqn:E2; simplify_eq/=.
    by rewrite (loop_det _ _ _ _ _ _ E1 E2). }
  split_and!; [done| | |done].
  - intros [Hs _]%Hin. unfold body_skip in Hs. by rewrite Nat.eqb_refl in Hs.
  - intros bb [_ (r & ->%list_elem_of_singleton & Hrtc)]%Hin.
    clear Hl Hl' Hin Hnd. induction Hrtc as [|x y z [_ Hy] _ IH]; [done|]. apply IH.
    unfold body_next in Hy. destruct (terminator_at mir x) as [k| |] eqn:Hk;
      [|by apply elem_of_nil in Hy..].
    eapply successors_lt; [done..|]. by apply body_targets_sub in Hy.
Qed.
End body.

(** ** Loop-carried locals *)
(** The uses ([true]) and assignments ([false]) of a local that the scan sees,
    in order. *)
Definition stmt_events (c : Local) (s : StatementKind) : list bool :=
  (if local_used_in_stmt s c then [true] else []) ++
  (if local_assigned_in_stmt s c then [false] else []).

Definition term_events (c : Local) (k : TerminatorKind) : list bool :=
  match k with
  | Call _ args destination _ _ =>
      (if existsb (λ a, operand_uses_local a c) args then [true] else []) ++
      (if pl_local destination =? c then [false] else [])
  | _ => []
  end.

Definition block_events (mir : Body) (c : Local) (bb : BasicBlock) : list bool :=
  match basic_blocks mir !! bb with
  | Some d =>
      concat (stmt_events c <$> statements d) ++
      match terminator_opt d with Some k => term_events c k | None => [] end
  | None => []
  end.

Definition used_first (mir : Body) (c : Local) (bbs : list BasicBlock) : bool :=
  default false (head (concat (block_events mir c <$> bbs))).

(** The whole locals that the body assigns, by statements or calls. *)
Definition block_assigned (mir : Body) (bb : BasicBlock) : list Local :=
  match basic_blocks mir !! bb with
  | Some d =>
      omap dest_local (statements d) ++
      match terminator_opt d with
      | Some (Call _ _ destination _ _) =>
          if no_projection destination then [pl_local destination] else []
      | _ => []
      end
  | None => []
  end.

Definition body_assigned (mir : Body) (bbs : list BasicBlock) : list Local :=
  concat (block_assigned mir <$> bbs).

Section carry.
Context (mir : Body) (Hok : body_ok mir = true).

Lemma block_get bb :
  bb < length (basic_blocks mir) →
  ∃ d k, basic_blocks mir !! bb = Some d ∧ terminator_opt d = Some k ∧
    block_at mir bb = Ret d ∧ terminator d = Ret k.
Proof.
  intros Hlt. destruct (lookup_lt_is_Some_2 _ _ Hlt) as [d Hd].
  pose proof (body_ok_block _ _ _ Hok Hd) as Hb. unfold block_ok in Hb.
  destruct (terminator_opt d) as [k|] eqn:Hk; [|done].
  exists d, k. unfold block_at, terminator. by rewrite Hd, Hk.
Qed.

Lemma scan_stmts_assigned c stmts : scan_stmts c true stmts = (true, false).
Proof. by induction stmts as [|s l IH]. Qed.

Lemma scan_stmts_spec c stmts :
  scan_stmts c false stmts =
    match concat (stmt_events c <$> stmts) with
    | [] => (false, false)
    | true :: _ => (false, true)
    | false :: _ => (true, false)
    end.
Proof.
  induction stmts as [|s l IH]; [done|]. rewrite fmap_cons. cbn [scan_stmts concat].
  unfold stmt_events at 1. simpl. destruct (local_used_in_stmt s c); [done|]. simpl.
  destruct (local_assigned_in_stmt s c); simpl; [apply scan_stmts_assigned|done].
Qed.

Lemma scan_blocks_assigned c bbs :
  (∀ bb, bb ∈ bbs → bb < length (basic_blocks mir)) →
  scan_blocks mir c true bbs = Ret false.
Proof.
  induction bbs as [|bb bbs IH]; intros Hlt; [done|]. simpl.
  destruct (block_get bb) as (d & k & _ & _ & -> & Hk); [by apply Hlt; left|]. simpl.
  rewrite scan_stmts_assigned, Hk. simpl.
  assert (scan_blocks mir c true bbs = Ret false) as HI by (apply IH; intros; apply Hlt; by right).
  by destruct k.
Qed.

Lemma scan_blocks_spec c bbs :
  (∀ bb, bb ∈ bbs → bb < length (basic_blocks mir)) →
  scan_blocks mir c false bbs = Ret (used_first mir c bbs).
Proof.
  unfold used_first. induction bbs as [|bb bbs IH]; intros Hlt; [done|].
  rewrite fmap_cons. cbn [scan_blocks concat]. unfold block_events at 1.
  assert (Hlt' : ∀ bb, bb ∈ bbs → bb < length (basic_blocks mir)) by (intros; apply Hlt; by right).
  destruct (block_get bb) as (d & k & Hd & Hk & -> & Hk'); [by apply Hlt; left|]. simpl.
  rewrite Hd, Hk, scan_stmts_spec.
  destruct (concat (stmt_events c <$> statements d)) as [|[] evs]; simpl; [|done|].
  - rewrite Hk'. simpl. destruct k; simpl; try (by apply IH).
    destruct (existsb _ args); simpl; [done|].
    destruct (pl_local destination =? c); simpl; [by apply scan_blocks_assigned|by apply IH].
  - rewrite Hk'. simpl. destruct k; simpl; by apply scan_blocks_assigned.
Qed.

(** The candidates collected from the locals [xs], in order. *)
Definition collected (xs : list Local) (st : gset Local * list Local) : Prop :=
  st.1 = list_to_set st.2 ∧ NoDup st.2 ∧ ∀ l, l ∈ st.2 ↔ l ∈ xs.

Lemma collected_push xs st l : collected xs st → collected (xs ++ [l]) (push_candidate st l).
Proof.
  destruct st as [vis ord]. intros (Hv & Hnd & Hin). unfold collected, push_candidate. simpl in *.
  case_bool_decide as Hl; simpl.
  - split_and!; [done|done|]. intros x. rewrite elem_of_app, list_elem_of_singleton, <-Hin.
    split; [by left|]. intros [?| ->]; [done|]. by rewrite Hv, elem_of_list_to_set in Hl.
  - rewrite Hv, elem_of_list_to_set in Hl. unfold vec_push. split_and!.
    + rewrite Hv, list_to_set_app_L. simpl. rewrite union_empty_r_L. apply (comm_L (∪)).
    + by apply NoDup_snoc.
    + intros x. by rewrite !elem_of_app, list_elem_of_singleton, Hin.
Qed.

Lemma collected_stmts xs st stmts :
  collected xs st → collected (xs ++ omap dest_local stmts) (foldl candidates_of_stmt st stmts).
Proof.
  revert xs st. induction stmts as [|s l IH]; intros xs st Hst; simpl; [by rewrite app_nil_r|].
  destruct (dest_local s) as [x|] eqn:Hx.
  - rewrite cons_middle, app_assoc. apply IH.
    destruct s; simpl in *; try done. destruct (no_projection _); simplify_eq. by apply collected_push.
  - apply IH. destruct s; simpl in *; try done. by destruct (no_projection _).
Qed.

Lemma find_iter_carry_spec bbs :
  (∀ bb, bb ∈ bbs → bb < length (basic_blocks mir)) →
  ∃ r, find_iter_carry_locals mir bbs = Ret r ∧ NoDup r ∧
    ∀ l, l ∈ r ↔ l ∈ body_assigned mir bbs ∧ used_first mir l bbs = true.
Proof.
  intros Hlt. unfold find_iter_carry_locals.
  destruct (ofold_total (candidates_of_block mir) (λ pre st, collected (body_assigned mir pre) st)
    bbs (∅, [])) as (st & -> & _ & Hnd & Hin).
  { split_and!; [done|constructor|done]. }
  { intros pre bb st Hbb Hst. unfold candidates_of_block.
    destruct (block_get bb (Hlt _ Hbb)) as (d & k & Hd & Hk & -> & Hk'). simpl. rewrite Hk'. simpl.
    eexists. split; [done|]. unfold body_assigned. rewrite fmap_app, concat_app. simpl.
    rewrite app_nil_r. unfold block_assigned at 2. rewrite Hd, Hk, app_assoc.
    pose proof (collected_stmts _ _ (statements d) Hst) as H.
    destruct k; try by rewrite app_nil_r.
    destruct (no_projection destination); [by apply collected_push|by rewrite app_nil_r]. }
  simpl. destruct (ofold_total (push_carried mir bbs)
    (λ pre r, r = List.filter (λ l, used_first mir l bbs) pre) st.2 []) as (r & -> & ->); [done| |].
  { intros pre l r _ ->. unfold push_carried. rewrite scan_blocks_spec by done. simpl.
    eexists. split; [done|]. rewrite List.filter_app. simpl.
    destruct (used_first mir l bbs); [done|by rewrite app_nil_r]. }
  eexists. split; [done|]. split; [by apply NoDup_filter_b|].
  intros l. by rewrite elem_of_filter_b, Hin.
Qed.

Lemma find_induction_ok bbs :
  (∀ bb, bb ∈ bbs → bb < length (basic_blocks mir)) →
  ∃ r, find_induction_local_in_bbs mir bbs = Ret r.
Proof.
  induction bbs as [|bb bbs IH]; intros Hlt; simpl; [by eauto|].
  destruct (block_get bb) as (d & k & _ & _ & -> & _); [by apply Hlt; left|]. simpl.
  destruct (head _); [by eauto|]. apply IH. intros. apply Hlt. by right.
Qed.
End carry.

(** ** Reported range loops *)
Definition reported (fuel : nat) (args : list GenericArg) (mir : Body) (l : RangeLoopInfo) : Prop :=
  ∃ loops, detect_range_loop fuel args mir = Ret loops ∧ l ∈ loops.

Lemma reported_header fuel args mir l : reported fuel args mir l →
  ∃ h, detect_header args mir (rl_header_bb l) = Ret (Some h) ∧
    rl_body_entry_bb l = hi_body_entry_bb h ∧ rl_exit_bb l = hi_exit_bb h ∧
    rl_bound_local l = hi_bound_local h ∧ rl_bound_const l = hi_bound_const h ∧
    rl_next_result_local l = hi_next_result_local h.
Proof.
  intros (loops & Hd & Hl). revert l Hl. unfold detect_range_loop in Hd.
  eapply (ofold_inv _ (λ loops, ∀ l, l ∈ loops → ∃ h, detect_header args mir (rl_header_bb l) = Ret (Some h) ∧ _));
    [|by intros l ?%elem_of_nil|exact Hd].
  intros acc bb acc' IH. unfold range_at. destruct (terminator_at mir bb) as [k| |]; simpl; [|done..].
  destruct k; try by intros [= <-]. destruct (target <? bb); [|by intros [= <-]].
  unfold try_build_range_loop_info. destruct (detect_header args mir target) as [[h|]| |] eqn:Hh; simpl; try done;
    [|by intros [= <-]].
  destruct (collect_body_blocks_ordered _ _ _ _) as [body| |]; simpl; [|done..].
  destruct (negb _); simpl; [by intros [= <-]|].
  destruct (find_induction_local_in_bbs mir body) as [[il|]| |]; simpl; try done; [|by intros [= <-]].
  destruct (find_iter_carry_locals mir body) as [carry| |]; simpl; [|done..].
  intros [= <-] l [Hl| ->%list_elem_of_singleton]%elem_of_app; [by apply IH|]. by exists h.
Qed.

(** A reported loop whose header ends in a call: the call returns to a switch
    between the exit and the body, and the bound is that of the first range. *)
Lemma reported_call fuel args mir l f cargs dest t u :
  reported fuel args mir l → terminator_at mir (rl_header_bb l) = Ret (Call f cargs dest t u) →
  ∃ sw discr targets, t = Some sw ∧ no_projection dest = true ∧
    rl_next_result_local l = Some (pl_local dest) ∧
    terminator_at mir sw = Ret (SwitchInt discr targets) ∧
    Switch.iter targets = [(0%Z, rl_exit_bb l); (1%Z, rl_body_entry_bb l)] ∧
    find_range_bound mir (rl_header_bb l) = Ret (Some (rl_bound_const l, rl_bound_local l)).
Proof.
  intros (h & Hd & -> & -> & -> & -> & ->)%reported_header Hk. unfold detect_header in Hd.
  unfold terminator_at in Hk. destruct (block_at mir (rl_header_bb l)) as [d| |]; simpl in Hk, Hd; [|done..].
  rewrite Hk in Hd. simpl in Hd. destruct t as [sw|]; [|done]. exists sw.
  destruct (terminator_at mir sw) as [[]| |]; simpl in Hd; try done.
  destruct (Switch.iter targets) as [|[[] ?] [|[[|[]|] ?] []]] eqn:Hi; simpl in Hd; try done.
  destruct (no_projection dest); [|done].
  destruct (find_range_bound mir (rl_header_bb l)) as [[[bc bl]|]| |]; simplify_eq/=. by eexists _, _.
Qed.

(** The two-field aggregates before a block, in order; the bound is the end of the
    first one whose end can be read. *)
Definition range_built (s : StatementKind) : option (Operand * Operand) :=
  match s with Assign _ (Aggregate (AggAdt _ _) [lo; hi]) => Some (lo, hi) | _ => None end.
Definition range_end (hi : Operand) : option (option Z * option Local) :=
  match hi with
  | Constant c => (λ v, (Some v, None)) <$> try_const_operand_as_i64 c
  | Copy p | Move p => if no_projection p then Some (None, Some (pl_local p)) else None
  | RuntimeChecks => None
  end.
Definition first_range (mir : Body) (bbs : list BasicBlock) : option (Operand * Operand) :=
  head (omap (λ s, r ← range_built s; _ ← range_end r.2; Some r)
    (concat ((λ bb, match basic_blocks mir !! bb with Some d => statements d | None => [] end) <$> bbs))).

Lemma range_bound_built s :
  range_bound_stmt s = (r ← range_built s; range_end r.2).
Proof. destruct s as [p []| | | | | | | | | | |]; try done.
  match goal with k : AggregateKind, fs : list Operand |- _ => destruct k; try done; by destruct fs as [|? [|? []]] end.
Qed.

Lemma find_range_bound_first mir bbs lo hi :
  first_range mir bbs = Some (lo, hi) → (∀ bb, bb ∈ bbs → bb < length (basic_blocks mir)) →
  find_range_bound_in mir bbs = Ret (range_end hi).
Proof.
  unfold first_range. induction bbs as [|bb bbs IH]; [done|]. intros Hf Hlt. cbn [find_range_bound_in].
  destruct (lookup_lt_is_Some_2 (basic_blocks mir) bb) as [d Hd]; [by apply Hlt; left|].
  unfold block_at. rewrite Hd. simpl. rewrite fmap_cons in Hf. cbn [concat] in Hf. rewrite Hd in Hf.
  assert (∀ ss rest, head (omap (λ s, r ← range_built s; _ ← range_end r.2; Some r) (ss ++ rest)) = Some (lo, hi) →
    head (omap range_bound_stmt ss) = range_end hi ∧ is_Some (range_end hi) ∨
    head (omap range_bound_stmt ss) = None ∧
    head (omap (λ s, r ← range_built s; _ ← range_end r.2; Some r) rest) = Some (lo, hi)) as Hss.
  { clear. induction ss as [|s ss IH]; intros rest; [by right|]. cbn [app omap list_omap].
    rewrite range_bound_built. destruct (range_built s) as [[a b]|]; simpl; [|apply IH].
    destruct (range_end b) as [e|] eqn:E; simpl; [|apply IH]. intros [= <- <-]. left. by rewrite E. }
  destruct (Hss _ _ Hf) as [[-> [e ->]]|[-> Hrest]]; [done|]. apply IH; [done|]. intros. apply Hlt. by right.
Qed.
