(* ===== verification/TritonLoopsThms.v ===== *)
(** * Loop detection: the theorems

    Detection is total on well-formed bodies, and every loop it reports has the
    shape that code generation relies on. *)
From S2P Require Import Prelude Mir Worklist TritonLoops TritonLoopsFacts.

(** A back edge: a [goto] to an earlier block. *)
Definition back_edge (mir : Body) (header back : BasicBlock) : Prop :=
  terminator_at mir back = Ret (Goto header) ∧ header < back.

(** [body] is the loop body entered at [entry]: the blocks reachable from it
    without going through [header], each once; it contains the entry and the
    back edge but not the header. *)
Definition loop_body (mir : Body) (header back entry : BasicBlock) (body : list BasicBlock) : Prop :=
  NoDup body ∧ header ∉ body ∧ back ∈ body ∧ entry ∈ body ∧
  ∀ bb, bb ∈ body ↔ search_reach (body_skip mir header) (body_next mir header) [entry] bb.

Definition while_info_ok (mir : Body) (range_loop_blocks : gset BasicBlock) (i : WhileLoopInfo) : Prop :=
  back_edge mir (wl_header_bb i) (wl_back_edge_bb i) ∧
  (∃ discr targets,
     terminator_at mir (wl_header_bb i) = Ret (SwitchInt discr targets) ∧
     Switch.iter targets = [(0%Z, wl_exit_bb i)] ∧
     Switch.otherwise targets = Ret (wl_body_entry_bb i)) ∧
  loop_body mir (wl_header_bb i) (wl_back_edge_bb i) (wl_body_entry_bb i) (wl_body_bbs i) ∧
  (∀ bb, bb ∈ wl_header_bb i :: wl_body_bbs i → bb ∉ range_loop_blocks) ∧
  ∀ l, l ∈ wl_iter_carry_locals i ↔
    l ∈ body_assigned mir (wl_body_bbs i) ∧ used_first mir l (wl_body_bbs i) = true.

(** Exactly one of two options holds a value. *)
Definition exactly_one {A B} (a : option A) (b : option B) : bool :=
  match a, b with Some _, None | None, Some _ => true | _, _ => false end.

Definition range_info_ok (mir : Body) (i : RangeLoopInfo) : Prop :=
  back_edge mir (rl_header_bb i) (rl_back_edge_bb i) ∧
  loop_body mir (rl_header_bb i) (rl_back_edge_bb i) (rl_body_entry_bb i) (rl_body_bbs i) ∧
  exactly_one (rl_bound_local i) (rl_bound_const i) = true ∧
  (∃ bb d s, bb ∈ rl_body_bbs i ∧ basic_blocks mir !! bb = Some d ∧ s ∈ statements d ∧
     induction_stmt s = Some (rl_induction_local i)) ∧
  (is_Some (rl_switch_bb i) ↔ is_Some (rl_next_result_local i)) ∧
  ∀ l, l ∈ rl_iter_carry_locals i ↔
    l ∈ body_assigned mir (rl_body_bbs i) ∧ used_first mir l (rl_body_bbs i) = true ∧
    rl_next_result_local i ≠ Some l.

(** Constant-generic bounds are given concrete values by the instance. *)
Definition args_resolved_stmt (args : list GenericArg) (s : StatementKind) : bool :=
  match s with
  | Assign _ (BinaryOp BLt _ (Constant (ConstTy ty (CkParam i)))) =>
      if is_integral ty then match args !! i with Some (ArgConst (CkValue _)) => true | _ => false end
      else true
  | _ => true
  end.
Definition args_resolved (args : list GenericArg) (mir : Body) : bool :=
  forallb (args_resolved_stmt args) (all_statements mir).

Section detect.
Context (mir : Body) (Hok : body_ok mir = true).
Abbreviation n := (length (basic_blocks mir)).

Lemma terminator_at_lt bb k : terminator_at mir bb = Ret k → bb < n.
Proof.
  unfold terminator_at, block_at. destruct (basic_blocks mir !! bb) eqn:E; simpl; [|done].
  intros _. by eapply lookup_lt_Some.
Qed.

Lemma switch_terminator_ok bb discr targets :
  terminator_at mir bb = Ret (SwitchInt discr targets) → switch_ok targets = true.
Proof.
  intros H%(terminator_at_terminator_ok _ _ _ Hok). unfold terminator_ok in H.
  by apply andb_true_iff in H as [_ H].
Qed.

Lemma switch_targets_lt bb discr targets :
  terminator_at mir bb = Ret (SwitchInt discr targets) →
  (∃ o, Switch.otherwise targets = Ret o ∧ o < n) ∧
  ∀ v t, (v, t) ∈ Switch.iter targets → t < n.
Proof.
  intros H. pose proof (switch_terminator_ok _ _ _ H) as Hsw. split.
  - destruct (SwitchFacts.otherwise_ok _ Hsw) as (o & Ho & Hin). exists o. split; [done|].
    by eapply successors_lt.
  - intros v t Hin. eapply successors_lt; [done..|]. apply SwitchFacts.iter_targets.
    apply list_elem_of_fmap. by exists (v, t).
Qed.

(** The body collected from an entry block in range. *)
Lemma collect_body_loop header back entry :
  entry < n →
  ∃ body, collect_body_blocks_ordered (body_fuel mir) mir entry header = Ret body ∧
    (∀ bb, bb ∈ body → bb < n) ∧
    (back ∈ body → loop_body mir header back entry body).
Proof.
  intros He. destruct (collect_body_spec mir Hok header entry He) as (l & Hl & _).
  destruct (collect_body_sound mir Hok header _ entry l He Hl) as (Hnd & Hh & Hlt & Hin).
  exists l. split_and!; [done..|]. intros Hback. split_and!; try done.
  apply Hin. split; [|exists entry; by split; [left|]].
  apply Hin in Hback as [Hs (r & ->%list_elem_of_singleton & Hrtc)].
  inversion Hrtc as [|? ? ? [? _]]; by subst.
Qed.

Lemma try_build_while_ok rlb header back :
  back_edge mir header back → header ∉ rlb →
  ∃ o, try_build_while_loop_info (body_fuel mir) mir header back rlb = Ret o ∧
    ∀ i, o = Some i → while_info_ok mir rlb i.
Proof.
  intros Hb Hh. unfold try_build_while_loop_info.
  assert (Hlt : header < n).
  { destruct Hb as [Hb _]. eapply successors_lt; [done..|]. simpl. by left. }
  destruct (terminator_at_ok _ _ Hok Hlt) as [k Hk]. rewrite Hk. simpl.
  destruct k; try by eexists.
  destruct (switch_targets_lt _ _ _ Hk) as [(o & Ho & Holt) _].
  destruct (Switch.iter targets) as [|[v exit_bb] [|]] eqn:Hit; [by eexists| |];
    (destruct v; [|by eexists..]); [|by eexists].
  rewrite Ho. simpl.
  destruct (collect_body_loop header back o Holt) as (body & -> & Hblt & Hbody). simpl.
  destruct (match body with [] => true | _ => false end || _) eqn:E; [by eexists|].
  apply orb_false_iff in E as [_ E]. apply negb_false_iff, bool_decide_eq_true_1 in E.
  destruct (existsb _ body) eqn:Er; [by eexists|].
  destruct (find_iter_carry_spec mir Hok body Hblt) as (r & -> & _ & Hr). simpl.
  eexists. split; [done|]. intros i [= <-]. unfold while_info_ok. simpl.
  split_and!; [done| |by apply Hbody| |done].
  - by eexists _, _.
  - intros bb [->|Hbb]%elem_of_cons; [done|]. intros Hin.
    apply not_true_iff_false in Er. apply Er, existsb_exists. exists bb.
    rewrite <-list_elem_of_In. split; [done|]. by apply bool_decide_eq_true_2.
Qed.

(** [find_lt_locals_in_stmts] is total when constant generics are resolved,
    and returns exactly one bound. *)
Lemma find_lt_from_ok args all stmts discr_local :
  forallb (args_resolved_stmt args) stmts = true →
  ∃ o, find_lt_from args all stmts discr_local = Ret o ∧
    ∀ c bl bc, o = Some (c, bl, bc) → exactly_one bl bc = true.
Proof.
  induction stmts as [|s stmts IH]; intros Hargs; [by eexists|].
  cbn [forallb] in Hargs. apply andb_true_iff in Hargs as [Hs Hargs]. specialize (IH Hargs).
  destruct s as [dest rv| | | | | | | | | | |]; try done. destruct rv; try done.
  destruct op; try done. cbn [find_lt_from].
  destruct (_ && _); [|done]. destruct (operand_as_local l); [|by eexists].
  destruct r as [p|p|c|]; simpl.
  1, 2: destruct (no_projection p); (eexists; split; [done|]); by intros ??? [= _ <- <-].
  2: by eexists.
  unfold lt_const_bound. destruct (try_const_operand_as_i64 c) as [v|].
  { eexists. split; [done|]. by intros ??? [= _ <- <-]. }
  destruct c as [ty ck|ty|cv ty]; simpl in *; try by eexists.
  destruct ck; simpl; try by eexists. destruct (is_integral ty); simpl; [|by eexists].
  unfold const_at. destruct (args !! index) as [[| |[]]|]; simpl; try done.
  eexists. split; [done|]. destruct (valtree_try_to_leaf _); simpl; [|done].
  by intros ??? [= _ <- <-].
Qed.

Lemma convergent_ok e b :
  e < n → b < n →
  ∃ o, try_detect_convergent_option_switch mir e b = Ret o ∧
    ∀ sw ex en nrl, o = Some (sw, ex, en, nrl) → en < n.
Proof.
  intros He Hb. unfold try_detect_convergent_option_switch, convergent_block, goto_target.
  destruct (terminator_at_ok _ _ Hok He) as [k1 Hk1]. rewrite Hk1. simpl.
  destruct k1; simpl; try by eexists.
  destruct (terminator_at_ok _ _ Hok Hb) as [k2 ->]. simpl.
  destruct k2; simpl; try by eexists. destruct (_ =? _); simpl; [|by eexists].
  assert (Ht : target < n) by (eapply successors_lt; [done..|]; simpl; by left).
  destruct (terminator_at_ok _ _ Hok Ht) as [k3 Hk3].
  assert (Hk3' := Hk3). unfold terminator_at in Hk3'.
  destruct (block_at mir target) as [d| |]; simpl in *; try done. rewrite Hk3'. simpl.
  destruct k3; try by eexists.
  destruct (switch_targets_lt _ _ _ Hk3) as [_ Hlt].
  destruct (Switch.iter targets) as [|[v1 t1] [|[v2 t2] [|]]]; try (by eexists);
    destruct v1; try (by eexists); destruct v2 as [|[]|]; try (by eexists).
  destruct (operand_as_local discr); [|by eexists]. eexists. split; [done|].
  intros sw ex en nrl. destruct (head _); simpl; [|done]. intros [= _ _ <- _].
  eapply Hlt. right. by left.
Qed.

Lemma find_range_bound_ok bbs :
  (∀ bb, bb ∈ bbs → bb < n) →
  ∃ o, find_range_bound_in mir bbs = Ret o ∧
    ∀ bc bl, o = Some (bc, bl) → exactly_one bl bc = true.
Proof.
  induction bbs as [|bb bbs IH]; intros Hlt; simpl; [by eexists|].
  destruct (block_get mir Hok bb) as (d & _ & _ & _ & -> & _); [apply Hlt; by left|]. simpl.
  destruct (head (omap range_bound_stmt (statements d))) as [[bc bl]|] eqn:E;
    [|apply IH; intros; apply Hlt; by right].
  eexists. split; [done|]. intros ?? [= <- <-].
  assert (Hin : (bc, bl) ∈ omap range_bound_stmt (statements d)).
  { destruct (omap range_bound_stmt (statements d)); simplify_eq/=. by left. }
  apply list_elem_of_omap in Hin as (s & _ & Hs). unfold range_bound_stmt in Hs.
  repeat case_match; simplify_eq/=; try done.
  destruct (try_const_operand_as_i64 _); by simplify_eq/=.
Qed.

Lemma args_resolved_block args bb d :
  args_resolved args mir = true → basic_blocks mir !! bb = Some d →
  forallb (args_resolved_stmt args) (statements d) = true.
Proof.
  unfold args_resolved. rewrite !forallb_forall. intros H Hd s Hs.
  apply H, list_elem_of_In, elem_of_concat. exists (statements d).
  split; [by apply list_elem_of_In|]. apply list_elem_of_fmap. exists d.
  split; [done|]. by eapply list_elem_of_lookup_2.
Qed.

(** What a recognised header promises. *)
Definition header_ok (h : HeaderInfo) : Prop :=
  hi_body_entry_bb h < n ∧ exactly_one (hi_bound_local h) (hi_bound_const h) = true ∧
  (is_Some (hi_switch_bb h) ↔ is_Some (hi_next_result_local h)).

Lemma header_pattern_lt_ok args bb d k :
  args_resolved args mir = true → basic_blocks mir !! bb = Some d →
  terminator_at mir bb = Ret k →
  ∃ o, header_pattern_lt args mir d k = Ret o ∧ ∀ h, o = Some h → header_ok h.
Proof.
  intros Hargs Hd Hk. unfold header_pattern_lt. destruct k; try by eexists.
  destruct (switch_targets_lt _ _ _ Hk) as [(o & Ho & Holt) Hit].
  destruct (Switch.iter targets) as [|[v exit_bb] [|]]; [by eexists| |];
    (destruct v; [|by eexists..]); [|by eexists].
  rewrite Ho. simpl. destruct (operand_as_local discr) as [dl|]; [|by eexists].
  unfold find_lt_locals_in_stmts.
  destruct (find_lt_from_ok args (statements d) (statements d) dl) as (lt & -> & Hlt);
    [by eapply args_resolved_block|]. simpl.
  destruct lt as [[[c bl] bc]|]; [|by eexists].
  destruct (convergent_ok exit_bb o) as (conv & -> & Hconv); [by eapply Hit; left|done|]. simpl.
  eexists. split; [done|]. intros h [= <-]. specialize (Hlt _ _ _ eq_refl).
  destruct conv as [[[[sw ex] en] nrl]|]; unfold header_ok; simpl; split_and!; try done.
  by eapply Hconv.
Qed.

Lemma header_pattern_call_ok bb k :
  terminator_at mir bb = Ret k →
  ∃ o, header_pattern_call mir bb k = Ret o ∧ ∀ h, o = Some h → header_ok h.
Proof.
  intros Hk. unfold header_pattern_call. destruct k; try by eexists.
  destruct target as [sw|]; [|by eexists].
  assert (Hsw : sw < n).
  { eapply successors_lt; [done..|]. simpl. destruct unwind; by left. }
  destruct (terminator_at_ok _ _ Hok Hsw) as [k' Hk']. rewrite Hk'. simpl.
  destruct k'; try by eexists.
  destruct (switch_targets_lt _ _ _ Hk') as [_ Hlt].
  destruct (Switch.iter targets) as [|[v1 t1] [|[v2 t2] [|]]]; try (by eexists);
    destruct v1; try (by eexists); destruct v2 as [|[]|]; try (by eexists).
  destruct (no_projection destination); [|by eexists].
  unfold find_range_bound. pose proof (terminator_at_lt _ _ Hk) as Hbb.
  destruct (find_range_bound_ok (seq 0 bb)) as (o & -> & Ho).
  { intros x Hx%elem_of_seq. lia. }
  simpl. eexists. split; [done|]. intros h. destruct o as [[bc bl]|]; simpl; [|done].
  intros [= <-]. unfold header_ok. simpl. split_and!.
  - eapply Hlt. right. by left.
  - by apply Ho.
  - split; intros [? ?]; by eexists.
Qed.

Lemma detect_header_ok args header :
  args_resolved args mir = true → header < n →
  ∃ o, detect_header args mir header = Ret o ∧ ∀ h, o = Some h → header_ok h.
Proof.
  intros Hargs Hlt. unfold detect_header.
  destruct (block_get mir Hok header Hlt) as (d & k & Hd & _ & Hd' & Hk).
  assert (Hk' : terminator_at mir header = Ret k) by (unfold terminator_at; by rewrite Hd').
  rewrite Hd'. simpl. rewrite Hk. simpl.
  destruct (header_pattern_lt_ok args header d k Hargs Hd Hk') as (o & -> & Ho). simpl.
  destruct o as [h|]; [by eexists|]. by apply header_pattern_call_ok.
Qed.

Lemma find_induction_sound bbs l :
  find_induction_local_in_bbs mir bbs = Ret (Some l) →
  ∃ bb d s, bb ∈ bbs ∧ basic_blocks mir !! bb = Some d ∧ s ∈ statements d ∧
    induction_stmt s = Some l.
Proof.
  induction bbs as [|bb bbs IH]; simpl; [done|].
  destruct (block_at mir bb) as [d| |] eqn:Hd; simpl; try done.
  destruct (head (omap induction_stmt (statements d))) as [l'|] eqn:E.
  - intros [= ->]. assert (Hin : l ∈ omap induction_stmt (statements d)).
    { destruct (omap induction_stmt (statements d)); simplify_eq/=. by left. }
    apply list_elem_of_omap in Hin as (s & Hs & Hl). exists bb, d, s. split_and!; try done.
    + by left.
    + unfold block_at in Hd. by destruct (basic_blocks mir !! bb); simplify_eq/=.
  - intros (bb' & d' & s & ? & ?)%IH. exists bb', d', s. split; [by right|done].
Qed.

Lemma try_build_range_ok args header back :
  args_resolved args mir = true → back_edge mir header back →
  ∃ o, try_build_range_loop_info (body_fuel mir) args mir header back = Ret o ∧
    ∀ i, o = Some i → range_info_ok mir i.
Proof.
  intros Hargs Hb. unfold try_build_range_loop_info.
  assert (Hlt : header < n).
  { destruct Hb as [Hb _]. eapply successors_lt; [done..|]. simpl. by left. }
  destruct (detect_header_ok args header Hargs Hlt) as (o & -> & Hh). simpl.
  destruct o as [h|]; [|by eexists]. destruct (Hh h eq_refl) as (Hentry & Hone & Hsw).
  destruct (collect_body_loop header back (hi_body_entry_bb h) Hentry) as (body & -> & Hblt & Hbody).
  simpl. destruct (bool_decide (back ∈ body)) eqn:Hback; simpl; [|by eexists].
  apply bool_decide_eq_true_1 in Hback.
  destruct (find_induction_ok mir Hok body Hblt) as (il & Hil). rewrite Hil. simpl.
  destruct il as [il|]; [|by eexists].
  destruct (find_iter_carry_spec mir Hok body Hblt) as (r & -> & _ & Hr). simpl.
  eexists. split; [done|]. intros i [= <-]. unfold range_info_ok. simpl.
  split_and!; [done|by apply Hbody|done|by apply find_induction_sound|done|].
  intros l. destruct (hi_next_result_local h) as [nrl|].
  - rewrite elem_of_filter_b, Hr, negb_true_iff, Nat.eqb_neq. naive_solver.
  - rewrite Hr. naive_solver.
Qed.
End detect.

(** C14: [while] detection returns without panicking on every well-formed body, and
    each reported loop is one: a back edge to a header that switches between the
    exit and the body entry, a body that is exactly the set of blocks reachable
    from the entry without the header, disjoint from the Range loops, and as
    carried locals exactly those assigned in the body whose first access in
    block order is a use. *)
Theorem while_loops_are_loops (mir : Body) (range_loop_blocks : gset BasicBlock)
    (Hok : body_ok mir = true) :
  ∃ loops, detect_while_loop (body_fuel mir) mir range_loop_blocks = Ret loops ∧
    ∀ i, i ∈ loops → while_info_ok mir range_loop_blocks i.
Proof.
  destruct (ofold_total (while_at (body_fuel mir) mir range_loop_blocks)
    (λ _ loops, ∀ i, i ∈ loops → while_info_ok mir range_loop_blocks i)
    (seq 0 (length (basic_blocks mir))) []) as (loops & Hl & Hi); [by intros i ?%elem_of_nil| |by eauto].
  intros pre bb loops Hbb%elem_of_seq Hl. unfold while_at.
  destruct (terminator_at_ok mir bb Hok ltac:(lia)) as [k Hk]. rewrite Hk. simpl.
  destruct k; try by eexists. destruct (Nat.ltb_spec target bb) as [Hlt|]; [|by eexists].
  destruct (_ || _) eqn:E; [by eexists|].
  apply orb_false_iff in E as [E _]. apply bool_decide_eq_false_1 in E.
  destruct (try_build_while_ok mir Hok range_loop_blocks target bb) as (o & -> & Ho); [done..|]. simpl.
  eexists. split; [done|]. destruct o as [i|]; [|done].
  intros j [?| ->%list_elem_of_singleton]%elem_of_app; [by apply Hl|by apply Ho].
Qed.

(** C15: Range-loop detection returns without panicking on every well-formed body
    whose constant generics are resolved, and each reported loop has a back
    edge, a body as for [while] loops, exactly one of a local and a constant
    bound, an induction local extracted from an option in the body, and the
    carried locals of the body except the result of the iterator call. *)
Theorem range_loops_are_loops (args : list GenericArg) (mir : Body)
    (Hok : body_ok mir = true) (Hargs : args_resolved args mir = true) :
  ∃ loops, detect_range_loop (body_fuel mir) args mir = Ret loops ∧
    ∀ i, i ∈ loops → range_info_ok mir i.
Proof.
  destruct (ofold_total (range_at (body_fuel mir) args mir)
    (λ _ loops, ∀ i, i ∈ loops → range_info_ok mir i)
    (seq 0 (length (basic_blocks mir))) []) as (loops & Hl & Hi); [by intros i ?%elem_of_nil| |by eauto].
  intros pre bb loops Hbb%elem_of_seq Hl. unfold range_at.
  destruct (terminator_at_ok mir bb Hok ltac:(lia)) as [k Hk]. rewrite Hk. simpl.
  destruct k; try by eexists. destruct (Nat.ltb_spec target bb) as [Hlt|]; [|by eexists].
  destruct (try_build_range_ok mir Hok args target bb) as (o & -> & Ho); [done..|]. simpl.
  eexists. split; [done|]. destruct o as [i|]; [|done].
  intros j [?| ->%list_elem_of_singleton]%elem_of_app; [by apply Hl|by apply Ho].
Qed.

(** ** Arm chains *)
Definition arm_fuel (mir : Body) : nat := S (S (length (basic_blocks mir))).

Lemma arm_loop_ok (mir : Body) (back_edge_bb : BasicBlock) (body_bbs : gset BasicBlock) fuel chain cur vis :
  body_ok mir = true → cur < length (basic_blocks mir) →
  NoDup chain → list_to_set chain = vis →
  (∀ bb, bb ∈ chain → bb ∈ body_bbs ∧ bb ≠ back_edge_bb ∧ bb < length (basic_blocks mir)) →
  length (basic_blocks mir) < fuel + length chain →
  ∃ r, loop fuel (arm_step mir back_edge_bb body_bbs) (chain, cur, vis) = Ret r ∧
    NoDup r ∧ (∀ bb, bb ∈ r → bb ∈ body_bbs) ∧
    (back_edge_bb ∈ r → last r = Some back_edge_bb).
Proof.
  intros Hok. revert chain cur vis.
  induction fuel as [|f IH]; intros chain cur vis Hcur Hnd Hvis Hin Hf.
  { pose proof (NoDup_length_le chain (seq 0 (length (basic_blocks mir))) Hnd) as H.
    rewrite length_seq in H. exfalso. simpl in Hf.
    assert (length chain ≤ length (basic_blocks mir)); [|lia]. apply H.
    intros x Hx. apply elem_of_seq. destruct (Hin x Hx) as (_ & _ & ?). lia. }
  simpl. assert (Hstop : NoDup chain ∧ (∀ bb, bb ∈ chain → bb ∈ body_bbs) ∧
    (back_edge_bb ∈ chain → last chain = Some back_edge_bb)).
  { split_and!; [done|intros bb Hb; by apply Hin|]. intros Hb. by destruct (Hin _ Hb) as (_ & ? & _). }
  case_bool_decide as Hv; [by eexists|].
  case_bool_decide as Hb; simpl; [|by eexists].
  assert (Hcc : cur ∉ chain) by (intros ?; apply Hv; rewrite <-Hvis; by apply elem_of_list_to_set).
  destruct (Nat.eqb_spec cur back_edge_bb) as [->|Hne]; simpl.
  { eexists. split; [done|]. unfold vec_push. split_and!.
    - by apply NoDup_snoc.
    - intros bb [?| ->%list_elem_of_singleton]%elem_of_app; [by apply Hin|done].
    - by rewrite last_snoc. }
  destruct (terminator_at_ok _ _ Hok Hcur) as [k Hk]. rewrite Hk. simpl.
  assert (Hnew : NoDup (vec_push chain cur) ∧
    (∀ bb, bb ∈ vec_push chain cur → bb ∈ body_bbs ∧ bb ≠ back_edge_bb ∧ bb < length (basic_blocks mir))).
  { split; [by apply NoDup_snoc|].
    intros bb [?| ->%list_elem_of_singleton]%elem_of_app; [by apply Hin|done]. }
  destruct Hnew as [Hnd' Hin'].
  assert (Hdone : ∃ r, Ret (vec_push chain cur) = Ret r ∧ NoDup r ∧ (∀ bb, bb ∈ r → bb ∈ body_bbs) ∧
    (back_edge_bb ∈ r → last r = Some back_edge_bb)).
  { eexists. split_and!; [done|done|intros bb Hbb; by apply Hin'|].
    intros Hbb. by destruct (Hin' _ Hbb) as (_ & ? & _). }
  assert (Hgo : ∀ t, t ∈ successors k → ∃ r,
    loop f (arm_step mir back_edge_bb body_bbs) (vec_push chain cur, t, {[cur]} ∪ vis) = Ret r ∧
    NoDup r ∧ (∀ bb, bb ∈ r → bb ∈ body_bbs) ∧ (back_edge_bb ∈ r → last r = Some back_edge_bb)).
  { intros t Ht. apply IH; [by eapply successors_lt|done| |done|].
    - unfold vec_push. rewrite list_to_set_app_L, Hvis. simpl. rewrite union_empty_r_L.
      apply (comm_L (∪)).
    - unfold vec_push. rewrite length_app. simpl. lia. }
  destruct k; simpl; try exact Hdone.
  - apply Hgo. simpl. by left.
  - destruct target as [t|]; [|exact Hdone]. case_bool_decide; [|exact Hdone].
    apply Hgo. simpl. destruct unwind; by left.
Qed.

(** The chain of a switch arm is collected without running forever or
    panicking; its blocks are distinct blocks of the loop body, and the back
    edge can only be its last block. *)
Theorem arm_chain_ends_at_back_edge (mir : Body) (start back_edge_bb : BasicBlock)
    (body_bbs : gset BasicBlock)
    (Hok : body_ok mir = true) (Hstart : start < length (basic_blocks mir)) :
  ∃ chain, collect_arm_chain (arm_fuel mir) mir start back_edge_bb body_bbs = Ret chain ∧
    NoDup chain ∧ (∀ bb, bb ∈ chain → bb ∈ body_bbs) ∧
    (back_edge_bb ∈ chain → last chain = Some back_edge_bb).
Proof.
  unfold collect_arm_chain. destruct (_ =? _).
  { exists []. split_and!; [done|constructor|by intros ? ?%elem_of_nil|by intros ?%elem_of_nil]. }
  apply arm_loop_ok; try done; [constructor|by intros ? ?%elem_of_nil|]. unfold arm_fuel. simpl. lia.
Qed.

(** ** Concrete loops *)
Definition loop_place (l : Local) : Place := mkPlace l [].
Definition loop_const (v : Z) : Operand :=
  Constant (ConstVal (CvScalar (ScalarInt_ (mkScalarInt v 4))) (TyUint U32)).

(** [while _1 < 10 { _1 += 1 }] *)
Definition while_body : Body := mkBody
  [ mkBlock [] (Some (Goto 1));
    mkBlock [Assign (loop_place 2) (BinaryOp BLt (Copy (loop_place 1)) (loop_const 10))]
      (Some (SwitchInt (Move (loop_place 2)) (Switch.static_if 0 3 2)));
    mkBlock [Assign (loop_place 1) (BinaryOp Add (Copy (loop_place 1)) (loop_const 1))]
      (Some (Goto 1));
    mkBlock [] (Some Return) ]
  [TyBool; TyUint U32; TyBool] 0.

(** [for i in 0..4 { _6 += i }], with the iterator's [next] a call. *)
Definition range_body : Body := mkBody
  [ mkBlock [Assign (loop_place 2) (Aggregate (AggAdt 7 0) [loop_const 0; loop_const 4])]
      (Some (Goto 1));
    mkBlock [] (Some (Call RuntimeChecks [Move (loop_place 1)] (loop_place 3) (Some 2) UnwindContinue));
    mkBlock [Assign (loop_place 4) (Discriminant (loop_place 3))]
      (Some (SwitchInt (Move (loop_place 4)) (Switch.new [(0%Z, 5); (1%Z, 3)] 4)));
    mkBlock
      [Assign (loop_place 5) (Use (Copy (mkPlace 3 [Downcast 1; Field 0 (TyUint U32)])));
       Assign (loop_place 6) (BinaryOp Add (Copy (loop_place 6)) (Copy (loop_place 5)))]
      (Some (Goto 1));
    mkBlock [] (Some Unreachable);
    mkBlock [] (Some Return) ]
  [TyBool; TyUint U32; TyUint U32; TyUint U32; TyUint U32; TyUint U32; TyUint U32] 0.

Lemma while_loops_are_loops_witness :
  body_ok while_body = true ∧
  detect_while_loop (body_fuel while_body) while_body ∅ = Ret [mkWhile 1 2 [2] 2 3 [1]] ∧
  while_info_ok while_body ∅ (mkWhile 1 2 [2] 2 3 [1]).
Proof.
  assert (Hok : body_ok while_body = true) by (vm_compute; reflexivity).
  destruct (while_loops_are_loops while_body ∅ Hok) as (loops & Hl & Hi).
  assert (Hl' := Hl). vm_compute in Hl'. injection Hl' as <-.
  split; [exact Hok|]. split; [exact Hl|]. apply Hi. by left.
Defined.

Lemma range_loops_are_loops_witness :
  body_ok range_body = true ∧ args_resolved [] range_body = true ∧
  detect_range_loop (body_fuel range_body) [] range_body =
    Ret [mkRange 1 3 [3] 3 5 5 None (Some 4%Z) 5 [6] (Some 2) (Some 3) []].
Proof.
  assert (Hok : body_ok range_body = true) by (vm_compute; reflexivity).
  assert (Hargs : args_resolved [] range_body = true) by (vm_compute; reflexivity).
  destruct (range_loops_are_loops [] range_body Hok Hargs) as (loops & Hl & _).
  assert (Hl' := Hl). vm_compute in Hl'. injection Hl' as <-.
  split; [exact Hok|]. split; [exact Hargs|exact Hl].
Defined.

Lemma arm_chain_ends_at_back_edge_witness :
  ∃ chain, collect_arm_chain (arm_fuel range_body) range_body 0 3 {[0; 1; 3]} = Ret chain ∧
    chain = [0; 1] ∧ NoDup chain.
Proof.
  assert (Hok : body_ok range_body = true) by (vm_compute; reflexivity).
  destruct (arm_chain_ends_at_back_edge range_body 0 3 {[0; 1; 3]} Hok) as (chain & Hc & Hnd & _).
  { simpl. lia. }
  assert (Hc' := Hc). vm_compute in Hc'. injection Hc' as <-.
  eexists. split; [exact Hc|]. split; [reflexivity|exact Hnd].
Defined.

(** [while _1 { _1 = discriminant(_2); _2 = 0 }] *)
Definition discr_loop_body : Body := mkBody
  [ mkBlock [] (Some (Goto 1));
    mkBlock [] (Some (SwitchInt (Copy (loop_place 1)) (Switch.static_if 0 3 2)));
    mkBlock [Assign (loop_place 1) (Discriminant (loop_place 2));
             Assign (loop_place 2) (Use (loop_const 0))] (Some (Goto 1));
    mkBlock [] (Some Return) ]
  [TyBool; TyUint U32; TyUint U32] 0.

(** A local read only as a discriminant is not a use for [rvalue_uses_local]:
    this one is read at the top of each iteration and assigned at the bottom,
    but is not a loop-carried local. *)
Theorem discriminant_reads_are_not_carried :
  detect_while_loop (body_fuel discr_loop_body) discr_loop_body ∅ = Ret [mkWhile 1 2 [2] 2 3 []] ∧
  (∃ d, block_at discr_loop_body 2 = Ret d ∧
     Assign (loop_place 1) (Discriminant (loop_place 2)) ∈ statements d ∧
     loop_place 2 ∈ omap (λ s, match s with Assign p _ => Some p | _ => None end) (statements d)).
Proof.
  split; [vm_compute; reflexivity|]. eexists. split; [reflexivity|]. simpl. split.
  - by left.
  - right. by left.
Qed.
