(* ===== verification/Interval.v ===== *)
(** * Interval sets

    [rustc_index/src/interval.rs]: a set of indices stored as a sorted vector of
    non-adjacent inclusive intervals, and the sparse matrix of such rows.

    An index is its [usize] value; interval ends are [u32] values, so that
    [as u32] and [+ 1] wrap at 32 bits as in a release build.  A [RangeBounds]
    argument is its pair of bounds. *)
From S2P Require Import Prelude.
#[local] Open Scope Z_scope.

Record IntervalSet := mkISet { map : list (Z * Z); domain : Z }.

(** [x + 1] on [u32]. *)
Definition succ_u32 (x : Z) : Z := as_u 32 (x + 1).

(** [n.checked_sub(1)] on [usize]. *)
Definition checked_pred (n : Z) : option Z := if n =? 0 then None else Some (n - 1).

Definition inclusive_start (r : RangeBounds Z) : Z :=
  match start_bound r with
  | Included start => as_u 32 start
  | Excluded start => succ_u32 (as_u 32 start)
  | Unbounded => 0
  end.

Definition inclusive_end (domain : Z) (r : RangeBounds Z) : option Z :=
  match end_bound r with
  | Included end_ => Some (as_u 32 end_)
  | Excluded end_ => as_u 32 <$> checked_pred end_
  | Unbounded => as_u 32 <$> checked_pred domain
  end.

(** [point..=point] *)
Definition range_point (point : Z) : RangeBounds Z := mkBounds (Included point) (Included point).

Definition new (domain : Z) : IntervalSet := mkISet [] domain.
Definition with_map (s : IntervalSet) (m : list (Z * Z)) : IntervalSet := mkISet m (domain s).
Definition clear (s : IntervalSet) : IntervalSet := with_map s [].

(** The intervals as half-open [Range]s. *)
Definition iter_intervals (s : IntervalSet) : list (Z * Z) := (λ p, (p.1, p.2 + 1)) <$> map s.
Definition iter (s : IntervalSet) : list Z :=
  concat ((λ p, seqZ p.1 (p.2 - p.1)) <$> iter_intervals s).

Definition check_from (current : option Z) (p : Z * Z) : option (option Z) :=
  if (p.2 <? p.1) || match current with Some x => p.1 <=? succ_u32 x | None => false end
  then None else Some (Some p.2).
Fixpoint check_all (current : option Z) (l : list (Z * Z)) : option (option Z) :=
  match l with
  | [] => Some current
  | p :: l' => c ← check_from current p; check_all c l'
  end.
Definition check_invariants (s : IntervalSet) : bool :=
  match check_all None (map s) with
  | None => false
  | Some current => match current with Some x => x <? as_u 32 (domain s) | None => true end
  end.

Definition insert_interval (m : list (Z * Z)) (start end_ : Z) : outcome (list (Z * Z) * bool) :=
  let next := partition_point (λ r : Z * Z, r.1 <=? succ_u32 end_) m in
  match next with
  | S right_ =>
      p ← unwrap (m !! right_);
      let '(prev_start, prev_end) := p in
      if start <=? succ_u32 prev_end then
        if start <? prev_start then
          let left := partition_point (λ l : Z * Z, succ_u32 l.2 <? start) m in
          q ← unwrap (m !! left);
          let m' := <[right_ := (Z.min q.1 start, Z.max prev_end end_)]> m in
          m'' ← (if (left =? right_)%nat then Ret m' else vec_drain left right_ m');
          Ret (m'', true)
        else if prev_end <? end_ then Ret (<[right_ := (prev_start, end_)]> m, true)
        else Ret (m, false)
      else m' ← vec_insert (S right_) (start, end_) m; Ret (m', true)
  | O =>
      match m with
      | [] => Ret (vec_push m (start, end_), true)
      | _ => m' ← vec_insert next (start, end_) m; Ret (m', true)
      end
  end.

Definition insert_range (s : IntervalSet) (range : RangeBounds Z) : outcome (IntervalSet * bool) :=
  let start := inclusive_start range in
  match inclusive_end (domain s) range with
  | None => Ret (s, false)
  | Some end_ =>
      if end_ <? start then Ret (s, false)
      else r ← insert_interval (map s) start end_; Ret (with_map s r.1, r.2)
  end.

Definition insert (s : IntervalSet) (point : Z) : outcome (IntervalSet * bool) :=
  insert_range s (range_point point).

Definition append (s : IntervalSet) (point : Z) : outcome IntervalSet :=
  let point := as_u 32 point in
  match vec_pop (map s) with
  | Some ((last_start, last_end), m) =>
      if negb (last_end <=? point) then Panic
      else if point =? last_end then Ret s
      else if point =? succ_u32 last_end then Ret (with_map s (vec_push m (last_start, point)))
      else Ret (with_map s (vec_push (map s) (point, point)))
  | None => Ret (with_map s (vec_push (map s) (point, point)))
  end.

Definition append_range (s : IntervalSet) (range : RangeBounds Z) : outcome IntervalSet :=
  let start := inclusive_start range in
  match inclusive_end (domain s) range with
  | None => Ret s
  | Some end_ =>
      if end_ <? start then Ret s
      else
        match vec_pop (map s) with
        | Some ((last_start, last_end), m) =>
            if negb (last_end <=? start) then Panic
            else if start <=? succ_u32 last_end then Ret (with_map s (vec_push m (last_start, end_)))
            else Ret (with_map s (vec_push (map s) (start, end_)))
        | None => Ret (with_map s (vec_push (map s) (start, end_)))
        end
  end.

Definition contains (s : IntervalSet) (needle : Z) : outcome bool :=
  let needle := as_u 32 needle in
  match partition_point (λ r : Z * Z, r.1 <=? needle) (map s) with
  | O => Ret false
  | S last => p ← unwrap (map s !! last); Ret (needle <=? p.2)
  end.

(** The closure [contains] of [superset] on half-open ranges: the saved range
    and the answer. *)
Definition range_contains (sup sub : Z * Z) : option (Z * Z) * option bool :=
  if sup.2 <? sub.1 then (None, None)
  else if (sub.2 <=? sup.2) && (sup.1 <=? sub.1) then (Some sup, Some true)
  else (None, Some false).

(** [sup_iter.find_map(...)]: the answer, the saved range and the rest of the
    iterator. *)
Fixpoint find_sup (sups : list (Z * Z)) (sub : Z * Z) : option bool * option (Z * Z) * list (Z * Z) :=
  match sups with
  | [] => (None, None, [])
  | sup :: sups' =>
      match range_contains sup sub with
      | (current, Some b) => (Some b, current, sups')
      | (_, None) => find_sup sups' sub
      end
  end.

Fixpoint superset_from (sups : list (Z * Z)) (current : option (Z * Z)) (subs : list (Z * Z)) : bool :=
  match subs with
  | [] => true
  | sub :: subs' =>
      let '(ans, current', sups') :=
        match current with
        | Some sup =>
            match range_contains sup sub with
            | (c, Some b) => (Some b, c, sups)
            | (_, None) => find_sup sups sub
            end
        | None => find_sup sups sub
        end in
      match ans with
      | Some true => superset_from sups' current' subs'
      | _ => false
      end
  end.

Definition superset (s other : IntervalSet) : bool :=
  superset_from (iter_intervals s) None (iter_intervals other).

(** The [loop] of [disjoint], the current range of each side at the head of its
    list. *)
Definition disjoint_step (st : list (Z * Z) * list (Z * Z))
    : outcome (list (Z * Z) * list (Z * Z) + bool) :=
  match st with
  | (self_current :: self_iter, other_current :: other_iter) =>
      if self_current.2 <=? other_current.1 then Ret (inl (self_iter, other_current :: other_iter))
      else if other_current.2 <=? self_current.1 then Ret (inl (self_current :: self_iter, other_iter))
      else Ret (inr false)
  | _ => Ret (inr true)
  end.

Definition disjoint_fuel (s other : IntervalSet) : nat :=
  S (length (map s) + length (map other)).
Definition disjoint (s other : IntervalSet) : outcome bool :=
  loop (disjoint_fuel s other) disjoint_step (iter_intervals s, iter_intervals other).

Definition is_empty (s : IntervalSet) : bool := match map s with [] => true | _ => false end.

Definition first_unset_in (s : IntervalSet) (range : RangeBounds Z) : outcome (option Z) :=
  let start := inclusive_start range in
  match inclusive_end (domain s) range with
  | None => Ret None
  | Some end_ =>
      if end_ <? start then Ret None
      else
        match partition_point (λ r : Z * Z, r.1 <=? start) (map s) with
        | O => Ret (Some start)
        | S last =>
            p ← unwrap (map s !! last);
            Ret (if p.2 <? start then Some start
                 else if p.2 <? end_ then Some (p.2 + 1)
                 else None)
        end
  end.

Definition last_set_in (s : IntervalSet) (range : RangeBounds Z) : outcome (option Z) :=
  let start := inclusive_start range in
  match inclusive_end (domain s) range with
  | None => Ret None
  | Some end_ =>
      if end_ <? start then Ret None
      else
        match partition_point (λ r : Z * Z, r.1 <=? end_) (map s) with
        | O => Ret None
        | S last =>
            p ← unwrap (map s !! last);
            Ret (if start <=? p.2 then Some (Z.min p.2 end_) else None)
        end
  end.

(** [end.try_into().unwrap()] panics when the domain does not fit. *)
Definition insert_all (s : IntervalSet) : outcome IntervalSet :=
  match checked_pred (domain s) with
  | Some end_ => if end_ <? 2 ^ 32 then Ret (with_map s [(0, end_)]) else Panic
  | None => Ret (clear s)
  end.

Definition insert_or (st : IntervalSet * bool) (range : Z * Z) : outcome (IntervalSet * bool) :=
  r ← insert_range st.1 (range_excl range.1 range.2);
  Ret (r.1, st.2 || r.2).

Definition union_into (s other : IntervalSet) : outcome (IntervalSet * bool) :=
  ofold insert_or (s, false) (iter_intervals other).

(** The recursive call is made at most once: it swaps the two lengths. *)
Definition union (s other : IntervalSet) : outcome (IntervalSet * bool) :=
  if negb (domain s =? domain other) then Panic
  else if (length (map s) <? length (map other))%nat then
    union_into (with_map s (map other)) s
  else union_into s other.

(** ** Sparse interval matrices *)
Record SparseIntervalMatrix := mkSim { rows : list IntervalSet; column_size : Z }.

Definition sim_new (column_size : Z) : SparseIntervalMatrix := mkSim [] column_size.
Definition sim_row (m : SparseIntervalMatrix) (row : nat) : option IntervalSet := rows m !! row.

(** [IndexVec::ensure_contains_elem]: extend with fresh rows up to [row]. *)
Definition ensure_row (m : SparseIntervalMatrix) (row : nat) : SparseIntervalMatrix :=
  mkSim (rows m ++ replicate (S row - length (rows m)) (new (column_size m))) (column_size m).

(** Run an operation on a row that exists. *)
Definition on_row {R} (m : SparseIntervalMatrix) (row : nat)
    (f : IntervalSet → outcome (IntervalSet * R)) : outcome (SparseIntervalMatrix * R) :=
  s ← unwrap (rows m !! row);
  r ← f s;
  Ret (mkSim (<[row := r.1]> (rows m)) (column_size m), r.2).
Definition no_result (f : IntervalSet → outcome IntervalSet) (s : IntervalSet)
    : outcome (IntervalSet * unit) := s' ← f s; Ret (s', tt).

Definition union_row (m : SparseIntervalMatrix) (row : nat) (from : IntervalSet)
    : outcome (SparseIntervalMatrix * bool) :=
  on_row (ensure_row m row) row (λ s, union s from).

Definition union_rows (m : SparseIntervalMatrix) (read write : nat)
    : outcome (SparseIntervalMatrix * bool) :=
  if (read =? write)%nat || match rows m !! read with None => true | Some _ => false end
  then Ret (m, false)
  else
    let m := ensure_row m write in
    read_row ← unwrap (rows m !! read);
    on_row m write (λ write_row, union write_row read_row).

Definition insert_all_into_row (m : SparseIntervalMatrix) (row : nat)
    : outcome (SparseIntervalMatrix * unit) :=
  on_row (ensure_row m row) row (no_result insert_all).
Definition sim_insert_range (m : SparseIntervalMatrix) (row : nat) (range : RangeBounds Z)
    : outcome (SparseIntervalMatrix * unit) :=
  on_row (ensure_row m row) row (λ s, r ← insert_range s range; Ret (r.1, tt)).
Definition sim_insert (m : SparseIntervalMatrix) (row : nat) (point : Z)
    : outcome (SparseIntervalMatrix * bool) :=
  on_row (ensure_row m row) row (λ s, insert s point).
Definition sim_append (m : SparseIntervalMatrix) (row : nat) (point : Z)
    : outcome (SparseIntervalMatrix * unit) :=
  on_row (ensure_row m row) row (no_result (λ s, append s point)).
Definition sim_append_range (m : SparseIntervalMatrix) (row : nat) (range : RangeBounds Z)
    : outcome (SparseIntervalMatrix * unit) :=
  on_row (ensure_row m row) row (no_result (λ s, append_range s range)).
Definition sim_contains (m : SparseIntervalMatrix) (row : nat) (point : Z) : outcome bool :=
  match sim_row m row with Some r => contains r point | None => Ret false end.
