(* ===== verification/IntervalFacts.v ===== *)
(** * Interval sets: the theorems

    The sorted non-adjacent representation is preserved by every operation and
    is canonical, and each operation does on the represented set what its name
    says.  Indices fit 32 bits: the domain is below [2^32]. *)
From S2P Require Import Prelude Interval.
#[local] Open Scope Z_scope.

(** The set a vector of intervals stands for. *)
Definition in_map (m : list (Z * Z)) (x : Z) : Prop := ∃ p, p ∈ m ∧ p.1 ≤ x ≤ p.2.
#[export] Instance iset_elem_of : ElemOf Z IntervalSet := λ x s, in_map (map s) x.

(** Intervals from [lo] on, with a gap of at least one index between them. *)
Fixpoint wf_from (lo : Z) (m : list (Z * Z)) : Prop :=
  match m with
  | [] => True
  | p :: m' => lo ≤ p.1 ∧ p.1 ≤ p.2 ∧ wf_from (p.2 + 2) m'
  end.
Fixpoint next_free (lo : Z) (m : list (Z * Z)) : Z :=
  match m with [] => lo | p :: m' => next_free (p.2 + 2) m' end.
Definition below (d : Z) (m : list (Z * Z)) : Prop := ∀ p, p ∈ m → p.2 < d.
Definition wf (s : IntervalSet) : Prop :=
  wf_from 0 (map s) ∧ below (domain s) (map s) ∧ 0 ≤ domain s < 2 ^ 32.

(** The indices a [RangeBounds] denotes in a domain. *)
Definition in_range (d : Z) (r : RangeBounds Z) (x : Z) : Prop :=
  match start_bound r with Included a => a ≤ x | Excluded a => a < x | Unbounded => 0 ≤ x end ∧
  match end_bound r with Included b => x ≤ b | Excluded b => x < b | Unbounded => x < d end.
(** Bounds that are indices of the domain, with an end that may be one past it. *)
Definition range_ok (d : Z) (r : RangeBounds Z) : Prop :=
  match start_bound r with Included a | Excluded a => 0 ≤ a < 2 ^ 32 - 1 | Unbounded => True end ∧
  match end_bound r with Included b => 0 ≤ b < d | Excluded b => 0 ≤ b ≤ d | Unbounded => True end.

Lemma as_u32_id x : 0 ≤ x < 2 ^ 32 → as_u 32 x = x.
Proof. apply as_u_id. Qed.
Lemma succ_u32_id x : 0 ≤ x < 2 ^ 32 - 1 → succ_u32 x = x + 1.
Proof. intros. apply as_u_id. lia. Qed.

Lemma in_map_nil x : in_map [] x ↔ False.
Proof. split; [by intros (p & ?%elem_of_nil & _)|done]. Qed.
Lemma in_map_cons p m x : in_map (p :: m) x ↔ p.1 ≤ x ≤ p.2 ∨ in_map m x.
Proof.
  split.
  - intros (q & [->|Hq]%elem_of_cons & ?); [by left|right; by exists q].
  - intros [?|(q & ? & ?)]; [exists p; split; [by left|done]|exists q; split; [by right|done]].
Qed.
Lemma in_map_app m1 m2 x : in_map (m1 ++ m2) x ↔ in_map m1 x ∨ in_map m2 x.
Proof.
  induction m1 as [|p m1 IH]; simpl; [by rewrite in_map_nil; tauto|].
  rewrite !in_map_cons, IH. tauto.
Qed.

Lemma wf_from_app lo m1 m2 :
  wf_from lo (m1 ++ m2) ↔ wf_from lo m1 ∧ wf_from (next_free lo m1) m2.
Proof. revert lo. induction m1 as [|p m1 IH]; intros lo; simpl; [tauto|]. rewrite IH. tauto. Qed.
Lemma next_free_app lo m1 m2 : next_free lo (m1 ++ m2) = next_free (next_free lo m1) m2.
Proof. revert lo. induction m1; intros; simpl; auto. Qed.
Lemma wf_from_mono lo lo' m : lo' ≤ lo → wf_from lo m → wf_from lo' m.
Proof. destruct m; simpl; [done|]. intros ? (? & ? & ?). split_and!; [lia|done..]. Qed.
Lemma next_free_le lo m : wf_from lo m → lo ≤ next_free lo m.
Proof. revert lo. induction m as [|p m IH]; intros lo; simpl; [lia|]. intros (? & ? & ?%IH). lia. Qed.
Lemma wf_from_bounds lo m p :
  wf_from lo m → p ∈ m → lo ≤ p.1 ∧ p.1 ≤ p.2 ∧ p.2 + 2 ≤ next_free lo m.
Proof.
  revert lo. induction m as [|q m IH]; intros lo; simpl; [by intros _ ?%elem_of_nil|].
  intros (? & ? & Hm) [->|Hp]%elem_of_cons.
  - apply next_free_le in Hm. lia.
  - destruct (IH _ Hm Hp). lia.
Qed.
Lemma wf_from_in lo m x : wf_from lo m → in_map m x → lo ≤ x ∧ x + 2 ≤ next_free lo m.
Proof. intros Hm (p & Hp & ?). destruct (wf_from_bounds _ _ _ Hm Hp). lia. Qed.
Lemma next_free_last lo m p : next_free lo (m ++ [p]) = p.2 + 2.
Proof. by rewrite next_free_app. Qed.

Lemma below_app d m1 m2 : below d (m1 ++ m2) ↔ below d m1 ∧ below d m2.
Proof.
  unfold below. setoid_rewrite elem_of_app. naive_solver.
Qed.
Lemma below_cons d p m : below d (p :: m) ↔ p.2 < d ∧ below d m.
Proof. unfold below. setoid_rewrite elem_of_cons. naive_solver. Qed.

(** A sorted vector is partitioned by a threshold on the starts, and by one on
    the ends. *)
Lemma starts_split lo m t :
  wf_from lo m → ∃ m1 m2, m = m1 ++ m2 ∧
    partition_point (λ r : Z * Z, r.1 <=? t) m = length m1 ∧
    (∀ p, p ∈ m1 → p.1 ≤ t) ∧ (∀ p, p ∈ m2 → t < p.1).
Proof.
  intros Hm. destruct (partition_point_split (λ r : Z * Z, r.1 <=? t) m)
    as (m1 & m2 & -> & Hp & H1 & H2).
  exists m1, m2. split_and!; [done..|intros p Hp1; apply Z.leb_le; by apply H1|].
  apply wf_from_app in Hm as [_ Hm]. destruct m2 as [|q m2]; [by intros ? ?%elem_of_nil|].
  specialize (H2 q eq_refl). simpl in *. destruct Hm as (? & ? & Hm).
  intros p [->|Hp2]%elem_of_cons; [lia|]. destruct (wf_from_bounds _ _ _ Hm Hp2). lia.
Qed.

Lemma ends_split lo d m t :
  wf_from lo m → 0 ≤ lo → below d m → d < 2 ^ 32 → ∃ m1 m2, m = m1 ++ m2 ∧
    partition_point (λ l : Z * Z, succ_u32 l.2 <? t) m = length m1 ∧
    (∀ p, p ∈ m1 → p.2 + 1 < t) ∧ (∀ p, p ∈ m2 → t ≤ p.2 + 1).
Proof.
  intros Hm Hlo Hd Hd32. destruct (partition_point_split (λ l : Z * Z, succ_u32 l.2 <? t) m)
    as (m1 & m2 & -> & Hp & H1 & H2).
  assert (Hs : ∀ p, p ∈ m1 ++ m2 → succ_u32 p.2 = p.2 + 1).
  { intros p Hp'. apply succ_u32_id. destruct (wf_from_bounds _ _ _ Hm Hp') as (? & ? & _).
    specialize (Hd p Hp'). lia. }
  exists m1, m2. split_and!; [done..| |].
  - intros p Hp1. specialize (H1 p Hp1). apply Z.ltb_lt in H1.
    rewrite Hs in H1; [done|]. apply elem_of_app. by left.
  - apply wf_from_app in Hm as [_ Hm]. destruct m2 as [|q m2]; [by intros ? ?%elem_of_nil|].
    specialize (H2 q eq_refl). simpl in H2. apply Z.ltb_ge in H2.
    rewrite Hs in H2 by (apply elem_of_app; right; by left).
    simpl in Hm. destruct Hm as (? & ? & Hm).
    intros p [->|Hp2]%elem_of_cons; [lia|]. destruct (wf_from_bounds _ _ _ Hm Hp2). lia.
Qed.

(** Put one interval between two parts of a vector. *)
Lemma splice_wf lo d m1 p m2 :
  wf_from lo m1 → wf_from (p.2 + 2) m2 → next_free lo m1 ≤ p.1 → p.1 ≤ p.2 →
  below d m1 → below d m2 → p.2 < d →
  wf_from lo (m1 ++ p :: m2) ∧ below d (m1 ++ p :: m2).
Proof.
  intros. split; [|by apply below_app; rewrite below_cons].
  apply wf_from_app. split; [done|]. simpl. split_and!; done.
Qed.

Lemma wf_from_start lo lo' m : wf_from lo m → (∀ p, p ∈ m → lo' ≤ p.1) → wf_from lo' m.
Proof.
  destruct m as [|p m]; [done|]. simpl. intros (? & ? & ?) Hs. split_and!; [|done..].
  apply Hs. by left.
Qed.

(** The end of the part that starts before a threshold. *)
Lemma next_free_ends lo m t : wf_from lo m → lo ≤ t → (∀ p, p ∈ m → p.2 + 1 < t) → next_free lo m ≤ t.
Proof.
  intros Hm Hlo H. induction m as [|p m _] using rev_ind; [done|].
  rewrite next_free_last. specialize (H p). rewrite elem_of_app, list_elem_of_singleton in H.
  specialize (H (or_intror eq_refl)). lia.
Qed.

(** The outcome of an insertion: a vector, and whether it grew. *)
Definition inserted (d : Z) (m : list (Z * Z)) (a b : Z) (r : list (Z * Z) * bool) : Prop :=
  wf_from 0 r.1 ∧ below d r.1 ∧ (∀ x, in_map r.1 x ↔ in_map m x ∨ a ≤ x ≤ b) ∧
  (r.2 = true ↔ ∃ x, a ≤ x ≤ b ∧ ¬ in_map m x).

Lemma inserted_intro d m a b r :
  wf_from 0 r.1 ∧ below d r.1 → (∀ x, in_map r.1 x ↔ in_map m x ∨ a ≤ x ≤ b) →
  (r.2 = true ↔ ∃ x, a ≤ x ≤ b ∧ ¬ in_map m x) → inserted d m a b r.
Proof. intros [? ?] ??. by split_and!. Qed.

Section insert.
Context (d a b : Z) (Hd : d < 2 ^ 32) (Hab : 0 ≤ a ≤ b) (Hb : b < d).

Lemma not_in_map m x : (∀ p, p ∈ m → x < p.1 ∨ p.2 < x) → ¬ in_map m x.
Proof. intros H (p & Hp & ?). destruct (H p Hp); lia. Qed.

(** No interval touches [a..=b]. *)
Lemma inserted_apart m1 m2 :
  wf_from 0 (m1 ++ m2) → below d (m1 ++ m2) →
  (∀ p, p ∈ m1 → p.2 + 1 < a) → (∀ p, p ∈ m2 → b + 1 < p.1) →
  inserted d (m1 ++ m2) a b (m1 ++ (a, b) :: m2, true).
Proof.
  intros [Hm1 Hm2]%wf_from_app [Hd1 Hd2]%below_app H1 H2.
  apply inserted_intro; simpl.
  - apply splice_wf; simpl; try done; try lia.
    + eapply wf_from_start; [done|]. intros p Hp. specialize (H2 p Hp). lia.
    + apply next_free_ends; [done|lia|done].
  - intros x. rewrite !in_map_app, in_map_cons. simpl. tauto.
  - split; [|done]. intros _. exists a. split; [lia|]. apply not_in_map.
    intros p [Hp|Hp]%elem_of_app; [specialize (H1 p Hp)|specialize (H2 p Hp)]; lia.
Qed.

(** [a..=b] starts inside or right after [p] and grows it. *)
Lemma inserted_grow m1 p m2 :
  wf_from 0 (m1 ++ p :: m2) → below d (m1 ++ p :: m2) →
  p.1 ≤ a → a ≤ p.2 + 1 → p.2 < b → (∀ q, q ∈ m2 → b + 1 < q.1) →
  inserted d (m1 ++ p :: m2) a b (m1 ++ (p.1, b) :: m2, true).
Proof.
  intros [Hm1 Hm2]%wf_from_app [Hd1 Hd2]%below_app Hp1 Hp2 Hpb H2.
  apply below_cons in Hd2 as [Hdp Hd2]. simpl in Hm2. destruct Hm2 as (? & ? & Hm2).
  apply inserted_intro; simpl.
  - apply splice_wf; simpl; try done; try lia.
    eapply wf_from_start; [done|]. intros q Hq. specialize (H2 q Hq). lia.
  - intros x. rewrite !in_map_app, !in_map_cons. simpl.
    assert (p.1 ≤ x ≤ b ↔ p.1 ≤ x ≤ p.2 ∨ a ≤ x ≤ b) by lia. tauto.
  - split; [|done]. intros _. exists (p.2 + 1). split; [lia|]. apply not_in_map.
    intros q [Hq|[->|Hq]%elem_of_cons]%elem_of_app; [|lia|specialize (H2 q Hq); lia].
    destruct (wf_from_bounds _ _ _ Hm1 Hq). lia.
Qed.

(** [a..=b] lies inside [p]. *)
Lemma inserted_inside m1 p m2 :
  wf_from 0 (m1 ++ p :: m2) → below d (m1 ++ p :: m2) → p.1 ≤ a → b ≤ p.2 →
  inserted d (m1 ++ p :: m2) a b (m1 ++ p :: m2, false).
Proof.
  intros Hm Hdm ? ?. unfold inserted. simpl. split_and!; [done..| |].
  - intros x. rewrite !in_map_app, !in_map_cons. split; [tauto|].
    intros [?|?]; [done|right; left; lia].
  - split; [done|]. intros (x & ? & Hx). destruct Hx.
    rewrite in_map_app, in_map_cons. right. left. lia.
Qed.

(** [a..=b] joins the intervals [mid] and [p] into one. *)
Lemma inserted_join m1 mid p m2 h :
  wf_from 0 (m1 ++ mid ++ p :: m2) → below d (m1 ++ mid ++ p :: m2) →
  head (mid ++ [p]) = Some h →
  (∀ q, q ∈ m1 → q.2 + 1 < a) → (∀ q, q ∈ mid ++ [p] → a ≤ q.2 + 1) →
  a < p.1 → p.1 ≤ b + 1 → (∀ q, q ∈ m2 → b + 1 < q.1) →
  inserted d (m1 ++ mid ++ p :: m2) a b (m1 ++ (Z.min h.1 a, Z.max p.2 b) :: m2, true).
Proof.
  intros [Hm1 Hm2]%wf_from_app [Hd1 Hd2]%below_app Hh H1 Hmid Hap Hpb H2.
  assert (Hm2' := Hm2). replace (mid ++ p :: m2) with ((mid ++ [p]) ++ m2) in Hm2', Hd2
    by by rewrite <-app_assoc.
  apply below_app in Hd2 as [Hd2 Hd3]. apply wf_from_app in Hm2' as [Hms Hm3].
  rewrite next_free_last in Hm3. simpl in Hm3.
  assert (Hp : p ∈ mid ++ [p]) by (apply elem_of_app; right; by left).
  assert (Hhin : h ∈ mid ++ [p]) by (by apply head_Some_elem_of).
  assert (Hle : ∀ q, q ∈ mid ++ [p] → h.1 ≤ q.1 ∧ q.2 ≤ p.2).
  { intros q Hq. destruct (wf_from_bounds _ _ _ Hms Hq) as (? & ? & Hq2).
    rewrite next_free_last in Hq2. split; [|lia].
    destruct (mid ++ [p]) as [|h' r]; [done|]. injection Hh as ->. simpl in Hms.
    apply elem_of_cons in Hq as [->|Hq]; [lia|].
    destruct Hms as (? & ? & Hr). destruct (wf_from_bounds _ _ _ Hr Hq). lia. }
  destruct (wf_from_bounds _ _ _ Hms Hhin) as (Hh1 & Hh2 & _).
  destruct (wf_from_bounds _ _ _ Hms Hp) as (_ & Hp2 & _).
  assert (Hlo : next_free 0 m1 ≤ a) by (apply next_free_ends; [done|lia|done]).
  apply inserted_intro; simpl.
  - apply splice_wf; simpl; try done; try lia.
    + eapply wf_from_start; [done|]. intros q Hq. specialize (H2 q Hq).
      destruct (wf_from_bounds _ _ _ Hm3 Hq). lia.
    + specialize (Hd2 p Hp). lia.
  - intros x. replace (mid ++ p :: m2) with ((mid ++ [p]) ++ m2) by by rewrite <-app_assoc.
    rewrite !in_map_app, in_map_cons, <-in_map_app. simpl.
    assert (in_map (mid ++ [p]) x ∨ a ≤ x ≤ b ↔ Z.min h.1 a ≤ x ≤ Z.max p.2 b) as <-; [|tauto].
    split.
    + intros [(q & Hq & ?)|?]; [destruct (Hle q Hq)|]; lia.
    + intros Hx. destruct (decide (a ≤ x ≤ b)) as [|Hn]; [by right|left].
      destruct (decide (x < a)).
      * exists h. specialize (Hmid h Hhin). split; [done|lia].
      * exists p. split; [done|lia].
  - split; [|done]. intros _. exists (p.1 - 1). split; [lia|]. apply not_in_map.
    intros q [Hq|Hq]%elem_of_app; [specialize (H1 q Hq); lia|].
    apply elem_of_app in Hq as [Hq|[->|Hq]%elem_of_cons]; [|lia|specialize (H2 q Hq); lia].
    apply wf_from_app in Hms as [Hmid' Hpw]. simpl in Hpw.
    destruct (wf_from_bounds _ _ _ Hmid' Hq). lia.
Qed.
End insert.

Lemma lookup_mid {A} (l1 : list A) x l2 i : i = length l1 → (l1 ++ x :: l2) !! i = Some x.
Proof. intros ->. apply list_lookup_middle. done. Qed.
Lemma insert_mid {A} (l1 : list A) x y l2 i :
  i = length l1 → <[i := y]> (l1 ++ x :: l2) = l1 ++ y :: l2.
Proof. intros ->. rewrite insert_app_r_alt by lia. by rewrite Nat.sub_diag. Qed.

(** The vector is split around the last interval that starts at most at
    [b + 1], and that interval split off. *)
(** Replacing an interval and draining those that it swallows. *)
Lemma drain_joined (n1 mid : list (Z * Z)) (p h x : Z * Z) (m2 : list (Z * Z)) :
  head (mid ++ [p]) = Some h →
  (n1 ++ mid ++ p :: m2) !! length n1 = Some h ∧
  (let m' := <[length (n1 ++ mid) := x]> (n1 ++ mid ++ p :: m2) in
   if (length n1 =? length (n1 ++ mid))%nat then Ret m' else vec_drain (length n1) (length (n1 ++ mid)) m') =
  Ret (n1 ++ x :: m2).
Proof.
  destruct mid as [|h' mid]; simpl; intros [= ->]; (split; [by rewrite lookup_mid|]).
  - by rewrite app_nil_r, Nat.eqb_refl, insert_mid.
  - destruct (Nat.eqb_spec (length n1) (length (n1 ++ h :: mid))) as [E|_].
    { rewrite length_app in E. simpl in E. lia. }
    replace (n1 ++ h :: mid ++ p :: m2) with ((n1 ++ h :: mid) ++ p :: m2) by by rewrite <-app_assoc.
    rewrite (insert_mid (n1 ++ h :: mid)) by done.
    by rewrite <-(app_assoc n1 (h :: mid) (_ :: m2)), (vec_drain_app n1 (h :: mid)) by (rewrite ?length_app; done).
Qed.

Lemma insert_interval_ok d m a b :
  wf_from 0 m → below d m → d < 2 ^ 32 → 0 ≤ a ≤ b → b < d →
  ∃ r, insert_interval m a b = Ret r ∧ inserted d m a b r.
Proof.
  intros Hm Hdm Hd Hab Hb. unfold insert_interval. rewrite (succ_u32_id b) by lia.
  destruct (starts_split 0 m (b + 1) Hm) as (pre & m2 & -> & -> & H1 & H2).
  destruct pre as [|p m1 _] using rev_ind.
  { simpl. assert (inserted d m2 a b ((a, b) :: m2, true)).
    { apply (inserted_apart d a b Hab Hb []); simpl; try done. by intros ? ?%elem_of_nil. }
    destruct m2 as [|q m2]; [by eexists|]. simpl. by eexists. }
  rewrite length_app, Nat.add_1_r. rewrite <-app_assoc in Hm, Hdm |- *. simpl in Hm, Hdm |- *.
  rewrite (lookup_mid m1 p m2 _ eq_refl). simpl. destruct p as [ps pe].
  assert (Hp : (ps, pe) ∈ m1 ++ (ps, pe) :: m2) by (apply elem_of_app; right; by left).
  destruct (wf_from_bounds _ _ _ Hm Hp) as (Hps & Hpse & _). pose proof (Hdm _ Hp) as Hpd. simpl in *.
  assert (Hpsb : ps ≤ b + 1) by (apply (H1 (ps, pe)), elem_of_app; right; by left).
  assert (Hm1 : ∀ q, q ∈ m1 → q.2 + 1 < ps).
  { apply wf_from_app in Hm as [Hm1 Hm2]. simpl in Hm2. intros q Hq.
    destruct (wf_from_bounds _ _ _ Hm1 Hq). lia. }
  rewrite (succ_u32_id pe) by lia.
  destruct (Z.leb_spec a (pe + 1)) as [Ha|Ha].
  2: { rewrite (cons_middle (ps, pe)), app_assoc in Hm, Hdm |- *.
       rewrite vec_insert_app by (rewrite length_app; simpl; lia). eexists. split; [done|].
       apply inserted_apart; try done. intros q [Hq| ->%list_elem_of_singleton]%elem_of_app; [|done].
       specialize (Hm1 q Hq). simpl. lia. }
  destruct (Z.ltb_spec a ps) as [Haps|Haps].
  2: { destruct (Z.ltb_spec pe b).
       - rewrite insert_mid by done. eexists. split; [done|].
         by apply (inserted_grow d a b Hab Hb m1 (ps, pe)).
       - eexists. split; [done|]. by apply inserted_inside. }
  destruct (ends_split 0 d _ a Hm ltac:(lia) Hdm Hd) as (n1 & n2 & Hn & -> & Hn1 & Hn2).
  assert (∃ mid, m1 = n1 ++ mid ∧ n2 = mid ++ (ps, pe) :: m2) as (mid & -> & ->).
  { apply app_eq_inv in Hn as [(k & -> & ->)|(k & -> & Hk)]; [by exists k|].
    destruct k as [|q k]; [exists []; simpl in *; by rewrite !app_nil_r|]. exfalso. injection Hk as <- _.
    specialize (Hn1 (ps, pe)). rewrite elem_of_app in Hn1. simpl in Hn1.
    specialize (Hn1 (or_intror (list_elem_of_here _ _))). lia. }
  rewrite <-app_assoc in Hm, Hdm |- *.
  assert (∃ h, head (mid ++ [(ps, pe)]) = Some h) as [h Hh] by (destruct mid; by eexists).
  assert (Hj : inserted d (n1 ++ mid ++ (ps, pe) :: m2) a b
    (n1 ++ (Z.min h.1 a, Z.max pe b) :: m2, true)).
  { apply (inserted_join d a b Hab Hb n1 mid (ps, pe)); try done.
    intros q Hq. apply Hn2. rewrite (cons_middle (ps, pe)), app_assoc. apply elem_of_app. by left. }
  destruct (drain_joined n1 mid (ps, pe) h (Z.min h.1 a, Z.max pe b) m2 Hh) as [Hl Hdr].
  rewrite Hl. simpl. simpl in Hdr. rewrite Hdr. by eexists.
Qed.

Lemma range_norm d r :
  0 ≤ d < 2 ^ 32 → range_ok d r →
  match inclusive_end d r with
  | None => ∀ x, ¬ in_range d r x
  | Some e => 0 ≤ e < d ∧ 0 ≤ inclusive_start r ∧
      ∀ x, in_range d r x ↔ inclusive_start r ≤ x ≤ e
  end.
Proof.
  intros Hd [Hs He]. unfold in_range, inclusive_start, inclusive_end, checked_pred in *.
  assert (Hstart : ∀ x, match start_bound r with
      Included a => a ≤ x | Excluded a => a < x | Unbounded => 0 ≤ x end ↔
    match start_bound r with
      Included a => as_u 32 a | Excluded a => succ_u32 (as_u 32 a) | Unbounded => 0 end ≤ x).
  { intros x. destruct (start_bound r); [rewrite as_u32_id by lia; lia| |lia].
    rewrite as_u32_id, succ_u32_id by lia. lia. }
  assert (0 ≤ match start_bound r with
      Included a => as_u 32 a | Excluded a => succ_u32 (as_u 32 a) | Unbounded => 0 end).
  { destruct (start_bound r); [rewrite as_u32_id by lia; lia| |lia].
    rewrite as_u32_id, succ_u32_id by lia. lia. }
  destruct (end_bound r) as [b|b|].
  - rewrite as_u32_id by lia. split_and!; [lia..|]. intros x. by rewrite Hstart.
  - destruct (Z.eqb_spec b 0); simpl; [intros x [Hx ?]; apply Hstart in Hx; lia|].
    rewrite as_u32_id by lia. split_and!; [lia..|]. intros x. rewrite Hstart. lia.
  - destruct (Z.eqb_spec d 0); simpl; [intros x [Hx ?]; apply Hstart in Hx; lia|].
    rewrite as_u32_id by lia. split_and!; [lia..|]. intros x. rewrite Hstart. lia.
Qed.

Lemma insert_range_ok s r :
  wf s → range_ok (domain s) r → ∃ s' c,
    insert_range s r = Ret (s', c) ∧ wf s' ∧ domain s' = domain s ∧
    (∀ x, x ∈ s' ↔ x ∈ s ∨ in_range (domain s) r x) ∧
    (c = true ↔ ∃ x, in_range (domain s) r x ∧ x ∉ s).
Proof.
  intros (Hm & Hdm & Hd) Hr. pose proof (range_norm _ _ Hd Hr) as Hn. unfold insert_range.
  destruct (inclusive_end (domain s) r) as [e|].
  2: { exists s, false. split_and!; try done; [naive_solver|]. split; [done|]. naive_solver. }
  destruct Hn as (He & Hs0 & Hx). destruct (Z.ltb_spec e (inclusive_start r)).
  - exists s, false. split_and!; try done.
    + intros x. rewrite Hx. split; [by left|]. intros [?|?]; [done|lia].
    + split; [done|]. intros (x & Hxr & _). apply Hx in Hxr. lia.
  - destruct (insert_interval_ok (domain s) (map s) (inclusive_start r) e)
      as ([m' c] & -> & Hm' & Hd' & Hin & Hc); [done..|lia|lia|lia|]. simpl in *.
    exists (with_map s m'), c. split_and!; try done.
    + intros x. rewrite Hx. apply Hin.
    + setoid_rewrite Hx. apply Hc.
Qed.

(** ** Point queries *)
(** The interval that may hold [t]: the last one that starts at or before it. *)
Lemma last_start_split lo m t :
  wf_from lo m →
  (partition_point (λ r : Z * Z, r.1 <=? t) m = O ∧ (∀ p, p ∈ m → t < p.1)) ∨
  ∃ m1 p m2, m = m1 ++ p :: m2 ∧
    partition_point (λ r : Z * Z, r.1 <=? t) m = S (length m1) ∧
    p.1 ≤ t ∧ p.1 ≤ p.2 ∧ lo ≤ p.1 ∧
    (∀ q, q ∈ m1 → q.2 + 1 < p.1) ∧ (∀ q, q ∈ m2 → t < q.1 ∧ p.2 + 1 < q.1).
Proof.
  intros Hm. destruct (starts_split lo m t Hm) as (pre & m2 & -> & Hp & H1 & H2).
  destruct pre as [|p m1 _] using rev_ind; [by left|]. right. exists m1, p, m2.
  rewrite length_app, Nat.add_1_r in Hp. rewrite <-app_assoc in *. simpl in *.
  assert (Hpt : p.1 ≤ t) by (apply H1, elem_of_app; right; by left).
  apply wf_from_app in Hm as [Hm1 Hm2]. pose proof (next_free_le _ _ Hm1).
  simpl in Hm2. destruct Hm2 as (? & ? & Hm2).
  split_and!; try done; [lia| |].
  - intros q Hq. destruct (wf_from_bounds _ _ _ Hm1 Hq). lia.
  - intros q Hq. destruct (wf_from_bounds _ _ _ Hm2 Hq). split; [by apply H2|lia].
Qed.

Lemma contains_ok s x :
  wf s → 0 ≤ x < 2 ^ 32 → ∃ b, contains s x = Ret b ∧ (b = true ↔ x ∈ s).
Proof.
  intros (Hm & _ & Hd) Hx. unfold contains. rewrite as_u32_id by done.
  destruct (last_start_split 0 (map s) x Hm)
    as [[-> Hall]|(m1 & p & m2 & Hs & -> & Hp & Hpp & _ & H1 & H2)].
  - exists false. split; [done|]. split; [done|]. intros (p & Hp & ?).
    specialize (Hall p Hp). lia.
  - rewrite Hs, (lookup_mid m1 p m2 _ eq_refl). simpl. eexists. split; [done|].
    rewrite Z.leb_le. unfold elem_of, iset_elem_of. rewrite Hs, in_map_app, in_map_cons.
    split; [right; left; lia|]. intros [(q & Hq & ?)|[?|(q & Hq & ?)]]; [|lia|].
    + specialize (H1 q Hq). lia.
    + destruct (H2 q Hq). lia.
Qed.

Lemma first_unset_in_ok s r :
  wf s → range_ok (domain s) r → ∃ o, first_unset_in s r = Ret o ∧
    match o with
    | Some x => in_range (domain s) r x ∧ x ∉ s ∧ ∀ y, in_range (domain s) r y → y < x → y ∈ s
    | None => ∀ y, in_range (domain s) r y → y ∈ s
    end.
Proof.
  intros (Hm & _ & Hd) Hr. pose proof (range_norm _ _ Hd Hr) as Hn. unfold first_unset_in.
  destruct (inclusive_end (domain s) r) as [e|]; [|exists None; naive_solver].
  destruct Hn as (He & Hs0 & Hx). set (st := inclusive_start r) in *.
  destruct (Z.ltb_spec e st); [exists None; split; [done|]; intros y Hy%Hx; lia|].
  unfold elem_of, iset_elem_of.
  destruct (last_start_split 0 (map s) st Hm)
    as [[-> Hall]|(m1 & p & m2 & Hs & -> & Hp & Hpp & _ & H1 & H2)].
  - eexists. split; [done|]. simpl. setoid_rewrite Hx. split_and!; [lia|lia| |lia]. apply not_in_map.
    intros p Hp. specialize (Hall p Hp). lia.
  - rewrite Hs, (lookup_mid m1 p m2 _ eq_refl). simpl. eexists. split; [done|].
    destruct (Z.ltb_spec p.2 st); [|destruct (Z.ltb_spec p.2 e)]; simpl; setoid_rewrite Hx.
    + split_and!; [lia|lia| |lia]. apply not_in_map.
      intros q [Hq|[->|Hq]%elem_of_cons]%elem_of_app; [specialize (H1 q Hq)| |specialize (H2 q Hq)]; lia.
    + split_and!; [lia|lia| |].
      * apply not_in_map.
        intros q [Hq|[->|Hq]%elem_of_cons]%elem_of_app; [specialize (H1 q Hq)| |specialize (H2 q Hq)]; lia.
      * intros y ? ?. rewrite in_map_app, in_map_cons. right. left. lia.
    + intros y ?. rewrite in_map_app, in_map_cons. right. left. lia.
Qed.

Lemma last_set_in_ok s r :
  wf s → range_ok (domain s) r → ∃ o, last_set_in s r = Ret o ∧
    match o with
    | Some x => in_range (domain s) r x ∧ x ∈ s ∧ ∀ y, in_range (domain s) r y → x < y → y ∉ s
    | None => ∀ y, in_range (domain s) r y → y ∉ s
    end.
Proof.
  intros (Hm & _ & Hd) Hr. pose proof (range_norm _ _ Hd Hr) as Hn. unfold last_set_in.
  destruct (inclusive_end (domain s) r) as [e|]; [|exists None; naive_solver].
  destruct Hn as (He & Hs0 & Hx). set (st := inclusive_start r) in *.
  destruct (Z.ltb_spec e st); [exists None; split; [done|]; intros y Hy%Hx; lia|].
  unfold elem_of, iset_elem_of.
  destruct (last_start_split 0 (map s) e Hm)
    as [[-> Hall]|(m1 & p & m2 & Hs & -> & Hp & Hpp & _ & H1 & H2)].
  - eexists. split; [done|]. simpl. intros y Hy%Hx. apply not_in_map.
    intros p Hp. specialize (Hall p Hp). lia.
  - assert (Hout : ∀ y, p.2 < y ∨ p.2 < st → st ≤ y ≤ e → ¬ in_map (m1 ++ p :: m2) y).
    { intros y ? ?. apply not_in_map.
      intros q [Hq|[->|Hq]%elem_of_cons]%elem_of_app; [specialize (H1 q Hq)| |specialize (H2 q Hq)]; lia. }
    rewrite Hs, (lookup_mid m1 p m2 _ eq_refl). simpl. eexists. split; [done|].
    destruct (Z.leb_spec st p.2); simpl; setoid_rewrite Hx.
    + split_and!; [lia|lia|rewrite in_map_app, in_map_cons; right; left; lia|].
      intros y ? ?. apply Hout; lia.
    + intros y ?. apply Hout; lia.
Qed.
