(* ===== verification/IntervalSets.v ===== *)
(** * Interval sets: comparisons, unions, iteration and rows

    [superset], [disjoint], [union], [iter], [append], [append_range] and
    [insert_all], the canonicity of the representation, and the sparse interval
    matrix. *)
From stdpp Require Import sorting.
From S2P Require Import Prelude Interval IntervalFacts.
#[local] Open Scope Z_scope.

(** The half-open ranges of a vector of inclusive intervals. *)
Definition half_open (p : Z * Z) : Z * Z := (p.1, p.2 + 1).
Abbreviation ranges m := (half_open <$> m).

Lemma iter_intervals_ranges s : iter_intervals s = ranges (map s).
Proof. done. Qed.

(** ** [superset] *)
Lemma superset_from_cons sups c sub subs :
  superset_from sups c (sub :: subs) =
  match find_sup (option_list c ++ sups) sub with
  | (Some true, c', sups') => superset_from sups' c' subs
  | _ => false
  end.
Proof.
  simpl. destruct c as [sup|]; simpl.
  - destruct (range_contains sup sub) as [c' [b|]].
    + by destruct b.
    + by destruct (find_sup sups sub) as [[[[]|] ?] ?].
  - by destruct (find_sup sups sub) as [[[[]|] ?] ?].
Qed.

(** What the search for the interval that holds [sub] finds. *)
Lemma find_sup_ok m sub :
  (find_sup (ranges m) (half_open sub) = (None, None, []) ∧ (∀ q, q ∈ m → q.2 + 1 < sub.1)) ∨
  ∃ m1 p m2, m = m1 ++ p :: m2 ∧ (∀ q, q ∈ m1 → q.2 + 1 < sub.1) ∧ sub.1 ≤ p.2 + 1 ∧
    ((find_sup (ranges m) (half_open sub) = (Some true, Some (half_open p), ranges m2) ∧
        p.1 ≤ sub.1 ∧ sub.2 ≤ p.2) ∨
     ((∃ c r, find_sup (ranges m) (half_open sub) = (Some false, c, r)) ∧
        ¬ (p.1 ≤ sub.1 ∧ sub.2 ≤ p.2))).
Proof.
  induction m as [|p m IH]; simpl; [left; split; [done|by intros ? ?%elem_of_nil]|].
  unfold range_contains. simpl. destruct (Z.ltb_spec (p.2 + 1) sub.1) as [Hlt|Hge].
  - destruct IH as [[E IH]|(m1 & q & m2 & -> & Hm1 & Hq & IH)].
    + left. split; [done|]. by intros q [->|?]%elem_of_cons; auto.
    + right. exists (p :: m1), q, m2. split_and!; [done| |done..].
      by intros q' [->|?]%elem_of_cons; auto.
  - right. exists [], p, m. split_and!; [done|by intros ? ?%elem_of_nil|lia|].
    destruct (Z.leb_spec (sub.2 + 1) (p.2 + 1)), (Z.leb_spec p.1 sub.1); simpl.
    + left. split_and!; [done|lia..].
    + right. split; [by eexists _, _|lia].
    + right. split; [by eexists _, _|lia].
    + right. split; [by eexists _, _|lia].
Qed.

Lemma superset_from_ok subs : ∀ lo lo' c sups,
  wf_from lo (option_list c ++ sups) → wf_from lo' subs →
  superset_from (ranges sups) (half_open <$> c) (ranges subs) = true ↔
    ∀ x, in_map subs x → in_map (option_list c ++ sups) x.
Proof.
  induction subs as [|sub subs IH]; intros lo lo' c sups Hw Hsub.
  { simpl. split; [intros _ x []%in_map_nil|done]. }
  change (ranges (sub :: subs)) with (half_open sub :: ranges subs).
  rewrite superset_from_cons.
  replace (option_list (half_open <$> c) ++ ranges sups) with (ranges (option_list c ++ sups))
    by by destruct c.
  set (all := option_list c ++ sups) in *. simpl in Hsub. destruct Hsub as (_ & Hsub & Hsubs).
  destruct (find_sup_ok all sub) as [[-> Hall]|(m1 & p & m2 & Hm & H1 & Hp & [[-> Hin]|[(c' & r & ->) Hout]])].
  - split; [done|]. intros H. exfalso.
    destruct (H sub.1) as (q & Hq & ?); [apply in_map_cons; left; lia|]. specialize (Hall q Hq). lia.
  - rewrite Hm in *. apply wf_from_app in Hw as [_ Hw].
    change (Some (half_open p)) with (half_open <$> Some p).
    rewrite (IH (next_free lo m1) (sub.2 + 2) (Some p) m2 Hw Hsubs). simpl.
    setoid_rewrite in_map_app. setoid_rewrite in_map_cons. split.
    + intros H x [?|Hx]; [right; left; lia|]. right. apply H, Hx.
    + intros H x Hx. destruct (H x) as [(q & Hq & ?)|?]; [by right| |done]. exfalso.
      specialize (H1 q Hq). destruct (wf_from_in _ _ _ Hsubs Hx). lia.
  - split; [done|]. intros H. exfalso. rewrite Hm in *. apply wf_from_app in Hw as [_ Hw].
    simpl in Hw. destruct Hw as (_ & Hpp & Hm2).
    assert (∃ x, sub.1 ≤ x ≤ sub.2 ∧ ¬ (p.1 ≤ x ≤ p.2) ∧ x < p.2 + 2) as (x & Hx & Hxp & Hxm).
    { destruct (decide (p.1 ≤ sub.1)); [exists (p.2 + 1)|exists sub.1]; lia. }
    destruct (H x) as (q & Hq & Hxq); [apply in_map_cons; left; lia|].
    apply elem_of_app in Hq as [Hq|[->|Hq]%elem_of_cons]; [specialize (H1 q Hq); lia|lia|].
    destruct (wf_from_bounds _ _ _ Hm2 Hq). lia.
Qed.

(** ** [disjoint] *)
Lemma disjoint_loop_ok fuel : ∀ m1 m2 lo1 lo2,
  wf_from lo1 m1 → wf_from lo2 m2 → (length m1 + length m2 < fuel)%nat →
  ∃ b, loop fuel disjoint_step (ranges m1, ranges m2) = Ret b ∧
    (b = true ↔ ∀ x, in_map m1 x → in_map m2 x → False).
Proof.
  induction fuel as [|f IH]; intros m1 m2 lo1 lo2 H1 H2 Hf; [lia|].
  destruct m1 as [|p m1].
  { simpl. eexists. split; [done|]. split; [intros _ x []%in_map_nil|done]. }
  destruct m2 as [|q m2].
  { simpl. eexists. split; [done|]. split; [intros _ x _ []%in_map_nil|done]. }
  simpl in H1, H2, Hf. destruct H1 as (Hlo1 & Hp & H1), H2 as (Hlo2 & Hq & H2). simpl.
  destruct (Z.leb_spec (p.2 + 1) q.1) as [Hpq|Hpq].
  - destruct (IH m1 (q :: m2) (p.2 + 2) lo2) as (b & Hb & Hiff); [done|done|simpl; lia|].
    exists b. split; [exact Hb|]. rewrite Hiff. setoid_rewrite in_map_cons. split.
    + intros H x [?|Hx] Hx2; [|by apply (H x)]. destruct Hx2 as [?|Hx2]; [lia|].
      destruct (wf_from_in _ _ _ H2 Hx2). lia.
    + intros H x Hx Hx2. apply (H x); auto.
  - destruct (Z.leb_spec (q.2 + 1) p.1) as [Hqp|Hqp].
    + destruct (IH (p :: m1) m2 lo1 (q.2 + 2)) as (b & Hb & Hiff); [done|done|simpl; lia|].
      exists b. split; [exact Hb|]. rewrite Hiff. setoid_rewrite in_map_cons. split.
      * intros H x Hx [?|Hx2]; [|by apply (H x)]. destruct Hx as [?|Hx]; [lia|].
        destruct (wf_from_in _ _ _ H1 Hx). lia.
      * intros H x Hx Hx2. apply (H x); auto.
    + eexists. split; [done|]. split; [done|]. intros H. exfalso.
      apply (H (Z.max p.1 q.1)); apply in_map_cons; left; lia.
Qed.

(** ** [union] *)
Lemma insert_ranges_ok d m : ∀ lo st,
  wf_from lo m → 0 ≤ lo → below d m → wf st.1 → domain st.1 = d → ∃ st',
    ofold insert_or st (ranges m) = Ret st' ∧ wf st'.1 ∧ domain st'.1 = d ∧
    (∀ x, x ∈ st'.1 ↔ x ∈ st.1 ∨ in_map m x) ∧
    (st'.2 = true ↔ st.2 = true ∨ ∃ x, in_map m x ∧ x ∉ st.1).
Proof.
  induction m as [|p m IH]; intros lo st Hm Hlo Hdm Hst Hd.
  { exists st. split_and!; try done.
    - intros x. rewrite in_map_nil. tauto.
    - split; [by left|]. intros [?|(x & []%in_map_nil & _)]. done. }
  simpl in Hm. destruct Hm as (Hp1 & Hp2 & Hm). apply below_cons in Hdm as [Hpd Hdm].
  assert (Hd32 : d < 2 ^ 32) by (destruct Hst as (_ & _ & ?); lia).
  destruct (insert_range_ok st.1 (range_excl p.1 (p.2 + 1)) Hst) as (s1 & c & Hi & Hs1 & Hd1 & Hin & Hc).
  { rewrite Hd. split; simpl; lia. }
  destruct (IH (p.2 + 2) (s1, st.2 || c)) as (st' & Hst' & ? & ? & Hin' & Hc'); [done|lia|done|done|simpl; congruence|].
  assert (Hio : insert_or st (half_open p) = Ret (s1, st.2 || c)).
  { unfold insert_or. change (range_excl _ _) with (range_excl p.1 (p.2 + 1)). by rewrite Hi. }
  exists st'. simpl. rewrite Hio. simpl in *. split_and!; [done..| |].
  - intros x. rewrite Hin', Hin, in_map_cons. unfold in_range. simpl.
    assert (p.1 ≤ x ∧ x < p.2 + 1 ↔ p.1 ≤ x ≤ p.2) as -> by lia. tauto.
  - rewrite Hc', orb_true_iff, Hc. unfold in_range. simpl. setoid_rewrite in_map_cons. split.
    + intros [[?|(x & ? & ?)]|(x & Hx & Hnx)]; [by left| |].
      * right. exists x. split; [left; lia|done].
      * right. exists x. split; [by right|]. contradict Hnx. apply Hin. by left.
    + intros [?|(x & Hx & Hnx)]; [by left; left|].
      destruct (decide (p.1 ≤ x ≤ p.2)); [left; right; exists x; split; [lia|done]|].
      destruct Hx as [?|Hx]; [done|]. right. exists x. split; [done|].
      rewrite Hin. unfold in_range. simpl. intros [?|?]; [done|lia].
Qed.

Lemma union_into_ok s other :
  wf s → wf other → domain s = domain other → ∃ s' c,
    union_into s other = Ret (s', c) ∧ wf s' ∧ domain s' = domain s ∧
    (∀ x, x ∈ s' ↔ x ∈ s ∨ x ∈ other) ∧ (c = true ↔ ∃ x, x ∈ other ∧ x ∉ s).
Proof.
  intros Hs (Hm & Hdm & Hd) Hdom. unfold union_into. rewrite iter_intervals_ranges.
  destruct (insert_ranges_ok (domain other) (map other) 0 (s, false)) as ([s' c] & Hu & Hw & Hd' & Hin & Hc);
    try done.
  exists s', c. simpl in *. split_and!; [done|done|congruence|done|]. rewrite Hc. naive_solver.
Qed.

Lemma interval_union_flag s other :
  wf s → wf other → domain s = domain other → ∃ s' c,
    union s other = Ret (s', c) ∧ wf s' ∧ domain s' = domain s ∧
    (∀ x, x ∈ s' ↔ x ∈ s ∨ x ∈ other) ∧
    (c = true ↔ if (length (map s) <? length (map other))%nat
                then ∃ x, x ∈ s ∧ x ∉ other else ∃ x, x ∈ other ∧ x ∉ s).
Proof.
  intros Hs Ho Hd. unfold union. rewrite (proj2 (Z.eqb_eq _ _) Hd). simpl.
  destruct (_ <? _)%nat; [|by apply union_into_ok].
  assert (Hs' : wf (with_map s (map other))).
  { destruct Ho as (? & ? & ?). unfold wf. simpl. by rewrite Hd. }
  destruct (union_into_ok (with_map s (map other)) s Hs' Hs eq_refl)
    as (s' & c & -> & ? & ? & Hin & Hc).
  exists s', c. split_and!; try done.
  intros x. rewrite Hin. change (x ∈ with_map s (map other)) with (x ∈ other). tauto.
Qed.

Lemma interval_union_ok s other :
  wf s → wf other → domain s = domain other → ∃ s' c,
    union s other = Ret (s', c) ∧ wf s' ∧ domain s' = domain s ∧
    (∀ x, x ∈ s' ↔ x ∈ s ∨ x ∈ other).
Proof.
  intros Hs Ho Hd. destruct (interval_union_flag s other Hs Ho Hd) as (s' & c & ? & ? & ? & ? & _).
  by exists s', c.
Qed.

(** ** Canonicity *)
(** Two vectors that stand for the same set are equal. *)
Lemma canonical m1 : ∀ lo1 lo2 m2,
  wf_from lo1 m1 → wf_from lo2 m2 → (∀ x, in_map m1 x ↔ in_map m2 x) → m1 = m2.
Proof.
  induction m1 as [|p m1 IH]; intros lo1 lo2 m2 H1 H2 Heq.
  { destruct m2 as [|q m2]; [done|]. simpl in H2. exfalso.
    apply (in_map_nil q.1), Heq, in_map_cons. left. lia. }
  destruct m2 as [|q m2].
  { simpl in H1. exfalso. apply (in_map_nil p.1), Heq, in_map_cons. left. lia. }
  simpl in H1, H2. destruct H1 as (Hlo1 & Hp & H1), H2 as (Hlo2 & Hq & H2).
  setoid_rewrite in_map_cons in Heq.
  assert (Hlow : ∀ p m x lo, wf_from lo m → lo = p.2 + 2 → p.1 ≤ p.2 → p.1 ≤ x ≤ p.2 ∨ in_map m x → p.1 ≤ x).
  { intros p' m x lo Hm -> ? [?|Hx]; [lia|]. destruct (wf_from_in _ _ _ Hm Hx). lia. }
  assert (Hhigh : ∀ p m lo, wf_from lo m → lo = p.2 + 2 → ¬ (p.1 ≤ p.2 + 1 ≤ p.2 ∨ in_map m (p.2 + 1))).
  { intros p' m lo Hm -> [?|Hx]; [lia|]. destruct (wf_from_in _ _ _ Hm Hx). lia. }
  assert (Hstart : p.1 = q.1).
  { assert (q.1 ≤ p.1) by (eapply (Hlow q m2); [done..|]; apply Heq; left; lia).
    assert (p.1 ≤ q.1) by (eapply (Hlow p m1); [done..|]; apply Heq; left; lia). lia. }
  assert (Hend : p.2 = q.2).
  { destruct (decide (p.2 < q.2)).
    { exfalso. eapply (Hhigh p m1 _ H1); [done|]. apply Heq. left. lia. }
    destruct (decide (q.2 < p.2)); [|lia].
    exfalso. eapply (Hhigh q m2 _ H2); [done|]. apply Heq. left. lia. }
  destruct p as [p1 p2], q as [q1 q2]. simpl in *. subst q1 q2. f_equal.
  apply (IH _ _ _ H1 H2). intros x. split; intros Hx.
  - destruct (wf_from_in _ _ _ H1 Hx). destruct (proj1 (Heq x)) as [?|?]; [by right|lia|done].
  - destruct (wf_from_in _ _ _ H2 Hx). destruct (proj2 (Heq x)) as [?|?]; [by right|lia|done].
Qed.

(** ** Iteration *)
Lemma StronglySorted_seqZ a n : StronglySorted Z.lt (seqZ a n).
Proof.
  destruct (decide (0 ≤ n)) as [Hn|]; [|rewrite seqZ_nil by lia; constructor].
  rewrite <-(Z2Nat.id n) by done. generalize (Z.to_nat n) as k. clear n Hn. intros k. revert a.
  induction k as [|k IH]; intros a; [constructor|].
  rewrite seqZ_cons by lia. rewrite Nat2Z.inj_succ, Z.pred_succ. constructor; [apply IH|].
  apply Forall_forall. intros x ?%elem_of_seqZ. lia.
Qed.

Lemma elem_of_iter s x : x ∈ iter s ↔ x ∈ s.
Proof.
  unfold iter. rewrite elem_of_concat. change (x ∈ s) with (in_map (map s) x). split.
  - intros (l & Hx & (r & -> & (p & -> & Hp)%list_elem_of_fmap)%list_elem_of_fmap).
    apply elem_of_seqZ in Hx. simpl in Hx. exists p. split; [done|lia].
  - intros (p & Hp & ?). exists (seqZ p.1 (p.2 + 1 - p.1)). split; [apply elem_of_seqZ; lia|].
    apply list_elem_of_fmap. exists (half_open p). split; [done|]. by apply list_elem_of_fmap_2.
Qed.

Lemma iter_sorted m : ∀ lo, wf_from lo m →
  StronglySorted Z.lt (concat ((λ p, seqZ p.1 (p.2 - p.1)) <$> ranges m)).
Proof.
  induction m as [|p m IH]; intros lo; simpl; [constructor|]. intros (_ & Hp & Hm).
  apply StronglySorted_app_2; [|apply StronglySorted_seqZ|by eapply IH].
  intros x y Hx Hy. apply elem_of_seqZ in Hx.
  apply (elem_of_iter (mkISet m 0)) in Hy. destruct (wf_from_in _ _ _ Hm Hy). lia.
Qed.

(** ** Insertion at the end *)
(** [a..=b] is at or after the last end. *)
Lemma append_ok d m a b :
  wf_from 0 m → below d m → d < 2 ^ 32 → 0 ≤ a ≤ b → b < d → (∀ x, in_map m x → x ≤ a) →
  ∃ m', (match vec_pop m with
         | Some ((last_start, last_end), m0) =>
             if negb (last_end <=? a) then Panic
             else if a <=? succ_u32 last_end then Ret (vec_push m0 (last_start, b))
             else Ret (vec_push m (a, b))
         | None => Ret (vec_push m (a, b))
         end) = Ret m' ∧
    wf_from 0 m' ∧ below d m' ∧ (∀ x, in_map m' x ↔ in_map m x ∨ a ≤ x ≤ b).
Proof.
  intros Hm Hdm Hd Hab Hb Hlast. destruct (vec_pop m) as [[[ls le] m0]|] eqn:E.
  2: { apply vec_pop_None in E as ->. eexists. split; [done|]. simpl. split_and!; try lia.
       - apply below_cons. split; [done|]. by intros ? ?%elem_of_nil.
       - intros x. unfold vec_push. simpl. rewrite in_map_cons, in_map_nil. simpl. tauto. }
  apply vec_pop_Some in E as ->. apply wf_from_app in Hm as [Hm0 Hl]. simpl in Hl.
  apply below_app in Hdm as [Hd0 Hdl]. pose proof (next_free_le _ _ Hm0).
  assert (Hle : le < d) by (apply (Hdl (ls, le)); by left).
  assert (le ≤ a) by (apply Hlast, in_map_app; right; apply in_map_cons; left; simpl; lia).
  rewrite (proj2 (Z.leb_le le a)) by lia. rewrite succ_u32_id by lia. simpl.
  destruct (Z.leb_spec a (le + 1)); (eexists; split; [done|]); unfold vec_push.
  - split_and!.
    + apply wf_from_app. split; [done|]. simpl. lia.
    + apply below_app. split; [done|]. apply below_cons. split; [done|by intros ? ?%elem_of_nil].
    + intros x. rewrite !in_map_app, !in_map_cons, in_map_nil. simpl.
      assert (ls ≤ x ≤ b ↔ ls ≤ x ≤ le ∨ a ≤ x ≤ b) by lia. tauto.
  - split_and!.
    + apply wf_from_app. rewrite next_free_last. split; [|simpl; lia].
      apply wf_from_app. simpl. split; [done|lia].
    + apply below_app. split; [by apply below_app|].
      apply below_cons. split; [done|by intros ? ?%elem_of_nil].
    + intros x. rewrite !in_map_app, !in_map_cons, in_map_nil. simpl. tauto.
Qed.

Lemma wf_with_map s m :
  wf_from 0 m → below (domain s) m → 0 ≤ domain s < 2 ^ 32 → wf (with_map s m).
Proof. unfold wf. simpl. tauto. Qed.
Lemma wf_intro s :
  wf_from 0 (map s) → below (domain s) (map s) → 0 ≤ domain s < 2 ^ 32 → wf s.
Proof. unfold wf. tauto. Qed.

(** [append] is the insertion of a one-point range at the end. *)
Lemma append_cases s point :
  wf s → 0 ≤ point < domain s →
  append s point = Panic ∨
  append s point = m' ← (match vec_pop (map s) with
         | Some ((last_start, last_end), m0) =>
             if negb (last_end <=? point) then Panic
             else if point <=? succ_u32 last_end then Ret (vec_push m0 (last_start, point))
             else Ret (vec_push (map s) (point, point))
         | None => Ret (vec_push (map s) (point, point))
         end); Ret (with_map s m').
Proof.
  intros (Hm & Hdm & Hd) Hp. unfold append. rewrite as_u32_id by lia.
  destruct (vec_pop (map s)) as [[[ls le] m0]|] eqn:E; [|by right].
  destruct (Z.leb_spec le point) as [Hle|]; simpl; [|by left]. right.
  apply vec_pop_Some in E.
  assert (Hin : (ls, le) ∈ map s) by (rewrite E; apply elem_of_app; right; by left).
  pose proof (Hdm _ Hin) as Hled. destruct (wf_from_bounds _ _ _ Hm Hin) as (? & ? & _). simpl in *.
  rewrite succ_u32_id by lia. destruct (Z.eqb_spec point le) as [->|].
  - rewrite (proj2 (Z.leb_le le (le + 1))) by lia. simpl. unfold vec_push. rewrite <-E. by destruct s.
  - by destruct (Z.eqb_spec point (le + 1)), (Z.leb_spec point (le + 1)); try lia.
Qed.

Lemma append_point_ok s point :
  wf s → 0 ≤ point < domain s → (∀ x, x ∈ s → x ≤ point) →
  ∃ s1, append s point = Ret s1 ∧ wf s1 ∧ ∀ x, x ∈ s1 ↔ x ∈ s ∨ x = point.
Proof.
  intros Hs Hp Hpoint. destruct Hs as (Hm & Hdm & Hd).
  destruct (append_ok (domain s) (map s) point point) as (m' & Hm' & ? & ? & Hin);
    [done|done|lia|lia|lia|done|].
  exists (with_map s m'). split; [|split; [by apply wf_with_map|]].
  - destruct (append_cases s point) as [Hpanic| ->]; [by apply wf_intro|done| |by rewrite Hm'].
    exfalso. revert Hm' Hpanic. unfold append. rewrite as_u32_id by lia.
    destruct (vec_pop (map s)) as [[[ls le] m0]|]; [|done].
    destruct (negb _); [done|]. by repeat case_match.
  - intros x. change (in_map m' x ↔ in_map (map s) x ∨ x = point). rewrite Hin.
    assert (x = point ↔ point ≤ x ≤ point) as -> by lia. done.
Qed.

Lemma append_range_ok s r :
  wf s → range_ok (domain s) r → (∀ x y, x ∈ s → in_range (domain s) r y → x ≤ y) →
  ∃ s2, append_range s r = Ret s2 ∧ wf s2 ∧ ∀ x, x ∈ s2 ↔ x ∈ s ∨ in_range (domain s) r x.
Proof.
  intros (Hm & Hdm & Hd) Hr Hrange. pose proof (range_norm _ _ Hd Hr) as Hn. unfold append_range.
  destruct (inclusive_end (domain s) r) as [e|].
  2: { exists s. split; [done|]. split; [by apply wf_intro|]. naive_solver. }
  destruct Hn as (He & Hs0 & Hx). destruct (Z.ltb_spec e (inclusive_start r)).
  { exists s. split; [done|]. split; [by apply wf_intro|]. intros x. rewrite Hx.
    split; [by left|]. intros [?|?]; [done|lia]. }
  destruct (append_ok (domain s) (map s) (inclusive_start r) e) as (m' & Hm' & ? & ? & Hin);
    [done|done|lia|lia|lia| |].
  { intros x Hxs. apply Hrange; [done|]. apply Hx. lia. }
  exists (with_map s m'). split; [|split; [by apply wf_with_map|intros x; rewrite Hx; apply Hin]].
  destruct (vec_pop (map s)) as [[[ls le] m0]|]; [|by injection Hm' as <-].
  destruct (negb _); [done|]. by destruct (_ <=? _); injection Hm' as <-.
Qed.

Lemma insert_all_ok s :
  wf s → ∃ s3, insert_all s = Ret s3 ∧ wf s3 ∧ ∀ x, x ∈ s3 ↔ 0 ≤ x < domain s.
Proof.
  intros (Hm & Hdm & Hd). unfold insert_all, checked_pred. destruct (Z.eqb_spec (domain s) 0) as [E|].
  - eexists. split; [done|]. split.
    + unfold wf. simpl. split_and!; [done|by intros ? ?%elem_of_nil|lia|lia].
    + intros x. change (in_map [] x ↔ 0 ≤ x < domain s). rewrite in_map_nil. lia.
  - rewrite (proj2 (Z.ltb_lt _ _)) by lia. eexists. split; [done|]. split.
    + unfold wf. simpl. split; [lia|]. split; [|done].
      apply below_cons. split; [simpl; lia|by intros ? ?%elem_of_nil].
    + intros x. change (in_map [(0, domain s - 1)] x ↔ 0 ≤ x < domain s).
      rewrite in_map_cons, in_map_nil. simpl. lia.
Qed.

(** ** Rows *)
Lemma ensure_row_lookup m r r' :
  rows (ensure_row m r) !! r' =
    match rows m !! r' with
    | Some s => Some s
    | None => if (r' <=? r)%nat then Some (new (column_size m)) else None
    end.
Proof.
  unfold ensure_row. simpl. destruct (rows m !! r') as [s|] eqn:E.
  - by apply lookup_app_l_Some.
  - apply lookup_ge_None in E. rewrite lookup_app_r by done.
    destruct (Nat.leb_spec r' r).
    + apply lookup_replicate_2. lia.
    + apply lookup_replicate_None. lia.
Qed.

Definition sim_wf (m : SparseIntervalMatrix) : Prop :=
  0 ≤ column_size m < 2 ^ 32 ∧ ∀ r s, rows m !! r = Some s → wf s ∧ domain s = column_size m.

(** [(row, x)] is set. *)
Definition sim_elem (m : SparseIntervalMatrix) (row : nat) (x : Z) : Prop :=
  ∃ s, rows m !! row = Some s ∧ x ∈ s.

Lemma new_wf d : 0 ≤ d < 2 ^ 32 → wf (new d).
Proof. intros. unfold wf. simpl. split_and!; [done|by intros ? ?%elem_of_nil|lia|lia]. Qed.
Lemma not_elem_new d x : x ∉ new d.
Proof. intros Hx. by apply (in_map_nil x). Qed.

Lemma ensure_row_ok m r :
  sim_wf m → sim_wf (ensure_row m r) ∧ (∀ r' x, sim_elem (ensure_row m r) r' x ↔ sim_elem m r' x) ∧
  is_Some (rows (ensure_row m r) !! r).
Proof.
  intros [Hc Hm]. split_and!.
  - split; [done|]. intros r' s. rewrite ensure_row_lookup. simpl.
    destruct (rows m !! r') eqn:E; [intros [= <-]; by apply (Hm r')|].
    destruct (_ <=? _)%nat; [|done]. intros [= <-]. split; [by apply new_wf|done].
  - intros r' x. unfold sim_elem. setoid_rewrite ensure_row_lookup.
    destruct (rows m !! r') eqn:E; [done|]. split; [|by intros (s & ? & _)].
    destruct (_ <=? _)%nat; [|by intros (s & ? & _)]. intros (s & [= <-] & Hx). by apply not_elem_new in Hx.
  - rewrite ensure_row_lookup. destruct (rows m !! r); [by eexists|].
    rewrite Nat.leb_refl. by eexists.
Qed.

(** An operation that adds the set [A] to a row adds it to that row only. *)
Lemma on_row_ok {R} m row s (f : IntervalSet → outcome (IntervalSet * R)) (A : Z → Prop) s' res :
  sim_wf m → rows m !! row = Some s → f s = Ret (s', res) →
  wf s' → domain s' = domain s → (∀ x, x ∈ s' ↔ x ∈ s ∨ A x) →
  ∃ m', on_row m row f = Ret (m', res) ∧ sim_wf m' ∧ column_size m' = column_size m ∧
    ∀ r x, sim_elem m' r x ↔ sim_elem m r x ∨ r = row ∧ A x.
Proof.
  intros [Hc Hm] Hs Hf Hw Hd Hin. unfold on_row. rewrite Hs. simpl. rewrite Hf. simpl.
  eexists. split; [done|]. assert (Hlt := lookup_lt_Some _ _ _ Hs).
  split; [split; [done|]|split; [done|]].
  - intros r s0. simpl. destruct (decide (r = row)) as [->|].
    + rewrite list_lookup_insert_eq by done. intros [= <-]. split; [done|].
      rewrite Hd. by apply (Hm row).
    + rewrite list_lookup_insert_ne by done. apply Hm.
  - intros r x. unfold sim_elem. simpl. destruct (decide (r = row)) as [->|].
    + rewrite list_lookup_insert_eq, Hs by done. naive_solver.
    + rewrite list_lookup_insert_ne by done. naive_solver.
Qed.

(** ** The properties *)
(** C29: Inserting a range keeps the vector sorted and non-adjacent, adds exactly the
    indices of the range, and answers [true] exactly when some index of the
    range was not present; it never panics. *)
Theorem insert_range_spec (s : IntervalSet) (r : RangeBounds Z)
    (Hs : wf s) (Hr : range_ok (domain s) r) :
  ∃ s' c, insert_range s r = Ret (s', c) ∧ wf s' ∧ domain s' = domain s ∧
    (∀ x, x ∈ s' ↔ x ∈ s ∨ in_range (domain s) r x) ∧
    (c = true ↔ ∃ x, in_range (domain s) r x ∧ x ∉ s).
Proof. by apply insert_range_ok. Qed.

(** The queries return without panicking: [contains] decides membership,
    [first_unset_in] is the least index of the range that is not in the set and
    [last_set_in] the greatest that is; [superset] and [disjoint] decide
    inclusion and disjointness of two sets, in at most one step per interval. *)
Theorem interval_queries_spec (s other : IntervalSet) (r : RangeBounds Z) (needle : Z)
    (Hs : wf s) (Ho : wf other) (Hr : range_ok (domain s) r) (Hneedle : 0 ≤ needle < 2 ^ 32) :
  (superset s other = true ↔ ∀ x, x ∈ other → x ∈ s) ∧
  (∃ b, disjoint s other = Ret b ∧ (b = true ↔ ∀ x, x ∈ s → x ∈ other → False)) ∧
  ∃ b o1 o2,
    contains s needle = Ret b ∧ (b = true ↔ needle ∈ s) ∧
    first_unset_in s r = Ret o1 ∧
    match o1 with
    | Some x => in_range (domain s) r x ∧ x ∉ s ∧ ∀ y, in_range (domain s) r y → y < x → y ∈ s
    | None => ∀ y, in_range (domain s) r y → y ∈ s
    end ∧
    last_set_in s r = Ret o2 ∧
    match o2 with
    | Some x => in_range (domain s) r x ∧ x ∈ s ∧ ∀ y, in_range (domain s) r y → x < y → y ∉ s
    | None => ∀ y, in_range (domain s) r y → y ∉ s
    end.
Proof.
  split; [|split].
  { apply (superset_from_ok (map other) 0 0 None (map s)); [apply Hs|apply Ho]. }
  { apply (disjoint_loop_ok _ _ _ 0 0); [apply Hs|apply Ho|]. unfold disjoint_fuel. lia. }
  destruct (contains_ok s needle Hs Hneedle) as (b & ? & ?).
  destruct (first_unset_in_ok s r Hs Hr) as (o1 & ? & ?).
  destruct (last_set_in_ok s r Hs Hr) as (o2 & ? & ?).
  by exists b, o1, o2.
Qed.

(** [union] computes the union and keeps the representation; its answer says
    whether an index was added to the set with more intervals, which is [self]
    unless [other] has more of them. *)
Theorem interval_union_spec (s other : IntervalSet)
    (Hs : wf s) (Ho : wf other) (Hd : domain s = domain other) :
  ∃ s' c, union s other = Ret (s', c) ∧ wf s' ∧ domain s' = domain s ∧
    (∀ x, x ∈ s' ↔ x ∈ s ∨ x ∈ other) ∧
    (c = true ↔ if (length (map s) <? length (map other))%nat
                then ∃ x, x ∈ s ∧ x ∉ other else ∃ x, x ∈ other ∧ x ∉ s).
Proof. by apply interval_union_flag. Qed.

(** When [other] has more intervals the answer of [union] is about the wrong
    operand: the empty set grows, and [union] says that nothing changed. *)
Theorem union_misreports_change :
  ∃ s other s', wf s ∧ wf other ∧ union s other = Ret (s', false) ∧ 3 ∉ s ∧ 3 ∈ s'.
Proof.
  exists (mkISet [] 10), (mkISet [(0, 1); (3, 4)] 10), (mkISet [(0, 1); (3, 4)] 10).
  split; [|split; [|split; [reflexivity|split]]].
  - unfold wf. simpl. split_and!; [done|by intros ? ?%elem_of_nil|lia|lia].
  - unfold wf. simpl. split; [lia|split; [|lia]].
    intros p. rewrite !elem_of_cons. intros [->|[->|?%elem_of_nil]]; simpl; [lia..|done].
  - intros Hx. by apply (in_map_nil 3).
  - exists (3, 4). split; [right; by left|simpl; lia].
Qed.

(** [append] and [append_range] add an index, or a range, that lies at or after
    the last one of the set, and [insert_all] the whole domain. *)
Theorem interval_append_spec (s : IntervalSet) (point : Z) (r : RangeBounds Z)
    (Hs : wf s) (Hr : range_ok (domain s) r) (Hp : 0 ≤ point < domain s)
    (Hpoint : ∀ x, x ∈ s → x ≤ point)
    (Hrange : ∀ x y, x ∈ s → in_range (domain s) r y → x ≤ y) :
  (∃ s1, append s point = Ret s1 ∧ wf s1 ∧ ∀ x, x ∈ s1 ↔ x ∈ s ∨ x = point) ∧
  (∃ s2, append_range s r = Ret s2 ∧ wf s2 ∧ ∀ x, x ∈ s2 ↔ x ∈ s ∨ in_range (domain s) r x) ∧
  (∃ s3, insert_all s = Ret s3 ∧ wf s3 ∧ ∀ x, x ∈ s3 ↔ 0 ≤ x < domain s).
Proof.
  split; [by apply append_point_ok|]. split; [by apply append_range_ok|by apply insert_all_ok].
Qed.

(** Rows are independent: a union into a row, of a given set or of another row,
    adds that set to this row and changes no other row. *)
Theorem sparse_matrix_spec (m : SparseIntervalMatrix) (row read write : nat) (from : IntervalSet)
    (Hm : sim_wf m) (Hf : wf from) (Hc : domain from = column_size m) :
  (∃ m' c, union_row m row from = Ret (m', c) ∧ sim_wf m' ∧
     ∀ r x, sim_elem m' r x ↔ sim_elem m r x ∨ r = row ∧ x ∈ from) ∧
  (∃ m' c, union_rows m read write = Ret (m', c) ∧ sim_wf m' ∧
     ∀ r x, sim_elem m' r x ↔ sim_elem m r x ∨ r = write ∧ sim_elem m read x).
Proof.
  assert (Hu : ∀ m0 w src, sim_wf m0 → wf src → domain src = column_size m0 → is_Some (rows m0 !! w) →
    ∃ m' c, on_row m0 w (λ s, union s src) = Ret (m', c) ∧ sim_wf m' ∧
      ∀ r x, sim_elem m' r x ↔ sim_elem m0 r x ∨ r = w ∧ x ∈ src).
  { intros m0 w src Hm0 Hsrc Hd [s Hs]. destruct (proj2 Hm0 w s Hs) as [Hws Hds].
    assert (Hds' : domain s = domain src) by congruence.
    pose proof (interval_union_ok s src Hws Hsrc Hds') as (s' & c & Hun & Hw & Hd' & Hin).
    destruct (on_row_ok m0 w s (λ s, union s src) (λ x, x ∈ src) s' c) as (m' & ? & ? & _ & ?); try done.
    by exists m', c. }
  split.
  - destruct (ensure_row_ok m row Hm) as (Hm' & Hel & Hrow).
    destruct (Hu (ensure_row m row) row from Hm' Hf Hc Hrow) as (m' & c & ? & ? & Hin).
    exists m', c. split_and!; try done. intros r x. by rewrite Hin, Hel.
  - unfold union_rows. destruct (Nat.eqb_spec read write) as [->|Hne].
    { simpl. exists m, false. split_and!; try done. intros r x.
      split; [by left|]. intros [?|[-> ?]]; done. }
    destruct (rows m !! read) as [s|] eqn:E; cbn [orb].
    2: { exists m, false. split_and!; try done. intros r x. split; [by left|].
         intros [?|[_ (s & Hs & _)]]; [done|congruence]. }
    destruct (ensure_row_ok m write Hm) as (Hm' & Hel & Hrow).
    rewrite ensure_row_lookup, E. cbn [unwrap mbind outcome_bind]. destruct (proj2 Hm read s E) as [Hws Hds].
    destruct (Hu (ensure_row m write) write s Hm' Hws Hds Hrow) as (m' & c & ? & ? & Hin).
    exists m', c. split_and!; try done. intros r x. rewrite Hin, Hel. unfold sim_elem at 3.
    rewrite E. naive_solver.
Qed.

(** ** Concrete sets *)
Definition iset_a : IntervalSet := mkISet [(0, 1); (3, 4); (8, 9)] 20.
Definition iset_b : IntervalSet := mkISet [(1, 3)] 20.


Ltac concrete_wf :=
  unfold wf, wf_from, below; simpl; split_and!; try lia;
  let p := fresh in let Hp := fresh in
  intros p Hp; rewrite !elem_of_cons, elem_of_nil in Hp;
  repeat (destruct Hp as [->|Hp]; [simpl; lia|]); done.

Lemma iset_a_wf : wf iset_a.
Proof. concrete_wf. Qed.
Lemma iset_b_wf : wf iset_b.
Proof. concrete_wf. Qed.

Lemma insert_range_spec_witness :
  wf iset_a ∧ ∃ s', insert_range iset_a (range_excl 2 8) = Ret (s', true) ∧
    map s' = [(0, 9)] ∧ wf s'.
Proof.
  assert (Hr : range_ok (domain iset_a) (range_excl 2 8)) by (split; simpl; lia).
  destruct (insert_range_spec iset_a (range_excl 2 8) iset_a_wf Hr) as (s' & c & Hi & Hw & _ & _ & _).
  split; [exact iset_a_wf|]. exists s'.
  assert (Hi' := Hi). vm_compute in Hi'. injection Hi' as <- <-.
  split; [exact Hi|]. split; [reflexivity|exact Hw].
Defined.

Lemma interval_queries_spec_witness :
  first_unset_in iset_a (range_excl 0 10) = Ret (Some 2) ∧
  last_set_in iset_a (range_excl 0 8) = Ret (Some 4) ∧ contains iset_a 8 = Ret true ∧ 8 ∈ iset_a ∧
  superset iset_a iset_b = false ∧ ¬ (∀ x, x ∈ iset_b → x ∈ iset_a).
Proof.
  assert (Hr : range_ok (domain iset_a) (range_excl 0 10)) by (split; simpl; lia).
  destruct (interval_queries_spec iset_a iset_b (range_excl 0 10) 8 iset_a_wf iset_b_wf Hr ltac:(lia))
    as (Hs & _ & b & o1 & o2 & Hc & Hb & _).
  split; [reflexivity|]. split; [reflexivity|]. split; [reflexivity|]. split; [|split; [reflexivity|]].
  - apply Hb. vm_compute in Hc. by injection Hc as <-.
  - intros H. apply Hs in H. discriminate H.
Defined.

Lemma interval_union_spec_witness :
  union iset_a iset_b = Ret (mkISet [(0, 4); (8, 9)] 20, true) ∧ wf (mkISet [(0, 4); (8, 9)] 20).
Proof.
  destruct (interval_union_spec iset_a iset_b iset_a_wf iset_b_wf eq_refl) as (s' & c & Hu & Hw & _).
  assert (Hu' := Hu). vm_compute in Hu'. injection Hu' as <- <-. split; [exact Hu|exact Hw].
Defined.

Lemma interval_append_spec_witness :
  append iset_a 9 = Ret iset_a ∧ append_range iset_a (range_excl 10 12) = Ret (mkISet [(0, 1); (3, 4); (8, 11)] 20).
Proof.
  assert (Hle : ∀ x, x ∈ iset_a → x ≤ 9).
  { intros x (p & Hp & Hx). unfold iset_a in Hp. simpl in Hp. rewrite !elem_of_cons, elem_of_nil in Hp.
    destruct Hp as [->|[->|[->|[]]]]; simpl in Hx; lia. }
  destruct (interval_append_spec iset_a 9 (range_excl 10 12) iset_a_wf) as ((s1 & H1 & _) & (s2 & H2 & _) & _).
  - split; simpl; lia.
  - simpl. lia.
  - exact Hle.
  - intros x y Hx [Hy _]. apply Hle in Hx. simpl in Hy. lia.
  - assert (H1' := H1). assert (H2' := H2). vm_compute in H1', H2'.
    injection H1' as <-. injection H2' as <-. split; [exact H1|exact H2].
Defined.

Lemma sparse_matrix_spec_witness :
  ∃ m', union_rows (mkSim [iset_a; iset_b] 20) 0 2 = Ret (m', false) ∧ length (rows m') = 3%nat ∧
    sim_elem m' 2 8.
Proof.
  assert (Hm : sim_wf (mkSim [iset_a; iset_b] 20)).
  { split; [simpl; lia|]. intros r s. destruct r as [|[|r]]; simpl; [| |done]; intros [= <-].
    - by split; [apply iset_a_wf|].
    - by split; [apply iset_b_wf|]. }
  destruct (sparse_matrix_spec (mkSim [iset_a; iset_b] 20) 5 0 2 iset_b Hm iset_b_wf eq_refl)
    as [_ (m' & c & Hu & _ & Hel)].
  assert (H8 : sim_elem m' 2 8).
  { apply Hel. right. split; [reflexivity|]. exists iset_a. split; [reflexivity|].
    exists (8, 9). split; [right; right; left|simpl; lia]. }
  assert (Hu' := Hu). vm_compute in Hu'. injection Hu' as <- <-.
  eexists. split; [exact Hu|]. split; [reflexivity|exact H8].
Defined.
