(* ===== verification/TritonEmit.v ===== *)
(** * Emission of branches with block arguments

    [rustc_codegen_llvm/src/mlir/codegen/triton]: [codegen_goto] and the closure
    [make_phi_args] of [codegen_switch_binary] ([ops/terminator.rs]), and the
    entry of a block in [codegen_basic_block] ([mod.rs]).  They create the block
    arguments of a join lazily, at the first branch to it, and pass the phi
    locals as operands.

    The MLIR API (melior) is the class [MlirBuilder]: what the code relies on is
    that an added argument goes to the end of the block's list and that
    appending an operation does not change arguments. *)
From S2P Require Import Prelude Mir.

(** The operations the modelled code appends.  A region is its single block.
    [ArithCmpi] is the comparison for equality; [OtherOp] is any operation that
    has neither regions nor successors and is no terminator. *)
Inductive MlirOp (BlockRef Value : Type) :=
  | CfBr (target : BlockRef) (args : list Value)
  | CfCondBr (cond : Value) (true_block false_block : BlockRef) (true_args false_args : list Value)
  | ScfYield (vals : list Value)
  | ScfCondition (cond : Value) (args : list Value)
  | ScfFor (lb ub step : Value) (inits : list Value) (body : BlockRef) (results : list Value)
  | ScfWhile (inits : list Value) (before after : BlockRef) (results : list Value)
  | ScfIf (cond : Value) (then_block else_block : BlockRef) (results : list Value)
  | TtReturn (vals : list Value)
  | ArithConstant (n : Z) (result : Value)
  | ArithCmpi (lhs rhs result : Value)
  | OtherOp (name : nat) (operands results : list Value).
Arguments CfBr {_ _}.
Arguments CfCondBr {_ _}.
Arguments ScfYield {_ _}.
Arguments ScfCondition {_ _}.
Arguments ScfFor {_ _}.
Arguments ScfWhile {_ _}.
Arguments ScfIf {_ _}.
Arguments TtReturn {_ _}.
Arguments ArithConstant {_ _}.
Arguments ArithCmpi {_ _}.
Arguments OtherOp {_ _}.

Definition is_branch {BlockRef Value} (o : MlirOp BlockRef Value) : bool :=
  match o with CfBr _ _ | CfCondBr _ _ _ _ _ => true | _ => false end.

Class MlirBuilder (BlockRef Value MType Mod : Type) `{!EqDecision BlockRef} := {
  value_type : Value → MType;
  block_args : Mod → BlockRef → list Value;
  block_ops : Mod → BlockRef → list (MlirOp BlockRef Value);
  add_argument : BlockRef → MType → Mod → Value * Mod;
  append_operation : BlockRef → MlirOp BlockRef Value → Mod → Mod;
  add_argument_args b t m b' :
    block_args (add_argument b t m).2 b' =
      if decide (b' = b) then block_args m b' ++ [(add_argument b t m).1] else block_args m b';
  add_argument_ops b t m b' : block_ops (add_argument b t m).2 b' = block_ops m b';
  add_argument_type b t m : value_type (add_argument b t m).1 = t;
  append_operation_args b o m b' : block_args (append_operation b o m) b' = block_args m b';
  append_operation_ops b o m b' :
    block_ops (append_operation b o m) b' =
      if decide (b' = b) then block_ops m b' ++ [o] else block_ops m b' }.

Section emit.
Context {BlockRef Value MType Mod : Type} `{!EqDecision BlockRef} `{!EqDecision Value}.
Context {builder : MlirBuilder BlockRef Value MType Mod}.
Abbreviation Op := (MlirOp BlockRef Value).

(** The tables of [CodegenState] for arrays and references to them, which have
    no MLIR value: the elements of an array of constants or of values, the
    array a pointer points to, and the contents of a slice. *)
Record ArrayTables := mkArrays {
  const_arrays : gmap Local (list Z);
  ptr_to_const_array : gmap Local Local;
  slice_shape : gmap Local (list Z);
  dyn_arrays : gmap Local (list Value);
  ptr_to_dyn_array : gmap Local Local;
  slice_dyn_values : gmap Local (list Value) }.

(** [CodegenState], without the block shapes of tensor descriptors, which belong
    to the tensor operations. *)
Record CodegenState := mkState {
  ssa_values : gmap Local Value;
  option_table : gmap Local (option Value);
  tuple_fields : gmap Local (list Value);
  loop_header_bb : option BasicBlock;
  loop_iter_carry_locals : list Local;
  loop_body_bbs : gset BasicBlock;
  loop_back_edge_bb : option BasicBlock;
  skip_bbs : gset BasicBlock;
  const_disc_locals : gmap Local Z;
  phi_join_locals : gmap BasicBlock (list Local);
  phi_block_args : gmap (BasicBlock * Local) Value;
  pre_join_ssa_values : gmap (BasicBlock * Local) Value;
  branch_snapshots : gmap BasicBlock (gmap Local Value);
  array_tables : ArrayTables }.

Definition with_ssa (st : CodegenState) (v : gmap Local Value) : CodegenState :=
  mkState v (option_table st) (tuple_fields st) (loop_header_bb st) (loop_iter_carry_locals st)
    (loop_body_bbs st) (loop_back_edge_bb st) (skip_bbs st) (const_disc_locals st)
    (phi_join_locals st) (phi_block_args st) (pre_join_ssa_values st) (branch_snapshots st)
    (array_tables st).
Definition with_option (st : CodegenState) (v : gmap Local (option Value)) : CodegenState :=
  mkState (ssa_values st) v (tuple_fields st) (loop_header_bb st) (loop_iter_carry_locals st)
    (loop_body_bbs st) (loop_back_edge_bb st) (skip_bbs st) (const_disc_locals st)
    (phi_join_locals st) (phi_block_args st) (pre_join_ssa_values st) (branch_snapshots st)
    (array_tables st).
Definition with_phi_args (st : CodegenState) (v : gmap (BasicBlock * Local) Value) : CodegenState :=
  mkState (ssa_values st) (option_table st) (tuple_fields st) (loop_header_bb st)
    (loop_iter_carry_locals st) (loop_body_bbs st) (loop_back_edge_bb st) (skip_bbs st)
    (const_disc_locals st) (phi_join_locals st) v (pre_join_ssa_values st) (branch_snapshots st)
    (array_tables st).
Definition with_pre_join (st : CodegenState) (v : gmap (BasicBlock * Local) Value) : CodegenState :=
  mkState (ssa_values st) (option_table st) (tuple_fields st) (loop_header_bb st)
    (loop_iter_carry_locals st) (loop_body_bbs st) (loop_back_edge_bb st) (skip_bbs st)
    (const_disc_locals st) (phi_join_locals st) (phi_block_args st) v (branch_snapshots st)
    (array_tables st).
Definition with_snapshots (st : CodegenState) (v : gmap BasicBlock (gmap Local Value)) : CodegenState :=
  mkState (ssa_values st) (option_table st) (tuple_fields st) (loop_header_bb st)
    (loop_iter_carry_locals st) (loop_body_bbs st) (loop_back_edge_bb st) (skip_bbs st)
    (const_disc_locals st) (phi_join_locals st) (phi_block_args st) (pre_join_ssa_values st) v
    (array_tables st).
Definition with_skip (st : CodegenState) (v : gset BasicBlock) : CodegenState :=
  mkState (ssa_values st) (option_table st) (tuple_fields st) (loop_header_bb st)
    (loop_iter_carry_locals st) (loop_body_bbs st) (loop_back_edge_bb st) v (const_disc_locals st)
    (phi_join_locals st) (phi_block_args st) (pre_join_ssa_values st) (branch_snapshots st)
    (array_tables st).
Definition with_tuple (st : CodegenState) (v : gmap Local (list Value)) : CodegenState :=
  mkState (ssa_values st) (option_table st) v (loop_header_bb st) (loop_iter_carry_locals st)
    (loop_body_bbs st) (loop_back_edge_bb st) (skip_bbs st) (const_disc_locals st)
    (phi_join_locals st) (phi_block_args st) (pre_join_ssa_values st) (branch_snapshots st)
    (array_tables st).
Definition with_arrays (st : CodegenState) (v : ArrayTables) : CodegenState :=
  mkState (ssa_values st) (option_table st) (tuple_fields st) (loop_header_bb st)
    (loop_iter_carry_locals st) (loop_body_bbs st) (loop_back_edge_bb st) (skip_bbs st)
    (const_disc_locals st) (phi_join_locals st) (phi_block_args st) (pre_join_ssa_values st)
    (branch_snapshots st) v.
(** The loop context. *)
Definition with_loop (st : CodegenState) (header : option BasicBlock) (carry : list Local)
    (body : gset BasicBlock) (back : option BasicBlock) : CodegenState :=
  mkState (ssa_values st) (option_table st) (tuple_fields st) header carry body back (skip_bbs st)
    (const_disc_locals st) (phi_join_locals st) (phi_block_args st) (pre_join_ssa_values st)
    (branch_snapshots st)
    (array_tables st).

(** [CodegenState::new] *)
Definition no_arrays : ArrayTables := mkArrays ∅ ∅ ∅ ∅ ∅ ∅.
Definition new_state : CodegenState := mkState ∅ ∅ ∅ None [] ∅ None ∅ ∅ ∅ ∅ ∅ ∅ no_arrays.

(** The operand for one phi local of [target]: the join's own argument in
    [ssa_values] is stale and stands for the value saved before the join was
    entered; the first branch creates the argument. *)
Definition phi_arg (target : BasicBlock) (target_block : BlockRef)
    (s : CodegenState * Mod * list Value) (local : Local) : outcome (CodegenState * Mod * list Value) :=
  let '(st, m, args) := s in
  match phi_block_args st !! (target, local) with
  | Some existing_arg =>
      let current := ssa_values st !! local in
      v ← (if decide (current = Some existing_arg)
           then unwrap (pre_join_ssa_values st !! (target, local))
           else unwrap current);
      Ret (st, m, vec_push args v)
  | None =>
      ssa_val ← unwrap (ssa_values st !! local);
      let '(phi_val, m') := add_argument target_block (value_type ssa_val) m in
      Ret (with_phi_args st (<[(target, local) := phi_val]> (phi_block_args st)), m',
           vec_push args ssa_val)
  end.

Definition make_phi_args (target : BasicBlock) (target_block : BlockRef)
    (st : CodegenState) (m : Mod) : outcome (CodegenState * Mod * list Value) :=
  match phi_join_locals st !! target with
  | Some phi_locals => ofold (phi_arg target target_block) (st, m, []) phi_locals
  | None => Ret (st, m, [])
  end.

Definition codegen_goto (basic_blocks : gmap BasicBlock BlockRef) (target : BasicBlock)
    (mlir_block : BlockRef) (st : CodegenState) (m : Mod) : outcome (CodegenState * Mod) :=
  let branch :=
    target_block ← unwrap (basic_blocks !! target);
    r ← make_phi_args target target_block st m;
    let '(st', m', phi_args) := r in
    Ret (st', append_operation mlir_block (CfBr target_block phi_args) m') in
  match loop_header_bb st with
  | Some header_bb =>
      if target =? header_bb then
        yield_vals ← omapM (λ local, unwrap (ssa_values st !! local)) (loop_iter_carry_locals st);
        Ret (st, append_operation mlir_block (ScfYield yield_vals) m)
      else if bool_decide (target ∈ loop_body_bbs st) then Ret (st, m)
      else branch
  | None => branch
  end.

(** The end of [codegen_switch_binary], after the comparison [cmp_result] and
    outside an active loop body. *)
Definition codegen_cond_br (basic_blocks : gmap BasicBlock BlockRef) (cmp_result : Value)
    (target_bb otherwise_bb : BasicBlock) (mlir_block : BlockRef)
    (st : CodegenState) (m : Mod) : outcome (CodegenState * Mod) :=
  if target_bb =? otherwise_bb then codegen_goto basic_blocks target_bb mlir_block st m
  else
    true_block ← unwrap (basic_blocks !! target_bb);
    false_block ← unwrap (basic_blocks !! otherwise_bb);
    r1 ← make_phi_args target_bb true_block st m;
    let '(st1, m1, true_phi_args) := r1 in
    r2 ← make_phi_args otherwise_bb false_block st1 m1;
    let '(st2, m2, false_phi_args) := r2 in
    Ret (st2, append_operation mlir_block
                (CfCondBr cmp_result true_block false_block true_phi_args false_phi_args) m2).

(** The snapshots [codegen_switch_int] saves for its targets. *)
Definition save_snapshot (snapshot : gmap Local Value) (snaps : gmap BasicBlock (gmap Local Value))
    (target : BasicBlock) : gmap BasicBlock (gmap Local Value) :=
  match snaps !! target with Some _ => snaps | None => <[target := snapshot]> snaps end.
Definition save_snapshots (targets : list BasicBlock) (st : CodegenState) : CodegenState :=
  with_snapshots st (foldl (save_snapshot (ssa_values st)) (branch_snapshots st) targets).

(** Entry of a block: restore the snapshot of the branch that targets it, then
    let the phi locals stand for the block's arguments, saving what they were. *)
Definition restore_snapshot (bb : BasicBlock) (st : CodegenState) : CodegenState :=
  match branch_snapshots st !! bb with
  | Some snapshot => with_snapshots (with_ssa st snapshot) (delete bb (branch_snapshots st))
  | None => st
  end.

Definition enter_phi (bb : BasicBlock) (st : CodegenState) (phi_local : Local) : CodegenState :=
  match phi_block_args st !! (bb, phi_local) with
  | Some phi_val =>
      let st := match ssa_values st !! phi_local with
                | Some old_val =>
                    match pre_join_ssa_values st !! (bb, phi_local) with
                    | Some _ => st
                    | None => with_pre_join st (<[(bb, phi_local) := old_val]> (pre_join_ssa_values st))
                    end
                | None => st
                end in
      with_ssa st (<[phi_local := phi_val]> (ssa_values st))
  | None => st
  end.

Definition enter_block (bb : BasicBlock) (st : CodegenState) : CodegenState :=
  let st := restore_snapshot bb st in
  match phi_join_locals st !! bb with
  | Some phi_locals => foldl (enter_phi bb) st phi_locals
  | None => st
  end.
End emit.
Arguments ArrayTables : clear implicits.
Arguments CodegenState : clear implicits.
Arguments no_arrays {_}.
Arguments new_state {_}.
