(* ===== verification/TritonEmitFacts.v ===== *)
(** * Emission of branches: the invariant

    Whatever the order in which blocks are entered, the values change and branches
    are emitted, a branch passes as many operands as its target has block
    arguments for phi locals, in the order of the phi locals: [emit_inv], which
    gotos and conditional branches keep.  The branch from a loop to its exit is
    the exception: it passes nothing. *)
From S2P Require Import Prelude Mir TritonEmit.

Definition is_loop_op {BlockRef Value} (o : MlirOp BlockRef Value) : bool :=
  match o with ScfFor _ _ _ _ _ _ | ScfWhile _ _ _ _ => true | _ => false end.

Section facts.
Context {BlockRef Value MType Mod : Type} `{!EqDecision BlockRef} `{!EqDecision Value}.
Context {builder : MlirBuilder BlockRef Value MType Mod}.
Abbreviation state := (CodegenState Value).
Implicit Types (st : state) (m : Mod) (s : state * Mod) (r b : BlockRef) (t : BasicBlock).

(** The blocks of the function, the arguments they start with, and the phi locals
    of the joins. *)
Context (basic_blocks : gmap BasicBlock BlockRef) (init : BlockRef → list Value).
Context (joins : gmap BasicBlock (list Local)).
Context (Hinj : ∀ t t' r, basic_blocks !! t = Some r → basic_blocks !! t' = Some r → t = t').
Definition phis_of (t : BasicBlock) : list Local := default [] (joins !! t).
Context (Hphis : ∀ t, NoDup (phis_of t)).

(** The arguments of [t] for [ls] exist: they follow the initial ones, in order. *)
Definition created s (t : BasicBlock) (r : BlockRef) (ls : list Local) : Prop :=
  ∃ vs, Forall2 (λ l v, phi_block_args s.1 !! (t, l) = Some v) ls vs ∧ block_args s.2 r = init r ++ vs.
Definition fresh_at s (t : BasicBlock) (r : BlockRef) : Prop :=
  (∀ l, l ∈ phis_of t → phi_block_args s.1 !! (t, l) = None) ∧ block_args s.2 r = init r.

(** A branch to a block of the function passes one operand per phi local, or
    leaves a loop and passes nothing. *)
Definition edge_ok s (r : BlockRef) (args : list Value) : Prop :=
  ∀ t, basic_blocks !! t = Some r → length args = length (phis_of t) ∧ created s t r (phis_of t).
Definition op_ok s (pre : list (MlirOp BlockRef Value)) (o : MlirOp BlockRef Value) : Prop :=
  match o with
  | CfBr r args => edge_ok s r args ∨ args = [] ∧ ∃ l, last pre = Some l ∧ is_loop_op l = true
  | CfCondBr _ r1 r2 args1 args2 => edge_ok s r1 args1 ∧ edge_ok s r2 args2
  | _ => True
  end.

Record emit_inv s : Prop := {
  ei_joins : phi_join_locals s.1 = joins;
  ei_args t r : basic_blocks !! t = Some r → fresh_at s t r ∨ created s t r (phis_of t);
  ei_ops t r pre o post : basic_blocks !! t = Some r → block_ops s.2 r = pre ++ o :: post → op_ok s pre o }.

(** What keeps the arguments that exist. *)
Definition keeps_created s s' : Prop :=
  ∀ t r, basic_blocks !! t = Some r → created s t r (phis_of t) → created s' t r (phis_of t).

Lemma edge_ok_mono s s' r args : keeps_created s s' → edge_ok s r args → edge_ok s' r args.
Proof. intros Hc He t Ht. destruct (He t Ht). split; [done|by apply Hc]. Qed.
Lemma op_ok_mono s s' pre o : keeps_created s s' → op_ok s pre o → op_ok s' pre o.
Proof.
  intros Hc. destruct o; simpl; try done.
  - intros [?|?]; [left; by eapply edge_ok_mono|by right].
  - intros [??]. split; by eapply edge_ok_mono.
Qed.

(** Only the phi locals, the arguments of the blocks of the function and their
    branches matter to the invariant. *)
Lemma emit_inv_plain s s' :
  emit_inv s → phi_join_locals s'.1 = phi_join_locals s.1 →
  (∀ t l, is_Some (basic_blocks !! t) → phi_block_args s'.1 !! (t, l) = phi_block_args s.1 !! (t, l)) →
  (∀ t r, basic_blocks !! t = Some r → block_args s'.2 r = block_args s.2 r) →
  (∀ t r, basic_blocks !! t = Some r → ∃ new, block_ops s'.2 r = block_ops s.2 r ++ new ∧ Forall (λ o, is_branch o = false) new) →
  emit_inv s' ∧ keeps_created s s'.
Proof.
  intros [Hj Ha Ho] Ej Ep Ea Eo.
  assert (Hc : keeps_created s s').
  { intros t r Ht (vs & Hvs & Hr). exists vs. rewrite (Ea t r Ht). split; [|done].
    eapply Forall2_impl; [exact Hvs|]. intros l v. by rewrite (Ep t) by (by exists r). }
  split; [|exact Hc]. split; [congruence| |].
  - intros t r Ht. destruct (Ha t r Ht) as [[Hf Hi]|?]; [left|right; by apply Hc].
    split; [intros l Hl; rewrite (Ep t); [by apply Hf|by exists r]|by rewrite (Ea t)].
  - intros t r pre o post Ht E. destruct (Eo t r Ht) as (new & En & Hnew). rewrite En in E.
    destruct (decide (length (block_ops s.2 r) ≤ length pre)) as [Hl|Hl].
    + assert (Ho' : o ∈ new).
      { assert (H : (block_ops s.2 r ++ new) !! length pre = Some o) by by rewrite E, list_lookup_middle.
        rewrite lookup_app_r in H by done. by eapply list_elem_of_lookup_2. }
      rewrite Forall_forall in Hnew. specialize (Hnew o Ho'). by destruct o.
    + eapply op_ok_mono; [exact Hc|]. apply (Ho t r pre o (drop (S (length pre)) (block_ops s.2 r)) Ht).
      apply (f_equal (take (length (block_ops s.2 r)))) in E. rewrite take_app_length in E.
      rewrite E at 1. rewrite (take_app_ge pre) by lia.
      destruct (length (block_ops s.2 r) - length pre) as [|n] eqn:En'; [lia|]. simpl. do 2 f_equal.
      apply (f_equal (drop (S (length pre)))) in E. rewrite E, (take_app_ge pre) by lia. rewrite En'. simpl.
      by rewrite (drop_app_ge pre), (Nat.sub_succ_l _ _ (le_n _)), Nat.sub_diag by lia.
Qed.

Lemma emit_append_ok s b o : emit_inv s → op_ok s (block_ops s.2 b) o → emit_inv (s.1, append_operation b o s.2).
Proof.
  intros [Hj Ha Hops] Ho.
  assert (Hc : keeps_created s (s.1, append_operation b o s.2)).
  { intros t r _ (vs & ? & ?). exists vs. simpl. by rewrite append_operation_args. }
  split; [done| |].
  - intros t r Ht. destruct (Ha t r Ht) as [[? ?]|?]; [left|right; by apply Hc].
    split; [done|]. simpl. by rewrite append_operation_args.
  - intros t r pre o' post Ht. simpl. rewrite append_operation_ops. destruct (decide (r = b)) as [->|].
    + intros E. destruct (decide (post = [])) as [->|Hpost].
      * apply app_inj_2 in E as [<- [= <-]]; [|done]. by eapply op_ok_mono.
      * destruct (exists_last Hpost) as (post' & x & ->).
        rewrite app_comm_cons, app_assoc in E. apply app_inj_2 in E as [E _]; [|done].
        eapply op_ok_mono; [exact Hc|by eapply Hops].
    + intros E. eapply op_ok_mono; [exact Hc|by eapply Hops].
Qed.

(** ** Creating the arguments of a target *)
Lemma phi_args_fresh t r suf : ∀ pre st m out q,
  NoDup (pre ++ suf) → created (st, m) t r pre →
  (∀ l, l ∈ suf → phi_block_args st !! (t, l) = None) →
  ofold (phi_arg t r) (st, m, out) suf = Ret q →
  created q.1 t r (pre ++ suf) ∧ length q.2 = length out + length suf.
Proof.
  induction suf as [|l suf IH]; intros pre st m out q Hnd Hc Hf.
  { intros [= <-]. rewrite app_nil_r in *. simpl. split; [done|lia]. }
  simpl. rewrite (Hf l) by (by left).
  destruct (ssa_values st !! l) as [v|] eqn:Ev; simpl; [|done].
  pose proof (add_argument_args r (value_type v) m) as Hargs.
  destruct (add_argument r (value_type v) m) as [phi m1]. simpl in *. intros Hfold.
  replace (pre ++ l :: suf) with ((pre ++ [l]) ++ suf) in * by by rewrite <-app_assoc.
  assert (Hlpre : l ∉ pre ∧ l ∉ suf).
  { apply NoDup_app in Hnd as (Hnd & Hd & _). apply NoDup_app in Hnd as (_ & Hd' & _). split.
    - intros Hl. by apply (Hd' l Hl), list_elem_of_singleton.
    - apply Hd. apply elem_of_app. right. by left. }
  set (st1 := with_phi_args st (<[(t, l):=phi]> (phi_block_args st))) in *.
  destruct (IH (pre ++ [l]) st1 m1 (vec_push out v) q Hnd) as (Hcr & Hlen); [| |exact Hfold|].
  - destruct Hc as (vs & Hvs & Hvr). exists (vs ++ [phi]). simpl. split.
    + apply Forall2_app; [|repeat constructor; apply lookup_insert_eq].
      eapply Forall2_impl; [exact Hvs|]. intros l' v' H. simpl in H. rewrite lookup_insert_ne; [done|].
      intros [= <-]. rewrite Hf in H by (by left). done.
    + simpl in Hvr. by rewrite Hargs, decide_True, Hvr, app_assoc.
  - intros l' Hl'. simpl. rewrite lookup_insert_ne; [apply Hf; by right|]. intros [= <-]. by apply Hlpre.
  - split; [done|]. rewrite Hlen. unfold vec_push. rewrite length_app. simpl. lia.
Qed.

Lemma phi_args_created t r suf : ∀ st m out q,
  (∀ l, l ∈ suf → is_Some (phi_block_args st !! (t, l))) →
  ofold (phi_arg t r) (st, m, out) suf = Ret q →
  q.1 = (st, m) ∧ length q.2 = length out + length suf.
Proof.
  induction suf as [|l suf IH]; intros st m out q Hc; simpl.
  { intros [= <-]. simpl. split; [done|lia]. }
  destruct (Hc l) as [v Hv]; [by left|]. rewrite Hv.
  destruct (if decide _ then _ else _) as [w| |]; simpl; try done.
  intros (Hs & Hlen)%IH; [|intros l' ?; apply Hc; by right]. split; [done|].
  rewrite Hlen. unfold vec_push. rewrite length_app. simpl. lia.
Qed.

(** What creating them leaves alone. *)
Lemma phi_args_frame t r ls : ∀ st m out q, ofold (phi_arg t r) (st, m, out) ls = Ret q →
  phi_join_locals q.1.1 = phi_join_locals st ∧
  (∀ t' l, t' ≠ t → phi_block_args q.1.1 !! (t', l) = phi_block_args st !! (t', l)) ∧
  (∀ r', r' ≠ r → block_args q.1.2 r' = block_args m r') ∧
  (∀ r', block_ops q.1.2 r' = block_ops m r').
Proof.
  induction ls as [|l ls IH]; intros st m out q; [by intros [= <-]|]. cbn [ofold phi_arg].
  destruct (phi_block_args st !! (t, l)) as [v|].
  { destruct (if decide _ then _ else _) as [w| |]; simpl; try done. apply IH. }
  destruct (ssa_values st !! l) as [v|]; simpl; [|done].
  pose proof (add_argument_args r (value_type v) m) as Hargs.
  pose proof (add_argument_ops r (value_type v) m) as Hops.
  destruct (add_argument r (value_type v) m) as [phi m1]. simpl in *.
  intros (Hj & Hp & Ha & Ho)%IH. split_and!; [done| | |].
  - intros t' l' Ht. rewrite Hp by done. apply lookup_insert_ne. congruence.
  - intros r' Hr. by rewrite Ha, Hargs, decide_False by done.
  - intros r'. by rewrite Ho.
Qed.

(** The block maps that code generation uses: that of the function, extended with
    the blocks of a loop, which are none of the function's. *)
Definition extends_blocks (bbs : gmap BasicBlock BlockRef) : Prop :=
  ∀ t r, bbs !! t = Some r → basic_blocks !! t = Some r ∨ basic_blocks !! t = None ∧ ∀ t', basic_blocks !! t' ≠ Some r.

Lemma make_phi_args_ok bbs t r st m q :
  extends_blocks bbs → emit_inv (st, m) → bbs !! t = Some r → make_phi_args t r st m = Ret q →
  emit_inv q.1 ∧ edge_ok q.1 r q.2 ∧ keeps_created (st, m) q.1.
Proof.
  intros Hbbs Hi Hr Hm. pose proof Hi as [Hj Ha Hops]. simpl in Hj.
  assert (Hm' : ofold (phi_arg t r) (st, m, []) (phis_of t) = Ret q).
  { unfold make_phi_args, phis_of in *. rewrite Hj in Hm. by destruct (joins !! t). }
  clear Hm. destruct (phi_args_frame _ _ _ _ _ _ _ Hm') as (Ej & Ep & Ea & Eo).
  assert (Hops' : ∀ t' r', basic_blocks !! t' = Some r' → ∃ new, block_ops q.1.2 r' = block_ops (st, m).2 r' ++ new ∧
    Forall (λ o, is_branch o = false) new) by (intros; exists []; split; [by rewrite app_nil_r, Eo|constructor]).
  destruct (Hbbs t r Hr) as [Ht|[Hnone Hout]].
  2: { destruct (emit_inv_plain (st, m) q.1) as [Hi' Hc]; [done..| | |done|].
    - intros t' l [r' Ht']. apply Ep. intros ->. by rewrite Hnone in Ht'.
    - intros t' r' Ht'. apply Ea. intros ->. by apply (Hout t').
    - split_and!; [done| |done]. intros t' Ht'. by destruct (Hout t'). }
  destruct (Ha t r Ht) as [[Hf Hinit]|Hcr].
  - destruct (phi_args_fresh t r (phis_of t) [] st m [] q) as (Hcr & Hlen); [apply Hphis|exists []; by rewrite app_nil_r|done..|].
    simpl in Hcr, Hlen. assert (Hc : keeps_created (st, m) q.1).
    { intros t' r' Ht' (vs & Hvs & Hr'). destruct (decide (t' = t)) as [->|Hne]; [by assert (r' = r) as -> by congruence|].
      exists vs. rewrite (Ea r') by (intros ->; apply Hne; by eapply Hinj). split; [|done].
      eapply Forall2_impl; [exact Hvs|]. intros l v. by rewrite Ep. }
    split_and!; [split| |done].
    + by rewrite Ej.
    + intros t' r' Ht'. destruct (decide (t' = t)) as [->|Hne]; [right; by assert (r' = r) as -> by congruence|].
      destruct (Ha t' r' Ht') as [[Hf' Hi']|?]; [left|right; by apply Hc]. split; [intros l Hl; rewrite Ep by done; by apply Hf'|].
      rewrite (Ea r'); [done|]. intros ->. apply Hne. by eapply Hinj.
    + intros t' r' pre o post Ht'. rewrite Eo. intros E. eapply op_ok_mono; [exact Hc|by eapply Hops].
    + intros t' Ht'. assert (t' = t) as -> by exact (Hinj _ _ _ Ht' Ht). by split.
  - destruct (phi_args_created t r (phis_of t) st m [] q) as (Hs & Hlen); [|done|].
    { intros l [i Hi']%list_elem_of_lookup. destruct Hcr as (vs & Hvs & _).
      destruct (Forall2_lookup_l _ _ _ _ _ Hvs Hi') as (v & _ & Hv). by exists v. }
    rewrite Hs. simpl in Hlen. split_and!; [done| |by intros ? ?].
    intros t' Ht'. pose proof (Hinj _ _ _ Ht' Ht) as ->. split; [lia|exact Hcr].
Qed.

(** ** The operands

    The value a branch to the join [t] passes for [l]: the one [l] has, or, when
    that is still the join's own argument, the one saved when the join was
    entered. *)
Definition phi_operand (st : state) (t : BasicBlock) (l : Local) : option Value :=
  match phi_block_args st !! (t, l) with
  | Some arg => if decide (ssa_values st !! l = Some arg) then pre_join_ssa_values st !! (t, l) else ssa_values st !! l
  | None => ssa_values st !! l
  end.

Lemma phi_args_operands t r ls : ∀ st m out q, NoDup ls → ofold (phi_arg t r) (st, m, out) ls = Ret q →
  ∃ vs, q.2 = out ++ vs ∧ Forall2 (λ l v, phi_operand st t l = Some v) ls vs ∧
    ssa_values q.1.1 = ssa_values st ∧ pre_join_ssa_values q.1.1 = pre_join_ssa_values st.
Proof.
  induction ls as [|l ls IH]; intros st m out q Hnd; [intros [= <-]; exists []; split_and!; [by rewrite app_nil_r|constructor|done..]|].
  apply NoDup_cons in Hnd as [Hl Hnd]. cbn [ofold].
  assert (Hstep : ∀ st' m' v, phi_operand st t l = Some v → ssa_values st' = ssa_values st →
    pre_join_ssa_values st' = pre_join_ssa_values st →
    (∀ l', l' ≠ l → phi_block_args st' !! (t, l') = phi_block_args st !! (t, l')) →
    ofold (phi_arg t r) (st', m', vec_push out v) ls = Ret q → ∃ vs, q.2 = out ++ vs ∧
      Forall2 (λ l v, phi_operand st t l = Some v) (l :: ls) vs ∧
      ssa_values q.1.1 = ssa_values st ∧ pre_join_ssa_values q.1.1 = pre_join_ssa_values st).
  { intros st' m' v Hv Es Epj Ep (vs & -> & Hvs & E1 & E2)%IH; [|done]. exists (v :: vs).
    unfold vec_push. rewrite <-app_assoc. split_and!; [done| |congruence..]. constructor; [done|].
    assert (Hne : Forall (λ l', l' ≠ l) ls) by (apply Forall_forall; by intros x Hx ->).
    clear -Hvs Hne Es Epj Ep. induction Hvs as [|l' v' ls vs Hv' _ IH]; inversion Hne; subst; constructor; [|by apply IH].
    rewrite <-Hv'. unfold phi_operand. by rewrite Es, Epj, Ep. }
  destruct (phi_arg t r (st, m, out) l) as [[[st1 m1] o1]| |] eqn:E; [|done..]. cbn [mbind outcome_bind].
  revert E. unfold phi_arg. unfold phi_operand at 1 in Hstep. destruct (phi_block_args st !! (t, l)) as [a|].
  - destruct (decide (ssa_values st !! l = Some a));
      [destruct (pre_join_ssa_values st !! (t, l)) as [v|]|destruct (ssa_values st !! l) as [v|]]; try done;
      intros [= <- <- <-]; by apply Hstep.
  - destruct (ssa_values st !! l) as [v|]; [|done]. cbn [unwrap mbind outcome_bind].
    destruct (add_argument r (value_type v) m) as [phi m2]. intros [= <- <- <-].
    apply Hstep; try done. intros l' Hne. simpl. rewrite lookup_insert_ne; [done|congruence].
Qed.

Lemma make_phi_args_operands t r st m st' m' args : NoDup (default [] (phi_join_locals st !! t)) →
  make_phi_args t r st m = Ret (st', m', args) →
  Forall2 (λ l v, phi_operand st t l = Some v) (default [] (phi_join_locals st !! t)) args ∧
  (∀ b, block_ops m' b = block_ops m b) ∧ phi_join_locals st' = phi_join_locals st ∧
  ∀ t' l, t' ≠ t → phi_operand st' t' l = phi_operand st t' l.
Proof.
  unfold make_phi_args. destruct (phi_join_locals st !! t) as [ls|]; simpl; intros Hnd H.
  - destruct (phi_args_operands _ _ _ _ _ _ _ Hnd H) as (vs & Hvs & Hop & E1 & E2). simpl in Hvs, E1, E2. subst.
    destruct (phi_args_frame _ _ _ _ _ _ _ H) as (Ej & Ep & _ & Eo). simpl in *.
    split_and!; [done..|]. intros t' l Hne. unfold phi_operand. by rewrite E1, E2, Ep.
  - injection H as <- <- <-. by split_and!.
Qed.

Lemma goto_ok bbs t b st m q :
  extends_blocks bbs → emit_inv (st, m) → codegen_goto bbs t b st m = Ret q → emit_inv q.
Proof.
  intros Hbbs Hi. unfold codegen_goto.
  set (branch := (target_block ← unwrap (bbs !! t); _)).
  assert (Hb : branch = Ret q → emit_inv q).
  { unfold branch. destruct (bbs !! t) as [r|] eqn:Hr; simpl; [|done].
    destruct (make_phi_args t r st m) as [[[st1 m1] args]| |] eqn:E; simpl; try done.
    intros [= <-]. destruct (make_phi_args_ok bbs t r st m _ Hbbs Hi Hr E) as (? & ? & _).
    apply (emit_append_ok (st1, m1)); [done|by left]. }
  destruct (loop_header_bb st) as [h|]; [|done]. destruct (t =? h).
  { destruct (omapM _ _); simpl; try done. intros [= <-]. by apply (emit_append_ok (st, m)). }
  case_bool_decide; [|done]. by intros [= <-].
Qed.

Lemma cond_br_ok bbs cmp t o b st m q :
  extends_blocks bbs → emit_inv (st, m) → codegen_cond_br bbs cmp t o b st m = Ret q → emit_inv q.
Proof.
  intros Hbbs Hi. unfold codegen_cond_br. destruct (t =? o); [by apply goto_ok|].
  destruct (bbs !! t) as [r1|] eqn:Hr1; simpl; [|done].
  destruct (bbs !! o) as [r2|] eqn:Hr2; simpl; [|done].
  destruct (make_phi_args t r1 st m) as [[[st1 m1] args1]| |] eqn:E1; simpl; try done.
  destruct (make_phi_args_ok bbs t r1 st m _ Hbbs Hi Hr1 E1) as (Hi1 & He1 & _). simpl in *.
  destruct (make_phi_args o r2 st1 m1) as [[[st2 m2] args2]| |] eqn:E2; simpl; try done.
  destruct (make_phi_args_ok bbs o r2 st1 m1 _ Hbbs Hi1 Hr2 E2) as (Hi2 & He2 & Hc). simpl in *.
  intros [= <-]. apply (emit_append_ok (st2, m2)); [done|]. split; [by eapply edge_ok_mono|done].
Qed.

Lemma enter_phi_same bb ls : ∀ st,
  phi_join_locals (foldl (enter_phi bb) st ls) = phi_join_locals st ∧
  phi_block_args (foldl (enter_phi bb) st ls) = phi_block_args st.
Proof.
  induction ls as [|l ls IH]; intros st; simpl; [done|].
  destruct (IH (enter_phi bb st l)) as [-> ->]. unfold enter_phi.
  by repeat case_match.
Qed.

Lemma enter_block_same bb st :
  phi_join_locals (enter_block bb st) = phi_join_locals st ∧
  phi_block_args (enter_block bb st) = phi_block_args st.
Proof.
  unfold enter_block. set (st1 := restore_snapshot bb st).
  assert (phi_join_locals st1 = phi_join_locals st ∧ phi_block_args st1 = phi_block_args st) as [<- <-].
  { unfold st1, restore_snapshot. by destruct (branch_snapshots st !! bb). }
  destruct (phi_join_locals st1 !! bb); [apply enter_phi_same|done].
Qed.
End facts.


(** ** A concrete builder: numbered values, blocks in maps *)
Record SValue := mkSValue { sv_id : nat; sv_ty : nat }.
#[export] Instance SValue_eq_dec : EqDecision SValue.
Proof. solve_decision. Defined.
Record Store := mkStore {
  next_id : nat;
  next_block : nat;
  store_args : gmap nat (list SValue);
  store_ops : gmap nat (list (MlirOp nat SValue)) }.

Definition store_add (b ty : nat) (m : Store) : SValue * Store :=
  let v := mkSValue (next_id m) ty in
  (v, mkStore (S (next_id m)) (next_block m) (<[b := default [] (store_args m !! b) ++ [v]]> (store_args m)) (store_ops m)).
Definition store_append (b : nat) (o : MlirOp nat SValue) (m : Store) : Store :=
  mkStore (next_id m) (next_block m) (store_args m) (<[b := default [] (store_ops m !! b) ++ [o]]> (store_ops m)).

#[export, refine] Instance store_builder : MlirBuilder nat SValue nat Store := {|
  value_type := sv_ty;
  block_args m b := default [] (store_args m !! b);
  block_ops m b := default [] (store_ops m !! b);
  add_argument := store_add;
  append_operation := store_append |}.
Proof.
  - intros b t m b'. simpl. destruct (decide (b' = b)) as [->|].
    + by rewrite lookup_insert_eq.
    + by rewrite lookup_insert_ne.
  - done.
  - done.
  - done.
  - intros b o m b'. simpl. destruct (decide (b' = b)) as [->|].
    + by rewrite lookup_insert_eq.
    + by rewrite lookup_insert_ne.
Defined.
Definition empty_store : Store := mkStore 100 50 ∅ ∅.

(** A join whose phi local, 2, still is the join's argument, as after the join was
    entered: the back edge passes the value from before it. *)
Definition stale_state : CodegenState SValue :=
  mkState {[2 := mkSValue 9 7]} ∅ ∅ None [] ∅ None ∅ ∅ {[3 := [2]]} {[(3, 2) := mkSValue 9 7]} {[(3, 2) := mkSValue 5 7]} ∅ no_arrays.
