(* ===== verification/BitWords.v ===== *)
(** * Words of bits

    The word-level part of [rustc_index/src/bit_set.rs]: [word_index_and_mask],
    [num_words], [update_words], [would_modify_words], [count_ones], [max_bit],
    [clear_excess_bits_in_final_word] and the [BitIter] iterator.

    A [Word] is a [u64] as an integer in [0, 2^64); a [usize] that indexes
    memory is a [nat]. *)
From S2P Require Import Prelude.
From Stdlib Require Import Sorting.Sorted.

#[global] Arguments Nat.div : simpl never.
#[global] Arguments Nat.modulo : simpl never.

Definition WORD_BITS : nat := 64.
Definition CHUNK_WORDS : nat := 32.
Definition CHUNK_BITS : nat := CHUNK_WORDS * WORD_BITS.

(** ** Machine words *)
Definition word_ok (w : Z) : Prop := (0 ≤ w < 2 ^ 64)%Z.
(** [!w] on [u64] *)
Definition word_not (w : Z) : Z := Z.ldiff (Z.ones 64) w.
Definition tb (w : Z) (i : nat) : bool := Z.testbit w (Z.of_nat i).

(** [u64::trailing_zeros], [u64::leading_zeros] and [u64::count_ones] *)
Definition trailing_zeros (w : Z) : nat := partition_point (λ i, negb (tb w i)) (seq 0 64).
Definition leading_zeros (w : Z) : nat := partition_point (λ i, negb (tb w (63 - i))) (seq 0 64).
Definition word_count_ones (w : Z) : nat := length (List.filter (tb w) (seq 0 64)).

(** [a.div_ceil(b)] *)
Definition div_ceil (a b : nat) : nat := a / b + (if a mod b =? 0 then 0 else 1).

Definition num_words (domain_size : nat) : nat := div_ceil domain_size WORD_BITS.

Definition word_index_and_mask (elem : nat) : nat * Z :=
  (elem / WORD_BITS, Z.shiftl 1 (Z.of_nat (elem mod WORD_BITS))).

Definition chunk_index (elem : nat) : nat := elem / CHUNK_BITS.
Definition chunk_word_index_and_mask (elem : nat) : nat * Z :=
  word_index_and_mask (elem mod CHUNK_BITS).

Definition max_bit (word : Z) : nat := WORD_BITS - 1 - leading_zeros word.

Definition count_ones (words : list Z) : nat := sum_list (word_count_ones <$> words).

(** [words[words.len() - 1] &= mask]: an empty slice panics. *)
Definition clear_excess_bits_in_final_word (domain_size : nat) (words : list Z) : outcome (list Z) :=
  let num_bits_in_final_word := domain_size mod WORD_BITS in
  if 0 <? num_bits_in_final_word then
    let mask := (Z.shiftl 1 (Z.of_nat num_bits_in_final_word) - 1)%Z in
    match vec_pop words with
    | Some (w, ws) => Ret (vec_push ws (Z.land w mask))
    | None => Panic
    end
  else Ret words.

(** The loop of [update_words]: the new words and the accumulated changes. *)
Fixpoint update_loop (op : Z → Z → Z) (lhs rhs : list Z) (changed : Z) : list Z * Z :=
  match lhs, rhs with
  | old_val :: lhs', rhs_val :: rhs' =>
      let new_val := op old_val rhs_val in
      let r := update_loop op lhs' rhs' (Z.lor changed (Z.lxor old_val new_val)) in
      (new_val :: r.1, r.2)
  | _, _ => (lhs, changed)
  end.

Definition update_words (op : Z → Z → Z) (lhs rhs : list Z) : outcome (list Z * bool) :=
  if length lhs =? length rhs then
    let r := update_loop op lhs rhs 0 in Ret (r.1, negb (r.2 =? 0)%Z)
  else Panic.

(** [would_modify_subchunk] *)
Definition would_modify_subchunk (op : Z → Z → Z) (lhs_chunk rhs_chunk : list Z) : bool :=
  negb ((update_loop op lhs_chunk rhs_chunk 0).2 =? 0)%Z.

(** Whole subchunks of [SUBCHUNK_LEN] words first, then the tails; the fuel is
    the number of words. *)
Definition SUBCHUNK_LEN : nat := 8.
Fixpoint would_modify_from (fuel : nat) (op : Z → Z → Z) (lhs rhs : list Z) : bool :=
  match fuel with
  | S f =>
      if SUBCHUNK_LEN <=? length lhs then
        if would_modify_subchunk op (take SUBCHUNK_LEN lhs) (take SUBCHUNK_LEN rhs) then true
        else would_modify_from f op (drop SUBCHUNK_LEN lhs) (drop SUBCHUNK_LEN rhs)
      else would_modify_subchunk op lhs rhs
  | O => would_modify_subchunk op lhs rhs
  end.
Definition would_modify_words (op : Z → Z → Z) (lhs rhs : list Z) : outcome bool :=
  if length lhs =? length rhs then Ret (would_modify_from (length lhs) op lhs rhs) else Panic.

(** [&words[..n]] and [&words[start..end_]], and a function applied to such a
    mutable slice *)
Definition slice_to (ws : list Z) (n : nat) : outcome (list Z) :=
  if n <=? length ws then Ret (take n ws) else Panic.
Definition on_slice_to (f : list Z → outcome (list Z)) (ws : list Z) (n : nat) : outcome (list Z) :=
  p ← slice_to ws n; p' ← f p; Ret (p' ++ drop n ws).
Definition slice_range (ws : list Z) (start end_ : nat) : outcome (list Z) :=
  if (start <=? end_) && (end_ <=? length ws) then Ret (take (end_ - start) (drop start ws)) else Panic.

(** [BitIter]: a copy of the current word without the visited bits, its offset
    (a wrapping [usize]) and the words to come. *)
Record BitIter := mkBitIter { it_word : Z; it_offset : Z; it_iter : list Z }.

Definition bit_iter_new (words : list Z) : BitIter := mkBitIter 0 (2 ^ 64 - 1 - 63)%Z words.

(** [BitIter::next]: the loop runs over the remaining words. *)
Fixpoint bit_iter_advance (word offset : Z) (words : list Z) : option (nat * BitIter) :=
  if negb (word =? 0)%Z then
    let bit_pos := trailing_zeros word in
    Some (bit_pos + Z.to_nat offset,
          mkBitIter (Z.lxor word (Z.shiftl 1 (Z.of_nat bit_pos))) offset words)
  else
    match words with
    | [] => None
    | w :: ws => bit_iter_advance w (as_u 64 (offset + 64)) ws
    end.
Definition bit_iter_next (it : BitIter) : option (nat * BitIter) :=
  bit_iter_advance (it_word it) (it_offset it) (it_iter it).

(** All items of an iterator, with fuel for the number of bits. *)
Fixpoint bit_iter_collect (fuel : nat) (it : BitIter) : list nat :=
  match fuel with
  | O => []
  | S f => match bit_iter_next it with Some (i, it') => i :: bit_iter_collect f it' | None => [] end
  end.
Definition words_iter (words : list Z) : list nat :=
  bit_iter_collect (S (length words * WORD_BITS)) (bit_iter_new words).

(** ** The set that words stand for *)
Definition has (words : list Z) (i : nat) : bool :=
  match words !! (i / WORD_BITS) with Some w => tb w (i mod WORD_BITS) | None => false end.
Definition words_ok (words : list Z) : Prop := ∀ w, w ∈ words → word_ok w.
Definition words_in (domain_size : nat) (words : list Z) : Prop :=
  ∀ i, has words i = true → i < domain_size.

(** ** Lemmas on words *)
Lemma tb_high w i : word_ok w → 64 ≤ i → tb w i = false.
Proof.
  intros [H0 H1] Hi. unfold tb. destruct (decide (w = 0%Z)) as [->|]; [apply Z.testbit_0_l|].
  apply Z.bits_above_log2; [done|]. apply Z.log2_lt_pow2; [lia|].
  eapply Z.lt_le_trans; [exact H1|]. apply Z.pow_le_mono_r; lia.
Qed.

Lemma word_ext w1 w2 : word_ok w1 → word_ok w2 → (∀ i, i < 64 → tb w1 i = tb w2 i) → w1 = w2.
Proof.
  intros H1 H2 H. apply Z.bits_inj'. intros n Hn.
  replace n with (Z.of_nat (Z.to_nat n)) by lia.
  destruct (decide (Z.to_nat n < 64)) as [Hlt|]; [by apply H|].
  fold (tb w1 (Z.to_nat n)) (tb w2 (Z.to_nat n)). by rewrite !tb_high by (done || lia).
Qed.

Lemma word_ok_bits w : (0 ≤ w)%Z → (∀ i, 64 ≤ i → tb w i = false) → word_ok w.
Proof.
  intros Hw H. split; [done|]. destruct (decide (w = 0%Z)) as [->|]; [done|].
  apply Z.log2_lt_pow2; [lia|]. destruct (Z.lt_ge_cases (Z.log2 w) 64) as [|Hge]; [done|].
  exfalso. specialize (H (Z.to_nat (Z.log2 w))). unfold tb in H.
  rewrite Z2Nat.id, Z.bit_log2 in H by lia. assert (true = false); [apply H; lia|done].
Qed.

Lemma tb_0 i : tb 0 i = false.
Proof. apply Z.testbit_0_l. Qed.
Lemma tb_land a b i : tb (Z.land a b) i = tb a i && tb b i.
Proof. apply Z.land_spec. Qed.
Lemma tb_lor a b i : tb (Z.lor a b) i = tb a i || tb b i.
Proof. apply Z.lor_spec. Qed.
Lemma tb_lxor a b i : tb (Z.lxor a b) i = xorb (tb a i) (tb b i).
Proof. apply Z.lxor_spec. Qed.
Lemma tb_bit k i : tb (Z.shiftl 1 (Z.of_nat k)) i = (i =? k).
Proof.
  unfold tb. rewrite Z.shiftl_1_l, Z.pow2_bits_eqb by lia.
  destruct (Nat.eqb_spec i k), (Z.eqb_spec (Z.of_nat k) (Z.of_nat i)); lia || done.
Qed.
Lemma tb_ones k i : tb (Z.shiftl 1 (Z.of_nat k) - 1) i = (i <? k).
Proof.
  unfold tb. rewrite Z.shiftl_1_l, Z.sub_1_r, <-Z.ones_equiv, Z.testbit_ones by lia.
  destruct (Nat.ltb_spec i k), (Z.leb_spec 0 (Z.of_nat i)), (Z.ltb_spec (Z.of_nat i) (Z.of_nat k)); lia || done.
Qed.
Lemma tb_not w i : tb (word_not w) i = (i <? 64) && negb (tb w i).
Proof.
  unfold word_not, tb. rewrite Z.ldiff_spec, Z.testbit_ones by lia. f_equal.
  destruct (Nat.ltb_spec i 64), (Z.leb_spec 0 (Z.of_nat i)), (Z.ltb_spec (Z.of_nat i) 64); lia || done.
Qed.
(** [2^e - 2^s] has the bits from [s] to [e - 1]. *)
Lemma tb_range s e i :
  s ≤ e → tb (Z.shiftl 1 (Z.of_nat e) - Z.shiftl 1 (Z.of_nat s)) i = (s <=? i) && (i <? e).
Proof.
  intros Hse.
  replace (Z.shiftl 1 (Z.of_nat e) - Z.shiftl 1 (Z.of_nat s))%Z
    with (Z.shiftl (Z.shiftl 1 (Z.of_nat (e - s)) - 1) (Z.of_nat s)).
  - unfold tb. destruct (Nat.leb_spec s i); simpl.
    + rewrite Z.shiftl_spec by lia.
      replace (Z.of_nat i - Z.of_nat s)%Z with (Z.of_nat (i - s)) by lia.
      fold (tb (Z.shiftl 1 (Z.of_nat (e - s)) - 1) (i - s)). rewrite tb_ones.
      destruct (Nat.ltb_spec (i - s) (e - s)), (Nat.ltb_spec i e); lia || done.
    + rewrite Z.shiftl_spec_low by lia. done.
  - rewrite !Z.shiftl_mul_pow2, Z.mul_1_l, !Z.mul_1_l by lia.
    rewrite Z.mul_sub_distr_r, <-Z.pow_add_r by lia.
    replace (Z.of_nat (e - s) + Z.of_nat s)%Z with (Z.of_nat e) by lia. lia.
Qed.

Lemma word_ok_0 : word_ok 0.
Proof. unfold word_ok. lia. Qed.
Lemma word_ok_land a b : word_ok a → word_ok b → word_ok (Z.land a b).
Proof.
  intros Ha Hb. apply word_ok_bits; [apply Z.land_nonneg; left; apply Ha|].
  intros i Hi. by rewrite tb_land, tb_high.
Qed.
Lemma word_ok_lor a b : word_ok a → word_ok b → word_ok (Z.lor a b).
Proof.
  intros Ha Hb. apply word_ok_bits; [apply Z.lor_nonneg; split; [apply Ha|apply Hb]|].
  intros i Hi. by rewrite tb_lor, !tb_high.
Qed.
Lemma word_ok_lxor a b : word_ok a → word_ok b → word_ok (Z.lxor a b).
Proof.
  intros Ha Hb. apply word_ok_bits; [apply Z.lxor_nonneg; split; intros; [apply Hb|apply Ha]|].
  intros i Hi. by rewrite tb_lxor, !tb_high.
Qed.
Lemma word_ok_not w : word_ok w → word_ok (word_not w).
Proof.
  intros Hw. apply word_ok_bits.
  - apply Z.ldiff_nonneg. left. rewrite Z.ones_equiv. lia.
  - intros i Hi. rewrite tb_not. destruct (Nat.ltb_spec i 64); [lia|done].
Qed.
Lemma word_ok_bit k : k < 64 → word_ok (Z.shiftl 1 (Z.of_nat k)).
Proof.
  intros Hk. apply word_ok_bits; [rewrite Z.shiftl_1_l; lia|].
  intros i Hi. rewrite tb_bit. apply Nat.eqb_neq. lia.
Qed.

Lemma tb_neq_0 w i : tb w i = true → w ≠ 0%Z.
Proof. intros H ->. by rewrite tb_0 in H. Qed.
Lemma word_bit_exists w : word_ok w → w ≠ 0%Z → ∃ i, i < 64 ∧ tb w i = true.
Proof.
  intros Hw Hne. destruct (existsb (tb w) (seq 0 64)) eqn:E.
  - apply existsb_exists in E as (i & [_ Hi]%in_seq & Ht). by exists i.
  - destruct Hne. apply word_ext; [done|apply word_ok_0|]. intros i Hi. rewrite tb_0.
    apply not_true_iff_false. intros Ht. apply not_true_iff_false in E. apply E, existsb_exists.
    exists i. split; [apply in_seq; lia|done].
Qed.

(** A mask tests its bit. *)
Lemma mask_test w k : negb (Z.land w (Z.shiftl 1 (Z.of_nat k)) =? 0)%Z = tb w k.
Proof.
  destruct (tb w k) eqn:E.
  - apply negb_true_iff, Z.eqb_neq, (tb_neq_0 _ k). rewrite tb_land, E, tb_bit. apply Nat.eqb_refl.
  - apply negb_false_iff, Z.eqb_eq, Z.bits_inj'. intros n Hn.
    replace n with (Z.of_nat (Z.to_nat n)) by lia. generalize (Z.to_nat n) as i. intros i.
    fold (tb (Z.land w (Z.shiftl 1 (Z.of_nat k))) i). rewrite tb_land, tb_bit, Z.testbit_0_l.
    destruct (Nat.eqb_spec i k) as [->|]; [by rewrite E|apply andb_false_r].
Qed.

(** The first bit of a list of positions that a predicate accepts. *)
Lemma partition_point_first (p : nat → bool) (l : list nat) k :
  k ∈ l → p k = false → ∃ l1 x l2, l = l1 ++ x :: l2 ∧ partition_point p l = length l1 ∧
    p x = false ∧ ∀ y, y ∈ l1 → p y = true.
Proof.
  intros Hk Hp. destruct (partition_point_split p l) as (l1 & l2 & -> & Hl & H1 & H2).
  destruct l2 as [|x l2].
  - rewrite app_nil_r in Hk. apply H1 in Hk. congruence.
  - exists l1, x, l2. split_and!; [done..|by apply H2|done].
Qed.
Lemma seq_split_mid s n l1 x l2 : seq s n = l1 ++ x :: l2 → x = s + length l1 ∧ l1 = seq s (length l1).
Proof.
  intros H. assert (Hx : seq s n !! length l1 = Some x) by (rewrite H; by apply list_lookup_middle).
  apply lookup_seq in Hx as [-> Hlt]. split; [done|].
  apply (f_equal (take (length l1))) in H. rewrite take_app_length, take_seq in H.
  rewrite <-H at 1. f_equal. lia.
Qed.

Lemma trailing_zeros_spec w k :
  k < 64 → tb w k = true →
  trailing_zeros w < 64 ∧ tb w (trailing_zeros w) = true ∧ ∀ i, i < trailing_zeros w → tb w i = false.
Proof.
  intros Hk Ht. unfold trailing_zeros.
  destruct (partition_point_first (λ i, negb (tb w i)) (seq 0 64) k) as (l1 & x & l2 & Hs & -> & Hx & H1).
  - apply elem_of_seq. lia.
  - by rewrite Ht.
  - destruct (seq_split_mid _ _ _ _ _ Hs) as [Hx' Hl1]. rewrite Nat.add_0_l in Hx'. subst x.
    apply negb_false_iff in Hx. assert (length l1 < 64).
    { apply (f_equal length) in Hs. rewrite length_seq, length_app in Hs. simpl in Hs. lia. }
    split_and!; [done..|]. intros i Hi. apply negb_true_iff, H1. rewrite Hl1. apply elem_of_seq. lia.
Qed.

Lemma max_bit_spec w k :
  k < 64 → tb w k = true →
  max_bit w < 64 ∧ tb w (max_bit w) = true ∧ ∀ i, max_bit w < i → i < 64 → tb w i = false.
Proof.
  intros Hk Ht. unfold max_bit, leading_zeros, WORD_BITS.
  destruct (partition_point_first (λ i, negb (tb w (63 - i))) (seq 0 64) (63 - k))
    as (l1 & x & l2 & Hs & -> & Hx & H1).
  - apply elem_of_seq. lia.
  - replace (63 - (63 - k)) with k by lia. by rewrite Ht.
  - destruct (seq_split_mid _ _ _ _ _ Hs) as [Hx' Hl1]. rewrite Nat.add_0_l in Hx'. subst x.
    apply negb_false_iff in Hx. replace (64 - 1 - length l1) with (63 - length l1) by lia.
    split_and!; [lia|done|].
    intros i Hi Hi'. assert (H63 : 63 - i ∈ l1).
    { rewrite Hl1. apply elem_of_seq. lia. }
    apply H1 in H63. apply negb_true_iff in H63. by replace (63 - (63 - i)) with i in H63 by lia.
Qed.

(** ** Lemmas on [has] *)
Lemma div_mod_64 i : i = 64 * (i / 64) + i mod 64 ∧ i mod 64 < 64.
Proof. split; [apply Nat.div_mod_eq|apply Nat.mod_upper_bound; lia]. Qed.
Lemma div_64_unique i q r : r < 64 → i = 64 * q + r → i / 64 = q ∧ i mod 64 = r.
Proof.
  intros Hr ->. split.
  - symmetry. by apply (Nat.div_unique _ _ _ r).
  - symmetry. by apply (Nat.mod_unique _ _ q).
Qed.

Lemma has_at ws q r w : r < 64 → ws !! q = Some w → has ws (64 * q + r) = tb w r.
Proof.
  intros Hr Hw. unfold has, WORD_BITS.
  destruct (div_64_unique (64 * q + r) q r Hr eq_refl) as [-> ->]. by rewrite Hw.
Qed.

Lemma has_bound ws i : has ws i = true → i / 64 < length ws.
Proof. unfold has, WORD_BITS. destruct (ws !! (i / 64)) eqn:E; [intros _; by eapply lookup_lt_Some|done]. Qed.

Lemma words_ext ws1 ws2 :
  length ws1 = length ws2 → words_ok ws1 → words_ok ws2 → (∀ i, has ws1 i = has ws2 i) → ws1 = ws2.
Proof.
  intros Hlen H1 H2 Heq. apply list_eq_same_length with (length ws2); [done|done|].
  intros q w1 w2 Hq Hw1 Hw2. apply word_ext.
  - apply H1. by eapply list_elem_of_lookup_2.
  - apply H2. by eapply list_elem_of_lookup_2.
  - intros r Hr. by rewrite <-(has_at ws1 q r w1), <-(has_at ws2 q r w2).
Qed.

Lemma has_insert ws q w i :
  q < length ws → has (<[q := w]> ws) i = if i / 64 =? q then tb w (i mod 64) else has ws i.
Proof.
  intros Hq. unfold has, WORD_BITS. destruct (Nat.eqb_spec (i / 64) q) as [->|].
  - by rewrite list_lookup_insert_eq.
  - by rewrite list_lookup_insert_ne.
Qed.
Lemma words_ok_insert ws q w : words_ok ws → word_ok w → words_ok (<[q := w]> ws).
Proof.
  intros Hws Hw x [i Hi]%list_elem_of_lookup.
  apply list_lookup_insert_Some in Hi as [(_ & <- & _)|(_ & Hi)]; [done|].
  apply Hws. by eapply list_elem_of_lookup_2.
Qed.

Lemma has_replicate n w i : has (replicate n w) i = (i / 64 <? n) && tb w (i mod 64).
Proof.
  unfold has, WORD_BITS. destruct (Nat.ltb_spec (i / 64) n).
  - by rewrite lookup_replicate_2.
  - assert (replicate n w !! (i / 64) = None) as -> by (apply lookup_replicate_None; lia). done.
Qed.

Lemma num_words_lt domain i : i < domain → i / 64 < num_words domain.
Proof.
  intros Hi. unfold num_words, div_ceil, WORD_BITS. destruct (div_mod_64 domain), (div_mod_64 i).
  destruct (Nat.eqb_spec (domain mod 64) 0); nia.
Qed.
Lemma num_words_le domain i : 64 * num_words domain ≤ i → domain ≤ i.
Proof.
  unfold num_words, div_ceil, WORD_BITS. destruct (div_mod_64 domain).
  destruct (Nat.eqb_spec (domain mod 64) 0); nia.
Qed.

(** ** [update_words] *)
Lemma update_loop_spec op lhs : ∀ rhs c,
  length lhs = length rhs →
  (update_loop op lhs rhs c).1 = zip_with op lhs rhs ∧
  ((update_loop op lhs rhs c).2 = 0%Z ↔ c = 0%Z ∧ zip_with op lhs rhs = lhs).
Proof.
  induction lhs as [|a lhs IH]; intros [|b rhs] c Hlen; simpl in *; try done.
  { split; [done|]. split; [done|by intros [? _]]. }
  destruct (IH rhs (Z.lor c (Z.lxor a (op a b)))) as [-> H2]; [lia|]. split; [done|].
  rewrite H2, Z.lor_eq_0_iff, Z.lxor_eq_0_iff. split.
  - intros [[-> Ha] Hz]. by rewrite <-Ha, Hz.
  - intros [-> [= Ha Hz]]. by rewrite Ha.
Qed.

Lemma update_words_ok op lhs rhs :
  length lhs = length rhs →
  update_words op lhs rhs = Ret (zip_with op lhs rhs, negb (bool_decide (zip_with op lhs rhs = lhs))).
Proof.
  intros Hlen. unfold update_words. rewrite (proj2 (Nat.eqb_eq _ _) Hlen).
  destruct (update_loop_spec op lhs rhs 0 Hlen) as [-> H2]. do 2 f_equal.
  destruct (Z.eqb_spec (update_loop op lhs rhs 0).2 0) as [E|E]; simpl.
  - apply H2 in E as [_ E]. by rewrite bool_decide_eq_true_2.
  - rewrite bool_decide_eq_false_2; [done|]. intros He. by apply E, H2.
Qed.

Lemma would_modify_subchunk_ok op lhs rhs :
  length lhs = length rhs →
  would_modify_subchunk op lhs rhs = negb (bool_decide (zip_with op lhs rhs = lhs)).
Proof.
  intros Hlen. unfold would_modify_subchunk. destruct (update_loop_spec op lhs rhs 0 Hlen) as [_ H2].
  f_equal. destruct (Z.eqb_spec (update_loop op lhs rhs 0).2 0) as [E|E].
  - apply H2 in E as [_ E]. by rewrite bool_decide_eq_true_2.
  - rewrite bool_decide_eq_false_2; [done|]. intros He. by apply E, H2.
Qed.

Lemma would_modify_from_ok op fuel : ∀ lhs rhs,
  length lhs = length rhs →
  would_modify_from fuel op lhs rhs = negb (bool_decide (zip_with op lhs rhs = lhs)).
Proof.
  induction fuel as [|f IH]; intros lhs rhs Hlen; cbn [would_modify_from]; [by apply would_modify_subchunk_ok|].
  destruct (Nat.leb_spec SUBCHUNK_LEN (length lhs)) as [Hle|];
    [|by apply would_modify_subchunk_ok].
  rewrite would_modify_subchunk_ok, IH by (rewrite ?length_take, ?length_drop; lia).
  rewrite <-zip_with_take, <-zip_with_drop.
  case_bool_decide as H1; simpl; [case_bool_decide as H2|]; simpl.
  - rewrite bool_decide_eq_true_2; [done|].
    rewrite <-(take_drop SUBCHUNK_LEN (zip_with op lhs rhs)), H1, H2. apply take_drop.
  - rewrite bool_decide_eq_false_2; [done|]. intros H. apply H2. by rewrite H.
  - rewrite bool_decide_eq_false_2; [done|]. intros H. apply H1. by rewrite H.
Qed.

Lemma would_modify_words_ok op lhs rhs :
  length lhs = length rhs →
  would_modify_words op lhs rhs = Ret (negb (bool_decide (zip_with op lhs rhs = lhs))).
Proof.
  intros Hlen. unfold would_modify_words. rewrite (proj2 (Nat.eqb_eq _ _) Hlen).
  by rewrite would_modify_from_ok.
Qed.

(** A word operation that works bit by bit. *)
Definition bitwise (op : Z → Z → Z) (f : bool → bool → bool) : Prop :=
  f false false = false ∧
  (∀ a b, word_ok a → word_ok b → word_ok (op a b)) ∧
  (∀ a b i, i < 64 → tb (op a b) i = f (tb a i) (tb b i)).

Lemma bitwise_or : bitwise Z.lor orb.
Proof. split_and!; [done|apply word_ok_lor|intros; apply tb_lor]. Qed.
Lemma bitwise_and : bitwise Z.land andb.
Proof. split_and!; [done|apply word_ok_land|intros; apply tb_land]. Qed.
Lemma bitwise_diff : bitwise (λ a b, Z.land a (word_not b)) (λ a b, a && negb b).
Proof.
  split_and!; [done| |].
  - intros. apply word_ok_land; [done|by apply word_ok_not].
  - intros a b i Hi. rewrite tb_land, tb_not. by destruct (Nat.ltb_spec i 64); [|lia].
Qed.

Lemma has_zip_with op f ws1 ws2 i :
  bitwise op f → length ws1 = length ws2 →
  has (zip_with op ws1 ws2) i = f (has ws1 i) (has ws2 i).
Proof.
  intros (Hf & _ & Hop) Hlen. unfold has, WORD_BITS. destruct (div_mod_64 i) as [_ Hr].
  generalize dependent (i mod 64). generalize (i / 64). intros q r Hr. rewrite lookup_zip_with.
  destruct (ws1 !! q) as [a|] eqn:E1; simpl.
  - apply lookup_lt_Some in E1. destruct (lookup_lt_is_Some_2 ws2 q) as [b ->]; [lia|]. simpl.
    by apply Hop.
  - apply lookup_ge_None in E1. assert (ws2 !! q = None) as -> by (apply lookup_ge_None; lia). done.
Qed.
Lemma words_ok_zip_with op f ws1 ws2 :
  bitwise op f → words_ok ws1 → words_ok ws2 → words_ok (zip_with op ws1 ws2).
Proof.
  intros (_ & Hop & _) H1 H2 w (i & a & b & -> & Ha & Hb)%elem_of_lookup_zip_with.
  apply Hop; [apply H1|apply H2]; by eapply list_elem_of_lookup_2.
Qed.

(** ** [clear_excess_bits_in_final_word] *)
Lemma has_snoc ws w i :
  has (ws ++ [w]) i = if i / 64 =? length ws then tb w (i mod 64) else has ws i.
Proof.
  unfold has, WORD_BITS. destruct (Nat.eqb_spec (i / 64) (length ws)) as [->|Hne].
  - by rewrite list_lookup_middle.
  - destruct (decide (i / 64 < length ws)).
    + by rewrite lookup_app_l.
    + assert (ws !! (i / 64) = None) as -> by (apply lookup_ge_None; lia).
      assert ((ws ++ [w]) !! (i / 64) = None) as ->; [|done].
      apply lookup_ge_None. rewrite length_app. cbn [length]. lia.
Qed.

Lemma clear_excess_ok domain ws :
  length ws = num_words domain → words_ok ws → ∃ ws',
    clear_excess_bits_in_final_word domain ws = Ret ws' ∧ length ws' = length ws ∧ words_ok ws' ∧
    ∀ i, has ws' i = has ws i && (i <? domain).
Proof.
  intros Hlen Hok. unfold clear_excess_bits_in_final_word, WORD_BITS.
  assert (Hdom := div_mod_64 domain). unfold num_words, div_ceil, WORD_BITS in Hlen.
  destruct (Nat.ltb_spec 0 (domain mod 64)) as [Hm|Hm].
  - rewrite (proj2 (Nat.eqb_neq _ 0)) in Hlen by lia.
    destruct (vec_pop ws) as [[w ws0]|] eqn:E; [|apply vec_pop_None in E as ->; simpl in Hlen; lia].
    apply vec_pop_Some in E as ->. rewrite length_app in Hlen. simpl in Hlen. unfold vec_push.
    set (w' := Z.land w _).
    assert (Hw' : word_ok w').
    { apply word_ok_land; [apply Hok, elem_of_app; right; by left|]. apply word_ok_bits.
      - rewrite Z.shiftl_1_l. lia.
      - intros i Hi. rewrite tb_ones. apply Nat.ltb_ge. lia. }
    eexists. split; [done|]. rewrite !length_app. split; [done|]. split.
    + intros x [Hx| ->%list_elem_of_singleton]%elem_of_app; [|done]. apply Hok, elem_of_app. by left.
    + intros i. rewrite !has_snoc. assert (Hi := div_mod_64 i).
      destruct (Nat.eqb_spec (i / 64) (length ws0)) as [E|E].
      * unfold w'. rewrite tb_land, tb_ones. f_equal.
        destruct (Nat.ltb_spec (i mod 64) (domain mod 64)), (Nat.ltb_spec i domain); lia || done.
      * destruct (has ws0 i) eqn:Eh; [|done]. apply has_bound in Eh. symmetry. apply Nat.ltb_lt. lia.
  - eexists. split; [done|]. split; [done|]. split; [done|]. intros i.
    rewrite (proj2 (Nat.eqb_eq _ 0)) in Hlen by lia.
    destruct (has ws i) eqn:Eh; [|done]. apply has_bound in Eh. symmetry. apply Nat.ltb_lt.
    assert (Hi := div_mod_64 i). lia.
Qed.

(** ** [BitIter] *)
Definition bits_of (w : Z) : list nat := List.filter (tb w) (seq 0 64).
(** The indices of the bits of [ws], the first word having index [q]. *)
Fixpoint bits_from (q : nat) (ws : list Z) : list nat :=
  match ws with
  | [] => []
  | w :: ws' => (Nat.add (64 * q) <$> bits_of w) ++ bits_from (S q) ws'
  end.

Lemma elem_of_bits_of w i : i ∈ bits_of w ↔ i < 64 ∧ tb w i = true.
Proof. unfold bits_of. rewrite elem_of_filter_b, elem_of_seq. naive_solver lia. Qed.
Lemma bits_of_0 : bits_of 0 = [].
Proof. reflexivity. Qed.
Lemma length_bits_of w : length (bits_of w) = word_count_ones w.
Proof. unfold bits_of, word_count_ones. reflexivity. Qed.
Lemma length_bits_of_le w : length (bits_of w) ≤ 64.
Proof. unfold bits_of. rewrite <-(length_seq 0 64) at 2. apply List.filter_length_le. Qed.

Lemma List_filter_none {A} (f : A → bool) l : (∀ x, x ∈ l → f x = false) → List.filter f l = [].
Proof.
  induction l as [|x l IH]; intros Hf; simpl; [done|].
  rewrite Hf by (by left). apply IH. intros y Hy. apply Hf. by right.
Qed.
Lemma List_filter_ext {A} (f g : A → bool) l :
  (∀ x, x ∈ l → f x = g x) → List.filter f l = List.filter g l.
Proof.
  induction l as [|x l IH]; intros Hf; simpl; [done|].
  rewrite Hf by (by left). rewrite IH; [done|]. intros y Hy. apply Hf. by right.
Qed.

(** Clearing the lowest set bit removes the first index. *)
Lemma bits_of_clear_lowest w :
  word_ok w → w ≠ 0%Z →
  let k := trailing_zeros w in
  let w' := Z.lxor w (Z.shiftl 1 (Z.of_nat k)) in
  k < 64 ∧ word_ok w' ∧ bits_of w = k :: bits_of w'.
Proof.
  intros Hw Hne k w'. destruct (word_bit_exists w Hw Hne) as (j & Hj & Htj).
  destruct (trailing_zeros_spec w j Hj Htj) as (Hk & Htk & Hlow). fold k in Hk, Htk, Hlow.
  split; [done|]. split; [by apply word_ok_lxor; [|apply word_ok_bit]|].
  assert (Hseq : seq 0 64 = seq 0 k ++ k :: seq (S k) (63 - k)).
  { replace 64 with (k + S (63 - k)) by lia. rewrite seq_app. done. }
  assert (Hw' : ∀ i, tb w' i = xorb (tb w i) (i =? k)) by (intros; unfold w'; by rewrite tb_lxor, tb_bit).
  unfold bits_of. rewrite Hseq, !List.filter_app. cbn [List.filter].
  rewrite Htk, Hw', Htk, Nat.eqb_refl. cbn [xorb].
  rewrite !(List_filter_none _ (seq 0 k)).
  - simpl. f_equal. apply List_filter_ext. intros x Hx%elem_of_seq. rewrite Hw'.
    rewrite (proj2 (Nat.eqb_neq x k)) by lia. by rewrite xorb_false_r.
  - intros x Hx%elem_of_seq. rewrite Hw', Hlow by lia. rewrite (proj2 (Nat.eqb_neq x k)) by lia. done.
  - intros x Hx%elem_of_seq. apply Hlow. lia.
Qed.

#[local] Opaque bits_of word_count_ones.

(** The items left in an iterator whose current word has index [q]. *)
Definition items (w : Z) (q : nat) (ws : list Z) : list nat :=
  (Nat.add (64 * q) <$> bits_of w) ++ bits_from (S q) ws.

Lemma items_0 q ws : items 0 q ws = bits_from (S q) ws.
Proof. unfold items. by rewrite bits_of_0. Qed.
Lemma items_lowest w w' k q ws :
  bits_of w = k :: bits_of w' →
  items w q ws = k + Z.to_nat (64 * Z.of_nat q) :: items w' q ws.
Proof. intros H. unfold items. rewrite H. simpl. f_equal. lia. Qed.

Lemma bit_iter_advance_ok ws : ∀ w q,
  word_ok w → words_ok ws → (64 * Z.of_nat (q + 1 + length ws) ≤ 2 ^ 64)%Z →
  match bit_iter_advance w (64 * Z.of_nat q) ws with
  | None => items w q ws = []
  | Some (i, it') => ∃ w' q' ws',
      it' = mkBitIter w' (64 * Z.of_nat q') ws' ∧ items w q ws = i :: items w' q' ws' ∧
      word_ok w' ∧ words_ok ws' ∧ (64 * Z.of_nat (q' + 1 + length ws') ≤ 2 ^ 64)%Z
  end.
Proof.
  induction ws as [|w1 ws IH]; intros w q Hw Hws Hb; cbn [bit_iter_advance];
    (destruct (Z.eqb_spec w 0) as [->|Hne]; cbn [negb]).
  - by rewrite items_0.
  - destruct (bits_of_clear_lowest w Hw Hne) as (Hk & Hw' & Hbits).
    eexists _, q, []. split; [reflexivity|].
    split; [by apply items_lowest|]. split; [assumption|]. split; assumption.
  - replace (as_u 64 (64 * Z.of_nat q + 64)) with (64 * Z.of_nat (S q))%Z.
    + specialize (IH w1 (S q)). rewrite items_0. change (bits_from (S q) (w1 :: ws)) with (items w1 (S q) ws).
      apply IH; [apply Hws; by left|intros x Hx; apply Hws; by right|].
      simpl length in Hb. lia.
    + rewrite as_u_id; [lia|]. simpl length in Hb. lia.
  - destruct (bits_of_clear_lowest w Hw Hne) as (Hk & Hw' & Hbits).
    eexists _, q, (w1 :: ws). split; [reflexivity|].
    split; [by apply items_lowest|]. split; [assumption|]. split; assumption.
Qed.

Lemma bit_iter_collect_ok fuel : ∀ w q ws,
  word_ok w → words_ok ws → (64 * Z.of_nat (q + 1 + length ws) ≤ 2 ^ 64)%Z →
  length (items w q ws) < fuel →
  bit_iter_collect fuel (mkBitIter w (64 * Z.of_nat q) ws) = items w q ws.
Proof.
  induction fuel as [|f IH]; intros w q ws Hw Hws Hb Hf; [lia|].
  pose proof (bit_iter_advance_ok ws w q Hw Hws Hb) as Hadv. simpl. unfold bit_iter_next.
  cbn [it_word it_offset it_iter].
  destruct (bit_iter_advance w (64 * Z.of_nat q) ws) as [[i it']|]; [|done].
  destruct Hadv as (w' & q' & ws' & -> & Hit & ? & ? & ?). rewrite Hit in Hf |- *.
  rewrite IH; [done..|]. simpl in Hf. lia.
Qed.

Lemma count_ones_cons w ws : count_ones (w :: ws) = word_count_ones w + count_ones ws.
Proof. reflexivity. Qed.
Lemma length_bits_from ws : ∀ q, length (bits_from q ws) = count_ones ws ∧ count_ones ws ≤ 64 * length ws.
Proof.
  induction ws as [|w ws IH]; intros q; [done|]. cbn [bits_from length].
  rewrite length_app, length_fmap, count_ones_cons, length_bits_of. destruct (IH (S q)) as [-> Hle].
  split; [reflexivity|]. pose proof (length_bits_of_le w) as Hw. rewrite length_bits_of in Hw. lia.
Qed.

Lemma words_iter_ok ws :
  words_ok ws → (64 * Z.of_nat (length ws) ≤ 2 ^ 64)%Z → words_iter ws = bits_from 0 ws.
Proof.
  intros Hws Hb. unfold words_iter. destruct ws as [|w ws]; [done|].
  change (bits_from 0 (w :: ws)) with (items w 0 ws).
  assert (Hlen : length (items w 0 ws) < S (length (w :: ws) * WORD_BITS)).
  { change (items w 0 ws) with (bits_from 0 (w :: ws)).
    destruct (length_bits_from (w :: ws) 0) as [-> ?]. unfold WORD_BITS. lia. }
  rewrite <-(bit_iter_collect_ok (S (length (w :: ws) * WORD_BITS)) w 0 ws).
  - reflexivity.
  - apply Hws. by left.
  - intros x Hx. apply Hws. by right.
  - simpl length in Hb. lia.
  - assumption.
Qed.

Lemma has_cons_low w ws r : r < 64 → has (w :: ws) r = tb w r.
Proof. intros Hr. unfold has, WORD_BITS. by rewrite Nat.div_small, Nat.mod_small by done. Qed.
Lemma has_cons_high w ws i : has (w :: ws) (i + 64) = has ws i.
Proof.
  unfold has, WORD_BITS. replace (i + 64) with (i + 1 * 64) by lia.
  rewrite Nat.div_add, Nat.Div0.mod_add by lia. by rewrite Nat.add_1_r.
Qed.
Lemma elem_of_bits_from ws : ∀ q i,
  i ∈ bits_from q ws ↔ 64 * q ≤ i ∧ has ws (i - 64 * q) = true.
Proof.
  induction ws as [|w ws IH]; intros q i; cbn [bits_from].
  { rewrite elem_of_nil. split; [done|by intros [_ ?]]. }
  rewrite elem_of_app, IH, list_elem_of_fmap. setoid_rewrite elem_of_bits_of. split.
  - intros [(r & -> & Hr & Ht)|[Hle Hh]].
    + split; [lia|]. replace (64 * q + r - 64 * q) with r by lia. by rewrite has_cons_low.
    + split; [lia|]. replace (i - 64 * q) with ((i - 64 * S q) + 64) by lia. by rewrite has_cons_high.
  - intros [Hle Hh]. destruct (decide (i < 64 * S q)) as [Hlt|Hge].
    + left. exists (i - 64 * q). rewrite has_cons_low in Hh by lia. split; [lia|]. split; [lia|done].
    + right. split; [lia|]. replace (i - 64 * q) with ((i - 64 * S q) + 64) in Hh by lia.
      by rewrite has_cons_high in Hh.
Qed.

Lemma StronglySorted_lt_seq s n : StronglySorted lt (seq s n).
Proof.
  revert s. induction n as [|n IH]; intros s; simpl; constructor; [apply IH|].
  apply List.Forall_forall. intros x [? _]%in_seq. lia.
Qed.
Lemma StronglySorted_filter {A} (R : A → A → Prop) (f : A → bool) l :
  StronglySorted R l → StronglySorted R (List.filter f l).
Proof.
  induction 1 as [|x l Hl IH Hx]; simpl; [constructor|]. destruct (f x); [|done].
  constructor; [done|]. apply List.Forall_forall. intros y [Hy _]%filter_In.
  rewrite List.Forall_forall in Hx. auto.
Qed.
Lemma StronglySorted_lt_app l1 l2 :
  StronglySorted lt l1 → StronglySorted lt l2 → (∀ x y, x ∈ l1 → y ∈ l2 → x < y) →
  StronglySorted lt (l1 ++ l2).
Proof.
  induction 1 as [|x l Hl IH Hx]; intros H2 Hxy; simpl; [done|].
  constructor; [apply IH; [done|]; intros; apply Hxy; [by right|done]|].
  apply List.Forall_forall. intros y Hy%list_elem_of_In. rewrite List.Forall_forall in Hx.
  apply elem_of_app in Hy as [Hy|Hy]; [by apply Hx, list_elem_of_In|apply Hxy; [by left|done]].
Qed.
Lemma StronglySorted_lt_add k l : StronglySorted lt l → StronglySorted lt (Nat.add k <$> l).
Proof.
  induction 1 as [|x l Hl IH Hx]; simpl; constructor; [done|].
  apply List.Forall_forall. intros y Hy%list_elem_of_In. apply list_elem_of_fmap in Hy as (z & -> & Hz).
  rewrite List.Forall_forall in Hx. apply list_elem_of_In, Hx in Hz. lia.
Qed.

#[local] Transparent bits_of.
Lemma bits_of_sorted w : StronglySorted lt (bits_of w).
Proof. unfold bits_of. apply StronglySorted_filter, StronglySorted_lt_seq. Qed.
#[local] Opaque bits_of.
Lemma bits_from_sorted ws : ∀ q, StronglySorted lt (bits_from q ws).
Proof.
  induction ws as [|w ws IH]; intros q; simpl; [constructor|].
  apply StronglySorted_lt_app; [|apply IH|].
  - apply StronglySorted_lt_add, bits_of_sorted.
  - intros x y (r & -> & [Hr _]%elem_of_bits_of)%list_elem_of_fmap [Hy _]%elem_of_bits_from. lia.
Qed.

(** The iterator lists exactly the set bits, in ascending order, and
    [count_ones] is how many there are. *)
Lemma words_iter_spec ws :
  words_ok ws → (64 * Z.of_nat (length ws) ≤ 2 ^ 64)%Z →
  StronglySorted lt (words_iter ws) ∧ (∀ i, i ∈ words_iter ws ↔ has ws i = true) ∧
  length (words_iter ws) = count_ones ws.
Proof.
  intros Hok Hb. rewrite words_iter_ok by done. split; [apply bits_from_sorted|]. split.
  - intros i. rewrite elem_of_bits_from. replace (i - 64 * 0) with i by lia.
    split; [by intros [_ ?]|]. intros ?. split; [lia|done].
  - apply length_bits_from.
Qed.
