(* ===== verification/BitSet.v ===== *)
(** * Bit sets: the interface and the dense implementations

    [rustc_index/src/bit_set.rs]: what every bit set promises ([BitSetOps] and
    [BitSetLaws]), and the operations of [DenseBitSet] and [GrowableBitSet].
    A failed [assert!] and an index out of bounds are [Panic]. *)
From S2P Require Import Prelude BitWords.
From Stdlib Require Import Sorting.Sorted.

(** ** The interface *)
(** The operations [DenseBitSet], [ChunkedBitSet] and [MixedBitSet] share, and
    the set a value stands for. *)
Record BitSetOps (S : Type) := {
  bs_wf : S → Prop;
  bs_domain : S → nat;
  bs_mem : S → nat → bool;
  bs_contains : S → nat → outcome bool;
  bs_insert : S → nat → outcome (S * bool);
  bs_remove : S → nat → outcome (S * bool);
  bs_insert_all : S → outcome S;
  bs_clear : S → S;
  bs_is_empty : S → bool;
  bs_iter : S → outcome (list nat);
  bs_union : S → S → outcome (S * bool);
  bs_subtract : S → S → outcome (S * bool) }.
Arguments bs_wf {S}. Arguments bs_domain {S}. Arguments bs_mem {S}. Arguments bs_contains {S}.
Arguments bs_insert {S}. Arguments bs_remove {S}. Arguments bs_insert_all {S}. Arguments bs_clear {S}.
Arguments bs_is_empty {S}. Arguments bs_iter {S}. Arguments bs_union {S}. Arguments bs_subtract {S}.

(** A well-formed result over the same domain that stands for [f]. *)
Definition bs_becomes {S} (O : BitSetOps S) (s s' : S) (f : nat → bool) : Prop :=
  bs_wf O s' ∧ bs_domain O s' = bs_domain O s ∧ ∀ i, bs_mem O s' i = f i.

Class BitSetLaws {S} (O : BitSetOps S) : Prop := {
  bs_mem_lt s i : bs_wf O s → bs_mem O s i = true → i < bs_domain O s;
  bs_ext s t : bs_wf O s → bs_wf O t → bs_domain O s = bs_domain O t →
    (∀ i, bs_mem O s i = bs_mem O t i) → s = t;
  bs_contains_ok s i : bs_wf O s → i < bs_domain O s → bs_contains O s i = Ret (bs_mem O s i);
  bs_contains_panics s i : bs_domain O s ≤ i → bs_contains O s i = Panic;
  bs_insert_ok s i : bs_wf O s → i < bs_domain O s → ∃ s',
    bs_insert O s i = Ret (s', negb (bs_mem O s i)) ∧
    bs_becomes O s s' (λ j, (j =? i) || bs_mem O s j);
  bs_remove_ok s i : bs_wf O s → i < bs_domain O s → ∃ s',
    bs_remove O s i = Ret (s', bs_mem O s i) ∧
    bs_becomes O s s' (λ j, negb (j =? i) && bs_mem O s j);
  bs_insert_all_ok s : bs_wf O s → ∃ s',
    bs_insert_all O s = Ret s' ∧ bs_becomes O s s' (λ j, j <? bs_domain O s);
  bs_clear_ok s : bs_wf O s → bs_becomes O s (bs_clear O s) (λ _, false);
  bs_is_empty_ok s : bs_wf O s → bs_is_empty O s = true ↔ ∀ i, bs_mem O s i = false;
  bs_iter_ok s : bs_wf O s → ∃ l, bs_iter O s = Ret l ∧ StronglySorted lt l ∧
    ∀ i, i ∈ l ↔ bs_mem O s i = true;
  bs_union_ok s t : bs_wf O s → bs_wf O t → bs_domain O s = bs_domain O t → ∃ s' c,
    bs_union O s t = Ret (s', c) ∧ bs_becomes O s s' (λ i, bs_mem O s i || bs_mem O t i) ∧
    (c = true ↔ s' ≠ s);
  bs_subtract_ok s t : bs_wf O s → bs_wf O t → bs_domain O s = bs_domain O t → ∃ s' c,
    bs_subtract O s t = Ret (s', c) ∧ bs_becomes O s s' (λ i, bs_mem O s i && negb (bs_mem O t i)) ∧
    (c = true ↔ s' ≠ s) }.

(** ** [DenseBitSet] *)
Record DenseBitSet := mkDense { domain_size : nat; words : list Z }.

Definition inclusive_start_end (range : RangeBounds nat) (domain : nat) : outcome (option (nat * nat)) :=
  let start := match start_bound range with
               | Included start => start | Excluded start => start + 1 | Unbounded => 0 end in
  let check (end_ : nat) :=
    if negb (end_ <? domain) then Panic
    else if end_ <? start then Ret None else Ret (Some (start, end_)) in
  match end_bound range with
  | Included end_ => check end_
  | Excluded end_ => match end_ with O => Ret None | S end_ => check end_ end
  | Unbounded => match domain with O => Panic | S d => check d end
  end.

(** [self.words[i] = w], [self.words[i] |= m] *)
Definition set_word (ws : list Z) (i : nat) (w : Z) : outcome (list Z) :=
  if i <? length ws then Ret (<[i := w]> ws) else Panic.
Definition or_word (ws : list Z) (i : nat) (m : Z) : outcome (list Z) :=
  w ← unwrap (ws !! i); Ret (<[i := Z.lor w m]> ws).

Module Dense.
Definition new_empty (domain_size : nat) : DenseBitSet :=
  mkDense domain_size (replicate (num_words domain_size) 0%Z).

Definition with_words (s : DenseBitSet) (ws : list Z) : DenseBitSet := mkDense (domain_size s) ws.

Definition clear_excess_bits (s : DenseBitSet) : outcome DenseBitSet :=
  ws ← clear_excess_bits_in_final_word (domain_size s) (words s); Ret (with_words s ws).

Definition new_filled (domain_size : nat) : outcome DenseBitSet :=
  clear_excess_bits (mkDense domain_size (replicate (num_words domain_size) (word_not 0))).

Definition clear (s : DenseBitSet) : DenseBitSet :=
  with_words s (replicate (length (words s)) 0%Z).

Definition count (s : DenseBitSet) : nat := count_ones (words s).

Definition contains (s : DenseBitSet) (elem : nat) : outcome bool :=
  if elem <? domain_size s then
    let '(word_index, mask) := word_index_and_mask elem in
    w ← unwrap (words s !! word_index); Ret (negb (Z.land w mask =? 0)%Z)
  else Panic.

Definition superset (s other : DenseBitSet) : outcome bool :=
  if domain_size s =? domain_size other then
    Ret (forallb (λ p : Z * Z, (Z.land p.1 p.2 =? p.2)%Z) (zip (words s) (words other)))
  else Panic.

Definition is_empty (s : DenseBitSet) : bool := forallb (λ a, (a =? 0)%Z) (words s).

Definition insert (s : DenseBitSet) (elem : nat) : outcome (DenseBitSet * bool) :=
  if elem <? domain_size s then
    let '(word_index, mask) := word_index_and_mask elem in
    word ← unwrap (words s !! word_index);
    let new_word := Z.lor word mask in
    Ret (with_words s (<[word_index := new_word]> (words s)), negb (new_word =? word)%Z)
  else Panic.

Definition remove (s : DenseBitSet) (elem : nat) : outcome (DenseBitSet * bool) :=
  if elem <? domain_size s then
    let '(word_index, mask) := word_index_and_mask elem in
    word ← unwrap (words s !! word_index);
    let new_word := Z.land word (word_not mask) in
    Ret (with_words s (<[word_index := new_word]> (words s)), negb (new_word =? word)%Z)
  else Panic.

Definition insert_all (s : DenseBitSet) : outcome DenseBitSet :=
  clear_excess_bits (with_words s (replicate (length (words s)) (word_not 0))).

Definition insert_range (s : DenseBitSet) (elems : RangeBounds nat) : outcome DenseBitSet :=
  r ← inclusive_start_end elems (domain_size s);
  match r with
  | None => Ret s
  | Some (start, end_) =>
      let '(start_word_index, start_mask) := word_index_and_mask start in
      let '(end_word_index, end_mask) := word_index_and_mask end_ in
      ws ← ofold (λ ws i, set_word ws i (word_not 0)) (words s)
             (seq (start_word_index + 1) (end_word_index - (start_word_index + 1)));
      if negb (start_word_index =? end_word_index) then
        ws ← or_word ws start_word_index (word_not (start_mask - 1));
        ws ← or_word ws end_word_index (Z.lor end_mask (end_mask - 1));
        Ret (with_words s ws)
      else
        ws ← or_word ws start_word_index (Z.lor end_mask (end_mask - start_mask));
        Ret (with_words s ws)
  end.

Definition contains_any (s : DenseBitSet) (elems : RangeBounds nat) : outcome bool :=
  r ← inclusive_start_end elems (domain_size s);
  match r with
  | None => Ret false
  | Some (start, end_) =>
      let '(start_word_index, start_mask) := word_index_and_mask start in
      let '(end_word_index, end_mask) := word_index_and_mask end_ in
      start_word ← unwrap (words s !! start_word_index);
      if start_word_index =? end_word_index then
        Ret (negb (Z.land start_word (Z.lor end_mask (end_mask - start_mask)) =? 0)%Z)
      else if negb (Z.land start_word (word_not (start_mask - 1)) =? 0)%Z then Ret true
      else if start_word_index + 1 <=? end_word_index then
        if end_word_index <=? length (words s) then
          if existsb (λ w, negb (w =? 0)%Z)
               (take (end_word_index - (start_word_index + 1)) (drop (start_word_index + 1) (words s)))
          then Ret true
          else
            end_word ← unwrap (words s !! end_word_index);
            Ret (negb (Z.land end_word (Z.lor end_mask (end_mask - 1)) =? 0)%Z)
        else Panic
      else Ret false
  end.

Definition iter (s : DenseBitSet) : list nat := words_iter (words s).

(** The [loop] of [first_set_at_or_after], over the words after the current one. *)
Fixpoint first_set_from (word_index : nat) (word : Z) (rest : list Z) : option nat :=
  if negb (word =? 0)%Z then Some (WORD_BITS * word_index + trailing_zeros word)
  else
    match rest with
    | [] => None
    | w :: rest' => first_set_from (S word_index) w rest'
    end.

Definition first_set_at_or_after (s : DenseBitSet) (elem : nat) : outcome (option nat) :=
  if elem <? domain_size s then
    let '(word_index, mask) := word_index_and_mask elem in
    w ← unwrap (words s !! word_index);
    Ret (first_set_from word_index (Z.land w (word_not (mask - 1))) (drop (S word_index) (words s)))
  else Panic.

(** [slice.iter().rposition(p)] *)
Fixpoint rposition {A} (p : A → bool) (l : list A) : option nat :=
  match l with
  | [] => None
  | x :: l' =>
      match rposition p l' with
      | Some i => Some (S i)
      | None => if p x then Some 0 else None
      end
  end.

Definition last_set_in (s : DenseBitSet) (range : RangeBounds nat) : outcome (option nat) :=
  r ← inclusive_start_end range (domain_size s);
  match r with
  | None => Ret None
  | Some (start, end_) =>
      let start_word_index := (word_index_and_mask start).1 in
      let '(end_word_index, end_mask) := word_index_and_mask end_ in
      w ← unwrap (words s !! end_word_index);
      let end_word := Z.land w (Z.lor end_mask (end_mask - 1)) in
      let pos := max_bit end_word + WORD_BITS * end_word_index in
      if negb (end_word =? 0)%Z && (start <=? pos) then Ret (Some pos)
      else if (start_word_index <=? end_word_index) && (end_word_index <=? length (words s)) then
        match rposition (λ w, negb (w =? 0)%Z)
                (take (end_word_index - start_word_index) (drop start_word_index (words s))) with
        | Some offset =>
            let word_idx := start_word_index + offset in
            start_word ← unwrap (words s !! word_idx);
            let pos := max_bit start_word + WORD_BITS * word_idx in
            Ret (if start <=? pos then Some pos else None)
        | None => Ret None
        end
      else Panic
  end.

(** [BitRelations] *)
Definition relate (op : Z → Z → Z) (s other : DenseBitSet) : outcome (DenseBitSet * bool) :=
  if domain_size s =? domain_size other then
    r ← update_words op (words s) (words other); Ret (with_words s r.1, r.2)
  else Panic.
Definition union : DenseBitSet → DenseBitSet → outcome (DenseBitSet * bool) := relate Z.lor.
Definition subtract : DenseBitSet → DenseBitSet → outcome (DenseBitSet * bool) :=
  relate (λ a b, Z.land a (word_not b)).
Definition intersect : DenseBitSet → DenseBitSet → outcome (DenseBitSet * bool) := relate Z.land.

Definition union_not (s other : DenseBitSet) : outcome DenseBitSet :=
  if domain_size s =? domain_size other then
    r ← update_words (λ a b, Z.lor a (word_not b)) (words s) (words other);
    clear_excess_bits (with_words s r.1)
  else Panic.
End Dense.

(** ** [GrowableBitSet] *)
Module Growable.
Definition ensure (s : DenseBitSet) (min_domain_size : nat) : DenseBitSet :=
  let d := if domain_size s <? min_domain_size then min_domain_size else domain_size s in
  let min_num_words := num_words min_domain_size in
  mkDense d (if length (words s) <? min_num_words
             then words s ++ replicate (min_num_words - length (words s)) 0%Z else words s).

Definition new_empty : DenseBitSet := Dense.new_empty 0.
Definition with_capacity (capacity : nat) : DenseBitSet := Dense.new_empty capacity.

Definition insert (s : DenseBitSet) (elem : nat) : outcome (DenseBitSet * bool) :=
  Dense.insert (ensure s (elem + 1)) elem.
Definition remove (s : DenseBitSet) (elem : nat) : outcome (DenseBitSet * bool) :=
  Dense.remove (ensure s (elem + 1)) elem.
(** The range is a [Range]: [start..end_]. *)
Definition insert_range (s : DenseBitSet) (start end_ : nat) : outcome DenseBitSet :=
  Dense.insert_range (ensure s end_) (range_excl start end_).
Definition contains (s : DenseBitSet) (elem : nat) : bool :=
  let '(word_index, mask) := word_index_and_mask elem in
  match words s !! word_index with
  | Some word => negb (Z.land word mask =? 0)%Z
  | None => false
  end.
Definition contains_any (s : DenseBitSet) (start end_ : nat) : outcome bool :=
  if start <? domain_size s then Dense.contains_any s (range_excl start (end_ `min` domain_size s))
  else Ret false.
Definition clear : DenseBitSet → DenseBitSet := Dense.clear.
Definition count : DenseBitSet → nat := Dense.count.
Definition is_empty : DenseBitSet → bool := Dense.is_empty.
Definition iter : DenseBitSet → list nat := Dense.iter.
Definition len : DenseBitSet → nat := Dense.count.
End Growable.
