(* ===== verification/BitSetFacts.v ===== *)
(** * Dense and growable bit sets: the theorems *)
From S2P Require Import Prelude BitWords BitSet.
From Stdlib Require Import Sorting.Sorted.

Definition dense_wf (s : DenseBitSet) : Prop :=
  length (words s) = num_words (domain_size s) ∧ words_ok (words s) ∧
  (∀ i, has (words s) i = true → i < domain_size s) ∧ (Z.of_nat (domain_size s) < 2 ^ 64)%Z.

Definition dense_ops : BitSetOps DenseBitSet := {|
  bs_wf := dense_wf;
  bs_domain := domain_size;
  bs_mem s := has (words s);
  bs_contains := Dense.contains;
  bs_insert := Dense.insert;
  bs_remove := Dense.remove;
  bs_insert_all := Dense.insert_all;
  bs_clear := Dense.clear;
  bs_is_empty := Dense.is_empty;
  bs_iter s := Ret (Dense.iter s);
  bs_union := Dense.union;
  bs_subtract := Dense.subtract |}.

(** The word of an index, and its bit. *)
Lemma word_of ws i d :
  length ws = num_words d → i < d → ∃ w, ws !! (i / 64) = Some w ∧ has ws i = tb w (i mod 64).
Proof.
  intros Hlen Hi. destruct (lookup_lt_is_Some_2 ws (i / 64)) as [w Hw].
  { rewrite Hlen. by apply num_words_lt. }
  exists w. split; [done|]. unfold has, WORD_BITS. by rewrite Hw.
Qed.

Lemma word_index_and_mask_eq i :
  word_index_and_mask i = (i / 64, Z.shiftl 1 (Z.of_nat (i mod 64))).
Proof. done. Qed.

Lemma same_index i j : (i / 64 =? j / 64) && (i mod 64 =? j mod 64) = (i =? j).
Proof.
  destruct (Nat.eqb_spec i j) as [->|Hne]; [by rewrite !Nat.eqb_refl|].
  destruct (div_mod_64 i) as [Hi _], (div_mod_64 j) as [Hj _].
  destruct (Nat.eqb_spec (i / 64) (j / 64)), (Nat.eqb_spec (i mod 64) (j mod 64)); try done.
  exfalso. apply Hne. congruence.
Qed.

(** Replacing the word of [i] by a word that differs at bit [i mod 64] at most. *)
Lemma dense_update_word s i w w' (b : bool) :
  dense_wf s → i < domain_size s → words s !! (i / 64) = Some w → word_ok w' →
  (∀ k, k < 64 → tb w' k = if k =? i mod 64 then b else tb w k) →
  bs_becomes dense_ops s (Dense.with_words s (<[i / 64 := w']> (words s)))
    (λ j, if j =? i then b else has (words s) j).
Proof.
  intros (Hlen & Hok & Hin & Hd) Hi Hw Hw' Hbits.
  assert (Hlt := lookup_lt_Some _ _ _ Hw).
  assert (Hhas : ∀ j, has (<[i / 64 := w']> (words s)) j = if j =? i then b else has (words s) j).
  { intros j. rewrite has_insert by done. rewrite <-(same_index j i).
    destruct (Nat.eqb_spec (j / 64) (i / 64)) as [E|E]; simpl; [|done].
    rewrite Hbits by apply div_mod_64. destruct (_ =? _); [done|].
    unfold has, WORD_BITS. by rewrite E, Hw. }
  split; [|split; [done|exact Hhas]]. split_and!; simpl; [by rewrite length_insert|by apply words_ok_insert| |done].
  intros j. rewrite Hhas. destruct (Nat.eqb_spec j i) as [->|]; [done|apply Hin].
Qed.

Lemma bs_becomes_ext {S} (O : BitSetOps S) s s' f g :
  (∀ i, f i = g i) → bs_becomes O s s' f → bs_becomes O s s' g.
Proof. intros Hfg (? & ? & Hf). split_and!; [done..|]. intros i. by rewrite Hf. Qed.

Lemma dense_contains_ok s i :
  dense_wf s → i < domain_size s → Dense.contains s i = Ret (has (words s) i).
Proof.
  intros (Hlen & _) Hi. unfold Dense.contains. rewrite (proj2 (Nat.ltb_lt _ _) Hi), word_index_and_mask_eq.
  destruct (word_of (words s) i _ Hlen Hi) as (w & Hw & ->). rewrite Hw. simpl. by rewrite mask_test.
Qed.

Lemma word_at_ok s i w : dense_wf s → words s !! i = Some w → word_ok w.
Proof. intros (_ & Hok & _) Hw. apply Hok. by eapply list_elem_of_lookup_2. Qed.

Lemma word_neq w w' k : k < 64 → word_ok w → word_ok w' →
  (∀ j, j < 64 → j ≠ k → tb w' j = tb w j) → negb (w' =? w)%Z = xorb (tb w' k) (tb w k).
Proof.
  intros Hk Hw Hw' Hsame. destruct (xorb (tb w' k) (tb w k)) eqn:E.
  - apply negb_true_iff, Z.eqb_neq. intros ->. by rewrite xorb_nilpotent in E.
  - apply negb_false_iff, Z.eqb_eq, word_ext; [done..|]. intros j Hj.
    destruct (decide (j = k)) as [->|]; [by apply xorb_eq|by apply Hsame].
Qed.

Lemma dense_insert_ok s i :
  dense_wf s → i < domain_size s → ∃ s',
    Dense.insert s i = Ret (s', negb (has (words s) i)) ∧
    bs_becomes dense_ops s s' (λ j, (j =? i) || has (words s) j).
Proof.
  intros Hs Hi. unfold Dense.insert. rewrite (proj2 (Nat.ltb_lt _ _) Hi), word_index_and_mask_eq.
  destruct (word_of (words s) i _ (proj1 Hs) Hi) as (w & Hw & Hh). rewrite Hw. simpl.
  pose proof (word_at_ok s _ w Hs Hw) as Hwok. destruct (div_mod_64 i) as [_ Hr].
  set (w' := Z.lor w _). assert (Hw' : word_ok w') by (apply word_ok_lor; [done|by apply word_ok_bit]).
  assert (Hbits : ∀ k, k < 64 → tb w' k = if k =? i mod 64 then true else tb w k).
  { intros k _. unfold w'. rewrite tb_lor, tb_bit. destruct (_ =? _); [apply orb_true_r|apply orb_false_r]. }
  eexists. split.
  - f_equal. f_equal. rewrite (word_neq w w' (i mod 64)); [|done..|].
    + rewrite Hbits, Nat.eqb_refl, Hh by done. by destruct (tb w (i mod 64)).
    + intros j Hj Hne. rewrite Hbits by done. by rewrite (proj2 (Nat.eqb_neq _ _) Hne).
  - eapply bs_becomes_ext; [|by apply (dense_update_word s i w w' true)].
    intros j. simpl. by destruct (j =? i).
Qed.

Lemma dense_remove_ok s i :
  dense_wf s → i < domain_size s → ∃ s',
    Dense.remove s i = Ret (s', has (words s) i) ∧
    bs_becomes dense_ops s s' (λ j, negb (j =? i) && has (words s) j).
Proof.
  intros Hs Hi. unfold Dense.remove. rewrite (proj2 (Nat.ltb_lt _ _) Hi), word_index_and_mask_eq.
  destruct (word_of (words s) i _ (proj1 Hs) Hi) as (w & Hw & Hh). rewrite Hw. simpl.
  pose proof (word_at_ok s _ w Hs Hw) as Hwok. destruct (div_mod_64 i) as [_ Hr].
  set (w' := Z.land w _).
  assert (Hw' : word_ok w') by (apply word_ok_land; [done|by apply word_ok_not, word_ok_bit]).
  assert (Hbits : ∀ k, k < 64 → tb w' k = if k =? i mod 64 then false else tb w k).
  { intros k Hk. unfold w'. rewrite tb_land, tb_not, tb_bit, (proj2 (Nat.ltb_lt _ _) Hk).
    destruct (_ =? _); [apply andb_false_r|apply andb_true_r]. }
  eexists. split.
  - f_equal. f_equal. rewrite (word_neq w w' (i mod 64)); [|done..|].
    + rewrite Hbits, Nat.eqb_refl, Hh by done. by destruct (tb w (i mod 64)).
    + intros j Hj Hne. rewrite Hbits by done. by rewrite (proj2 (Nat.eqb_neq _ _) Hne).
  - eapply bs_becomes_ext; [|by apply (dense_update_word s i w w' false)].
    intros j. simpl. by destruct (j =? i).
Qed.

(** ** Whole-set operations *)
Lemma word_not_0 i : i < 64 → tb (word_not 0) i = true.
Proof. intros Hi. rewrite tb_not, tb_0. by rewrite (proj2 (Nat.ltb_lt _ _) Hi). Qed.
Lemma words_ok_replicate n w : word_ok w → words_ok (replicate n w).
Proof. intros Hw x Hx. apply elem_of_replicate in Hx as [-> _]. done. Qed.
Lemma has_replicate_0 n i : has (replicate n 0%Z) i = false.
Proof. by rewrite has_replicate, tb_0, andb_false_r. Qed.
Lemma has_replicate_ones d i : i < d → has (replicate (num_words d) (word_not 0)) i = true.
Proof.
  intros Hi. rewrite has_replicate. destruct (div_mod_64 i) as [_ Hr].
  by rewrite word_not_0, (proj2 (Nat.ltb_lt _ _) (num_words_lt d i Hi)).
Qed.

Lemma dense_clear_excess s :
  length (words s) = num_words (domain_size s) → words_ok (words s) →
  (Z.of_nat (domain_size s) < 2 ^ 64)%Z → ∃ s',
    Dense.clear_excess_bits s = Ret s' ∧ dense_wf s' ∧ domain_size s' = domain_size s ∧
    ∀ i, has (words s') i = has (words s) i && (i <? domain_size s).
Proof.
  intros Hlen Hok Hd. destruct (clear_excess_ok (domain_size s) (words s) Hlen Hok) as (ws & Hws & Hl & Hok' & Hh).
  unfold Dense.clear_excess_bits. rewrite Hws. simpl. eexists. split; [done|]. simpl.
  split; [|done]. split_and!; simpl; [congruence|done| |done].
  intros i. rewrite Hh, andb_true_iff. by intros [_ ?%Nat.ltb_lt].
Qed.

Lemma dense_new_empty_wf d : (Z.of_nat d < 2 ^ 64)%Z → dense_wf (Dense.new_empty d).
Proof.
  intros Hd. split_and!; simpl; [apply length_replicate|apply words_ok_replicate, word_ok_0| |done].
  intros i. by rewrite has_replicate_0.
Qed.

Lemma dense_new_filled_ok d : (Z.of_nat d < 2 ^ 64)%Z → ∃ s,
  Dense.new_filled d = Ret s ∧ dense_wf s ∧ domain_size s = d ∧ ∀ i, has (words s) i = (i <? d).
Proof.
  intros Hd. unfold Dense.new_filled.
  destruct (dense_clear_excess (mkDense d (replicate (num_words d) (word_not 0)))) as (s & -> & Hs & Hdom & Hh);
    simpl; [apply length_replicate|apply words_ok_replicate, word_ok_not, word_ok_0|done|].
  exists s. split_and!; [done..|]. intros i. rewrite Hh. simpl.
  destruct (Nat.ltb_spec i d); [by rewrite has_replicate_ones|apply andb_false_r].
Qed.

Lemma dense_insert_all_ok s :
  dense_wf s → ∃ s', Dense.insert_all s = Ret s' ∧ bs_becomes dense_ops s s' (λ j, j <? domain_size s).
Proof.
  intros (Hlen & Hok & Hin & Hd). unfold Dense.insert_all.
  destruct (dense_clear_excess (Dense.with_words s (replicate (length (words s)) (word_not 0))))
    as (s' & -> & Hs & Hdom & Hh); simpl.
  { by rewrite length_replicate. }
  { apply words_ok_replicate, word_ok_not, word_ok_0. }
  { done. }
  exists s'. split; [done|]. split_and!; [done..|]. intros i. simpl. rewrite Hh. simpl.
  destruct (Nat.ltb_spec i (domain_size s)); [by rewrite Hlen, has_replicate_ones|apply andb_false_r].
Qed.

Lemma words_zero_iff ws :
  words_ok ws → forallb (λ a, (a =? 0)%Z) ws = true ↔ ∀ i, has ws i = false.
Proof.
  intros Hok. rewrite forallb_forall. split.
  - intros H i. unfold has. destruct (ws !! (i / WORD_BITS)) as [w|] eqn:E; [|done].
    apply list_elem_of_lookup_2, list_elem_of_In in E. apply H, Z.eqb_eq in E as ->. apply tb_0.
  - intros H w Hw%list_elem_of_In. apply Z.eqb_eq. apply list_elem_of_lookup in Hw as [q Hq].
    destruct (decide (w = 0%Z)) as [|Hne]; [done|].
    destruct (word_bit_exists w) as (r & Hr & Ht); [apply Hok; by eapply list_elem_of_lookup_2|done|].
    specialize (H (64 * q + r)). rewrite (has_at ws q r w) in H by done. congruence.
Qed.

Lemma dense_ext s t :
  dense_wf s → dense_wf t → domain_size s = domain_size t →
  (∀ i, has (words s) i = has (words t) i) → s = t.
Proof.
  intros (Hl & Hok & _) (Hl' & Hok' & _) Hd Heq. destruct s as [d ws], t as [d' ws']. simpl in *. subst d'.
  f_equal. apply words_ext; [congruence|done..].
Qed.

Lemma dense_relate_ok op f s t :
  bitwise op f →
  (∀ a b, f a b = true → a = true ∨ b = true) →
  dense_wf s → dense_wf t → domain_size s = domain_size t → ∃ s' c,
    Dense.relate op s t = Ret (s', c) ∧
    bs_becomes dense_ops s s' (λ i, f (has (words s) i) (has (words t) i)) ∧ (c = true ↔ s' ≠ s).
Proof.
  intros Hop Hsub (Hl & Hok & Hin & Hd) (Hl' & Hok' & Hin' & _) Hdom. unfold Dense.relate.
  rewrite (proj2 (Nat.eqb_eq _ _) Hdom), update_words_ok by congruence. simpl.
  eexists _, _. split; [done|]. split.
  - split; [|split; [done|]].
    + split_and!; simpl; [rewrite length_zip_with, Hl, Hl', <-Hdom; lia|by eapply words_ok_zip_with| |done].
      intros i. rewrite (has_zip_with op f) by (done || congruence).
      intros [?|?]%Hsub; [by apply Hin|rewrite Hdom; by apply Hin'].
    + intros i. simpl. by rewrite (has_zip_with op f) by (done || congruence).
  - rewrite negb_true_iff, bool_decide_eq_false. destruct s as [d ws]. simpl. unfold Dense.with_words. simpl.
    split; [intros H [= ?]; by apply H|]. intros H E. apply H. by rewrite E.
Qed.

Lemma num_words_bound d : (Z.of_nat d < 2 ^ 64)%Z → (64 * Z.of_nat (num_words d) ≤ 2 ^ 64)%Z.
Proof.
  intros Hd. unfold num_words, div_ceil, WORD_BITS. destruct (div_mod_64 d).
  assert (2 ^ 64 = 64 * 2 ^ 58)%Z as Hp by done. rewrite Hp in *.
  destruct (Nat.eqb_spec (d mod 64) 0); lia.
Qed.

Lemma dense_iter_ok s :
  dense_wf s → StronglySorted lt (Dense.iter s) ∧
  (∀ i, i ∈ Dense.iter s ↔ has (words s) i = true) ∧ length (Dense.iter s) = Dense.count s.
Proof.
  intros (Hl & Hok & _ & Hd). apply words_iter_spec; [done|]. rewrite Hl. by apply num_words_bound.
Qed.

#[export] Instance dense_laws : BitSetLaws dense_ops.
Proof.
  split; simpl.
  - intros s i (_ & _ & H & _). apply H.
  - apply dense_ext.
  - apply dense_contains_ok.
  - intros s i Hi. unfold Dense.contains. by rewrite (proj2 (Nat.ltb_ge _ _) Hi).
  - apply dense_insert_ok.
  - apply dense_remove_ok.
  - apply dense_insert_all_ok.
  - intros s (Hl & Hok & Hin & Hd). split; [|split; [done|]].
    + split_and!; simpl; [by rewrite length_replicate|apply words_ok_replicate, word_ok_0| |done].
      intros i. by rewrite has_replicate_0.
    + intros i. simpl. apply has_replicate_0.
  - intros s (_ & Hok & _). by apply words_zero_iff.
  - intros s Hs. destruct (dense_iter_ok s Hs) as (? & ? & _). by eexists.
  - intros s t Hs Ht Hd. apply (dense_relate_ok Z.lor orb); [apply bitwise_or| |done..]. intros [] []; auto.
  - intros s t Hs Ht Hd.
    apply (dense_relate_ok (λ a b, Z.land a (word_not b)) (λ a b, a && negb b)); [apply bitwise_diff| |done..].
    intros [] []; auto.
Qed.

Lemma dense_superset_ok s t :
  dense_wf s → dense_wf t → domain_size s = domain_size t → ∃ b,
    Dense.superset s t = Ret b ∧ (b = true ↔ ∀ i, has (words t) i = true → has (words s) i = true).
Proof.
  intros (Hl & Hok & Hin & _) (Hl' & Hok' & _) Hd. unfold Dense.superset.
  rewrite (proj2 (Nat.eqb_eq _ _) Hd). eexists. split; [done|]. rewrite forallb_forall.
  assert (Hlen : length (words s) = length (words t)) by congruence. split.
  - intros H i Hi. assert (Hq := has_bound _ _ Hi). unfold has, WORD_BITS in *.
    destruct (lookup_lt_is_Some_2 (words s) (i / 64)) as [a Ha]; [lia|].
    destruct (lookup_lt_is_Some_2 (words t) (i / 64)) as [b Hb]; [lia|]. rewrite Ha. rewrite Hb in Hi.
    assert (Hab : Z.land a b = b).
    { apply Z.eqb_eq, (H (a, b)), list_elem_of_In, list_elem_of_lookup.
      exists (i / 64). by apply lookup_zip_Some. }
    rewrite <-Hab, tb_land in Hi. by apply andb_true_iff in Hi as [? _].
  - intros H [a b] Hab%list_elem_of_In. simpl. apply list_elem_of_lookup in Hab as [q Hq].
    apply lookup_zip_Some in Hq as [Ha Hb]. apply Z.eqb_eq.
    assert (word_ok a) by (apply Hok; by eapply list_elem_of_lookup_2).
    assert (word_ok b) by (apply Hok'; by eapply list_elem_of_lookup_2).
    apply word_ext; [by apply word_ok_land|done|]. intros r Hr. rewrite tb_land.
    specialize (H (64 * q + r)). rewrite (has_at (words s) q r a), (has_at (words t) q r b) in H by done.
    destruct (tb b r); [by rewrite H|apply andb_false_r].
Qed.

Lemma dense_union_not_ok s t :
  dense_wf s → dense_wf t → domain_size s = domain_size t → ∃ s',
    Dense.union_not s t = Ret s' ∧
    bs_becomes dense_ops s s' (λ i, (i <? domain_size s) && (has (words s) i || negb (has (words t) i))).
Proof.
  intros (Hl & Hok & Hin & Hd) (Hl' & Hok' & _) Hdom. unfold Dense.union_not.
  rewrite (proj2 (Nat.eqb_eq _ _) Hdom), update_words_ok by congruence. simpl.
  set (ws := zip_with _ (words s) (words t)).
  assert (Hlen : length ws = num_words (domain_size s)) by (unfold ws; rewrite length_zip_with, Hl, Hl', <-Hdom; lia).
  assert (Hws : words_ok ws).
  { intros w (i & a & b & -> & Ha & Hb)%elem_of_lookup_zip_with.
    apply word_ok_lor; [apply Hok|apply word_ok_not, Hok']; by eapply list_elem_of_lookup_2. }
  destruct (dense_clear_excess (Dense.with_words s ws)) as (s' & -> & Hs' & Hdom' & Hh); [done..|].
  exists s'. split; [done|]. split_and!; [done..|]. intros i. simpl. rewrite Hh. simpl.
  rewrite andb_comm. destruct (Nat.ltb_spec i (domain_size s)) as [Hi|]; [|done]. simpl.
  destruct (word_of (words s) i _ Hl Hi) as (a & Ha & ->).
  destruct (word_of (words t) i (domain_size t) Hl') as (b & Hb & ->); [lia|].
  unfold has, WORD_BITS, ws. rewrite lookup_zip_with, Ha, Hb. simpl.
  rewrite tb_lor, tb_not. destruct (div_mod_64 i) as [_ Hr]. by rewrite (proj2 (Nat.ltb_lt _ _) Hr).
Qed.

(** ** Ranges *)
(** The indices of a range of bounds within a domain. *)
Definition in_bounds (domain : nat) (r : RangeBounds nat) (i : nat) : Prop :=
  match start_bound r with Included a => a ≤ i | Excluded a => a < i | Unbounded => True end ∧
  match end_bound r with Included b => i ≤ b | Excluded b => i < b | Unbounded => i < domain end.
Definition bounds_ok (domain : nat) (r : RangeBounds nat) : Prop :=
  match end_bound r with Included b => b < domain | Excluded b => b ≤ domain | Unbounded => 0 < domain end.

Lemma inclusive_start_end_ok r d :
  bounds_ok d r → ∃ o, inclusive_start_end r d = Ret o ∧
  match o with
  | None => ∀ i, ¬ in_bounds d r i
  | Some (s, e) => s ≤ e ∧ e < d ∧ ∀ i, in_bounds d r i ↔ s ≤ i ≤ e
  end.
Proof.
  intros Hb. unfold inclusive_start_end, bounds_ok, in_bounds in *.
  set (st := match start_bound r with Included s => s | Excluded s => s + 1 | Unbounded => 0 end).
  assert (Hst : ∀ i, match start_bound r with Included a => a ≤ i | Excluded a => a < i | Unbounded => True end ↔ st ≤ i).
  { intros i. unfold st. destruct (start_bound r); [done|lia|]. split; [lia|done]. }
  assert (Hcheck : ∀ e, e < d → ∃ o,
    (if negb (e <? d) then Panic else if e <? st then Ret None else Ret (Some (st, e))) = Ret o ∧
    match o with None => e < st | Some (s, e') => s = st ∧ e' = e ∧ st ≤ e end).
  { intros e He. rewrite (proj2 (Nat.ltb_lt _ _) He). simpl.
    destruct (Nat.ltb_spec e st); (eexists; split; [done|]); simpl; [done|by split_and!]. }
  destruct (end_bound r) as [b|[|b]|].
  - destruct (Hcheck b Hb) as (o & -> & Ho). exists o. split; [done|]. destruct o as [[s e]|].
    + destruct Ho as (-> & -> & ?). split_and!; [done..|]. intros i. by rewrite Hst.
    + intros i [Hi ?]. apply Hst in Hi. lia.
  - exists None. split; [done|]. intros i [_ ?]. lia.
  - destruct (Hcheck b) as (o & -> & Ho); [lia|]. exists o. split; [done|]. destruct o as [[s e]|].
    + destruct Ho as (-> & -> & ?). split_and!; [done|lia|]. intros i. rewrite Hst. lia.
    + intros i [Hi ?]. apply Hst in Hi. lia.
  - destruct d as [|d]; [lia|]. destruct (Hcheck d) as (o & -> & Ho); [lia|]. exists o. split; [done|].
    destruct o as [[s e]|].
    + destruct Ho as (-> & -> & ?). split_and!; [done|lia|]. intros i. rewrite Hst. lia.
    + intros i [Hi ?]. apply Hst in Hi. lia.
Qed.

(** The three masks of range operations. *)
Lemma mask_from_ok k i : k < 64 → i < 64 →
  tb (word_not (Z.shiftl 1 (Z.of_nat k) - 1)) i = (k <=? i).
Proof.
  intros Hk Hi. rewrite tb_not, tb_ones, (proj2 (Nat.ltb_lt _ _) Hi). simpl.
  by destruct (Nat.ltb_spec i k), (Nat.leb_spec k i); try lia.
Qed.
Lemma mask_upto_ok k i :
  tb (Z.lor (Z.shiftl 1 (Z.of_nat k)) (Z.shiftl 1 (Z.of_nat k) - 1)) i = (i <=? k).
Proof.
  rewrite tb_lor, tb_bit, tb_ones.
  destruct (Nat.eqb_spec i k), (Nat.ltb_spec i k), (Nat.leb_spec i k); lia || done.
Qed.
Lemma mask_between_ok a b i : a ≤ b →
  tb (Z.lor (Z.shiftl 1 (Z.of_nat b)) (Z.shiftl 1 (Z.of_nat b) - Z.shiftl 1 (Z.of_nat a))) i =
    (a <=? i) && (i <=? b).
Proof.
  intros Hab. rewrite tb_lor, tb_bit, tb_range by done.
  destruct (Nat.eqb_spec i b), (Nat.leb_spec a i), (Nat.ltb_spec i b), (Nat.leb_spec i b); simpl; lia || done.
Qed.
Lemma word_ok_mask_from k : k < 64 → word_ok (word_not (Z.shiftl 1 (Z.of_nat k) - 1)).
Proof.
  intros Hk. apply word_ok_not, word_ok_bits; [rewrite Z.shiftl_1_l; lia|].
  intros i Hi. rewrite tb_ones. apply Nat.ltb_ge. lia.
Qed.
Lemma word_ok_mask_upto k : k < 64 →
  word_ok (Z.lor (Z.shiftl 1 (Z.of_nat k)) (Z.shiftl 1 (Z.of_nat k) - 1)).
Proof.
  intros Hk. apply word_ok_bits.
  - apply Z.lor_nonneg. rewrite Z.shiftl_1_l. lia.
  - intros i Hi. rewrite mask_upto_ok. apply Nat.leb_gt. lia.
Qed.
Lemma word_ok_mask_between a b : a ≤ b → b < 64 →
  word_ok (Z.lor (Z.shiftl 1 (Z.of_nat b)) (Z.shiftl 1 (Z.of_nat b) - Z.shiftl 1 (Z.of_nat a))).
Proof.
  intros Hab Hb. apply word_ok_bits.
  - apply Z.lor_nonneg. rewrite !Z.shiftl_1_l.
    pose proof (Z.pow_le_mono_r 2 (Z.of_nat a) (Z.of_nat b)). lia.
  - intros i Hi. rewrite mask_between_ok by done. apply andb_false_intro2, Nat.leb_gt. lia.
Qed.
