(* ===== verification/BitSetRanges.v ===== *)
(** * Dense and growable bit sets: range operations *)
From S2P Require Import Prelude BitWords BitSet BitSetFacts.

Lemma word_nonzero_iff w : word_ok w → negb (w =? 0)%Z = true ↔ ∃ k, k < 64 ∧ tb w k = true.
Proof.
  intros Hw. rewrite negb_true_iff, Z.eqb_neq. split; [by apply word_bit_exists|].
  intros (k & _ & Hk). by apply (tb_neq_0 w k).
Qed.

Lemma set_words_ok n : ∀ ws a,
  words_ok ws → a + n ≤ length ws → ∃ ws',
    ofold (λ ws i, set_word ws i (word_not 0)) ws (seq a n) = Ret ws' ∧
    length ws' = length ws ∧ words_ok ws' ∧
    ∀ j, has ws' j = true ↔ has ws j = true ∨ a ≤ j / 64 < a + n.
Proof.
  induction n as [|n IH]; intros ws a Hok Hlen; cbn [seq ofold].
  { exists ws. split_and!; [done..|]. intros j. split; [by left|]. intros [?|?]; [done|lia]. }
  assert (Hset : set_word ws a (word_not 0) = Ret (<[a := word_not 0]> ws)).
  { unfold set_word. by rewrite (proj2 (Nat.ltb_lt _ _)) by lia. }
  cbn beta. rewrite Hset. cbn [mbind outcome_bind].
  destruct (IH (<[a:=word_not 0]> ws) (S a)) as (ws' & -> & Hl & Hok' & Hh).
  { by apply words_ok_insert, word_ok_not, word_ok_0. }
  { rewrite length_insert. lia. }
  exists ws'. split_and!; [done|by rewrite Hl, length_insert|done|]. intros j. rewrite Hh, has_insert by lia.
  destruct (div_mod_64 j) as [_ Hr].
  destruct (Nat.eqb_spec (j / 64) a) as [E|E]; [rewrite word_not_0 by done; split; [right; lia|by left]|].
  split; (intros [?|?]; [by left|right; lia]).
Qed.

Lemma or_word_ok ws i m :
  words_ok ws → word_ok m → i < length ws → ∃ ws',
    or_word ws i m = Ret ws' ∧ length ws' = length ws ∧ words_ok ws' ∧
    ∀ j, has ws' j = true ↔ has ws j = true ∨ j / 64 = i ∧ tb m (j mod 64) = true.
Proof.
  intros Hok Hm Hi. unfold or_word. destruct (lookup_lt_is_Some_2 ws i Hi) as [w Hw]. rewrite Hw. simpl.
  eexists. split; [done|]. split; [apply length_insert|]. split.
  - apply words_ok_insert; [done|]. apply word_ok_lor; [|done]. apply Hok. by eapply list_elem_of_lookup_2.
  - intros j. rewrite has_insert by done. destruct (Nat.eqb_spec (j / 64) i) as [<-|E]; [|naive_solver].
    rewrite tb_lor, orb_true_iff. unfold has, WORD_BITS. rewrite Hw. naive_solver.
Qed.

(** The words of a range. *)
Lemma range_words s e d n : s ≤ e → e < d → n = num_words d → s / 64 ≤ e / 64 ∧ e / 64 < n.
Proof.
  intros Hse He ->. split; [apply Nat.Div0.div_le_mono; lia|by apply num_words_lt].
Qed.

Lemma dense_insert_range_ok s r :
  dense_wf s → bounds_ok (domain_size s) r → ∃ s',
    Dense.insert_range s r = Ret s' ∧ dense_wf s' ∧ domain_size s' = domain_size s ∧
    ∀ i, has (words s') i = true ↔ has (words s) i = true ∨ in_bounds (domain_size s) r i.
Proof.
  intros (Hl & Hok & Hin & Hd) Hb. unfold Dense.insert_range.
  destruct (inclusive_start_end_ok r _ Hb) as ([[a e]|] & -> & Ho); cbn [mbind outcome_bind].
  2: { exists s. split_and!; [done..|]. intros i. split; [by left|]. intros [?|Hi]; [done|by apply Ho in Hi]. }
  destruct Ho as (Hae & He & Hr). destruct (range_words a e _ _ Hae He Hl) as [Hw Hwl].
  rewrite !word_index_and_mask_eq. cbn beta iota.
  destruct (set_words_ok (e / 64 - (a / 64 + 1)) (words s) (a / 64 + 1) Hok) as (ws1 & -> & Hl1 & Hok1 & Hh1);
    [lia|]. cbn [mbind outcome_bind].
  destruct (div_mod_64 a) as [Ha Har], (div_mod_64 e) as [Hee Her].
  assert (Hfin : ∀ ws', length ws' = length (words s) → words_ok ws' →
    (∀ i, has ws' i = true ↔ has (words s) i = true ∨ a ≤ i ≤ e) → ∃ s',
      Ret (Dense.with_words s ws') = Ret s' ∧ dense_wf s' ∧ domain_size s' = domain_size s ∧
      ∀ i, has (words s') i = true ↔ has (words s) i = true ∨ in_bounds (domain_size s) r i).
  { intros ws' Hl' Hok' Hh'. eexists. split; [done|]. split; [|split; [done|]].
    - split_and!; simpl; [congruence|done| |done]. intros i. rewrite Hh'.
      intros [?|?]; [by apply Hin|lia].
    - intros i. simpl. by rewrite Hh', Hr. }
  destruct (Nat.eqb_spec (a / 64) (e / 64)) as [E|E]; cbn [negb].
  - destruct (or_word_ok ws1 (a / 64) (Z.lor (Z.shiftl 1 (Z.of_nat (e mod 64)))
      (Z.shiftl 1 (Z.of_nat (e mod 64)) - Z.shiftl 1 (Z.of_nat (a mod 64))))) as (ws2 & -> & Hl2 & Hok2 & Hh2);
      [done|apply word_ok_mask_between; lia|lia|]. simpl.
    apply Hfin; [congruence|done|]. intros i. rewrite Hh2, Hh1, mask_between_ok, andb_true_iff by lia.
    rewrite !Nat.leb_le. destruct (div_mod_64 i). split; [intros [[?|?]|?]; [by left|right; lia..]|].
    intros [?|?]; [by left; left|right; lia].
  - destruct (or_word_ok ws1 (a / 64) (word_not (Z.shiftl 1 (Z.of_nat (a mod 64)) - 1)))
      as (ws2 & -> & Hl2 & Hok2 & Hh2); [done|by apply word_ok_mask_from|lia|]. simpl.
    destruct (or_word_ok ws2 (e / 64) (Z.lor (Z.shiftl 1 (Z.of_nat (e mod 64)))
      (Z.shiftl 1 (Z.of_nat (e mod 64)) - 1))) as (ws3 & -> & Hl3 & Hok3 & Hh3);
      [done|by apply word_ok_mask_upto|lia|]. simpl.
    apply Hfin; [congruence|done|]. intros i. destruct (div_mod_64 i) as [Hi Hir].
    rewrite Hh3, Hh2, Hh1, mask_upto_ok, mask_from_ok, !Nat.leb_le by done.
    split; [intros [[[?|?]|?]|?]; [by left|right; lia..]|]. intros [?|?]; [by left; left; left|].
    destruct (decide (i / 64 = a / 64)); [left; right; lia|].
    destruct (decide (i / 64 = e / 64)); [right; lia|]. left. left. right. lia.
Qed.

(** A masked word of the set is non-zero when the set has one of its indices. *)
Lemma masked_word_iff ws q w m :
  words_ok ws → word_ok m → ws !! q = Some w →
  negb (Z.land w m =? 0)%Z = true ↔ ∃ i, i / 64 = q ∧ tb m (i mod 64) = true ∧ has ws i = true.
Proof.
  intros Hok Hm Hw. assert (word_ok w) by (apply Hok; by eapply list_elem_of_lookup_2).
  rewrite word_nonzero_iff by by apply word_ok_land. setoid_rewrite tb_land.
  setoid_rewrite andb_true_iff. split.
  - intros (k & Hk & Hwk & Hmk). exists (64 * q + k).
    destruct (div_64_unique (64 * q + k) q k Hk eq_refl) as [-> ->].
    by rewrite (has_at ws q k w).
  - intros (i & <- & Hmi & Hi). exists (i mod 64). split; [apply div_mod_64|]. split; [|done].
    unfold has, WORD_BITS in Hi. by rewrite Hw in Hi.
Qed.

Lemma slice_nonzero_iff ws a b :
  words_ok ws → b ≤ length ws →
  existsb (λ w, negb (w =? 0)%Z) (take (b - a) (drop a ws)) = true ↔
  ∃ i, a ≤ i / 64 < b ∧ has ws i = true.
Proof.
  intros Hok Hb. rewrite existsb_exists. setoid_rewrite <-list_elem_of_In. split.
  - intros (w & [q Hq]%list_elem_of_lookup & Hne). apply lookup_take_Some in Hq as [Hq Hlt].
    rewrite lookup_drop in Hq. assert (word_ok w) by (apply Hok; by eapply list_elem_of_lookup_2).
    apply word_nonzero_iff in Hne as (k & Hk & Ht); [|done]. exists (64 * (a + q) + k).
    destruct (div_64_unique (64 * (a + q) + k) (a + q) k Hk eq_refl) as [-> _].
    split; [lia|]. by rewrite (has_at ws (a + q) k w).
  - intros (i & Hi & Hh). unfold has, WORD_BITS in Hh.
    destruct (ws !! (i / 64)) as [w|] eqn:Hw; [|done]. exists w. split.
    + apply list_elem_of_lookup. exists (i / 64 - a). apply lookup_take_Some.
      split; [|lia]. rewrite lookup_drop. by replace (a + (i / 64 - a)) with (i / 64) by lia.
    + apply word_nonzero_iff; [apply Hok; by eapply list_elem_of_lookup_2|].
      exists (i mod 64). split; [apply div_mod_64|done].
Qed.

Lemma dense_contains_any_ok s r :
  dense_wf s → bounds_ok (domain_size s) r → ∃ b,
    Dense.contains_any s r = Ret b ∧
    (b = true ↔ ∃ i, in_bounds (domain_size s) r i ∧ has (words s) i = true).
Proof.
  intros (Hl & Hok & Hin & Hd) Hb. unfold Dense.contains_any.
  destruct (inclusive_start_end_ok r _ Hb) as ([[a e]|] & -> & Ho); cbn [mbind outcome_bind].
  2: { exists false. split; [done|]. split; [done|]. intros (i & Hi & _). by apply Ho in Hi. }
  destruct Ho as (Hae & He & Hr). destruct (range_words a e _ _ Hae He Hl) as [Hw Hwl].
  rewrite !word_index_and_mask_eq. cbn beta iota. setoid_rewrite Hr.
  destruct (div_mod_64 a) as [Ha Har], (div_mod_64 e) as [Hee Her].
  destruct (lookup_lt_is_Some_2 (words s) (a / 64)) as [wa Hwa]; [lia|].
  destruct (lookup_lt_is_Some_2 (words s) (e / 64)) as [we Hwe]; [lia|].
  rewrite Hwa, Hwe. cbn [unwrap mbind outcome_bind].
  destruct (Nat.eqb_spec (a / 64) (e / 64)) as [E|E].
  - eexists. split; [done|].
    rewrite (masked_word_iff (words s) (a / 64)); [|done|apply word_ok_mask_between; lia|done].
    setoid_rewrite mask_between_ok; [|lia]. setoid_rewrite andb_true_iff. setoid_rewrite Nat.leb_le.
    split; intros (i & Hi); exists i; destruct (div_mod_64 i); [split; [lia|apply Hi]|].
    split_and!; try lia; apply Hi.
  - assert (Hfirst := masked_word_iff (words s) (a / 64) wa _ Hok (word_ok_mask_from _ Har) Hwa).
    setoid_rewrite mask_from_ok in Hfirst; [|done|apply div_mod_64].
    setoid_rewrite Nat.leb_le in Hfirst.
    destruct (negb (Z.land wa _ =? 0)%Z) eqn:E1.
    { exists true. split; [done|]. split; [|done]. intros _. destruct Hfirst as [Hf _].
      destruct (Hf eq_refl) as (i & Hi & Him & Hh). exists i. split; [|done]. destruct (div_mod_64 i). lia. }
    assert (Hnone : ∀ i, i / 64 = a / 64 → a ≤ i → has (words s) i ≠ true).
    { intros i Hi Hai Hh. destruct Hfirst as [_ Hf]. assert (false = true); [|done]. apply Hf.
      exists i. split_and!; [done| |done]. destruct (div_mod_64 i). lia. }
    rewrite (proj2 (Nat.leb_le _ _)) by lia. rewrite (proj2 (Nat.leb_le (e / 64) _)) by lia.
    pose proof (slice_nonzero_iff (words s) (a / 64 + 1) (e / 64) Hok ltac:(lia)) as Hmid.
    destruct (existsb _ _).
    { exists true. split; [done|]. split; [|done]. intros _. destruct Hmid as [Hm _].
      destruct (Hm eq_refl) as (i & Hi & Hh). exists i. split; [|done]. destruct (div_mod_64 i). lia. }
    eexists. split; [done|].
    rewrite (masked_word_iff (words s) (e / 64)); [|done|by apply word_ok_mask_upto|done].
    setoid_rewrite mask_upto_ok. setoid_rewrite Nat.leb_le. split.
    + intros (i & Hi & Him & Hh). exists i. split; [|done]. destruct (div_mod_64 i). lia.
    + intros (i & Hi & Hh). exists i. destruct (div_mod_64 i) as [Hi1 Hi2].
      destruct (decide (i / 64 = a / 64)); [exfalso; by apply (Hnone i); [|lia|]|].
      destruct (decide (i / 64 = e / 64)); [split_and!; [done|lia|done]|]. exfalso.
      destruct Hmid as [_ Hm]. assert (false = true); [|done]. apply Hm. exists i. split; [lia|done].
Qed.

(** ** Searching *)
Lemma first_set_from_ok rest : ∀ q w,
  word_ok w → words_ok rest →
  match Dense.first_set_from q w rest with
  | Some i => 64 * q ≤ i ∧ has (w :: rest) (i - 64 * q) = true ∧
      ∀ j, 64 * q ≤ j → j < i → has (w :: rest) (j - 64 * q) = false
  | None => ∀ j, has (w :: rest) j = false
  end.
Proof.
  induction rest as [|w1 rest IH]; intros q w Hw Hrest; cbn [Dense.first_set_from];
    (destruct (Z.eqb_spec w 0) as [->|Hne]; cbn [negb]).
  - intros j. destruct (decide (j < 64)); [rewrite has_cons_low by done; apply tb_0|].
    replace j with ((j - 64) + 64) by lia. by rewrite has_cons_high.
  - destruct (word_bit_exists w Hw Hne) as (k & Hk & Ht).
    destruct (trailing_zeros_spec w k Hk Ht) as (Hz & Htz & Hlow). unfold WORD_BITS.
    split_and!; [lia| |].
    + replace (64 * q + trailing_zeros w - 64 * q) with (trailing_zeros w) by lia. by rewrite has_cons_low.
    + intros j Hj1 Hj2. rewrite has_cons_low by lia. apply Hlow. lia.
  - specialize (IH (S q) w1 (Hrest w1 (list_elem_of_here _ _))).
    assert (Hrest' : words_ok rest) by (intros x Hx; apply Hrest; by right). specialize (IH Hrest').
    assert (Hz : ∀ j, has (0%Z :: w1 :: rest) j = if j <? 64 then false else has (w1 :: rest) (j - 64)).
    { intros j. destruct (Nat.ltb_spec j 64); [rewrite has_cons_low by done; apply tb_0|].
      replace j with ((j - 64) + 64) at 1 by lia. apply has_cons_high. }
    destruct (Dense.first_set_from (S q) w1 rest) as [i|].
    + destruct IH as (Hi & Hh & Hlow). split_and!; [lia| |].
      * rewrite Hz. rewrite (proj2 (Nat.ltb_ge _ _)) by lia.
        by replace (i - 64 * q - 64) with (i - 64 * S q) by lia.
      * intros j Hj1 Hj2. rewrite Hz. destruct (Nat.ltb_spec (j - 64 * q) 64); [done|].
        replace (j - 64 * q - 64) with (j - 64 * S q) by lia. apply Hlow; lia.
    + intros j. rewrite Hz. by destruct (_ <? _).
  - destruct (word_bit_exists w Hw Hne) as (k & Hk & Ht).
    destruct (trailing_zeros_spec w k Hk Ht) as (Hz & Htz & Hlow). unfold WORD_BITS.
    split_and!; [lia| |].
    + replace (64 * q + trailing_zeros w - 64 * q) with (trailing_zeros w) by lia. by rewrite has_cons_low.
    + intros j Hj1 Hj2. rewrite has_cons_low by lia. apply Hlow. lia.
Qed.

Lemma dense_first_set_ok s elem :
  dense_wf s → elem < domain_size s → ∃ o, Dense.first_set_at_or_after s elem = Ret o ∧
    match o with
    | Some i => elem ≤ i ∧ has (words s) i = true ∧ ∀ j, elem ≤ j → j < i → has (words s) j = false
    | None => ∀ j, elem ≤ j → has (words s) j = false
    end.
Proof.
  intros (Hl & Hok & Hin & Hd) He. unfold Dense.first_set_at_or_after.
  rewrite (proj2 (Nat.ltb_lt _ _) He), word_index_and_mask_eq. cbn beta iota.
  destruct (word_of (words s) elem _ Hl He) as (w & Hw & _). rewrite Hw. cbn [unwrap mbind outcome_bind].
  destruct (div_mod_64 elem) as [Hee Her]. set (q := elem / 64) in *. set (r := elem mod 64) in *.
  assert (Hwok : word_ok w) by (apply Hok; by eapply list_elem_of_lookup_2).
  set (m := word_not _). assert (Hm : word_ok (Z.land w m)).
  { apply word_ok_land; [done|]. by apply word_ok_mask_from. }
  assert (Hdrop : words_ok (drop (S q) (words s))).
  { intros x [i Hx]%list_elem_of_lookup. rewrite lookup_drop in Hx. apply Hok. by eapply list_elem_of_lookup_2. }
  pose proof (first_set_from_ok (drop (S q) (words s)) q (Z.land w m) Hm Hdrop) as Hf.
  assert (Hhas : ∀ j, 64 * q ≤ j →
    has (Z.land w m :: drop (S q) (words s)) (j - 64 * q) = has (words s) j && (elem <=? j)).
  { intros j Hj. destruct (decide (j < 64 * S q)) as [Hlow|Hhigh].
    - rewrite has_cons_low by lia. rewrite tb_land. unfold m. rewrite mask_from_ok by lia.
      replace j with (64 * q + (j - 64 * q)) at 3 by lia. rewrite (has_at _ q _ w) by (done || lia).
      f_equal. destruct (Nat.leb_spec r (j - 64 * q)), (Nat.leb_spec elem j); lia || done.
    - replace (j - 64 * q) with ((j - 64 * S q) + 64) by lia. rewrite has_cons_high.
      rewrite (proj2 (Nat.leb_le elem j)), andb_true_r by lia.
      assert (has (words s) j = has (words s) ((j - 64 * S q) + S q * 64)) as -> by (f_equal; lia).
      unfold has, WORD_BITS. rewrite lookup_drop.
      rewrite Nat.div_add, Nat.Div0.mod_add by lia. by rewrite Nat.add_comm. }
  eexists. split; [done|]. destruct (Dense.first_set_from q _ _) as [i|].
  - destruct Hf as (Hi & Hh & Hlow). rewrite Hhas in Hh by done.
    apply andb_true_iff in Hh as [Hh Hle%Nat.leb_le]. split_and!; [done..|].
    intros j Hj1 Hj2. specialize (Hlow j ltac:(lia) Hj2). rewrite Hhas in Hlow by lia.
    rewrite (proj2 (Nat.leb_le elem j) Hj1), andb_true_r in Hlow. done.
  - intros j Hj. specialize (Hf (j - 64 * q)). rewrite Hhas in Hf by lia.
    by rewrite (proj2 (Nat.leb_le elem j) Hj), andb_true_r in Hf.
Qed.

Lemma rposition_ok {A} (p : A → bool) (l : list A) :
  match Dense.rposition p l with
  | Some i => ∃ x, l !! i = Some x ∧ p x = true ∧ ∀ j y, i < j → l !! j = Some y → p y = false
  | None => ∀ j y, l !! j = Some y → p y = false
  end.
Proof.
  induction l as [|x l IH]; simpl; [done|]. destruct (Dense.rposition p l) as [i|].
  - destruct IH as (y & Hy & Hp & Hafter). exists y. split_and!; [done..|].
    intros [|j] z Hj; [lia|]. simpl. apply Hafter. lia.
  - destruct (p x) eqn:E.
    + exists x. split_and!; [done..|]. intros [|j] z Hj; [lia|]. simpl. apply IH.
    + intros [|j] y; simpl; [by intros [= <-]|apply IH].
Qed.

(** The last index of a non-zero word. *)
Lemma max_bit_last ws q w :
  words_ok ws → ws !! q = Some w → w ≠ 0%Z →
  let pos := max_bit w + WORD_BITS * q in
  pos / 64 = q ∧ has ws pos = true ∧ ∀ j, j / 64 = q → pos < j → has ws j = false.
Proof.
  intros Hok Hw Hne pos. assert (Hwok : word_ok w) by (apply Hok; by eapply list_elem_of_lookup_2).
  destruct (word_bit_exists w Hwok Hne) as (k & Hk & Ht).
  destruct (max_bit_spec w k Hk Ht) as (Hm & Htm & Hhigh).
  assert (Hpos : pos = 64 * q + max_bit w) by (unfold pos, WORD_BITS; lia).
  destruct (div_64_unique pos q (max_bit w) Hm Hpos) as [Hq Hr].
  split_and!; [done|by rewrite Hpos, (has_at ws q _ w)|].
  intros j Hj Hlt. destruct (div_mod_64 j) as [Hjj Hjr].
  rewrite Hjj, Hj, (has_at ws q _ w) by done. apply Hhigh; [lia|done].
Qed.

(** The bits of the last word up to [e]. *)
Lemma last_word_ok ws e we :
  words_ok ws → ws !! (e / 64) = Some we →
  let end_word := Z.land we (Z.lor (Z.shiftl 1 (Z.of_nat (e mod 64))) (Z.shiftl 1 (Z.of_nat (e mod 64)) - 1)) in
  let pos := max_bit end_word + WORD_BITS * (e / 64) in
  (end_word = 0%Z → ∀ j, j / 64 = e / 64 → j ≤ e → has ws j = false) ∧
  (end_word ≠ 0%Z → has ws pos = true ∧ pos ≤ e ∧ pos / 64 = e / 64 ∧
     ∀ j, j ≤ e → pos < j → has ws j = false).
Proof.
  intros Hok Hwe end_word pos. destruct (div_mod_64 e) as [Hee Her].
  assert (Hew : word_ok end_word).
  { apply word_ok_land; [apply Hok; by eapply list_elem_of_lookup_2|by apply word_ok_mask_upto]. }
  assert (Hbit : ∀ j, j / 64 = e / 64 → tb end_word (j mod 64) = has ws j && (j <=? e)).
  { intros j Hj. unfold end_word. rewrite tb_land, mask_upto_ok. unfold has, WORD_BITS. rewrite Hj, Hwe.
    f_equal. destruct (div_mod_64 j).
    destruct (Nat.leb_spec (j mod 64) (e mod 64)), (Nat.leb_spec j e); lia || done. }
  split.
  - intros Hz j Hj Hje. specialize (Hbit j Hj). rewrite Hz, tb_0 in Hbit.
    by rewrite (proj2 (Nat.leb_le j e) Hje), andb_true_r in Hbit.
  - intros Hnz. destruct (max_bit_last [end_word] 0 end_word) as (_ & Hh0 & Hafter0);
      [by intros x ->%list_elem_of_singleton|done|done|].
    rewrite Nat.mul_0_r, Nat.add_0_r in *.
    assert (Hm64 : max_bit end_word < 64) by (apply has_bound in Hh0; destruct (div_mod_64 (max_bit end_word)); simpl in Hh0; lia).
    rewrite has_cons_low in Hh0 by done.
    assert (Hpos : pos = 64 * (e / 64) + max_bit end_word) by (unfold pos, WORD_BITS; lia).
    destruct (div_64_unique pos (e / 64) _ Hm64 Hpos) as [Hpq Hpr].
    pose proof (Hbit pos Hpq) as Hp. rewrite Hpr, Hh0 in Hp. symmetry in Hp.
    apply andb_true_iff in Hp as [Hph Hpe%Nat.leb_le]. split; [done|]. split; [done|]. split; [done|].
    intros j Hje Hj. destruct (div_mod_64 j) as [Hjj Hjr].
    assert (Hjq : j / 64 = e / 64) by lia. specialize (Hbit j Hjq).
    rewrite (proj2 (Nat.leb_le j e) Hje), andb_true_r in Hbit. rewrite <-Hbit.
    specialize (Hafter0 (j mod 64)). rewrite has_cons_low in Hafter0 by done.
    apply Hafter0; [by apply Nat.div_small|lia].
Qed.

(** The last word that is not zero, before the word of [e]. *)
Lemma last_nonzero_word_ok ws a e :
  words_ok ws → a / 64 ≤ e / 64 → e / 64 < length ws →
  (∀ j, j / 64 = e / 64 → j ≤ e → has ws j = false) →
  match Dense.rposition (λ w, negb (w =? 0)%Z) (take (e / 64 - a / 64) (drop (a / 64) ws)) with
  | Some off => ∃ w, ws !! (a / 64 + off) = Some w ∧
      let p := max_bit w + WORD_BITS * (a / 64 + off) in
      has ws p = true ∧ p ≤ e ∧ ∀ j, j ≤ e → p < j → has ws j = false
  | None => ∀ j, a / 64 ≤ j / 64 → j ≤ e → has ws j = false
  end.
Proof.
  intros Hok Hw Hwl Hzero. destruct (div_mod_64 e) as [Hee Her].
  pose proof (rposition_ok (λ w, negb (w =? 0)%Z) (take (e / 64 - a / 64) (drop (a / 64) ws))) as Hrp.
  assert (Hmid : ∀ j, a / 64 ≤ j / 64 → j / 64 < e / 64 →
    (∀ w, take (e / 64 - a / 64) (drop (a / 64) ws) !! (j / 64 - a / 64) = Some w → negb (w =? 0)%Z = false) →
    has ws j = false).
  { intros j Hj1 Hj2 Hw0. unfold has, WORD_BITS. destruct (ws !! (j / 64)) as [w|] eqn:E; [|done].
    specialize (Hw0 w). rewrite lookup_take_lt, lookup_drop in Hw0 by lia.
    replace (a / 64 + (j / 64 - a / 64)) with (j / 64) in Hw0 by lia.
    apply negb_false_iff, Z.eqb_eq in Hw0 as ->; [apply tb_0|done]. }
  destruct (Dense.rposition _ _) as [off|].
  - destruct Hrp as (w & Hwq & Hne & Hafter). apply lookup_take_Some in Hwq as [Hwq Hoff].
    rewrite lookup_drop in Hwq. exists w. split; [done|]. apply negb_true_iff, Z.eqb_neq in Hne.
    destruct (max_bit_last ws (a / 64 + off) w Hok Hwq Hne) as (Hpq & Hph & Hplast). cbv zeta.
    set (p := max_bit w + WORD_BITS * (a / 64 + off)) in *. destruct (div_mod_64 p) as [Hpp Hpr].
    split; [done|]. split; [lia|]. intros j Hje Hj. destruct (div_mod_64 j) as [Hjj Hjr].
    destruct (decide (j / 64 = e / 64)); [by apply Hzero|].
    destruct (decide (j / 64 = a / 64 + off)); [by apply Hplast|].
    apply Hmid; [lia|lia|]. intros w' Hw'. apply (Hafter (j / 64 - a / 64)); [lia|done].
  - intros j Hj Hje. destruct (div_mod_64 j) as [Hjj Hjr]. destruct (decide (j / 64 = e / 64)); [by apply Hzero|].
    apply Hmid; [lia|lia|]. intros w' Hw'. by apply (Hrp (j / 64 - a / 64)).
Qed.

Lemma dense_last_set_in_ok s r :
  dense_wf s → bounds_ok (domain_size s) r → ∃ o,
    Dense.last_set_in s r = Ret o ∧
    match o with
    | Some i => in_bounds (domain_size s) r i ∧ has (words s) i = true ∧
        ∀ j, in_bounds (domain_size s) r j → i < j → has (words s) j = false
    | None => ∀ j, in_bounds (domain_size s) r j → has (words s) j = false
    end.
Proof.
  intros (Hl & Hok & Hin & Hd) Hb. unfold Dense.last_set_in.
  destruct (inclusive_start_end_ok r _ Hb) as ([[a e]|] & -> & Ho); cbn [mbind outcome_bind].
  2: { exists None. split; [done|]. intros j Hj. by apply Ho in Hj. }
  destruct Ho as (Hae & He & Hr). destruct (range_words a e _ _ Hae He Hl) as [Hw Hwl].
  rewrite !word_index_and_mask_eq. cbn [fst].
  destruct (lookup_lt_is_Some_2 (words s) (e / 64)) as [we Hwe]; [lia|].
  rewrite Hwe. cbn [unwrap mbind outcome_bind].
  destruct (last_word_ok (words s) e we Hok Hwe) as [Hzero Hlast]. cbv zeta in Hzero, Hlast.
  set (end_word := Z.land we _) in *. set (pos := max_bit end_word + WORD_BITS * (e / 64)) in *.
  rewrite (proj2 (Nat.leb_le (a / 64) _)), (proj2 (Nat.leb_le (e / 64) _)) by lia. cbn [andb].
  assert (Hfound : ∀ p, has (words s) p = true → p ≤ e → (∀ j, j ≤ e → p < j → has (words s) j = false) →
    match (if a <=? p then Some p else None) with
    | Some i => in_bounds (domain_size s) r i ∧ has (words s) i = true ∧
        ∀ j, in_bounds (domain_size s) r j → i < j → has (words s) j = false
    | None => ∀ j, in_bounds (domain_size s) r j → has (words s) j = false
    end).
  { intros p Hp Hpe Hpj. destruct (Nat.leb_spec a p).
    - rewrite Hr. split; [lia|]. split; [done|]. intros j Hj%Hr ?. apply Hpj; lia.
    - intros j Hj%Hr. apply Hpj; lia. }
  destruct (Z.eqb_spec end_word 0) as [Hz|Hnz]; cbn [negb andb].
  - pose proof (last_nonzero_word_ok (words s) a e Hok Hw ltac:(lia) (Hzero Hz)) as Hrp.
    destruct (Dense.rposition _ _) as [off|].
    + destruct Hrp as (w & -> & Hp & Hpe & Hpj). cbn [unwrap mbind outcome_bind]. eexists. split; [done|]. by apply Hfound.
    + eexists. split; [done|]. intros j Hj%Hr. apply Hrp; [apply Nat.Div0.div_le_mono|]; lia.
  - destruct (Hlast Hnz) as (Hp & Hpe & Hpq & Hpj). specialize (Hfound pos Hp Hpe Hpj).
    destruct (Nat.leb_spec a pos) as [Hap|Hap]; [by eexists|].
    assert (a / 64 = e / 64) as -> by (destruct (div_mod_64 a), (div_mod_64 pos); lia).
    rewrite Nat.sub_diag, take_0. simpl. by eexists.
Qed.

(** ** [GrowableBitSet] *)
Lemma num_words_mono a b : a ≤ b → num_words a ≤ num_words b.
Proof.
  intros Hab. unfold num_words, div_ceil, WORD_BITS. destruct (div_mod_64 a), (div_mod_64 b).
  destruct (Nat.eqb_spec (a mod 64) 0), (Nat.eqb_spec (b mod 64) 0); lia.
Qed.

Lemma has_app_zeros ws n i : has (ws ++ replicate n 0%Z) i = has ws i.
Proof.
  unfold has, WORD_BITS. destruct (decide (i / 64 < length ws)).
  - by rewrite lookup_app_l.
  - rewrite lookup_app_r by lia. assert (ws !! (i / 64) = None) as -> by (apply lookup_ge_None; lia).
    destruct (replicate n 0%Z !! _) eqn:E; [|done]. apply lookup_replicate in E as [-> _]. apply tb_0.
Qed.

Lemma ensure_ok s n :
  dense_wf s → (Z.of_nat n < 2 ^ 64)%Z →
  dense_wf (Growable.ensure s n) ∧ domain_size (Growable.ensure s n) = domain_size s `max` n ∧
  ∀ i, has (words (Growable.ensure s n)) i = has (words s) i.
Proof.
  intros (Hl & Hok & Hin & Hd) Hn. unfold Growable.ensure. simpl.
  assert (Hdom : (if domain_size s <? n then n else domain_size s) = domain_size s `max` n).
  { destruct (Nat.ltb_spec (domain_size s) n); lia. }
  rewrite Hdom.
  assert (Hhas : ∀ i, has (if length (words s) <? num_words n
    then words s ++ replicate (num_words n - length (words s)) 0%Z else words s) i = has (words s) i).
  { intros i. destruct (Nat.ltb_spec (length (words s)) (num_words n)); [apply has_app_zeros|done]. }
  split; [|split; [done|exact Hhas]]. split_and!; simpl.
  - pose proof (num_words_mono (domain_size s) n). pose proof (num_words_mono n (domain_size s)).
    destruct (Nat.ltb_spec (length (words s)) (num_words n)).
    + rewrite length_app, length_replicate. destruct (decide (domain_size s ≤ n)); [|lia].
      rewrite Nat.max_r by done. lia.
    + destruct (decide (domain_size s ≤ n)); [|rewrite Nat.max_l by lia; lia].
      rewrite Nat.max_r by done. lia.
  - destruct (Nat.ltb_spec (length (words s)) (num_words n)); [|done]. intros w [Hw|Hw]%elem_of_app; [by apply Hok|].
    apply elem_of_replicate in Hw as [-> _]. apply word_ok_0.
  - intros i. rewrite Hhas. intros Hi%Hin. lia.
  - lia.
Qed.

Lemma growable_contains_ok s i : dense_wf s → Growable.contains s i = has (words s) i.
Proof.
  intros Hs. unfold Growable.contains. rewrite word_index_and_mask_eq. unfold has, WORD_BITS.
  destruct (words s !! (i / 64)); [apply mask_test|done].
Qed.

(** ** The properties *)
(** C31: [DenseBitSet] keeps the promises of the bit-set interface: every operation
    acts on the represented set as its name says, reports changes exactly,
    panics outside the domain, and the representation is canonical. *)
Theorem dense_bitset_correct : BitSetLaws dense_ops.
Proof. apply dense_laws. Qed.

(** The range operations of [DenseBitSet], for bounds within the domain:
    [insert_range] adds the range, [contains_any] says whether it meets the set,
    [last_set_in] is the greatest element in it, and [first_set_at_or_after]
    the least element from an index on.  Its set operations: [superset] decides
    inclusion, [intersect] and [union_not] compute their sets within the domain,
    [count] is the number of elements and [new_filled] holds the whole domain. *)
Theorem dense_range_ops_spec (s t : DenseBitSet) (r : RangeBounds nat) (elem : nat)
    (Hs : dense_wf s) (Hr : bounds_ok (domain_size s) r) (He : elem < domain_size s)
    (Ht : dense_wf t) (Hd : domain_size s = domain_size t) :
  (∃ s', Dense.insert_range s r = Ret s' ∧ dense_wf s' ∧
     ∀ i, has (words s') i = true ↔ has (words s) i = true ∨ in_bounds (domain_size s) r i) ∧
  (∃ b, Dense.contains_any s r = Ret b ∧
     (b = true ↔ ∃ i, in_bounds (domain_size s) r i ∧ has (words s) i = true)) ∧
  (∃ o, Dense.last_set_in s r = Ret o ∧
     match o with
     | Some i => in_bounds (domain_size s) r i ∧ has (words s) i = true ∧
         ∀ j, in_bounds (domain_size s) r j → i < j → has (words s) j = false
     | None => ∀ j, in_bounds (domain_size s) r j → has (words s) j = false
     end) ∧
  (∃ o, Dense.first_set_at_or_after s elem = Ret o ∧
     match o with
     | Some i => elem ≤ i ∧ has (words s) i = true ∧ ∀ j, elem ≤ j → j < i → has (words s) j = false
     | None => ∀ j, elem ≤ j → has (words s) j = false
     end) ∧
  (∃ b, Dense.superset s t = Ret b ∧
     (b = true ↔ ∀ i, has (words t) i = true → has (words s) i = true)) ∧
  (∃ s' c, Dense.intersect s t = Ret (s', c) ∧
     bs_becomes dense_ops s s' (λ i, has (words s) i && has (words t) i) ∧ (c = true ↔ s' ≠ s)) ∧
  (∃ s', Dense.union_not s t = Ret s' ∧ bs_becomes dense_ops s s'
     (λ i, (i <? domain_size s) && (has (words s) i || negb (has (words t) i)))) ∧
  length (Dense.iter s) = Dense.count s ∧
  (∃ f, Dense.new_filled (domain_size s) = Ret f ∧ dense_wf f ∧
     ∀ i, has (words f) i = (i <? domain_size s)).
Proof.
  split_and!.
  - destruct (dense_insert_range_ok s r Hs Hr) as (s' & ? & ? & _ & ?). by exists s'.
  - by apply dense_contains_any_ok.
  - by apply dense_last_set_in_ok.
  - by apply dense_first_set_ok.
  - by apply dense_superset_ok.
  - apply (dense_relate_ok Z.land andb); [apply bitwise_and| |done..]. intros [] []; auto.
  - by apply dense_union_not_ok.
  - by apply dense_iter_ok.
  - destruct (dense_new_filled_ok (domain_size s)) as (f & ? & ? & _ & ?); [apply Hs|]. by exists f.
Qed.

(** [GrowableBitSet] has no domain to its user: [contains] is membership for
    every index, and [insert], [remove] and [insert_range] grow it as needed. *)
Theorem growable_bitset_spec (s : DenseBitSet) (elem start end_ : nat)
    (Hs : dense_wf s) (He : (Z.of_nat elem < 2 ^ 64 - 1)%Z) (Hr : (Z.of_nat end_ < 2 ^ 64)%Z) :
  (∀ i, Growable.contains s i = has (words s) i) ∧
  (∃ s', Growable.insert s elem = Ret (s', negb (has (words s) elem)) ∧ dense_wf s' ∧
     ∀ i, has (words s') i = (i =? elem) || has (words s) i) ∧
  (∃ s', Growable.remove s elem = Ret (s', has (words s) elem) ∧ dense_wf s' ∧
     ∀ i, has (words s') i = negb (i =? elem) && has (words s) i) ∧
  (∃ s', Growable.insert_range s start end_ = Ret s' ∧ dense_wf s' ∧
     ∀ i, has (words s') i = true ↔ has (words s) i = true ∨ start ≤ i < end_) ∧
  (∃ b, Growable.contains_any s start end_ = Ret b ∧
     (b = true ↔ ∃ i, start ≤ i < end_ ∧ has (words s) i = true)).
Proof.
  destruct (ensure_ok s (elem + 1) Hs) as (Hw1 & Hd1 & Hh1); [lia|].
  destruct (ensure_ok s end_ Hs Hr) as (Hw2 & Hd2 & Hh2). split_and!.
  - intros i. by apply growable_contains_ok.
  - unfold Growable.insert. destruct (dense_insert_ok _ elem Hw1) as (s' & -> & Hw & _ & Hh); [lia|].
    exists s'. rewrite Hh1. split_and!; [done..|]. intros i. specialize (Hh i). simpl in Hh. by rewrite Hh, Hh1.
  - unfold Growable.remove. destruct (dense_remove_ok _ elem Hw1) as (s' & -> & Hw & _ & Hh); [lia|].
    exists s'. rewrite Hh1. split_and!; [done..|]. intros i. specialize (Hh i). simpl in Hh. by rewrite Hh, Hh1.
  - unfold Growable.insert_range.
    destruct (dense_insert_range_ok (Growable.ensure s end_) (range_excl start end_) Hw2)
      as (s' & -> & ? & _ & Hh); [unfold bounds_ok; rewrite Hd2; simpl; lia|].
    exists s'. split_and!; [done..|]. intros i. by rewrite Hh, Hh2.
  - unfold Growable.contains_any. destruct (Nat.ltb_spec start (domain_size s)) as [Hlt|Hge].
    + destruct (dense_contains_any_ok s (range_excl start (end_ `min` domain_size s)) Hs) as (b & -> & Hb);
        [unfold bounds_ok; simpl; lia|].
      exists b. split; [done|]. rewrite Hb. unfold in_bounds. simpl.
      split; intros (i & Hi & Hh); exists i; (split; [|done]); [lia|].
      destruct Hs as (_ & _ & Hin & _). apply Hin in Hh. lia.
    + exists false. split; [done|]. split; [done|]. intros (i & Hi & Hh).
      destruct Hs as (_ & _ & Hin & _). apply Hin in Hh. lia.
Qed.

(** ** Concrete sets *)
Definition dense_a : DenseBitSet := mkDense 100 [5%Z; 8%Z].
Definition dense_b : DenseBitSet := mkDense 100 [4%Z; 0%Z].

Lemma dense_concrete_wf d w0 w1 :
  64 < d → d ≤ 128 → word_ok w0 → word_ok w1 → (∀ k, k < 64 → tb w1 k = true → 64 + k < d) →
  dense_wf (mkDense d [w0; w1]).
Proof.
  intros Hd1 Hd2 H0 H1 Hk. split_and!; simpl.
  - unfold num_words, div_ceil, WORD_BITS. destruct (div_mod_64 d).
    destruct (Nat.eqb_spec (d mod 64) 0); lia.
  - intros w. rewrite !elem_of_cons, elem_of_nil. naive_solver.
  - intros i Hi. assert (Hq := has_bound _ _ Hi). simpl in Hq.
    destruct (div_mod_64 i) as [Hii Hir]. destruct (decide (i / 64 = 0)); [lia|].
    assert (Hi1 : i / 64 = 1) by lia. unfold has, WORD_BITS in Hi. rewrite Hi1 in Hi. simpl in Hi.
    specialize (Hk _ Hir Hi). lia.
  - lia.
Qed.

Lemma dense_a_wf : dense_wf dense_a.
Proof.
  apply dense_concrete_wf; [lia..|unfold word_ok; lia|unfold word_ok; lia|].
  intros k Hk. change 8%Z with (Z.shiftl 1 (Z.of_nat 3)). rewrite tb_bit. intros ->%Nat.eqb_eq. lia.
Qed.
Lemma dense_b_wf : dense_wf dense_b.
Proof.
  apply dense_concrete_wf; [lia..|unfold word_ok; lia|unfold word_ok; lia|].
  intros k Hk. by rewrite tb_0.
Qed.

Lemma dense_range_ops_spec_witness :
  Dense.insert_range dense_a (range_excl 3 66) = Ret (mkDense 100 [18446744073709551613%Z; 11%Z]) ∧
  Dense.last_set_in dense_a (range_excl 1 60) = Ret (Some 2) ∧
  dense_wf (mkDense 100 [18446744073709551613%Z; 11%Z]) ∧
  Dense.superset dense_a dense_b = Ret true ∧ (∀ i, has (words dense_b) i = true → has (words dense_a) i = true).
Proof.
  assert (Hb : bounds_ok (domain_size dense_a) (range_excl 3 66)) by (unfold bounds_ok; simpl; lia).
  destruct (dense_range_ops_spec dense_a dense_b (range_excl 3 66) 5 dense_a_wf Hb ltac:(simpl; lia) dense_b_wf eq_refl)
    as ((s' & Hs' & Hw & _) & _ & _ & _ & (b & Hsup & Hi) & _).
  assert (Hsup' := Hsup). vm_compute in Hsup'. injection Hsup' as <-.
  assert (Hs'' := Hs'). vm_compute in Hs''. injection Hs'' as <-.
  split; [exact Hs'|]. split; [vm_compute; reflexivity|]. split; [exact Hw|]. split; [exact Hsup|by apply Hi].
Defined.

Lemma growable_bitset_spec_witness :
  ∃ s', Growable.insert dense_b 130 = Ret (s', true) ∧ Growable.contains s' 130 = true ∧ dense_wf s'.
Proof.
  destruct (growable_bitset_spec dense_b 130 0 0 dense_b_wf ltac:(simpl; lia) ltac:(simpl; lia))
    as (_ & (s' & Hs' & Hw & Hh) & _).
  exists s'. split; [exact Hs'|]. split; [|exact Hw].
  assert (Hs'' := Hs'). vm_compute in Hs''. injection Hs'' as <-. vm_compute. reflexivity.
Defined.
