(* ===== verification/ChunkedBitSet.v ===== *)
(** * Chunked and mixed bit sets

    [rustc_index/src/bit_set.rs]: [ChunkedBitSet], whose chunks of 2048 bits
    are all zeros, all ones or explicit words, its iterator, and [MixedBitSet],
    which picks [DenseBitSet] or [ChunkedBitSet] by the size of the domain.

    Arithmetic on a [ChunkSize] ([u16]) panics when it leaves its range, and a
    failed [debug_assert!] is a [Panic] too: the theorems exclude both. *)
From S2P Require Import Prelude BitWords BitSet.

Inductive Chunk :=
  | Zeros (chunk_domain_size : nat)
  | Ones (chunk_domain_size : nat)
  | Mixed (chunk_domain_size ones_count : nat) (words : list Z).

#[export] Instance Chunk_eq_dec : EqDecision Chunk.
Proof. solve_decision. Defined.

Record ChunkedBitSet := mkChunked { ch_domain_size : nat; chunks : list Chunk }.

(** ** [ChunkSize] *)
Definition as_chunk_size (n : nat) : nat := Z.to_nat (as_u 16 (Z.of_nat n)).
Definition chunk_size_add (a b : nat) : outcome nat :=
  if (Z.of_nat (a + b) <? 2 ^ 16)%Z then Ret (a + b) else Panic.
Definition chunk_size_sub (a b : nat) : outcome nat := if b <=? a then Ret (a - b) else Panic.

(** [words[i] &= m] *)
Definition and_word (ws : list Z) (i : nat) (m : Z) : outcome (list Z) :=
  w ← unwrap (ws !! i); Ret (<[i := Z.land w m]> ws).

(** ** One chunk *)
Module ChunkOps.
Definition count (c : Chunk) : nat :=
  match c with Zeros _ => 0 | Ones d => d | Mixed _ n _ => n end.

Definition contains (c : Chunk) (elem : nat) : outcome bool :=
  match c with
  | Zeros _ => Ret false
  | Ones _ => Ret true
  | Mixed _ _ ws =>
      let '(word_index, mask) := chunk_word_index_and_mask elem in
      w ← unwrap (ws !! word_index); Ret (negb (Z.land w mask =? 0)%Z)
  end.

Definition insert (c : Chunk) (elem : nat) : outcome (Chunk * bool) :=
  match c with
  | Zeros d =>
      if 1 <? d then
        let '(word_index, mask) := chunk_word_index_and_mask elem in
        ws ← or_word (replicate CHUNK_WORDS 0%Z) word_index mask;
        Ret (Mixed d 1 ws, true)
      else Ret (Ones d, true)
  | Ones _ => Ret (c, false)
  | Mixed d n ws =>
      let '(word_index, mask) := chunk_word_index_and_mask elem in
      w ← unwrap (ws !! word_index);
      if (Z.land w mask =? 0)%Z then
        n ← chunk_size_add n 1;
        if n <? d then ws ← or_word ws word_index mask; Ret (Mixed d n ws, true)
        else Ret (Ones d, true)
      else Ret (c, false)
  end.

Definition remove (c : Chunk) (elem : nat) : outcome (Chunk * bool) :=
  match c with
  | Zeros _ => Ret (c, false)
  | Ones d =>
      if 1 <? d then
        ws ← on_slice_to
               (λ p, clear_excess_bits_in_final_word d (replicate (length p) (word_not 0)))
               (replicate CHUNK_WORDS 0%Z) (num_words d);
        let '(word_index, mask) := chunk_word_index_and_mask elem in
        ws ← and_word ws word_index (word_not mask);
        n ← chunk_size_sub d 1;
        Ret (Mixed d n ws, true)
      else Ret (Zeros d, true)
  | Mixed d n ws =>
      let '(word_index, mask) := chunk_word_index_and_mask elem in
      w ← unwrap (ws !! word_index);
      if negb (Z.land w mask =? 0)%Z then
        n ← chunk_size_sub n 1;
        if 0 <? n then ws ← and_word ws word_index (word_not mask); Ret (Mixed d n ws, true)
        else Ret (Zeros d, true)
      else Ret (c, false)
  end.

(** Two mixed chunks: [None] when [op] changes nothing, else the new words and
    the number of ones in use. *)
Definition update_mixed (op : Z → Z → Z) (d : nat) (ws ows : list Z) : outcome (option (nat * list Z)) :=
  let nw := num_words d in
  a ← slice_to ws nw;
  b ← slice_to ows nw;
  m ← would_modify_words op a b;
  if negb m then Ret None
  else
    r ← update_words op a b;
    if (r.2 : bool) then Ret (Some (as_chunk_size (count_ones r.1), r.1 ++ drop nw ws)) else Panic.

Definition union (c o : Chunk) : outcome (Chunk * bool) :=
  match c, o with
  | _, Zeros _ | Ones _, _ => Ret (c, false)
  | Zeros _, _ | Mixed _ _ _, Ones _ => Ret (o, true)
  | Mixed d _ ws, Mixed _ _ ows =>
      a ← slice_to ws (num_words d);
      b ← slice_to ows (num_words d);
      if bool_decide (a = b) then Ret (c, false)
      else
        r ← update_mixed Z.lor d ws ows;
        match r with
        | None => Ret (c, false)
        | Some (n, ws) => Ret (if n =? d then Ones d else Mixed d n ws, true)
        end
  end.

Definition subtract (c o : Chunk) : outcome (Chunk * bool) :=
  match c, o with
  | Zeros _, _ | _, Zeros _ => Ret (c, false)
  | Ones d, Ones _ | Mixed d _ _, Ones _ => Ret (Zeros d, true)
  | Ones d, Mixed _ on ows =>
      ws ← on_slice_to (λ p, clear_excess_bits_in_final_word d (word_not <$> p)) ows (num_words d);
      n ← chunk_size_sub d on;
      p ← slice_to ws (num_words d);
      if n =? as_chunk_size (count_ones p) then Ret (Mixed d n ws, true) else Panic
  | Mixed d _ ws, Mixed _ _ ows =>
      r ← update_mixed (λ a b, Z.land a (word_not b)) d ws ows;
      match r with
      | None => Ret (c, false)
      | Some (n, ws) => Ret (if n =? 0 then Zeros d else Mixed d n ws, true)
      end
  end.

Definition intersect (c o : Chunk) : outcome (Chunk * bool) :=
  match c, o with
  | Zeros _, _ | _, Ones _ => Ret (c, false)
  | Ones _, _ | Mixed _ _ _, Zeros _ => Ret (o, true)
  | Mixed d _ ws, Mixed _ _ ows =>
      r ← update_mixed Z.land d ws ows;
      match r with
      | None => Ret (c, false)
      | Some (n, ws) => Ret (if n =? 0 then Zeros d else Mixed d n ws, true)
      end
  end.
End ChunkOps.

(** ** [ChunkedBitSet] *)
Module Chunked.
Definition with_chunks (s : ChunkedBitSet) (cs : list Chunk) : ChunkedBitSet :=
  mkChunked (ch_domain_size s) cs.

Definition new (domain_size : nat) (is_empty : bool) : ChunkedBitSet :=
  mkChunked domain_size
    (if domain_size =? 0 then []
     else
       let num_chunks := div_ceil domain_size CHUNK_BITS in
       let last := domain_size mod CHUNK_BITS in
       let last := if last =? 0 then CHUNK_BITS else last in
       let chunk := if is_empty then Zeros else Ones in
       <[num_chunks - 1 := chunk (as_chunk_size last)]>
         (replicate num_chunks (chunk (as_chunk_size CHUNK_BITS)))).
Definition new_empty (domain_size : nat) : ChunkedBitSet := new domain_size true.
Definition new_filled (domain_size : nat) : ChunkedBitSet := new domain_size false.
Definition clear (s : ChunkedBitSet) : ChunkedBitSet := new_empty (ch_domain_size s).
Definition insert_all (s : ChunkedBitSet) : ChunkedBitSet := new_filled (ch_domain_size s).
Definition count (s : ChunkedBitSet) : nat := sum_list (ChunkOps.count <$> chunks s).
Definition is_empty (s : ChunkedBitSet) : bool :=
  forallb (λ c, match c with Zeros _ => true | _ => false end) (chunks s).

Definition contains (s : ChunkedBitSet) (elem : nat) : outcome bool :=
  if elem <? ch_domain_size s then
    c ← unwrap (chunks s !! chunk_index elem); ChunkOps.contains c elem
  else Panic.

(** [insert] and [remove] work on the chunk of [elem], in place. *)
Definition on_chunk (f : Chunk → nat → outcome (Chunk * bool)) (s : ChunkedBitSet) (elem : nat) :
    outcome (ChunkedBitSet * bool) :=
  if elem <? ch_domain_size s then
    c ← unwrap (chunks s !! chunk_index elem);
    r ← f c elem;
    Ret (with_chunks s (<[chunk_index elem := r.1]> (chunks s)), r.2)
  else Panic.
Definition insert : ChunkedBitSet → nat → outcome (ChunkedBitSet * bool) := on_chunk ChunkOps.insert.
Definition remove : ChunkedBitSet → nat → outcome (ChunkedBitSet * bool) := on_chunk ChunkOps.remove.

(** The loop over the zipped chunks of [union], [subtract] and [intersect]. *)
Fixpoint relate_chunks (f : Chunk → Chunk → outcome (Chunk * bool)) (cs os : list Chunk) (changed : bool) :
    outcome (list Chunk * bool) :=
  match cs, os with
  | c :: cs', o :: os' =>
      r ← f c o;
      rest ← relate_chunks f cs' os' (changed || r.2);
      Ret (r.1 :: rest.1, rest.2)
  | _, _ => Ret (cs, changed)
  end.
Definition relate (f : Chunk → Chunk → outcome (Chunk * bool)) (s other : ChunkedBitSet) :
    outcome (ChunkedBitSet * bool) :=
  if ch_domain_size s =? ch_domain_size other then
    r ← relate_chunks f (chunks s) (chunks other) false; Ret (with_chunks s r.1, r.2)
  else Panic.
Definition union : ChunkedBitSet → ChunkedBitSet → outcome (ChunkedBitSet * bool) := relate ChunkOps.union.
Definition subtract : ChunkedBitSet → ChunkedBitSet → outcome (ChunkedBitSet * bool) :=
  relate ChunkOps.subtract.
Definition intersect : ChunkedBitSet → ChunkedBitSet → outcome (ChunkedBitSet * bool) :=
  relate ChunkOps.intersect.

(** *** The iterator *)
Inductive ChunkIter :=
  | IterZeros
  | IterOnes (next end_ : nat)
  | IterMixed (it : BitIter)
  | IterFinished.
Record ChunkedBitIter := mkChunkedIter { cur_chunk_index : nat; cur_chunk_iter : ChunkIter }.

Definition chunk_iter (s : ChunkedBitSet) (chunk_index : nat) : outcome ChunkIter :=
  match chunks s !! chunk_index with
  | Some (Zeros _) => Ret IterZeros
  | Some (Ones d) => Ret (IterOnes 0 d)
  | Some (Mixed d _ ws) => p ← slice_to ws (num_words d); Ret (IterMixed (bit_iter_new p))
  | None => Ret IterFinished
  end.

(** One round of the [loop] of [next]. *)
Definition next_step (s : ChunkedBitSet) (it : ChunkedBitIter) :
    outcome (ChunkedBitIter + option (nat * ChunkedBitIter)) :=
  let ci := cur_chunk_index it in
  let found (next : nat) (it' : ChunkIter) :=
    Ret (inr (Some (next + ci * CHUNK_BITS, mkChunkedIter ci it'))) in
  let advance := it' ← chunk_iter s (ci + 1); Ret (inl (mkChunkedIter (ci + 1) it')) in
  match cur_chunk_iter it with
  | IterZeros => advance
  | IterOnes next end_ => if next <? end_ then found next (IterOnes (next + 1) end_) else advance
  | IterMixed bi =>
      match bit_iter_next bi with Some (next, bi') => found next (IterMixed bi') | None => advance end
  | IterFinished => Ret (inr None)
  end.
Definition next (s : ChunkedBitSet) (it : ChunkedBitIter) : outcome (option (nat * ChunkedBitIter)) :=
  loop (S (length (chunks s))) (next_step s) it.

(** All items of the iterator; the fuel exceeds their number. *)
Definition iter (s : ChunkedBitSet) : outcome (list nat) :=
  it ← chunk_iter s 0; iter_collect (next s) (S (ch_domain_size s)) (mkChunkedIter 0 it).
End Chunked.

(** ** [MixedBitSet] *)
Inductive MixedBitSet :=
  | Small (set : DenseBitSet)
  | Large (set : ChunkedBitSet).

Module MixedSet.
Definition domain_size (s : MixedBitSet) : nat :=
  match s with Small set => domain_size set | Large set => ch_domain_size set end.
Definition new_empty (domain_size : nat) : MixedBitSet :=
  if domain_size <=? CHUNK_BITS then Small (Dense.new_empty domain_size)
  else Large (Chunked.new_empty domain_size).
Definition is_empty (s : MixedBitSet) : bool :=
  match s with Small set => Dense.is_empty set | Large set => Chunked.is_empty set end.
Definition contains (s : MixedBitSet) (elem : nat) : outcome bool :=
  match s with Small set => Dense.contains set elem | Large set => Chunked.contains set elem end.

(** A mutating method, delegated to the representation. *)
Definition on_small {R} (r : outcome (DenseBitSet * R)) : outcome (MixedBitSet * R) :=
  r ← r; Ret (Small r.1, r.2).
Definition on_large {R} (r : outcome (ChunkedBitSet * R)) : outcome (MixedBitSet * R) :=
  r ← r; Ret (Large r.1, r.2).
Definition insert (s : MixedBitSet) (elem : nat) : outcome (MixedBitSet * bool) :=
  match s with
  | Small set => on_small (Dense.insert set elem) | Large set => on_large (Chunked.insert set elem) end.
Definition remove (s : MixedBitSet) (elem : nat) : outcome (MixedBitSet * bool) :=
  match s with
  | Small set => on_small (Dense.remove set elem) | Large set => on_large (Chunked.remove set elem) end.
Definition insert_all (s : MixedBitSet) : outcome MixedBitSet :=
  match s with
  | Small set => set ← Dense.insert_all set; Ret (Small set)
  | Large set => Ret (Large (Chunked.insert_all set)) end.
Definition clear (s : MixedBitSet) : MixedBitSet :=
  match s with Small set => Small (Dense.clear set) | Large set => Large (Chunked.clear set) end.
Definition iter (s : MixedBitSet) : outcome (list nat) :=
  match s with Small set => Ret (Dense.iter set) | Large set => Chunked.iter set end.

(** Relating a small and a large set panics. *)
Definition union (s other : MixedBitSet) : outcome (MixedBitSet * bool) :=
  match s, other with
  | Small set, Small other => on_small (Dense.union set other)
  | Large set, Large other => on_large (Chunked.union set other)
  | _, _ => Panic
  end.
Definition subtract (s other : MixedBitSet) : outcome (MixedBitSet * bool) :=
  match s, other with
  | Small set, Small other => on_small (Dense.subtract set other)
  | Large set, Large other => on_large (Chunked.subtract set other)
  | _, _ => Panic
  end.
(** [unimplemented!] *)
Definition intersect (s other : MixedBitSet) : outcome (MixedBitSet * bool) := Panic.
End MixedSet.
