(* ===== verification/ChunkFacts.v ===== *)
(** * Chunks: well-formedness and the operations on one chunk *)
From S2P Require Import Prelude BitWords BitSet BitSetFacts BitSetRanges ChunkedBitSet.
From Stdlib Require Import Sorting.Sorted.

#[local] Opaque CHUNK_BITS.

(** ** Counting *)
(** How many indices below [d] satisfy [f]. *)
Fixpoint csize (f : nat → bool) (d : nat) : nat :=
  match d with O => 0 | S d' => csize f d' + Nat.b2n (f d') end.

Lemma csize_ext f g d : (∀ i, i < d → f i = g i) → csize f d = csize g d.
Proof. induction d as [|d IH]; intros H; simpl; [done|]. rewrite IH, H by auto with lia. done. Qed.
Lemma csize_le f d : csize f d ≤ d.
Proof. induction d as [|d IH]; simpl; [done|]. destruct (f d); simpl; lia. Qed.
Lemma csize_compl f d : csize (λ i, negb (f i)) d + csize f d = d.
Proof. induction d as [|d IH]; simpl; [done|]. destruct (f d); simpl; lia. Qed.
Lemma csize_0 f d : csize f d = 0 ↔ ∀ i, i < d → f i = false.
Proof.
  induction d as [|d IH]; simpl; [split; [lia|done]|]. split.
  - intros H i Hi. assert (csize f d = 0) as H0 by lia. destruct (decide (i = d)) as [->|].
    + by destruct (f d); simpl in *; [lia|].
    + apply IH; [done|lia].
  - intros H. rewrite H by lia. rewrite (proj2 IH); [done|]. intros i Hi. apply H. lia.
Qed.
Lemma csize_full f d : csize f d = d ↔ ∀ i, i < d → f i = true.
Proof.
  pose proof (csize_compl f d) as Hc. split.
  - intros H i Hi. assert (csize (λ i, negb (f i)) d = 0) as H0 by lia.
    apply negb_false_iff. by apply (proj1 (csize_0 _ _) H0).
  - intros H. assert (csize (λ i, negb (f i)) d = 0) as H0; [|lia].
    apply csize_0. intros i Hi. by rewrite H.
Qed.
Lemma csize_add f d i : i < d → f i = false → csize (λ j, (j =? i) || f j) d = S (csize f d).
Proof.
  induction d as [|d IH]; intros Hi Hf; simpl; [lia|]. destruct (Nat.eqb_spec d i) as [->|Hne].
  - rewrite Hf. simpl. rewrite (csize_ext _ f); [lia|]. intros j Hj. by destruct (Nat.eqb_spec j i); [lia|].
  - rewrite IH by (done || lia). simpl. lia.
Qed.
Lemma csize_remove f d i : i < d → f i = true → S (csize (λ j, negb (j =? i) && f j) d) = csize f d.
Proof.
  intros Hi Hf. rewrite <-(csize_add _ d i Hi); [|by rewrite Nat.eqb_refl].
  apply csize_ext. intros j _. by destruct (Nat.eqb_spec j i) as [->|].
Qed.

Lemma csize_filter f d : csize f d = length (List.filter f (seq 0 d)).
Proof.
  induction d as [|d IH]; [done|]. rewrite seq_S, List.filter_app, length_app, <-IH. simpl.
  by destruct (f d).
Qed.
Lemma StronglySorted_lt_NoDup l : StronglySorted lt l → NoDup l.
Proof.
  induction 1 as [|x l Hl IH Hx]; constructor; [|done]. intros H%list_elem_of_In.
  rewrite List.Forall_forall in Hx. apply Hx in H. lia.
Qed.
Lemma count_ones_size ws d :
  (∀ i, has ws i = true → i < d) → count_ones ws = csize (has ws) d.
Proof.
  intros Hd. rewrite csize_filter, <-(proj1 (length_bits_from ws 0)).
  apply Permutation_length, NoDup_Permutation.
  - apply StronglySorted_lt_NoDup, bits_from_sorted.
  - apply StronglySorted_lt_NoDup, StronglySorted_filter, StronglySorted_lt_seq.
  - intros i. rewrite elem_of_bits_from, list_elem_of_In, filter_In, in_seq.
    replace (i - 64 * 0) with i by lia. split; intros [_ Hh]; [|by split; [lia|]].
    split; [|done]. specialize (Hd _ Hh). lia.
Qed.

(** ** Well-formed chunks *)
Definition chunk_has (c : Chunk) (i : nat) : bool :=
  match c with Zeros _ => false | Ones d => i <? d | Mixed _ _ ws => has ws i end.

(** The words of a mixed chunk of domain size [d]. *)
Definition mixed_words (d : nat) (ws : list Z) : Prop :=
  length ws = CHUNK_WORDS ∧ words_ok ws ∧ ∀ i, has ws i = true → i < d.

Definition chunk_wf (d : nat) (c : Chunk) : Prop :=
  0 < d ∧ d ≤ CHUNK_BITS ∧
  match c with
  | Zeros d' | Ones d' => d' = d
  | Mixed d' n ws => d' = d ∧ mixed_words d ws ∧ n = csize (has ws) d ∧ 0 < n ∧ n < d
  end.

(** The result of an operation on a chunk: a chunk for [f], and whether it changed. *)
Definition chunk_becomes (d : nat) (c : Chunk) (f : nat → bool) (r : outcome (Chunk * bool)) : Prop :=
  ∃ c' b, r = Ret (c', b) ∧ chunk_wf d c' ∧ (∀ i, i < d → chunk_has c' i = f i) ∧ (b = true ↔ c' ≠ c).

Lemma chunk_has_lt d c i : chunk_wf d c → chunk_has c i = true → i < d.
Proof.
  intros (_ & _ & H). destruct c as [d'|d'|d' n ws]; simpl; [done|subst; by intros ?%Nat.ltb_lt|].
  destruct H as (_ & (_ & _ & Hws) & _). apply Hws.
Qed.

Lemma chunk_count d c : chunk_wf d c → ChunkOps.count c = csize (chunk_has c) d.
Proof.
  intros (_ & _ & H). destruct c as [d'|d'|d' n ws]; simpl.
  - symmetry. by apply csize_0.
  - subst d'. symmetry. apply csize_full. intros i ?. by apply Nat.ltb_lt.
  - by destruct H as (_ & _ & -> & _).
Qed.

Lemma mixed_words_ext d ws ws' :
  mixed_words d ws → mixed_words d ws' → (∀ i, i < d → has ws i = has ws' i) → ws = ws'.
Proof.
  intros (Hl & Hok & Hd) (Hl' & Hok' & Hd') H. apply words_ext; [congruence|done..|].
  intros i. destruct (decide (i < d)) as [|Hge]; [by apply H|].
  assert (has ws i = false) as -> by (apply not_true_is_false; intros ?%Hd; lia).
  symmetry. apply not_true_is_false. intros ?%Hd'. lia.
Qed.

(** The representation of a chunk is canonical. *)
Lemma chunk_ext d c c' :
  chunk_wf d c → chunk_wf d c' → (∀ i, i < d → chunk_has c i = chunk_has c' i) → c = c'.
Proof.
  intros Hc Hc' H. pose proof (chunk_count d c Hc) as Hn. pose proof (chunk_count d c' Hc') as Hn'.
  rewrite (csize_ext _ _ _ H), <-Hn' in Hn. destruct Hc as (H0 & _ & Hc), Hc' as (_ & _ & Hc').
  destruct c as [|?|? n ws], c' as [|?|? n' ws']; simpl in *; try (exfalso; lia); [by subst..|].
  destruct Hc as (-> & Hw & _), Hc' as (-> & Hw' & _). subst n'. f_equal. by apply (mixed_words_ext d).
Qed.

Lemma chunk_neq d c c' i :
  i < d → chunk_has c' i ≠ chunk_has c i → c' ≠ c.
Proof. by intros _ H ->. Qed.

(** ** Words of a chunk *)
Lemma CHUNK_BITS_eq : CHUNK_BITS = 64 * CHUNK_WORDS.
Proof. vm_compute. reflexivity. Qed.

Lemma num_words_chunk d : d ≤ CHUNK_BITS → num_words d ≤ CHUNK_WORDS.
Proof.
  rewrite CHUNK_BITS_eq. intros Hd. unfold num_words, div_ceil, WORD_BITS. destruct (div_mod_64 d).
  destruct (Nat.eqb_spec (d mod 64) 0); lia.
Qed.

Lemma as_chunk_size_id n : n ≤ CHUNK_BITS → as_chunk_size n = n.
Proof.
  rewrite CHUNK_BITS_eq. unfold CHUNK_WORDS. intros H. unfold as_chunk_size. rewrite as_u_id by lia. lia.
Qed.

Lemma has_take ws n i : has (take n ws) i = (i / 64 <? n) && has ws i.
Proof.
  unfold has, WORD_BITS. destruct (Nat.ltb_spec (i / 64) n).
  - by rewrite lookup_take_lt.
  - by rewrite lookup_take_ge.
Qed.
Lemma has_app ws ws' i :
  has (ws ++ ws') i = if i / 64 <? length ws then has ws i else has ws' (i - 64 * length ws).
Proof.
  unfold has, WORD_BITS. destruct (div_mod_64 i) as [Hi Hr]. destruct (Nat.ltb_spec (i / 64) (length ws)).
  - by rewrite lookup_app_l.
  - rewrite lookup_app_r by done.
    destruct (div_64_unique (i - 64 * length ws) (i / 64 - length ws) (i mod 64) Hr) as [-> ->]; [lia|done].
Qed.
Lemma has_drop ws n i : has (drop n ws) i = has ws (i + 64 * n).
Proof.
  unfold has, WORD_BITS. destruct (div_mod_64 i) as [Hi Hr].
  destruct (div_64_unique (i + 64 * n) (i / 64 + n) (i mod 64) Hr) as [-> ->]; [lia|].
  by rewrite lookup_drop, (Nat.add_comm n).
Qed.
Lemma words_ok_app ws ws' : words_ok ws → words_ok ws' → words_ok (ws ++ ws').
Proof. intros H H' w [?|?]%elem_of_app; auto. Qed.
Lemma words_ok_take n ws : words_ok ws → words_ok (take n ws).
Proof. intros H w Hw. apply H. by eapply subseteq_take. Qed.
Lemma words_ok_drop n ws : words_ok ws → words_ok (drop n ws).
Proof. intros H w [i Hi]%list_elem_of_lookup. apply H. rewrite lookup_drop in Hi. by eapply list_elem_of_lookup_2. Qed.

(** The words in use. *)
Lemma mixed_slice d ws :
  mixed_words d ws → d ≤ CHUNK_BITS → ∃ p,
    slice_to ws (num_words d) = Ret p ∧ p = take (num_words d) ws ∧ length p = num_words d ∧ words_ok p ∧
    (∀ i, has p i = has ws i).
Proof.
  intros (Hl & Hok & Hd) Hle. assert (Hn := num_words_chunk d Hle). unfold slice_to. rewrite Hl.
  rewrite (proj2 (Nat.leb_le _ _) Hn). eexists. split; [done|]. split; [done|].
  split; [rewrite length_take; lia|]. split; [by apply words_ok_take|]. intros i. rewrite has_take.
  destruct (Nat.ltb_spec (i / 64) (num_words d)) as [|Hge]; [done|]. symmetry.
  apply not_true_is_false. intros ?%Hd%num_words_lt. lia.
Qed.
(** Replacing the words in use. *)
Lemma mixed_replace d ws p :
  mixed_words d ws → d ≤ CHUNK_BITS → length p = num_words d → words_ok p →
  (∀ i, has p i = true → i < d) →
  mixed_words d (p ++ drop (num_words d) ws) ∧ ∀ i, has (p ++ drop (num_words d) ws) i = has p i.
Proof.
  intros (Hl & Hok & Hd) Hle Hlp Hokp Hp. assert (Hn := num_words_chunk d Hle).
  assert (Hh : ∀ i, has (p ++ drop (num_words d) ws) i = has p i).
  { intros i. rewrite has_app, Hlp. destruct (Nat.ltb_spec (i / 64) (num_words d)) as [|Hge]; [done|].
    destruct (div_mod_64 i). rewrite has_drop. replace (_ + _) with i by lia.
    transitivity false; [|symmetry]; apply not_true_is_false; intros Hi.
    - apply Hd, num_words_lt in Hi. lia.
    - apply has_bound in Hi. lia. }
  split; [|done]. split_and!.
  - rewrite length_app, length_drop. lia.
  - by apply words_ok_app, words_ok_drop.
  - intros i. rewrite Hh. apply Hp.
Qed.
Lemma mixed_zero d : mixed_words d (replicate CHUNK_WORDS 0%Z).
Proof.
  split_and!; [apply length_replicate|apply words_ok_replicate, word_ok_0|].
  intros i. by rewrite has_replicate_0.
Qed.

(** ** Single elements *)
Lemma chunk_word_eq elem r :
  elem mod CHUNK_BITS = r → chunk_word_index_and_mask elem = (r / 64, Z.shiftl 1 (Z.of_nat (r mod 64))).
Proof. by intros <-. Qed.

Lemma mixed_word d ws r :
  mixed_words d ws → r < d → d ≤ CHUNK_BITS →
  ∃ w, ws !! (r / 64) = Some w ∧ word_ok w ∧ r / 64 < length ws ∧
    (Z.land w (Z.shiftl 1 (Z.of_nat (r mod 64))) =? 0)%Z = negb (has ws r).
Proof.
  intros (Hl & Hok & _) Hr Hd. assert (Hlt : r / 64 < length ws).
  { rewrite Hl. apply num_words_lt in Hr. pose proof (num_words_chunk d Hd). lia. }
  destruct (lookup_lt_is_Some_2 ws _ Hlt) as [w Hw]. exists w. split_and!; [done| |done|].
  { apply Hok. by eapply list_elem_of_lookup_2. }
  unfold has, WORD_BITS. by rewrite Hw, <-mask_test, negb_involutive.
Qed.

Lemma mixed_set d ws r w w' b :
  mixed_words d ws → r < d → ws !! (r / 64) = Some w → word_ok w' →
  (∀ k, k < 64 → tb w' k = if k =? r mod 64 then b else tb w k) →
  mixed_words d (<[r / 64 := w']> ws) ∧ ∀ i, has (<[r / 64 := w']> ws) i = if i =? r then b else has ws i.
Proof.
  intros (Hl & Hok & Hd) Hr Hw Hw' Hbits. assert (Hlt := lookup_lt_Some _ _ _ Hw).
  assert (Hh : ∀ i, has (<[r / 64 := w']> ws) i = if i =? r then b else has ws i).
  { intros i. rewrite has_insert by done. rewrite <-(same_index i r).
    destruct (Nat.eqb_spec (i / 64) (r / 64)) as [E|E]; simpl; [|done].
    rewrite Hbits by apply div_mod_64. destruct (_ =? _); [done|].
    unfold has, WORD_BITS. by rewrite E, Hw. }
  split; [|done]. split_and!; [by rewrite length_insert|by apply words_ok_insert|].
  intros i. rewrite Hh. destruct (Nat.eqb_spec i r) as [->|]; [done|apply Hd].
Qed.

Lemma mixed_or d ws r :
  mixed_words d ws → r < d → d ≤ CHUNK_BITS → ∃ ws',
    or_word ws (r / 64) (Z.shiftl 1 (Z.of_nat (r mod 64))) = Ret ws' ∧ mixed_words d ws' ∧
    ∀ i, has ws' i = (i =? r) || has ws i.
Proof.
  intros Hws Hr Hd. destruct (mixed_word d ws r Hws Hr Hd) as (w & Hw & Hok & _). unfold or_word. rewrite Hw.
  destruct (div_mod_64 r) as [_ Hlt].
  destruct (mixed_set d ws r w (Z.lor w (Z.shiftl 1 (Z.of_nat (r mod 64)))) true) as [H1 H2]; [done..| | |].
  - by apply word_ok_lor, word_ok_bit.
  - intros k _. rewrite tb_lor, tb_bit. destruct (_ =? _); [apply orb_true_r|apply orb_false_r].
  - eexists. split; [done|]. split; [done|]. intros i. rewrite H2. by destruct (i =? r).
Qed.
Lemma mixed_and d ws r :
  mixed_words d ws → r < d → d ≤ CHUNK_BITS → ∃ ws',
    and_word ws (r / 64) (word_not (Z.shiftl 1 (Z.of_nat (r mod 64)))) = Ret ws' ∧ mixed_words d ws' ∧
    ∀ i, has ws' i = negb (i =? r) && has ws i.
Proof.
  intros Hws Hr Hd. destruct (mixed_word d ws r Hws Hr Hd) as (w & Hw & Hok & _). unfold and_word. rewrite Hw.
  destruct (div_mod_64 r) as [_ Hlt].
  destruct (mixed_set d ws r w (Z.land w (word_not (Z.shiftl 1 (Z.of_nat (r mod 64))))) false) as [H1 H2];
    [done..| | |].
  - by apply word_ok_land, word_ok_not, word_ok_bit.
  - intros k Hk. rewrite tb_land, tb_not, tb_bit, (proj2 (Nat.ltb_lt _ _) Hk).
    destruct (_ =? _); [apply andb_false_r|apply andb_true_r].
  - eexists. split; [done|]. split; [done|]. intros i. rewrite H2. by destruct (i =? r).
Qed.

Lemma chunk_contains_ok d c elem :
  chunk_wf d c → elem mod CHUNK_BITS < d →
  ChunkOps.contains c elem = Ret (chunk_has c (elem mod CHUNK_BITS)).
Proof.
  intros (H0 & Hd & Hc) Hr. destruct c as [d'|d'|d' n ws]; cbn [ChunkOps.contains chunk_has]; [done| |].
  - subst d'. by rewrite (proj2 (Nat.ltb_lt _ _) Hr).
  - destruct Hc as (-> & Hws & _). rewrite (chunk_word_eq elem _ eq_refl).
    destruct (mixed_word d ws _ Hws Hr Hd) as (w & -> & _ & _ & E). simpl. by rewrite E, negb_involutive.
Qed.

Lemma chunk_insert_ok d c elem :
  chunk_wf d c → elem mod CHUNK_BITS < d → ∃ c',
    ChunkOps.insert c elem = Ret (c', negb (chunk_has c (elem mod CHUNK_BITS))) ∧ chunk_wf d c' ∧
    ∀ i, i < d → chunk_has c' i = (i =? elem mod CHUNK_BITS) || chunk_has c i.
Proof.
  intros (H0 & Hd & Hc) Hr. set (r := elem mod CHUNK_BITS) in *.
  destruct c as [d'|d'|d' n ws]; cbn [ChunkOps.insert chunk_has]; rewrite ?(chunk_word_eq elem r eq_refl).
  - subst d'. destruct (Nat.ltb_spec 1 d) as [H1|H1].
    + destruct (mixed_or d _ r (mixed_zero d) Hr Hd) as (ws & -> & Hws & Hh).
      eexists. split; [done|]. split.
      * split_and!; simpl; [done..| |lia|lia].
        rewrite (csize_ext _ (λ j, (j =? r) || false)).
        -- rewrite (csize_add (λ _, false)) by done. f_equal. symmetry. by apply csize_0.
        -- intros i _. by rewrite Hh, has_replicate_0.
      * intros i _. simpl. by rewrite Hh, has_replicate_0.
    + eexists. split; [done|]. split; [done|]. intros i Hi. simpl.
      rewrite (proj2 (Nat.ltb_lt _ _) Hi). by destruct (Nat.eqb_spec i r); [|lia].
  - subst d'. rewrite (proj2 (Nat.ltb_lt _ _) Hr). eexists. split; [done|]. split; [done|].
    intros i Hi. simpl. rewrite (proj2 (Nat.ltb_lt _ _) Hi). by rewrite orb_true_r.
  - destruct Hc as (-> & Hws & Hn & Hpos & Hlt).
    destruct (mixed_word d ws r Hws Hr Hd) as (w & Hw & _ & _ & E). rewrite Hw. cbn [unwrap mbind outcome_bind].
    rewrite E. destruct (has ws r) eqn:Hhr; cbn [negb].
    { eexists. split; [done|]. split; [by split_and!|]. intros i Hi. simpl.
      by destruct (Nat.eqb_spec i r) as [->|]. }
    assert (Hcs : csize (λ j, (j =? r) || has ws j) d = n + 1) by (rewrite csize_add by done; lia).
    pose proof (csize_le (λ j, (j =? r) || has ws j) d) as Hle. unfold chunk_size_add.
    assert (CHUNK_BITS = 64 * 32) as HCB by (rewrite CHUNK_BITS_eq; reflexivity).
    rewrite (proj2 (Z.ltb_lt _ _)) by lia. cbn [mbind outcome_bind].
    destruct (Nat.ltb_spec (n + 1) d) as [Hnd|Hnd].
    + destruct (mixed_or d ws r Hws Hr Hd) as (ws' & -> & Hws' & Hh). eexists. split; [done|]. split.
      * split_and!; simpl; [done..| |lia|lia]. rewrite <-Hcs. apply csize_ext. auto.
      * intros i _. apply Hh.
    + eexists. split; [done|]. split; [done|]. intros i Hi. simpl. rewrite (proj2 (Nat.ltb_lt _ _) Hi). symmetry.
      revert i Hi. apply csize_full. lia.
Qed.

(** Writing a prefix whose excess bits are cleared. *)
Lemma clear_prefix_ok d ws (g : list Z → list Z) :
  mixed_words d ws → d ≤ CHUNK_BITS →
  (∀ p, length p = num_words d → words_ok p → length (g p) = num_words d ∧ words_ok (g p)) → ∃ ws',
    on_slice_to (λ p, clear_excess_bits_in_final_word d (g p)) ws (num_words d) = Ret ws' ∧
    mixed_words d ws' ∧ ∀ i, has ws' i = has (g (take (num_words d) ws)) i && (i <? d).
Proof.
  intros Hws Hd Hg. destruct (mixed_slice d ws Hws Hd) as (p & Hs & -> & Hlp & Hok & _).
  destruct (Hg _ Hlp Hok) as [Hlg Hokg]. destruct (clear_excess_ok d _ Hlg Hokg) as (p' & Hp' & Hl' & Hok' & Hh').
  unfold on_slice_to. rewrite Hs. cbn [mbind outcome_bind]. rewrite Hp'. cbn [mbind outcome_bind].
  destruct (mixed_replace d ws p' Hws Hd) as [H1 H2]; [congruence|done| |].
  { intros i. rewrite Hh'. by intros [_ ?%Nat.ltb_lt]%andb_true_iff. }
  eexists. split; [done|]. split; [done|]. intros i. by rewrite H2.
Qed.

Lemma chunk_remove_ok d c elem :
  chunk_wf d c → elem mod CHUNK_BITS < d → ∃ c',
    ChunkOps.remove c elem = Ret (c', chunk_has c (elem mod CHUNK_BITS)) ∧ chunk_wf d c' ∧
    ∀ i, i < d → chunk_has c' i = negb (i =? elem mod CHUNK_BITS) && chunk_has c i.
Proof.
  intros (H0 & Hd & Hc) Hr. set (r := elem mod CHUNK_BITS) in *.
  destruct c as [d'|d'|d' n ws]; cbn [ChunkOps.remove chunk_has]; rewrite ?(chunk_word_eq elem r eq_refl).
  - subst d'. eexists. split; [done|]. split; [done|]. intros i _. simpl. by rewrite andb_false_r.
  - subst d'. rewrite (proj2 (Nat.ltb_lt _ _) Hr). destruct (Nat.ltb_spec 1 d) as [H1|H1].
    + destruct (clear_prefix_ok d _ (λ p, replicate (length p) (word_not 0)) (mixed_zero d) Hd) as (ws & -> & Hws & Hh).
      { intros p -> _. split; [apply length_replicate|apply words_ok_replicate, word_ok_not, word_ok_0]. }
      destruct (mixed_slice d _ (mixed_zero d) Hd) as (p & _ & -> & Hlp & _).
      assert (Hfull : ∀ i, i < d → has ws i = true).
      { intros i Hi. rewrite Hh, Hlp, has_replicate_ones by done. by apply Nat.ltb_lt. }
      cbn [mbind outcome_bind]. destruct (mixed_and d ws r Hws Hr Hd) as (ws' & -> & Hws' & Hh').
      cbn [mbind outcome_bind]. unfold chunk_size_sub. rewrite (proj2 (Nat.leb_le _ _)) by lia.
      assert (Hcs : S (csize (has ws') d) = d).
      { rewrite (csize_ext _ (λ j, negb (j =? r) && has ws j)) by auto.
        rewrite csize_remove by auto. by apply csize_full. }
      eexists. split; [done|]. split; [split_and!; simpl; [done..|lia|lia|lia]|].
      intros i Hi. simpl. by rewrite Hh', Hfull, (proj2 (Nat.ltb_lt _ _) Hi).
    + eexists. split; [done|]. split; [done|]. intros i Hi. simpl. by destruct (Nat.eqb_spec i r); [|lia].
  - destruct Hc as (-> & Hws & Hn & Hpos & Hlt).
    destruct (mixed_word d ws r Hws Hr Hd) as (w & Hw & _ & _ & E). rewrite Hw. cbn [unwrap mbind outcome_bind].
    rewrite E, negb_involutive. destruct (has ws r) eqn:Hhr.
    2: { eexists. split; [done|]. split; [by split_and!|]. intros i Hi. simpl.
         by destruct (Nat.eqb_spec i r) as [->|]. }
    assert (Hcs : S (csize (λ j, negb (j =? r) && has ws j) d) = n) by (rewrite csize_remove by done; lia).
    unfold chunk_size_sub. rewrite (proj2 (Nat.leb_le _ _)) by lia. cbn [mbind outcome_bind].
    destruct (Nat.ltb_spec 0 (n - 1)) as [Hnd|Hnd].
    + destruct (mixed_and d ws r Hws Hr Hd) as (ws' & -> & Hws' & Hh). eexists. split; [done|]. split.
      * split_and!; simpl; [done..| |lia|lia]. rewrite (csize_ext _ (λ j, negb (j =? r) && has ws j)) by auto. lia.
      * intros i _. apply Hh.
    + eexists. split; [done|]. split; [done|]. intros i Hi. simpl. symmetry.
      revert i Hi. apply csize_0. lia.
Qed.

(** ** Two chunks *)
Lemma zip_with_mixed op f d a b :
  bitwise op f → length a = length b → (∀ i, has a i = true → i < d) → (∀ i, has b i = true → i < d) →
  (∀ x y, f x y = true → x = true ∨ y = true) →
  ∀ i, has (zip_with op a b) i = true → i < d.
Proof.
  intros Hop Hl Ha Hb Hf i. rewrite (has_zip_with op f) by done. intros [?|?]%Hf; auto.
Qed.

Lemma update_mixed_ok op f d ws ows :
  bitwise op f → (∀ x y, f x y = true → x = true ∨ y = true) → d ≤ CHUNK_BITS →
  mixed_words d ws → mixed_words d ows → ∃ o,
    ChunkOps.update_mixed op d ws ows = Ret o ∧
    match o with
    | None => ∀ i, f (has ws i) (has ows i) = has ws i
    | Some (n, ws') => mixed_words d ws' ∧ n = csize (has ws') d ∧
        (∀ i, has ws' i = f (has ws i) (has ows i)) ∧ ws' ≠ ws
    end.
Proof.
  intros Hop Hf Hd Hws Hows. unfold ChunkOps.update_mixed.
  destruct (mixed_slice d ws Hws Hd) as (a & -> & Ha & Hla & Hoka & Hha).
  destruct (mixed_slice d ows Hows Hd) as (b & -> & _ & Hlb & Hokb & Hhb). cbn [mbind outcome_bind].
  assert (Hl : length a = length b) by congruence.
  rewrite would_modify_words_ok by done. cbn [mbind outcome_bind]. rewrite negb_involutive.
  case_bool_decide as E.
  { eexists. split; [done|]. intros i. by rewrite <-Hha, <-Hhb, <-(has_zip_with op f), E by done. }
  rewrite update_words_ok by done. cbn [mbind outcome_bind snd fst]. rewrite bool_decide_eq_false_2 by done.
  cbn [negb]. assert (Hlz : length (zip_with op a b) = num_words d) by (rewrite length_zip_with; lia).
  assert (Hbd : ∀ i, has (zip_with op a b) i = true → i < d).
  { apply (zip_with_mixed op f); [done|done| | |done]; intros i; [rewrite Hha|rewrite Hhb]; [apply Hws|apply Hows]. }
  destruct (mixed_replace d ws (zip_with op a b) Hws Hd Hlz) as [H1 H2]; [by eapply words_ok_zip_with|done|].
  eexists. split; [done|]. split; [done|]. split; [|split].
  - rewrite (count_ones_size _ d Hbd). rewrite as_chunk_size_id.
    + apply csize_ext. intros i _. by rewrite H2.
    + pose proof (csize_le (has (zip_with op a b)) d). lia.
  - intros i. by rewrite H2, (has_zip_with op f), Hha, Hhb.
  - intros Heq. apply E. rewrite Ha at 2. rewrite <-Heq at 1. by rewrite take_app_length'.
Qed.

(** A mixed chunk updated by [op], or the uniform chunk it turned into. *)
Lemma chunk_updated d c ws n c' f :
  chunk_wf d c → mixed_words d ws → n = csize (has ws) d → (∀ i, i < d → has ws i = f i) → c ≠ Mixed d n ws →
  c' = Mixed d n ws ∧ 0 < n ∧ n < d ∨ c' = Ones d ∧ n = d ∨ c' = Zeros d ∧ n = 0 →
  (n = d → c ≠ Ones d) → (n = 0 → c ≠ Zeros d) →
  chunk_becomes d c f (Ret (c', true)).
Proof.
  intros (H0 & Hd & _) Hws Hn Hh Hne Hc' Hd1 Hd0. exists c', true. split; [done|].
  destruct Hc' as [(-> & ? & ?)|[(-> & Hnd)|(-> & Hn0)]].
  - split; [by split_and!|]. split; [auto|]. split; [|done]. intros _ <-. done.
  - split; [by split_and!|]. split.
    + intros i Hi. simpl. rewrite (proj2 (Nat.ltb_lt _ _) Hi), <-Hh by done. symmetry.
      revert i Hi. apply csize_full. congruence.
    + split; [|done]. intros _ <-. by apply Hd1.
  - split; [by split_and!|]. split.
    + intros i Hi. simpl. rewrite <-Hh by done. symmetry. revert i Hi. apply csize_0. congruence.
    + split; [|done]. intros _ <-. by apply Hd0.
Qed.

Lemma chunk_unchanged d c f :
  chunk_wf d c → (∀ i, i < d → f i = chunk_has c i) → chunk_becomes d c f (Ret (c, false)).
Proof.
  intros Hc Hf. exists c, false. split; [done|]. split; [done|]. split; [|split; [done|by intros []]].
  intros i Hi. by rewrite Hf.
Qed.
Lemma chunk_replaced d c c' f :
  chunk_wf d c' → c' ≠ c → (∀ i, i < d → chunk_has c' i = f i) → chunk_becomes d c f (Ret (c', true)).
Proof. intros Hc Hne Hf. exists c', true. split; [done|]. split; [done|]. split; [done|by split]. Qed.

Lemma chunk_union_ok d c o :
  chunk_wf d c → chunk_wf d o → chunk_becomes d c (λ i, chunk_has c i || chunk_has o i) (ChunkOps.union c o).
Proof.
  intros Hc Ho. pose proof Hc as (H0 & Hd & Hc'). pose proof Ho as (_ & _ & Ho').
  destruct c as [d'|d'|d' n ws], o as [e|e|e m ows]; cbn [ChunkOps.union];
    try (apply chunk_unchanged; [done|]; intros i Hi; simpl; subst; by rewrite ?(proj2 (Nat.ltb_lt _ _) Hi), ?orb_false_r);
    try (by apply chunk_replaced).
  - apply chunk_replaced; [done|done|]. intros i Hi. simpl. subst e.
    by rewrite (proj2 (Nat.ltb_lt _ _) Hi), orb_true_r.
  - destruct Hc' as (-> & Hws & Hn & Hpos & Hlt), Ho' as (-> & Hows & _).
    destruct (mixed_slice d ws Hws Hd) as (a & -> & _ & _ & _ & Hha).
    destruct (mixed_slice d ows Hows Hd) as (b & -> & _ & _ & _ & Hhb). cbn [mbind outcome_bind].
    case_bool_decide as E.
    { apply chunk_unchanged; [done|]. intros i _. simpl. rewrite <-Hhb, <-E, Hha. apply orb_diag. }
    destruct (update_mixed_ok Z.lor orb d ws ows) as (r & -> & Hr); [apply bitwise_or| |done..|].
    { intros [] []; auto. }
    cbn [mbind outcome_bind]. destruct r as [[n' ws']|]; [|apply chunk_unchanged; [done|]; intros i _; apply Hr].
    destruct Hr as (Hws' & Hn' & Hh & Hne).
    assert (Hpos' : n' ≠ 0).
    { intros ->. symmetry in Hn'. rewrite csize_0 in Hn'. rewrite Hn in Hpos.
      rewrite (proj2 (csize_0 (has ws) d)) in Hpos; [lia|]. intros i Hi. specialize (Hn' i Hi). rewrite Hh in Hn'.
      by apply orb_false_iff in Hn' as [? _]. }
    pose proof (csize_le (has ws') d). eapply (chunk_updated d _ ws' n'); [done..| | | |by intros ?|by intros ?].
    + intros i _. apply Hh.
    + congruence.
    + destruct (Nat.eqb_spec n' d); [right; by left|left; split_and!; [done|lia|lia]].
Qed.

(** An operation that only removes elements from a mixed chunk. *)
Lemma mixed_shrunk d n ws r (f : bool → bool → bool) g :
  chunk_wf d (Mixed d n ws) →
  match r with
  | None => ∀ i, f (has ws i) (g i) = has ws i
  | Some (n', ws') => mixed_words d ws' ∧ n' = csize (has ws') d ∧
      (∀ i, has ws' i = f (has ws i) (g i)) ∧ ws' ≠ ws
  end →
  (∀ x y, f x y = true → x = true) →
  chunk_becomes d (Mixed d n ws) (λ i, f (has ws i) (g i))
    match r with
    | None => Ret (Mixed d n ws, false)
    | Some (n', ws') => Ret (if n' =? 0 then Zeros d else Mixed d n' ws', true)
    end.
Proof.
  intros Hc Hr Hf. destruct r as [[n' ws']|]; [|by apply chunk_unchanged].
  destruct Hr as (Hws' & Hn' & Hh & Hne). destruct Hc as (H0 & Hd & Hc). pose proof Hc as (_ & _ & Hn & Hpos & Hlt).
  assert (Hsub : n' ≠ d).
  { intros ->. symmetry in Hn'. rewrite csize_full in Hn'. rewrite Hn in Hlt.
    rewrite (proj2 (csize_full (has ws) d)) in Hlt; [lia|]. intros i Hi. specialize (Hn' i Hi). rewrite Hh in Hn'.
    by eapply Hf. }
  pose proof (csize_le (has ws') d). eapply (chunk_updated d _ ws' n'); [done|done|done|auto| | |by intros ?|by intros ?].
  - congruence.
  - destruct (Nat.eqb_spec n' 0); [right; by right|left; split_and!; [done|lia|lia]].
Qed.

Lemma chunk_subtract_ok d c o :
  chunk_wf d c → chunk_wf d o →
  chunk_becomes d c (λ i, chunk_has c i && negb (chunk_has o i)) (ChunkOps.subtract c o).
Proof.
  intros Hc Ho. pose proof Hc as (H0 & Hd & Hc'). pose proof Ho as (_ & _ & Ho').
  destruct c as [d'|d'|d' n ws], o as [e|e|e m ows]; cbn [ChunkOps.subtract];
    try (apply chunk_unchanged; [done|]; intros i Hi; simpl; subst; by rewrite ?andb_true_r).
  - subst. apply chunk_replaced; [by split_and!|done|]. intros i Hi. simpl.
    by rewrite (proj2 (Nat.ltb_lt _ _) Hi).
  - subst d'. destruct Ho' as (-> & Hows & Hm & Hpos & Hlt).
    destruct (clear_prefix_ok d ows (fmap word_not) Hows Hd) as (ws & -> & Hws & Hh).
    { intros p Hl Hok. split; [by rewrite length_fmap|]. intros w (w' & -> & Hw')%list_elem_of_fmap.
      by apply word_ok_not, Hok. }
    destruct (mixed_slice d ows Hows Hd) as (p & _ & Hp & Hlp & Hokp & Hhp). rewrite <-Hp in Hh.
    assert (Hh' : ∀ i, i < d → has ws i = negb (has ows i)).
    { intros i Hi. rewrite Hh, (proj2 (Nat.ltb_lt _ _) Hi), andb_true_r, <-Hhp.
      destruct (word_of p i d Hlp Hi) as (w & Hw & ->). unfold has, WORD_BITS. rewrite list_lookup_fmap, Hw. simpl.
      destruct (div_mod_64 i) as [_ Hr]. by rewrite tb_not, (proj2 (Nat.ltb_lt _ _) Hr). }
    cbn [mbind outcome_bind]. unfold chunk_size_sub. rewrite (proj2 (Nat.leb_le _ _)) by lia.
    cbn [mbind outcome_bind]. destruct (mixed_slice d ws Hws Hd) as (p' & -> & _ & _ & _ & Hhp').
    cbn [mbind outcome_bind]. pose proof (csize_compl (has ows) d) as Hcc.
    assert (Hcs : csize (has ws) d = d - m) by (rewrite (csize_ext _ _ _ Hh'); lia).
    rewrite (count_ones_size p' d) by (intros i; rewrite Hhp'; apply Hws).
    rewrite (csize_ext _ (has ws)) by auto. rewrite Hcs, as_chunk_size_id, Nat.eqb_refl by lia.
    apply chunk_replaced; [split_and!; [done..|lia|lia|lia]|done|]. intros i Hi. simpl.
    by rewrite Hh', (proj2 (Nat.ltb_lt _ _) Hi).
  - destruct Hc' as (-> & Hws & _). subst e. apply chunk_replaced; [by split_and!|done|].
    intros i Hi. simpl. rewrite (proj2 (Nat.ltb_lt _ _) Hi). by rewrite andb_false_r.
  - destruct Hc' as (-> & Hws & Hn & Hpos & Hlt), Ho' as (-> & Hows & _).
    destruct (update_mixed_ok (λ a b, Z.land a (word_not b)) (λ a b, a && negb b) d ws ows) as (r & -> & Hr);
      [apply bitwise_diff|intros [] []; auto|done..|].
    cbn [mbind outcome_bind]. by apply (mixed_shrunk d n ws r (λ a b, a && negb b) (has ows)); [..|intros [] ?].
Qed.

Lemma chunk_intersect_ok d c o :
  chunk_wf d c → chunk_wf d o →
  chunk_becomes d c (λ i, chunk_has c i && chunk_has o i) (ChunkOps.intersect c o).
Proof.
  intros Hc Ho. pose proof Hc as (H0 & Hd & Hc'). pose proof Ho as (_ & _ & Ho').
  destruct c as [d'|d'|d' n ws], o as [e|e|e m ows]; cbn [ChunkOps.intersect];
    try (apply chunk_unchanged; [done|]; intros i Hi; simpl; subst;
         by rewrite ?(proj2 (Nat.ltb_lt _ _) Hi), ?andb_true_r);
    try (apply chunk_replaced; [done|done|]; intros i Hi; simpl; subst;
         by rewrite ?(proj2 (Nat.ltb_lt _ _) Hi), ?andb_false_r).
  destruct Hc' as (-> & Hws & Hn & Hpos & Hlt), Ho' as (-> & Hows & _).
  destruct (update_mixed_ok Z.land andb d ws ows) as (r & -> & Hr); [apply bitwise_and|intros [] []; auto|done..|].
  cbn [mbind outcome_bind]. by apply (mixed_shrunk d n ws r andb (has ows)); [..|intros [] ?].
Qed.
