(* ===== verification/ChunkedFacts.v ===== *)
(** * Chunked and mixed bit sets: the interface laws *)
From S2P Require Import Prelude BitWords BitSet BitSetFacts BitSetRanges ChunkedBitSet ChunkFacts.
From Stdlib Require Import Sorting.Sorted.

#[local] Opaque CHUNK_BITS bits_of word_count_ones.

(** ** Chunk arithmetic *)
Lemma CHUNK_BITS_pos : 0 < CHUNK_BITS.
Proof. rewrite CHUNK_BITS_eq. unfold CHUNK_WORDS. lia. Qed.
Lemma div_mod_chunk i : i = CHUNK_BITS * (i / CHUNK_BITS) + i mod CHUNK_BITS ∧ i mod CHUNK_BITS < CHUNK_BITS.
Proof. pose proof CHUNK_BITS_pos. split; [by apply Nat.div_mod; lia|apply Nat.mod_upper_bound; lia]. Qed.
Lemma div_chunk_unique i q r : r < CHUNK_BITS → i = CHUNK_BITS * q + r → i / CHUNK_BITS = q ∧ i mod CHUNK_BITS = r.
Proof.
  intros Hr ->. split.
  - symmetry. by apply (Nat.div_unique _ _ _ r).
  - symmetry. by apply (Nat.mod_unique _ _ q).
Qed.

Definition num_chunks (D : nat) : nat := div_ceil D CHUNK_BITS.
(** The domain size of a chunk. *)
Definition chunk_dom (D q : nat) : nat := CHUNK_BITS `min` (D - CHUNK_BITS * q).

Lemma num_chunks_lt D q : q < num_chunks D ↔ CHUNK_BITS * q < D.
Proof.
  unfold num_chunks, div_ceil. destruct (div_mod_chunk D) as [HD Hr].
  destruct (Nat.eqb_spec (D mod CHUNK_BITS) 0); split; intros; nia.
Qed.
Lemma chunk_dom_pos D q : q < num_chunks D → 0 < chunk_dom D q ∧ chunk_dom D q ≤ CHUNK_BITS.
Proof. rewrite num_chunks_lt. pose proof CHUNK_BITS_pos. unfold chunk_dom. lia. Qed.

Lemma chunk_index_lt D i : i < D → i / CHUNK_BITS < num_chunks D ∧ i mod CHUNK_BITS < chunk_dom D (i / CHUNK_BITS).
Proof. intros Hi. rewrite num_chunks_lt. unfold chunk_dom. destruct (div_mod_chunk i). lia. Qed.
Lemma chunk_index_in D q r : r < chunk_dom D q → CHUNK_BITS * q + r < D.
Proof. unfold chunk_dom. lia. Qed.

(** ** Well-formed sets *)
Definition chunked_has (s : ChunkedBitSet) (i : nat) : bool :=
  match chunks s !! (i / CHUNK_BITS) with Some c => chunk_has c (i mod CHUNK_BITS) | None => false end.
Definition chunks_ok (D : nat) (cs : list Chunk) : Prop :=
  length cs = num_chunks D ∧ ∀ q c, cs !! q = Some c → chunk_wf (chunk_dom D q) c.
Definition chunked_wf (s : ChunkedBitSet) : Prop :=
  chunks_ok (ch_domain_size s) (chunks s) ∧ (Z.of_nat (ch_domain_size s) < 2 ^ 64)%Z.

Definition chunked_ops : BitSetOps ChunkedBitSet := {|
  bs_wf := chunked_wf;
  bs_domain := ch_domain_size;
  bs_mem := chunked_has;
  bs_contains := Chunked.contains;
  bs_insert := Chunked.insert;
  bs_remove := Chunked.remove;
  bs_insert_all s := Ret (Chunked.insert_all s);
  bs_clear := Chunked.clear;
  bs_is_empty := Chunked.is_empty;
  bs_iter := Chunked.iter;
  bs_union := Chunked.union;
  bs_subtract := Chunked.subtract |}.

Lemma chunked_chunk s i :
  chunked_wf s → i < ch_domain_size s → ∃ c,
    chunks s !! (i / CHUNK_BITS) = Some c ∧ chunk_wf (chunk_dom (ch_domain_size s) (i / CHUNK_BITS)) c ∧
    i mod CHUNK_BITS < chunk_dom (ch_domain_size s) (i / CHUNK_BITS) ∧
    chunked_has s i = chunk_has c (i mod CHUNK_BITS).
Proof.
  intros [[Hl Hok] _] Hi. destruct (chunk_index_lt _ _ Hi) as [Hq Hr].
  destruct (lookup_lt_is_Some_2 (chunks s) (i / CHUNK_BITS)) as [c Hc]; [lia|]. exists c.
  split; [done|]. split; [by apply Hok|]. split; [done|]. unfold chunked_has. by rewrite Hc.
Qed.

Lemma chunked_has_at s q r c :
  chunks s !! q = Some c → r < CHUNK_BITS → chunked_has s (CHUNK_BITS * q + r) = chunk_has c r.
Proof. intros Hc Hr. unfold chunked_has. destruct (div_chunk_unique _ q r Hr eq_refl) as [-> ->]. by rewrite Hc. Qed.

Lemma chunked_mem_lt s i : chunked_wf s → chunked_has s i = true → i < ch_domain_size s.
Proof.
  intros [[Hl Hok] _]. unfold chunked_has. destruct (chunks s !! (i / CHUNK_BITS)) as [c|] eqn:Hc; [|done].
  intros Hr%(chunk_has_lt _ _ _ (Hok _ _ Hc))%chunk_index_in. destruct (div_mod_chunk i). lia.
Qed.

Lemma chunked_ext s t :
  chunked_wf s → chunked_wf t → ch_domain_size s = ch_domain_size t →
  (∀ i, chunked_has s i = chunked_has t i) → s = t.
Proof.
  destruct s as [D cs], t as [D' cs']. intros [[Hl Hok] _] [[Hl' Hok'] _] Hd H. simpl in *. subst D'. f_equal.
  apply list_eq_same_length with (num_chunks D); [done|done|]. intros q c c' Hq Hc Hc'.
  apply (chunk_ext (chunk_dom D q)); [by apply Hok|by apply Hok'|]. intros r Hr.
  assert (Hrb : r < CHUNK_BITS) by (unfold chunk_dom in Hr; lia).
  rewrite <-(chunked_has_at (mkChunked D cs) q r c Hc Hrb), H. by apply chunked_has_at.
Qed.

(** Replacing one chunk. *)
Lemma chunked_update s i c' f :
  chunked_wf s → i < ch_domain_size s → chunk_wf (chunk_dom (ch_domain_size s) (i / CHUNK_BITS)) c' →
  (∀ r, r < chunk_dom (ch_domain_size s) (i / CHUNK_BITS) →
     chunk_has c' r = f (CHUNK_BITS * (i / CHUNK_BITS) + r)) →
  (∀ j, j / CHUNK_BITS ≠ i / CHUNK_BITS → f j = chunked_has s j) →
  (∀ j, f j = true → j < ch_domain_size s) →
  bs_becomes chunked_ops s (Chunked.with_chunks s (<[i / CHUNK_BITS := c']> (chunks s))) f.
Proof.
  intros [[Hl Hok] Hd] Hi Hc' Hf1 Hf2 Hf3. destruct (chunk_index_lt _ _ Hi) as [Hq _].
  assert (Hok' : chunks_ok (ch_domain_size s) (<[i / CHUNK_BITS := c']> (chunks s))).
  { split; [by rewrite length_insert|]. intros q c [(<- & <- & _)|[_ ?]]%list_lookup_insert_Some; auto. }
  split; [done|]. split; [done|]. intros j. simpl. unfold chunked_has. simpl.
  destruct (decide (j / CHUNK_BITS = i / CHUNK_BITS)) as [E|E].
  - rewrite E, list_lookup_insert_eq by lia. destruct (div_mod_chunk j) as [Hj Hr]. rewrite E in Hj.
    destruct (decide (j mod CHUNK_BITS < chunk_dom (ch_domain_size s) (i / CHUNK_BITS))) as [Hlt|Hge].
    + rewrite Hf1 by done. by rewrite <-Hj.
    + transitivity false; [|symmetry]; apply not_true_is_false.
      * by intros ?%(chunk_has_lt _ _ _ Hc').
      * intros Hj'%Hf3. apply chunk_index_lt in Hj' as [_ Hj']. by rewrite E in Hj'.
  - rewrite list_lookup_insert_ne by done. by rewrite Hf2.
Qed.

Lemma chunked_contains_ok s i :
  chunked_wf s → i < ch_domain_size s → Chunked.contains s i = Ret (chunked_has s i).
Proof.
  intros Hs Hi. unfold Chunked.contains, chunk_index. rewrite (proj2 (Nat.ltb_lt _ _) Hi).
  destruct (chunked_chunk s i Hs Hi) as (c & -> & Hc & Hr & ->). cbn [unwrap mbind outcome_bind].
  by apply (chunk_contains_ok (chunk_dom (ch_domain_size s) (i / CHUNK_BITS))).
Qed.

Lemma same_chunk_index i j :
  j / CHUNK_BITS = i / CHUNK_BITS → (j =? i) = (j mod CHUNK_BITS =? i mod CHUNK_BITS).
Proof.
  intros E. destruct (div_mod_chunk i) as [Hi _], (div_mod_chunk j) as [Hj _].
  destruct (Nat.eqb_spec j i) as [->|Hne]; [by rewrite Nat.eqb_refl|].
  symmetry. apply Nat.eqb_neq. intros E'. apply Hne. rewrite Hi, Hj, E, E'. done.
Qed.
Lemma chunk_point i r :
  r < CHUNK_BITS → (CHUNK_BITS * (i / CHUNK_BITS) + r =? i) = (r =? i mod CHUNK_BITS).
Proof.
  intros Hr. destruct (div_chunk_unique (CHUNK_BITS * (i / CHUNK_BITS) + r) _ r Hr eq_refl) as [E1 E2].
  by rewrite same_chunk_index, E2.
Qed.

Lemma chunked_insert_ok s i :
  chunked_wf s → i < ch_domain_size s → ∃ s',
    Chunked.insert s i = Ret (s', negb (chunked_has s i)) ∧
    bs_becomes chunked_ops s s' (λ j, (j =? i) || chunked_has s j).
Proof.
  intros Hs Hi. unfold Chunked.insert, Chunked.on_chunk, chunk_index. rewrite (proj2 (Nat.ltb_lt _ _) Hi).
  destruct (chunked_chunk s i Hs Hi) as (c & Hc & Hwf & Hr & ->). rewrite Hc. cbn [unwrap mbind outcome_bind].
  destruct (chunk_insert_ok _ c i Hwf Hr) as (c' & -> & Hwf' & Hh). cbn [mbind outcome_bind fst snd].
  eexists. split; [done|]. apply chunked_update; [done..| | |].
  - intros r Hlt. assert (r < CHUNK_BITS) by (unfold chunk_dom in Hlt; lia).
    by rewrite Hh, chunk_point, (chunked_has_at s _ r c) by done.
  - intros j Hj. destruct (Nat.eqb_spec j i) as [->|]; done.
  - intros j [->%Nat.eqb_eq|Hj]%orb_true_iff; [done|by apply chunked_mem_lt].
Qed.
Lemma chunked_remove_ok s i :
  chunked_wf s → i < ch_domain_size s → ∃ s',
    Chunked.remove s i = Ret (s', chunked_has s i) ∧
    bs_becomes chunked_ops s s' (λ j, negb (j =? i) && chunked_has s j).
Proof.
  intros Hs Hi. unfold Chunked.remove, Chunked.on_chunk, chunk_index. rewrite (proj2 (Nat.ltb_lt _ _) Hi).
  destruct (chunked_chunk s i Hs Hi) as (c & Hc & Hwf & Hr & ->). rewrite Hc. cbn [unwrap mbind outcome_bind].
  destruct (chunk_remove_ok _ c i Hwf Hr) as (c' & -> & Hwf' & Hh). cbn [mbind outcome_bind fst snd].
  eexists. split; [done|]. apply chunked_update; [done..| | |].
  - intros r Hlt. assert (r < CHUNK_BITS) by (unfold chunk_dom in Hlt; lia).
    by rewrite Hh, chunk_point, (chunked_has_at s _ r c) by done.
  - intros j Hj. destruct (Nat.eqb_spec j i) as [->|]; done.
  - intros j [_ Hj]%andb_true_iff. by apply chunked_mem_lt.
Qed.

(** ** Whole sets *)
Lemma chunk_dom_last D : 0 < D →
  chunk_dom D (num_chunks D - 1) = if D mod CHUNK_BITS =? 0 then CHUNK_BITS else D mod CHUNK_BITS.
Proof.
  intros HD. unfold num_chunks, div_ceil, chunk_dom. destruct (div_mod_chunk D) as [E Hr]. pose proof CHUNK_BITS_pos.
  destruct (Nat.eqb_spec (D mod CHUNK_BITS) 0) as [E0|E0].
  - assert (0 < D / CHUNK_BITS) by nia. replace (D / CHUNK_BITS + 0 - 1) with (D / CHUNK_BITS - 1) by lia.
    assert (CHUNK_BITS * (D / CHUNK_BITS - 1) + CHUNK_BITS = CHUNK_BITS * (D / CHUNK_BITS)) by nia. lia.
  - replace (D / CHUNK_BITS + 1 - 1) with (D / CHUNK_BITS) by lia. lia.
Qed.
Lemma chunk_dom_inner D q : q < num_chunks D - 1 → chunk_dom D q = CHUNK_BITS.
Proof.
  intros Hq. assert (Hq' : S q < num_chunks D) by lia. apply num_chunks_lt in Hq'. unfold chunk_dom. lia.
Qed.

Lemma chunked_new_lookup D (b : bool) q c :
  chunks (Chunked.new D b) !! q = Some c →
  q < num_chunks D ∧ c = (if b then Zeros else Ones) (chunk_dom D q).
Proof.
  unfold Chunked.new. simpl. destruct (Nat.eqb_spec D 0) as [->|HD]; [done|].
  pose proof CHUNK_BITS_pos. rewrite (as_chunk_size_id CHUNK_BITS) by done.
  assert (HD0 : 0 < D) by lia. pose proof (chunk_dom_last D HD0) as Hlast. unfold num_chunks in Hlast.
  assert (Hle : (if D mod CHUNK_BITS =? 0 then CHUNK_BITS else D mod CHUNK_BITS) ≤ CHUNK_BITS).
  { destruct (div_mod_chunk D). destruct (_ =? _); lia. }
  rewrite as_chunk_size_id by done. rewrite <-Hlast.
  intros [(<- & <- & Hlt)|[Hne [-> Hlt]%lookup_replicate]]%list_lookup_insert_Some.
  - rewrite length_replicate in Hlt. by split.
  - split; [done|]. by rewrite chunk_dom_inner by (unfold num_chunks; lia).
Qed.
Lemma chunked_new_length D b : length (chunks (Chunked.new D b)) = num_chunks D.
Proof.
  unfold Chunked.new. simpl. destruct (Nat.eqb_spec D 0) as [->|HD].
  - simpl. unfold num_chunks, div_ceil. pose proof CHUNK_BITS_pos.
    rewrite Nat.Div0.div_0_l, Nat.Div0.mod_0_l. done.
  - by rewrite length_insert, length_replicate.
Qed.
Lemma chunked_new_ok D b :
  (Z.of_nat D < 2 ^ 64)%Z → chunked_wf (Chunked.new D b) ∧ ch_domain_size (Chunked.new D b) = D ∧
    ∀ i, chunked_has (Chunked.new D b) i = negb b && (i <? D).
Proof.
  intros HD. split; [split; [split|]|split].
  - apply chunked_new_length.
  - intros q c [Hq ->]%chunked_new_lookup. simpl. destruct (chunk_dom_pos _ _ Hq). destruct b; by split_and!.
  - done.
  - done.
  - intros i. destruct (Nat.ltb_spec i D) as [Hi|Hi].
    + destruct (chunk_index_lt D i Hi) as [Hq Hr]. unfold chunked_has.
      destruct (lookup_lt_is_Some_2 (chunks (Chunked.new D b)) (i / CHUNK_BITS)) as [c Hc];
        [by rewrite chunked_new_length|].
      rewrite Hc. apply chunked_new_lookup in Hc as [_ ->]. destruct b; simpl; [done|by apply Nat.ltb_lt].
    + rewrite andb_false_r. unfold chunked_has.
      destruct (chunks (Chunked.new D b) !! (i / CHUNK_BITS)) as [c|] eqn:Hc; [|done].
      apply chunked_new_lookup in Hc as [Hq ->]. destruct b; simpl; [done|]. apply Nat.ltb_ge.
      destruct (div_mod_chunk i). unfold chunk_dom. lia.
Qed.

Lemma chunked_is_empty_ok s : chunked_wf s → Chunked.is_empty s = true ↔ ∀ i, chunked_has s i = false.
Proof.
  intros Hs. pose proof Hs as [[Hl Hok] _]. unfold Chunked.is_empty. rewrite forallb_forall. split.
  - intros H i. unfold chunked_has. destruct (chunks s !! (i / CHUNK_BITS)) as [c|] eqn:Hc; [|done].
    apply list_elem_of_lookup_2, list_elem_of_In, H in Hc. by destruct c.
  - intros H c Hc%list_elem_of_In. apply list_elem_of_lookup in Hc as [q Hq]. pose proof (Hok q c Hq) as Hc.
    pose proof (chunk_count _ c Hc) as Hn. rewrite (proj2 (csize_0 (chunk_has c) _)) in Hn.
    + destruct Hc as (H0 & _ & Hc). destruct c; simpl in *; [done|lia|lia].
    + intros r Hr. rewrite <-(chunked_has_at s q r c Hq); [apply H|]. unfold chunk_dom in Hr. lia.
Qed.

Lemma csize_app f a b : csize f (a + b) = csize f a + csize (λ i, f (a + i)) b.
Proof. induction b as [|b IH]; [simpl; rewrite Nat.add_0_r; lia|]. rewrite Nat.add_succ_r. simpl. lia. Qed.

Lemma chunked_count_ok s : chunked_wf s → Chunked.count s = csize (chunked_has s) (ch_domain_size s).
Proof.
  intros Hs. pose proof Hs as [[Hl Hok] _]. unfold Chunked.count.
  cut (∀ n, n ≤ num_chunks (ch_domain_size s) → sum_list (ChunkOps.count <$> take n (chunks s)) =
    csize (chunked_has s) (ch_domain_size s `min` (CHUNK_BITS * n))).
  { intros H. specialize (H _ (le_n _)). rewrite take_ge in H by lia. rewrite H. f_equal.
    pose proof (num_chunks_lt (ch_domain_size s) (num_chunks (ch_domain_size s))). lia. }
  induction n as [|n IH]; intros Hn.
  { simpl. by rewrite Nat.mul_0_r, Nat.min_0_r. }
  destruct (lookup_lt_is_Some_2 (chunks s) n) as [c Hc]; [lia|].
  rewrite (take_S_r _ _ c) by done. rewrite fmap_app, sum_list_with_app || rewrite fmap_app, sum_list_app.
  rewrite IH by lia. simpl. rewrite (chunk_count _ c (Hok _ _ Hc)), Nat.add_0_r.
  assert (Hn' : CHUNK_BITS * n < ch_domain_size s) by (apply num_chunks_lt; lia).
  replace (ch_domain_size s `min` (CHUNK_BITS * S n)) with (CHUNK_BITS * n + chunk_dom (ch_domain_size s) n)
    by (unfold chunk_dom; nia).
  rewrite csize_app, Nat.min_r by lia. f_equal. apply csize_ext. intros r Hr.
  symmetry. apply (chunked_has_at s n r c Hc). unfold chunk_dom in Hr. lia.
Qed.

(** ** Two sets *)
Lemma relate_chunks_ok op (f : bool → bool → bool) D :
  (∀ d c o, chunk_wf d c → chunk_wf d o →
     chunk_becomes d c (λ i, f (chunk_has c i) (chunk_has o i)) (op c o)) →
  ∀ cs os q b, length cs = length os →
    (∀ k c, cs !! k = Some c → chunk_wf (chunk_dom D (q + k)) c) →
    (∀ k c, os !! k = Some c → chunk_wf (chunk_dom D (q + k)) c) → ∃ cs' b',
    Chunked.relate_chunks op cs os b = Ret (cs', b') ∧ length cs' = length cs ∧
    (∀ k c', cs' !! k = Some c' → ∃ c o, cs !! k = Some c ∧ os !! k = Some o ∧
       chunk_wf (chunk_dom D (q + k)) c' ∧
       ∀ i, i < chunk_dom D (q + k) → chunk_has c' i = f (chunk_has c i) (chunk_has o i)) ∧
    (b' = true ↔ b = true ∨ cs' ≠ cs).
Proof.
  intros Hop cs. induction cs as [|c cs IH]; intros [|o os] q b Hl Hcs Hos; simpl in Hl; try done.
  { exists [], b. split; [done|]. split; [done|]. split; [done|]. split; [by left|by intros [|]]. }
  destruct (Hop (chunk_dom D (q + 0)) c o) as (c' & b1 & Hr & Hc' & Hh & Hb1); [by apply Hcs|by apply Hos|].
  destruct (IH os (S q) (b || b1)) as (cs' & b2 & Hr' & Hl' & Hk & Hb2); [lia| | |].
  { intros k x Hx. replace (S q + k) with (q + S k) by lia. by apply Hcs. }
  { intros k x Hx. replace (S q + k) with (q + S k) by lia. by apply Hos. }
  cbn [Chunked.relate_chunks]. rewrite Hr. cbn [mbind outcome_bind fst snd]. rewrite Hr'. cbn [mbind outcome_bind fst snd].
  exists (c' :: cs'), b2. split; [done|]. split; [simpl; by rewrite Hl'|]. split.
  - intros [|k] x Hx; simpl in Hx.
    + injection Hx as <-. by exists c, o.
    + apply Hk in Hx as (c1 & o1 & ? & ? & Hx1 & Hx2). replace (S q + k) with (q + S k) in * by lia. by exists c1, o1.
  - rewrite Hb2, orb_true_iff, Hb1. split; [intros [[?|?]|?]|intros [?|Hne]]; [by left|right; congruence..|by do 2 left|].
    destruct (decide (c' = c)) as [->|]; [right; congruence|left; by right].
Qed.

Lemma chunked_relate_ok op (f : bool → bool → bool) s t :
  (∀ d c o, chunk_wf d c → chunk_wf d o →
     chunk_becomes d c (λ i, f (chunk_has c i) (chunk_has o i)) (op c o)) →
  f false false = false →
  chunked_wf s → chunked_wf t → ch_domain_size s = ch_domain_size t → ∃ s' c,
    Chunked.relate op s t = Ret (s', c) ∧
    bs_becomes chunked_ops s s' (λ i, f (chunked_has s i) (chunked_has t i)) ∧ (c = true ↔ s' ≠ s).
Proof.
  intros Hop Hff [[Hl Hok] Hd] [[Hl' Hok'] _] HD. unfold Chunked.relate. rewrite (proj2 (Nat.eqb_eq _ _) HD).
  destruct (relate_chunks_ok op f (ch_domain_size s) Hop (chunks s) (chunks t) 0 false)
    as (cs' & b & -> & Hlc & Hk & Hb); [congruence|done|rewrite HD; done|].
  cbn [mbind outcome_bind fst snd]. eexists _, _. split; [done|]. split.
  - assert (Hwf : chunked_wf (Chunked.with_chunks s cs')).
    { split; [split; [simpl; congruence|]|done]. intros q c (? & ? & _ & _ & ? & _)%Hk. done. }
    split; [done|]. split; [done|]. intros i. simpl. destruct (decide (i < ch_domain_size s)) as [Hi|Hi].
    + destruct (chunked_chunk _ i Hwf Hi) as (c' & Hc' & _ & Hr & ->). simpl in *.
      destruct (Hk _ _ Hc') as (c & o & Hc & Ho & _ & Hh). rewrite Hh by done.
      unfold chunked_has. by rewrite Hc, Ho.
    + assert (∀ u, chunked_wf u → ch_domain_size u = ch_domain_size s → chunked_has u i = false) as Hout.
      { intros u Hu Hu'. apply not_true_is_false. intros ?%chunked_mem_lt; [lia|done]. }
      rewrite (Hout _ Hwf eq_refl), (Hout s), (Hout t); [by rewrite Hff|split; [by split|lia]|done|by split; [split|]|done].
  - rewrite Hb. split.
    + intros [?|Hne]; [done|]. intros E. apply Hne. rewrite <-E. done.
    + intros Hne. right. intros E. apply Hne. destruct s. unfold Chunked.with_chunks. simpl in *. by rewrite E.
Qed.

(** ** The iterator *)
Definition chunk_items (c : Chunk) : list nat :=
  match c with
  | Zeros _ => []
  | Ones d => seq 0 d
  | Mixed d _ ws => bits_from 0 (take (num_words d) ws)
  end.
Fixpoint chunks_items (q : nat) (cs : list Chunk) : list nat :=
  match cs with
  | [] => []
  | c :: cs' => (Nat.add (q * CHUNK_BITS) <$> chunk_items c) ++ chunks_items (S q) cs'
  end.

Lemma chunk_items_ok d c :
  chunk_wf d c → StronglySorted lt (chunk_items c) ∧ ∀ i, i ∈ chunk_items c ↔ chunk_has c i = true.
Proof.
  intros (_ & Hd & Hc). destruct c as [d'|d'|d' n ws]; simpl.
  - split; [constructor|]. intros i. rewrite elem_of_nil. by split.
  - split; [apply StronglySorted_lt_seq|]. intros i. rewrite elem_of_seq, Nat.ltb_lt. lia.
  - destruct Hc as (-> & Hws & _). destruct (mixed_slice d ws Hws Hd) as (p & _ & <- & _ & _ & Hh).
    split; [apply bits_from_sorted|]. intros i. rewrite elem_of_bits_from.
    replace (i - 64 * 0) with i by lia. rewrite Hh. split; [by intros [_ ?]|split; [lia|done]].
Qed.

Lemma chunks_items_ok D cs : ∀ q,
  (∀ k c, cs !! k = Some c → chunk_wf (chunk_dom D (q + k)) c) →
  StronglySorted lt (chunks_items q cs) ∧
  ∀ i, i ∈ chunks_items q cs ↔ ∃ k c r, cs !! k = Some c ∧ i = (q + k) * CHUNK_BITS + r ∧ chunk_has c r = true.
Proof.
  induction cs as [|c cs IH]; intros q Hcs.
  { split; [constructor|]. intros i. simpl. rewrite elem_of_nil. split; [done|]. by intros (? & ? & ? & ? & _). }
  destruct (IH (S q)) as [IHs IHe].
  { intros k x Hx. replace (S q + k) with (q + S k) by lia. by apply Hcs. }
  assert (Hc : chunk_wf (chunk_dom D (q + 0)) c) by by apply Hcs.
  destruct (chunk_items_ok _ _ Hc) as [Hs He].
  assert (Helem : ∀ i, i ∈ (Nat.add (q * CHUNK_BITS) <$> chunk_items c) ↔
    ∃ r, i = q * CHUNK_BITS + r ∧ chunk_has c r = true).
  { intros i. rewrite list_elem_of_fmap. by setoid_rewrite He. }
  split; cbn [chunks_items].
  - apply StronglySorted_lt_app; [by apply StronglySorted_lt_add|done|].
    intros x y (r & -> & Hr)%Helem (k & c' & r' & _ & -> & _)%IHe.
    apply (chunk_has_lt _ _ _ Hc) in Hr. unfold chunk_dom in Hr. nia.
  - intros i. rewrite elem_of_app, Helem, IHe. split.
    + intros [(r & -> & Hr)|(k & c' & r & Hk & -> & Hr)].
      * exists 0, c, r. split; [done|]. by rewrite Nat.add_0_r.
      * exists (S k), c', r. split; [done|]. split; [f_equal; lia|done].
    + intros ([|k] & c' & r & Hk & -> & Hr); simpl in Hk.
      * injection Hk as <-. left. exists r. by rewrite Nat.add_0_r.
      * right. exists k, c', r. split; [done|]. split; [f_equal; lia|done].
Qed.

(** What a chunk iterator still holds. *)
Definition bit_next (it : BitIter) : outcome (option (nat * BitIter)) := Ret (bit_iter_next it).
Definition chunk_iter_items (it : Chunked.ChunkIter) (l : list nat) : Prop :=
  match it with
  | Chunked.IterZeros | Chunked.IterFinished => l = []
  | Chunked.IterOnes n e => l = seq n (e - n)
  | Chunked.IterMixed bi => yields bit_next bi l
  end.

Lemma bit_iter_yields l : ∀ w q ws,
  l = items w q ws → word_ok w → words_ok ws → (64 * Z.of_nat (q + 1 + length ws) ≤ 2 ^ 64)%Z →
  yields bit_next (mkBitIter w (64 * Z.of_nat q) ws) l.
Proof.
  induction l as [|i l IH]; intros w q ws Hl Hw Hws Hb; pose proof (bit_iter_advance_ok ws w q Hw Hws Hb) as Hadv;
    cbn [yields]; unfold bit_next, bit_iter_next; cbn [it_word it_offset it_iter];
    destruct (bit_iter_advance w (64 * Z.of_nat q) ws) as [[j it']|]; try congruence.
  - destruct Hadv as (? & ? & ? & _ & Hit & _). congruence.
  - destruct Hadv as (w' & q' & ws' & -> & Hit & ? & ? & ?). rewrite Hit in Hl. injection Hl as -> ->.
    eexists. split; [done|]. by apply IH.
Qed.
Lemma bit_iter_new_yields ws :
  words_ok ws → (64 * Z.of_nat (length ws) ≤ 2 ^ 64)%Z → yields bit_next (bit_iter_new ws) (bits_from 0 ws).
Proof.
  intros Hok Hb. destruct ws as [|w ws]; [done|].
  assert (H : yields bit_next (mkBitIter w (64 * Z.of_nat 0) ws) (bits_from 0 (w :: ws))).
  { apply bit_iter_yields; [exact eq_refl|apply Hok; by left|intros x Hx; apply Hok; by right|simpl length in Hb; lia]. }
  destruct (bits_from 0 (w :: ws)); exact H.
Qed.

Section Iterator.
Context (s : ChunkedBitSet) (Hs : chunked_wf s).

(** The state of the iterator is at a chunk, or past the last one. *)
Definition iter_at (it : Chunked.ChunkedBitIter) (l : list nat) : Prop :=
  chunk_iter_items (Chunked.cur_chunk_iter it) l ∧
  (Chunked.cur_chunk_iter it = Chunked.IterFinished ↔ length (chunks s) ≤ Chunked.cur_chunk_index it).
Definition iter_rest (it : Chunked.ChunkedBitIter) (l : list nat) : list nat :=
  (Nat.add (Chunked.cur_chunk_index it * CHUNK_BITS) <$> l) ++
  chunks_items (S (Chunked.cur_chunk_index it)) (drop (S (Chunked.cur_chunk_index it)) (chunks s)).

Lemma chunk_iter_ok ci : ∃ it l,
  Chunked.chunk_iter s ci = Ret it ∧ iter_at (Chunked.mkChunkedIter ci it) l ∧
  iter_rest (Chunked.mkChunkedIter ci it) l = chunks_items ci (drop ci (chunks s)).
Proof.
  destruct Hs as [[Hl Hok] _]. unfold Chunked.chunk_iter, iter_at, iter_rest. simpl.
  destruct (chunks s !! ci) as [c|] eqn:Hc.
  - pose proof (Hok _ _ Hc) as (_ & Hd & Hwf). pose proof (lookup_lt_Some _ _ _ Hc).
    assert (Hat : ∀ it, it ≠ Chunked.IterFinished → (it = Chunked.IterFinished ↔ length (chunks s) ≤ ci)).
    { intros it Hne. split; [done|lia]. }
    rewrite (drop_S _ c ci Hc). simpl. destruct c as [d|d|d n ws].
    + exists Chunked.IterZeros, []. split; [done|]. split; [split; [done|by apply Hat]|done].
    + exists (Chunked.IterOnes 0 d), (seq 0 d). split; [done|]. split; [split; [|by apply Hat]|done].
      simpl. by rewrite Nat.sub_0_r.
    + destruct Hwf as (-> & Hws & _). destruct (mixed_slice _ ws Hws Hd) as (p & -> & -> & Hlp & Hokp & _).
      eexists _, _. split; [done|]. split; [|done]. split; [|by apply Hat]. simpl.
      apply bit_iter_new_yields; [done|]. rewrite Hlp. pose proof (num_words_chunk _ Hd). unfold CHUNK_WORDS in *. lia.
  - apply lookup_ge_None in Hc. exists Chunked.IterFinished, [].
    rewrite !drop_ge by lia. by split_and!.
Qed.

Lemma next_step_ok it l tot :
  iter_at it l → iter_rest it l = tot →
  (∃ it' l', Chunked.next_step s it = Ret (inl it') ∧ iter_at it' l' ∧ iter_rest it' l' = tot ∧
     length (chunks s) - Chunked.cur_chunk_index it' < length (chunks s) - Chunked.cur_chunk_index it) ∨
  (∃ r, Chunked.next_step s it = Ret (inr r) ∧
     match tot with
     | [] => r = None
     | i :: tot' => ∃ it' l', r = Some (i, it') ∧ iter_at it' l' ∧ iter_rest it' l' = tot'
     end).
Proof.
  intros [Hit Hfin] <-. destruct it as [ci cit]. simpl in Hit, Hfin. unfold Chunked.next_step, iter_rest. simpl.
  assert (Hadvance : l = [] → cit ≠ Chunked.IterFinished → ∃ it' l',
    (it' ← Chunked.chunk_iter s (ci + 1); Ret (inl (B := option (nat * Chunked.ChunkedBitIter)) (Chunked.mkChunkedIter (ci + 1) it'))) = Ret (inl it') ∧
    iter_at it' l' ∧ iter_rest it' l' = (Nat.add (ci * CHUNK_BITS) <$> l) ++ chunks_items (S ci) (drop (S ci) (chunks s)) ∧
    length (chunks s) - Chunked.cur_chunk_index it' < length (chunks s) - ci).
  { intros -> Hne. destruct (chunk_iter_ok (ci + 1)) as (it' & l' & -> & Hat & Hrest).
    eexists _, l'. split; [done|]. split; [done|]. split; [by rewrite Hrest, Nat.add_1_r|].
    simpl. destruct (decide (length (chunks s) ≤ ci)) as [Hle|]; [by apply Hfin in Hle|lia]. }
  assert (Hfound : ∀ i l1 cit', l = i :: l1 → chunk_iter_items cit' l1 → cit' ≠ Chunked.IterFinished →
    cit ≠ Chunked.IterFinished → ∃ it' l',
    Some (i + ci * CHUNK_BITS, Chunked.mkChunkedIter ci cit') = Some (ci * CHUNK_BITS + i, it') ∧
    iter_at it' l' ∧ iter_rest it' l' = (Nat.add (ci * CHUNK_BITS) <$> l1) ++ chunks_items (S ci) (drop (S ci) (chunks s))).
  { intros i l1 cit' -> Hit' Hne' Hne. eexists _, l1. split; [by rewrite Nat.add_comm|]. split; [|done].
    split; [done|]. simpl. by rewrite <-Hfin. }
  destruct cit as [|n e|bi|]; simpl in Hit.
  - left. by apply Hadvance.
  - destruct (Nat.ltb_spec n e) as [Hlt|Hge].
    + right. eexists. split; [done|]. replace (e - n) with (S (e - S n)) in Hit by lia. simpl in Hit. rewrite Hit. simpl.
      apply (Hfound n (seq (S n) (e - S n))); [done| |done|done]. simpl. by rewrite Nat.add_1_r.
    + left. apply Hadvance; [|done]. rewrite Hit. by replace (e - n) with 0 by lia.
  - destruct l as [|i l]; simpl in Hit.
    + left. unfold bit_next in Hit. injection Hit as ->. by apply Hadvance.
    + right. destruct Hit as (bi' & Hn & Hy). unfold bit_next in Hn. injection Hn as ->.
      eexists. split; [done|]. simpl. by apply (Hfound i l).
  - right. subst l. eexists. split; [done|]. assert (length (chunks s) ≤ ci) by by apply Hfin.
    simpl. by rewrite drop_ge by lia.
Qed.

Lemma chunked_next_ok it l tot :
  iter_at it l → iter_rest it l = tot → ∃ r, Chunked.next s it = Ret r ∧
  match tot with
  | [] => r = None
  | i :: tot' => ∃ it' l', r = Some (i, it') ∧ iter_at it' l' ∧ iter_rest it' l' = tot'
  end.
Proof.
  intros Hat Hrest. unfold Chunked.next.
  apply (loop_total _ (λ it, ∃ l, iter_at it l ∧ iter_rest it l = tot)
           (λ it, length (chunks s) - Chunked.cur_chunk_index it)).
  - intros it' (l' & Hat' & Hrest').
    destruct (next_step_ok it' l' tot Hat' Hrest') as [(it2 & l2 & ? & ? & ? & ?)|?]; [left|by right].
    exists it2. split_and!; [done|by exists l2|done].
  - by exists l.
  - lia.
Qed.

Lemma chunked_yields tot : ∀ it l, iter_at it l → iter_rest it l = tot → yields (Chunked.next s) it tot.
Proof.
  induction tot as [|i tot IH]; intros it l Hat Hrest;
    destruct (chunked_next_ok it l _ Hat Hrest) as (r & Hn & Hr); simpl.
  - by rewrite Hn, Hr.
  - destruct Hr as (it' & l' & -> & Hat' & Hrest'). exists it'. split; [done|]. by apply (IH it' l').
Qed.

Lemma chunked_iter_ok : ∃ l,
  Chunked.iter s = Ret l ∧ StronglySorted lt l ∧ ∀ i, i ∈ l ↔ chunked_has s i = true.
Proof.
  pose proof Hs as [[Hl Hok] _]. unfold Chunked.iter.
  destruct (chunk_iter_ok 0) as (it & l & -> & Hat & Hrest). cbn [mbind outcome_bind]. rewrite drop_0 in Hrest.
  destruct (chunks_items_ok (ch_domain_size s) (chunks s) 0 Hok) as [Hsorted Helem].
  assert (Hhas : ∀ i, i ∈ chunks_items 0 (chunks s) ↔ chunked_has s i = true).
  { intros i. rewrite Helem. split.
    - intros (k & c & r & Hk & -> & Hr). rewrite (Nat.mul_comm _ CHUNK_BITS). simpl.
      rewrite (chunked_has_at s k r c Hk); [done|].
      apply (chunk_has_lt _ _ _ (Hok _ _ Hk)) in Hr. unfold chunk_dom in Hr. lia.
    - unfold chunked_has. destruct (chunks s !! (i / CHUNK_BITS)) as [c|] eqn:Hc; [|done]. intros Hr.
      exists (i / CHUNK_BITS), c, (i mod CHUNK_BITS). split_and!; [done| |done].
      destruct (div_mod_chunk i). lia. }
  exists (chunks_items 0 (chunks s)). split; [|by split].
  apply iter_collect_ok; [by apply (chunked_yields _ _ l)|]. apply Nat.lt_succ_r.
  rewrite <-(length_seq (ch_domain_size s) 0).
  apply NoDup_length_le; [by apply StronglySorted_lt_NoDup|].
  intros i Hi%Hhas%chunked_mem_lt; [|done]. apply elem_of_seq. lia.
Qed.
End Iterator.

#[export] Instance chunked_laws : BitSetLaws chunked_ops.
Proof.
  split; simpl.
  - apply chunked_mem_lt.
  - apply chunked_ext.
  - apply chunked_contains_ok.
  - intros s i Hi. unfold Chunked.contains. by rewrite (proj2 (Nat.ltb_ge _ _) Hi).
  - apply chunked_insert_ok.
  - apply chunked_remove_ok.
  - intros s [_ Hd]. eexists. split; [done|].
    destruct (chunked_new_ok (ch_domain_size s) false Hd) as (? & ? & ?). by split_and!.
  - intros s [_ Hd]. destruct (chunked_new_ok (ch_domain_size s) true Hd) as (? & ? & ?). by split_and!.
  - apply chunked_is_empty_ok.
  - apply chunked_iter_ok.
  - intros s t Hs Ht HD. by apply (chunked_relate_ok ChunkOps.union orb); [apply chunk_union_ok|..].
  - intros s t Hs Ht HD.
    by apply (chunked_relate_ok ChunkOps.subtract (λ a b, a && negb b)); [apply chunk_subtract_ok|..].
Qed.
