(* ===== verification/ChunkedThms.v ===== *)
(** * Chunked and mixed bit sets: the properties *)
From S2P Require Import Prelude BitWords BitSet BitSetFacts BitSetRanges ChunkedBitSet ChunkFacts ChunkedFacts.
From Stdlib Require Import Sorting.Sorted.

#[local] Opaque CHUNK_BITS.

Definition mixed_wf (s : MixedBitSet) : Prop :=
  match s with
  | Small set => dense_wf set ∧ domain_size set ≤ CHUNK_BITS
  | Large set => chunked_wf set ∧ CHUNK_BITS < ch_domain_size set
  end.
Definition mixed_has (s : MixedBitSet) (i : nat) : bool :=
  match s with Small set => has (words set) i | Large set => chunked_has set i end.

Definition mixed_ops : BitSetOps MixedBitSet := {|
  bs_wf := mixed_wf;
  bs_domain := MixedSet.domain_size;
  bs_mem := mixed_has;
  bs_contains := MixedSet.contains;
  bs_insert := MixedSet.insert;
  bs_remove := MixedSet.remove;
  bs_insert_all := MixedSet.insert_all;
  bs_clear := MixedSet.clear;
  bs_is_empty := MixedSet.is_empty;
  bs_iter := MixedSet.iter;
  bs_union := MixedSet.union;
  bs_subtract := MixedSet.subtract |}.

(** The representation depends on the domain only, and results keep it. *)
Lemma small_becomes s s' f :
  domain_size s ≤ CHUNK_BITS → bs_becomes dense_ops s s' f → bs_becomes mixed_ops (Small s) (Small s') f.
Proof.
  intros Hd (Hw & Hdom & Hf). simpl in Hw, Hdom. split; [|split; [done|exact Hf]].
  split; [done|]. by rewrite Hdom.
Qed.
Lemma large_becomes s s' f :
  CHUNK_BITS < ch_domain_size s → bs_becomes chunked_ops s s' f → bs_becomes mixed_ops (Large s) (Large s') f.
Proof.
  intros Hd (Hw & Hdom & Hf). simpl in Hw, Hdom. split; [|split; [done|exact Hf]].
  split; [done|]. by rewrite Hdom.
Qed.

(** An operation with an answer, delegated to the representation. *)
Lemma on_small_ok s f {R} (r : outcome (DenseBitSet * R)) (P : DenseBitSet → R → Prop) :
  domain_size s ≤ CHUNK_BITS → (∃ s' b, r = Ret (s', b) ∧ bs_becomes dense_ops s s' f ∧ P s' b) →
  ∃ s' b, MixedSet.on_small r = Ret (Small s', b) ∧ bs_becomes mixed_ops (Small s) (Small s') f ∧ P s' b.
Proof. intros Hd (s' & b & -> & ? & ?). exists s', b. split; [done|]. split; [by apply small_becomes|done]. Qed.
Lemma on_large_ok s f {R} (r : outcome (ChunkedBitSet * R)) (P : ChunkedBitSet → R → Prop) :
  CHUNK_BITS < ch_domain_size s → (∃ s' b, r = Ret (s', b) ∧ bs_becomes chunked_ops s s' f ∧ P s' b) →
  ∃ s' b, MixedSet.on_large r = Ret (Large s', b) ∧ bs_becomes mixed_ops (Large s) (Large s') f ∧ P s' b.
Proof. intros Hd (s' & b & -> & ? & ?). exists s', b. split; [done|]. split; [by apply large_becomes|done]. Qed.

Lemma small_neq s s' : Small s' ≠ Small s ↔ s' ≠ s.
Proof. split; [intros H E; apply H; by rewrite E|by intros H [= ?]]. Qed.
Lemma large_neq s s' : Large s' ≠ Large s ↔ s' ≠ s.
Proof. split; [intros H E; apply H; by rewrite E|by intros H [= ?]]. Qed.

(** Two related sets have the same representation. *)
Lemma mixed_relate_ok f du cu (mu : MixedBitSet → MixedBitSet → outcome (MixedBitSet * bool)) s t :
  (∀ s t, mu (Small s) (Small t) = MixedSet.on_small (du s t)) →
  (∀ s t, mu (Large s) (Large t) = MixedSet.on_large (cu s t)) →
  (∀ s t, dense_wf s → dense_wf t → domain_size s = domain_size t → ∃ s' c, du s t = Ret (s', c) ∧
     bs_becomes dense_ops s s' (λ i, f (has (words s) i) (has (words t) i)) ∧ (c = true ↔ s' ≠ s)) →
  (∀ s t, chunked_wf s → chunked_wf t → ch_domain_size s = ch_domain_size t → ∃ s' c, cu s t = Ret (s', c) ∧
     bs_becomes chunked_ops s s' (λ i, f (chunked_has s i) (chunked_has t i)) ∧ (c = true ↔ s' ≠ s)) →
  mixed_wf s → mixed_wf t → MixedSet.domain_size s = MixedSet.domain_size t → ∃ s' c, mu s t = Ret (s', c) ∧
     bs_becomes mixed_ops s s' (λ i, f (mixed_has s i) (mixed_has t i)) ∧ (c = true ↔ s' ≠ s).
Proof.
  intros Hd Hc Hdu Hcu Hs Ht HD.
  destruct s as [s|s], t as [t|t]; destruct Hs as [Hs Hsd], Ht as [Ht Htd]; simpl in HD; try lia.
  - rewrite Hd. destruct (on_small_ok s _ _ _ Hsd (Hdu s t Hs Ht HD)) as (s' & c & ? & ? & ?).
    exists (Small s'), c. by rewrite small_neq.
  - rewrite Hc. destruct (on_large_ok s _ _ _ Hsd (Hcu s t Hs Ht HD)) as (s' & c & ? & ? & ?).
    exists (Large s'), c. by rewrite large_neq.
Qed.

(** A point operation. *)
Lemma mixed_point_ok f g du cu (mu : MixedBitSet → nat → outcome (MixedBitSet * bool)) s i :
  (∀ s, mu (Small s) i = MixedSet.on_small (du s i)) → (∀ s, mu (Large s) i = MixedSet.on_large (cu s i)) →
  (∀ s, dense_wf s → i < domain_size s → ∃ s', du s i = Ret (s', g (has (words s) i)) ∧
     bs_becomes dense_ops s s' (λ j, f j (has (words s) j))) →
  (∀ s, chunked_wf s → i < ch_domain_size s → ∃ s', cu s i = Ret (s', g (chunked_has s i)) ∧
     bs_becomes chunked_ops s s' (λ j, f j (chunked_has s j))) →
  mixed_wf s → i < MixedSet.domain_size s → ∃ s', mu s i = Ret (s', g (mixed_has s i)) ∧
     bs_becomes mixed_ops s s' (λ j, f j (mixed_has s j)).
Proof.
  intros Hd Hc Hdu Hcu Hs Hi. destruct s as [s|s]; destruct Hs as [Hs Hsd].
  - rewrite Hd. destruct (Hdu s Hs Hi) as (s' & -> & Hb). exists (Small s'). split; [done|by apply small_becomes].
  - rewrite Hc. destruct (Hcu s Hs Hi) as (s' & -> & Hb). exists (Large s'). split; [done|by apply large_becomes].
Qed.

#[export] Instance mixed_laws : BitSetLaws mixed_ops.
Proof.
  split; simpl.
  - intros [s|s] i [Hs _]; [apply (bs_mem_lt (O := dense_ops) s i Hs)|by apply chunked_mem_lt].
  - intros [s|s] [t|t] [Hs Hsd] [Ht Htd] HD H; simpl in *; try lia; f_equal;
      [by apply dense_ext|by apply chunked_ext].
  - intros [s|s] i [Hs _]; [by apply dense_contains_ok|by apply chunked_contains_ok].
  - intros [s|s] i Hi; [apply (bs_contains_panics (O := dense_ops) s i Hi)|].
    apply (bs_contains_panics (O := chunked_ops) s i Hi).
  - intros s i. apply (mixed_point_ok (λ j b, (j =? i) || b) negb Dense.insert Chunked.insert);
      [done|done|intros; by apply dense_insert_ok|intros; by apply chunked_insert_ok].
  - intros s i. apply (mixed_point_ok (λ j b, negb (j =? i) && b) (λ b, b) Dense.remove Chunked.remove);
      [done|done|intros; by apply dense_remove_ok|intros; by apply chunked_remove_ok].
  - intros [s|s] [Hs Hsd].
    + destruct (dense_insert_all_ok s Hs) as (s' & E & Hb). exists (Small s'). simpl. rewrite E.
      split; [done|by apply small_becomes].
    + destruct (bs_insert_all_ok (O := chunked_ops) s Hs) as (s' & [= <-] & Hb). eexists. split; [done|].
      by apply large_becomes.
  - intros [s|s] [Hs Hsd]; [apply small_becomes; [done|]; apply (bs_clear_ok (O := dense_ops) s Hs)|].
    apply large_becomes; [done|]. apply (bs_clear_ok (O := chunked_ops) s Hs).
  - intros [s|s] [Hs _]; [apply (bs_is_empty_ok (O := dense_ops) s Hs)|by apply chunked_is_empty_ok].
  - intros [s|s] [Hs _]; [apply (bs_iter_ok (O := dense_ops) s Hs)|by apply chunked_iter_ok].
  - intros s t. apply (mixed_relate_ok orb Dense.union Chunked.union); [done|done| |].
    + apply (bs_union_ok (O := dense_ops)).
    + apply (bs_union_ok (O := chunked_ops)).
  - intros s t. apply (mixed_relate_ok (λ a b, a && negb b) Dense.subtract Chunked.subtract); [done|done| |].
    + apply (bs_subtract_ok (O := dense_ops)).
    + apply (bs_subtract_ok (O := chunked_ops)).
Qed.

Lemma mixed_new_empty_ok D :
  (Z.of_nat D < 2 ^ 64)%Z →
  mixed_wf (MixedSet.new_empty D) ∧ MixedSet.domain_size (MixedSet.new_empty D) = D ∧
  ∀ i, mixed_has (MixedSet.new_empty D) i = false.
Proof.
  intros HD. unfold MixedSet.new_empty. destruct (Nat.leb_spec D CHUNK_BITS).
  - split; [split; [by apply dense_new_empty_wf|done]|]. split; [done|]. intros i. apply has_replicate_0.
  - destruct (chunked_new_ok D true HD) as (? & ? & ?). by split_and!.
Qed.

(** The items of an iterator are as many as the set has elements. *)
Lemma sorted_length_csize l f d :
  StronglySorted lt l → (∀ i, i ∈ l ↔ f i = true) → (∀ i, f i = true → i < d) → length l = csize f d.
Proof.
  intros Hl Hf Hd. rewrite csize_filter. apply Permutation_length, NoDup_Permutation.
  - by apply StronglySorted_lt_NoDup.
  - apply StronglySorted_lt_NoDup, StronglySorted_filter, StronglySorted_lt_seq.
  - intros i. rewrite Hf, list_elem_of_In, filter_In, in_seq. split; [|by intros [_ ?]].
    intros Hi. split; [|done]. apply Hd in Hi. lia.
Qed.

(** C32: [ChunkedBitSet], with its uniform chunks, its cached counts and its chunk
    iterator, keeps the promises of the bit-set interface. *)
Theorem chunked_bitset_correct : BitSetLaws chunked_ops.
Proof. apply chunked_laws. Qed.

(** [MixedBitSet] keeps the promises of the bit-set interface: sets over the
    same domain have the same representation, so no operation panics. *)
Theorem mixed_bitset_correct : BitSetLaws mixed_ops.
Proof. apply mixed_laws. Qed.

(** [ChunkedBitSet::intersect] computes the intersection and reports changes
    exactly, [count] is the number of items of the iterator, and a new set is
    empty or full. *)
Theorem chunked_set_ops_spec (s t : ChunkedBitSet) (D : nat)
    (Hs : chunked_wf s) (Ht : chunked_wf t) (Hd : ch_domain_size s = ch_domain_size t)
    (HD : (Z.of_nat D < 2 ^ 64)%Z) :
  (∃ s' c, Chunked.intersect s t = Ret (s', c) ∧
     bs_becomes chunked_ops s s' (λ i, chunked_has s i && chunked_has t i) ∧ (c = true ↔ s' ≠ s)) ∧
  (∃ l, Chunked.iter s = Ret l ∧ length l = Chunked.count s) ∧
  (chunked_wf (Chunked.new_empty D) ∧ ∀ i, chunked_has (Chunked.new_empty D) i = false) ∧
  (chunked_wf (Chunked.new_filled D) ∧ ∀ i, chunked_has (Chunked.new_filled D) i = (i <? D)).
Proof.
  split; [|split; [|split]].
  - by apply (chunked_relate_ok ChunkOps.intersect andb); [apply chunk_intersect_ok|..].
  - destruct (chunked_iter_ok s Hs) as (l & Hl & Hsorted & Helem). exists l. split; [done|].
    rewrite chunked_count_ok by done. apply sorted_length_csize; [done..|]. intros i. by apply chunked_mem_lt.
  - by destruct (chunked_new_ok D true HD) as (? & _ & ?).
  - by destruct (chunked_new_ok D false HD) as (? & _ & ?).
Qed.

Lemma chunked_set_ops_spec_witness :
  ∃ s', Chunked.intersect (Chunked.new_filled 2100) (Chunked.new_empty 2100) = Ret (s', true) ∧
    chunked_wf s' ∧ Chunked.count s' = 0 ∧ Chunked.count (Chunked.new_filled 2100) = 2100.
Proof.
  destruct (chunked_new_ok 2100 false ltac:(lia)) as (Hs & Hd & _).
  destruct (chunked_new_ok 2100 true ltac:(lia)) as (Ht & Hd' & _).
  destruct (chunked_set_ops_spec (Chunked.new 2100 false) (Chunked.new 2100 true) 0 Hs Ht ltac:(congruence) ltac:(lia))
    as ((s' & c & E & (Hw & _) & _) & _).
  exists s'. assert (E' := E). vm_compute in E'. injection E' as <- <-.
  split; [exact E|]. split; [exact Hw|]. split; vm_compute; reflexivity.
Defined.
