(* ===== verification/BitMatrix.v ===== *)
(** * Bit matrices

    [rustc_index/src/bit_set.rs]: [BitMatrix], all rows in one vector of words,
    and [SparseBitMatrix], rows created on demand. *)
From S2P Require Import Prelude BitWords BitSet BitSetFacts BitSetRanges ChunkFacts.
From Stdlib Require Import Sorting.Sorted.

(** ** [BitMatrix] *)
Record BitMatrix := mkMatrix { num_rows : nat; num_columns : nat; matrix_words : list Z }.

Module Matrix.
Definition new (num_rows num_columns : nat) : BitMatrix :=
  mkMatrix num_rows num_columns (replicate (num_rows * num_words num_columns) 0%Z).

Definition from_row_n (row : DenseBitSet) (num_rows : nat) : outcome BitMatrix :=
  if num_words (domain_size row) =? length (words row) then
    Ret (mkMatrix num_rows (domain_size row) (concat (replicate num_rows (words row))))
  else Panic.

Definition with_words (m : BitMatrix) (ws : list Z) : BitMatrix := mkMatrix (num_rows m) (num_columns m) ws.

Definition rows (m : BitMatrix) : list nat := seq 0 (num_rows m).

Definition range (m : BitMatrix) (row : nat) : nat * nat :=
  let words_per_row := num_words (num_columns m) in
  let start := row * words_per_row in
  (start, start + words_per_row).

Definition insert (m : BitMatrix) (row column : nat) : outcome (BitMatrix * bool) :=
  if (row <? num_rows m) && (column <? num_columns m) then
    let '(start, _) := range m row in
    let '(word_index, mask) := word_index_and_mask column in
    word ← unwrap (matrix_words m !! (start + word_index));
    let new_word := Z.lor word mask in
    Ret (with_words m (<[start + word_index := new_word]> (matrix_words m)), negb (word =? new_word)%Z)
  else Panic.

Definition contains (m : BitMatrix) (row column : nat) : outcome bool :=
  if (row <? num_rows m) && (column <? num_columns m) then
    let '(start, _) := range m row in
    let '(word_index, mask) := word_index_and_mask column in
    w ← unwrap (matrix_words m !! (start + word_index));
    Ret (negb (Z.land w mask =? 0)%Z)
  else Panic.

(** The inner loop of [intersect_rows], which leaves early on a zero word. *)
Fixpoint scan_bits (n base bit : nat) (v : Z) (result : list nat) : list nat :=
  match n with
  | O => result
  | S n' =>
      if (v =? 0)%Z then result
      else
        let result' := if negb (Z.land v 1 =? 0)%Z then vec_push result (base * WORD_BITS + bit) else result in
        scan_bits n' base (bit + 1) (Z.shiftr v 1) result'
  end.
Definition intersect_rows (m : BitMatrix) (row1 row2 : nat) : outcome (list nat) :=
  if (row1 <? num_rows m) && (row2 <? num_rows m) then
    let '(row1_start, row1_end) := range m row1 in
    let '(row2_start, row2_end) := range m row2 in
    ofold (λ result '(base, (i, j)),
        a ← unwrap (matrix_words m !! i);
        b ← unwrap (matrix_words m !! j);
        Ret (scan_bits WORD_BITS base 0 (Z.land a b) result))
      []
      (zip (seq 0 (row1_end - row1_start))
           (zip (seq row1_start (row1_end - row1_start)) (seq row2_start (row2_end - row2_start))))
  else Panic.

(** The loop reads and writes the same vector. *)
Definition union_rows (m : BitMatrix) (read write : nat) : outcome (BitMatrix * bool) :=
  if (read <? num_rows m) && (write <? num_rows m) then
    let '(read_start, read_end) := range m read in
    let '(write_start, write_end) := range m write in
    r ← ofold (λ '(ws, changed) '(read_index, write_index),
          word ← unwrap (ws !! write_index);
          other ← unwrap (ws !! read_index);
          let new_word := Z.lor word other in
          ws ← set_word ws write_index new_word;
          Ret (ws, Z.lor changed (Z.lxor word new_word)))
        (matrix_words m, 0%Z)
        (zip (seq read_start (read_end - read_start)) (seq write_start (write_end - write_start)));
    Ret (with_words m r.1, negb (r.2 =? 0)%Z)
  else Panic.

Definition union_row_with (m : BitMatrix) (with_ : DenseBitSet) (write : nat) : outcome (BitMatrix * bool) :=
  if write <? num_rows m then
    if domain_size with_ =? num_columns m then
      let '(write_start, write_end) := range m write in
      p ← slice_range (matrix_words m) write_start write_end;
      r ← update_words Z.lor p (words with_);
      Ret (with_words m (take write_start (matrix_words m) ++ r.1 ++ drop write_end (matrix_words m)), r.2)
    else Panic
  else Panic.

Definition insert_all_into_row (m : BitMatrix) (row : nat) : outcome BitMatrix :=
  if row <? num_rows m then
    let '(start, end_) := range m row in
    ws ← ofold (λ ws index, set_word ws index (word_not 0)) (matrix_words m) (seq start (end_ - start));
    ws ← on_slice_to (clear_excess_bits_in_final_word (num_columns m)) ws end_;
    Ret (with_words m ws)
  else Panic.

Definition iter (m : BitMatrix) (row : nat) : outcome (list nat) :=
  if row <? num_rows m then
    let '(start, end_) := range m row in
    p ← slice_range (matrix_words m) start end_; Ret (words_iter p)
  else Panic.

Definition count (m : BitMatrix) (row : nat) : outcome nat :=
  let '(start, end_) := range m row in
  p ← slice_range (matrix_words m) start end_; Ret (count_ones p).
End Matrix.

(** ** [SparseBitMatrix] *)
Record SparseBitMatrix := mkSparse { sp_num_columns : nat; sp_rows : list (option DenseBitSet) }.

Module Sparse.
Definition new (num_columns : nat) : SparseBitMatrix := mkSparse num_columns [].

Definition row (m : SparseBitMatrix) (row : nat) : option DenseBitSet := mjoin (sp_rows m !! row).

(** [IndexVec::get_or_insert_with]: [None] rows up to [row], then the row itself. *)
Definition get_or_insert_with {A} (v : list (option A)) (index : nat) (value : A) : list (option A) * A :=
  let v := v ++ replicate (S index - length v) None in
  match v !! index with
  | Some (Some a) => (v, a)
  | _ => (<[index := Some value]> v, value)
  end.

(** The matrix with the row, and the row. *)
Definition ensure_row (m : SparseBitMatrix) (row : nat) : SparseBitMatrix * DenseBitSet :=
  let r := get_or_insert_with (sp_rows m) row (Dense.new_empty (sp_num_columns m)) in
  (mkSparse (sp_num_columns m) r.1, r.2).

(** A mutation of the row [row], whose value is [s]. *)
Definition on_row {R} (m : SparseBitMatrix) (row : nat) (r : outcome (DenseBitSet * R)) :
    outcome (SparseBitMatrix * R) :=
  r ← r; Ret (mkSparse (sp_num_columns m) (<[row := Some r.1]> (sp_rows m)), r.2).
(** The same with a row created on demand. *)
Definition on_ensured_row {R} (m : SparseBitMatrix) (row : nat) (f : DenseBitSet → outcome (DenseBitSet * R)) :
    outcome (SparseBitMatrix * R) :=
  let r := ensure_row m row in on_row r.1 row (f r.2).

Definition insert (m : SparseBitMatrix) (row column : nat) : outcome (SparseBitMatrix * bool) :=
  on_ensured_row m row (λ s, Dense.insert s column).
Definition remove (m : SparseBitMatrix) (row' column : nat) : outcome (SparseBitMatrix * bool) :=
  match sp_rows m !! row' with
  | Some (Some s) => on_row m row' (Dense.remove s column)
  | _ => Ret (m, false)
  end.
Definition clear (m : SparseBitMatrix) (row' : nat) : SparseBitMatrix :=
  match sp_rows m !! row' with
  | Some (Some s) => mkSparse (sp_num_columns m) (<[row' := Some (Dense.clear s)]> (sp_rows m))
  | _ => m
  end.
Definition contains (m : SparseBitMatrix) (row' column : nat) : outcome bool :=
  match row m row' with Some s => Dense.contains s column | None => Ret false end.

(** [pick2_mut] panics on equal or missing indices; a missing row is
    [unreachable!]. *)
Definition union_rows (m : SparseBitMatrix) (read write : nat) : outcome (SparseBitMatrix * bool) :=
  if (read =? write) || match row m read with None => true | Some _ => false end then Ret (m, false)
  else
    let m := (ensure_row m write).1 in
    if read =? write then Panic
    else
      r ← unwrap (sp_rows m !! read);
      w ← unwrap (sp_rows m !! write);
      match r, w with
      | Some read_row, Some write_row => on_row m write (Dense.union write_row read_row)
      | _, _ => Panic
      end.

Definition insert_all_into_row (m : SparseBitMatrix) (row : nat) : outcome (SparseBitMatrix * unit) :=
  on_ensured_row m row (λ s, s ← Dense.insert_all s; Ret (s, tt)).
Definition rows (m : SparseBitMatrix) : list nat := seq 0 (length (sp_rows m)).
Definition iter (m : SparseBitMatrix) (row' : nat) : list nat :=
  match row m row' with Some s => Dense.iter s | None => [] end.

Definition intersect_row (m : SparseBitMatrix) (row : nat) (set : DenseBitSet) : outcome (SparseBitMatrix * bool) :=
  match sp_rows m !! row with
  | Some (Some s) => on_row m row (Dense.intersect s set)
  | _ => Ret (m, false)
  end.
Definition subtract_row (m : SparseBitMatrix) (row : nat) (set : DenseBitSet) : outcome (SparseBitMatrix * bool) :=
  match sp_rows m !! row with
  | Some (Some s) => on_row m row (Dense.subtract s set)
  | _ => Ret (m, false)
  end.
Definition union_row (m : SparseBitMatrix) (row : nat) (set : DenseBitSet) : outcome (SparseBitMatrix * bool) :=
  on_ensured_row m row (λ s, Dense.union s set).
End Sparse.

(** ** A matrix is its rows *)
#[local] Opaque bits_of word_count_ones.

(** ** Rows *)
Definition row_width (m : BitMatrix) : nat := num_words (num_columns m).
Definition row_words (m : BitMatrix) (r : nat) : list Z :=
  take (row_width m) (drop (r * row_width m) (matrix_words m)).
(** The row as a set of columns. *)
Definition as_row (m : BitMatrix) (r : nat) : DenseBitSet := mkDense (num_columns m) (row_words m r).
Definition set_row (m : BitMatrix) (r : nat) (s : DenseBitSet) : BitMatrix :=
  Matrix.with_words m (take (r * row_width m) (matrix_words m) ++ words s ++
                       drop (r * row_width m + row_width m) (matrix_words m)).
Definition matrix_has (m : BitMatrix) (r c : nat) : bool := has (row_words m r) c.

Definition matrix_wf (m : BitMatrix) : Prop :=
  length (matrix_words m) = num_rows m * row_width m ∧ ∀ r, r < num_rows m → dense_wf (as_row m r).

Lemma row_end m r : matrix_wf m → r < num_rows m → r * row_width m + row_width m ≤ length (matrix_words m).
Proof. intros [-> _] Hr. nia. Qed.
Lemma row_words_lookup m r k :
  row_words m r !! k = if k <? row_width m then matrix_words m !! (r * row_width m + k) else None.
Proof.
  unfold row_words. destruct (Nat.ltb_spec k (row_width m)).
  - by rewrite lookup_take_lt, lookup_drop.
  - by rewrite lookup_take_ge.
Qed.
Lemma row_words_length m r : matrix_wf m → r < num_rows m → length (row_words m r) = row_width m.
Proof. intros Hm Hr. pose proof (row_end m r Hm Hr). unfold row_words. rewrite length_take, length_drop. lia. Qed.

(** A vector around one of its slices. *)
Lemma split_slice (ws : list Z) a n :
  a + n ≤ length ws → ws = take a ws ++ take n (drop a ws) ++ drop (a + n) ws.
Proof. intros H. replace (drop (a + n) ws) with (drop n (drop a ws)) by (rewrite drop_drop; f_equal; lia). by rewrite !take_drop. Qed.
Lemma insert_slice (ws : list Z) a n k w :
  a + n ≤ length ws → k < n →
  <[a + k := w]> ws = take a ws ++ <[k := w]> (take n (drop a ws)) ++ drop (a + n) ws.
Proof.
  intros H Hk. rewrite (split_slice ws a n) at 1 by done.
  assert (Hla : length (take a ws) = a) by (rewrite length_take; lia).
  rewrite insert_app_r_alt by lia. rewrite Hla. replace (a + k - a) with k by lia.
  rewrite insert_app_l; [done|]. rewrite length_take, length_drop. lia.
Qed.
Lemma insert_row m r k w :
  matrix_wf m → r < num_rows m → k < row_width m →
  Matrix.with_words m (<[r * row_width m + k := w]> (matrix_words m)) =
    set_row m r (Dense.with_words (as_row m r) (<[k := w]> (row_words m r))).
Proof.
  intros Hm Hr Hk. unfold set_row. simpl. f_equal. apply insert_slice; [by apply row_end|done].
Qed.

Lemma set_row_row m r s r' :
  matrix_wf m → r < num_rows m → r' < num_rows m → length (words s) = row_width m →
  row_words (set_row m r s) r' = if r' =? r then words s else row_words m r'.
Proof.
  intros Hm Hr Hr' Hl. pose proof (row_end m r Hm Hr) as He. unfold row_words, row_width. simpl.
  fold (row_width m). set (n := row_width m) in *. set (ws := matrix_words m) in *.
  assert (Hla : length (take (r * n) ws) = r * n) by (rewrite length_take; lia).
  apply list_eq. intros k. destruct (decide (k < n)) as [Hk|Hk].
  - rewrite lookup_take_lt, lookup_drop by done. destruct (Nat.eqb_spec r' r) as [->|Hne].
    + rewrite lookup_app_r, Hla by lia. replace (r * n + k - r * n) with k by lia. apply lookup_app_l. lia.
    + rewrite lookup_take_lt, lookup_drop by done. destruct (decide (r' < r)).
      * rewrite lookup_app_l by nia. apply lookup_take_lt. nia.
      * rewrite lookup_app_r, Hla by nia. rewrite lookup_app_r by nia. rewrite lookup_drop. f_equal. nia.
  - rewrite lookup_take_ge by lia. destruct (Nat.eqb_spec r' r); symmetry; [apply lookup_ge_None; lia|].
    apply lookup_take_ge. lia.
Qed.

(** Replacing a row by a set over the columns. *)
Lemma set_row_ok m r s :
  matrix_wf m → r < num_rows m → dense_wf s → domain_size s = num_columns m →
  matrix_wf (set_row m r s) ∧
  (∀ r' c, r' < num_rows m → matrix_has (set_row m r s) r' c = if r' =? r then has (words s) c else matrix_has m r' c) ∧
  (set_row m r s ≠ m ↔ s ≠ as_row m r).
Proof.
  intros Hm Hr Hs Hd. assert (Hl : length (words s) = row_width m) by (rewrite (proj1 Hs), Hd; done).
  pose proof (row_end m r Hm Hr) as He. split; [|split].
  - split.
    + rewrite <-(proj1 Hm : _ = num_rows (set_row m r s) * row_width (set_row m r s)).
      unfold set_row. simpl. rewrite !length_app, length_take, length_drop. lia.
    + intros r' Hr'. simpl in Hr'. unfold as_row. rewrite set_row_row by done. simpl.
      destruct (r' =? r); [|by apply Hm]. destruct s. simpl in *. by subst.
  - intros r' c Hr'. unfold matrix_has. rewrite set_row_row by done. by destruct (r' =? r).
  - assert (H1 : set_row m r (as_row m r) = m).
    { unfold set_row. simpl. unfold row_words. rewrite <-split_slice by done. by destruct m. }
    split.
    + intros Hne ->. by apply Hne.
    + intros Hne E. apply Hne. destruct s as [d ws]. simpl in Hd. subst d. unfold as_row. f_equal. simpl in Hl.
      rewrite <-E, set_row_row by done. by rewrite Nat.eqb_refl.
Qed.

(** ** Each operation is the set operation on a row *)
Section Refinement.
Context (m : BitMatrix) (Hm : matrix_wf m).

Lemma row_word r c :
  r < num_rows m → c < num_columns m → c / 64 < row_width m ∧
  row_words m r !! (c / 64) = matrix_words m !! (r * row_width m + c / 64).
Proof.
  intros Hr Hc. assert (Hw : c / 64 < row_width m) by by apply num_words_lt.
  split; [done|].
  rewrite row_words_lookup. by rewrite (proj2 (Nat.ltb_lt _ _) Hw).
Qed.

Lemma row_guard r c : r < num_rows m → c < num_columns m → (r <? num_rows m) && (c <? num_columns m) = true.
Proof. intros Hr Hc. by rewrite (proj2 (Nat.ltb_lt _ _) Hr), (proj2 (Nat.ltb_lt _ _) Hc). Qed.

Lemma matrix_contains_row r c :
  r < num_rows m → c < num_columns m → Matrix.contains m r c = Dense.contains (as_row m r) c.
Proof.
  intros Hr Hc. unfold Matrix.contains, Dense.contains. rewrite row_guard by done. simpl.
  rewrite (proj2 (Nat.ltb_lt _ _) Hc). destruct (row_word r c Hr Hc) as [_ E]. unfold WORD_BITS.
  fold (row_width m). by rewrite E.
Qed.

Lemma matrix_insert_row r c s b :
  r < num_rows m → c < num_columns m → Dense.insert (as_row m r) c = Ret (s, b) →
  Matrix.insert m r c = Ret (set_row m r s, b).
Proof.
  intros Hr Hc. unfold Matrix.insert, Dense.insert. rewrite row_guard by done. simpl.
  rewrite (proj2 (Nat.ltb_lt _ _) Hc). destruct (row_word r c Hr Hc) as [Hk E]. unfold WORD_BITS. rewrite E.
  fold (row_width m). destruct (matrix_words m !! (r * row_width m + c / 64)) as [w|]; simpl; [|done]. intros [= <- <-].
  rewrite insert_row by done. by rewrite Z.eqb_sym.
Qed.

Lemma set_row_eq r ws' :
  r < num_rows m → length ws' = length (matrix_words m) →
  (∀ j, j < length (matrix_words m) → ¬ (r * row_width m ≤ j < r * row_width m + row_width m) →
     ws' !! j = matrix_words m !! j) →
  Matrix.with_words m ws' =
    set_row m r (mkDense (num_columns m) (take (row_width m) (drop (r * row_width m) ws'))).
Proof.
  intros Hr Hl Hj. pose proof (row_end m r Hm Hr) as He. unfold set_row. simpl. f_equal.
  rewrite (split_slice ws' (r * row_width m) (row_width m)) at 1 by lia. f_equal; [|f_equal].
  - apply list_eq. intros j. destruct (decide (j < r * row_width m)).
    + rewrite !lookup_take_lt by done. apply Hj; lia.
    + by rewrite !lookup_take_ge by lia.
  - apply list_eq. intros j. rewrite !lookup_drop.
    destruct (decide (r * row_width m + row_width m + j < length (matrix_words m))).
    + apply Hj; lia.
    + rewrite (proj2 (lookup_ge_None ws' _)) by lia. symmetry. apply lookup_ge_None. lia.
Qed.

Lemma slice_row r :
  r < num_rows m →
  slice_range (matrix_words m) (r * row_width m) (r * row_width m + row_width m) = Ret (row_words m r).
Proof.
  intros Hr. pose proof (row_end m r Hm Hr) as He. unfold slice_range.
  rewrite (proj2 (Nat.leb_le _ _)), (proj2 (Nat.leb_le _ _) He) by lia. simpl. unfold row_words.
  by replace (r * row_width m + row_width m - r * row_width m) with (row_width m) by lia.
Qed.

Lemma matrix_union_row_with_row w t s b :
  w < num_rows m → domain_size t = num_columns m → Dense.union (as_row m w) t = Ret (s, b) →
  Matrix.union_row_with m t w = Ret (set_row m w s, b).
Proof.
  intros Hw Ht. unfold Matrix.union_row_with, Dense.union, Dense.relate. simpl.
  rewrite (proj2 (Nat.ltb_lt _ _) Hw), Ht, Nat.eqb_refl. fold (row_width m).
  rewrite slice_row by done. cbn [mbind outcome_bind].
  destruct (update_words Z.lor (row_words m w) (words t)) as [[ws' b']| |]; simpl; [|done..].
  by intros [= <- <-].
Qed.

Lemma matrix_iter_row r : r < num_rows m → Matrix.iter m r = Ret (Dense.iter (as_row m r)).
Proof.
  intros Hr. unfold Matrix.iter. simpl. rewrite (proj2 (Nat.ltb_lt _ _) Hr). fold (row_width m).
  by rewrite slice_row.
Qed.
Lemma matrix_count_row r : r < num_rows m → Matrix.count m r = Ret (Dense.count (as_row m r)).
Proof. intros Hr. unfold Matrix.count. simpl. fold (row_width m). by rewrite slice_row. Qed.

(** [insert_all_into_row] *)
Lemma set_words_eq n : ∀ ws a w,
  a + n ≤ length ws →
  ofold (λ ws i, set_word ws i w) ws (seq a n) = Ret (take a ws ++ replicate n w ++ drop (a + n) ws).
Proof.
  induction n as [|n IH]; intros ws a w Hl; cbn [seq ofold].
  { simpl. by rewrite Nat.add_0_r, take_drop. }
  assert (set_word ws a w = Ret (<[a := w]> ws)) as ->.
  { unfold set_word. by rewrite (proj2 (Nat.ltb_lt _ _)) by lia. }
  cbn [mbind outcome_bind]. rewrite IH by (rewrite length_insert; lia). f_equal.
  rewrite (take_S_r _ _ w) by (rewrite list_lookup_insert_eq by lia; done).
  rewrite take_insert_ge, drop_insert_lt by lia. rewrite <-app_assoc. simpl. by rewrite Nat.add_succ_r.
Qed.

Lemma clear_excess_prefix d pre ws ws' :
  clear_excess_bits_in_final_word d ws = Ret ws' → clear_excess_bits_in_final_word d (pre ++ ws) = Ret (pre ++ ws').
Proof.
  unfold clear_excess_bits_in_final_word. destruct (0 <? d mod WORD_BITS); [|by intros [= <-]].
  destruct (vec_pop ws) as [[w ws0]|] eqn:E; [|done]. apply vec_pop_Some in E as ->. intros [= <-].
  unfold vec_push. rewrite app_assoc. destruct (vec_pop ((pre ++ ws0) ++ [w])) as [[w1 ws1]|] eqn:E.
  - apply vec_pop_Some in E. apply app_inj_tail in E as [<- <-]. by rewrite app_assoc.
  - apply vec_pop_None in E. by destruct (pre ++ ws0).
Qed.

Lemma matrix_insert_all_row r s :
  r < num_rows m → Dense.insert_all (as_row m r) = Ret s → Matrix.insert_all_into_row m r = Ret (set_row m r s).
Proof.
  intros Hr. pose proof (row_end m r Hm Hr) as He. unfold Matrix.insert_all_into_row, Dense.insert_all, Dense.clear_excess_bits.
  rewrite (proj2 (Nat.ltb_lt _ _) Hr). unfold Matrix.range. fold (row_width m).
  replace (r * row_width m + row_width m - r * row_width m) with (row_width m) by lia.
  rewrite set_words_eq by done. cbn [mbind outcome_bind]. simpl. rewrite row_words_length by done.
  destruct (clear_excess_bits_in_final_word (num_columns m) (replicate (row_width m) (word_not 0))) as [ws'| |] eqn:E;
    simpl; [|done..]. intros [= <-].
  unfold on_slice_to, slice_to. rewrite !length_app, length_take, length_drop, length_replicate.
  rewrite (proj2 (Nat.leb_le _ _)) by lia. cbn [mbind outcome_bind].
  rewrite app_assoc.
  assert (Hlen : length (take (r * row_width m) (matrix_words m) ++ replicate (row_width m) (word_not 0)) =
    r * row_width m + row_width m) by (rewrite length_app, length_take, length_replicate; lia).
  rewrite take_app_length' by done. rewrite drop_app_length' by done.
  rewrite (clear_excess_prefix _ _ _ _ E). cbn [mbind outcome_bind]. unfold set_row. simpl. by rewrite <-app_assoc.
Qed.

(** [union_rows]: the rows are equal or apart. *)
Definition union_step : list Z * Z → nat * nat → outcome (list Z * Z) :=
  λ '(ws, changed) '(read_index, write_index),
    word ← unwrap (ws !! write_index);
    other ← unwrap (ws !! read_index);
    let new_word := Z.lor word other in
    ws ← set_word ws write_index new_word;
    Ret (ws, Z.lor changed (Z.lxor word new_word)).

Lemma union_loop_ok n : ∀ a b ws ch,
  a + n ≤ length ws → b + n ≤ length ws → a = b ∨ a + n ≤ b ∨ b + n ≤ a → ∃ ws' ch',
    ofold union_step (ws, ch) (zip (seq a n) (seq b n)) = Ret (ws', ch') ∧ length ws' = length ws ∧
    (∀ j, ws' !! j = if (b <=? j) && (j <? b + n)
                     then w ← ws !! j; r ← ws !! (a + (j - b)); Some (Z.lor w r) else ws !! j) ∧
    (ch' = 0%Z ↔ ch = 0%Z ∧ ws' = ws).
Proof.
  induction n as [|n IH]; intros a b ws ch Ha Hb Hab; cbn [seq zip zip_with ofold].
  { exists ws, ch. split; [done|]. split; [done|]. split; [|by split; [|intros [? _]]].
    intros j. destruct (Nat.leb_spec b j), (Nat.ltb_spec j (b + 0)); simpl; try done; lia. }
  destruct (lookup_lt_is_Some_2 ws b) as [w Hw]; [lia|]. destruct (lookup_lt_is_Some_2 ws a) as [r Hr]; [lia|].
  cbn [union_step]. rewrite Hw, Hr. cbn [unwrap mbind outcome_bind]. unfold set_word.
  rewrite (proj2 (Nat.ltb_lt b _)) by lia. cbn [mbind outcome_bind].
  destruct (IH (S a) (S b) (<[b := Z.lor w r]> ws) (Z.lor ch (Z.lxor w (Z.lor w r)))) as (ws' & ch' & -> & Hl & Hj & Hch);
    [rewrite ?length_insert; lia..|].
  exists ws', ch'. split; [done|]. split; [by rewrite Hl, length_insert|]. split.
  - intros j. rewrite Hj. destruct (decide (j = b)) as [->|Hne].
    + destruct (Nat.leb_spec (S b) b); [lia|]. simpl. rewrite list_lookup_insert_eq by lia.
      rewrite (proj2 (Nat.leb_le b b)), (proj2 (Nat.ltb_lt b _)) by lia. simpl.
      rewrite Nat.sub_diag, Nat.add_0_r, Hw, Hr. done.
    + rewrite (list_lookup_insert_ne ws b j) by lia.
      destruct (Nat.leb_spec (S b) j), (Nat.leb_spec b j), (Nat.ltb_spec j (S b + n)), (Nat.ltb_spec j (b + S n));
        simpl; try done; try lia.
      rewrite list_lookup_insert_ne by lia. by replace (S (a + (j - S b))) with (a + (j - b)) by lia.
  - rewrite Hch, Z.lor_eq_0_iff, Z.lxor_eq_0_iff. split.
    + intros [[? E] ->]. split; [done|]. by rewrite <-E, list_insert_id.
    + intros [? Hws]. split; [split; [done|]|].
      * specialize (Hj b). rewrite Hws in Hj. destruct (Nat.leb_spec (S b) b); [lia|]. simpl in Hj.
        rewrite list_lookup_insert_eq, Hw in Hj by lia. congruence.
      * rewrite Hws. symmetry. apply list_insert_id. specialize (Hj b). rewrite Hws in Hj.
        destruct (Nat.leb_spec (S b) b); [lia|]. simpl in Hj. by rewrite list_lookup_insert_eq in Hj by lia.
Qed.

Lemma matrix_union_rows_row r w s b :
  r < num_rows m → w < num_rows m → Dense.union (as_row m w) (as_row m r) = Ret (s, b) →
  Matrix.union_rows m r w = Ret (set_row m w s, b).
Proof.
  intros Hr Hw. pose proof (row_end m r Hm Hr) as Her. pose proof (row_end m w Hm Hw) as Hew.
  assert (Hdm := proj2 Hm w Hw). unfold Dense.union, Dense.relate. simpl. rewrite Nat.eqb_refl.
  rewrite update_words_ok by (rewrite !row_words_length by done; done). cbn [mbind outcome_bind]. intros [= <- <-].
  unfold Matrix.union_rows. rewrite (proj2 (Nat.ltb_lt _ _) Hr), (proj2 (Nat.ltb_lt _ _) Hw). simpl.
  fold (row_width m). replace (r * row_width m + row_width m - r * row_width m) with (row_width m) by lia.
  replace (w * row_width m + row_width m - w * row_width m) with (row_width m) by lia.
  destruct (union_loop_ok (row_width m) (r * row_width m) (w * row_width m) (matrix_words m) 0)
    as (ws' & ch & Hloop & Hl & Hj & Hch); [done|done| |].
  { destruct (decide (r = w)) as [->|]; [by left|right]. destruct (decide (r < w)); [left|right]; nia. }
  change (ofold _ (matrix_words m, 0%Z) _) with
    (ofold union_step (matrix_words m, 0%Z) (zip (seq (r * row_width m) (row_width m)) (seq (w * row_width m) (row_width m)))).
  rewrite Hloop. cbn [mbind outcome_bind fst snd].
  assert (Hrow : take (row_width m) (drop (w * row_width m) ws') = zip_with Z.lor (row_words m w) (row_words m r)).
  { apply list_eq. intros k. rewrite lookup_zip_with, !row_words_lookup. destruct (Nat.ltb_spec k (row_width m)).
    - rewrite lookup_take_lt, lookup_drop, Hj by done.
      rewrite (proj2 (Nat.leb_le _ _)), (proj2 (Nat.ltb_lt _ _)) by lia. simpl.
      by replace (r * row_width m + (w * row_width m + k - w * row_width m)) with (r * row_width m + k) by lia.
    - by rewrite lookup_take_ge. }
  assert (Hset : Matrix.with_words m ws' = set_row m w (Dense.with_words (as_row m w) (zip_with Z.lor (row_words m w) (row_words m r)))).
  { rewrite (set_row_eq w ws' Hw Hl), Hrow; [done|]. intros j _ Hout. rewrite Hj.
    destruct (Nat.leb_spec (w * row_width m) j), (Nat.ltb_spec j (w * row_width m + row_width m)); simpl; try done; lia. }
  rewrite Hset. do 2 f_equal. destruct (Z.eqb_spec ch 0) as [E|E]; case_bool_decide as E'; try done; exfalso.
  - apply E'. apply Hch in E as [_ ->]. rewrite <-Hrow. done.
  - apply E, Hch. split; [done|]. rewrite E' in Hset.
    apply (f_equal matrix_words) in Hset. simpl in Hset. rewrite Hset. unfold row_words. by rewrite <-split_slice.
Qed.

(** [intersect_rows] lists the bits of the conjunction of the words. *)
Lemma filter_seq_S (f : nat → bool) n :
  List.filter f (seq 0 (S n)) = (if f 0 then [0] else []) ++ (S <$> List.filter (λ k, f (S k)) (seq 0 n)).
Proof.
  cbn [seq List.filter]. rewrite <-seq_shift.
  assert (H : ∀ l, List.filter f (List.map S l) = S <$> List.filter (λ k, f (S k)) l).
  { induction l as [|x l IH]; simpl; [done|]. rewrite IH. by destruct (f (S x)). }
  rewrite H. by destruct (f 0).
Qed.
Lemma tb_shiftr v k : tb (Z.shiftr v 1) k = tb v (S k).
Proof. unfold tb. rewrite Z.shiftr_spec by lia. f_equal. lia. Qed.

Lemma scan_bits_ok base n : ∀ bit v res,
  Matrix.scan_bits n base bit v res = res ++ (Nat.add (64 * base + bit) <$> List.filter (tb v) (seq 0 n)).
Proof.
  induction n as [|n IH]; intros bit v res; cbn [Matrix.scan_bits].
  { by rewrite app_nil_r. }
  destruct (Z.eqb_spec v 0) as [->|_].
  { rewrite List_filter_none by (intros; apply tb_0). by rewrite app_nil_r. }
  rewrite IH, filter_seq_S, fmap_app, <-list_fmap_compose.
  assert (Htl : Nat.add (64 * base + (bit + 1)) <$> List.filter (tb (Z.shiftr v 1)) (seq 0 n) =
    (Nat.add (64 * base + bit) ∘ S <$> List.filter (λ k, tb v (S k)) (seq 0 n))).
  { rewrite (List_filter_ext (tb (Z.shiftr v 1)) (λ k, tb v (S k))) by (intros; apply tb_shiftr).
    apply list_fmap_ext. intros i x _. simpl. lia. }
  rewrite Htl, app_assoc. f_equal.
  assert (E : negb (Z.land v 1 =? 0)%Z = tb v 0) by apply (mask_test v 0).
  rewrite E. destruct (tb v 0); simpl; [|by rewrite app_nil_r].
  unfold vec_push, WORD_BITS. do 2 f_equal. lia.
Qed.

#[local] Transparent bits_of.
Lemma scan_bits_word base v res :
  Matrix.scan_bits WORD_BITS base 0 v res = res ++ (Nat.add (64 * base) <$> bits_of v).
Proof. unfold bits_of. rewrite scan_bits_ok, Nat.add_0_r. reflexivity. Qed.
#[local] Opaque bits_of.

Lemma intersect_loop_ok n : ∀ q a b res,
  a + n ≤ length (matrix_words m) → b + n ≤ length (matrix_words m) →
  ofold (λ result '(base, (i, j)),
      x ← unwrap (matrix_words m !! i);
      y ← unwrap (matrix_words m !! j);
      Ret (Matrix.scan_bits WORD_BITS base 0 (Z.land x y) result))
    res (zip (seq q n) (zip (seq a n) (seq b n))) =
  Ret (res ++ bits_from q (zip_with Z.land (take n (drop a (matrix_words m))) (take n (drop b (matrix_words m))))).
Proof.
  induction n as [|n IH]; intros q a b res Ha Hb; cbn [seq zip zip_with ofold].
  { simpl. by rewrite app_nil_r. }
  destruct (lookup_lt_is_Some_2 (matrix_words m) a) as [x Hx]; [lia|].
  destruct (lookup_lt_is_Some_2 (matrix_words m) b) as [y Hy]; [lia|].
  rewrite Hx, Hy. cbn [unwrap mbind outcome_bind]. rewrite IH by lia.
  rewrite (drop_S _ x a Hx), (drop_S _ y b Hy). cbn [take zip_with bits_from]. rewrite app_assoc. do 2 f_equal.
  by rewrite scan_bits_word.
Qed.

Lemma matrix_intersect_rows_ok r1 r2 :
  r1 < num_rows m → r2 < num_rows m → ∃ l,
    Matrix.intersect_rows m r1 r2 = Ret l ∧ StronglySorted lt l ∧
    ∀ c, c ∈ l ↔ matrix_has m r1 c = true ∧ matrix_has m r2 c = true.
Proof.
  intros H1 H2. pose proof (row_end m r1 Hm H1) as He1. pose proof (row_end m r2 Hm H2) as He2.
  unfold Matrix.intersect_rows. rewrite (proj2 (Nat.ltb_lt _ _) H1), (proj2 (Nat.ltb_lt _ _) H2).
  cbn [andb]. unfold Matrix.range. fold (row_width m).
  replace (r1 * row_width m + row_width m - r1 * row_width m) with (row_width m) by lia.
  replace (r2 * row_width m + row_width m - r2 * row_width m) with (row_width m) by lia.
  rewrite intersect_loop_ok by done. eexists. split; [done|]. split; [apply bits_from_sorted|].
  intros c. rewrite app_nil_l,  elem_of_bits_from. replace (c - 64 * 0) with c by lia.
  fold (row_words m r1) (row_words m r2). rewrite (has_zip_with Z.land andb);
    [|apply bitwise_and|by rewrite !row_words_length by done].
  rewrite andb_true_iff. split; [by intros [_ ?]|split; [lia|done]].
Qed.
End Refinement.
