(* ===== verification/BitMatrixThms.v ===== *)
(** * Bit matrices: the properties *)
From S2P Require Import Prelude BitWords BitSet BitSetFacts BitSetRanges ChunkFacts BitMatrix.
From Stdlib Require Import Sorting.Sorted.

(** ** [SparseBitMatrix] *)
Definition sparse_wf (m : SparseBitMatrix) : Prop :=
  (Z.of_nat (sp_num_columns m) < 2 ^ 64)%Z ∧
  ∀ r s, sp_rows m !! r = Some (Some s) → dense_wf s ∧ domain_size s = sp_num_columns m.
Definition sparse_has (m : SparseBitMatrix) (r c : nat) : bool :=
  match Sparse.row m r with Some s => has (words s) c | None => false end.

Lemma sparse_row_eq m r s : Sparse.row m r = Some s ↔ sp_rows m !! r = Some (Some s).
Proof. unfold Sparse.row. destruct (sp_rows m !! r) as [[t|]|]; simpl; split; congruence. Qed.

Lemma sparse_set_ok m r s s' :
  sparse_wf m → sp_rows m !! r = Some (Some s) → dense_wf s' → domain_size s' = domain_size s →
  let m' := mkSparse (sp_num_columns m) (<[r := Some s']> (sp_rows m)) in
  sparse_wf m' ∧ ∀ r' c, sparse_has m' r' c = if r' =? r then has (words s') c else sparse_has m r' c.
Proof.
  intros [Hc Hm] Hs Hs' Hd m'. assert (Hlt := lookup_lt_Some _ _ _ Hs). split.
  - split; [done|]. intros r0 s0. simpl. intros [(<- & [= <-] & _)|[_ ?]]%list_lookup_insert_Some; [|by apply (Hm r0)].
    split; [done|]. rewrite Hd. by apply (Hm r).
  - intros r' c. unfold sparse_has, Sparse.row. simpl. destruct (Nat.eqb_spec r' r) as [->|].
    + by rewrite list_lookup_insert_eq.
    + by rewrite list_lookup_insert_ne.
Qed.

Lemma sparse_on_row_ok {R} m r s (o : outcome (DenseBitSet * R)) s' b :
  sparse_wf m → sp_rows m !! r = Some (Some s) → o = Ret (s', b) → dense_wf s' → domain_size s' = domain_size s →
  ∃ m', Sparse.on_row m r o = Ret (m', b) ∧ sparse_wf m' ∧
    ∀ r' c, sparse_has m' r' c = if r' =? r then has (words s') c else sparse_has m r' c.
Proof.
  intros Hm Hs -> Hs' Hd. destruct (sparse_set_ok m r s s' Hm Hs Hs' Hd) as [Hw Hh].
  eexists. split; [done|]. by split.
Qed.

Lemma sparse_extend_lookup {A} (v : list (option A)) n i :
  mjoin ((v ++ replicate n None) !! i) = mjoin (v !! i).
Proof.
  destruct (decide (i < length v)); [by rewrite lookup_app_l|].
  rewrite lookup_app_r by lia. rewrite (proj2 (lookup_ge_None v i)) by lia.
  destruct (replicate n None !! _) as [o|] eqn:E; [|done]. by apply lookup_replicate in E as [-> _].
Qed.

Lemma sparse_ensure_row_ok m r :
  sparse_wf m → let e := Sparse.ensure_row m r in
  sparse_wf e.1 ∧ (∀ r' c, sparse_has e.1 r' c = sparse_has m r' c) ∧ sp_rows e.1 !! r = Some (Some e.2) ∧
  dense_wf e.2 ∧ domain_size e.2 = sp_num_columns m ∧
  (∀ r' s, Sparse.row m r' = Some s → Sparse.row e.1 r' = Some s).
Proof.
  intros [Hc Hm] e. unfold e, Sparse.ensure_row, Sparse.get_or_insert_with.
  set (v := sp_rows m ++ replicate (S r - length (sp_rows m)) None).
  assert (Hv : ∀ i, mjoin (v !! i) = Sparse.row m i) by (intros i; apply sparse_extend_lookup).
  assert (Hlen : r < length v) by (unfold v; rewrite length_app, length_replicate; lia).
  assert (Hvm : ∀ i s, v !! i = Some (Some s) → dense_wf s ∧ domain_size s = sp_num_columns m).
  { intros i s Hi. apply (Hm i), sparse_row_eq. rewrite <-Hv, Hi. done. }
  destruct (v !! r) as [[s|]|] eqn:E; simpl.
  - split; [by split|]. split; [intros r' c; unfold sparse_has, Sparse.row at 1; simpl; by rewrite Hv|].
    split; [done|]. destruct (Hvm _ _ E). split; [done|]. split; [done|].
    intros r' s' Hs'. unfold Sparse.row. simpl. by rewrite Hv.
  - set (new := Dense.new_empty (sp_num_columns m)). assert (Hnew : dense_wf new) by by apply dense_new_empty_wf.
    assert (Hr0 : Sparse.row m r = None) by (rewrite <-Hv, E; done).
    assert (Hrow : ∀ r', mjoin (<[r := Some new]> v !! r') = if r' =? r then Some new else Sparse.row m r').
    { intros r'. destruct (Nat.eqb_spec r' r) as [->|]; [by rewrite list_lookup_insert_eq|].
      rewrite list_lookup_insert_ne by done. apply Hv. }
    split; [|split; [|split; [|split; [done|split; [done|]]]]].
    + split; [done|]. intros r' s'. simpl.
      intros [(<- & [= <-] & _)|[_ ?]]%list_lookup_insert_Some; [done|by apply (Hvm r')].
    + intros r' c. unfold sparse_has, Sparse.row at 1. simpl. rewrite Hrow.
      destruct (Nat.eqb_spec r' r) as [->|]; [|done]. rewrite Hr0. apply has_replicate_0.
    + by rewrite list_lookup_insert_eq.
    + intros r' s' Hs'. unfold Sparse.row. simpl. rewrite Hrow.
      destruct (Nat.eqb_spec r' r) as [->|]; [congruence|done].
  - apply lookup_ge_None in E. lia.
Qed.

(** An operation on a row created on demand. *)
Lemma sparse_on_ensured_row_ok {R} m r (f : DenseBitSet → outcome (DenseBitSet * R)) g b :
  sparse_wf m →
  (∀ s, dense_wf s → domain_size s = sp_num_columns m → (∀ c, has (words s) c = sparse_has m r c) →
     ∃ s', f s = Ret (s', b) ∧ bs_becomes dense_ops s s' g) →
  ∃ m', Sparse.on_ensured_row m r f = Ret (m', b) ∧ sparse_wf m' ∧
    ∀ r' c, sparse_has m' r' c = if r' =? r then g c else sparse_has m r' c.
Proof.
  intros Hm Hf. destruct (sparse_ensure_row_ok m r Hm) as (He & Hh & Hrow & Hs & Hd & _).
  unfold Sparse.on_ensured_row. set (e := Sparse.ensure_row m r) in *.
  destruct (Hf e.2 Hs Hd) as (s' & Hfs & Hw & Hd' & Hg).
  { intros c. rewrite <-Hh. unfold sparse_has. by rewrite (proj2 (sparse_row_eq _ _ _) Hrow). }
  destruct (sparse_on_row_ok e.1 r e.2 (f e.2) s' b He Hrow Hfs Hw Hd') as (m' & ? & ? & Hm').
  exists m'. split; [done|]. split; [done|]. intros r' c. rewrite Hm', Hh. destruct (r' =? r); [apply Hg|done].
Qed.

(** An operation on a row that has no effect on a missing row. *)
Lemma sparse_on_present_row_ok m r (f : DenseBitSet → outcome (DenseBitSet * bool)) (g : nat → bool → bool) b :
  sparse_wf m → (∀ c, g c false = false) →
  (Sparse.row m r = None → b = false) →
  (∀ s, Sparse.row m r = Some s → dense_wf s → domain_size s = sp_num_columns m → ∃ s', f s = Ret (s', b) ∧
     bs_becomes dense_ops s s' (λ c, g c (has (words s) c))) →
  ∃ m', match sp_rows m !! r with Some (Some s) => Sparse.on_row m r (f s) | _ => Ret (m, false) end = Ret (m', b) ∧
    sparse_wf m' ∧ ∀ r' c, sparse_has m' r' c = if r' =? r then g c (sparse_has m r c) else sparse_has m r' c.
Proof.
  intros Hm Hg Hb Hf. assert (Hnone : Sparse.row m r = None → ∃ m', Ret (m, false) = Ret (m', b) ∧ sparse_wf m' ∧
    ∀ r' c, sparse_has m' r' c = if r' =? r then g c (sparse_has m r c) else sparse_has m r' c).
  { intros E. exists m. rewrite (Hb E). split; [done|]. split; [done|]. intros r' c.
    destruct (Nat.eqb_spec r' r) as [->|]; [|done]. unfold sparse_has. by rewrite E, Hg. }
  destruct (sp_rows m !! r) as [[s|]|] eqn:E; [|apply Hnone; unfold Sparse.row; by rewrite E..].
  destruct (proj2 Hm r s E) as [Hs Hd]. apply sparse_row_eq in E as E'.
  destruct (Hf s E' Hs Hd) as (s' & Hfs & Hw & Hd' & Hh).
  destruct (sparse_on_row_ok m r s (f s) s' b Hm E Hfs Hw Hd') as (m' & ? & ? & Hm').
  exists m'. split; [done|]. split; [done|]. intros r' c. rewrite Hm'. unfold sparse_has at 2. rewrite E'.
  destruct (r' =? r); [apply Hh|done].
Qed.

(** A relation of a present row with a set. *)
Lemma sparse_relate_row_ok m row set f (op : DenseBitSet → DenseBitSet → outcome (DenseBitSet * bool)) :
  sparse_wf m → dense_wf set → domain_size set = sp_num_columns m → (∀ b, f false b = false) →
  (∀ s t, dense_wf s → dense_wf t → domain_size s = domain_size t → ∃ s' c, op s t = Ret (s', c) ∧
     bs_becomes dense_ops s s' (λ i, f (has (words s) i) (has (words t) i)) ∧ (c = true ↔ s' ≠ s)) →
  ∃ m' b, match sp_rows m !! row with Some (Some s) => Sparse.on_row m row (op s set) | _ => Ret (m, false) end =
    Ret (m', b) ∧ sparse_wf m' ∧
    ∀ r c, sparse_has m' r c = if r =? row then f (sparse_has m row c) (has (words set) c) else sparse_has m r c.
Proof.
  intros Hm Hs Hd Hf Hop.
  assert (∃ b, (Sparse.row m row = None → b = false) ∧
    ∀ s, Sparse.row m row = Some s → dense_wf s → domain_size s = sp_num_columns m → ∃ s', op s set = Ret (s', b) ∧
      bs_becomes dense_ops s s' (λ c, f (has (words s) c) (has (words set) c))) as (b & Hb & Hrow).
  { destruct (Sparse.row m row) as [s|] eqn:E; [|by exists false].
    apply sparse_row_eq in E. destruct (proj2 Hm row s E) as [Hs1 Hs2].
    destruct (Hop s set Hs1 Hs) as (s' & b & ? & ? & _); [congruence|].
    exists b. split; [done|]. intros s0 [= <-] _ _. by exists s'. }
  destruct (sparse_on_present_row_ok m row (λ s, op s set) (λ c b, f b (has (words set) c)) b Hm (λ c, Hf _) Hb Hrow)
    as (m' & ? & ? & Hm').
  exists m', b. by split_and!.
Qed.

(** A row united with a present row, or with a given set. *)
Lemma sparse_union_rows_ok m row write :
  sparse_wf m → ∃ m' b, Sparse.union_rows m row write = Ret (m', b) ∧ sparse_wf m' ∧
    ∀ r c, sparse_has m' r c = sparse_has m r c || (r =? write) && sparse_has m row c.
Proof.
  intros Hm.
  unfold Sparse.union_rows. destruct (Nat.eqb_spec row write) as [->|Hne]; cbn [orb].
  { exists m, false. split; [done|]. split; [done|]. intros r c.
    destruct (Nat.eqb_spec r write) as [->|]; [|by rewrite orb_false_r]. symmetry. apply orb_diag. }
  destruct (Sparse.row m row) as [s|] eqn:E.
  2: { exists m, false. split; [done|]. split; [done|]. intros r c. unfold sparse_has at 3. rewrite E.
       by rewrite andb_false_r, orb_false_r. }
  destruct (sparse_ensure_row_ok m write Hm) as (He & Hh & Hrow & Hws & Hwd & Hkeep).
  set (e := Sparse.ensure_row m write) in *. assert (E' := proj1 (sparse_row_eq _ _ _) (Hkeep _ _ E)). rewrite E', Hrow.
  cbn [unwrap mbind outcome_bind]. destruct (proj2 Hm row s (proj1 (sparse_row_eq _ _ _) E)) as [Hs1 Hs2].
  destruct (bs_union_ok (O := dense_ops) e.2 s Hws Hs1 (eq_trans Hwd (eq_sym Hs2)))
    as (s' & b & Hu & (Hs' & Hsd' & Hg) & _).
  destruct (sparse_on_row_ok e.1 write e.2 _ s' b He Hrow Hu Hs' Hsd') as (m' & ? & ? & Hm').
  exists m', b. split; [done|]. split; [done|]. intros r c. rewrite Hm', Hh.
  destruct (Nat.eqb_spec r write) as [->|]; [|by rewrite orb_false_r]. simpl in Hg. rewrite Hg.
  rewrite <-Hh. unfold sparse_has at 1 2. rewrite (proj2 (sparse_row_eq _ _ _) Hrow), E. done.
Qed.
Lemma sparse_union_row_ok m row set :
  sparse_wf m → dense_wf set → domain_size set = sp_num_columns m → ∃ m' b,
    Sparse.union_row m row set = Ret (m', b) ∧ sparse_wf m' ∧
    ∀ r c, sparse_has m' r c = sparse_has m r c || (r =? row) && has (words set) c.
Proof.
  intros Hm Hs Hd.
  destruct (sparse_ensure_row_ok m row Hm) as (He & Hh & Hrow & Hws & Hwd & Hkeep).
  unfold Sparse.union_row, Sparse.on_ensured_row. set (e := Sparse.ensure_row m row) in *.
  destruct (bs_union_ok (O := dense_ops) e.2 set Hws Hs (eq_trans Hwd (eq_sym Hd)))
    as (s' & b & Hu & (Hs' & Hsd' & Hg) & _).
  destruct (sparse_on_row_ok e.1 row e.2 _ s' b He Hrow Hu Hs' Hsd') as (m' & ? & ? & Hm').
  exists m', b. split; [done|]. split; [done|]. intros r c. rewrite Hm', Hh.
  destruct (Nat.eqb_spec r row) as [->|]; [|by rewrite orb_false_r]. simpl in Hg. rewrite Hg.
  rewrite <-Hh. unfold sparse_has. by rewrite (proj2 (sparse_row_eq _ _ _) Hrow).
Qed.

(** ** New matrices *)
Lemma concat_replicate_row (ws : list Z) n : ∀ r,
  r < n → take (length ws) (drop (r * length ws) (concat (replicate n ws))) = ws.
Proof.
  induction n as [|n IH]; intros r Hr; [lia|]. cbn [replicate concat]. destruct r as [|r].
  - by rewrite Nat.mul_0_l, drop_0, take_app_length.
  - replace (S r * length ws) with (length ws + r * length ws) by lia. rewrite drop_app_add. apply IH. lia.
Qed.
Lemma concat_replicate_length (ws : list Z) n : length (concat (replicate n ws)) = n * length ws.
Proof. induction n as [|n IH]; simpl; [done|]. rewrite length_app. lia. Qed.

Lemma from_row_n_ok s n :
  dense_wf s → ∃ m, Matrix.from_row_n s n = Ret m ∧ matrix_wf m ∧ num_rows m = n ∧
    num_columns m = domain_size s ∧ ∀ r c, r < n → matrix_has m r c = has (words s) c.
Proof.
  intros Hs. pose proof (proj1 Hs) as Hl. unfold Matrix.from_row_n. rewrite <-Hl, Nat.eqb_refl.
  assert (Hrow : ∀ r, r < n → row_words (mkMatrix n (domain_size s) (concat (replicate n (words s)))) r = words s).
  { intros r Hr. unfold row_words, row_width. simpl. rewrite <-Hl. by apply concat_replicate_row. }
  eexists. split; [done|]. split; [split|].
  - unfold row_width. simpl. rewrite <-Hl. apply concat_replicate_length.
  - intros r Hr. unfold as_row. rewrite Hrow by done. by destruct s.
  - split; [done|]. split; [done|]. intros r c Hr. unfold matrix_has. by rewrite Hrow.
Qed.

Lemma replicate_mul {A} (x : A) n k : replicate (n * k) x = concat (replicate n (replicate k x)).
Proof. induction n as [|n IH]; simpl; [done|]. by rewrite replicate_add, IH. Qed.
Lemma matrix_new_ok n d :
  (Z.of_nat d < 2 ^ 64)%Z → matrix_wf (Matrix.new n d) ∧ ∀ r c, r < n → matrix_has (Matrix.new n d) r c = false.
Proof.
  intros Hd. pose proof (dense_new_empty_wf d Hd) as Hs.
  destruct (from_row_n_ok (Dense.new_empty d) n Hs) as (m & Hm & Hw & _ & _ & Hh).
  assert (Matrix.new n d = m) as ->.
  { unfold Matrix.from_row_n in Hm. simpl in Hm. rewrite length_replicate, Nat.eqb_refl in Hm. injection Hm as <-.
    unfold Matrix.new. by rewrite replicate_mul. }
  split; [done|]. intros r c Hr. rewrite Hh by done. apply has_replicate_0.
Qed.

(** ** The properties *)
(** C40: Every operation of [BitMatrix] acts on the addressed row as the set
    operation does and leaves the other rows alone, although all rows share one
    vector of words; [union_rows] is right for a row united with itself, and
    reports changes exactly. *)
Theorem bit_matrix_spec (m : BitMatrix) (row write column : nat) (with_ : DenseBitSet)
    (Hm : matrix_wf m) (Hr : row < num_rows m) (Hw : write < num_rows m) (Hc : column < num_columns m)
    (Ht : dense_wf with_) (Hd : domain_size with_ = num_columns m) :
  Matrix.contains m row column = Ret (matrix_has m row column) ∧
  (∃ m', Matrix.insert m row column = Ret (m', negb (matrix_has m row column)) ∧ matrix_wf m' ∧
     ∀ r c, r < num_rows m → matrix_has m' r c = (r =? row) && (c =? column) || matrix_has m r c) ∧
  (∃ m' b, Matrix.union_rows m row write = Ret (m', b) ∧ matrix_wf m' ∧ (b = true ↔ m' ≠ m) ∧
     ∀ r c, r < num_rows m → matrix_has m' r c = matrix_has m r c || (r =? write) && matrix_has m row c) ∧
  (∃ m' b, Matrix.union_row_with m with_ write = Ret (m', b) ∧ matrix_wf m' ∧ (b = true ↔ m' ≠ m) ∧
     ∀ r c, r < num_rows m → matrix_has m' r c = matrix_has m r c || (r =? write) && has (words with_) c) ∧
  (∃ m', Matrix.insert_all_into_row m row = Ret m' ∧ matrix_wf m' ∧
     ∀ r c, r < num_rows m → matrix_has m' r c = if r =? row then c <? num_columns m else matrix_has m r c).
Proof.
  pose proof (proj2 Hm row Hr) as Hrow. pose proof (proj2 Hm write Hw) as Hwrite.
  split; [|split; [|split; [|split]]].
  - rewrite matrix_contains_row by done. by rewrite dense_contains_ok.
  - destruct (dense_insert_ok (as_row m row) column Hrow Hc) as (s & E & Hs & Hsd & Hh).
    apply (matrix_insert_row m Hm row column s _ Hr Hc) in E as ->.
    destruct (set_row_ok m row s Hm Hr Hs Hsd) as (Hw' & Hm' & _). eexists. split; [done|]. split; [done|].
    intros r c Hrr. rewrite Hm' by done. destruct (Nat.eqb_spec r row) as [->|]; [apply Hh|done].
  - destruct (bs_union_ok (O := dense_ops) (as_row m write) (as_row m row) Hwrite Hrow eq_refl) as (s & b & E & (Hs & Hsd & Hh) & Hb).
    apply (matrix_union_rows_row m Hm row write s b Hr Hw) in E as ->.
    destruct (set_row_ok m write s Hm Hw Hs Hsd) as (Hw' & Hm' & Hne). eexists _, b. split; [done|]. split; [done|].
    split; [by rewrite Hb, Hne|]. intros r c Hrr. rewrite Hm' by done.
    destruct (Nat.eqb_spec r write) as [->|]; [apply Hh|by rewrite orb_false_r].
  - destruct (bs_union_ok (O := dense_ops) (as_row m write) with_ Hwrite Ht (eq_sym Hd)) as (s & b & E & (Hs & Hsd & Hh) & Hb).
    apply (matrix_union_row_with_row m Hm write with_ s b Hw Hd) in E as ->.
    destruct (set_row_ok m write s Hm Hw Hs Hsd) as (Hw' & Hm' & Hne). eexists _, b. split; [done|]. split; [done|].
    split; [by rewrite Hb, Hne|]. intros r c Hrr. rewrite Hm' by done.
    destruct (Nat.eqb_spec r write) as [->|]; [apply Hh|by rewrite orb_false_r].
  - destruct (dense_insert_all_ok (as_row m row) Hrow) as (s & E & Hs & Hsd & Hh).
    apply (matrix_insert_all_row m Hm row s Hr) in E as ->.
    destruct (set_row_ok m row s Hm Hr Hs Hsd) as (Hw' & Hm' & _). eexists. split; [done|]. split; [done|].
    intros r c Hrr. rewrite Hm' by done. destruct (r =? row); [apply Hh|done].
Qed.

(** The queries of [BitMatrix]: [iter] lists the columns of a row in ascending
    order and [count] is their number, [intersect_rows] lists the columns two
    rows share; a new matrix is empty and [from_row_n] repeats its row. *)
Theorem bit_matrix_queries_spec (m : BitMatrix) (row1 row2 n : nat) (s : DenseBitSet)
    (Hm : matrix_wf m) (H1 : row1 < num_rows m) (H2 : row2 < num_rows m) (Hs : dense_wf s) :
  (∃ l, Matrix.iter m row1 = Ret l ∧ Matrix.count m row1 = Ret (length l) ∧ StronglySorted lt l ∧
     ∀ c, c ∈ l ↔ matrix_has m row1 c = true) ∧
  (∃ l, Matrix.intersect_rows m row1 row2 = Ret l ∧ StronglySorted lt l ∧
     ∀ c, c ∈ l ↔ matrix_has m row1 c = true ∧ matrix_has m row2 c = true) ∧
  (matrix_wf (Matrix.new n (domain_size s)) ∧
     ∀ r c, r < n → matrix_has (Matrix.new n (domain_size s)) r c = false) ∧
  (∃ m', Matrix.from_row_n s n = Ret m' ∧ matrix_wf m' ∧ ∀ r c, r < n → matrix_has m' r c = has (words s) c).
Proof.
  split; [|split; [|split]].
  - rewrite matrix_iter_row, matrix_count_row by done.
    destruct (dense_iter_ok (as_row m row1) (proj2 Hm row1 H1)) as (? & ? & Hl).
    eexists. split; [done|]. by rewrite Hl.
  - by apply matrix_intersect_rows_ok.
  - apply matrix_new_ok, Hs.
  - destruct (from_row_n_ok s n Hs) as (m' & ? & ? & _ & _ & ?). by exists m'.
Qed.

(** [SparseBitMatrix]: rows appear on demand and a missing row is an empty one,
    for every operation that changes or reads a row. *)
Theorem sparse_bit_matrix_spec (m : SparseBitMatrix) (row write column : nat) (set : DenseBitSet)
    (Hm : sparse_wf m) (Hc : column < sp_num_columns m) (Hs : dense_wf set) (Hd : domain_size set = sp_num_columns m) :
  Sparse.contains m row column = Ret (sparse_has m row column) ∧
  (∃ m', Sparse.insert m row column = Ret (m', negb (sparse_has m row column)) ∧ sparse_wf m' ∧
     ∀ r c, sparse_has m' r c = (r =? row) && (c =? column) || sparse_has m r c) ∧
  (∃ m', Sparse.remove m row column = Ret (m', sparse_has m row column) ∧ sparse_wf m' ∧
     ∀ r c, sparse_has m' r c = negb ((r =? row) && (c =? column)) && sparse_has m r c) ∧
  (∃ m' b, Sparse.union_rows m row write = Ret (m', b) ∧ sparse_wf m' ∧
     ∀ r c, sparse_has m' r c = sparse_has m r c || (r =? write) && sparse_has m row c) ∧
  (∃ m' b, Sparse.union_row m row set = Ret (m', b) ∧ sparse_wf m' ∧
     ∀ r c, sparse_has m' r c = sparse_has m r c || (r =? row) && has (words set) c) ∧
  (∃ m' b, Sparse.subtract_row m row set = Ret (m', b) ∧ sparse_wf m' ∧
     ∀ r c, sparse_has m' r c = sparse_has m r c && negb ((r =? row) && has (words set) c)) ∧
  (∃ m' b, Sparse.intersect_row m row set = Ret (m', b) ∧ sparse_wf m' ∧
     ∀ r c, sparse_has m' r c = sparse_has m r c && (negb (r =? row) || has (words set) c)).
Proof.
  split; [|split; [|split; [|split; [|split; [|split]]]]].
  - unfold Sparse.contains, sparse_has. destruct (Sparse.row m row) as [s|] eqn:E; [|done].
    apply sparse_row_eq in E. destruct (proj2 Hm row s E) as [? E']. apply dense_contains_ok; [done|]. by rewrite E'.
  - destruct (sparse_on_ensured_row_ok m row (λ s, Dense.insert s column) (λ c, (c =? column) || sparse_has m row c)
      (negb (sparse_has m row column)) Hm) as (m' & ? & ? & Hh).
    { intros s Hs1 Hs2 Hs3. destruct (dense_insert_ok s column Hs1) as (s' & E & Hb); [by rewrite Hs2|].
      exists s'. rewrite <-Hs3. split; [done|]. eapply bs_becomes_ext; [|done]. intros c. simpl. by rewrite Hs3. }
    exists m'. split; [done|]. split; [done|]. intros r c. rewrite Hh. by destruct (Nat.eqb_spec r row) as [->|].
  - destruct (sparse_on_present_row_ok m row (λ s, Dense.remove s column) (λ c b, negb (c =? column) && b)
      (sparse_has m row column) Hm) as (m' & ? & ? & Hh).
    { intros c. apply andb_false_r. }
    { unfold sparse_has. by intros ->. }
    { intros s Hs0 Hs1 Hs2. destruct (dense_remove_ok s column Hs1) as (s' & E & Hb); [by rewrite Hs2|].
      exists s'. unfold sparse_has. by rewrite Hs0. }
    exists m'. split; [done|]. split; [done|]. intros r c. rewrite Hh. by destruct (Nat.eqb_spec r row) as [->|].
  - by apply sparse_union_rows_ok.
  - by apply sparse_union_row_ok.
  - destruct (sparse_relate_row_ok m row set (λ a b, a && negb b) Dense.subtract Hm Hs Hd) as (m' & b & ? & ? & Hm').
    { done. }
    { apply (bs_subtract_ok (O := dense_ops)). }
    exists m', b. split; [done|]. split; [done|]. intros r c. rewrite Hm'.
    destruct (Nat.eqb_spec r row) as [->|]; [done|by rewrite andb_true_r].
  - destruct (sparse_relate_row_ok m row set andb Dense.intersect Hm Hs Hd) as (m' & b & ? & ? & Hm').
    { done. }
    { intros s t Hs0 Ht Hst. apply (dense_relate_ok Z.land andb); [apply bitwise_and| |done..]. intros [] []; auto. }
    exists m', b. split; [done|]. split; [done|]. intros r c. rewrite Hm'.
    destruct (Nat.eqb_spec r row) as [->|]; [done|by rewrite andb_true_r].
Qed.

(** ** Concrete matrices *)
Lemma bit_matrix_spec_witness :
  ∃ m', Matrix.union_row_with (Matrix.new 3 100) dense_a 1 = Ret (m', true) ∧ matrix_wf m' ∧
    matrix_has m' 1 67 = true ∧ matrix_has m' 2 67 = false.
Proof.
  destruct (matrix_new_ok 3 100 ltac:(lia)) as [Hm _].
  destruct (bit_matrix_spec (Matrix.new 3 100) 0 1 5 dense_a Hm ltac:(simpl; lia) ltac:(simpl; lia) ltac:(simpl; lia)
              dense_a_wf eq_refl) as (_ & _ & _ & (m' & b & E & Hw & _) & _).
  exists m'. assert (E' := E). vm_compute in E'. injection E' as <- <-.
  split; [exact E|]. split; [exact Hw|]. split; vm_compute; reflexivity.
Defined.

Lemma bit_matrix_queries_spec_witness :
  ∃ m, Matrix.from_row_n dense_a 2 = Ret m ∧ Matrix.intersect_rows m 0 1 = Ret [0; 2; 67] ∧
    Matrix.count m 1 = Ret 3 ∧ ∀ c, c ∈ [0; 2; 67] → matrix_has m 0 c = true.
Proof.
  destruct (from_row_n_ok dense_a 2 dense_a_wf) as (m & Hm & Hw & _ & _ & _).
  assert (Hm' := Hm). vm_compute in Hm'. injection Hm' as <-. eexists. split; [exact Hm|].
  destruct (bit_matrix_queries_spec _ 0 1 0 dense_a Hw ltac:(simpl; lia) ltac:(simpl; lia) dense_a_wf)
    as (_ & (l & Hl & _ & Hin) & _).
  assert (Hl' := Hl). vm_compute in Hl'. injection Hl' as <-.
  split; [exact Hl|]. split; [vm_compute; reflexivity|]. intros c Hc. by apply Hin in Hc as [? _].
Defined.

Lemma sparse_bit_matrix_spec_witness :
  ∃ m', Sparse.union_rows (mkSparse 100 [Some dense_a]) 0 2 = Ret (m', true) ∧ sparse_wf m' ∧
    length (sp_rows m') = 3 ∧ sparse_has m' 2 67 = true ∧ sparse_has m' 1 67 = false.
Proof.
  assert (Hm : sparse_wf (mkSparse 100 [Some dense_a])).
  { split; [simpl; lia|]. intros [|[|r]] s; simpl; [|done..]. intros [= <-]. split; [apply dense_a_wf|done]. }
  destruct (sparse_bit_matrix_spec (mkSparse 100 [Some dense_a]) 0 2 5 dense_a Hm ltac:(simpl; lia) dense_a_wf eq_refl)
    as (_ & _ & _ & (m' & b & E & Hw & _) & _).
  exists m'. assert (E' := E). vm_compute in E'. injection E' as <- <-.
  split; [exact E|]. split; [exact Hw|]. split; [reflexivity|]. split; vm_compute; reflexivity.
Defined.
