(* ===== verification/Traversal.v ===== *)
(** * Traversals of a body's control-flow graph

    [rustc_middle/src/mir/basic_blocks.rs] ([predecessors],
    [reverse_postorder]) and [rustc_middle/src/mir/traversal.rs] ([Postorder],
    [Preorder]).  The caches of [BasicBlocks] only avoid recomputation and are
    left out, as is the [extra] argument of [Postorder], which is [None] in
    [reverse_postorder]. *)
From S2P Require Import Prelude Mir Worklist BitWords BitSet BitSetFacts.
From Stdlib Require Import Sorting.Sorted.

(** [mir::START_BLOCK] *)
Definition START_BLOCK : BasicBlock := 0.

(** [iter_enumerated], [iter().enumerate()] *)
Definition enumerate {A} (l : list A) : list (nat * A) := zip (seq 0 (length l)) l.

(** ** Predecessors *)
Definition push_pred (bb : BasicBlock) (preds : list (list BasicBlock)) (succ : BasicBlock)
    : outcome (list (list BasicBlock)) :=
  p ← unwrap (preds !! succ); Ret (<[succ := vec_push p bb]> preds).

Definition push_preds (preds : list (list BasicBlock)) (e : BasicBlock * BasicBlockData)
    : outcome (list (list BasicBlock)) :=
  match terminator_opt e.2 with
  | Some term => ofold (push_pred e.1) preds (successors term)
  | None => Ret preds
  end.

Definition predecessors (mir : Body) : outcome (list (list BasicBlock)) :=
  ofold push_preds (replicate (length (basic_blocks mir)) []) (enumerate (basic_blocks mir)).

(** ** [Postorder]

    The iterator over the remaining successors of a block is the list of those
    successors; [next_back] takes its last element. *)
Record Postorder := mkPostorder {
  po_visited : DenseBitSet;
  visit_stack : list (BasicBlock * list BasicBlock) }.

Module Po.
Definition visit (mir : Body) (po : Postorder) (bb : BasicBlock) : outcome Postorder :=
  r ← Dense.insert (po_visited po) bb;
  if negb r.2 then Ret (mkPostorder r.1 (visit_stack po))
  else
    data ← block_at mir bb;
    term ← terminator data;
    Ret (mkPostorder r.1 (vec_push (visit_stack po) (bb, successors term))).

(** One iteration of the [while let] of [traverse_successor]:
    [last_mut().and_then(next_back)]. *)
Definition traverse_step (mir : Body) (po : Postorder) : outcome (Postorder + Postorder) :=
  match vec_pop (visit_stack po) with
  | None => Ret (inr po)
  | Some ((b, iter), below) =>
      match vec_pop iter with
      | None => Ret (inr po)
      | Some (bb, iter') =>
          po' ← visit mir (mkPostorder (po_visited po) (vec_push below (b, iter'))) bb;
          Ret (inl po')
      end
  end.

Definition traverse_successor (fuel : nat) (mir : Body) (po : Postorder) : outcome Postorder :=
  loop fuel (traverse_step mir) po.

Definition new (fuel : nat) (mir : Body) (root : BasicBlock) : outcome Postorder :=
  po ← visit mir (mkPostorder (Dense.new_empty (length (basic_blocks mir))) []) root;
  traverse_successor fuel mir po.

Definition next (fuel : nat) (mir : Body) (po : Postorder) : outcome (option (BasicBlock * Postorder)) :=
  match vec_pop (visit_stack po) with
  | None => Ret None
  | Some ((bb, _), below) =>
      po' ← traverse_successor fuel mir (mkPostorder (po_visited po) below);
      Ret (Some (bb, po'))
  end.
End Po.

(** Enough for every loop of a traversal: each iteration of
    [traverse_successor] consumes a successor or visits a block. *)
Definition traversal_fuel (mir : Body) : nat :=
  length (basic_blocks mir) * S (max_successors mir) + 1.

(** [BasicBlocks::reverse_postorder] *)
Definition reverse_postorder (fuel : nat) (mir : Body) : outcome (list BasicBlock) :=
  po ← Po.new fuel mir START_BLOCK;
  l ← iter_collect (Po.next fuel mir) fuel po;
  Ret (reverse l).

(** ** [Preorder] *)
Record Preorder := mkPreorder { pre_visited : DenseBitSet; worklist : list BasicBlock }.

Module Pre.
Definition new (mir : Body) (root : BasicBlock) : Preorder :=
  mkPreorder (Dense.new_empty (length (basic_blocks mir))) [root].

Definition next_step (mir : Body) (p : Preorder) : outcome (Preorder + option BasicBlock * Preorder) :=
  match vec_pop (worklist p) with
  | None => Ret (inr (None, p))
  | Some (idx, worklist) =>
      r ← Dense.insert (pre_visited p) idx;
      if negb r.2 then Ret (inl (mkPreorder r.1 worklist))
      else
        data ← block_at mir idx;
        let worklist := match terminator_opt data with
                        | Some term => worklist ++ successors term
                        | None => worklist
                        end in
        Ret (inr (Some idx, mkPreorder r.1 worklist))
  end.

Definition next (fuel : nat) (mir : Body) (p : Preorder) : outcome (option BasicBlock * Preorder) :=
  loop fuel (next_step mir) p.
End Pre.

(** [while let Some(_) = iter.next() {}]: the blocks visited, and the iterator
    at the end. *)
Fixpoint drain_preorder (n fuel : nat) (mir : Body) (p : Preorder) : outcome (list BasicBlock * Preorder) :=
  match n with
  | O => Diverge
  | S n' =>
      r ← Pre.next fuel mir p;
      match r.1 with
      | Some bb => q ← drain_preorder n' fuel mir r.2; Ret (bb :: q.1, q.2)
      | None => Ret ([], r.2)
      end
  end.

Definition preorder (fuel : nat) (mir : Body) : outcome (list BasicBlock) :=
  r ← drain_preorder fuel fuel mir (Pre.new mir START_BLOCK); Ret r.1.

Definition reachable_as_bitset (fuel : nat) (mir : Body) : outcome DenseBitSet :=
  r ← drain_preorder fuel fuel mir (Pre.new mir START_BLOCK); Ret (pre_visited r.2).

(** ** The postorder specification

    The depth-first search behind [reverse_postorder] visits exactly the blocks
    reachable from the start, each once, and lists a block before its successors
    except along edges whose target reaches back to their source. *)
(** ** The control-flow graph *)
Definition succs (mir : Body) (a : BasicBlock) : list BasicBlock :=
  match terminator_at mir a with Ret k => successors k | _ => [] end.
Definition cfg_edge (mir : Body) (a b : BasicBlock) : Prop := b ∈ succs mir a.
Definition cfg_reach (mir : Body) : relation BasicBlock := rtc (cfg_edge mir).

(** Bit sets over blocks need a domain that fits a [usize]. *)
Definition body_small (mir : Body) : Prop := (Z.of_nat (length (basic_blocks mir)) < 2 ^ 64)%Z.

Lemma succs_eq mir a k : terminator_at mir a = Ret k → succs mir a = successors k.
Proof. unfold succs. by intros ->. Qed.

Section cfg.
Context (mir : Body) (Hok : body_ok mir = true).

Lemma cfg_edge_lt a b : cfg_edge mir a b → b < length (basic_blocks mir).
Proof.
  unfold cfg_edge, succs. destruct (terminator_at mir a) eqn:Hk; [|set_solver..].
  by eapply successors_lt.
Qed.

Lemma cfg_reach_lt a b : cfg_reach mir a b → a < length (basic_blocks mir) → b < length (basic_blocks mir).
Proof. induction 1 as [|a c b Hac _ IH]; [done|]. intros _. by apply IH, (cfg_edge_lt a). Qed.

Lemma start_lt : START_BLOCK < length (basic_blocks mir).
Proof.
  unfold body_ok in Hok. apply andb_true_iff in Hok as [H _]. unfold START_BLOCK.
  destruct (length _); [done|lia].
Qed.

Lemma succs_length a : length (succs mir a) ≤ max_successors mir.
Proof.
  unfold succs. destruct (terminator_at mir a) eqn:Hk; [by eapply successors_le_max|simpl; lia..].
Qed.

Lemma block_succs a : a < length (basic_blocks mir) → ∃ d k,
  block_at mir a = Ret d ∧ terminator d = Ret k ∧ terminator_opt d = Some k ∧ terminator_at mir a = Ret k ∧
  successors k = succs mir a.
Proof.
  intros Ha. destruct (terminator_at_ok _ _ Hok Ha) as [k Hk].
  pose proof Hk as Hk'. unfold terminator_at, block_at, terminator in Hk.
  destruct (basic_blocks mir !! a) as [d|] eqn:Hd; [|done]. exists d, k. unfold block_at, terminator. rewrite Hd.
  simpl in *. destruct (terminator_opt d); [|done]. simplify_eq/=. split_and!; [done..|].
  by rewrite (succs_eq _ _ _ Hk').
Qed.
End cfg.

Lemma elem_of_enumerate {A} (l : list A) i x : (i, x) ∈ enumerate l ↔ l !! i = Some x.
Proof.
  unfold enumerate. rewrite list_elem_of_lookup. split.
  - intros [j Hj]. apply lookup_zip_with_Some in Hj as (a & b & [= -> ->] & Ha & Hb).
    apply lookup_seq in Ha as [-> _]. done.
  - intros Hi. exists i. apply lookup_zip_with_Some. exists i, x. split_and!; [done| |done].
    apply lookup_seq. split; [done|]. by eapply lookup_lt_Some.
Qed.

(** ** [predecessors] *)
Section preds.
Context (mir : Body) (Hok : body_ok mir = true).
Implicit Types (preds : list (list BasicBlock)).

Lemma push_preds_ok bb (ss : list BasicBlock) : ∀ preds,
  (∀ s, s ∈ ss → s < length preds) → ∃ preds',
    ofold (push_pred bb) preds ss = Ret preds' ∧ length preds' = length preds ∧
    ∀ b p, preds !! b = Some p → ∃ p', preds' !! b = Some p' ∧
      ∀ x, x ∈ p' ↔ x ∈ p ∨ x = bb ∧ b ∈ ss.
Proof.
  induction ss as [|s ss IH]; intros preds Hlt; cbn [ofold].
  { exists preds. split_and!; [done..|]. intros b p Hp. exists p. split; [done|]. set_solver. }
  destruct (lookup_lt_is_Some_2 preds s) as [q Hq]; [apply Hlt; by left|].
  assert (push_pred bb preds s = Ret (<[s := vec_push q bb]> preds)) as ->
    by (unfold push_pred; by rewrite Hq).
  cbn [mbind outcome_bind].
  destruct (IH (<[s:=vec_push q bb]> preds)) as (preds' & -> & Hl & Hp).
  { intros x Hx. rewrite length_insert. apply Hlt. by right. }
  rewrite length_insert in Hl. exists preds'. split_and!; [done..|]. intros b p Hb.
  destruct (decide (b = s)) as [->|Hne].
  - destruct (Hp s (vec_push q bb)) as (p' & Hp' & Hx).
    { apply list_lookup_insert_eq. by eapply lookup_lt_Some. }
    exists p'. split; [done|]. intros x. rewrite Hx. unfold vec_push. simplify_eq. set_solver.
  - destruct (Hp b p) as (p' & Hp' & Hx); [by rewrite list_lookup_insert_ne|].
    exists p'. split; [done|]. intros x. rewrite Hx. set_solver.
Qed.

(** [predecessors] lists exactly the sources of the edges into each block. *)
Lemma predecessors_ok : ∃ preds,
  predecessors mir = Ret preds ∧ length preds = length (basic_blocks mir) ∧
  ∀ b p, preds !! b = Some p → ∀ a, a ∈ p ↔ cfg_edge mir a b.
Proof.
  unfold predecessors. set (n := length (basic_blocks mir)).
  destruct (ofold_total push_preds
    (λ pre preds, length preds = n ∧ ∀ b p, preds !! b = Some p → ∀ a, a ∈ p ↔
       ∃ d, (a, d) ∈ pre ∧ ∃ k, terminator_opt d = Some k ∧ b ∈ successors k)
    (enumerate (basic_blocks mir)) (replicate n [])) as (preds & Hr & Hl & Hp).
  - split; [by rewrite length_replicate|]. intros b p [-> _]%lookup_replicate a. set_solver.
  - intros pre [bb d] preds Hin [Hl Hp]. apply elem_of_enumerate in Hin.
    assert (Hlt : bb < n) by by eapply lookup_lt_Some.
    destruct (block_succs _ Hok bb Hlt) as (d' & k & Hd' & _ & Hk & Htk & _).
    unfold block_at in Hd'. rewrite Hin in Hd'. injection Hd' as ->.
    unfold push_preds. cbn [fst snd]. rewrite Hk.
    destruct (push_preds_ok bb (successors k) preds) as (preds' & -> & Hl' & Hp').
    { intros s Hs. rewrite Hl. by eapply successors_lt. }
    exists preds'. split; [done|]. split; [congruence|]. intros b p' Hb a.
    assert (is_Some (preds !! b)) as [p Hpb].
    { apply lookup_lt_is_Some. rewrite <-Hl'. by eapply lookup_lt_Some. }
    destruct (Hp' b p Hpb) as (p'' & Hb' & Hx). simplify_eq. rewrite Hx, (Hp b p Hpb). split.
    + intros [(d0 & Hd0 & ?)|[-> Hb']]; [exists d0; set_solver|]. exists d'. split; [set_solver|by exists k].
    + intros (d0 & [Hd0|[= -> ->]%list_elem_of_singleton]%elem_of_app & k0 & Hk0 & Hb0); [left; eauto|].
      right. simplify_eq. done.
  - exists preds. split_and!; [done..|]. intros b p Hb a. rewrite (Hp b p Hb).
    setoid_rewrite elem_of_enumerate. unfold cfg_edge, succs, terminator_at, block_at, terminator. split.
    + intros (d & -> & k & Hk & Hin). simpl. by rewrite Hk.
    + destruct (basic_blocks mir !! a) as [d|]; [|simpl; set_solver]. simpl.
      destruct (terminator_opt d) as [k|] eqn:Hk; simpl; [|set_solver]. eauto.
Qed.
End preds.

(** ** [Postorder] *)
Section postorder.
Context (mir : Body) (Hok : body_ok mir = true) (Hsmall : body_small mir) (root : BasicBlock).
Context (Hroot : root < length (basic_blocks mir)).

Abbreviation n := (length (basic_blocks mir)).
Abbreviation mem s i := (bs_mem dense_ops s i = true).
Abbreviation edge := (cfg_edge mir).
Abbreviation reach := (cfg_reach mir).

(** [out] are the blocks already yielded; [pend] is a successor taken off an
    iterator and not visited yet. *)
Record po_inv (out pend : list BasicBlock) (po : Postorder) : Prop := {
  pi_wf : dense_wf (po_visited po);
  pi_dom : domain_size (po_visited po) = n;
  pi_vis : ∀ x, mem (po_visited po) x ↔ x ∈ out ++ (visit_stack po).*1;
  pi_nodup : NoDup (out ++ (visit_stack po).*1);
  pi_done : ∀ b it, (b, it) ∈ visit_stack po → ∃ done, succs mir b = it ++ done ∧
    ∀ s, s ∈ done → mem (po_visited po) s ∨ s ∈ pend;
  pi_path : StronglySorted reach (visit_stack po).*1;
  pi_out : ∀ l1 a l2, out = l1 ++ a :: l2 → ∀ s, s ∈ succs mir a →
    s ∈ l1 ∨ reach s a ∧ mem (po_visited po) s;
  pi_reach : ∀ x, mem (po_visited po) x → reach root x;
  pi_base : match visit_stack po with [] => out = [] ∨ last out = Some root | e :: _ => e.1 = root end }.

Lemma StronglySorted_snoc {A} (R : relation A) l x :
  StronglySorted R (l ++ [x]) ↔ StronglySorted R l ∧ ∀ y, y ∈ l → R y x.
Proof.
  induction l as [|z l IH]; simpl.
  { split; [split; [constructor|set_solver]|repeat constructor]. }
  split.
  - intros H. inversion H as [|? ? Hs Hf]; subst. apply IH in Hs as [Hs Hx].
    rewrite Forall_forall in Hf. split.
    + constructor; [done|]. apply Forall_forall. set_solver.
    + intros y [->|Hy]%elem_of_cons; [apply Hf; set_solver|by apply Hx].
  - intros [H Hx]. inversion H as [|? ? Hs Hf]; subst. constructor.
    + apply IH. split; [done|]. intros y Hy. apply Hx. by right.
    + apply Forall_app. split; [done|]. constructor; [|constructor]. apply Hx. by left.
Qed.

(** Visiting a block that every block of the stack reaches. *)
Lemma po_visit_ok out pend po bb :
  po_inv out pend po → pend ⊆ [bb] → bb < n → reach root bb →
  (∀ y, y ∈ (visit_stack po).*1 → reach y bb) → (visit_stack po = [] → bb = root) → ∃ po',
    Po.visit mir po bb = Ret po' ∧ po_inv out [] po' ∧ mem (po_visited po') bb ∧
    (visit_stack po' = visit_stack po ∨
     visit_stack po' = visit_stack po ++ [(bb, succs mir bb)]).
Proof.
  intros [Hwf Hd Hv Hn Hdone Hp Ho Hr Hbase] Hpend Hbb Hrb Hy Hempty. unfold Po.visit.
  destruct (bs_insert_ok (O := dense_ops) (po_visited po) bb) as (V & HV & Vwf & Vd & Vm);
    [done|simpl; lia|].
  change (bs_insert dense_ops) with Dense.insert in HV. rewrite HV.
  cbn [mbind outcome_bind fst snd]. rewrite negb_involutive.
  assert (Hmem : ∀ x, mem V x ↔ x = bb ∨ mem (po_visited po) x).
  { intros x. by rewrite Vm, orb_true_iff, Nat.eqb_eq. }
  assert (Hdone' : ∀ b it, (b, it) ∈ visit_stack po → ∃ done, succs mir b = it ++ done ∧
    ∀ s, s ∈ done → mem V s ∨ s ∈ @nil nat).
  { intros b it Hin. destruct (Hdone b it Hin) as (dn & Hs & Hdn). exists dn. split; [done|].
    intros s Hsd. left. apply Hmem. destruct (Hdn s Hsd) as [?|?]; [by right|]. left. set_solver. }
  destruct (bs_mem dense_ops (po_visited po) bb) eqn:Hbv; cbn [negb].
  - assert (Hsame : ∀ x, mem V x ↔ mem (po_visited po) x) by (intros x; rewrite Hmem; naive_solver).
    eexists. split; [done|]. split_and!; [|by apply Hmem; left|by left].
    split; cbn [po_visited visit_stack]; try done; [by rewrite <-Hd|setoid_rewrite Hsame; apply Hv|
      |intros x Hx; by apply Hr, Hsame].
    intros l1 a l2 E s Hs. rewrite Hsame. eauto.
  - destruct (block_succs _ Hok bb Hbb) as (d & k & -> & Hk & _ & _ & Hs). simpl. rewrite Hk. simpl.
    rewrite Hs. eexists. split; [done|]. split_and!; [|by apply Hmem; left|by right].
    assert (Hnew : bb ∉ out ++ (visit_stack po).*1) by (rewrite <-Hv; congruence).
    split; cbn [po_visited visit_stack]; unfold vec_push; rewrite ?fmap_app, ?app_assoc; cbn [fmap list_fmap fst]; [done|by rewrite <-Hd| | | | | | |].
    + intros x. rewrite Hmem, Hv, !elem_of_app, list_elem_of_singleton. tauto.
    + by apply NoDup_snoc.
    + intros b it [Hin|[= -> ->]%list_elem_of_singleton]%elem_of_app; [by apply Hdone'|].
      exists []. rewrite app_nil_r. split; [done|set_solver].
    + by apply StronglySorted_snoc.
    + intros l1 a l2 E s Hsa. destruct (Ho _ _ _ E s Hsa) as [?|[? ?]]; [by left|].
      right. split; [done|]. apply Hmem. by right.
    + intros x [->|?]%Hmem; [done|by apply Hr].
    + destruct (visit_stack po); [by apply Hempty|done].
Qed.

(** Taking a successor off the iterator of the top of the stack. *)
Lemma po_inv_take out po below b it bb :
  po_inv out [] po → visit_stack po = below ++ [(b, it ++ [bb])] →
  po_inv out [bb] (mkPostorder (po_visited po) (below ++ [(b, it)])) ∧ edge b bb ∧
  reach root b ∧ (∀ y, y ∈ below.*1 ++ [b] → reach y b).
Proof.
  intros [Hwf Hd Hv Hn Hdone Hp Ho Hr Hbase] E. rewrite E in *. rewrite !fmap_app in *. cbn [fmap list_fmap fst] in *.
  destruct (Hdone b (it ++ [bb])) as (dn & Hs & Hdn); [set_solver|].
  assert (Hb : mem (po_visited po) b) by (apply Hv; set_solver).
  split_and!; [|unfold cfg_edge; rewrite Hs; set_solver|by apply Hr|].
  - split; cbn [po_visited visit_stack]; rewrite ?fmap_app; cbn [fmap list_fmap fst]; try done.
    intros c jt [Hin|[= -> ->]%list_elem_of_singleton]%elem_of_app.
    + destruct (Hdone c jt) as (dn' & ? & Hdn'); [set_solver|]. exists dn'. split; [done|].
      intros s Hsd. destruct (Hdn' s Hsd) as [?|?]; [by left|set_solver].
    + exists (bb :: dn). split; [by rewrite Hs, <-app_assoc|]. intros s [->|Hsd]%elem_of_cons; [right; set_solver|].
      destruct (Hdn s Hsd) as [?|?]; [by left|set_solver].
    + by destruct below.
  - apply StronglySorted_snoc in Hp as [_ Hp]. intros y [?| ->%list_elem_of_singleton]%elem_of_app; [by apply Hp|].
    by constructor.
Qed.

Definition po_measure (out : list BasicBlock) (po : Postorder) : nat :=
  sum_list_with (λ e, length e.2) (visit_stack po) +
  (n - length out - length (visit_stack po)) * S (max_successors mir).

Definition settled (po : Postorder) : Prop :=
  ∀ below b it, visit_stack po = below ++ [(b, it)] → it = [].

Lemma po_inv_lt out pend po x : po_inv out pend po → x ∈ out ++ (visit_stack po).*1 → x < n.
Proof. intros Hi Hx. eapply cfg_reach_lt; [done|by eapply pi_reach, pi_vis|done]. Qed.

Lemma po_inv_length out pend po : po_inv out pend po → length out + length (visit_stack po) ≤ n.
Proof.
  intros Hi. rewrite <-(length_seq n 0), <-(length_fmap fst (visit_stack po)), <-length_app.
  apply NoDup_length_le; [by eapply pi_nodup|]. intros x Hx. apply elem_of_seq.
  pose proof (po_inv_lt _ _ _ _ Hi Hx). lia.
Qed.

Lemma po_measure_bound out pend po : po_inv out pend po → po_measure out po < traversal_fuel mir.
Proof.
  intros Hi. pose proof (po_inv_length _ _ _ Hi) as Hl. unfold po_measure, traversal_fuel.
  assert (Hs : sum_list_with (λ e, length e.2) (visit_stack po) ≤ length (visit_stack po) * max_successors mir).
  { assert (Hall : ∀ b it, (b, it) ∈ visit_stack po → length it ≤ max_successors mir).
    { intros b it Hin. destruct (pi_done _ _ _ Hi b it Hin) as (dn & E & _).
      pose proof (succs_length mir b) as Hsl. rewrite E, length_app in Hsl. lia. }
    clear Hl Hi. induction (visit_stack po) as [|[b it] st IH]; simpl; [done|].
    specialize (Hall b it ltac:(left)) as Hb.
    assert (sum_list_with (λ e, length e.2) st ≤ length st * max_successors mir); [|lia].
    apply IH. intros c jt Hin. apply (Hall c jt). by right. }
  nia.
Qed.

Lemma po_traverse_ok out po : po_inv out [] po → ∃ po',
  Po.traverse_successor (traversal_fuel mir) mir po = Ret po' ∧ po_inv out [] po' ∧ settled po' ∧
  ∀ x, mem (po_visited po) x → mem (po_visited po') x.
Proof.
  intros Hinv. unfold Po.traverse_successor.
  destruct (loop_total (Po.traverse_step mir)
    (λ p, po_inv out [] p ∧ ∀ x, mem (po_visited po) x → mem (po_visited p) x) (po_measure out)
    (λ p, po_inv out [] p ∧ settled p ∧ ∀ x, mem (po_visited po) x → mem (po_visited p) x))
    with (fuel := traversal_fuel mir) (s := po) as (po' & Hr & Hi & Hs & Hm); [|done|by eapply po_measure_bound|by eauto].
  clear Hinv. intros p [Hi Hm]. unfold Po.traverse_step.
  destruct (vec_pop (visit_stack p)) as [[[b it] below]|] eqn:Hpop.
  2: { right. exists p. split_and!; [done..| |done]. apply vec_pop_None in Hpop. intros bl b it E.
       rewrite Hpop in E. by destruct bl. }
  apply vec_pop_Some in Hpop. destruct (vec_pop it) as [[bb it']|] eqn:Hpit.
  2: { right. exists p. split_and!; [done..| |done]. apply vec_pop_None in Hpit. intros bl c jt E.
       rewrite Hpop in E. apply app_inj_tail in E as [_ [= <- <-]]. done. }
  apply vec_pop_Some in Hpit as ->. left.
  destruct (po_inv_take _ _ _ _ _ _ Hi Hpop) as (Hi1 & He & Hrb & Hy).
  assert (Hrbb : reach root bb) by by eapply rtc_r.
  destruct (po_visit_ok out [bb] _ bb Hi1) as (p' & Hv & Hi' & Hbb & Hst); cbn [visit_stack po_visited] in *.
  - done.
  - by eapply cfg_reach_lt.
  - done.
  - intros y. rewrite fmap_app. intros Hin. eapply rtc_r; [by apply Hy|done].
  - by destruct below.
  - unfold vec_push. rewrite Hv. cbn [mbind outcome_bind]. exists p'. split_and!; [done..| |].
    { intros x Hx. eapply pi_vis; [done|]. apply Hm in Hx. eapply pi_vis in Hx; [|done].
      apply elem_of_app in Hx as [?|Hx]; apply elem_of_app; [by left|right].
      rewrite Hpop in Hx. destruct Hst as [-> | ->]; rewrite !fmap_app in *; set_solver. }
    pose proof (po_inv_length _ _ _ Hi') as Hl. unfold po_measure. rewrite Hpop.
    pose proof (succs_length mir bb).
    destruct Hst as [E|E]; rewrite E in *; rewrite ?sum_list_with_app, ?length_app in *; simpl in *;
      rewrite ?length_app in *; simpl in *; [lia|].
    replace (n - length out - (length below + 1)) with (S (n - length out - (length below + 1 + 1))) by lia. lia.
Qed.

Lemma po_pop_inv out po below bb it :
  po_inv out [] po → settled po → visit_stack po = below ++ [(bb, it)] →
  po_inv (out ++ [bb]) [] (mkPostorder (po_visited po) below).
Proof.
  intros [Hwf Hd Hv Hn Hdone Hp Ho Hr Hbase] Hset E. pose proof (Hset _ _ _ E) as ->.
  rewrite E in *. rewrite !fmap_app in *. cbn [fmap list_fmap fst] in *.
  apply StronglySorted_snoc in Hp as [Hp Hbb].
  split; cbn [po_visited visit_stack]; try done.
  - intros x. rewrite Hv, !elem_of_app, list_elem_of_singleton. tauto.
  - by rewrite <-app_assoc, (Permutation_app_comm [bb]).
  - intros b it Hin. apply Hdone. set_solver.
  - intros l1 a l2 E' s Hs. destruct l2 as [|z l2 _] using rev_ind.
    + apply app_inj_tail in E' as [<- <-]. destruct (Hdone bb []) as (dn & Hdn & Hall); [set_solver|].
      simpl in Hdn. rewrite Hdn in Hs. destruct (Hall s Hs) as [Hm|?]; [|set_solver].
      pose proof Hm as Hm'. apply Hv in Hm as [?|[?| ->%list_elem_of_singleton]%elem_of_app]%elem_of_app; [by left|right..].
      * split; [by apply Hbb|done].
      * by split; [constructor|].
    + rewrite app_comm_cons, app_assoc in E'. apply app_inj_tail in E' as [E' _]. by eapply Ho.
  - destruct below as [|e below]; [|done]. right. rewrite last_snoc. simpl in Hbase. congruence.
Qed.

Lemma po_collect_ok fuel : ∀ out po,
  po_inv out [] po → settled po → n - length out < fuel → ∃ l po',
    iter_collect (Po.next (traversal_fuel mir) mir) fuel po = Ret l ∧
    po_inv (out ++ l) [] po' ∧ visit_stack po' = [] ∧
    ∀ x, mem (po_visited po) x → mem (po_visited po') x.
Proof.
  induction fuel as [|f IH]; intros out po Hi Hs Hf; [lia|]. cbn [iter_collect].
  rewrite (eq_refl : Po.next _ _ po = match vec_pop _ with None => _ | Some _ => _ end).
  destruct (vec_pop (visit_stack po)) as [[[bb it] below]|] eqn:Hpop.
  - apply vec_pop_Some in Hpop. pose proof (po_pop_inv _ _ _ _ _ Hi Hs Hpop) as Hi1.
    destruct (po_traverse_ok _ _ Hi1) as (po1 & -> & Hi2 & Hs2 & Hm2). cbn [mbind outcome_bind].
    pose proof (po_inv_length _ _ _ Hi) as Hl. rewrite Hpop, length_app in Hl. simpl in Hl.
    destruct (IH _ po1 Hi2 Hs2) as (l & po2 & -> & Hi3 & He & Hm3); [rewrite length_app; simpl; lia|].
    cbn [mbind outcome_bind]. exists (bb :: l), po2. rewrite <-app_assoc in Hi3. split_and!; [done..|].
    intros x Hx. by apply Hm3, Hm2.
  - apply vec_pop_None in Hpop. cbn [mbind outcome_bind]. exists [], po. rewrite app_nil_r. done.
Qed.

Lemma po_new_ok : ∃ po, Po.new (traversal_fuel mir) mir root = Ret po ∧ po_inv [] [] po ∧ settled po ∧
  mem (po_visited po) root.
Proof.
  unfold Po.new.
  assert (Hnone : ∀ x, ¬ mem (Dense.new_empty n) x).
  { intros x. simpl. rewrite has_replicate_0. done. }
  destruct (po_visit_ok [] [] (mkPostorder (Dense.new_empty n) []) root)
    as (po & -> & Hi & Hm & _); [|set_solver|done|constructor|set_solver|done|].
  { split; cbn [po_visited visit_stack]; [by apply dense_new_empty_wf|done| |constructor|set_solver|constructor| | |by left].
    - intros x. split; [by intros ?%Hnone|set_solver].
    - by intros [].
    - by intros x ?%Hnone. }
  destruct (po_traverse_ok _ _ Hi) as (po' & Hr & Hi' & Hs & Hmono). cbn [mbind outcome_bind].
  exists po'. split_and!; [done..|by apply Hmono].
Qed.
End postorder.

(** [a] comes before [b] in [l]. *)
Definition precedes (l : list BasicBlock) (a b : BasicBlock) : Prop :=
  ∃ l1 l2, l = l1 ++ a :: l2 ∧ b ∈ l2.

Lemma reverse_postorder_ok mir :
  body_ok mir = true → body_small mir → ∃ l,
    reverse_postorder (traversal_fuel mir) mir = Ret l ∧ NoDup l ∧ head l = Some START_BLOCK ∧
    (∀ b, b ∈ l ↔ cfg_reach mir START_BLOCK b) ∧
    ∀ a b, a ∈ l → cfg_edge mir a b → precedes l a b ∨ cfg_reach mir b a.
Proof.
  intros Hok Hsmall. pose proof (start_lt _ Hok) as H0. unfold reverse_postorder.
  destruct (po_new_ok mir Hok Hsmall START_BLOCK H0) as (po & -> & Hi & Hs & Hm). cbn [mbind outcome_bind].
  destruct (po_collect_ok mir Hok Hsmall START_BLOCK H0 (traversal_fuel mir) [] po Hi Hs)
    as (l & po' & -> & Hi' & He & Hmono); [unfold traversal_fuel; simpl; nia|]. cbn [mbind outcome_bind].
  destruct Hi' as [_ _ Hv Hn _ _ Ho Hr Hb]. rewrite He in *. rewrite app_nil_r in *. simpl in *.
  assert (H0l : START_BLOCK ∈ l) by by apply Hv, Hmono.
  exists (reverse l). split_and!; [done|by rewrite reverse_Permutation| | |].
  - destruct Hb as [->|Hb]; [set_solver|]. by rewrite head_reverse.
  - intros b. rewrite elem_of_reverse. split; [by intros ?%Hv%Hr|]. intros Hb'. 
    revert b Hb'. apply (rtc_ind_r (.∈ l)); [done|]. intros b c _ Hbc IH.
    apply list_elem_of_split in IH as (l1 & l2 & E).
    destruct (Ho l1 b l2 E c Hbc) as [?|[_ ?]]; [rewrite E; set_solver|by apply Hv].
  - intros a b Ha He'. rewrite elem_of_reverse in Ha. apply list_elem_of_split in Ha as (l1 & l2 & ->).
    destruct (Ho l1 a l2 eq_refl b He') as [Hb'|[? _]]; [left|by right].
    exists (reverse l2), (reverse l1). split; [by rewrite reverse_app, reverse_cons, <-app_assoc|].
    by apply elem_of_reverse.
Qed.

(** ** [Preorder] *)
Section preorder.
Context (mir : Body) (Hok : body_ok mir = true) (Hsmall : body_small mir).

Abbreviation n := (length (basic_blocks mir)).
Abbreviation mem s i := (bs_mem dense_ops s i = true).

Record pre_inv (ord : list BasicBlock) (p : Preorder) : Prop := {
  pr_wf : dense_wf (pre_visited p);
  pr_dom : domain_size (pre_visited p) = n;
  pr_vis : ∀ x, mem (pre_visited p) x ↔ x ∈ ord;
  pr_nodup : NoDup ord;
  pr_reach : ∀ x, x ∈ ord ++ worklist p → cfg_reach mir START_BLOCK x;
  pr_start : START_BLOCK ∈ ord ++ worklist p;
  pr_closed : ∀ x y, x ∈ ord → cfg_edge mir x y → y ∈ ord ++ worklist p;
  pr_len : length (worklist p) ≤ 1 + length ord * max_successors mir }.

Lemma pre_inv_lt ord p x : pre_inv ord p → x ∈ ord ++ worklist p → x < n.
Proof. intros Hi Hx. eapply cfg_reach_lt; [done|by eapply pr_reach|by apply start_lt]. Qed.

Lemma pre_inv_length ord p : pre_inv ord p → length ord ≤ n.
Proof.
  intros Hi. rewrite <-(length_seq n 0). apply NoDup_length_le; [by eapply pr_nodup|].
  intros x Hx. apply elem_of_seq. assert (x < n); [|lia]. eapply pre_inv_lt; [done|set_solver].
Qed.

(** One call of [next]: the next unvisited block, or the end. *)
Lemma pre_next_ok ord p : pre_inv ord p → ∃ r p',
  Pre.next (traversal_fuel mir) mir p = Ret (r, p') ∧
  match r with
  | Some bb => bb ∉ ord ∧ pre_inv (ord ++ [bb]) p'
  | None => pre_inv ord p' ∧ worklist p' = []
  end.
Proof.
  intros Hi. unfold Pre.next.
  destruct (loop_total (Pre.next_step mir) (pre_inv ord) (λ p, length (worklist p))
    (λ r, match r.1 with Some bb => bb ∉ ord ∧ pre_inv (ord ++ [bb]) r.2
                       | None => pre_inv ord r.2 ∧ worklist r.2 = [] end))
    with (fuel := traversal_fuel mir) (s := p) as ([r p'] & Hr & HQ); [|done| |by exists r, p'].
  2: { pose proof (pre_inv_length _ _ Hi). pose proof (pr_len _ _ Hi). pose proof (start_lt _ Hok).
       unfold traversal_fuel. nia. }
  clear p Hi. intros p Hi. unfold Pre.next_step.
  destruct (vec_pop (worklist p)) as [[idx wl]|] eqn:Hpop.
  2: { right. exists (None, p). split; [done|]. split; [done|]. by apply vec_pop_None. }
  apply vec_pop_Some in Hpop.
  assert (Hlt : idx < n) by (eapply pre_inv_lt; [done|rewrite Hpop; set_solver]).
  destruct Hi as [Hwf Hd Hv Hn Hr Hs Hc Hl]. rewrite Hpop in *. rewrite length_app in Hl. simpl in Hl.
  destruct (bs_insert_ok (O := dense_ops) (pre_visited p) idx) as (V & HV & Vwf & Vd & Vm); [done|simpl; lia|].
  change (bs_insert dense_ops) with Dense.insert in HV. rewrite HV.
  cbn [mbind outcome_bind fst snd]. rewrite negb_involutive.
  assert (Hmem : ∀ x, mem V x ↔ x = idx ∨ mem (pre_visited p) x).
  { intros x. by rewrite Vm, orb_true_iff, Nat.eqb_eq. }
  destruct (bs_mem dense_ops (pre_visited p) idx) eqn:Hin.
  - left. eexists. split; [done|]. rewrite length_app. simpl. split; [|lia].
    apply Hv in Hin as Hin'. split; cbn [pre_visited worklist]; [done|by rewrite <-Hd| |done|clear -Hr Hs Hc Hin'; set_solver..|lia].
    intros x. rewrite Hmem. split; [intros [->|?]; [done|by apply Hv]|intros ?; right; by apply Hv].
  - assert (Hni : idx ∉ ord) by (rewrite <-Hv; congruence).
    destruct (block_succs _ Hok idx Hlt) as (d & k & -> & _ & Hto & _ & Hk). cbn [mbind outcome_bind]. rewrite Hto.
    rewrite Hk. right. eexists. split; [done|]. split; [done|]. cbn [snd].
    assert (Hri : cfg_reach mir START_BLOCK idx) by (apply Hr; set_solver).
    split; cbn [pre_visited worklist]; [done|by rewrite <-Hd| |by apply NoDup_snoc| | | |].
    + intros x. rewrite Hmem, Hv. set_solver.
    + intros x. rewrite !elem_of_app, list_elem_of_singleton. intros [[?| ->]|[?|Hx]]; [|done| |].
      * apply Hr. set_solver.
      * apply Hr. set_solver.
      * by eapply rtc_r.
    + set_solver.
    + intros x y [Hx| ->%list_elem_of_singleton]%elem_of_app He; [specialize (Hc x y Hx He); set_solver|].
      unfold cfg_edge in He. set_solver.
    + rewrite !length_app. simpl. pose proof (succs_length mir idx). lia.
Qed.

Lemma drain_preorder_ok m : ∀ ord p, pre_inv ord p → n - length ord < m → ∃ l p',
  drain_preorder m (traversal_fuel mir) mir p = Ret (l, p') ∧ pre_inv (ord ++ l) p' ∧ worklist p' = [].
Proof.
  induction m as [|m IH]; intros ord p Hi Hm; [lia|]. cbn [drain_preorder].
  destruct (pre_next_ok _ _ Hi) as (r & p' & -> & Hr). cbn [mbind outcome_bind fst snd]. destruct r as [bb|].
  - destruct Hr as [Hni Hi']. pose proof (pre_inv_length _ _ Hi') as Hl. rewrite length_app in Hl. simpl in Hl.
    destruct (IH _ p' Hi') as (l & p2 & -> & Hi2 & He); [rewrite length_app; simpl; lia|].
    exists (bb :: l), p2. rewrite <-app_assoc in Hi2. done.
  - destruct Hr as [Hi' He]. exists [], p'. by rewrite app_nil_r.
Qed.

Lemma preorder_ok : ∃ l V,
  preorder (traversal_fuel mir) mir = Ret l ∧ NoDup l ∧
  (∀ b, b ∈ l ↔ cfg_reach mir START_BLOCK b) ∧
  reachable_as_bitset (traversal_fuel mir) mir = Ret V ∧ dense_wf V ∧ domain_size V = n ∧
  ∀ b, mem V b ↔ cfg_reach mir START_BLOCK b.
Proof.
  pose proof (start_lt _ Hok) as H0.
  destruct (drain_preorder_ok (traversal_fuel mir) [] (Pre.new mir START_BLOCK)) as (l & p & Hr & Hi & He).
  { split; cbn; [by apply dense_new_empty_wf|done| |constructor| |set_solver|set_solver|lia].
    - intros x. simpl. rewrite has_replicate_0. set_solver.
    - intros x ->%list_elem_of_singleton. constructor. }
  { unfold traversal_fuel. simpl. nia. }
  destruct Hi as [Hwf Hd Hv Hn Hreach Hs Hc _]. rewrite He in *. rewrite app_nil_r in *. simpl in *.
  assert (Hl : ∀ b, b ∈ l ↔ cfg_reach mir START_BLOCK b).
  { intros b. split; [apply Hreach|]. revert b. apply (rtc_ind_r (.∈ l)); [done|]. intros x y _ Hxy Hx. eauto. }
  exists l, (pre_visited p). unfold preorder, reachable_as_bitset. rewrite Hr. cbn [mbind outcome_bind fst snd].
  split_and!; try done. intros b. by rewrite <-Hl.
Qed.
End preorder.
