(* ===== verification/Lattice.v ===== *)
(** * Join semi-lattices

    [rustc_mir_dataflow/src/framework/lattice.rs]: the contract of the trait
    [JoinSemiLattice] ([LatticeLaws]) and its implementations: bit sets under
    union ([DenseBitSet] and [MixedBitSet], through the bit-set interface),
    [FlatSet] and [MaybeReachable].  The trait [GenKill] ([framework/mod.rs]) and
    its implementations. *)
From S2P Require Import Prelude BitSet ChunkedBitSet.

(** ** The contract

    [lat_join] is the code; the order, the well-formed values and the height
    (how often a value can still grow) are what its users may assume. *)
Record Lattice (D : Type) := {
  lat_wf : D → Prop;
  lat_join : D → D → outcome (D * bool);
  lat_le : D → D → Prop;
  lat_height : D → nat }.
Arguments lat_wf {D}. Arguments lat_join {D}. Arguments lat_le {D}. Arguments lat_height {D}.

(** The least upper bound of [a] and [b]. *)
Definition is_lub {D} (L : Lattice D) (a b c : D) : Prop :=
  lat_wf L c ∧ lat_le L a c ∧ lat_le L b c ∧
  ∀ d, lat_wf L d → lat_le L a d → lat_le L b d → lat_le L c d.

Class LatticeLaws {D} (L : Lattice D) : Prop := {
  lat_refl a : lat_wf L a → lat_le L a a;
  lat_trans a b c : lat_le L a b → lat_le L b c → lat_le L a c;
  lat_antisym a b : lat_wf L a → lat_wf L b → lat_le L a b → lat_le L b a → a = b;
  lat_join_ok a b : lat_wf L a → lat_wf L b → ∃ c changed,
    lat_join L a b = Ret (c, changed) ∧ is_lub L a b c ∧ (changed = true ↔ c ≠ a);
  lat_height_lt a b : lat_wf L a → lat_wf L b → lat_le L a b → a ≠ b → lat_height L b < lat_height L a }.

Lemma lat_height_le {D} (L : Lattice D) `{!LatticeLaws L, !EqDecision D} a b :
  lat_wf L a → lat_wf L b → lat_le L a b → lat_height L b ≤ lat_height L a.
Proof.
  intros Ha Hb Hab. destruct (decide (a = b)) as [->|Hne]; [done|].
  by apply Nat.lt_le_incl, lat_height_lt.
Qed.

(** ** Bit sets *)
Lemma filter_length_lt {A} (f g : A → bool) (l : list A) x :
  (∀ y, y ∈ l → g y = true → f y = true) → x ∈ l → f x = true → g x = false →
  length (List.filter g l) < length (List.filter f l).
Proof.
  intros Hfg [l1 [l2 ->]]%list_elem_of_split Hf Hg.
  assert (Hle : ∀ k, k ⊆ l1 ++ x :: l2 → length (List.filter g k) ≤ length (List.filter f k)).
  { induction k as [|y k IH]; intros Hk; simpl; [done|].
    assert (length (List.filter g k) ≤ length (List.filter f k)) by (apply IH; set_solver).
    destruct (g y) eqn:Ey; [|destruct (f y); simpl; lia]. rewrite (Hfg y) by (done || set_solver). simpl. lia. }
  rewrite !List.filter_app, !length_app. simpl. rewrite Hf, Hg. simpl.
  specialize (Hle l1 ltac:(set_solver)) as H1. specialize (Hle l2 ltac:(set_solver)) as H2. lia.
Qed.

Section bits.
Context {S : Type} (O : BitSetOps S) `{!BitSetLaws O} (n : nat).

(** The indices below [n] that are not in the set. *)
Definition absent (s : S) : list nat := List.filter (λ i, negb (bs_mem O s i)) (seq 0 n).

Definition bits_lattice : Lattice S := {|
  lat_wf s := bs_wf O s ∧ bs_domain O s = n;
  lat_join := bs_union O;
  lat_le s t := ∀ i, bs_mem O s i = true → bs_mem O t i = true;
  lat_height s := length (absent s) |}.

#[export] Instance bits_lattice_laws : LatticeLaws bits_lattice.
Proof using Type*.
  split; simpl.
  - auto.
  - auto.
  - intros a b [Ha Hda] [Hb Hdb] Hab Hba. apply (bs_ext (O := O)); [done..|congruence|]. intros i.
    destruct (bs_mem O a i) eqn:E; [by rewrite Hab|]. destruct (bs_mem O b i) eqn:E'; [|done].
    by rewrite Hba in E.
  - intros a b [Ha Hda] [Hb Hdb]. destruct (bs_union_ok (O := O) a b) as (c & ch & Hu & (Hc & Hd & Hm) & Hch);
      [done..|congruence|].
    exists c, ch. split; [done|]. split; [|done]. split_and!; simpl.
    + split; [done|congruence].
    + intros i. rewrite Hm. by intros ->.
    + intros i. rewrite Hm. intros ->. apply orb_true_r.
    + intros d _ Had Hbd i. rewrite Hm. intros [?|?]%orb_true_iff; auto.
  - intros a b [Ha Hda] [Hb Hdb] Hab Hne. unfold absent.
    assert (¬ ∀ i, i < n → bs_mem O b i = true → bs_mem O a i = true) as Hex.
    { intros Hba. apply Hne. apply (bs_ext (O := O)); [done..|congruence|]. intros i.
      destruct (bs_mem O a i) eqn:E; [by rewrite Hab|]. destruct (bs_mem O b i) eqn:E'; [|done].
      rewrite Hba in E; [done| |done]. rewrite <-Hdb. by apply (bs_mem_lt (O := O)). }
    assert (∃ i, i ∈ seq 0 n ∧ bs_mem O b i = true ∧ bs_mem O a i = false) as (i & Hi & Hbi & Hai).
    { destruct (Exists_dec (λ i, bs_mem O b i = true ∧ bs_mem O a i = false) (seq 0 n)) as [He|He].
      - apply Exists_exists in He. naive_solver.
      - destruct Hex. intros i Hi Hbi. destruct (bs_mem O a i) eqn:E; [done|]. destruct He.
        apply Exists_exists. exists i. split; [apply elem_of_seq; lia|done]. }
    apply (filter_length_lt _ _ _ i); [|done|by rewrite Hai|by rewrite Hbi].
    intros j _. rewrite !negb_true_iff. intros Hbj. destruct (bs_mem O a j) eqn:E; [|done].
    by rewrite Hab in Hbj.
Qed.

(** A least upper bound has no other bits. *)
Lemma bits_lub a b c i : lat_wf bits_lattice a → lat_wf bits_lattice b → is_lub bits_lattice a b c →
  bs_mem O c i = true → bs_mem O a i = true ∨ bs_mem O b i = true.
Proof using Type*.
  intros [Ha Hda] [Hb Hdb] (_ & _ & _ & Hleast) Hc.
  destruct (bs_union_ok (O := O) a b) as (u & ch & _ & (Hu & Hdu & Hmu) & _); [done..|congruence|].
  assert (bs_mem O u i = true) as Hui; [|rewrite Hmu in Hui; by apply orb_true_iff].
  apply (Hleast u); [by split; [|congruence]|intros j Hj; rewrite Hmu, Hj; done| |done].
  intros j Hj. rewrite Hmu, Hj. apply orb_true_r.
Qed.
End bits.

(** ** [FlatSet] *)
Inductive FlatSet (T : Type) := Bottom | Elem (x : T) | Top.
Arguments Bottom {T}. Arguments Elem {T}. Arguments Top {T}.

#[export] Instance FlatSet_eq_dec `{EqDecision T} : EqDecision (FlatSet T).
Proof. solve_decision. Defined.

Module Flat.
Section flat.
Context {T : Type} `{EqDecision T}.

Definition is_bottom (s : FlatSet T) : bool := match s with Bottom => true | _ => false end.

(** The arms are tried in order. *)
Definition join (s other : FlatSet T) : FlatSet T * bool :=
  match s, other with
  | Top, _ | _, Bottom => (s, false)
  | Elem a, Elem b => if bool_decide (a = b) then (s, false) else (Top, true)
  | Bottom, Elem x => (Elem x, true)
  | _, _ => (Top, true)
  end.

Definition le (s t : FlatSet T) : Prop := s = Bottom ∨ t = Top ∨ s = t.

Definition lattice : Lattice (FlatSet T) := {|
  lat_wf _ := True;
  lat_join s t := Ret (join s t);
  lat_le := le;
  lat_height s := match s with Bottom => 2 | Elem _ => 1 | Top => 0 end |}.

#[export] Instance lattice_laws : LatticeLaws lattice.
Proof using Type*.
  split; unfold is_lub; simpl; unfold le.
  - auto.
  - naive_solver.
  - naive_solver.
  - intros a b _ _. exists (join a b).1, (join a b).2. split; [by destruct (join a b)|].
    destruct a as [|a|], b as [|b|]; simpl; try case_bool_decide; subst; simpl; naive_solver.
  - intros a b _ _. destruct a, b; naive_solver.
Qed.
End flat.
End Flat.

(** ** [MaybeReachable] *)
Inductive MaybeReachable (T : Type) := Unreached | Reachable (x : T).
Arguments Unreached {T}. Arguments Reachable {T}.

#[export] Instance MaybeReachable_eq_dec `{EqDecision T} : EqDecision (MaybeReachable T).
Proof. solve_decision. Defined.

Module Reach.
Definition is_reachable {T} (s : MaybeReachable T) : bool :=
  match s with Reachable _ => true | Unreached => false end.

(** [contains], for a state that is a bit set. *)
Definition contains {S} (O : BitSetOps S) (s : MaybeReachable S) (elem : nat) : outcome bool :=
  match s with Unreached => Ret false | Reachable set => bs_contains O set elem end.

Section reach.
Context {T : Type} (L : Lattice T) `{!LatticeLaws L, !EqDecision T}.

Definition join (s other : MaybeReachable T) : outcome (MaybeReachable T * bool) :=
  match s, other with
  | _, Unreached => Ret (s, false)
  | Unreached, _ => Ret (other, true)
  | Reachable this, Reachable other => r ← lat_join L this other; Ret (Reachable r.1, r.2)
  end.

(** [top] bounds the height of the reachable values. *)
Context (top : nat).

Definition lattice : Lattice (MaybeReachable T) := {|
  lat_wf s := match s with Unreached => True | Reachable x => lat_wf L x ∧ lat_height L x ≤ top end;
  lat_join := join;
  lat_le s t := match s, t with
                | Unreached, _ => True
                | Reachable x, Reachable y => lat_le L x y
                | _, Unreached => False
                end;
  lat_height s := match s with Unreached => S top | Reachable x => lat_height L x end |}.

#[export] Instance lattice_laws : LatticeLaws lattice.
Proof using Type*.
  split; unfold is_lub; simpl.
  - intros []; [done|]. intros [? _]. by apply lat_refl.
  - intros [|a] [|b] [|c]; try done. apply lat_trans.
  - intros [|a] [|b]; try done. intros [? _] [? _] ??. f_equal. by eapply lat_antisym.
  - intros [|a] [|b] Ha Hb; simpl.
    + exists Unreached, false. naive_solver.
    + assert (lat_le L b b) by (apply lat_refl; naive_solver). exists (Reachable b), true.
      split_and!; simpl; try naive_solver; intros []; naive_solver.
    + assert (lat_le L a a) by (apply lat_refl; naive_solver). exists (Reachable a), false.
      split_and!; simpl; try naive_solver; intros []; naive_solver.
    + destruct Ha as [Ha Hha], Hb as [Hb Hhb].
      destruct (lat_join_ok a b Ha Hb) as (c & ch & -> & (Hc & Hac & Hbc & Hleast) & Hch). simpl.
      exists (Reachable c), ch. split; [done|]. split; [split_and!|]; [done| |done|done| |].
      * etrans; [by apply (lat_height_le L a c)|done].
      * intros [|d]; [done|]. intros [? _]. auto.
      * rewrite Hch. naive_solver.
  - intros [|a] [|b]; try done.
    + intros _ [_ ?] _ _. lia.
    + intros [? _] [? _] ? Hne. apply lat_height_lt; [done..|congruence].
Qed.
End reach.
End Reach.

(** ** Gen/kill states

    The trait [GenKill] of [rustc_mir_dataflow/src/framework/mod.rs] and its
    implementations. *)
#[export] Instance DenseBitSet_eq_dec : EqDecision DenseBitSet.
Proof. solve_decision. Defined.

Class GenKill (T : Type) := {
  gen_ : T → nat → outcome T;
  kill : T → nat → outcome T }.

(** [gen_all] and [kill_all] *)
Definition gen_all `{GenKill T} (s : T) (elems : list nat) : outcome T := ofold gen_ s elems.
Definition kill_all `{GenKill T} (s : T) (elems : list nat) : outcome T := ofold kill s elems.

#[export] Instance dense_gen_kill : GenKill DenseBitSet := {|
  gen_ s elem := r ← Dense.insert s elem; Ret r.1;
  kill s elem := r ← Dense.remove s elem; Ret r.1 |}.

#[export] Instance mixed_gen_kill : GenKill MixedBitSet := {|
  gen_ s elem := r ← MixedSet.insert s elem; Ret r.1;
  kill s elem := r ← MixedSet.remove s elem; Ret r.1 |}.

#[export] Instance reachable_gen_kill `{GenKill T} : GenKill (MaybeReachable T) := {|
  gen_ s elem := match s with
                 | Unreached => Ret Unreached
                 | Reachable set => s ← gen_ set elem; Ret (Reachable s)
                 end;
  kill s elem := match s with
                 | Unreached => Ret Unreached
                 | Reachable set => s ← kill set elem; Ret (Reachable s)
                 end |}.

(** The newtype of [borrowed_locals]: borrow invalidation is ignored. *)
Record Borrowed := mkBorrowed { borrowed_set : DenseBitSet }.
#[export] Instance borrowed_gen_kill : GenKill Borrowed := {|
  gen_ s elem := d ← gen_ (borrowed_set s) elem; Ret (mkBorrowed d);
  kill s _ := Ret s |}.
