(* ===== verification/Dataflow.v ===== *)
(** * The dataflow framework

    [rustc_mir_dataflow/src/framework]: the trait [Analysis] (a record of its
    methods over a lattice), the two directions with their per-block effects
    ([direction.rs]) and the fixpoint engine ([iterate_to_fixpoint] of
    [mod.rs]).  The transfer functions work on bit sets whose operations may
    panic, so they return outcomes. *)
From S2P Require Import Prelude Mir BitSet Traversal Lattice.

Record Location := mkLocation { loc_block : BasicBlock; statement_index : nat }.

(** ** Terminator edges ([mir/terminator.rs]) *)
Inductive CallReturnPlaces :=
  | CrCall (p : Place)
  | CrYield (p : Place)
  | CrInlineAsm (operands : list InlineAsmOperand).

(** The places [CallReturnPlaces::for_each] visits. *)
Definition asm_out_place (op : InlineAsmOperand) : option Place :=
  match op with AsmOut p => p | AsmInOut _ p => p | _ => None end.
Definition return_places (c : CallReturnPlaces) : list Place :=
  match c with
  | CrCall p | CrYield p => [p]
  | CrInlineAsm operands => omap asm_out_place operands
  end.

Inductive TerminatorEdges :=
  | EdgesNone
  | EdgesSingle (target : BasicBlock)
  | EdgesDouble (target unwind : BasicBlock)
  | EdgesAssignOnReturn (return_ : list BasicBlock) (cleanup : option BasicBlock) (place : CallReturnPlaces)
  | EdgesSwitchInt (targets : SwitchTargets) (discr : Operand).

Definition cleanup_block (u : UnwindAction) : option BasicBlock :=
  match u with UnwindCleanup bb => Some bb | _ => None end.

Definition edges (k : TerminatorKind) : TerminatorEdges :=
  match k with
  | Return | TailCall _ _ | UnwindResume | UnwindTerminate | CoroutineDrop | Unreachable => EdgesNone
  | Goto target => EdgesSingle target
  | Assert _ _ _ target unwind | Drop _ target unwind _ | FalseUnwind target unwind =>
      match unwind with
      | UnwindCleanup unwind => EdgesDouble target unwind
      | UnwindContinue | UnwindTerm | UnwindUnreachable => EdgesSingle target
      end
  | FalseEdge real_target imaginary_target => EdgesDouble real_target imaginary_target
  | Yield _ target resume_arg drop =>
      EdgesAssignOnReturn (target :: option_list drop) None (CrYield resume_arg)
  | Call _ _ destination target unwind =>
      EdgesAssignOnReturn (option_list target) (cleanup_block unwind) (CrCall destination)
  | InlineAsm operands targets unwind =>
      EdgesAssignOnReturn targets (cleanup_block unwind) (CrInlineAsm operands)
  | SwitchInt discr targets => EdgesSwitchInt targets discr
  end.

(** ** [Analysis] *)
Inductive Direction := Backward | Forward.
Definition is_forward (d : Direction) : bool := match d with Forward => true | Backward => false end.

Inductive SwitchTargetIndex := SwitchNormal (i : nat) | SwitchOtherwise.

Record Analysis (D : Type) := mkAnalysis {
  an_lattice : Body → Lattice D;
  direction : Direction;
  SwitchIntData : Type;
  bottom_value : Body → D;
  initialize_start_block : Body → D → outcome D;
  apply_early_statement_effect : D → StatementKind → Location → outcome D;
  apply_primary_statement_effect : D → StatementKind → Location → outcome D;
  apply_early_terminator_effect : D → TerminatorKind → Location → outcome D;
  get_terminator_edges : D → TerminatorKind → Location → TerminatorEdges;
  apply_primary_terminator_effect : D → TerminatorKind → Location → outcome D;
  apply_call_return_effect : D → BasicBlock → CallReturnPlaces → outcome D;
  get_switch_int_data : BasicBlock → SwitchTargets → Operand → option SwitchIntData;
  apply_switch_int_edge_effect : D → SwitchIntData → SwitchTargetIndex → outcome (D * SwitchIntData) }.
Arguments an_lattice {D}. Arguments direction {D}. Arguments SwitchIntData {D}. Arguments bottom_value {D}.
Arguments initialize_start_block {D}. Arguments apply_early_statement_effect {D}.
Arguments apply_primary_statement_effect {D}. Arguments apply_early_terminator_effect {D}.
Arguments get_terminator_edges {D}. Arguments apply_primary_terminator_effect {D}.
Arguments apply_call_return_effect {D}. Arguments get_switch_int_data {D}.
Arguments apply_switch_int_edge_effect {D}.

(** ** Per-block effects ([direction.rs]) *)
Section effects.
Context {D : Type} (A : Analysis D) (mir : Body).

Definition statement_effects (block : BasicBlock) (state : D) (e : nat * StatementKind) : outcome D :=
  let location := mkLocation block e.1 in
  s ← apply_early_statement_effect A state e.2 location;
  apply_primary_statement_effect A s e.2 location.

(** [propagate] is a closure over the engine's state, of type [Acc] here. *)
Context {Acc : Type} (propagate : Acc → BasicBlock → D → outcome Acc).

(** *** [Backward] *)
Definition back_state (state : D) (block : BasicBlock) (data : BasicBlockData) : outcome D :=
  term ← terminator data;
  let location := mkLocation block (length (statements data)) in
  s ← apply_early_terminator_effect A state term location;
  s ← apply_primary_terminator_effect A s term location;
  ofold (statement_effects block) s (reverse (enumerate (statements data))).

Definition propagate_pred (block : BasicBlock) (exit_state : D) (acc : Acc) (pred : BasicBlock) : outcome Acc :=
  k ← terminator_at mir pred;
  let default := propagate acc pred exit_state in
  match k with
  | Call _ _ destination (Some dest) _ =>
      if dest =? block then
        tmp ← apply_call_return_effect A exit_state pred (CrCall destination); propagate acc pred tmp
      else default
  | InlineAsm operands targets _ =>
      if bool_decide (block ∈ targets) then
        tmp ← apply_call_return_effect A exit_state pred (CrInlineAsm operands); propagate acc pred tmp
      else default
  | Yield _ resume resume_arg drop =>
      if (resume =? block) || bool_decide (drop = Some block) then
        tmp ← apply_call_return_effect A exit_state block (CrYield resume_arg); propagate acc pred tmp
      else default
  | SwitchInt discr targets =>
      match get_switch_int_data A pred targets discr with
      | Some _ => Panic
      | None => default
      end
  | _ => default
  end.

Definition backward_apply_effects (acc : Acc) (state : D) (block : BasicBlock) (data : BasicBlockData)
    : outcome Acc :=
  s ← back_state state block data;
  preds ← predecessors mir;
  ps ← unwrap (preds !! block);
  ofold (propagate_pred block s) acc ps.

(** *** [Forward] *)
(** The state after the statements, and after the early effect of the
    terminator. *)
Definition before_terminator (state : D) (block : BasicBlock) (data : BasicBlockData) : outcome D :=
  s ← ofold (statement_effects block) state (enumerate (statements data));
  term ← terminator data;
  apply_early_terminator_effect A s term (mkLocation block (length (statements data))).

Definition switch_edge (exit_state : D) (st : Acc * SwitchIntData A) (e : nat * (Z * BasicBlock))
    : outcome (Acc * SwitchIntData A) :=
  r ← apply_switch_int_edge_effect A exit_state st.2 (SwitchNormal e.1);
  acc ← propagate st.1 e.2.2 r.1;
  Ret (acc, r.2).

Definition propagate_edges (block : BasicBlock) (exit_state : D) (acc : Acc) (es : TerminatorEdges) : outcome Acc :=
  match es with
  | EdgesNone => Ret acc
  | EdgesSingle target => propagate acc target exit_state
  | EdgesDouble target unwind => acc ← propagate acc target exit_state; propagate acc unwind exit_state
  | EdgesAssignOnReturn return_ cleanup place =>
      acc ← match cleanup with Some c => propagate acc c exit_state | None => Ret acc end;
      match return_ with
      | [] => Ret acc
      | _ =>
          s ← apply_call_return_effect A exit_state block place;
          ofold (λ acc target, propagate acc target s) acc return_
      end
  | EdgesSwitchInt targets discr =>
      match get_switch_int_data A block targets discr with
      | Some data =>
          st ← ofold (switch_edge exit_state) (acc, data) (enumerate (Switch.iter targets));
          r ← apply_switch_int_edge_effect A exit_state st.2 SwitchOtherwise;
          o ← Switch.otherwise targets;
          propagate st.1 o r.1
      | None => ofold (λ acc target, propagate acc target exit_state) acc (Switch.all_targets targets)
      end
  end.

Definition forward_apply_effects (acc : Acc) (state : D) (block : BasicBlock) (data : BasicBlockData)
    : outcome Acc :=
  s ← before_terminator state block data;
  term ← terminator data;
  let location := mkLocation block (length (statements data)) in
  let es := get_terminator_edges A s term location in
  s ← apply_primary_terminator_effect A s term location;
  propagate_edges block s acc es.


Definition apply_effects_in_block (acc : Acc) (state : D) (block : BasicBlock) (data : BasicBlockData)
    : outcome Acc :=
  match direction A with
  | Backward => backward_apply_effects acc state block data
  | Forward => forward_apply_effects acc state block data
  end.
End effects.

(** ** The engine *)
Section engine.
Context {D : Type} `{EqDecision D} (A : Analysis D) (mir : Body).

Record engine := mkEngine {
  entry_states : list D;
  dirty : DenseBitSet;
  curr_rank : nat }.

(** The closure [prop]. *)
Definition prop (ranks : list (option nat)) (e : engine) (target : BasicBlock) (state : D) : outcome engine :=
  target_rank ← unwrap (ranks !! target);
  match direction A, target_rank with
  | Backward, None => Ret e
  | _, _ =>
      target_rank ← unwrap target_rank;
      entry ← unwrap (entry_states e !! target);
      r ← (lat_join (an_lattice A mir) entry state : outcome (D * bool));
      let entry_states := <[target := r.1]> (entry_states e) in
      if r.2 : bool then
        d ← Dense.insert (dirty e) target_rank;
        Ret (mkEngine entry_states d.1 (curr_rank e `min` target_rank))
      else Ret (mkEngine entry_states (dirty e) (curr_rank e))
  end.

(** The block of a rank: [rpo[i]] or [rpo[last - i]]. *)
Definition block_of_rank (rpo : list BasicBlock) (i : nat) : outcome BasicBlock :=
  match direction A with
  | Forward => unwrap (rpo !! i)
  | Backward => if i <? length rpo then unwrap (rpo !! (length rpo - 1 - i)) else Panic
  end.

Definition set_rank (rpo : list BasicBlock) (ranks : list (option nat)) (e : nat * BasicBlock)
    : outcome (list (option nat)) :=
  let rank := if is_forward (direction A) then e.1 else length rpo - 1 - e.1 in
  if e.2 <? length ranks then Ret (<[e.2 := Some rank]> ranks) else Panic.

Definition compute_ranks (rpo : list BasicBlock) : outcome (list (option nat)) :=
  ofold (set_rank rpo) (replicate (length (basic_blocks mir)) None) (enumerate rpo).

Definition engine_step (rpo : list BasicBlock) (ranks : list (option nat)) (e : engine)
    : outcome (engine + list D) :=
  bb ← block_of_rank rpo (curr_rank e);
  c ← Dense.contains (dirty e) (curr_rank e);
  if negb c then Panic else
  d ← Dense.remove (dirty e) (curr_rank e);
  state ← unwrap (entry_states e !! bb);
  data ← block_at mir bb;
  e ← apply_effects_in_block A mir (Acc := engine) (prop ranks)
    (mkEngine (entry_states e) d.1 (curr_rank e)) state bb data;
  next ← Dense.first_set_at_or_after (dirty e) (curr_rank e);
  match next with
  | Some rank => Ret (inl (mkEngine (entry_states e) (dirty e) rank))
  | None => Ret (inr (entry_states e))
  end.

(** The entry states after [initialize_start_block]. *)
Definition initial_states : outcome (list D) :=
  let entry_states := replicate (length (basic_blocks mir)) (bottom_value A mir) in
  start ← unwrap (entry_states !! START_BLOCK);
  start ← initialize_start_block A mir start;
  if negb (is_forward (direction A)) && negb (bool_decide (start = bottom_value A mir)) then Panic
  else Ret (<[START_BLOCK := start]> entry_states).

(** [iterate_to_fixpoint]; the results are the entry states. *)
Definition iterate_to_fixpoint (fuel : nat) : outcome (list D) :=
  entry_states ← initial_states;
  rpo ← reverse_postorder (traversal_fuel mir) mir;
  match rpo with
  | [] => Panic
  | _ =>
      ranks ← compute_ranks rpo;
      dirty ← Dense.new_filled (length rpo);
      loop fuel (engine_step rpo ranks) (mkEngine entry_states dirty 0)
  end.
End engine.
Arguments mkEngine {D}. Arguments entry_states {D}. Arguments dirty {D}. Arguments curr_rank {D}.
