(* ===== verification/DataflowFacts.v ===== *)
(** * The dataflow framework: what an analysis must guarantee, and the effects of a block

    The laws an analysis owes the engine ([AnalysisLaws], and [AnalysisMono] for
    monotone transfer functions), and the reading of [apply_effects_in_block] as
    a list of emissions: which states a block sends to which blocks. *)
From S2P Require Import Prelude Mir BitSet Traversal Lattice Dataflow.

(** ** Laws of an analysis *)
Section effects.
Context {D : Type} (L : Lattice D).

(** A total transfer function that keeps states well-formed; a monotone one. *)
Definition effect_ok (f : D → outcome D) : Prop :=
  ∀ s, lat_wf L s → ∃ s', f s = Ret s' ∧ lat_wf L s'.
Definition effect_mono (f : D → outcome D) : Prop :=
  ∀ s t s' t', lat_wf L s → lat_wf L t → lat_le L s t → f s = Ret s' → f t = Ret t' → lat_le L s' t'.

Lemma effect_ok_ret : effect_ok Ret.
Proof. intros s Hs. by exists s. Qed.
Lemma effect_mono_ret : effect_mono Ret.
Proof. intros s t ?? _ _ ? [= <-] [= <-]. done. Qed.

Lemma effect_ok_bind f g : effect_ok f → effect_ok g → effect_ok (λ s, x ← f s; g x).
Proof. intros Hf Hg s Hs. destruct (Hf s Hs) as (x & -> & Hx). by apply Hg. Qed.
Lemma effect_mono_bind f g : effect_ok f → effect_mono f → effect_mono g → effect_mono (λ s, x ← f s; g x).
Proof.
  intros Hok Hf Hg s t s' t' Hs Ht Hst.
  destruct (Hok s Hs) as (x & Ex & Hx), (Hok t Ht) as (y & Ey & Hy). rewrite Ex, Ey. simpl.
  apply Hg; [done..|]. by apply (Hf s t).
Qed.

Lemma effect_ok_ofold {B} (f : D → B → outcome D) l :
  (∀ b, b ∈ l → effect_ok (λ s, f s b)) → effect_ok (λ s, ofold f s l).
Proof.
  induction l as [|b l IH]; intros Hf; [apply effect_ok_ret|]. simpl.
  apply (effect_ok_bind (λ s, f s b)); [apply Hf; by left|]. apply IH. intros c Hc. apply Hf. by right.
Qed.
Lemma effect_mono_ofold {B} (f : D → B → outcome D) l :
  (∀ b, b ∈ l → effect_ok (λ s, f s b)) → (∀ b, b ∈ l → effect_mono (λ s, f s b)) →
  effect_mono (λ s, ofold f s l).
Proof.
  induction l as [|b l IH]; intros Hok Hf; [apply effect_mono_ret|]. simpl.
  apply (effect_mono_bind (λ s, f s b)); [apply Hok; by left|apply Hf; by left|].
  apply IH; intros c Hc; [apply Hok|apply Hf]; by right.
Qed.
End effects.

(** The calls whose return effect an analysis must support.  The laws are about
    analyses that keep the default [get_terminator_edges] and have no switch
    data. *)
Definition returns_to (k : TerminatorKind) (place : CallReturnPlaces) : Prop :=
  ∃ target return_ cleanup, edges k = EdgesAssignOnReturn (target :: return_) cleanup place.

Class AnalysisLaws {D} (A : Analysis D) (mir : Body) : Prop := {
  al_lattice :: LatticeLaws (an_lattice A mir);
  al_bottom_wf : lat_wf (an_lattice A mir) (bottom_value A mir);
  al_bottom_le s : lat_wf (an_lattice A mir) s → lat_le (an_lattice A mir) (bottom_value A mir) s;
  al_init : effect_ok (an_lattice A mir) (initialize_start_block A mir);
  al_init_back : direction A = Backward → ∀ s, initialize_start_block A mir s = Ret s;
  al_early_statement bb d i st loc : basic_blocks mir !! bb = Some d → statements d !! i = Some st →
    effect_ok (an_lattice A mir) (λ s, apply_early_statement_effect A s st loc);
  al_primary_statement bb d i st loc : basic_blocks mir !! bb = Some d → statements d !! i = Some st →
    effect_ok (an_lattice A mir) (λ s, apply_primary_statement_effect A s st loc);
  al_early_terminator bb k loc : terminator_at mir bb = Ret k →
    effect_ok (an_lattice A mir) (λ s, apply_early_terminator_effect A s k loc);
  al_primary_terminator bb k loc : terminator_at mir bb = Ret k →
    effect_ok (an_lattice A mir) (λ s, apply_primary_terminator_effect A s k loc);
  al_call_return bb b k place : terminator_at mir bb = Ret k → returns_to k place →
    effect_ok (an_lattice A mir) (λ s, apply_call_return_effect A s b place);
  al_edges s k loc : get_terminator_edges A s k loc = edges k;
  al_switch bb ts op : get_switch_int_data A bb ts op = None }.

Class AnalysisMono {D} (A : Analysis D) (mir : Body) : Prop := {
  am_early_statement bb d i st loc : basic_blocks mir !! bb = Some d → statements d !! i = Some st →
    effect_mono (an_lattice A mir) (λ s, apply_early_statement_effect A s st loc);
  am_primary_statement bb d i st loc : basic_blocks mir !! bb = Some d → statements d !! i = Some st →
    effect_mono (an_lattice A mir) (λ s, apply_primary_statement_effect A s st loc);
  am_early_terminator bb k loc : terminator_at mir bb = Ret k →
    effect_mono (an_lattice A mir) (λ s, apply_early_terminator_effect A s k loc);
  am_primary_terminator bb k loc : terminator_at mir bb = Ret k →
    effect_mono (an_lattice A mir) (λ s, apply_primary_terminator_effect A s k loc);
  am_call_return bb b k place : terminator_at mir bb = Ret k → returns_to k place →
    effect_mono (an_lattice A mir) (λ s, apply_call_return_effect A s b place) }.

(** ** Emissions *)
Abbreviation emission D := (BasicBlock * D)%type.

(** A block's effects as a list of [(target, state)] pairs. *)
Definition emissions {D} (A : Analysis D) (mir : Body) (s : D) (bb : BasicBlock) : outcome (list (emission D)) :=
  d ← block_at mir bb;
  apply_effects_in_block A mir (λ acc t x, Ret (vec_push acc (t, x))) [] s bb d.

Section traces.
Context {D : Type}.

(** [f propagate acc] calls [propagate] on each of [ems] in turn. *)
Definition traced (f : ∀ Acc, (Acc → BasicBlock → D → outcome Acc) → Acc → outcome Acc) (ems : list (emission D)) : Prop :=
  ∀ Acc propagate acc, f Acc propagate acc = ofold (λ acc e, propagate acc e.1 e.2) acc ems.

Lemma ofold_app {S X} (f : S → X → outcome S) s l1 l2 :
  ofold f s (l1 ++ l2) = s' ← ofold f s l1; ofold f s' l2.
Proof.
  revert s. induction l1 as [|x l1 IH]; intros s; simpl; [done|]. destruct (f s x); simpl; [apply IH|done..].
Qed.

Lemma ofold_push {X} (acc l : list X) : ofold (λ acc x, Ret (vec_push acc x)) acc l = Ret (acc ++ l).
Proof.
  revert acc. induction l as [|x l IH]; intros acc; simpl; [by rewrite app_nil_r|]. rewrite IH.
  unfold vec_push. by rewrite <-app_assoc.
Qed.

(** A loop whose body propagates once per element. *)
Lemma traced_omapM {X} (f : ∀ Acc, (Acc → BasicBlock → D → outcome Acc) → Acc → X → outcome Acc)
    (tgt : X → BasicBlock) (st : X → outcome D) l ems :
  (∀ Acc p acc x, f Acc p acc x = (y ← st x; p acc (tgt x) y)) →
  omapM (λ x, y ← st x; Ret (tgt x, y)) l = Ret ems →
  traced (λ Acc p acc, ofold (f Acc p) acc l) ems.
Proof.
  intros Hf. revert ems. induction l as [|x l IH]; intros ems; simpl; [by intros [= <-] ???|].
  destruct (st x) as [y| |] eqn:Hy; simpl; [|done..].
  destruct (omapM _ l) as [es| |] eqn:Hes; simpl; [|done..]. intros [= <-] Acc p acc. simpl.
  rewrite Hf, Hy. simpl. destruct (p acc (tgt x) y); simpl; [by apply IH|done..].
Qed.
End traces.

Lemma omapM_Forall2 {X Y} (f : X → outcome Y) l :
  (∀ x, x ∈ l → ∃ y, f x = Ret y) → ∃ ys, omapM f l = Ret ys ∧ Forall2 (λ x y, f x = Ret y) l ys.
Proof.
  induction l as [|x l IH]; intros Hf; simpl; [by exists []|].
  destruct (Hf x) as [y Hy]; [by left|]. destruct IH as (ys & Hys & HF); [intros z Hz; apply Hf; by right|].
  exists (y :: ys). by rewrite Hy, Hys; split; [|constructor].
Qed.

Section block_effects.
Context {D : Type} (A : Analysis D) (mir : Body) `{!AnalysisLaws A mir}.
Context (Hok : body_ok mir = true).
Abbreviation L := (an_lattice A mir).
Abbreviation wf := (lat_wf (an_lattice A mir)).
Implicit Types (s : D) (bb t : BasicBlock).

(** *** Backward: one emission per predecessor *)
Definition back_edge (bb pred : BasicBlock) (s : D) : outcome D :=
  k ← terminator_at mir pred;
  match k with
  | Call _ _ destination (Some dest) _ =>
      if dest =? bb then apply_call_return_effect A s pred (CrCall destination) else Ret s
  | InlineAsm operands targets _ =>
      if bool_decide (bb ∈ targets) then apply_call_return_effect A s pred (CrInlineAsm operands) else Ret s
  | Yield _ resume resume_arg drop =>
      if (resume =? bb) || bool_decide (drop = Some bb) then apply_call_return_effect A s bb (CrYield resume_arg)
      else Ret s
  | _ => Ret s
  end.

Lemma propagate_pred_edge Acc (p : Acc → BasicBlock → D → outcome Acc) bb s acc pred :
  propagate_pred A mir p bb s acc pred = y ← back_edge bb pred s; p acc pred y.
Proof.
  unfold propagate_pred, back_edge. destruct (terminator_at mir pred) as [k| |]; simpl; [|done..].
  destruct k as [| | | | | | |? ? ? [|] ?| | |? r ? d| | | |? ts ?]; simpl; try done; [by rewrite al_switch| | |].
  - by destruct (_ =? _).
  - by destruct (_ || _).
  - by case_bool_decide.
Qed.

Lemma back_edge_ok bb pred : pred < length (basic_blocks mir) → effect_ok L (back_edge bb pred).
Proof.
  intros Hp s Hs. destruct (terminator_at_ok _ _ Hok Hp) as [k Hk]. unfold back_edge. rewrite Hk. simpl.
  assert (Hret : ∀ b place, returns_to k place → ∃ s', apply_call_return_effect A s b place = Ret s' ∧ wf s').
  { intros b place Hr. by eapply (al_call_return pred b k place). }
  destruct k as [| | | | | | |? ? ? [|] ?| | |? r ? d| | | |? ts ?]; simpl; try by exists s.
  - destruct (_ =? _); [|by exists s]. apply Hret. by eexists _, _, _.
  - destruct (_ || _); [|by exists s]. apply Hret. by eexists _, _, _.
  - case_bool_decide; [|by exists s]. apply Hret. destruct ts; [set_solver|by eexists _, _, _].
Qed.

Lemma back_edge_mono bb pred `{!AnalysisMono A mir} : effect_mono L (back_edge bb pred).
Proof.
  intros s t s' t' Hs Ht Hst. unfold back_edge. destruct (terminator_at mir pred) as [k| |] eqn:Hk; simpl; [|done..].
  assert (Hret : ∀ b place, returns_to k place → apply_call_return_effect A s b place = Ret s' →
    apply_call_return_effect A t b place = Ret t' → lat_le L s' t').
  { intros b place Hr. by apply (am_call_return pred b k place). }
  destruct k as [| | | | | | |? ? ? [|] ?| | |? r ? d| | | |? ts ?]; simpl; try by intros [= <-] [= <-].
  - destruct (_ =? _); [apply Hret; by eexists _, _, _|by intros [= <-] [= <-]].
  - destruct (_ || _); [apply Hret; by eexists _, _, _|by intros [= <-] [= <-]].
  - case_bool_decide; [apply Hret; destruct ts; [set_solver|by eexists _, _, _]|by intros [= <-] [= <-]].
Qed.

(** *** The state at the end of a block's effects *)
Lemma statement_effects_ok bb d e :
  basic_blocks mir !! bb = Some d → e ∈ enumerate (statements d) →
  effect_ok L (λ s, statement_effects A bb s e).
Proof.
  intros Hd He. destruct e as [i st]. apply elem_of_enumerate in He. unfold statement_effects. simpl.
  apply (effect_ok_bind L (λ s, apply_early_statement_effect A s st (mkLocation bb i))).
  - by eapply al_early_statement.
  - by eapply al_primary_statement.
Qed.

Lemma statement_effects_mono bb d e `{!AnalysisMono A mir} :
  basic_blocks mir !! bb = Some d → e ∈ enumerate (statements d) →
  effect_mono L (λ s, statement_effects A bb s e).
Proof.
  intros Hd He. destruct e as [i st]. apply elem_of_enumerate in He. unfold statement_effects. simpl.
  apply (effect_mono_bind L (λ s, apply_early_statement_effect A s st (mkLocation bb i))).
  - by eapply al_early_statement.
  - by eapply am_early_statement.
  - by eapply am_primary_statement.
Qed.

Lemma back_state_ok bb d k :
  basic_blocks mir !! bb = Some d → terminator d = Ret k → terminator_at mir bb = Ret k →
  effect_ok L (λ s, back_state A s bb d) ∧
  (AnalysisMono A mir → effect_mono L (λ s, back_state A s bb d)).
Proof.
  intros Hd Hk Hkt. unfold back_state. rewrite Hk. cbn [mbind outcome_bind].
  assert (Hrev : ∀ e, e ∈ reverse (enumerate (statements d)) → e ∈ enumerate (statements d)).
  { intros e. by rewrite elem_of_reverse. }
  pose proof (al_early_terminator bb k (mkLocation bb (length (statements d))) Hkt) as He.
  pose proof (al_primary_terminator bb k (mkLocation bb (length (statements d))) Hkt) as Hp.
  assert (Hf : effect_ok L (λ s, ofold (statement_effects A bb) s (reverse (enumerate (statements d))))).
  { apply effect_ok_ofold. intros b Hb. apply (statement_effects_ok bb d b Hd). by apply Hrev. }
  split; [|intros ?].
  - eapply effect_ok_bind; [exact He|]. eapply effect_ok_bind; [exact Hp|exact Hf].
  - eapply effect_mono_bind; [exact He|by eapply am_early_terminator|].
    eapply effect_mono_bind; [exact Hp|by eapply am_primary_terminator|].
    apply effect_mono_ofold; intros b Hb; [apply (statement_effects_ok bb d b Hd)|apply (statement_effects_mono bb d b Hd)];
      by apply Hrev.
Qed.

Lemma forw_state_ok bb d k :
  basic_blocks mir !! bb = Some d → terminator d = Ret k → terminator_at mir bb = Ret k →
  effect_ok L (λ s, before_terminator A s bb d) ∧
  (AnalysisMono A mir → effect_mono L (λ s, before_terminator A s bb d)).
Proof.
  intros Hd Hk Hkt. unfold before_terminator. rewrite Hk. cbn [mbind outcome_bind].
  pose proof (al_early_terminator bb k (mkLocation bb (length (statements d))) Hkt) as He.
  assert (Hf : effect_ok L (λ s, ofold (statement_effects A bb) s (enumerate (statements d)))).
  { apply effect_ok_ofold. intros b Hb. by apply (statement_effects_ok bb d b Hd). }
  split; [|intros ?].
  - eapply effect_ok_bind; [exact Hf|exact He].
  - eapply effect_mono_bind; [exact Hf| |by eapply am_early_terminator].
    apply effect_mono_ofold; intros b Hb; [by apply (statement_effects_ok bb d b Hd)|by apply (statement_effects_mono bb d b Hd)].
Qed.

(** *** Forward: one emission per edge *)
Definition cleanup_emissions (s : D) (cleanup : option BasicBlock) : list (emission D) :=
  match cleanup with Some c => [(c, s)] | None => [] end.

Definition forw_emissions (bb : BasicBlock) (s : D) (es : TerminatorEdges) : outcome (list (emission D)) :=
  match es with
  | EdgesNone => Ret []
  | EdgesSingle target => Ret [(target, s)]
  | EdgesDouble target unwind => Ret [(target, s); (unwind, s)]
  | EdgesAssignOnReturn [] cleanup place => Ret (cleanup_emissions s cleanup)
  | EdgesAssignOnReturn return_ cleanup place =>
      s' ← apply_call_return_effect A s bb place;
      Ret (cleanup_emissions s cleanup ++ ((λ t, (t, s')) <$> return_))
  | EdgesSwitchInt targets discr => Ret ((λ t, (t, s)) <$> st_targets targets)
  end.

Lemma ofold_targets {Acc} (p : Acc → BasicBlock → D → outcome Acc) acc s ts :
  ofold (λ acc t, p acc t s) acc ts = ofold (λ acc e, p acc e.1 e.2) acc ((λ t, (t, s)) <$> ts).
Proof. revert acc. induction ts as [|t ts IH]; intros acc; simpl; [done|]. destruct (p acc t s); simpl; [apply IH|done..]. Qed.

Lemma propagate_edges_traced bb s es ems :
  forw_emissions bb s es = Ret ems → traced (λ Acc p acc, propagate_edges A p bb s acc es) ems.
Proof.
  assert (Hc : ∀ Acc (p : Acc → BasicBlock → D → outcome Acc) acc cleanup,
    match cleanup with Some c => p acc c s | None => Ret acc end =
    ofold (λ acc e, p acc e.1 e.2) acc (cleanup_emissions s cleanup)).
  { intros Acc p acc [c|]; simpl; [by destruct (p acc c s)|done]. }
  unfold forw_emissions, propagate_edges. intros He Acc p acc.
  destruct es as [|t|t u|[|r rs] cleanup place|ts op]; simplify_eq/=; [done| | | | |].
  - by destruct (p acc t s).
  - destruct (p acc t s); simpl; [|done..]. by destruct (p _ u s).
  - rewrite Hc. by destruct (ofold _ acc _).
  - destruct (apply_call_return_effect A s bb place) as [s'| |] eqn:E; simplify_eq/=.
    rewrite Hc, ofold_app. destruct (ofold _ acc (cleanup_emissions s cleanup)) as [acc'| |]; simpl; [|done..].
    destruct (p acc' r s') as [a| |]; simpl; [|done..]. by rewrite ofold_targets.
  - rewrite al_switch. unfold Switch.all_targets. by rewrite ofold_targets.
Qed.

(** The edges of a terminator lead to its successors. *)
Lemma cleanup_emissions_target s cleanup t x : (t, x) ∈ cleanup_emissions s cleanup → cleanup = Some t ∧ x = s.
Proof. destruct cleanup; simpl; [|set_solver]. by intros [= -> ->]%list_elem_of_singleton. Qed.

Lemma assign_edges_successors k return_ cleanup place :
  edges k = EdgesAssignOnReturn return_ cleanup place →
  (∀ t, cleanup = Some t → t ∈ successors k) ∧ return_ ⊆ successors k.
Proof.
  destruct k as [| | | | | |? ? [] ?|? ? ? [|] []|? ?|? ? ? ? []|? ? ? [|]| |? ?|? []|? ? []]; simpl; intros [= <- <- <-];
    (split; [intros ? [= <-] || intros ? [=]; simpl; set_solver|simpl; set_solver]) || set_solver.
Qed.

Lemma forw_emissions_ok bb k s :
  terminator_at mir bb = Ret k → wf s → ∃ ems, forw_emissions bb s (edges k) = Ret ems ∧
    ∀ t x, (t, x) ∈ ems → wf x ∧ t ∈ successors k.
Proof.
  intros Hk Hs. destruct (edges k) as [|t|t u|return_ cleanup place|ts op] eqn:E; simpl.
  - exists []. split; [done|set_solver].
  - exists [(t, s)]. split; [done|]. intros ? ? [= -> ->]%list_elem_of_singleton. split; [done|].
    destruct k as [| | | | | |? ? [] ?| | |? ? ? ? []| | |? ?|? []|]; simplify_eq/=; try (left; done).
    all: destruct drop; left.
  - exists [(t, s); (u, s)]. split; [done|]. intros a x Hin.
    assert (Ha : (a = t ∨ a = u) ∧ x = s) by set_solver. destruct Ha as [Ha ->]. split; [done|].
    destruct k as [| | | | | |? ? [] ?| | |? ? ? ? []| | |? ?|? []|]; simplify_eq/=; try set_solver.
    destruct drop; set_solver.
  - destruct (assign_edges_successors _ _ _ _ E) as [Hc Hr].
    assert (Hcl : ∀ t x, (t, x) ∈ cleanup_emissions s cleanup → wf x ∧ t ∈ successors k).
    { intros t x [Ht ->]%cleanup_emissions_target. split; [done|by apply Hc]. }
    destruct return_ as [|r rs]; [by exists (cleanup_emissions s cleanup)|].
    destruct (al_call_return bb bb k place Hk ltac:(by eexists _, _, _) s Hs) as (s' & -> & Hs'). simpl.
    eexists. split; [done|]. intros t x [Hin|Hin]%elem_of_app; [by apply Hcl|].
    assert (t ∈ r :: rs ∧ x = s') as [Ht ->].
    { change ((t, x) ∈ (λ t, (t, s')) <$> r :: rs) in Hin. apply list_elem_of_fmap in Hin as (y & [= -> ->] & ?). done. }
    split; [done|by apply Hr].
  - eexists. split; [done|]. intros t x Hin. apply list_elem_of_fmap in Hin as (y & [= -> ->] & Hy).
    split; [done|]. destruct k as [| | | | | |? ? [] ?| | |? ? ? ? []| | |? ?|? []|]; simplify_eq/=; done.
Qed.

Definition emissions_le (e1 e2 : list (emission D)) : Prop :=
  Forall2 (λ a b, a.1 = b.1 ∧ lat_le L a.2 b.2) e1 e2.

Lemma forw_emissions_mono bb k s (t : D) e1 e2 `{!AnalysisMono A mir} :
  terminator_at mir bb = Ret k → wf s → wf t → lat_le L s t → forw_emissions bb s (edges k) = Ret e1 →
  forw_emissions bb t (edges k) = Ret e2 → emissions_le e1 e2.
Proof.
  intros Hk Hs Ht Hst. unfold emissions_le.
  assert (Hfm : ∀ (x y : D) (ts : list BasicBlock), lat_le L x y →
    Forall2 (λ a b, a.1 = b.1 ∧ lat_le L a.2 b.2) ((λ t, (t, x)) <$> ts) ((λ t, (t, y)) <$> ts)).
  { intros x y ts Hxy. induction ts; simpl; by constructor. }
  assert (Hcl : ∀ c, Forall2 (λ a b, a.1 = b.1 ∧ lat_le L a.2 b.2) (cleanup_emissions s c) (cleanup_emissions t c)).
  { intros [c|]; simpl; repeat constructor; done. }
  destruct (edges k) as [|u|u v|[|r rs] cleanup place|ts op] eqn:E; simpl; try (intros [= <-] [= <-]).
  - constructor.
  - by repeat constructor.
  - by repeat constructor.
  - apply Hcl.
  - destruct (apply_call_return_effect A s bb place) as [s'| |] eqn:E1; simpl; [|done..].
    destruct (apply_call_return_effect A t bb place) as [t'| |] eqn:E2; simpl; [|done..].
    intros [= <-] [= <-]. assert (lat_le L s' t') by by eapply (am_call_return bb bb k place Hk ltac:(by eexists _, _, _) s t).
    apply Forall2_app; [apply Hcl|]. by apply (Hfm s' t' (r :: rs)).
  - by apply Hfm.
Qed.

(** *** The emissions of a block *)
(** An edge of the control-flow graph in the direction of the analysis. *)
Definition flow_edge (a b : BasicBlock) : Prop :=
  match direction A with Forward => cfg_edge mir a b | Backward => cfg_edge mir b a end.

Lemma traced_emissions bb s d ems :
  block_at mir bb = Ret d → traced (λ Acc p acc, apply_effects_in_block A mir p acc s bb d) ems →
  emissions A mir s bb = Ret ems.
Proof.
  intros Hd Ht. unfold emissions. rewrite Hd. cbn [mbind outcome_bind].
  rewrite (Ht _ (λ acc t x, Ret (vec_push acc (t, x)))). erewrite ofold_ext; [apply (ofold_push [])|].
  by intros ? [].
Qed.

Lemma backward_trace bb s : direction A = Backward → bb < length (basic_blocks mir) → wf s →
  ∃ d s' ps ems, block_at mir bb = Ret d ∧ back_state A s bb d = Ret s' ∧
    omapM (λ pred, y ← back_edge bb pred s'; Ret (pred, y)) ps = Ret ems ∧
    (∀ p, p ∈ ps ↔ cfg_edge mir p bb) ∧ predecessors mir ≫= (λ preds, unwrap (preds !! bb)) = Ret ps ∧
    traced (λ Acc p acc, apply_effects_in_block A mir p acc s bb d) ems ∧
    ∀ t x, (t, x) ∈ ems → wf x ∧ flow_edge bb t.
Proof.
  intros Hdir Hbb Hs. destruct (block_succs _ Hok bb Hbb) as (d & k & Hd & Hk & _ & Hkt & _).
  assert (Hd' : basic_blocks mir !! bb = Some d).
  { unfold block_at in Hd. destruct (basic_blocks mir !! bb); naive_solver. }
  destruct (proj1 (back_state_ok bb d k Hd' Hk Hkt) s Hs) as (s' & Hs' & Hwf').
  destruct (predecessors_ok _ Hok) as (preds & Hpr & Hl & Hps).
  destruct (lookup_lt_is_Some_2 preds bb) as [ps Hbp]; [lia|]. specialize (Hps bb ps Hbp).
  assert (Hlt : ∀ p, p ∈ ps → p < length (basic_blocks mir)).
  { intros p Hp%Hps. unfold cfg_edge, succs, terminator_at, block_at in Hp.
    destruct (basic_blocks mir !! p) eqn:E; [by eapply lookup_lt_Some|]. simpl in Hp. set_solver. }
  destruct (omapM_Forall2 (λ pred, y ← back_edge bb pred s'; Ret (pred, y)) ps) as (ems & Hems & HF).
  { intros p Hp. destruct (back_edge_ok bb p (Hlt p Hp) s' Hwf') as (y & -> & _). by eexists. }
  exists d, s', ps, ems. split_and!; [done..|by rewrite Hpr; simpl; rewrite Hbp| |].
  - intros Acc p acc. unfold apply_effects_in_block, backward_apply_effects. rewrite Hdir, Hs'. simpl.
    rewrite Hpr. simpl. rewrite Hbp. simpl.
    apply (traced_omapM (λ Acc p acc pred, propagate_pred A mir p bb s' acc pred) (λ p, p) (λ pred, back_edge bb pred s'));
      [|done]. intros. apply propagate_pred_edge.
  - intros t x Hin. apply list_elem_of_lookup in Hin as [i Hi].
    destruct (Forall2_lookup_r _ _ _ _ _ HF Hi) as (p & Hp & He). simpl in He.
    assert (Hpi : p ∈ ps) by by eapply list_elem_of_lookup_2.
    destruct (back_edge_ok bb p (Hlt p Hpi) s' Hwf') as (y & Hy & Hwy). rewrite Hy in He. simplify_eq/=.
    split; [done|]. unfold flow_edge. rewrite Hdir. by apply Hps.
Qed.

Lemma forward_trace bb s : direction A = Forward → bb < length (basic_blocks mir) → wf s →
  ∃ d k s1 s2 ems, block_at mir bb = Ret d ∧ terminator_at mir bb = Ret k ∧ before_terminator A s bb d = Ret s1 ∧
    apply_primary_terminator_effect A s1 k (mkLocation bb (length (statements d))) = Ret s2 ∧
    forw_emissions bb s2 (edges k) = Ret ems ∧
    traced (λ Acc p acc, apply_effects_in_block A mir p acc s bb d) ems ∧
    ∀ t x, (t, x) ∈ ems → wf x ∧ flow_edge bb t.
Proof.
  intros Hdir Hbb Hs. destruct (block_succs _ Hok bb Hbb) as (d & k & Hd & Hk & _ & Hkt & Hsc).
  assert (Hd' : basic_blocks mir !! bb = Some d).
  { unfold block_at in Hd. destruct (basic_blocks mir !! bb); naive_solver. }
  destruct (proj1 (forw_state_ok bb d k Hd' Hk Hkt) s Hs) as (s1 & Hs1 & Hwf1).
  destruct (al_primary_terminator bb k (mkLocation bb (length (statements d))) Hkt s1 Hwf1) as (s2 & Hs2 & Hwf2).
  destruct (forw_emissions_ok bb k s2 Hkt Hwf2) as (ems & Hems & Hall).
  exists d, k, s1, s2, ems. split_and!; [done..| |].
  - intros Acc p acc. unfold apply_effects_in_block, forward_apply_effects. rewrite Hdir, Hs1. simpl.
    rewrite Hk. simpl. rewrite Hs2. simpl. rewrite al_edges. by apply propagate_edges_traced.
  - intros t x Hin. destruct (Hall t x Hin) as [Hx Ht]. split; [done|]. unfold flow_edge. rewrite Hdir.
    unfold cfg_edge. by rewrite <-Hsc.
Qed.

(** Every block has emissions; they are well-formed and follow the flow. *)
Lemma block_trace bb s : bb < length (basic_blocks mir) → wf s → ∃ d ems,
  block_at mir bb = Ret d ∧ emissions A mir s bb = Ret ems ∧
  traced (λ Acc p acc, apply_effects_in_block A mir p acc s bb d) ems ∧
  ∀ t x, (t, x) ∈ ems → wf x ∧ flow_edge bb t.
Proof.
  intros Hbb Hs. destruct (direction A) eqn:Hdir.
  - destruct (backward_trace bb s Hdir Hbb Hs) as (d & s' & ps & ems & Hd & _ & _ & _ & _ & Ht & Hall).
    exists d, ems. split_and!; [done|by eapply traced_emissions|done..].
  - destruct (forward_trace bb s Hdir Hbb Hs) as (d & k & s1 & s2 & ems & Hd & _ & _ & _ & _ & Ht & Hall).
    exists d, ems. split_and!; [done|by eapply traced_emissions|done..].
Qed.

Lemma omapM_mono {X} (f g : X → outcome (emission D)) l e1 e2 :
  (∀ x a b, f x = Ret a → g x = Ret b → a.1 = b.1 ∧ lat_le L a.2 b.2) →
  omapM f l = Ret e1 → omapM g l = Ret e2 → emissions_le e1 e2.
Proof.
  intros Hfg. revert e1 e2. induction l as [|x l IH]; intros e1 e2; simpl; [intros [= <-] [= <-]; constructor|].
  destruct (f x) as [a| |] eqn:Ha; simpl; [|done..]. destruct (g x) as [b| |] eqn:Hb; simpl; [|done..].
  destruct (omapM f l) as [es| |]; simpl; [|done..]. destruct (omapM g l) as [es'| |]; simpl; [|done..].
  intros [= <-] [= <-]. constructor; [by eapply Hfg|by apply IH].
Qed.

(** A greater state has greater emissions. *)
Lemma emissions_mono bb s (t : D) e1 e2 `{!AnalysisMono A mir} :
  bb < length (basic_blocks mir) → wf s → wf t → lat_le L s t →
  emissions A mir s bb = Ret e1 → emissions A mir t bb = Ret e2 → emissions_le e1 e2.
Proof.
  intros Hbb Hs Ht Hst He1 He2. destruct (block_succs _ Hok bb Hbb) as (d & k & Hd & Hk & _ & Hkt & _).
  assert (Hd' : basic_blocks mir !! bb = Some d).
  { unfold block_at in Hd. destruct (basic_blocks mir !! bb); naive_solver. }
  destruct (direction A) eqn:Hdir.
  - destruct (backward_trace bb s Hdir Hbb Hs) as (d1 & s' & ps & ems & Hd1 & Hs' & Hems & _ & Hps & Htr & _).
    destruct (backward_trace bb t Hdir Hbb Ht) as (d2 & t' & ps2 & ems2 & Hd2 & Ht' & Hems2 & _ & Hps2 & Htr2 & _).
    rewrite (traced_emissions _ _ _ _ Hd1 Htr) in He1. rewrite (traced_emissions _ _ _ _ Hd2 Htr2) in He2.
    simplify_ret. destruct (back_state_ok bb d k Hd' Hk Hkt) as [Hbok Hbm].
    assert (Hle : lat_le L s' t') by (by eapply (Hbm _ s t)).
    destruct (Hbok s Hs) as (? & ? & ?), (Hbok t Ht) as (? & ? & ?). simplify_ret.
    eapply omapM_mono; [|done..]. intros p a b. cbn beta.
    destruct (back_edge bb p s') as [x| |] eqn:Hx; simpl; [|done..].
    destruct (back_edge bb p t') as [y| |] eqn:Hy; simpl; [|done..]. intros [= <-] [= <-]. split; [done|].
    by eapply (back_edge_mono bb p s' t').
  - destruct (forward_trace bb s Hdir Hbb Hs) as (d1 & k1 & s1 & s2 & ems & Hd1 & Hk1 & Hs1 & Hs2 & Hems & Htr & _).
    destruct (forward_trace bb t Hdir Hbb Ht) as (d2 & k2 & t1 & t2 & ems2 & Hd2 & Hk2 & Ht1 & Ht2 & Hems2 & Htr2 & _).
    rewrite (traced_emissions _ _ _ _ Hd1 Htr) in He1. rewrite (traced_emissions _ _ _ _ Hd2 Htr2) in He2.
    simplify_ret. destruct (forw_state_ok bb d k Hd' Hk Hkt) as [Hbok Hbm].
    assert (Hle : lat_le L s1 t1) by (by eapply (Hbm _ s t)).
    destruct (Hbok s Hs) as (? & ? & ?), (Hbok t Ht) as (? & ? & ?). simplify_ret.
    pose proof (al_primary_terminator bb k (mkLocation bb (length (statements d))) Hkt) as Hp.
    destruct (Hp s1) as (? & ? & ?); [done|]. destruct (Hp t1) as (? & ? & ?); [done|]. simplify_ret.
    eapply (forw_emissions_mono bb k s2 t2); [done..| |done|done].
    by eapply (am_primary_terminator bb k (mkLocation bb (length (statements d))) Hkt s1 t1).
Qed.
End block_effects.
