(* ===== verification/DataflowEngine.v ===== *)
(** * The fixpoint engine: termination and least fixpoint

    [iterate_to_fixpoint] terminates for every lawful analysis, monotone or not,
    because entry states only grow; its result absorbs every emission of every
    reachable block; and for monotone transfer functions it is the least such
    assignment. *)
From S2P Require Import Prelude Mir BitWords BitSet BitSetFacts BitSetRanges Traversal Lattice Dataflow DataflowFacts.

Section engine.
Context {D : Type} `{EqDecision D} (A : Analysis D) (mir : Body) `{!AnalysisLaws A mir}.
Context (Hok : body_ok mir = true) (Hsmall : body_small mir).
Abbreviation L := (an_lattice A mir).
Abbreviation wf := (lat_wf (an_lattice A mir)).
Abbreviation le := (lat_le (an_lattice A mir)).
Abbreviation n := (length (basic_blocks mir)).
Abbreviation reachable := (cfg_reach mir START_BLOCK).

(** ** Solutions

    [X] gives every block a state that is at least [init], and absorbs what the
    reachable blocks emit. *)
Record solution (init X : list D) : Prop := {
  sol_length : length X = n;
  sol_wf : Forall wf X;
  sol_init b s : init !! b = Some s → ∃ s', X !! b = Some s' ∧ le s s';
  sol_absorbs b s ems t x : reachable b → X !! b = Some s → emissions A mir s b = Ret ems →
    (t, x) ∈ ems → reachable t → ∃ s', X !! t = Some s' ∧ le x s' }.

(** [P] is an invariant of the iteration: it holds of the initial states, and
    of the join of a state with what a block in [P] emits.  Monotonicity is not
    needed. *)
Record inductive_states (init : list D) (P : BasicBlock → D → Prop) : Prop := {
  is_init b s : init !! b = Some s → P b s;
  is_join b s ems t x a c : reachable b → P b s → wf s → emissions A mir s b = Ret ems → (t, x) ∈ ems →
    reachable t → P t a → wf a → is_lub L a x c → P t c }.

(** ** Ranks *)
Section ranks.
Context (rpo : list BasicBlock) (ranks : list (option nat)).

Record ranks_ok : Prop := {
  rk_reach b : b ∈ rpo ↔ reachable b;
  rk_nodup : NoDup rpo;
  rk_length : length ranks = n;
  rk_some r b : r < length rpo → block_of_rank A rpo r = Ret b → ranks !! b = Some (Some r);
  rk_block b r : ranks !! b = Some (Some r) → r < length rpo ∧ block_of_rank A rpo r = Ret b }.
End ranks.

(** The position in [rpo] of a rank. *)
Definition rank_pos (rpo : list BasicBlock) (i : nat) : nat :=
  if is_forward (direction A) then i else length rpo - 1 - i.

Lemma block_of_rank_pos rpo i b : i < length rpo →
  block_of_rank A rpo i = Ret b ↔ rpo !! rank_pos rpo i = Some b.
Proof.
  intros Hi. unfold block_of_rank, rank_pos. destruct (direction A); simpl.
  - rewrite (proj2 (Nat.ltb_lt _ _)) by done. destruct (rpo !! _); naive_solver.
  - destruct (rpo !! _); naive_solver.
Qed.

Lemma rank_pos_lt rpo i : i < length rpo → rank_pos rpo i < length rpo.
Proof. unfold rank_pos. destruct (is_forward _); lia. Qed.
Lemma rank_pos_invol rpo i : i < length rpo → rank_pos rpo (rank_pos rpo i) = i.
Proof. unfold rank_pos. destruct (is_forward _); lia. Qed.

Lemma compute_ranks_ok rpo :
  NoDup rpo → (∀ b, b ∈ rpo ↔ reachable b) → ∃ ranks, compute_ranks A mir rpo = Ret ranks ∧ ranks_ok rpo ranks.
Proof.
  intros Hnd Hr. unfold compute_ranks.
  assert (Hlt : ∀ b, b ∈ rpo → b < n).
  { intros b Hb. eapply cfg_reach_lt; [done|by apply Hr|by apply start_lt]. }
  destruct (ofold_total (set_rank A rpo)
    (λ pre ranks, length ranks = n ∧ (∀ e, e ∈ pre → rpo !! e.1 = Some e.2) ∧
       (∀ b r, ranks !! b = Some (Some r) ↔ ∃ i, (i, b) ∈ pre ∧ r = rank_pos rpo i))
    (enumerate rpo) (replicate n None)) as (ranks & Hrk & Hl & _ & Hs).
  - split_and!; [by rewrite length_replicate|set_solver|]. intros b r.
    split; [by intros [? _]%lookup_replicate|set_solver].
  - intros pre [i b] ranks Hin (Hl & Hpre & Hs). unfold set_rank. cbn [fst snd].
    apply elem_of_enumerate in Hin. assert (Hb : b < n) by (eapply Hlt, list_elem_of_lookup_2, Hin).
    rewrite (proj2 (Nat.ltb_lt _ _)) by lia. eexists. split; [done|]. rewrite length_insert. split; [done|].
    assert (Hpre' : ∀ e, e ∈ pre ++ [(i, b)] → rpo !! e.1 = Some e.2).
    { intros e [?| ->%list_elem_of_singleton]%elem_of_app; [by apply Hpre|done]. }
    split; [done|]. intros c r. destruct (decide (c = b)) as [->|Hne].
    + rewrite list_lookup_insert_eq by lia. change (if is_forward (direction A) then i else length rpo - 1 - i) with (rank_pos rpo i).
      split; [intros [= <-]; exists i; set_solver|]. intros (j & Hj & ->). do 2 f_equal.
      apply Hpre' in Hj. simpl in Hj. f_equal. by apply (NoDup_lookup rpo _ _ b).
    + rewrite list_lookup_insert_ne, Hs by done. split; intros (j & Hj & ->); exists j; set_solver.
  - exists ranks. split; [done|].
    assert (Hpos : ∀ b r, ranks !! b = Some (Some r) ↔ ∃ i, rpo !! i = Some b ∧ r = rank_pos rpo i).
    { intros b r. rewrite Hs. by setoid_rewrite elem_of_enumerate. }
    split; [done..| |].
    + intros r b Hr' Hb%block_of_rank_pos; [|done]. apply Hpos. exists (rank_pos rpo r).
      by rewrite rank_pos_invol.
    + intros b r (i & Hi & ->)%Hpos. pose proof (lookup_lt_Some _ _ _ Hi). split; [by apply rank_pos_lt|].
      apply block_of_rank_pos; [by apply rank_pos_lt|]. by rewrite rank_pos_invol.
Qed.

(** ** The invariant *)
Section run.
Context (init : list D) (rpo : list BasicBlock) (ranks : list (option nat)).
Context (Hranks : ranks_ok rpo ranks).
Abbreviation len := (length rpo).
Abbreviation mem s i := (bs_mem dense_ops s i = true).

Definition state_le (E : list D) (t : BasicBlock) (x : D) : Prop := ∃ s, E !! t = Some s ∧ le x s.

Definition absorbed (E : list D) (b : BasicBlock) : Prop :=
  ∀ s ems t x, E !! b = Some s → emissions A mir s b = Ret ems → (t, x) ∈ ems → reachable t → state_le E t x.

(** [skip] is the rank being processed. *)
Record eng_inv (skip : nat → Prop) (e : engine) : Prop := {
  ei_length : length (entry_states e) = n;
  ei_wf : Forall wf (entry_states e);
  ei_init b s : init !! b = Some s → state_le (entry_states e) b s;
  ei_unreached b : ¬ reachable b → entry_states e !! b = init !! b;
  ei_dirty : dense_wf (dirty e);
  ei_domain : domain_size (dirty e) = len;
  ei_curr : curr_rank e < len;
  ei_min r : mem (dirty e) r → curr_rank e ≤ r;
  ei_absorbed r b : r < len → ¬ mem (dirty e) r → ¬ skip r → block_of_rank A rpo r = Ret b →
    absorbed (entry_states e) b;
  ei_states P : inductive_states init P → ∀ b s, entry_states e !! b = Some s → P b s }.

Definition dirty_count (d : DenseBitSet) : nat := length (List.filter (bs_mem dense_ops d) (seq 0 len)).
Definition height_sum (E : list D) : nat := sum_list_with (lat_height L) E.
Definition eng_measure (e : engine) : nat := height_sum (entry_states e) * S len + dirty_count (dirty e).

Lemma dirty_count_le d : dirty_count d ≤ len.
Proof. unfold dirty_count. rewrite <-(length_seq len 0) at 2. apply List.filter_length_le. Qed.

Lemma sum_list_with_insert {X} (f : X → nat) l i a c :
  l !! i = Some a → sum_list_with f (<[i := c]> l) + f a = sum_list_with f l + f c.
Proof.
  revert i. induction l as [|y l IH]; intros [|i] Hi; simplify_eq/=; [lia|]. specialize (IH i Hi). lia.
Qed.

Lemma entry_lookup skip e b : eng_inv skip e → b < n → ∃ s, entry_states e !! b = Some s ∧ wf s.
Proof.
  intros Hi Hb. destruct (lookup_lt_is_Some_2 (entry_states e) b) as [s Hs]; [by rewrite (ei_length _ _ Hi)|].
  exists s. split; [done|]. by eapply Forall_lookup_1; [apply Hi|].
Qed.

Lemma reachable_rank t : reachable t → ∃ r, ranks !! t = Some (Some r) ∧ r < len.
Proof.
  intros Ht. apply (rk_reach _ _ Hranks) in Ht as [i Hi]%list_elem_of_lookup.
  pose proof (lookup_lt_Some _ _ _ Hi) as Hlt. exists (rank_pos rpo i). split; [|by apply rank_pos_lt].
  apply (rk_some _ _ Hranks); [by apply rank_pos_lt|]. apply block_of_rank_pos; [by apply rank_pos_lt|].
  by rewrite rank_pos_invol.
Qed.

Lemma state_le_trans E t x y : le x y → state_le E t y → state_le E t x.
Proof. intros Hxy (s & Hs & Hy). exists s. split; [done|]. by eapply lat_trans. Qed.

(** Joining a state into an entry: the entries only grow. *)
Lemma state_le_insert E t a c b x :
  E !! t = Some a → le a c → state_le E b x → state_le (<[t := c]> E) b x.
Proof.
  intros Ha Hac (s & Hs & Hx). destruct (decide (b = t)) as [->|Hne].
  - simplify_eq. exists c. split; [by apply list_lookup_insert_eq; eapply lookup_lt_Some|]. by eapply lat_trans.
  - exists s. by rewrite list_lookup_insert_ne.
Qed.

(** Entries only grow, and the blocks whose entry changed are dirty. *)
Record grows (e e' : engine (D := D)) : Prop := {
  gr_entry b y : state_le (entry_states e) b y → state_le (entry_states e') b y;
  gr_dirty r : mem (dirty e) r → mem (dirty e') r;
  gr_changed r b : r < len → block_of_rank A rpo r = Ret b →
    entry_states e' !! b ≠ entry_states e !! b → mem (dirty e') r;
  gr_measure : eng_measure e' ≤ eng_measure e }.

Lemma grows_refl e : grows e e.
Proof. by split. Qed.

Lemma grows_trans e1 e2 e3 : grows e1 e2 → grows e2 e3 → grows e1 e3.
Proof.
  intros [H1 H2 H3 H4] [S1 S2 S3 S4]. split; [auto..| |lia]. intros r b Hr Hb Hne.
  destruct (decide (entry_states e2 !! b = entry_states e1 !! b)) as [E|E].
  - apply (S3 r b Hr Hb). congruence.
  - by apply S2, (H3 r b).
Qed.

(** The target changes: it becomes dirty. *)
Lemma join_changed_ok skip e t r x a c d :
  eng_inv skip e → ranks !! t = Some (Some r) → r < len → block_of_rank A rpo r = Ret t →
  entry_states e !! t = Some a → wf c → le a c → le x c → a ≠ c → wf a →
  (∀ P, inductive_states init P → P t c) →
  bs_becomes dense_ops (dirty e) d (λ j, (j =? r) || bs_mem dense_ops (dirty e) j) →
  let e' := mkEngine (<[t := c]> (entry_states e)) d (curr_rank e `min` r) in
  eng_inv skip e' ∧ state_le (entry_states e') t x ∧ grows e e'.
Proof.
  intros Hi Ho Hr Hrb Ha Hwc Hac Hxc Hne Hwa Hsol (Hdwf & Hddom & Hdm).
  assert (Htlt : t < length (entry_states e)) by by eapply lookup_lt_Some.
  assert (Hgrow : ∀ b y, state_le (entry_states e) b y → state_le (<[t:=c]> (entry_states e)) b y).
  { intros b y. by eapply state_le_insert. }
  assert (Hmem : ∀ j, mem d j ↔ j = r ∨ mem (dirty e) j).
  { intros j. by rewrite Hdm, orb_true_iff, Nat.eqb_eq. }
  assert (Hrt : reachable t).
  { apply (rk_reach _ _ Hranks). apply block_of_rank_pos in Hrb; [|done]. by eapply list_elem_of_lookup_2. }
  split; [|split; [by exists c; cbn [entry_states]; rewrite list_lookup_insert_eq|]]; split; cbn [entry_states dirty curr_rank].
  - by rewrite length_insert, (ei_length _ _ Hi).
  - by apply Forall_insert; [apply Hi|].
  - intros b s Hb. by apply Hgrow, (ei_init _ _ Hi).
  - intros b Hb. rewrite list_lookup_insert_ne by by intros ->. by apply (ei_unreached _ _ Hi).
  - done.
  - rewrite <-(ei_domain _ _ Hi). done.
  - lia.
  - intros j [->|Hj]%Hmem; [lia|]. pose proof (ei_min _ _ Hi j Hj). lia.
  - intros q b Hq Hnd Hsk Hqb s ems u y Hs Hems Hin Hu.
    destruct (decide (b = t)) as [->|Hbt].
    { destruct Hnd. apply Hmem. left. pose proof (rk_some _ _ Hranks q t Hq Hqb). congruence. }
    rewrite list_lookup_insert_ne in Hs by done. apply Hgrow.
    eapply (ei_absorbed _ _ Hi q b Hq); [|done..]. intros Hd. apply Hnd, Hmem. by right.
  - intros P HP b s Hs. destruct (decide (b = t)) as [->|Hbt].
    + rewrite list_lookup_insert_eq in Hs by done. simplify_eq. by apply Hsol.
    + rewrite list_lookup_insert_ne in Hs by done. by eapply (ei_states _ _ Hi).
  - done.
  - intros j Hj. apply Hmem. by right.
  - intros q b Hq Hqb Hb. destruct (decide (b = t)) as [->|Hbt].
    + apply Hmem. left. pose proof (rk_some _ _ Hranks q t Hq Hqb). congruence.
    + by rewrite list_lookup_insert_ne in Hb.
  - unfold eng_measure, height_sum. cbn [entry_states dirty].
    pose proof (sum_list_with_insert (lat_height L) _ _ _ c Ha) as Hsum.
    pose proof (lat_height_lt a c Hwa Hwc Hac Hne). pose proof (dirty_count_le d).
    assert (sum_list_with (lat_height L) (<[t:=c]> (entry_states e)) + 1 ≤ sum_list_with (lat_height L) (entry_states e)) by lia.
    nia.
Qed.

(** One call of the closure [prop]. *)
Lemma prop_ok skip e bb t x :
  eng_inv skip e → wf x → reachable bb → flow_edge A mir bb t →
  (∀ P a c, inductive_states init P → reachable t → P t a → wf a → is_lub L a x c → P t c) → ∃ e',
    prop A mir ranks e t x = Ret e' ∧ eng_inv skip e' ∧
    (reachable t → state_le (entry_states e') t x) ∧ grows e e'.
Proof.
  intros Hi Hx Hbb Hflow Hsol. unfold prop.
  assert (Ht : t < n).
  { unfold flow_edge in Hflow. destruct (direction A); [|by eapply cfg_edge_lt].
    unfold cfg_edge, succs, terminator_at, block_at in Hflow.
    destruct (basic_blocks mir !! t) eqn:E; [by eapply lookup_lt_Some|]. simpl in Hflow. set_solver. }
  destruct (lookup_lt_is_Some_2 ranks t) as [o Ho]; [by rewrite (rk_length _ _ Hranks)|].
  rewrite Ho. cbn [unwrap mbind outcome_bind]. destruct o as [r|].
  2: { assert (Hnr : ¬ reachable t).
       { intros (r & Hr & _)%reachable_rank. congruence. }
       unfold flow_edge in Hflow. destruct (direction A).
       - exists e. split_and!; [done..|apply grows_refl].
       - destruct Hnr. by eapply rtc_r. }
  destruct (rk_block _ _ Hranks t r Ho) as [Hr Hrb].
  assert (Hrt : reachable t).
  { apply (rk_reach _ _ Hranks). apply block_of_rank_pos in Hrb; [|done]. by eapply list_elem_of_lookup_2. }
  destruct (entry_lookup _ _ t Hi Ht) as (a & Ha & Hwa).
  destruct (lat_join_ok a x Hwa Hx) as (c & ch & Hj & (Hwc & Hac & Hxc & Hlub) & Hch).
  destruct (bs_insert_ok (O := dense_ops) (dirty e) r) as (d & Hd & Hdb);
    [apply Hi|simpl; by rewrite (ei_domain _ _ Hi)|].
  change (bs_insert dense_ops) with Dense.insert in Hd.
  assert (Hfin : ∃ e', (if ch then Ret (mkEngine (<[t := c]> (entry_states e)) d (curr_rank e `min` r))
      else Ret (mkEngine (<[t := c]> (entry_states e)) (dirty e) (curr_rank e))) = Ret e' ∧ eng_inv skip e' ∧
    (reachable t → state_le (entry_states e') t x) ∧ grows e e').
  { destruct ch.
    - eexists. split; [done|]. edestruct (join_changed_ok skip e t r x a c d) as (? & ? & ?); try done; [naive_solver|].
      intros P HP. apply (Hsol P a c); [done..| |done|by split_and!]. by apply (ei_states _ _ Hi).
    - assert (c = a) as -> by (destruct (decide (c = a)); [done|naive_solver]).
      exists e. split; [by rewrite list_insert_id by done; destruct e|]. split_and!; [done| |apply grows_refl].
      intros _. by exists a. }
  destruct Hfin as (e' & He' & Hst). exists e'. split; [|done]. rewrite <-He'.
  destruct (direction A); cbn [unwrap mbind outcome_bind]; rewrite Ha; cbn [unwrap mbind outcome_bind];
    rewrite Hj; cbn [mbind outcome_bind fst snd]; destruct ch; [|done| |done]; by rewrite Hd.
Qed.

(** All emissions of a block. *)
Lemma props_ok skip bb ems : ∀ e,
  eng_inv skip e → reachable bb →
  (∀ t x, (t, x) ∈ ems → wf x ∧ flow_edge A mir bb t ∧
     (∀ P a c, inductive_states init P → reachable t → P t a → wf a → is_lub L a x c → P t c)) → ∃ e',
    ofold (λ acc em, prop A mir ranks acc em.1 em.2) e ems = Ret e' ∧ eng_inv skip e' ∧ grows e e' ∧
    ∀ t x, (t, x) ∈ ems → reachable t → state_le (entry_states e') t x.
Proof.
  induction ems as [|[t x] ems IH]; intros e Hi Hbb Hems; simpl.
  { exists e. split_and!; [done..|apply grows_refl|set_solver]. }
  destruct (Hems t x ltac:(left)) as (Hwx & Hfl & Hsol).
  destruct (prop_ok skip e bb t x Hi Hwx Hbb Hfl Hsol) as (e1 & -> & Hi1 & Ht & Hg1). cbn [mbind outcome_bind].
  destruct (IH e1 Hi1 Hbb) as (e2 & -> & Hi2 & Hg2 & Hall).
  { intros u y Hin. apply Hems. by right. }
  exists e2. split_and!; [done..|by eapply grows_trans|].
  intros u y [[= -> ->]|Hin]%elem_of_cons Hu; [by apply (gr_entry _ _ Hg2), Ht|by apply Hall].
Qed.

(** ** One iteration *)
Definition eng_head (e : engine) : Prop := eng_inv (λ _, False) e ∧ mem (dirty e) (curr_rank e).

(** Taking the current block off the dirty set. *)
Lemma eng_remove_ok e : eng_head e → ∃ d,
  Dense.remove (dirty e) (curr_rank e) = Ret (d, true) ∧
  eng_inv (λ r, r = curr_rank e) (mkEngine (entry_states e) d (curr_rank e)) ∧
  ¬ mem d (curr_rank e) ∧ dirty_count d < dirty_count (dirty e).
Proof.
  intros [Hi Hc].
  destruct (bs_remove_ok (O := dense_ops) (dirty e) (curr_rank e)) as (d & Hd & Hdw & Hdd & Hdm);
    [apply Hi|simpl; rewrite (ei_domain _ _ Hi); apply Hi|].
  change (bs_remove dense_ops) with Dense.remove in Hd. rewrite Hc in Hd. exists d. split; [done|].
  assert (Hmem : ∀ j, mem d j ↔ j ≠ curr_rank e ∧ mem (dirty e) j).
  { intros j. by rewrite Hdm, andb_true_iff, negb_true_iff, Nat.eqb_neq. }
  split_and!.
  - destruct Hi. split; cbn [entry_states dirty curr_rank]; try done; [by rewrite <-ei_domain0| |].
    + intros r [_ Hr]%Hmem. auto.
    + intros r b Hr Hnd Hne. apply ei_absorbed0; [done| |by intros []]. intros Hm. by apply Hnd, Hmem.
  - intros [? _]%Hmem. done.
  - apply (filter_length_lt _ _ _ (curr_rank e)); [by intros y _ [_ ?]%Hmem| |done|].
    + apply elem_of_seq. pose proof (ei_curr _ _ Hi). lia.
    + apply not_true_is_false. by intros [? _]%Hmem.
Qed.

(** After the emissions of the current block, nothing is skipped. *)
Lemma eng_unskip e0 e1 c bb s ems :
  block_of_rank A rpo c = Ret bb → c < len → entry_states e0 !! bb = Some s →
  emissions A mir s bb = Ret ems → grows e0 e1 → eng_inv (λ r, r = c) e1 →
  (∀ t x, (t, x) ∈ ems → reachable t → state_le (entry_states e1) t x) → eng_inv (λ _, False) e1.
Proof.
  intros Hbb Hc Hs Hems Hg Hi Hall. destruct Hi. split; try done.
  intros r b Hr Hnd _ Hb. destruct (decide (r = c)) as [->|Hne]; [|by eapply ei_absorbed0].
  simplify_ret. intros s' ems' t x Hs' Hems' Hin Ht.
  assert (entry_states e1 !! bb = entry_states e0 !! bb) as E.
  { destruct (decide (entry_states e1 !! bb = entry_states e0 !! bb)) as [|Hne]; [done|].
    destruct Hnd. by eapply (gr_changed _ _ Hg). }
  rewrite E, Hs in Hs'. simplify_eq. simplify_ret. by eapply Hall.
Qed.

Definition eng_result (E : list D) : Prop :=
  solution init E ∧ (∀ b, ¬ reachable b → E !! b = init !! b) ∧
  (∀ P, inductive_states init P → ∀ b s, E !! b = Some s → P b s).

Lemma eng_done e : eng_inv (λ _, False) e → (∀ r, ¬ mem (dirty e) r) → eng_result (entry_states e).
Proof.
  intros Hi Hnone. split_and!; [|apply Hi..]. split; [apply Hi..|].
  intros b s ems t x Hb Hs Hems Hin Ht. destruct (reachable_rank b Hb) as (r & Hr & Hlt).
  eapply (ei_absorbed _ _ Hi r b); [done|apply Hnone|by intros []|by apply (rk_block _ _ Hranks)|done..].
Qed.

Lemma engine_step_ok e : eng_head e →
  (∃ e', engine_step A mir rpo ranks e = Ret (inl e') ∧ eng_head e' ∧ eng_measure e' < eng_measure e) ∨
  (∃ E, engine_step A mir rpo ranks e = Ret (inr E) ∧ eng_result E).
Proof.
  intros Hh. destruct (eng_remove_ok e Hh) as (d & Hd & Hi0 & Hnd & Hcount). destruct Hh as [Hi Hm].
  pose proof (ei_curr _ _ Hi) as Hc. unfold engine_step.
  destruct (rpo !! rank_pos rpo (curr_rank e)) as [bb|] eqn:Hpos.
  2: { apply lookup_ge_None in Hpos. pose proof (rank_pos_lt rpo _ Hc). lia. }
  assert (Hrb : reachable bb) by (apply (rk_reach _ _ Hranks); by eapply list_elem_of_lookup_2).
  apply block_of_rank_pos in Hpos; [|done]. rewrite Hpos. cbn [mbind outcome_bind].
  rewrite (dense_contains_ok (dirty e) (curr_rank e)); [|apply Hi|by rewrite (ei_domain _ _ Hi)].
  simpl in Hm. rewrite Hm, Hd. cbn [mbind outcome_bind negb fst].
  assert (Hbb : bb < n) by (eapply cfg_reach_lt; [done..|by apply start_lt]).
  destruct (entry_lookup _ _ bb Hi Hbb) as (s & Hs & Hws). rewrite Hs. cbn [unwrap mbind outcome_bind].
  destruct (block_trace A mir Hok bb s Hbb Hws) as (data & ems & -> & Hems & Htr & Hall). cbn [mbind outcome_bind].
  rewrite Htr.
  destruct (props_ok _ bb ems _ Hi0 Hrb) as (e1 & He1 & Hi1 & Hg & Habs).
  { intros t x Hin. destruct (Hall t x Hin) as [Hx Hfl]. split_and!; [done..|].
    intros P a c HP Ht Ha Hwa Hlub. eapply (is_join _ _ HP bb s); [done| |done..]. by apply (ei_states _ _ Hi). }
  rewrite He1. cbn [mbind outcome_bind].
  pose proof (eng_unskip (mkEngine (entry_states e) d (curr_rank e)) e1 _ _ _ _ Hpos Hc Hs Hems Hg Hi1 Habs) as Hi2.
  destruct (dense_first_set_ok (dirty e1) (curr_rank e1)) as (o & -> & Ho);
    [apply Hi2|rewrite (ei_domain _ _ Hi2); apply Hi2|]. cbn [mbind outcome_bind].
  assert (Hmeas : eng_measure e1 < eng_measure e).
  { pose proof (gr_measure _ _ Hg) as Hgm. unfold eng_measure in *. simpl in *. lia. }
  destruct o as [r|].
  - left. destruct Ho as (Hr & Hrm & Hmin). eexists. split; [done|]. split; [|done]. split; [|done].
    destruct Hi2. split; cbn [entry_states dirty curr_rank]; try done.
    + rewrite <-ei_domain0. by apply ei_dirty0.
    + intros j Hj. destruct (decide (j < r)); [|lia]. simpl in Hj. rewrite Hmin in Hj; [done| |done]. by apply ei_min0.
  - right. eexists. split; [done|]. apply eng_done; [done|]. intros r Hr.
    pose proof (ei_min _ _ Hi2 r Hr). simpl in Hr. by rewrite Ho in Hr.
Qed.
End run.

(** ** The whole run *)
Lemma initial_states_ok : ∃ init start,
  initial_states A mir = Ret init ∧ initialize_start_block A mir (bottom_value A mir) = Ret start ∧
  length init = n ∧ Forall wf init ∧ wf start ∧
  ∀ b, b < n → init !! b = Some (if decide (b = START_BLOCK) then start else bottom_value A mir).
Proof.
  pose proof (start_lt _ Hok) as H0. unfold initial_states.
  rewrite lookup_replicate_2 by done. cbn [unwrap mbind outcome_bind].
  destruct (al_init (A := A) (mir := mir) (bottom_value A mir) al_bottom_wf) as (start & Hs & Hw). rewrite Hs.
  cbn [mbind outcome_bind].
  exists (<[START_BLOCK := start]> (replicate n (bottom_value A mir))), start. split; [|split; [done|]].
  - destruct (direction A) eqn:Hdir; simpl; [|done]. rewrite (al_init_back Hdir) in Hs. injection Hs as <-.
    by rewrite bool_decide_true.
  - rewrite length_insert, length_replicate. split_and!; [done| |done|].
    + apply Forall_insert; [|done]. apply Forall_replicate, al_bottom_wf.
    + intros b Hb. destruct (decide (b = START_BLOCK)) as [->|Hne].
      * by rewrite list_lookup_insert_eq by by rewrite length_replicate.
      * by rewrite list_lookup_insert_ne, lookup_replicate_2.
Qed.

(** Every iteration lowers [eng_measure]. *)
Definition engine_fuel : nat := S (n * lat_height L (bottom_value A mir) * S n + n).

Lemma eng_measure_bound rpo e :
  Forall wf (entry_states e) → length (entry_states e) = n → length rpo ≤ n → eng_measure rpo e < engine_fuel.
Proof.
  intros Hwf Hl Hr. unfold eng_measure, engine_fuel. pose proof (dirty_count_le rpo (dirty e)) as Hd.
  assert (Hs : height_sum (entry_states e) ≤ n * lat_height L (bottom_value A mir)).
  { rewrite <-Hl. unfold height_sum. clear Hl. induction Hwf as [|s l Hs _ IH]; simpl; [done|].
    pose proof (lat_height_le L (bottom_value A mir) s al_bottom_wf Hs (al_bottom_le s Hs)). lia. }
  nia.
Qed.

Lemma rpo_length_le rpo : NoDup rpo → (∀ b, b ∈ rpo ↔ reachable b) → length rpo ≤ n.
Proof.
  intros Hnd Hr. rewrite <-(length_seq n 0). apply NoDup_length_le; [done|]. intros b Hb%Hr. apply elem_of_seq.
  assert (b < n); [|lia]. eapply cfg_reach_lt; [done..|by apply start_lt].
Qed.

Lemma iterate_ok : ∃ init E,
  initial_states A mir = Ret init ∧ length init = n ∧ Forall wf init ∧
  iterate_to_fixpoint A mir engine_fuel = Ret E ∧ eng_result init E.
Proof.
  destruct initial_states_ok as (init & start & Hin & _ & Hl & Hwf & _). exists init.
  unfold iterate_to_fixpoint. rewrite Hin. cbn [mbind outcome_bind].
  destruct (reverse_postorder_ok mir Hok Hsmall) as (rpo & -> & Hnd & Hhd & Hr & _). cbn [mbind outcome_bind].
  destruct (compute_ranks_ok rpo Hnd Hr) as (ranks & Hrk & Hranks).
  pose proof (rpo_length_le rpo Hnd Hr) as Hle.
  assert (Hpos : 0 < length rpo) by (destruct rpo; [done|simpl; lia]).
  destruct (dense_new_filled_ok (length rpo)) as (d & Hd & Hdw & Hdd & Hdm); [eapply Z.le_lt_trans; [|exact Hsmall]; lia|].
  assert (Hhead : eng_head init rpo (mkEngine init d 0)).
  { split; [|simpl; rewrite Hdm; by apply Nat.ltb_lt]. split; cbn [entry_states dirty curr_rank]; try done.
    - intros b s Hs. exists s. split; [done|]. apply lat_refl. by eapply Forall_lookup_1.
    - intros r _. lia.
    - intros r b Hlt Hnm. destruct Hnm. simpl. rewrite Hdm. by apply Nat.ltb_lt.
    - intros P HP b s Hs. by apply (is_init _ _ HP). }
  destruct (loop_total (engine_step A mir rpo ranks) (eng_head init rpo) (eng_measure rpo) (eng_result init))
    with (fuel := engine_fuel) (s := mkEngine init d 0) as (E & HE & HR); [|done| |].
  - intros e He. destruct (engine_step_ok init rpo ranks Hranks e He) as [(e' & ? & ? & ?)|(E & ? & ?)]; eauto.
  - by apply eng_measure_bound.
  - exists E. split_and!; [done..| |done]. destruct rpo as [|b rpo]; [done|]. rewrite Hrk. cbn [mbind outcome_bind].
    by rewrite Hd.
Qed.

(** Being below a solution is inductive for monotone transfer functions. *)
Lemma below_solution_inductive init X `{!AnalysisMono A mir} :
  solution init X → inductive_states init (λ b s, state_le X b s).
Proof.
  intros HX. split; [apply (sol_init _ _ HX)|].
  intros b s ems t x a c Hb (s' & Hs' & Hle) Hws Hems Hin Ht (y & Hy & Hay) Hwa (_ & _ & _ & Hlub).
  assert (Hbb : b < n) by (eapply cfg_reach_lt; [done..|by apply start_lt]).
  assert (Hws' : wf s') by (eapply Forall_lookup_1; [apply (sol_wf _ _ HX)|done]).
  destruct (block_trace A mir Hok b s' Hbb Hws') as (_ & ems' & _ & Hems' & _ & _).
  pose proof (emissions_mono A mir Hok b s s' ems ems' Hbb Hws Hws' Hle Hems Hems') as HF.
  apply list_elem_of_lookup in Hin as [i Hi].
  destruct (Forall2_lookup_l _ _ _ _ _ HF Hi) as ([t' x'] & Hi' & Heq & Hxx). simpl in *. subst t'.
  destruct (sol_absorbs _ _ HX b s' ems' t x' Hb Hs' Hems') as (y' & Hy' & Hle'); [by eapply list_elem_of_lookup_2|done|].
  simplify_eq. exists y. split; [done|]. apply Hlub; [|done|by eapply lat_trans].
  eapply Forall_lookup_1; [apply (sol_wf _ _ HX)|done].
Qed.
End engine.
