(* ===== verification/Visitor.v ===== *)
(** * The MIR visitor

    [rustc_middle/src/mir/visit.rs]: place contexts and the default traversal
    ([super_*]) of the immutable visitor, over the methods that the modelled
    visitors override.  Types, regions, spans, constants and debug information
    hold no local a modelled visitor acts on (debug information is visited with
    a non-use context) and are not traversed. *)
From S2P Require Import Prelude Mir Dataflow.

(** ** Place contexts *)
Inductive NonMutatingUseContext :=
  | NmInspect | NmCopy | NmMove | NmSharedBorrow | NmFakeBorrow | NmRawBorrow | NmPlaceMention | NmProjection.
Inductive MutatingUseContext :=
  | MuStore | MuSetDiscriminant | MuAsmOutput | MuCall | MuYield | MuDrop | MuBorrow | MuRawBorrow | MuProjection.
Inductive NonUseContext :=
  | NuStorageLive | NuStorageDead | NuAscribeUserTy | NuVarDebugInfo | NuBackwardIncompatibleDropHint.
Inductive PlaceContext :=
  | NonMutatingUse (c : NonMutatingUseContext)
  | MutatingUse (c : MutatingUseContext)
  | NonUse (c : NonUseContext).

Definition is_use (c : PlaceContext) : bool := match c with NonUse _ => false | _ => true end.
Definition is_mutating_use (c : PlaceContext) : bool := match c with MutatingUse _ => true | _ => false end.

(** ** The traversal

    [self] is the state [St] threaded through the methods. *)
Section projection.
Context {St : Type} (visit_local : St → Local → PlaceContext → Location → outcome St).

Definition super_projection_elem (s : St) (elem : PlaceElem) (context : PlaceContext) (location : Location)
    : outcome St :=
  match elem with
  | Index local =>
      visit_local s local (if is_use context then NonMutatingUse NmCopy else context) location
  | _ => Ret s
  end.

(** [super_projection]: the elements from the last to the first. *)
Definition visit_projection (s : St) (place : Place) (context : PlaceContext) (location : Location) : outcome St :=
  ofold (λ s elem, super_projection_elem s elem context location) s (reverse (pl_projection place)).

Definition super_place (s : St) (place : Place) (context : PlaceContext) (location : Location) : outcome St :=
  let context :=
    if negb (no_projection place) && is_use context then
      if is_mutating_use context then MutatingUse MuProjection else NonMutatingUse NmProjection
    else context in
  s ← visit_local s (pl_local place) context location;
  visit_projection s place context location.
End projection.

(** The methods a visitor may override. *)
Record Visitor (St : Type) := mkVisitor {
  visit_place : St → Place → PlaceContext → Location → outcome St;
  visit_local : St → Local → PlaceContext → Location → outcome St }.
Arguments visit_place {St}. Arguments visit_local {St}.

Section visitor.
Context {St : Type} (V : Visitor St).
Implicit Types (s : St) (location : Location).

Definition visit_operand s (operand : Operand) location : outcome St :=
  match operand with
  | Copy place => visit_place V s place (NonMutatingUse NmCopy) location
  | Move place => visit_place V s place (NonMutatingUse NmMove) location
  | Constant _ | RuntimeChecks => Ret s
  end.

Definition visit_operands s (operands : list Operand) location : outcome St :=
  ofold (λ s op, visit_operand s op location) s operands.

Definition super_rvalue s (rvalue : Rvalue) location : outcome St :=
  match rvalue with
  | Use operand => visit_operand s operand location
  | Repeat value _ => visit_operand s value location
  | ThreadLocalRef _ => Ret s
  | RvRef bk path =>
      let ctx := match bk with
                 | Shared => NonMutatingUse NmSharedBorrow
                 | FakeBorrow => NonMutatingUse NmFakeBorrow
                 | MutBorrow => MutatingUse MuBorrow
                 end in
      visit_place V s path ctx location
  | Reborrow _ mutability place =>
      visit_place V s place
        (match mutability with MutNot => NonMutatingUse NmSharedBorrow | MutMut => MutatingUse MuBorrow end) location
  | CopyForDeref place => visit_place V s place (NonMutatingUse NmInspect) location
  | RvRawPtr m path =>
      let ctx := match m with
                 | RpMut => MutatingUse MuRawBorrow
                 | RpConst => NonMutatingUse NmRawBorrow
                 | RpFakeForPtrMetadata => NonMutatingUse NmInspect
                 end in
      visit_place V s path ctx location
  | Cast _ operand _ => visit_operand s operand location
  | BinaryOp _ lhs rhs => s ← visit_operand s lhs location; visit_operand s rhs location
  | UnaryOp _ op => visit_operand s op location
  | Discriminant place => visit_place V s place (NonMutatingUse NmInspect) location
  | Aggregate _ operands => visit_operands s operands location
  | WrapUnsafeBinder op _ => visit_operand s op location
  end.

(** [super_assign] *)
Definition super_assign s (place : Place) (rvalue : Rvalue) location : outcome St :=
  s ← visit_place V s place (MutatingUse MuStore) location;
  super_rvalue s rvalue location.

Definition super_statement s (statement : StatementKind) location : outcome St :=
  match statement with
  | Assign place rvalue => super_assign s place rvalue location
  | FakeRead place => visit_place V s place (NonMutatingUse NmInspect) location
  | SetDiscriminant place _ => visit_place V s place (MutatingUse MuSetDiscriminant) location
  | StorageLive local => visit_local V s local (NonUse NuStorageLive) location
  | StorageDead local => visit_local V s local (NonUse NuStorageDead) location
  | PlaceMention place => visit_place V s place (NonMutatingUse NmPlaceMention) location
  | AscribeUserType place => visit_place V s place (NonUse NuAscribeUserTy) location
  | Coverage => Ret s
  | Intrinsic (Assume op) => visit_operand s op location
  | Intrinsic (CopyNonOverlapping src dst count) =>
      s ← visit_operand s src location;
      s ← visit_operand s dst location;
      visit_operand s count location
  | BackwardIncompatibleDropHint place => visit_place V s place (NonUse NuBackwardIncompatibleDropHint) location
  | ConstEvalCounter | Nop => Ret s
  end.

Definition super_assert_message s (msg : AssertKind) location : outcome St :=
  match msg with
  | BoundsCheck len index => s ← visit_operand s len location; visit_operand s index location
  | Overflow _ l r => s ← visit_operand s l location; visit_operand s r location
  | OverflowNeg op | DivisionByZero op | RemainderByZero op | InvalidEnumConstruction op =>
      visit_operand s op location
  | ResumedAfterReturn | ResumedAfterPanic | NullPointerDereference | NullReferenceConstructed
  | ResumedAfterDrop => Ret s
  | MisalignedPointerDereference required found =>
      s ← visit_operand s required location; visit_operand s found location
  end.

(** One operand of an inline-asm block. *)
Definition visit_asm_operand s (op : InlineAsmOperand) location : outcome St :=
  match op with
  | AsmIn value => visit_operand s value location
  | AsmOut (Some place) => visit_place V s place (MutatingUse MuAsmOutput) location
  | AsmInOut in_value out_place =>
      s ← visit_operand s in_value location;
      match out_place with
      | Some out_place => visit_place V s out_place (MutatingUse MuAsmOutput) location
      | None => Ret s
      end
  | AsmConst _ | AsmSymFn _ | AsmOut None | AsmSymStatic _ | AsmLabel _ => Ret s
  end.

Definition super_terminator s (k : TerminatorKind) location : outcome St :=
  match k with
  | Goto _ | UnwindResume | UnwindTerminate | CoroutineDrop | Unreachable | FalseEdge _ _ | FalseUnwind _ _ =>
      Ret s
  | Return => visit_local V s RETURN_PLACE (NonMutatingUse NmMove) location
  | SwitchInt discr _ => visit_operand s discr location
  | Drop place _ _ _ => visit_place V s place (MutatingUse MuDrop) location
  | Call func args destination _ _ =>
      s ← visit_operand s func location;
      s ← visit_operands s args location;
      visit_place V s destination (MutatingUse MuCall) location
  | TailCall func args => s ← visit_operand s func location; visit_operands s args location
  | Assert cond _ msg _ _ => s ← visit_operand s cond location; super_assert_message s msg location
  | Yield value _ resume_arg _ =>
      s ← visit_operand s value location;
      visit_place V s resume_arg (MutatingUse MuYield) location
  | InlineAsm operands _ _ => ofold (λ s op, visit_asm_operand s op location) s operands
  end.
End visitor.
