(* ===== verification/Liveness.v ===== *)
(** * Live locals

    [rustc_mir_dataflow/src/impls/liveness.rs]: how a place context reads or
    writes a local ([DefUse]), the transfer function as a visitor, and the
    backward analyses [MaybeLiveLocals] and [MaybeTransitiveLiveLocals]; the
    transfer functions as sets of reads and writes on the syntax
    ([live_effect]). *)
From S2P Require Import Prelude Mir BitWords BitSet BitSetFacts Lattice Dataflow Visitor.

Inductive DefUse := DuDef | DuUse | DuPartialWrite | DuNonUse.

(** [Place::from(local)] *)
Definition place_of_local (local : Local) : Place := mkPlace local [].

(** A projection context is [unreachable!]. *)
Definition for_place (place : Place) (context : PlaceContext) : outcome DefUse :=
  match context with
  | NonUse _ => Ret DuNonUse
  | MutatingUse (MuCall | MuYield | MuAsmOutput | MuStore) =>
      if is_indirect place then Ret DuUse
      else if no_projection place then Ret DuDef
      else Ret DuPartialWrite
  | MutatingUse MuSetDiscriminant => if is_indirect place then Ret DuUse else Ret DuPartialWrite
  | MutatingUse (MuRawBorrow | MuBorrow | MuDrop)
  | NonMutatingUse (NmRawBorrow | NmCopy | NmInspect | NmMove | NmPlaceMention | NmFakeBorrow | NmSharedBorrow) =>
      Ret DuUse
  | MutatingUse MuProjection | NonMutatingUse NmProjection => Panic
  end.

Section transfer.
Context {T : Type} `{GenKill T}.

Definition defuse_apply (state : T) (place : Place) (context : PlaceContext) : outcome T :=
  du ← for_place place context;
  match du with
  | DuDef => kill state (pl_local place)
  | DuUse => gen_ state (pl_local place)
  | DuPartialWrite | DuNonUse => Ret state
  end.

Definition liveness_visit_local (state : T) (local : Local) (context : PlaceContext) (_ : Location) : outcome T :=
  defuse_apply state (place_of_local local) context.

Definition liveness_visit_place (state : T) (place : Place) (context : PlaceContext) (location : Location)
    : outcome T :=
  match context with
  | MutatingUse MuYield => Ret state
  | _ =>
      du ← for_place place context;
      state ← match du with
              | DuDef =>
                  match context with
                  | MutatingUse (MuCall | MuAsmOutput) => Ret state
                  | _ => kill state (pl_local place)
                  end
              | DuUse => gen_ state (pl_local place)
              | DuPartialWrite | DuNonUse => Ret state
              end;
      visit_projection liveness_visit_local state place context location
  end.

(** [LivenessTransferFunction] *)
Definition liveness_visitor : Visitor T := mkVisitor _ liveness_visit_place liveness_visit_local.

(** [YieldResumeEffect] *)
Definition yield_resume_visit_place (state : T) (place : Place) (context : PlaceContext) (location : Location)
    : outcome T :=
  state ← defuse_apply state place context;
  visit_projection liveness_visit_local state place context location.
End transfer.

(** ** [MaybeLiveLocals] *)
Module Live.
Definition apply_primary_statement_effect (state : DenseBitSet) (st : StatementKind) (location : Location)
    : outcome DenseBitSet :=
  super_statement liveness_visitor state st location.

Definition apply_primary_terminator_effect (state : DenseBitSet) (k : TerminatorKind) (location : Location)
    : outcome DenseBitSet :=
  super_terminator liveness_visitor state k location.

Definition kill_return_place (state : DenseBitSet) (place : Place) : outcome DenseBitSet :=
  match as_local place with
  | Some local => kill state local
  | None => Ret state
  end.

Definition apply_call_return_effect (state : DenseBitSet) (_ : BasicBlock) (rp : CallReturnPlaces)
    : outcome DenseBitSet :=
  match rp with
  | CrYield resume_place =>
      yield_resume_visit_place state resume_place (MutatingUse MuYield) (mkLocation 0 0)
  | _ => ofold kill_return_place state (return_places rp)
  end.
End Live.

(** Locals that are live until a use is seen: none. *)
Definition maybe_live_locals : Analysis DenseBitSet := {|
  an_lattice mir := bits_lattice dense_ops (length (local_decls mir));
  direction := Backward;
  SwitchIntData := Empty_set;
  bottom_value mir := Dense.new_empty (length (local_decls mir));
  initialize_start_block _ state := Ret state;
  apply_early_statement_effect state _ _ := Ret state;
  apply_primary_statement_effect := Live.apply_primary_statement_effect;
  apply_early_terminator_effect state _ _ := Ret state;
  get_terminator_edges _ k _ := edges k;
  apply_primary_terminator_effect := Live.apply_primary_terminator_effect;
  apply_call_return_effect := Live.apply_call_return_effect;
  get_switch_int_data _ _ _ := None;
  apply_switch_int_edge_effect state data _ := Ret (state, data) |}.

(** ** [MaybeTransitiveLiveLocals] *)
Module TransLive.
Section trans.
Context (always_live debuginfo_locals : DenseBitSet).

(** [as_debuginfo().is_some()] *)
Definition has_debuginfo (st : StatementKind) : bool :=
  match st with
  | Assign place (RvRef _ _) => match as_local place with Some _ => true | None => false end
  | _ => false
  end.

(** The place a statement stores to, when the store may be dropped. *)
Definition removable_destination (st : StatementKind) : outcome (option Place) :=
  match st with
  | Assign place rvalue =>
      if is_safe_to_remove rvalue then
        d ← Dense.contains debuginfo_locals (pl_local place);
        Ret (if negb d || (no_projection place && has_debuginfo st) then Some place else None)
      else Ret None
  | SetDiscriminant place _ =>
      d ← Dense.contains debuginfo_locals (pl_local place);
      Ret (if negb d then Some place else None)
  | _ => Ret None
  end.

Definition can_be_removed_if_dead (st : StatementKind) : outcome (option Place) :=
  destination ← removable_destination st;
  match destination with
  | Some destination =>
      if is_indirect destination then Ret None
      else
        a ← Dense.contains always_live (pl_local destination);
        Ret (if negb a then Some destination else None)
  | None => Ret None
  end.

Definition apply_primary_statement_effect (state : DenseBitSet) (st : StatementKind) (location : Location)
    : outcome DenseBitSet :=
  r ← can_be_removed_if_dead st;
  match r with
  | Some destination =>
      live ← Dense.contains state (pl_local destination);
      if negb live then Ret state else Live.apply_primary_statement_effect state st location
  | None => Live.apply_primary_statement_effect state st location
  end.

Definition maybe_transitive_live_locals : Analysis DenseBitSet := {|
  an_lattice := an_lattice maybe_live_locals;
  direction := Backward;
  SwitchIntData := Empty_set;
  bottom_value := bottom_value maybe_live_locals;
  initialize_start_block := initialize_start_block maybe_live_locals;
  apply_early_statement_effect state _ _ := Ret state;
  Dataflow.apply_primary_statement_effect := apply_primary_statement_effect;
  apply_early_terminator_effect state _ _ := Ret state;
  get_terminator_edges _ k _ := edges k;
  apply_primary_terminator_effect := Live.apply_primary_terminator_effect;
  apply_call_return_effect := Live.apply_call_return_effect;
  get_switch_int_data _ _ _ := None;
  apply_switch_int_edge_effect state data _ := Ret (state, data) |}.
End trans.
End TransLive.

(** ** The transfer function reads and writes what it should

    What each statement, terminator and edge reads and overwrites, defined on
    the syntax, and the proof that the visitor-based transfer function of
    [MaybeLiveLocals] adds exactly the reads and removes exactly the writes. *)
(** ** Reads and writes, on the syntax *)
Definition elem_index (e : PlaceElem) : option Local := match e with Index v => Some v | _ => None end.
Definition index_locals (p : Place) : list Local := omap elem_index (pl_projection p).

(** Reading a place reads its base and the indices; writing to it reads the
    indices, and the base when it goes through a pointer. *)
Definition place_reads (p : Place) : list Local := pl_local p :: index_locals p.
Definition store_reads (p : Place) : list Local :=
  (if is_indirect p then [pl_local p] else []) ++ index_locals p.

Definition operand_reads (op : Operand) : list Local :=
  match op with Copy p | Move p => place_reads p | Constant _ | RuntimeChecks => [] end.

Definition rvalue_reads (rv : Rvalue) : list Local :=
  match rv with
  | Use op | Repeat op _ | Cast _ op _ | UnaryOp _ op | WrapUnsafeBinder op _ => operand_reads op
  | RvRef _ p | RvRawPtr _ p | Discriminant p | CopyForDeref p | Reborrow _ _ p => place_reads p
  | BinaryOp _ l r => operand_reads l ++ operand_reads r
  | Aggregate _ ops => concat (operand_reads <$> ops)
  | ThreadLocalRef _ => []
  end.

Definition stmt_reads (st : StatementKind) : list Local :=
  match st with
  | Assign p rv => store_reads p ++ rvalue_reads rv
  | FakeRead p | PlaceMention p => place_reads p
  | SetDiscriminant p _ => store_reads p
  | Intrinsic (Assume op) => operand_reads op
  | Intrinsic (CopyNonOverlapping src dst count) => operand_reads src ++ operand_reads dst ++ operand_reads count
  | _ => []
  end.

(** The local a statement overwrites. *)
Definition stmt_def (st : StatementKind) : option Local :=
  match st with Assign p _ => as_local p | _ => None end.

Definition msg_reads (m : AssertKind) : list Local :=
  match m with
  | BoundsCheck a b | Overflow _ a b | MisalignedPointerDereference a b => operand_reads a ++ operand_reads b
  | OverflowNeg a | DivisionByZero a | RemainderByZero a | InvalidEnumConstruction a => operand_reads a
  | _ => []
  end.

Definition asm_reads (op : InlineAsmOperand) : list Local :=
  match op with
  | AsmIn value => operand_reads value
  | AsmOut (Some p) => store_reads p
  | AsmInOut value (Some p) => operand_reads value ++ store_reads p
  | AsmInOut value None => operand_reads value
  | _ => []
  end.

Definition term_reads (k : TerminatorKind) : list Local :=
  match k with
  | Return => [RETURN_PLACE]
  | SwitchInt discr _ => operand_reads discr
  | Drop p _ _ _ => place_reads p
  | Call func args dest _ _ => operand_reads func ++ concat (operand_reads <$> args) ++ store_reads dest
  | TailCall func args => operand_reads func ++ concat (operand_reads <$> args)
  | Assert cond _ msg _ _ => operand_reads cond ++ msg_reads msg
  | Yield value _ _ _ => operand_reads value
  | InlineAsm ops _ _ => concat (asm_reads <$> ops)
  | _ => []
  end.

(** What is written when control passes from a terminator to the block [c]. *)
Definition edge_return (k : TerminatorKind) (c : BasicBlock) : option CallReturnPlaces :=
  match k with
  | Call _ _ dest (Some t) _ => if t =? c then Some (CrCall dest) else None
  | InlineAsm ops ts _ => if bool_decide (c ∈ ts) then Some (CrInlineAsm ops) else None
  | Yield _ r arg d => if (r =? c) || bool_decide (d = Some c) then Some (CrYield arg) else None
  | _ => None
  end.
Definition edge_defs (k : TerminatorKind) (c : BasicBlock) : list Local :=
  match edge_return k c with Some rp => omap as_local (return_places rp) | None => [] end.
(** The place a coroutine resumes with is only evaluated then. *)
Definition edge_reads (k : TerminatorKind) (c : BasicBlock) : list Local :=
  match edge_return k c with Some (CrYield arg) => store_reads arg | _ => [] end.

(** Every local that the analysis touches is declared. *)
Definition locals_ok (mir : Body) : bool :=
  let ok l := l <? length (local_decls mir) in
  forallb (λ d,
    forallb (λ st, forallb ok (stmt_reads st) && forallb ok (option_list (stmt_def st))) (statements d) &&
    match terminator_opt d with
    | Some k =>
        forallb ok (term_reads k) &&
        forallb (λ c, forallb ok (edge_defs k c) && forallb ok (edge_reads k c)) (successors k)
    | None => true
    end) (basic_blocks mir).

(** ** Effects on the set *)
#[local] Arguments liveness_visit_place : simpl never.
#[local] Arguments liveness_visit_local : simpl never.
#[local] Arguments visit_operand : simpl never.
#[local] Arguments visit_operands : simpl never.
#[local] Arguments super_assert_message : simpl never.
#[local] Arguments super_rvalue : simpl never.
Section effects.
Context (n : nat).
Abbreviation mem s i := (bs_mem dense_ops s i = true).
Definition live_wf (s : DenseBitSet) : Prop := dense_wf s ∧ domain_size s = n.
Definition in_range (ls : list Local) : Prop := ∀ l, l ∈ ls → l < n.

(** [f] removes [kills], then adds [reads]. *)
Definition live_effect (f : DenseBitSet → outcome DenseBitSet) (reads kills : list Local) : Prop :=
  in_range reads → in_range kills → ∀ s, live_wf s → ∃ s', f s = Ret s' ∧ live_wf s' ∧
    ∀ l, mem s' l ↔ l ∈ reads ∨ mem s l ∧ l ∉ kills.

Lemma in_range_app l1 l2 : in_range (l1 ++ l2) ↔ in_range l1 ∧ in_range l2.
Proof. unfold in_range. set_solver. Qed.

Lemma live_effect_ret : live_effect Ret [] [].
Proof. intros _ _ s Hs. exists s. split_and!; [done..|]. intros l. set_solver. Qed.

Lemma live_effect_gen l : live_effect (λ s, gen_ s l) [l] [].
Proof.
  intros Hr _ s [Hw Hd]. cbn [gen_ dense_gen_kill].
  destruct (bs_insert_ok (O := dense_ops) s l) as (s' & Hs' & Hw' & Hd' & Hm); [done|simpl; rewrite Hd; by apply Hr; left|].
  change (bs_insert dense_ops) with Dense.insert in Hs'. rewrite Hs'. exists s'. split; [done|].
  split; [by split; [|simpl in Hd'; congruence]|]. intros j. rewrite Hm, orb_true_iff, Nat.eqb_eq.
  rewrite list_elem_of_singleton. set_solver.
Qed.

Lemma live_effect_kill l : live_effect (λ s, kill s l) [] [l].
Proof.
  intros _ Hr s [Hw Hd]. cbn [kill dense_gen_kill].
  destruct (bs_remove_ok (O := dense_ops) s l) as (s' & Hs' & Hw' & Hd' & Hm); [done|simpl; rewrite Hd; by apply Hr; left|].
  change (bs_remove dense_ops) with Dense.remove in Hs'. rewrite Hs'. exists s'. split; [done|].
  split; [by split; [|simpl in Hd'; congruence]|]. intros j. rewrite Hm, andb_true_iff, negb_true_iff, Nat.eqb_neq.
  rewrite list_elem_of_singleton. set_solver.
Qed.

(** Effects in sequence, when the second removes nothing, or both add nothing. *)
Lemma live_effect_bind f g r1 r2 k :
  live_effect f r1 k → live_effect g r2 [] → live_effect (λ s, s' ← f s; g s') (r1 ++ r2) k.
Proof.
  intros Hf Hg [Hr1 Hr2]%in_range_app Hk s Hs. destruct (Hf Hr1 Hk s Hs) as (s1 & -> & Hs1 & Hm1).
  destruct (Hg Hr2 ltac:(unfold in_range; set_solver) s1 Hs1) as (s2 & Hs2 & Hw2 & Hm2). cbn [mbind outcome_bind].
  exists s2. split_and!; [done..|]. intros l. rewrite Hm2, Hm1. set_solver.
Qed.

Lemma live_effect_kills f g k1 k2 :
  live_effect f [] k1 → live_effect g [] k2 → live_effect (λ s, s' ← f s; g s') [] (k1 ++ k2).
Proof.
  intros Hf Hg _ [Hk1 Hk2]%in_range_app s Hs.
  assert (Hnil : in_range []) by (unfold in_range; set_solver).
  destruct (Hf Hnil Hk1 s Hs) as (s1 & -> & Hs1 & Hm1). destruct (Hg Hnil Hk2 s1 Hs1) as (s2 & Hs2 & Hw2 & Hm2).
  cbn [mbind outcome_bind]. exists s2. split_and!; [done..|]. intros l. rewrite Hm2, Hm1, elem_of_app, elem_of_nil. clear. tauto.
Qed.

Lemma live_effect_ofold {X} (f : DenseBitSet → X → outcome DenseBitSet) (r : X → list Local) l :
  (∀ x, live_effect (λ s, f s x) (r x) []) → live_effect (λ s, ofold f s l) (concat (r <$> l)) [].
Proof.
  intros Hf. induction l as [|x l IH]; [apply live_effect_ret|]. simpl. by apply (live_effect_bind (λ s, f s x)).
Qed.

(** The same sets, listed differently. *)
Lemma live_effect_perm f r r' k : (∀ l, l ∈ r ↔ l ∈ r') → live_effect f r k → live_effect f r' k.
Proof.
  intros Hr Hf Hr' Hk s Hs. destruct (Hf ltac:(unfold in_range in *; set_solver) Hk s Hs) as (s' & ? & ? & Hm).
  exists s'. split_and!; [done..|]. intros l. by rewrite Hm, Hr.
Qed.

(** ** Places *)
Implicit Types (loc : Location) (p : Place).

Lemma live_visit_local_use l c loc : for_place (place_of_local l) c = Ret DuUse →
  live_effect (λ s, liveness_visit_local s l c loc) [l] [].
Proof. unfold liveness_visit_local, defuse_apply. intros ->. apply live_effect_gen. Qed.

Lemma live_projection_use p c loc :
  is_use c = true → live_effect (λ s, visit_projection liveness_visit_local s p c loc) (index_locals p) [].
Proof.
  intros Hc. unfold visit_projection, index_locals.
  assert (H : live_effect (λ s, ofold (λ s e, super_projection_elem liveness_visit_local s e c loc) s
    (reverse (pl_projection p))) (concat ((λ e, option_list (elem_index e)) <$> reverse (pl_projection p))) []).
  { apply live_effect_ofold. intros e. unfold super_projection_elem. rewrite Hc.
    destruct e; try apply live_effect_ret. simpl. by apply live_visit_local_use. }
  eapply live_effect_perm, H. intros l. rewrite elem_of_concat, list_elem_of_omap. split.
  - intros (ls & Hl & (e & -> & He)%list_elem_of_fmap). exists e. rewrite elem_of_reverse in He.
    split; [done|]. destruct e; simpl in *; set_solver.
  - intros (e & He & Hl). exists [l]. split; [set_solver|]. apply list_elem_of_fmap. exists e.
    rewrite elem_of_reverse, Hl. done.
Qed.

Lemma live_projection_nonuse p c loc : live_effect (λ s, visit_projection liveness_visit_local s p (NonUse c) loc) [] [].
Proof.
  unfold visit_projection.
  assert (H : live_effect (λ s, ofold (λ s e, super_projection_elem liveness_visit_local s e (NonUse c) loc) s
    (reverse (pl_projection p))) (concat ((λ e, []) <$> reverse (pl_projection p))) []).
  { apply live_effect_ofold. intros e. unfold super_projection_elem. destruct e; apply live_effect_ret. }
  eapply live_effect_perm, H. intros l. rewrite elem_of_concat. split; [|set_solver].
  intros (ls & Hl & (e & -> & _)%list_elem_of_fmap). done.
Qed.

(** Contexts that read the whole place. *)
Definition reading (c : PlaceContext) : bool :=
  match c with
  | MutatingUse (MuRawBorrow | MuBorrow | MuDrop)
  | NonMutatingUse (NmRawBorrow | NmCopy | NmInspect | NmMove | NmPlaceMention | NmFakeBorrow | NmSharedBorrow) => true
  | _ => false
  end.

Lemma live_place_reading p c loc : reading c = true →
  live_effect (λ s, liveness_visit_place s p c loc) (place_reads p) [].
Proof.
  intros Hc. unfold liveness_visit_place, place_reads.
  assert (Hd : for_place p c = Ret DuUse) by by destruct c as [[]|[]|].
  assert (Hu : is_use c = true) by by destruct c.
  change (pl_local p :: index_locals p) with ([pl_local p] ++ index_locals p).
  destruct c as [|[]|]; try done; rewrite Hd; cbn [mbind outcome_bind];
    (eapply live_effect_bind; [apply live_effect_gen|by apply live_projection_use]).
Qed.

Lemma live_place_nonuse p c loc : live_effect (λ s, liveness_visit_place s p (NonUse c) loc) [] [].
Proof. unfold liveness_visit_place. simpl. apply live_projection_nonuse. Qed.

Lemma live_place_store p loc :
  live_effect (λ s, liveness_visit_place s p (MutatingUse MuStore) loc) (store_reads p) (option_list (as_local p)).
Proof.
  unfold liveness_visit_place, store_reads, as_local, is_indirect, no_projection. destruct p as [l proj]. simpl.
  unfold is_indirect, no_projection. simpl. destruct (existsb elem_is_indirect proj) eqn:Hi.
  - destruct proj; [done|]. cbn [mbind outcome_bind]. eapply live_effect_bind; [apply live_effect_gen|by apply live_projection_use].
  - destruct proj; cbn [mbind outcome_bind option_list].
    + eapply live_effect_bind; [apply live_effect_kill|by apply live_projection_use].
    + eapply (live_effect_bind Ret _ []); [apply live_effect_ret|by apply live_projection_use].
Qed.

(** The destination of a call or of inline assembly: only read here. *)
Lemma live_place_output p c loc : c = MuCall ∨ c = MuAsmOutput →
  live_effect (λ s, liveness_visit_place s p (MutatingUse c) loc) (store_reads p) [].
Proof.
  intros Hc. unfold liveness_visit_place, store_reads. destruct Hc as [-> | ->]; simpl;
    (destruct (is_indirect p); [|destruct (no_projection p)]; cbn [mbind outcome_bind];
     [eapply live_effect_bind; [apply live_effect_gen|by apply live_projection_use]
     |eapply (live_effect_bind Ret _ []); [apply live_effect_ret|by apply live_projection_use]..]).
Qed.

Lemma live_place_discriminant p loc :
  live_effect (λ s, liveness_visit_place s p (MutatingUse MuSetDiscriminant) loc) (store_reads p) [].
Proof.
  unfold liveness_visit_place, store_reads. simpl. destruct (is_indirect p); cbn [mbind outcome_bind];
    [eapply live_effect_bind; [apply live_effect_gen|by apply live_projection_use]|].
  eapply (live_effect_bind Ret _ []); [apply live_effect_ret|by apply live_projection_use].
Qed.

(** ** Statements and terminators *)
Abbreviation V := (liveness_visitor (T := DenseBitSet)).

Lemma live_operand op loc : live_effect (λ s, visit_operand V s op loc) (operand_reads op) [].
Proof. unfold visit_operand. destruct op; simpl; [by apply live_place_reading..|apply live_effect_ret|apply live_effect_ret]. Qed.

Lemma live_operands ops loc : live_effect (λ s, visit_operands V s ops loc) (concat (operand_reads <$> ops)) [].
Proof. apply live_effect_ofold. intros op. apply live_operand. Qed.

Lemma live_rvalue rv loc : live_effect (λ s, super_rvalue V s rv loc) (rvalue_reads rv) [].
Proof.
  unfold super_rvalue. destruct rv as [| |bk| |[]| |op l r| | | | | |? [] ?]; simpl;
    try apply live_operand; try by apply live_place_reading.
  - destruct bk; by apply live_place_reading.
  - apply live_effect_ret.
  - eapply live_effect_bind; apply live_operand.
  - apply live_operands.
Qed.

Lemma live_statement st loc :
  live_effect (λ s, super_statement V s st loc) (stmt_reads st) (option_list (stmt_def st)).
Proof.
  destruct st as [p rv| | | | | | | |[]| | |]; simpl; try by apply live_place_reading; try apply live_effect_ret.
  - unfold super_assign. eapply live_effect_bind; [apply live_place_store|apply live_rvalue].
  - apply live_place_discriminant.
  - apply live_effect_ret.
  - apply live_effect_ret.
  - apply live_place_nonuse.
  - apply live_effect_ret.
  - apply live_operand.
  - eapply live_effect_bind; [apply live_operand|]. eapply live_effect_bind; apply live_operand.
  - apply live_effect_ret.
  - apply live_effect_ret.
  - apply live_place_nonuse.
Qed.

Lemma live_asm_operand op loc : live_effect (λ s, visit_asm_operand V s op loc) (asm_reads op) [].
Proof.
  destruct op as [|[]|? []| | | |]; simpl; try apply live_effect_ret; try apply live_operand.
  - apply live_place_output. by right.
  - eapply live_effect_bind; [apply live_operand|]. apply live_place_output. by right.
  - rewrite <-(app_nil_r (operand_reads _)). eapply live_effect_bind; [apply live_operand|apply live_effect_ret].
Qed.

Lemma live_message m loc : live_effect (λ s, super_assert_message V s m loc) (msg_reads m) [].
Proof.
  unfold super_assert_message. destruct m; simpl; try apply live_effect_ret; try apply live_operand;
    (eapply live_effect_bind; apply live_operand).
Qed.

Lemma live_terminator k loc : live_effect (λ s, super_terminator V s k loc) (term_reads k) [].
Proof.
  destruct k; simpl; try apply live_effect_ret; try apply live_operand.
  - by apply live_visit_local_use.
  - by apply live_place_reading.
  - eapply live_effect_bind; [apply live_operand|]. eapply live_effect_bind; [apply live_operands|].
    apply live_place_output. by left.
  - eapply live_effect_bind; [apply live_operand|apply live_operands].
  - eapply live_effect_bind; [apply live_operand|apply live_message].
  - rewrite <-(app_nil_r (operand_reads _)). eapply live_effect_bind; [apply live_operand|]. apply live_effect_ret.
  - apply live_effect_ofold. intros op. apply live_asm_operand.
Qed.

(** ** Edges *)
Lemma live_kill_return p : live_effect (λ s, Live.kill_return_place s p) [] (option_list (as_local p)).
Proof. unfold Live.kill_return_place. destruct (as_local p); [apply live_effect_kill|apply live_effect_ret]. Qed.

Lemma live_kill_returns ps : live_effect (λ s, ofold Live.kill_return_place s ps) [] (omap as_local ps).
Proof.
  induction ps as [|p ps IH]; [apply live_effect_ret|].
  replace (omap as_local (p :: ps)) with (option_list (as_local p) ++ omap as_local ps)
    by (simpl; by destruct (as_local p)).
  simpl. apply (live_effect_kills (λ s, Live.kill_return_place s p)); [apply live_kill_return|done].
Qed.

Definition return_reads (rp : CallReturnPlaces) : list Local :=
  match rp with CrYield arg => store_reads arg | _ => [] end.

Lemma live_call_return b rp :
  live_effect (λ s, Live.apply_call_return_effect s b rp) (return_reads rp) (omap as_local (return_places rp)).
Proof.
  destruct rp as [p|p|ops]; [apply (live_kill_returns [p])| |apply live_kill_returns].
  unfold Live.apply_call_return_effect, yield_resume_visit_place, return_reads, return_places, defuse_apply, store_reads.
  destruct p as [l proj]. simpl. unfold is_indirect, no_projection, as_local. simpl.
  destruct (existsb elem_is_indirect proj) eqn:Hi.
  - destruct proj; [done|]. cbn [mbind outcome_bind]. eapply live_effect_bind; [apply live_effect_gen|by apply live_projection_use].
  - destruct proj; cbn [mbind outcome_bind omap list_omap].
    + eapply live_effect_bind; [apply live_effect_kill|by apply live_projection_use].
    + eapply (live_effect_bind Ret _ []); [apply live_effect_ret|by apply live_projection_use].
Qed.
End effects.
