(* ===== verification/LivenessThms.v ===== *)
(** * Live locals: the analysis is path-based liveness

    [MaybeLiveLocals], run by the fixpoint engine, computes for every reachable
    block exactly the locals with a path from the end of the block to a read
    that no overwrite precedes. *)
From S2P Require Import Prelude Mir BitWords BitSet BitSetFacts Traversal Lattice Dataflow DataflowFacts DataflowEngine Visitor Liveness.

(** ** Liveness along paths *)
Section spec.
Context (mir : Body) (l : Local).

(** From the position [i] of block [b] (the number of statements is the
    position of the terminator) a read of [l] can be reached before any
    overwrite. *)
Inductive live_at : BasicBlock → nat → Prop :=
  | live_read b d i st :
      basic_blocks mir !! b = Some d → statements d !! i = Some st → l ∈ stmt_reads st → live_at b i
  | live_kept b d i st :
      basic_blocks mir !! b = Some d → statements d !! i = Some st → stmt_def st ≠ Some l →
      live_at b (S i) → live_at b i
  | live_term_read b d k :
      basic_blocks mir !! b = Some d → terminator_opt d = Some k → l ∈ term_reads k →
      live_at b (length (statements d))
  | live_edge_read b d k c :
      basic_blocks mir !! b = Some d → terminator_opt d = Some k → c ∈ successors k → l ∈ edge_reads k c →
      live_at b (length (statements d))
  | live_edge_kept b d k c :
      basic_blocks mir !! b = Some d → terminator_opt d = Some k → c ∈ successors k → l ∉ edge_defs k c →
      live_at c 0 → live_at b (length (statements d)).

(** Live when control leaves [b]. *)
Definition live_out (b : BasicBlock) : Prop :=
  ∃ d k c, basic_blocks mir !! b = Some d ∧ terminator_opt d = Some k ∧ c ∈ successors k ∧
    (l ∈ edge_reads k c ∨ l ∉ edge_defs k c ∧ live_at c 0).

(** Within a block. *)
Fixpoint stmts_live (sts : list StatementKind) (out : Prop) : Prop :=
  match sts with
  | [] => out
  | st :: sts => l ∈ stmt_reads st ∨ stmt_def st ≠ Some l ∧ stmts_live sts out
  end.

Lemma live_at_term b d k :
  basic_blocks mir !! b = Some d → terminator_opt d = Some k →
  live_at b (length (statements d)) ↔ l ∈ term_reads k ∨ live_out b.
Proof.
  intros Hd Hk. split.
  - intros H. inversion H as [b' d' i st Hd' Hst| b' d' i st Hd' Hst|b' d' k' Hd' Hk' ?|b' d' k' c Hd' Hk' ? ?|b' d' k' c Hd' Hk' ? ? ?];
      simplify_eq; [apply lookup_lt_Some in Hst; lia..|by left| |].
    + right. exists d, k, c. naive_solver.
    + right. exists d, k, c. naive_solver.
  - intros [?|(d' & k' & c & ? & ? & ? & [?|[? ?]])]; simplify_eq;
      [by eapply live_term_read|by eapply live_edge_read|by eapply live_edge_kept].
Qed.

Lemma live_at_stmts b d k i :
  basic_blocks mir !! b = Some d → terminator_opt d = Some k → i ≤ length (statements d) →
  live_at b i ↔ stmts_live (drop i (statements d)) (l ∈ term_reads k ∨ live_out b).
Proof.
  intros Hd Hk Hi. remember (length (statements d) - i) as m eqn:Hm. revert i Hi Hm.
  induction m as [|m IH]; intros i Hi Hm.
  { assert (i = length (statements d)) as -> by lia. rewrite drop_all. simpl. by apply live_at_term. }
  destruct (lookup_lt_is_Some_2 (statements d) i) as [st Hst]; [lia|].
  rewrite (drop_S _ _ _ Hst). cbn [stmts_live]. rewrite <-IH by lia. split.
  - intros H. inversion H; simplify_eq; [by left|by right|lia..].
  - intros [?|[? ?]]; [by eapply live_read|by eapply live_kept].
Qed.
End spec.

(** ** The transfer of a block *)
Section block.
Context (mir : Body) (Hok : body_ok mir = true) (Hlocals : locals_ok mir = true).
Context (Hlsmall : (Z.of_nat (length (local_decls mir)) < 2 ^ 64)%Z).
Abbreviation nl := (length (local_decls mir)).
Abbreviation mem s i := (bs_mem dense_ops s i = true).
Abbreviation A := maybe_live_locals.

Lemma forallb_in_range (ls : list Local) : forallb (λ l, l <? nl) ls = true → in_range nl ls.
Proof. rewrite forallb_forall. intros H l Hl. by apply Nat.ltb_lt, H, list_elem_of_In. Qed.

Lemma locals_ok_block b d : basic_blocks mir !! b = Some d →
  (∀ st, st ∈ statements d → in_range nl (stmt_reads st) ∧ in_range nl (option_list (stmt_def st))) ∧
  ∀ k, terminator_opt d = Some k → in_range nl (term_reads k) ∧
    ∀ c, c ∈ successors k → in_range nl (edge_defs k c) ∧ in_range nl (edge_reads k c).
Proof.
  intros Hd. unfold locals_ok in Hlocals. rewrite forallb_forall in Hlocals.
  specialize (Hlocals d (proj1 (list_elem_of_In _ _) (list_elem_of_lookup_2 _ _ _ Hd))).
  apply andb_true_iff in Hlocals as [Hs Hk]. split.
  - intros st Hst. rewrite forallb_forall in Hs. specialize (Hs st (proj1 (list_elem_of_In _ _) Hst)).
    apply andb_true_iff in Hs as [? ?]. split; by apply forallb_in_range.
  - intros k Hk'. rewrite Hk' in Hk. apply andb_true_iff in Hk as [Ht He]. split; [by apply forallb_in_range|].
    intros c Hc. rewrite forallb_forall in He. specialize (He c (proj1 (list_elem_of_In _ _) Hc)).
    apply andb_true_iff in He as [? ?]. split; by apply forallb_in_range.
Qed.

Lemma terminator_at_opt b k : terminator_at mir b = Ret k → ∃ d, basic_blocks mir !! b = Some d ∧ terminator_opt d = Some k.
Proof.
  unfold terminator_at, block_at, terminator. destruct (basic_blocks mir !! b) as [d|]; simpl; [|done].
  destruct (terminator_opt d) eqn:E; simpl; [|done]. intros [= ->]. eauto.
Qed.

(** The returns of a terminator go over one of its edges. *)
Lemma returns_to_edge k place : returns_to k place → ∃ c, c ∈ successors k ∧ edge_return k c = Some place.
Proof.
  intros (t & r & cl & He). destruct k as [| | | | | |? ? [] ?|? ? ? [tgt|] u| |? ? ? ? []|? ? ? d| | |? []|ops ts u]; simplify_eq/=.
  - exists t. rewrite Nat.eqb_refl. split; [destruct u; simpl; set_solver|done].
  - exists t. rewrite Nat.eqb_refl. split; [destruct d; simpl; set_solver|done].
  - exists t. rewrite bool_decide_true by set_solver. split; [destruct u; simpl; set_solver|done].
Qed.

Lemma return_effect b b' k place : terminator_at mir b = Ret k → returns_to k place →
  in_range nl (omap as_local (return_places place)) ∧ in_range nl (return_reads place) ∧
  live_effect nl (λ s, Live.apply_call_return_effect s b' place) (return_reads place) (omap as_local (return_places place)).
Proof.
  intros Hk (c & Hc & He)%returns_to_edge. destruct (terminator_at_opt _ _ Hk) as (d & Hd & Hkd).
  destruct (proj2 (proj2 (locals_ok_block b d Hd) k Hkd) c Hc) as [Hdefs Hreads].
  unfold edge_defs, edge_reads in *. rewrite He in *. split_and!; [done|by destruct place|apply live_call_return].
Qed.

Lemma live_effect_ok f r ks :
  in_range nl r → in_range nl ks → live_effect nl f r ks → effect_ok (an_lattice A mir) f.
Proof. intros Hr Hk Hf s Hs. destruct (Hf Hr Hk s Hs) as (s' & ? & ? & _). eauto. Qed.

Lemma live_effect_mono f r ks :
  in_range nl r → in_range nl ks → live_effect nl f r ks → effect_mono (an_lattice A mir) f.
Proof.
  intros Hr Hk Hf s t s' t' Hs Ht Hst Es Et. destruct (Hf Hr Hk s Hs) as (s1 & Es' & _ & Hms).
  destruct (Hf Hr Hk t Ht) as (t1 & Et' & _ & Hmt). simplify_ret. intros l. rewrite Hms, Hmt.
  intros [?|[? ?]]; [by left|right; split; [by apply Hst|done]].
Qed.

#[export] Instance live_laws : AnalysisLaws A mir.
Proof.
  split; try done.
  - exact (bits_lattice_laws dense_ops nl).
  - split; [by apply dense_new_empty_wf|done].
  - intros s _ i. simpl. by rewrite has_replicate_0.
  - apply effect_ok_ret.
  - intros. apply effect_ok_ret.
  - intros b d i st loc Hd Hst%list_elem_of_lookup_2. destruct (proj1 (locals_ok_block b d Hd) st Hst).
    apply (live_effect_ok _ (stmt_reads st) (option_list (stmt_def st))); [done..|]. apply live_statement.
  - intros. apply effect_ok_ret.
  - intros b k loc (d & Hd & Hk)%terminator_at_opt. destruct (proj2 (locals_ok_block b d Hd) k Hk) as [? _].
    apply (live_effect_ok _ (term_reads k) []); [done|by intros ? ?%elem_of_nil|apply live_terminator].
  - intros b b' k place Hk Hr. destruct (return_effect b b' k place Hk Hr) as (? & ? & ?).
    by apply (live_effect_ok _ (return_reads place) (omap as_local (return_places place))).
Qed.

#[export] Instance live_mono : AnalysisMono A mir.
Proof.
  split.
  - intros. apply effect_mono_ret.
  - intros b d i st loc Hd Hst%list_elem_of_lookup_2. destruct (proj1 (locals_ok_block b d Hd) st Hst).
    apply (live_effect_mono _ (stmt_reads st) (option_list (stmt_def st))); [done..|]. apply live_statement.
  - intros. apply effect_mono_ret.
  - intros b k loc (d & Hd & Hk)%terminator_at_opt. destruct (proj2 (locals_ok_block b d Hd) k Hk) as [? _].
    apply (live_effect_mono _ (term_reads k) []); [done|by intros ? ?%elem_of_nil|apply live_terminator].
  - intros b b' k place Hk Hr. destruct (return_effect b b' k place Hk Hr) as (? & ? & ?).
    by apply (live_effect_mono _ (return_reads place) (omap as_local (return_places place))).
Qed.

(** The state at the start of a block, from the state at its end. *)
Lemma back_stmts_live b sts (out : nat → Prop) : ∀ i s,
  (∀ st, st ∈ sts → in_range nl (stmt_reads st) ∧ in_range nl (option_list (stmt_def st))) →
  live_wf nl s → (∀ l, mem s l ↔ out l) → ∃ s',
    ofold (statement_effects A b) s (reverse (zip (seq i (length sts)) sts)) = Ret s' ∧ live_wf nl s' ∧
    ∀ l, mem s' l ↔ stmts_live l sts (out l).
Proof.
  induction sts as [|st sts IH]; intros i s Hr Hs Hout; [by exists s|].
  cbn [length seq]. change (zip (i :: ?a) (st :: ?b)) with ((i, st) :: zip a b).
  rewrite reverse_cons, ofold_app.
  destruct (IH (S i) s) as (s1 & -> & Hs1 & Hm1); [intros; apply Hr; by right|done..|].
  cbn [mbind outcome_bind ofold]. destruct (Hr st ltac:(left)) as [Hrr Hrd].
  destruct (live_statement nl st (mkLocation b i) Hrr Hrd s1 Hs1) as (s2 & Hs2 & Hw2 & Hm2).
  assert (statement_effects A b s1 (i, st) = Ret s2) as -> by exact Hs2. cbn [mbind outcome_bind].
  exists s2. split_and!; [done..|].
  intros l. rewrite Hm2, Hm1. cbn [stmts_live]. clear. destruct (stmt_def st) as [k|]; simpl; rewrite ?list_elem_of_singleton, ?elem_of_nil; [|naive_solver].
  split; [intros [?|[? Hne]]; [by left|right; split; [congruence|done]]|intros [?|[Hne ?]]; [by left|right; split; [done|congruence]]].
Qed.

Lemma back_state_live b d k s : basic_blocks mir !! b = Some d → terminator_opt d = Some k → live_wf nl s →
  ∃ s', back_state A s b d = Ret s' ∧ live_wf nl s' ∧
    ∀ l, mem s' l ↔ stmts_live l (statements d) (l ∈ term_reads k ∨ mem s l).
Proof.
  intros Hd Hk Hs. destruct (locals_ok_block b d Hd) as [Hst Ht]. destruct (Ht k Hk) as [Htr _].
  unfold back_state, terminator. rewrite Hk. cbn [unwrap mbind outcome_bind].
  destruct (live_terminator nl k (mkLocation b (length (statements d))) Htr ltac:(by intros ? ?%elem_of_nil) s Hs)
    as (s1 & Hs1 & Hw1 & Hm1).
  change (apply_early_terminator_effect A s k ?loc) with (Ret s). cbn [mbind outcome_bind].
  change (apply_primary_terminator_effect A s k ?loc) with (super_terminator liveness_visitor s k loc).
  rewrite Hs1. cbn [mbind outcome_bind].
  apply (back_stmts_live b (statements d) (λ l, l ∈ term_reads k ∨ mem s l)); [done..|].
  intros l. rewrite Hm1. set_solver.
Qed.

Lemma back_edge_return b p k s : terminator_at mir p = Ret k → ∃ b',
  back_edge A mir b p s =
    match edge_return k b with Some rp => Live.apply_call_return_effect s b' rp | None => Ret s end.
Proof.
  intros Hk. unfold back_edge. rewrite Hk. cbn [mbind outcome_bind].
  destruct k as [| | | | | | |? ? ? [t|] ?| | |? r ? d| | | |? ts ?]; try (by exists p); unfold edge_return.
  - exists p. by destruct (t =? b).
  - exists b. by destruct (_ || _).
  - exists p. by case_bool_decide.
Qed.

(** What a predecessor receives. *)
Lemma back_edge_live b p dp kp s :
  basic_blocks mir !! p = Some dp → terminator_opt dp = Some kp → b ∈ successors kp → live_wf nl s →
  ∃ s', back_edge A mir b p s = Ret s' ∧ live_wf nl s' ∧
    ∀ l, mem s' l ↔ l ∈ edge_reads kp b ∨ l ∉ edge_defs kp b ∧ mem s l.
Proof.
  intros Hd Hk Hb Hs. destruct (proj2 (proj2 (locals_ok_block p dp Hd) kp Hk) b Hb) as [Hdefs Hreads].
  destruct (back_edge_return b p kp s) as [b' ->].
  { unfold terminator_at, block_at, terminator. rewrite Hd. simpl. by rewrite Hk. }
  unfold edge_defs, edge_reads in *. destruct (edge_return kp b) as [rp|].
  - destruct (live_call_return nl b' rp) with (s := s) as (s' & ? & ? & Hm); [by destruct rp|done..|].
    exists s'. split_and!; [done..|]. intros l. rewrite Hm. destruct rp; simpl; tauto.
  - exists s. split_and!; [done..|]. intros l. set_solver.
Qed.

(** What block [b] sends to its predecessor [p]. *)
Lemma live_emission b p s : b < length (basic_blocks mir) → live_wf nl s → cfg_edge mir p b →
  ∃ d k dp kp ems x, basic_blocks mir !! b = Some d ∧ terminator_opt d = Some k ∧
    basic_blocks mir !! p = Some dp ∧ terminator_opt dp = Some kp ∧ b ∈ successors kp ∧
    emissions A mir s b = Ret ems ∧ (p, x) ∈ ems ∧ (∀ x', (p, x') ∈ ems → x' = x) ∧ live_wf nl x ∧
    ∀ l, mem x l ↔ l ∈ edge_reads kp b ∨
                   l ∉ edge_defs kp b ∧ stmts_live l (statements d) (l ∈ term_reads k ∨ mem s l).
Proof.
  intros Hb Hs Hp. destruct (backward_trace A mir Hok b s eq_refl Hb Hs) as (d & s' & ps & ems & Hd & Hs' & Hems & Hps & _ & Htr & _).
  destruct (block_succs _ Hok b Hb) as (d' & k & Hd' & _ & Hk & _ & _). simplify_ret.
  assert (Hdb : basic_blocks mir !! b = Some d) by (unfold block_at in Hd; destruct (basic_blocks mir !! b); naive_solver).
  destruct (back_state_live b d k s Hdb Hk Hs) as (s1 & Hs1 & Hw1 & Hm1). simplify_ret.
  unfold cfg_edge, succs in Hp. destruct (terminator_at mir p) as [kp| |] eqn:Hkp; [|by apply elem_of_nil in Hp..].
  destruct (terminator_at_opt _ _ Hkp) as (dp & Hdp & Hkp').
  destruct (back_edge_live b p dp kp s' Hdp Hkp' Hp Hw1) as (x & Hx & Hwx & Hmx).
  assert (Hall : ∀ e, e ∈ ems ↔ ∃ q, q ∈ ps ∧ (y ← back_edge A mir b q s'; Ret (q, y)) = Ret e).
  { clear -Hems. revert ems Hems. induction ps as [|q ps IH]; intros ems; simpl; [intros [= <-]; set_solver|].
    destruct (back_edge A mir b q s') as [y| |] eqn:Hy; simpl; [|done..].
    destruct (omapM _ ps) as [es| |]; simpl; [|done..]. intros [= <-] e. rewrite elem_of_cons, (IH es eq_refl). split.
    - intros [->|(r & ? & ?)]; [exists q|exists r]; (split; [set_solver|]); [by rewrite Hy|done].
    - intros (r & [->|Hr]%elem_of_cons & He); [left; rewrite Hy in He; by simplify_eq/=|right; eauto]. }
  exists d, k, dp, kp, ems, x. split_and!; try done; [by eapply traced_emissions| | |].
  - apply Hall. exists p. rewrite Hx. split; [|done]. apply Hps. unfold cfg_edge, succs. by rewrite Hkp.
  - intros x' (q & _ & Hq)%Hall. destruct (back_edge A mir b q s') eqn:E; simplify_eq/=. by simplify_ret.
  - intros l. etrans; [apply Hmx|]. by rewrite <-(Hm1 l).
Qed.

Lemma stmts_live_mono l sts (P Q : Prop) : (P → Q) → stmts_live l sts P → stmts_live l sts Q.
Proof. intros HPQ. induction sts as [|st sts IH]; simpl; [done|]. tauto. Qed.

(** Soundness is inductive: every state of the iteration holds live locals only. *)
Lemma live_states_sound init : (∀ b s, init !! b = Some s → ∀ l, ¬ mem s l) →
  inductive_states A mir init (λ b s, ∀ l, mem s l → live_out mir l b).
Proof.
  intros Hinit. split; [intros b s Hs l Hl; by destruct (Hinit b s Hs l)|].
  intros b s ems p x a c Hrb Hsound Hws Hems Hin _ Ha Hwa Hlub l Hl.
  assert (Hb : b < length (basic_blocks mir)) by (eapply cfg_reach_lt; [done..|by apply start_lt]).
  destruct (block_trace A mir Hok b s Hb Hws) as (_ & ems' & _ & Hems' & _ & Hflow). simplify_ret.
  destruct (Hflow p x Hin) as [Hwx Hfl].
  destruct (live_emission b p s Hb Hws Hfl) as (d & k & dp & kp & ems' & y & Hd & Hk & Hdp & Hkp & Hsucc & Hems' & _ & Huniq & _ & Hm).
  simplify_ret. specialize (Huniq x Hin). subst y.
  destruct (bits_lub dense_ops nl a x c l Hwa Hwx Hlub Hl) as [?|Hx]; [by apply Ha|].
  exists dp, kp, b. split_and!; [done..|]. apply Hm in Hx as [?|[? Hx]]; [by left|right]. split; [done|].
  apply (live_at_stmts mir l b d k 0 Hd Hk); [lia|]. rewrite drop_0. eapply stmts_live_mono, Hx.
  intros [?|?]; [by left|right; by apply Hsound].
Qed.

(** Across an edge: a solution absorbs what the successor sends. *)
Lemma live_edge_step init E l b d k c s : solution A mir init E → cfg_reach mir START_BLOCK b → E !! b = Some s →
  basic_blocks mir !! b = Some d → terminator_opt d = Some k → c ∈ successors k →
  cfg_reach mir START_BLOCK c ∧ ∃ dc kc sc, basic_blocks mir !! c = Some dc ∧ terminator_opt dc = Some kc ∧
    E !! c = Some sc ∧ (l ∈ edge_reads k c ∨ l ∉ edge_defs k c ∧ stmts_live l (statements dc) (l ∈ term_reads kc ∨ mem sc l) →
      mem s l).
Proof.
  intros HE Hrb Hs Hd Hk Hc.
  assert (He : cfg_edge mir b c).
  { unfold cfg_edge, succs, terminator_at, block_at, terminator. rewrite Hd. simpl. by rewrite Hk. }
  assert (Hrc : cfg_reach mir START_BLOCK c) by by eapply rtc_r.
  assert (Hcl : c < length (basic_blocks mir)) by by eapply cfg_edge_lt.
  destruct (lookup_lt_is_Some_2 E c) as [sc Hsc]; [by rewrite (sol_length _ _ _ _ HE)|].
  assert (Hwc : live_wf nl sc) by (eapply Forall_lookup_1; [apply (sol_wf _ _ _ _ HE)|done]).
  destruct (live_emission c b sc Hcl Hwc He) as (dc & kc & d' & k' & ems & x & Hdc & Hkc & Hd' & Hk' & _ & Hems & Hin & _ & _ & Hm).
  simplify_eq. split; [done|]. exists dc, kc, sc. split_and!; [done..|]. intros Hl.
  destruct (sol_absorbs _ _ _ _ HE c sc ems b x Hrc Hsc Hems Hin Hrb) as (s' & Hs' & Hle). simplify_eq.
  apply Hle, Hm, Hl.
Qed.

(** Completeness: a solution contains every live local. *)
Lemma live_states_complete init E l : solution A mir init E → ∀ b i, live_at mir l b i → cfg_reach mir START_BLOCK b →
  ∀ s d k, E !! b = Some s → basic_blocks mir !! b = Some d → terminator_opt d = Some k →
  stmts_live l (drop i (statements d)) (l ∈ term_reads k ∨ mem s l).
Proof.
  intros HE b i Hlive.
  induction Hlive as [b d i st Hd Hst Hr|b d i st Hd Hst Hdef _ IH|b d k Hd Hk Hr|b d k c Hd Hk Hc Hr|b d k c Hd Hk Hc Hdef _ IH];
    intros Hrb s d1 k1 Hs Hd1 Hk1; simplify_eq.
  - rewrite (drop_S _ _ _ Hst). by left.
  - rewrite (drop_S _ _ _ Hst). right. split; [done|]. by eapply IH.
  - rewrite drop_all. by left.
  - rewrite drop_all. right. destruct (live_edge_step init E l b d k c s) as (_ & dc & kc & sc & _ & _ & _ & Hm); [done..|].
    apply Hm. by left.
  - rewrite drop_all. right.
    destruct (live_edge_step init E l b d k c s) as (Hrc & dc & kc & sc & Hdc & Hkc & Hsc & Hm); [done..|].
    apply Hm. right. split; [done|]. specialize (IH Hrc sc dc kc Hsc Hdc Hkc). by rewrite drop_0 in IH.
Qed.

Lemma live_out_complete init E l b s : solution A mir init E → cfg_reach mir START_BLOCK b → E !! b = Some s →
  live_out mir l b → mem s l.
Proof.
  intros HE Hrb Hs (d & k & c & Hd & Hk & Hc & Hl).
  destruct (live_edge_step init E l b d k c s) as (Hrc & dc & kc & sc & Hdc & Hkc & Hsc & Hm); [done..|]. apply Hm.
  destruct Hl as [?|[? Hl]]; [by left|right; split; [done|]].
  pose proof (live_states_complete init E l HE c 0 Hl Hrc sc dc kc Hsc Hdc Hkc) as Hst. by rewrite drop_0 in Hst.
Qed.

Lemma live_locals_ok (Hsmall : body_small mir) : ∃ E,
  iterate_to_fixpoint A mir (engine_fuel A mir) = Ret E ∧
  ∀ b, b < length (basic_blocks mir) → ∃ s, E !! b = Some s ∧ live_wf nl s ∧
    (cfg_reach mir START_BLOCK b → ∀ l, mem s l ↔ live_out mir l b) ∧
    (¬ cfg_reach mir START_BLOCK b → ∀ l, ¬ mem s l).
Proof.
  destruct (initial_states_ok A mir Hok) as (init & start & Hin & Hst & Hlen & _ & _ & Hinit).
  destruct (iterate_ok A mir Hok Hsmall) as (init' & E & Hin' & _ & _ & HE & Hsol & Hunr & Hstates). simplify_ret.
  assert (Hempty : ∀ b s, init !! b = Some s → ∀ l, ¬ mem s l).
  { intros b s Hs l. assert (Hb : b < length (basic_blocks mir)) by (rewrite <-Hlen; by eapply lookup_lt_Some).
    specialize (Hinit b Hb). rewrite Hs in Hinit. simplify_eq. case_decide; simpl; by rewrite has_replicate_0. }
  exists E. split; [done|]. intros b Hb.
  destruct (lookup_lt_is_Some_2 E b) as [s Hs]; [by rewrite (sol_length _ _ _ _ Hsol)|].
  exists s. split_and!; [done|by eapply Forall_lookup_1; [apply (sol_wf _ _ _ _ Hsol)|]| |].
  - intros Hrb l. split; [by apply (Hstates _ (live_states_sound _ Hempty))|by eapply live_out_complete].
  - intros Hnr l. rewrite Hunr in Hs by done. by eapply Hempty.
Qed.
End block.
