(* ===== verification/DataflowCursor.v ===== *)
(** * Reading the results of a dataflow analysis

    [rustc_mir_dataflow/src/framework/cursor.rs] and [visitor.rs]: random access
    to the states inside a block ([ResultsCursor]), which are recomputed from the
    entry states, reusing the current position when it can; and the visitor of
    all states.  [EffectIndex], [apply_effect] ([mod.rs]) and the order of effects
    ([direction.rs]) are what both rest on.  [points.rs]: dense indices of
    locations.

    The reference: the effects of a block are numbered in the order of the
    analysis, and the state after [r] of them is computed from the entry state. *)
From S2P Require Import Prelude Mir BitWords BitSet BitSetFacts Traversal Lattice Dataflow DataflowFacts DataflowEngine Liveness LivenessThms.

(** ** Effects *)
Inductive Effect := Early | Primary.
Record EffectIndex := mkEffectIndex { idx_statement : nat; idx_effect : Effect }.
Definition at_index (e : Effect) (statement_index : nat) : EffectIndex := mkEffectIndex statement_index e.
#[export] Instance Effect_eq_dec : EqDecision Effect.
Proof. solve_decision. Defined.
#[export] Instance EffectIndex_eq_dec : EqDecision EffectIndex.
Proof. solve_decision. Defined.

(** [Effect: Ord] and [usize: Ord]. *)
Definition effect_cmp (a b : Effect) : comparison :=
  match a, b with Early, Primary => Lt | Primary, Early => Gt | _, _ => Eq end.
Definition then_with (c d : comparison) : comparison := match c with Eq => d | _ => c end.

Definition first_index (dir : Direction) (data : BasicBlockData) : EffectIndex :=
  match dir with Backward => at_index Early (length (statements data)) | Forward => at_index Early 0 end.
Definition next_index (dir : Direction) (idx : EffectIndex) : outcome EffectIndex :=
  match idx_effect idx, dir with
  | Early, _ => Ret (at_index Primary (idx_statement idx))
  | Primary, Forward => Ret (at_index Early (S (idx_statement idx)))
  | Primary, Backward =>
      match idx_statement idx with O => Panic | S i => Ret (at_index Early i) end
  end.

Section cursor.
Context {D : Type} (A : Analysis D) (mir : Body).

Definition apply_effect (state : D) (block : BasicBlock) (data : BasicBlockData) (idx : EffectIndex) : outcome D :=
  let statement_index := idx_statement idx in
  let loc := mkLocation block statement_index in
  if negb (statement_index =? length (statements data)) then
    statement ← unwrap (statements data !! statement_index);
    match idx_effect idx with
    | Early => apply_early_statement_effect A state statement loc
    | Primary => apply_primary_statement_effect A state statement loc
    end
  else
    term ← terminator data;
    match idx_effect idx with
    | Early => apply_early_terminator_effect A state term loc
    | Primary => apply_primary_terminator_effect A state term loc
    end.

(** ** The cursor

    [entry_states] are the results it inspects; the blocks it may be asked about
    are the reachable ones. *)
Record CursorPosition := mkPosition { pos_block : BasicBlock; curr_effect_index : option EffectIndex }.
Record ResultsCursor := mkCursor { cur_state : D; pos : CursorPosition; state_needs_reset : bool }.
Context (entry_states : list D) (reachable_blocks : DenseBitSet).

Definition block_entry (block : BasicBlock) : CursorPosition := mkPosition block None.
Definition new_cursor : ResultsCursor := mkCursor (bottom_value A mir) (block_entry START_BLOCK) true.

Definition seek_to_block_entry (block : BasicBlock) (_ : ResultsCursor) : outcome ResultsCursor :=
  r ← Dense.contains reachable_blocks block;
  if negb r then Panic else
  state ← unwrap (entry_states !! block);
  Ret (mkCursor state (block_entry block) false).

(** The loop of [seek_after]: effects up to the target. *)
Definition seek_step (block : BasicBlock) (data : BasicBlockData) (target : EffectIndex) (st : D * EffectIndex)
    : outcome (D * EffectIndex + D) :=
  state ← apply_effect st.1 block data st.2;
  if bool_decide (st.2 = target) then Ret (inr state)
  else idx ← next_index (direction A) st.2; Ret (inl (state, idx)).

(** The reset before the loop; [None] when the cursor is at the target. *)
Definition reset_for (target : Location) (effect : Effect) (c : ResultsCursor) : outcome (option ResultsCursor) :=
  if state_needs_reset c || negb (pos_block (pos c) =? loc_block target) then
    c ← seek_to_block_entry (loc_block target) c; Ret (Some c)
  else
    match curr_effect_index (pos c) with
    | Some curr =>
        let ord := idx_statement curr ?= statement_index target in
        let ord := if is_forward (direction A) then ord else CompOpp ord in
        match then_with ord (effect_cmp (idx_effect curr) effect) with
        | Eq => Ret None
        | Gt => c ← seek_to_block_entry (loc_block target) c; Ret (Some c)
        | Lt => Ret (Some c)
        end
    | None => Ret (Some c)
    end.

(** The rest of [seek_after], at an earlier effect of the block. *)
Definition advance_to (fuel : nat) (data : BasicBlockData) (target : Location) (effect : Effect) (c : ResultsCursor)
    : outcome ResultsCursor :=
  next_effect ← match curr_effect_index (pos c) with
                | None => Ret (first_index (direction A) data)
                | Some idx => next_index (direction A) idx
                end;
  let target_effect_index := at_index effect (statement_index target) in
  state ← loop fuel (seek_step (loc_block target) data target_effect_index) (cur_state c, next_effect);
  Ret (mkCursor state (mkPosition (loc_block target) (Some target_effect_index)) false).

Definition seek_after (fuel : nat) (target : Location) (effect : Effect) (c : ResultsCursor) : outcome ResultsCursor :=
  data ← block_at mir (loc_block target);
  if length (statements data) <? statement_index target then Panic else
  r ← reset_for target effect c;
  match r with None => Ret c | Some c => advance_to fuel data target effect c end.

Definition seek_before_primary_effect (fuel : nat) (target : Location) : ResultsCursor → outcome ResultsCursor :=
  seek_after fuel target Early.
Definition seek_after_primary_effect (fuel : nat) (target : Location) : ResultsCursor → outcome ResultsCursor :=
  seek_after fuel target Primary.
Definition seek_to_block_start (fuel : nat) (block : BasicBlock) (c : ResultsCursor) : outcome ResultsCursor :=
  if is_forward (direction A) then seek_to_block_entry block c else seek_after fuel (mkLocation block 0) Primary c.
Definition seek_to_block_end (fuel : nat) (block : BasicBlock) (c : ResultsCursor) : outcome ResultsCursor :=
  if negb (is_forward (direction A)) then seek_to_block_entry block c
  else data ← block_at mir block; seek_after fuel (mkLocation block (length (statements data))) Primary c.
Definition apply_custom_effect (f : D → outcome D) (c : ResultsCursor) : outcome ResultsCursor :=
  state ← f (cur_state c); Ret (mkCursor state (pos c) true).

(** ** The visitor *)
Record ResultsVisitor (V : Type) := mkResultsVisitor {
  visit_after_early_statement_effect : V → D → StatementKind → Location → outcome V;
  visit_after_primary_statement_effect : V → D → StatementKind → Location → outcome V;
  visit_after_early_terminator_effect : V → D → TerminatorKind → Location → outcome V;
  visit_after_primary_terminator_effect : V → D → TerminatorKind → Location → outcome V }.
Arguments visit_after_early_statement_effect {V}. Arguments visit_after_primary_statement_effect {V}.
Arguments visit_after_early_terminator_effect {V}. Arguments visit_after_primary_terminator_effect {V}.

Section visitor.
Context {V : Type} (vis : ResultsVisitor V).

Definition visit_statement_effects (block : BasicBlock) (st : V * D) (e : nat * StatementKind) : outcome (V * D) :=
  let loc := mkLocation block e.1 in
  s ← apply_early_statement_effect A st.2 e.2 loc;
  v ← visit_after_early_statement_effect vis st.1 s e.2 loc;
  s ← apply_primary_statement_effect A s e.2 loc;
  v ← visit_after_primary_statement_effect vis v s e.2 loc;
  Ret (v, s).
Definition visit_terminator_effects (block : BasicBlock) (data : BasicBlockData) (st : V * D) : outcome (V * D) :=
  let loc := mkLocation block (length (statements data)) in
  term ← terminator data;
  s ← apply_early_terminator_effect A st.2 term loc;
  v ← visit_after_early_terminator_effect vis st.1 s term loc;
  s ← apply_primary_terminator_effect A s term loc;
  v ← visit_after_primary_terminator_effect vis v s term loc;
  Ret (v, s).

Definition visit_results_in_block (block : BasicBlock) (data : BasicBlockData) (st : V * D) : outcome (V * D) :=
  match direction A with
  | Backward =>
      st ← visit_terminator_effects block data st;
      ofold (visit_statement_effects block) st (reverse (enumerate (statements data)))
  | Forward =>
      st ← ofold (visit_statement_effects block) st (enumerate (statements data));
      visit_terminator_effects block data st
  end.

Definition visit_block_results (v : V) (block : BasicBlock) : outcome V :=
  r ← Dense.contains reachable_blocks block;
  if negb r then Panic else
  data ← block_at mir block;
  state ← unwrap (entry_states !! block);
  st ← visit_results_in_block block data (v, state); Ret st.1.
Definition visit_results (blocks : list BasicBlock) (v : V) : outcome V := ofold visit_block_results v blocks.
End visitor.
End cursor.
Arguments visit_after_early_statement_effect {D V}. Arguments visit_after_primary_statement_effect {D V}.
Arguments visit_after_early_terminator_effect {D V}. Arguments visit_after_primary_terminator_effect {D V}.
Arguments mkCursor {D}. Arguments cur_state {D}. Arguments pos {D}. Arguments state_needs_reset {D}.

(** ** The reference *)
Abbreviation mem s i := (bs_mem dense_ops s i = true).
Section order.
Context (dir : Direction) (n : nat).

(** The [r]-th effect of a block of [n] statements, and its number. *)
Definition effect_at (r : nat) : EffectIndex :=
  mkEffectIndex (if is_forward dir then r / 2 else n - r / 2) (if Nat.even r then Early else Primary).
Definition effect_rank (idx : EffectIndex) : nat :=
  2 * (if is_forward dir then idx_statement idx else n - idx_statement idx) +
  match idx_effect idx with Early => 0 | Primary => 1 end.

Lemma half_double k : (2 * k) / 2 = k ∧ (2 * k + 1) / 2 = k ∧ Nat.even (2 * k) = true ∧ Nat.even (2 * k + 1) = false.
Proof.
  split_and!; [symmetry; by apply (Nat.div_unique _ _ _ 0); lia|symmetry; by apply (Nat.div_unique _ _ _ 1); lia|by rewrite Nat.even_mul|].
  by rewrite Nat.even_add, Nat.even_mul.
Qed.
Lemma effect_at_cases r : r < 2 * S n → ∃ k, k ≤ n ∧
  (r = 2 * k ∧ effect_at r = at_index Early (if is_forward dir then k else n - k) ∨
   r = 2 * k + 1 ∧ effect_at r = at_index Primary (if is_forward dir then k else n - k)).
Proof.
  intros Hr. destruct (half_double (r / 2)) as (H1 & H2 & H3 & H4). exists (r / 2). unfold effect_at.
  pose proof (Nat.div_mod r 2 ltac:(lia)) as E. pose proof (Nat.mod_upper_bound r 2 ltac:(lia)).
  split; [lia|]. destruct (decide (r `mod` 2 = 0)).
  - left. assert (Hr2 : r = 2 * (r / 2)) by lia. split; [done|].
    replace (Nat.even r) with true by (rewrite Hr2; done). done.
  - right. assert (Hr2 : r = 2 * (r / 2) + 1) by lia. split; [done|].
    replace (Nat.even r) with false by (rewrite Hr2; done). done.
Qed.
Lemma effect_rank_at r : r < 2 * S n → effect_rank (effect_at r) = r.
Proof.
  intros Hr. destruct (effect_at_cases r Hr) as (k & Hk & [[-> ->]|[-> ->]]); unfold effect_rank; simpl; destruct (is_forward dir); lia.
Qed.
Lemma effect_at_rank idx : idx_statement idx ≤ n → effect_at (effect_rank idx) = idx ∧ effect_rank idx < 2 * S n.
Proof.
  intros Hi. destruct idx as [i e]. unfold effect_at, effect_rank. cbn [idx_statement idx_effect] in *.
  destruct (half_double (if is_forward dir then i else n - i)) as (H1 & H2 & H3 & H4).
  split; [|destruct (is_forward dir), e; lia].
  destruct e; rewrite ?Nat.add_0_r; [rewrite H1, H3|rewrite H2, H4]; f_equal; destruct (is_forward dir); lia.
Qed.
Lemma next_effect r : S r < 2 * S n → next_index dir (effect_at r) = Ret (effect_at (S r)).
Proof.
  intros Hr. destruct (effect_at_cases r) as (k & Hk & [[-> ->]|[-> ->]]); [lia|..].
  - unfold next_index. simpl idx_effect. cbn iota. f_equal. unfold effect_at. destruct (half_double k) as (_ & H2 & _ & H4).
    replace (S (2 * k)) with (2 * k + 1) by lia. rewrite H2, H4. done.
  - unfold next_index, effect_at. destruct (half_double (S k)) as (H1 & _ & H3 & _).
    replace (S (2 * k + 1)) with (2 * S k) by lia. rewrite H1, H3. destruct dir; cbn [idx_effect idx_statement at_index is_forward]; [|done].
    destruct (n - k) eqn:E; [lia|]. unfold at_index. do 2 f_equal. lia.
Qed.
Lemma first_effect data : length (statements data) = n → first_index dir data = effect_at 0.
Proof. intros Hn. unfold first_index, effect_at, at_index. rewrite Hn. destruct dir; simpl; [by rewrite Nat.sub_0_r|done]. Qed.
Lemma effect_order a b : idx_statement a ≤ n → idx_statement b ≤ n →
  then_with (let ord := idx_statement a ?= idx_statement b in if is_forward dir then ord else CompOpp ord)
    (effect_cmp (idx_effect a) (idx_effect b)) = (effect_rank a ?= effect_rank b).
Proof.
  intros Ha Hb. destruct a as [i e], b as [j e']. unfold effect_rank. simpl in *.
  destruct (Nat.compare_spec i j); destruct (is_forward dir), e, e'; simpl; symmetry;
    first [apply Nat.compare_eq_iff; lia|apply Nat.compare_lt_iff; lia|apply Nat.compare_gt_iff; lia].
Qed.
End order.

Section reference.
Context {D : Type} (A : Analysis D) (mir : Body) (E : list D).

(** The state of [block] after [r] effects. *)
Definition apply_effects (block : BasicBlock) (data : BasicBlockData) (s : D) (rs : list nat) : outcome D :=
  ofold (λ s r, apply_effect A s block data (effect_at (direction A) (length (statements data)) r)) s rs.
Definition state_after (block : BasicBlock) (r : nat) : outcome D :=
  data ← block_at mir block;
  s ← unwrap (E !! block);
  apply_effects block data s (seq 0 r).
(** The number of effects at and before one of a location. *)
Definition effects_through (target : Location) (effect : Effect) : outcome nat :=
  data ← block_at mir (loc_block target);
  Ret (S (effect_rank (direction A) (length (statements data)) (at_index effect (statement_index target)))).
Definition state_at (target : Location) (effect : Effect) : outcome D :=
  r ← effects_through target effect; state_after (loc_block target) r.

Lemma apply_effects_app block data s l1 l2 :
  apply_effects block data s (l1 ++ l2) = s' ← apply_effects block data s l1; apply_effects block data s' l2.
Proof. apply ofold_app. Qed.

Lemma seek_step_eq block data target s i : seek_step A block data target (s, i) =
  (state ← apply_effect A s block data i;
   if bool_decide (i = target) then Ret (inr state) else idx ← next_index (direction A) i; Ret (inl (state, idx))).
Proof. done. Qed.
Lemma seek_loop block data t s' : t < 2 * S (length (statements data)) → ∀ k r s, t - r = k → r ≤ t →
  apply_effects block data s (seq r (S t - r)) = Ret s' → ∀ fuel, k < fuel →
  loop fuel (seek_step A block data (effect_at (direction A) (length (statements data)) t))
    (s, effect_at (direction A) (length (statements data)) r) = Ret s'.
Proof.
  intros Ht. induction k as [|k IH]; intros r s Hk Hr Hs [|fuel] Hf; try lia; cbn [loop]; rewrite seek_step_eq.
  - assert (r = t) as -> by lia. replace (S t - t) with 1 in Hs by lia. unfold apply_effects in Hs. cbn [seq ofold] in Hs.
    destruct (apply_effect A s block data _) as [s1| |]; [|done|done]. cbn [mbind outcome_bind] in *.
    by rewrite bool_decide_true.
  - replace (S t - r) with (S (S t - S r)) in Hs by lia. unfold apply_effects in Hs. cbn [seq ofold] in Hs.
    destruct (apply_effect A s block data _) as [s1| |]; [|done|done]. cbn [mbind outcome_bind] in *.
    rewrite bool_decide_false, next_effect by (first [lia|intros Heq; apply (f_equal (effect_rank (direction A) (length (statements data)))) in Heq;
      rewrite !effect_rank_at in Heq; lia]). cbn [mbind outcome_bind]. apply IH; try lia. exact Hs.
Qed.

(** Where a cursor is: nowhere, or after some effects of its reachable block. *)
Context (V : DenseBitSet) (HV : dense_wf V).
Definition cursor_ok (c : ResultsCursor) : Prop := state_needs_reset c = true ∨
  mem V (pos_block (pos c)) ∧
  match curr_effect_index (pos c) with
  | None => E !! pos_block (pos c) = Some (cur_state c)
  | Some idx => ∃ data, block_at mir (pos_block (pos c)) = Ret data ∧ idx_statement idx ≤ length (statements data) ∧
      state_after (pos_block (pos c)) (S (effect_rank (direction A) (length (statements data)) idx)) = Ret (cur_state c)
  end.

(** The number of the next effect of a cursor. *)
Definition next_rank (data : BasicBlockData) (p : CursorPosition) : nat :=
  match curr_effect_index p with
  | None => 0
  | Some idx => S (effect_rank (direction A) (length (statements data)) idx)
  end.

Section block.
Context (b : BasicBlock) (data : BasicBlockData) (s0 : D).
Context (Hd : block_at mir b = Ret data) (Hb : b < domain_size V) (Hr : mem V b) (Hs0 : E !! b = Some s0).
Abbreviation n := (length (statements data)).

Lemma state_after_eq r : state_after b r = apply_effects b data s0 (seq 0 r).
Proof. unfold state_after. rewrite Hd. simpl. by rewrite Hs0. Qed.

Lemma seek_entry_ok c : seek_to_block_entry E V b c = Ret (mkCursor s0 (block_entry b) false).
Proof. unfold seek_to_block_entry. rewrite dense_contains_ok by done. simpl in *. by rewrite Hr, Hs0. Qed.

Lemma cursor_ok_state c : cursor_ok c → state_needs_reset c = false → pos_block (pos c) = b →
  state_after b (next_rank data (pos c)) = Ret (cur_state c).
Proof.
  intros [Hc|[_ Hc]] Hneeds Hpb; [congruence|]. rewrite Hpb in Hc. unfold next_rank.
  destruct (curr_effect_index (pos c)); [|rewrite state_after_eq; unfold apply_effects; simpl; congruence].
  destruct Hc as (data' & Hd' & _ & Hst). by assert (data' = data) as -> by congruence.
Qed.

Lemma advance_ok c i effect s fuel :
  i ≤ n → (∀ idx, curr_effect_index (pos c) = Some idx → idx_statement idx ≤ n) →
  state_after b (next_rank data (pos c)) = Ret (cur_state c) →
  next_rank data (pos c) ≤ effect_rank (direction A) n (at_index effect i) →
  state_at (mkLocation b i) effect = Ret s → 2 * S n ≤ fuel →
  ∃ c', advance_to A fuel data (mkLocation b i) effect c = Ret c' ∧ cur_state c' = s ∧ cursor_ok c'.
Proof.
  intros Hi Hidx Hst Hle Hs Hfuel. unfold state_at, effects_through in Hs. simpl in Hs. rewrite Hd in Hs. cbn [mbind outcome_bind] in Hs.
  destruct (effect_at_rank (direction A) n (at_index effect i) Hi) as [Hat Hlt].
  set (r := next_rank data (pos c)) in *. set (t := effect_rank (direction A) n (at_index effect i)) in *.
  assert (Hnext : match curr_effect_index (pos c) with
    | None => Ret (first_index (direction A) data) | Some idx => next_index (direction A) idx end = Ret (effect_at (direction A) n r)).
  { unfold r, next_rank in *. destruct (curr_effect_index (pos c)) as [idx|]; [|by rewrite (first_effect _ n)].
    destruct (effect_at_rank (direction A) n idx) as [Hrat _]; [by apply Hidx|]. rewrite <-Hrat at 1. apply next_effect. lia. }
  rewrite state_after_eq in Hst, Hs. replace (S t) with (r + (S t - r)) in Hs by lia. rewrite seq_app, apply_effects_app, Hst in Hs.
  pose proof (seek_loop b data t s Hlt (t - r) r (cur_state c) eq_refl Hle Hs fuel ltac:(lia)) as Hl. rewrite Hat in Hl.
  unfold advance_to. simpl loc_block. simpl statement_index. rewrite Hnext. cbn [mbind outcome_bind]. rewrite Hl.
  eexists. split; [reflexivity|]. split; [done|]. right. split; [done|]. exists data. split_and!; [done..|].
  cbn [pos pos_block cur_state]. fold t. rewrite state_after_eq. replace (S t) with (r + (S t - r)) by lia.
  by rewrite seq_app, apply_effects_app, Hst.
Qed.

(** A seek ends in the state of its target, wherever it starts. *)
Lemma seek_after_ok fuel c i effect s :
  cursor_ok c → i ≤ n → state_at (mkLocation b i) effect = Ret s → 2 * S n ≤ fuel →
  ∃ c', seek_after A mir E V fuel (mkLocation b i) effect c = Ret c' ∧ cur_state c' = s ∧ cursor_ok c'.
Proof.
  intros Hc Hi Hs Hfuel. unfold seek_after, reset_for. cbn [loc_block statement_index]. rewrite Hd. cbn [mbind outcome_bind].
  rewrite (proj2 (Nat.ltb_ge _ _)) by done.
  assert (Hreset : ∃ c', advance_to A fuel data (mkLocation b i) effect (mkCursor s0 (block_entry b) false) = Ret c' ∧ cur_state c' = s ∧ cursor_ok c').
  { apply advance_ok; try done; [|unfold next_rank; simpl; lia]. rewrite state_after_eq. done. }
  destruct (state_needs_reset c) eqn:Hneeds; cbn [orb]; [by rewrite seek_entry_ok|].
  destruct (Nat.eqb_spec (pos_block (pos c)) b) as [Hpb|]; cbn [negb]; [|by rewrite seek_entry_ok].
  pose proof (cursor_ok_state c Hc Hneeds Hpb) as Hst. destruct (curr_effect_index (pos c)) as [idx|] eqn:Hidx.
  - assert (Hin : idx_statement idx ≤ n).
    { destruct Hc as [Hc|[_ Hc]]; [congruence|]. rewrite Hpb, Hidx in Hc. destruct Hc as (data' & Hd' & ? & _).
      by assert (data' = data) as -> by congruence. }
    pose proof (effect_order (direction A) n idx (at_index effect i) Hin Hi) as Hcmp. cbv zeta in Hcmp.
    cbn [idx_statement idx_effect at_index] in Hcmp. cbv zeta. rewrite Hcmp. clear Hcmp. unfold next_rank in Hst. rewrite Hidx in Hst.
    destruct (Nat.compare_spec (effect_rank (direction A) n idx) (effect_rank (direction A) n (at_index effect i))) as [He|Hl|Hg];
      [|cbn [mbind outcome_bind]|rewrite seek_entry_ok; exact Hreset].
    + exists c. split; [done|]. split; [|done]. unfold state_at, effects_through in Hs. simpl in Hs. rewrite Hd in Hs.
      cbn [mbind outcome_bind] in Hs. congruence.
    + apply advance_ok; try done; unfold next_rank; rewrite Hidx; [by intros ? [= <-]|done|lia].
  - cbn [mbind outcome_bind]. apply advance_ok; try done; unfold next_rank; rewrite Hidx; [done|lia].
Qed.
End block.

(** Unreachable blocks cannot be asked about. *)
Lemma seek_entry_panics b c : b < domain_size V → ¬ mem V b → seek_to_block_entry E V b c = Panic.
Proof. intros Hb Hm. unfold seek_to_block_entry. rewrite dense_contains_ok by done. simpl in *. by destruct (has (words V) b). Qed.
Lemma seek_after_panics fuel target effect c : cursor_ok c → loc_block target < domain_size V → loc_block target < length (basic_blocks mir) →
  ¬ mem V (loc_block target) → seek_after A mir E V fuel target effect c = Panic.
Proof.
  intros Hc Hb Hn Hm. unfold seek_after, block_at. destruct (lookup_lt_is_Some_2 _ _ Hn) as [data ->]. simpl.
  destruct (_ <? _); [done|]. unfold reset_for. rewrite seek_entry_panics by done.
  destruct (state_needs_reset c) eqn:Hneeds; [done|]. destruct (Nat.eqb_spec (pos_block (pos c)) (loc_block target)) as [Hpb|]; [|done].
  destruct Hc as [Hc|[Hc _]]; [congruence|]. by rewrite Hpb in Hc.
Qed.
End reference.

(** ** The effects of a block in order *)
Lemma ofold_bind {A B St} (f : St → A → outcome St) (o : outcome B) (k : B → outcome St) l :
  (s ← (x ← o; k x); ofold f s l) = (x ← o; s ← k x; ofold f s l).
Proof. by destruct o. Qed.
Lemma ofold_pairs {St} (g : St → nat → outcome St) k : ∀ a s,
  ofold g s (seq (2 * a) (2 * k)) = ofold (λ s j, s ← g s (2 * j); g s (2 * j + 1)) s (seq a k).
Proof.
  induction k as [|k IH]; intros a s; [done|]. replace (2 * S k) with (S (S (2 * k))) by lia. cbn [seq ofold].
  rewrite ofold_bind. destruct (g s (2 * a)) as [s1| |]; [|done..]. cbn [mbind outcome_bind].
  replace (S (2 * a)) with (2 * a + 1) by lia. destruct (g s1 (2 * a + 1)) as [s2| |]; [|done..]. cbn [mbind outcome_bind].
  replace (S (2 * a + 1)) with (2 * S a) by lia. apply IH.
Qed.
Lemma ofold_seq {X St} (f : St → nat * X → outcome St) (h : St → nat → outcome St) (l : list (nat * X)) : ∀ a s,
  (∀ j e s, l !! j = Some e → f s e = h s (a + j)) → ofold f s l = ofold h s (seq a (length l)).
Proof.
  induction l as [|e l IH]; intros a s Hf; [done|]. cbn [length seq ofold]. rewrite (Hf 0 e s) by done. rewrite Nat.add_0_r.
  destruct (h s a) as [s1| |]; [|done..]. apply IH. intros j e' s' Hj. rewrite (Hf (S j)) by done. f_equal. lia.
Qed.
Lemma enumerate_length {X} (l : list X) : length (enumerate l) = length l.
Proof. unfold enumerate. rewrite length_zip, length_seq. lia. Qed.
Lemma enumerate_lookup {X} (l : list X) j e : enumerate l !! j = Some e → e.1 = j ∧ l !! j = Some e.2.
Proof.
  unfold enumerate. intros He. destruct e as [i x]. apply lookup_zip_Some in He as [Hi Hx].
  apply lookup_seq in Hi as [-> _]. done.
Qed.

Section fold.
Context {St : Type} (dir : Direction) (data : BasicBlockData).
Abbreviation n := (length (statements data)).
Context (g : St → EffectIndex → outcome St) (fs : St → nat * StatementKind → outcome St) (ft : St → outcome St).
Context (Hfs : ∀ i st s, statements data !! i = Some st → fs s (i, st) = s ← g s (at_index Early i); g s (at_index Primary i)).
Context (Hft : ∀ s, ft s = s ← g s (at_index Early n); g s (at_index Primary n)).

Lemma effect_pair s j : (s ← g s (effect_at dir n (2 * j)); g s (effect_at dir n (2 * j + 1))) =
  let i := if is_forward dir then j else n - j in s ← g s (at_index Early i); g s (at_index Primary i).
Proof. destruct (half_double j) as (H1 & H2 & H3 & H4). unfold effect_at. by rewrite H1, H2, H3, H4. Qed.

Lemma block_effects_fold s :
  match dir with
  | Backward => s ← ft s; ofold fs s (reverse (enumerate (statements data)))
  | Forward => s ← ofold fs s (enumerate (statements data)); ft s
  end = ofold (λ s r, g s (effect_at dir n r)) s (seq 0 (2 * S n)).
Proof.
  change 0 with (2 * 0) at 1. rewrite ofold_pairs.
  rewrite (ofold_ext _ (λ s j, let i := if is_forward dir then j else n - j in s ← g s (at_index Early i); g s (at_index Primary i)))
    by (intros; apply effect_pair).
  destruct dir; cbn [is_forward].
  - cbn [seq ofold]. rewrite Nat.sub_0_r, <-Hft. destruct (ft s) as [s1| |]; [|done..]. cbn [mbind outcome_bind].
    replace (seq 1 n) with (seq 1 (length (reverse (enumerate (statements data))))) by (by rewrite length_reverse, enumerate_length).
    apply ofold_seq. intros j e s' Hj.
    pose proof (lookup_lt_Some _ _ _ Hj) as Hlt. rewrite length_reverse, enumerate_length in Hlt.
    rewrite reverse_lookup in Hj by (rewrite enumerate_length; lia).
    apply enumerate_lookup in Hj as [He Hst]. rewrite enumerate_length in He. destruct e as [i st]. simpl in He. subst i.
    rewrite Hfs; [|by rewrite enumerate_length in Hst]. by replace (n - (1 + j)) with (n - S j) by lia.
  - rewrite seq_S, ofold_app, (ofold_seq fs (λ s i, s ← g s (at_index Early i); g s (at_index Primary i)) _ 0), enumerate_length.
    + destruct (ofold _ s _) as [s1| |]; [|done..]. cbn [mbind outcome_bind ofold]. rewrite Hft. simpl.
      destruct (g s1 _) as [s2| |]; [|done..]. simpl. by destruct (g s2 _).
    + intros j [i st] s' He. apply enumerate_lookup in He as [He Hst]. simpl in He. subst i. by apply Hfs.
Qed.
End fold.

(** ** What users of the results see *)
Section users.
Context {D : Type} (A : Analysis D) (mir : Body) (E : list D).

(** The state at the far end of a block. *)
Definition block_exit (block : BasicBlock) : outcome D :=
  data ← block_at mir block;
  s ← unwrap (E !! block);
  match direction A with
  | Backward => back_state A s block data
  | Forward =>
      s ← before_terminator A s block data;
      term ← terminator data;
      apply_primary_terminator_effect A s term (mkLocation block (length (statements data)))
  end.

(** The methods of a cursor, and the state each promises. *)
Inductive cursor_op :=
  | SeekBeforePrimary (target : Location)
  | SeekAfterPrimary (target : Location)
  | SeekBlockStart (block : BasicBlock)
  | SeekBlockEnd (block : BasicBlock)
  | CustomEffect (f : D → outcome D).
Definition run_op (V : DenseBitSet) (fuel : nat) (c : ResultsCursor) (op : cursor_op) : outcome ResultsCursor :=
  match op with
  | SeekBeforePrimary target => seek_before_primary_effect A mir E V fuel target c
  | SeekAfterPrimary target => seek_after_primary_effect A mir E V fuel target c
  | SeekBlockStart block => seek_to_block_start A mir E V fuel block c
  | SeekBlockEnd block => seek_to_block_end A mir E V fuel block c
  | CustomEffect f => apply_custom_effect f c
  end.
Definition op_state (op : cursor_op) (prev : D) : outcome D :=
  match op with
  | SeekBeforePrimary target => state_at A mir E target Early
  | SeekAfterPrimary target => state_at A mir E target Primary
  | SeekBlockStart block => if is_forward (direction A) then unwrap (E !! block) else block_exit block
  | SeekBlockEnd block => if is_forward (direction A) then block_exit block else unwrap (E !! block)
  | CustomEffect f => f prev
  end.
Definition op_valid (op : cursor_op) : Prop :=
  match op with
  | SeekBeforePrimary target | SeekAfterPrimary target => cfg_reach mir START_BLOCK (loc_block target) ∧
      ∃ data, block_at mir (loc_block target) = Ret data ∧ statement_index target ≤ length (statements data)
  | SeekBlockStart block | SeekBlockEnd block => cfg_reach mir START_BLOCK block
  | CustomEffect f => ∀ s, ∃ s', f s = Ret s'
  end.
(** Enough iterations for the longest block. *)
Definition cursor_fuel : nat := 2 * S (sum_list ((λ d, length (statements d)) <$> basic_blocks mir)).

(** The methods of a visitor by effect, and a visit of the states of the
    reference. *)
Definition visit_after {V} (vis : ResultsVisitor V) (v : V) (s : D) (block : BasicBlock) (data : BasicBlockData)
    (idx : EffectIndex) : outcome V :=
  let loc := mkLocation block (idx_statement idx) in
  if idx_statement idx =? length (statements data) then
    term ← terminator data;
    match idx_effect idx with
    | Early => visit_after_early_terminator_effect vis v s term loc
    | Primary => visit_after_primary_terminator_effect vis v s term loc
    end
  else
    statement ← unwrap (statements data !! idx_statement idx);
    match idx_effect idx with
    | Early => visit_after_early_statement_effect vis v s statement loc
    | Primary => visit_after_primary_statement_effect vis v s statement loc
    end.
Definition visit_states {V} (vis : ResultsVisitor V) (v : V) (block : BasicBlock) : outcome V :=
  data ← block_at mir block;
  ofold (λ v r, s ← state_after A mir E block (S r);
                visit_after vis v s block data (effect_at (direction A) (length (statements data)) r))
    v (seq 0 (2 * S (length (statements data)))).

Lemma cursor_fuel_ok b data : block_at mir b = Ret data → 2 * S (length (statements data)) ≤ cursor_fuel.
Proof.
  unfold block_at, cursor_fuel. destruct (basic_blocks mir !! b) as [d|] eqn:Hd; [|done]. intros [= ->].
  revert b Hd. induction (basic_blocks mir) as [|d l IH]; intros [|b] Hd; simplify_eq/=; [lia|]. specialize (IH b Hd). lia.
Qed.

(** *** Effects are total on a fixpoint *)
Context `{!AnalysisLaws A mir} (Hok : body_ok mir = true).
Abbreviation L := (an_lattice A mir).

Section block.
Context (b : BasicBlock) (data : BasicBlockData) (s0 : D) (term : TerminatorKind).
Context (Hd : block_at mir b = Ret data) (Hs0 : E !! b = Some s0) (Hterm : terminator data = Ret term).
Abbreviation n := (length (statements data)).

Lemma block_lookup : basic_blocks mir !! b = Some data.
Proof. unfold block_at in Hd. destruct (basic_blocks mir !! b); naive_solver. Qed.

Lemma apply_effect_ok idx : idx_statement idx ≤ n → effect_ok L (λ s, apply_effect A s b data idx).
Proof.
  intros Hi s Hs. unfold apply_effect. rewrite Hterm. assert (Hk : terminator_at mir b = Ret term) by (unfold terminator_at; by rewrite Hd).
  destruct (Nat.eqb_spec (idx_statement idx) n) as [He|Hne]; cbn [negb mbind outcome_bind].
  - destruct (idx_effect idx); [by eapply al_early_terminator|by eapply al_primary_terminator].
  - destruct (lookup_lt_is_Some_2 (statements data) (idx_statement idx)) as [st Hst]; [lia|]. rewrite Hst.
    pose proof block_lookup. destruct (idx_effect idx); [by eapply al_early_statement|by eapply al_primary_statement].
Qed.
Lemma effect_at_le r : r < 2 * S n → idx_statement (effect_at (direction A) n r) ≤ n.
Proof.
  intros Hr. destruct (effect_at_cases (direction A) n r Hr) as (k & Hk & [[_ ->]|[_ ->]]); simpl; destruct (is_forward _); lia.
Qed.

Lemma state_after_total r : lat_wf L s0 → r ≤ 2 * S n → ∃ s, state_after A mir E b r = Ret s ∧ lat_wf L s.
Proof.
  intros Hwf Hr. unfold state_after. rewrite Hd, Hs0. cbn [mbind outcome_bind]. unfold apply_effects.
  assert (Hf : effect_ok L (λ s, ofold (λ s r, apply_effect A s b data (effect_at (direction A) n r)) s (seq 0 r))); [|by apply Hf].
  apply effect_ok_ofold. intros j [_ Hj]%elem_of_seq. apply apply_effect_ok, effect_at_le. lia.
Qed.
Lemma state_after_succ r s : state_after A mir E b r = Ret s →
  state_after A mir E b (S r) = apply_effect A s b data (effect_at (direction A) n r).
Proof.
  unfold state_after. rewrite Hd, Hs0. cbn [unwrap mbind outcome_bind]. intros Hs. unfold apply_effects in *. rewrite seq_S, ofold_app, Hs. simpl.
  by destruct (apply_effect _ _ _ _ _).
Qed.

(** The effects of the reference are those of the code. *)
Lemma apply_effect_statement i st s e : statements data !! i = Some st →
  apply_effect A s b data (at_index e i) = match e with
    | Early => apply_early_statement_effect A s st (mkLocation b i)
    | Primary => apply_primary_statement_effect A s st (mkLocation b i) end.
Proof.
  intros Hst. pose proof (lookup_lt_Some _ _ _ Hst). unfold apply_effect. cbn [idx_statement idx_effect at_index].
  rewrite (proj2 (Nat.eqb_neq _ _)) by lia. by rewrite Hst.
Qed.
Lemma apply_effect_terminator s e : apply_effect A s b data (at_index e n) = match e with
    | Early => apply_early_terminator_effect A s term (mkLocation b n)
    | Primary => apply_primary_terminator_effect A s term (mkLocation b n) end.
Proof. unfold apply_effect. cbn [idx_statement idx_effect at_index]. by rewrite Nat.eqb_refl, Hterm. Qed.

Lemma block_exit_eq : block_exit b = state_after A mir E b (2 * S n).
Proof.
  unfold block_exit, state_after. rewrite Hd, Hs0. cbn [unwrap mbind outcome_bind]. unfold apply_effects.
  rewrite <-(block_effects_fold (direction A) data (λ s i, apply_effect A s b data i) (statement_effects A b)
    (λ s, s ← apply_early_terminator_effect A s term (mkLocation b n); apply_primary_terminator_effect A s term (mkLocation b n))).
  - destruct (direction A); unfold back_state, before_terminator; rewrite Hterm; cbn [mbind outcome_bind].
    + by destruct (apply_early_terminator_effect _ _ _ _).
    + by destruct (ofold _ _ _).
  - intros i st s Hst. unfold statement_effects. simpl. rewrite (apply_effect_statement i st) by done.
    destruct (apply_early_statement_effect _ _ _ _) as [s1| |]; [|done..]. cbn [mbind outcome_bind]. by rewrite (apply_effect_statement i st).
  - intros s. rewrite apply_effect_terminator. destruct (apply_early_terminator_effect _ _ _ _) as [s1| |]; [|done..].
    cbn [mbind outcome_bind]. by rewrite apply_effect_terminator.
Qed.

(** A visit of a block goes through the states of the reference. *)
Definition visit_step {V} (vis : ResultsVisitor V) (st : V * D) (idx : EffectIndex) : outcome (V * D) :=
  s ← apply_effect A st.2 b data idx; v ← visit_after vis st.1 s b data idx; Ret (v, s).

Lemma visit_in_block_eq {V} (vis : ResultsVisitor V) st :
  visit_results_in_block A vis b data st =
  ofold (λ st r, visit_step vis st (effect_at (direction A) n r)) st (seq 0 (2 * S n)).
Proof.
  unfold visit_results_in_block. apply block_effects_fold.
  - intros i stm [v s] Hst. unfold visit_statement_effects, visit_step. cbn [fst snd]. rewrite (apply_effect_statement i stm) by done.
    destruct (apply_early_statement_effect _ _ _ _) as [s1| |]; [|done..]. cbn [mbind outcome_bind]. unfold visit_after.
    cbn [idx_statement idx_effect at_index]. rewrite (proj2 (Nat.eqb_neq _ _)) by (apply lookup_lt_Some in Hst; lia). rewrite Hst. cbn [unwrap mbind outcome_bind].
    destruct (visit_after_early_statement_effect _ _ _ _ _) as [v1| |]; [|done..]. cbn [mbind outcome_bind fst snd].
    by rewrite (apply_effect_statement i stm).
  - intros [v s]. unfold visit_terminator_effects, visit_step. rewrite Hterm. cbn [fst snd]. rewrite apply_effect_terminator.
    cbn [mbind outcome_bind].
    destruct (apply_early_terminator_effect _ _ _ _) as [s1| |]; [|done..]. cbn [mbind outcome_bind]. unfold visit_after.
    cbn [idx_statement idx_effect at_index]. rewrite Nat.eqb_refl, Hterm. cbn [mbind outcome_bind].
    destruct (visit_after_early_terminator_effect _ _ _ _ _) as [v1| |]; [|done..]. cbn [mbind outcome_bind fst snd].
    by rewrite apply_effect_terminator.
Qed.

Lemma visit_block_eq {V} (vis : ResultsVisitor V) k : ∀ r s v, lat_wf L s0 → r + k ≤ 2 * S n → state_after A mir E b r = Ret s →
  (st ← ofold (λ st r, visit_step vis st (effect_at (direction A) n r)) (v, s) (seq r k); Ret st.1) =
  ofold (λ v r, s ← state_after A mir E b (S r); visit_after vis v s b data (effect_at (direction A) n r)) v (seq r k).
Proof.
  induction k as [|k IH]; intros r s v Hwf Hr Hs; [done|]. cbn [seq ofold].
  destruct (state_after_total (S r) Hwf) as (s1 & Hs1 & _); [lia|]. rewrite Hs1. cbn [mbind outcome_bind].
  assert (Hstep : visit_step vis (v, s) (effect_at (direction A) n r) =
    (v ← visit_after vis v s1 b data (effect_at (direction A) n r); Ret (v, s1))).
  { unfold visit_step. cbn [fst snd]. by rewrite <-(state_after_succ r s Hs), Hs1. }
  rewrite Hstep.
  destruct (visit_after _ _ _ _ _ _) as [v1| |]; [|done..]. cbn [mbind outcome_bind]. apply IH; [done|lia|done].
Qed.
End block.

(** *** On the results of a body *)
Context (HE : Forall (lat_wf L) E) (HEn : length E = length (basic_blocks mir)).
Context (V : DenseBitSet) (HV : dense_wf V) (HVn : domain_size V = length (basic_blocks mir)).
Context (HVm : ∀ b, mem V b ↔ cfg_reach mir START_BLOCK b).

Lemma reach_block b : cfg_reach mir START_BLOCK b → ∃ data s0 term, block_at mir b = Ret data ∧ E !! b = Some s0 ∧
  terminator data = Ret term ∧ lat_wf L s0 ∧ b < domain_size V ∧ mem V b.
Proof.
  intros Hr. assert (Hb : b < length (basic_blocks mir)) by (eapply cfg_reach_lt; [done..|by apply start_lt]).
  destruct (terminator_at_ok _ _ Hok Hb) as [term Hterm]. unfold terminator_at in Hterm.
  destruct (block_at mir b) as [data| |] eqn:Hd; [|done..]. destruct (lookup_lt_is_Some_2 E b) as [s0 Hs0]; [lia|].
  exists data, s0, term. split_and!; [done..| |lia|by apply HVm]. by eapply Forall_lookup_1.
Qed.
Lemma seek_ok c b i data effect : cursor_ok A mir E V c → cfg_reach mir START_BLOCK b → block_at mir b = Ret data →
  i ≤ length (statements data) → ∃ c', seek_after A mir E V cursor_fuel (mkLocation b i) effect c = Ret c' ∧
    state_at A mir E (mkLocation b i) effect = Ret (cur_state c') ∧ cursor_ok A mir E V c'.
Proof.
  intros Hc Hr Hd Hi. destruct (reach_block b Hr) as (data' & s0 & term & Hd' & Hs0 & Hterm & Hwf & Hb & Hm). simplify_ret.
  destruct (state_after_total b data s0 term Hd Hs0 Hterm (S (effect_rank (direction A) (length (statements data)) (at_index effect i))) Hwf)
    as (s & Hs & _); [pose proof (effect_at_rank (direction A) (length (statements data)) (at_index effect i) Hi); lia|].
  assert (Hat : state_at A mir E (mkLocation b i) effect = Ret s) by (unfold state_at, effects_through; simpl; by rewrite Hd).
  destruct (seek_after_ok A mir E V HV b data s0 Hd Hb Hm Hs0 cursor_fuel c i effect s Hc Hi Hat) as (c' & Hc' & <- & ?);
    [by eapply cursor_fuel_ok|]. by exists c'.
Qed.
Lemma seek_block_entry_ok c b : cfg_reach mir START_BLOCK b → ∃ c', seek_to_block_entry E V b c = Ret c' ∧
  unwrap (E !! b) = Ret (cur_state c') ∧ cursor_ok A mir E V c'.
Proof.
  intros Hr. destruct (reach_block b Hr) as (data & s0 & term & Hd & Hs0 & Hterm & Hwf & Hb & Hm).
  rewrite (seek_entry_ok E V HV b s0 Hb Hm Hs0 c). eexists. split; [reflexivity|]. rewrite Hs0. split; [done|]. right. done.
Qed.
Lemma block_far_end b data : cfg_reach mir START_BLOCK b → block_at mir b = Ret data →
  block_exit b = state_at A mir E (mkLocation b (if is_forward (direction A) then length (statements data) else 0)) Primary.
Proof.
  intros Hr Hd. destruct (reach_block b Hr) as (data' & s0 & term & Hd' & Hs0 & Hterm & _). simplify_ret.
  rewrite (block_exit_eq b data s0 term) by done. unfold state_at, effects_through. simpl. rewrite Hd. cbn [mbind outcome_bind].
  f_equal. unfold effect_rank. simpl. destruct (is_forward _); lia.
Qed.

Lemma run_op_ok c op : cursor_ok A mir E V c → op_valid op → ∃ c', run_op V cursor_fuel c op = Ret c' ∧
  op_state op (cur_state c) = Ret (cur_state c') ∧ cursor_ok A mir E V c'.
Proof.
  intros Hc Hv. destruct op as [[b i]|[b i]|b|b|f]; simpl in *.
  - destruct Hv as (Hr & data & Hd & Hi). by eapply seek_ok.
  - destruct Hv as (Hr & data & Hd & Hi). by eapply seek_ok.
  - unfold seek_to_block_start. destruct (is_forward (direction A)) eqn:Hdir; [by apply seek_block_entry_ok|].
    destruct (reach_block b Hv) as (data & ? & ? & Hd & _). rewrite (block_far_end b data), Hdir by done. eapply seek_ok; [done..|lia].
  - unfold seek_to_block_end. destruct (is_forward (direction A)) eqn:Hdir; simpl; [|by apply seek_block_entry_ok].
    destruct (reach_block b Hv) as (data & ? & ? & Hd & _). rewrite (block_far_end b data), Hdir, Hd by done. simpl. by eapply seek_ok.
  - unfold apply_custom_effect. destruct (Hv (cur_state c)) as [s' ->]. simpl. eexists. split; [reflexivity|]. split; [done|]. by left.
Qed.
Lemma run_ops_ok ops : ∀ c, cursor_ok A mir E V c → Forall op_valid ops → ∃ c',
  ofold (run_op V cursor_fuel) c ops = Ret c' ∧ cursor_ok A mir E V c'.
Proof.
  induction ops as [|op ops IH]; intros c Hc Hv; [by exists c|]. apply Forall_cons in Hv as [Hop Hv]. cbn [ofold].
  destruct (run_op_ok c op Hc Hop) as (c1 & -> & _ & Hc1). by apply IH.
Qed.

Lemma visit_block_results_ok {W} (vis : ResultsVisitor W) b v : cfg_reach mir START_BLOCK b →
  visit_block_results A mir E V vis v b = visit_states vis v b.
Proof.
  intros Hr. destruct (reach_block b Hr) as (data & s0 & term & Hd & Hs0 & Hterm & Hwf & Hb & Hm).
  unfold visit_block_results, visit_states. rewrite dense_contains_ok by done. cbn [mbind outcome_bind]. simpl in Hm. rewrite Hm. simpl negb.
  rewrite Hd, Hs0. cbn [unwrap mbind outcome_bind]. rewrite (visit_in_block_eq b data term) by done.
  apply (visit_block_eq b data s0 term); [done..|lia|]. unfold state_after. by rewrite Hd, Hs0.
Qed.
End users.
Arguments SeekBeforePrimary {D}. Arguments SeekAfterPrimary {D}. Arguments SeekBlockStart {D}. Arguments SeekBlockEnd {D}.

(** The results of the engine and the reachable blocks, as users get them. *)
Record results_ok {D} (A : Analysis D) mir (E : list D) (V : DenseBitSet) : Prop := {
  ro_wf : Forall (lat_wf (an_lattice A mir)) E;
  ro_length : length E = length (basic_blocks mir);
  ro_reach_wf : dense_wf V;
  ro_reach_size : domain_size V = length (basic_blocks mir);
  ro_reach b : mem V b ↔ cfg_reach mir START_BLOCK b }.
Lemma results_of {D} `{EqDecision D} (A : Analysis D) mir `{!AnalysisLaws A mir} : body_ok mir = true → body_small mir →
  ∃ E V, iterate_to_fixpoint A mir (engine_fuel A mir) = Ret E ∧ reachable_as_bitset (traversal_fuel mir) mir = Ret V ∧ results_ok A mir E V.
Proof.
  intros Hok Hsmall. destruct (iterate_ok A mir Hok Hsmall) as (init & E & _ & _ & _ & HE & Hsol & _).
  destruct (preorder_ok mir Hok Hsmall) as (pre & V & _ & _ & _ & HV & ? & ? & ?).
  exists E, V. split_and!; [done..|]. split; [apply (sol_wf _ _ _ _ Hsol)|apply (sol_length _ _ _ _ Hsol)|done..].
Qed.

(** ** Points ([points.rs]) *)
Module Points.
Local Open Scope nat_scope.
(** [PointIndex::new] ([newtype_index!]). *)
Definition point_max : Z := 0xFFFFFF00%Z.
Definition point_new (value : nat) : outcome nat := if (Z.of_nat value <=? point_max)%Z then Ret value else Panic.

Record DenseLocationMap := mkLocationMap {
  statements_before_block : list nat;
  point_blocks : list BasicBlock;
  num_points : nat }.

(** The closure of the first loop: [num_points] before and after a block. *)
Definition count_block (st : list nat * nat) (block_data : BasicBlockData) : list nat * nat :=
  (st.1 ++ [st.2], st.2 + (length (statements block_data) + 1)).
Definition extend_blocks (l : list BasicBlock) (e : nat * BasicBlockData) : list BasicBlock :=
  l ++ replicate (S (length (statements e.2))) e.1.
Definition new (body : Body) : outcome DenseLocationMap :=
  let st := fold_left count_block (basic_blocks body) ([], 0) in
  let blocks := fold_left extend_blocks (enumerate (basic_blocks body)) [] in
  match st.1 with
  | [] => Panic
  | _ => if max_list st.1 <? st.2 then Ret (mkLocationMap st.1 blocks st.2) else Panic
  end.

Definition point_from_location (m : DenseLocationMap) (location : Location) : outcome nat :=
  start_index ← unwrap (statements_before_block m !! loc_block location);
  if negb (start_index <? num_points m) then Panic else point_new (start_index + statement_index location).
Definition entry_point (m : DenseLocationMap) (block : BasicBlock) : outcome nat :=
  start_index ← unwrap (statements_before_block m !! block); point_new start_index.
Definition to_block_start (m : DenseLocationMap) (index : nat) : outcome nat :=
  block ← unwrap (point_blocks m !! index);
  start_index ← unwrap (statements_before_block m !! block); point_new start_index.
Definition point_in_range (m : DenseLocationMap) (index : nat) : bool := index <? num_points m.
Definition to_location (m : DenseLocationMap) (index : nat) : outcome Location :=
  if negb (index <? num_points m) then Panic else
  block ← unwrap (point_blocks m !! index);
  start_index ← unwrap (statements_before_block m !! block);
  if index <? start_index then Panic else Ret (mkLocation block (index - start_index)).

(** *** Facts *)
Definition points_of (l : list BasicBlockData) : nat := sum_list_with (λ d, length (statements d) + 1) l.
Definition starts_of (l : list BasicBlockData) : list nat := (λ b, points_of (take b l)) <$> seq 0 (length l).
Lemma points_of_snoc l d : points_of (l ++ [d]) = points_of l + (length (statements d) + 1).
Proof. unfold points_of. rewrite sum_list_with_app. simpl. lia. Qed.
Lemma points_of_take_S l b d : l !! b = Some d → points_of (take (S b) l) = points_of (take b l) + (length (statements d) + 1).
Proof. intros Hd. by rewrite (take_S_r _ _ d), points_of_snoc. Qed.
Lemma points_of_take_le l b : points_of (take b l) ≤ points_of l.
Proof. rewrite <-(take_drop b l) at 2. unfold points_of. rewrite sum_list_with_app. lia. Qed.
Lemma points_of_take_mono l a b : a ≤ b → points_of (take a l) ≤ points_of (take b l).
Proof. intros Hab. rewrite <-(Nat.min_l a b), <-take_take by done. apply points_of_take_le. Qed.

Lemma count_blocks_eq l : fold_left count_block l ([], 0) = (starts_of l, points_of l).
Proof.
  induction l as [|d l IH] using rev_ind; [done|]. rewrite fold_left_app, IH. simpl. unfold count_block. cbn [fst snd].
  rewrite points_of_snoc. f_equal. unfold starts_of. rewrite length_app. cbn [length]. rewrite Nat.add_1_r, seq_S, fmap_app.
  f_equal; [|simpl; by rewrite take_app_length]. apply list_fmap_ext. intros i b Hb%list_elem_of_lookup_2%elem_of_seq. rewrite take_app_le by lia. done.
Qed.
Lemma starts_of_lookup l b s : starts_of l !! b = Some s ↔ b < length l ∧ s = points_of (take b l).
Proof.
  unfold starts_of. rewrite list_lookup_fmap. destruct (decide (b < length l)) as [Hb|Hb].
  - rewrite lookup_seq_lt by done. simpl. split; [by intros [= <-]|by intros [_ ->]].
  - rewrite lookup_seq_ge by lia. by split; [|intros [? _]].
Qed.

(** The block of a point. *)
Definition block_of_point (l : list BasicBlockData) (p b : nat) : Prop :=
  ∃ d, l !! b = Some d ∧ points_of (take b l) ≤ p ≤ points_of (take b l) + length (statements d).
Lemma enumerate_snoc {X} (l : list X) x : enumerate (l ++ [x]) = enumerate l ++ [(length l, x)].
Proof.
  unfold enumerate. rewrite length_app. cbn [length]. rewrite Nat.add_1_r, seq_S. rewrite zip_with_app by (by rewrite length_seq). done.
Qed.
Lemma extend_blocks_eq l : let bs := fold_left extend_blocks (enumerate l) [] in
  length bs = points_of l ∧ ∀ p b, bs !! p = Some b ↔ block_of_point l p b.
Proof.
  induction l as [|d l [IHl IH]] using rev_ind; cbv zeta.
  { split; [done|]. intros p b. simpl. split; [done|]. by intros (d & Hd & _). }
  rewrite enumerate_snoc, fold_left_app. simpl. unfold extend_blocks at 1 3. cbn [fst snd].
  set (bs := fold_left extend_blocks (enumerate l) []) in *. rewrite length_app, length_replicate, IHl, points_of_snoc. split; [lia|].
  intros p b. unfold block_of_point. destruct (decide (p < points_of l)) as [Hp|Hp].
  - rewrite lookup_app_l, IH by lia. unfold block_of_point. split; intros (d' & Hd' & Hpd).
    + pose proof (lookup_lt_Some _ _ _ Hd'). exists d'. rewrite lookup_app_l, take_app_le by lia. done.
    + destruct (decide (b < length l)).
      * rewrite lookup_app_l in Hd' by done. rewrite take_app_le in Hpd by lia. by exists d'.
      * rewrite (take_app_ge l) in Hpd by lia. unfold points_of in *. rewrite sum_list_with_app in Hpd. lia.
  - rewrite lookup_app_r, IHl, lookup_replicate by lia. split.
    + intros [-> Hlt]. exists d. rewrite lookup_app_r, Nat.sub_diag, take_app_length by lia. split; [done|lia].
    + intros (d' & Hd' & Hpd). destruct (decide (b < length l)) as [Hb|Hb].
      * rewrite lookup_app_l in Hd' by done. rewrite take_app_le in Hpd by lia.
        pose proof (points_of_take_S l b d' Hd'). pose proof (points_of_take_le l (S b)). lia.
      * assert (b = length l) as -> by (apply lookup_lt_Some in Hd'; rewrite length_app in Hd'; simpl in Hd'; lia).
        rewrite lookup_app_r, Nat.sub_diag in Hd' by lia. rewrite take_app_length in Hpd. simplify_eq/=. split; [done|lia].
Qed.
Lemma block_of_point_unique l p a b : block_of_point l p a → block_of_point l p b → a = b.
Proof.
  intros (d & Hd & Hp) (d' & Hd' & Hp'). pose proof (points_of_take_S l a d Hd). pose proof (points_of_take_S l b d' Hd').
  destruct (Nat.lt_trichotomy a b) as [?|[?|?]]; [|done|].
  - pose proof (points_of_take_mono l (S a) b). lia.
  - pose proof (points_of_take_mono l (S b) a). lia.
Qed.
Lemma block_of_point_exists l p : p < points_of l → ∃ b, block_of_point l p b.
Proof.
  intros Hp. destruct (extend_blocks_eq l) as [Hl Hb]. destruct (lookup_lt_is_Some_2 (fold_left extend_blocks (enumerate l) []) p) as [b ?]; [lia|].
  exists b. by apply Hb.
Qed.

(** *** The map of a body *)
Section map.
Context (mir : Body) (Hok : body_ok mir = true).
Abbreviation blocks := (basic_blocks mir).
Context (Hpts : (Z.of_nat (points_of blocks) ≤ point_max + 1)%Z).
Definition map_of : DenseLocationMap :=
  mkLocationMap (starts_of blocks) (fold_left extend_blocks (enumerate blocks) []) (points_of blocks).

Lemma starts_lt b : b < length blocks → points_of (take b blocks) < points_of blocks.
Proof.
  intros Hb. destruct (lookup_lt_is_Some_2 _ _ Hb) as [d Hd]. pose proof (points_of_take_S _ _ _ Hd). pose proof (points_of_take_le blocks (S b)). lia.
Qed.
Lemma max_list_lt l n : 0 < n → (∀ x, x ∈ l → x < n) → max_list l < n.
Proof.
  intros Hn. induction l as [|x l IH]; intros Hl; [done|]. simpl. apply Nat.max_lub_lt; [apply Hl; set_solver|].
  apply IH. intros y Hy. apply Hl. set_solver.
Qed.
Lemma new_ok : new mir = Ret map_of.
Proof.
  unfold new. rewrite count_blocks_eq. cbn [fst snd]. pose proof (start_lt _ Hok) as H0.
  destruct (starts_of blocks) as [|x l] eqn:E.
  { apply (f_equal length) in E. unfold starts_of in E. rewrite length_fmap, length_seq in E. simpl in E. unfold START_BLOCK in *. lia. }
  rewrite <-E, (proj2 (Nat.ltb_lt _ _)); [done|]. apply max_list_lt; [pose proof (starts_lt _ H0); lia|].
  intros y [i Hi]%list_elem_of_lookup. apply starts_of_lookup in Hi as [Hi ->]. by apply starts_lt.
Qed.
Lemma point_new_ok p : p < points_of blocks → point_new p = Ret p.
Proof. intros Hp. unfold point_new. by rewrite (proj2 (Z.leb_le _ _)) by lia. Qed.
Lemma start_of b : b < length blocks → statements_before_block map_of !! b = Some (points_of (take b blocks)).
Proof. intros Hb. by apply starts_of_lookup. Qed.
Lemma point_of_location b d i : blocks !! b = Some d → i ≤ length (statements d) →
  point_from_location map_of (mkLocation b i) = Ret (points_of (take b blocks) + i) ∧
  points_of (take b blocks) + i < points_of blocks ∧ block_of_point blocks (points_of (take b blocks) + i) b.
Proof.
  intros Hd Hi. pose proof (lookup_lt_Some _ _ _ Hd) as Hb. pose proof (points_of_take_S _ _ _ Hd). pose proof (points_of_take_le blocks (S b)).
  split_and!; [|lia|exists d; split; [done|lia]]. unfold point_from_location. cbn [loc_block statement_index]. rewrite start_of by done.
  cbn [unwrap mbind outcome_bind]. rewrite (proj2 (Nat.ltb_lt _ _)) by (by apply starts_lt). apply point_new_ok. lia.
Qed.
Lemma location_of_point p b : p < points_of blocks → block_of_point blocks p b →
  to_location map_of p = Ret (mkLocation b (p - points_of (take b blocks))) ∧ to_block_start map_of p = entry_point map_of b.
Proof.
  intros Hp Hb. assert (Hpb : point_blocks map_of !! p = Some b) by (by apply extend_blocks_eq).
  destruct Hb as (d & Hd & Hpd). pose proof (lookup_lt_Some _ _ _ Hd) as Hbl.
  unfold to_location, to_block_start, entry_point. rewrite Hpb. cbn [unwrap mbind outcome_bind]. rewrite start_of by done.
  split; [|done]. rewrite (proj2 (Nat.ltb_lt _ _)) by done. simpl. by rewrite (proj2 (Nat.ltb_ge _ _)) by lia.
Qed.
End map.
End Points.
