(* ===== verification/Storage.v ===== *)
(** * Storage liveness

    [rustc_mir_dataflow/src/impls/storage_liveness.rs]: the locals without
    storage markers, and the forward analyses [MaybeStorageLive] and
    [MaybeStorageDead]. *)
From S2P Require Import Prelude Mir BitWords BitSet BitSetFacts Traversal Lattice Dataflow DataflowFacts DataflowEngine Liveness.

Definition remove_marked (s : DenseBitSet) (st : StatementKind) : outcome DenseBitSet :=
  match st with
  | StorageLive l | StorageDead l => r ← Dense.remove s l; Ret r.1
  | _ => Ret s
  end.

Definition always_storage_live_locals (mir : Body) : outcome DenseBitSet :=
  s ← Dense.new_filled (length (local_decls mir));
  ofold (λ s d, ofold remove_marked s (statements d)) s (basic_blocks mir).

(** ** [MaybeStorageLive] *)
Module StLive.
Section live.
Context (always_live_locals : DenseBitSet).

Definition initialize (mir : Body) (state : DenseBitSet) : outcome DenseBitSet :=
  r ← Dense.union state always_live_locals;
  ofold (λ s arg, r ← Dense.insert s arg; Ret r.1) r.1 (args_iter mir).

Definition statement_effect (state : DenseBitSet) (st : StatementKind) (_ : Location) : outcome DenseBitSet :=
  match st with
  | StorageLive l => gen_ state l
  | StorageDead l => kill state l
  | _ => Ret state
  end.

Definition maybe_storage_live : Analysis DenseBitSet := {|
  an_lattice mir := bits_lattice dense_ops (length (local_decls mir));
  direction := Forward;
  SwitchIntData := Empty_set;
  bottom_value mir := Dense.new_empty (length (local_decls mir));
  initialize_start_block := initialize;
  apply_early_statement_effect state _ _ := Ret state;
  apply_primary_statement_effect := statement_effect;
  apply_early_terminator_effect state _ _ := Ret state;
  get_terminator_edges _ k _ := edges k;
  apply_primary_terminator_effect state _ _ := Ret state;
  apply_call_return_effect state _ _ := Ret state;
  get_switch_int_data _ _ _ := None;
  apply_switch_int_edge_effect state data _ := Ret (state, data) |}.
End live.
End StLive.

(** ** [MaybeStorageDead] *)
Module StDead.
Section dead.
Context (always_live_locals : DenseBitSet).

Definition insert_unless_live (state : DenseBitSet) (local : Local) : outcome DenseBitSet :=
  c ← Dense.contains always_live_locals local;
  if negb c then r ← Dense.insert state local; Ret r.1 else Ret state.

Definition initialize (mir : Body) (state : DenseBitSet) : outcome DenseBitSet :=
  if negb (length (local_decls mir) =? domain_size always_live_locals) then Panic
  else ofold insert_unless_live state (vars_and_temps_iter mir).

Definition statement_effect (state : DenseBitSet) (st : StatementKind) (_ : Location) : outcome DenseBitSet :=
  match st with
  | StorageLive l => kill state l
  | StorageDead l => gen_ state l
  | _ => Ret state
  end.

Definition maybe_storage_dead : Analysis DenseBitSet := {|
  an_lattice mir := bits_lattice dense_ops (length (local_decls mir));
  direction := Forward;
  SwitchIntData := Empty_set;
  bottom_value mir := Dense.new_empty (length (local_decls mir));
  initialize_start_block := initialize;
  apply_early_statement_effect state _ _ := Ret state;
  apply_primary_statement_effect := statement_effect;
  apply_early_terminator_effect state _ _ := Ret state;
  get_terminator_edges _ k _ := edges k;
  apply_primary_terminator_effect state _ _ := Ret state;
  apply_call_return_effect state _ _ := Ret state;
  get_switch_int_data _ _ _ := None;
  apply_switch_int_edge_effect state data _ := Ret (state, data) |}.
End dead.
End StDead.

(** ** Forward bit-set analyses along paths

    For a forward analysis whose statements and terminators switch bits on or off
    whatever edge is taken, the fixpoint holds a bit at the start of a block iff
    the bit is on after some path from the start of the body.  Instantiated with
    the two storage analyses. *)
(** ** The edges the analyses see

    [edges] leaves out the drop edge of an asynchronous drop: nothing is sent along
    it, and what is behind it starts from the bottom value. *)
Definition edge_targets (es : TerminatorEdges) : list BasicBlock :=
  match es with
  | EdgesNone => []
  | EdgesSingle target => [target]
  | EdgesDouble target unwind => [target; unwind]
  | EdgesAssignOnReturn return_ cleanup _ => option_list cleanup ++ return_
  | EdgesSwitchInt targets _ => st_targets targets
  end.
Definition flow_edge (mir : Body) (b c : BasicBlock) : Prop :=
  ∃ k, terminator_at mir b = Ret k ∧ c ∈ edge_targets (edges k).
Definition drop_edge (mir : Body) (b c : BasicBlock) : Prop :=
  ∃ p t u, terminator_at mir b = Ret (Drop p t u (Some c)).

Lemma successors_cases k c : c ∈ successors k ↔ c ∈ edge_targets (edges k) ∨ ∃ p t u, k = Drop p t u (Some c).
Proof.
  destruct k as [| | | | | |? t [] [d|]|? ? ? [t|] []| |? ? ? t []|? t ? [d|]| | |? []|? ts []]; simplify_eq/=; set_solver.
Qed.
Lemma cfg_edge_cases mir b c : body_ok mir = true → b < length (basic_blocks mir) →
  cfg_edge mir b c ↔ flow_edge mir b c ∨ drop_edge mir b c.
Proof.
  intros Hok Hb. destruct (terminator_at_ok _ _ Hok Hb) as [k Hk]. unfold cfg_edge, flow_edge, drop_edge.
  rewrite (succs_eq _ _ _ Hk), successors_cases, Hk. naive_solver.
Qed.
Lemma flow_edge_cfg mir b c : flow_edge mir b c → cfg_edge mir b c.
Proof. intros (k & Hk & Hc). unfold cfg_edge. rewrite (succs_eq _ _ _ Hk). apply successors_cases. by left. Qed.
Lemma drop_edge_cfg mir b c : drop_edge mir b c → cfg_edge mir b c.
Proof. intros (p & t & u & Hk). unfold cfg_edge. rewrite (succs_eq _ _ _ Hk). apply successors_cases. eauto. Qed.

(** ** Paths *)
Section path.
Context (mir : Body) (status : bool → StatementKind → bool) (term_status : bool → TerminatorKind → bool) (start lost : bool).

(** The status after a block. *)
Definition block_status (d : BasicBlockData) (v : bool) : bool :=
  let v' := fold_left status (statements d) v in
  match terminator_opt d with Some k => term_status v' k | None => v' end.

(** [status_path b v]: some path from the start of the body reaches the start of
    [b] with status [v].  The drop edge of an asynchronous drop forgets the
    status, which is [lost] behind it. *)
Inductive status_path : BasicBlock → bool → Prop :=
  | sp_start : status_path START_BLOCK start
  | sp_edge b d v c :
      status_path b v → basic_blocks mir !! b = Some d → flow_edge mir b c →
      status_path c (block_status d v)
  | sp_drop b v c : status_path b v → drop_edge mir b c → status_path c lost.

Lemma status_path_reach b v : status_path b v → cfg_reach mir START_BLOCK b.
Proof. induction 1; [done|eapply rtc_r; [done|by apply flow_edge_cfg]|eapply rtc_r; [done|by apply drop_edge_cfg]]. Qed.

Lemma status_path_exists b : body_ok mir = true → cfg_reach mir START_BLOCK b → ∃ v, status_path b v.
Proof.
  intros Hok. revert b. apply (rtc_ind_r (λ b, ∃ v, status_path b v)); [exists start; constructor|].
  intros b c Hb Hbc [v Hv].
  assert (Hbn : b < length (basic_blocks mir)) by (eapply cfg_reach_lt; [done..|by apply start_lt]).
  destruct (lookup_lt_is_Some_2 _ _ Hbn) as [d Hd].
  apply (cfg_edge_cases mir b c Hok Hbn) in Hbc as [Hbc|Hbc]; eexists; [by eapply sp_edge|by eapply sp_drop].
Qed.

(** Switching a bit on does not depend on its status. *)
Lemma block_status_mono d v : (∀ st, status false st = true → status true st = true) →
  (∀ k, term_status false k = true → term_status true k = true) →
  block_status d false = true → block_status d v = true.
Proof.
  intros Hm Hk. unfold block_status. set (sts := statements d). assert (H : ∀ x y : bool, (x = true → y = true) → fold_left status sts x = true → fold_left status sts y = true).
  { induction sts as [|st sts IH]; intros x y Hxy; [done|]. apply IH.
    destruct x, y; auto. by specialize (Hxy eq_refl). }
  specialize (H false v ltac:(done)). destruct (terminator_opt d) as [k|]; [|exact H].
  destruct (fold_left status sts false); [by rewrite H|]. intros Hf. destruct (fold_left status sts v); auto.
Qed.
End path.

(** Negated statuses. *)
Lemma status_path_negb mir f v0 lost b v :
  status_path mir (λ v st, negb (f (negb v) st)) (λ v _, v) (negb v0) (negb lost) b (negb v) ↔
  status_path mir f (λ v _, v) v0 lost b v.
Proof.
  assert (Hfold : ∀ (g h : bool → StatementKind → bool) d x, (∀ v st, g v st = negb (h (negb v) st)) →
    block_status g (λ v _, v) d (negb x) = negb (block_status h (λ v _, v) d x)).
  { intros g h d x Hgh. unfold block_status. destruct (terminator_opt d);
      (revert x; induction (statements d) as [|st sts IH]; intros x; [done|]; simpl; by rewrite Hgh, negb_involutive). }
  assert (Hdir : ∀ (g h : bool → StatementKind → bool) x z, (∀ v st, g v st = negb (h (negb v) st)) →
    ∀ c y, status_path mir h (λ v _, v) x z c y → status_path mir g (λ v _, v) (negb x) (negb z) c (negb y)).
  { intros g h x z Hgh c y. induction 1; [constructor| |by eapply sp_drop]. rewrite <-(Hfold g h _ _ Hgh). by eapply sp_edge. }
  split; intros H.
  - rewrite <-(negb_involutive v0), <-(negb_involutive lost), <-(negb_involutive v). eapply Hdir, H.
    intros. cbn beta. by rewrite !negb_involutive.
  - by eapply Hdir, H.
Qed.

(** ** The analysis *)
Section flow.
Context (mir : Body) (Hok : body_ok mir = true) (Hlsmall : (Z.of_nat (length (local_decls mir)) < 2 ^ 64)%Z).
Context (init : Body → DenseBitSet → outcome DenseBitSet).
Context (stmt : DenseBitSet → StatementKind → Location → outcome DenseBitSet).
Context (term : DenseBitSet → TerminatorKind → Location → outcome DenseBitSet).
Context (status : Local → bool → StatementKind → bool) (term_status : Local → bool → TerminatorKind → bool).
Abbreviation nl := (length (local_decls mir)).
Abbreviation mem s i := (bs_mem dense_ops s i).

Definition flow_analysis : Analysis DenseBitSet := {|
  an_lattice mir := bits_lattice dense_ops (length (local_decls mir));
  direction := Forward;
  SwitchIntData := Empty_set;
  bottom_value mir := Dense.new_empty (length (local_decls mir));
  initialize_start_block := init;
  apply_early_statement_effect state _ _ := Ret state;
  apply_primary_statement_effect := stmt;
  apply_early_terminator_effect state _ _ := Ret state;
  get_terminator_edges _ k _ := edges k;
  apply_primary_terminator_effect := term;
  apply_call_return_effect state _ _ := Ret state;
  get_switch_int_data _ _ _ := None;
  apply_switch_int_edge_effect state data _ := Ret (state, data) |}.
Abbreviation A := flow_analysis.

(** What the functions must do. *)
Record flow_ok (start : DenseBitSet) : Prop := {
  fl_init : effect_ok (an_lattice A mir) (init mir);
  fl_start : init mir (Dense.new_empty nl) = Ret start;
  fl_stmt bb d i st loc s : basic_blocks mir !! bb = Some d → statements d !! i = Some st → live_wf nl s → ∃ s',
    stmt s st loc = Ret s' ∧ live_wf nl s' ∧ ∀ l, mem s' l = status l (mem s l) st;
  fl_mono l st : status l false st = true → status l true st = true;
  fl_term bb k loc s : terminator_at mir bb = Ret k → live_wf nl s → ∃ s',
    term s k loc = Ret s' ∧ live_wf nl s' ∧ ∀ l, mem s' l = term_status l (mem s l) k;
  fl_term_mono l k : term_status l false k = true → term_status l true k = true }.

Context (start : DenseBitSet) (Hfl : flow_ok start).

#[export] Instance flow_laws : AnalysisLaws A mir.
Proof.
  split; try done; try (intros; apply effect_ok_ret).
  - exact (bits_lattice_laws dense_ops nl).
  - split; [by apply dense_new_empty_wf|done].
  - intros s _ i. simpl. by rewrite has_replicate_0.
  - apply (fl_init _ Hfl).
  - intros bb d i st loc Hd Hst s Hs. destruct (fl_stmt _ Hfl bb d i st loc s Hd Hst Hs) as (s' & ? & ? & _). eauto.
  - intros bb k loc Hk s Hs. destruct (fl_term _ Hfl bb k loc s Hk Hs) as (s' & ? & ? & _). eauto.
Qed.

#[export] Instance flow_mono : AnalysisMono A mir.
Proof.
  split; try (intros; apply effect_mono_ret).
  - intros bb d i st loc Hd Hst s t s' t' Hs Ht Hst' Es Et.
    destruct (fl_stmt _ Hfl bb d i st loc s Hd Hst Hs) as (s1 & Es' & _ & Hms).
    destruct (fl_stmt _ Hfl bb d i st loc t Hd Hst Ht) as (t1 & Et' & _ & Hmt). simpl in Es, Et. simplify_ret.
    intros l. rewrite Hms, Hmt. specialize (Hst' l). pose proof (fl_mono _ Hfl l st).
    destruct (has (words s) l) eqn:E; [by rewrite (Hst' eq_refl)|]. destruct (has (words t) l); auto.
  - intros bb k loc Hk s t s' t' Hs Ht Hst' Es Et.
    destruct (fl_term _ Hfl bb k loc s Hk Hs) as (s1 & Es' & _ & Hms).
    destruct (fl_term _ Hfl bb k loc t Hk Ht) as (t1 & Et' & _ & Hmt). simpl in Es, Et. simplify_ret.
    intros l. rewrite Hms, Hmt. specialize (Hst' l). pose proof (fl_term_mono _ Hfl l k).
    destruct (has (words s) l) eqn:E; [by rewrite (Hst' eq_refl)|]. destruct (has (words t) l); auto.
Qed.

(** The statements of a block, bit by bit. *)
Lemma flow_statements bb d sts : basic_blocks mir !! bb = Some d → ∀ pre s,
  statements d = pre ++ sts → live_wf nl s → ∃ s',
    ofold (statement_effects A bb) s (zip (seq (length pre) (length sts)) sts) = Ret s' ∧ live_wf nl s' ∧
    ∀ l, mem s' l = fold_left (status l) sts (mem s l).
Proof.
  intros Hd. induction sts as [|st sts IH]; intros pre s Hpre Hs; [by exists s|].
  destruct (fl_stmt _ Hfl bb d (length pre) st (mkLocation bb (length pre)) s Hd) as (s1 & Hs1 & Hw1 & Hm1); [|done|].
  { rewrite Hpre. by apply list_lookup_middle. }
  destruct (IH (pre ++ [st]) s1) as (s' & Hs' & Hw' & Hm'); [by rewrite <-app_assoc|done|].
  exists s'. cbn [length seq]. change (zip (?i :: ?a) (?x :: ?b)) with ((i, x) :: zip a b). cbn [ofold].
  assert (statement_effects A bb s (length pre, st) = Ret s1) as -> by exact Hs1. cbn [mbind outcome_bind].
  rewrite length_app in Hs'. simpl in Hs'. rewrite Nat.add_1_r in Hs'. split_and!; [done..|].
  intros l. by rewrite Hm', Hm1.
Qed.

Lemma flow_edges_targets b k s ems c x : forw_emissions A b s (edges k) = Ret ems → (c, x) ∈ ems → c ∈ edge_targets (edges k).
Proof.
  clear Hfl Hok Hlsmall. destruct k as [| | | | | |? t [] [d|]|? ? ? [t|] []| |? ? ? t []|? t ? [d|]| | |? []|? ts []]; simplify_eq/=.
  all: try (intros [= <-]; set_solver).
  all: destruct ts; simpl; intros [= <-]; set_solver.
Qed.
Lemma flow_edges_cover b k s ems c : c ∈ edge_targets (edges k) →
  forw_emissions A b s (edges k) = Ret ems → ∃ x, (c, x) ∈ ems.
Proof.
  clear Hfl Hok Hlsmall. intros Hc. destruct k as [| | | | | |? t [] [d|]|? ? ? [t|] []| |? ? ? t []|? t ? [d|]| | |? []|? ts []];
    simplify_eq/=; try by apply elem_of_nil in Hc.
  all: try (intros [= <-]; exists s; set_solver).
  all: try (destruct ts; simpl; intros [= <-]; exists s; set_solver).
Qed.

Lemma flow_edges_const b k s ems c x :
  forw_emissions A b s (edges k) = Ret ems → (c, x) ∈ ems → x = s.
Proof.
  clear Hfl Hok Hlsmall. assert (Hf : ∀ ts : list BasicBlock, (c, x) ∈ ((λ t, (t, s)) <$> ts) → x = s).
  { intros ts (y & [= -> ->] & _)%list_elem_of_fmap. done. }
  destruct (edges k) as [| | |[] [] ?|]; simpl; intros [= <-] H; try set_solver; try (by eapply Hf).
  all: repeat (apply elem_of_cons in H as [[= -> ->]|H]; [done|]); by eapply Hf.
Qed.

(** What block [b] sends along each of its edges. *)
Lemma flow_emission b s : b < length (basic_blocks mir) → live_wf nl s → ∃ d ems,
  basic_blocks mir !! b = Some d ∧ emissions A mir s b = Ret ems ∧
  (∀ c, flow_edge mir b c → ∃ x, (c, x) ∈ ems) ∧
  ∀ c x, (c, x) ∈ ems → flow_edge mir b c ∧ live_wf nl x ∧ ∀ l, mem x l = block_status (status l) (term_status l) d (mem s l).
Proof.
  intros Hb Hs.
  destruct (forward_trace A mir Hok b s eq_refl Hb Hs) as (d & k & s1 & s2 & ems & Hd & Hk & Hs1 & Hs2 & Hems & Htr & Hall).
  assert (Hdb : basic_blocks mir !! b = Some d) by (unfold block_at in Hd; destruct (basic_blocks mir !! b); naive_solver).
  destruct (flow_statements b d (statements d) Hdb [] s) as (s' & Hs' & Hw' & Hm'); [done..|].
  unfold before_terminator in Hs1. change (enumerate (statements d)) with (zip (seq 0 (length (statements d))) (statements d)) in Hs1.
  simpl length in Hs'. rewrite Hs' in Hs1. cbn [mbind outcome_bind] in Hs1.
  assert (Hdk : terminator_opt d = Some k).
  { unfold terminator_at, block_at, terminator in Hk. rewrite Hdb in Hk. simpl in Hk. destruct (terminator_opt d); simpl in Hk; congruence. }
  unfold terminator in Hs1. rewrite Hdk in Hs1. simpl in Hs1, Hs2. simplify_eq.
  destruct (fl_term _ Hfl b k (mkLocation b (length (statements d))) s1 Hk Hw') as (s2' & Hs2' & _ & Hm2).
  assert (s2' = s2) as -> by (cbn in Hs2; congruence).
  exists d, ems. split_and!; [done|by eapply traced_emissions| |].
  - intros c (k' & Hk' & Hc). rewrite Hk in Hk'. injection Hk' as <-. by eapply flow_edges_cover.
  - intros c x Hin. destruct (Hall c x Hin) as [Hwx _].
    split_and!; [exists k; split; [done|by eapply flow_edges_targets]|done|].
    intros l. rewrite (flow_edges_const b k s2 ems c x Hems Hin), Hm2, Hm'. unfold block_status. by rewrite Hdk.
Qed.

(** The entry states hold bits that are on along some path... *)
Lemma flow_sound ini : initial_states A mir = Ret ini →
  inductive_states A mir ini (λ b s, cfg_reach mir START_BLOCK b → ∀ l, mem s l = true →
    status_path mir (status l) (term_status l) (mem start l) false b true).
Proof.
  intros Hini. destruct (initial_states_ok A mir Hok) as (ini' & st & Hini' & Hst & Hlen & _ & _ & Hi).
  change (initialize_start_block A mir (bottom_value A mir)) with (init mir (Dense.new_empty nl)) in Hst.
  rewrite (fl_start _ Hfl) in Hst. assert (ini' = ini) as -> by congruence. assert (st = start) as -> by congruence. split.
  - intros b s Hs _ l Hl. specialize (Hi b). rewrite Hs in Hi.
    specialize (Hi ltac:(rewrite <-Hlen; by eapply lookup_lt_Some)). simplify_eq. case_decide; simplify_eq.
    + rewrite Hl. constructor.
    + simpl in Hl. by rewrite has_replicate_0 in Hl.
  - intros b s ems t x a c Hrb Hb Hws Hems Hin Hrt Ht Hwa Hlub _ l Hl.
    destruct (flow_emission b s) as (d & ems' & Hd & Hems' & _ & Hm);
      [eapply cfg_reach_lt; [done..|by apply start_lt]|done|]. simplify_ret.
    destruct (Hm t x Hin) as (He & Hwx & Hmx).
    destruct (bits_lub dense_ops nl a x c l Hwa Hwx Hlub Hl) as [?|Hx]; [by apply Ht|].
    change (has (words x) l = true) in Hx. specialize (Hmx l). rewrite Hx in Hmx. rewrite Hmx. destruct (has (words s) l) eqn:Hsl.
    + eapply sp_edge; [by apply Hb|done..].
    + destruct (status_path_exists mir (status l) (term_status l) (mem start l) false b Hok Hrb) as [v Hv].
      rewrite <-Hmx, <-(block_status_mono (status l) (term_status l) d v);
        [by eapply sp_edge|apply (fl_mono _ Hfl)|apply (fl_term_mono _ Hfl)|done].
Qed.

(** ... and all of them. *)
Lemma flow_complete ini E l b v : initial_states A mir = Ret ini → solution A mir ini E →
  status_path mir (status l) (term_status l) (mem start l) false b v → v = true → ∃ s, E !! b = Some s ∧ mem s l = true.
Proof.
  intros Hini HE Hp. destruct (initial_states_ok A mir Hok) as (ini' & st & Hini' & Hst & Hlen & _ & _ & Hi).
  change (initialize_start_block A mir (bottom_value A mir)) with (init mir (Dense.new_empty nl)) in Hst.
  rewrite (fl_start _ Hfl) in Hst. assert (ini' = ini) as -> by congruence. assert (st = start) as -> by congruence. induction Hp as [|b d v c Hp IH Hd He|]; intros Hv; [| |done].
  - specialize (Hi START_BLOCK (start_lt _ Hok)). rewrite decide_True in Hi by done.
    destruct (sol_init _ _ _ _ HE START_BLOCK start Hi) as (s & Hs & Hle). eauto.
  - pose proof (status_path_reach _ _ _ _ _ _ _ Hp) as Hrb.
    assert (Hrc : cfg_reach mir START_BLOCK c) by (eapply rtc_r; [done|by apply flow_edge_cfg]).
    assert (Hb : b < length (basic_blocks mir)) by (eapply cfg_reach_lt; [done..|by apply start_lt]).
    destruct (lookup_lt_is_Some_2 E b) as [sb Hsb]; [by rewrite (sol_length _ _ _ _ HE)|].
    assert (Hwb : live_wf nl sb) by (eapply Forall_lookup_1; [apply (sol_wf _ _ _ _ HE)|done]).
    destruct (flow_emission b sb Hb Hwb) as (d' & ems & Hd' & Hems & Hall & Hm). simplify_eq.
    destruct (Hall c He) as [x Hx]. destruct (Hm c x Hx) as (_ & _ & Hmx).
    destruct (sol_absorbs _ _ _ _ HE b sb ems c x Hrb Hsb Hems Hx Hrc) as (sc & Hsc & Hle).
    exists sc. split; [done|]. apply Hle. rewrite Hmx. destruct v.
    + destruct (IH eq_refl) as (s' & Hs' & Hs'l). simplify_eq. by rewrite Hs'l.
    + apply block_status_mono; [apply (fl_mono _ Hfl)|apply (fl_term_mono _ Hfl)|done].
Qed.

(** The entry states are the statuses along paths. *)
Lemma flow_paths_ok (Hsmall : body_small mir) : ∃ E,
  iterate_to_fixpoint A mir (engine_fuel A mir) = Ret E ∧
  ∀ b, cfg_reach mir START_BLOCK b → ∃ s, E !! b = Some s ∧ live_wf nl s ∧
    ∀ l, mem s l = true ↔ status_path mir (status l) (term_status l) (mem start l) false b true.
Proof.
  destruct (iterate_ok A mir Hok Hsmall) as (ini & E & Hini & _ & _ & HE & Hsol & _ & Hstates).
  exists E. split; [done|]. intros b Hb.
  destruct (lookup_lt_is_Some_2 E b) as [s Hs].
  { rewrite (sol_length _ _ _ _ Hsol). eapply cfg_reach_lt; [done..|by apply start_lt]. }
  exists s. split_and!; [done|by eapply Forall_lookup_1; [apply (sol_wf _ _ _ _ Hsol)|]|].
  intros l. split; [by apply (Hstates _ (flow_sound ini Hini) b s Hs)|].
  intros Hp. destruct (flow_complete ini E l b true Hini Hsol Hp eq_refl) as (s' & ? & ?). by simplify_eq.
Qed.
End flow.
