(* ===== verification/StorageThms.v ===== *)
(** * Storage liveness: the analyses follow the markers along paths

    [always_storage_live_locals] keeps the unmarked locals; at a reachable block
    [MaybeStorageLive] holds the locals that are live after some path, and
    [MaybeStorageDead] the locals that are dead after some path. *)
From S2P Require Import Prelude Mir BitWords BitSet BitSetFacts Traversal Lattice Dataflow DataflowFacts DataflowEngine Liveness Storage.

(** ** The markers *)
Definition marks (l : Local) (st : StatementKind) : bool :=
  match st with StorageLive l' | StorageDead l' => l' =? l | _ => false end.
Definition marked (mir : Body) (l : Local) : bool :=
  existsb (λ d, existsb (marks l) (statements d)) (basic_blocks mir).

(** A marker sets the status of its local. *)
Definition storage_status (l : Local) (live : bool) (st : StatementKind) : bool :=
  match st with
  | StorageLive l' => (l' =? l) || live
  | StorageDead l' => negb (l' =? l) && live
  | _ => live
  end.

(** Live on entry to the body: the arguments, the return place and the locals
    without markers. *)
Definition starts_live (mir : Body) (l : Local) : bool := negb (marked mir l) || (l <=? arg_count mir).

(** Markers are of declared locals, and not of the return place; the arguments
    are declared. *)
Definition storage_ok (mir : Body) : bool :=
  let nl := length (local_decls mir) in
  forallb (λ d, forallb (λ st,
    match st with StorageLive l | StorageDead l => (0 <? l) && (l <? nl) | _ => true end) (statements d))
    (basic_blocks mir) &&
  (arg_count mir <? nl).

Section storage.
Context (mir : Body) (Hst : storage_ok mir = true).
Context (Hlsmall : (Z.of_nat (length (local_decls mir)) < 2 ^ 64)%Z).
Abbreviation nl := (length (local_decls mir)).
Abbreviation mem s i := (bs_mem dense_ops s i).

Lemma marker_range d st l : d ∈ basic_blocks mir → st ∈ statements d → marks l st = true → 0 < l < nl.
Proof.
  intros Hd%list_elem_of_In Hs%list_elem_of_In Hm. unfold storage_ok in Hst.
  apply andb_true_iff in Hst as [H _]. rewrite forallb_forall in H. specialize (H d Hd).
  rewrite forallb_forall in H. specialize (H st Hs).
  destruct st; simpl in Hm; try done; apply Nat.eqb_eq in Hm as ->; apply andb_true_iff in H as [?%Nat.ltb_lt ?%Nat.ltb_lt]; done.
Qed.

Lemma arg_count_lt : arg_count mir < nl.
Proof. unfold storage_ok in Hst. apply andb_true_iff in Hst as [_ H]. by apply Nat.ltb_lt. Qed.

Lemma marked_0 : marked mir 0 = false.
Proof.
  apply not_true_is_false. unfold marked. intros (d & Hd & (st & Hs & Hm)%existsb_exists)%existsb_exists.
  apply list_elem_of_In in Hd, Hs. pose proof (marker_range d st 0 Hd Hs Hm). lia.
Qed.

(** Removing every marked local. *)
Lemma remove_marks_ok sts : ∀ s, live_wf nl s → (∀ st l, st ∈ sts → marks l st = true → l < nl) → ∃ s',
  ofold remove_marked s sts = Ret s' ∧ live_wf nl s' ∧ ∀ l, mem s' l = mem s l && negb (existsb (marks l) sts).
Proof.
  induction sts as [|st sts IH]; intros s Hs Hr; cbn [ofold existsb].
  { exists s. split_and!; [done..|]. intros l. by rewrite andb_true_r. }
  assert (Hone : ∃ s1, remove_marked s st = Ret s1 ∧ live_wf nl s1 ∧ ∀ l, mem s1 l = mem s l && negb (marks l st)).
  { assert (Hk : ∀ l, l < nl → ∃ s1, (r ← Dense.remove s l; Ret r.1) = Ret s1 ∧ live_wf nl s1 ∧
      ∀ j, mem s1 j = mem s j && negb (l =? j)).
    { intros l Hl. destruct Hs as [Hw Hd].
      destruct (bs_remove_ok (O := dense_ops) s l) as (s1 & E & Hw1 & Hd1 & Hm1); [done|simpl; lia|].
      change (bs_remove dense_ops) with Dense.remove in E. rewrite E. exists s1.
      split_and!; [done|split; [done|simpl in Hd1; congruence]|].
      intros j. rewrite Hm1, andb_comm. do 2 f_equal. apply Nat.eqb_sym. }
    assert (Hid : (∀ l, marks l st = false) → ∃ s1, Ret s = Ret s1 ∧ live_wf nl s1 ∧
      ∀ l, mem s1 l = mem s l && negb (marks l st)).
    { intros Hn. exists s. split_and!; [done..|]. intros l. by rewrite Hn, andb_true_r. }
    destruct st; try (by apply Hid); apply Hk; (eapply Hr; [left|apply Nat.eqb_refl]). }
  destruct Hone as (s1 & -> & Hw1 & Hm1). cbn [mbind outcome_bind].
  destruct (IH s1 Hw1) as (s' & -> & Hw' & Hm'); [intros; eapply Hr; [by right|done]|].
  exists s'. split_and!; [done..|]. intros l. by rewrite Hm', Hm1, negb_orb, andb_assoc.
Qed.

Lemma always_live_ok : ∃ always, always_storage_live_locals mir = Ret always ∧ live_wf nl always ∧
  ∀ l, mem always l = (l <? nl) && negb (marked mir l).
Proof.
  unfold always_storage_live_locals.
  destruct (dense_new_filled_ok nl Hlsmall) as (s & -> & Hw & Hd & Hm). cbn [mbind outcome_bind].
  assert (H : ∀ ds, ds ⊆ basic_blocks mir → ∀ s, live_wf nl s → ∃ s',
    ofold (λ s d, ofold remove_marked s (statements d)) s ds = Ret s' ∧ live_wf nl s' ∧
    ∀ l, mem s' l = mem s l && negb (existsb (λ d, existsb (marks l) (statements d)) ds)).
  { induction ds as [|d ds IH]; intros Hds t Ht; cbn [ofold existsb].
    { exists t. split_and!; [done..|]. intros l. by rewrite andb_true_r. }
    destruct (remove_marks_ok (statements d) t Ht) as (t1 & -> & Hw1 & Hm1).
    { intros st l Hst' Hm'. apply (marker_range d st l); [apply Hds; left|done..]. }
    cbn [mbind outcome_bind]. destruct (IH ltac:(set_solver) t1 Hw1) as (t' & -> & Hw' & Hm'). exists t'.
    split_and!; [done..|]. intros l. by rewrite Hm', Hm1, negb_orb, andb_assoc. }
  destruct (H (basic_blocks mir) ltac:(done) s) as (s' & -> & Hw' & Hm'); [done|].
  exists s'. split_and!; [done..|]. intros l. by rewrite Hm', <-Hm.
Qed.

(** ** The transfer functions *)
Lemma gen_bit s i : live_wf nl s → i < nl →
  ∃ s', gen_ s i = Ret s' ∧ live_wf nl s' ∧ ∀ l, mem s' l = (i =? l) || mem s l.
Proof.
  intros [Hw Hd] Hi. cbn [gen_ dense_gen_kill].
  destruct (bs_insert_ok (O := dense_ops) s i) as (s' & Hs' & Hw' & Hd' & Hm); [done|simpl; lia|].
  change (bs_insert dense_ops) with Dense.insert in Hs'. rewrite Hs'. exists s'.
  split_and!; [done|split; [done|simpl in Hd'; congruence]|]. intros l. by rewrite Hm, Nat.eqb_sym.
Qed.

Lemma kill_bit s i : live_wf nl s → i < nl →
  ∃ s', kill s i = Ret s' ∧ live_wf nl s' ∧ ∀ l, mem s' l = negb (i =? l) && mem s l.
Proof.
  intros [Hw Hd] Hi. cbn [kill dense_gen_kill].
  destruct (bs_remove_ok (O := dense_ops) s i) as (s' & Hs' & Hw' & Hd' & Hm); [done|simpl; lia|].
  change (bs_remove dense_ops) with Dense.remove in Hs'. rewrite Hs'. exists s'.
  split_and!; [done|split; [done|simpl in Hd'; congruence]|]. intros l. by rewrite Hm, Nat.eqb_sym.
Qed.

Lemma gens_ok ls : ∀ s, live_wf nl s → (∀ l, l ∈ ls → l < nl) → ∃ s',
  ofold (λ s l, r ← Dense.insert s l; Ret r.1) s ls = Ret s' ∧ live_wf nl s' ∧
  ∀ l, mem s' l = bool_decide (l ∈ ls) || mem s l.
Proof.
  induction ls as [|i ls IH]; intros s Hs Hr; cbn [ofold]; [exists s; split_and!; done|].
  destruct (gen_bit s i Hs) as (s1 & E & Hw1 & Hm1); [apply Hr; left|].
  cbn [gen_ dense_gen_kill] in E. rewrite E. cbn [mbind outcome_bind].
  destruct (IH s1 Hw1) as (s' & -> & Hw' & Hm'); [intros; apply Hr; by right|].
  exists s'. split_and!; [done..|]. intros l. rewrite Hm', Hm1, orb_assoc. f_equal.
  destruct (Nat.eqb_spec i l) as [->|Hne]; [rewrite orb_true_r; symmetry; apply bool_decide_true; by left|].
  rewrite orb_false_r. apply bool_decide_ext. rewrite elem_of_cons. naive_solver.
Qed.

Context (always : DenseBitSet) (Hwa : live_wf nl always).
Context (Hma : ∀ l, mem always l = (l <? nl) && negb (marked mir l)).

Lemma storage_live_flow : ∃ start, flow_ok mir (StLive.initialize always) StLive.statement_effect (λ s _ _, Ret s) storage_status (λ _ v _, v) start ∧
  ∀ l, l < nl → mem start l = starts_live mir l.
Proof.
  assert (Hinit : ∀ s, live_wf nl s → ∃ s', StLive.initialize always mir s = Ret s' ∧ live_wf nl s' ∧
    ∀ l, mem s' l = bool_decide (l ∈ args_iter mir) || (mem s l || mem always l)).
  { intros s [Hw Hd]. destruct Hwa as [Hwa1 Hda]. unfold StLive.initialize.
    destruct (bs_union_ok (O := dense_ops) s always) as (u & ch & Hu & (Hwu & Hdu & Hmu) & _); [done..|simpl; congruence|].
    change (bs_union dense_ops) with Dense.union in Hu. rewrite Hu. cbn [mbind outcome_bind fst].
    destruct (gens_ok (args_iter mir) u) as (s' & -> & Hw' & Hm'); [split; [done|simpl in Hdu; congruence]| |].
    - intros l. unfold args_iter. rewrite elem_of_seq. pose proof arg_count_lt. lia.
    - exists s'. split_and!; [done..|]. intros l. by rewrite Hm', Hmu. }
  destruct (Hinit (Dense.new_empty nl)) as (start & Hs & _ & Hm); [split; [by apply dense_new_empty_wf|done]|].
  exists start. split; [split; [|done| | |by intros; exists s|done]|].
  - intros s Hs'. destruct (Hinit s Hs') as (s' & ? & ? & _). eauto.
  - intros bb d i st loc s Hd Hi Hw.
    assert (Hr : ∀ l, marks l st = true → l < nl).
    { intros l Hl. apply (marker_range d st l); [by eapply list_elem_of_lookup_2..|done]. }
    destruct st; simpl; try by exists s.
    + apply gen_bit; [done|]. apply Hr, Nat.eqb_refl.
    + apply kill_bit; [done|]. apply Hr, Nat.eqb_refl.
  - intros l []; simpl; try done; [by intros; apply orb_true_r|by rewrite andb_false_r].
  - intros l Hl. rewrite Hm, Hma. simpl. rewrite has_replicate_0, (proj2 (Nat.ltb_lt _ _) Hl). unfold starts_live. simpl.
    rewrite orb_comm. destruct (marked mir l) eqn:Hmk; [|done]. simpl. unfold args_iter.
    destruct l as [|l]; [by rewrite marked_0 in Hmk|].
    destruct (Nat.leb_spec (S l) (arg_count mir)); [apply bool_decide_true|apply bool_decide_false]; rewrite elem_of_seq; lia.
Qed.

Lemma dead_inits_ok ls : ∀ s, live_wf nl s → (∀ l, l ∈ ls → l < nl) → ∃ s',
  ofold (StDead.insert_unless_live always) s ls = Ret s' ∧ live_wf nl s' ∧
  ∀ l, mem s' l = (bool_decide (l ∈ ls) && negb (mem always l)) || mem s l.
Proof.
  induction ls as [|i ls IH]; intros s Hs Hr; cbn [ofold]; [exists s; split_and!; done|].
  assert (Hi : i < nl) by (apply Hr; left). change (StDead.insert_unless_live always s i) with
    (c ← Dense.contains always i; if negb c then r ← Dense.insert s i; Ret r.1 else Ret s).
  rewrite dense_contains_ok by (destruct Hwa; done || lia). cbn [mbind outcome_bind].
  assert (Hone : ∃ s1, (if negb (has (words always) i) then r ← Dense.insert s i; Ret r.1 else Ret s) = Ret s1 ∧
    live_wf nl s1 ∧ ∀ l, mem s1 l = ((i =? l) && negb (mem always l)) || mem s l).
  { destruct (has (words always) i) eqn:Hai; simpl negb; cbn iota.
    - exists s. split_and!; [done..|]. intros l. destruct (Nat.eqb_spec i l) as [<-|]; [|done]. simpl. by rewrite Hai.
    - destruct (gen_bit s i Hs Hi) as (s1 & E & Hw1 & Hm1). exists s1. split_and!; [done..|].
      intros l. rewrite Hm1. destruct (Nat.eqb_spec i l) as [<-|]; [|done]. simpl. by rewrite Hai. }
  destruct Hone as (s1 & -> & Hw1 & Hm1). cbn [mbind outcome_bind].
  destruct (IH s1 Hw1) as (s' & -> & Hw' & Hm'); [intros; apply Hr; by right|].
  exists s'. split_and!; [done..|]. intros l. rewrite Hm', Hm1, orb_assoc. f_equal.
  rewrite <-andb_orb_distrib_l. f_equal.
  destruct (Nat.eqb_spec i l) as [->|Hne]; [rewrite orb_true_r; symmetry; apply bool_decide_true; by left|].
  rewrite orb_false_r. apply bool_decide_ext. rewrite elem_of_cons. naive_solver.
Qed.

Lemma storage_dead_flow : ∃ start, flow_ok mir (StDead.initialize always) StDead.statement_effect (λ s _ _, Ret s)
    (λ l v st, negb (storage_status l (negb v) st)) (λ _ v _, v) start ∧
  ∀ l, l < nl → mem start l = negb (starts_live mir l).
Proof.
  assert (Hinit : ∀ s, live_wf nl s → ∃ s', StDead.initialize always mir s = Ret s' ∧ live_wf nl s' ∧
    ∀ l, mem s' l = (bool_decide (l ∈ vars_and_temps_iter mir) && negb (mem always l)) || mem s l).
  { intros s Hs. unfold StDead.initialize. rewrite (proj2 Hwa), Nat.eqb_refl. simpl negb. cbn iota.
    apply dead_inits_ok; [done|]. intros l. unfold vars_and_temps_iter. rewrite elem_of_seq. lia. }
  destruct (Hinit (Dense.new_empty nl)) as (start & Hs & _ & Hm); [split; [by apply dense_new_empty_wf|done]|].
  exists start. split; [split; [|done| | |by intros; exists s|done]|].
  - intros s Hs'. destruct (Hinit s Hs') as (s' & ? & ? & _). eauto.
  - intros bb d i st loc s Hd Hi Hw.
    assert (Hr : ∀ l, marks l st = true → l < nl).
    { intros l Hl. apply (marker_range d st l); [by eapply list_elem_of_lookup_2..|done]. }
    assert (Hid : ∀ f : Local → bool, (∀ l, f l = mem s l) → ∃ s', Ret s = Ret s' ∧ live_wf nl s' ∧ ∀ l, mem s' l = f l).
    { intros f Hf. by exists s. }
    destruct st; simpl; try (apply Hid; intros; by rewrite negb_involutive).
    + destruct (kill_bit s l Hw (Hr l ltac:(apply Nat.eqb_refl))) as (s' & ? & ? & Hk). exists s'.
      split_and!; [done..|]. intros j. etrans; [apply Hk|]. by rewrite negb_orb, negb_involutive.
    + destruct (gen_bit s l Hw (Hr l ltac:(apply Nat.eqb_refl))) as (s' & ? & ? & Hk). exists s'.
      split_and!; [done..|]. intros j. etrans; [apply Hk|]. by rewrite negb_andb, !negb_involutive.
  - intros l []; simpl; try done; [by rewrite orb_true_r|by destruct (_ =? l)].
  - intros l Hl. rewrite Hm, Hma. simpl. rewrite has_replicate_0, (proj2 (Nat.ltb_lt _ _) Hl). unfold starts_live. simpl.
    rewrite orb_false_r, negb_orb, !negb_involutive, andb_comm. f_equal. unfold vars_and_temps_iter.
    destruct (Nat.leb_spec l (arg_count mir)); [apply bool_decide_false|apply bool_decide_true]; rewrite elem_of_seq; lia.
Qed.
End storage.
