(* ===== verification/RequiresStorage.v ===== *)
(** * Borrowed locals and required storage

    [rustc_mir_dataflow/src/impls/borrowed_locals.rs]: the locals a reference may
    point to ([MaybeBorrowedLocals]), and those borrowed anywhere in a body.
    [impls/storage_liveness.rs]: [MaybeRequiresStorage], which asks the former,
    through a cursor, which moves end the need for storage. *)
From S2P Require Import Prelude Mir BitWords BitSet BitSetFacts Traversal Lattice Dataflow DataflowFacts DataflowEngine Visitor Liveness LivenessThms DataflowCursor Storage StorageThms.

#[local] Abbreviation mem s i := (bs_mem dense_ops s i = true).

(** ** [TransferFunction] *)
(** Its visits of places and locals are the defaults, which do nothing. *)
Definition silent_local {St} (s : St) (_ : Local) (_ : PlaceContext) (_ : Location) : outcome St := Ret s.
Definition silent_visitor {St} : Visitor St := mkVisitor _ (super_place silent_local) silent_local.

(** The place a reference is made to; fake borrows are ignored. *)
Definition borrowed_place (rvalue : Rvalue) : option Place :=
  match rvalue with
  | RvRawPtr _ borrowed_place | RvRef (MutBorrow | Shared) borrowed_place | Reborrow _ _ borrowed_place => Some borrowed_place
  | _ => None
  end.

Section transfer.
Context {T : Type} `{GenKill T}.

Definition gen_unless_indirect (trans : T) (place : Place) : outcome T :=
  if negb (is_indirect place) then gen_ trans (pl_local place) else Ret trans.

Definition borrow_visit_rvalue (trans : T) (rvalue : Rvalue) (location : Location) : outcome T :=
  trans ← super_rvalue silent_visitor trans rvalue location;
  match borrowed_place rvalue with Some place => gen_unless_indirect trans place | None => Ret trans end.

(** [super_statement] and [super_assign] with the method above. *)
Definition borrow_super_statement (trans : T) (stmt : StatementKind) (location : Location) : outcome T :=
  match stmt with
  | Assign place rvalue =>
      trans ← visit_place silent_visitor trans place (MutatingUse MuStore) location;
      borrow_visit_rvalue trans rvalue location
  | _ => super_statement silent_visitor trans stmt location
  end.
Definition borrow_visit_statement (trans : T) (stmt : StatementKind) (location : Location) : outcome T :=
  trans ← borrow_super_statement trans stmt location;
  match stmt with StorageDead local => kill trans local | _ => Ret trans end.

Definition borrow_visit_terminator (trans : T) (terminator : TerminatorKind) (location : Location) : outcome T :=
  trans ← super_terminator silent_visitor trans terminator location;
  match terminator with Drop dropped_place _ _ _ => gen_unless_indirect trans dropped_place | _ => Ret trans end.

(** [visit_body]: every statement and terminator. *)
Definition borrow_visit_block (trans : T) (e : nat * BasicBlockData) : outcome T :=
  let location i := mkLocation e.1 i in
  trans ← ofold (λ trans s, borrow_visit_statement trans s.2 (location s.1)) trans (enumerate (statements e.2));
  match terminator_opt e.2 with
  | Some k => borrow_visit_terminator trans k (location (length (statements e.2)))
  | None => Ret trans
  end.
Definition borrow_visit_body (trans : T) (body : Body) : outcome T :=
  ofold borrow_visit_block trans (enumerate (basic_blocks body)).
End transfer.

Definition maybe_borrowed_locals : Analysis DenseBitSet := {|
  an_lattice mir := bits_lattice dense_ops (length (local_decls mir));
  direction := Forward;
  SwitchIntData := Empty_set;
  bottom_value mir := Dense.new_empty (length (local_decls mir));
  initialize_start_block _ state := Ret state;
  apply_early_statement_effect state _ _ := Ret state;
  apply_primary_statement_effect := borrow_visit_statement;
  apply_early_terminator_effect state _ _ := Ret state;
  get_terminator_edges _ k _ := edges k;
  apply_primary_terminator_effect := borrow_visit_terminator;
  apply_call_return_effect state _ _ := Ret state;
  get_switch_int_data _ _ _ := None;
  apply_switch_int_edge_effect state data _ := Ret (state, data) |}.

Definition borrowed_locals (body : Body) : outcome DenseBitSet :=
  b ← borrow_visit_body (mkBorrowed (Dense.new_empty (length (local_decls body)))) body; Ret (borrowed_set b).

(** ** [MaybeRequiresStorage::new] *)
#[export] Instance Location_eq_dec : EqDecision Location.
Proof. solve_decision. Defined.
#[export] Instance Location_countable : Countable Location.
Proof. refine (inj_countable' (λ l, (loc_block l, statement_index l)) (λ p, mkLocation p.1 p.2) _). by intros []. Defined.
#[export] Instance NonMutatingUseContext_eq_dec : EqDecision NonMutatingUseContext.
Proof. solve_decision. Defined.
#[export] Instance MutatingUseContext_eq_dec : EqDecision MutatingUseContext.
Proof. solve_decision. Defined.
#[export] Instance NonUseContext_eq_dec : EqDecision NonUseContext.
Proof. solve_decision. Defined.
#[export] Instance PlaceContext_eq_dec : EqDecision PlaceContext.
Proof. solve_decision. Defined.

Abbreviation KillableLocals := (gmap Location (list Local)).
Definition push_killable (m : KillableLocals) (loc : Location) (local : Local) : KillableLocals :=
  <[loc := default [] (m !! loc) ++ [local]]> m.

Section killable.
Context (body : Body) (borrowed : list DenseBitSet) (reachable_blocks : DenseBitSet) (fuel : nat).

Record KillableLocalsVisitor := mkKillable {
  borrowed_locals_cursor : @ResultsCursor DenseBitSet;
  killable_locals : KillableLocals }.

Definition killable_visit_local (self : KillableLocalsVisitor) (local : Local) (context : PlaceContext) (loc : Location)
    : outcome KillableLocalsVisitor :=
  if bool_decide (NonMutatingUse NmMove = context) then
    c ← seek_before_primary_effect maybe_borrowed_locals body borrowed reachable_blocks fuel loc (borrowed_locals_cursor self);
    b ← Dense.contains (cur_state c) local;
    Ret (mkKillable c (if negb b then push_killable (killable_locals self) loc local else killable_locals self))
  else Ret self.
Definition killable_visitor : Visitor KillableLocalsVisitor := mkVisitor _ (super_place killable_visit_local) killable_visit_local.

(** [visit_basic_block_data] *)
Definition killable_visit_block (self : KillableLocalsVisitor) (bb : BasicBlock) : outcome KillableLocalsVisitor :=
  data ← block_at body bb;
  self ← ofold (λ self s, super_statement killable_visitor self s.2 (mkLocation bb s.1)) self (enumerate (statements data));
  match terminator_opt data with
  | Some k => super_terminator killable_visitor self k (mkLocation bb (length (statements data)))
  | None => Ret self
  end.

Definition new_requires_storage (traversal : list BasicBlock) : outcome KillableLocals :=
  self ← ofold killable_visit_block (mkKillable (new_cursor maybe_borrowed_locals body) ∅) traversal;
  Ret (killable_locals self).
End killable.

(** The blocks are those of [traversal::reachable], in preorder. *)
Definition maybe_requires_storage_new (body : Body) (borrowed : list DenseBitSet) : outcome KillableLocals :=
  reachable_blocks ← reachable_as_bitset (traversal_fuel body) body;
  traversal ← preorder (traversal_fuel body) body;
  new_requires_storage body borrowed reachable_blocks (cursor_fuel body) traversal.

(** ** The analysis *)
Module ReqStorage.
Section requires.
Context (killable_locals : KillableLocals).

Definition check_for_move (state : DenseBitSet) (loc : Location) : outcome DenseBitSet :=
  match killable_locals !! loc with Some locals => ofold kill state locals | None => Ret state end.

(** The place a statement writes. *)
Definition gen_written (state : DenseBitSet) (stmt : StatementKind) : outcome DenseBitSet :=
  match stmt with Assign place _ | SetDiscriminant place _ => gen_ state (pl_local place) | _ => Ret state end.

Definition initialize (body : Body) (state : DenseBitSet) : outcome DenseBitSet :=
  ofold (λ s arg, r ← Dense.insert s arg; Ret r.1) state (drop 1 (args_iter body)).
Definition early_statement (state : DenseBitSet) (stmt : StatementKind) (loc : Location) : outcome DenseBitSet :=
  state ← borrow_visit_statement state stmt loc;
  match stmt with StorageDead l => kill state l | _ => gen_written state stmt end.
Definition primary_statement (state : DenseBitSet) (stmt : StatementKind) (loc : Location) : outcome DenseBitSet :=
  state ← check_for_move state loc; gen_written state stmt.
Definition early_terminator (state : DenseBitSet) (terminator : TerminatorKind) (loc : Location) : outcome DenseBitSet :=
  state ← borrow_visit_terminator state terminator loc;
  match terminator with
  | Call _ _ destination _ _ => gen_ state (pl_local destination)
  | InlineAsm operands _ _ =>
      ofold (λ state op, match op with
                         | AsmOut (Some place) | AsmInOut _ (Some place) => gen_ state (pl_local place)
                         | _ => Ret state end) state operands
  | _ => Ret state
  end.
Definition primary_terminator (state : DenseBitSet) (terminator : TerminatorKind) (loc : Location) : outcome DenseBitSet :=
  state ← match terminator with
          | Call _ _ destination _ _ => kill state (pl_local destination)
          | InlineAsm operands _ _ =>
              ofold (λ state place, kill state (pl_local place)) state (return_places (CrInlineAsm operands))
          | _ => Ret state
          end;
  check_for_move state loc.
Definition call_return (state : DenseBitSet) (_ : BasicBlock) (rp : CallReturnPlaces) : outcome DenseBitSet :=
  ofold (λ state place, gen_ state (pl_local place)) state (return_places rp).

Definition maybe_requires_storage : Analysis DenseBitSet := {|
  an_lattice mir := bits_lattice dense_ops (length (local_decls mir));
  direction := Forward;
  SwitchIntData := Empty_set;
  bottom_value mir := Dense.new_empty (length (local_decls mir));
  initialize_start_block := initialize;
  apply_early_statement_effect := early_statement;
  apply_primary_statement_effect := primary_statement;
  apply_early_terminator_effect := early_terminator;
  get_terminator_edges _ k _ := edges k;
  apply_primary_terminator_effect := primary_terminator;
  apply_call_return_effect := call_return;
  get_switch_int_data _ _ _ := None;
  apply_switch_int_edge_effect state data _ := Ret (state, data) |}.
End requires.
End ReqStorage.

(** ** What is moved, borrowed and written, on the syntax *)
(** A place without projections, moved out of as a whole. *)
Definition operand_moves (op : Operand) : list Local :=
  match op with Move p => option_list (as_local p) | _ => [] end.
Definition rvalue_moves (rv : Rvalue) : list Local :=
  match rv with
  | Use op | Repeat op _ | Cast _ op _ | UnaryOp _ op | WrapUnsafeBinder op _ => operand_moves op
  | BinaryOp _ l r => operand_moves l ++ operand_moves r
  | Aggregate _ ops => concat (operand_moves <$> ops)
  | _ => []
  end.
Definition stmt_moves (st : StatementKind) : list Local :=
  match st with
  | Assign _ rv => rvalue_moves rv
  | Intrinsic (Assume op) => operand_moves op
  | Intrinsic (CopyNonOverlapping src dst count) => operand_moves src ++ operand_moves dst ++ operand_moves count
  | _ => []
  end.
Definition msg_moves (m : AssertKind) : list Local :=
  match m with
  | BoundsCheck a b | Overflow _ a b | MisalignedPointerDereference a b => operand_moves a ++ operand_moves b
  | OverflowNeg a | DivisionByZero a | RemainderByZero a | InvalidEnumConstruction a => operand_moves a
  | _ => []
  end.
Definition asm_moves (op : InlineAsmOperand) : list Local :=
  match op with AsmIn value | AsmInOut value _ => operand_moves value | _ => [] end.
(** Returning moves the return place out. *)
Definition term_moves (k : TerminatorKind) : list Local :=
  match k with
  | Return => [RETURN_PLACE]
  | SwitchInt discr _ => operand_moves discr
  | Call func args _ _ _ | TailCall func args => operand_moves func ++ concat (operand_moves <$> args)
  | Assert cond _ msg _ _ => operand_moves cond ++ msg_moves msg
  | Yield value _ _ _ => operand_moves value
  | InlineAsm ops _ _ => concat (asm_moves <$> ops)
  | _ => []
  end.

Definition direct_base (p : Place) : list Local := if is_indirect p then [] else [pl_local p].
Definition stmt_borrows (st : StatementKind) : list Local :=
  match st with
  | Assign _ rv => match borrowed_place rv with Some p => direct_base p | None => [] end
  | _ => []
  end.
Definition term_borrows (k : TerminatorKind) : list Local := match k with Drop p _ _ _ => direct_base p | _ => [] end.
Definition stmt_dead (st : StatementKind) : list Local := match st with StorageDead l => [l] | _ => [] end.
Definition stmt_written (st : StatementKind) : list Local :=
  match st with Assign p _ | SetDiscriminant p _ => [pl_local p] | _ => [] end.
Definition term_written (k : TerminatorKind) : list Local :=
  match k with
  | Call _ _ destination _ _ => [pl_local destination]
  | InlineAsm operands _ _ => pl_local <$> omap asm_out_place operands
  | _ => []
  end.
Definition term_returns (k : TerminatorKind) : list Local :=
  match edges k with EdgesAssignOnReturn _ _ place => pl_local <$> return_places place | _ => [] end.

(** ** Visitors that act on moves only *)
Lemma ofold_concat {X Y St} (g : St → Y → outcome St) (h : X → list Y) l : ∀ s,
  ofold (λ s x, ofold g s (h x)) s l = ofold g s (concat (h <$> l)).
Proof.
  induction l as [|x l IH]; intros s; [done|]. cbn [ofold fmap list_fmap concat]. rewrite ofold_app.
  destruct (ofold g s (h x)) as [s'| |]; [|done..]. apply IH.
Qed.
Lemma ofold_fmap {X Y St} (g : St → Y → outcome St) (h : X → Y) l : ∀ s,
  ofold (λ s x, g s (h x)) s l = ofold g s (h <$> l).
Proof. induction l as [|x l IH]; intros s; [done|]. simpl. destruct (g s (h x)); [apply IH|done..]. Qed.
Lemma ofold_ret {X St} (f : St → X → outcome St) l s : (∀ s x, f s x = Ret s) → ofold f s l = Ret s.
Proof. intros Hf. induction l as [|x l IH]; [done|]. cbn [ofold]. rewrite Hf. apply IH. Qed.
Lemma outcome_ret {X} (o : outcome X) : (x ← o; Ret x) = o.
Proof. by destruct o. Qed.

Section moves.
Context {St : Type} (f : St → Local → PlaceContext → Location → outcome St).
Context (Hf : ∀ s l c loc, c ≠ NonMutatingUse NmMove → f s l c loc = Ret s).
Abbreviation V := (mkVisitor St (super_place f) f).
Definition do_moves (loc : Location) (s : St) (ls : list Local) : outcome St := ofold (λ s l, f s l (NonMutatingUse NmMove) loc) s ls.

Lemma do_moves_app loc s l1 l2 : do_moves loc s (l1 ++ l2) = s ← do_moves loc s l1; do_moves loc s l2.
Proof. apply ofold_app. Qed.
Lemma projection_no_move s p c loc : c ≠ NonMutatingUse NmMove → visit_projection f s p c loc = Ret s.
Proof.
  intros Hc. apply ofold_ret. intros s' e. unfold super_projection_elem. destruct e; try done. apply Hf. by destruct (is_use c).
Qed.
Lemma place_no_move s p c loc : c ≠ NonMutatingUse NmMove → super_place f s p c loc = Ret s.
Proof.
  intros Hc. unfold super_place. destruct (negb (no_projection p) && is_use c); [destruct (is_mutating_use c)|];
    (rewrite Hf by done; cbn [mbind outcome_bind]; by apply projection_no_move).
Qed.
Lemma operand_moves_eq s op loc : visit_operand V s op loc = do_moves loc s (operand_moves op).
Proof.
  unfold visit_operand. destruct op as [p|p| |]; simpl; [by apply place_no_move| |done..].
  unfold super_place, as_local, do_moves, visit_projection. destruct p as [l [|e pr]]; simpl; [done|].
  rewrite Hf by done. simpl. by apply (projection_no_move s (mkPlace l (e :: pr))).
Qed.
Lemma operands_moves_eq s ops loc : visit_operands V s ops loc = do_moves loc s (concat (operand_moves <$> ops)).
Proof.
  unfold visit_operands, do_moves. rewrite <-ofold_concat. apply ofold_ext. intros s' op _. apply operand_moves_eq.
Qed.
Lemma rvalue_moves_eq s rv loc : super_rvalue V s rv loc = do_moves loc s (rvalue_moves rv).
Proof.
  unfold super_rvalue. destruct rv as [| |bk| |[]| |op l r| | | | | |? [] ?]; simpl rvalue_moves;
    try apply operand_moves_eq; try (by apply place_no_move).
  - destruct bk; by apply place_no_move.
  - done.
  - rewrite do_moves_app, operand_moves_eq. destruct (do_moves _ _ _); [apply operand_moves_eq|done..].
  - apply operands_moves_eq.
Qed.
Lemma statement_moves_eq s st loc : super_statement V s st loc = do_moves loc s (stmt_moves st).
Proof.
  destruct st as [p rv| | | | | | | |[]| | |]; simpl; try (by apply place_no_move); try done; try (by apply Hf).
  - unfold super_assign. simpl. rewrite place_no_move by done. apply rvalue_moves_eq.
  - apply operand_moves_eq.
  - rewrite !do_moves_app, operand_moves_eq. destruct (do_moves _ _ _) as [s1| |]; [|done..]. cbn [mbind outcome_bind].
    rewrite operand_moves_eq, do_moves_app. destruct (do_moves _ _ _) as [s2| |]; [|done..]. apply operand_moves_eq.
Qed.
Lemma message_moves_eq s m loc : super_assert_message V s m loc = do_moves loc s (msg_moves m).
Proof.
  destruct m; simpl; try apply operand_moves_eq; try done;
    (rewrite do_moves_app, operand_moves_eq; destruct (do_moves _ _ _); [apply operand_moves_eq|done..]).
Qed.
Lemma asm_moves_eq s op loc : visit_asm_operand V s op loc = do_moves loc s (asm_moves op).
Proof.
  destruct op as [|[]|v []| | | |]; simpl; try done; try apply operand_moves_eq; try (by apply place_no_move);
    rewrite operand_moves_eq; destruct (do_moves _ _ _); simpl; try done. by apply place_no_move.
Qed.
Lemma terminator_moves_eq s k loc : super_terminator V s k loc = do_moves loc s (term_moves k).
Proof.
  destruct k; simpl; try done; try apply operand_moves_eq; try (by apply place_no_move).
  - unfold do_moves. simpl. by rewrite outcome_ret.
  - rewrite do_moves_app, operand_moves_eq. destruct (do_moves _ _ _) as [s1| |]; [|done..]. cbn [mbind outcome_bind].
    rewrite operands_moves_eq. destruct (do_moves _ _ _); [|done..]. by apply place_no_move.
  - rewrite do_moves_app, operand_moves_eq. destruct (do_moves _ _ _) as [s1| |]; [|done..]. apply operands_moves_eq.
  - rewrite do_moves_app, operand_moves_eq. destruct (do_moves _ _ _) as [s1| |]; [|done..]. apply message_moves_eq.
  - rewrite operand_moves_eq. destruct (do_moves _ _ _) as [s1| |]; [|done..]. by apply place_no_move.
  - unfold do_moves. rewrite <-ofold_concat. apply ofold_ext. intros s' op _. apply asm_moves_eq.
Qed.
End moves.

(** ** The transfer functions on the syntax *)
Lemma silent_moves {St} loc (s : St) ls : do_moves silent_local loc s ls = Ret s.
Proof. by apply ofold_ret. Qed.

Section borrow_eq.
Context {T : Type} `{GenKill T}.
Lemma gen_all_direct (t : T) p : gen_unless_indirect t p = gen_all t (direct_base p).
Proof. unfold gen_unless_indirect, direct_base. destruct (is_indirect p); [done|]. simpl. unfold gen_all. cbn [ofold]. by rewrite outcome_ret. Qed.
Lemma borrow_statement_eq (t : T) st loc :
  borrow_visit_statement t st loc = t ← gen_all t (stmt_borrows st); kill_all t (stmt_dead st).
Proof.
  unfold borrow_visit_statement. assert (borrow_super_statement t st loc = gen_all t (stmt_borrows st)) as ->.
  { destruct st; try (unfold borrow_super_statement, silent_visitor; rewrite statement_moves_eq by done; apply silent_moves).
    unfold borrow_super_statement, silent_visitor, borrow_visit_rvalue. simpl visit_place. rewrite place_no_move by done. cbn [mbind outcome_bind].
    unfold silent_visitor. rewrite rvalue_moves_eq by done. rewrite silent_moves. cbn [mbind outcome_bind]. unfold stmt_borrows.
    destruct (borrowed_place rv); [apply gen_all_direct|done]. }
  destruct (gen_all t _) as [t1| |]; [|done..]. cbn [mbind outcome_bind]. destruct st; try done. unfold kill_all. simpl. by rewrite outcome_ret.
Qed.
Lemma borrow_terminator_eq (t : T) k loc : borrow_visit_terminator t k loc = gen_all t (term_borrows k).
Proof.
  unfold borrow_visit_terminator, silent_visitor. rewrite terminator_moves_eq by done. rewrite silent_moves. cbn [mbind outcome_bind].
  destruct k; try done. apply gen_all_direct.
Qed.
End borrow_eq.

Section live_effects.
Context (n : nat).
Lemma live_effect_gens ls : live_effect n (λ s, gen_all s ls) ls [].
Proof.
  eapply live_effect_perm; [|apply (live_effect_ofold n gen_ (λ x, [x])); intros x; apply live_effect_gen].
  intros l. induction ls as [|x ls IH]; [done|]. simpl. by rewrite !elem_of_cons, IH.
Qed.
Lemma live_effect_kill_all ls : live_effect n (λ s, kill_all s ls) [] ls.
Proof.
  induction ls as [|x ls IH]; [apply live_effect_ret|]. apply (live_effect_kills n (λ s, kill s x) _ [x] ls); [apply live_effect_kill|exact IH].
Qed.
Lemma live_effect_seq f g r1 k1 r2 k2 : live_effect n f r1 k1 → live_effect n g r2 k2 →
  live_effect n (λ s, s' ← f s; g s') (r2 ++ list_difference r1 k2) (k1 ++ k2).
Proof.
  intros Hf Hg [Hr2 Hr1]%in_range_app [Hk1 Hk2]%in_range_app s Hs.
  assert (Hr1' : in_range n r1).
  { intros l Hl. destruct (decide (l ∈ k2)); [by apply Hk2|]. apply Hr1. by apply list_elem_of_difference. }
  destruct (Hf Hr1' Hk1 s Hs) as (s1 & -> & Hs1 & Hm1). destruct (Hg Hr2 Hk2 s1 Hs1) as (s2 & Hs2 & Hw2 & Hm2).
  cbn [mbind outcome_bind]. exists s2. split_and!; [done..|]. intros l. rewrite Hm2, Hm1, !elem_of_app, list_elem_of_difference. clear. tauto.
Qed.
Lemma live_effect_same f r k r' k' : (∀ l, l ∈ r ↔ l ∈ r') → (∀ l, l ∈ k ↔ l ∈ k') → live_effect n f r k → live_effect n f r' k'.
Proof.
  intros Hr Hk Hf Hr' Hk' s Hs. destruct (Hf ltac:(intros l Hl; apply Hr', Hr, Hl) ltac:(intros l Hl; apply Hk', Hk, Hl) s Hs) as (s' & ? & ? & Hm).
  exists s'. split_and!; [done..|]. intros l. by rewrite Hm, Hr, Hk.
Qed.
Lemma live_effect_ext f g r k : (∀ s, f s = g s) → live_effect n g r k → live_effect n f r k.
Proof. intros He Hg Hr Hk s Hs. rewrite He. by apply Hg. Qed.

Lemma borrow_statement_effect st loc : live_effect n (λ s, borrow_visit_statement s st loc) (stmt_borrows st) (stmt_dead st).
Proof.
  eapply live_effect_ext; [intros s; apply borrow_statement_eq|].
  eapply live_effect_same, live_effect_seq; [| |apply live_effect_gens|apply live_effect_kill_all]; [|done].
  intros l. simpl. rewrite list_elem_of_difference. destruct st; simpl; set_solver.
Qed.
Lemma borrow_terminator_effect k loc : live_effect n (λ s, borrow_visit_terminator s k loc) (term_borrows k) [].
Proof. eapply live_effect_ext; [intros s; apply borrow_terminator_eq|apply live_effect_gens]. Qed.
End live_effects.

(** ** Locals in range *)
Definition stmt_locals (st : StatementKind) : list Local := stmt_borrows st ++ stmt_dead st ++ stmt_moves st ++ stmt_written st.
Definition term_locals (k : TerminatorKind) : list Local := term_borrows k ++ term_moves k ++ term_written k ++ term_returns k.
Definition requires_ok (mir : Body) : bool :=
  let ok l := l <? length (local_decls mir) in
  forallb (λ d, forallb (λ st, forallb ok (stmt_locals st)) (statements d) &&
                match terminator_opt d with Some k => forallb ok (term_locals k) | None => true end) (basic_blocks mir) &&
  (arg_count mir <? length (local_decls mir)).

Definition borrow_status (l : Local) (v : bool) (st : StatementKind) : bool :=
  bool_decide (l ∈ stmt_borrows st) || v && negb (bool_decide (l ∈ stmt_dead st)).
Definition borrow_term_status (l : Local) (v : bool) (k : TerminatorKind) : bool := bool_decide (l ∈ term_borrows k) || v.

Section body.
Context (mir : Body) (Hok : body_ok mir = true) (Hreq : requires_ok mir = true).
Context (Hlsmall : (Z.of_nat (length (local_decls mir)) < 2 ^ 64)%Z).
Abbreviation nl := (length (local_decls mir)).

Lemma requires_ok_block b d : basic_blocks mir !! b = Some d →
  (∀ st, st ∈ statements d → in_range nl (stmt_locals st)) ∧ ∀ k, terminator_opt d = Some k → in_range nl (term_locals k).
Proof.
  intros Hd. unfold requires_ok in Hreq. apply andb_true_iff in Hreq as [H _]. rewrite forallb_forall in H.
  specialize (H d (proj1 (list_elem_of_In _ _) (list_elem_of_lookup_2 _ _ _ Hd))). apply andb_true_iff in H as [Hs Hk]. split.
  - intros st Hst. rewrite forallb_forall in Hs. specialize (Hs st (proj1 (list_elem_of_In _ _) Hst)). by apply forallb_in_range.
  - intros k Hk'. rewrite Hk' in Hk. by apply forallb_in_range.
Qed.
Lemma requires_ok_stmt b d i st : basic_blocks mir !! b = Some d → statements d !! i = Some st → 
  in_range nl (stmt_borrows st) ∧ in_range nl (stmt_dead st) ∧ in_range nl (stmt_moves st) ∧ in_range nl (stmt_written st).
Proof.
  intros Hd Hst%list_elem_of_lookup_2. pose proof (proj1 (requires_ok_block b d Hd) st Hst) as H.
  unfold stmt_locals in H. by rewrite !in_range_app in H.
Qed.
Lemma requires_ok_term b k : terminator_at mir b = Ret k →
  in_range nl (term_borrows k) ∧ in_range nl (term_moves k) ∧ in_range nl (term_written k) ∧ in_range nl (term_returns k).
Proof.
  intros (d & Hd & Hk)%terminator_at_opt. pose proof (proj2 (requires_ok_block b d Hd) k Hk) as H.
  unfold term_locals in H. by rewrite !in_range_app in H.
Qed.
Lemma in_range_nil : in_range nl [].
Proof. by intros ? ?%elem_of_nil. Qed.

(** *** [MaybeBorrowedLocals] follows the paths *)
Lemma bool_iff (a b : bool) : (a = true ↔ b = true) → a = b.
Proof. intros H. destruct a, b; try done; [symmetry|]; by apply H. Qed.
Lemma borrowed_flow : flow_ok mir (λ _ s, Ret s) borrow_visit_statement borrow_visit_terminator borrow_status borrow_term_status
  (Dense.new_empty nl).
Proof.
  split.
  - apply effect_ok_ret.
  - done.
  - intros bb d i st loc s Hd Hi Hs. destruct (requires_ok_stmt bb d i st Hd Hi) as (Hb & Hdd & _).
    destruct (borrow_statement_effect nl st loc Hb Hdd s Hs) as (s' & ? & ? & Hm). exists s'. split_and!; [done..|].
    intros l. apply bool_iff. rewrite Hm. unfold borrow_status.
    by rewrite orb_true_iff, andb_true_iff, negb_true_iff, bool_decide_eq_true, bool_decide_eq_false.
  - intros l st. unfold borrow_status. rewrite !orb_true_iff. simpl. intros [?|?]; [by left|done].
  - intros bb k loc s Hk Hs. destruct (requires_ok_term bb k Hk) as (Hb & _).
    destruct (borrow_terminator_effect nl k loc Hb in_range_nil s Hs) as (s' & ? & ? & Hm). exists s'. split_and!; [done..|].
    intros l. apply bool_iff. rewrite Hm. unfold borrow_term_status. rewrite orb_true_iff, bool_decide_eq_true, elem_of_nil. clear. tauto.
  - intros l k. unfold borrow_term_status. by rewrite !orb_true_iff; intros [?|?]; [left|].
Qed.

Lemma borrowed_laws : AnalysisLaws maybe_borrowed_locals mir.
Proof. exact (flow_laws mir Hlsmall _ _ _ _ _ _ borrowed_flow). Qed.

(** [l] may be borrowed before the statement or terminator at [loc]: some path
    borrows it, and its storage does not end after that. *)
Definition borrowed_before (l : Local) (loc : Location) : Prop :=
  ∃ d v, basic_blocks mir !! loc_block loc = Some d ∧
    status_path mir (borrow_status l) (borrow_term_status l) false false (loc_block loc) v ∧
    fold_left (borrow_status l) (take (statement_index loc) (statements d)) v = true.

Lemma fold_borrow_mono l sts (x y : bool) : (x = true → y = true) → fold_left (borrow_status l) sts x = true →
  fold_left (borrow_status l) sts y = true.
Proof.
  revert x y. induction sts as [|st sts IH]; intros x y Hxy; [exact Hxy|]. apply IH. unfold borrow_status.
  rewrite !orb_true_iff, !andb_true_iff. intros [?|[? ?]]; [by left|right; auto].
Qed.

(** The effects before that of position [i]. *)
Lemma borrowed_prefix b data i : ∀ s, block_at mir b = Ret data → i ≤ length (statements data) → live_wf nl s → ∃ s',
  apply_effects maybe_borrowed_locals b data s (seq 0 (2 * i)) = Ret s' ∧ live_wf nl s' ∧
  ∀ l, bs_mem dense_ops s' l = fold_left (borrow_status l) (take i (statements data)) (bs_mem dense_ops s l).
Proof.
  intros s Hd. assert (Hdb : basic_blocks mir !! b = Some data) by (by apply block_lookup). revert s.
  unfold apply_effects. cbn [direction maybe_borrowed_locals]. change 0 with (2 * 0) at 1. setoid_rewrite ofold_pairs.
  induction i as [|i IH]; intros s Hi Hwf; [by exists s|].
  destruct (IH s ltac:(lia) Hwf) as (s1 & Hs1 & Hw1 & Hm1). destruct (lookup_lt_is_Some_2 (statements data) i) as [st Hst]; [lia|].
  destruct (fl_stmt _ _ _ _ _ _ _ borrowed_flow b data i st (mkLocation b i) s1 Hdb Hst Hw1) as (s2 & Hs2 & Hw2 & Hm2).
  exists s2. rewrite seq_S, ofold_app, Hs1. cbn [mbind outcome_bind ofold Nat.add].
  rewrite (effect_pair Forward data (λ s idx, apply_effect maybe_borrowed_locals s b data idx)). cbn [is_forward].
  cbv zeta. rewrite (apply_effect_statement maybe_borrowed_locals b data i st) by done. cbn [mbind outcome_bind maybe_borrowed_locals apply_early_statement_effect].
  rewrite (apply_effect_statement maybe_borrowed_locals b data i st) by done.
  cbn [maybe_borrowed_locals apply_primary_statement_effect]. rewrite Hs2. split_and!; [done..|].
  intros l. by rewrite (take_S_r _ _ st), fold_left_app, Hm2, Hm1.
Qed.

(** The state a cursor shows before the primary effect. *)
Lemma borrowed_state_at E b data s i : block_at mir b = Ret data → E !! b = Some s → live_wf nl s → i ≤ length (statements data) →
  ∃ s', state_at maybe_borrowed_locals mir E (mkLocation b i) Early = Ret s' ∧ live_wf nl s' ∧
    ∀ l, bs_mem dense_ops s' l = fold_left (borrow_status l) (take i (statements data)) (bs_mem dense_ops s l).
Proof.
  intros Hd Hs Hwf Hi. assert (Hdb : basic_blocks mir !! b = Some data) by by apply block_lookup.
  unfold state_at, effects_through. simpl loc_block. rewrite Hd. cbn [mbind outcome_bind statement_index].
  unfold state_after. rewrite Hd, Hs. cbn [unwrap mbind outcome_bind]. unfold effect_rank. cbn [direction maybe_borrowed_locals is_forward idx_statement idx_effect at_index].
  replace (S (2 * i + 0)) with (2 * i + 1) by lia. rewrite seq_app, apply_effects_app.
  destruct (borrowed_prefix b data i s Hd Hi Hwf) as (s1 & -> & Hw1 & Hm1). cbn [mbind outcome_bind]. exists s1. split_and!; [|done..].
  unfold apply_effects. cbn [Nat.add seq ofold direction maybe_borrowed_locals]. unfold effect_at. destruct (half_double i) as (H1 & _ & H3 & _).
  rewrite H1, H3. cbn [is_forward]. change (mkEffectIndex i Early) with (at_index Early i).
  destruct (terminator_at_ok mir b Hok) as [k Hk]; [by eapply lookup_lt_Some|]. unfold terminator_at in Hk. rewrite Hd in Hk.
  destruct (decide (i = length (statements data))) as [->|].
  - by rewrite (apply_effect_terminator maybe_borrowed_locals b data k).
  - destruct (lookup_lt_is_Some_2 (statements data) i) as [st Hst]; [lia|]. by rewrite (apply_effect_statement maybe_borrowed_locals b data i st).
Qed.

(** The states of a cursor are those of the paths. *)
Lemma borrowed_before_iff E b data s i : block_at mir b = Ret data → E !! b = Some s → live_wf nl s → i ≤ length (statements data) →
  cfg_reach mir START_BLOCK b →
  (∀ l, mem s l ↔ status_path mir (borrow_status l) (borrow_term_status l) false false b true) →
  ∃ s', state_at maybe_borrowed_locals mir E (mkLocation b i) Early = Ret s' ∧ live_wf nl s' ∧
    ∀ l, mem s' l ↔ borrowed_before l (mkLocation b i).
Proof.
  intros Hd Hs Hwf Hi Hr Hpath. destruct (borrowed_state_at E b data s i Hd Hs Hwf Hi) as (s' & Hs' & Hw' & Hm').
  exists s'. split_and!; [done..|]. intros l. rewrite Hm'. unfold borrowed_before. cbn [loc_block statement_index].
  rewrite (block_lookup mir b data Hd). split.
  - intros Hf. destruct (bs_mem dense_ops s l) eqn:Hsl.
    + exists data, true. split_and!; [done|by apply Hpath|done].
    + destruct (status_path_exists mir (borrow_status l) (borrow_term_status l) false false b Hok Hr) as [v Hv].
      exists data, v. split_and!; [done..|]. by eapply fold_borrow_mono, Hf.
  - intros (d & v & [= <-] & Hv & Hf). eapply fold_borrow_mono, Hf. intros ->. by apply Hpath.
Qed.

(** *** The locals a move kills *)
Definition moves_at (loc : Location) : list Local :=
  match basic_blocks mir !! loc_block loc with
  | Some d =>
      match statements d !! statement_index loc with
      | Some st => stmt_moves st
      | None => if statement_index loc =? length (statements d) then
                  match terminator_opt d with Some k => term_moves k | None => [] end
                else []
      end
  | None => []
  end.
Definition at_loc (loc : Location) (ls : list Local) : list (Location * Local) := (λ l, (loc, l)) <$> ls.
Definition block_moves (b : BasicBlock) (d : BasicBlockData) : list (Location * Local) :=
  concat ((λ e, at_loc (mkLocation b e.1) (stmt_moves e.2)) <$> enumerate (statements d)) ++
  match terminator_opt d with Some k => at_loc (mkLocation b (length (statements d))) (term_moves k) | None => [] end.

Lemma elem_of_at_loc loc loc' l ls : (loc', l) ∈ at_loc loc ls ↔ loc' = loc ∧ l ∈ ls.
Proof. unfold at_loc. rewrite list_elem_of_fmap. split; [by intros (? & [= -> ->] & ?)|intros [-> ?]; by exists l]. Qed.
Lemma elem_of_block_moves b d loc l : basic_blocks mir !! b = Some d →
  (loc, l) ∈ block_moves b d ↔ loc_block loc = b ∧ l ∈ moves_at loc.
Proof.
  intros Hd. unfold block_moves. rewrite elem_of_app, elem_of_concat. destruct loc as [b' i]. cbn [loc_block]. split.
  - intros [(ls & Hin & ([j st] & -> & Hj%elem_of_enumerate)%list_elem_of_fmap)|Hin].
    + apply elem_of_at_loc in Hin as [[= -> ->] Hl]. split; [done|]. unfold moves_at. cbn [loc_block statement_index]. by rewrite Hd, Hj.
    + destruct (terminator_opt d) as [k|] eqn:Hk; [|by apply elem_of_nil in Hin]. apply elem_of_at_loc in Hin as [[= -> ->] Hl]. split; [done|].
      unfold moves_at. cbn [loc_block statement_index]. by rewrite Hd, lookup_ge_None_2, Nat.eqb_refl, Hk by done.
  - intros [-> Hl]. unfold moves_at in Hl. cbn [loc_block statement_index] in Hl. rewrite Hd in Hl. destruct (statements d !! i) as [st|] eqn:Hi.
    + left. eexists. split; [by apply elem_of_at_loc|]. apply list_elem_of_fmap. exists (i, st). split; [done|]. by apply elem_of_enumerate.
    + right. destruct (Nat.eqb_spec i (length (statements d))) as [->|]; [|by apply elem_of_nil in Hl].
      destruct (terminator_opt d); [|by apply elem_of_nil in Hl]. by apply elem_of_at_loc.
Qed.

Lemma moves_at_in_range loc : in_range nl (moves_at loc).
Proof.
  destruct loc as [b i]. unfold moves_at. cbn [loc_block statement_index]. destruct (basic_blocks mir !! b) as [d|] eqn:Hd; [|apply in_range_nil].
  destruct (statements d !! i) as [st|] eqn:Hi; [by apply (requires_ok_stmt b d i st)|]. destruct (_ =? _); [|apply in_range_nil].
  destruct (terminator_opt d) as [k|] eqn:Hk; [|apply in_range_nil]. apply (requires_ok_term b k).
  unfold terminator_at, block_at, terminator. rewrite Hd. simpl. by rewrite Hk.
Qed.

Section killable.
Context (E : list DenseBitSet) (V : DenseBitSet) (fuel : nat).
Definition killable_step (self : KillableLocalsVisitor) (e : Location * Local) : outcome KillableLocalsVisitor :=
  killable_visit_local mir E V fuel self e.2 (NonMutatingUse NmMove) e.1.

Lemma killable_silent s l c loc : c ≠ NonMutatingUse NmMove → killable_visit_local mir E V fuel s l c loc = Ret s.
Proof. intros Hc. unfold killable_visit_local. rewrite bool_decide_false; [done|congruence]. Qed.
Lemma killable_do_moves loc s ls : do_moves (killable_visit_local mir E V fuel) loc s ls = ofold killable_step s (at_loc loc ls).
Proof. unfold do_moves, at_loc. by rewrite <-ofold_fmap. Qed.
Lemma killable_block_eq self b d : basic_blocks mir !! b = Some d →
  killable_visit_block mir E V fuel self b = ofold killable_step self (block_moves b d).
Proof.
  intros Hd. unfold killable_visit_block, block_at, block_moves. rewrite Hd, ofold_app. cbn [unwrap mbind outcome_bind].
  rewrite <-ofold_concat. unfold killable_visitor. erewrite ofold_ext.
  2:{ intros s e _. rewrite statement_moves_eq by apply killable_silent. apply killable_do_moves. }
  destruct (ofold _ self _) as [s1| |]; [|done..]. cbn [mbind outcome_bind]. destruct (terminator_opt d) as [k|]; [|done].
  rewrite terminator_moves_eq by apply killable_silent. apply killable_do_moves.
Qed.

Lemma moves_at_valid loc l : l ∈ moves_at loc → ∃ d, block_at mir (loc_block loc) = Ret d ∧ statement_index loc ≤ length (statements d).
Proof.
  unfold moves_at, block_at. destruct (basic_blocks mir !! loc_block loc) as [d|]; [|by intros ?%elem_of_nil]. intros Hl. exists d. split; [done|].
  destruct (statements d !! statement_index loc) eqn:Hi; [apply lookup_lt_Some in Hi; lia|].
  destruct (Nat.eqb_spec (statement_index loc) (length (statements d))); [lia|by apply elem_of_nil in Hl].
Qed.
Lemma elem_of_push m loc l loc' l' : l' ∈ default [] (push_killable m loc l !! loc') ↔
  l' ∈ default [] (m !! loc') ∨ (loc', l') = (loc, l).
Proof.
  unfold push_killable. destruct (decide (loc = loc')) as [<-|Hne].
  - rewrite lookup_insert_eq. simpl. rewrite elem_of_app, list_elem_of_singleton. split; (intros [?|H]; [by left|right; congruence]).
  - rewrite lookup_insert_ne by done. split; [by left|]. intros [?|[= ? ?]]; [done|congruence].
Qed.

Record killable_inv (pre : list (Location * Local)) (self : KillableLocalsVisitor) : Prop := {
  ki_cursor : cursor_ok maybe_borrowed_locals mir E V (borrowed_locals_cursor self);
  ki_locals loc l : l ∈ default [] (killable_locals self !! loc) ↔ (loc, l) ∈ pre ∧ ¬ borrowed_before l loc }.

End killable.
Section killable_steps.
Context (E : list DenseBitSet) (V : DenseBitSet).
Context (HR : results_ok maybe_borrowed_locals mir E V) (Hlaws : AnalysisLaws maybe_borrowed_locals mir).
Context (Hpath : ∀ b, cfg_reach mir START_BLOCK b → ∃ s, E !! b = Some s ∧ live_wf nl s ∧
  ∀ l, mem s l ↔ status_path mir (borrow_status l) (borrow_term_status l) false false b true).

Lemma killable_step_ok pre loc l self : cfg_reach mir START_BLOCK (loc_block loc) → l ∈ moves_at loc → killable_inv E V pre self →
  ∃ self', killable_step E V (cursor_fuel mir) self (loc, l) = Ret self' ∧ killable_inv E V (pre ++ [(loc, l)]) self'.
Proof.
  intros Hr Hl [Hc Hk]. destruct HR as [Hwf Hlen HVw HVs HVr]. destruct (moves_at_valid loc l Hl) as (d & Hd & Hi).
  destruct (run_op_ok maybe_borrowed_locals mir E Hok Hwf Hlen V HVw HVs HVr _ (SeekBeforePrimary loc) Hc) as (c' & Hc' & Hst & Hcok).
  { split; [done|]. by exists d. }
  destruct (Hpath _ Hr) as (s & Hs & Hws & Hms). destruct loc as [b i]. cbn [loc_block statement_index] in *.
  destruct (borrowed_before_iff E b d s i Hd Hs Hws Hi Hr Hms) as (s' & Hs' & [Hw' Hd'] & Hm').
  assert (Heq : cur_state c' = s') by (simpl in Hst; congruence).
  unfold killable_step, killable_visit_local. cbn [fst snd]. rewrite bool_decide_true by done.
  simpl in Hc'. rewrite Hc'. cbn [mbind outcome_bind]. rewrite Heq, dense_contains_ok; [|done|rewrite Hd'; by apply (moves_at_in_range (mkLocation b i))].
  cbn [mbind outcome_bind]. eexists. split; [reflexivity|]. split; [done|]. intros loc' l'. cbn [killable_locals].
  specialize (Hm' l). simpl in Hm'. rewrite elem_of_app, list_elem_of_singleton.
  destruct (has (words s') l); cbn [negb]; [|rewrite elem_of_push]; rewrite Hk.
  - split; [intros [? ?]; split; [by left|done]|]. intros [[?|[= -> ->]] Hn]; [done|]. destruct Hn. by apply Hm'.
  - split; [intros [[? ?]|[= -> ->]]; (split; [by left|done]) || (split; [by right|]; by rewrite <-Hm')|].
    intros [[?|?] Hn]; [by left|by right].
Qed.

Lemma requires_storage_new_ok traversal : (∀ b, b ∈ traversal ↔ cfg_reach mir START_BLOCK b) → ∃ K,
  new_requires_storage mir E V (cursor_fuel mir) traversal = Ret K ∧
  ∀ loc l, l ∈ default [] (K !! loc) ↔ cfg_reach mir START_BLOCK (loc_block loc) ∧ l ∈ moves_at loc ∧ ¬ borrowed_before l loc.
Proof.
  intros Htr. unfold new_requires_storage.
  assert (Hlt : ∀ b, b ∈ traversal → ∃ d, basic_blocks mir !! b = Some d).
  { intros b Hb%Htr. apply lookup_lt_is_Some_2. eapply cfg_reach_lt; [done..|by apply start_lt]. }
  set (moves b := match basic_blocks mir !! b with Some d => block_moves b d | None => [] end).
  rewrite (ofold_ext _ (λ self b, ofold (killable_step E V (cursor_fuel mir)) self (moves b))).
  2:{ intros self b Hb. destruct (Hlt b Hb) as [d Hd]. unfold moves. rewrite Hd. by apply killable_block_eq. }
  rewrite ofold_concat.
  assert (Hin : ∀ loc l, (loc, l) ∈ concat (moves <$> traversal) ↔ cfg_reach mir START_BLOCK (loc_block loc) ∧ l ∈ moves_at loc).
  { intros loc l. rewrite elem_of_concat. split.
    - intros (ls & Hls & (b & -> & Hb)%list_elem_of_fmap). destruct (Hlt b Hb) as [d Hd]. unfold moves in Hls. rewrite Hd in Hls.
      apply elem_of_block_moves in Hls as [<- ?]; [|done]. by split; [apply Htr|].
    - intros [Hr%Htr Hl]. exists (moves (loc_block loc)). split; [|by apply list_elem_of_fmap_2]. destruct (Hlt _ Hr) as [d Hd]. unfold moves. rewrite Hd.
      by apply elem_of_block_moves. }
  destruct (ofold_total (killable_step E V (cursor_fuel mir)) (killable_inv E V) (concat (moves <$> traversal))
    (mkKillable (new_cursor maybe_borrowed_locals mir) ∅)) as (self & -> & [_ Hk]).
  - split; [by left|]. intros loc l. simpl. rewrite lookup_empty. simpl. rewrite !elem_of_nil. tauto.
  - intros pre [loc l] self [Hr Hl]%Hin HI. by apply killable_step_ok.
  - eexists. split; [reflexivity|]. intros loc l. rewrite Hk, Hin. tauto.
Qed.
End killable_steps.

(** *** [MaybeRequiresStorage] *)
Section requires.
Context (K : KillableLocals) (HK : ∀ loc, in_range nl (default [] (K !! loc))).
Abbreviation A := (ReqStorage.maybe_requires_storage K).
Definition kills_at (loc : Location) : list Local := default [] (K !! loc).

Lemma check_for_move_effect loc : live_effect nl (λ s, ReqStorage.check_for_move K s loc) [] (kills_at loc).
Proof.
  unfold ReqStorage.check_for_move, kills_at. destruct (K !! loc); [apply live_effect_kill_all|apply live_effect_ret].
Qed.
Lemma gen_written_effect st : live_effect nl (λ s, ReqStorage.gen_written s st) (stmt_written st) [].
Proof. destruct st; first [apply live_effect_gen|apply live_effect_ret]. Qed.
Lemma early_statement_effect st loc :
  live_effect nl (λ s, ReqStorage.early_statement s st loc) (stmt_written st ++ stmt_borrows st) (stmt_dead st).
Proof.
  unfold ReqStorage.early_statement. destruct st as [p rv| | | |l| | | | | | |];
    try (eapply live_effect_same, (live_effect_seq nl _ (λ s, Ret s)); [| |apply borrow_statement_effect|apply live_effect_ret]; set_solver);
    (eapply live_effect_same, live_effect_seq; [| |apply borrow_statement_effect|first [apply live_effect_gen|apply live_effect_kill]]);
    intros; rewrite ?elem_of_app, ?list_elem_of_difference; simpl; set_solver.
Qed.
Lemma primary_statement_effect st loc :
  live_effect nl (λ s, ReqStorage.primary_statement K s st loc) (stmt_written st) (kills_at loc).
Proof.
  eapply live_effect_same, (live_effect_seq nl _ (λ s, ReqStorage.gen_written s st)); [| |apply check_for_move_effect|apply gen_written_effect];
    intros; rewrite ?elem_of_app, ?list_elem_of_difference; set_solver.
Qed.
Lemma early_terminator_effect k loc :
  live_effect nl (λ s, ReqStorage.early_terminator s k loc) (term_borrows k ++ term_written k) [].
Proof.
  unfold ReqStorage.early_terminator. eapply (live_effect_bind nl (λ s, borrow_visit_terminator s k loc)); [apply borrow_terminator_effect|].
  destruct k as [| | | | | | | | | | | | | |operands ts u]; try apply live_effect_ret; [apply live_effect_gen|].
  eapply live_effect_perm; [|apply (live_effect_ofold nl _ (λ op, pl_local <$> option_list (asm_out_place op)))].
  - intros l. simpl. induction operands as [|op ops IH]; [done|]. simpl. rewrite elem_of_app, IH.
    destruct (asm_out_place op); simpl; [by rewrite list_elem_of_singleton, elem_of_cons|]. rewrite elem_of_nil. tauto.
  - intros [|[]|? []| | | |]; simpl; first [apply live_effect_gen|apply live_effect_ret].
Qed.
Lemma ofold_kill_places ps : live_effect nl (λ s, ofold (λ state place, kill state (pl_local place)) s ps) [] (pl_local <$> ps).
Proof. eapply live_effect_ext; [intros s; apply (ofold_fmap kill pl_local)|apply live_effect_kill_all]. Qed.
Lemma primary_terminator_effect k loc :
  live_effect nl (λ s, ReqStorage.primary_terminator K s k loc) [] (term_written k ++ kills_at loc).
Proof.
  unfold ReqStorage.primary_terminator. eapply (live_effect_kills nl _ _ (term_written k)); [|apply check_for_move_effect].
  destruct k; try apply live_effect_ret; [apply live_effect_kill|apply ofold_kill_places].
Qed.
Lemma call_return_effect b rp : live_effect nl (λ s, ReqStorage.call_return s b rp) (pl_local <$> return_places rp) [].
Proof. eapply live_effect_ext; [intros s; apply (ofold_fmap gen_ pl_local)|apply live_effect_gens]. Qed.

Lemma requires_init s : live_wf nl s → ∃ s', ReqStorage.initialize mir s = Ret s' ∧ live_wf nl s' ∧
  ∀ l, bs_mem dense_ops s' l = bool_decide (l ∈ drop 1 (args_iter mir)) || bs_mem dense_ops s l.
Proof.
  intros Hs. apply (gens_ok mir); [done|]. unfold args_iter. rewrite drop_seq. intros l Hl%elem_of_seq.
  unfold requires_ok in Hreq. apply andb_true_iff in Hreq as [_ H%Nat.ltb_lt]. lia.
Qed.

Lemma borrows_written_range b d i st : basic_blocks mir !! b = Some d → statements d !! i = Some st →
  in_range nl (stmt_written st ++ stmt_borrows st) ∧ in_range nl (stmt_dead st) ∧ in_range nl (stmt_written st).
Proof. intros Hd Hi. destruct (requires_ok_stmt b d i st Hd Hi) as (? & ? & _ & ?). by rewrite in_range_app. Qed.
Lemma term_range b k loc : terminator_at mir b = Ret k →
  in_range nl (term_borrows k ++ term_written k) ∧ in_range nl (term_written k ++ kills_at loc) ∧ in_range nl (term_returns k).
Proof. intros Hk. destruct (requires_ok_term b k Hk) as (? & _ & ? & ?). rewrite !in_range_app. split_and!; try done. apply HK. Qed.
Lemma returns_range b k rp : terminator_at mir b = Ret k → returns_to k rp → in_range nl (pl_local <$> return_places rp).
Proof.
  intros Hk (t & r & cl & He). destruct (requires_ok_term b k Hk) as (_ & _ & _ & Hr). unfold term_returns in Hr. by rewrite He in Hr.
Qed.

Lemma requires_laws : AnalysisLaws A mir.
Proof.
  split; try done.
  - exact (bits_lattice_laws dense_ops nl).
  - split; [by apply dense_new_empty_wf|done].
  - intros s _ i. simpl. by rewrite has_replicate_0.
  - intros s Hs. destruct (requires_init s Hs) as (s' & ? & ? & _). eauto.
  - intros b d i st loc Hd Hi. destruct (borrows_written_range b d i st Hd Hi) as (? & ? & ?).
    by eapply (live_effect_ok mir), early_statement_effect.
  - intros b d i st loc Hd Hi. destruct (borrows_written_range b d i st Hd Hi) as (? & ? & ?).
    eapply (live_effect_ok mir), primary_statement_effect; [done|apply HK].
  - intros b k loc Hk. destruct (term_range b k loc Hk) as (? & ? & ?).
    eapply (live_effect_ok mir), early_terminator_effect; [done|apply in_range_nil].
  - intros b k loc Hk. destruct (term_range b k loc Hk) as (? & ? & ?).
    eapply (live_effect_ok mir), primary_terminator_effect; [apply in_range_nil|done].
  - intros b b' k rp Hk Hr. eapply (live_effect_ok mir), call_return_effect; [by eapply returns_range|apply in_range_nil].
Qed.
Lemma requires_mono : AnalysisMono A mir.
Proof.
  split.
  - intros b d i st loc Hd Hi. destruct (borrows_written_range b d i st Hd Hi) as (? & ? & ?).
    by eapply (live_effect_mono mir), early_statement_effect.
  - intros b d i st loc Hd Hi. destruct (borrows_written_range b d i st Hd Hi) as (? & ? & ?).
    eapply (live_effect_mono mir), primary_statement_effect; [done|apply HK].
  - intros b k loc Hk. destruct (term_range b k loc Hk) as (? & ? & ?).
    eapply (live_effect_mono mir), early_terminator_effect; [done|apply in_range_nil].
  - intros b k loc Hk. destruct (term_range b k loc Hk) as (? & ? & ?).
    eapply (live_effect_mono mir), primary_terminator_effect; [apply in_range_nil|done].
  - intros b b' k rp Hk Hr. eapply (live_effect_mono mir), call_return_effect; [by eapply returns_range|apply in_range_nil].
Qed.

(** **** Along paths *)
Section need.
Context (l : Local).
(** Whether [l] needs its storage after a statement, after a terminator, and on
    its edges. *)
Definition need_stmt (b : BasicBlock) (v : bool) (e : nat * StatementKind) : bool :=
  bool_decide (l ∈ stmt_written e.2) ||
  (bool_decide (l ∈ stmt_written e.2 ++ stmt_borrows e.2) || v && negb (bool_decide (l ∈ stmt_dead e.2))) &&
    negb (bool_decide (l ∈ kills_at (mkLocation b e.1))).
Definition need_term (loc : Location) (v : bool) (k : TerminatorKind) : bool :=
  (bool_decide (l ∈ term_borrows k ++ term_written k) || v) && negb (bool_decide (l ∈ term_written k ++ kills_at loc)).
Definition need_block (b : BasicBlock) (d : BasicBlockData) (k : TerminatorKind) (v : bool) : bool :=
  need_term (mkLocation b (length (statements d))) (fold_left (need_stmt b) (enumerate (statements d)) v) k.
Definition need_edges (k : TerminatorKind) (v : bool) : list (BasicBlock * bool) :=
  match edges k with
  | EdgesNone => []
  | EdgesSingle target => [(target, v)]
  | EdgesDouble target unwind => [(target, v); (unwind, v)]
  | EdgesAssignOnReturn return_ cleanup place =>
      ((λ c, (c, v)) <$> option_list cleanup) ++ ((λ t, (t, bool_decide (l ∈ pl_local <$> return_places place) || v)) <$> return_)
  | EdgesSwitchInt targets _ => (λ t, (t, v)) <$> st_targets targets
  end.

(** Some path reaches the start of the block with [l] in that state, which the
    drop edge of an asynchronous drop forgets. *)
Inductive need_path : BasicBlock → bool → Prop :=
  | np_start : need_path START_BLOCK (bool_decide (l ∈ drop 1 (args_iter mir)))
  | np_edge b d k v c w : need_path b v → basic_blocks mir !! b = Some d → terminator_opt d = Some k →
      (c, w) ∈ need_edges k (need_block b d k v) → need_path c w
  | np_drop b v c : need_path b v → drop_edge mir b c → need_path c false.

Definition implies (x y : bool) : Prop := x = true → y = true.
Lemma need_stmt_mono b e x y : implies x y → implies (need_stmt b x e) (need_stmt b y e).
Proof.
  unfold implies, need_stmt. rewrite !orb_true_iff, !andb_true_iff, !orb_true_iff, !andb_true_iff. naive_solver.
Qed.
Lemma need_block_mono b d k x y : implies x y → implies (need_block b d k x) (need_block b d k y).
Proof.
  intros Hxy. unfold need_block. assert (H : implies (fold_left (need_stmt b) (enumerate (statements d)) x)
    (fold_left (need_stmt b) (enumerate (statements d)) y)).
  { revert x y Hxy. induction (enumerate (statements d)) as [|e es IH]; intros x y Hxy; [done|]. by apply IH, need_stmt_mono. }
  unfold implies, need_term in *. rewrite !andb_true_iff, !orb_true_iff. naive_solver.
Qed.
Lemma need_edges_mono k x y : implies x y →
  Forall2 (λ a b : BasicBlock * bool, a.1 = b.1 ∧ implies a.2 b.2) (need_edges k x) (need_edges k y).
Proof.
  intros Hxy. assert (Hm : ∀ (g h : BasicBlock → BasicBlock * bool) ts, (∀ t, (g t).1 = (h t).1 ∧ implies (g t).2 (h t).2) →
    Forall2 (λ a b : BasicBlock * bool, a.1 = b.1 ∧ implies a.2 b.2) (g <$> ts) (h <$> ts)).
  { intros g h ts Hgh. induction ts; simpl; constructor; [apply Hgh|done]. }
  unfold need_edges. destruct (edges k) as [| | |r c p|]; repeat constructor; try done.
  - apply Forall2_app; apply Hm; intros t; (split; [done|]); simpl; [done|].
    unfold implies in *. rewrite !orb_true_iff. naive_solver.
  - by apply Hm.
Qed.
Lemma need_edges_lookup k x y i c w : implies x y → need_edges k x !! i = Some (c, w) →
  ∃ w', need_edges k y !! i = Some (c, w') ∧ implies w w'.
Proof.
  intros Hxy Hi. destruct (Forall2_lookup_l _ _ _ _ _ (need_edges_mono k x y Hxy) Hi) as ([c' w'] & Hi' & Hc & Hw). simpl in *. subst. by exists w'.
Qed.

(** What a block emits, bit by bit. *)
Lemma need_statement b d i st s : basic_blocks mir !! b = Some d → statements d !! i = Some st → live_wf nl s → ∃ s',
  statement_effects A b s (i, st) = Ret s' ∧ live_wf nl s' ∧ bs_mem dense_ops s' l = need_stmt b (bs_mem dense_ops s l) (i, st).
Proof.
  intros Hd Hi Hs. destruct (borrows_written_range b d i st Hd Hi) as (H1 & H2 & H3).
  destruct (early_statement_effect st (mkLocation b i) H1 H2 s Hs) as (s1 & Hs1 & Hw1 & Hm1).
  destruct (primary_statement_effect st (mkLocation b i) H3 ltac:(apply HK) s1 Hw1) as (s2 & Hs2 & Hw2 & Hm2).
  unfold statement_effects. cbn [fst snd apply_early_statement_effect apply_primary_statement_effect ReqStorage.maybe_requires_storage].
  rewrite Hs1. cbn [mbind outcome_bind]. exists s2. split_and!; [done..|]. apply bool_iff. rewrite Hm2, Hm1. unfold need_stmt. cbn [fst snd].
  by rewrite !orb_true_iff, !andb_true_iff, !orb_true_iff, !andb_true_iff, !negb_true_iff, !bool_decide_eq_true, !bool_decide_eq_false.
Qed.
Lemma need_statements b d es : basic_blocks mir !! b = Some d → es ⊆ enumerate (statements d) → ∀ s, live_wf nl s → ∃ s',
  ofold (statement_effects A b) s es = Ret s' ∧ live_wf nl s' ∧ bs_mem dense_ops s' l = fold_left (need_stmt b) es (bs_mem dense_ops s l).
Proof.
  intros Hd. induction es as [|[i st] es IH]; intros Hes s Hs; [by exists s|].
  assert (Hi : statements d !! i = Some st) by (apply elem_of_enumerate, Hes; left).
  destruct (need_statement b d i st s Hd Hi Hs) as (s1 & Hs1 & Hw1 & Hm1). cbn [ofold]. rewrite Hs1. cbn [mbind outcome_bind].
  destruct (IH ltac:(set_solver) s1 Hw1) as (s' & Hs' & Hw' & Hm'). exists s'. split_and!; [done..|]. by rewrite Hm', Hm1.
Qed.
Lemma need_terminator b k loc s : terminator_at mir b = Ret k → live_wf nl s → ∃ s1 s2,
  ReqStorage.early_terminator s k loc = Ret s1 ∧ ReqStorage.primary_terminator K s1 k loc = Ret s2 ∧ live_wf nl s2 ∧
  bs_mem dense_ops s2 l = need_term loc (bs_mem dense_ops s l) k.
Proof.
  intros Hk Hs. destruct (term_range b k loc Hk) as (H1 & H2 & _).
  destruct (early_terminator_effect k loc H1 in_range_nil s Hs) as (s1 & Hs1 & Hw1 & Hm1).
  destruct (primary_terminator_effect k loc in_range_nil H2 s1 Hw1) as (s2 & Hs2 & Hw2 & Hm2).
  exists s1, s2. split_and!; [done..|]. apply bool_iff. rewrite Hm2, Hm1. unfold need_term.
  rewrite !andb_true_iff, !orb_true_iff, !negb_true_iff, !bool_decide_eq_true, !bool_decide_eq_false. rewrite !elem_of_nil. clear. tauto.
Qed.
Lemma need_forw b k s ems : terminator_at mir b = Ret k → live_wf nl s → forw_emissions A b s (edges k) = Ret ems →
  (λ e : BasicBlock * DenseBitSet, (e.1, bs_mem dense_ops e.2 l)) <$> ems = need_edges k (bs_mem dense_ops s l).
Proof.
  intros Hk Hs. assert (Hfm : ∀ (ts : list BasicBlock) x, (λ e : BasicBlock * DenseBitSet, (e.1, bs_mem dense_ops e.2 l)) <$> ((λ t, (t, x)) <$> ts) =
    (λ t, (t, bs_mem dense_ops x l)) <$> ts) by (intros ts x; by rewrite <-list_fmap_compose).
  unfold need_edges. destruct (edges k) as [|t|t u|[|r rs] cleanup place|ts op] eqn:He; simpl; try (intros [= <-]; done).
  - intros [= <-]. by destruct cleanup.
  - assert (Hr : in_range nl (pl_local <$> return_places place)) by (apply (returns_range b k); [done|by eexists _, _, _]).
    destruct (call_return_effect b place Hr in_range_nil s Hs) as (s' & Hs' & _ & Hm'). rewrite Hs'. cbn [mbind outcome_bind].
    intros [= <-]. rewrite fmap_app. f_equal; [by destruct cleanup|].
    assert (Hb : bs_mem dense_ops s' l = bool_decide (l ∈ pl_local <$> return_places place) || bs_mem dense_ops s l).
    { apply bool_iff. rewrite Hm'. rewrite orb_true_iff, bool_decide_eq_true, elem_of_nil. clear. tauto. }
    change (bs_mem dense_ops s l) with (has (words s) l) in Hb. rewrite <-Hb. apply (Hfm (r :: rs) s').
Qed.
Lemma need_emission b s ems : b < length (basic_blocks mir) → live_wf nl s → emissions A mir s b = Ret ems → ∃ d k,
  basic_blocks mir !! b = Some d ∧ terminator_opt d = Some k ∧
  (λ e : BasicBlock * DenseBitSet, (e.1, bs_mem dense_ops e.2 l)) <$> ems = need_edges k (need_block b d k (bs_mem dense_ops s l)).
Proof.
  intros Hb Hs Hems. pose proof requires_laws as Hlaws.
  destruct (forward_trace A mir Hok b s eq_refl Hb Hs) as (d & k & s1 & s2 & ems' & Hd & Hk & Hs1 & Hs2 & Hems' & Htr & _).
  rewrite (traced_emissions A mir b s d ems' Hd Htr) in Hems. injection Hems as <-.
  destruct (terminator_at_opt mir b k Hk) as (d' & Hdb & Hdk). assert (d' = d) as ->.
  { unfold block_at in Hd. rewrite Hdb in Hd. by injection Hd. }
  exists d, k. split_and!; [done..|]. destruct (need_statements b d (enumerate (statements d)) Hdb ltac:(done) s Hs) as (t & Ht & Hwt & Hmt).
  destruct (need_terminator b k (mkLocation b (length (statements d))) t Hk Hwt) as (t1 & t2 & Ht1 & Ht2 & Hw2 & Hm2).
  unfold before_terminator in Hs1. rewrite Ht in Hs1. cbn [mbind outcome_bind] in Hs1. unfold terminator in Hs1. rewrite Hdk in Hs1.
  cbn [unwrap mbind outcome_bind] in Hs1. assert (s1 = t1) as -> by (cbn in Hs1; congruence). assert (s2 = t2) as -> by (cbn in Hs2; congruence).
  rewrite (need_forw b k t2 ems' Hk Hw2 Hems'). unfold need_block. by rewrite Hm2, Hmt.
Qed.

(** **** The fixpoint holds exactly the locals needed after some path *)
Lemma need_edges_targets k v : (need_edges k v).*1 = edge_targets (edges k).
Proof.
  unfold need_edges. destruct (edges k); simpl; try done; rewrite ?fmap_app, <-!list_fmap_compose; [f_equal|]; apply list_fmap_id.
Qed.
Lemma need_edges_cover k v c : c ∈ edge_targets (edges k) ↔ ∃ w, (c, w) ∈ need_edges k v.
Proof.
  rewrite <-(need_edges_targets k v), list_elem_of_fmap. split.
  - intros ([c' w] & -> & Hin). by exists w.
  - intros [w Hw]. by exists (c, w).
Qed.
Lemma need_path_exists b : cfg_reach mir START_BLOCK b → ∃ v, need_path b v.
Proof.
  revert b. apply (rtc_ind_r (λ b, ∃ v, need_path b v)); [eexists; constructor|].
  intros b c Hb Hbc [v Hv]. assert (Hbn : b < length (basic_blocks mir)) by (eapply cfg_reach_lt; [done..|by apply start_lt]).
  apply (cfg_edge_cases mir b c Hok Hbn) in Hbc as [(k & Hk & Hc)|Hbc]; [|eexists; by eapply np_drop].
  destruct (terminator_at_opt mir b k Hk) as (d & Hd & Hdk).
  destruct (proj1 (need_edges_cover k (need_block b d k v) c) Hc) as [w Hw]. exists w. by eapply np_edge.
Qed.
Lemma need_start : ∃ ini, initial_states A mir = Ret ini ∧ ∀ b s, ini !! b = Some s → b < length (basic_blocks mir) ∧
  bs_mem dense_ops s l = (bool_decide (b = START_BLOCK) && bool_decide (l ∈ drop 1 (args_iter mir))).
Proof.
  pose proof requires_laws as Hlaws. destruct (initial_states_ok A mir Hok) as (ini & st & Hini & Hst & Hlen & _ & _ & Hi).
  exists ini. split; [done|]. intros b s Hs. assert (Hb : b < length (basic_blocks mir)) by (rewrite <-Hlen; by eapply lookup_lt_Some).
  split; [done|]. rewrite (Hi b Hb) in Hs. destruct (requires_init (Dense.new_empty nl)) as (s' & Hs' & _ & Hm'); [by split; [apply dense_new_empty_wf|]|].
  assert (Hst' : st = s') by (cbn in Hst; congruence). case_decide; simplify_eq.
  - rewrite (bool_decide_true (START_BLOCK = START_BLOCK)), Hm' by done. simpl. by rewrite has_replicate_0, orb_false_r.
  - rewrite (bool_decide_false (b = START_BLOCK)) by done. simpl. by rewrite has_replicate_0.
Qed.

Lemma need_sound ini : initial_states A mir = Ret ini →
  inductive_states A mir ini (λ b s, cfg_reach mir START_BLOCK b → mem s l → need_path b true).
Proof.
  intros Hini. destruct need_start as (ini' & Hini' & Hi). simplify_ret. split.
  - intros b s Hs _ Hl. destruct (Hi b s Hs) as [_ Hm]. rewrite Hl in Hm. symmetry in Hm. apply andb_true_iff in Hm as [->%bool_decide_eq_true Hm].
    rewrite <-Hm. constructor.
  - intros b s ems t x a c Hrb Hb Hws Hems Hin Hrt Ht Hwa Hlub _ Hl.
    assert (Hbn : b < length (basic_blocks mir)) by (eapply cfg_reach_lt; [done..|by apply start_lt]).
    destruct (need_emission b s ems Hbn Hws Hems) as (d & k & Hd & Hk & Heq).
    assert (Hwx : live_wf nl x).
    { pose proof requires_laws as Hlaws. destruct (block_trace A mir Hok b s Hbn Hws) as (_ & ems' & _ & Hems' & _ & Hall). simplify_ret. by apply (Hall t). }
    destruct (bits_lub dense_ops nl a x c l Hwa Hwx Hlub Hl) as [?|Hx]; [by apply Ht|].
    apply list_elem_of_lookup in Hin as [i Hi'].
    assert (He : need_edges k (need_block b d k (bs_mem dense_ops s l)) !! i = Some (t, true)).
    { rewrite <-Heq, list_lookup_fmap, Hi'. cbn [fmap option_fmap option_map fst snd]. by rewrite Hx. }
    destruct (bs_mem dense_ops s l) eqn:Hsl.
    + eapply np_edge; [by apply Hb|done..|]. by eapply list_elem_of_lookup_2.
    + destruct (need_path_exists b Hrb) as [v Hv].
      destruct (need_edges_lookup k _ (need_block b d k v) i t true (need_block_mono b d k false v ltac:(done)) He) as (w & Hw & Himp).
      rewrite (Himp eq_refl) in Hw. eapply np_edge; [done..|]. by eapply list_elem_of_lookup_2.
Qed.
Lemma need_path_reach b v : need_path b v → cfg_reach mir START_BLOCK b.
Proof.
  induction 1 as [|b d k v c w _ IH Hd Hk Hw|]; [done| |eapply rtc_r; [done|by apply drop_edge_cfg]].
  eapply rtc_r; [done|]. apply flow_edge_cfg. exists k.
  assert (Hkt : terminator_at mir b = Ret k) by (unfold terminator_at, block_at, terminator; rewrite Hd; simpl; by rewrite Hk).
  split; [done|]. apply (need_edges_cover k (need_block b d k v)). by exists w.
Qed.
Lemma need_complete ini E b v : initial_states A mir = Ret ini → solution A mir ini E → need_path b v →
  v = true → ∃ s, E !! b = Some s ∧ mem s l.
Proof.
  intros Hini HE Hp. destruct need_start as (ini' & Hini' & Hi). simplify_ret. induction Hp as [|b d k v c w Hp IH Hd Hk Hw|]; intros Hv; [| |done].
  - pose proof requires_laws as Hlaws. destruct (initial_states_ok A mir Hok) as (ini' & st & Hini2 & _ & Hlen & _ & _ & Hi2). simplify_ret.
    pose proof (start_lt _ Hok) as H0. specialize (Hi2 START_BLOCK H0). destruct (Hi _ _ Hi2) as [_ Hm].
    destruct (sol_init _ _ _ _ HE START_BLOCK _ Hi2) as (s & Hs & Hle). exists s. split; [done|]. apply Hle.
    etrans; [exact Hm|exact Hv].
  - pose proof (need_path_reach _ _ Hp) as Hrb. assert (Hrc : cfg_reach mir START_BLOCK c) by (eapply need_path_reach, np_edge; done).
    assert (Hb : b < length (basic_blocks mir)) by (eapply cfg_reach_lt; [done..|by apply start_lt]).
    destruct (lookup_lt_is_Some_2 E b) as [sb Hsb]; [by rewrite (sol_length _ _ _ _ HE)|].
    assert (Hwb : live_wf nl sb) by (eapply Forall_lookup_1; [apply (sol_wf _ _ _ _ HE)|done]).
    pose proof requires_laws as Hlaws. destruct (block_trace A mir Hok b sb Hb Hwb) as (_ & ems & _ & Hems & _ & _).
    destruct (need_emission b sb ems Hb Hwb Hems) as (d' & k' & Hd' & Hk' & Heq). simplify_eq.
    apply list_elem_of_lookup in Hw as [i Hw].
    assert (Himp : implies v (bs_mem dense_ops sb l)) by (intros Hv'; destruct (IH Hv') as (s' & Hs' & Hm'); by simplify_eq).
    destruct (need_edges_lookup k _ _ i c true (need_block_mono b d k _ _ Himp) Hw) as (w' & Hw' & Hww). rewrite (Hww eq_refl) in Hw'.
    rewrite <-Heq, list_lookup_fmap in Hw'. destruct (ems !! i) as [[c' x]|] eqn:Hx; [|done]. cbn [fmap option_fmap option_map fst snd] in Hw'.
    injection Hw' as -> Hmx. apply list_elem_of_lookup_2 in Hx.
    destruct (sol_absorbs _ _ _ _ HE b sb ems c x Hrb Hsb Hems Hx Hrc) as (sc & Hsc & Hle). exists sc. split; [done|]. by apply Hle.
Qed.
End need.

Lemma requires_paths (Hsmall : body_small mir) : ∃ E,
  iterate_to_fixpoint A mir (engine_fuel A mir) = Ret E ∧
  ∀ b, cfg_reach mir START_BLOCK b → ∃ s, E !! b = Some s ∧ live_wf nl s ∧ ∀ l, mem s l ↔ need_path l b true.
Proof.
  pose proof requires_laws as Hlaws. destruct (iterate_ok A mir Hok Hsmall) as (ini & E & Hini & _ & _ & HE & Hsol & _ & Hstates).
  exists E. split; [done|]. intros b Hb. destruct (lookup_lt_is_Some_2 E b) as [s Hs].
  { rewrite (sol_length _ _ _ _ Hsol). eapply cfg_reach_lt; [done..|by apply start_lt]. }
  exists s. split_and!; [done|by eapply Forall_lookup_1; [apply (sol_wf _ _ _ _ Hsol)|]|]. intros l. split.
  - intros Hl. by apply (Hstates _ (need_sound l ini Hini) b s Hs).
  - intros Hp. destruct (need_complete l ini E b true Hini Hsol Hp eq_refl) as (s' & ? & ?). by simplify_eq.
Qed.
End requires.

(** *** What the library functions return *)
Lemma borrowed_results (Hsmall : body_small mir) : ∃ E,
  iterate_to_fixpoint maybe_borrowed_locals mir (engine_fuel maybe_borrowed_locals mir) = Ret E ∧
  ∀ b, cfg_reach mir START_BLOCK b → ∃ s, E !! b = Some s ∧ live_wf nl s ∧
    ∀ l, mem s l ↔ status_path mir (borrow_status l) (borrow_term_status l) false false b true.
Proof.
  destruct (flow_paths_ok mir Hok Hlsmall _ _ _ _ _ _ borrowed_flow Hsmall) as (E & HE & Hp).
  exists E. split; [exact HE|]. intros b Hb. destruct (Hp b Hb) as (s & Hs & Hw & Hm). exists s. split_and!; [done..|].
  intros l. rewrite Hm. simpl. by rewrite has_replicate_0.
Qed.

Lemma killable_results (Hsmall : body_small mir) : ∃ E K,
  iterate_to_fixpoint maybe_borrowed_locals mir (engine_fuel maybe_borrowed_locals mir) = Ret E ∧
  maybe_requires_storage_new mir E = Ret K ∧ (∀ loc, in_range nl (default [] (K !! loc))) ∧
  ∀ loc l, l ∈ kills_at K loc ↔ cfg_reach mir START_BLOCK (loc_block loc) ∧ l ∈ moves_at loc ∧ ¬ borrowed_before l loc.
Proof.
  pose proof borrowed_laws as Hlaws. destruct (borrowed_results Hsmall) as (E & HE & Hpath).
  destruct (results_of maybe_borrowed_locals mir Hok Hsmall) as (E' & V & HE' & HV & HR). simplify_ret.
  destruct (preorder_ok mir Hok Hsmall) as (pre & V' & Hpre & _ & Hin & _).
  destruct (requires_storage_new_ok E V HR Hlaws Hpath pre Hin) as (K & HK & Hkill). exists E, K. split_and!; [done| | |exact Hkill].
  - unfold maybe_requires_storage_new. by rewrite HV, Hpre.
  - intros loc l Hl. apply (moves_at_in_range loc). by apply Hkill in Hl as (_ & ? & _).
Qed.

Definition block_borrows (d : BasicBlockData) : list Local :=
  concat (stmt_borrows <$> statements d) ++ match terminator_opt d with Some k => term_borrows k | None => [] end.
Lemma borrowed_statement_eq (t : Borrowed) st loc : borrow_visit_statement t st loc = gen_all t (stmt_borrows st).
Proof. rewrite borrow_statement_eq. destruct (gen_all t _); [by apply ofold_ret|done..]. Qed.
Lemma borrowed_block_eq (t : Borrowed) e : borrow_visit_block t e = gen_all t (block_borrows e.2).
Proof.
  destruct e as [b d]. unfold borrow_visit_block, block_borrows, gen_all. cbn [fst snd]. rewrite ofold_app.
  replace (stmt_borrows <$> statements d) with ((λ e : nat * StatementKind, stmt_borrows e.2) <$> enumerate (statements d)).
  2:{ transitivity (stmt_borrows <$> (enumerate (statements d)).*2); [by rewrite <-list_fmap_compose|].
      f_equal. apply snd_zip. by rewrite length_seq. }
  rewrite <-ofold_concat. erewrite ofold_ext; [|intros s st _; apply borrowed_statement_eq].
  destruct (ofold _ t _) as [t1| |]; [|done..]. cbn [mbind outcome_bind]. destruct (terminator_opt d); [apply borrow_terminator_eq|done].
Qed.
Lemma borrowed_gen_all s ls : gen_all (mkBorrowed s) ls = s' ← gen_all s ls; Ret (mkBorrowed s').
Proof.
  unfold gen_all. revert s. induction ls as [|l ls IH]; intros s; [done|]. cbn [ofold]. cbn [gen_ borrowed_gen_kill borrowed_set].
  destruct (gen_ s l) as [s1| |]; [|done..]. apply IH.
Qed.
Lemma borrowed_locals_ok : ∃ B, borrowed_locals mir = Ret B ∧ live_wf nl B ∧
  ∀ l, mem B l ↔ ∃ d, d ∈ basic_blocks mir ∧ l ∈ block_borrows d.
Proof.
  unfold borrowed_locals, borrow_visit_body. rewrite (ofold_ext _ (λ t e, ofold gen_ t (block_borrows e.2))) by (intros; apply borrowed_block_eq).
  rewrite ofold_concat. change (ofold gen_ ?t ?ls) with (gen_all t ls). rewrite borrowed_gen_all.
  set (ls := concat _).
  assert (Hls : ∀ l, l ∈ ls ↔ ∃ d, d ∈ basic_blocks mir ∧ l ∈ block_borrows d).
  { intros l. unfold ls. rewrite elem_of_concat. split.
    - intros (x & Hx & ([b d] & -> & Hd%elem_of_enumerate)%list_elem_of_fmap). exists d. split; [by eapply list_elem_of_lookup_2|done].
    - intros (d & [b Hd]%list_elem_of_lookup & Hl). eexists. split; [exact Hl|]. apply list_elem_of_fmap. exists (b, d). split; [done|by apply elem_of_enumerate]. }
  assert (Hr : in_range nl ls).
  { intros l (d & [b Hd]%list_elem_of_lookup & Hl)%Hls. unfold block_borrows in Hl. apply elem_of_app in Hl as [Hl|Hl].
    - apply elem_of_concat in Hl as (x & Hx & (st & -> & [i Hst]%list_elem_of_lookup)%list_elem_of_fmap). by apply (proj1 (requires_ok_stmt b d i st Hd Hst)).
    - destruct (terminator_opt d) as [k|] eqn:Hk; [|by apply elem_of_nil in Hl]. apply (proj2 (requires_ok_block b d Hd) k Hk).
      unfold term_locals. set_solver. }
  destruct (live_effect_gens nl ls Hr in_range_nil (Dense.new_empty nl)) as (B & HB & Hw & Hm); [by split; [apply dense_new_empty_wf|]|].
  rewrite HB. exists B. split_and!; [done..|]. intros l. rewrite Hm, Hls. simpl. rewrite has_replicate_0. clear. naive_solver.
Qed.

(** What is borrowed on some path is borrowed somewhere. *)
Lemma borrowed_somewhere l b v : status_path mir (borrow_status l) (borrow_term_status l) false false b v → v = true →
  ∃ d, d ∈ basic_blocks mir ∧ l ∈ block_borrows d.
Proof.
  induction 1 as [|b d v c Hp IH Hd He|]; [done| |done]. intros Hv. apply list_elem_of_lookup_2 in Hd.
  destruct (decide (l ∈ block_borrows d)) as [?|Hno]; [by exists d|]. apply IH. revert Hv. unfold block_status.
  assert (Hf : ∀ sts x, (∀ st, st ∈ sts → l ∉ stmt_borrows st) → fold_left (borrow_status l) sts x = true → x = true).
  { induction sts as [|st sts IHs]; intros x Hsts Hx; [done|]. apply IHs in Hx; [|intros; apply Hsts; by right]. unfold borrow_status in Hx.
    rewrite bool_decide_false in Hx by (apply Hsts; left). by apply andb_true_iff in Hx as [? _]. }
  assert (Hsts : ∀ st, st ∈ statements d → l ∉ stmt_borrows st).
  { intros st Hst Hl. apply Hno. unfold block_borrows. rewrite elem_of_app, elem_of_concat. left. eexists. split; [exact Hl|by apply list_elem_of_fmap_2]. }
  destruct (terminator_opt d) as [k|] eqn:Hk; [|by apply Hf]. unfold borrow_term_status. rewrite bool_decide_false; [by apply Hf|].
  intros Hl. apply Hno. unfold block_borrows. rewrite Hk. set_solver.
Qed.
End body.
