(* ===== verification/DataflowThms.v ===== *)
(** * Traversals and dataflow: the properties

    What the control-flow traversals, the fixpoint engine, cursors and location
    maps, live and borrowed locals, storage liveness and required storage
    compute, with bodies on which the hypotheses hold. *)
From S2P Require Import Prelude Mir BitWords BitSet BitSetFacts Traversal Lattice Dataflow DataflowFacts DataflowEngine Liveness LivenessThms DataflowCursor Storage StorageThms RequiresStorage.

#[local] Abbreviation mem s i := (bs_mem dense_ops s i = true).

(** ** Traversals *)

(** [predecessors] inverts the successor relation; [reverse_postorder] and
    [preorder] list every block reachable from the start once and no other, the
    former starting with the start block and with the source of an edge before
    its target unless the target reaches back to it; [reachable_as_bitset] is
    the set of reachable blocks. *)
Theorem traversals_spec mir : body_ok mir = true → body_small mir →
  ∃ preds rpo pre V,
    predecessors mir = Ret preds ∧
    reverse_postorder (traversal_fuel mir) mir = Ret rpo ∧
    preorder (traversal_fuel mir) mir = Ret pre ∧
    reachable_as_bitset (traversal_fuel mir) mir = Ret V ∧
    (∀ b ps p, preds !! b = Some ps → p ∈ ps ↔ cfg_edge mir p b) ∧
    NoDup rpo ∧ NoDup pre ∧ head rpo = Some START_BLOCK ∧
    (∀ b, b ∈ rpo ↔ cfg_reach mir START_BLOCK b) ∧
    (∀ b, b ∈ pre ↔ cfg_reach mir START_BLOCK b) ∧
    (∀ b, mem V b ↔ cfg_reach mir START_BLOCK b) ∧
    ∀ a b, a ∈ rpo → cfg_edge mir a b → precedes rpo a b ∨ cfg_reach mir b a.
Proof.
  intros Hok Hsmall. destruct (predecessors_ok mir Hok) as (preds & ? & _ & Hp).
  destruct (reverse_postorder_ok mir Hok Hsmall) as (rpo & ? & ? & ? & ? & ?).
  destruct (preorder_ok mir Hok Hsmall) as (pre & V & ? & ? & ? & ? & _ & _ & ?).
  exists preds, rpo, pre, V. split_and!; try done. intros b ps p Hb. by apply Hp.
Qed.

(** ** The fixpoint engine *)

(** C21: For any lawful analysis, of either direction and with or without
    monotone transfer functions, [iterate_to_fixpoint] terminates without a
    panic within [engine_fuel] iterations, and its result is a fixpoint: at
    least the initial states, and absorbing every state a reachable block sends
    to a reachable block.  Unreachable blocks keep their initial state. *)
Theorem dataflow_terminates {D} `{EqDecision D} (A : Analysis D) mir `{!AnalysisLaws A mir} :
  body_ok mir = true → body_small mir → ∃ init E,
    initial_states A mir = Ret init ∧
    iterate_to_fixpoint A mir (engine_fuel A mir) = Ret E ∧
    solution A mir init E ∧
    ∀ b, ¬ cfg_reach mir START_BLOCK b → E !! b = init !! b.
Proof.
  intros Hok Hsmall. destruct (iterate_ok A mir Hok Hsmall) as (init & E & ? & _ & _ & ? & ? & ? & _).
  exists init, E. done.
Qed.

(** C22: With monotone transfer functions the result is the least fixpoint: it is
    below every assignment that is at least the initial states and absorbs what
    the reachable blocks send.  The order in which blocks are processed does
    not matter. *)
Theorem dataflow_least {D} `{EqDecision D} (A : Analysis D) mir `{!AnalysisLaws A mir, !AnalysisMono A mir} :
  body_ok mir = true → body_small mir → ∃ init E,
    initial_states A mir = Ret init ∧
    iterate_to_fixpoint A mir (engine_fuel A mir) = Ret E ∧
    solution A mir init E ∧
    ∀ X, solution A mir init X → ∀ b s, E !! b = Some s → state_le A mir X b s.
Proof.
  intros Hok Hsmall. destruct (iterate_ok A mir Hok Hsmall) as (init & E & ? & _ & _ & ? & Hsol & _ & Hind).
  exists init, E. split_and!; [done..|]. intros X HX. by apply (Hind _), below_solution_inductive.
Qed.

(** ** Live locals *)

(** C23: [MaybeLiveLocals] is liveness: at the end of a reachable block the
    computed set holds exactly the locals that some path reads before
    overwriting them; it is empty for unreachable blocks.  A write to a field
    ([x.0 = 42]) neither reads [x] nor overwrites it, unlike what the comment on
    [MaybeLiveLocals] says. *)
Theorem maybe_live_locals_correct mir :
  body_ok mir = true → body_small mir → locals_ok mir = true →
  (Z.of_nat (length (local_decls mir)) < 2 ^ 64)%Z → ∃ E,
    iterate_to_fixpoint maybe_live_locals mir (engine_fuel maybe_live_locals mir) = Ret E ∧
    ∀ b, b < length (basic_blocks mir) → ∃ s, E !! b = Some s ∧
      (cfg_reach mir START_BLOCK b → ∀ l, mem s l ↔ live_out mir l b) ∧
      (¬ cfg_reach mir START_BLOCK b → ∀ l, ¬ mem s l).
Proof.
  intros Hok Hsmall Hlocals Hl. destruct (live_locals_ok mir Hok Hlocals Hl Hsmall) as (E & ? & HE).
  exists E. split; [done|]. intros b Hb. destruct (HE b Hb) as (s & ? & _ & ? & ?). eauto.
Qed.

(** ** Storage *)

(** C24: [MaybeStorageLive] holds at the start of a reachable block exactly the
    locals whose storage is live after some path from the start, and
    [MaybeStorageDead] exactly those whose storage is dead after some path,
    when markers switch the storage and arguments, the return place and
    unmarked locals start live.  The drop edge of an asynchronous drop, which the
    edges of the analyses leave out, forgets the storage: behind it, a path counts
    as dead for the live locals and as live for the dead ones. *)
Theorem storage_paths mir :
  body_ok mir = true → body_small mir → storage_ok mir = true →
  (Z.of_nat (length (local_decls mir)) < 2 ^ 64)%Z → ∃ always live dead,
    always_storage_live_locals mir = Ret always ∧
    iterate_to_fixpoint (StLive.maybe_storage_live always) mir
      (engine_fuel (StLive.maybe_storage_live always) mir) = Ret live ∧
    iterate_to_fixpoint (StDead.maybe_storage_dead always) mir
      (engine_fuel (StDead.maybe_storage_dead always) mir) = Ret dead ∧
    ∀ b, cfg_reach mir START_BLOCK b → ∃ s t, live !! b = Some s ∧ dead !! b = Some t ∧
      ∀ l, l < length (local_decls mir) →
        (mem s l ↔ status_path mir (storage_status l) (λ v _, v) (starts_live mir l) false b true) ∧
        (mem t l ↔ status_path mir (storage_status l) (λ v _, v) (starts_live mir l) true b false).
Proof.
  intros Hok Hsmall Hst Hl. destruct (always_live_ok mir Hst Hl) as (always & Ha & Hwa & Hma).
  destruct (storage_live_flow mir Hst Hl always Hwa Hma) as (s0 & Hfl & Hs0).
  destruct (storage_dead_flow mir Hst Hl always Hwa Hma) as (d0 & Hfd & Hd0).
  destruct (flow_paths_ok mir Hok Hl _ _ _ _ _ s0 Hfl Hsmall) as (live & Hlive & HL).
  destruct (flow_paths_ok mir Hok Hl _ _ _ _ _ d0 Hfd Hsmall) as (dead & Hdead & HD).
  exists always, live, dead. split_and!; [done..|]. intros b Hb.
  destruct (HL b Hb) as (s & Hs & _ & Hms), (HD b Hb) as (t & Ht & _ & Hmt).
  exists s, t. split_and!; [done..|]. intros l Hll. rewrite Hms, Hmt, Hs0, Hd0 by done.
  split; [done|]. apply (status_path_negb mir (storage_status l) (starts_live mir l) true b false).
Qed.

(** ** Borrowed locals and required storage *)

(** C27: At the start of a reachable block [MaybeBorrowedLocals] holds exactly the
    locals that some path borrows (a reference, a raw pointer or a drop of the
    local or of a part of it that is not behind a pointer) with no [StorageDead]
    after, where the drop edge of an asynchronous drop forgets what was borrowed;
    [borrowed_locals] holds the locals borrowed anywhere in the body, which
    contain those of every state. *)
Theorem borrowed_locals_correct mir :
  body_ok mir = true → body_small mir → requires_ok mir = true →
  (Z.of_nat (length (local_decls mir)) < 2 ^ 64)%Z → ∃ E B,
    iterate_to_fixpoint maybe_borrowed_locals mir (engine_fuel maybe_borrowed_locals mir) = Ret E ∧
    borrowed_locals mir = Ret B ∧
    (∀ l, mem B l ↔ ∃ d, d ∈ basic_blocks mir ∧ l ∈ block_borrows d) ∧
    ∀ b, cfg_reach mir START_BLOCK b → ∃ s, E !! b = Some s ∧ ∀ l,
      (mem s l ↔ status_path mir (borrow_status l) (borrow_term_status l) false false b true) ∧ (mem s l → mem B l).
Proof.
  intros Hok Hsmall Hreq Hl. destruct (borrowed_results mir Hok Hreq Hl Hsmall) as (E & HE & Hp).
  destruct (borrowed_locals_ok mir Hok Hreq Hl) as (B & HB & _ & Hm). exists E, B. split_and!; [done..|]. intros b Hb.
  destruct (Hp b Hb) as (s & Hs & _ & Hms). exists s. split; [done|]. intros l. split; [done|]. rewrite Hms, Hm. intros H.
  by eapply borrowed_somewhere.
Qed.

(** C26: [MaybeRequiresStorage::new] records for each reachable location exactly
    the locals that are moved out of as a whole there and that no path leaves
    borrowed; with these, the analysis holds at the start of a reachable block
    exactly the locals that need storage after some path: written, borrowed or
    returned into, and not since then dead, cleared by an unwinding call, or
    moved out of while unborrowed.  Both kinds of path forget everything at the
    drop edge of an asynchronous drop. *)
Theorem requires_storage_correct mir :
  body_ok mir = true → body_small mir → requires_ok mir = true →
  (Z.of_nat (length (local_decls mir)) < 2 ^ 64)%Z → ∃ E K R,
    iterate_to_fixpoint maybe_borrowed_locals mir (engine_fuel maybe_borrowed_locals mir) = Ret E ∧
    maybe_requires_storage_new mir E = Ret K ∧
    (∀ loc l, l ∈ kills_at K loc ↔ cfg_reach mir START_BLOCK (loc_block loc) ∧ l ∈ moves_at mir loc ∧ ¬ borrowed_before mir l loc) ∧
    iterate_to_fixpoint (ReqStorage.maybe_requires_storage K) mir (engine_fuel (ReqStorage.maybe_requires_storage K) mir) = Ret R ∧
    ∀ b, cfg_reach mir START_BLOCK b → ∃ s, R !! b = Some s ∧ ∀ l, mem s l ↔ need_path mir K l b true.
Proof.
  intros Hok Hsmall Hreq Hl. destruct (killable_results mir Hok Hreq Hl Hsmall) as (E & K & HE & HK & Hr & Hkill).
  destruct (requires_paths mir Hok Hreq Hl K Hr Hsmall) as (R & HR & Hp). exists E, K, R. split_and!; [done..|].
  intros b Hb. destruct (Hp b Hb) as (s & ? & _ & ?). by exists s.
Qed.

(** ** Reading the results *)

(** C25: A cursor shows the state of the place it was last sent to, whatever it
    was asked before: after any sequence of seeks to reachable places and of
    custom effects, one more operation returns, and leaves the cursor with the
    state the operation promises, which is computed from the entry state of the
    block by the effects up to the place (and is what the engine propagates, at
    the far end of a block).  A seek to an unreachable block panics. *)
Theorem results_cursor_spec {D} `{EqDecision D} (A : Analysis D) mir `{!AnalysisLaws A mir} :
  body_ok mir = true → body_small mir → ∃ E V,
    iterate_to_fixpoint A mir (engine_fuel A mir) = Ret E ∧
    reachable_as_bitset (traversal_fuel mir) mir = Ret V ∧
    ∀ ops, Forall (op_valid mir) ops → ∃ c,
      ofold (run_op A mir E V (cursor_fuel mir)) (new_cursor A mir) ops = Ret c ∧
      (∀ op, op_valid mir op → ∃ c', run_op A mir E V (cursor_fuel mir) c op = Ret c' ∧
        op_state A mir E op (cur_state c) = Ret (cur_state c')) ∧
      ∀ target, loc_block target < length (basic_blocks mir) → ¬ cfg_reach mir START_BLOCK (loc_block target) → ∀ fuel,
        run_op A mir E V fuel c (SeekBeforePrimary target) = Panic ∧ run_op A mir E V fuel c (SeekAfterPrimary target) = Panic.
Proof.
  intros Hok Hsmall. destruct (results_of A mir Hok Hsmall) as (E & V & HE & HV & [? ? ? Hsize Hr]).
  exists E, V. split_and!; [done..|]. intros ops Hops.
  destruct (run_ops_ok A mir E Hok ltac:(done) ltac:(done) V ltac:(done) Hsize Hr ops (new_cursor A mir)) as (c & Hc & Hcok); [by left|done|].
  exists c. split_and!; [done| |].
  - intros op Hop. destruct (run_op_ok A mir E Hok ltac:(done) ltac:(done) V ltac:(done) Hsize Hr c op) as (c' & ? & ? & _); [done..|]. by exists c'.
  - intros target Hb Hnr fuel. split; (apply seek_after_panics; [done..|lia|done|by rewrite Hr]).
Qed.

(** [visit_results] shows a visitor every state of the given blocks once, in
    the order of the analysis: it is the fold of the visitor's methods over the
    reference states after each effect, where the methods may panic. *)
Theorem visit_results_spec {D} `{EqDecision D} (A : Analysis D) mir `{!AnalysisLaws A mir} :
  body_ok mir = true → body_small mir → ∃ E V,
    iterate_to_fixpoint A mir (engine_fuel A mir) = Ret E ∧
    reachable_as_bitset (traversal_fuel mir) mir = Ret V ∧
    ∀ W (vis : ResultsVisitor W) blocks w, Forall (cfg_reach mir START_BLOCK) blocks →
      visit_results A mir E V vis blocks w = ofold (visit_states A mir E vis) w blocks.
Proof.
  intros Hok Hsmall. destruct (results_of A mir Hok Hsmall) as (E & V & HE & HV & [? ? ? Hsize Hr]).
  exists E, V. split_and!; [done..|]. intros W vis blocks w Hb. apply ofold_ext. intros v b Hin.
  apply visit_block_results_ok; try done. by eapply Forall_forall in Hin.
Qed.

(** C28: [DenseLocationMap] numbers the locations of a body from 0 without gaps,
    in the order of blocks and statements: [to_location] inverts
    [point_from_location] on the locations of the body and is inverted by it on
    the points in range, and panics beyond. *)
Theorem location_map_roundtrip mir :
  body_ok mir = true → (Z.of_nat (Points.points_of (basic_blocks mir)) ≤ Points.point_max + 1)%Z → ∃ m,
    Points.new mir = Ret m ∧ Points.num_points m = Points.points_of (basic_blocks mir) ∧
    (∀ b d i, basic_blocks mir !! b = Some d → i ≤ length (statements d) → ∃ p,
      Points.point_from_location m (mkLocation b i) = Ret p ∧ Points.point_in_range m p = true ∧
      Points.to_location m p = Ret (mkLocation b i) ∧ Points.to_block_start m p = Points.entry_point m b ∧
      (∀ b' d' i' p', basic_blocks mir !! b' = Some d' → i' ≤ length (statements d') →
        Points.point_from_location m (mkLocation b' i') = Ret p' → p < p' ↔ b < b' ∨ b = b' ∧ i < i')) ∧
    ∀ p, if Points.point_in_range m p then ∃ b d i, Points.to_location m p = Ret (mkLocation b i) ∧
           basic_blocks mir !! b = Some d ∧ i ≤ length (statements d) ∧ Points.point_from_location m (mkLocation b i) = Ret p
         else Points.to_location m p = Panic.
Proof.
  intros Hok Hpts. exists (Points.map_of mir). split_and!; [by apply Points.new_ok|done| |].
  - intros b d i Hd Hi. destruct (Points.point_of_location mir Hpts b d i Hd Hi) as (Hp & Hlt & Hb).
    destruct (Points.location_of_point mir _ b Hlt Hb) as [Hl Hs]. eexists. split_and!; [exact Hp|by apply Nat.ltb_lt| |done|].
    + rewrite Hl. do 2 f_equal. lia.
    + intros b' d' i' p' Hd' Hi' Hp'. destruct (Points.point_of_location mir Hpts b' d' i' Hd' Hi') as (Hp'' & _ & _). simplify_ret.
      pose proof (Points.points_of_take_S _ _ _ Hd) as H1. pose proof (Points.points_of_take_S _ _ _ Hd') as H2.
      destruct (Nat.lt_trichotomy b b') as [Hbb|[->|Hbb]]; [|lia|].
      * pose proof (Points.points_of_take_mono (basic_blocks mir) (S b) b'). lia.
      * pose proof (Points.points_of_take_mono (basic_blocks mir) (S b') b). lia.
  - intros p. destruct (Points.point_in_range (Points.map_of mir) p) eqn:Hp.
    + apply Nat.ltb_lt in Hp. destruct (Points.block_of_point_exists _ p Hp) as (b & Hb).
      destruct (Points.location_of_point mir p b Hp Hb) as [Hl _]. destruct Hb as (d & Hd & Hpd).
      exists b, d, (p - Points.points_of (take b (basic_blocks mir))). split_and!; [done..|lia|].
      destruct (Points.point_of_location mir Hpts b d (p - Points.points_of (take b (basic_blocks mir))) Hd) as (-> & _); [lia|]. f_equal. lia.
    + unfold Points.to_location. unfold Points.point_in_range in Hp. by rewrite Hp.
Qed.

(** ** A body on which the hypotheses hold

    [fn(_1) { StorageLive(_2); _2 = _1; while _2 { _3 = g(_2); _2 = _3 } StorageDead(_2); return _0 }] *)
Definition df_place (l : Local) : Place := mkPlace l [].
Definition df_body : Body := mkBody
  [ mkBlock [StorageLive 2; Assign (df_place 2) (Use (Copy (df_place 1)))] (Some (Goto 1));
    mkBlock [] (Some (SwitchInt (Copy (df_place 2)) (Switch.static_if 0 3 2)));
    mkBlock [] (Some (Call RuntimeChecks [Move (df_place 2)] (df_place 3) (Some 4) UnwindContinue));
    mkBlock [StorageDead 2; Assign (df_place 0) (Use (Copy (df_place 1)))] (Some Return);
    mkBlock [Assign (df_place 2) (Use (Move (df_place 3)))] (Some (Goto 1));
    mkBlock [] (Some Unreachable) ]
  [TyBool; TyBool; TyBool; TyBool] 1.

Lemma df_body_small : body_small df_body.
Proof. vm_compute. reflexivity. Qed.
Lemma df_body_locals_small : (Z.of_nat (length (local_decls df_body)) < 2 ^ 64)%Z.
Proof. vm_compute. reflexivity. Qed.

Lemma traversals_spec_witness :
  reverse_postorder (traversal_fuel df_body) df_body = Ret [0; 1; 3; 2; 4] ∧
  ∃ preds, predecessors df_body = Ret preds ∧ ∀ b ps p, preds !! b = Some ps → p ∈ ps ↔ cfg_edge df_body p b.
Proof.
  split; [vm_compute; reflexivity|].
  destruct (traversals_spec df_body eq_refl df_body_small) as (preds & _ & _ & _ & H & _ & _ & _ & Hp & _).
  exists preds. split; [exact H|exact Hp].
Defined.

Lemma dataflow_terminates_witness : ∃ init E,
  iterate_to_fixpoint maybe_live_locals df_body (engine_fuel maybe_live_locals df_body) = Ret E ∧
  solution maybe_live_locals df_body init E.
Proof.
  assert (HL : AnalysisLaws maybe_live_locals df_body)
    by exact (live_laws df_body eq_refl eq_refl df_body_locals_small).
  destruct (dataflow_terminates maybe_live_locals df_body eq_refl df_body_small) as (init & E & _ & H & HS & _).
  exists init, E. split; [exact H|exact HS].
Defined.

Lemma dataflow_least_witness : ∃ init E,
  iterate_to_fixpoint maybe_live_locals df_body (engine_fuel maybe_live_locals df_body) = Ret E ∧
  ∀ X, solution maybe_live_locals df_body init X → ∀ b s, E !! b = Some s → state_le maybe_live_locals df_body X b s.
Proof.
  assert (HL : AnalysisLaws maybe_live_locals df_body)
    by exact (live_laws df_body eq_refl eq_refl df_body_locals_small).
  assert (HM : AnalysisMono maybe_live_locals df_body)
    by exact (live_mono df_body eq_refl eq_refl df_body_locals_small).
  destruct (dataflow_least maybe_live_locals df_body eq_refl df_body_small) as (init & E & _ & H & _ & HS).
  exists init, E. split; [exact H|exact HS].
Defined.

Lemma maybe_live_locals_correct_witness :
  iterate_to_fixpoint maybe_live_locals df_body (engine_fuel maybe_live_locals df_body) =
    Ret (mkDense 4 <$> [[6]; [6]; [2]; [0]; [6]; [0]]%Z) ∧
  ∃ E, iterate_to_fixpoint maybe_live_locals df_body (engine_fuel maybe_live_locals df_body) = Ret E ∧
    ∃ s, E !! 2 = Some s ∧ (cfg_reach df_body START_BLOCK 2 → ∀ l, mem s l ↔ live_out df_body l 2).
Proof.
  split; [vm_compute; reflexivity|].
  destruct (maybe_live_locals_correct df_body eq_refl df_body_small eq_refl df_body_locals_small) as (E & H & HE).
  exists E. split; [exact H|]. destruct (HE 2 ltac:(simpl; lia)) as (s & Hs & Hm & _).
  exists s. split; [exact Hs|exact Hm].
Defined.

(** [drop(_1) -> [return: 1, drop: 2]]: [_1] is live at block 1, but no state
    reaches block 2. *)
Definition async_drop_body : Body := mkBody
  [ mkBlock [] (Some (Drop (df_place 1) 1 UnwindContinue (Some 2))); mkBlock [] (Some Return); mkBlock [] (Some Return) ]
  [TyBool; TyBool; TyBool] 1.
Lemma storage_paths_witness : (
  always ← always_storage_live_locals async_drop_body;
  iterate_to_fixpoint (StLive.maybe_storage_live always) async_drop_body
    (engine_fuel (StLive.maybe_storage_live always) async_drop_body)) = Ret (mkDense 3 <$> [[7]; [7]; [0]]%Z) ∧
  ∃ always live,
  always_storage_live_locals df_body = Ret always ∧
  iterate_to_fixpoint (StLive.maybe_storage_live always) df_body
    (engine_fuel (StLive.maybe_storage_live always) df_body) = Ret live.
Proof.
  split; [vm_compute; reflexivity|].
  destruct (storage_paths df_body eq_refl df_body_small eq_refl df_body_locals_small)
    as (always & live & dead & H1 & H2 & _).
  exists always, live. split; [exact H1|exact H2].
Defined.

Lemma results_cursor_spec_witness :
  (∃ E V c, iterate_to_fixpoint maybe_live_locals df_body (engine_fuel maybe_live_locals df_body) = Ret E ∧
    reachable_as_bitset (traversal_fuel df_body) df_body = Ret V ∧
    ofold (run_op maybe_live_locals df_body E V (cursor_fuel df_body)) (new_cursor maybe_live_locals df_body)
      [SeekBlockEnd 3; SeekAfterPrimary (mkLocation 0 1); SeekBeforePrimary (mkLocation 0 1)] = Ret c ∧
    cur_state c = mkDense 4 [6%Z]) ∧
  ∃ E V c, iterate_to_fixpoint maybe_live_locals df_body (engine_fuel maybe_live_locals df_body) = Ret E ∧
    ofold (run_op maybe_live_locals df_body E V (cursor_fuel df_body)) (new_cursor maybe_live_locals df_body) [SeekBlockEnd 0] = Ret c.
Proof.
  split.
  { eexists _, _, _. split_and!; [vm_compute; reflexivity..|vm_compute; reflexivity]. }
  assert (HL : AnalysisLaws maybe_live_locals df_body)
    by exact (live_laws df_body eq_refl eq_refl df_body_locals_small).
  destruct (results_cursor_spec maybe_live_locals df_body eq_refl df_body_small) as (E & V & H & _ & Hops).
  destruct (Hops [SeekBlockEnd 0]) as (c & Hc & _); [repeat constructor|]. exists E, V, c. split; [exact H|exact Hc].
Defined.

Lemma visit_results_spec_witness : ∃ E V,
  iterate_to_fixpoint maybe_live_locals df_body (engine_fuel maybe_live_locals df_body) = Ret E ∧
  ∀ W (vis : ResultsVisitor W) w,
    visit_results maybe_live_locals df_body E V vis [0] w = ofold (visit_states maybe_live_locals df_body E vis) w [0].
Proof.
  assert (HL : AnalysisLaws maybe_live_locals df_body)
    by exact (live_laws df_body eq_refl eq_refl df_body_locals_small).
  destruct (visit_results_spec maybe_live_locals df_body eq_refl df_body_small) as (E & V & H & _ & Hv).
  exists E, V. split; [exact H|]. intros W vis w. apply Hv. repeat constructor.
Defined.

Lemma location_map_roundtrip_witness : ∃ m, Points.new df_body = Ret m ∧ Points.num_points m = 11 ∧
  Points.point_from_location m (mkLocation 3 1) = Ret 6 ∧ Points.to_location m 6 = Ret (mkLocation 3 1) ∧ Points.to_location m 11 = Panic.
Proof.
  destruct (location_map_roundtrip df_body eq_refl ltac:(vm_compute; discriminate)) as (m & Hm & _).
  exists m. assert (Hm' : Points.new df_body = Ret (Points.map_of df_body)) by (vm_compute; reflexivity).
  rewrite Hm in Hm'. injection Hm' as ->. split; [exact Hm|]. repeat split; vm_compute; reflexivity.
Defined.

(** [fn(_1, _2) { _3 = &_2; _4 = f(move _1, move _2); return }]: the move of [_2],
    which is borrowed, does not end its need for storage. *)
Definition rs_body : Body := mkBody
  [ mkBlock [StorageLive 3; Assign (df_place 3) (RvRef Shared (df_place 2))] (Some (Call RuntimeChecks [Move (df_place 1); Move (df_place 2)] (df_place 4) (Some 1) (UnwindCleanup 2)));
    mkBlock [StorageDead 2] (Some Return);
    mkBlock [] (Some UnwindResume) ]
  [TyBool; TyBool; TyBool; TyBool; TyBool] 2.
Lemma rs_body_small : body_small rs_body.
Proof. vm_compute. reflexivity. Qed.
Lemma rs_body_locals_small : (Z.of_nat (length (local_decls rs_body)) < 2 ^ 64)%Z.
Proof. vm_compute. reflexivity. Qed.

Lemma borrowed_locals_correct_witness :
  iterate_to_fixpoint maybe_borrowed_locals rs_body (engine_fuel maybe_borrowed_locals rs_body) =
    Ret (mkDense 5 <$> [[0]; [4]; [4]]%Z) ∧
  ∃ E B, iterate_to_fixpoint maybe_borrowed_locals rs_body (engine_fuel maybe_borrowed_locals rs_body) = Ret E ∧
    borrowed_locals rs_body = Ret B ∧ ∀ l, mem B l ↔ ∃ d, d ∈ basic_blocks rs_body ∧ l ∈ block_borrows d.
Proof.
  split; [vm_compute; reflexivity|].
  destruct (borrowed_locals_correct rs_body eq_refl rs_body_small eq_refl rs_body_locals_small) as (E & B & H & HB & Hm & _).
  exists E, B. split; [exact H|]. split; [exact HB|exact Hm].
Defined.

Lemma requires_storage_correct_witness :
  (K ← maybe_requires_storage_new rs_body (mkDense 5 <$> [[0]; [4]; [4]]%Z);
   Ret (kills_at K (mkLocation 0 2), kills_at K (mkLocation 1 1))) = Ret ([1], [0]) ∧
  (K ← maybe_requires_storage_new rs_body (mkDense 5 <$> [[0]; [4]; [4]]%Z);
   iterate_to_fixpoint (ReqStorage.maybe_requires_storage K) rs_body (engine_fuel (ReqStorage.maybe_requires_storage K) rs_body)) =
    Ret (mkDense 5 <$> [[4]; [28]; [12]]%Z) ∧
  ∃ E K, iterate_to_fixpoint maybe_borrowed_locals rs_body (engine_fuel maybe_borrowed_locals rs_body) = Ret E ∧
    maybe_requires_storage_new rs_body E = Ret K.
Proof.
  split; [vm_compute; reflexivity|]. split; [vm_compute; reflexivity|].
  destruct (requires_storage_correct rs_body eq_refl rs_body_small eq_refl rs_body_locals_small) as (E & K & R & H & HK & _).
  exists E, K. split; [exact H|exact HK].
Defined.
