(* ===== verification/ScalarInts.v ===== *)
(** * Scalar integers

    [rustc_middle/src/ty/consts/int.rs]: building a [ScalarInt] from 128-bit
    integers and reading it back at a size, over the sign extension and
    truncation of [rustc_abi::Size].  Sizes are in bytes; 128-bit integers are
    [Z] with their wrap-around written out. *)
From S2P Require Import Prelude Mir.
#[local] Open Scope Z_scope.

(** ** [Size] *)
Module Size.
(** [bits] overflows only beyond the sizes for which the shifts below are
    defined. *)
Definition bits (size : Z) : Z := size * 8.

Definition sign_extend (size value : Z) : outcome Z :=
  let b := bits size in
  if b =? 0 then Ret 0
  else if 128 <? b then Panic
  else let shift := 128 - b in Ret (Z.shiftr (as_i 128 (Z.shiftl value shift)) shift).

Definition truncate (size value : Z) : outcome Z :=
  let b := bits size in
  if b =? 0 then Ret 0
  else if 128 <? b then Panic
  else let shift := 128 - b in Ret (Z.shiftr (as_u 128 (Z.shiftl value shift)) shift).

Definition signed_int_min (size : Z) : outcome Z :=
  if (bits size =? 0) || (128 <? bits size) then Panic else sign_extend size (Z.shiftl 1 (bits size - 1)).
Definition signed_int_max (size : Z) : outcome Z :=
  if (bits size =? 0) || (128 <? bits size) then Panic else Ret (Z.shiftr (2 ^ 127 - 1) (128 - bits size)).
Definition unsigned_int_max (size : Z) : outcome Z :=
  if (bits size =? 0) || (128 <? bits size) then Panic else Ret (Z.shiftr (2 ^ 128 - 1) (128 - bits size)).
End Size.

(** ** [ScalarInt] *)
Module SI.
(** [NonZero::new(size.bytes() as u8).unwrap()] *)
Definition raw (data size : Z) : outcome ScalarInt :=
  let b := as_u 8 size in if b =? 0 then Panic else Ret (mkScalarInt data b).

Definition is_null (s : ScalarInt) : bool := si_data s =? 0.

Definition truncate_from_uint (i size : Z) : outcome (ScalarInt * bool) :=
  data ← Size.truncate size i;
  r ← raw data size;
  Ret (r, negb (si_data r =? i)).

Definition try_from_uint (i size : Z) : outcome (option ScalarInt) :=
  r ← truncate_from_uint i size; Ret (if r.2 : bool then None else Some r.1).

Definition truncate_from_int (i size : Z) : outcome (ScalarInt * bool) :=
  data ← Size.truncate size (as_u 128 i);
  r ← raw data size;
  back ← Size.sign_extend size (si_data r);
  Ret (r, negb (back =? i)).

Definition try_from_int (i size : Z) : outcome (option ScalarInt) :=
  r ← truncate_from_int i size; Ret (if r.2 : bool then None else Some r.1).

(** The debug assertion [check_data]. *)
Definition check_data (s : ScalarInt) : outcome () :=
  t ← Size.truncate (si_size s) (si_data s);
  if t =? si_data s then Ret () else Panic.

(** [Err] carries the size of the scalar. *)
Definition try_to_bits (s : ScalarInt) (target_size : Z) : outcome (Z + Z) :=
  if target_size =? 0 then Panic
  else if target_size =? si_size s then _ ← check_data s; Ret (inl (si_data s))
  else Ret (inr (si_size s)).

(** [to_uint] is [to_bits]. *)
Definition to_bits (s : ScalarInt) (target_size : Z) : outcome Z :=
  r ← try_to_bits s target_size;
  match r with inl b => Ret b | inr _ => Panic end.

Definition to_bits_unchecked (s : ScalarInt) : outcome Z := _ ← check_data s; Ret (si_data s).
Definition to_int (s : ScalarInt) (size : Z) : outcome Z :=
  b ← to_bits s size; Size.sign_extend size b.

(** [to_i32]; the conversion of a sign-extended 32-bit value cannot fail. *)
Definition to_i32 (s : ScalarInt) : outcome Z :=
  i ← to_int s 4; if (- 2 ^ 31 <=? i) && (i <? 2 ^ 31) then Ret i else Panic.
Definition to_i8 (s : ScalarInt) : outcome Z :=
  i ← to_int s 1; if (- 2 ^ 7 <=? i) && (i <? 2 ^ 7) then Ret i else Panic.
Definition to_i16 (s : ScalarInt) : outcome Z :=
  i ← to_int s 2; if (- 2 ^ 15 <=? i) && (i <? 2 ^ 15) then Ret i else Panic.
Definition to_i64 (s : ScalarInt) : outcome Z :=
  i ← to_int s 8; if (- 2 ^ 63 <=? i) && (i <? 2 ^ 63) then Ret i else Panic.
Definition to_u8 (s : ScalarInt) : outcome Z := i ← to_bits s 1; if i <? 2 ^ 8 then Ret i else Panic.
Definition to_u16 (s : ScalarInt) : outcome Z := i ← to_bits s 2; if i <? 2 ^ 16 then Ret i else Panic.
Definition to_u32 (s : ScalarInt) : outcome Z := i ← to_bits s 4; if i <? 2 ^ 32 then Ret i else Panic.
Definition to_u64 (s : ScalarInt) : outcome Z := i ← to_bits s 8; if i <? 2 ^ 64 then Ret i else Panic.
Definition to_u128 (s : ScalarInt) : outcome Z := to_bits s 16.
End SI.

(** ** Facts *)
Definition size_ok (size : Z) : Prop := 1 ≤ size ≤ 16.

(** [check_data] holds. *)
Definition si_wf (s : ScalarInt) : Prop :=
  size_ok (si_size s) ∧ 0 ≤ si_data s < 2 ^ Size.bits (si_size s).

Section size.
Context (size : Z) (Hsize : size_ok size).
Abbreviation b := (Size.bits size).

Lemma bits_range : 8 ≤ b ≤ 128.
Proof. unfold Size.bits, size_ok in *. lia. Qed.

Lemma pow_128 : 2 ^ 128 = 2 ^ b * 2 ^ (128 - b).
Proof. pose proof bits_range. rewrite <-Z.pow_add_r by lia. f_equal. lia. Qed.

Lemma pow_half : 2 ^ b = 2 * 2 ^ (b - 1).
Proof. pose proof bits_range. rewrite <-Z.pow_succ_r by lia. f_equal. lia. Qed.

Lemma shifted_mod v : (v * 2 ^ (128 - b)) mod 2 ^ 128 = (v mod 2 ^ b) * 2 ^ (128 - b).
Proof. pose proof bits_range. rewrite pow_128. apply Z.mul_mod_distr_r; apply Z.pow_nonzero; lia. Qed.

Lemma guards : (b =? 0) = false ∧ (128 <? b) = false.
Proof. pose proof bits_range. split; [apply Z.eqb_neq|apply Z.ltb_ge]; lia. Qed.

Lemma truncate_ok v : Size.truncate size v = Ret (as_u b v).
Proof.
  pose proof bits_range. destruct guards as [H1 H2]. unfold Size.truncate. rewrite H1, H2.
  rewrite Z.shiftl_mul_pow2, Z.shiftr_div_pow2 by lia. unfold as_u.
  rewrite shifted_mod, Z.div_mul by (apply Z.pow_nonzero; lia). done.
Qed.

Lemma sign_extend_ok v : Size.sign_extend size v = Ret (as_i b v).
Proof.
  pose proof bits_range. destruct guards as [H1 H2]. unfold Size.sign_extend. rewrite H1, H2.
  rewrite Z.shiftl_mul_pow2, Z.shiftr_div_pow2 by lia. unfold as_i, as_u.
  rewrite shifted_mod. set (m := v mod 2 ^ b). set (c := 2 ^ (128 - b)).
  assert (Hc : 0 < c) by (apply Z.pow_pos_nonneg; lia).
  assert (E : 2 ^ (128 - 1) = 2 ^ (b - 1) * c) by (unfold c; rewrite <-Z.pow_add_r by lia; f_equal; lia).
  rewrite E. f_equal. destruct (Z.ltb_spec (m * c) (2 ^ (b - 1) * c)), (Z.ltb_spec m (2 ^ (b - 1))); try nia.
  - apply Z.div_mul. lia.
  - rewrite pow_128. fold c. rewrite <-Z.mul_sub_distr_r. apply Z.div_mul. lia.
Qed.

Lemma as_u_bounds v : 0 ≤ as_u b v < 2 ^ b.
Proof. pose proof bits_range. apply as_u_range. lia. Qed.

Lemma as_i_bounds v : - 2 ^ (b - 1) ≤ as_i b v < 2 ^ (b - 1).
Proof.
  pose proof (as_u_bounds v). pose proof pow_half. unfold as_i.
  destruct (Z.ltb_spec (as_u b v) (2 ^ (b - 1))); lia.
Qed.

Lemma as_i_id v : - 2 ^ (b - 1) ≤ v < 2 ^ (b - 1) → as_i b v = v.
Proof.
  intros Hv. pose proof pow_half. unfold as_i, as_u. destruct (Z.leb_spec 0 v).
  - rewrite Z.mod_small by lia. rewrite (proj2 (Z.ltb_lt _ _)) by lia. done.
  - replace (v mod 2 ^ b) with (v + 2 ^ b).
    + rewrite (proj2 (Z.ltb_ge _ _)) by lia. lia.
    + symmetry. rewrite <-(Z.mod_small (v + 2 ^ b) (2 ^ b)) by lia.
      rewrite <-(Z.mul_1_l (2 ^ b)) at 2. by rewrite Z.mod_add by lia.
Qed.

(** The signed reading of a residue is the residue again. *)
Lemma as_u_as_i v : as_u b (as_i b v) = as_u b v.
Proof.
  pose proof bits_range. unfold as_i. destruct (_ <? _); unfold as_u.
  - apply Z.mod_mod. apply Z.pow_nonzero; lia.
  - rewrite Zminus_mod, Z_mod_same_full, Z.sub_0_r, !Z.mod_mod; [done|apply Z.pow_nonzero; lia..].
Qed.

Lemma as_i_as_u v : as_i b (as_u b v) = as_i b v.
Proof. pose proof bits_range. unfold as_i, as_u. rewrite Z.mod_mod; [done|apply Z.pow_nonzero; lia]. Qed.

Lemma raw_ok data : SI.raw data size = Ret (mkScalarInt data size).
Proof.
  unfold SI.raw, size_ok in *. rewrite as_u_id by lia. rewrite (proj2 (Z.eqb_neq _ _)) by lia. done.
Qed.

Lemma truncate_from_uint_ok i :
  SI.truncate_from_uint i size = Ret (mkScalarInt (as_u b i) size, negb (as_u b i =? i)).
Proof. unfold SI.truncate_from_uint. rewrite truncate_ok. cbn [mbind outcome_bind]. by rewrite raw_ok. Qed.

Lemma as_u_128 i : as_u b (as_u 128 i) = as_u b i.
Proof.
  unfold as_u. apply Z.mod_mod_divide. exists (2 ^ (128 - b)). rewrite pow_128. lia.
Qed.

Lemma truncate_from_int_ok i :
  SI.truncate_from_int i size = Ret (mkScalarInt (as_u b i) size, negb (as_i b i =? i)).
Proof.
  unfold SI.truncate_from_int. rewrite truncate_ok, as_u_128. cbn [mbind outcome_bind]. rewrite raw_ok.
  cbn [mbind outcome_bind si_data]. rewrite sign_extend_ok, as_i_as_u. done.
Qed.

Lemma signed_min_ok : Size.signed_int_min size = Ret (- 2 ^ (b - 1)).
Proof.
  pose proof bits_range. unfold Size.signed_int_min. destruct guards as [-> ->]. simpl orb. cbn iota.
  rewrite sign_extend_ok, Z.shiftl_1_l. unfold as_i. rewrite as_u_id.
  - rewrite Z.ltb_irrefl. f_equal. pose proof pow_half. lia.
  - split; [lia|]. apply Z.pow_lt_mono_r; lia.
Qed.
End size.

Section read.
Context (s : ScalarInt) (Hs : si_wf s).

Lemma check_data_ok : SI.check_data s = Ret ().
Proof.
  destruct Hs as [Hz Hd]. unfold SI.check_data. rewrite truncate_ok by done. cbn [mbind outcome_bind].
  rewrite as_u_id by done. by rewrite Z.eqb_refl.
Qed.

Lemma to_bits_ok : SI.to_bits s (si_size s) = Ret (si_data s).
Proof.
  unfold SI.to_bits, SI.try_to_bits. destruct Hs as [[? ?] _]. rewrite (proj2 (Z.eqb_neq _ _)), Z.eqb_refl by lia.
  by rewrite check_data_ok.
Qed.

Lemma to_bits_mismatch size : size ≠ si_size s → SI.to_bits s size = Panic.
Proof.
  intros Hne. unfold SI.to_bits, SI.try_to_bits. destruct (_ =? 0); [done|]. by rewrite (proj2 (Z.eqb_neq _ _)).
Qed.

Lemma to_int_ok : SI.to_int s (si_size s) = Ret (as_i (Size.bits (si_size s)) (si_data s)).
Proof. unfold SI.to_int. rewrite to_bits_ok. cbn [mbind outcome_bind]. apply sign_extend_ok, Hs. Qed.
End read.

(** The conversion in [to_i32] is total on 4-byte scalars. *)
Lemma to_i32_ok s : si_wf s → si_size s = 4 → SI.to_i32 s = Ret (as_i 32 (si_data s)).
Proof.
  intros Hs H4. unfold SI.to_i32. rewrite <-H4. rewrite to_int_ok by done. cbn [mbind outcome_bind].
  pose proof (as_i_bounds (si_size s) (proj1 Hs) (si_data s)) as Hb. rewrite H4 in *. change (Size.bits 4) with 32 in *.
  change (32 - 1) with 31 in Hb. rewrite (proj2 (Z.leb_le _ _)), (proj2 (Z.ltb_lt _ _)) by lia. done.
Qed.

(** C33: Building a scalar of [size] bytes from a 128-bit integer and reading it
    back gives the integer modulo the size, in the signed or unsigned range of
    that size; the flag says whether the integer was out of range, so the
    [try_from] constructors succeed exactly on the values that fit.  Reading at
    another size is a compiler bug.  The limits of a size are those of its
    integer types. *)
Theorem scalar_int_bounds size : size_ok size →
  let b := Size.bits size in
  (∀ i, 0 ≤ i < 2 ^ 128 → ∃ s, SI.truncate_from_uint i size = Ret (s, negb (i <? 2 ^ b)) ∧ si_wf s ∧
     SI.to_bits s size = Ret (i mod 2 ^ b) ∧
     SI.try_from_uint i size = Ret (if i <? 2 ^ b then Some s else None)) ∧
  (∀ i, - 2 ^ 127 ≤ i < 2 ^ 127 → ∃ s j,
     SI.truncate_from_int i size = Ret (s, negb ((- 2 ^ (b - 1) <=? i) && (i <? 2 ^ (b - 1)))) ∧ si_wf s ∧
     SI.to_int s size = Ret j ∧ - 2 ^ (b - 1) ≤ j < 2 ^ (b - 1) ∧ j mod 2 ^ b = i mod 2 ^ b ∧
     SI.try_from_int i size = Ret (if (- 2 ^ (b - 1) <=? i) && (i <? 2 ^ (b - 1)) then Some s else None)) ∧
  (∀ s size', si_wf s → size' ≠ si_size s → SI.to_bits s size' = Panic ∧ SI.to_int s size' = Panic) ∧
  Size.signed_int_min size = Ret (- 2 ^ (b - 1)) ∧ Size.signed_int_max size = Ret (2 ^ (b - 1) - 1) ∧
  Size.unsigned_int_max size = Ret (2 ^ b - 1).
Proof.
  intros Hsize b. pose proof (bits_range size Hsize) as Hb. fold b in Hb.
  assert (Hwf : ∀ i, si_wf (mkScalarInt (as_u b i) size)) by (intros i; split; [done|by apply as_u_bounds]).
  split_and!.
  - intros i Hi. exists (mkScalarInt (as_u b i) size).
    assert (E : (as_u b i =? i) = (i <? 2 ^ b)).
    { pose proof (as_u_bounds size Hsize i) as Hu. fold b in Hu. apply eq_true_iff_eq. rewrite Z.eqb_eq, Z.ltb_lt.
      split; [lia|]. intros ?. apply as_u_id. lia. }
    unfold SI.try_from_uint. rewrite truncate_from_uint_ok by done. fold b. rewrite E. split_and!; [done..| |].
    + apply (to_bits_ok (mkScalarInt (as_u b i) size) (Hwf i)).
    + cbn [mbind outcome_bind fst snd]. by destruct (_ <? _).
  - intros i Hi. exists (mkScalarInt (as_u b i) size), (as_i b i).
    assert (E : (as_i b i =? i) = (- 2 ^ (b - 1) <=? i) && (i <? 2 ^ (b - 1))).
    { pose proof (as_i_bounds size Hsize i) as Hu. fold b in Hu. apply eq_true_iff_eq.
      rewrite andb_true_iff, Z.eqb_eq, Z.ltb_lt, Z.leb_le. split; [lia|]. intros ?. apply as_i_id; [done|]. fold b. lia. }
    unfold SI.try_from_int. rewrite truncate_from_int_ok by done. fold b. rewrite E. split_and!; [done..| | | | |].
    + etrans; [apply (to_int_ok (mkScalarInt (as_u b i) size) (Hwf i))|]. cbn [si_data si_size]. fold b. f_equal.
      by apply as_i_as_u.
    + by apply as_i_bounds.
    + by apply as_i_bounds.
    + by apply (as_u_as_i size).
    + cbn [mbind outcome_bind fst snd]. by destruct (_ && _).
  - intros s size' Hs Hne. unfold SI.to_int. by rewrite !to_bits_mismatch.
  - by apply signed_min_ok.
  - unfold Size.signed_int_max. destruct (guards size Hsize) as [-> ->]. simpl orb. cbn iota. f_equal. fold b.
    rewrite Z.shiftr_div_pow2 by lia.
    replace (2 ^ 127) with (2 ^ (b - 1) * 2 ^ (128 - b)) by (rewrite <-Z.pow_add_r by lia; f_equal; lia).
    assert (0 < 2 ^ (128 - b)) by (apply Z.pow_pos_nonneg; lia).
    symmetry. apply (Z.div_unique _ _ _ (2 ^ (128 - b) - 1)); lia.
  - unfold Size.unsigned_int_max. destruct (guards size Hsize) as [-> ->]. simpl orb. cbn iota. f_equal. fold b.
    rewrite Z.shiftr_div_pow2 by lia. pose proof (pow_128 size Hsize) as E. fold b in E. rewrite E.
    assert (0 < 2 ^ (128 - b)) by (apply Z.pow_pos_nonneg; lia).
    symmetry. apply (Z.div_unique _ _ _ (2 ^ (128 - b) - 1)); lia.
Qed.

Lemma scalar_int_bounds_witness :
  SI.truncate_from_int (-1) 4 = Ret (mkScalarInt (2 ^ 32 - 1) 4, false) ∧ Size.signed_int_min 4 = Ret (- 2 ^ 31).
Proof.
  split; [vm_compute; reflexivity|].
  destruct (scalar_int_bounds 4 ltac:(unfold size_ok; lia)) as (_ & _ & _ & H & _). exact H.
Defined.
