(* ===== verification/IntOps.v ===== *)
(** * Integer operations of the interpreter

    [rustc_const_eval/src/interpret/operator.rs]: [binary_int_op], [unary_op]
    on integers and [binary_bool_op], the compiler's own evaluation of MIR integer operations,
    against which the code that the Triton backend emits is judged.  Operands
    are plain integers (no provenance); undefined behaviour is an error value.
    [rustc_abi]'s data layout appears as the pointer size. *)
From S2P Require Import Prelude Mir ScalarInts.
#[local] Open Scope Z_scope.

(** ** Layouts of integer types *)
Inductive NumTy := SInt (t : IntTy) | UInt (t : UintTy).
#[export] Instance IntTy_eq_dec : EqDecision IntTy.
Proof. solve_decision. Defined.
#[export] Instance UintTy_eq_dec : EqDecision UintTy.
Proof. solve_decision. Defined.
#[export] Instance NumTy_eq_dec : EqDecision NumTy.
Proof. solve_decision. Defined.

Section interp.
(** The size of a pointer, in bytes. *)
Context (pointer_size : Z).

Definition num_size (t : NumTy) : Z :=
  match t with
  | SInt I8 | UInt U8 => 1
  | SInt I16 | UInt U16 => 2
  | SInt I32 | UInt U32 => 4
  | SInt I64 | UInt U64 => 8
  | SInt I128 | UInt U128 => 16
  | SInt Isize | UInt Usize => pointer_size
  end.
Definition is_signed (t : NumTy) : bool := match t with SInt _ => true | UInt _ => false end.

(** ** 128-bit arithmetic

    [i128::overflowing_*] and [u128::overflowing_*]. *)
Definition in_i128 (x : Z) : bool := (- 2 ^ 127 <=? x) && (x <? 2 ^ 127).
Definition in_u128 (x : Z) : bool := (0 <=? x) && (x <? 2 ^ 128).
Definition overflowing_i128 (x : Z) : Z * bool := (as_i 128 x, negb (in_i128 x)).
Definition overflowing_u128 (x : Z) : Z * bool := (as_u 128 x, negb (in_u128 x)).

(** [checked_shl(n).unwrap()], [checked_shr(n).unwrap()] *)
Definition checked_shift (n x : Z) : outcome Z := if (0 <=? n) && (n <? 128) then Ret x else Panic.

(** ** Values *)
Inductive UndefinedBehaviorInfo :=
  | ShiftOverflow | DivisionByZero_ | RemainderByZero_ | RemainderOverflow | DivisionOverflow | ArithOverflow.

Record ImmTy := mkImm { imm : ScalarInt; imm_ty : NumTy }.
Inductive ImmResult :=
  | ResInt (s : ScalarInt) (t : NumTy)
  | ResBool (b : bool)
  | ResOrdering (c : comparison)
  | ResPair (s : ScalarInt) (t : NumTy) (overflow : bool).

Definition InterpResult := outcome (UndefinedBehaviorInfo + ImmResult).
Definition interp_ok (r : ImmResult) : InterpResult := Ret (inr r).
Definition throw_ub (u : UndefinedBehaviorInfo) : InterpResult := Ret (inl u).

(** [BinOp::is_overflowing] *)
Definition is_overflowing (op : BinOp) : bool :=
  match op with AddWithOverflow | SubWithOverflow | MulWithOverflow => true | _ => false end.

(** [throw_ub_on_overflow.is_some()] *)
Definition throws_on_overflow (op : BinOp) : bool :=
  match op with AddUnchecked | SubUnchecked | MulUnchecked | ShlUnchecked | ShrUnchecked => true | _ => false end.

Definition is_shift (op : BinOp) : bool :=
  match op with Shl | ShlUnchecked | Shr | ShrUnchecked => true | _ => false end.

(** [Ord] on integers, by operation. *)
Definition compare_op (op : BinOp) (l r : Z) : option bool :=
  match op with
  | BLt => Some (l <? r) | BLe => Some (l <=? r) | BGt => Some (r <? l) | BGe => Some (r <=? l) | _ => None
  end.

(** The shift operations: the amount is reduced modulo the width of the left
    operand. *)
Definition shift_op (op : BinOp) (left right : ImmTy) : InterpResult :=
  let l_size := num_size (imm_ty left) in
  let l_bits := Size.bits l_size in
  shift ← (if is_signed (imm_ty right) then SI.to_int (imm right) (num_size (imm_ty right))
           else SI.to_bits (imm right) (num_size (imm_ty right)));
  if l_bits =? 0 then Panic else
  let rem := shift mod l_bits in
  let overflow := negb (rem =? shift) in
  result ← (if is_signed (imm_ty left) then
              l ← SI.to_int (imm left) l_size;
              result ← match op with
                       | Shl | ShlUnchecked => checked_shift rem (as_i 128 (Z.shiftl l rem))
                       | Shr | ShrUnchecked => checked_shift rem (Z.shiftr l rem)
                       | _ => Panic
                       end;
              SI.truncate_from_int result l_size
            else
              l ← SI.to_bits (imm left) l_size;
              result ← match op with
                       | Shl | ShlUnchecked => checked_shift rem (as_u 128 (Z.shiftl l rem))
                       | Shr | ShrUnchecked => checked_shift rem (Z.shiftr l rem)
                       | _ => Panic
                       end;
              SI.truncate_from_uint result l_size);
  if overflow && throws_on_overflow op then throw_ub ShiftOverflow
  else interp_ok (ResInt result.1 (imm_ty left)).

(** The tail shared by the signed and the unsigned arithmetic: the truncated
    result and whether anything was lost. *)
Definition finish_arith (op : BinOp) (t : NumTy) (r : ScalarInt * bool) (oflo : bool) : InterpResult :=
  let overflow := oflo || r.2 in
  if overflow && throws_on_overflow op then throw_ub ArithOverflow
  else interp_ok (if is_overflowing op then ResPair r.1 t overflow else ResInt r.1 t).

(** The operations with a special treatment for signed integers; [None] falls
    through. *)
Definition signed_op (op : BinOp) (t : NumTy) (l r : Z) (r_null : bool) : option InterpResult :=
  let size := num_size t in
  let arith (x : Z * bool) :=
    Some (s ← SI.truncate_from_int x.1 size; finish_arith op t s x.2) in
  match compare_op op l r with
  | Some b => Some (interp_ok (ResBool b))
  | None =>
      match op with
      | Cmp => Some (interp_ok (ResOrdering (l ?= r)))
      | Div => if r_null then Some (throw_ub DivisionByZero_)
               else Some (m ← Size.signed_int_min size;
                          if (l =? m) && (r =? -1) then throw_ub DivisionOverflow
                          else let x := overflowing_i128 (Z.quot l r) in
                               s ← SI.truncate_from_int x.1 size; finish_arith op t s x.2)
      | Rem => if r_null then Some (throw_ub RemainderByZero_)
               else Some (m ← Size.signed_int_min size;
                          if (l =? m) && (r =? -1) then throw_ub RemainderOverflow
                          else let x := overflowing_i128 (Z.rem l r) in
                               s ← SI.truncate_from_int x.1 size; finish_arith op t s x.2)
      | Add | AddUnchecked | AddWithOverflow => arith (overflowing_i128 (l + r))
      | Sub | SubUnchecked | SubWithOverflow => arith (overflowing_i128 (l - r))
      | Mul | MulUnchecked | MulWithOverflow => arith (overflowing_i128 (l * r))
      | _ => None
      end
  end.

(** [ImmTy::from_uint]: the value must fit. *)
Definition from_uint (x : Z) (t : NumTy) : InterpResult :=
  s ← SI.try_from_uint x (num_size t);
  s ← unwrap s;
  interp_ok (ResInt s t).

(** The operations that treat their operands as unsigned. *)
Definition unsigned_op (op : BinOp) (t : NumTy) (l r : Z) : InterpResult :=
  let size := num_size t in
  let arith (x : Z * bool) :=
    if is_signed t then Panic
    else s ← SI.truncate_from_uint x.1 size; finish_arith op t s x.2 in
  match compare_op op l r with
  | Some b => interp_ok (ResBool b)
  | None =>
      match op with
      | Cmp => interp_ok (ResOrdering (l ?= r))
      | BEq => interp_ok (ResBool (l =? r))
      | BNe => interp_ok (ResBool (negb (l =? r)))
      | BitOr => from_uint (Z.lor l r) t
      | BitAnd => from_uint (Z.land l r) t
      | BitXor => from_uint (Z.lxor l r) t
      | Add | AddUnchecked | AddWithOverflow => arith (overflowing_u128 (l + r))
      | Sub | SubUnchecked | SubWithOverflow => arith (overflowing_u128 (l - r))
      | Mul | MulUnchecked | MulWithOverflow => arith (overflowing_u128 (l * r))
      | Div => if is_signed t then Panic else if r =? 0 then throw_ub DivisionByZero_ else arith (Z.quot l r, false)
      | Rem => if is_signed t then Panic else if r =? 0 then throw_ub RemainderByZero_ else arith (Z.rem l r, false)
      | _ => Panic
      end
  end.

Definition binary_int_op (op : BinOp) (left right : ImmTy) : InterpResult :=
  if is_shift op then shift_op op left right
  else if negb (bool_decide (imm_ty left = imm_ty right)) then Panic
  else
    let t := imm_ty left in
    let size := num_size t in
    let unsigned :=
      l ← SI.to_bits (imm left) size;
      r ← SI.to_bits (imm right) size;
      unsigned_op op t l r in
    if is_signed t then
      l ← SI.to_int (imm left) size;
      r ← SI.to_int (imm right) size;
      match signed_op op t l r (SI.is_null (imm right)) with
      | Some result => result
      | None => unsigned
      end
    else unsigned.

(** [unary_op] on integers. *)
Definition unary_int_op (op : UnOp) (val : ImmTy) : InterpResult :=
  let size := num_size (imm_ty val) in
  res ← (if is_signed (imm_ty val) then
           v ← SI.to_int (imm val) size;
           res ← match op with
                 | Not => Ret (Z.lnot v)
                 | Neg => Ret (as_i 128 (- v))
                 | PtrMetadata => Panic
                 end;
           SI.truncate_from_int res size
         else
           v ← SI.to_bits (imm val) size;
           res ← match op with Not => Ret (as_u 128 (Z.lnot v)) | _ => Panic end;
           SI.truncate_from_uint res size);
  interp_ok (ResInt res.1 (imm_ty val)).

(** [binary_bool_op] *)
Definition binary_bool_op (op : BinOp) (l r : bool) : outcome bool :=
  match op with
  | BEq => Ret (eqb l r)
  | BNe => Ret (negb (eqb l r))
  | BLt => Ret (negb l && r)
  | BLe => Ret (negb l || r)
  | BGt => Ret (l && negb r)
  | BGe => Ret (l || negb r)
  | BitAnd => Ret (l && r)
  | BitOr => Ret (l || r)
  | BitXor => Ret (xorb l r)
  | _ => Panic
  end.
End interp.

(** ** Results of the operations

    Whatever the operands, an integer that [binary_int_op] or [unary_op] gives is
    a scalar of the left operand's type in its range, a checked operation gives
    what the plain one gives with a flag, and a comparison gives a boolean. *)
Section results.
Context (pointer_size : Z) (t : NumTy) (Hsize : size_ok (num_size pointer_size t)).
Abbreviation size := (num_size pointer_size t).

(** A scalar of the type. *)
Definition scalar_of_type (s : ScalarInt) : Prop := si_size s = size ∧ 0 ≤ si_data s < 2 ^ Size.bits size.
Definition in_range (res : ImmResult) : Prop :=
  match res with
  | ResInt s t' | ResPair s t' _ => t' = t ∧ scalar_of_type s
  | ResBool _ | ResOrdering _ => True
  end.
Definition ranged (r : InterpResult) : Prop := ∀ res, r = Ret (inr res) → in_range res.

Lemma ranged_ret res : in_range res → ranged (interp_ok res).
Proof. by intros H res' [= <-]. Qed.
Lemma ranged_ub u : ranged (throw_ub u).
Proof. done. Qed.
Lemma ranged_panic : ranged Panic.
Proof. done. Qed.
Lemma ranged_if (c : bool) r1 r2 : ranged r1 → ranged r2 → ranged (if c then r1 else r2).
Proof. by destruct c. Qed.
Lemma ranged_bind {A} (m : outcome A) (f : A → InterpResult) : (∀ a, ranged (f a)) → ranged (m ≫= f).
Proof. intros Hf res. destruct m; simpl; [apply Hf|done..]. Qed.

Lemma truncated_of_type z : scalar_of_type (mkScalarInt (as_u (Size.bits size) z) size).
Proof. split; [done|]. by apply as_u_bounds. Qed.

Lemma ranged_trunc_int z (f : ScalarInt * bool → InterpResult) :
  (∀ r, scalar_of_type r.1 → ranged (f r)) → ranged (SI.truncate_from_int z size ≫= f).
Proof. intros Hf. rewrite truncate_from_int_ok by done. apply Hf, truncated_of_type. Qed.
Lemma ranged_trunc_uint z (f : ScalarInt * bool → InterpResult) :
  (∀ r, scalar_of_type r.1 → ranged (f r)) → ranged (SI.truncate_from_uint z size ≫= f).
Proof. intros Hf. rewrite truncate_from_uint_ok by done. apply Hf, truncated_of_type. Qed.
Lemma ranged_finish op r oflo : scalar_of_type r.1 → ranged (finish_arith op t r oflo).
Proof. intros Hr. unfold finish_arith. apply ranged_if; [done|]. apply ranged_ret. by destruct (is_overflowing op). Qed.
Lemma ranged_from_uint z : ranged (from_uint pointer_size z t).
Proof.
  unfold from_uint, SI.try_from_uint. rewrite truncate_from_uint_ok by done. cbn [mbind outcome_bind fst snd].
  destruct (negb _); [done|]. apply ranged_ret. split; [done|]. apply truncated_of_type.
Qed.
End results.

Create HintDb ranged.
#[local] Hint Resolve ranged_ub ranged_panic ranged_if ranged_bind ranged_trunc_int ranged_trunc_uint ranged_finish
  ranged_from_uint : ranged.
#[local] Hint Extern 1 (ranged _ _ (interp_ok _)) => apply ranged_ret; by simpl : ranged.

Section ops.
Context (pointer_size : Z) (t : NumTy) (Hsize : size_ok (num_size pointer_size t)).
Abbreviation ranged := (ranged pointer_size t).

Lemma unsigned_op_ranged op l r : ranged (unsigned_op pointer_size op t l r).
Proof. unfold unsigned_op. destruct (compare_op op l r); [auto with ranged|]. destruct op; eauto 6 with ranged. Qed.

Lemma signed_op_ranged op l r n x : signed_op pointer_size op t l r n = Some x → ranged x.
Proof.
  unfold signed_op. destruct (compare_op op l r); [intros [= <-]; auto with ranged|].
  destruct op; try done; try destruct n; intros [= <-]; cbn zeta; eauto 8 with ranged.
Qed.

Lemma shift_op_ranged op left right : imm_ty left = t → ranged (shift_op pointer_size op left right).
Proof.
  intros Ht. unfold shift_op. cbv zeta. rewrite Ht. apply ranged_bind. intros sh. apply ranged_if; [done|].
  assert (Hk : ∀ m : outcome (ScalarInt * bool), (∀ r, m = Ret r → scalar_of_type pointer_size t r.1) → ∀ c : bool,
    ranged (result ← m; if c then throw_ub ShiftOverflow else interp_ok (ResInt result.1 t))).
  { intros m Hm c. destruct m as [r| |]; try done. simpl. apply ranged_if; [done|]. apply ranged_ret. split; [done|]. by apply Hm. }
  set (c := negb _ && throws_on_overflow op). refine (Hk _ _ c). intros r.
  assert (Hinv : ∀ A B (m : outcome A) (f : A → outcome B) b, m ≫= f = Ret b → ∃ a, f a = Ret b) by (intros ?? []; naive_solver).
  destruct (is_signed t); intros [b [z H]%Hinv]%Hinv.
  - rewrite truncate_from_int_ok in H by done. injection H as <-. by apply truncated_of_type.
  - rewrite truncate_from_uint_ok in H by done. injection H as <-. by apply truncated_of_type.
Qed.

Lemma binary_int_op_ranged op left right : imm_ty left = t → ranged (binary_int_op pointer_size op left right).
Proof.
  intros Ht. unfold binary_int_op. rewrite Ht. apply ranged_if; [by apply shift_op_ranged|]. apply ranged_if; [done|].
  apply ranged_if; repeat (apply ranged_bind; intros ?); [|apply unsigned_op_ranged].
  destruct (signed_op _ _ _ _ _ _) eqn:E; [by eapply signed_op_ranged|].
  repeat (apply ranged_bind; intros ?). apply unsigned_op_ranged.
Qed.
End ops.

(** ** Checked arithmetic *)
Definition plain_of (op : BinOp) : option BinOp :=
  match op with AddWithOverflow => Some Add | SubWithOverflow => Some Sub | MulWithOverflow => Some Mul | _ => None end.

(** The result without the flag. *)
Definition drop_flag (r : InterpResult) : InterpResult :=
  match r with Ret (inr (ResPair s t _)) => Ret (inr (ResInt s t)) | r => r end.

Lemma finish_plain op plain t r oflo : plain_of op = Some plain →
  finish_arith plain t r oflo = drop_flag (finish_arith op t r oflo).
Proof. intros H. unfold finish_arith. by destruct op; simplify_eq/=; rewrite andb_false_r. Qed.

(** A checked operation computes what the plain one does. *)
Lemma checked_is_plain pointer_size op plain left right : plain_of op = Some plain →
  binary_int_op pointer_size plain left right = drop_flag (binary_int_op pointer_size op left right).
Proof.
  intros Hp. pose proof (λ t r o, finish_plain op plain t r o Hp) as Hf.
  assert (Hu : ∀ t l r, unsigned_op pointer_size plain t l r = drop_flag (unsigned_op pointer_size op t l r)).
  { intros t l r. unfold unsigned_op. destruct op; simplify_eq/=; destruct (is_signed t); try done;
      (destruct (SI.truncate_from_uint _ _); [apply Hf|done..]). }
  assert (Hs : ∀ t l r n, signed_op pointer_size plain t l r n = option_map drop_flag (signed_op pointer_size op t l r n)).
  { intros t l r n. unfold signed_op. destruct op; simplify_eq/=; f_equal;
      (destruct (SI.truncate_from_int _ _); [apply Hf|done..]). }
  assert (is_shift plain = false ∧ is_shift op = false) as [E1 E2] by (by destruct op; simplify_eq/=).
  unfold binary_int_op. rewrite E1, E2. destruct (negb _); [done|].
  destruct (is_signed _).
  - destruct (SI.to_int (imm left) _), (SI.to_int (imm right) _); try done. cbn [mbind outcome_bind].
    rewrite Hs. destruct (signed_op _ _ _ _ _ _); [done|]. cbn [option_map].
    destruct (SI.to_bits (imm left) _), (SI.to_bits (imm right) _); try done. apply Hu.
  - destruct (SI.to_bits (imm left) _), (SI.to_bits (imm right) _); try done. apply Hu.
Qed.

(** ... and gives it with a flag. *)
Lemma checked_pair pointer_size op left right res : is_Some (plain_of op) →
  binary_int_op pointer_size op left right = Ret (inr res) → ∃ s t flag, res = ResPair s t flag.
Proof.
  intros [plain Hp]. assert (Hf : ∀ t r o, finish_arith op t r o = Ret (inr res) → ∃ s t flag, res = ResPair s t flag).
  { intros t r o. unfold finish_arith. destruct op; simplify_eq/=; rewrite andb_false_r; intros [= <-]; eauto. }
  assert (Hu : ∀ t l r, unsigned_op pointer_size op t l r = Ret (inr res) → ∃ s t flag, res = ResPair s t flag).
  { intros t l r. unfold unsigned_op. destruct op; simplify_eq/=; destruct (is_signed t); try done;
      (destruct (SI.truncate_from_uint _ _); [apply Hf|done..]). }
  assert (Hs : ∀ t l r nul x, signed_op pointer_size op t l r nul = Some x → x = Ret (inr res) → ∃ s t flag, res = ResPair s t flag).
  { intros t l r nul x. unfold signed_op. destruct op; simplify_eq/=; intros [= <-];
      (destruct (SI.truncate_from_int _ _); [apply Hf|done..]). }
  assert (is_shift op = false) as E by (by destruct op). unfold binary_int_op. rewrite E. destruct (negb _); [done|].
  destruct (is_signed _).
  - destruct (SI.to_int (imm left) _), (SI.to_int (imm right) _); try done. cbn [mbind outcome_bind].
    destruct (signed_op _ _ _ _ _ _) eqn:Ex; [by eapply Hs|].
    destruct (SI.to_bits (imm left) _), (SI.to_bits (imm right) _); try done. apply Hu.
  - destruct (SI.to_bits (imm left) _), (SI.to_bits (imm right) _); try done. apply Hu.
Qed.
