(* ===== verification/TritonArith.v ===== *)
(** * Triton backend: arithmetic

    [ops/binaryops.rs] and [codegen_binary_op] of [mod.rs]: which [arith]
    operation the backend appends to the current MLIR block for a MIR binary
    operation, with the splats and broadcasts it needs on tensors, and the
    handling of the overflow flag.  The constructors of [rustc_mlir] are
    modelled by the operation they build, which is assumed to succeed; MLIR's
    inference of a result type, the type of an operand and the code of an operand
    are parameters. *)
From S2P Require Import Prelude Codegen Mir.

(** ** MLIR values *)
Inductive MlirTy :=
  | MInt (width : Z)
  | MFloat (width : Z)
  | MTensor (dims : list Z) (elem : MlirTy)
  | MUnrankedTensor (elem : MlirTy)
  | MPointer (pointee : MlirTy)
  | MTuple (elems : list MlirTy)
  | MTensorDesc (dims : list Z) (elem : MlirTy).
Definition is_integer (t : MlirTy) : bool := match t with MInt _ => true | _ => false end.
Definition is_float (t : MlirTy) : bool := match t with MFloat _ => true | _ => false end.
Definition is_tensor (t : MlirTy) : bool := match t with MTensor _ _ | MUnrankedTensor _ => true | _ => false end.

#[export] Instance MlirTy_eq_dec : EqDecision MlirTy.
Proof. unfold EqDecision, Decision. fix IH 1. intros [] []; try (right; discriminate).
  - destruct (decide (width = width0)) as [->|]; [by left|right; congruence].
  - destruct (decide (width = width0)) as [->|]; [by left|right; congruence].
  - destruct (decide (dims = dims0)) as [->|]; [|right; congruence].
    destruct (IH elem elem0) as [->|]; [by left|right; congruence].
  - destruct (IH elem elem0) as [->|]; [by left|right; congruence].
  - destruct (IH pointee pointee0) as [->|]; [by left|right; congruence].
  - destruct (@list_eq_dec _ IH elems elems0) as [->|]; [by left|right; congruence].
  - destruct (decide (dims = dims0)) as [->|]; [|right; congruence].
    destruct (IH elem elem0) as [->|]; [by left|right; congruence].
Defined.

Record Value := mkValue { v_id : nat; v_ty : MlirTy }.

Inductive Predicate := EQ | NE | SLT | SLE | SGT | SGE | ULT | ULE | UGT | UGE.
Inductive FpPredicate := OEQ | OGT | OGE | OLT | OLE | ONE.

Inductive ArithKind :=
  | addi | addf | subi | subf | muli | mulf | divsi | divf | remsi
  | shli | shrsi | shrui | andi | ori | xori
  | cmpi (p : Predicate) | cmpf (p : FpPredicate)
  | splat | broadcast | constant (n : Z) | float_zero | negf
  | float_constant (ty : FloatTy) (bits : Z) | ub_poison | int_to_ptr
  | sitofp | fptosi | truncf | extf.

Record ArithOp := mkArithOp { ao_result : Value; ao_kind : ArithKind; ao_args : list Value }.

(** The block under construction; values are numbered. *)
Record MBlock := mkMBlock { next_value : nat; mb_ops : list ArithOp }.

(** ** Code generation: a state over the block, with errors *)
Abbreviation gen := (cg MBlock).
Definition err {A} (e : MlirError) : gen A := λ _, Ret (inl e).
(** [todo!] *)
Definition todo {A} : gen A := λ _, Panic.

(** [mlir_block.append_operation(op)]; the value is [op.result(0)]. *)
Definition append_operation (kind : ArithKind) (args : list Value) (ty : MlirTy) : gen Value := λ blk,
  let v := mkValue (next_value blk) ty in
  Ret (inr (v, mkMBlock (S (next_value blk)) (mb_ops blk ++ [mkArithOp v kind args]))).

(** [RankedTensorType::try_from], and [dims] and [element] of a ranked tensor. *)
Definition ranked (t : MlirTy) : option (list Z * MlirTy) :=
  match t with MTensor dims elem => Some (dims, elem) | _ => None end.
Definition ranked_or_err (t : MlirTy) : gen (list Z * MlirTy) :=
  match ranked t with Some r => mret r | None => err InvalidType end.

(** [like_tensor] *)
Definition like_tensor (tensor value : Value) : gen Value :=
  t ← ranked_or_err (v_ty tensor);
  append_operation splat [value] (MTensor t.1 (v_ty value)).

(** ** [maybe_broadcast_pair] *)
Section broadcast.
#[local] Open Scope Z_scope.
Definition broadcast_dim (l r : Z) : Z :=
  if (l =? r) || (r <? 0) then l else if l <? 0 then r else Z.max l r.
Definition dims_ok (dims target : list Z) : bool :=
  forallb (λ d, (d.1 =? 1) || (d.1 =? d.2) || (d.1 <? 0) || (d.2 <? 0)) (zip dims target).

Definition do_broadcast (bd : list Z) (elem : MlirTy) (v : Value) (dims : list Z) : gen Value :=
  if bool_decide (dims = bd) then mret v else append_operation broadcast [v] (MTensor bd elem).

Definition maybe_broadcast_pair (lhs rhs : Value) : gen (Value * Value) :=
  match ranked (v_ty lhs), ranked (v_ty rhs) with
  | Some (ld, le), Some (rd, _) =>
      if bool_decide (ld = rd) || negb (Nat.eqb (length ld) (length rd)) then mret (lhs, rhs)
      else
        let bd := zip_with broadcast_dim ld rd in
        if negb (dims_ok ld bd) || negb (dims_ok rd bd) then mret (lhs, rhs)
        else
          l ← do_broadcast bd le lhs ld;
          r ← do_broadcast bd le rhs rd;
          mret (l, r)
  | _, _ => mret (lhs, rhs)
  end.
End broadcast.

Section arith.
(** MLIR infers the type of a result from the operands. *)
Context (infer : ArithKind → MlirTy → MlirTy → MlirTy).

(** The operation built by a [create_*] constructor, appended. *)
Definition create (kind : ArithKind) (lhs rhs : Value) : gen Value :=
  append_operation kind [lhs; rhs] (infer kind (v_ty lhs) (v_ty rhs)).

(** [create_muli] checks the types of its operands. *)
Definition create_muli (lhs rhs : Value) : gen Value :=
  if negb (bool_decide (v_ty lhs = v_ty rhs)) then err CreateOperation
  else if negb (is_integer (v_ty lhs)) then err CreateOperation
  else create muli lhs rhs.

(** The four ways the operands can be tensors; [pair] treats two tensors. *)
Definition align_operands (pair : Value → Value → gen (Value * Value)) (lhs rhs : Value) : gen (option (Value * Value)) :=
  match is_tensor (v_ty lhs), is_tensor (v_ty rhs) with
  | true, true => p ← pair lhs rhs; mret (Some p)
  | true, false => r ← like_tensor lhs rhs; mret (Some (lhs, r))
  | false, true => l ← like_tensor rhs lhs; mret (Some (l, rhs))
  | false, false => mret None
  end.

(** The common shape of [codegen_add], [codegen_sub], [codegen_mul] and
    [codegen_div]: the operation on scalar integers, on tensors of integers, and
    on anything else. *)
Definition codegen_arith (scalar_int : Value → Value → gen Value) (tensor_int float : ArithKind)
    (lhs rhs : Value) : gen (option Value) :=
  p ← align_operands maybe_broadcast_pair lhs rhs;
  match p with
  | None =>
      v ← (if is_integer (v_ty lhs) then scalar_int lhs rhs else create float lhs rhs); mret (Some v)
  | Some (lhs, rhs) =>
      lt ← ranked_or_err (v_ty lhs);
      rt ← ranked_or_err (v_ty rhs);
      v ← (if is_integer lt.2 && is_integer rt.2 then create tensor_int lhs rhs else create float lhs rhs);
      mret (Some v)
  end.

Definition codegen_add : Value → Value → gen (option Value) := codegen_arith (create addi) addi addf.
Definition codegen_sub : Value → Value → gen (option Value) := codegen_arith (create subi) subi subf.
Definition codegen_mul : Value → Value → gen (option Value) := codegen_arith create_muli muli mulf.
Definition codegen_div : Value → Value → gen (option Value) := codegen_arith (create divsi) divsi divf.

(** The operations that take scalar integers only. *)
Definition codegen_scalar_only (kind : ArithKind) (lhs rhs : Value) : gen (option Value) :=
  if is_tensor (v_ty lhs) || is_tensor (v_ty rhs) then todo
  else if is_integer (v_ty lhs) then v ← create kind lhs rhs; mret (Some v)
  else todo.

Definition codegen_rem : Value → Value → gen (option Value) := codegen_scalar_only remsi.
Definition codegen_shl : Value → Value → gen (option Value) := codegen_scalar_only shli.
Definition codegen_shr (signed : bool) : Value → Value → gen (option Value) :=
  codegen_scalar_only (if signed then shrsi else shrui).
Definition codegen_xor : Value → Value → gen (option Value) := codegen_scalar_only xori.

(** [codegen_and] and [codegen_or] *)
Definition codegen_bitwise (kind : ArithKind) (lhs rhs : Value) : gen (option Value) :=
  p ← align_operands (λ l r, mret (l, r)) lhs rhs;
  let '(lhs, rhs) := default (lhs, rhs) p in
  is_int ← (if is_tensor (v_ty lhs) then t ← ranked_or_err (v_ty lhs); mret (is_integer t.2)
            else mret (is_integer (v_ty lhs)) : gen bool);
  if is_int : bool then v ← create kind lhs rhs; mret (Some v) else todo.
Definition codegen_and : Value → Value → gen (option Value) := codegen_bitwise andi.
Definition codegen_or : Value → Value → gen (option Value) := codegen_bitwise ori.

Definition codegen_cmpi (predicate : Predicate) (lhs rhs : Value) : gen (option Value) :=
  p ← align_operands (λ l r, mret (l, r)) lhs rhs;
  match p with
  | None => v ← append_operation (cmpi predicate) [lhs; rhs] (MInt 1); mret (Some v)
  | Some (lhs, rhs) =>
      t ← ranked_or_err (v_ty lhs);
      v ← append_operation (cmpi predicate) [lhs; rhs] (MTensor t.1 (MInt 1)); mret (Some v)
  end.

Definition codegen_cmpf (predicate : FpPredicate) (lhs rhs : Value) : gen (option Value) :=
  p ← align_operands (λ l r, mret (l, r)) lhs rhs;
  match p with
  | None => todo
  | Some (lhs, rhs) =>
      t ← ranked_or_err (v_ty lhs);
      v ← append_operation (cmpf predicate) [lhs; rhs] (MTensor t.1 (MInt 1)); mret (Some v)
  end.

(** [codegen_binary_cmp], after the code of its operands. *)
Definition lower_cmp (fp_pred : FpPredicate) (int_pred : Predicate) (lhs rhs : Value) : gen (option Value) :=
  elem ← (if is_tensor (v_ty lhs) then t ← ranked_or_err (v_ty lhs); mret t.2 else mret (v_ty lhs) : gen MlirTy);
  if is_float elem then codegen_cmpf fp_pred lhs rhs else codegen_cmpi int_pred lhs rhs.

(** [codegen_neg_call], after the code of its operand: [0 - x] at the element
    type. *)
Definition codegen_neg (x : Value) : gen (option Value) :=
  elem ← (if is_tensor (v_ty x) then t ← ranked_or_err (v_ty x); mret t.2 else mret (v_ty x) : gen MlirTy);
  zero ← append_operation (if is_integer elem then constant 0 else float_zero) [] elem;
  codegen_sub zero x.

(** ** [codegen_binary_op]

    [lhs_ty] is the type of the left operand. *)
Definition lower_binary_op (op : BinOp) (lhs_ty : Ty) (lhs rhs : Value) : gen (option Value) :=
  match op with
  | Add | AddUnchecked => codegen_add lhs rhs
  | Sub | SubUnchecked => codegen_sub lhs rhs
  | Mul | MulUnchecked => codegen_mul lhs rhs
  | AddWithOverflow | SubWithOverflow | MulWithOverflow => todo
  | Div => codegen_div lhs rhs
  | Rem => codegen_rem lhs rhs
  | BitXor => codegen_xor lhs rhs
  | BitAnd => codegen_and lhs rhs
  | BitOr => codegen_or lhs rhs
  | Shl | ShlUnchecked => codegen_shl lhs rhs
  | Shr | ShrUnchecked => codegen_shr (match lhs_ty with TyInt _ => true | _ => false end) lhs rhs
  | BEq => codegen_cmpi EQ lhs rhs
  | BLt => codegen_cmpi SLT lhs rhs
  | BLe => codegen_cmpi SLE lhs rhs
  | BNe => codegen_cmpi NE lhs rhs
  | BGe => codegen_cmpi SGE lhs rhs
  | BGt => codegen_cmpi SGT lhs rhs
  | Cmp | Offset => todo
  end.

Context (operand_ty : Operand → outcome Ty) (codegen_operand : Operand → Ty → gen Value).

Definition codegen_binary_op (op : BinOp) (operands : Operand * Operand) : gen (option Value) :=
  lhs_ty ← cg_lift (operand_ty operands.1);
  rhs_ty ← cg_lift (operand_ty operands.2);
  lhs ← codegen_operand operands.1 lhs_ty;
  rhs ← codegen_operand operands.2 rhs_ty;
  lower_binary_op op lhs_ty lhs rhs.

(** [codegen_binary_cmp] *)
Definition codegen_binary_cmp (args : Operand * Operand) (fp_pred : FpPredicate) (int_pred : Predicate)
    : gen (option Value) :=
  lhs_ty ← cg_lift (operand_ty args.1);
  rhs_ty ← cg_lift (operand_ty args.2);
  lhs ← codegen_operand args.1 lhs_ty;
  rhs ← codegen_operand args.2 rhs_ty;
  lower_cmp fp_pred int_pred lhs rhs.

(** ** The [BinaryOp] arm of [codegen_rvalue] *)
Record ArithState := mkArithState {
  ssa_values : gmap Local Value;
  tuple_fields : gmap Local (list Value) }.

(** The operation computed for an overflow-checking one. *)
Definition plain_op (op : BinOp) : option BinOp :=
  match op with
  | AddWithOverflow => Some Add
  | SubWithOverflow => Some Sub
  | MulWithOverflow => Some Mul
  | _ => None
  end.

Definition codegen_binary_rvalue (place : Place) (op : BinOp) (operands : Operand * Operand) (st : ArithState)
    : gen ArithState :=
  match plain_op op with
  | Some plain =>
      value ← codegen_binary_op plain operands;
      match value with
      | Some result =>
          false_val ← append_operation (constant 0) [] (MInt 1);
          mret (mkArithState (ssa_values st) (<[pl_local place := [result; false_val]]> (tuple_fields st)))
      | None => mret st
      end
  | None =>
      value ← codegen_binary_op op operands;
      match value with
      | Some value => mret (mkArithState (<[pl_local place := value]> (ssa_values st)) (tuple_fields st))
      | None => mret st
      end
  end.

(** The [UnaryOp] arm: the zero of an integer negation is an [i32]. *)
Definition codegen_unary_rvalue (place : Place) (op : UnOp) (operand : Operand) (st : ArithState) : gen ArithState :=
  op_ty ← cg_lift (operand_ty operand);
  val ← codegen_operand operand op_ty;
  result ← match op with
           | Neg =>
               if is_integer (v_ty val) then
                 zero ← append_operation (constant 0) [] (MInt 32);
                 create subi zero val
               else append_operation negf [val] (infer negf (v_ty val) (v_ty val))
           | Not | PtrMetadata => todo
           end;
  mret (mkArithState (<[pl_local place := result]> (ssa_values st)) (tuple_fields st)).
End arith.
