(* ===== verification/TritonArithFacts.v ===== *)
(** * Triton backend: the emitted arithmetic against the interpreter

    What the [arith] dialect documents of its integer operations ([arith_doc]),
    and the comparison of the operation that [lower_binary_op] emits with the
    result of the compiler's own interpreter, [binary_int_op]. *)
From S2P Require Import Prelude Codegen Mir ScalarInts IntOps TritonArith.
#[local] Open Scope Z_scope.

(** ** The dialect *)
(** An integer operation on two bit patterns of a width; [None] is poison or
    undefined behaviour. *)
Definition arith_eval := ArithKind → Z → Z → Z → option Z.

Definition predicate_holds (p : Predicate) (w x y : Z) : bool :=
  match p with
  | EQ => x =? y
  | NE => negb (x =? y)
  | SLT => as_i w x <? as_i w y
  | SLE => as_i w x <=? as_i w y
  | SGT => as_i w y <? as_i w x
  | SGE => as_i w y <=? as_i w x
  | ULT => x <? y
  | ULE => x <=? y
  | UGT => y <? x
  | UGE => y <=? x
  end.

Definition patterns (w x y : Z) : Prop := 0 ≤ x < 2 ^ w ∧ 0 ≤ y < 2 ^ w.

(** What the documentation of the dialect says of operands in range. *)
Record arith_doc (eval : arith_eval) : Prop := {
  doc_addi w x y : patterns w x y → eval addi w x y = Some (as_u w (x + y));
  doc_subi w x y : patterns w x y → eval subi w x y = Some (as_u w (x - y));
  doc_muli w x y : patterns w x y → eval muli w x y = Some (as_u w (x * y));
  doc_divsi w x y : patterns w x y → as_i w y ≠ 0 → (as_i w x ≠ - 2 ^ (w - 1) ∨ as_i w y ≠ -1) →
    eval divsi w x y = Some (as_u w (Z.quot (as_i w x) (as_i w y)));
  doc_remsi w x y : patterns w x y → as_i w y ≠ 0 → (as_i w x ≠ - 2 ^ (w - 1) ∨ as_i w y ≠ -1) →
    eval remsi w x y = Some (as_u w (Z.rem (as_i w x) (as_i w y)));
  doc_shli w x y : patterns w x y → 0 ≤ y < w → eval shli w x y = Some (as_u w (Z.shiftl x y));
  doc_shrsi w x y : patterns w x y → 0 ≤ y < w → eval shrsi w x y = Some (as_u w (Z.shiftr (as_i w x) y));
  doc_shrui w x y : patterns w x y → 0 ≤ y < w → eval shrui w x y = Some (Z.shiftr x y);
  doc_poison w x y : patterns w x y → w ≤ y → eval shli w x y = None ∧ eval shrsi w x y = None ∧ eval shrui w x y = None;
  doc_andi w x y : patterns w x y → eval andi w x y = Some (Z.land x y);
  doc_ori w x y : patterns w x y → eval ori w x y = Some (Z.lor x y);
  doc_xori w x y : patterns w x y → eval xori w x y = Some (Z.lxor x y);
  doc_cmpi p w x y : patterns w x y → eval (cmpi p) w x y = Some (Z.b2z (predicate_holds p w x y)) }.

(** A dialect that follows the documentation. *)
Definition arith_ref : arith_eval := λ k w x y,
  match k with
  | addi => Some (as_u w (x + y))
  | subi => Some (as_u w (x - y))
  | muli => Some (as_u w (x * y))
  | divsi => Some (as_u w (Z.quot (as_i w x) (as_i w y)))
  | remsi => Some (as_u w (Z.rem (as_i w x) (as_i w y)))
  | shli => if w <=? y then None else Some (as_u w (Z.shiftl x y))
  | shrsi => if w <=? y then None else Some (as_u w (Z.shiftr (as_i w x) y))
  | shrui => if w <=? y then None else Some (Z.shiftr x y)
  | andi => Some (Z.land x y)
  | ori => Some (Z.lor x y)
  | xori => Some (Z.lxor x y)
  | cmpi p => Some (Z.b2z (predicate_holds p w x y))
  | _ => None
  end.

Lemma arith_ref_doc : arith_doc arith_ref.
Proof.
  split; intros; simpl; try done; [by rewrite (proj2 (Z.leb_gt _ _)) by lia..|].
  by rewrite (proj2 (Z.leb_le _ _)) by lia.
Qed.

(** An integer operation of the block on an environment of bit patterns; both
    operands must have the same integer type. *)
Definition eval_op (eval : arith_eval) (env : nat → option Z) (o : ArithOp) : option Z :=
  match ao_args o with
  | [l; r] =>
      match v_ty l with
      | MInt w =>
          if bool_decide (v_ty r = MInt w) then x ← env (v_id l); y ← env (v_id r); eval (ao_kind o) w x y
          else None
      | _ => None
      end
  | _ => None
  end.

(** ** Residues *)
Lemma as_u_small b x : 0 ≤ x < 2 ^ b → as_u b x = x.
Proof. apply as_u_id. Qed.

(** Equal residues. *)
Lemma as_u_congr b x y : 0 ≤ b → as_u b x = as_u b y ↔ (2 ^ b | x - y).
Proof.
  intros Hb. assert (0 < 2 ^ b) by (apply Z.pow_pos_nonneg; lia). unfold as_u.
  rewrite <-Z.mod_divide by lia. split; intros H'.
  - by rewrite Zminus_mod, H', Z.sub_diag, Z.mod_0_l by lia.
  - rewrite <-(Z.sub_add y x), Zplus_mod, H', Z.add_0_l, Z.mod_mod by lia. done.
Qed.

Section width.
Context (size : Z) (Hsize : size_ok size).
Abbreviation b := (Size.bits size).

Lemma b_pos : 0 < 2 ^ b.
Proof. pose proof (bits_range size Hsize). apply Z.pow_pos_nonneg; lia. Qed.

Lemma as_i_sub x : (2 ^ b | as_i b x - x).
Proof. apply as_u_congr; [pose proof (bits_range size Hsize); lia|]. by apply as_u_as_i. Qed.

Lemma as_u_128' z : as_u b (as_i 128 z) = as_u b z.
Proof.
  rewrite <-as_u_128 by done. change 128 with (Size.bits 16).
  rewrite (as_u_as_i 16) by (unfold size_ok; lia). change (Size.bits 16) with 128. by apply as_u_128.
Qed.

Lemma as_u_add x y : as_u b (as_i b x + as_i b y) = as_u b (x + y).
Proof.
  pose proof (bits_range size Hsize). apply as_u_congr; [lia|].
  replace (as_i b x + as_i b y - (x + y)) with (as_i b x - x + (as_i b y - y)) by lia.
  apply Z.divide_add_r; apply as_i_sub.
Qed.
Lemma as_u_minus x y : as_u b (as_i b x - as_i b y) = as_u b (x - y).
Proof.
  pose proof (bits_range size Hsize). apply as_u_congr; [lia|].
  replace (as_i b x - as_i b y - (x - y)) with (as_i b x - x - (as_i b y - y)) by lia.
  apply Z.divide_sub_r; apply as_i_sub.
Qed.
Lemma as_u_times x y : as_u b (as_i b x * as_i b y) = as_u b (x * y).
Proof.
  pose proof (bits_range size Hsize). apply as_u_congr; [lia|].
  replace (as_i b x * as_i b y - x * y) with ((as_i b x - x) * as_i b y + x * (as_i b y - y)) by lia.
  apply Z.divide_add_r; [apply Z.divide_mul_l|apply Z.divide_mul_r]; apply as_i_sub.
Qed.
Lemma as_u_shl x n : 0 ≤ n → as_u b (Z.shiftl (as_i b x) n) = as_u b (Z.shiftl x n).
Proof.
  intros Hn. pose proof (bits_range size Hsize). rewrite !Z.shiftl_mul_pow2 by lia. apply as_u_congr; [lia|].
  replace (as_i b x * 2 ^ n - x * 2 ^ n) with ((as_i b x - x) * 2 ^ n) by lia. apply Z.divide_mul_l, as_i_sub.
Qed.

Lemma as_i_0 y : 0 ≤ y < 2 ^ b → as_i b y = 0 ↔ y = 0.
Proof.
  intros Hy. pose proof (pow_half size Hsize). unfold as_i. rewrite as_u_id by done.
  destruct (Z.ltb_spec y (2 ^ (b - 1))); lia.
Qed.

(** Bitwise operations stay in range. *)
Lemma in_range_bits x : 0 ≤ x < 2 ^ b ↔ 0 ≤ x ∧ Z.land x (Z.ones b) = x.
Proof.
  pose proof (bits_range size Hsize). pose proof b_pos. rewrite Z.land_ones by lia. split.
  - intros Hx. split; [lia|]. by apply Z.mod_small.
  - intros [Hx E]. split; [done|]. rewrite <-E. by apply Z.mod_pos_bound.
Qed.

Lemma land_range x y : 0 ≤ x < 2 ^ b → 0 ≤ y < 2 ^ b → 0 ≤ Z.land x y < 2 ^ b.
Proof.
  rewrite !in_range_bits. intros [? Hx] [? Hy]. split; [apply Z.land_nonneg; lia|]. by rewrite <-Z.land_assoc, Hy.
Qed.
Lemma lor_range x y : 0 ≤ x < 2 ^ b → 0 ≤ y < 2 ^ b → 0 ≤ Z.lor x y < 2 ^ b.
Proof.
  rewrite !in_range_bits. intros [? Hx] [? Hy]. split; [apply Z.lor_nonneg; lia|]. by rewrite Z.land_lor_distr_l, Hx, Hy.
Qed.
Lemma lxor_range x y : 0 ≤ x < 2 ^ b → 0 ≤ y < 2 ^ b → 0 ≤ Z.lxor x y < 2 ^ b.
Proof.
  rewrite !in_range_bits. intros [? Hx] [? Hy]. split; [apply Z.lxor_nonneg; lia|].
  apply Z.bits_inj'. intros n Hn. rewrite Z.land_spec, Z.lxor_spec, <-Hx, <-Hy, !Z.land_spec.
  destruct (Z.testbit (Z.ones b) n); by rewrite ?andb_true_r, ?andb_false_r.
Qed.

Lemma shr_range x n : 0 ≤ x < 2 ^ b → 0 ≤ n → 0 ≤ Z.shiftr x n < 2 ^ b.
Proof.
  intros Hx Hn. rewrite Z.shiftr_div_pow2 by lia. assert (0 < 2 ^ n) by (apply Z.pow_pos_nonneg; lia).
  split; [apply Z.div_pos; lia|]. apply Z.div_lt_upper_bound; nia.
Qed.

(** A shift amount below the width reads the same signed or unsigned. *)
Lemma shift_amount y : 0 ≤ y < b → as_i b y = y.
Proof.
  intros Hy. pose proof (bits_range size Hsize). apply as_i_id; [done|].
  pose proof (Z.pow_gt_lin_r 2 (b - 1) ltac:(lia) ltac:(lia)). lia.
Qed.
End width.

(** ** The emitted operation *)
Definition is_int_ty (t : Ty) : bool := match t with TyInt _ => true | _ => false end.

(** The operation for scalar integers, by the signedness that [codegen_shr]
    reads off the type of the left operand. *)
Definition emitted_kind (op : BinOp) (signed : bool) : option ArithKind :=
  match op with
  | Add | AddUnchecked => Some addi
  | Sub | SubUnchecked => Some subi
  | Mul | MulUnchecked => Some muli
  | Div => Some divsi
  | Rem => Some remsi
  | BitXor => Some xori
  | BitAnd => Some andi
  | BitOr => Some ori
  | Shl | ShlUnchecked => Some shli
  | Shr | ShrUnchecked => Some (if signed then shrsi else shrui)
  | BEq => Some (cmpi EQ)
  | BNe => Some (cmpi NE)
  | BLt => Some (cmpi SLT)
  | BLe => Some (cmpi SLE)
  | BGt => Some (cmpi SGT)
  | BGe => Some (cmpi SGE)
  | AddWithOverflow | SubWithOverflow | MulWithOverflow | Cmp | Offset => None
  end.

(** One operation is appended, on the operands as they are. *)
Lemma lower_scalar infer op ty l r blk w k :
  v_ty l = MInt w → v_ty r = MInt w → emitted_kind op (is_int_ty ty) = Some k → ∃ v,
    lower_binary_op infer op ty l r blk =
      Ret (inr (Some v, mkMBlock (S (next_value blk)) (mb_ops blk ++ [mkArithOp v k [l; r]]))) ∧
    v_id v = next_value blk.
Proof.
  intros Hl Hr Hk. destruct op; simplify_eq/=; unfold codegen_add, codegen_sub, codegen_mul, codegen_div,
    codegen_rem, codegen_shl, codegen_shr, codegen_xor, codegen_and, codegen_or, codegen_arith, codegen_scalar_only,
    codegen_bitwise, codegen_cmpi, align_operands, create_muli, is_tensor, is_integer, is_int_ty in *;
    unfold mbind, cg_bind, mret, cg_ret; rewrite ?Hl, ?Hr; simpl; rewrite ?Hl, ?bool_decide_true by done; simpl;
    try (by eexists); destruct ty; by eexists.
Qed.

(** ** The interpreter on scalars in range *)
Section interp.
Context (pointer_size : Z) (eval : arith_eval) (Hdoc : arith_doc eval).
Context (t : NumTy) (Hsize : size_ok (num_size pointer_size t)).
Abbreviation size := (num_size pointer_size t).
Abbreviation b := (Size.bits size).
Context (x y : Z) (Hx : 0 ≤ x < 2 ^ b) (Hy : 0 ≤ y < 2 ^ b).
Abbreviation imm_of z := (mkImm (mkScalarInt z size) t).

Lemma read_bits z : 0 ≤ z < 2 ^ b → SI.to_bits (mkScalarInt z size) size = Ret z.
Proof. intros Hz. apply (to_bits_ok (mkScalarInt z size)). by split. Qed.
Lemma read_int z : 0 ≤ z < 2 ^ b → SI.to_int (mkScalarInt z size) size = Ret (as_i b z).
Proof. intros Hz. apply (to_int_ok (mkScalarInt z size)). by split. Qed.

Lemma from_uint_ok z : 0 ≤ z < 2 ^ b → from_uint pointer_size z t = interp_ok (ResInt (mkScalarInt z size) t).
Proof.
  intros Hz. unfold from_uint, SI.try_from_uint. rewrite truncate_from_uint_ok by done. rewrite as_u_id by done.
  by rewrite Z.eqb_refl.
Qed.

(** The bits of a result. *)
Definition result_bits (r : ImmResult) : option Z :=
  match r with ResInt s _ => Some (si_data s) | ResBool c => Some (Z.b2z c) | _ => None end.

Lemma finish_arith_bits op s lossy oflo res :
  is_overflowing op = false → finish_arith op t (s, lossy) oflo = Ret (inr res) → result_bits res = Some (si_data s).
Proof.
  intros Hop. unfold finish_arith. rewrite Hop. destruct (_ && _); [done|]. by intros [= <-].
Qed.

Lemma patterns_xy : patterns b x y.
Proof. by split. Qed.

(** Truncating a 128-bit result. *)
Lemma finish_int op z oflo res :
  (s ← SI.truncate_from_int (as_i 128 z) size; finish_arith op t s oflo) = Ret (inr res) →
  is_overflowing op = false →
  result_bits res = Some (as_u b z).
Proof.
  rewrite truncate_from_int_ok by done. cbn [mbind outcome_bind]. intros H Hop.
  rewrite (finish_arith_bits _ _ _ _ _ Hop H). simpl. by rewrite as_u_128'.
Qed.
Lemma finish_uint op z oflo res :
  (s ← SI.truncate_from_uint (as_u 128 z) size; finish_arith op t s oflo) = Ret (inr res) →
  is_overflowing op = false →
  result_bits res = Some (as_u b z).
Proof.
  rewrite truncate_from_uint_ok by done. cbn [mbind outcome_bind]. intros H Hop.
  rewrite (finish_arith_bits _ _ _ _ _ Hop H). simpl. by rewrite as_u_128.
Qed.

Lemma signed_op_bits op k res :
  is_signed t = true → is_shift op = false → emitted_kind op true = Some k →
  signed_op pointer_size op t (as_i b x) (as_i b y) (y =? 0) = Some (Ret (inr res)) →
  eval k b x y = result_bits res.
Proof.
  intros Hsig Hsh Hk. pose proof patterns_xy as Hp.
  assert (Hmin : Size.signed_int_min size = Ret (- 2 ^ (b - 1))) by (by apply signed_min_ok).
  unfold signed_op. destruct op; simplify_eq/=; intros [= H]; try (by subst res; simpl; rewrite (doc_cmpi _ Hdoc)).
  1-2: rewrite (doc_addi _ Hdoc) by done; rewrite (finish_int _ _ _ _ H eq_refl); by rewrite as_u_add.
  1-2: rewrite (doc_subi _ Hdoc) by done; rewrite (finish_int _ _ _ _ H eq_refl); by rewrite as_u_minus.
  1-2: rewrite (doc_muli _ Hdoc) by done; rewrite (finish_int _ _ _ _ H eq_refl); by rewrite as_u_times.
  - destruct (Z.eqb_spec y 0) as [|Hy0]; [done|]. injection H as H. rewrite Hmin in H. cbn [mbind outcome_bind] in H.
    destruct ((as_i b x =? - 2 ^ (b - 1)) && (as_i b y =? -1)) eqn:Hov; [done|].
    rewrite (finish_int _ _ _ _ H eq_refl). apply (doc_divsi _ Hdoc); [done|by rewrite as_i_0|].
    apply andb_false_iff in Hov as [?%Z.eqb_neq|?%Z.eqb_neq]; [by left|by right].
  - destruct (Z.eqb_spec y 0) as [|Hy0]; [done|]. injection H as H. rewrite Hmin in H. cbn [mbind outcome_bind] in H.
    destruct ((as_i b x =? - 2 ^ (b - 1)) && (as_i b y =? -1)) eqn:Hov; [done|].
    rewrite (finish_int _ _ _ _ H eq_refl). apply (doc_remsi _ Hdoc); [done|by rewrite as_i_0|].
    apply andb_false_iff in Hov as [?%Z.eqb_neq|?%Z.eqb_neq]; [by left|by right].
Qed.

(** The operations whose result depends on the signedness of the type. *)
Definition sign_sensitive (op : BinOp) : bool :=
  match op with Div | Rem | BLt | BLe | BGt | BGe => true | _ => false end.

Lemma unsigned_op_bits op k res :
  sign_sensitive op = false → is_shift op = false → emitted_kind op (is_signed t) = Some k →
  unsigned_op pointer_size op t x y = Ret (inr res) → eval k b x y = result_bits res.
Proof.
  intros Hsen Hsh Hk. pose proof patterns_xy as Hp. unfold unsigned_op.
  destruct op; simplify_eq/=; try (destruct (is_signed t); [done|]); intros H.
  1-2: rewrite (doc_addi _ Hdoc) by done; by rewrite (finish_uint _ _ _ _ H eq_refl).
  1-2: rewrite (doc_subi _ Hdoc) by done; by rewrite (finish_uint _ _ _ _ H eq_refl).
  1-2: rewrite (doc_muli _ Hdoc) by done; by rewrite (finish_uint _ _ _ _ H eq_refl).
  - rewrite from_uint_ok in H by by apply lxor_range. injection H as <-. simpl. by rewrite (doc_xori _ Hdoc).
  - rewrite from_uint_ok in H by by apply land_range. injection H as <-. simpl. by rewrite (doc_andi _ Hdoc).
  - rewrite from_uint_ok in H by by apply lor_range. injection H as <-. simpl. by rewrite (doc_ori _ Hdoc).
  - injection H as <-. by rewrite (doc_cmpi _ Hdoc).
  - injection H as <-. by rewrite (doc_cmpi _ Hdoc).
Qed.

(** Shifts by less than the width. *)
Lemma shift_op_bits op k res :
  is_shift op = true → y < b → emitted_kind op (is_signed t) = Some k →
  shift_op pointer_size op (imm_of x) (imm_of y) = Ret (inr res) → eval k b x y = result_bits res.
Proof.
  intros Hsh Hyb Hk. pose proof patterns_xy as Hp. pose proof (bits_range size Hsize).
  unfold shift_op. cbn [imm imm_ty]. cbv zeta.
  assert (E : (if is_signed t then SI.to_int (mkScalarInt y size) size else SI.to_bits (mkScalarInt y size) size) = Ret y).
  { destruct (is_signed t); [rewrite read_int, shift_amount by (done || lia); done|by apply read_bits]. }
  rewrite E. cbn [mbind outcome_bind]. rewrite (proj2 (Z.eqb_neq b 0)) by lia.
  rewrite (Z.mod_small y b) by lia. rewrite Z.eqb_refl. simpl negb. simpl andb. cbn iota.
  assert (Hcs : ∀ z, checked_shift y z = Ret z).
  { intros z. unfold checked_shift. rewrite (proj2 (Z.leb_le 0 y)), (proj2 (Z.ltb_lt y 128)) by lia. done. }
  destruct (is_signed t).
  - rewrite read_int by done. destruct op; simplify_eq/=; rewrite Hcs; cbn [mbind outcome_bind];
      rewrite truncate_from_int_ok by done; intros [= <-]; simpl.
    1-2: rewrite (doc_shli _ Hdoc) by (done || lia); by rewrite as_u_128', as_u_shl by (done || lia).
    1-2: by rewrite (doc_shrsi _ Hdoc) by (done || lia).
  - rewrite read_bits by done. destruct op; simplify_eq/=; rewrite Hcs; cbn [mbind outcome_bind];
      rewrite truncate_from_uint_ok by done; intros [= <-]; simpl.
    1-2: rewrite (doc_shli _ Hdoc) by (done || lia); by rewrite as_u_128.
    1-2: rewrite (doc_shrui _ Hdoc) by (done || lia); rewrite as_u_id; [done|]; apply shr_range; (done || lia).
Qed.

(** An operation that the interpreter evaluates, on a type that the emitted
    operation treats right. *)
Lemma int_op_agrees op k res :
  (is_signed t = true ∨ sign_sensitive op = false) → (is_shift op = true → y < b) →
  emitted_kind op (is_signed t) = Some k →
  binary_int_op pointer_size op (imm_of x) (imm_of y) = Ret (inr res) → eval k b x y = result_bits res.
Proof.
  intros Hsen Hsh Hk. unfold binary_int_op. destruct (is_shift op) eqn:Hs; [by apply shift_op_bits; auto|].
  cbn [imm imm_ty]. rewrite bool_decide_true by done. simpl negb. cbn iota zeta.
  rewrite !read_bits, !read_int by done. cbn [mbind outcome_bind].
  destruct (is_signed t) eqn:Hsig; [|intros H; apply (unsigned_op_bits op); [naive_solver|done|by rewrite Hsig|done]].
  unfold SI.is_null. cbn [si_data]. destruct (signed_op _ _ _ _ _ _) as [r|] eqn:Hr.
  - intros ->. by eapply signed_op_bits.
  - intros H. apply (unsigned_op_bits op); [|done|by rewrite Hsig|done]. unfold signed_op in Hr. by destruct op; simplify_eq/=; try done; destruct (y =? 0).
Qed.
End interp.
