(* ===== verification/TritonArithThms.v ===== *)
(** * Triton backend: arithmetic, the properties

    Where the emitted operation computes what the interpreter computes, and
    where it does not. *)
From S2P Require Import Prelude Codegen Mir ScalarInts IntOps TritonArith TritonArithFacts.
#[local] Open Scope Z_scope.

Definition ty_of (t : NumTy) : Ty := match t with SInt i => TyInt i | UInt u => TyUint u end.

Lemma is_int_ty_of t : is_int_ty (ty_of t) = is_signed t.
Proof. by destruct t. Qed.

(** Two scalar operands of type [t], with their bit patterns. *)
Record int_operands (pointer_size : Z) (t : NumTy) (env : nat → option Z) (l r : Value) (x y : Z) : Prop := {
  io_size : size_ok (num_size pointer_size t);
  io_left : v_ty l = MInt (Size.bits (num_size pointer_size t));
  io_right : v_ty r = MInt (Size.bits (num_size pointer_size t));
  io_x : env (v_id l) = Some x;
  io_y : env (v_id r) = Some y;
  io_range : patterns (Size.bits (num_size pointer_size t)) x y }.

Lemma lowered_op pointer_size t env l r x y eval infer op k blk :
  int_operands pointer_size t env l r x y → emitted_kind op (is_signed t) = Some k → ∃ v blk' o,
    lower_binary_op infer op (ty_of t) l r blk = Ret (inr (Some v, blk')) ∧
    mb_ops blk' = mb_ops blk ++ [o] ∧ ao_result o = v ∧
    eval_op eval env o = eval k (Size.bits (num_size pointer_size t)) x y.
Proof.
  intros Hio Hk. rewrite <-is_int_ty_of in Hk.
  destruct (lower_scalar infer op (ty_of t) l r blk _ k (io_left _ _ _ _ _ _ _ Hio) (io_right _ _ _ _ _ _ _ Hio) Hk)
    as (v & Hlow & _).
  eexists _, _, _. split_and!; [exact Hlow|done..|]. unfold eval_op. cbn [ao_args ao_kind].
  rewrite (io_left _ _ _ _ _ _ _ Hio), (io_right _ _ _ _ _ _ _ Hio), bool_decide_true by done.
  by rewrite (io_x _ _ _ _ _ _ _ Hio), (io_y _ _ _ _ _ _ _ Hio).
Qed.

(** The interpreter returns bits for the operations that are lowered. *)
Definition gives_bits (r : InterpResult) : Prop := ∀ res, r = Ret (inr res) → is_Some (result_bits res).

Lemma bits_bind {A} (m : outcome A) (f : A → InterpResult) : (∀ a, gives_bits (f a)) → gives_bits (m ≫= f).
Proof. intros Hf res. destruct m; simpl; [apply Hf|done..]. Qed.
Lemma bits_if (c : bool) r1 r2 : gives_bits r1 → gives_bits r2 → gives_bits (if c then r1 else r2).
Proof. by destruct c. Qed.
Lemma bits_ret res : is_Some (result_bits res) → gives_bits (interp_ok res).
Proof. by intros H res' [= <-]. Qed.
Lemma bits_ub u : gives_bits (throw_ub u).
Proof. done. Qed.
Lemma bits_panic : gives_bits Panic.
Proof. done. Qed.

Lemma bits_finish op t s oflo : is_overflowing op = false → gives_bits (finish_arith op t s oflo).
Proof. intros Hop. unfold finish_arith. rewrite Hop. apply bits_if; [apply bits_ub|apply bits_ret]. by eexists. Qed.

Create HintDb bits.
#[local] Hint Resolve bits_bind bits_if bits_ub bits_panic bits_finish : bits.
#[local] Hint Extern 1 (gives_bits (interp_ok _)) => apply bits_ret; by eexists : bits.

Lemma interp_result_bits pointer_size op left right res :
  is_Some (emitted_kind op (is_signed (imm_ty left))) →
  binary_int_op pointer_size op left right = Ret (inr res) → is_Some (result_bits res).
Proof.
  intros [k Hk]. assert (Hov : is_overflowing op = false) by (by destruct op).
  assert (Hcmp : op ≠ Cmp) by (by destruct op). revert res. change (gives_bits (binary_int_op pointer_size op left right)).
  assert (Hu : ∀ t l r, gives_bits (unsigned_op pointer_size op t l r)).
  { intros t l r. unfold unsigned_op, from_uint. destruct (compare_op op l r); [auto with bits|].
    destruct op; try done; eauto 8 with bits. }
  assert (Hs : ∀ t l r n x, signed_op pointer_size op t l r n = Some x → gives_bits x).
  { intros t l r n x. unfold signed_op. destruct (compare_op op l r); [intros [= <-]; auto with bits|].
    destruct op; try done; try destruct n; intros [= <-]; cbn zeta; eauto 8 with bits. }
  unfold binary_int_op. apply bits_if; [unfold shift_op; eauto 8 with bits|].
  apply bits_if; [auto with bits|]. apply bits_if; [|auto with bits].
  apply bits_bind. intros l. apply bits_bind. intros r.
  destruct (signed_op pointer_size op (imm_ty left) l r (SI.is_null (imm right))) eqn:E; [by eapply Hs|auto with bits].
Qed.

(** C11: For every integer type and every scalar operation that the backend
    lowers, except division, remainder and ordered comparison of unsigned
    integers, and shifts by the width or more: whenever the compiler's own
    interpreter gives a result, the single operation that the backend appends
    evaluates to the same bits. *)
Theorem triton_int_ops_agree pointer_size eval infer op t env l r x y blk res :
  arith_doc eval → int_operands pointer_size t env l r x y →
  is_Some (emitted_kind op (is_signed t)) →
  (is_signed t = true ∨ sign_sensitive op = false) →
  (is_shift op = true → y < Size.bits (num_size pointer_size t)) →
  let size := num_size pointer_size t in
  binary_int_op pointer_size op (mkImm (mkScalarInt x size) t) (mkImm (mkScalarInt y size) t) = Ret (inr res) →
  ∃ v blk' o z,
    lower_binary_op infer op (ty_of t) l r blk = Ret (inr (Some v, blk')) ∧
    mb_ops blk' = mb_ops blk ++ [o] ∧ ao_result o = v ∧
    result_bits res = Some z ∧ eval_op eval env o = Some z.
Proof.
  intros Hdoc Hio [k Hk] Hsen Hsh size Hres.
  destruct (lowered_op _ _ _ _ _ _ _ eval infer op k blk Hio Hk) as (v & blk' & o & ? & ? & ? & Heval).
  assert (Hz : is_Some (result_bits res)) by (eapply interp_result_bits; [|exact Hres]; by eexists). destruct Hz as [z Hz].
  exists v, blk', o, z. split_and!; [done..|]. rewrite Heval, <-Hz.
  destruct (io_range _ _ _ _ _ _ _ Hio) as [? ?]. apply (int_op_agrees pointer_size _ Hdoc t (io_size _ _ _ _ _ _ _ Hio) x y) with (op := op); done.
Qed.

(** The value of a signed reading. *)
Lemma as_i_cases size x : size_ok size → 0 ≤ x < 2 ^ Size.bits size →
  as_i (Size.bits size) x = if x <? 2 ^ (Size.bits size - 1) then x else x - 2 ^ Size.bits size.
Proof. intros Hs Hx. unfold as_i. by rewrite as_u_id. Qed.

Definition is_ordered_comparison (op : BinOp) : bool := match op with BLt | BLe | BGt | BGe => true | _ => false end.

(** C34: An ordered comparison of unsigned integers is lowered to a signed one:
    the emitted operation gives the interpreter's answer exactly when the top
    bits of the operands agree.  Unsigned division and remainder are lowered to
    signed ones, which give the interpreter's result when neither operand has
    its top bit set. *)
Theorem unsigned_lowered_as_signed pointer_size eval infer op u env l r x y blk :
  arith_doc eval → int_operands pointer_size (UInt u) env l r x y →
  let size := num_size pointer_size (UInt u) in
  let half := 2 ^ (Size.bits size - 1) in
  let interp := binary_int_op pointer_size op (mkImm (mkScalarInt x size) (UInt u)) (mkImm (mkScalarInt y size) (UInt u)) in
  let emitted o := ∃ v blk', lower_binary_op infer op (TyUint u) l r blk = Ret (inr (Some v, blk')) ∧
    mb_ops blk' = mb_ops blk ++ [o] in
  (is_ordered_comparison op = true → ∃ o c c', emitted o ∧ interp = Ret (inr (ResBool c)) ∧
     eval_op eval env o = Some (Z.b2z c') ∧ (c' = c ↔ (x <? half) = (y <? half))) ∧
  (op = Div ∨ op = Rem → y ≠ 0 → x < half → y < half → ∃ o s, emitted o ∧
     interp = Ret (inr (ResInt s (UInt u))) ∧ eval_op eval env o = Some (si_data s)).
Proof.
  intros Hdoc Hio size half interp emitted. pose proof (io_size _ _ _ _ _ _ _ Hio) as Hsz. fold size in Hsz.
  pose proof (io_range _ _ _ _ _ _ _ Hio) as Hp. fold size in Hp. destruct Hp as [Hx Hy].
  pose proof (pow_half size Hsz) as Hhalf. fold half in Hhalf.
  assert (Hlow : ∀ k, emitted_kind op false = Some k → ∃ o, emitted o ∧ eval_op eval env o = eval k (Size.bits size) x y).
  { intros k Hk. destruct (lowered_op _ _ _ _ _ _ _ eval infer op k blk Hio Hk) as (v & blk' & o & ? & ? & _ & ?).
    exists o. split; [by exists v, blk'|done]. }
  assert (Hinterp : is_shift op = false → interp = unsigned_op pointer_size op (UInt u) x y).
  { intros Hs. unfold interp, binary_int_op. rewrite Hs. cbn [imm imm_ty]. rewrite bool_decide_true by done.
    simpl negb. cbn iota zeta. unfold size. by rewrite !read_bits by done. }
  pose proof (as_i_cases size x Hsz Hx) as Hix. pose proof (as_i_cases size y Hsz Hy) as Hiy. fold half in Hix, Hiy.
  split.
  - intros Hop. destruct (emitted_kind op false) as [k|] eqn:Hk; [|by destruct op].
    destruct (Hlow k eq_refl) as (o & Ho & Heval). rewrite Hinterp by by destruct op.
    destruct op; simplify_eq/=; eexists o, _, _; (split_and!; [done..|by rewrite Heval, (doc_cmpi _ Hdoc)|]);
      simpl; rewrite Hix, Hiy;
      destruct (Z.ltb_spec x half), (Z.ltb_spec y half);
      repeat match goal with
             | |- context [?a <? ?c] => destruct (Z.ltb_spec a c)
             | |- context [?a <=? ?c] => destruct (Z.leb_spec a c)
             end; (by split) || (exfalso; lia) || (split; [done|]; intros; exfalso; lia).
  - intros Hop Hy0 Hxh Hyh. rewrite (proj2 (Z.ltb_lt x half)) in Hix by done. rewrite (proj2 (Z.ltb_lt y half)) in Hiy by done.
    assert (Hpd : patterns (Size.bits size) x y) by done.
    destruct (emitted_kind op false) as [k|] eqn:Hk; [|by destruct Hop as [-> | ->]].
    destruct (Hlow k eq_refl) as (o & Ho & Heval). rewrite Hinterp by by destruct Hop as [-> | ->]. exists o.
    assert (Hres : ∀ z, 0 ≤ z < 2 ^ Size.bits size → SI.truncate_from_uint z size = Ret (mkScalarInt z size, false)).
    { intros z Hz. rewrite truncate_from_uint_ok, as_u_id by done. by rewrite Z.eqb_refl. }
    destruct Hop as [-> | ->]; simplify_eq/=; unfold unsigned_op; simpl; rewrite (proj2 (Z.eqb_neq y 0)) by done; fold size.
    + pose proof (Z.quot_pos x y). pose proof (Z.quot_le_upper_bound x y x).
      rewrite Hres by nia. eexists. split_and!; [done..|]. rewrite Heval, (doc_divsi _ Hdoc), Hix, Hiy by (done || lia).
      simpl. f_equal. apply as_u_id. nia.
    + pose proof (Z.rem_bound_pos x y). rewrite Hres by lia. eexists. split_and!; [done..|].
      rewrite Heval, (doc_remsi _ Hdoc), Hix, Hiy by (done || lia). simpl. f_equal. apply as_u_id. lia.
Qed.

(** ** Witnesses *)
Definition env_of (x y : Z) (i : nat) : option Z := match i with O => Some x | 1%nat => Some y | _ => None end.
Definition infer_left (_ : ArithKind) (l _ : MlirTy) : MlirTy := l.

Lemma i32_operands x y : 0 ≤ x < 2 ^ 32 → 0 ≤ y < 2 ^ 32 →
  int_operands 8 (SInt I32) (env_of x y) (mkValue 0 (MInt 32)) (mkValue 1 (MInt 32)) x y.
Proof. intros Hx Hy. split; try done; by vm_compute. Qed.
Lemma u32_operands x y : 0 ≤ x < 2 ^ 32 → 0 ≤ y < 2 ^ 32 →
  int_operands 8 (UInt U32) (env_of x y) (mkValue 0 (MInt 32)) (mkValue 1 (MInt 32)) x y.
Proof. intros Hx Hy. split; try done; by vm_compute. Qed.

(** [-7 / 2 = -3] on [i32]. *)
Lemma triton_int_ops_agree_witness : ∃ v blk' o z,
  lower_binary_op infer_left Div (TyInt I32) (mkValue 0 (MInt 32)) (mkValue 1 (MInt 32)) (mkMBlock 2 []) =
    Ret (inr (Some v, blk')) ∧
  mb_ops blk' = [] ++ [o] ∧ ao_result o = v ∧
  result_bits (ResInt (mkScalarInt (2 ^ 32 - 3) 4) (SInt I32)) = Some z ∧
  eval_op arith_ref (env_of (2 ^ 32 - 7) 2) o = Some z.
Proof.
  apply (triton_int_ops_agree 8 arith_ref infer_left Div (SInt I32) (env_of (2 ^ 32 - 7) 2)
    (mkValue 0 (MInt 32)) (mkValue 1 (MInt 32)) (2 ^ 32 - 7) 2 (mkMBlock 2 [])
    (ResInt (mkScalarInt (2 ^ 32 - 3) 4) (SInt I32))).
  - exact arith_ref_doc.
  - apply i32_operands; lia.
  - eexists. reflexivity.
  - left. reflexivity.
  - intros H. discriminate H.
  - vm_compute. reflexivity.
Defined.

(** [u32::MAX < 1] is false, and the emitted comparison is true. *)
Lemma unsigned_lowered_as_signed_witness :
  binary_int_op 8 BLt (mkImm (mkScalarInt (2 ^ 32 - 1) 4) (UInt U32)) (mkImm (mkScalarInt 1 4) (UInt U32)) =
    Ret (inr (ResBool false)) ∧
  ∃ o c c', (∃ v blk', lower_binary_op infer_left BLt (TyUint U32) (mkValue 0 (MInt 32)) (mkValue 1 (MInt 32))
      (mkMBlock 2 []) = Ret (inr (Some v, blk')) ∧ mb_ops blk' = [] ++ [o]) ∧
    eval_op arith_ref (env_of (2 ^ 32 - 1) 1) o = Some (Z.b2z c') ∧
    (c' = c ↔ (2 ^ 32 - 1 <? 2 ^ 31) = (1 <? 2 ^ 31)).
Proof.
  split; [vm_compute; reflexivity|].
  destruct (unsigned_lowered_as_signed 8 arith_ref infer_left BLt U32 (env_of (2 ^ 32 - 1) 1)
    (mkValue 0 (MInt 32)) (mkValue 1 (MInt 32)) (2 ^ 32 - 1) 1 (mkMBlock 2 []) arith_ref_doc
    (u32_operands (2 ^ 32 - 1) 1 ltac:(lia) ltac:(lia))) as [H _].
  destruct (H eq_refl) as (o & c & c' & H1 & _ & H2 & H3). exists o, c, c'. split; [exact H1|]. split; [exact H2|exact H3].
Defined.
