(* ===== verification/TritonArithTypes.v ===== *)
(** * Triton backend: the types of the emitted arithmetic

    What MLIR's verifier requires of the operations that [lower_binary_op]
    appends for integers and tensors of integers, and the type of the result. *)
From S2P Require Import Prelude Codegen Mir ScalarInts IntOps TritonArith TritonArithFacts TritonArithThms.
#[local] Open Scope Z_scope.

(** A scalar ([None]) or a ranked tensor over an element type. *)
Definition with_shape (s : option (list Z)) (e : MlirTy) : MlirTy :=
  match s with None => e | Some d => MTensor d e end.

(** [arith] and [tt] as the verifier sees them: the operands of a binary
    operation have one type, integers of one width by shape, which is the type
    of the result, or with [i1] elements for a comparison; a splat makes a
    tensor of a scalar and a broadcast stretches dimensions of size 1. *)
Definition int_binary (k : ArithKind) : bool :=
  match k with
  | addi | subi | muli | divsi | remsi | shli | shrsi | shrui | andi | ori | xori => true
  | _ => false
  end.
Definition well_typed (o : ArithOp) : Prop :=
  match ao_kind o, ao_args o with
  | splat, [x] => is_tensor (v_ty x) = false ∧ ∃ d, v_ty (ao_result o) = MTensor d (v_ty x)
  | broadcast, [x] => ∃ d d' e, v_ty x = MTensor d e ∧ v_ty (ao_result o) = MTensor d' e ∧
      Forall2 (λ a b, a = 1 ∨ a = b) d d'
  | cmpi _, [l; r] => ∃ s w, v_ty l = with_shape s (MInt w) ∧ v_ty r = v_ty l ∧ v_ty (ao_result o) = with_shape s (MInt 1)
  | k, [l; r] => int_binary k = true ∧ ∃ s w, v_ty l = with_shape s (MInt w) ∧ v_ty r = v_ty l ∧ v_ty (ao_result o) = v_ty l
  | _, _ => False
  end.

(** ** Shapes *)
Definition broadcastable (d1 d2 : list Z) : Prop := Forall2 (λ a b, 1 ≤ a ∧ 1 ≤ b ∧ (a = b ∨ a = 1 ∨ b = 1)) d1 d2.

Inductive OpClass := ArithClass | ScalarClass | SameShapeClass.
Definition op_class (op : BinOp) : OpClass :=
  match op with
  | Add | AddUnchecked | Sub | SubUnchecked | Mul | MulUnchecked | Div => ArithClass
  | BitAnd | BitOr | BEq | BNe | BLt | BLe | BGt | BGe => SameShapeClass
  | _ => ScalarClass
  end.
Definition is_comparison (op : BinOp) : bool :=
  match op with BEq | BNe | BLt | BLe | BGt | BGe => true | _ => false end.

(** The shapes that an operation accepts. *)
Definition shapes_ok (op : BinOp) (ls rs : option (list Z)) : Prop :=
  match op_class op, ls, rs with
  | _, None, None => True
  | ScalarClass, _, _ => False
  | ArithClass, Some d1, Some d2 => broadcastable d1 d2
  | SameShapeClass, Some d1, Some d2 => d1 = d2
  | _, _, _ => True
  end.
Definition join_shape (ls rs : option (list Z)) : option (list Z) :=
  match ls, rs with
  | Some d1, Some d2 => Some (zip_with Z.max d1 d2)
  | Some d, None | None, Some d => Some d
  | None, None => None
  end.

(** ** Emission: the operations appended are well typed *)
Definition emits {A} (m : gen A) (Q : A → Prop) : Prop := ∀ blk, ∃ a blk' new,
  m blk = Ret (inr (a, blk')) ∧ mb_ops blk' = mb_ops blk ++ new ∧ Forall well_typed new ∧ Q a.

Lemma emits_ret {A} (a : A) (Q : A → Prop) : Q a → emits (mret a) Q.
Proof. intros Ha blk. exists a, blk, []. rewrite app_nil_r. by split_and!. Qed.

Lemma emits_bind {A B} (m : gen A) (f : A → gen B) (P : A → Prop) (Q : B → Prop) :
  emits m P → (∀ a, P a → emits (f a) Q) → emits (m ≫= f) Q.
Proof.
  intros Hm Hf blk. destruct (Hm blk) as (a & blk1 & n1 & E1 & H1 & W1 & Ha).
  destruct (Hf a Ha blk1) as (b & blk2 & n2 & E2 & H2 & W2 & Hb). exists b, blk2, (n1 ++ n2).
  unfold mbind, cg_bind. rewrite E1. simpl. rewrite E2, H2, H1, app_assoc.
  split_and!; [done..|by apply Forall_app|done].
Qed.

Lemma emits_append k args t Q :
  (∀ i, well_typed (mkArithOp (mkValue i t) k args) ∧ Q (mkValue i t)) → emits (append_operation k args t) Q.
Proof.
  intros H blk. destruct (H (next_value blk)) as [Hw Hq]. eexists _, _, _.
  split_and!; [reflexivity..| |exact Hq]. by apply Forall_singleton.
Qed.

(** The value has a shape and an element type. *)
Definition has_shape (s : option (list Z)) (e : MlirTy) (v : Value) : Prop := v_ty v = with_shape s e.

Lemma emits_splat t v d e w : has_shape (Some d) e t → has_shape None (MInt w) v →
  emits (like_tensor t v) (has_shape (Some d) (MInt w)).
Proof.
  unfold has_shape. simpl. intros Ht Hv. unfold like_tensor, ranked_or_err. rewrite Ht. simpl.
  eapply (emits_bind _ _ (λ x, x = (d, e))); [by apply emits_ret|]. intros ? ->. apply emits_append.
  intros i. unfold well_typed. simpl. rewrite Hv. split; [|done]. split; [done|]. by exists d.
Qed.

(** ** Broadcasts *)
Lemma broadcast_dims d1 d2 : broadcastable d1 d2 → zip_with broadcast_dim d1 d2 = zip_with Z.max d1 d2.
Proof.
  induction 1 as [|a b d1 d2 (Ha & Hb & Hab) _ IH]; simpl; [done|]. rewrite IH. f_equal. unfold broadcast_dim.
  destruct (Z.eqb_spec a b); simpl; [lia|]. rewrite (proj2 (Z.ltb_ge b 0)), (proj2 (Z.ltb_ge a 0)) by lia. done.
Qed.

Lemma broadcast_ok d1 d2 : broadcastable d1 d2 → dims_ok d1 (zip_with Z.max d1 d2) = true ∧ dims_ok d2 (zip_with Z.max d1 d2) = true ∧
  Forall2 (λ a b, a = 1 ∨ a = b) d1 (zip_with Z.max d1 d2) ∧ Forall2 (λ a b, a = 1 ∨ a = b) d2 (zip_with Z.max d1 d2).
Proof.
  induction 1 as [|a b d1 d2 (Ha & Hb & Hab) _ (IH1 & IH2 & IH3 & IH4)]; simpl; [done|].
  assert (Ea : a = 1 ∨ a = a `max` b) by lia. assert (Eb : b = 1 ∨ b = a `max` b) by lia.
  unfold dims_ok in *. simpl. rewrite IH1, IH2, !andb_true_r, !orb_true_iff, !Z.eqb_eq.
  split_and!; [tauto..|by constructor|by constructor].
Qed.

Lemma broadcast_refl d1 d2 : broadcastable d1 d2 → d1 = d2 → zip_with Z.max d1 d2 = d1.
Proof. intros H ->. clear H. induction d2 as [|a d IH]; simpl; [done|]. by rewrite IH, Z.max_id. Qed.

Lemma emits_broadcast bd w v d : has_shape (Some d) (MInt w) v → Forall2 (λ a b, a = 1 ∨ a = b) d bd →
  emits (do_broadcast bd (MInt w) v d) (has_shape (Some bd) (MInt w)).
Proof.
  intros Hv Hd. unfold do_broadcast. case_bool_decide as E; [apply emits_ret; by subst|]. apply emits_append.
  intros i. split; [|done]. exists d, bd, (MInt w). done.
Qed.

Lemma emits_pair w l r d1 d2 : broadcastable d1 d2 → has_shape (Some d1) (MInt w) l → has_shape (Some d2) (MInt w) r →
  emits (maybe_broadcast_pair l r) (λ p, has_shape (Some (zip_with Z.max d1 d2)) (MInt w) p.1 ∧
    has_shape (Some (zip_with Z.max d1 d2)) (MInt w) p.2).
Proof.
  intros Hb Hl Hr. pose proof (broadcast_ok d1 d2 Hb) as (H1 & H2 & H3 & H4). pose proof (Forall2_length _ _ _ Hb) as Hlen.
  unfold maybe_broadcast_pair. rewrite Hl, Hr. simpl. rewrite (proj2 (Nat.eqb_eq _ _) Hlen), orb_false_r.
  case_bool_decide as E.
  - apply emits_ret. unfold has_shape. simpl. rewrite (broadcast_refl _ _ Hb E). subst d2. done.
  - rewrite broadcast_dims, H1, H2 by done. simpl.
    eapply emits_bind; [by eapply emits_broadcast|]. intros l' Hl'.
    eapply emits_bind; [by eapply emits_broadcast|]. intros r' Hr'. by apply emits_ret.
Qed.

(** ** Operands brought to one shape *)
Definition aligned (s : option (list Z)) (w : Z) (p : option (Value * Value)) : Prop :=
  match p, s with
  | Some (l, r), Some d => has_shape (Some d) (MInt w) l ∧ has_shape (Some d) (MInt w) r
  | None, None => True
  | _, _ => False
  end.

Lemma emits_align pair w l r ls rs :
  has_shape ls (MInt w) l → has_shape rs (MInt w) r →
  (∀ d1 d2, ls = Some d1 → rs = Some d2 → emits (pair l r)
     (λ p, has_shape (join_shape ls rs) (MInt w) p.1 ∧ has_shape (join_shape ls rs) (MInt w) p.2)) →
  emits (align_operands pair l r) (aligned (join_shape ls rs) w).
Proof.
  intros Hl Hr Hp. unfold align_operands. assert (El := Hl). assert (Er := Hr). unfold has_shape in El, Er.
  rewrite El, Er. destruct ls as [d1|], rs as [d2|]; simpl.
  - eapply emits_bind; [by eapply Hp|]. intros [l' r'] H. by apply emits_ret.
  - eapply emits_bind; [by eapply emits_splat|]. intros r' Hr'. by apply emits_ret.
  - eapply emits_bind; [by eapply emits_splat|]. intros l' Hl'. by apply emits_ret.
  - by apply emits_ret.
Qed.

(** ** The operations *)
Section lowering.
Context (infer : ArithKind → MlirTy → MlirTy → MlirTy) (Hinfer : ∀ k t, infer k t t = t).
Context (w : Z).
Implicit Types (l r : Value) (s : option (list Z)).

Definition returns s (e : MlirTy) (o : option Value) : Prop := ∃ v, o = Some v ∧ has_shape s e v.

Lemma emits_ranked d e v : has_shape (Some d) e v → emits (ranked_or_err (v_ty v)) (.= (d, e)).
Proof. unfold has_shape, ranked_or_err. intros ->. by apply emits_ret. Qed.

Lemma emits_create k s l r : int_binary k = true → has_shape s (MInt w) l → has_shape s (MInt w) r →
  emits (create infer k l r) (has_shape s (MInt w)).
Proof.
  unfold has_shape. intros Hk Hl Hr. apply emits_append. intros i. rewrite Hl, Hr, Hinfer. split; [|done].
  unfold well_typed. simpl. rewrite Hl, Hr. destruct k; try done; split; try done; by exists s, w.
Qed.

Lemma emits_muli l r : has_shape None (MInt w) l → has_shape None (MInt w) r →
  emits (create_muli infer l r) (has_shape None (MInt w)).
Proof.
  intros Hl Hr. unfold create_muli. rewrite bool_decide_true by (by rewrite Hl, Hr). rewrite Hl. by apply emits_create.
Qed.

Lemma emits_some {s e} (m : gen Value) : emits m (has_shape s e) → emits (v ← m; mret (Some v)) (returns s e).
Proof. intros H. eapply emits_bind; [done|]. intros v Hv. apply emits_ret. by exists v. Qed.

Lemma emits_arith scalar_int tensor_int float ls rs l r :
  (has_shape None (MInt w) l → has_shape None (MInt w) r → emits (scalar_int l r) (has_shape None (MInt w))) →
  int_binary tensor_int = true → has_shape ls (MInt w) l → has_shape rs (MInt w) r →
  (∀ d1 d2, ls = Some d1 → rs = Some d2 → broadcastable d1 d2) →
  emits (codegen_arith infer scalar_int tensor_int float l r) (returns (join_shape ls rs) (MInt w)).
Proof.
  intros Hs Hk Hl Hr Hb. unfold codegen_arith. eapply emits_bind.
  { eapply emits_align; [done..|]. intros d1 d2 -> ->. eapply emits_pair; [by apply Hb|done..]. }
  intros [[l' r']|] Ha; simpl in Ha.
  - destruct (join_shape ls rs) as [d|]; [|done]. destruct Ha as [Hl' Hr'].
    eapply emits_bind; [by eapply emits_ranked|]. intros ? ->. eapply emits_bind; [by eapply emits_ranked|]. intros ? ->.
    simpl. apply emits_some. by apply emits_create.
  - destruct ls, rs; try done. assert (E : v_ty l = MInt w) by exact Hl. rewrite E. simpl. apply emits_some. by apply Hs.
Qed.

Lemma emits_scalar k l r : int_binary k = true → has_shape None (MInt w) l → has_shape None (MInt w) r →
  emits (codegen_scalar_only infer k l r) (returns None (MInt w)).
Proof.
  intros Hk Hl Hr. unfold codegen_scalar_only. assert (El := Hl). assert (Er := Hr). unfold has_shape in El, Er.
  rewrite El, Er. simpl. apply emits_some. by apply emits_create.
Qed.

(** Operands of one shape: the alignment without broadcasts. *)
Lemma emits_same_shape ls rs l r : has_shape ls (MInt w) l → has_shape rs (MInt w) r →
  (∀ d1 d2, ls = Some d1 → rs = Some d2 → d1 = d2) →
  emits (align_operands (λ l r, mret (l, r)) l r) (aligned (join_shape ls rs) w).
Proof.
  intros Hl Hr Hd. eapply emits_align; [done..|]. intros d1 d2 -> ->. specialize (Hd d1 d2 eq_refl eq_refl). subst d2.
  apply emits_ret. simpl. replace (zip_with Z.max d1 d1) with d1; [done|].
  clear. induction d1 as [|a d IH]; simpl; [done|]. by rewrite <-IH, Z.max_id.
Qed.

Lemma emits_bitwise k ls rs l r : int_binary k = true → has_shape ls (MInt w) l → has_shape rs (MInt w) r →
  (∀ d1 d2, ls = Some d1 → rs = Some d2 → d1 = d2) →
  emits (codegen_bitwise infer k l r) (returns (join_shape ls rs) (MInt w)).
Proof.
  intros Hk Hl Hr Hd. unfold codegen_bitwise. eapply emits_bind; [by apply emits_same_shape|].
  intros p Hp. destruct (join_shape ls rs) as [d|] eqn:Hj.
  - destruct p as [[l' r']|]; [|done]. destruct Hp as [Hl' Hr']. simpl.
    assert (E : v_ty l' = MTensor d (MInt w)) by exact Hl'. rewrite E. simpl.
    eapply (emits_bind _ _ (.= true)); [|intros ? ->; apply emits_some; by apply emits_create].
    eapply (emits_bind _ _ (.= (d, MInt w))); [by apply emits_ret|]. intros ? ->. by apply emits_ret.
  - destruct p as [[l' r']|]; [done|]. destruct ls, rs; try done. simpl.
    assert (E : v_ty l = MInt w) by exact Hl. rewrite E. simpl.
    eapply (emits_bind _ _ (.= true)); [by apply emits_ret|]. intros ? ->. apply emits_some. by apply emits_create.
Qed.

Lemma emits_cmpi p ls rs l r : has_shape ls (MInt w) l → has_shape rs (MInt w) r →
  (∀ d1 d2, ls = Some d1 → rs = Some d2 → d1 = d2) →
  emits (codegen_cmpi p l r) (returns (join_shape ls rs) (MInt 1)).
Proof.
  intros Hl Hr Hd. unfold codegen_cmpi. eapply emits_bind; [by apply emits_same_shape|].
  intros [[l' r']|] Hp; simpl in Hp.
  - destruct (join_shape ls rs) as [d|]; [|done]. destruct Hp as [Hl' Hr'].
    eapply emits_bind; [by eapply emits_ranked|]. intros ? ->. apply emits_some, emits_append. intros i. split; [|done].
    exists (Some d), w. split; [done|]. split; [|done]. by rewrite Hl', Hr'.
  - destruct ls, rs; try done. apply emits_some, emits_append. intros i. split; [|done].
    exists None, w. split; [done|]. split; [|done]. by rewrite Hl, Hr.
Qed.
End lowering.

(** C16: The lowering of an integer operation is well typed: for operands over one
    integer type whose shapes the operation accepts (two scalars, a tensor and a
    scalar, equal tensors, or for arithmetic tensors that broadcast), lowering
    succeeds, every operation it appends satisfies the verifier, and the result
    has the joint shape, over the operand type or over [i1] for a comparison. *)
Theorem integer_lowering_well_typed infer op ty l r ls rs w blk
    (Hinfer : ∀ k t, infer k t t = t) (Hop : is_Some (emitted_kind op (is_int_ty ty)))
    (Hl : v_ty l = with_shape ls (MInt w)) (Hr : v_ty r = with_shape rs (MInt w)) (Hshapes : shapes_ok op ls rs) :
  ∃ v blk' new, lower_binary_op infer op ty l r blk = Ret (inr (Some v, blk')) ∧
    mb_ops blk' = mb_ops blk ++ new ∧ Forall well_typed new ∧
    v_ty v = with_shape (join_shape ls rs) (if is_comparison op then MInt 1 else MInt w).
Proof.
  assert (H : emits (lower_binary_op infer op ty l r)
    (returns (join_shape ls rs) (if is_comparison op then MInt 1 else MInt w))).
  { assert (Hb : op_class op = ArithClass → ∀ d1 d2, ls = Some d1 → rs = Some d2 → broadcastable d1 d2).
    { intros Hc d1 d2 -> ->. unfold shapes_ok in Hshapes. by rewrite Hc in Hshapes. }
    assert (Hd : op_class op = SameShapeClass → ∀ d1 d2, ls = Some d1 → rs = Some d2 → d1 = d2).
    { intros Hc d1 d2 -> ->. unfold shapes_ok in Hshapes. by rewrite Hc in Hshapes. }
    assert (Hn : op_class op = ScalarClass → ls = None ∧ rs = None).
    { intros Hc. unfold shapes_ok in Hshapes. rewrite Hc in Hshapes. by destruct ls, rs. }
    destruct op; try (by destruct Hop); simpl;
      try (specialize (Hn eq_refl) as [-> ->]; apply emits_scalar; try done; by destruct ty);
      try (apply emits_bitwise; [done..|exact Hl|exact Hr|by apply Hd]); try (apply (emits_cmpi w); [exact Hl|exact Hr|by apply Hd]).
    all: apply emits_arith; [done| |done|exact Hl|exact Hr|by apply Hb]; intros; by (apply emits_muli || apply emits_create). }
  destruct (H blk) as (o & blk' & new & E & Hn & Hw & v & -> & Hv). by exists v, blk', new.
Qed.

(** [tensor<4x1xi32> + tensor<1x8xi32>] *)
Lemma integer_lowering_well_typed_witness :
  ∃ v blk' new, lower_binary_op infer_left Add (TyInt I32) (mkValue 0 (MTensor [4; 1] (MInt 32)))
      (mkValue 1 (MTensor [1; 8] (MInt 32))) (mkMBlock 2 []) = Ret (inr (Some v, blk')) ∧
    length new = 3%nat ∧ mb_ops blk' = new ∧ Forall well_typed new ∧ v_ty v = MTensor [4; 8] (MInt 32).
Proof.
  destruct (integer_lowering_well_typed infer_left Add (TyInt I32) (mkValue 0 (MTensor [4; 1] (MInt 32)))
    (mkValue 1 (MTensor [1; 8] (MInt 32))) (Some [4; 1]) (Some [1; 8]) 32 (mkMBlock 2 []))
    as (v & blk' & new & E & Hn & Hw & Hv).
  - reflexivity.
  - eexists. reflexivity.
  - reflexivity.
  - reflexivity.
  - repeat constructor; lia.
  - exists v, blk', new. assert (E' := E). vm_compute in E'. injection E' as _ Hb. simpl in Hn.
    split; [exact E|]. split; [by rewrite <-Hn, <-Hb|]. split; [exact Hn|]. split; [exact Hw|exact Hv].
Defined.
