(* ===== verification/TritonArithBugs.v ===== *)
(** * Triton backend: further divergences of the emitted arithmetic

    The overflow flag, the negation of integers, shifts by the width or more and
    comparisons of floats. *)
From S2P Require Import Prelude Codegen Mir ScalarInts IntOps TritonArith TritonArithFacts TritonArithThms TritonArithTypes.
#[local] Open Scope Z_scope.

(** The overflow flag of a checked operation is the constant 0, whatever the
    operands. *)
Lemma overflow_flag_is_zero infer operand_ty codegen_operand place op plain operands st blk st' blk' :
  plain_op op = Some plain →
  codegen_binary_rvalue infer operand_ty codegen_operand place op operands st blk = Ret (inr (st', blk')) →
  st' = st ∨ ∃ result flag,
    tuple_fields st' = <[pl_local place := [result; flag]]> (tuple_fields st) ∧
    mkArithOp flag (constant 0) [] ∈ mb_ops blk'.
Proof.
  intros Hplain. unfold codegen_binary_rvalue. rewrite Hplain. unfold mbind, cg_bind, mret, cg_ret.
  destruct (codegen_binary_op _ _ _ _ _ blk) as [[e|[[v|] blk1]]| |]; simpl; intros H; simplify_eq. 2: by left.
  right. eexists _, _. split; [done|]. simpl. apply elem_of_app. right. by left.
Qed.

(** The interpreter does set it. *)
Lemma overflow_flag_set : binary_int_op 8 AddWithOverflow
    (mkImm (mkScalarInt 255 1) (UInt U8)) (mkImm (mkScalarInt 1 1) (UInt U8)) =
  interp_ok (ResPair (mkScalarInt 0 1) (UInt U8) true).
Proof. vm_compute. reflexivity. Qed.

(** The operands of an ill-typed operation. *)
Lemma subi_ill_typed v l r : v_ty l ≠ v_ty r → ¬ well_typed (mkArithOp v subi [l; r]).
Proof. intros Hne [_ (s & w & _ & Hr & _)]. congruence. Qed.
Lemma cmpi_float_ill_typed v p l r w : v_ty l = MFloat w → ¬ well_typed (mkArithOp v (cmpi p) [l; r]).
Proof. intros Hl (s & w' & Hs & _). rewrite Hl in Hs. by destruct s. Qed.

(** The negation of an integer of another width than 32 subtracts it from a
    32-bit zero. *)
Lemma neg_operand_types_differ infer operand_ty codegen_operand place operand op_ty st blk val blk1 w :
  operand_ty operand = Ret op_ty → codegen_operand operand op_ty blk = Ret (inr (val, blk1)) → v_ty val = MInt w → w ≠ 32 → ∃ st' blk' o,
    codegen_unary_rvalue infer operand_ty codegen_operand place Neg operand st blk = Ret (inr (st', blk')) ∧
    last (mb_ops blk') = Some o ∧ ao_kind o = subi ∧ ¬ well_typed o.
Proof.
  intros Hty Hv Hw Hne. unfold codegen_unary_rvalue, mbind, cg_bind, cg_lift. rewrite Hty. simpl. rewrite Hv. simpl. rewrite Hw. simpl.
  eexists _, _, _. split; [done|]. simpl. rewrite last_snoc. split; [done|]. split; [done|].
  apply subi_ill_typed. simpl. rewrite Hw. congruence.
Qed.

(** The interpreter reduces the amount of a shift. *)
Lemma shift_returns pointer_size op t x y :
  size_ok (num_size pointer_size t) → patterns (Size.bits (num_size pointer_size t)) x y → op = Shl ∨ op = Shr → ∃ s,
    binary_int_op pointer_size op (mkImm (mkScalarInt x (num_size pointer_size t)) t)
      (mkImm (mkScalarInt y (num_size pointer_size t)) t) = interp_ok (ResInt s t).
Proof.
  intros Hs [Hx Hy] Hop. set (size := num_size pointer_size t) in *. pose proof (bits_range size Hs).
  assert (is_shift op = true ∧ throws_on_overflow op = false) as [Hsh Hth] by (by destruct Hop as [-> | ->]).
  unfold binary_int_op. rewrite Hsh. unfold shift_op. cbn [imm imm_ty]. fold size. cbv zeta. rewrite Hth.
  assert (∃ n, (if is_signed t then SI.to_int (mkScalarInt y size) size else SI.to_bits (mkScalarInt y size) size) = Ret n) as [n ->].
  { destruct (is_signed t); eexists; [by apply (read_int pointer_size t Hs)|by apply (read_bits pointer_size t Hs)]. }
  cbn [mbind outcome_bind]. rewrite (proj2 (Z.eqb_neq (Size.bits size) 0)), andb_false_r by lia.
  pose proof (Z.mod_pos_bound n (Size.bits size) ltac:(lia)).
  assert (Hchk : ∀ z, checked_shift (n mod Size.bits size) z = Ret z).
  { intros z. unfold checked_shift. by rewrite (proj2 (Z.leb_le _ _)), (proj2 (Z.ltb_lt _ _)) by lia. }
  rewrite (read_int pointer_size t Hs), (read_bits pointer_size t Hs) by done. cbn [mbind outcome_bind].
  destruct Hop as [-> | ->]; rewrite !Hchk; cbn [mbind outcome_bind];
    rewrite ?(truncate_from_int_ok size Hs), ?(truncate_from_uint_ok size Hs); destruct (is_signed t); by eexists.
Qed.

Lemma wide_shift_has_no_value pointer_size eval infer op t env l r x y blk :
  arith_doc eval → int_operands pointer_size t env l r x y → op = Shl ∨ op = Shr →
  Size.bits (num_size pointer_size t) ≤ y → ∃ v blk' o,
    lower_binary_op infer op (ty_of t) l r blk = Ret (inr (Some v, blk')) ∧
    mb_ops blk' = mb_ops blk ++ [o] ∧ ao_result o = v ∧ eval_op eval env o = None.
Proof.
  intros Hdoc Hio Hop Hy. destruct (emitted_kind op (is_signed t)) as [k|] eqn:Hk; [|by destruct Hop as [-> | ->]].
  destruct (lowered_op _ _ _ _ _ _ _ eval infer op k blk Hio Hk) as (v & blk' & o & ? & ? & ? & Heval).
  exists v, blk', o. split_and!; [done..|]. rewrite Heval.
  destruct (doc_poison _ Hdoc _ _ _ (io_range _ _ _ _ _ _ _ Hio) Hy) as (Hp1 & Hp2 & Hp3).
  destruct Hop as [-> | ->]; simplify_eq/=; [done|]. by destruct (is_signed t).
Qed.

(** Comparisons are lowered to [arith.cmpi] without looking at the type. *)
Lemma float_comparison_ill_typed infer op ty l r w blk :
  is_comparison op = true → v_ty l = MFloat w → v_ty r = MFloat w → ∃ v blk' o,
    lower_binary_op infer op ty l r blk = Ret (inr (Some v, blk')) ∧ mb_ops blk' = mb_ops blk ++ [o] ∧ ¬ well_typed o.
Proof.
  intros Hop Hl Hr. destruct op; try done; simpl; unfold codegen_cmpi, align_operands, mbind, cg_bind; rewrite Hl, Hr;
    simpl; eexists _, _, _; (split; [reflexivity|split; [reflexivity|]]); by eapply cmpi_float_ill_typed.
Qed.

(** C36: Four more ways in which the emitted arithmetic is not what MIR means.  The
    overflow flag of a checked operation is the constant 0, although the
    interpreter sets it.  The negation of an integer of another width than 32
    appends a subtraction of operands of two types.  A shift by the width or
    more has no value in [arith], while the interpreter reduces the amount.  A
    comparison of floats is lowered to the integer comparison, which is ill
    typed. *)
Theorem arithmetic_lowering_divergences infer operand_ty codegen_operand :
  (∀ place op plain operands st blk st' blk', plain_op op = Some plain →
     codegen_binary_rvalue infer operand_ty codegen_operand place op operands st blk = Ret (inr (st', blk')) →
     st' = st ∨ ∃ result flag,
       tuple_fields st' = <[pl_local place := [result; flag]]> (tuple_fields st) ∧
       mkArithOp flag (constant 0) [] ∈ mb_ops blk') ∧
  binary_int_op 8 AddWithOverflow (mkImm (mkScalarInt 255 1) (UInt U8)) (mkImm (mkScalarInt 1 1) (UInt U8)) =
    interp_ok (ResPair (mkScalarInt 0 1) (UInt U8) true) ∧
  (∀ place operand op_ty st blk val blk1 w, operand_ty operand = Ret op_ty →
     codegen_operand operand op_ty blk = Ret (inr (val, blk1)) → v_ty val = MInt w → w ≠ 32 → ∃ st' blk' o,
       codegen_unary_rvalue infer operand_ty codegen_operand place Neg operand st blk = Ret (inr (st', blk')) ∧
       last (mb_ops blk') = Some o ∧ ao_kind o = subi ∧ ¬ well_typed o) ∧
  (∀ pointer_size eval op t env l r x y blk, arith_doc eval → int_operands pointer_size t env l r x y →
     op = Shl ∨ op = Shr → Size.bits (num_size pointer_size t) ≤ y →
     (∃ s, binary_int_op pointer_size op (mkImm (mkScalarInt x (num_size pointer_size t)) t)
        (mkImm (mkScalarInt y (num_size pointer_size t)) t) = interp_ok (ResInt s t)) ∧
     ∃ v blk' o, lower_binary_op infer op (ty_of t) l r blk = Ret (inr (Some v, blk')) ∧
       mb_ops blk' = mb_ops blk ++ [o] ∧ ao_result o = v ∧ eval_op eval env o = None) ∧
  (∀ op ty l r w blk, is_comparison op = true → v_ty l = MFloat w → v_ty r = MFloat w → ∃ v blk' o,
     lower_binary_op infer op ty l r blk = Ret (inr (Some v, blk')) ∧ mb_ops blk' = mb_ops blk ++ [o] ∧ ¬ well_typed o).
Proof.
  split_and!.
  - intros *. apply overflow_flag_is_zero.
  - apply overflow_flag_set.
  - intros *. apply neg_operand_types_differ.
  - intros pointer_size eval op t env l r x y blk Hdoc Hio Hop Hy. split; [|by eapply wide_shift_has_no_value].
    apply shift_returns; [|by apply Hio|done]. apply Hio.
  - intros *. apply float_comparison_ill_typed.
Qed.

(** [3 << 33] on [i32], where the interpreter gives 6. *)
Lemma arithmetic_lowering_divergences_witness :
  binary_int_op 8 Shl (mkImm (mkScalarInt 3 4) (SInt I32)) (mkImm (mkScalarInt 33 4) (SInt I32)) =
    interp_ok (ResInt (mkScalarInt 6 4) (SInt I32)) ∧
  ∃ v blk' o, lower_binary_op infer_left Shl (TyInt I32) (mkValue 0 (MInt 32)) (mkValue 1 (MInt 32)) (mkMBlock 2 []) =
      Ret (inr (Some v, blk')) ∧
    mb_ops blk' = [] ++ [o] ∧ ao_result o = v ∧ eval_op arith_ref (env_of 3 33) o = None.
Proof.
  split; [vm_compute; reflexivity|].
  destruct (arithmetic_lowering_divergences infer_left (λ _, Ret (TyInt I32)) (λ _ _, err InvalidScalar)) as (_ & _ & _ & H & _).
  refine (proj2 (H 8 arith_ref Shl (SInt I32) (env_of 3 33) (mkValue 0 (MInt 32)) (mkValue 1 (MInt 32)) 3 33 (mkMBlock 2 [])
    arith_ref_doc (i32_operands 3 33 _ _) (or_introl eq_refl) _)); [lia|lia|vm_compute; discriminate].
Defined.
