(* ===== verification/TritonConst.v ===== *)
(** * Constant folding of operands in the Triton backend

    [rustc_codegen_llvm/src/mlir/codegen/triton/mod.rs]: [to_scalar_int] and
    [try_eval_const_i32], with the recursive [fold_local_as_i32] and
    [fold_operand_as_i32], which give the compile-time value of an [i32]
    argument of a Triton operation.

    [args] are the generic arguments of the instance being compiled.  The mutual
    recursion goes through the assignments of the body and has no bound of its
    own; it runs on fuel, one unit per local. *)
From S2P Require Import Prelude Codegen Mir ScalarInts TritonArith.
#[local] Open Scope Z_scope.

(** ** [i32] arithmetic

    [wrapping_*]; a shift amount is cast to [u32] and masked. *)
Definition wrap_i32 (x : Z) : Z := as_i 32 x.
Definition shift_amount_i32 (r : Z) : Z := Z.land (as_u 32 r) 31.

Definition fold_binop (op : BinOp) (l r : Z) : option Z :=
  match op with
  | Add => Some (wrap_i32 (l + r))
  | Sub => Some (wrap_i32 (l - r))
  | Mul => Some (wrap_i32 (l * r))
  | Div => if r =? 0 then None else Some (wrap_i32 (Z.quot l r))
  | Rem => if r =? 0 then None else Some (wrap_i32 (Z.rem l r))
  | Shl => Some (wrap_i32 (Z.shiftl l (shift_amount_i32 r)))
  | Shr => Some (Z.shiftr l (shift_amount_i32 r))
  | BitAnd => Some (Z.land l r)
  | BitOr => Some (Z.lor l r)
  | BitXor => Some (Z.lxor l r)
  | _ => None
  end.

Definition fold_unop (op : UnOp) (v : Z) : option Z :=
  match op with
  | Neg => Some (wrap_i32 (- v))
  | Not => Some (Z.lnot v)
  | PtrMetadata => None
  end.

Section const_eval.
Context (args : list GenericArg) (mir : Body).

(** A const-generic parameter, from the arguments of the instance. *)
Definition param_leaf (index : nat) : outcome (option ScalarInt) :=
  subst ← const_at args index;
  value ← to_value subst;
  Ret (valtree_try_to_leaf value.2).

Definition to_scalar_int (node : Operand) : outcome (MlirError + ScalarInt) :=
  match node with
  | Constant (ConstVal (CvScalar (ScalarInt_ s)) _) => Ret (inr s)
  | Constant (ConstTy ty const_val) =>
      if negb (is_integral ty) then Ret (inl InvalidScalar)
      else
        match const_val with
        | CkParam index =>
            leaf ← param_leaf index;
            Ret (match leaf with Some s => inr s | None => inl InvalidScalar end)
        | _ => Ret (inl InvalidScalar)
        end
  | _ => Ret (inl InvalidScalar)
  end.

(** [v?] on an option. *)
Definition obind {A B} (m : outcome (option A)) (f : A → outcome (option B)) : outcome (option B) :=
  r ← m; match r with Some a => f a | None => Ret None end.

Definition fold_constant (c : Const) : outcome (option Z) :=
  match c with
  | ConstVal (CvScalar (ScalarInt_ si)) _ => v ← SI.to_i32 si; Ret (Some v)
  | ConstTy ty const_val =>
      if is_integral ty then
        match const_val with
        | CkParam index => obind (param_leaf index) (λ s, v ← SI.to_i32 s; Ret (Some v))
        | _ => Ret None
        end
      else Ret None
  | _ => Ret None
  end.

(** The first assignment to the whole local, in block order. *)
Definition assigns_whole (local : Local) (s : StatementKind) : option Rvalue :=
  match s with
  | Assign place rvalue =>
      if Nat.eqb (pl_local place) local && no_projection place then Some rvalue else None
  | _ => None
  end.
Definition first_assignment (local : Local) : option Rvalue :=
  head (omap (assigns_whole local) (all_statements mir)).

Section body.
Context (fold_local : Local → outcome (option Z)).

Definition fold_operand (op : Operand) : outcome (option Z) :=
  match op with
  | Constant c => fold_constant c
  | _ => match operand_as_local op with Some q => fold_local q | None => Ret None end
  end.

Definition fold_rvalue (rvalue : Rvalue) : outcome (option Z) :=
  match rvalue with
  | Use op => fold_operand op
  | BinaryOp bin_op lhs rhs =>
      obind (fold_operand lhs) (λ l, obind (fold_operand rhs) (λ r, Ret (fold_binop bin_op l r)))
  | UnaryOp un_op op => obind (fold_operand op) (λ v, Ret (fold_unop un_op v))
  | _ => Ret None
  end.
End body.

Fixpoint fold_local_as_i32 (fuel : nat) (local : Local) : outcome (option Z) :=
  match fuel with
  | O => Diverge
  | S f =>
      match first_assignment local with
      | Some rvalue => fold_rvalue (fold_local_as_i32 f) rvalue
      | None => Ret None
      end
  end.

Definition fold_operand_as_i32 (fuel : nat) : Operand → outcome (option Z) :=
  fold_operand (fold_local_as_i32 fuel).

Definition try_eval_const_i32 (fuel : nat) (node : Operand) : outcome (MlirError + Z) :=
  si ← to_scalar_int node;
  match si with
  | inr si => v ← SI.to_i32 si; Ret (inr v)
  | inl _ =>
      match operand_as_local node with
      | Some local =>
          v ← fold_local_as_i32 fuel local;
          Ret (match v with Some val => inr val | None => inl InvalidScalar end)
      | None => Ret (inl InvalidScalar)
      end
  end.
End const_eval.
