(* ===== verification/TritonConstFacts.v ===== *)
(** * Constant folding of operands: the recursion

    Which locals the folding of a local folds in turn ([calls]): it returns
    unless it comes back to a local it is folding, and then it never does. *)
From S2P Require Import Prelude Codegen Mir ScalarInts IntOps TritonArithFacts TritonConst.

(** Recursive calls that are always enough: one per assigned local, and one. *)
Definition const_fold_fuel (mir : Body) : nat := S (length (all_statements mir)).

Lemma bind_returns {A B} (m : outcome A) (f : A → outcome B) :
  m ≠ Diverge → (∀ a, f a ≠ Diverge) → (m ≫= f) ≠ Diverge.
Proof. destruct m; simpl; auto. Qed.

Lemma if_returns {A} (c : bool) (m1 m2 : outcome A) : m1 ≠ Diverge → m2 ≠ Diverge → (if c then m1 else m2) ≠ Diverge.
Proof. by destruct c. Qed.

Lemma to_i32_returns s : SI.to_i32 s ≠ Diverge.
Proof.
  unfold SI.to_i32, SI.to_int, SI.to_bits, SI.try_to_bits, SI.check_data, Size.sign_extend, Size.truncate.
  repeat lazymatch goal with
         | |- mbind _ _ ≠ Diverge => apply bind_returns
         | |- (if _ then _ else _) ≠ Diverge => apply if_returns
         | |- Ret _ ≠ Diverge => discriminate
         | |- Panic ≠ Diverge => discriminate
         | |- match ?x with _ => _ end ≠ Diverge => destruct x
         | |- ∀ _, _ => intros ?
         end.
Qed.

Section fold.
Context (args : list GenericArg) (mir : Body).
Abbreviation fold := (fold_local_as_i32 args mir).
Abbreviation fold_op := (fold_operand_as_i32 args mir).
Implicit Types (l d : Local) (f : nat).

Lemma fold_constant_returns c : fold_constant args c ≠ Diverge.
Proof.
  destruct c as [ty ck|ty|[[s|]| | |] ty]; simpl; try done.
  - destruct (is_integral ty); [|done]. destruct ck; try done. unfold param_leaf, const_at, obind.
    destruct (args !! index) as [[| |[]]|]; simpl; try done. destruct (valtree_try_to_leaf _) as [s|]; simpl; [|done].
    pose proof (to_i32_returns s). by destruct (SI.to_i32 s).
  - pose proof (to_i32_returns s). by destruct (SI.to_i32 s).
Qed.

(** The folding of [l] folds [d]. *)
Definition calls l d : Prop :=
  ∃ rv, first_assignment mir l = Some rv ∧
    match rv with
    | Use op | UnaryOp _ op => operand_as_local op = Some d
    | BinaryOp _ lhs rhs =>
        operand_as_local lhs = Some d ∨
        operand_as_local rhs = Some d ∧ ∃ f v, fold_op f lhs = Ret (Some v)
    | _ => False
    end.

(** ** More fuel *)
Section mono.
Context (g g' : Local → outcome (option Z)) (Hg : ∀ d, g d ≠ Diverge → g' d = g d).

Lemma fold_operand_mono op : fold_operand args g op ≠ Diverge → fold_operand args g' op = fold_operand args g op.
Proof. destruct op as [p|p|c|]; simpl; try done; destruct (no_projection p); auto. Qed.

Lemma fold_rvalue_mono rv : fold_rvalue args g rv ≠ Diverge → fold_rvalue args g' rv = fold_rvalue args g rv.
Proof.
  destruct rv; simpl; try done; unfold obind.
  - apply fold_operand_mono.
  - pose proof (fold_operand_mono l) as Hl. pose proof (fold_operand_mono r) as Hr.
    destruct (fold_operand args g l) as [[x|]| |]; simpl in *; try done; rewrite Hl by done; simpl; try done.
    destruct (fold_operand args g r) as [[y|]| |]; simpl in *; try done; by rewrite Hr.
  - pose proof (fold_operand_mono v) as Hv.
    destruct (fold_operand args g v) as [[x|]| |]; simpl in *; try done; by rewrite Hv.
Qed.
End mono.

Lemma fold_mono f f' l : f ≤ f' → fold f l ≠ Diverge → fold f' l = fold f l.
Proof.
  revert f' l. induction f as [|f IH]; intros f' l Hle; [done|]. destruct f' as [|f']; [lia|]. simpl.
  destruct (first_assignment mir l) as [rv|]; [|done]. apply fold_rvalue_mono. intros d. apply IH. lia.
Qed.

Lemma fold_op_mono f f' op : f ≤ f' → fold_op f op ≠ Diverge → fold_op f' op = fold_op f op.
Proof. intros Hle. apply fold_operand_mono. intros d. by apply fold_mono. Qed.

(** ** Divergence and calls *)
Lemma fold_op_diverge f op :
  fold_op f op = Diverge ↔ ∃ d, operand_as_local op = Some d ∧ fold f d = Diverge.
Proof.
  unfold fold_operand_as_i32, fold_operand. destruct op as [p|p|c|]; simpl.
  3: { split; [intros H; by apply fold_constant_returns in H|by intros (? & ? & ?)]. }
  3: { split; [done|by intros (? & ? & ?)]. }
  all: destruct (no_projection p); split; [eauto| |done|]; intros (d & Hd & Hf); by simplify_eq.
Qed.

Lemma diverge_calls f l : fold (S f) l = Diverge → ∃ d, calls l d ∧ fold f d = Diverge.
Proof.
  simpl. unfold calls. destruct (first_assignment mir l) as [rv|]; [|done].
  assert (Hop : ∀ op, fold_operand args (fold f) op = Diverge → ∃ d, operand_as_local op = Some d ∧ fold f d = Diverge)
    by (intros op; apply fold_op_diverge).
  destruct rv as [op| | | | | |bo lhs rhs|u op| | | | |]; simpl; try done; unfold obind.
  - intros (d & ? & ?)%Hop. naive_solver.
  - destruct (fold_operand args (fold f) lhs) as [[x|]| |] eqn:El; simpl; try done.
    + destruct (fold_operand args (fold f) rhs) as [[y|]| |] eqn:Er; simpl; try done.
      intros _. destruct (Hop _ Er) as (d & Hd & Hf). exists d. split; [|done]. eexists. split; [done|]. right.
      split; [done|]. by exists f, x.
    + intros _. destruct (Hop _ El) as (d & Hd & Hf). naive_solver.
  - destruct (fold_operand args (fold f) op) as [[x|]| |] eqn:El; simpl; try done.
    intros _. destruct (Hop _ El) as (d & Hd & Hf). naive_solver.
Qed.

Lemma calls_diverge f l d : calls l d → fold f d = Diverge → fold (S f) l = Diverge.
Proof.
  intros (rv & Hrv & Hd) Hf. simpl. rewrite Hrv.
  assert (Hop : ∀ op, operand_as_local op = Some d → fold_operand args (fold f) op = Diverge).
  { intros op Ho. apply fold_op_diverge. eauto. }
  destruct rv as [op| | | | | |bo lhs rhs|u op| | | | |]; try done; simpl; unfold obind.
  - by apply Hop.
  - destruct Hd as [Hl|(Hr & f' & v & Hl)]; [by rewrite (Hop lhs Hl)|].
    rewrite (Hop rhs Hr). change (fold_operand args (fold f) lhs) with (fold_op f lhs).
    destruct (Nat.le_gt_cases f f') as [Hle|Hlt].
    + pose proof (fold_op_mono f f' lhs Hle) as Hm. rewrite Hl in Hm.
      destruct (fold_op f lhs) as [o| |]; [| |done]; specialize (Hm ltac:(done)); by simplify_eq.
    + rewrite (fold_op_mono f' f lhs), Hl by (lia || congruence). done.
  - by rewrite (Hop op Hd).
Qed.

(** ** Cycles *)
Definition fold_cyclic l : Prop := ∃ x, rtc calls l x ∧ tc calls x x.

Lemma cyclic_diverges f l : fold_cyclic l → fold f l = Diverge.
Proof.
  revert l. induction f as [|f IH]; intros l (x & Hlx & Hxx); [done|].
  assert (∃ d, calls l d ∧ fold_cyclic d) as (d & Hd & Hc).
  { destruct Hlx as [x|l d x Hld Hdx].
    - inversion Hxx as [? ? Hc|? d ? Hc Hr]; subst; [exists x|exists d]; (split; [exact Hc|]); exists x; (split; [|done]).
      + done.
      + by apply tc_rtc.
    - exists d. split; [done|]. by exists x. }
  eapply calls_diverge; [done|]. by apply IH.
Qed.

(** A local that is folded is assigned. *)
Definition assigned_local (s : StatementKind) : option Local :=
  match s with Assign p _ => Some (pl_local p) | _ => None end.
Lemma calls_assigned l d : calls l d → l ∈ omap assigned_local (all_statements mir).
Proof.
  intros (rv & Hrv & _). unfold first_assignment in Hrv.
  assert (Hin : rv ∈ omap (assigns_whole l) (all_statements mir)).
  { destruct (omap _ _); simplify_eq/=. by left. }
  apply list_elem_of_omap in Hin as (s & Hs & Hr). apply list_elem_of_omap. exists s. split; [done|].
  destruct s; simpl in Hr; try done. destruct (_ && _) eqn:E; simplify_eq.
  apply andb_true_iff in E as [Hp%Nat.eqb_eq _]. simpl. by rewrite Hp.
Qed.

Lemma diverge_cyclic_path f : ∀ l path,
  NoDup path → (∀ x, x ∈ path → tc calls x l) → length (all_statements mir) < f + length path →
  fold f l = Diverge → fold_cyclic l.
Proof.
  set (assigned := omap assigned_local (all_statements mir)).
  assert (Hlen : length assigned ≤ length (all_statements mir)) by apply length_omap_le.
  induction f as [|f IH]; intros l path Hnd Hpath Hf Hdiv.
  - assert (path ⊆+ assigned) as Hsub%submseteq_length; [|lia].
    apply NoDup_submseteq; [done|]. intros x Hx. apply Hpath in Hx. inversion Hx; subst; by eapply calls_assigned.
  - destruct (diverge_calls f l Hdiv) as (d & Hd & Hfd).
    destruct (decide (l ∈ path)) as [Hl|Hl]; [exists l; split; [done|by apply Hpath]|].
    destruct (IH d (l :: path)) as (x & Hdx & Hxx); [by constructor| |simpl; lia|done|].
    + intros x [->|Hx]%elem_of_cons; [by apply tc_once|]. eapply tc_r; [by apply Hpath|done].
    + exists x. split; [|done]. by eapply rtc_l.
Qed.

Lemma diverge_cyclic l : fold (const_fold_fuel mir) l = Diverge → fold_cyclic l.
Proof. apply (diverge_cyclic_path _ l []); [constructor|set_solver|unfold const_fold_fuel; simpl; lia]. Qed.
End fold.

(** ** The arithmetic

    Folding computes on [i32]s what the interpreter computes, except that it
    gives a value to the divisions that overflow. *)
#[local] Open Scope Z_scope.

Definition is_i32 (x : Z) : Prop := - 2 ^ 31 ≤ x < 2 ^ 31.
Definition imm_i32 (x : Z) : ImmTy := mkImm (mkScalarInt (as_u 32 x) 4) (SInt I32).

Lemma size_4 : size_ok 4.
Proof. unfold size_ok. lia. Qed.
Lemma as_u_32 x : 0 ≤ as_u 32 x < 2 ^ 32.
Proof. by apply (as_u_bounds 4 size_4). Qed.
Lemma as_i_32 x : is_i32 (as_i 32 x).
Proof. apply (as_i_bounds 4 size_4 x). Qed.
Lemma as_i_32_id x : is_i32 x → as_i 32 x = x.
Proof. apply (as_i_id 4 size_4). Qed.
Lemma as_u_wrap x : as_u 32 (wrap_i32 x) = as_u 32 x.
Proof. apply (as_u_as_i 4 size_4). Qed.
Lemma as_i_of_u x : is_i32 x → as_i 32 (as_u 32 x) = x.
Proof. intros Hx. rewrite (as_i_as_u 4 size_4). by apply as_i_32_id. Qed.

(** ** Bitwise operations on the bit patterns *)
Lemma as_u_land_ones x : as_u 32 x = Z.land x (Z.ones 32).
Proof. unfold as_u. by rewrite Z.land_ones. Qed.

Lemma as_u_land x y : Z.land (as_u 32 x) (as_u 32 y) = as_u 32 (Z.land x y).
Proof.
  rewrite !as_u_land_ones. rewrite (Z.land_comm y), Z.land_assoc, <-(Z.land_assoc x), Z.land_diag.
  by rewrite <-Z.land_assoc, (Z.land_comm _ y), Z.land_assoc.
Qed.
Lemma as_u_lor x y : Z.lor (as_u 32 x) (as_u 32 y) = as_u 32 (Z.lor x y).
Proof. by rewrite !as_u_land_ones, Z.land_lor_distr_l. Qed.
Lemma as_u_lxor x y : Z.lxor (as_u 32 x) (as_u 32 y) = as_u 32 (Z.lxor x y).
Proof.
  rewrite !as_u_land_ones. apply Z.bits_inj'. intros n Hn. rewrite !Z.lxor_spec, !Z.land_spec, Z.lxor_spec.
  by destruct (Z.testbit (Z.ones 32) n); rewrite ?andb_true_r, ?andb_false_r.
Qed.

(** A number is an [i32] when the bits from the sign bit on are equal. *)
Lemma is_i32_sign x : is_i32 x ↔ Z.shiftr x 31 = 0 ∨ Z.shiftr x 31 = -1.
Proof.
  unfold is_i32. rewrite Z.shiftr_div_pow2 by lia. pose proof (Z.div_mod x (2 ^ 31) ltac:(lia)).
  pose proof (Z.mod_pos_bound x (2 ^ 31) ltac:(lia)). lia.
Qed.

Lemma land_i32 x y : is_i32 x → is_i32 y → is_i32 (Z.land x y).
Proof. rewrite !is_i32_sign, Z.shiftr_land. intros [-> | ->] [-> | ->]; auto. Qed.
Lemma lor_i32 x y : is_i32 x → is_i32 y → is_i32 (Z.lor x y).
Proof. rewrite !is_i32_sign, Z.shiftr_lor. intros [-> | ->] [-> | ->]; auto. Qed.
Lemma lxor_i32 x y : is_i32 x → is_i32 y → is_i32 (Z.lxor x y).
Proof. rewrite !is_i32_sign, Z.shiftr_lxor. intros [-> | ->] [-> | ->]; auto. Qed.
Lemma shr_i32 x n : is_i32 x → 0 ≤ n → is_i32 (Z.shiftr x n).
Proof.
  rewrite !is_i32_sign. intros Hx Hn. rewrite Z.shiftr_shiftr, Z.add_comm, <-Z.shiftr_shiftr by lia.
  destruct Hx as [-> | ->]; [rewrite Z.shiftr_0_l; auto|].
  right. rewrite Z.shiftr_div_pow2 by lia. assert (0 < 2 ^ n) by (apply Z.pow_pos_nonneg; lia).
  symmetry. apply (Z.div_unique _ _ _ (2 ^ n - 1)); lia.
Qed.

(** Masking the amount is reducing it modulo the width. *)
Lemma shift_amount_mod r : shift_amount_i32 r = r mod 32.
Proof.
  unfold shift_amount_i32, as_u. change 31 with (Z.ones 5). rewrite Z.land_ones by lia.
  apply Z.mod_mod_divide. by exists (2 ^ 27).
Qed.

Section interp.
Context (pointer_size : Z).

Lemma read_i32 x : is_i32 x → SI.to_int (mkScalarInt (as_u 32 x) 4) 4 = Ret x.
Proof. intros Hx. rewrite (read_int pointer_size (SInt I32) size_4) by apply as_u_32. f_equal. by apply as_i_of_u. Qed.
Lemma read_u32 x : SI.to_bits (mkScalarInt (as_u 32 x) 4) 4 = Ret (as_u 32 x).
Proof. by rewrite (read_bits pointer_size (SInt I32) size_4) by apply as_u_32. Qed.

(** The interpreter's result, or undefined behaviour. *)
Definition result_i32 (r : InterpResult) (v : Z) : Prop :=
  r = Ret (inr (ResInt (mkScalarInt (as_u 32 v) 4) (SInt I32))) ∨ ∃ ub, r = Ret (inl ub).

Lemma truncate_i32 z : SI.truncate_from_int (as_i 128 z) 4 =
  Ret (mkScalarInt (as_u 32 z) 4, negb (as_i 32 (as_i 128 z) =? as_i 128 z)).
Proof. rewrite (truncate_from_int_ok 4 size_4). by rewrite (as_u_128' 4 size_4). Qed.

Lemma signed_arith op z oflo :
  is_overflowing op = false → result_i32 (s ← SI.truncate_from_int (as_i 128 z) 4; finish_arith op (SInt I32) s oflo) (wrap_i32 z).
Proof.
  intros Hop. rewrite truncate_i32. unfold result_i32, finish_arith. cbn [mbind outcome_bind fst snd]. rewrite Hop, as_u_wrap.
  destruct (_ && throws_on_overflow op); [right; by eexists|by left].
Qed.

Lemma binary_i32 op x y : is_shift op = false → is_i32 x → is_i32 y →
  binary_int_op pointer_size op (imm_i32 x) (imm_i32 y) =
  match signed_op pointer_size op (SInt I32) x y (as_u 32 y =? 0) with
  | Some r => r
  | None => unsigned_op pointer_size op (SInt I32) (as_u 32 x) (as_u 32 y)
  end.
Proof.
  intros Hop Hx Hy. unfold binary_int_op. rewrite Hop. cbn [imm imm_ty imm_i32]. rewrite bool_decide_true by done.
  cbn [negb num_size is_signed]. rewrite !read_i32 by done. cbn [mbind outcome_bind]. by rewrite !read_u32.
Qed.

Lemma null_i32 y : is_i32 y → (as_u 32 y =? 0) = (y =? 0).
Proof.
  intros Hy. apply eq_true_iff_eq. rewrite !Z.eqb_eq. rewrite <-(as_i_0 4 size_4 _ (as_u_32 y)).
  change (Size.bits 4) with 32. by rewrite as_i_of_u.
Qed.

Lemma from_uint_i32 x : from_uint pointer_size (as_u 32 x) (SInt I32) = Ret (inr (ResInt (mkScalarInt (as_u 32 x) 4) (SInt I32))).
Proof. apply (from_uint_ok pointer_size (SInt I32) size_4). apply as_u_32. Qed.

Lemma shift_i32 op x y : is_i32 x → is_i32 y → op = Shl ∨ op = Shr → ∃ v, fold_binop op x y = Some v ∧
  binary_int_op pointer_size op (imm_i32 x) (imm_i32 y) = Ret (inr (ResInt (mkScalarInt (as_u 32 v) 4) (SInt I32))).
Proof.
  intros Hx Hy Hop. assert (is_shift op = true ∧ throws_on_overflow op = false) as [Hs Ht] by (by destruct Hop as [-> | ->]).
  unfold binary_int_op. rewrite Hs. unfold shift_op. cbn [imm imm_ty imm_i32 num_size is_signed].
  rewrite !read_i32 by done. cbn [mbind outcome_bind]. change (Size.bits 4 =? 0) with false. cbn iota. change (Size.bits 4) with 32.
  rewrite Ht, andb_false_r. pose proof (Z.mod_pos_bound y 32 ltac:(lia)).
  assert (Hchk : ∀ z, checked_shift (y mod 32) z = Ret z).
  { intros z. unfold checked_shift. by rewrite (proj2 (Z.leb_le _ _)), (proj2 (Z.ltb_lt _ _)) by lia. }
  destruct Hop as [-> | ->]; eexists; (split; [done|]); rewrite Hchk; cbn [mbind outcome_bind];
    rewrite shift_amount_mod.
  - rewrite truncate_i32. cbn [mbind outcome_bind fst]. by rewrite as_u_wrap.
  - by rewrite (truncate_from_int_ok 4 size_4).
Qed.

Lemma fold_binop_interp op x y v : is_i32 x → is_i32 y → fold_binop op x y = Some v →
  is_i32 v ∧ result_i32 (binary_int_op pointer_size op (imm_i32 x) (imm_i32 y)) v.
Proof.
  intros Hx Hy Hv. assert (op = Shl ∨ op = Shr ∨ is_shift op = false) as Hs by (destruct op; auto; done).
  destruct Hs as [Hs|[Hs|Hs]].
  1, 2: destruct (shift_i32 op x y Hx Hy) as (v' & Hv' & Hr); [auto|]; rewrite Hv in Hv'; injection Hv' as <-;
    (split; [|by left]); subst op; simpl in Hv; injection Hv as <-;
    [apply as_i_32 || (apply shr_i32; [done|]; rewrite shift_amount_mod; apply Z.mod_pos_bound; lia)].
  rewrite binary_i32, null_i32 by done. assert (is_overflowing op = false) as Ho by (by destruct op).
  destruct op; try done; simpl in Hv; unfold signed_op; cbn [compare_op num_size].
  1-3: injection Hv as <-; (split; [apply as_i_32|by apply signed_arith]).
  1, 2: destruct (y =? 0); [done|]; injection Hv as <-; (split; [apply as_i_32|]);
    rewrite (signed_min_ok 4 size_4); cbn [mbind outcome_bind]; (destruct (_ && _); [right; by eexists|]); by apply signed_arith.
  - injection Hv as <-. split; [by apply lxor_i32|left]. unfold unsigned_op. cbn [compare_op]. by rewrite as_u_lxor, from_uint_i32.
  - injection Hv as <-. split; [by apply land_i32|left]. unfold unsigned_op. cbn [compare_op]. by rewrite as_u_land, from_uint_i32.
  - injection Hv as <-. split; [by apply lor_i32|left]. unfold unsigned_op. cbn [compare_op]. by rewrite as_u_lor, from_uint_i32.
Qed.

Lemma fold_unop_interp op x v : is_i32 x → fold_unop op x = Some v →
  is_i32 v ∧ unary_int_op pointer_size op (imm_i32 x) = Ret (inr (ResInt (mkScalarInt (as_u 32 v) 4) (SInt I32))).
Proof.
  intros Hx Hv. unfold unary_int_op. cbn [imm imm_ty imm_i32 num_size is_signed]. rewrite read_i32 by done. cbn [mbind outcome_bind].
  destruct op; simpl in Hv; simplify_eq; cbn [mbind outcome_bind].
  - split; [unfold is_i32, Z.lnot in *; lia|]. by rewrite (truncate_from_int_ok 4 size_4).
  - split; [apply as_i_32|]. rewrite truncate_i32. cbn [mbind outcome_bind fst]. by rewrite as_u_wrap.
Qed.
End interp.
