(* ===== verification/TritonConstThms.v ===== *)
(** * Constant folding of operands against executions

    The executions of [MirExec] in which integer operations give what the
    interpreter gives, and the invariant behind the soundness of
    [try_eval_const_i32]: a local that folds holds the folded value whenever it
    is initialised.  Then the properties. *)
From S2P Require Import Prelude Codegen Mir MirExec ScalarInts IntOps TritonArith TritonConst TritonConstFacts.
#[local] Open Scope Z_scope.

(** ** Types of operands *)
Definition num_ty (t : Ty) : option NumTy :=
  match t with TyInt i => Some (SInt i) | TyUint u => Some (UInt u) | _ => None end.
Definition const_ty (c : Const) : Ty :=
  match c with ConstTy t _ | ConstUnevaluated _ t | ConstVal _ t => t end.
Definition operand_num (mir : Body) (op : Operand) : option NumTy :=
  match op with
  | Constant c => num_ty (const_ty c)
  | _ => q ← operand_as_local op; t ← local_decls mir !! q; num_ty t
  end.

(** ** Executions with integer arithmetic *)
Section semantics.
Context (pointer_size : Z) (instantiate : Const → Const) (discr_of : Ty → nat → option Z) (mir : Body).
Implicit Types env : gmap Local Z.

(** The operand is an integer with the given immediate. *)
Definition operand_imm env (op : Operand) (v : ImmTy) : Prop :=
  ∃ t x, operand_num mir op = Some t ∧ operand_value instantiate env op = Some x ∧
    v = mkImm (mkScalarInt x (num_size pointer_size t)) t.

(** Integer locals are read after they are initialised. *)
Definition initialised env (op : Operand) : Prop :=
  is_Some (operand_num mir op) → is_Some (operand_as_local op) → is_Some (operand_value instantiate env op).

(** Undefined behaviour is no execution; booleans, orderings and pairs are left
    unconstrained. *)
Definition int_result (r : InterpResult) (w : option Z) : Prop :=
  match r with
  | Ret (inr (ResInt s _)) => w = Some (si_data s)
  | Ret (inl _) => False
  | _ => True
  end.

Definition computes env (rv : Rvalue) (w : option Z) : Prop :=
  match rv with
  | BinaryOp op lhs rhs =>
      initialised env lhs ∧ initialised env rhs ∧
      ∀ l r, operand_imm env lhs l → operand_imm env rhs r → int_result (binary_int_op pointer_size op l r) w
  | UnaryOp op v =>
      initialised env v ∧ ∀ x, operand_imm env v x → int_result (unary_int_op pointer_size op x) w
  | _ => True
  end.

Definition int_stmt env (s : StatementKind) env' : Prop :=
  exec_stmt instantiate discr_of mir env s env' ∧
  match s with
  | Assign p rv => no_projection p = true → computes env rv (env' !! pl_local p)
  | _ => True
  end.

Inductive int_stmts : gmap Local Z → list StatementKind → gmap Local Z → Prop :=
  | int_nil env : int_stmts env [] env
  | int_cons env1 env2 env3 s l : int_stmt env1 s env2 → int_stmts env2 l env3 → int_stmts env1 (s :: l) env3.

Definition int_step (c1 c2 : BasicBlock * gmap Local Z) : Prop :=
  ∃ d k env, block_at mir c1.1 = Ret d ∧ terminator d = Ret k ∧
    int_stmts c1.2 (statements d) env ∧ exec_term instantiate mir env k c2.1 c2.2.

Lemma int_step_exec c1 c2 : int_step c1 c2 → exec_step instantiate discr_of mir c1 c2.
Proof.
  intros (d & k & env & Hd & Hk & Hs & Ht). exists d, k, env. split_and!; [done..| |done].
  clear -Hs. induction Hs as [|env1 env2 env3 s l [Hs _] _ IH]; [constructor|by econstructor].
Qed.
End semantics.

(** ** The locals on which folding is sound

    Executable: each is an [i32] that is assigned once, as a whole, whose address
    is not taken, and from constants and locals of the same kind. *)
Definition is_i32_ty (t : Ty) : bool := match t with TyInt I32 => true | _ => false end.
Definition operand_in (dom : list Local) (op : Operand) : bool :=
  match op with
  | Constant c => is_i32_ty (const_ty c)
  | _ => match operand_as_local op with Some q => bool_decide (q ∈ dom) | None => true end
  end.
Definition rvalue_in (dom : list Local) (rv : Rvalue) : bool :=
  match rv with
  | Use op | UnaryOp _ op => operand_in dom op
  | BinaryOp _ lhs rhs => operand_in dom lhs && operand_in dom rhs
  | _ => true
  end.
Definition local_in (mir : Body) (dom : list Local) (l : Local) : bool :=
  written_once mir l && negb (borrowed mir l) &&
  match local_decls mir !! l with Some t => is_i32_ty t | None => false end &&
  match first_assignment mir l with Some rv => rvalue_in dom rv | None => false end.
Definition fold_domain (mir : Body) (dom : list Local) : bool := forallb (local_in mir dom) dom.

(** ** Constants *)
Lemma to_i32_inv s v : SI.to_i32 s = Ret v → is_i32 v ∧ si_data s = as_u 32 v.
Proof.
  unfold SI.to_i32, SI.to_int, SI.to_bits, SI.try_to_bits. change (4 =? 0) with false. cbn iota.
  destruct (Z.eqb_spec 4 (si_size s)) as [E|]; [|done]. unfold SI.check_data. rewrite <-E, (truncate_ok 4 size_4).
  cbn [mbind outcome_bind]. destruct (Z.eqb_spec (as_u (Size.bits 4) (si_data s)) (si_data s)) as [Hd|]; [|done].
  cbn [mbind outcome_bind]. rewrite (sign_extend_ok 4 size_4). cbn [mbind outcome_bind]. change (Size.bits 4) with 32 in *.
  destruct (_ && _); [|done]. intros [= <-]. split; [apply as_i_32|]. change 32 with (Size.bits 4). by rewrite (as_u_as_i 4 size_4).
Qed.

(** What the instantiation of constants does to scalars and to parameters. *)
Record instantiates (args : list GenericArg) (instantiate : Const → Const) : Prop := {
  inst_scalar s ty : instantiate (ConstVal (CvScalar (ScalarInt_ s)) ty) = ConstVal (CvScalar (ScalarInt_ s)) ty;
  inst_param ty i ck : is_integral ty = true → const_at args i = Ret ck →
    instantiate (ConstTy ty (CkParam i)) = ConstTy ty ck }.

Section sound.
Context (pointer_size : Z) (args : list GenericArg) (instantiate : Const → Const) (discr_of : Ty → nat → option Z) (mir : Body) (dom : list Local).
Context (Hinst : instantiates args instantiate) (Hdom : fold_domain mir dom = true).
Implicit Types env : gmap Local Z.
Abbreviation fold := (fold_local_as_i32 args mir).
Abbreviation fold_op := (fold_operand_as_i32 args mir).

Lemma fold_constant_inv c v :
  fold_constant args c = Ret (Some v) → is_i32 v ∧ eval_const instantiate c = Some (as_u 32 v).
Proof.
  unfold eval_const. destruct c as [ty ck|ty|[[s|]| | |] ty]; simpl; try done.
  - destruct (is_integral ty) eqn:Hty; [|done]. destruct ck; try done. unfold obind, param_leaf.
    destruct (const_at args index) as [ck| |] eqn:Hck; simpl; try done. destruct ck; simpl; try done.
    destruct (valtree_try_to_leaf value.2) as [s|] eqn:Hs; simpl; [|done].
    destruct (SI.to_i32 s) as [x| |] eqn:Hx; simpl; try done. intros [= ->]. apply to_i32_inv in Hx as [? Hx].
    rewrite (inst_param _ _ Hinst _ _ _ Hty Hck), Hs. simpl. unfold to_bits_unchecked. by rewrite Hx.
  - destruct (SI.to_i32 s) as [x| |] eqn:Hx; simpl; try done. intros [= ->]. apply to_i32_inv in Hx as [? Hx].
    rewrite (inst_scalar _ _ Hinst). unfold to_bits_unchecked. by rewrite Hx.
Qed.

(** Folded values are [i32]s. *)
Lemma fold_range f : ∀ l v, fold f l = Ret (Some v) → is_i32 v.
Proof.
  induction f as [|f IH]; intros l v; simpl; [done|]. destruct (first_assignment mir l) as [rv|]; [|done].
  assert (Hop : ∀ op v, fold_operand args (fold f) op = Ret (Some v) → is_i32 v).
  { intros op v' H. destruct op as [p|p|c|]; simpl in H; try done.
    1, 2: destruct (no_projection p); [by eapply IH|done]. by apply fold_constant_inv in H as [? _]. }
  destruct rv as [op| | | | | |bo lhs rhs|u op| | | | |]; simpl; try done; unfold obind; [by apply Hop|..].
  - destruct (fold_operand args (fold f) lhs) as [[x|]| |] eqn:Hx; simpl; try done.
    destruct (fold_operand args (fold f) rhs) as [[y|]| |] eqn:Hy; simpl; try done. intros [= Hv].
    by destruct (fold_binop_interp 8 bo x y v) as [H _]; eauto.
  - destruct (fold_operand args (fold f) op) as [[x|]| |] eqn:Hx; simpl; try done. intros [= Hv].
    by destruct (fold_unop_interp 8 u x v) as [H _]; eauto.
Qed.

(** ** Locals of the domain *)
Lemma in_dom l : l ∈ dom → written_once mir l = true ∧ borrowed mir l = false ∧
  local_decls mir !! l = Some (TyInt I32) ∧ ∃ rv, first_assignment mir l = Some rv ∧ rvalue_in dom rv = true.
Proof.
  intros Hl. unfold fold_domain in Hdom. rewrite forallb_forall in Hdom. specialize (Hdom l).
  rewrite <-list_elem_of_In in Hdom. specialize (Hdom Hl). unfold local_in in Hdom. rewrite !andb_true_iff, negb_true_iff in Hdom.
  destruct Hdom as [[[? ?] Hty] Hrv]. split_and!; [done..| |].
  - destruct (local_decls mir !! l) as [[]|]; try done. by destruct t.
  - destruct (first_assignment mir l) as [rv|]; [|done]. by exists rv.
Qed.

Lemma first_assignment_in l rv : first_assignment mir l = Some rv → ∃ p,
  Assign p rv ∈ all_statements mir ∧ pl_local p = l ∧ no_projection p = true.
Proof.
  unfold first_assignment. intros Hrv. assert (Hin : rv ∈ omap (assigns_whole l) (all_statements mir)).
  { destruct (omap _ _); simplify_eq/=. by left. }
  apply list_elem_of_omap in Hin as (s & Hs & Hr). destruct s as [p rv'| | | | | | | | | | |]; simpl in Hr; try done.
  destruct (_ && _) eqn:E; simplify_eq. apply andb_true_iff in E as [E%Nat.eqb_eq ?]. by exists p.
Qed.

Lemma dom_write l s : l ∈ dom → s ∈ all_statements mir → l ∈ stmt_writes s → ∃ p rv,
  s = Assign p rv ∧ pl_local p = l ∧ no_projection p = true ∧ first_assignment mir l = Some rv ∧ rvalue_in dom rv = true.
Proof.
  intros Hl Hs Hw. destruct (in_dom l Hl) as (Hone & _ & _ & rv & Hrv & Hin).
  destruct (first_assignment_in l rv Hrv) as (p & Hp & <- & Hnp). exists p, rv. split_and!; [|done..]. symmetry.
  eapply (written_once_stmt mir (pl_local p)); [done..| |done]. by left.
Qed.

(** ** The invariant *)
Definition folded env : Prop := ∀ l f v w,
  l ∈ dom → fold f l = Ret (Some v) → env !! l = Some w → w = as_u 32 v.

Lemma folded_operand env op f v w :
  folded env → operand_in dom op = true → fold_op f op = Ret (Some v) →
  operand_value instantiate env op = Some w → w = as_u 32 v.
Proof.
  intros Henv Hin Hf Hw. unfold fold_operand_as_i32 in Hf. destruct op as [p|p|c|]; simpl in *; try done.
  1, 2: destruct (no_projection p); simplify_eq/=; apply bool_decide_eq_true in Hin; by eapply Henv.
  apply fold_constant_inv in Hf as [_ Hf]. congruence.
Qed.

Lemma fold_op_range op f v : fold_op f op = Ret (Some v) → is_i32 v.
Proof.
  unfold fold_operand_as_i32. destruct op as [p|p|c|]; simpl; try done.
  1, 2: destruct (no_projection p); [apply fold_range|done].
  intros H. by apply fold_constant_inv in H as [? _].
Qed.

(** The immediate of an operand of the domain that folds. *)
Lemma folded_imm env op f v :
  folded env → operand_in dom op = true → fold_op f op = Ret (Some v) →
  initialised instantiate mir env op → operand_imm pointer_size instantiate mir env op (imm_i32 v).
Proof.
  intros Henv Hin Hf Hinit.
  assert (Hnum : operand_num mir op = Some (SInt I32)).
  { unfold fold_operand_as_i32 in Hf. destruct op as [p|p|c|]; simpl in *; try done.
    1, 2: destruct (no_projection p); simplify_eq/=; apply bool_decide_eq_true in Hin;
      by destruct (in_dom _ Hin) as (_ & _ & -> & _).
    destruct (const_ty c); try done. by destruct t. }
  assert (is_Some (operand_value instantiate env op)) as [w Hw].
  { destruct op as [p|p|c|]; [| | |done].
    1, 2: apply Hinit; [by eexists|]; unfold fold_operand_as_i32 in Hf; simpl in *; by destruct (no_projection p).
    apply fold_constant_inv in Hf as [_ Hf]. by eexists. }
  exists (SInt I32), w. split_and!; [done..|]. by rewrite (folded_operand _ _ _ _ _ Henv Hin Hf Hw).
Qed.

(** What an assignment of the domain stores. *)
Lemma folded_rvalue env rv f v w :
  folded env → rvalue_in dom rv = true → fold_rvalue args (fold f) rv = Ret (Some v) →
  match rvalue_value instantiate env rv with Some x => Some w = x | None => True end →
  computes pointer_size instantiate mir env rv (Some w) → w = as_u 32 v.
Proof.
  intros Henv Hin Hf Hw Hc. destruct rv as [op| | | | | |bo lhs rhs|u op| | | | |]; simpl in *; try done; unfold obind in Hf.
  - destruct op as [p|p|c|]; try done.
    1, 2: simpl in *; destruct (no_projection p); simpl in *; [|done]; apply bool_decide_eq_true in Hin; by eapply Henv.
    apply fold_constant_inv in Hf as [_ Hf]. rewrite Hf in Hw. by simplify_eq/=.
  - apply andb_true_iff in Hin as [Hl Hr].
    destruct (fold_operand args (fold f) lhs) as [[x|]| |] eqn:Hx; simplify_eq/=.
    destruct (fold_operand args (fold f) rhs) as [[y|]| |] eqn:Hy; simplify_eq/=. rename Hf into Hv.
    destruct Hc as (Hil & Hir & Hc). specialize (Hc _ _ (folded_imm _ _ f _ Henv Hl Hx Hil) (folded_imm _ _ f _ Henv Hr Hy Hir)).
    destruct (fold_binop_interp pointer_size bo x y v) as [_ [Hres|[ub Hres]]];
      [by eapply fold_op_range|by eapply fold_op_range|done| |]; rewrite Hres in Hc; by simplify_eq/=.
  - destruct (fold_operand args (fold f) op) as [[x|]| |] eqn:Hx; simplify_eq/=. rename Hf into Hv.
    destruct Hc as (Hi & Hc). specialize (Hc _ (folded_imm _ _ f _ Henv Hin Hx Hi)).
    destruct (fold_unop_interp pointer_size u x v) as [_ Hres]; [by eapply fold_op_range|done|]. rewrite Hres in Hc. by simplify_eq/=.
Qed.

Lemma folded_may_write l env env' : l ∉ dom → folded env → may_write mir l env env' → folded env'.
Proof.
  intros Hl Henv Hw x f v w Hx Hf Hv. destruct (in_dom x Hx) as (_ & Hb & _).
  rewrite Hw in Hv by (done || congruence). by eapply Henv.
Qed.

Lemma int_stmt_folded env s env' :
  s ∈ all_statements mir → int_stmt pointer_size instantiate discr_of mir env s env' → folded env → folded env'.
Proof.
  intros Hin [Hs Hc] Henv. assert (Hout : ∀ l, l ∈ stmt_writes s →
    match s with Assign p _ => no_projection p = false | _ => True end → l ∉ dom).
  { intros l Hl Hp Hd. destruct (dom_write l s Hd Hin Hl) as (p & rv & -> & _ & Hnp & _). congruence. }
  destruct Hs as [p rv w Hp Hw|p rv env' Hp Hw|p vi x Hp _|p vi env' Hp Hw|l|l|s Hs].
  - intros l f v w' Hl Hf Hl'. destruct (decide (l = pl_local p)) as [->|Hne].
    2:{ rewrite lookup_partial_alter_ne in Hl' by done. by eapply Henv. }
    destruct (dom_write _ _ Hl Hin) as (p' & rv' & [= <- <-] & _ & _ & Hrv & Hri); [by left|].
    destruct f as [|f]; [done|]. simpl in Hf. rewrite Hrv in Hf. specialize (Hc Hp).
    rewrite lookup_partial_alter_eq in Hl', Hc. subst w. eapply folded_rvalue; [done..| |done].
    destruct (rvalue_value instantiate env rv); [by rewrite Hw|done].
  - eapply folded_may_write; [|done..]. apply Hout; [by left|done].
  - intros l f v w Hl Hf Hw. rewrite lookup_insert_ne in Hw; [by eapply Henv|]. intros <-.
    apply (Hout (pl_local p)); [by left|done..].
  - eapply folded_may_write; [|done..]. apply Hout; [by left|done].
  - intros x f v w Hx Hf [_ Hw]%lookup_delete_Some. by eapply Henv.
  - intros x f v w Hx Hf [_ Hw]%lookup_delete_Some. by eapply Henv.
  - done.
Qed.

Lemma int_stmts_folded env l env' :
  l ⊆ all_statements mir → int_stmts pointer_size instantiate discr_of mir env l env' → folded env → folded env'.
Proof.
  intros Hl Hs. induction Hs as [|env1 env2 env3 s l Hs _ IH]; [done|]. intros Henv.
  apply IH; [set_solver|]. eapply int_stmt_folded; [|done..]. set_solver.
Qed.

Lemma int_step_folded c1 c2 : int_step pointer_size instantiate discr_of mir c1 c2 → folded c1.2 → folded c2.2.
Proof.
  intros (d & k & env & Hd & Hk & Hstmts & Hterm) Henv. unfold block_at, terminator in Hd, Hk.
  destruct (basic_blocks mir !! c1.1) as [d'|] eqn:Hd'; simplify_eq/=.
  destruct (terminator_opt d) as [k'|] eqn:Hk'; simplify_eq/=.
  assert (Henv' : folded env).
  { eapply int_stmts_folded; [|done..]. intros s Hs. apply elem_of_concat. exists (statements d). split; [done|].
    apply list_elem_of_fmap_2. by eapply list_elem_of_lookup_2. }
  assert (Hnw : ∀ l, l ∈ term_writes k → l ∉ dom).
  { intros l Hl Hdl. destruct (in_dom l Hdl) as (Hone & _ & _ & rv & Hrv & _).
    destruct (first_assignment_in l rv Hrv) as (p & Hp & <- & _).
    eapply (written_once_term mir (pl_local p) (Assign p rv)); [exact Hone|exact Hp|by left|exact Hd'|exact Hk'|exact Hl]. }
  destruct Hterm as [t|discr t v bb' Hv Hbb|discr t bb' Hv Hv' Hbb|func args' dest t u env' Hw|p t u dr env' Hw|c e t u]; try done;
    (eapply folded_may_write; [apply Hnw; by left|exact Henv'|exact Hw]).
Qed.
End sound.

(** ** The properties

    When the value that [try_eval_const_i32] gives an operand is the value the
    operand has at run time, when the folding returns at all, and where it goes
    wrong. *)
Lemma try_eval_inv args mir fuel node v :
  try_eval_const_i32 args mir fuel node = Ret (inr v) → fold_operand_as_i32 args mir fuel node = Ret (Some v).
Proof.
  unfold try_eval_const_i32, fold_operand_as_i32.
  assert (Hlocal : ∀ l, (x ← fold_local_as_i32 args mir fuel l;
    Ret (match x with Some val => inr val | None => inl InvalidScalar end)) = Ret (inr v) →
    fold_local_as_i32 args mir fuel l = Ret (Some v)).
  { intros l. by destruct (fold_local_as_i32 args mir fuel l) as [[x|]| |]; simpl; intros H; simplify_eq. }
  destruct node as [p|p|c|]; simpl; try done; [destruct (no_projection p); [apply Hlocal|done]..|].
  destruct c as [ty ck|ty|[[s|]| | |] ty]; simpl; try done.
  - destruct (is_integral ty); simpl; [|done]. destruct ck; try done. unfold obind.
    destruct (param_leaf args index) as [[s|]| |]; simpl; try done. by destruct (SI.to_i32 s); simpl; intros; simplify_eq.
  - by destruct (SI.to_i32 s); simpl; intros; simplify_eq.
Qed.

(** C12: Compile-time evaluation of an [i32] operand is sound for locals that are
    assigned once, as a whole, whose address is not taken and that are computed
    from [i32] constants, const-generic parameters and such locals: in every
    execution in which integer operations give what the compiler's interpreter
    gives, the operand has the evaluated value whenever it is read. *)
Theorem try_eval_const_sound pointer_size args instantiate discr_of mir dom fuel node v bb0 env0 bb env w
    (Hinst : instantiates args instantiate)
    (Hdom : fold_domain mir dom = true) (Hnode : operand_in dom node = true)
    (Heval : try_eval_const_i32 args mir fuel node = Ret (inr v))
    (Hinit : ∀ l, l ∈ dom → env0 !! l = None)
    (Hrun : rtc (int_step pointer_size instantiate discr_of mir) (bb0, env0) (bb, env))
    (Hread : operand_value instantiate env node = Some w) :
  is_i32 v ∧ w = as_u 32 v.
Proof.
  apply try_eval_inv in Heval. split; [by eapply fold_op_range|].
  eapply folded_operand; [done..| |exact Hnode|exact Heval|exact Hread].
  assert (H0 : folded args mir dom env0) by (intros l f v' w' Hl _ Hw; by rewrite Hinit in Hw).
  change env with (bb, env).2. change env0 with (bb0, env0).2 in H0.
  clear -Hinst Hdom Hrun H0. induction Hrun as [|c1 c2 c3 Hs _ IH]; [done|].
  apply IH. by eapply int_step_folded.
Qed.

(** The folding of a local returns or panics within one recursive call per
    statement of the body unless it comes back to a local that it is folding; and
    then it never returns, whatever the fuel. *)
Theorem const_folding_terminates args mir l :
  (¬ fold_cyclic args mir l → ∀ fuel, (const_fold_fuel mir ≤ fuel)%nat →
     fold_local_as_i32 args mir fuel l = fold_local_as_i32 args mir (const_fold_fuel mir) l ∧
     fold_local_as_i32 args mir fuel l ≠ Diverge) ∧
  (fold_cyclic args mir l → ∀ fuel, fold_local_as_i32 args mir fuel l = Diverge).
Proof.
  split; [|intros Hc fuel; by apply cyclic_diverges].
  intros Hc fuel Hle. assert (Hne : fold_local_as_i32 args mir (const_fold_fuel mir) l ≠ Diverge).
  { intros H. by apply Hc, (diverge_cyclic args). }
  by rewrite (fold_mono args mir _ _ _ Hle Hne).
Qed.

(** ** Concrete bodies *)
Definition i32_const (v : Z) : Operand := Constant (ConstVal (CvScalar (ScalarInt_ (mkScalarInt (as_u 32 v) 4))) (TyInt I32)).
Definition usize_const (v : Z) : Operand := Constant (ConstVal (CvScalar (ScalarInt_ (mkScalarInt v 8))) (TyUint Usize)).
Definition copy (l : Local) : Operand := Copy (mkPlace l []).
Definition i32_param (i : nat) : Operand := Constant (ConstTy (TyInt I32) (CkParam i)).
Definition whole_place (l : Local) : Place := mkPlace l [].

(** [HEAD_DIM / 2] for a const-generic [HEAD_DIM]. *)
Definition head_dim_body : Body := mkBody
  [ mkBlock [Assign (whole_place 1) (BinaryOp Div (i32_param 0) (i32_const 2))] (Some (Goto 1));
    mkBlock [] (Some Return) ]
  [TyBool; TyInt I32] 0.
Definition head_dim_args (v : Z) : list GenericArg := [ArgConst (CkValue (TyInt I32, Leaf (mkScalarInt (as_u 32 v) 4)))].
Definition subst_params (args : list GenericArg) (c : Const) : Const :=
  match c with
  | ConstTy ty (CkParam i) => match const_at args i with Ret ck => ConstTy ty ck | _ => c end
  | _ => c
  end.

Definition no_enums (_ : Ty) (_ : nat) : option Z := None.
Lemma subst_params_instantiates args : instantiates args (subst_params args).
Proof. split; [done|]. intros ty i ck _ H. simpl. by rewrite H. Qed.

Lemma try_eval_const_sound_witness :
  fold_domain head_dim_body [1%nat] = true ∧
  try_eval_const_i32 (head_dim_args 16) head_dim_body 2 (copy 1) = Ret (inr 8) ∧
  is_i32 8 ∧ 8 = as_u 32 8.
Proof.
  assert (Hdom : fold_domain head_dim_body [1%nat] = true) by (vm_compute; reflexivity).
  assert (Heval : try_eval_const_i32 (head_dim_args 16) head_dim_body 2 (copy 1) = Ret (inr 8)) by (vm_compute; reflexivity).
  split; [exact Hdom|]. split; [exact Heval|].
  assert (Hrun : rtc (int_step 8 (subst_params (head_dim_args 16)) no_enums head_dim_body) (0%nat, ∅) (1%nat, {[1%nat := 8]})).
  { eapply rtc_l; [|reflexivity].
    eexists _, _, {[1%nat := 8]}. split; [reflexivity|]. split; [reflexivity|]. split; [|apply exec_goto].
    apply (int_cons _ _ _ _ ∅ {[1%nat := 8]}); [|apply int_nil]. split.
    - apply (exec_assign _ _ head_dim_body ∅ (whole_place 1) _ (Some 8)); [reflexivity|by eexists].
    - intros _. split; [intros _ [? ?]; discriminate|]. split; [intros _ [? ?]; discriminate|].
      intros l r (t & x & Ht & Hx & ->) (t' & x' & Ht' & Hx' & ->). vm_compute in Ht, Hx, Ht', Hx'.
      injection Ht as <-. injection Hx as <-. injection Ht' as <-. injection Hx' as <-.
      vm_compute. reflexivity. }
  apply (try_eval_const_sound 8 (head_dim_args 16) (subst_params (head_dim_args 16)) no_enums head_dim_body [1%nat] 2 (copy 1) 8
    0 ∅ 1 {[1%nat := 8]} 8 (subst_params_instantiates _) Hdom); [vm_compute; reflexivity|exact Heval|reflexivity|exact Hrun|reflexivity].
Defined.

(** [let mut n = 16; n = 32;] *)
Definition reassigned_body : Body := mkBody
  [ mkBlock [Assign (whole_place 1) (Use (i32_const 16)); Assign (whole_place 1) (Use (i32_const 32))] (Some (Goto 1));
    mkBlock [] (Some Return) ]
  [TyBool; TyInt I32] 0.

(** [fn kernel(mut n: i32) { n = n / 2; ... }] *)
Definition halved_argument_body : Body := mkBody
  [ mkBlock [Assign (whole_place 1) (BinaryOp Div (copy 1) (i32_const 2))] (Some (Goto 1));
    mkBlock [] (Some Return) ]
  [TyBool; TyInt I32] 1.

(** Where compile-time evaluation goes wrong.  A local that is assigned again
    evaluates to the first value assigned while an execution reads the second;
    an argument updated from itself makes the compiler recurse without end; and
    a scalar constant of another size than four bytes is a compiler bug, not an
    error. *)
Theorem const_folding_failures :
  (∃ env, try_eval_const_i32 [] reassigned_body 2 (copy 1) = Ret (inr 16) ∧
     rtc (int_step 8 (subst_params []) no_enums reassigned_body) (0%nat, ∅) (1%nat, env) ∧
     operand_value (subst_params []) env (copy 1) = Some 32) ∧
  (∀ fuel, try_eval_const_i32 [] halved_argument_body fuel (copy 1) = Diverge) ∧
  (∀ args mir fuel s ty, si_size s ≠ 4 →
     try_eval_const_i32 args mir fuel (Constant (ConstVal (CvScalar (ScalarInt_ s)) ty)) = Panic).
Proof.
  split_and!.
  - exists (<[1%nat := 32]> {[1%nat := 16]}). split; [vm_compute; reflexivity|]. split; [|reflexivity].
    eapply rtc_l; [|reflexivity].
    eexists _, _, _. split; [reflexivity|]. split; [reflexivity|]. split; [|apply exec_goto].
    eapply (int_cons _ _ _ _ ∅ {[1%nat := 16]}).
    { split; [|done]. apply (exec_assign _ _ reassigned_body ∅ (whole_place 1) _ (Some 16)); reflexivity. }
    eapply (int_cons _ _ _ _ _ (<[1%nat := 32]> {[1%nat := 16]})); [|apply int_nil].
    split; [|done]. apply (exec_assign _ _ reassigned_body {[1%nat := 16]} (whole_place 1) _ (Some 32)); reflexivity.
  - intros fuel. assert (Hc : fold_cyclic [] halved_argument_body 1).
    { exists 1%nat. split; [done|]. apply tc_once. eexists. split; [reflexivity|]. by left. }
    unfold try_eval_const_i32. cbn [to_scalar_int copy mbind outcome_bind operand_as_local no_projection pl_projection pl_local].
    by rewrite cyclic_diverges.
  - intros args mir fuel s ty Hs. unfold try_eval_const_i32. cbn [to_scalar_int mbind outcome_bind].
    unfold SI.to_i32, SI.to_int. by rewrite to_bits_mismatch.
Qed.
