(* ===== verification/TritonScf.v ===== *)
(** * Structured control flow in the Triton backend

    [rustc_codegen_llvm/src/mlir/codegen/triton]: the emission of loops and of
    the [if]s inside them, [codegen_scf_for_loop], [codegen_scf_while_loop],
    [codegen_basic_block], [codegen_statement] and [codegen_set_discriminant]
    ([mod.rs]); [codegen_terminator], the end of [codegen_terminator_call],
    [codegen_switch_int], [codegen_switch_binary] and
    [codegen_loop_body_switch_as_scf_if] ([ops/terminator.rs]); [codegen_return]
    ([ops/triton/mod.rs]).

    The code of an assignment, of an operand and of a call are parameters: they
    are what the tensor operations and the arithmetic of the backend emit.
    Building an operation is assumed to succeed. *)
From S2P Require Import Prelude Codegen Mir Worklist TritonCfg TritonLoops TritonEmit.

(** What the emission of regions relies on beyond [MlirBuilder]: a new block or
    operation is distinct from what exists, [Block::new] has the arguments it is
    given, and the results of an operation have the types it is built with. *)
Class ScfBuilder (BlockRef Value MType Mod : Type) `{MlirBuilder BlockRef Value MType Mod} := {
  int_type : Z → MType;
  has_block : Mod → BlockRef → Prop;
  has_value : Mod → Value → Prop;
  new_block : list MType → Mod → BlockRef * Mod;
  new_results : list MType → Mod → list Value * Mod;
  append_has_block b o m b' : has_block (append_operation b o m) b' ↔ has_block m b';
  append_has_value b o m v : has_value (append_operation b o m) v ↔ has_value m v;
  add_argument_new b t m : ¬ has_value m (add_argument b t m).1;
  add_argument_has_block b t m b' : has_block (add_argument b t m).2 b' ↔ has_block m b';
  add_argument_has_value b t m v :
    has_value m v ∨ v = (add_argument b t m).1 → has_value (add_argument b t m).2 v;
  new_block_new ts m : ¬ has_block m (new_block ts m).1;
  new_block_has_block ts m b : has_block (new_block ts m).2 b ↔ has_block m b ∨ b = (new_block ts m).1;
  new_block_ops ts m b :
    block_ops (new_block ts m).2 b = if decide (b = (new_block ts m).1) then [] else block_ops m b;
  new_block_args ts m b : b ≠ (new_block ts m).1 → block_args (new_block ts m).2 b = block_args m b;
  new_block_types ts m : value_type <$> block_args (new_block ts m).2 (new_block ts m).1 = ts;
  new_block_args_new ts m v :
    v ∈ block_args (new_block ts m).2 (new_block ts m).1 → ¬ has_value m v;
  new_block_args_nodup ts m : NoDup (block_args (new_block ts m).2 (new_block ts m).1);
  new_block_has_value ts m v :
    has_value m v ∨ v ∈ block_args (new_block ts m).2 (new_block ts m).1 → has_value (new_block ts m).2 v;
  new_results_types ts m : value_type <$> (new_results ts m).1 = ts;
  new_results_new ts m v : v ∈ (new_results ts m).1 → ¬ has_value m v;
  new_results_nodup ts m : NoDup (new_results ts m).1;
  new_results_has_value ts m v :
    has_value m v ∨ v ∈ (new_results ts m).1 → has_value (new_results ts m).2 v;
  new_results_has_block ts m b : has_block (new_results ts m).2 b ↔ has_block m b;
  new_results_ops ts m b : block_ops (new_results ts m).2 b = block_ops m b;
  new_results_args ts m b : block_args (new_results ts m).2 b = block_args m b }.

Section scf.
Context {BlockRef Value MType Mod : Type} `{!EqDecision BlockRef} `{!EqDecision Value}.
Context `{!MlirBuilder BlockRef Value MType Mod} `{!ScfBuilder BlockRef Value MType Mod}.
Abbreviation State := (CodegenState Value).
Abbreviation gen := (cg (State * Mod)).
Abbreviation Blocks := (gmap BasicBlock BlockRef).

(** ** State and module *)
Definition st_get {A} (f : State → A) : gen A := cg_get (λ s, f s.1).
Definition st_modify (f : State → State) : gen unit := cg_modify (λ s, (f s.1, s.2)).
Definition append (b : BlockRef) (o : MlirOp BlockRef Value) : gen unit :=
  cg_modify (λ s, (s.1, append_operation b o s.2)).
Definition block_new (ts : list MType) : gen BlockRef := λ s,
  let '(b, m) := new_block ts s.2 in Ret (inr (b, (s.1, m))).
Definition results_new (ts : list MType) : gen (list Value) := λ s,
  let '(vs, m) := new_results ts s.2 in Ret (inr (vs, (s.1, m))).
Definition args_of (b : BlockRef) : gen (list Value) := cg_get (λ s, block_args s.2 b).

(** [*state.ssa_values.get(local).unwrap_or_else(|| panic!(..))], and the same
    for a list of locals. *)
Definition ssa_value (l : Local) : gen Value :=
  vals ← st_get ssa_values; cg_lift (unwrap (vals !! l)).
Definition ssa_insert (l : Local) (v : Value) : gen unit :=
  st_modify (λ st, with_ssa st (<[l := v]> (ssa_values st))).
(** [for (i, &local) in locals.iter().enumerate() { ssa_values.insert(local, vals[i]) }] *)
Definition ssa_insert_all (ls : list Local) (vs : list Value) : gen unit :=
  if length vs <? length ls then cg_panic
  else cg_iter (λ p : Local * Value, ssa_insert p.1 p.2) (zip ls vs).

(** An operation with one result. *)
Definition arith_constant (b : BlockRef) (n : Z) (ty : MType) : gen Value :=
  r ← results_new [ty]; v ← cg_lift (unwrap (head r));
  _ ← append b (ArithConstant n v); mret v.
Definition arith_cmpi_eq (b : BlockRef) (lhs rhs : Value) : gen Value :=
  r ← results_new [int_type 1]; v ← cg_lift (unwrap (head r));
  _ ← append b (ArithCmpi lhs rhs v); mret v.

Definition goto (basic_blocks : Blocks) (target : BasicBlock) (b : BlockRef) : gen unit := λ s,
  r ← codegen_goto basic_blocks target b s.1 s.2; Ret (inr (tt, r)).
Definition cond_br (basic_blocks : Blocks) (cmp : Value) (t o : BasicBlock) (b : BlockRef) : gen unit := λ s,
  r ← codegen_cond_br basic_blocks cmp t o b s.1 s.2; Ret (inr (tt, r)).

(** [scf::yield] of the carried locals. *)
Definition yield_locals (ls : list Local) (b : BlockRef) : gen unit :=
  vals ← cg_map ssa_value ls; append b (ScfYield vals).

Context (instantiate : Const → Const) (is_option_ty : Place → bool).
Context (codegen_assign : Place → Rvalue → BlockRef → gen unit).
Context (codegen_operand : Operand → BlockRef → gen Value).
Context (method : Operand → list Operand → Place → BlockRef → gen (option Value)).
Context (fuel : nat) (mir : Body).

(** ** Statements *)
Definition codegen_set_discriminant (place : Place) (variant_index : VariantIdx) : gen unit :=
  if is_option_ty place then
    if variant_index =? 0 then
      st_modify (λ st, with_option st (<[pl_local place := None]> (option_table st)))
    else
      inner ← ssa_value (pl_local place);
      st_modify (λ st, with_option (with_ssa st (delete (pl_local place) (ssa_values st)))
                         (<[pl_local place := Some inner]> (option_table st)))
  else cg_panic.

Definition codegen_statement (stmt : StatementKind) (b : BlockRef) : gen unit :=
  match stmt with
  | Assign place rvalue => codegen_assign place rvalue b
  | SetDiscriminant place variant_index => codegen_set_discriminant place variant_index
  | StorageLive _ | StorageDead _ => mret tt
  | Intrinsic _ => cg_panic
  | Nop | ConstEvalCounter | FakeRead _ | PlaceMention _ | AscribeUserType _ | Coverage
  | BackwardIncompatibleDropHint _ => mret tt
  end.

Definition codegen_statements (stmts : list StatementKind) (b : BlockRef) : gen unit :=
  cg_iter (λ s, codegen_statement s b) stmts.

(** ** Terminators *)
Definition codegen_return (b : BlockRef) : gen unit :=
  fields ← st_get (λ st, tuple_fields st !! RETURN_PLACE);
  ret ← st_get (λ st, ssa_values st !! RETURN_PLACE);
  append b (TtReturn (match fields with Some fs => fs | None => option_list ret end)).

Definition codegen_terminator_call (func : Operand) (args : list Operand) (destination : Place)
    (target : option BasicBlock) (b : BlockRef) (basic_blocks : Blocks) : gen unit :=
  value ← method func args destination b;
  _ ← match value with Some v => ssa_insert (pl_local destination) v | None => mret tt end;
  t ← cg_lift (unwrap target);
  goto basic_blocks t b.

Definition is_unreachable_block (bb : BasicBlock) : outcome bool :=
  k ← terminator_at mir bb; Ret (match k with Unreachable => true | _ => false end).

(** One arm of an [scf.if]: the statements and the calls of its chain, then the
    yield. *)
Definition codegen_arm_block (arm_block : BlockRef) (basic_blocks : Blocks) (bb : BasicBlock) : gen unit :=
  bb_data ← cg_lift (block_at mir bb);
  _ ← codegen_statements (statements bb_data) arm_block;
  k ← cg_lift (terminator bb_data);
  match k with
  | Call func args destination target _ =>
      codegen_terminator_call func args destination target arm_block basic_blocks
  | _ => mret tt
  end.
Definition codegen_arm (chain : list BasicBlock) (carry : list Local) (basic_blocks : Blocks) : gen BlockRef :=
  arm_block ← block_new [];
  _ ← cg_iter (codegen_arm_block arm_block basic_blocks) chain;
  _ ← yield_locals carry arm_block;
  mret arm_block.

Definition codegen_loop_body_switch_as_scf_if (cond : Value) (true_target false_target : BasicBlock)
    (b : BlockRef) (basic_blocks : Blocks) : gen unit :=
  back ← st_get loop_back_edge_bb;
  back_edge_bb ← cg_lift (unwrap back);
  body ← st_get loop_body_bbs;
  carry ← st_get loop_iter_carry_locals;
  true_chain ← cg_lift (collect_arm_chain fuel mir true_target back_edge_bb body);
  false_chain ← cg_lift (collect_arm_chain fuel mir false_target back_edge_bb body);
  carried ← cg_map ssa_value carry;
  if_results ← results_new (value_type <$> carried);
  saved_ssa ← st_get ssa_values;
  then_block ← codegen_arm true_chain carry basic_blocks;
  _ ← st_modify (λ st, with_ssa st saved_ssa);
  else_block ← codegen_arm false_chain carry basic_blocks;
  _ ← st_modify (λ st, with_ssa st saved_ssa);
  _ ← append b (ScfIf cond then_block else_block if_results);
  _ ← ssa_insert_all carry if_results;
  skipped ← st_get skip_bbs;
  let skip := list_to_set true_chain ∪ list_to_set false_chain ∪ skipped in
  _ ← st_modify (λ st, with_skip st skip);
  _ ← st_modify (λ st, with_snapshots st (delete back_edge_bb (branch_snapshots st)));
  if negb (bool_decide (back_edge_bb ∈ skipped)) && bool_decide (back_edge_bb ∈ skip)
  then yield_locals carry b else mret tt.

Definition codegen_switch_binary (discr_value : Value) (val : Z) (target_bb otherwise_bb : BasicBlock)
    (b : BlockRef) (basic_blocks : Blocks) : gen unit :=
  val_const ← arith_constant b (as_i 64 val) (value_type discr_value);
  cmp_result ← arith_cmpi_eq b discr_value val_const;
  header ← st_get loop_header_bb;
  body ← st_get loop_body_bbs;
  let in_loop h bb := (bb =? h) || bool_decide (bb ∈ body) in
  match header with
  | Some header_bb =>
      if in_loop header_bb target_bb && in_loop header_bb otherwise_bb
      then codegen_loop_body_switch_as_scf_if cmp_result target_bb otherwise_bb b basic_blocks
      else cond_br basic_blocks cmp_result target_bb otherwise_bb b
  | None => cond_br basic_blocks cmp_result target_bb otherwise_bb b
  end.

Definition codegen_switch_int (discr : Operand) (targets : SwitchTargets) (b : BlockRef)
    (basic_blocks : Blocks) : gen unit :=
  const_disc ← st_get const_disc_locals;
  match extract_switch_const instantiate discr const_disc with
  | Some const_val =>
      target ← cg_lift (match Switch.find_value const_val (Switch.iter targets) with
                        | Some bb => Ret bb | None => Switch.otherwise targets end);
      goto basic_blocks target b
  | None =>
      discr_value ← codegen_operand discr b;
      otherwise_bb ← cg_lift (Switch.otherwise targets);
      let cases := Switch.iter targets in
      _ ← st_modify (save_snapshots (vec_push cases.*2 otherwise_bb));
      match cases with
      | [] => goto basic_blocks otherwise_bb b
      | [(val, target_bb)] => codegen_switch_binary discr_value val target_bb otherwise_bb b basic_blocks
      | [(val0, target0); (_, target1)] =>
          exhaustive ← cg_lift (is_unreachable_block otherwise_bb);
          if (exhaustive : bool) then codegen_switch_binary discr_value val0 target0 target1 b basic_blocks
          else cg_panic
      | _ => cg_panic
      end
  end.

Definition codegen_terminator (k : TerminatorKind) (b : BlockRef) (basic_blocks : Blocks) : gen unit :=
  match k with
  | Return => codegen_return b
  | Goto target => goto basic_blocks target b
  | SwitchInt discr targets => codegen_switch_int discr targets b basic_blocks
  | Drop _ target _ _ => goto basic_blocks target b
  | Call func args destination target _ =>
      codegen_terminator_call func args destination target b basic_blocks
  | Assert _ _ _ target _ => goto basic_blocks target b
  | UnwindResume | UnwindTerminate | Unreachable | TailCall _ _ | Yield _ _ _ _ | CoroutineDrop
  | FalseEdge _ _ | FalseUnwind _ _ | InlineAsm _ _ _ => cg_panic
  end.

(** ** Blocks *)
Definition codegen_basic_block (basic_blocks : Blocks) (bb : BasicBlock) : gen unit :=
  bb_data ← cg_lift (block_at mir bb);
  b ← cg_lift (unwrap (basic_blocks !! bb));
  _ ← st_modify (enter_block bb);
  _ ← codegen_statements (statements bb_data) b;
  k ← cg_lift (terminator bb_data);
  codegen_terminator k b basic_blocks.

(** The map a region's code uses: every block of the loop body is its one block. *)
Definition with_body (body_bbs : list BasicBlock) (region : BlockRef) (outer : Blocks) : Blocks :=
  foldl (λ m bb, <[bb := region]> m) outer body_bbs.

Definition branch_to (outer : Blocks) (exit_bb : BasicBlock) (b : BlockRef) : gen unit :=
  exit_block ← cg_lift (unwrap (outer !! exit_bb)); append b (CfBr exit_block []).

(** ** [scf.for] *)
Definition for_bound (loop_info : RangeLoopInfo) (b : BlockRef) : gen Value :=
  match rl_bound_const loop_info, rl_bound_local loop_info with
  | Some const_val, _ => arith_constant b const_val (int_type 32)
  | None, Some bound_local => ssa_value bound_local
  | None, None => cg_panic
  end.

(** The locals that stand for the arguments of the body block. *)
Definition map_for_args (loop_info : RangeLoopInfo) (iv : Value) (args : list Value) : gen unit :=
  _ ← ssa_insert (rl_induction_local loop_info) iv;
  _ ← ssa_insert (rl_counter_local loop_info) iv;
  _ ← ssa_insert_all (rl_iter_carry_locals loop_info) args;
  match rl_next_result_local loop_info with
  | Some nrl => st_modify (λ st, with_option st (<[nrl := Some iv]> (option_table st)))
  | None => mret tt
  end.

Definition for_body_block (combined : Blocks) (bb : BasicBlock) : gen unit :=
  skipped ← st_get skip_bbs;
  if bool_decide (bb ∈ skipped) then mret tt else codegen_basic_block combined bb.

Definition codegen_scf_for_loop (loop_info : RangeLoopInfo) (init_block : BlockRef) (outer : Blocks) : gen unit :=
  let carry := rl_iter_carry_locals loop_info in
  lb ← arith_constant init_block 0 (int_type 32);
  step ← arith_constant init_block 1 (int_type 32);
  ub ← for_bound loop_info init_block;
  inits ← cg_map ssa_value carry;
  let types := value_type <$> inits in
  results ← results_new types;
  body_block ← block_new (int_type 32 :: types);
  let combined := with_body (rl_body_bbs loop_info) body_block outer in
  entry_block ← cg_lift (unwrap (combined !! rl_body_entry_bb loop_info));
  entry_args ← args_of entry_block;
  iv ← cg_lift (unwrap (head entry_args));
  _ ← map_for_args loop_info iv (tail entry_args);
  _ ← st_modify (λ st, with_loop st (Some (rl_header_bb loop_info)) carry
                         (list_to_set (rl_body_bbs loop_info)) (Some (rl_back_edge_bb loop_info)));
  _ ← cg_iter (for_body_block combined) (rl_body_bbs loop_info);
  _ ← st_modify (λ st, with_skip (with_loop st None [] ∅ None) ∅);
  _ ← append init_block (ScfFor lb ub step inits body_block results);
  _ ← ssa_insert_all carry results;
  branch_to outer (rl_exit_bb loop_info) init_block.

(** ** [scf.while] *)
(** The condition: the header's statements and its discriminant. *)
Definition codegen_before (loop_info : WhileLoopInfo) (before_block : BlockRef) : gen unit :=
  header_data ← cg_lift (block_at mir (wl_header_bb loop_info));
  _ ← codegen_statements (statements header_data) before_block;
  k ← cg_lift (terminator header_data);
  match k with
  | SwitchInt discr _ =>
      cond_val ← codegen_operand discr before_block;
      cond_args ← cg_map ssa_value (wl_iter_carry_locals loop_info);
      append before_block (ScfCondition cond_val cond_args)
  | _ => cg_panic
  end.

Definition codegen_scf_while_loop (loop_info : WhileLoopInfo) (init_block : BlockRef) (outer : Blocks) : gen unit :=
  let carry := wl_iter_carry_locals loop_info in
  init_vals ← cg_map ssa_value carry;
  let types := value_type <$> init_vals in
  results ← results_new types;
  before_block ← block_new types;
  before_args ← args_of before_block;
  _ ← ssa_insert_all carry before_args;
  _ ← codegen_before loop_info before_block;
  after_block ← block_new types;
  after_args ← args_of after_block;
  _ ← ssa_insert_all carry after_args;
  let combined := <[wl_header_bb loop_info := before_block]>
                    (with_body (wl_body_bbs loop_info) after_block outer) in
  _ ← st_modify (λ st, with_loop st (Some (wl_header_bb loop_info)) carry
                         (list_to_set (wl_body_bbs loop_info)) (loop_back_edge_bb st));
  _ ← cg_iter (codegen_basic_block combined) (wl_body_bbs loop_info);
  _ ← st_modify (λ st, with_loop st None [] ∅ (loop_back_edge_bb st));
  _ ← append init_block (ScfWhile init_vals before_block after_block results);
  _ ← ssa_insert_all carry results;
  branch_to outer (wl_exit_bb loop_info) init_block.
End scf.
