(* ===== verification/TritonFunc.v ===== *)
(** * Code generation of a function in the Triton backend

    [rustc_codegen_llvm/src/mlir/codegen/triton/mod.rs]: [codegen_function], from
    the signature to the MLIR blocks of the function.  Every analysis it calls is
    the model of the other files; type mapping belongs to the type system and is
    a parameter.

    The answer is [None] when the function is skipped, and else the blocks of the
    function's region in the order they were appended. *)
From S2P Require Import Prelude Codegen Mir Worklist TritonCfg TritonPhi TritonLoops TritonEmit TritonScf.

(** ** The blocks of the detected loops *)
Definition range_loop_region (l : RangeLoopInfo) : gset BasicBlock :=
  {[rl_header_bb l]} ∪ list_to_set (option_list (rl_switch_bb l)) ∪
  list_to_set (rl_extra_loop_region_bbs l) ∪ list_to_set (rl_body_bbs l).
Definition while_loop_region (wl : WhileLoopInfo) : gset BasicBlock :=
  {[wl_header_bb wl]} ∪ list_to_set (wl_body_bbs wl).

Definition loop_region (loop_infos : list RangeLoopInfo) : gset BasicBlock :=
  foldl (λ s l, s ∪ range_loop_region l) ∅ loop_infos.
Definition add_while_region (while_loop_infos : list WhileLoopInfo) (s : gset BasicBlock) : gset BasicBlock :=
  foldl (λ s wl, s ∪ while_loop_region wl) s while_loop_infos.

(** The first block before the header, outside every loop, that ends in a goto to
    the header. *)
Fixpoint find_init (mir : Body) (loop_region_blocks : gset BasicBlock) (header_bb : BasicBlock)
    (bbs : list BasicBlock) : outcome (option BasicBlock) :=
  match bbs with
  | [] => Ret None
  | bb :: bbs' =>
      if bool_decide (bb ∈ loop_region_blocks) || (header_bb <=? bb)
      then find_init mir loop_region_blocks header_bb bbs'
      else
        k ← terminator_at mir bb;
        match k with
        | Goto target =>
            if target =? header_bb then Ret (Some bb)
            else find_init mir loop_region_blocks header_bb bbs'
        | _ => find_init mir loop_region_blocks header_bb bbs'
        end
  end.

Definition add_init {L} (mir : Body) (loop_region_blocks : gset BasicBlock) (header : L → BasicBlock)
    (m : gmap BasicBlock L) (l : L) : outcome (gmap BasicBlock L) :=
  init ← find_init mir loop_region_blocks (header l) (seq 0 (length (basic_blocks mir)));
  Ret (match init with Some bb => <[bb := l]> m | None => m end).

(** The maps [loop_init_bb_map] and [while_loop_init_bb_map]. *)
Definition init_bb_map {L} (mir : Body) (loop_region_blocks : gset BasicBlock) (header : L → BasicBlock)
    (loops : list L) : outcome (gmap BasicBlock L) :=
  ofold (add_init mir loop_region_blocks header) ∅ loops.

(** [&[T]] *)
Definition is_slice_ref (ty : Ty) : bool := match ty with TyRef (TySlice _) => true | _ => false end.

Section func.
Context {BlockRef Value MType Mod : Type} `{!EqDecision BlockRef} `{!EqDecision Value}.
Context `{!MlirBuilder BlockRef Value MType Mod} `{!ScfBuilder BlockRef Value MType Mod} `{!HashOrder nat}.
Abbreviation State := (CodegenState Value).
Abbreviation gen := (cg (State * Mod)).
Abbreviation Blocks := (gmap BasicBlock BlockRef).

Context (map_type : Ty → MType) (to_result : MType → option MType) (is_tensor : MType → bool) (is_option : Ty → bool).
Context (instantiate : Const → Const) (is_option_place : Place → bool) (def_path : DefId → string).
Context (codegen_assign : Place → Rvalue → BlockRef → gen unit).
Context (codegen_operand : Operand → BlockRef → gen Value).
Context (method : Operand → list Operand → Place → BlockRef → gen (option Value)).
Context (generic_args : list GenericArg) (fuel rounds : nat) (mir : Body).

Definition arg_types (inputs : list Ty) : list MType :=
  map_type <$> List.filter (λ ty, negb (is_option ty)) inputs.
Definition ret_types (output : Ty) : list MType :=
  match output with
  | TyTuple elem_tys => map_type <$> elem_tys
  | _ => option_list (to_result (map_type output))
  end.

Definition argument_new (b : BlockRef) (ty : MType) : gen Value := λ s,
  let '(v, m) := add_argument b ty s.2 in Ret (inr (v, (s.1, m))).

(** The arguments of the entry block; an [Option] parameter is absent. *)
Definition entry_arg (block : BlockRef) (p : Local * Ty) : gen unit :=
  let '(local, ty) := p in
  if is_option ty then
    st_modify (λ st, with_option st (<[local := None]> (option_table st)))
  else
    value ← argument_new block (map_type ty);
    ssa_insert local value.

Definition create_block (inputs : list Ty) (basic_blocks : Blocks) (bb : BasicBlock) : gen Blocks :=
  block ← block_new [];
  _ ← (if bb =? 0 then cg_iter (entry_arg block) (zip (seq 1 (length inputs)) inputs) else mret tt);
  mret (<[bb := block]> basic_blocks).

Fixpoint create_blocks (inputs : list Ty) (loop_region_blocks : gset BasicBlock)
    (basic_blocks : Blocks) (bbs : list BasicBlock) : gen Blocks :=
  match bbs with
  | [] => mret basic_blocks
  | bb :: bbs' =>
      if bool_decide (bb ∈ loop_region_blocks)
      then create_blocks inputs loop_region_blocks basic_blocks bbs'
      else
        basic_blocks' ← create_block inputs basic_blocks bb;
        create_blocks inputs loop_region_blocks basic_blocks' bbs'
  end.

(** One block of the second loop. *)
Definition process_block (loop_region_blocks : gset BasicBlock)
    (loop_init : gmap BasicBlock RangeLoopInfo) (while_init : gmap BasicBlock WhileLoopInfo)
    (basic_blocks : Blocks) (bb : BasicBlock) : gen unit :=
  bb_data ← cg_lift (block_at mir bb);
  if bool_decide (bb ∈ loop_region_blocks) then mret tt
  else match loop_init !! bb with
  | Some l =>
      init_block ← cg_lift (unwrap (basic_blocks !! bb));
      _ ← codegen_statements is_option_place codegen_assign (statements bb_data) init_block;
      codegen_scf_for_loop instantiate is_option_place codegen_assign codegen_operand method fuel mir
        l init_block basic_blocks
  | None =>
      match while_init !! bb with
      | Some wl =>
          init_block ← cg_lift (unwrap (basic_blocks !! bb));
          _ ← codegen_statements is_option_place codegen_assign (statements bb_data) init_block;
          codegen_scf_while_loop instantiate is_option_place codegen_assign codegen_operand method fuel mir
            wl init_block basic_blocks
      | None =>
          codegen_basic_block instantiate is_option_place codegen_assign codegen_operand method fuel mir
            basic_blocks bb
      end
  end.

Definition with_const_disc (st : State) (v : gmap Local Z) : State :=
  mkState (ssa_values st) (option_table st) (tuple_fields st) (loop_header_bb st)
    (loop_iter_carry_locals st) (loop_body_bbs st) (loop_back_edge_bb st) (skip_bbs st) v
    (phi_join_locals st) (phi_block_args st) (pre_join_ssa_values st) (branch_snapshots st)
    (array_tables st).
Definition with_phi_joins (st : State) (v : gmap BasicBlock (list Local)) : State :=
  mkState (ssa_values st) (option_table st) (tuple_fields st) (loop_header_bb st)
    (loop_iter_carry_locals st) (loop_body_bbs st) (loop_back_edge_bb st) (skip_bbs st)
    (const_disc_locals st) v (phi_block_args st) (pre_join_ssa_values st) (branch_snapshots st)
    (array_tables st).

(** What the analyses of the body answer. *)
Record Analyses := mkAnalyses {
  an_const_disc : gmap Local Z;
  an_reachable : gset BasicBlock;
  an_bfs : list BasicBlock;
  an_region : gset BasicBlock;
  an_loop_init : gmap BasicBlock RangeLoopInfo;
  an_while_init : gmap BasicBlock WhileLoopInfo;
  an_phi : gmap BasicBlock (list Local) }.

Definition analyse : outcome Analyses :=
  const_disc ← compute_const_disc_locals instantiate fuel mir;
  r ← compute_reachable_blocks instantiate fuel mir const_disc;
  let '(reachable_bbs, bfs_ordered_bbs) := r in
  loop_infos ← detect_range_loop fuel generic_args mir;
  while_loop_infos ← detect_while_loop fuel mir (loop_region loop_infos);
  let loop_region_blocks := add_while_region while_loop_infos (loop_region loop_infos) in
  loop_init ← init_bb_map mir loop_region_blocks rl_header_bb loop_infos;
  while_init ← init_bb_map mir loop_region_blocks wl_header_bb while_loop_infos;
  phi ← compute_phi_join_locals fuel rounds def_path mir reachable_bbs loop_region_blocks;
  Ret (mkAnalyses const_disc reachable_bbs bfs_ordered_bbs loop_region_blocks loop_init while_init phi).

Definition codegen_body (inputs : list Ty) (an : Analyses) : gen Blocks :=
  _ ← st_modify (λ st, with_phi_joins (with_const_disc st (an_const_disc an)) (an_phi an));
  basic_blocks ← create_blocks inputs (an_region an) ∅ (an_bfs an);
  _ ← cg_iter (process_block (an_region an) (an_loop_init an) (an_while_init an) basic_blocks) (an_bfs an);
  mret basic_blocks.

Definition codegen_function (inputs : list Ty) (output : Ty)
    : Mod → outcome (MlirError + (option Blocks * (State * Mod))) := λ m,
  (if existsb is_slice_ref inputs then mret None
   else if existsb is_tensor (arg_types inputs ++ ret_types output) then mret None
   else
     an ← cg_lift analyse;
     basic_blocks ← codegen_body inputs an;
     mret (Some basic_blocks)) (new_state, m).
End func.
