(* ===== verification/TritonScfFacts.v ===== *)
(** * Structured control flow: what is appended where

    The code of a statement, operand or call only appends plain operations to
    the block it is given ([tame]); from that, the lemmas on gotos inside a loop
    body and on bodies that are a chain of blocks. *)
From S2P Require Import Prelude Codegen Mir Worklist TritonCfg TritonLoops TritonEmit TritonScf.

(** Operations with neither regions nor successors that do not end a block. *)
Definition plain_op {BlockRef Value} (o : MlirOp BlockRef Value) : bool :=
  match o with ArithConstant _ _ | ArithCmpi _ _ _ | OtherOp _ _ _ => true | _ => false end.
(** Operations that must be the last of their block. *)
Definition ends_block {BlockRef Value} (o : MlirOp BlockRef Value) : bool :=
  match o with
  | CfBr _ _ | CfCondBr _ _ _ _ _ | ScfYield _ | ScfCondition _ _ | TtReturn _ => true
  | _ => false
  end.

Section facts.
Context {BlockRef Value MType Mod : Type} `{!EqDecision BlockRef} `{!EqDecision Value}.
Context `{!MlirBuilder BlockRef Value MType Mod} `{!ScfBuilder BlockRef Value MType Mod}.
Abbreviation State := (CodegenState Value).
Abbreviation gen := (cg (State * Mod)).
Abbreviation Op := (MlirOp BlockRef Value).
Implicit Types (s : State * Mod) (b : BlockRef) (new : list Op).

(** The part of the state that only the loop emitters change. *)
Definition loop_ctx (st : State) :=
  (loop_header_bb st, loop_iter_carry_locals st, loop_body_bbs st, loop_back_edge_bb st,
   skip_bbs st, const_disc_locals st).
(** Everything but the tables of values. *)
Definition control (st : State) :=
  (loop_ctx st, phi_join_locals st, phi_block_args st, pre_join_ssa_values st, branch_snapshots st).

(** From [s] to [s'], [new] was appended to [b], and nothing to the other blocks
    of [s]. *)
Record appends b new s s' : Prop := {
  g_ops : block_ops s'.2 b = block_ops s.2 b ++ new;
  g_other b' : has_block s.2 b' → b' ≠ b → block_ops s'.2 b' = block_ops s.2 b';
  g_args b' : has_block s.2 b' → block_args s'.2 b' = block_args s.2 b';
  g_blocks b' : has_block s.2 b' → has_block s'.2 b';
  g_values v : has_value s.2 v → has_value s'.2 v }.

Lemma appends_refl b s : appends b [] s s.
Proof. split; auto using app_nil_r. Qed.

Lemma appends_same b s st : appends b [] s (st, s.2).
Proof. split; auto. simpl. by rewrite app_nil_r. Qed.

Lemma appends_trans b new1 new2 s1 s2 s3 :
  has_block s1.2 b → appends b new1 s1 s2 → appends b new2 s2 s3 → appends b (new1 ++ new2) s1 s3.
Proof.
  intros Hb H1 H2. split.
  - by rewrite (g_ops _ _ _ _ H2), (g_ops _ _ _ _ H1), app_assoc.
  - intros b' Hb' Hne. rewrite (g_other _ _ _ _ H2), (g_other _ _ _ _ H1); auto. by eapply g_blocks.
  - intros b' Hb'. rewrite (g_args _ _ _ _ H2), (g_args _ _ _ _ H1); auto. by eapply g_blocks.
  - intros b' Hb'. eapply g_blocks; [done|]. by eapply g_blocks.
  - intros v Hv. eapply g_values; [done|]. by eapply g_values.
Qed.

Lemma appends_append b o s : appends b [o] s (s.1, append_operation b o s.2).
Proof.
  split; simpl; intros.
  - by rewrite append_operation_ops, decide_True.
  - by rewrite append_operation_ops, decide_False.
  - apply append_operation_args.
  - by apply append_has_block.
  - by apply append_has_value.
Qed.

Lemma appends_results b ts s : appends b [] s (s.1, (new_results ts s.2).2).
Proof.
  split; simpl; intros.
  - by rewrite new_results_ops, app_nil_r.
  - apply new_results_ops.
  - apply new_results_args.
  - by apply new_results_has_block.
  - apply new_results_has_value. by left.
Qed.

Lemma appends_block b ts s : has_block s.2 b → appends b [] s (s.1, (new_block ts s.2).2).
Proof.
  intros Hb. assert (Hne : ∀ b', has_block s.2 b' → b' ≠ (new_block ts s.2).1).
  { intros b' Hb' ->. by apply (new_block_new ts s.2). }
  split; simpl; intros.
  - by rewrite new_block_ops, app_nil_r, decide_False by auto.
  - by rewrite new_block_ops, decide_False by auto.
  - by apply new_block_args, Hne.
  - apply new_block_has_block. by left.
  - apply new_block_has_value. by left.
Qed.

(** A computation that appends plain operations to [b] and leaves control alone. *)
Definition tame_run b s s' : Prop :=
  ∃ new, appends b new s s' ∧ forallb plain_op new = true ∧ control s'.1 = control s.1.
Definition tame {A} (c : gen A) b : Prop := ∀ s a s', has_block s.2 b → runs c s a s' → tame_run b s s'.

Lemma tame_run_refl b s : tame_run b s s.
Proof. exists []. split_and!; [apply appends_refl|done..]. Qed.

Lemma tame_run_trans b s1 s2 s3 :
  has_block s1.2 b → tame_run b s1 s2 → tame_run b s2 s3 → tame_run b s1 s3.
Proof.
  intros Hb (n1 & H1 & Hp1 & Hc1) (n2 & H2 & Hp2 & Hc2). exists (n1 ++ n2). split_and!.
  - by eapply appends_trans.
  - by rewrite forallb_app, Hp1, Hp2.
  - congruence.
Qed.

Lemma tame_run_block b s s' b' : tame_run b s s' → has_block s.2 b' → has_block s'.2 b'.
Proof. intros (? & H & _). by apply (g_blocks _ _ _ _ H). Qed.

Lemma tame_bind {A B} (c : gen A) (f : A → gen B) b :
  tame c b → (∀ a, tame (f a) b) → tame (c ≫= f) b.
Proof.
  intros Hc Hf s a s' Hb (x & s1 & H1 & H2)%runs_bind.
  pose proof (Hc _ _ _ Hb H1) as Ht. eapply tame_run_trans; [done..|].
  eapply Hf; [|done]. by eapply tame_run_block.
Qed.
Lemma tame_ret {A} (x : A) b : tame (mret x) b.
Proof. intros s a s' _ [_ ->]%runs_ret. apply tame_run_refl. Qed.
Lemma tame_lift {A} (o : outcome A) b : tame (cg_lift o) b.
Proof. intros s a s' _ [_ ->]%runs_lift. apply tame_run_refl. Qed.
Lemma tame_get {A} (f : State * Mod → A) b : tame (cg_get f) b.
Proof. intros s a s' _ [_ ->]%runs_get. apply tame_run_refl. Qed.
Lemma tame_panic {A} b : tame (cg_panic : gen A) b.
Proof. intros s a s' _ []%runs_panic. Qed.
Lemma tame_modify (f : State → State) b :
  (∀ st, control (f st) = control st) → tame (st_modify f) b.
Proof.
  intros Hf s a s' _ ->%runs_modify. exists []. split_and!; [apply appends_same|done|apply Hf].
Qed.
Lemma tame_iter {A} (f : A → gen unit) l b : (∀ a, tame (f a) b) → tame (cg_iter f l) b.
Proof. intros Hf. induction l; simpl; [apply tame_ret|]. by apply tame_bind. Qed.
Lemma tame_map {A B} (f : A → gen B) l b : (∀ a, tame (f a) b) → tame (cg_map f l) b.
Proof.
  intros Hf. induction l; simpl; [apply tame_ret|]. apply tame_bind; [done|]. intros.
  apply tame_bind; [done|]. intros. apply tame_ret.
Qed.
Lemma tame_results ts b : tame (results_new ts) b.
Proof.
  intros s a s' _ H. unfold runs, results_new in H. pose proof (appends_results b ts s) as Hg.
  destruct (new_results ts s.2) as [vs m]. injection H as <- <-.
  exists []. by split_and!.
Qed.
Lemma tame_append b o : plain_op o = true → tame (append b o) b.
Proof.
  intros Ho s a s' _ ->%runs_modify. exists [o]. split_and!; [apply appends_append| |done].
  simpl. by rewrite Ho.
Qed.
Lemma tame_ssa_insert l v b : tame (ssa_insert l v) b.
Proof. by apply tame_modify. Qed.
Lemma tame_ssa_insert_all ls vs b : tame (ssa_insert_all ls vs) b.
Proof.
  unfold ssa_insert_all. destruct (_ <? _); [apply tame_panic|].
  apply tame_iter. intros. apply tame_ssa_insert.
Qed.
Lemma tame_ssa_value l b : tame (ssa_value l) b.
Proof. apply tame_bind; [apply tame_get|]. intros. apply tame_lift. Qed.
End facts.

Create HintDb tame.
#[export] Hint Resolve tame_bind tame_ret tame_lift tame_get tame_panic tame_modify tame_iter tame_map
  tame_results tame_append tame_ssa_insert tame_ssa_insert_all tame_ssa_value : tame.

(** ** Loop bodies that are a chain of blocks

    When every block of a loop body has one successor, the body's code is that of
    its blocks one after the other, followed by the yield of the carried locals
    at the back edge. *)
(** The only successor that code generation follows. *)
Definition straight_target (k : TerminatorKind) : option BasicBlock :=
  match k with
  | Goto t | Drop _ t _ _ | Assert _ _ _ t _ | Call _ _ _ (Some t) _ => Some t
  | _ => None
  end.
Definition straight_at (mir : Body) (bb : BasicBlock) : option BasicBlock :=
  match terminator_at mir bb with Ret k => straight_target k | _ => None end.

(** [bbs] are consecutive, and the last one goes to [header]. *)
Fixpoint is_chain (mir : Body) (header : BasicBlock) (bbs : list BasicBlock) : bool :=
  match bbs with
  | [] => false
  | [bb] => bool_decide (straight_at mir bb = Some header)
  | bb :: (bb' :: _) as l =>
      bool_decide (straight_at mir bb = Some bb') && negb (bb' =? header) && is_chain mir header l
  end.

Section chain.
Context {BlockRef Value MType Mod : Type} `{!EqDecision BlockRef} `{!EqDecision Value}.
Context `{!MlirBuilder BlockRef Value MType Mod} `{!ScfBuilder BlockRef Value MType Mod}.
Abbreviation State := (CodegenState Value).
Abbreviation gen := (cg (State * Mod)).
Abbreviation Blocks := (gmap BasicBlock BlockRef).
Implicit Types (s : State * Mod) (b : BlockRef) (t bb : BasicBlock).

Lemma runs_ssa_value l s v s' : runs (ssa_value l) s v s' ↔ ssa_values s.1 !! l = Some v ∧ s' = s.
Proof.
  unfold ssa_value, st_get. rewrite runs_bind. split.
  - intros (a & s1 & [-> ->]%runs_get & [H ->]%runs_lift). by destruct (ssa_values s.1 !! l); simplify_eq/=.
  - intros [H ->]. exists (ssa_values s.1), s. split; [by apply runs_get|]. apply runs_lift. by rewrite H.
Qed.

Lemma runs_ssa_values ls s vs s' : runs (cg_map ssa_value ls) s vs s' ↔
  Forall2 (λ l v, ssa_values s.1 !! l = Some v) ls vs ∧ s' = s.
Proof.
  revert vs s'. induction ls as [|l ls IH]; intros vs s'; simpl.
  - rewrite runs_ret. split; [intros [-> ->]; by split; [constructor|]|]. by intros [->%Forall2_nil_inv_l ->].
  - rewrite runs_bind. split.
    + intros (v & s1 & [Hv ->]%runs_ssa_value & (vs' & s2 & [Hvs ->]%IH & [-> ->]%runs_ret)%runs_bind).
      split; [by constructor|done].
    + intros [H ->]. inversion H as [|? v ? vs' Hv Hvs]; subst.
      exists v, s. rewrite runs_ssa_value, runs_bind. split; [done|].
      exists vs', s. by rewrite IH, runs_ret.
Qed.

(** The table after [ssa_insert_all]. *)
Definition insert_all (ls : list Local) (vs : list Value) (m : gmap Local Value) : gmap Local Value :=
  foldl (λ m p, <[p.1 := p.2]> m) m (zip ls vs).

Lemma runs_ssa_insert_all ls vs s s' : runs (ssa_insert_all ls vs) s tt s' ↔
  length ls ≤ length vs ∧ s' = (with_ssa s.1 (insert_all ls vs (ssa_values s.1)), s.2).
Proof.
  unfold ssa_insert_all, insert_all. destruct (Nat.ltb_spec (length vs) (length ls)).
  { rewrite runs_panic. split; [done|]. lia. }
  assert (Hiter : ∀ (ps : list (Local * Value)) s,
    runs (cg_iter (λ p : Local * Value, ssa_insert p.1 p.2) ps) s tt s' ↔
    s' = (with_ssa s.1 (foldl (λ m p, <[p.1:=p.2]> m) (ssa_values s.1) ps), s.2)).
  { clear. induction ps as [|p ps IH]; intros s.
    - rewrite runs_iter_nil. by destruct s as [[] ?].
    - rewrite runs_iter_cons. split.
      + by intros (s1 & ->%runs_modify & ->%IH).
      + intros ->. eexists. split; [by apply runs_modify|]. by apply IH. }
  rewrite Hiter. split; [intros ->; split; [lia|done]|by intros [_ ->]].
Qed.

Lemma insert_all_notin ls vs m l : l ∉ ls → insert_all ls vs m !! l = m !! l.
Proof.
  unfold insert_all. revert vs m. induction ls as [|x ls IH]; intros [|v vs] m Hl; simpl; try done.
  rewrite IH by set_solver. apply lookup_insert_ne. set_solver.
Qed.

Lemma insert_all_in ls vs m : NoDup ls → length ls = length vs →
  Forall2 (λ l v, insert_all ls vs m !! l = Some v) ls vs.
Proof.
  revert vs m. induction ls as [|l ls IH]; intros [|v vs] m Hnd Hlen; try done.
  apply NoDup_cons in Hnd as [Hl Hnd]. constructor.
  - unfold insert_all. simpl. pose proof (insert_all_notin ls vs (<[l:=v]> m) l Hl) as H.
    unfold insert_all in H. by rewrite H, ?lookup_insert_eq.
  - apply (IH vs (<[l:=v]> m)); [done|by injection Hlen].
Qed.

(** ** Gotos inside a loop body *)
Lemma runs_goto_body basic_blocks t b s h s' :
  loop_header_bb s.1 = Some h → t ≠ h → t ∈ loop_body_bbs s.1 →
  runs (goto basic_blocks t b) s tt s' → s' = s.
Proof.
  unfold runs, goto, codegen_goto. intros -> Hne Ht. rewrite (proj2 (Nat.eqb_neq _ _) Hne).
  rewrite bool_decide_true by done. simpl. intros [= <-]. by destruct s.
Qed.

Lemma omapM_forall2 {A B} (f : A → option B) (l : list A) (ys : list B) :
  omapM (λ x, unwrap (f x)) l = Ret ys → Forall2 (λ x y, f x = Some y) l ys.
Proof.
  revert ys. induction l as [|x l IH]; intros ys; simpl; [intros [= <-]; constructor|].
  destruct (f x) eqn:E; simpl; [|done]. destruct (omapM _ l); simpl; try done.
  intros [= <-]. constructor; auto.
Qed.

Lemma runs_goto_header basic_blocks b s h s' :
  loop_header_bb s.1 = Some h → runs (goto basic_blocks h b) s tt s' →
  runs (yield_locals (loop_iter_carry_locals s.1) b) s tt s'.
Proof.
  unfold runs at 1, goto, codegen_goto. intros ->. rewrite Nat.eqb_refl.
  destruct (omapM _ _) as [vals| |] eqn:E; simpl; try done. intros [= <-].
  apply runs_bind. exists vals, s. split; [|by apply runs_modify].
  apply runs_ssa_values. split; [|done]. by apply omapM_forall2.
Qed.

Context (instantiate : Const → Const) (is_option_ty : Place → bool).
Context (codegen_assign : Place → Rvalue → BlockRef → gen unit).
Context (codegen_operand : Operand → BlockRef → gen Value).
Context (method : Operand → list Operand → Place → BlockRef → gen (option Value)).
Context (fuel : nat) (mir : Body).
Abbreviation statements_code := (codegen_statements is_option_ty codegen_assign).
Abbreviation terminator_code := (codegen_terminator instantiate codegen_operand).
Abbreviation block_code :=
  (codegen_basic_block instantiate is_option_ty codegen_assign codegen_operand method fuel mir).

(** The code of a terminator with one successor, before the jump. *)
Definition straight_pre (k : TerminatorKind) (b : BlockRef) : gen unit :=
  match k with
  | Call func args destination _ _ =>
      value ← method func args destination b;
      match value with Some v => ssa_insert (pl_local destination) v | None => mret tt end
  | _ => mret tt
  end.
(** A block of a chain without its jump. *)
Definition straight_block (b : BlockRef) (bb : BasicBlock) : gen unit :=
  bb_data ← cg_lift (block_at mir bb);
  _ ← st_modify (enter_block bb);
  _ ← statements_code (statements bb_data) b;
  k ← cg_lift (terminator bb_data);
  straight_pre k b.

Lemma straight_block_code basic_blocks bb b t s s' :
  basic_blocks !! bb = Some b → straight_at mir bb = Some t →
  runs (block_code basic_blocks bb) s tt s' →
  ∃ s1, runs (straight_block b bb) s tt s1 ∧ runs (goto basic_blocks t b) s1 tt s'.
Proof.
  intros Hb Ht. unfold codegen_basic_block, straight_block, straight_at, terminator_at in *.
  intros (d & sa & [Hd ->]%runs_lift & (b' & sb & [Hb' ->]%runs_lift & H)%runs_bind)%runs_bind.
  rewrite Hb in Hb'. injection Hb' as <-. rewrite Hd in Ht. simpl in Ht.
  apply runs_bind in H as ([] & s1 & H1 & ([] & s2 & H2 & (k & s3 & [Hk ->]%runs_lift & H)%runs_bind)%runs_bind).
  rewrite Hk in Ht.
  cut (∃ s3, runs (straight_pre k b) s2 tt s3 ∧ runs (goto basic_blocks t b) s3 tt s').
  { intros (s3 & H3 & Hg). exists s3. split; [|done].
    apply runs_bind. exists d, s. split; [by apply runs_lift|].
    apply runs_bind. exists tt, s1. split; [done|].
    apply runs_bind. exists tt, s2. split; [done|].
    apply runs_bind. exists k, s2. split; [by apply runs_lift|done]. }
  destruct k as [ | | | | | | |f args dest [t'|] u| | | | | | | ]; simplify_eq/=;
    try (exists s2; split; [by apply runs_ret|done]).
  apply runs_bind in H as (v & s3 & H3 & ([] & s4 & H4 & (t' & ? & [Ht ->]%runs_lift & H)%runs_bind)%runs_bind).
  injection Ht as <-. exists s4. split; [|done]. apply runs_bind. eauto.
Qed.

(** A chain is its blocks and then the yield. *)
Lemma chain_code (f : BasicBlock → gen unit) basic_blocks b h bbs : ∀ s s',
  is_chain mir h bbs = true → loop_header_bb s.1 = Some h →
  (∀ bb, bb ∈ bbs → basic_blocks !! bb = Some b ∧ bb ∈ loop_body_bbs s.1) →
  (∀ bb s1 s2, bb ∈ bbs → loop_ctx s1.1 = loop_ctx s.1 → runs (f bb) s1 tt s2 →
     runs (block_code basic_blocks bb) s1 tt s2) →
  (∀ bb s1 s2, bb ∈ bbs → runs (straight_block b bb) s1 tt s2 → has_block s1.2 b →
     loop_ctx s2.1 = loop_ctx s1.1 ∧ has_block s2.2 b) →
  has_block s.2 b → runs (cg_iter f bbs) s tt s' →
  ∃ s1, runs (cg_iter (straight_block b) bbs) s tt s1 ∧ loop_ctx s1.1 = loop_ctx s.1 ∧
    has_block s1.2 b ∧ runs (yield_locals (loop_iter_carry_locals s.1) b) s1 tt s'.
Proof.
  induction bbs as [|bb bbs IH]; intros s s' Hch Hh Hbbs Hf Hst Hb; [done|].
  intros (s1 & H1 & H2)%runs_iter_cons. apply Hf in H1; [|by left|done].
  destruct (Hbbs bb) as [Hbb _]; [by left|].
  assert (Hctx : ∀ (st st' : State), loop_ctx st = loop_ctx st' → loop_header_bb st = loop_header_bb st' ∧
    loop_body_bbs st = loop_body_bbs st' ∧ loop_iter_carry_locals st = loop_iter_carry_locals st').
  { unfold loop_ctx. intros ??. naive_solver. }
  assert (∃ t, straight_at mir bb = Some t ∧ match bbs with [] => t = h | bb' :: _ => t = bb' ∧ bb' ≠ h ∧
    is_chain mir h bbs = true end) as (t & Ht & Htt).
  { destruct bbs as [|bb' bbs]; simpl in Hch; [by exists h; apply bool_decide_eq_true in Hch|].
    exists bb'. rewrite !andb_true_iff, negb_true_iff, Nat.eqb_neq in Hch.
    destruct Hch as [[Ht%bool_decide_eq_true ?] ?]. done. }
  destruct (straight_block_code _ _ _ _ _ _ Hbb Ht H1) as (s0 & Hs0 & Hg).
  destruct (Hst bb _ _ ltac:(by left) Hs0 Hb) as [Hc0 Hb0].
  destruct (Hctx _ _ Hc0) as (Eh & Ebody & Ecarry). destruct bbs as [|bb' bbs].
  - subst t. apply runs_iter_nil in H2 as ->. exists s0. split_and!; [|done..|].
    + apply runs_iter_cons. exists s0. split; [done|]. by apply runs_iter_nil.
    + rewrite <-Ecarry. eapply runs_goto_header; [|done]. congruence.
  - destruct Htt as (-> & Hne & Hch'). destruct (Hbbs bb') as [_ Hin]; [set_solver|].
    assert (s1 = s0) as -> by (eapply (runs_goto_body _ bb'); [|done| |done]; congruence).
    destruct (IH s0 s') as (s2 & H3 & Hc2 & Hb2 & Hy); try done.
    + congruence.
    + intros x Hx. rewrite Ebody. apply Hbbs. by right.
    + intros x ?? Hx ?. apply Hf; [by right|congruence].
    + intros x ?? Hx. apply Hst. by right.
    + exists s2. split_and!; [|congruence|done|by rewrite <-Ecarry].
      apply runs_iter_cons. eauto.
Qed.
End chain.
