(* ===== verification/TritonForFacts.v ===== *)
(** * Emission of [scf.for] *)
From S2P Require Import Prelude Codegen Mir Worklist TritonCfg TritonLoops TritonEmit TritonScf TritonScfFacts.

Section for_facts.
Context {BlockRef Value MType Mod : Type} `{!EqDecision BlockRef} `{!EqDecision Value}.
Context `{!MlirBuilder BlockRef Value MType Mod} `{!ScfBuilder BlockRef Value MType Mod}.
Abbreviation State := (CodegenState Value).
Abbreviation gen := (cg (State * Mod)).
Abbreviation Blocks := (gmap BasicBlock BlockRef).
Abbreviation Op := (MlirOp BlockRef Value).
Implicit Types (s : State * Mod) (b : BlockRef) (t bb : BasicBlock) (new : list Op).

(** Only [b] appends, and the loop context stays. *)
Definition ctx_run b new s s' : Prop := appends b new s s' ∧ loop_ctx s'.1 = loop_ctx s.1.

Lemma ctx_run_refl b s : ctx_run b [] s s.
Proof. split; [apply appends_refl|done]. Qed.
Lemma ctx_run_trans b n1 n2 s1 s2 s3 :
  has_block s1.2 b → ctx_run b n1 s1 s2 → ctx_run b n2 s2 s3 → ctx_run b (n1 ++ n2) s1 s3.
Proof. intros Hb [] []. split; [by eapply appends_trans|congruence]. Qed.
Lemma control_ctx (st st' : State) : control st = control st' → loop_ctx st = loop_ctx st'.
Proof. unfold control. congruence. Qed.
Lemma tame_ctx b s s' : tame_run b s s' → ∃ new, ctx_run b new s s' ∧ forallb plain_op new = true.
Proof. intros (new & ? & ? & ?%control_ctx). exists new. by split. Qed.

(** ** Single operations *)
Lemma results_one (ts : MType) (m : Mod) :
  ∃ v, (new_results [ts] m).1 = [v] ∧ value_type v = ts ∧ ¬ has_value m v.
Proof.
  pose proof (new_results_types [ts] m) as H. pose proof (new_results_new [ts] m) as Hn.
  destruct ((new_results [ts] m).1) as [|v [|]]; simpl in H; simplify_eq. exists v.
  split_and!; [done..|]. apply Hn. by left.
Qed.

Lemma runs_constant b n ty s v s' :
  runs (arith_constant b n ty) s v s' → has_block s.2 b →
  ctx_run b [ArithConstant n v] s s' ∧ s'.1 = s.1 ∧ value_type v = ty ∧ ¬ has_value s.2 v ∧ has_value s'.2 v.
Proof.
  unfold arith_constant. intros (r & s1 & Hr & (x & s2 & [Hx ->]%runs_lift & ([] & s3 & ->%runs_modify & [<- ->]%runs_ret)%runs_bind)%runs_bind)%runs_bind Hb.
  unfold runs, results_new in Hr. pose proof (appends_results b [ty] s) as Hg.
  destruct (results_one ty s.2) as (w & Ew & Hty & Hnew).
  pose proof (new_results_has_value [ty] s.2 w) as Hhas. rewrite Ew in Hhas.
  destruct (new_results [ty] s.2) as [vs m1]. injection Hr as <- <-. simpl in *. subst vs.
  simpl in Hx. injection Hx as ->. simpl. split_and!; [|done..|].
  - split; [|done]. change [ArithConstant n v] with ([] ++ [ArithConstant n v] : list Op).
    eapply appends_trans; [done|exact Hg|]. apply (appends_append b _ (s.1, m1)).
  - apply append_has_value, Hhas. right. by left.
Qed.

Lemma ctx_ssa_values ls b s vs s' :
  runs (cg_map ssa_value ls) s vs s' → s' = s ∧ Forall2 (λ l v, ssa_values s.1 !! l = Some v) ls vs.
Proof. by intros [? ->]%runs_ssa_values. Qed.

(** ** New blocks and results *)
Record fresh_block (ts : list MType) (m : Mod) b (m' : Mod) : Prop := {
  nb_types : value_type <$> block_args m' b = ts;
  nb_nodup : NoDup (block_args m' b);
  nb_args v : v ∈ block_args m' b → has_value m' v ∧ ¬ has_value m v;
  nb_values v : has_value m v → has_value m' v;
  nb_block : has_block m' b;
  nb_ops : block_ops m' b = [];
  nb_old x : has_block m x → x ≠ b ∧ has_block m' x ∧ block_ops m' x = block_ops m x ∧ block_args m' x = block_args m x }.
Lemma block_fresh ts m : fresh_block ts m (new_block ts m).1 (new_block ts m).2.
Proof.
  assert (Hne : ∀ x, has_block m x → x ≠ (new_block ts m).1) by (intros x Hx ->; by apply (new_block_new ts m)).
  split; [apply new_block_types|apply new_block_args_nodup|..].
  - intros v Hv. split; [apply new_block_has_value; by right|by apply (new_block_args_new ts m)].
  - intros v Hv. apply new_block_has_value. by left.
  - apply new_block_has_block. by right.
  - by rewrite new_block_ops, decide_True.
  - intros x Hx. specialize (Hne x Hx). rewrite new_block_ops, decide_False, new_block_args by done.
    split_and!; try done. apply new_block_has_block. by left.
Qed.

Record fresh_results (ts : list MType) (m : Mod) (rs : list Value) (m' : Mod) : Prop := {
  nr_types : value_type <$> rs = ts;
  nr_nodup : NoDup rs;
  nr_results v : v ∈ rs → has_value m' v ∧ ¬ has_value m v;
  nr_values v : has_value m v → has_value m' v;
  nr_blocks x : has_block m' x ↔ has_block m x;
  nr_ops x : block_ops m' x = block_ops m x;
  nr_args x : block_args m' x = block_args m x }.
Lemma results_fresh ts m : fresh_results ts m (new_results ts m).1 (new_results ts m).2.
Proof.
  split; [apply new_results_types|apply new_results_nodup| | |apply new_results_has_block|apply new_results_ops|apply new_results_args].
  - intros v Hv. split; [apply new_results_has_value; by right|by apply (new_results_new ts m)].
  - intros v Hv. apply new_results_has_value. by left.
Qed.

(** ** The body map *)
Lemma with_body_lookup body r (outer : Blocks) bb : bb ∈ body → with_body body r outer !! bb = Some r.
Proof.
  unfold with_body. revert outer. induction body as [|x body IH] using rev_ind; intros outer Hin; [set_solver|].
  rewrite foldl_app. simpl. destruct (decide (bb = x)) as [->|Hne]; [apply lookup_insert_eq|].
  rewrite lookup_insert_ne by done. apply IH. set_solver.
Qed.
Lemma with_body_outside body r (outer : Blocks) bb : bb ∉ body → with_body body r outer !! bb = outer !! bb.
Proof.
  unfold with_body. revert outer. induction body as [|x body IH] using rev_ind; intros outer Hin; [done|].
  rewrite foldl_app. simpl. rewrite lookup_insert_ne by set_solver. apply IH. set_solver.
Qed.
(** ** The code of blocks *)
Context (instantiate : Const → Const) (is_option_ty : Place → bool).
Context (codegen_assign : Place → Rvalue → BlockRef → gen unit).
Context (codegen_operand : Operand → BlockRef → gen Value).
Context (method : Operand → list Operand → Place → BlockRef → gen (option Value)).
Context (fuel : nat) (mir : Body).

(** The code of assignments, operands and calls only appends plain operations. *)
Record tame_handlers : Prop := {
  tame_assign p rv b : tame (codegen_assign p rv b) b;
  tame_operand op b : tame (codegen_operand op b) b;
  tame_method f args dest b : tame (method f args dest b) b }.
Context (Htame : tame_handlers).

Lemma tame_statement stmt b : tame (codegen_statement is_option_ty codegen_assign stmt b) b.
Proof.
  destruct stmt as [p rv| |p vi| | | | | | | | | ]; simpl; eauto with tame.
  - apply (tame_assign Htame).
  - unfold codegen_set_discriminant. destruct (is_option_ty p); [|apply tame_panic].
    destruct (vi =? 0); [by apply tame_modify|]. apply tame_bind; [apply tame_ssa_value|].
    intros. by apply tame_modify.
Qed.

Lemma tame_statements stmts b : tame (codegen_statements is_option_ty codegen_assign stmts b) b.
Proof. apply tame_iter. intros. apply tame_statement. Qed.

Lemma tame_straight_pre k b : tame (straight_pre method k b) b.
Proof.
  destruct k; simpl; auto with tame. apply tame_bind; [apply (tame_method Htame)|].
  intros [v|]; auto with tame.
Qed.

Lemma enter_block_ctx bb (st : State) : loop_ctx (enter_block bb st) = loop_ctx st.
Proof.
  assert (Hphi : ∀ ls (st : State), loop_ctx (foldl (enter_phi bb) st ls) = loop_ctx st).
  { induction ls as [|l ls IH]; intros st0; simpl; [done|]. rewrite IH. unfold enter_phi.
    by repeat case_match. }
  unfold enter_block, restore_snapshot.
  destruct (branch_snapshots st !! bb); destruct (phi_join_locals _ !! bb); rewrite ?Hphi; done.
Qed.

Abbreviation block_pre := (straight_block is_option_ty codegen_assign method mir).

Lemma straight_block_ctx b bb s s' :
  runs (block_pre b bb) s tt s' → has_block s.2 b →
  ∃ new, ctx_run b new s s' ∧ forallb plain_op new = true.
Proof.
  unfold straight_block.
  intros (d & s1 & [_ ->]%runs_lift & ([] & s2 & ->%runs_modify & H)%runs_bind)%runs_bind Hb.
  set (s2 := (enter_block bb s.1, s.2)) in *.
  assert (Htail : tame_run b s2 s').
  { eapply (tame_bind _ _ b); [apply tame_statements| |exact Hb|exact H]. intros ?.
    apply tame_bind; [apply tame_lift|]. intros. apply tame_straight_pre. }
  destruct (tame_ctx _ _ _ Htail) as (new & Hrun & Hp). exists new. split; [|done].
  apply (ctx_run_trans b [] new s s2); [done| |done].
  split; [apply appends_same|apply enter_block_ctx].
Qed.

Lemma straight_blocks_ctx b bbs : ∀ s s',
  runs (cg_iter (block_pre b) bbs) s tt s' → has_block s.2 b →
  ∃ new, ctx_run b new s s' ∧ forallb plain_op new = true.
Proof.
  induction bbs as [|bb bbs IH]; intros s s'.
  { intros ->%runs_iter_nil _. exists []. split; [apply ctx_run_refl|done]. }
  intros (s1 & H1 & H2)%runs_iter_cons Hb.
  destruct (straight_block_ctx _ _ _ _ H1 Hb) as (n1 & Hr1 & Hp1).
  assert (Hb1 : has_block s1.2 b) by by apply (g_blocks _ _ _ _ (proj1 Hr1)).
  destruct (IH _ _ H2 Hb1) as (n2 & Hr2 & Hp2). exists (n1 ++ n2). split.
  - by eapply ctx_run_trans.
  - by rewrite forallb_app, Hp1, Hp2.
Qed.

(** ** The stages of [codegen_scf_for_loop] *)
Definition for_entry (l : RangeLoopInfo) (iv : Value) (args : list Value) (st : State) : State :=
  with_loop
    (let st := with_ssa st (insert_all (rl_iter_carry_locals l) args
                 (<[rl_counter_local l := iv]> (<[rl_induction_local l := iv]> (ssa_values st)))) in
     match rl_next_result_local l with
     | Some nrl => with_option st (<[nrl := Some iv]> (option_table st))
     | None => st
     end)
    (Some (rl_header_bb l)) (rl_iter_carry_locals l) (list_to_set (rl_body_bbs l)) (Some (rl_back_edge_bb l)).
Definition leave_loop (st : State) : State := with_skip (with_loop st None [] ∅ None) ∅.

Lemma runs_block_new ts s b s' :
  runs (block_new ts) s b s' → b = (new_block ts s.2).1 ∧ s' = (s.1, (new_block ts s.2).2).
Proof. unfold runs, block_new. destruct (new_block ts s.2). naive_solver. Qed.
Lemma runs_results_new ts s vs s' :
  runs (results_new ts) s vs s' → vs = (new_results ts s.2).1 ∧ s' = (s.1, (new_results ts s.2).2).
Proof. unfold runs, results_new. destruct (new_results ts s.2). naive_solver. Qed.

Lemma runs_map_for_args l iv args s s' :
  runs (map_for_args l iv args) s tt s' →
  s' = (match rl_next_result_local l with
        | Some nrl => with_option (with_ssa s.1 (insert_all (rl_iter_carry_locals l) args
            (<[rl_counter_local l := iv]> (<[rl_induction_local l := iv]> (ssa_values s.1)))))
              (<[nrl := Some iv]> (option_table s.1))
        | None => with_ssa s.1 (insert_all (rl_iter_carry_locals l) args
            (<[rl_counter_local l := iv]> (<[rl_induction_local l := iv]> (ssa_values s.1))))
        end, s.2).
Proof.
  unfold map_for_args.
  intros ([] & s1 & ->%runs_modify & ([] & s2 & ->%runs_modify & ([] & s3 & [_ ->]%runs_ssa_insert_all & H)%runs_bind)%runs_bind)%runs_bind.
  destruct (rl_next_result_local l); [by apply runs_modify in H as ->|by apply runs_ret in H as [_ ->]].
Qed.

(** The operations before the loop: its bounds. *)
Definition bound_ops (l : RangeLoopInfo) (lb step ub : Value) : list Op :=
  [ArithConstant 0 lb; ArithConstant 1 step] ++
  match rl_bound_const l with Some n => [ArithConstant n ub] | None => [] end.
Definition bound_is (l : RangeLoopInfo) (st : State) (ub : Value) : Prop :=
  match rl_bound_const l with
  | Some _ => True
  | None => ∃ x, rl_bound_local l = Some x ∧ ssa_values st !! x = Some ub
  end.

(** The values of the constants are new and distinct. *)
Definition bounds_new (l : RangeLoopInfo) (lb step ub : Value) (m : Mod) : Prop :=
  let vs := [lb; step] ++ match rl_bound_const l with Some _ => [ub] | None => [] end in
  NoDup vs ∧ ∀ v, v ∈ vs → ¬ has_value m v.

Lemma runs_for_bound l b s ub s' :
  runs (for_bound l b) s ub s' → has_block s.2 b →
  ctx_run b (match rl_bound_const l with Some n => [ArithConstant n ub] | None => [] end) s s' ∧
  s'.1 = s.1 ∧ bound_is l s.1 ub ∧
  match rl_bound_const l with Some _ => ¬ has_value s.2 ub | None => True end.
Proof.
  unfold for_bound, bound_is. intros H Hb. destruct (rl_bound_const l) as [n|].
  - destruct (runs_constant _ _ _ _ _ _ H Hb) as (? & ? & _ & ? & _). done.
  - destruct (rl_bound_local l) as [x|]; [|by apply runs_panic in H].
    apply runs_ssa_value in H as [Hx ->]. split_and!; [apply ctx_run_refl|done|by exists x|done].
Qed.

Abbreviation for_code :=
  (codegen_scf_for_loop instantiate is_option_ty codegen_assign codegen_operand method fuel mir).

Lemma for_loop_bounds l b s lb step ub s1 s2 s3 :
  runs (arith_constant b 0 (int_type 32)) s lb s1 → runs (arith_constant b 1 (int_type 32)) s1 step s2 →
  runs (for_bound l b) s2 ub s3 → has_block s.2 b →
  ctx_run b (bound_ops l lb step ub) s s3 ∧ s3.1 = s.1 ∧ bound_is l s.1 ub ∧
  bounds_new l lb step ub s.2 ∧ value_type lb = int_type 32 ∧ value_type step = int_type 32.
Proof.
  intros H1 H2 H3 Hb.
  destruct (runs_constant _ _ _ _ _ _ H1 Hb) as (R1 & E1 & T1 & N1 & V1).
  assert (Hb1 : has_block s1.2 b) by by apply (g_blocks _ _ _ _ (proj1 R1)).
  destruct (runs_constant _ _ _ _ _ _ H2 Hb1) as (R2 & E2 & T2 & N2 & V2).
  assert (Hb2 : has_block s2.2 b) by by apply (g_blocks _ _ _ _ (proj1 R2)).
  destruct (runs_for_bound _ _ _ _ _ H3 Hb2) as (R3 & E3 & Hbd & N3).
  pose proof (g_values _ _ _ _ (proj1 R1)) as M1. pose proof (g_values _ _ _ _ (proj1 R2)) as M2.
  rewrite E3, E2, E1 in *. split_and!; try done.
  - eapply (ctx_run_trans b [_] (_ :: _)); [done..|]. by eapply (ctx_run_trans b [_]).
  - unfold bounds_new. assert (lb ≠ step) by (intros ->; done). split.
    + destruct (rl_bound_const l); simpl; [|apply NoDup_cons_2, NoDup_singleton; set_solver].
      assert (lb ≠ ub ∧ step ≠ ub) as [] by (split; intros ->; auto).
      repeat apply NoDup_cons_2; try apply NoDup_nil_2; set_solver.
    + assert (¬ has_value s.2 step) by auto.
      destruct (rl_bound_const l); simpl; set_solver.
Qed.

Lemma for_loop_stages l b outer s s' :
  is_chain mir (rl_header_bb l) (rl_body_bbs l) = true → rl_body_entry_bb l ∈ rl_body_bbs l →
  skip_bbs s.1 = ∅ → has_block s.2 b → runs (for_code l b outer) s tt s' →
  ∃ lb step ub s1 inits vals exit_block s5,
    let results := (new_results (value_type <$> inits) s1.2).1 in
    let m2 := (new_results (value_type <$> inits) s1.2).2 in
    let body := (new_block (int_type 32 :: (value_type <$> inits)) m2).1 in
    let m3 := (new_block (int_type 32 :: (value_type <$> inits)) m2).2 in
    ctx_run b (bound_ops l lb step ub) s s1 ∧ s1.1 = s.1 ∧ bound_is l s.1 ub ∧
    bounds_new l lb step ub s.2 ∧ value_type lb = int_type 32 ∧ value_type step = int_type 32 ∧
    Forall2 (λ x v, ssa_values s.1 !! x = Some v) (rl_iter_carry_locals l) inits ∧
    (∃ iv args, block_args m3 body = iv :: args ∧
       runs (cg_iter (block_pre body) (rl_body_bbs l)) (for_entry l iv args s.1, m3) tt s5) ∧
    loop_ctx s5.1 = loop_ctx (for_entry l lb [] s.1) ∧ has_block s5.2 body ∧
    Forall2 (λ x v, ssa_values s5.1 !! x = Some v) (rl_iter_carry_locals l) vals ∧
    outer !! rl_exit_bb l = Some exit_block ∧
    s' = (with_ssa (leave_loop s5.1) (insert_all (rl_iter_carry_locals l) results (ssa_values s5.1)),
          append_operation b (CfBr exit_block [])
            (append_operation b (ScfFor lb ub step inits body results)
               (append_operation body (ScfYield vals) s5.2))).
Proof.
  intros Hch Hentry Hskip Hb. unfold codegen_scf_for_loop.
  intros (lb & sa & H1 & (step & sb & H2 & (ub & s1 & H3 & (inits & sc & [Hin ->]%runs_ssa_values & H)%runs_bind)%runs_bind)%runs_bind)%runs_bind.
  destruct (for_loop_bounds _ _ _ _ _ _ _ _ _ H1 H2 H3 Hb) as (R1 & E1 & Hbd & Hnew & Tlb & Tst). clear H1 H2 H3 sa sb.
  apply runs_bind in H as (results & s2 & [-> ->]%runs_results_new & (body & s3 & [Eb ->]%runs_block_new & H)%runs_bind).
  cbn [fst snd] in *. set (types := value_type <$> inits) in *. set (m2 := (new_results types s1.2).2) in *.
  set (m3 := (new_block (int_type 32 :: types) m2).2) in *.
  apply runs_bind in H as (eb & s4 & [He ->]%runs_lift & (ea & s5 & [-> ->]%runs_get & (iv & s6 & [Hiv ->]%runs_lift & ([] & s7 & ->%runs_map_for_args & ([] & s8 & ->%runs_modify & H)%runs_bind)%runs_bind)%runs_bind)%runs_bind).
  rewrite with_body_lookup in He by done. injection He as <-. cbn [fst snd] in *.
  assert (Hargs : block_args m3 body = iv :: tail (block_args m3 body)).
  { destruct (block_args m3 body); simpl in *; congruence. }
  apply runs_bind in H as ([] & s9 & H9 & ([] & s10 & ->%runs_modify & ([] & s11 & ->%runs_modify & ([] & s12 & [_ ->]%runs_ssa_insert_all & (ex & s13 & [Hex ->]%runs_lift & ->%runs_modify)%runs_bind)%runs_bind)%runs_bind)%runs_bind).
  set (args := tail (block_args m3 body)) in *.
  assert (Hbody : has_block m3 body).
  { unfold m3. apply new_block_has_block. by right. }
  assert (Hnb : body = (new_block (int_type 32 :: types) m2).1) by done.
  eapply (chain_code instantiate is_option_ty codegen_assign codegen_operand method fuel mir) in H9
    as (s5 & Hs5 & Hc5 & Hb5 & Hy).
  2: exact Hch. 2: done.
  2: { intros bb Hbb. split; [by apply with_body_lookup|]. by apply elem_of_list_to_set. }
  2: { intros bb sx sy Hbb Hctx. unfold for_body_block. intros (sk & ? & [-> ->]%runs_get & Hx)%runs_bind.
       rewrite bool_decide_false in Hx; [done|]. unfold loop_ctx in Hctx.
       destruct (rl_next_result_local l); simpl in Hctx; rewrite E1 in Hctx;
         assert (skip_bbs sx.1 = skip_bbs s.1) as -> by congruence; rewrite Hskip; set_solver. }
  2: { intros bb sx sy _ Hx Hbx. destruct (straight_block_ctx _ _ _ _ Hx Hbx) as (? & [Hg Hcx] & _).
       split; [done|]. by apply (g_blocks _ _ _ _ Hg). }
  2: done.
  apply runs_bind in Hy as (vals & sv & [Hv ->]%runs_ssa_values & ->%runs_modify).
  exists lb, step, ub, s1, inits, vals, ex, s5. cbn zeta. fold types m2 m3. rewrite <-Hnb.
  split_and!; try done; [by rewrite <-E1|..].
  - exists iv, args. split; [done|]. unfold for_entry. rewrite <-E1.
    by destruct (rl_next_result_local l).
  - rewrite Hc5, E1. unfold for_entry. by destruct (rl_next_result_local l).
  - by destruct (outer !! rl_exit_bb l); simplify_eq/=.
Qed.
End for_facts.

(** ** Emission of [scf.while] *)
Section while_facts.
Context {BlockRef Value MType Mod : Type} `{!EqDecision BlockRef} `{!EqDecision Value}.
Context `{!MlirBuilder BlockRef Value MType Mod} `{!ScfBuilder BlockRef Value MType Mod}.
Abbreviation State := (CodegenState Value).
Abbreviation gen := (cg (State * Mod)).
Abbreviation Blocks := (gmap BasicBlock BlockRef).
Abbreviation Op := (MlirOp BlockRef Value).
Implicit Types (s : State * Mod) (b : BlockRef) (t bb : BasicBlock) (new : list Op).

Context (instantiate : Const → Const) (is_option_ty : Place → bool).
Context (codegen_assign : Place → Rvalue → BlockRef → gen unit).
Context (codegen_operand : Operand → BlockRef → gen Value).
Context (method : Operand → list Operand → Place → BlockRef → gen (option Value)).
Context (fuel : nat) (mir : Body).
Context (Htame : tame_handlers codegen_assign codegen_operand method).
Abbreviation block_pre := (straight_block is_option_ty codegen_assign method mir).
Abbreviation statements_code := (codegen_statements is_option_ty codegen_assign).
Abbreviation while_code :=
  (codegen_scf_while_loop instantiate is_option_ty codegen_assign codegen_operand method fuel mir).

Definition carry_state (ls : list Local) (vs : list Value) (st : State) : State :=
  with_ssa st (insert_all ls vs (ssa_values st)).
Definition while_entry (wl : WhileLoopInfo) (args : list Value) (st : State) : State :=
  with_loop (carry_state (wl_iter_carry_locals wl) args st) (Some (wl_header_bb wl))
    (wl_iter_carry_locals wl) (list_to_set (wl_body_bbs wl)) (loop_back_edge_bb st).
Definition leave_while (st : State) : State := with_loop st None [] ∅ (loop_back_edge_bb st).

(** The "before" region: the header's statements, its discriminant, and the
    carried locals. *)
Lemma before_stages wl b s s' :
  has_block s.2 b →
  runs (codegen_before is_option_ty codegen_assign codegen_operand mir wl b) s tt s' →
  ∃ d discr targets cond args s1 s2,
    block_at mir (wl_header_bb wl) = Ret d ∧ terminator d = Ret (SwitchInt discr targets) ∧
    runs (statements_code (statements d) b) s tt s1 ∧ runs (codegen_operand discr b) s1 cond s2 ∧
    tame_run b s s2 ∧ Forall2 (λ x v, ssa_values s2.1 !! x = Some v) (wl_iter_carry_locals wl) args ∧
    s' = (s2.1, append_operation b (ScfCondition cond args) s2.2).
Proof.
  intros Hb. unfold codegen_before.
  intros (d & sa & [Hd ->]%runs_lift & ([] & s1 & H1 & (k & sb & [Hk ->]%runs_lift & H)%runs_bind)%runs_bind)%runs_bind.
  destruct k as [|discr targets| | | | | | | | | | | | | ]; try by apply runs_panic in H.
  apply runs_bind in H as (cond & s2 & H2 & (args & sc & [Hargs ->]%runs_ssa_values & ->%runs_modify)%runs_bind).
  pose proof (tame_statements _ _ _ _ Htame _ _ _ _ _ Hb H1) as Ht1.
  pose proof (tame_operand _ _ _ Htame discr b _ _ _ (tame_run_block _ _ _ _ Ht1 Hb) H2) as Ht2.
  exists d, discr, targets, cond, args, s1, s2. split_and!; try done. by eapply tame_run_trans.
Qed.

Lemma while_loop_stages wl b outer s s' :
  is_chain mir (wl_header_bb wl) (wl_body_bbs wl) = true → wl_header_bb wl ∉ wl_body_bbs wl →
  runs (while_code wl b outer) s tt s' →
  ∃ inits vals exit_block sb s5,
    let carry := wl_iter_carry_locals wl in
    let types := value_type <$> inits in
    let results := (new_results types s.2).1 in
    let m1 := (new_results types s.2).2 in
    let before := (new_block types m1).1 in
    let m2 := (new_block types m1).2 in
    let after := (new_block types sb.2).1 in
    let m3 := (new_block types sb.2).2 in
    Forall2 (λ x v, ssa_values s.1 !! x = Some v) carry inits ∧
    runs (codegen_before is_option_ty codegen_assign codegen_operand mir wl before)
      (carry_state carry (block_args m2 before) s.1, m2) tt sb ∧ loop_ctx sb.1 = loop_ctx s.1 ∧
    runs (cg_iter (block_pre after) (wl_body_bbs wl)) (while_entry wl (block_args m3 after) sb.1, m3) tt s5 ∧
    loop_ctx s5.1 = loop_ctx (while_entry wl [] sb.1) ∧ has_block s5.2 after ∧
    Forall2 (λ x v, ssa_values s5.1 !! x = Some v) carry vals ∧
    outer !! wl_exit_bb wl = Some exit_block ∧
    s' = (with_ssa (leave_while s5.1) (insert_all carry results (ssa_values s5.1)),
          append_operation b (CfBr exit_block [])
            (append_operation b (ScfWhile inits before after results)
               (append_operation after (ScfYield vals) s5.2))).
Proof.
  intros Hch Hhdr. unfold codegen_scf_while_loop.
  intros (inits & s1 & [Hin ->]%runs_ssa_values & (results & s2 & [-> ->]%runs_results_new & (before & s3 & [Eb ->]%runs_block_new & (bargs & s4 & [-> ->]%runs_get & H)%runs_bind)%runs_bind)%runs_bind)%runs_bind.
  cbn [fst snd] in *. set (types := value_type <$> inits) in *. set (m1 := (new_results types s.2).2) in *.
  set (m2 := (new_block types m1).2) in *.
  apply runs_bind in H as ([] & s4 & [_ ->]%runs_ssa_insert_all & ([] & sb & Hsb & (after & s6 & [Ea ->]%runs_block_new & (aargs & s7 & [-> ->]%runs_get & ([] & s8 & [_ ->]%runs_ssa_insert_all & H)%runs_bind)%runs_bind)%runs_bind)%runs_bind).
  cbn [fst snd] in *. set (m3 := (new_block types sb.2).2) in *.
  apply runs_bind in H as ([] & s9 & ->%runs_modify & ([] & s10 & H9 & ([] & s11 & ->%runs_modify & ([] & s12 & ->%runs_modify & ([] & s13 & [_ ->]%runs_ssa_insert_all & (ex & s14 & [Hex ->]%runs_lift & ->%runs_modify)%runs_bind)%runs_bind)%runs_bind)%runs_bind)%runs_bind).
  assert (Hbefore : has_block m2 before) by (apply new_block_has_block; by right).
  assert (Hafter : has_block m3 after) by (apply new_block_has_block; by right).
  destruct (before_stages wl before (_, m2) _ Hbefore Hsb)
    as (d & discr & targets & cond & cargs & sc & sd & _ & _ & _ & _ & (new & _ & _ & Hctl) & _ & Esb).
  assert (Hctxb : loop_ctx sb.1 = loop_ctx s.1).
  { rewrite Esb. simpl. rewrite (control_ctx _ _ Hctl). done. }
  eapply (chain_code instantiate is_option_ty codegen_assign codegen_operand method fuel mir) in H9
    as (s5 & Hs5 & Hc5 & Hb5 & Hy).
  2: exact Hch. 2: done.
  2: { intros bb Hbb. split; [|by apply elem_of_list_to_set].
       rewrite lookup_insert_ne by (intros <-; done).
       by apply with_body_lookup. }
  2: done.
  2: { intros bb sx sy _ Hx Hbx. destruct (straight_block_ctx _ _ _ _ _ Htame _ _ _ _ Hx Hbx) as (? & [Hg Hcx] & _).
       split; [done|]. by apply (g_blocks _ _ _ _ Hg). }
  2: done.
  apply runs_bind in Hy as (vals & sv & [Hv ->]%runs_ssa_values & ->%runs_modify).
  exists inits, vals, ex, sb, s5. cbn zeta. fold types m1 m2 m3. rewrite <-Eb, <-Ea.
  split_and!; try done. by destruct (outer !! wl_exit_bb wl); simplify_eq/=.
Qed.
End while_facts.
