(* ===== verification/TritonSem.v ===== *)
(** * What structured MLIR computes, and what a loop of MIR computes

    The abstract specification of loop emission.  On the MLIR side, the
    documented meaning of [arith] and [scf] operations over an environment of
    values and a memory.  On the MIR side, the execution of a path of blocks over
    an environment of locals, and of [for] and [while] loops made of such paths.
    The meaning of the other operations, of assignments, calls and operands are
    parameters; no code is mapped to this file. *)
From S2P Require Import Prelude Codegen Mir TritonLoops TritonEmit TritonScf TritonScfFacts.

Section mlir.
Context {BlockRef Value MType Mod : Type} `{!EqDecision BlockRef} `{!EqDecision Value}.
Context `{!MlirBuilder BlockRef Value MType Mod}.
(** [D]: data; [Mem]: memory. *)
Context {D Mem : Type}.
Abbreviation Op := (MlirOp BlockRef Value).
Abbreviation venv := (Value → D).

Record Dialect := mkDialect {
  d_int : MType → Z → D;
  d_to_int : D → Z;
  d_eq : D → D → D;
  d_true : D → bool;
  op_sem : nat → Mem → list D → option (Mem * list D) }.
Context (dia : Dialect).

Definition set1 (v : Value) (d : D) (ρ : venv) : venv := λ x, if decide (x = v) then d else ρ x.
Definition set_all (vs : list Value) (ds : list D) (ρ : venv) : venv :=
  foldl (λ ρ p, set1 p.1 p.2 ρ) ρ (zip vs ds).

(** An operation without regions. *)
Definition exec_plain (o : Op) (s : venv * Mem) : option (venv * Mem) :=
  let '(ρ, μ) := s in
  match o with
  | ArithConstant n r => Some (set1 r (d_int dia (value_type r) n) ρ, μ)
  | ArithCmpi x y r => Some (set1 r (d_eq dia (ρ x) (ρ y)) ρ, μ)
  | OtherOp name xs rs =>
      '(μ', ds) ← op_sem dia name μ (ρ <$> xs);
      if length ds =? length rs then Some (set_all rs ds ρ, μ') else None
  | _ => None
  end.
Fixpoint exec_plains (ops : list Op) (s : venv * Mem) : option (venv * Mem) :=
  match ops with
  | [] => Some s
  | o :: ops' => s' ← exec_plain o s; exec_plains ops' s'
  end.

(** How the block of a region ends. *)
Inductive region_end := Yielded (ds : list D) | Condition (continue : bool) (ds : list D).

Inductive exec_region (m : Mod) : list Op → venv → Mem → region_end → Mem → Prop :=
  | region_plain o ops ρ μ ρ1 μ1 e μ2 :
      exec_plain o (ρ, μ) = Some (ρ1, μ1) → exec_region m ops ρ1 μ1 e μ2 →
      exec_region m (o :: ops) ρ μ e μ2
  | region_if c t f rs ops ρ μ ds μ1 e μ2 :
      exec_region m (block_ops m (if d_true dia (ρ c) then t else f)) ρ μ (Yielded ds) μ1 →
      length ds = length rs → exec_region m ops (set_all rs ds ρ) μ1 e μ2 →
      exec_region m (ScfIf c t f rs :: ops) ρ μ e μ2
  | region_yield vs ρ μ : exec_region m [ScfYield vs] ρ μ (Yielded (ρ <$> vs)) μ
  | region_condition c vs ρ μ :
      exec_region m [ScfCondition c vs] ρ μ (Condition (d_true dia (ρ c)) (ρ <$> vs)) μ.

(** [scf.for] from [k], with the carried values [ds]. *)
Inductive exec_for (m : Mod) (body : BlockRef) (ub step : Z) (ρ : venv)
    : Z → list D → Mem → list D → Mem → Prop :=
  | for_stop k ds μ : (ub ≤ k)%Z → exec_for m body ub step ρ k ds μ ds μ
  | for_step k ds μ iv args ds1 μ1 ds2 μ2 :
      (k < ub)%Z → block_args m body = iv :: args →
      exec_region m (block_ops m body) (set_all args ds (set1 iv (d_int dia (value_type iv) k) ρ)) μ
        (Yielded ds1) μ1 →
      exec_for m body ub step ρ (k + step) ds1 μ1 ds2 μ2 →
      exec_for m body ub step ρ k ds μ ds2 μ2.

(** [scf.while]. *)
Inductive exec_while (m : Mod) (before after : BlockRef) (ρ : venv)
    : list D → Mem → list D → Mem → Prop :=
  | while_stop ds μ ds1 μ1 :
      exec_region m (block_ops m before) (set_all (block_args m before) ds ρ) μ (Condition false ds1) μ1 →
      exec_while m before after ρ ds μ ds1 μ1
  | while_step ds μ ds1 μ1 ds2 μ2 ds3 μ3 :
      exec_region m (block_ops m before) (set_all (block_args m before) ds ρ) μ (Condition true ds1) μ1 →
      exec_region m (block_ops m after) (set_all (block_args m after) ds1 ρ) μ1 (Yielded ds2) μ2 →
      exec_while m before after ρ ds2 μ2 ds3 μ3 →
      exec_while m before after ρ ds μ ds3 μ3.

(** A loop operation of a function's block. *)
Inductive exec_loop (m : Mod) (ρ : venv) (μ : Mem) : Op → venv → Mem → Prop :=
  | exec_scf_for lb ub step inits body rs ds μ' :
      exec_for m body (d_to_int dia (ρ ub)) (d_to_int dia (ρ step)) ρ (d_to_int dia (ρ lb))
        (ρ <$> inits) μ ds μ' →
      exec_loop m ρ μ (ScfFor lb ub step inits body rs) (set_all rs ds ρ) μ'
  | exec_scf_while inits before after rs ds μ' :
      exec_while m before after ρ (ρ <$> inits) μ ds μ' →
      exec_loop m ρ μ (ScfWhile inits before after rs) (set_all rs ds ρ) μ'.
End mlir.
Arguments Dialect : clear implicits.
Arguments mkDialect {_ _ _}.
Arguments region_end : clear implicits.

(** ** Paths and loops of MIR *)
Section mir.
Context {D Mem : Type}.
Abbreviation lenv := (Local → D).
Implicit Types σ : lenv * Mem.

(** The meaning of an assignment to a whole local, of a call and of an operand. *)
Record MirSem := mkMirSem {
  assign_sem : Place → Rvalue → lenv * Mem → lenv * Mem → Prop;
  call_sem : Operand → list Operand → Place → lenv * Mem → lenv * Mem → Prop;
  operand_sem : Operand → lenv * Mem → D → Prop;
  (** the integer that a switch compares with its cases *)
  switch_value : D → Z;
  (** [Some(d)] and [None] *)
  d_some : D → D;
  d_none : D }.
Context (sem : MirSem) (mir : Body).
Definition is_zero (d : D) : bool := (switch_value sem d =? 0)%Z.
Definition d_option (o : option D) : D := match o with Some d => d_some sem d | None => d_none sem end.

(** Storage markers and statements without effect; the rest is not executed. *)
Definition stmt_sem (stmt : StatementKind) σ σ' : Prop :=
  match stmt with
  | Assign p rv => assign_sem sem p rv σ σ'
  | SetDiscriminant _ _ | Intrinsic _ => False
  | _ => σ' = σ
  end.
Fixpoint stmts_sem (stmts : list StatementKind) σ σ' : Prop :=
  match stmts with
  | [] => σ' = σ
  | s :: stmts' => ∃ σ1, stmt_sem s σ σ1 ∧ stmts_sem stmts' σ1 σ'
  end.
(** The effect of a terminator with one successor; an assertion holds, and a
    drop has no effect on the types of a kernel. *)
Definition pre_sem (k : TerminatorKind) σ σ' : Prop :=
  match k with Call f args dest _ _ => call_sem sem f args dest σ σ' | _ => σ' = σ end.
Definition block_sem (bb : BasicBlock) σ σ' : Prop := ∃ d k σ1,
  block_at mir bb = Ret d ∧ terminator d = Ret k ∧ stmts_sem (statements d) σ σ1 ∧ pre_sem k σ1 σ'.

(** From [bb] to [header]. *)
Inductive mir_path (header : BasicBlock) : BasicBlock → lenv * Mem → lenv * Mem → Prop :=
  | path_end bb σ σ' :
      block_sem bb σ σ' → straight_at mir bb = Some header → mir_path header bb σ σ'
  | path_step bb t σ σ1 σ' :
      block_sem bb σ σ1 → straight_at mir bb = Some t → t ≠ header → mir_path header t σ1 σ' →
      mir_path header bb σ σ'.

(** [Range::next] on [start..end]. *)
Definition range_next (r : Z * Z) : option Z * (Z * Z) :=
  if (r.1 <? r.2)%Z then (Some r.1, (r.1 + 1, r.2)%Z) else (None, r).

(** The header of [for]: its statements, and the call of [next] on the range [r],
    whose result, with integers read by [int], goes to a local. *)
Definition next_step (int : Z → D) (header switch_bb : BasicBlock) (r : Z * Z) σ σ' : Prop :=
  ∃ d f args dest u σ1,
    block_at mir header = Ret d ∧ terminator d = Ret (Call f args dest (Some switch_bb) u) ∧
    stmts_sem (statements d) σ σ1 ∧ no_projection dest = true ∧ σ'.2 = σ1.2 ∧
    σ'.1 (pl_local dest) = d_option (int <$> (range_next r).1) ∧
    ∀ x, x ≠ pl_local dest → σ'.1 x = σ1.1 x.
(** A block that ends in a switch, from its statements to [target]. *)
Definition switch_step (bb target : BasicBlock) σ σ' : Prop :=
  ∃ d discr targets c,
    block_at mir bb = Ret d ∧ terminator d = Ret (SwitchInt discr targets) ∧
    stmts_sem (statements d) σ σ' ∧ operand_sem sem discr σ' c ∧
    Switch.target_for_value targets (switch_value sem c) = Ret target.

(** From the header of [for], whose iterator is the range [r], to [exit]: the
    header, the switch on what [next] returned, the body, the header again. *)
Inductive mir_for (int : Z → D) (header exit : BasicBlock) : Z * Z → lenv * Mem → lenv * Mem → Prop :=
  | mir_for_stop r switch_bb σ σ1 σ2 :
      next_step int header switch_bb r σ σ1 → switch_step switch_bb exit σ1 σ2 →
      mir_for int header exit r σ σ2
  | mir_for_step r switch_bb t σ σ1 σ2 σ3 σ4 :
      next_step int header switch_bb r σ σ1 → switch_step switch_bb t σ1 σ2 → t ≠ exit →
      mir_path header t σ2 σ3 → mir_for int header exit (range_next r).2 σ3 σ4 →
      mir_for int header exit r σ σ4.

(** From the header of [while] to its exit: the header's statements, the switch
    on the condition, the body. *)
Inductive mir_while (header entry exit : BasicBlock) : lenv * Mem → lenv * Mem → Prop :=
  | mir_while_stop σ σ1 d discr c :
      block_at mir header = Ret d →
      terminator d = Ret (SwitchInt discr (mkSwitchTargets [0%Z] [exit; entry])) →
      stmts_sem (statements d) σ σ1 → operand_sem sem discr σ1 c →
      is_zero c = true → mir_while header entry exit σ σ1
  | mir_while_step σ σ1 σ2 σ3 d discr c :
      block_at mir header = Ret d →
      terminator d = Ret (SwitchInt discr (mkSwitchTargets [0%Z] [exit; entry])) →
      stmts_sem (statements d) σ σ1 → operand_sem sem discr σ1 c →
      is_zero c = false → mir_path header entry σ1 σ2 →
      mir_while header entry exit σ2 σ3 → mir_while header entry exit σ σ3.
End mir.
Arguments MirSem : clear implicits.
