(* ===== verification/TritonSemFacts.v ===== *)
(** * A chain of blocks computes what its MIR path computes

    [sim_handlers] states that the code of an assignment, an operand or a call
    is correct; this file lifts it to statements, blocks and chains. *)
From S2P Require Import Prelude Codegen Mir Worklist TritonCfg TritonLoops TritonLoopsFacts TritonEmit TritonScf TritonScfFacts TritonForFacts TritonSem.

(** What [find_iter_carry_locals] sees of a statement or call is all it reads:
    a whole destination, an rvalue it looks into, no index projection. *)
Definition visible_operand (op : Operand) : bool :=
  match op with
  | Copy p | Move p => forallb (λ e, match e with Index _ => false | _ => true end) (pl_projection p)
  | Constant _ => true
  | RuntimeChecks => true
  end.
Definition visible_rvalue (rv : Rvalue) : bool :=
  match rv with
  | Use op | Repeat op _ | Cast _ op _ | UnaryOp _ op => visible_operand op
  | BinaryOp _ l r => visible_operand l && visible_operand r
  | Aggregate _ fields => forallb visible_operand fields
  | _ => false
  end.
Definition visible_stmt (s : StatementKind) : bool :=
  match s with
  | Assign p rv => no_projection p && visible_rvalue rv
  | SetDiscriminant _ _ | Intrinsic _ => false
  | _ => true
  end.
Definition visible_term (k : TerminatorKind) : bool :=
  match k with
  | Call _ args dest _ _ => no_projection dest && forallb visible_operand args
  | _ => true
  end.
Definition visible_block (mir : Body) (bb : BasicBlock) : bool :=
  match basic_blocks mir !! bb with
  | Some d => forallb visible_stmt (statements d) &&
      match terminator_opt d with Some k => visible_term k | None => true end
  | None => true
  end.

(** A local whose first event is an assignment is assigned. *)
Lemma events_assign c stmts :
  head (concat (stmt_events c <$> stmts)) = Some false → c ∈ omap dest_local stmts.
Proof.
  induction stmts as [|stmt stmts IH]; [done|]. rewrite fmap_cons. cbn [concat].
  unfold stmt_events at 1. destruct (local_used_in_stmt stmt c); [done|]. simpl.
  destruct (local_assigned_in_stmt stmt c) eqn:E; simpl.
  - intros _. destruct stmt; simpl in *; try done.
    apply andb_true_iff in E as [->%Nat.eqb_eq Hp]. rewrite Hp. by left.
  - intros H%IH. destruct (dest_local stmt); [by right|done].
Qed.

Lemma block_events_assign (mir : Body) c bb :
  visible_block mir bb = true → head (block_events mir c bb) = Some false → c ∈ block_assigned mir bb.
Proof.
  unfold visible_block, block_events, block_assigned. destruct (basic_blocks mir !! bb) as [d|]; [|done].
  destruct (concat (stmt_events c <$> statements d)) as [|e es] eqn:E.
  - simpl. destruct (terminator_opt d) as [k|]; [|done].
    intros [_ Hv]%andb_true_iff. destruct k; simpl in *; try done.
    apply andb_true_iff in Hv as [-> _]. destruct (existsb _ _); [done|]. simpl.
    destruct (Nat.eqb_spec (pl_local destination) c) as [<-|]; [|done]. set_solver.
  - intros _ [= ->]. apply elem_of_app. left. apply events_assign. by rewrite E.
Qed.

Section sim.
Context {BlockRef Value MType Mod : Type} `{!EqDecision BlockRef} `{!EqDecision Value}.
Context `{!MlirBuilder BlockRef Value MType Mod} `{!ScfBuilder BlockRef Value MType Mod}.
Context {D Mem : Type} (dia : Dialect MType D Mem) (sem : MirSem D Mem).
Abbreviation State := (CodegenState Value).
Abbreviation gen := (cg (State * Mod)).
Abbreviation Op := (MlirOp BlockRef Value).
Abbreviation venv := (Value → D).
Abbreviation lenv := (Local → D).
Implicit Types (s : State * Mod) (b : BlockRef) (ρ : venv) (env : lenv) (μ : Mem) (L : gset Local).

Context (is_option_ty : Place → bool).
Context (codegen_assign : Place → Rvalue → BlockRef → gen unit).
Context (codegen_operand : Operand → BlockRef → gen Value).
Context (method : Operand → list Operand → Place → BlockRef → gen (option Value)).
Context (mir : Body).
(** The locals that live in [option_table]. *)
Context (opt : Local → bool).

(** The value that stands for a local has the local's data. *)
Definition holds s ρ (l : Local) (d : D) : Prop :=
  if opt l then ∃ v, option_table s.1 !! l = Some (Some v) ∧ has_value s.2 v ∧ d = d_some sem (ρ v)
  else ∃ v, ssa_values s.1 !! l = Some v ∧ has_value s.2 v ∧ ρ v = d.
Definition agree L s ρ env : Prop := ∀ l, l ∈ L → holds s ρ l (env l).

(** From [s] to [s'], operations were appended to [b] that take [(ρ, μ)] to
    [(ρ', μ')] without touching the values of [s]. *)
Definition computes b s s' ρ μ ρ' μ' : Prop := ∃ new : list Op,
  block_ops s'.2 b = block_ops s.2 b ++ new ∧ exec_plains dia new (ρ, μ) = Some (ρ', μ') ∧
  (∀ v, has_value s.2 v → ρ' v = ρ v).

Record sim_handlers : Prop := {
  sim_assign p rv b L s s' ρ μ env env' μ' :
    no_projection p = true → visible_rvalue rv = true →
    (∀ l, rvalue_uses_local rv l = true → l ∈ L) → has_block s.2 b → agree L s ρ env →
    runs (codegen_assign p rv b) s tt s' → assign_sem sem p rv (env, μ) (env', μ') →
    ∃ ρ', computes b s s' ρ μ ρ' μ' ∧ agree ({[pl_local p]} ∪ L) s' ρ' env';
  sim_method f args dest t u b L s s' ρ μ env env' μ' :
    no_projection dest = true → forallb visible_operand args = true →
    (∀ l, existsb (λ a, operand_uses_local a l) args = true → l ∈ L) → has_block s.2 b → agree L s ρ env →
    runs (straight_pre method (Call f args dest t u) b) s tt s' →
    call_sem sem f args dest (env, μ) (env', μ') →
    ∃ ρ', computes b s s' ρ μ ρ' μ' ∧ agree ({[pl_local dest]} ∪ L) s' ρ' env';
  sim_operand op b L s v s' ρ μ env d :
    visible_operand op = true → (∀ l, operand_uses_local op l = true → l ∈ L) →
    has_block s.2 b → agree L s ρ env →
    runs (codegen_operand op b) s v s' → operand_sem sem op (env, μ) d →
    ∃ ρ', computes b s s' ρ μ ρ' μ ∧ agree L s' ρ' env ∧ ρ' v = d }.
Context (Htame : tame_handlers codegen_assign codegen_operand method) (Hsim : sim_handlers).

Lemma computes_refl b s ρ μ : computes b s s ρ μ ρ μ.
Proof. exists []. by rewrite app_nil_r. Qed.

Lemma exec_plains_app (ops1 ops2 : list Op) (x : venv * Mem) :
  exec_plains dia (ops1 ++ ops2) x = (x' ← exec_plains dia ops1 x; exec_plains dia ops2 x').
Proof.
  revert x. induction ops1 as [|o ops1 IH]; intros x; [done|]. cbn [app exec_plains].
  destruct (exec_plain dia o x); simpl; [apply IH|done].
Qed.

Lemma computes_trans b s1 s2 s3 ρ1 μ1 ρ2 μ2 ρ3 μ3 :
  (∀ v, has_value s1.2 v → has_value s2.2 v) →
  computes b s1 s2 ρ1 μ1 ρ2 μ2 → computes b s2 s3 ρ2 μ2 ρ3 μ3 → computes b s1 s3 ρ1 μ1 ρ3 μ3.
Proof.
  intros Hv (n1 & E1 & X1 & F1) (n2 & E2 & X2 & F2). exists (n1 ++ n2). split_and!.
  - by rewrite E2, E1, app_assoc.
  - rewrite exec_plains_app, X1. exact X2.
  - intros v Hhas. rewrite F2, F1; auto.
Qed.

Lemma agree_sub L L' s ρ env : L' ⊆ L → agree L s ρ env → agree L' s ρ env.
Proof. intros HL H l Hl. apply H, HL, Hl. Qed.

Abbreviation statement_code := (codegen_statement is_option_ty codegen_assign).
Abbreviation block_pre := (straight_block is_option_ty codegen_assign method mir).

Lemma tame_values {A} (c : gen A) b s a s' :
  tame c b → has_block s.2 b → runs c s a s' → (∀ v, has_value s.2 v → has_value s'.2 v) ∧ has_block s'.2 b ∧
  branch_snapshots s'.1 = branch_snapshots s.1 ∧ phi_join_locals s'.1 = phi_join_locals s.1.
Proof.
  intros Ht Hb Hr. destruct (Ht _ _ _ Hb Hr) as (new & Hg & _ & Hc).
  split; [apply (g_values _ _ _ _ Hg)|]. split; [by apply (g_blocks _ _ _ _ Hg)|].
  unfold control in Hc. split; congruence.
Qed.

(** ** Statements *)
Lemma stmt_sim stmt b L s s' ρ μ env env' μ' :
  visible_stmt stmt = true → (∀ c, head (stmt_events c stmt) = Some true → c ∈ L) →
  has_block s.2 b → agree L s ρ env → runs (statement_code stmt b) s tt s' →
  stmt_sem sem stmt (env, μ) (env', μ') →
  ∃ ρ', computes b s s' ρ μ ρ' μ' ∧ agree (list_to_set (option_list (dest_local stmt)) ∪ L) s' ρ' env'.
Proof.
  intros Hvis Huse Hb Hag Hrun Hsem.
  destruct stmt; simpl in *; try done;
    try (apply runs_ret in Hrun as [_ ->]; injection Hsem as -> ->; exists ρ;
         split; [apply computes_refl|eapply agree_sub; [|exact Hag]; set_solver]).
  apply andb_true_iff in Hvis as [Hp Hrv].
  destruct (sim_assign Hsim dest rv b L s s' ρ μ env env' μ') as (ρ' & Hc & Ha); try done.
  - intros l Hl. apply Huse. unfold stmt_events. simpl. by rewrite Hl.
  - exists ρ'. split; [done|]. rewrite Hp. eapply agree_sub; [|exact Ha]. simpl. set_solver.
Qed.

(** A use that is first after a statement is first before it, unless the statement
    assigns the local. *)
Lemma events_nil_cons c stmt rest :
  head rest = Some true → head (stmt_events c stmt ++ rest) = Some true ∨ dest_local stmt = Some c.
Proof.
  intros Hr. unfold stmt_events. destruct (local_used_in_stmt stmt c); [by left|]. simpl.
  destruct (local_assigned_in_stmt stmt c) eqn:E; [right|by left].
  destruct stmt; simpl in *; try done. apply andb_true_iff in E as [->%Nat.eqb_eq Hp]. by rewrite Hp.
Qed.

Lemma stmts_sim stmts b : ∀ L s s' ρ μ env env' μ',
  forallb visible_stmt stmts = true →
  (∀ c, head (concat (stmt_events c <$> stmts)) = Some true → c ∈ L) →
  has_block s.2 b → agree L s ρ env →
  runs (codegen_statements is_option_ty codegen_assign stmts b) s tt s' →
  stmts_sem sem stmts (env, μ) (env', μ') →
  ∃ ρ', computes b s s' ρ μ ρ' μ' ∧ agree (list_to_set (omap dest_local stmts) ∪ L) s' ρ' env'.
Proof.
  unfold codegen_statements.
  induction stmts as [|stmt stmts IH]; intros L s s' ρ μ env env' μ' Hvis Huse Hb Hag.
  { intros Hr [= -> ->]. apply runs_iter_nil in Hr as ->. exists ρ. split; [apply computes_refl|].
    eapply agree_sub; [|done]. set_solver. }
  simpl in Hvis. apply andb_true_iff in Hvis as [Hv1 Hv2].
  intros Hr ([env1 μ1] & Hs1 & Hs2). apply runs_iter_cons in Hr as (s1 & H1 & H2).
  destruct (stmt_sim _ _ _ _ _ _ _ _ _ _ Hv1 (λ c Hc, Huse c ltac:(
    rewrite fmap_cons; simpl; destruct (stmt_events c stmt); [done|exact Hc])) Hb Hag H1 Hs1) as (ρ1 & C1 & A1).
  destruct (tame_values _ _ _ _ _ (tame_statement _ _ _ _ Htame stmt b) Hb H1) as (Hval & Hb1 & _).
  destruct (IH (list_to_set (option_list (dest_local stmt)) ∪ L) s1 s' ρ1 μ1 env1 env' μ' Hv2)
    as (ρ2 & C2 & A2); [|done..|].
  - intros c Hc. destruct (events_nil_cons c stmt _ Hc) as [Hh|Hd].
    + apply elem_of_union. right. apply Huse. by rewrite fmap_cons.
    + rewrite Hd. set_solver.
  - exists ρ2. split; [by eapply computes_trans|]. eapply agree_sub; [|exact A2]. simpl.
    destruct (dest_local stmt); set_solver.
Qed.
(** ** Blocks and chains *)
Lemma pre_sim k b L s s' ρ μ env env' μ' :
  visible_term k = true → (∀ c, head (term_events c k) = Some true → c ∈ L) →
  has_block s.2 b → agree L s ρ env → runs (straight_pre method k b) s tt s' →
  pre_sem sem k (env, μ) (env', μ') →
  ∃ ρ', computes b s s' ρ μ ρ' μ' ∧
    agree (match k with Call _ _ dest _ _ => {[pl_local dest]} | _ => ∅ end ∪ L) s' ρ' env'.
Proof.
  intros Hvis Huse Hb Hag Hrun Hsem.
  destruct k as [| | | | | | |f args dest t u| | | | | | | ];
    try (apply runs_ret in Hrun as [_ ->]; injection Hsem as -> ->; exists ρ;
         split; [apply computes_refl|eapply agree_sub; [|exact Hag]; set_solver]).
  simpl in Hvis. apply andb_true_iff in Hvis as [Hd Ha].
  eapply (sim_method Hsim); try done. intros l Hl. apply Huse. simpl. by rewrite Hl.
Qed.

(** No snapshot is waiting for the block and it is no join. *)
Definition quiet (st : State) (bb : BasicBlock) : Prop :=
  branch_snapshots st !! bb = None ∧ phi_join_locals st !! bb = None.
Lemma enter_quiet st bb : quiet st bb → enter_block bb st = st.
Proof. intros [Hs Hp]. unfold enter_block, restore_snapshot. by rewrite Hs, Hp. Qed.

Lemma straight_block_inv bb b s s' :
  quiet s.1 bb → runs (block_pre b bb) s tt s' →
  ∃ d k s1, basic_blocks mir !! bb = Some d ∧ terminator_opt d = Some k ∧
    runs (codegen_statements is_option_ty codegen_assign (statements d) b) s tt s1 ∧
    runs (straight_pre method k b) s1 tt s'.
Proof.
  intros Hq Hrun. unfold straight_block in Hrun.
  apply runs_bind in Hrun as (d & ? & [Hd ->]%runs_lift & ([] & ? & ->%runs_modify & H)%runs_bind).
  rewrite enter_quiet in H by done. replace (s.1, s.2) with s in H by (by destruct s).
  apply runs_bind in H as ([] & s1 & H1 & (k & ? & [Hk ->]%runs_lift & H2)%runs_bind).
  exists d, k, s1. unfold block_at, terminator in *.
  destruct (basic_blocks mir !! bb); simplify_eq/=. by destruct (terminator_opt d); simplify_eq/=.
Qed.

Lemma straight_block_tame bb b s s' :
  quiet s.1 bb → has_block s.2 b → runs (block_pre b bb) s tt s' → tame_run b s s'.
Proof.
  intros Hq Hb (d & k & s1 & _ & _ & H1 & H2)%straight_block_inv; [|done].
  pose proof (tame_statements _ _ _ _ Htame (statements d) b _ _ _ Hb H1) as T1.
  eapply tame_run_trans; [done|done|]. eapply tame_straight_pre; [done| |done]. by eapply tame_run_block.
Qed.

Lemma tame_quiet b s s' bb : tame_run b s s' → quiet s.1 bb → quiet s'.1 bb.
Proof. intros (_ & _ & _ & Hc) []. unfold control in Hc. unfold quiet. split; congruence. Qed.

Lemma block_sim bb b L s s' ρ μ env env' μ' :
  visible_block mir bb = true → quiet s.1 bb → (∀ c, head (block_events mir c bb) = Some true → c ∈ L) →
  has_block s.2 b → agree L s ρ env → runs (block_pre b bb) s tt s' →
  block_sem sem mir bb (env, μ) (env', μ') →
  ∃ ρ', computes b s s' ρ μ ρ' μ' ∧ agree (list_to_set (block_assigned mir bb) ∪ L) s' ρ' env'.
Proof.
  intros Hvis Hq Huse Hb Hag Hrun (d & k & [env1 μ1] & Hd & Hk & Hs1 & Hs2).
  destruct (straight_block_inv _ _ _ _ Hq Hrun) as (d' & k' & s1 & Hdd & Hkk & H1 & H2).
  unfold block_at in Hd. rewrite Hdd in Hd. injection Hd as <-.
  unfold terminator in Hk. rewrite Hkk in Hk. injection Hk as <-.
  unfold visible_block, block_events, block_assigned in *.
  rewrite Hdd, Hkk in *. rename d' into d, k' into k. apply andb_true_iff in Hvis as [Hv1 Hv2].
  destruct (stmts_sim (statements d) b L s s1 ρ μ env env1 μ1 Hv1) as (ρ1 & C1 & A1); try done.
  { intros c Hc. apply Huse. destruct (concat (stmt_events c <$> statements d)); [done|exact Hc]. }
  destruct (tame_values _ _ _ _ _ (tame_statements _ _ _ _ Htame (statements d) b) Hb H1) as (Hval & Hb1 & _).
  destruct (pre_sim k b (list_to_set (omap dest_local (statements d)) ∪ L) s1 s' ρ1 μ1 env1 env' μ')
    as (ρ2 & C2 & A2); try done.
  - intros c Hc. destruct (concat (stmt_events c <$> statements d)) as [|e es] eqn:E.
    + apply elem_of_union. right. apply Huse. by rewrite E.
    + destruct e; [apply elem_of_union; right; by apply Huse; rewrite E|].
      apply elem_of_union. left. apply elem_of_list_to_set. apply (events_assign c); by rewrite E.
  - exists ρ2. split; [by eapply computes_trans|]. eapply agree_sub; [|exact A2].
    rewrite list_to_set_app_L.
    assert (Hk0 : (list_to_set (match k with
        | Call _ _ dest _ _ => if no_projection dest then [pl_local dest] else []
        | _ => [] end) : gset Local) ⊆ match k with Call _ _ dest _ _ => {[pl_local dest]} | _ => ∅ end).
    { clear -Hv2. destruct k; try done. simpl in Hv2. apply andb_true_iff in Hv2 as [-> _]. set_solver. }
    clear -Hk0. set_solver.
Qed.

Abbreviation assigned bbs := (list_to_set (C:=gset Local) (body_assigned mir bbs)).

Lemma chain_sim h b bbs : ∀ bb L s s' ρ μ σ',
  head bbs = Some bb → is_chain mir h bbs = true → forallb (visible_block mir) bbs = true →
  (∀ bb, bb ∈ bbs → quiet s.1 bb) →
  (∀ c, used_first mir c bbs = true → c ∈ L) → has_block s.2 b →
  ∀ env, agree L s ρ env → runs (cg_iter (block_pre b) bbs) s tt s' →
  mir_path sem mir h bb (env, μ) σ' →
  ∃ ρ', computes b s s' ρ μ ρ' σ'.2 ∧ agree (assigned bbs ∪ L) s' ρ' σ'.1.
Proof.
  unfold used_first, body_assigned.
  induction bbs as [|bb bbs IH]; intros bb0 L s s' ρ μ σ' Hhd Hch Hvis Hq Huse Hb env Hag Hrun Hpath; [done|].
  injection Hhd as <-. apply runs_iter_cons in Hrun as (s1 & H1 & H2).
  simpl in Hvis. apply andb_true_iff in Hvis as [Hv Hvs].
  assert (Hfirst : ∀ c, head (block_events mir c bb) = Some true → c ∈ L).
  { intros c Hc. apply Huse. rewrite fmap_cons. simpl. destruct (block_events mir c bb); [done|].
    simpl in *. by injection Hc as ->. }
  assert (Hstep : ∀ σ1, block_sem sem mir bb (env, μ) σ1 →
    ∃ ρ1, computes b s s1 ρ μ ρ1 σ1.2 ∧ agree (list_to_set (block_assigned mir bb) ∪ L) s1 ρ1 σ1.1).
  { intros [env1 μ1] Hsem. by eapply block_sim; [|apply Hq; left|..]. }
  destruct bbs as [|bb' bbs].
  - simpl in Hch. apply bool_decide_eq_true in Hch. apply runs_iter_nil in H2 as ->.
    inversion Hpath as [? ? ? Hsem Hst|? t ? ? ? Hsem Hst Hne]; subst; [|congruence].
    destruct (Hstep _ Hsem) as (ρ1 & C1 & A1). exists ρ1. split; [done|].
    eapply agree_sub; [|exact A1]. simpl. rewrite app_nil_r. done.
  - cbn [is_chain] in Hch. rewrite !andb_true_iff, negb_true_iff, Nat.eqb_neq in Hch.
    destruct Hch as [[Ht%bool_decide_eq_true Hne] Hch].
    inversion Hpath as [? ? ? Hsem Hst|? t ? [env1 μ1] ? Hsem Hst Hne' Hp]; subst; [congruence|].
    assert (t = bb') as -> by congruence.
    destruct (Hstep _ Hsem) as (ρ1 & C1 & A1).
    pose proof (straight_block_tame bb b s s1 ltac:(apply Hq; by left) Hb H1) as T1.
    destruct (IH bb' (list_to_set (block_assigned mir bb) ∪ L) s1 s' ρ1 μ1 σ') with (env := env1)
      as (ρ2 & C2 & A2); try done.
    + intros x Hx. eapply tame_quiet; [exact T1|]. apply Hq. by right.
    + intros c Hc. destruct (block_events mir c bb) as [|e es] eqn:E.
      * apply elem_of_union. right. apply Huse. rewrite fmap_cons. simpl. by rewrite E.
      * destruct e; [apply elem_of_union; right; apply Hfirst; by rewrite E|].
        apply elem_of_union. left. apply elem_of_list_to_set. apply (block_events_assign mir c bb); [done|].
        by rewrite E.
    + by eapply tame_run_block.
    + exists ρ2. destruct T1 as (? & Hg & _).
      split; [eapply computes_trans; [|done..]; apply (g_values _ _ _ _ Hg)|].
      eapply agree_sub; [|exact A2]. rewrite fmap_cons. cbn [concat]. rewrite list_to_set_app_L. set_solver.
Qed.
(** ** What is not assigned stays *)
(** The code of an assignment or call only redefines its destination, that of an
    operand nothing. *)
Definition keeps (X : list Local) (s s' : State * Mod) : Prop := ∀ l, l ∉ X →
  ssa_values s'.1 !! l = ssa_values s.1 !! l ∧ option_table s'.1 !! l = option_table s.1 !! l.
Record keep_handlers : Prop := {
  keep_assign p rv b s s' : runs (codegen_assign p rv b) s tt s' → keeps [pl_local p] s s';
  keep_method f args dest b s v s' : runs (method f args dest b) s v s' → keeps [pl_local dest] s s';
  keep_operand op b s v s' : runs (codegen_operand op b) s v s' → keeps [] s s' }.
Context (Hkeep : keep_handlers).

Lemma keeps_refl X s : keeps X s s.
Proof. done. Qed.
Lemma keeps_trans X Y s1 s2 s3 : keeps X s1 s2 → keeps Y s2 s3 → keeps (X ++ Y) s1 s3.
Proof.
  intros H1 H2 l Hl. apply not_elem_of_app in Hl as [HX HY].
  destruct (H1 l HX) as [<- <-]. by apply H2.
Qed.

Lemma stmts_keep stmts b : ∀ s s', forallb visible_stmt stmts = true →
  runs (codegen_statements is_option_ty codegen_assign stmts b) s tt s' → keeps (omap dest_local stmts) s s'.
Proof.
  unfold codegen_statements. induction stmts as [|stmt stmts IH]; intros s s' Hvis Hr.
  { by apply runs_iter_nil in Hr as ->. }
  simpl in Hvis. apply andb_true_iff in Hvis as [Hv Hvs]. apply runs_iter_cons in Hr as (s1 & H1 & H2).
  replace (omap dest_local (stmt :: stmts)) with (option_list (dest_local stmt) ++ omap dest_local stmts)
    by (simpl; by destruct (dest_local stmt)).
  apply (keeps_trans _ _ _ s1); [|by apply IH].
  destruct stmt; simpl in *; try done; try (by apply runs_ret in H1 as [_ ->]).
  apply andb_true_iff in Hv as [-> _]. by eapply keep_assign.
Qed.

Lemma pre_keep k b s s' : visible_term k = true → runs (straight_pre method k b) s tt s' →
  keeps (match k with
         | Call _ _ dest _ _ => if no_projection dest then [pl_local dest] else []
         | _ => [] end) s s'.
Proof.
  intros Hv. destruct k; simpl in *; try (by intros [_ ->]%runs_ret).
  apply andb_true_iff in Hv as [-> _]. intros (v & s1 & H1 & H2)%runs_bind.
  apply (keep_method Hkeep) in H1. destruct v as [v|]; [|by apply runs_ret in H2 as [_ ->]].
  apply runs_modify in H2 as ->. intros l Hl. destruct (H1 l Hl) as [<- <-]. simpl.
  rewrite lookup_insert_ne by set_solver. done.
Qed.

Lemma blocks_keep b bbs : ∀ s s', forallb (visible_block mir) bbs = true → has_block s.2 b →
  (∀ bb, bb ∈ bbs → quiet s.1 bb) → runs (cg_iter (block_pre b) bbs) s tt s' →
  keeps (body_assigned mir bbs) s s'.
Proof.
  unfold body_assigned. induction bbs as [|bb bbs IH]; intros s s' Hvis Hb Hq Hr.
  { by apply runs_iter_nil in Hr as ->. }
  simpl in Hvis. apply andb_true_iff in Hvis as [Hv Hvs]. apply runs_iter_cons in Hr as (s1 & H1 & H2).
  rewrite fmap_cons. cbn [concat]. apply (keeps_trans _ _ _ s1).
  - destruct (straight_block_inv bb b s s1 ltac:(apply Hq; by left) H1) as (d & k & s2 & Hd & Hk & Hs2 & Hp).
    unfold visible_block, block_assigned in *. rewrite Hd, Hk in *. apply andb_true_iff in Hv as [Hv1 Hv2].
    eapply keeps_trans; [by eapply stmts_keep|by eapply pre_keep].
  - pose proof (straight_block_tame bb b s s1 ltac:(apply Hq; by left) Hb H1) as T1.
    apply IH; [done|by eapply tame_run_block| |done].
    intros x Hx. eapply tame_quiet; [exact T1|]. apply Hq. by right.
Qed.

End sim.

(** ** What a path does not assign *)
Section frame.
Context {D Mem : Type} (sem : MirSem D Mem) (mir : Body).

(** Assignments and calls change their destination only. *)
Record sem_frame : Prop := {
  assign_frame p rv σ σ' l : assign_sem sem p rv σ σ' → l ≠ pl_local p → σ'.1 l = σ.1 l;
  call_frame f args dest σ σ' l : call_sem sem f args dest σ σ' → l ≠ pl_local dest → σ'.1 l = σ.1 l }.

Context (Hframe : sem_frame).
Lemma stmts_frame stmts l : ∀ (σ σ' : (Local → D) * Mem), forallb visible_stmt stmts = true → stmts_sem sem stmts σ σ' →
  l ∉ omap dest_local stmts → σ'.1 l = σ.1 l.
Proof.
  induction stmts as [|stmt stmts IH]; intros σ σ' Hvis; simpl; [by intros ->|].
  simpl in Hvis. apply andb_true_iff in Hvis as [Hv Hvs]. intros (σ1 & H1 & H2) Hl.
  rewrite (IH σ1 σ' Hvs H2) by (destruct (dest_local stmt); set_solver).
  destruct stmt; simpl in *; try done; try (by rewrite H1).
  apply andb_true_iff in Hv as [Hp _]. rewrite Hp in Hl. eapply (assign_frame Hframe); [exact H1|set_solver].
Qed.

Lemma block_frame bb l σ σ' : visible_block mir bb = true → block_sem sem mir bb σ σ' →
  l ∉ block_assigned mir bb → σ'.1 l = σ.1 l.
Proof.
  intros Hvis (d & k & σ1 & Hd & Hk & H1 & H2) Hl. unfold visible_block, block_assigned in *.
  unfold block_at in Hd. unfold terminator in Hk.
  destruct (basic_blocks mir !! bb) as [d'|]; simplify_eq/=.
  destruct (terminator_opt d) as [k'|]; simplify_eq/=. apply andb_true_iff in Hvis as [Hv1 Hv2].
  apply not_elem_of_app in Hl as [Hl1 Hl2]. rewrite <-(stmts_frame _ l _ _ Hv1 H1 Hl1).
  destruct k; simpl in *; try by rewrite H2. apply andb_true_iff in Hv2 as [Hp _]. rewrite Hp in Hl2.
  eapply (call_frame Hframe); [exact H2|set_solver].
Qed.

Lemma chain_frame h bbs : ∀ bb σ σ' l, head bbs = Some bb → is_chain mir h bbs = true →
  forallb (visible_block mir) bbs = true → mir_path sem mir h bb σ σ' →
  l ∉ body_assigned mir bbs → σ'.1 l = σ.1 l.
Proof.
  unfold body_assigned.
  induction bbs as [|bb bbs IH]; intros bb0 σ σ' l Hhd Hch Hvis Hp Hl; [done|]. injection Hhd as <-.
  simpl in Hvis. apply andb_true_iff in Hvis as [Hv Hvs]. rewrite fmap_cons in Hl. cbn [concat] in Hl.
  apply not_elem_of_app in Hl as [Hl1 Hl2]. destruct bbs as [|bb' bbs].
  - simpl in Hch. apply bool_decide_eq_true in Hch.
    inversion Hp as [? ? ? Hs Hst|? t ? ? ? Hs Hst Hne]; subst; [|congruence]. by eapply block_frame.
  - cbn [is_chain] in Hch. rewrite !andb_true_iff, negb_true_iff, Nat.eqb_neq in Hch.
    destruct Hch as [[Ht%bool_decide_eq_true Hne] Hch].
    inversion Hp as [? ? ? Hs Hst|? t ? σ1 ? Hs Hst Hne' Hp']; subst; [congruence|].
    assert (t = bb') as -> by congruence.
    rewrite (IH bb' σ1 σ' l) by done. by eapply block_frame.
Qed.
End frame.
