(* ===== verification/TritonForSem.v ===== *)
(** * [scf.for] computes the loop it is emitted for *)
From S2P Require Import Prelude Codegen Mir Worklist TritonCfg TritonLoops TritonLoopsFacts TritonEmit TritonScf TritonScfFacts TritonForFacts TritonSem TritonSemFacts.

(** ** Environments of values *)
Section env.
Context {Value D : Type} `{!EqDecision Value}.
Implicit Types (ρ : Value → D) (vs : list Value) (ds : list D).

Lemma set_all_notin vs ds ρ v : v ∉ vs → set_all vs ds ρ v = ρ v.
Proof.
  unfold set_all. revert ds ρ. induction vs as [|w vs IH]; intros [|d ds] ρ Hv; simpl; try done.
  rewrite IH by set_solver. unfold set1. rewrite decide_False; set_solver.
Qed.
Lemma set_all_in vs ds ρ : NoDup vs → length vs = length ds → set_all vs ds ρ <$> vs = ds.
Proof.
  revert ds ρ. induction vs as [|w vs IH]; intros [|d ds] ρ Hnd Hlen; try done.
  apply NoDup_cons in Hnd as [Hw Hnd]. rewrite fmap_cons. unfold set_all. simpl. f_equal.
  - fold (set_all vs ds (set1 w d ρ)). rewrite set_all_notin by done. unfold set1. by rewrite decide_True.
  - apply (IH ds (set1 w d ρ)); [done|]. by injection Hlen.
Qed.
Lemma set1_ne v d ρ w : w ≠ v → set1 v d ρ w = ρ w.
Proof. intros. unfold set1. by rewrite decide_False. Qed.
Lemma set1_eq v d ρ : set1 v d ρ v = d.
Proof. unfold set1. by rewrite decide_True. Qed.
End env.

(** The parallel lists of a carried local, its value and its data. *)
Lemma carried_value {Value D : Type} (carry : list Local) (vs : list Value) (m : gmap Local Value)
    (ρ : Value → D) (env : Local → D) x :
  Forall2 (λ l v, m !! l = Some v) carry vs → ρ <$> vs = env <$> carry → x ∈ carry →
  ∃ v, m !! x = Some v ∧ v ∈ vs ∧ ρ v = env x.
Proof.
  intros Hf Hm [i Hi]%list_elem_of_lookup. destruct (Forall2_lookup_l _ _ _ _ _ Hf Hi) as (v & Hv & Hx).
  exists v. split_and!; [done|by eapply list_elem_of_lookup_2|].
  pose proof (f_equal (.!! i) Hm) as E. simpl in E. rewrite !list_lookup_fmap, Hv, Hi in E. by injection E.
Qed.

Section for_sem.
Context {BlockRef Value MType Mod : Type} `{!EqDecision BlockRef} `{!EqDecision Value}.
Context `{!MlirBuilder BlockRef Value MType Mod} `{!ScfBuilder BlockRef Value MType Mod}.
Context {D Mem : Type} (dia : Dialect MType D Mem) (sem : MirSem D Mem).
Abbreviation State := (CodegenState Value).
Abbreviation gen := (cg (State * Mod)).
Abbreviation Blocks := (gmap BasicBlock BlockRef).
Abbreviation Op := (MlirOp BlockRef Value).
Abbreviation venv := (Value → D).
Abbreviation lenv := (Local → D).
Implicit Types (s : State * Mod) (b : BlockRef) (ρ : venv) (env : lenv) (μ : Mem).

Context (instantiate : Const → Const) (is_option_ty : Place → bool).
Context (codegen_assign : Place → Rvalue → BlockRef → gen unit).
Context (codegen_operand : Operand → BlockRef → gen Value).
Context (method : Operand → list Operand → Place → BlockRef → gen (option Value)).
Context (fuel : nat) (mir : Body) (opt : Local → bool).

(** The data of a list of locals whose values agree. *)
Lemma inits_agree (L : gset Local) s ρ ρ1 env ls vs :
  agree sem opt L s ρ env → list_to_set ls ⊆ L → (∀ x, x ∈ ls → opt x = false) →
  (∀ v, has_value s.2 v → ρ1 v = ρ v) →
  Forall2 (λ x v, ssa_values s.1 !! x = Some v) ls vs → ρ1 <$> vs = env <$> ls.
Proof.
  intros Hag HL Hopt Hρ Hvs. induction Hvs as [|x v ls vs Hv Hvs IH]; [done|].
  rewrite !fmap_cons. f_equal; [|apply IH; [set_solver|intros; apply Hopt; by right]].
  specialize (Hag x ltac:(set_solver)). unfold holds in Hag. rewrite Hopt in Hag by (by left).
  destruct Hag as (w & Hw & Hh & <-). simplify_eq. by apply Hρ.
Qed.

(** The code of assignments, operands and calls is correct and the arithmetic is
    that of 32-bit integers. *)
Record loop_laws : Prop := {
  law_tame : tame_handlers codegen_assign codegen_operand method;
  law_keep : keep_handlers codegen_assign codegen_operand method;
  law_sim : sim_handlers dia sem codegen_assign codegen_operand method opt;
  law_frame : sem_frame sem;
  law_int ty n : (-(2 ^ 31) ≤ n < 2 ^ 31)%Z → d_to_int dia (d_int dia ty n) = n;
  law_true d : d_true dia d = negb (is_zero sem d) }.

(** What MIR says of an assignment to a whole local, of the discriminant of an
    [Option], of reading a whole local, and of an integer constant. *)
Record range_laws : Prop := {
  rg_mem p rv σ σ' : no_projection p = true → assign_sem sem p rv σ σ' → σ'.2 = σ.2;
  rg_discr p q o σ σ' :
    no_projection p = true → no_projection q = true → assign_sem sem p (Discriminant q) σ σ' →
    σ.1 (pl_local q) = d_option sem o →
    switch_value sem (σ'.1 (pl_local p)) = match o with Some _ => 1%Z | None => 0%Z end;
  rg_read op p σ d :
    op = Copy p ∨ op = Move p → no_projection p = true → operand_sem sem op σ d → d = σ.1 (pl_local p);
  rg_const c n σ d :
    try_const_operand_as_i64 c = Some n → (-(2 ^ 31) ≤ n < 2 ^ 31)%Z →
    operand_sem sem (Constant c) σ d → d_to_int dia d = n }.
Context (Hlaw : loop_laws).
Abbreviation holds := (holds sem opt).
Abbreviation agree := (agree sem opt).
Abbreviation computes := (computes dia).
Abbreviation block_pre := (straight_block is_option_ty codegen_assign method mir).
Abbreviation path := (mir_path sem mir).

Lemma exec_region_plains (m : Mod) (ops rest : list Op) ρ μ ρ' μ' e μ2 :
  exec_plains dia ops (ρ, μ) = Some (ρ', μ') → exec_region dia m rest ρ' μ' e μ2 →
  exec_region dia m (ops ++ rest) ρ μ e μ2.
Proof.
  revert ρ μ. induction ops as [|o ops IH]; intros ρ μ; cbn [exec_plains app].
  - by intros [= -> ->].
  - destruct (exec_plain dia o (ρ, μ)) as [[ρ1 μ1]|] eqn:E; simpl; [|done].
    intros Hops Hrest. eapply region_plain; [done|]. by apply IH.
Qed.

(** One iteration: a chain's region, entered with values that agree, yields the
    data of the carried locals at the end of the MIR path. *)
Lemma region_yields h entry b bbs carry vals L s s1 (m : Mod) ρ μ env σ' :
  head bbs = Some entry → is_chain mir h bbs = true → forallb (visible_block mir) bbs = true →
  (∀ bb, bb ∈ bbs → quiet s.1 bb) → (∀ x, used_first mir x bbs = true → x ∈ L) →
  has_block s.2 b → block_ops s.2 b = [] → agree L s ρ env →
  (∀ x, x ∈ carry → opt x = false ∧ x ∈ (list_to_set (body_assigned mir bbs) ∪ L : gset Local)) →
  runs (cg_iter (block_pre b) bbs) s tt s1 →
  Forall2 (λ x v, ssa_values s1.1 !! x = Some v) carry vals →
  block_ops m b = block_ops s1.2 b ++ [ScfYield vals] →
  path h entry (env, μ) σ' →
  exec_region dia m (block_ops m b) ρ μ (Yielded (σ'.1 <$> carry)) σ'.2.
Proof.
  intros Hhd Hch Hvis Hq Huse Hb Hempty Hag Hcarry Hrun Hvals Hops Hpath.
  destruct Hlaw as [Ltame Lkeep Lsim Lframe Lint Ltrue].
  eapply chain_sim in Hpath as (ρ' & (new & Hnew & Hex & Hfr) & Hag'); [|done..].
  rewrite Hops, Hnew, Hempty. cbn [app].
  eapply exec_region_plains; [exact Hex|].
  replace (σ'.1 <$> carry) with (ρ' <$> vals); [constructor|].
  clear -Hvals Hcarry Hag'. induction Hvals as [|x v carry vals Hv Hvals IH]; [done|].
  rewrite !fmap_cons. f_equal; [|apply IH; intros; apply Hcarry; by right].
  destruct (Hcarry x) as [Ho Hx]; [by left|]. specialize (Hag' x Hx).
  unfold TritonSemFacts.holds in Hag'. rewrite Ho in Hag'. destruct Hag' as (w & Hw & _ & <-). congruence.
Qed.

(** After a loop its carried locals stand for its results, and the others of [I]
    are as before. *)
Lemma results_agree ls (I : gset Local) results s s' ssa5 ρ ρ1 env env' :
  NoDup ls → length results = length ls → NoDup results → (∀ x, x ∈ ls → opt x = false) →
  (∀ v, v ∈ results → has_value s'.2 v ∧ ¬ has_value s.2 v) →
  (∀ v, has_value s.2 v → has_value s'.2 v ∧ ρ1 v = ρ v) →
  ssa_values s'.1 = insert_all ls results ssa5 → agree I s ρ env →
  (∀ x, x ∈ I → x ∉ ls → ssa5 !! x = ssa_values s.1 !! x ∧
     option_table s'.1 !! x = option_table s.1 !! x ∧ env' x = env x) →
  agree (I ∪ list_to_set ls) s' (set_all results (env' <$> ls) ρ1) env'.
Proof.
  intros Hnd Hlen Hndr Hopt Hres Hval Hssa Hag HI x Hx. unfold TritonSemFacts.holds. rewrite Hssa.
  destruct (decide (x ∈ ls)) as [Hc|Hc].
  - rewrite Hopt by done. destruct (carried_value ls results (insert_all ls results ssa5)
      (set_all results (env' <$> ls) ρ1) env' x) as (v & Hv & Hvin & Hd); [by apply insert_all_in| |done|].
    + apply set_all_in; [done|by rewrite length_fmap].
    + exists v. split_and!; [done|by apply Hres|done].
  - assert (HxI : x ∈ I) by (apply elem_of_union in Hx as [?|?%elem_of_list_to_set]; done).
    destruct (HI x HxI Hc) as (E1 & E2 & E3). rewrite insert_all_notin, E1, E2, E3 by done.
    specialize (Hag x HxI). unfold TritonSemFacts.holds in Hag.
    assert (Hsame : ∀ v, has_value s.2 v → set_all results (env' <$> ls) ρ1 v = ρ v ∧ has_value s'.2 v).
    { intros v Hv. destruct (Hval v Hv) as [? <-]. split; [|done]. apply set_all_notin. intros Hr. by apply (Hres v Hr). }
    destruct (opt x); destruct Hag as (v & ? & Hh & ?); exists v; destruct (Hsame v Hh) as [-> ?]; done.
Qed.

(** ** The loop *)
Context (l : RangeLoopInfo) (I : gset Local).
Abbreviation carry := (rl_iter_carry_locals l).
Abbreviation body_bbs := (rl_body_bbs l).
Abbreviation nrl := (rl_next_result_local l).
Abbreviation i32 := (int_type (BlockRef:=BlockRef) (Value:=Value) (Mod:=Mod) 32).

(** The loop is a chain that the analysis of carried locals sees through; [I] are
    locals from outside that it reads. *)
Record for_body_ok : Prop := {
  fb_chain : is_chain mir (rl_header_bb l) body_bbs = true;
  fb_entry : head body_bbs = Some (rl_body_entry_bb l);
  fb_visible : forallb (visible_block mir) body_bbs = true;
  fb_nodup : NoDup carry;
  fb_assigned x : x ∈ carry → x ∈ body_assigned mir body_bbs;
  fb_used x : used_first mir x body_bbs = true →
    x ∈ carry ∨ x ∈ I ∨ nrl = Some x;
  fb_outer x : x ∈ I → (x ∉ body_assigned mir body_bbs) ∧
    x ≠ rl_induction_local l ∧ x ≠ rl_counter_local l ∧ nrl ≠ Some x;
  fb_opt x : x ∈ carry → opt x = false;
  fb_nrl x : nrl = Some x → opt x = true }.
Context (Hbody : for_body_ok).

Definition for_locals : gset Local :=
  I ∪ list_to_set carry ∪ list_to_set (option_list nrl).

(** At the start of the body's code, with the arguments set for iteration [k]. *)
Lemma entry_agree s (m3 : Mod) iv args k ds ρ0 ρ env0 env :
  NoDup (iv :: args) → (∀ v, v ∈ iv :: args → has_value m3 v ∧ ¬ has_value s.2 v) →
  (∀ v, has_value s.2 v → has_value m3 v) → (∀ v, has_value s.2 v → ρ v = ρ0 v) →
  length args = length carry → ds = env <$> carry → value_type iv = i32 →
  agree I s ρ0 env0 → (∀ x, x ∈ I → env x = env0 x) →
  (∀ x, nrl = Some x → env x = d_some sem (d_int dia i32 k)) →
  agree for_locals (for_entry l iv args s.1, m3) (set_all args ds (set1 iv (d_int dia (value_type iv) k) ρ)) env.
Proof.
  intros [Hiv Hnd]%NoDup_cons Hvals Hmono Hρ Hlen -> -> Hag HI Hnext x Hx.
  set (ρk := set_all args (env <$> carry) (set1 iv (d_int dia i32 k) ρ)).
  assert (Hρiv : ρk iv = d_int dia i32 k) by (unfold ρk; by rewrite set_all_notin, set1_eq).
  assert (Hρo : ∀ v, has_value s.2 v → ρk v = ρ0 v).
  { intros v Hv. unfold ρk. rewrite set_all_notin, set1_ne; [by apply Hρ| |].
    - intros ->. by apply (Hvals iv ltac:(by left)).
    - intros Hin. by apply (Hvals v ltac:(by right)). }
  unfold TritonSemFacts.holds.
  assert (Essa : ssa_values (for_entry l iv args s.1) =
    insert_all carry args (<[rl_counter_local l := iv]> (<[rl_induction_local l := iv]> (ssa_values s.1)))).
  { unfold for_entry. by destruct nrl. }
  assert (Eopt : ∀ y, nrl ≠ Some y → option_table (for_entry l iv args s.1) !! y = option_table s.1 !! y).
  { intros y Hy. unfold for_entry. destruct nrl; [|done]. simpl. apply lookup_insert_ne. congruence. }
  cbn [fst snd]. rewrite Essa. destruct (decide (nrl = Some x)) as [Hn|Hn].
  { rewrite (fb_nrl Hbody x Hn), (Hnext x Hn). exists iv. split_and!; [|by apply (Hvals iv); left|by rewrite Hρiv].
    unfold for_entry. rewrite Hn. simpl. apply lookup_insert_eq. }
  destruct (decide (x ∈ carry)) as [Hc|Hc].
  { rewrite (fb_opt Hbody x) by done.
    destruct (carried_value carry args (insert_all carry args (<[rl_counter_local l:=iv]> (<[rl_induction_local l:=iv]> (ssa_values s.1))))
      ρk env x) as (v & Hv & Hin & Hd); [by apply insert_all_in; [apply (fb_nodup Hbody)|]| |done|].
    { by apply set_all_in; [|rewrite length_fmap]. }
    exists v. split_and!; [exact Hv|by apply Hvals; right|done]. }
  rewrite insert_all_notin by done.
  assert (x ∈ I) as HxI.
  { unfold for_locals in Hx. rewrite !elem_of_union, elem_of_list_to_set in Hx.
    assert (x ∉ (list_to_set (option_list nrl) : gset Local)) by (destruct nrl; set_solver). naive_solver. }
  destruct (fb_outer Hbody x HxI) as (_ & Hi & Hk & _).
  rewrite Eopt, !lookup_insert_ne, (HI x HxI) by done.
  specialize (Hag x HxI). unfold TritonSemFacts.holds in Hag.
  destruct (opt x); destruct Hag as (v & Hv & Hhas & Hd); exists v;
    (split_and!; [done|by apply Hmono|]); rewrite Hρo by done; done.
Qed.

(** *** The header *)
Definition assigns (s : StatementKind) : bool := match s with Assign _ _ => true | _ => false end.

(** The header sets temporaries and calls [next]; the block it returns to switches
    on the discriminant of the result. *)
Record for_header_ok (dh dsw : BasicBlockData) (sw : BasicBlock) (dest p : Place) : Prop := {
  fh_block : block_at mir (rl_header_bb l) = Ret dh;
  fh_term : ∃ f cargs u, terminator dh = Ret (Call f cargs dest (Some sw) u);
  fh_visible : forallb visible_stmt (statements dh) = true;
  fh_temps x : x ∈ I ∨ x ∈ carry → x ∉ omap dest_local (statements dh) ∧ x ≠ pl_local p;
  fh_exit : rl_body_entry_bb l ≠ rl_exit_bb l;
  fs_block : block_at mir sw = Ret dsw;
  fs_stmts : List.filter assigns (statements dsw) = [Assign p (Discriminant dest)];
  fs_place : no_projection p = true ∧ pl_local p ≠ pl_local dest;
  fs_term : ∃ discr targets, (discr = Copy p ∨ discr = Move p) ∧ terminator dsw = Ret (SwitchInt discr targets) }.

Lemma stmts_assigns stmts : ∀ σ σ', stmts_sem sem stmts σ σ' → stmts_sem sem (List.filter assigns stmts) σ σ'.
Proof.
  induction stmts as [|stmt stmts IH]; intros σ σ'; [done|]. intros (σ1 & H1 & H2%IH).
  destruct stmt; simpl in *; try done; try (by subst σ1). by exists σ1.
Qed.
Lemma stmts_memory stmts : range_laws → forallb visible_stmt stmts = true →
  ∀ σ σ', stmts_sem sem stmts σ σ' → σ'.2 = σ.2.
Proof.
  intros Hr. induction stmts as [|stmt stmts IH]; intros Hv σ σ'; [by intros ->|].
  simpl in Hv. apply andb_true_iff in Hv as [Hv Hvs]. intros (σ1 & H1 & H2%IH); [|done]. rewrite H2.
  destruct stmt; simpl in *; try done; try (by subst σ1).
  apply andb_true_iff in Hv as [Hp _]. by eapply (rg_mem Hr).
Qed.

(** One round of the header: the carried and outer locals and the memory stay, the
    result of [next] is stored, and the switch goes where the range says. *)
Lemma header_round fuel0 gargs dh dsw sw dest p r sw' t σ σ1 σ2 :
  range_laws → reported fuel0 gargs mir l → for_header_ok dh dsw sw dest p →
  next_step sem mir (d_int dia i32) (rl_header_bb l) sw' r σ σ1 → switch_step sem mir sw' t σ1 σ2 →
  σ2.2 = σ.2 ∧ (∀ x, x ∈ I ∨ x ∈ carry → σ2.1 x = σ.1 x) ∧
  (∀ x, nrl = Some x → σ2.1 x = d_option sem (d_int dia i32 <$> (range_next r).1)) ∧
  t = if (r.1 <? r.2)%Z then rl_body_entry_bb l else rl_exit_bb l.
Proof.
  intros Hr Hrep Hh (d & f & cargs & dest' & u & σh & Hd & Hk & Hst & _ & Hm1 & Hdest & Ho1)
    (d' & discr & targets & c & Hd' & Hk' & Hst' & Hop & Htgt).
  destruct Hh as [Bh (f0 & ca0 & u0 & Th) Vh Temps Hexit Bs Ss (Hp & Hpd) (discr0 & tg0 & Hdiscr & Ts)].
  assert (d = dh) as -> by congruence. rewrite Th in Hk. injection Hk as <- <- <- <- <-.
  assert (d' = dsw) as -> by congruence. rewrite Ts in Hk'. injection Hk' as <- <-.
  destruct (reported_call fuel0 gargs mir l f0 ca0 dest (Some sw) u0 Hrep)
    as (sw1 & dd & tt1 & [= <-] & Hdp & Hn & Hts & Hti & _); [unfold terminator_at; by rewrite Bh|].
  unfold terminator_at in Hts. rewrite Bs in Hts. simpl in Hts. rewrite Ts in Hts. injection Hts as <- <-.
  assert (Hst2 := Hst'). apply stmts_assigns in Hst2. rewrite Ss in Hst2. destruct Hst2 as (σa & Ha & Hσa). simpl in Ha, Hσa. subst σa.
  pose proof (law_frame Hlaw) as Hframe.
  assert (Hdisc : switch_value sem c = if (r.1 <? r.2)%Z then 1%Z else 0%Z).
  { rewrite (rg_read Hr discr0 p σ2 c Hdiscr Hp Hop).
    rewrite (rg_discr Hr p dest (d_int dia i32 <$> (range_next r).1) σ1 σ2 Hp Hdp Ha Hdest).
    unfold range_next. by destruct (r.1 <? r.2)%Z. }
  split_and!.
  - rewrite (rg_mem Hr _ _ _ _ Hp Ha), Hm1. by eapply stmts_memory.
  - intros x Hx. destruct (Temps x Hx) as [Ht Hne]. rewrite (assign_frame _ Hframe _ _ _ _ x Ha Hne), Ho1.
    + by eapply (stmts_frame _ Hframe).
    + intros ->. pose proof (fb_nrl Hbody _ Hn) as Ho. destruct Hx as [Hx|Hx].
      * by destruct (fb_outer Hbody _ Hx) as (_ & _ & _ & ?).
      * pose proof (fb_opt Hbody _ Hx). congruence.
  - intros x Hx. assert (x = pl_local dest) as -> by congruence.
    by rewrite (assign_frame _ Hframe _ _ _ _ (pl_local dest) Ha) by done.
  - unfold Switch.target_for_value in Htgt. rewrite Hti, Hdisc in Htgt.
    by destruct (r.1 <? r.2)%Z; injection Htgt as <-.
Qed.

(** All iterations from [k] on, over the code the stages leave. *)
Lemma for_iterations fuel0 gargs dh dsw sw dest p s (m3 m : Mod) s5 body iv args vals ρ0 ρ env0 :
  range_laws → reported fuel0 gargs mir l → for_header_ok dh dsw sw dest p →
  NoDup (iv :: args) → (∀ v, v ∈ iv :: args → has_value m3 v ∧ ¬ has_value s.2 v) →
  (∀ v, has_value s.2 v → has_value m3 v) → (∀ v, has_value s.2 v → ρ v = ρ0 v) →
  length args = length carry → value_type iv = i32 → agree I s ρ0 env0 →
  (∀ bb, bb ∈ body_bbs → quiet s.1 bb) → has_block m3 body → block_ops m3 body = [] →
  runs (cg_iter (block_pre body) body_bbs) (for_entry l iv args s.1, m3) tt s5 →
  Forall2 (λ x v, ssa_values s5.1 !! x = Some v) carry vals →
  block_ops m body = block_ops s5.2 body ++ [ScfYield vals] → block_args m body = iv :: args →
  ∀ r σ σ', mir_for sem mir (d_int dia i32) (rl_header_bb l) (rl_exit_bb l) r σ σ' →
  (∀ x, x ∈ I → σ.1 x = env0 x) →
  exec_for dia m body r.2 1 ρ r.1 (σ.1 <$> carry) σ.2 (σ'.1 <$> carry) σ'.2 ∧ (∀ x, x ∈ I → σ'.1 x = env0 x).
Proof.
  intros Hr Hrep Hh Hnd Hvals Hmono Hρ Hlen Hty Hag Hq Hb Hempty Hrun Hy Hops Hargs r σ σ' Hfor.
  assert (Hfmap : ∀ σ1 σ2 : lenv * Mem, (∀ x, x ∈ I ∨ x ∈ carry → σ2.1 x = σ1.1 x) → σ1.1 <$> carry = σ2.1 <$> carry).
  { intros σ1 σ2 E. apply list_fmap_ext. intros i x Hx%list_elem_of_lookup_2. symmetry. by apply E; right. }
  induction Hfor as [r sw' σ σ1 σ2 Hn Hs|r sw' t σ σ1 σ2 σ3 σ4 Hn Hs Ht Hpath Hfor IH]; intros HI;
    destruct (header_round _ _ _ _ _ _ _ _ _ _ _ _ _ Hr Hrep Hh Hn Hs) as (Hμ & Hsame & Hnext & Htgt);
    destruct (Z.ltb_spec r.1 r.2) as [Hlt|Hge].
  - by destruct (fh_exit _ _ _ _ _ Hh).
  - split; [|intros x Hx; rewrite Hsame by (by left); by apply HI].
    rewrite Hμ, (Hfmap σ σ2 Hsame). by constructor.
  - subst t. assert (HI2 : ∀ x, x ∈ I → σ2.1 x = env0 x).
    { intros x Hx. rewrite Hsame by (by left). by apply HI. }
    assert (HI3 : ∀ x, x ∈ I → σ3.1 x = env0 x).
    { intros x Hx. destruct (fb_outer Hbody x Hx) as (Hna & _).
      rewrite (chain_frame _ _ (law_frame Hlaw) _ _ _ _ _ x (fb_entry Hbody) (fb_chain Hbody) (fb_visible Hbody) Hpath Hna).
      by apply HI2. }
    destruct (IH HI3) as [IH1 IH2]. split; [|done].
    assert (Er : range_next r = (Some r.1, (r.1 + 1, r.2)%Z)).
    { unfold range_next. by rewrite (proj2 (Z.ltb_lt _ _) Hlt). }
    rewrite Er in IH1, Hnext. cbn [fst snd] in IH1, Hnext.
    eapply for_step; [done|exact Hargs| |exact IH1].
    destruct σ2 as [env μ]. cbn [fst snd] in *. subst μ.
    eapply (region_yields (rl_header_bb l) _ body body_bbs carry vals for_locals (for_entry l iv args s.1, m3) s5);
      [apply (fb_entry Hbody)|apply (fb_chain Hbody)|apply (fb_visible Hbody)| | |done|done| | |done|done|done|exact Hpath].
    + intros bb Hbb. destruct (Hq bb Hbb). unfold quiet, for_entry. by destruct nrl.
    + intros x Hx. unfold for_locals. pose proof (fb_used Hbody x Hx) as Hu.
      rewrite !elem_of_union, !elem_of_list_to_set.
      clear -Hu. destruct Hu as [H|[H|H]]; [tauto..|]. right. rewrite H. by left.
    + eapply entry_agree; try done. by apply (Hfmap σ (env, σ.2)).
    + intros x Hx. split; [by apply (fb_opt Hbody)|]. apply elem_of_union. left.
      by apply elem_of_list_to_set, (fb_assigned Hbody).
  - by destruct Ht.
Qed.

(** The constants before the loop. *)
Lemma exec_bound_ops lb step ub (m : Mod) ρ μ :
  bounds_new l lb step ub m → value_type lb = i32 → value_type step = i32 →
  ∃ ρ1, exec_plains dia (bound_ops l lb step ub : list Op) (ρ, μ) = Some (ρ1, μ) ∧
    (∀ v, has_value m v → ρ1 v = ρ v) ∧ d_to_int dia (ρ1 lb) = 0%Z ∧ d_to_int dia (ρ1 step) = 1%Z ∧
    match rl_bound_const l with
    | Some n => (-(2 ^ 31) ≤ n < 2 ^ 31)%Z → d_to_int dia (ρ1 ub) = n
    | None => True
    end.
Proof.
  intros [Hnd Hnew] Hlb Hst. unfold bound_ops. destruct Hlaw as [_ _ _ _ Lint _].
  destruct (rl_bound_const l) as [n|]; simpl in *.
  - eexists. split; [done|]. cbv beta.
    assert (lb ≠ step ∧ lb ≠ ub ∧ step ≠ ub) as (? & ? & ?).
    { rewrite !NoDup_cons in Hnd. set_solver. }
    split_and!.
    + intros v Hv. rewrite !set1_ne; [done|..]; intros ->; eapply Hnew; [|done| |done| |done]; set_solver.
    + rewrite !set1_ne, set1_eq by done. by apply Lint.
    + rewrite set1_ne, set1_eq by done. by apply Lint.
    + rewrite set1_eq. apply Lint.
  - eexists. split; [done|]. cbv beta.
    assert (lb ≠ step) by (rewrite !NoDup_cons in Hnd; set_solver).
    split_and!.
    + intros v Hv. rewrite !set1_ne; [done|..]; intros ->; eapply Hnew; [|done| |done]; set_solver.
    + rewrite set1_ne, set1_eq by done. by apply Lint.
    + rewrite set1_eq. by apply Lint.
    + done.
Qed.
End for_sem.
