(* ===== verification/TritonScfModel.v ===== *)
(** * A concrete instance of the interfaces of loop emission

    Numbered values and blocks in maps, the code of additions and comparisons of
    integers, and their meaning: the hypotheses of the theorems on loops can
    hold, and concrete loops can be run. *)
From S2P Require Import Prelude Codegen Mir Worklist TritonCfg TritonLoops TritonEmit TritonEmitFacts TritonScf TritonScfFacts TritonForFacts TritonSem TritonSemFacts TritonForSem.

(** ** The builder *)
Fixpoint svalues (n : nat) (ts : list nat) : list SValue :=
  match ts with [] => [] | t :: ts' => mkSValue n t :: svalues (S n) ts' end.

Lemma svalues_types n ts : sv_ty <$> svalues n ts = ts.
Proof. revert n. induction ts as [|t ts IH]; intros n; [done|]. cbn [svalues]. by rewrite fmap_cons, IH. Qed.
Lemma svalues_ids n ts v : v ∈ svalues n ts → n ≤ sv_id v < n + length ts.
Proof.
  revert n. induction ts as [|t ts IH]; intros n; simpl; [by intros ?%elem_of_nil|].
  intros [->|Hv]%elem_of_cons; simpl; [lia|]. apply IH in Hv. lia.
Qed.
Lemma svalues_nodup n ts : NoDup (svalues n ts).
Proof.
  revert n. induction ts as [|t ts IH]; intros n; simpl; [constructor|].
  apply NoDup_cons_2; [|done]. intros Hv%svalues_ids. simpl in Hv. lia.
Qed.

Definition store_block (ts : list nat) (m : Store) : nat * Store :=
  (next_block m, mkStore (next_id m + length ts) (S (next_block m))
    (<[next_block m := svalues (next_id m) ts]> (store_args m)) (<[next_block m := []]> (store_ops m))).
Definition store_results (ts : list nat) (m : Store) : list SValue * Store :=
  (svalues (next_id m) ts,
   mkStore (next_id m + length ts) (next_block m) (store_args m) (store_ops m)).

#[export, refine] Instance store_scf : ScfBuilder nat SValue nat Store := {|
  int_type w := Z.to_nat w;
  has_block m b := b < next_block m;
  has_value m v := sv_id v < next_id m;
  new_block := store_block;
  new_results := store_results |}.
Proof.
  all: intros; simpl in *; try done.
  - simpl. lia.
  - destruct H as [| ->]; simpl; lia.
  - lia.
  - lia.
  - destruct (decide (b = next_block m)) as [->|]; [by rewrite lookup_insert_eq|by rewrite lookup_insert_ne].
  - by rewrite lookup_insert_ne.
  - rewrite lookup_insert_eq. apply svalues_types.
  - rewrite lookup_insert_eq in H. apply svalues_ids in H. lia.
  - rewrite lookup_insert_eq. apply svalues_nodup.
  - rewrite lookup_insert_eq in H. destruct H as [| H%svalues_ids]; lia.
  - apply svalues_types.
  - apply svalues_ids in H. lia.
  - apply svalues_nodup.
  - destruct H as [| H%svalues_ids]; lia.
Defined.

(** ** Additions and comparisons of integers *)
Section handlers.
Abbreviation St := (CodegenState SValue * Store)%type.
Abbreviation gen := (cg St).
Implicit Types (s : St) (env : Local → Z) (ρ : SValue → Z) (μ : unit).

(** The local that lives in [option_table]. *)
Context (opt : Local → bool).

Definition int_operand (op : Operand) (b : nat) : gen SValue :=
  match op with
  | Copy p | Move p =>
      if opt (pl_local p) then
        if no_projection p then cg_panic
        else t ← st_get option_table; cg_lift (unwrap (mjoin (t !! pl_local p)))
      else if no_projection p then ssa_value (pl_local p) else cg_panic
  | Constant c => n ← cg_lift (unwrap (try_const_operand_as_i64 c)); arith_constant b n 0
  | RuntimeChecks => cg_panic
  end.
Definition int_code (o : BinOp) : option nat :=
  match o with Add => Some 0 | BLt => Some 1 | _ => None end.
Definition int_rvalue (rv : Rvalue) (b : nat) : gen SValue :=
  match rv with
  | Use op => int_operand op b
  | BinaryOp o x y =>
      n ← cg_lift (unwrap (int_code o)); vx ← int_operand x b; vy ← int_operand y b;
      r ← results_new [0]; v ← cg_lift (unwrap (head r)); _ ← append b (OtherOp n [vx; vy] [v]); mret v
  | _ => cg_panic
  end.
Definition int_assign (p : Place) (rv : Rvalue) (b : nat) : gen unit :=
  if opt (pl_local p) then cg_panic else v ← int_rvalue rv b; ssa_insert (pl_local p) v.
Definition int_method (f : Operand) (args : list Operand) (dest : Place) (b : nat) : gen (option SValue) :=
  cg_panic.

Definition int_dialect : Dialect nat Z unit := mkDialect (λ _ n, n) (λ d, d)
  (λ x y, if (x =? y)%Z then 1%Z else 0%Z) (λ d, negb (d =? 0)%Z)
  (λ n μ ds, match n, ds with
             | 0, [x; y] => Some (μ, [(x + y)%Z])
             | 1, [x; y] => Some (μ, [if (x <? y)%Z then 1%Z else 0%Z])
             | _, _ => None end).

(** [Some(z)] is [2z + 1] and [None] is [0]. *)
Definition payload (z : Z) : Z := ((z - 1) / 2)%Z.
Definition operand_val env (op : Operand) : option Z :=
  match op with
  | Copy p | Move p => Some (if no_projection p then env (pl_local p) else payload (env (pl_local p)))
  | Constant c => try_const_operand_as_i64 c
  | RuntimeChecks => None
  end.
Definition rvalue_val env (rv : Rvalue) : option Z :=
  match rv with
  | Use op => operand_val env op
  | BinaryOp Add x y => a ← operand_val env x; b ← operand_val env y; Some (a + b)%Z
  | BinaryOp BLt x y => a ← operand_val env x; b ← operand_val env y; Some (if (a <? b)%Z then 1%Z else 0%Z)
  | Discriminant p => Some (if (env (pl_local p) =? 0)%Z then 0%Z else 1%Z)
  | _ => None
  end.
Definition int_sem : MirSem Z unit := mkMirSem
  (λ p rv σ σ', ∃ d, rvalue_val σ.1 rv = Some d ∧ σ'.1 (pl_local p) = d ∧
     ∀ l, l ≠ pl_local p → σ'.1 l = σ.1 l)
  (λ _ _ _ _ _, False) (λ op σ d, operand_val σ.1 op = Some d) (λ d, d) (λ d, (2 * d + 1)%Z) 0%Z.

(** ** The laws *)
Lemma int_operand_tame op b : tame (int_operand op b) b.
Proof.
  destruct op; simpl; unfold st_get; repeat case_match; eauto with tame.
  apply tame_bind; [apply tame_lift|]. intros n. unfold arith_constant.
  repeat (apply tame_bind; [eauto with tame|intros ?]). eauto with tame.
Qed.
Lemma int_rvalue_tame rv b : tame (int_rvalue rv b) b.
Proof.
  destruct rv; simpl; try apply tame_panic; [apply int_operand_tame|].
  repeat (apply tame_bind; [eauto using int_operand_tame with tame|intros ?]). eauto with tame.
Qed.
Lemma int_tame : tame_handlers int_assign int_operand int_method.
Proof.
  split.
  - intros p rv b. unfold int_assign. destruct (opt _); [apply tame_panic|].
    apply tame_bind; [apply int_rvalue_tame|]. intros. apply tame_ssa_insert.
  - apply int_operand_tame.
  - intros. apply tame_panic.
Qed.

(** Evaluating an operand or rvalue does not touch the tables. *)
Lemma int_operand_state op b s v s' : runs (int_operand op b) s v s' → s'.1 = s.1.
Proof.
  destruct op as [p|p|c|]; simpl; unfold st_get; repeat case_match; intros Hr;
    try (by apply runs_panic in Hr); try (by apply runs_ssa_value in Hr as [_ ->]);
    try (by apply runs_bind in Hr as (? & ? & [-> ->]%runs_get & [_ ->]%runs_lift)).
  apply runs_bind in Hr as (n & ? & [_ ->]%runs_lift & Hr). unfold arith_constant in Hr.
  by apply runs_bind in Hr as (r & ? & [-> ->]%runs_results_new & (w & ? & [_ ->]%runs_lift & (? & ? & ->%runs_modify & [_ ->]%runs_ret)%runs_bind)%runs_bind).
Qed.
Lemma int_rvalue_state rv b s v s' : runs (int_rvalue rv b) s v s' → s'.1 = s.1.
Proof.
  destruct rv; simpl; try (by intros ?%runs_panic); [apply int_operand_state|].
  intros (n & ? & [_ ->]%runs_lift & (vx & s1 & H1 & (vy & s2 & H2 & (rs & ? & [-> ->]%runs_results_new & (w & ? & [_ ->]%runs_lift & (? & ? & ->%runs_modify & [_ ->]%runs_ret)%runs_bind)%runs_bind)%runs_bind)%runs_bind)%runs_bind)%runs_bind.
  apply int_operand_state in H1, H2. simpl. congruence.
Qed.
Lemma int_keep : keep_handlers int_assign int_operand int_method.
Proof.
  split.
  - intros p rv b s s' H l Hl. unfold int_assign in H. destruct (opt _); [by apply runs_panic in H|].
    apply runs_bind in H as (v & s1 & H%int_rvalue_state & ->%runs_modify). simpl. rewrite H.
    rewrite lookup_insert_ne by set_solver. done.
  - intros f args dest b s v s' H. by apply runs_panic in H.
  - intros op b s v s' H%int_operand_state l _. by rewrite H.
Qed.

Abbreviation agree := (agree int_sem opt).
Abbreviation computes := (computes int_dialect).

(** A new value set on top changes nothing that exists. *)
Lemma computes_one b (o : MlirOp nat SValue) s (m : Store) ρ μ (v : SValue) d :
  block_ops m b = block_ops s.2 b ++ [o] → exec_plain int_dialect o (ρ, μ) = Some (set1 v d ρ, μ) →
  next_id s.2 ≤ sv_id v → computes b s (s.1, m) ρ μ (set1 v d ρ) μ.
Proof.
  intros Ho He Hv. exists [o]. split_and!; [done|by cbn [exec_plains]; rewrite He|].
  intros w Hw. simpl in Hw. apply set1_ne. intros ->. lia.
Qed.
Lemma agree_mono L s s' ρ ρ' env :
  s'.1 = s.1 → (∀ v, has_value s.2 v → has_value s'.2 v ∧ ρ' v = ρ v) → agree L s ρ env → agree L s' ρ' env.
Proof.
  intros E Hv Hag l Hl. specialize (Hag l Hl). unfold holds in *. rewrite E.
  destruct (opt l); destruct Hag as (v & ? & Hh & ?); exists v; destruct (Hv v Hh) as [? ->]; done.
Qed.

Lemma int_operand_sim op b L s v s' ρ μ env d :
  (∀ l, operand_uses_local op l = true → l ∈ L) → agree L s ρ env →
  runs (int_operand op b) s v s' → operand_val env op = Some d → has_block s.2 b →
  ∃ ρ', computes b s s' ρ μ ρ' μ ∧ agree L s' ρ' env ∧ ρ' v = d ∧ has_value s'.2 v.
Proof.
  intros Hu Hag Hr Hd Hb.
  assert (Hplace : ∀ p, pl_local p ∈ L →
    runs (if opt (pl_local p) then if no_projection p then cg_panic
          else t ← st_get option_table; cg_lift (unwrap (mjoin (t !! pl_local p)))
          else if no_projection p then ssa_value (pl_local p) else cg_panic) s v s' →
    s' = s ∧ ρ v = (if no_projection p then env (pl_local p) else payload (env (pl_local p))) ∧ has_value s.2 v).
  { intros p Hp Hrun. specialize (Hag _ Hp). unfold holds in Hag. destruct (opt (pl_local p)).
    - destruct (no_projection p); [by apply runs_panic in Hrun|].
      apply runs_bind in Hrun as (t & ? & [-> ->]%runs_get & [H ->]%runs_lift).
      destruct Hag as (w & Hw & Hh & ->). rewrite Hw in H. simpl in H. injection H as <-.
      split_and!; [done| |done]. unfold payload. simpl. rewrite Z.add_simpl_r, Z.mul_comm. by rewrite Z.div_mul.
    - destruct (no_projection p); [|by apply runs_panic in Hrun].
      apply runs_ssa_value in Hrun as [H ->]. destruct Hag as (w & Hw & Hh & <-). by simplify_eq. }
  destruct op as [p|p|c|]; simpl in *; try done.
  1, 2: destruct (Hplace p) as (-> & Hv & Hh); [apply Hu, Nat.eqb_refl|done|]; exists ρ;
    split_and!; [apply computes_refl|done|congruence|done].
  apply runs_bind in Hr as (n & ? & [Hn ->]%runs_lift & H). rewrite Hd in Hn. injection Hn as <-.
  destruct (runs_constant _ _ _ _ _ _ H Hb) as ([Hg _] & E & _ & Hnew & Hhas).
  exists (set1 v d ρ). split_and!.
  - replace s' with (s.1, s'.2) by (rewrite <-E; by destruct s').
    apply (computes_one b (ArithConstant d v)); [apply (g_ops _ _ _ _ Hg)|done|]. simpl in Hnew. lia.
  - apply (agree_mono L s s' ρ); [done| |done]. intros w Hw. split; [by apply (g_values _ _ _ _ Hg)|].
    apply set1_ne. by intros ->.
  - apply set1_eq.
  - done.
Qed.
Lemma int_operand_values op b s v s' : has_block s.2 b → runs (int_operand op b) s v s' →
  has_block s'.2 b ∧ ∀ w, has_value s.2 w → has_value s'.2 w.
Proof.
  intros Hb Hr. destruct (int_operand_tame op b _ _ _ Hb Hr) as (new & Hg & _).
  split; [by apply (g_blocks _ _ _ _ Hg)|apply (g_values _ _ _ _ Hg)].
Qed.

(** An operation on two integers. *)
Lemma int_binary_sim n vx vy b L s v s' ρ μ env d :
  agree L s ρ env → has_block s.2 b → has_value s.2 vx → has_value s.2 vy →
  op_sem int_dialect n μ [ρ vx; ρ vy] = Some (μ, [d]) →
  runs (r ← results_new [0]; v ← cg_lift (unwrap (head r)); _ ← append b (OtherOp n [vx; vy] [v]); mret v) s v s' →
  ∃ ρ', computes b s s' ρ μ ρ' μ ∧ agree L s' ρ' env ∧ ρ' v = d ∧ has_value s'.2 v.
Proof.
  intros Hag Hb Hx Hy Hop.
  intros (rs & ? & [-> ->]%runs_results_new & (w & ? & [Hw ->]%runs_lift & (? & ? & ->%runs_modify & [-> ->]%runs_ret)%runs_bind)%runs_bind)%runs_bind.
  cbn [fst snd new_results store_scf store_results svalues head unwrap] in *. injection Hw as <-.
  set (v := mkSValue (next_id s.2) 0) in *. exists (set1 v d ρ). split_and!.
  - apply (computes_one b (OtherOp n [vx; vy] [v])); [|cbn [exec_plain]|simpl; lia].
    + rewrite append_operation_ops, decide_True by done. done.
    + rewrite !fmap_cons, fmap_nil, Hop. done.
  - apply (agree_mono L s _ ρ); [done| |done]. intros u Hu. simpl in *. split; [lia|].
    apply set1_ne. intros ->. simpl in Hu. lia.
  - apply set1_eq.
  - simpl. lia.
Qed.

Lemma int_rvalue_sim rv b L s v s' ρ μ env d :
  (∀ l, rvalue_uses_local rv l = true → l ∈ L) → agree L s ρ env → has_block s.2 b →
  runs (int_rvalue rv b) s v s' → rvalue_val env rv = Some d →
  ∃ ρ', computes b s s' ρ μ ρ' μ ∧ agree L s' ρ' env ∧ ρ' v = d ∧ has_value s'.2 v.
Proof.
  intros Hu Hag Hb Hr Hd. destruct rv as [op| | | | | |o x y| | | | | | ]; simpl in *; try done.
  { by eapply int_operand_sim. }
  apply runs_bind in Hr as (n & ? & [Hn ->]%runs_lift & (vx & s1 & H1 & (vy & s2 & H2 & Hr)%runs_bind)%runs_bind).
  destruct (int_operand_values _ _ _ _ _ Hb H1) as [Hb1 M1].
  destruct (int_operand_values _ _ _ _ _ Hb1 H2) as [Hb2 M2].
  assert (Hab : ∃ da db, operand_val env x = Some da ∧ operand_val env y = Some db ∧
    op_sem int_dialect n μ [da; db] = Some (μ, [d])).
  { destruct o; simpl in *; simplify_eq; destruct (operand_val env x) as [da|]; simpl in *; try done;
      destruct (operand_val env y) as [db|]; simpl in *; simplify_eq; by exists da, db. }
  destruct Hab as (da & db & Ha & Hdb & Hop).
  destruct (int_operand_sim x b L s vx s1 ρ μ env da) as (ρ1 & C1 & A1 & V1 & P1); try done.
  { intros l Hl. apply Hu. by rewrite Hl. }
  destruct (int_operand_sim y b L s1 vy s2 ρ1 μ env db) as (ρ2 & C2 & A2 & V2 & P2); try done.
  { intros l Hl. apply Hu. by rewrite Hl, orb_true_r. }
  destruct C2 as (n2 & O2 & X2 & F2).
  destruct (int_binary_sim n vx vy b L s2 v s' ρ2 μ env d) as (ρ3 & C3 & A3 & V3 & P3); try done.
  { by apply M2. }
  { by rewrite F2, V1, V2. }
  exists ρ3. split_and!; [|done..]. eapply computes_trans; [exact M1|exact C1|].
  eapply computes_trans; [exact M2|by exists n2|exact C3].
Qed.

Lemma int_sim : sim_handlers int_dialect int_sem int_assign int_operand int_method opt.
Proof.
  split.
  - intros p rv b L s s' ρ [] env env' [] _ _ Hu Hb Hag Hr (d & Hd & Hp & Hother). simpl in *.
    unfold int_assign in Hr. destruct (opt (pl_local p)) eqn:Ho; [by apply runs_panic in Hr|].
    apply runs_bind in Hr as (v & s1 & H1 & ->%runs_modify).
    destruct (int_rvalue_sim rv b L s v s1 ρ tt env d) as (ρ' & (n1 & O1 & X1 & F1) & A & V & P); try done.
    exists ρ'. split; [by exists n1|]. intros l Hl. unfold holds. simpl.
    destruct (decide (l = pl_local p)) as [->|Hne].
    + rewrite Ho, lookup_insert_eq. exists v. by rewrite Hp.
    + assert (l ∈ L) as HL by set_solver. specialize (A l HL). unfold holds in A.
      rewrite lookup_insert_ne by done. by rewrite Hother.
  - done.
  - intros op b L s v s' ρ [] env d _ Hu Hb Hag Hr Hd.
    destruct (int_operand_sim op b L s v s' ρ tt env d) as (ρ' & C & A & V & _); try done. by exists ρ'.
Qed.

Lemma int_laws : loop_laws int_dialect int_sem int_assign int_operand int_method opt.
Proof.
  split; [apply int_tame|apply int_keep|apply int_sim| |done|].
  - split; [|done]. intros p rv σ σ' l (d & _ & _ & Ho) Hl. by apply Ho.
  - intros d. done.
Qed.
Lemma int_range_laws : range_laws int_dialect int_sem.
Proof.
  split.
  - by intros p rv [env []] [env' []].
  - intros p q o σ σ' _ _ (d & [= <-] & -> & _) E. rewrite E. destruct o as [d|]; simpl; [|done].
    by destruct (Z.eqb_spec (2 * d + 1) 0); [lia|].
  - intros op p σ d [->| ->] Hp [= <-]; by rewrite Hp.
  - intros c n σ d Hc _ Hd. simpl in *. congruence.
Qed.
End handlers.
