(* ===== verification/TritonScfThms.v ===== *)
(** * Structured control flow: the theorems

    [scf.for]: what [codegen_scf_for_loop] emits computes the range loop of the
    MIR, run from its header; and where its operations go.  Then a loop of four
    iterations, detected, emitted and run. *)
From S2P Require Import Prelude Codegen Mir Worklist TritonCfg TritonLoops TritonLoopsFacts TritonLoopsThms TritonEmit TritonEmitFacts TritonScf TritonScfFacts TritonForFacts TritonSem TritonSemFacts TritonForSem TritonScfModel.

Section thms.
Context {BlockRef Value MType Mod : Type} `{!EqDecision BlockRef} `{!EqDecision Value}.
Context `{!MlirBuilder BlockRef Value MType Mod} `{!ScfBuilder BlockRef Value MType Mod}.
Context {D Mem : Type} (dia : Dialect MType D Mem) (sem : MirSem D Mem).
Abbreviation State := (CodegenState Value).
Abbreviation gen := (cg (State * Mod)).
Abbreviation Blocks := (gmap BasicBlock BlockRef).
Abbreviation Op := (MlirOp BlockRef Value).
Context (instantiate : Const → Const) (is_option_ty : Place → bool).
Context (codegen_assign : Place → Rvalue → BlockRef → gen unit).
Context (codegen_operand : Operand → BlockRef → gen Value).
Context (method : Operand → list Operand → Place → BlockRef → gen (option Value)).
Context (fuel : nat) (mir : Body) (opt : Local → bool).
Implicit Types (s : State * Mod) (m : Mod).

(** The number of iterations. *)
Definition bound_value (l : RangeLoopInfo) (I : gset Local) (env : Local → D) (n : Z) : Prop :=
  match rl_bound_const l with
  | Some c => c = n ∧ (-(2 ^ 31) ≤ n < 2 ^ 31)%Z
  | None => ∃ x, rl_bound_local l = Some x ∧ x ∈ I ∪ list_to_set (rl_iter_carry_locals l) ∧
                 opt x = false ∧ d_to_int dia (env x) = n
  end.

(** The facts of the emitted code that both theorems use. *)
Lemma for_emitted l b outer s s' :
  tame_handlers codegen_assign codegen_operand method →
  is_chain mir (rl_header_bb l) (rl_body_bbs l) = true → rl_body_entry_bb l ∈ rl_body_bbs l →
  skip_bbs s.1 = ∅ → has_block s.2 b →
  runs (codegen_scf_for_loop instantiate is_option_ty codegen_assign codegen_operand method fuel mir l b outer) s tt s' →
  ∃ lb step ub inits results iv args body exit_block pre vals m1 m3 s5,
    ctx_run b (bound_ops l lb step ub) s (s.1, m1) ∧ bound_is l s.1 ub ∧ bounds_new l lb step ub s.2 ∧
    value_type lb = int_type 32 ∧ value_type step = int_type 32 ∧
    Forall2 (λ x v, ssa_values s.1 !! x = Some v) (rl_iter_carry_locals l) inits ∧
    (value_type <$> results = value_type <$> inits) ∧ NoDup results ∧ (∀ v, v ∈ results → ¬ has_value m1 v) ∧
    outer !! rl_exit_bb l = Some exit_block ∧ ¬ has_block s.2 body ∧
    (value_type <$> iv :: args = int_type 32 :: (value_type <$> inits)) ∧ NoDup (iv :: args) ∧
    (∀ v, v ∈ iv :: args → has_value m3 v ∧ ¬ has_value m1 v) ∧ (∀ v, v ∈ results → has_value m3 v) ∧
    (∀ v, has_value m1 v → has_value m3 v) ∧
    has_block m3 body ∧ block_ops m3 body = [] ∧
    runs (cg_iter (straight_block is_option_ty codegen_assign method mir body) (rl_body_bbs l))
      (for_entry l iv args s.1, m3) tt s5 ∧
    Forall2 (λ x v, ssa_values s5.1 !! x = Some v) (rl_iter_carry_locals l) vals ∧
    block_ops s5.2 body = pre ∧ forallb plain_op pre = true ∧
    block_ops s'.2 body = pre ++ [ScfYield vals] ∧ block_args s'.2 body = iv :: args ∧
    block_ops s'.2 b = block_ops s.2 b ++ bound_ops l lb step ub ++
      [ScfFor lb ub step inits body results; CfBr exit_block []] ∧
    (∀ b', has_block s.2 b' → block_args s'.2 b' = block_args s.2 b' ∧
       (b' ≠ b → block_ops s'.2 b' = block_ops s.2 b')) ∧
    (∀ v, has_value m3 v → has_value s'.2 v) ∧
    s'.1 = with_ssa (leave_loop s5.1) (insert_all (rl_iter_carry_locals l) results (ssa_values s5.1)).
Proof.
  intros Htame Hch Hentry Hskip Hb Hrun.
  eapply for_loop_stages in Hrun as (lb & step & ub & s1 & inits & vals & ex & s5 & H); [|done..].
  cbn zeta in H. destruct H as (R1 & E1 & Hbd & Hnew & Tlb & Tst & Hin & (iv & args & Hargs & Hbody) & _ & Hb5 & Hvals & Hex & ->).
  set (types := value_type <$> inits) in *. pose proof (results_fresh types s1.2) as NR.
  set (results := (new_results types s1.2).1) in *. set (m2 := (new_results types s1.2).2) in *.
  pose proof (block_fresh (int_type 32 :: types) m2) as NB.
  set (body := (new_block (int_type 32 :: types) m2).1) in *. set (m3 := (new_block (int_type 32 :: types) m2).2) in *.
  pose proof R1 as [G1 _]. assert (Hs1 : s1 = (s.1, s1.2)) by (destruct s1; by rewrite <-E1).
  assert (Hold : ∀ x, has_block s.2 x → x ≠ body ∧ has_block m3 x ∧ block_ops m3 x = block_ops s1.2 x ∧
    block_args m3 x = block_args s.2 x).
  { intros x Hx. destruct (nb_old _ _ _ _ NB x) as (? & ? & -> & ->); [by apply (nr_blocks _ _ _ _ NR), (g_blocks _ _ _ _ G1)|].
    rewrite (nr_ops _ _ _ _ NR), (nr_args _ _ _ _ NR), (g_args _ _ _ _ G1) by done. done. }
  destruct (straight_blocks_ctx _ _ _ _ _ Htame _ _ _ _ Hbody (nb_block _ _ _ _ NB)) as (pre & [G5 _] & Hpre).
  pose proof (nb_ops _ _ _ _ NB) as Hops3. pose proof (g_ops _ _ _ _ G5) as Hpre5. cbn [snd] in Hpre5. rewrite Hops3 in Hpre5.
  assert (H5 : ∀ x, has_block s.2 x → block_ops s5.2 x = block_ops s1.2 x ∧ block_args s5.2 x = block_args s.2 x).
  { intros x Hx. destruct (Hold x Hx) as (Hne & Hx3 & <- & <-). split; [by apply (g_other _ _ _ _ G5)|by apply (g_args _ _ _ _ G5)]. }
  destruct (Hold b Hb) as (Hbody_b & _). destruct (H5 b Hb) as [Hsame _]. rewrite (g_ops _ _ _ _ G1) in Hsame.
  exists lb, step, ub, inits, results, iv, args, body, ex, pre, vals, s1.2, m3, s5.
  split_and!; try done.
  all: cbn [fst snd]; rewrite ?append_operation_ops, ?append_operation_args; rewrite <-?Hargs.
  - by rewrite <-Hs1.
  - apply (nr_types _ _ _ _ NR).
  - apply (nr_nodup _ _ _ _ NR).
  - intros v Hv. by apply (nr_results _ _ _ _ NR).
  - intros Hbb. by destruct (Hold _ Hbb).
  - apply (nb_types _ _ _ _ NB).
  - apply (nb_nodup _ _ _ _ NB).
  - intros v Hv. destruct (nb_args _ _ _ _ NB v Hv) as [? Hn]. split; [done|]. intros ?. by apply Hn, (nr_values _ _ _ _ NR).
  - intros v Hv. by apply (nb_values _ _ _ _ NB), (nr_results _ _ _ _ NR).
  - intros v Hv. by apply (nb_values _ _ _ _ NB), (nr_values _ _ _ _ NR).
  - apply (nb_block _ _ _ _ NB).
  - by rewrite !decide_False, decide_True, Hpre5 by done.
  - apply (g_args _ _ _ _ G5), (nb_block _ _ _ _ NB).
  - by rewrite !decide_True, decide_False, Hsame, <-!app_assoc by done.
  - intros x Hx. rewrite !append_operation_args. destruct (H5 x Hx) as [Hx5 ->]. split; [done|]. intros Hne.
    destruct (Hold x Hx). rewrite !append_operation_ops, !decide_False, Hx5 by done. by apply (g_other _ _ _ _ G1).
  - intros v Hv. rewrite !append_has_value. by apply (g_values _ _ _ _ G5).
Qed.
(** The table entries of a local that is neither carried nor set by the loop. *)
Lemma for_entry_other l iv args (st : State) x :
  x ∉ rl_iter_carry_locals l → x ≠ rl_induction_local l → x ≠ rl_counter_local l →
  rl_next_result_local l ≠ Some x →
  ssa_values (for_entry l iv args st) !! x = ssa_values st !! x ∧
  option_table (for_entry l iv args st) !! x = option_table st !! x.
Proof.
  intros Hc Hi Hk Hn. unfold for_entry. destruct (rl_next_result_local l) as [nrl|]; simpl;
    rewrite insert_all_notin, !lookup_insert_ne by congruence; by repeat split; rewrite ?lookup_insert_ne by congruence.
Qed.

(** The bound computed for the emitted loop is the number of iterations. *)
Lemma bound_computed l I s ρ ρ1 env ub n :
  agree sem opt (I ∪ list_to_set (rl_iter_carry_locals l)) s ρ env → bound_value l I env n → bound_is l s.1 ub →
  (∀ v, has_value s.2 v → ρ1 v = ρ v) →
  match rl_bound_const l with Some c => (-(2 ^ 31) ≤ c < 2 ^ 31)%Z → d_to_int dia (ρ1 ub) = c | None => True end →
  d_to_int dia (ρ1 ub) = n.
Proof.
  intros Hag Hbound Hbd Hρ Hc. unfold bound_value, bound_is in *. destruct (rl_bound_const l) as [c|].
  - destruct Hbound as [-> ?]. by apply Hc.
  - destruct Hbound as (x & Hx & Hxin & Hox & <-). destruct Hbd as (x' & Hx' & Hub).
    assert (x' = x) as -> by congruence. specialize (Hag x Hxin). unfold holds in Hag. rewrite Hox in Hag.
    destruct Hag as (w & Hw & Hh & <-). assert (w = ub) as -> by congruence. by rewrite Hρ.
Qed.

(** The range that the loop iterates over is built of [lo] and [hi], which still
    have their values when the loop is entered; it starts at 0, its end is a 32-bit
    constant or a local known outside or carried. *)
Definition range_entered (l : RangeLoopInfo) (I : gset Local) (lo hi : Operand) (σ : (Local → D) * Mem)
    (n : Z) : Prop :=
  ∃ a b, operand_sem sem lo σ a ∧ operand_sem sem hi σ b ∧ d_to_int dia a = 0%Z ∧ d_to_int dia b = n ∧
    (∀ c, rl_bound_const l = Some c → (-(2 ^ 31) ≤ c < 2 ^ 31)%Z) ∧
    (∀ x, rl_bound_local l = Some x → x ∈ I ∪ list_to_set (rl_iter_carry_locals l) ∧ opt x = false).

(** The bound that detection found is the end of that range. *)
Lemma range_bound_value fuel0 gargs l I dh dsw sw dest p lo hi env μ n :
  range_laws dia sem → reported fuel0 gargs mir l → for_header_ok mir l I dh dsw sw dest p →
  first_range mir (seq 0 (rl_header_bb l)) = Some (lo, hi) → range_entered l I lo hi (env, μ) n →
  bound_value l I env n.
Proof.
  intros Hr Hrep Hh Hfirst (a & d & _ & Hhi & _ & <- & Hc & Hx).
  destruct (fh_term _ _ _ _ _ _ _ _ Hh) as (f & ca & u & Ht). pose proof (fh_block _ _ _ _ _ _ _ _ Hh) as Hb.
  destruct (reported_call fuel0 gargs mir l f ca dest (Some sw) u Hrep) as (_ & _ & _ & _ & _ & _ & _ & _ & Hbound).
  { unfold terminator_at. by rewrite Hb. }
  unfold find_range_bound in Hbound. rewrite (find_range_bound_first mir _ lo hi Hfirst) in Hbound.
  2: { intros bb Hbb%elem_of_seq. unfold block_at in Hb.
       destruct (basic_blocks mir !! rl_header_bb l) eqn:E; [|done]. apply lookup_lt_Some in E. lia. }
  injection Hbound as Hbound. unfold bound_value.
  assert (Hplace : ∀ p', hi = Copy p' ∨ hi = Move p' → range_end hi = Some (rl_bound_const l, rl_bound_local l) →
    rl_bound_const l = None ∧ rl_bound_local l = Some (pl_local p') ∧ no_projection p' = true).
  { intros p' Hp' Hend. destruct Hp' as [->| ->]; simpl in Hend;
      destruct (no_projection p'); simplify_eq; by split_and!. }
  assert (∀ p', hi = Copy p' ∨ hi = Move p' → match rl_bound_const l with
    | Some c => c = d_to_int dia d ∧ (-(2 ^ 31) ≤ d_to_int dia d < 2 ^ 31)%Z
    | None => ∃ x, rl_bound_local l = Some x ∧ x ∈ I ∪ list_to_set (rl_iter_carry_locals l) ∧
                   opt x = false ∧ d_to_int dia (env x) = d_to_int dia d end) as Hlocal.
  { intros p' Hp'. destruct (Hplace p' Hp' Hbound) as (-> & Ebl & Hnp). exists (pl_local p').
    destruct (Hx _ Ebl). split_and!; [done..|]. by rewrite (rg_read _ _ Hr hi p' (env, μ) d Hp' Hnp Hhi). }
  destruct hi as [p'|p'|c|]; [eapply Hlocal; by left|eapply Hlocal; by right| |done].
  simpl in Hbound. destruct (try_const_operand_as_i64 c) as [n|] eqn:Ec; simpl in Hbound; [|done].
  injection Hbound as Ebc _. rewrite <-Ebc. pose proof (Hc n (eq_sym Ebc)) as Hn. by rewrite (rg_const _ _ Hr c n (env, μ) d Ec Hn Hhi).
Qed.

(** C1: The code emitted for a range loop refines the MIR loop.  The loop is one
    that [detect_range_loop] reports and whose header calls [next]; the MIR side
    runs the header's statements, [Range::next] on the iterator's range, the switch
    on the discriminant of what it returned, and the blocks of the body, until the
    switch goes to the exit.  When the iterator is the first range built before the
    loop, starts at 0 and still has its end in the operand it was built from, the
    body is a chain of blocks that the analysis of carried locals sees through, and
    the code of assignments, calls and operands is correct, then for every such
    execution the emitted bounds and [scf.for] run to the end, with the same effect
    on memory, and leave in the table of values what the carried locals and the
    outer locals hold at the exit.  (Ranges that start elsewhere, and a range built
    before the loop's own, compile to another loop: [loop_detection_divergences].) *)
Theorem scf_for_refines fuel0 gargs l b outer s s' I dh dsw sw dest p lo hi ρ μ env env' μ' n :
  loop_laws dia sem codegen_assign codegen_operand method opt → range_laws dia sem →
  reported fuel0 gargs mir l → for_header_ok mir l I dh dsw sw dest p →
  first_range mir (seq 0 (rl_header_bb l)) = Some (lo, hi) → range_entered l I lo hi (env, μ) n →
  for_body_ok mir opt l I → (∀ bb, bb ∈ rl_body_bbs l → quiet s.1 bb) →
  skip_bbs s.1 = ∅ → has_block s.2 b →
  agree sem opt (I ∪ list_to_set (rl_iter_carry_locals l)) s ρ env →
  runs (codegen_scf_for_loop instantiate is_option_ty codegen_assign codegen_operand method fuel mir l b outer) s tt s' →
  mir_for sem mir (d_int dia (int_type (BlockRef:=BlockRef) (Value:=Value) (Mod:=Mod) 32))
    (rl_header_bb l) (rl_exit_bb l) (0%Z, n) (env, μ) (env', μ') →
  ∃ pre op exit_block ρ1 ρ',
    block_ops s'.2 b = block_ops s.2 b ++ pre ++ [op; CfBr exit_block []] ∧
    outer !! rl_exit_bb l = Some exit_block ∧
    exec_plains dia pre (ρ, μ) = Some (ρ1, μ) ∧ exec_loop dia s'.2 ρ1 μ op ρ' μ' ∧
    agree sem opt (I ∪ list_to_set (rl_iter_carry_locals l)) s' ρ' env'.
Proof.
  intros Hlaw Hr Hrep Hhead Hfirst Hentered Hbody Hq Hskip Hb Hag Hrun Hfor.
  assert (Hbound : bound_value l I env n) by by eapply range_bound_value. set (carry := rl_iter_carry_locals l) in *.
  assert (Hentry : rl_body_entry_bb l ∈ rl_body_bbs l).
  { pose proof (fb_entry _ _ _ _ Hbody) as H. destruct (rl_body_bbs l); simplify_eq/=. by left. }
  eapply for_emitted in Hrun
    as (lb & step & ub & inits & results & iv & args & body & ex & pre & vals & m1 & m3 & s5 & R1 & Hbd & Hnew & Tlb & Tst
        & Hin & Tres & Ndres & Newres & Hex & Hnb & Targs & Ndargs & Newargs & Hres3 & Hm13 & Hm3 & Hops3 & Hcode & Hvals & Hpre & _
        & Hbops & Hbargs & Hiops & _ & Hms & Es'); [|apply (law_tame _ _ _ _ _ _ Hlaw)|apply (fb_chain _ _ _ _ Hbody)|done..].
  pose proof (g_values _ _ _ _ (proj1 R1)) as Hm1. cbn [snd] in Hm1.
  destruct (exec_bound_ops dia sem _ _ _ _ _ Hlaw l I Hbody lb step ub s.2 ρ μ Hnew Tlb Tst)
    as (ρ1 & Hexec & Hρ1 & Elb & Estep & Eub).
  assert (Hinits : ρ1 <$> inits = env <$> carry).
  { eapply inits_agree; [done|set_solver| |done|done]. intros x Hx. by apply (fb_opt _ _ _ _ Hbody). }
  assert (Hlen : length inits = length carry) by (symmetry; by eapply Forall2_length).
  assert (HagI : agree sem opt I s ρ env) by (eapply agree_sub; [|exact Hag]; set_solver).
  assert (Hn : d_to_int dia (ρ1 ub) = n) by by eapply bound_computed.
  assert (Hlargs : length args = length carry).
  { apply (f_equal length) in Targs. simpl in Targs. rewrite !length_fmap in Targs. lia. }
  edestruct (for_iterations dia sem is_option_ty codegen_assign codegen_operand method mir opt Hlaw l I Hbody
    fuel0 gargs dh dsw sw dest p s m3 s'.2 s5 body iv args vals ρ ρ1 env) with (r := (0%Z, n)) as [Hiter HI]; try done.
  { intros v Hv. destruct (Newargs v Hv) as [? Hno]. split; [done|]. by intros ?%Hm1. }
  { intros v Hv. by apply Hm13, Hm1. }
  { by injection Targs. }
  { by rewrite Hpre. }
  cbn [fst snd] in *.
  exists (bound_ops l lb step ub), (ScfFor lb ub step inits body results), ex, ρ1, (set_all results (env' <$> carry) ρ1).
  split_and!; [done|done|done| |].
  { apply exec_scf_for. by rewrite Hn, Estep, Elb, Hinits. }
  pose proof (fb_nodup _ _ _ _ Hbody) as Hnd.
  eapply (results_agree sem opt carry I results s s' (ssa_values s5.1) ρ ρ1 env env'); try done.
  { apply (f_equal length) in Tres. rewrite !length_fmap in Tres. lia. }
  { intros x Hx. by apply (fb_opt _ _ _ _ Hbody). }
  { intros v Hv. split; [by apply Hms, Hres3|]. intros Hh. by apply (Newres v Hv), Hm1. }
  { intros v Hv. split; [by apply Hms, Hm13, Hm1|by apply Hρ1]. }
  { by rewrite Es'. }
  intros x HxI Hc. destruct (fb_outer _ _ _ _ Hbody x HxI) as (Hna & Hi & Hk & Hnx).
  destruct (for_entry_other l iv args s.1 x Hc Hi Hk Hnx) as [Essa Eopt].
  destruct (blocks_keep dia sem is_option_ty codegen_assign codegen_operand method mir opt
    (law_tame _ _ _ _ _ _ Hlaw) (law_sim _ _ _ _ _ _ Hlaw) (law_keep _ _ _ _ _ _ Hlaw) body (rl_body_bbs l)
    (for_entry l iv args s.1, m3) s5 (fb_visible _ _ _ _ Hbody) Hm3) with (2 := Hcode) (l := x) as [Kssa Kopt]; [|done|].
  { intros bb Hbb. destruct (Hq bb Hbb). unfold quiet, for_entry. by destruct (rl_next_result_local l). }
  rewrite Es'. cbn [ssa_values option_table with_ssa leave_loop with_skip with_loop].
  rewrite Kssa, Kopt. cbn [fst]. rewrite Essa, Eopt. split_and!; [done|done|by apply HI].
Qed.

(** The code emitted for a range loop whose body is a chain: where the operations
    go, the types of the block arguments and results, the yield at the end of the
    body, and the carried locals that stand for the results afterwards. *)
Theorem scf_for_emission l b outer s s' :
  tame_handlers codegen_assign codegen_operand method →
  is_chain mir (rl_header_bb l) (rl_body_bbs l) = true → rl_body_entry_bb l ∈ rl_body_bbs l →
  NoDup (rl_iter_carry_locals l) → skip_bbs s.1 = ∅ → has_block s.2 b →
  runs (codegen_scf_for_loop instantiate is_option_ty codegen_assign codegen_operand method fuel mir l b outer) s tt s' →
  ∃ lb step ub inits results iv args body exit_block pre vals,
    block_ops s'.2 b = block_ops s.2 b ++ bound_ops l lb step ub ++
      [ScfFor lb ub step inits body results; CfBr exit_block []] ∧
    bound_is l s.1 ub ∧ outer !! rl_exit_bb l = Some exit_block ∧
    Forall2 (λ x v, ssa_values s.1 !! x = Some v) (rl_iter_carry_locals l) inits ∧
    ¬ has_block s.2 body ∧ block_args s'.2 body = iv :: args ∧
    (value_type <$> iv :: args = int_type 32 :: (value_type <$> inits)) ∧
    (value_type <$> results = value_type <$> inits) ∧
    block_ops s'.2 body = pre ++ [ScfYield vals] ∧ forallb plain_op pre = true ∧ length vals = length inits ∧
    (∀ b', has_block s.2 b' → block_args s'.2 b' = block_args s.2 b' ∧
       (b' ≠ b → block_ops s'.2 b' = block_ops s.2 b')) ∧
    Forall2 (λ x v, ssa_values s'.1 !! x = Some v) (rl_iter_carry_locals l) results ∧
    loop_header_bb s'.1 = None ∧ loop_back_edge_bb s'.1 = None ∧ skip_bbs s'.1 = ∅.
Proof.
  intros Htame Hch Hentry Hnd Hskip Hb Hrun.
  eapply for_emitted in Hrun
    as (lb & step & ub & inits & results & iv & args & body & ex & pre & vals & m1 & m3 & s5 & _ & Hbd & _ & _ & _
        & Hin & Tres & _ & _ & Hex & Hnb & Targs & _ & _ & _ & _ & _ & _ & _ & Hvals & _ & Hplain
        & Hbops & Hbargs & Hiops & Hother & _ & Es'); [|done..].
  exists lb, step, ub, inits, results, iv, args, body, ex, pre, vals.
  pose proof (Forall2_length _ _ _ Hin) as Hl1. pose proof (Forall2_length _ _ _ Hvals) as Hl2.
  assert (Hl3 : length results = length inits) by (apply (f_equal length) in Tres; by rewrite !length_fmap in Tres).
  split_and!; try done; [lia|..]; rewrite Es'; try done.
  cbn [ssa_values with_ssa]. by apply insert_all_in; [|lia].
Qed.
End thms.

(** ** [for i in 0..4 { _6 += i }] *)
Definition for_example : RangeLoopInfo := mkRange 1 3 [3] 3 5 5 None (Some 4%Z) 5 [6] (Some 2) (Some 3) [].
Definition for_opt (l : Local) : bool := l =? 3.
Definition for_start_state : CodegenState SValue * Store :=
  (with_ssa new_state {[6 := mkSValue 0 7]}, mkStore 1 20 ∅ ∅).
Definition for_code : cg (CodegenState SValue * Store) unit :=
  codegen_scf_for_loop (λ c, c) (λ _, false) (int_assign for_opt) (int_operand for_opt) int_method 10 range_body
    for_example 10 {[5 := 12]}.
Lemma for_example_ok : for_body_ok range_body for_opt for_example ∅.
Proof.
  split; try done.
  - repeat constructor. by intros ?%elem_of_nil.
  - intros x ->%list_elem_of_singleton. right. by left.
  - intros x Hx. cbv -[Nat.eqb] in Hx.
    destruct (Nat.eqb_spec 3 x) as [E|_]; [subst x; by right; right|].
    destruct (Nat.eqb_spec 5 x) as [E|_]; [done|].
    destruct (Nat.eqb_spec 6 x) as [E|_]; [subst x; left; by left|done].
  - intros x Hx. by apply list_elem_of_singleton in Hx as ->.
  - by intros x [= <-].
Qed.

(** The block that switches, the round of the header, and the round of the body. *)
Definition example_switch : BasicBlockData :=
  mkBlock [Assign (loop_place 4) (Discriminant (loop_place 3))]
    (Some (SwitchInt (Move (loop_place 4)) (Switch.new [(0%Z, 5); (1%Z, 3)] 4))).
Lemma for_example_header : for_header_ok range_body for_example ∅
  (mkBlock [] (Some (Call RuntimeChecks [Move (loop_place 1)] (loop_place 3) (Some 2) UnwindContinue)))
  example_switch 2 (loop_place 3) (loop_place 4).
Proof.
  split; try done.
  - by eexists _, _, _.
  - intros x [Hx|Hx]; [done|]. apply list_elem_of_singleton in Hx as ->. split; [|done]. by intros ?%elem_of_nil.
  - eexists _, _. split; [by right|done].
Qed.
Definition after_next (r : Z * Z) (env : Local → Z) : Local → Z := λ l,
  if l =? 3 then match (range_next r).1 with Some k => (2 * k + 1)%Z | None => 0%Z end else env l.
Definition after_switch (r : Z * Z) (env : Local → Z) : Local → Z := λ l,
  if l =? 4 then (if (after_next r env 3%nat =? 0)%Z then 0%Z else 1%Z) else after_next r env l.
Definition after_body (env : Local → Z) : Local → Z := λ l,
  if l =? 6 then (env 6%nat + payload (env 3%nat))%Z else if l =? 5 then payload (env 3%nat) else env l.

Lemma example_next r env :
  next_step int_sem range_body (λ n, n) 1 2 r (env, tt) (after_next r env, tt).
Proof.
  eexists _, _, _, (loop_place 3), _, _. split_and!; try done.
  - unfold after_next. cbn [fst pl_local loop_place Nat.eqb]. by destruct ((range_next r).1).
  - intros x Hx. simpl in *. unfold after_next. by destruct (Nat.eqb_spec x 3).
Qed.
Lemma example_switch_step r env bb :
  Switch.target_for_value (Switch.new [(0%Z, 5); (1%Z, 3)] 4) (after_switch r env 4) = Ret bb →
  switch_step int_sem range_body 2 bb (after_next r env, tt) (after_switch r env, tt).
Proof.
  intros Hbb. eexists example_switch, _, _, (after_switch r env 4). split_and!; try done.
  eexists (after_switch r env, tt). split; [|done]. eexists. split_and!; [done|done|].
  intros l Hl. unfold after_switch. simpl in *. by destruct (Nat.eqb_spec l 4).
Qed.
Lemma example_path env : mir_path int_sem range_body 1 3 (env, tt) (after_body env, tt).
Proof.
  apply path_end; [|done]. unfold block_sem. do 3 eexists. split; [done|]. split; [done|]. split; [|done].
  exists (λ l, if l =? 5 then payload (env 3%nat) else env l, tt). split.
  - exists (payload (env 3%nat)). split_and!; [done|done|]. intros l Hl. simpl in *. by destruct (Nat.eqb_spec l 5).
  - eexists (_, tt). split; [|done]. exists (env 6%nat + payload (env 3%nat))%Z. split_and!; [done|done|].
    intros l Hl. simpl in *. unfold after_body. by destruct (Nat.eqb_spec l 6).
Qed.
Lemma example_iteration k env σ' : (0 ≤ k < 4)%Z →
  mir_for int_sem range_body (λ n, n) 1 5 ((k + 1)%Z, 4%Z) (after_body (after_switch (k, 4%Z) env), tt) σ' →
  mir_for int_sem range_body (λ n, n) 1 5 (k, 4%Z) (env, tt) σ'.
Proof.
  intros Hk Hrest. assert (Er : range_next (k, 4%Z) = (Some k, ((k + 1)%Z, 4%Z))).
  { unfold range_next. simpl. by destruct (Z.ltb_spec k 4); [|lia]. }
  eapply (mir_for_step _ _ _ _ _ _ _ 3); [apply example_next|apply example_switch_step|done|apply example_path|by rewrite Er].
  unfold after_switch, after_next. rewrite Er. simpl. by destruct k.
Qed.
Definition example_round (env : Local → Z) (k : Z) : Local → Z := after_body (after_switch (k, 4%Z) env).

Lemma scf_for_refines_witness :
  ∃ s' pre op ρ1 ρ' v,
    runs for_code for_start_state tt s' ∧
    block_ops s'.2 10 = pre ++ [op; CfBr 12 []] ∧
    exec_plains int_dialect pre (λ _, 100%Z, tt) = Some (ρ1, tt) ∧
    exec_loop int_dialect s'.2 ρ1 tt op ρ' tt ∧
    ssa_values s'.1 !! 6 = Some v ∧ ρ' v = 106%Z.
Proof.
  assert (Hrun : ∃ s', runs for_code for_start_state tt s') by (eexists; vm_compute; reflexivity).
  destruct Hrun as [s' Hrun].
  destruct (scf_for_refines int_dialect int_sem (λ c, c) (λ _, false) (int_assign for_opt) (int_operand for_opt)
    int_method 10 range_body for_opt (body_fuel range_body) [] for_example 10 {[5 := 12]} for_start_state s' ∅
    (mkBlock [] (Some (Call RuntimeChecks [Move (loop_place 1)] (loop_place 3) (Some 2) UnwindContinue)))
    example_switch 2 (loop_place 3) (loop_place 4) (loop_const 0) (loop_const 4) (λ _, 100%Z) tt
    (λ _, 100%Z) (after_switch (4%Z, 4%Z) (foldl example_round (λ _, 100%Z) [0; 1; 2; 3]%Z)) tt 4)
    as (pre & op & ex & ρ1 & ρ' & Hops & Hex & Hpre & Hloop & Hag).
  - apply int_laws.
  - apply int_range_laws.
  - eexists. split; [vm_compute; reflexivity|by left].
  - apply for_example_header.
  - vm_compute. reflexivity.
  - exists 0%Z, 4%Z. split_and!; [vm_compute; reflexivity..|by intros c [= <-]|done].
  - apply for_example_ok.
  - intros bb _. by split.
  - done.
  - simpl. lia.
  - intros l Hl. assert (l = 6) as -> by (simpl in Hl; set_solver).
    exists (mkSValue 0 7). split_and!; [done|simpl; lia|done].
  - exact Hrun.
  - do 4 (apply example_iteration; [lia|]).
    eapply mir_for_stop; [apply example_next|by apply example_switch_step].
  - assert (Hl : 6 ∈ (∅ ∪ list_to_set (rl_iter_carry_locals for_example) : gset Local)) by (simpl; set_solver).
    destruct (Hag 6 Hl) as (v & Hv & _ & Hd). simpl in Hex. rewrite lookup_singleton_eq in Hex. injection Hex as <-.
    exists s', pre, op, ρ1, ρ', v. split_and!; [exact Hrun|exact Hops|exact Hpre|exact Hloop|exact Hv|exact Hd].
Defined.

Lemma scf_for_emission_witness :
  ∃ s' pre, runs for_code for_start_state tt s' ∧
    block_ops s'.2 20 = pre ++ [ScfYield [mkSValue 7 0]] ∧ forallb plain_op pre = true.
Proof.
  assert (Hrun : ∃ s', runs for_code for_start_state tt s' ∧
    block_ops s'.2 10 = [ArithConstant 0 (mkSValue 1 32); ArithConstant 1 (mkSValue 2 32);
      ArithConstant 4 (mkSValue 3 32); ScfFor (mkSValue 1 32) (mkSValue 3 32) (mkSValue 2 32) [mkSValue 0 7] 20
      [mkSValue 4 7]; CfBr 12 []] ∧ last (block_ops s'.2 20) = Some (ScfYield [mkSValue 7 0]))
    by (eexists; split_and!; vm_compute; reflexivity).
  destruct Hrun as (s' & Hrun & Hops & Hlast).
  destruct (scf_for_emission (λ c, c) (λ _, false) (int_assign for_opt) (int_operand for_opt)
    int_method 10 range_body for_example 10 {[5 := 12]} for_start_state s')
    as (lb & step & ub & inits & results & iv & args & body & ex & pre & vals & Hb & _ & _ & _ & _ & _ & _ & _ & Hbody & Hp & _).
  - apply int_tame.
  - done.
  - by left.
  - repeat constructor. by intros ?%elem_of_nil.
  - done.
  - simpl. lia.
  - exact Hrun.
  - rewrite Hops in Hb. change (block_ops for_start_state.2 10) with (@nil (MlirOp nat SValue)) in Hb.
    simplify_eq/=.
    exists s', pre. rewrite Hbody, last_snoc in Hlast. injection Hlast as ->. done.
Defined.
