(* ===== verification/TritonWhileThms.v ===== *)
(** * [scf.while]: the theorems *)
From S2P Require Import Prelude Codegen Mir Worklist TritonCfg TritonLoops TritonLoopsFacts TritonLoopsThms TritonEmit TritonEmitFacts TritonScf TritonScfFacts TritonForFacts TritonSem TritonSemFacts TritonForSem TritonScfModel.

Section while_sem.
Context {BlockRef Value MType Mod : Type} `{!EqDecision BlockRef} `{!EqDecision Value}.
Context `{!MlirBuilder BlockRef Value MType Mod} `{!ScfBuilder BlockRef Value MType Mod}.
Context {D Mem : Type} (dia : Dialect MType D Mem) (sem : MirSem D Mem).
Abbreviation State := (CodegenState Value).
Abbreviation gen := (cg (State * Mod)).
Abbreviation Op := (MlirOp BlockRef Value).
Abbreviation venv := (Value → D).
Abbreviation lenv := (Local → D).
Implicit Types (s : State * Mod) (b : BlockRef) (ρ : venv) (env : lenv) (μ : Mem).

Context (instantiate : Const → Const) (is_option_ty : Place → bool).
Context (codegen_assign : Place → Rvalue → BlockRef → gen unit).
Context (codegen_operand : Operand → BlockRef → gen Value).
Context (method : Operand → list Operand → Place → BlockRef → gen (option Value)).
Context (fuel : nat) (mir : Body) (opt : Local → bool).
Context (Hlaw : loop_laws dia sem codegen_assign codegen_operand method opt).
Abbreviation agree := (agree sem opt).
Abbreviation block_pre := (straight_block is_option_ty codegen_assign method mir).
Abbreviation statements_code := (codegen_statements is_option_ty codegen_assign).

Context (wl : WhileLoopInfo) (I : gset Local) (hd : BasicBlockData) (discr : Operand).
Abbreviation carry := (wl_iter_carry_locals wl).
Abbreviation body_bbs := (wl_body_bbs wl).
Abbreviation header_stmts := (statements hd).

(** The loop is a chain that the analysis of carried locals sees through, and
    every local that an iteration reads before assigning it is carried or is one
    of [I], which the loop does not assign. *)
Record while_body_ok : Prop := {
  wb_chain : is_chain mir (wl_header_bb wl) body_bbs = true;
  wb_header : wl_header_bb wl ∉ body_bbs;
  wb_entry : head body_bbs = Some (wl_body_entry_bb wl);
  wb_visible : forallb (visible_block mir) body_bbs = true;
  wb_nodup : NoDup carry;
  wb_assigned x : x ∈ carry → x ∈ body_assigned mir body_bbs;
  wb_used x : used_first mir x body_bbs = true → x ∈ carry ∨ x ∈ I;
  wb_outer x : x ∈ I → (x ∉ body_assigned mir body_bbs) ∧ x ∉ omap dest_local header_stmts;
  wb_opt x : x ∈ carry → opt x = false;
  wb_block : block_at mir (wl_header_bb wl) = Ret hd;
  wb_term : terminator hd = Ret (SwitchInt discr (mkSwitchTargets [0%Z] [wl_exit_bb wl; wl_body_entry_bb wl]));
  wb_header_visible : forallb visible_stmt header_stmts = true;
  wb_discr_visible : visible_operand discr = true;
  wb_header_used x : head (concat (stmt_events x <$> header_stmts)) = Some true → x ∈ carry ∨ x ∈ I;
  wb_discr_used x : operand_uses_local discr x = true →
    x ∈ omap dest_local header_stmts ∨ x ∈ carry ∨ x ∈ I }.
Context (Hbody : while_body_ok).

Definition while_locals : gset Local := I ∪ list_to_set carry.

(** A region entered with the carried locals as arguments. *)
Lemma carry_agree s0 s args ρ0 ρ ds env0 env :
  NoDup args → (∀ v, v ∈ args → has_value s.2 v ∧ ¬ has_value s0.2 v) →
  (∀ v, has_value s0.2 v → has_value s.2 v ∧ ρ v = ρ0 v) → length args = length carry → ds = env <$> carry →
  keeps (carry ++ omap dest_local header_stmts) s0 s →
  agree I s0 ρ0 env0 → (∀ x, x ∈ I → env x = env0 x) →
  agree while_locals (carry_state carry args s.1, s.2) (set_all args ds ρ) env.
Proof.
  intros Hnd Hvals Hmono Hlen -> Hkeep Hag HI x Hx. unfold holds. cbn [fst snd].
  destruct (decide (x ∈ carry)) as [Hc|Hc].
  - rewrite (wb_opt Hbody) by done. cbn [carry_state with_ssa ssa_values].
    destruct (carried_value carry args (insert_all carry args (ssa_values s.1))
      (set_all args (env <$> carry) ρ) env x) as (v & Hv & Hin & Hd); [|by apply set_all_in; [|rewrite length_fmap]|done|].
    { by apply insert_all_in; [apply (wb_nodup Hbody)|]. }
    exists v. split_and!; [done|by apply Hvals|done].
  - assert (HxI : x ∈ I) by (unfold while_locals in Hx; rewrite elem_of_union, elem_of_list_to_set in Hx; tauto).
    destruct (wb_outer Hbody x HxI) as [_ Hnh]. 
    destruct (Hkeep x) as [Kssa Kopt]; [by apply not_elem_of_app|].
    cbn [carry_state with_ssa ssa_values option_table]. rewrite insert_all_notin, Kssa, Kopt, HI by done.
    specialize (Hag x HxI). unfold holds in Hag.
    destruct (opt x); destruct Hag as (v & Hv & Hh & Hd); exists v; destruct (Hmono v Hh) as [? Hρ];
      rewrite set_all_notin, Hρ by (intros Hin; by apply (Hvals v Hin)); done.
Qed.

(** The "before" region: the condition of the header and the carried locals after
    its statements. *)
Lemma before_region s s1 s2 cond args (m : Mod) b ρ μ env σ1 c :
  has_block s.2 b → block_ops s.2 b = [] → agree while_locals s ρ env →
  runs (statements_code header_stmts b) s tt s1 → runs (codegen_operand discr b) s1 cond s2 →
  Forall2 (λ x v, ssa_values s2.1 !! x = Some v) carry args →
  block_ops m b = block_ops s2.2 b ++ [ScfCondition cond args] →
  stmts_sem sem header_stmts (env, μ) σ1 → operand_sem sem discr σ1 c →
  exec_region dia m (block_ops m b) ρ μ (Condition (negb (is_zero sem c)) (σ1.1 <$> carry)) σ1.2.
Proof.
  intros Hb Hempty Hag H1 H2 Hargs Hops Hs Ho. destruct σ1 as [env1 μ1]. cbn [fst snd].
  destruct Hlaw as [Ltame Lkeep Lsim Lframe Lint Ltrue].
  destruct (stmts_sim dia sem is_option_ty codegen_assign codegen_operand method opt Ltame Lsim header_stmts b
    while_locals s s1 ρ μ env env1 μ1 (wb_header_visible Hbody)) as (ρ1 & C1 & A1); try done.
  { intros x Hx. unfold while_locals. rewrite elem_of_union, elem_of_list_to_set.
    pose proof (wb_header_used Hbody x Hx). tauto. }
  destruct (tame_values _ _ _ _ _ (tame_statements _ _ _ _ Ltame header_stmts b) Hb H1) as (Hval & Hb1 & _).
  destruct (sim_operand _ _ _ _ _ _ Lsim discr b (list_to_set (omap dest_local header_stmts) ∪ while_locals)
    s1 cond s2 ρ1 μ1 env1 c (wb_discr_visible Hbody)) as (ρ2 & C2 & A2 & V2); try done.
  { intros x Hx. unfold while_locals. rewrite !elem_of_union, !elem_of_list_to_set.
    pose proof (wb_discr_used Hbody x Hx). tauto. }
  destruct (computes_trans _ _ _ _ _ _ _ _ _ _ _ Hval C1 C2) as (new & Hnew & Hex & _).
  rewrite Hops, Hnew, Hempty. cbn [app]. eapply exec_region_plains; [exact Hex|].
  replace (env1 <$> carry) with (ρ2 <$> args).
  { rewrite <-V2, <-Ltrue. constructor. }
  eapply inits_agree; [exact A2| |apply (wb_opt Hbody)|done|done]. unfold while_locals. set_solver.
Qed.

(** The whole loop, over the code the stages leave. *)
Lemma while_iterations s sb s1 s2 s3 s5 (m : Mod) before after bargs aargs cond cargs vals ρ env0 :
  (* the "before" region *)
  s3 = (carry_state carry bargs s.1, s3.2) → NoDup bargs → length bargs = length carry →
  (∀ v, v ∈ bargs → has_value s3.2 v ∧ ¬ has_value s.2 v) → (∀ v, has_value s.2 v → has_value s3.2 v) →
  has_block s3.2 before → block_ops s3.2 before = [] → block_args m before = bargs →
  runs (statements_code header_stmts before) s3 tt s1 → runs (codegen_operand discr before) s1 cond s2 →
  Forall2 (λ x v, ssa_values s2.1 !! x = Some v) carry cargs →
  block_ops m before = block_ops s2.2 before ++ [ScfCondition cond cargs] →
  (* the "after" region *)
  sb.1 = s2.1 → NoDup aargs → length aargs = length carry →
  (∀ v, v ∈ aargs → has_value sb.2 v ∧ ¬ has_value s.2 v) → (∀ v, has_value s.2 v → has_value sb.2 v) →
  has_block sb.2 after → block_ops sb.2 after = [] → block_args m after = aargs →
  (∀ bb, bb ∈ body_bbs → quiet sb.1 bb) →
  runs (cg_iter (block_pre after) body_bbs) (while_entry wl aargs sb.1, sb.2) tt s5 →
  Forall2 (λ x v, ssa_values s5.1 !! x = Some v) carry vals →
  block_ops m after = block_ops s5.2 after ++ [ScfYield vals] →
  agree I s ρ env0 →
  ∀ σ σ', mir_while sem mir (wl_header_bb wl) (wl_body_entry_bb wl) (wl_exit_bb wl) σ σ' →
  (∀ x, x ∈ I → σ.1 x = env0 x) →
  exec_while dia m before after ρ (σ.1 <$> carry) σ.2 (σ'.1 <$> carry) σ'.2 ∧ (∀ x, x ∈ I → σ'.1 x = env0 x).
Proof.
  intros E3 Hbnd Hblen Hbvals Hbmono Hbb Hbempty Hbargs H1 H2 Hcargs Hbops
    Esb Hand Halen Havals Hamono Hab Haempty Haargs Hq Hrun Hvals Haops Hag σ σ' Hw.
  assert (Hk : keeps (omap dest_local header_stmts) s3 s2).
  { intros x Hx. destruct (stmts_keep is_option_ty codegen_assign codegen_operand method
      (law_keep _ _ _ _ _ _ Hlaw) _ _ _ _ (wb_header_visible Hbody) H1 x Hx) as [<- <-].
    apply (keep_operand _ _ _ (law_keep _ _ _ _ _ _ Hlaw) _ _ _ _ _ H2 x). by intros ?%elem_of_nil. }
  assert (Hcond : ∀ σ σ1 c, (∀ x, x ∈ I → σ.1 x = env0 x) → stmts_sem sem header_stmts σ σ1 →
    operand_sem sem discr σ1 c →
    exec_region dia m (block_ops m before) (set_all (block_args m before) (σ.1 <$> carry) ρ) σ.2
      (Condition (negb (is_zero sem c)) (σ1.1 <$> carry)) σ1.2 ∧ (∀ x, x ∈ I → σ1.1 x = env0 x)).
  { intros [env μ] σ1 c HI Hs Ho. split.
    - eapply before_region; [exact Hbb|done| |done|done|done|done|exact Hs|done]. rewrite Hbargs, E3.
      apply (carry_agree s (s.1, s3.2) bargs ρ ρ _ env0); try done. by split; [apply Hbmono|].
    - intros x Hx. rewrite (stmts_frame sem (law_frame _ _ _ _ _ _ Hlaw) _ x _ _ (wb_header_visible Hbody) Hs);
        [by apply HI|by apply (wb_outer Hbody x Hx)]. }
  induction Hw as [σ σ1 d q c Hd Hqt Hs Ho Hz|σ σ1 σ2 σ3 d q c Hd Hqt Hs Ho Hz Hpath Hw IH]; intros HI;
    (rewrite (wb_block Hbody) in Hd; injection Hd as <-; rewrite (wb_term Hbody) in Hqt; injection Hqt as <-);
    destruct (Hcond _ _ _ HI Hs Ho) as [Hreg HI1]; rewrite Hz in Hreg; simpl in Hreg.
  - split; [by apply while_stop|done].
  - assert (HI2 : ∀ x, x ∈ I → σ2.1 x = env0 x).
    { intros x Hx. rewrite (chain_frame sem mir (law_frame _ _ _ _ _ _ Hlaw) _ _ _ _ _ x
        (wb_entry Hbody) (wb_chain Hbody) (wb_visible Hbody) Hpath); [by apply HI1|by apply (wb_outer Hbody x Hx)]. }
    destruct (IH HI2) as [IH1 IH2]. split; [|done].
    eapply while_step; [exact Hreg| |exact IH1]. destruct σ1 as [env1 μ1]. rewrite Haargs.
    eapply (region_yields dia sem is_option_ty codegen_assign codegen_operand method mir opt Hlaw
      (wl_header_bb wl) _ after body_bbs carry vals while_locals (while_entry wl aargs sb.1, sb.2) s5);
      [apply (wb_entry Hbody)|apply (wb_chain Hbody)|apply (wb_visible Hbody)| | |done|done| | |done|done|done|exact Hpath].
    + intros bb Hbb'. apply (Hq bb Hbb').
    + intros x Hx. unfold while_locals. rewrite elem_of_union, elem_of_list_to_set.
      pose proof (wb_used Hbody x Hx). tauto.
    + apply (carry_agree s (sb.1, sb.2) aargs ρ ρ _ env0); try done.
      * by split; [apply Hamono|].
      * intros x [Hc Hx]%not_elem_of_app. cbn [fst]. rewrite Esb. destruct (Hk x Hx) as [-> ->]. rewrite E3.
        cbn [fst carry_state with_ssa ssa_values option_table]. by rewrite insert_all_notin.
    + intros x Hx. split; [by apply (wb_opt Hbody)|]. apply elem_of_union. left.
      by apply elem_of_list_to_set, (wb_assigned Hbody).
Qed.
End while_sem.

Section thms.
Context {BlockRef Value MType Mod : Type} `{!EqDecision BlockRef} `{!EqDecision Value}.
Context `{!MlirBuilder BlockRef Value MType Mod} `{!ScfBuilder BlockRef Value MType Mod}.
Context {D Mem : Type} (dia : Dialect MType D Mem) (sem : MirSem D Mem).
Abbreviation State := (CodegenState Value).
Abbreviation gen := (cg (State * Mod)).
Abbreviation Blocks := (gmap BasicBlock BlockRef).
Abbreviation Op := (MlirOp BlockRef Value).
Context (instantiate : Const → Const) (is_option_ty : Place → bool).
Context (codegen_assign : Place → Rvalue → BlockRef → gen unit).
Context (codegen_operand : Operand → BlockRef → gen Value).
Context (method : Operand → list Operand → Place → BlockRef → gen (option Value)).
Context (fuel : nat) (mir : Body) (opt : Local → bool).
Implicit Types (s : State * Mod) (m : Mod).
Abbreviation while_code := (codegen_scf_while_loop instantiate is_option_ty codegen_assign codegen_operand method fuel mir).
Abbreviation statements_code := (codegen_statements is_option_ty codegen_assign).

(** The facts of the emitted code that both theorems use. *)
Lemma while_emitted wl b outer s s' :
  tame_handlers codegen_assign codegen_operand method →
  is_chain mir (wl_header_bb wl) (wl_body_bbs wl) = true → wl_header_bb wl ∉ wl_body_bbs wl →
  has_block s.2 b → runs (while_code wl b outer) s tt s' →
  ∃ d discr targets inits results bargs aargs before after exit_block m1 m2 s1 s2 sb m3 s5 cond cargs vals pre_b pre_a,
    block_at mir (wl_header_bb wl) = Ret d ∧ terminator d = Ret (SwitchInt discr targets) ∧
    Forall2 (λ x v, ssa_values s.1 !! x = Some v) (wl_iter_carry_locals wl) inits ∧
    (value_type <$> results = value_type <$> inits) ∧ NoDup results ∧
    (∀ v, v ∈ results → ¬ has_value s.2 v) ∧ outer !! wl_exit_bb wl = Some exit_block ∧
    (¬ has_block s.2 before ∧ ¬ has_block s.2 after ∧ before ≠ after) ∧
    (* before *)
    (value_type <$> bargs = value_type <$> inits) ∧ NoDup bargs ∧
    (∀ v, v ∈ bargs → has_value m2 v ∧ ¬ has_value m1 v) ∧ (∀ v, has_value s.2 v → has_value m1 v ∧ has_value m2 v) ∧
    has_block m2 before ∧ block_ops m2 before = [] ∧
    runs (statements_code (statements d) before) (carry_state (wl_iter_carry_locals wl) bargs s.1, m2) tt s1 ∧
    runs (codegen_operand discr before) s1 cond s2 ∧
    Forall2 (λ x v, ssa_values s2.1 !! x = Some v) (wl_iter_carry_locals wl) cargs ∧
    block_ops s2.2 before = pre_b ∧ forallb plain_op pre_b = true ∧
    block_ops s'.2 before = pre_b ++ [ScfCondition cond cargs] ∧ block_args s'.2 before = bargs ∧
    (* after *)
    sb = (s2.1, m3) ∧ (value_type <$> aargs = value_type <$> inits) ∧ NoDup aargs ∧
    (∀ v, v ∈ aargs → has_value m3 v ∧ ¬ has_value s2.2 v) ∧ (∀ v, has_value s2.2 v → has_value m3 v) ∧
    (∀ v, has_value m2 v → has_value s2.2 v) ∧
    has_block m3 after ∧ block_ops m3 after = [] ∧
    runs (cg_iter (straight_block is_option_ty codegen_assign method mir after) (wl_body_bbs wl))
      (while_entry wl aargs s2.1, m3) tt s5 ∧
    Forall2 (λ x v, ssa_values s5.1 !! x = Some v) (wl_iter_carry_locals wl) vals ∧
    block_ops s5.2 after = pre_a ∧ forallb plain_op pre_a = true ∧
    block_ops s'.2 after = pre_a ++ [ScfYield vals] ∧ block_args s'.2 after = aargs ∧
    (* around *)
    control s2.1 = control s.1 ∧
    block_ops s'.2 b = block_ops s.2 b ++ [ScfWhile inits before after results; CfBr exit_block []] ∧
    (∀ b', has_block s.2 b' → block_args s'.2 b' = block_args s.2 b' ∧
       (b' ≠ b → block_ops s'.2 b' = block_ops s.2 b')) ∧
    (∀ v, v ∈ results → has_value m2 v) ∧ (∀ v, has_value m3 v → has_value s'.2 v) ∧
    s'.1 = with_ssa (leave_while s5.1) (insert_all (wl_iter_carry_locals wl) results (ssa_values s5.1)).
Proof.
  intros Htame Hch Hhdr Hb Hrun.
  eapply while_loop_stages in Hrun as (inits & vals & ex & sb & s5 & H); [|done..].
  cbn zeta in H. destruct H as (Hin & Hbefore & _ & Hbody & _ & Hb5 & Hvals & Hex & ->).
  set (types := value_type <$> inits) in *. pose proof (results_fresh types s.2) as NR.
  set (results := (new_results types s.2).1) in *. set (m1 := (new_results types s.2).2) in *.
  pose proof (block_fresh types m1) as NB. pose proof (block_fresh types sb.2) as NA.
  set (before := (new_block types m1).1) in *. set (m2 := (new_block types m1).2) in *.
  set (after := (new_block types sb.2).1) in *. set (m3 := (new_block types sb.2).2) in *.
  pose proof (nb_block _ _ _ _ NB) as Hm2. pose proof (nb_ops _ _ _ _ NB) as Hops2. pose proof (nb_ops _ _ _ _ NA) as Hops3.
  destruct (before_stages _ _ _ _ mir Htame wl before (_, m2) _ Hm2 Hbefore)
    as (d & discr & targets & cond & cargs & s1 & s2 & Hd & Hk & H1 & H2 & (pre_b & G2 & Hpb & Hctl) & Hcargs & Esb).
  assert (Hsb2 : sb.2 = append_operation before (ScfCondition cond cargs) s2.2) by by rewrite Esb.
  destruct (straight_blocks_ctx _ _ _ _ _ Htame _ _ _ _ Hbody (nb_block _ _ _ _ NA)) as (pre_a & [G5 _] & Hpa).
  pose proof (g_ops _ _ _ _ G2) as Hpre_b. pose proof (g_ops _ _ _ _ G5) as Hpre_a.
  cbn [snd] in Hpre_b, Hpre_a. rewrite Hops2 in Hpre_b. rewrite Hops3 in Hpre_a.
  assert (Hcond : ∀ v, has_value sb.2 v ↔ has_value s2.2 v) by (intros v; rewrite Hsb2; apply append_has_value).
  assert (H5 : ∀ x, has_block m2 x → x ≠ after ∧ block_ops s5.2 x = block_ops sb.2 x ∧ block_args s5.2 x = block_args m2 x).
  { intros x Hx. destruct (nb_old _ _ _ _ NA x) as (? & ? & Eo & Ea).
    { rewrite Hsb2. apply append_has_block. by apply (g_blocks _ _ _ _ G2). }
    rewrite (g_other _ _ _ _ G5), (g_args _ _ _ _ G5) by done. split_and!; [done|done|]. cbn [snd].
    rewrite Ea, Hsb2, append_operation_args. by apply (g_args _ _ _ _ G2). }
  assert (Hold : ∀ x, has_block s.2 x → x ≠ before ∧ x ≠ after ∧ block_ops s5.2 x = block_ops s.2 x ∧ block_args s5.2 x = block_args s.2 x).
  { intros x Hx. destruct (nb_old _ _ _ _ NB x) as (? & Hx2 & Eo & Ea); [by apply (nr_blocks _ _ _ _ NR)|].
    destruct (H5 x Hx2) as (? & -> & ->). rewrite Ea, (nr_args _ _ _ _ NR). split_and!; try done.
    rewrite Hsb2, append_operation_ops, decide_False, (g_other _ _ _ _ G2) by done. cbn [snd].
    by rewrite Eo, (nr_ops _ _ _ _ NR). }
  destruct (Hold b Hb) as (Hbb & Hab & Hsame & _). destruct (H5 _ Hm2) as (Hba & Hbo & Hbargs).
  rewrite Hsb2, append_operation_ops, decide_True, Hpre_b in Hbo by done.
  exists d, discr, targets, inits, results, (block_args m2 before), (block_args m3 after), before, after, ex,
    m1, m2, s1, s2, (s2.1, m3), m3, s5, cond, cargs, vals, pre_b, pre_a.
  replace (sb.1) with s2.1 in Hbody by by rewrite Esb.
  split_and!; try done.
  all: cbn [fst snd]; rewrite ?append_operation_ops, ?append_operation_args.
  all: try (by apply NR); try (by apply NB); try (by apply NA).
  all: try (by intros ? ?; apply NR).
  - intros Hx. by destruct (Hold _ Hx).
  - intros Hx. by destruct (Hold _ Hx) as (_ & ? & _).
  - intros v Hv. split; [|apply (nb_values _ _ _ _ NB)]; by apply (nr_values _ _ _ _ NR).
  - by rewrite !decide_False by done.
  - done.
  - intros v Hv. rewrite <-Hcond. by apply (nb_args _ _ _ _ NA).
  - intros v Hv. by apply (nb_values _ _ _ _ NA), Hcond.
  - apply (g_values _ _ _ _ G2).
  - by rewrite !decide_False, decide_True, Hpre_a by done.
  - by rewrite (g_args _ _ _ _ G5) by apply (nb_block _ _ _ _ NA).
  - by rewrite !decide_True, decide_False, Hsame, <-app_assoc by done.
  - intros x Hx. destruct (Hold x Hx) as (_ & Hxa & Hxo & Hxb). rewrite !append_operation_args. split; [done|].
    intros Hne. by rewrite !append_operation_ops, !decide_False by done.
  - intros v Hv. by apply (nb_values _ _ _ _ NB), (nr_results _ _ _ _ NR).
  - intros v Hv. rewrite !append_has_value. by apply (g_values _ _ _ _ G5).
Qed.

(** The entries of a local from outside are the same after the two regions. *)
Lemma while_outer wl I hd discr s s1 s2 s5 m3 before after aargs cond x :
  loop_laws dia sem codegen_assign codegen_operand method opt → while_body_ok mir opt wl I hd discr →
  (∀ bb, bb ∈ wl_body_bbs wl → quiet s2.1 bb) → x ∈ I → x ∉ wl_iter_carry_locals wl →
  runs (statements_code (statements hd) before) s tt s1 → runs (codegen_operand discr before) s1 cond s2 →
  runs (cg_iter (straight_block is_option_ty codegen_assign method mir after) (wl_body_bbs wl))
    (while_entry wl aargs s2.1, m3) tt s5 → has_block m3 after →
  ssa_values s5.1 !! x = ssa_values s.1 !! x ∧ option_table s5.1 !! x = option_table s.1 !! x.
Proof.
  intros Hlaw Hbody Hq HxI Hc H1 H2 H5 Hm3. destruct (wb_outer _ _ _ _ _ _ Hbody x HxI) as [Hna Hnh].
  pose proof (law_keep _ _ _ _ _ _ Hlaw) as Hkeep.
  destruct (blocks_keep dia sem is_option_ty codegen_assign codegen_operand method mir opt (law_tame _ _ _ _ _ _ Hlaw)
    (law_sim _ _ _ _ _ _ Hlaw) Hkeep after (wl_body_bbs wl) (while_entry wl aargs s2.1, m3) s5
    (wb_visible _ _ _ _ _ _ Hbody) Hm3) with (2 := H5) (l := x) as [K1 K2]; [|done|].
  { intros bb Hbb. by destruct (Hq bb Hbb). }
  destruct (stmts_keep is_option_ty codegen_assign codegen_operand method Hkeep _ _ _ _
    (wb_header_visible _ _ _ _ _ _ Hbody) H1 x Hnh) as [K3 K4].
  destruct (keep_operand _ _ _ Hkeep _ _ _ _ _ H2 x) as [K5 K6]; [by intros ?%elem_of_nil|].
  rewrite K1, K2. cbn [fst while_entry with_loop carry_state with_ssa ssa_values option_table].
  by rewrite insert_all_notin, K5, K6, K3, K4 by done.
Qed.

(** C2: The code emitted for a while loop refines the loop: when the body is a chain
    of blocks that the analysis of carried locals sees through, and the code of
    assignments, calls and operands is correct, then for every execution of the MIR
    loop that leaves it the emitted [scf.while] runs to the end, with the same
    effect on memory, and leaves in the table of values what the carried locals and
    the outer locals hold afterwards. *)
Theorem scf_while_refines wl b outer s s' I hd discr ρ μ env env' μ' :
  loop_laws dia sem codegen_assign codegen_operand method opt →
  while_body_ok mir opt wl I hd discr → (∀ bb, bb ∈ wl_body_bbs wl → quiet s.1 bb) → has_block s.2 b →
  agree sem opt (I ∪ list_to_set (wl_iter_carry_locals wl)) s ρ env →
  runs (while_code wl b outer) s tt s' →
  mir_while sem mir (wl_header_bb wl) (wl_body_entry_bb wl) (wl_exit_bb wl) (env, μ) (env', μ') →
  ∃ op exit_block ρ',
    block_ops s'.2 b = block_ops s.2 b ++ [op; CfBr exit_block []] ∧ outer !! wl_exit_bb wl = Some exit_block ∧
    exec_loop dia s'.2 ρ μ op ρ' μ' ∧
    agree sem opt (I ∪ list_to_set (wl_iter_carry_locals wl)) s' ρ' env'.
Proof.
  intros Hlaw Hbody Hq Hb Hag Hrun Hw. set (carry := wl_iter_carry_locals wl) in *.
  pose proof (law_tame _ _ _ _ _ _ Hlaw) as Htame. pose proof (law_keep _ _ _ _ _ _ Hlaw) as Hkeep.
  eapply while_emitted in Hrun
    as (d & q & targets & inits & results & bargs & aargs & before & after & ex & m1 & m2 & s1 & s2 & sb & m3 & s5
        & cond & cargs & vals & pre_b & pre_a & Hd & Hk & Hin & Tres & Ndres & Newres & Hex & _
        & Tb & Ndb & Newb & V12 & Hm2 & Hops2 & H1 & H2 & Hcargs & Hpb & _ & Hbops & Hbargs
        & Esb & Ta & Nda & Newa & V3 & V2 & Hm3 & Hops3 & H5 & Hvals & Hpa & _ & Haops & Haargs
        & Hctl & Hiops & _ & Hres & Hms & Es'); [|done|apply (wb_chain _ _ _ _ _ _ Hbody)|apply (wb_header _ _ _ _ _ _ Hbody)|done].
  assert (d = hd) as -> by (pose proof (wb_block _ _ _ _ _ _ Hbody); congruence).
  assert (q = discr) as -> by (pose proof (wb_term _ _ _ _ _ _ Hbody); congruence).
  assert (Hinits : ρ <$> inits = env <$> carry).
  { eapply inits_agree; [exact Hag|set_solver|apply (wb_opt _ _ _ _ _ _ Hbody)|done|done]. }
  assert (HagI : agree sem opt I s ρ env) by (eapply agree_sub; [|exact Hag]; set_solver).
  assert (Hli : length inits = length carry) by (symmetry; by eapply Forall2_length).
  assert (Hlen : ∀ vs, value_type <$> vs = value_type <$> inits → length vs = length carry).
  { intros vs E. apply (f_equal length) in E. rewrite !length_fmap in E. lia. }
  edestruct (while_iterations dia sem is_option_ty codegen_assign codegen_operand method mir opt Hlaw wl I hd discr
    Hbody s sb s1 s2 (carry_state carry bargs s.1, m2) s5 s'.2 before after bargs aargs cond cargs vals ρ env)
    as [Hiter HI]; try done; try (by apply Hlen); try (subst sb; done).
  { intros v Hv. destruct (Newb v Hv). split; [done|]. by intros [? _]%V12. }
  { intros v Hv. by apply V12. }
  { by rewrite Hbops, Hpb. }
  { intros v Hv. subst sb. cbn [snd]. destruct (Newa v Hv) as [? Hn]. split; [done|]. intros Hh. by apply Hn, V2, V12. }
  { intros v Hv. subst sb. cbn [snd]. by apply V3, V2, V12. }
  { intros bb Hbb. subst sb. cbn [fst]. destruct (Hq bb Hbb). unfold control in Hctl. unfold quiet. split; congruence. }
  { by rewrite Haops, Hpa. }
  cbn [fst snd] in *.
  exists (ScfWhile inits before after results), ex, (set_all results (env' <$> carry) ρ).
  split_and!; [done|done|apply exec_scf_while; by rewrite Hinits|].
  eapply (results_agree sem opt carry I results s s' (ssa_values s5.1) ρ ρ env env').
  { apply (wb_nodup _ _ _ _ _ _ Hbody). }
  { by apply Hlen. }
  { done. }
  { apply (wb_opt _ _ _ _ _ _ Hbody). }
  { intros v Hv. split; [by apply Hms, V3, V2, Hres|by apply Newres]. }
  { intros v Hv. split; [by apply Hms, V3, V2, V12|done]. }
  { by rewrite Es'. }
  { done. }
  intros x HxI Hc. destruct (while_outer wl I hd discr (carry_state carry bargs s.1, m2) s1 s2 s5 m3 before after aargs cond x
    Hlaw Hbody) as [K1 K2]; try done.
  { intros bb Hbb. destruct (Hq bb Hbb). unfold control in Hctl. unfold quiet. split; congruence. }
  rewrite Es'. cbn [option_table with_ssa leave_while with_loop]. rewrite K1, K2. cbn [fst carry_state with_ssa ssa_values option_table].
  rewrite insert_all_notin by done. split_and!; [done|done|by apply HI].
Qed.

(** The code emitted for a while loop whose body is a chain: the condition and the
    body in two new blocks, their arguments and terminators, and the carried
    locals that stand for the results afterwards. *)
Theorem scf_while_emission wl b outer s s' :
  tame_handlers codegen_assign codegen_operand method →
  is_chain mir (wl_header_bb wl) (wl_body_bbs wl) = true → wl_header_bb wl ∉ wl_body_bbs wl →
  NoDup (wl_iter_carry_locals wl) → has_block s.2 b → runs (while_code wl b outer) s tt s' →
  ∃ inits results before after exit_block pre_b pre_a cond cargs vals,
    block_ops s'.2 b = block_ops s.2 b ++ [ScfWhile inits before after results; CfBr exit_block []] ∧
    outer !! wl_exit_bb wl = Some exit_block ∧
    Forall2 (λ x v, ssa_values s.1 !! x = Some v) (wl_iter_carry_locals wl) inits ∧
    (¬ has_block s.2 before ∧ ¬ has_block s.2 after ∧ before ≠ after) ∧
    (value_type <$> block_args s'.2 before = value_type <$> inits) ∧
    (value_type <$> block_args s'.2 after = value_type <$> inits) ∧
    (value_type <$> results = value_type <$> inits) ∧
    block_ops s'.2 before = pre_b ++ [ScfCondition cond cargs] ∧ forallb plain_op pre_b = true ∧
    block_ops s'.2 after = pre_a ++ [ScfYield vals] ∧ forallb plain_op pre_a = true ∧
    length cargs = length inits ∧ length vals = length inits ∧
    (∀ b', has_block s.2 b' → block_args s'.2 b' = block_args s.2 b' ∧
       (b' ≠ b → block_ops s'.2 b' = block_ops s.2 b')) ∧
    Forall2 (λ x v, ssa_values s'.1 !! x = Some v) (wl_iter_carry_locals wl) results ∧
    loop_header_bb s'.1 = None.
Proof.
  intros Htame Hch Hhdr Hnd Hb Hrun.
  eapply while_emitted in Hrun
    as (d & q & targets & inits & results & bargs & aargs & before & after & ex & m1 & m2 & s1 & s2 & sb & m3 & s5
        & cond & cargs & vals & pre_b & pre_a & _ & _ & Hin & Tres & _ & _ & Hex & Hnew
        & Tb & _ & _ & _ & _ & _ & _ & _ & Hcargs & _ & Ppb & Hbops & Hbargs
        & _ & Ta & _ & _ & _ & _ & _ & _ & _ & Hvals & _ & Ppa & Haops & Haargs
        & _ & Hiops & Hother & _ & _ & Es'); [|done..].
  exists inits, results, before, after, ex, pre_b, pre_a, cond, cargs, vals.
  pose proof (Forall2_length _ _ _ Hin). pose proof (Forall2_length _ _ _ Hvals).
  pose proof (Forall2_length _ _ _ Hcargs).
  assert (Hl3 : length results = length inits) by (apply (f_equal length) in Tres; by rewrite !length_fmap in Tres).
  split_and!; try done; try congruence; try (by apply Hnew); rewrite Es'; [|done].
  cbn [ssa_values with_ssa]. by apply insert_all_in; [|lia].
Qed.
End thms.

(** ** [while _1 < 10 { _1 += 1 }], from 7 *)
Definition while_example : WhileLoopInfo := mkWhile 1 2 [2] 2 3 [1].
Definition while_header : BasicBlockData :=
  mkBlock [Assign (loop_place 2) (BinaryOp BLt (Copy (loop_place 1)) (loop_const 10))]
    (Some (SwitchInt (Move (loop_place 2)) (Switch.static_if 0 3 2))).
Definition no_opt (l : Local) : bool := false.
Definition while_start_state : CodegenState SValue * Store :=
  (with_ssa new_state {[1 := mkSValue 0 7]}, mkStore 1 20 ∅ ∅).
Definition while_example_code : cg (CodegenState SValue * Store) unit :=
  codegen_scf_while_loop (λ c, c) (λ _, false) (int_assign no_opt) (int_operand no_opt) int_method 10 while_body
    while_example 10 {[3 := 12]}.

Lemma while_example_ok : while_body_ok while_body no_opt while_example ∅ while_header (Move (loop_place 2)).
Proof.
  split; try done.
  - by intros ?%list_elem_of_singleton.
  - repeat constructor. by intros ?%elem_of_nil.
  - intros x Hx. cbv -[Nat.eqb] in Hx. destruct (Nat.eqb_spec 1 x) as [E|_]; [subst x; left; by left|done].
  - intros x Hx. cbv -[Nat.eqb] in Hx.
    destruct (Nat.eqb_spec 1 x) as [E|_]; [subst x; left; by left|]. by destruct (2 =? x).
  - intros x Hx. cbv -[Nat.eqb] in Hx. apply Nat.eqb_eq in Hx as <-. left. by left.
Qed.

(** [(_1, _2)] *)
Definition while_env (i c : Z) : Local → Z := λ l, if l =? 1 then i else if l =? 2 then c else 0%Z.

Lemma while_header_runs i c :
  stmts_sem int_sem (statements while_header) (while_env i c, tt)
    (while_env i (if (i <? 10)%Z then 1%Z else 0%Z), tt).
Proof.
  eexists. split; [|done]. eexists. split_and!; [done|done|].
  intros l Hl. simpl in *. unfold while_env. by destruct (l =? 1); destruct (Nat.eqb_spec l 2).
Qed.

Lemma while_example_path i c :
  mir_path int_sem while_body 1 2 (while_env i c, tt) (while_env (i + 1) c, tt).
Proof.
  apply path_end; [|done]. do 3 eexists. split; [done|]. split; [done|]. split; [|done].
  eexists. split; [|done]. eexists. split_and!; [done|done|].
  intros l Hl. simpl in *. unfold while_env. by destruct (Nat.eqb_spec l 1).
Qed.

Lemma scf_while_refines_witness :
  ∃ s' op ρ' v, runs while_example_code while_start_state tt s' ∧
    block_ops s'.2 10 = [op; CfBr 12 []] ∧
    exec_loop int_dialect s'.2 (λ _, 7%Z) tt op ρ' tt ∧
    ssa_values s'.1 !! 1 = Some v ∧ ρ' v = 10%Z.
Proof.
  assert (Hrun : ∃ s', runs while_example_code while_start_state tt s') by (eexists; vm_compute; reflexivity).
  destruct Hrun as [s' Hrun].
  destruct (scf_while_refines int_dialect int_sem (λ c, c) (λ _, false) (int_assign no_opt) (int_operand no_opt)
    int_method 10 while_body no_opt while_example 10 {[3 := 12]} while_start_state s' ∅ while_header
    (Move (loop_place 2)) (λ _, 7%Z) tt (while_env 7 0) (while_env 10 0) tt)
    as (op & ex & ρ' & Hops & Hex & Hloop & Hag).
  - apply int_laws.
  - apply while_example_ok.
  - intros bb _. by split.
  - simpl. lia.
  - intros l Hl. assert (l = 1) as -> by (simpl in Hl; set_solver).
    exists (mkSValue 0 7). split_and!; [done|simpl; lia|done].
  - exact Hrun.
  - do 3 (eapply mir_while_step; [done|done|apply while_header_runs|done|done|apply while_example_path|]).
    eapply (mir_while_stop int_sem while_body 1 2 3 _ (while_env 10 0, tt)); [done|done|apply while_header_runs|done|done].
  - assert (Hl : 1 ∈ (∅ ∪ list_to_set (wl_iter_carry_locals while_example) : gset Local)) by (simpl; set_solver).
    destruct (Hag 1 Hl) as (v & Hv & _ & Hd). simpl in Hex. rewrite lookup_singleton_eq in Hex. injection Hex as <-.
    exists s', op, ρ', v. split_and!; [exact Hrun|exact Hops|exact Hloop|exact Hv|exact Hd].
Defined.

Lemma scf_while_emission_witness :
  ∃ s' pre_b pre_a, runs while_example_code while_start_state tt s' ∧
    block_ops s'.2 20 = pre_b ++ [ScfCondition (mkSValue 4 0) [mkSValue 2 7]] ∧ forallb plain_op pre_b = true ∧
    block_ops s'.2 21 = pre_a ++ [ScfYield [mkSValue 7 0]] ∧ forallb plain_op pre_a = true.
Proof.
  assert (Hrun : ∃ s', runs while_example_code while_start_state tt s' ∧
    block_ops s'.2 10 = [ScfWhile [mkSValue 0 7] 20 21 [mkSValue 1 7]; CfBr 12 []] ∧
    last (block_ops s'.2 20) = Some (ScfCondition (mkSValue 4 0) [mkSValue 2 7]) ∧
    last (block_ops s'.2 21) = Some (ScfYield [mkSValue 7 0]))
    by (eexists; split_and!; vm_compute; reflexivity).
  destruct Hrun as (s' & Hrun & Hops & Hlb & Hla).
  destruct (scf_while_emission (λ c, c) (λ _, false) (int_assign no_opt) (int_operand no_opt)
    int_method 10 while_body while_example 10 {[3 := 12]} while_start_state s')
    as (inits & results & before & after & ex & pre_b & pre_a & cond & cargs & vals & Hb & _ & _ & _ & _ & _ & _
        & Hbefore & Hpb & Hafter & Hpa & _).
  - apply int_tame.
  - done.
  - by intros ?%list_elem_of_singleton.
  - repeat constructor. by intros ?%elem_of_nil.
  - simpl. lia.
  - exact Hrun.
  - rewrite Hops in Hb. change (block_ops while_start_state.2 10) with (@nil (MlirOp nat SValue)) in Hb.
    simplify_eq/=. exists s', pre_b, pre_a.
    rewrite Hbefore, last_snoc in Hlb. rewrite Hafter, last_snoc in Hla.
    injection Hlb as -> ->. injection Hla as ->. split_and!; assumption.
Defined.
