(* ===== verification/TritonScfBugs.v ===== *)
(** * Loops the Triton backend gets wrong

    Bodies outside the shape of [scf_for_refines] and [scf_while_refines], run
    through detection and emission with the concrete code of [TritonScfModel]:
    an [if] in a [while] body panics, and several bodies of [for] loops compile to
    something else. *)
From S2P Require Import Prelude Codegen Mir Worklist TritonCfg TritonLoops TritonLoopsFacts TritonLoopsThms TritonEmit TritonEmitFacts TritonScf TritonFunc TritonScfFacts TritonForFacts TritonScfModel.

(** ** An [if] inside [while] *)
Section while_if.
Context {BlockRef Value MType Mod : Type} `{!EqDecision BlockRef} `{!EqDecision Value}.
Context `{!MlirBuilder BlockRef Value MType Mod} `{!ScfBuilder BlockRef Value MType Mod}.
Abbreviation State := (CodegenState Value).
Abbreviation gen := (cg (State * Mod)).
Context (instantiate : Const → Const) (is_option_ty : Place → bool).
Context (codegen_assign : Place → Rvalue → BlockRef → gen unit).
Context (codegen_operand : Operand → BlockRef → gen Value).
Context (method : Operand → list Operand → Place → BlockRef → gen (option Value)).
Context (fuel : nat) (mir : Body).

(** Outside [scf.for] the back edge is not recorded, and [scf.if] cannot be emitted. *)
Lemma scf_if_no_back_edge cond t f b bbs (s : State * Mod) s' :
  loop_back_edge_bb s.1 = None →
  ¬ runs (codegen_loop_body_switch_as_scf_if is_option_ty codegen_assign method fuel mir cond t f b bbs) s tt s'.
Proof.
  intros Hb (back & s1 & [-> ->]%runs_get & (e & s2 & [H ->]%runs_lift & _)%runs_bind)%runs_bind.
  by rewrite Hb in H.
Qed.

(** A switch between two blocks of the loop body. *)
Definition body_switch (st : State) (k : TerminatorKind) : Prop :=
  ∃ discr val t f, k = SwitchInt discr (mkSwitchTargets [val] [t; f]) ∧
    extract_switch_const instantiate discr (const_disc_locals st) = None ∧
    t ∈ loop_body_bbs st ∧ f ∈ loop_body_bbs st.

Lemma body_switch_panics k b bbs (s : State * Mod) s' h :
  tame_handlers codegen_assign codegen_operand method → has_block s.2 b →
  loop_header_bb s.1 = Some h → loop_back_edge_bb s.1 = None → body_switch s.1 k →
  ¬ runs (codegen_terminator instantiate is_option_ty codegen_assign codegen_operand method fuel mir k b bbs) s tt s'.
Proof.
  intros Htame Hb Hh Hbk (discr & val & t & f & -> & Hc & Ht & Hf) Hrun.
  simpl in Hrun. unfold codegen_switch_int in Hrun.
  apply runs_bind in Hrun as (cd & ? & [-> ->]%runs_get & H). rewrite Hc in H.
  apply runs_bind in H as (d & s1 & H1 & (o & ? & [Ho ->]%runs_lift & ([] & ? & ->%runs_modify & H)%runs_bind)%runs_bind).
  injection Ho as <-. destruct (tame_operand _ _ _ Htame discr b _ _ _ Hb H1) as (new & Hg & _ & Hctl).
  assert (Hctx : loop_ctx s1.1 = loop_ctx s.1) by by apply control_ctx.
  pose proof (g_blocks _ _ _ _ Hg _ Hb) as Hb1.
  unfold Switch.iter in H. simpl in H. unfold codegen_switch_binary in H.
  apply runs_bind in H as (vc & s2 & H2 & (cmp & s3 & H3 & (hd & ? & [-> ->]%runs_get & (body & ? & [-> ->]%runs_get & H)%runs_bind)%runs_bind)%runs_bind).
  assert (E2 : s2.1 = save_snapshots [t; f] s1.1) by (by destruct (runs_constant _ _ _ _ _ _ H2 Hb1) as (_ & -> & _)).
  assert (E3 : s3.1 = s2.1).
  { unfold arith_cmpi_eq in H3.
    by apply runs_bind in H3 as (r & ? & [-> ->]%runs_results_new & (w & ? & [_ ->]%runs_lift & (? & ? & ->%runs_modify & [_ ->]%runs_ret)%runs_bind)%runs_bind). }
  unfold loop_ctx in Hctx. rewrite E3, E2 in H. simpl in H.
  assert (Eh : loop_header_bb s1.1 = Some h) by congruence. rewrite Eh in H.
  assert (Eb : loop_body_bbs s1.1 = loop_body_bbs s.1) by congruence. rewrite Eb in H.
  rewrite !bool_decide_true, !orb_true_r in H by done. simpl in H.
  eapply scf_if_no_back_edge; [|exact H]. rewrite E3, E2. simpl. congruence.
Qed.
End while_if.

(** C20: A while loop whose body starts with an [if] on a value not known at compile
    time never compiles: the back edge of a while loop is not recorded, and the
    emission of [scf.if] stops without it. *)
Theorem while_if_never_compiles {BlockRef Value MType Mod : Type} `{!EqDecision BlockRef} `{!EqDecision Value}
    `{!MlirBuilder BlockRef Value MType Mod} `{!ScfBuilder BlockRef Value MType Mod}
    instantiate is_option_ty codegen_assign codegen_operand method fuel (mir : Body)
    (wl : WhileLoopInfo) (b : BlockRef) outer (s : CodegenState Value * Mod) s' body_rest d discr val t f
    (Htame : tame_handlers codegen_assign codegen_operand method)
    (Hback : loop_back_edge_bb s.1 = None)
    (Hbody : wl_body_bbs wl = wl_body_entry_bb wl :: body_rest) (Hheader : wl_header_bb wl ∉ wl_body_bbs wl)
    (Hd : block_at mir (wl_body_entry_bb wl) = Ret d)
    (Hk : terminator d = Ret (SwitchInt discr (mkSwitchTargets [val] [t; f])))
    (Hdyn : extract_switch_const instantiate discr (const_disc_locals s.1) = None)
    (Ht : t ∈ wl_body_bbs wl) (Hf : f ∈ wl_body_bbs wl) :
  ¬ runs (codegen_scf_while_loop instantiate is_option_ty codegen_assign codegen_operand method fuel mir wl b outer)
      s tt s'.
Proof.
  unfold codegen_scf_while_loop.
  intros (inits & s1 & [_ ->]%runs_ssa_values & (results & s2 & [_ ->]%runs_results_new & (before & s3 & [Eb ->]%runs_block_new & (bargs & s4 & [-> ->]%runs_get & H)%runs_bind)%runs_bind)%runs_bind)%runs_bind.
  apply runs_bind in H as ([] & s4 & [_ ->]%runs_ssa_insert_all & ([] & sb & Hsb & (after & s6 & [Ea ->]%runs_block_new & (aargs & s7 & [-> ->]%runs_get & ([] & s8 & [_ ->]%runs_ssa_insert_all & H)%runs_bind)%runs_bind)%runs_bind)%runs_bind).
  apply runs_bind in H as ([] & s9 & ->%runs_modify & ([] & s10 & H9 & _)%runs_bind).
  cbn [fst snd] in *.
  set (m2 := (new_block _ _).2) in *. set (m3 := (new_block _ sb.2).2) in *.
  assert (Hm2 : has_block m2 before) by (rewrite Eb; apply new_block_has_block; by right).
  assert (Hm3 : has_block m3 after) by (rewrite Ea; apply new_block_has_block; by right).
  destruct (before_stages _ _ _ _ mir Htame wl before (_, m2) _ Hm2 Hsb)
    as (? & ? & ? & cond & cargs & ? & sc & _ & _ & _ & _ & (? & _ & _ & Hctl) & _ & Esb).
  assert (Hctx : loop_ctx sb.1 = loop_ctx s.1) by (rewrite Esb; by apply control_ctx).
  rewrite Hbody in H9. apply runs_iter_cons in H9 as (s11 & H11 & _). unfold codegen_basic_block in H11.
  rewrite Hd in H11.
  apply runs_bind in H11 as (d' & ? & [[= <-] ->]%runs_lift & (b' & ? & [Hb' ->]%runs_lift & ([] & ? & ->%runs_modify & ([] & s12 & H12 & (k & ? & [Hk' ->]%runs_lift & H)%runs_bind)%runs_bind)%runs_bind)%runs_bind).
  rewrite Hk in Hk'. injection Hk' as <-.
  assert (b' = after) as ->.
  { rewrite lookup_insert_ne, with_body_lookup in Hb'; [by injection Hb'|by left|].
    intros E. apply Hheader. rewrite E, Hbody. by left. }
  cbn [fst snd] in H12.
  destruct (tame_statements _ _ _ _ Htame _ after (_, m3) _ _ Hm3 H12) as (? & Hg & _ & Hctl2).
  pose proof (control_ctx _ _ Hctl2) as Hctx2. cbn [fst] in Hctx2. rewrite enter_block_ctx in Hctx2.
  unfold loop_ctx in Hctx, Hctx2. simpl in Hctx2.
  eapply (body_switch_panics _ _ _ _ _ _ _ _ _ _ _ _ (wl_header_bb wl));
    [exact Htame|apply (g_blocks _ _ _ _ Hg), Hm3|congruence|congruence| |exact H].
  exists discr, val, t, f. split; [done|].
  replace (const_disc_locals s12.1) with (const_disc_locals s.1) by congruence.
  assert (Hbb : loop_body_bbs s12.1 = {[wl_body_entry_bb wl]} ∪ list_to_set body_rest) by congruence.
  rewrite Hbody in Ht, Hf. rewrite Hbb. split; [done|]. split; clear -Ht Hf; set_solver.
Qed.

(** [while _1 < 10 { if _3 != 0 { _1 += 1 } }] *)
Definition while_if_body : Body := mkBody
  [ mkBlock [] (Some (Goto 1));
    mkBlock [Assign (loop_place 2) (BinaryOp BLt (Copy (loop_place 1)) (loop_const 10))]
      (Some (SwitchInt (Move (loop_place 2)) (Switch.static_if 0 5 2)));
    mkBlock [] (Some (SwitchInt (Copy (loop_place 3)) (Switch.static_if 0 4 3)));
    mkBlock [Assign (loop_place 1) (BinaryOp Add (Copy (loop_place 1)) (loop_const 1))] (Some (Goto 4));
    mkBlock [] (Some (Goto 1));
    mkBlock [] (Some Return) ]
  [TyBool; TyUint U32; TyBool; TyUint U32] 0.
Definition while_if_info : WhileLoopInfo := mkWhile 1 2 [2; 4; 3] 4 5 [1].
Definition while_if_state : CodegenState SValue * Store :=
  (with_ssa new_state {[1 := mkSValue 0 7; 3 := mkSValue 1 7]}, mkStore 2 20 ∅ ∅).
Definition while_if_code : cg (CodegenState SValue * Store) unit :=
  codegen_scf_while_loop (λ c, c) (λ _, false) (int_assign (λ _, false)) (int_operand (λ _, false)) int_method 10
    while_if_body while_if_info 10 {[5 := 12]}.

Lemma while_if_never_compiles_witness :
  detect_while_loop (body_fuel while_if_body) while_if_body ∅ = Ret [while_if_info] ∧
  while_if_code while_if_state = Panic ∧ ∀ s', ¬ runs while_if_code while_if_state tt s'.
Proof.
  split; [vm_compute; reflexivity|]. split; [vm_compute; reflexivity|]. intros s'.
  apply (while_if_never_compiles (λ c, c) (λ _, false) (int_assign (λ _, false)) (int_operand (λ _, false)) int_method 10
    while_if_body while_if_info 10 {[5 := 12]} while_if_state s' [4; 3]
    (mkBlock [] (Some (SwitchInt (Copy (loop_place 3)) (Switch.static_if 0 4 3)))) (Copy (loop_place 3)) 0%Z 4 3);
    try reflexivity.
  - apply int_tame.
  - simpl. set_solver.
  - simpl. set_solver.
  - simpl. set_solver.
Defined.

(** ** Bodies of [for] loops

    [for _5 in start..4 { body }], with the exit at 3 and the body from 5 on; 6, 8
    are accumulators, 7 a condition. *)
Definition range_mir (start : Z) (body : list BasicBlockData) : Body := mkBody
  ([ mkBlock [Assign (loop_place 2) (Aggregate (AggAdt 7 0) [loop_const start; loop_const 4])] (Some (Goto 1));
     mkBlock [] (Some (Call RuntimeChecks [Move (loop_place 1)] (loop_place 3) (Some 2) UnwindContinue));
     mkBlock [Assign (loop_place 4) (Discriminant (loop_place 3))]
       (Some (SwitchInt (Move (loop_place 4)) (Switch.new [(0%Z, 3); (1%Z, 5)] 4)));
     mkBlock [] (Some Return); mkBlock [] (Some Unreachable) ] ++ body)
  (repeat (TyUint U32) 10) 0.
Definition take_item : StatementKind :=
  Assign (loop_place 5) (Use (Copy (mkPlace 3 [Downcast 1; Field 0 (TyUint U32)]))).
Definition add_item (l : Local) : StatementKind :=
  Assign (loop_place l) (BinaryOp Add (Copy (loop_place l)) (Copy (loop_place 5))).
Definition if_seven (t f : BasicBlock) : option TerminatorKind :=
  Some (SwitchInt (Copy (loop_place 7)) (Switch.static_if 0 f t)).

Definition range_state (const_disc : gmap Local Z) : CodegenState SValue * Store :=
  (with_const_disc (with_ssa new_state {[6 := mkSValue 0 7; 7 := mkSValue 1 7; 8 := mkSValue 2 7]}) const_disc,
   mkStore 3 20 ∅ ∅).
(** Detection, then emission into block 10; the answer is the carried locals, the
    operations of every block, and the table of values. *)
Definition compile_range (mir : Body) (const_disc : gmap Local Z)
    : option (list Local * (nat → list (MlirOp nat SValue)) * gmap Local SValue) :=
  match detect_range_loop (body_fuel mir) [] mir with
  | Ret [l] =>
      match codegen_scf_for_loop (λ c, c) (λ _, false) (int_assign (λ l, l =? 3)) (int_operand (λ l, l =? 3)) int_method 10 mir
              l 10 {[3 := 12]} (range_state const_disc) with
      | Ret (inr (_, (st, m))) => Some (rl_iter_carry_locals l, block_ops m, ssa_values st)
      | _ => None
      end
  | _ => None
  end.
Definition item_of (id : nat) : SValue := mkSValue id 32.
Definition carried (id : nat) : SValue := mkSValue id 7.
Definition sum_of (id : nat) : SValue := mkSValue id 0.

(** [if _7 != 0 { _6 += _5 } else { }] with a known [_7 = 0]: bb6 never runs. *)
Definition folded_mir : Body := range_mir 0
  [ mkBlock [take_item] (if_seven 6 7); mkBlock [add_item 6] (Some (Goto 8)); mkBlock [] (Some (Goto 8));
    mkBlock [] (Some (Goto 1)) ].
(** [if _7 != 0 { _6 += _5 }; _8 += _5], the addition in the back-edge block. *)
Definition absorbed_mir : Body := range_mir 0
  [ mkBlock [take_item] (if_seven 6 7); mkBlock [add_item 6] (Some (Goto 7)); mkBlock [add_item 8] (Some (Goto 1)) ].
(** [if _7 != 0 { _6 += _5 }; if _7 != 0 { _8 += _5 }] *)
Definition two_ifs_mir : Body := range_mir 0
  [ mkBlock [take_item] (if_seven 6 7); mkBlock [add_item 6] (Some (Goto 7)); mkBlock [] (if_seven 8 9);
    mkBlock [add_item 8] (Some (Goto 9)); mkBlock [] (Some (Goto 1)) ].
(** [_8 = _6 + _5], not read in the loop. *)
Definition last_mir : Body := range_mir 0
  [ mkBlock [take_item; Assign (loop_place 8) (BinaryOp Add (Copy (loop_place 6)) (Copy (loop_place 5)))]
      (Some (Goto 1)) ].

(** Bodies of range loops that compile to something else: an arm that a known
    condition excludes is executed, the statements after an [if] end up in one of
    its arms, of two [if]s the second is dropped, and a local set in the body but
    not carried stands for a value of the region after the loop. *)
Theorem for_emission_divergences :
  (* the arm that a known condition excludes runs in every iteration *)
  (∃ ops vals, compile_range folded_mir {[7 := 0%Z]} = Some ([6], ops, vals) ∧
     ops 20 = [OtherOp 0 [carried 8; item_of 7] [sum_of 9]; ScfYield [sum_of 9]]) ∧
  (* the statement after the [if] runs in one arm only *)
  (∃ ops vals cond, compile_range absorbed_mir ∅ = Some ([8; 6], ops, vals) ∧
     ops 20 = [ArithConstant 0 (carried 11); ArithCmpi (carried 1) (carried 11) cond;
               ScfIf cond 21 22 [carried 13; carried 14]; ScfYield [carried 13; carried 14]] ∧
     ops 21 = [ScfYield [carried 9; carried 10]] ∧
     ops 22 = [OtherOp 0 [carried 10; item_of 8] [sum_of 15]; OtherOp 0 [carried 9; item_of 8] [sum_of 16];
               ScfYield [sum_of 16; sum_of 15]]) ∧
  (* the second of two [if]s is gone, its arm follows the end of the region *)
  (∃ ops vals cond, compile_range two_ifs_mir ∅ = Some ([6; 8], ops, vals) ∧
     ops 20 = [ArithConstant 0 (carried 11); ArithCmpi (carried 1) (carried 11) cond;
               ScfIf cond 21 22 [carried 13; carried 14]; ScfYield [carried 13; carried 14];
               OtherOp 0 [carried 14; item_of 8] [sum_of 16]]) ∧
  (* after the loop a local stands for a value of the loop's region *)
  (∃ ops vals, compile_range last_mir ∅ = Some ([], ops, vals) ∧
     ops 20 = [OtherOp 0 [carried 0; item_of 6] [sum_of 7]; ScfYield []] ∧ vals !! 8 = Some (sum_of 7)).
Proof.
  split_and!.
  - do 2 eexists. split; [vm_compute; reflexivity|]. reflexivity.
  - do 3 eexists. split; [vm_compute; reflexivity|]. split_and!; reflexivity.
  - do 3 eexists. split; [vm_compute; reflexivity|]. reflexivity.
  - do 2 eexists. split; [vm_compute; reflexivity|]. split; reflexivity.
Qed.

(** [for .. in 0..4 { _6 += _5 }; for .. in 0..9 { _6 += _5 }] *)
Definition two_loops_mir : Body := mkBody
  [ mkBlock [Assign (loop_place 2) (Aggregate (AggAdt 7 0) [loop_const 0; loop_const 4])] (Some (Goto 1));
    mkBlock [] (Some (Call RuntimeChecks [Move (loop_place 1)] (loop_place 3) (Some 2) UnwindContinue));
    mkBlock [Assign (loop_place 4) (Discriminant (loop_place 3))]
      (Some (SwitchInt (Move (loop_place 4)) (Switch.new [(0%Z, 4); (1%Z, 3)] 9)));
    mkBlock [take_item; add_item 6] (Some (Goto 1));
    mkBlock [Assign (loop_place 2) (Aggregate (AggAdt 7 0) [loop_const 0; loop_const 9])] (Some (Goto 5));
    mkBlock [] (Some (Call RuntimeChecks [Move (loop_place 1)] (loop_place 3) (Some 6) UnwindContinue));
    mkBlock [Assign (loop_place 4) (Discriminant (loop_place 3))]
      (Some (SwitchInt (Move (loop_place 4)) (Switch.new [(0%Z, 8); (1%Z, 7)] 9)));
    mkBlock [take_item; add_item 6] (Some (Goto 5));
    mkBlock [] (Some Return); mkBlock [] (Some Unreachable) ]
  (repeat (TyUint U32) 10) 0.
(** [while _1 != 0 { _1 = _6 }] *)
Definition while_set_mir : Body := mkBody
  [ mkBlock [] (Some (Goto 1)); mkBlock [] (Some (SwitchInt (Copy (loop_place 1)) (Switch.static_if 0 3 2)));
    mkBlock [Assign (loop_place 1) (Use (Copy (loop_place 6)))] (Some (Goto 1)); mkBlock [] (Some Return) ]
  (repeat (TyUint U32) 10) 0.

(** What loop detection misses: the start of a range, the bounds of any range but
    the first, the local that only the condition of a while loop reads, and a local
    whose only read in the body is a discriminant read. *)
Theorem loop_detection_divergences :
  (* the start of a range is not recorded *)
  (∀ start, detect_range_loop 30 [] (range_mir start [mkBlock [take_item; add_item 6] (Some (Goto 1))]) =
     Ret [mkRange 1 5 [5] 5 3 5 None (Some 4%Z) 5 [6] (Some 2) (Some 3) []]) ∧
  (* every loop gets the bound of the first range of the function *)
  (ls ← detect_range_loop 60 [] two_loops_mir; Ret (map rl_bound_const ls)) = Ret [Some 4%Z; Some 4%Z] ∧
  (* the local a [while] condition reads is not carried *)
  detect_while_loop 30 while_set_mir ∅ = Ret [mkWhile 1 2 [2] 2 3 []] ∧
  (* nor the local that the body reads only as a discriminant, before it assigns it *)
  (detect_while_loop 30 discr_loop_body ∅ = Ret [mkWhile 1 2 [2] 2 3 []] ∧
   ∃ d, block_at discr_loop_body 2 = Ret d ∧
     Assign (loop_place 1) (Discriminant (loop_place 2)) ∈ statements d ∧
     ∃ rv, Assign (loop_place 2) rv ∈ statements d).
Proof.
  split_and!; [intros start; vm_compute; reflexivity|vm_compute; reflexivity..|].
  eexists. split; [reflexivity|]. split; [by left|]. eexists. right. by left.
Qed.
