(* ===== verification/TritonConfined.v ===== *)
(** * Structured control flow: which blocks the emitters write

    Whatever the code of a loop body does, it appends to the blocks it is given
    and to blocks it creates; every other block of the function keeps its
    operations.  And what a block outside the loops gets is operations that do
    not end a block, followed by one that does. *)
From S2P Require Import Prelude Codegen Mir Worklist TritonCfg TritonLoops TritonEmit TritonScf TritonScfFacts TritonForFacts.

(** The blocks an operation may branch to. *)
Definition op_targets {BlockRef Value} (o : MlirOp BlockRef Value) : list BlockRef :=
  match o with
  | CfBr t _ => [t]
  | CfCondBr _ t f _ _ => [t; f]
  | _ => []
  end.

Section confined.
Context {BlockRef Value MType Mod : Type} `{!EqDecision BlockRef} `{!EqDecision Value}.
Context `{!MlirBuilder BlockRef Value MType Mod} `{!ScfBuilder BlockRef Value MType Mod}.
Abbreviation State := (CodegenState Value).
Abbreviation gen := (cg (State * Mod)).
Abbreviation Blocks := (gmap BasicBlock BlockRef).
Abbreviation Op := (MlirOp BlockRef Value).
Implicit Types (s : State * Mod) (b : BlockRef) (W : list BlockRef) (new : list Op).

(** From [s] to [s'] no block of [s] but those of [W] got operations, and no
    block lost one of its arguments. *)
Record keeps W s s' : Prop := {
  k_ops b : has_block s.2 b → b ∉ W → block_ops s'.2 b = block_ops s.2 b;
  k_args b : has_block s.2 b → block_args s.2 b `prefix_of` block_args s'.2 b;
  k_blocks b : has_block s.2 b → has_block s'.2 b }.

#[export] Instance keeps_preorder W : PreOrder (keeps W).
Proof.
  split.
  - intros s. by split.
  - intros s1 s2 s3 H1 H2. split; intros b Hb.
    + intros Hn. rewrite (k_ops _ _ _ H2), (k_ops _ _ _ H1); [done..| |done]. by apply (k_blocks _ _ _ H1).
    + etrans; [by apply (k_args _ _ _ H1)|]. by apply (k_args _ _ _ H2), (k_blocks _ _ _ H1).
    + by apply (k_blocks _ _ _ H2), (k_blocks _ _ _ H1).
Qed.

Lemma keeps_mono W W' s s' : W ⊆ W' → keeps W s s' → keeps W' s s'.
Proof. intros HW [H1 H2 H3]. split; [|done..]. intros b Hb Hn. apply H1; [done|]. set_solver. Qed.

Lemma appends_keeps b new W s s' : b ∈ W → appends b new s s' → keeps W s s'.
Proof.
  intros Hb [H1 H2 H3 H4 _]. split; [|intros x Hx; by rewrite H3|done].
  intros x Hx Hn. apply H2; [done|]. by intros ->.
Qed.

Definition confined {A} (c : gen A) W : Prop :=
  ∀ s a s', (∀ b, b ∈ W → has_block s.2 b) → runs c s a s' → keeps W s s'.

Lemma confined_bind {A B} (c : gen A) (f : A → gen B) W :
  confined c W → (∀ a, confined (f a) W) → confined (c ≫= f) W.
Proof.
  intros Hc Hf s a s' HW (x & s1 & H1 & H2)%runs_bind. pose proof (Hc _ _ _ HW H1) as K.
  etrans; [done|]. eapply Hf; [|done]. intros b Hb. by apply (k_blocks _ _ _ K), HW.
Qed.
Lemma confined_tame {A} (c : gen A) b W : b ∈ W → tame c b → confined c W.
Proof. intros Hb Hc s a s' HW H. destruct (Hc _ _ _ (HW b Hb) H) as (new & Hg & _). by eapply appends_keeps. Qed.
Lemma confined_ret {A} (x : A) W : confined (mret x) W.
Proof. by intros s a s' _ [_ ->]%runs_ret. Qed.
Lemma confined_lift {A} (o : outcome A) W : confined (cg_lift o) W.
Proof. by intros s a s' _ [_ ->]%runs_lift. Qed.
Lemma confined_get {A} (f : State * Mod → A) W : confined (cg_get f) W.
Proof. by intros s a s' _ [_ ->]%runs_get. Qed.
Lemma confined_panic {A} W : confined (cg_panic : gen A) W.
Proof. by intros s a s' _ []%runs_panic. Qed.
Lemma confined_modify (f : State → State) W : confined (st_modify f) W.
Proof. intros s a s' _ ->%runs_modify. by split. Qed.
Lemma confined_iter {A} (f : A → gen unit) l W : (∀ a, a ∈ l → confined (f a) W) → confined (cg_iter f l) W.
Proof.
  induction l as [|x l IH]; intros Hf; simpl; [apply confined_ret|].
  apply confined_bind; [apply Hf; by left|]. intros _. apply IH. intros. apply Hf. by right.
Qed.
Lemma confined_results ts W : confined (results_new ts) W.
Proof.
  intros s a s' _ [-> ->]%runs_results_new. split; simpl; intros.
  - apply new_results_ops.
  - by rewrite new_results_args.
  - by apply new_results_has_block.
Qed.
Lemma confined_append b o W : b ∈ W → confined (append b o) W.
Proof. intros Hb s a s' _ ->%runs_modify. eapply appends_keeps; [done|apply appends_append]. Qed.
Lemma confined_ssa_values ls W : confined (cg_map ssa_value ls) W.
Proof. by intros s a s' _ [_ ->]%runs_ssa_values. Qed.
Lemma confined_ssa_insert_all ls vs W : confined (ssa_insert_all ls vs) W.
Proof. intros s [] s' _ [_ ->]%runs_ssa_insert_all. by split. Qed.
Lemma confined_yield ls b W : b ∈ W → confined (yield_locals ls b) W.
Proof. intros Hb. apply confined_bind; [apply confined_ssa_values|]. intros. by apply confined_append. Qed.

Lemma keeps_block ts s : keeps [] s (s.1, (new_block ts s.2).2).
Proof.
  assert (Hne : ∀ b', has_block s.2 b' → b' ≠ (new_block ts s.2).1).
  { intros b' Hb' ->. by apply (new_block_new ts s.2). }
  split; simpl; intros b Hb.
  - intros _. rewrite new_block_ops, decide_False by auto. done.
  - rewrite new_block_args by auto. done.
  - apply new_block_has_block. by left.
Qed.

(** A block created on the way is nobody else's. *)
Lemma keeps_new W ts s s' :
  keeps ((new_block ts s.2).1 :: W) (s.1, (new_block ts s.2).2) s' → keeps W s s'.
Proof.
  intros K. assert (Hne : ∀ b', has_block s.2 b' → b' ≠ (new_block ts s.2).1).
  { intros b' Hb' ->. by apply (new_block_new ts s.2). }
  pose proof (keeps_block ts s) as K0. split; intros b Hb.
  - intros Hn. rewrite (k_ops _ _ _ K); [by apply (k_ops _ _ _ K0); [|apply not_elem_of_nil]|by apply (k_blocks _ _ _ K0)|].
    apply not_elem_of_cons. auto.
  - etrans; [by apply (k_args _ _ _ K0)|]. by apply (k_args _ _ _ K), (k_blocks _ _ _ K0).
  - by apply (k_blocks _ _ _ K), (k_blocks _ _ _ K0).
Qed.
Lemma confined_new {A} ts (f : BlockRef → gen A) W :
  (∀ b, confined (f b) (b :: W)) → confined (block_new ts ≫= f) W.
Proof.
  intros Hf s a s' HW (b & s1 & [-> ->]%runs_block_new & H)%runs_bind. apply (keeps_new W ts).
  eapply Hf; [|done]. intros b [->|Hb]%elem_of_cons; simpl; apply new_block_has_block; [by right|].
  left. by apply HW.
Qed.
End confined.

Create HintDb confined.
#[export] Hint Resolve confined_ret confined_lift confined_get confined_panic confined_modify confined_results
  confined_append confined_ssa_values confined_ssa_insert_all confined_yield list_elem_of_here
  list_elem_of_further : confined.
(** Down a chain of binds. *)
Ltac confine := repeat (first [solve [eauto with confined]|apply confined_new; intros ?|
  apply confined_bind; [solve [eauto with confined]|intros ?]]).

Section branches.
Context {BlockRef Value MType Mod : Type} `{!EqDecision BlockRef} `{!EqDecision Value}.
Context `{!MlirBuilder BlockRef Value MType Mod} `{!ScfBuilder BlockRef Value MType Mod}.
Abbreviation State := (CodegenState Value).
Abbreviation gen := (cg (State * Mod)).
Abbreviation Blocks := (gmap BasicBlock BlockRef).
Abbreviation Op := (MlirOp BlockRef Value).
Implicit Types (s : State * Mod) (b : BlockRef) (W : list BlockRef) (new : list Op).

(** ** Branches *)
(** [keeps], and the loop context stays. *)
Definition stays W s s' : Prop := keeps W s s' ∧ loop_ctx s'.1 = loop_ctx s.1.

Lemma stays_refl W s : stays W s s.
Proof. split; [reflexivity|done]. Qed.
Lemma stays_trans W s1 s2 s3 : stays W s1 s2 → stays W s2 s3 → stays W s1 s3.
Proof. intros [] []. split; [by etrans|congruence]. Qed.

Lemma phi_arg_stays t tb st m args l st' m' args' :
  phi_arg t tb (st, m, args) l = Ret (st', m', args') → stays [] (st, m) (st', m').
Proof.
  unfold phi_arg. destruct (phi_block_args st !! (t, l)) as [v|].
  - intros H. destruct (decide _); destruct (unwrap _); simpl in H; simplify_eq; apply stays_refl.
  - destruct (unwrap (ssa_values st !! l)) as [v| |]; simpl; try done.
    pose proof (add_argument_args tb (value_type v) m) as Ha.
    pose proof (add_argument_ops tb (value_type v) m) as Ho.
    pose proof (add_argument_has_block tb (value_type v) m) as Hb.
    destruct (add_argument tb (value_type v) m) as [w m1]. intros [= <- <- <-]. simpl in *.
    split; [|done]. split; simpl; intros b Hbb; [by rewrite Ho| |by apply Hb].
    rewrite Ha. destruct (decide _); [by eexists|done].
Qed.

Lemma make_phi_args_stays t tb st m st' m' args :
  make_phi_args t tb st m = Ret (st', m', args) → stays [] (st, m) (st', m').
Proof.
  unfold make_phi_args. destruct (phi_join_locals st !! t) as [ls|].
  2: { intros [= <- <- <-]. apply stays_refl. }
  generalize ([] : list Value). revert st m. induction ls as [|l ls IH]; intros st m acc; cbn [ofold].
  { intros [= <- <- <-]. apply stays_refl. }
  destruct (phi_arg t tb (st, m, acc) l) as [[[st1 m1] a1]| |] eqn:E; simpl; try done. intros H.
  eapply stays_trans; [by eapply phi_arg_stays|by eapply IH].
Qed.

(** The block [b] got one more operation, which branches to blocks of the map. *)
Definition ends_with (basic_blocks : Blocks) b s s' : Prop :=
  stays [b] s s' ∧ ∃ o, block_ops s'.2 b = block_ops s.2 b ++ [o] ∧ ends_block o = true ∧
    ∀ t, t ∈ op_targets o → ∃ bb, basic_blocks !! bb = Some t.

Lemma append_ends (basic_blocks : Blocks) b o s st m :
  stays [] s (st, m) → has_block s.2 b → ends_block o = true →
  (∀ t, t ∈ op_targets o → ∃ bb, basic_blocks !! bb = Some t) →
  ends_with basic_blocks b s (st, append_operation b o m).
Proof.
  intros [K Hc] Hb Ho Ht. split; [split; [|done]|].
  - etrans; [apply (keeps_mono []), K; set_solver|].
    apply (appends_keeps b [o]); [by left|apply (appends_append b o (st, m))].
  - exists o. split_and!; [|done..]. simpl. rewrite append_operation_ops, decide_True by done.
    by rewrite (k_ops _ _ _ K) by (done || apply not_elem_of_nil).
Qed.

Lemma goto_branch_ends (basic_blocks : Blocks) t b s r tb st1 m1 args :
  has_block s.2 b → basic_blocks !! t = Some tb → make_phi_args t tb s.1 s.2 = Ret (st1, m1, args) →
  r = (st1, append_operation b (CfBr tb args) m1) → ends_with basic_blocks b s r.
Proof.
  intros Hb Ht Hm%make_phi_args_stays ->. rewrite <-surjective_pairing in Hm. apply append_ends; [done..|].
  intros x ->%list_elem_of_singleton. by exists t.
Qed.

(** A goto outside the loops. *)
Lemma goto_ends basic_blocks t b s s' :
  loop_header_bb s.1 = None → has_block s.2 b → runs (goto basic_blocks t b) s tt s' →
  ends_with basic_blocks b s s' ∧ is_Some (basic_blocks !! t).
Proof.
  intros Hh Hb. unfold runs, goto, codegen_goto. rewrite Hh.
  destruct (basic_blocks !! t) as [tb|] eqn:Ht; simpl; [|done].
  destruct (make_phi_args t tb s.1 s.2) as [[[st1 m1] args]| |] eqn:E; simpl; try done. intros [= <-].
  split; [by eapply goto_branch_ends|done].
Qed.

Lemma cond_br_ends basic_blocks cmp t o b s s' :
  loop_header_bb s.1 = None → has_block s.2 b → runs (cond_br basic_blocks cmp t o b) s tt s' →
  ends_with basic_blocks b s s'.
Proof.
  intros Hh Hb H. unfold runs, cond_br, codegen_cond_br in H. destruct (t =? o).
  { by apply (goto_ends basic_blocks t). }
  destruct (basic_blocks !! t) as [tb|] eqn:Ht; simpl in H; [|done].
  destruct (basic_blocks !! o) as [ob|] eqn:Ho; simpl in H; [|done].
  destruct (make_phi_args t tb s.1 s.2) as [[[st1 m1] args1]| |] eqn:E1; simpl in H; try done.
  destruct (make_phi_args o ob st1 m1) as [[[st2 m2] args2]| |] eqn:E2; simpl in H; try done.
  injection H as <-. apply make_phi_args_stays in E1, E2. rewrite <-surjective_pairing in E1.
  apply append_ends; [by eapply stays_trans|done..|].
  intros x [->| ->%list_elem_of_singleton]%elem_of_cons; eauto.
Qed.

(** A goto or branch anywhere. *)
Lemma confined_goto basic_blocks t b W : b ∈ W → confined (goto basic_blocks t b) W.
Proof.
  intros Hb s [] s' HW H. specialize (HW b Hb).
  assert (Happ : ∀ st m o, stays [] s (st, m) → keeps W s (st, append_operation b o m)).
  { intros st m o [K _]. etrans; [apply (keeps_mono []), K; set_solver|].
    apply (appends_keeps b [o]); [done|apply (appends_append b o (st, m))]. }
  unfold runs, goto, codegen_goto in H.
  set (branch := (target_block ← unwrap (basic_blocks !! t); _)) in H.
  assert (Hbr : ∀ r, branch = Ret r → keeps W s r).
  { intros r. unfold branch. destruct (basic_blocks !! t) as [tb|]; simpl; [|done].
    destruct (make_phi_args t tb s.1 s.2) as [[[st1 m1] args]| |] eqn:E; simpl; try done. intros [= <-].
    apply make_phi_args_stays in E. rewrite <-surjective_pairing in E. by apply Happ. }
  destruct (loop_header_bb s.1) as [h|].
  2: { destruct branch as [r| |]; simpl in H; try done. injection H as <-. by apply Hbr. }
  destruct (t =? h); [|case_bool_decide].
  - destruct (omapM _ _); simpl in H; try done. injection H as <-. apply Happ. by destruct s.
  - simpl in H. injection H as <-. by destruct s.
  - destruct branch as [r| |]; simpl in H; try done. injection H as <-. by apply Hbr.
Qed.

Lemma confined_cond_br basic_blocks cmp t o b W : b ∈ W → confined (cond_br basic_blocks cmp t o b) W.
Proof.
  intros Hb s [] s' HW H. destruct (decide (t = o)) as [->|Hne].
  { apply (confined_goto basic_blocks o b W Hb s tt s' HW). unfold runs, cond_br, codegen_cond_br in H.
    by rewrite Nat.eqb_refl in H. }
  specialize (HW b Hb). unfold runs, cond_br, codegen_cond_br in H. apply Nat.eqb_neq in Hne. rewrite Hne in H.
  destruct (basic_blocks !! t) as [tb|] eqn:Ht; simpl in H; [|done].
  destruct (basic_blocks !! o) as [ob|] eqn:Ho; simpl in H; [|done].
  destruct (make_phi_args t tb s.1 s.2) as [[[st1 m1] args1]| |] eqn:E1; simpl in H; try done.
  destruct (make_phi_args o ob st1 m1) as [[[st2 m2] args2]| |] eqn:E2; simpl in H; try done.
  injection H as <-. apply make_phi_args_stays in E1, E2. rewrite <-surjective_pairing in E1.
  etrans; [apply (keeps_mono []), (stays_trans _ _ _ _ E1 E2); set_solver|].
  apply (appends_keeps b [CfCondBr cmp tb ob args1 args2]); [done|apply (appends_append b _ (st2, m2))].
Qed.
End branches.
#[export] Hint Resolve confined_goto confined_cond_br : confined.
