(* ===== verification/TritonFuncFacts.v ===== *)
(** * Code generation of a function: what each emitter writes

    Terminators, blocks and loops append to their own block and to blocks they
    create ([confined]); outside the loops a block gets operations that do not
    end it and then one that does ([closes]). *)
From S2P Require Import Prelude Codegen Mir Worklist TritonCfg TritonLoops TritonEmit TritonEmitFacts TritonScf TritonScfFacts TritonForFacts TritonConfined.

Section emitters.
Context {BlockRef Value MType Mod : Type} `{!EqDecision BlockRef} `{!EqDecision Value}.
Context `{!MlirBuilder BlockRef Value MType Mod} `{!ScfBuilder BlockRef Value MType Mod}.
Abbreviation State := (CodegenState Value).
Abbreviation gen := (cg (State * Mod)).
Abbreviation Blocks := (gmap BasicBlock BlockRef).
Abbreviation Op := (MlirOp BlockRef Value).
Implicit Types (s : State * Mod) (b : BlockRef) (W : list BlockRef) (new : list Op).

Context (instantiate : Const → Const) (is_option_ty : Place → bool).
Context (codegen_assign : Place → Rvalue → BlockRef → gen unit).
Context (codegen_operand : Operand → BlockRef → gen Value).
Context (method : Operand → list Operand → Place → BlockRef → gen (option Value)).
Context (fuel : nat) (mir : Body).
Context (Htame : tame_handlers codegen_assign codegen_operand method).

Abbreviation statements_code := (codegen_statements is_option_ty codegen_assign).
Abbreviation call_code := (codegen_terminator_call method).
Abbreviation if_code := (codegen_loop_body_switch_as_scf_if is_option_ty codegen_assign method fuel mir).
Abbreviation binary_code := (codegen_switch_binary is_option_ty codegen_assign method fuel mir).
Abbreviation terminator_code :=
  (codegen_terminator instantiate is_option_ty codegen_assign codegen_operand method fuel mir).
Abbreviation block_code :=
  (codegen_basic_block instantiate is_option_ty codegen_assign codegen_operand method fuel mir).
Abbreviation for_code :=
  (codegen_scf_for_loop instantiate is_option_ty codegen_assign codegen_operand method fuel mir).
Abbreviation while_code :=
  (codegen_scf_while_loop instantiate is_option_ty codegen_assign codegen_operand method fuel mir).

(** ** Everything is confined *)
Lemma confined_statements stmts b W : b ∈ W → confined (statements_code stmts b) W.
Proof. intros Hb. by eapply (confined_tame _ b), tame_statements. Qed.
Lemma confined_operand op b W : b ∈ W → confined (codegen_operand op b) W.
Proof. intros Hb. by apply (confined_tame _ b), (tame_operand _ _ _ Htame). Qed.
Lemma confined_method f args dest b W : b ∈ W → confined (method f args dest b) W.
Proof. intros Hb. by apply (confined_tame _ b), (tame_method _ _ _ Htame). Qed.
#[local] Hint Resolve confined_statements confined_operand confined_method : confined.

Lemma confined_constant b n ty W : b ∈ W → confined (arith_constant b n ty) W.
Proof. intros Hb. unfold arith_constant. confine. Qed.
Lemma confined_cmpi b x y W : b ∈ W → confined (arith_cmpi_eq b x y) W.
Proof. intros Hb. unfold arith_cmpi_eq. confine. Qed.
Lemma confined_call f args dest t b basic_blocks W :
  b ∈ W → confined (call_code f args dest t b basic_blocks) W.
Proof.
  intros Hb. unfold codegen_terminator_call. apply confined_bind; [by apply confined_method|].
  intros [v|]; confine.
Qed.
#[local] Hint Resolve confined_constant confined_cmpi confined_call : confined.

Lemma confined_arm chain carry basic_blocks W :
  confined (codegen_arm is_option_ty codegen_assign method mir chain carry basic_blocks) W.
Proof.
  unfold codegen_arm. apply confined_new. intros b. apply confined_bind; [|intros; confine].
  apply confined_iter. intros bb _. unfold codegen_arm_block.
  confine. by repeat case_match; eauto with confined.
Qed.
#[local] Hint Resolve confined_arm : confined.

Lemma confined_scf_if c t f b basic_blocks W : b ∈ W → confined (if_code c t f b basic_blocks) W.
Proof. intros Hb. unfold codegen_loop_body_switch_as_scf_if. confine. case_match; eauto with confined. Qed.
#[local] Hint Resolve confined_scf_if : confined.

Lemma confined_binary d v t o b basic_blocks W : b ∈ W → confined (binary_code d v t o b basic_blocks) W.
Proof. intros Hb. unfold codegen_switch_binary. confine. repeat case_match; eauto with confined. Qed.
#[local] Hint Resolve confined_binary : confined.

Lemma confined_terminator k b basic_blocks W : b ∈ W → confined (terminator_code k b basic_blocks) W.
Proof.
  intros Hb. destruct k; simpl; eauto with confined; unfold codegen_return, codegen_switch_int; confine.
  case_match; confine. repeat (case_match; confine).
Qed.
#[local] Hint Resolve confined_terminator : confined.

Lemma confined_block basic_blocks bb W :
  (∀ b, basic_blocks !! bb = Some b → b ∈ W) → confined (block_code basic_blocks bb) W.
Proof.
  intros HW. unfold codegen_basic_block. apply confined_bind; [eauto with confined|]. intros d.
  destruct (basic_blocks !! bb) as [b|]; [specialize (HW b eq_refl)|intros s a s' _ Hr; by runs_inv].
  intros s a s' Hs (b' & s1 & [[= <-] ->]%runs_lift & Hr)%runs_bind. revert s a s' Hs Hr.
  change (confined (_ ← st_modify (enter_block bb); _ ← statements_code (statements d) b;
    k ← cg_lift (terminator d); terminator_code k b basic_blocks) W). confine.
Qed.

(** ** Blocks outside the loops *)
Definition inner (new : list Op) : Prop := forallb (λ o, negb (ends_block o)) new = true.

Lemma plain_inner new : forallb plain_op new = true → inner new.
Proof. unfold inner. rewrite !forallb_forall. intros H o Ho. by destruct o; specialize (H _ Ho). Qed.

(** Operations that do not end the block were appended to it. *)
Definition pre_run b s s' : Prop := ∃ new, ctx_run b new s s' ∧ inner new.

Lemma pre_refl b s : pre_run b s s.
Proof. exists []. split; [apply ctx_run_refl|done]. Qed.
Lemma pre_trans b s1 s2 s3 : has_block s1.2 b → pre_run b s1 s2 → pre_run b s2 s3 → pre_run b s1 s3.
Proof.
  intros Hb (n1 & R1 & I1) (n2 & R2 & I2). exists (n1 ++ n2). split; [by eapply ctx_run_trans|].
  unfold inner in *. by rewrite forallb_app, I1, I2.
Qed.
Lemma pre_block b s s' b' : pre_run b s s' → has_block s.2 b' → has_block s'.2 b'.
Proof. intros (? & [Hg _] & _). apply (g_blocks _ _ _ _ Hg). Qed.
Lemma pre_tame b s s' : tame_run b s s' → pre_run b s s'.
Proof. intros (new & ? & ?%plain_inner)%tame_ctx. by exists new. Qed.
Lemma pre_modify b s st : loop_ctx st = loop_ctx s.1 → pre_run b s (st, s.2).
Proof. intros H. exists []. split; [split; [apply appends_same|done]|done]. Qed.

(** ... and then one that ends it. *)
Definition closes (basic_blocks : Blocks) b s s' : Prop :=
  keeps [b] s s' ∧ ∃ pre o, block_ops s'.2 b = block_ops s.2 b ++ pre ++ [o] ∧ inner pre ∧
    ends_block o = true ∧ ∀ t, t ∈ op_targets o → ∃ bb, basic_blocks !! bb = Some t.

Lemma pre_ends basic_blocks b s s1 s' : has_block s.2 b → pre_run b s s1 → ends_with basic_blocks b s1 s' →
  closes basic_blocks b s s' ∧ loop_ctx s'.1 = loop_ctx s.1.
Proof.
  intros Hb (new & [Hg Hc] & Hin) ([K Hc'] & o & Ho & He & Ht). split; [split|congruence].
  - etrans; [|done]. eapply appends_keeps; [by left|done].
  - exists new, o. split_and!; [|done..]. by rewrite Ho, (g_ops _ _ _ _ Hg), app_assoc.
Qed.

Lemma pre_then basic_blocks b s s2 s' : has_block s.2 b → pre_run b s s2 →
  closes basic_blocks b s2 s' → closes basic_blocks b s s'.
Proof.
  intros Hb (new & [Hg _] & Hin) [K (pre & op & Ho & Hp & ? & ?)]. split.
  - etrans; [|done]. eapply appends_keeps; [by left|done].
  - exists (new ++ pre), op. split_and!; [by rewrite Ho, (g_ops _ _ _ _ Hg), <-!app_assoc| |done..].
    unfold inner in *. by rewrite forallb_app, Hin, Hp.
Qed.
Lemma pre_closes basic_blocks b s s2 s' : has_block s.2 b → pre_run b s s2 →
  closes basic_blocks b s2 s' ∧ loop_ctx s'.1 = loop_ctx s2.1 →
  closes basic_blocks b s s' ∧ loop_ctx s'.1 = loop_ctx s.1.
Proof.
  intros Hb P [C E]. split; [by eapply pre_then|]. destruct P as (? & [_ Hc] & _). congruence.
Qed.

Lemma pre_constant b n ty s v s' : has_block s.2 b → runs (arith_constant b n ty) s v s' → pre_run b s s'.
Proof. intros Hb (R & _)%runs_constant; [|done]. by eexists. Qed.
Lemma pre_cmpi b x y s v s' : has_block s.2 b → runs (arith_cmpi_eq b x y) s v s' → pre_run b s s'.
Proof.
  intros Hb H. apply pre_tame. eapply (_ : tame (arith_cmpi_eq b x y) b); [done|exact H].
  Unshelve. unfold arith_cmpi_eq. repeat (apply tame_bind; [eauto with tame|intros ?]). eauto with tame.
Qed.

Lemma return_closes basic_blocks b s s' :
  has_block s.2 b → runs (codegen_return b) s tt s' → ends_with basic_blocks b s s'.
Proof.
  intros Hb (fs & ? & [-> ->]%runs_get & (r & ? & [-> ->]%runs_get & ->%runs_modify)%runs_bind)%runs_bind.
  apply append_ends; [rewrite <-surjective_pairing; apply stays_refl|done..|].
  by intros t ?%elem_of_nil.
Qed.

Lemma call_closes f args dest t b basic_blocks s s' : loop_header_bb s.1 = None → has_block s.2 b →
  runs (call_code f args dest t b basic_blocks) s tt s' →
  closes basic_blocks b s s' ∧ loop_ctx s'.1 = loop_ctx s.1.
Proof.
  intros Hh Hb (v & s1 & H1 & ([] & s2 & H2 & (t' & ? & [_ ->]%runs_lift & H)%runs_bind)%runs_bind)%runs_bind.
  assert (P : pre_run b s s2).
  { apply pre_tame. eapply (tame_run_trans _ _ s1); [done|by eapply (tame_method _ _ _ Htame)|].
    destruct v as [v|]; [eapply tame_ssa_insert; [|done]|by apply runs_ret in H2 as [_ ->]; apply tame_run_refl].
    eapply tame_run_block; [by eapply (tame_method _ _ _ Htame)|done]. }
  eapply pre_ends; [done|exact P|]. eapply goto_ends; [|by eapply pre_block|done].
  destruct P as (? & [_ Hc] & _). unfold loop_ctx in Hc. congruence.
Qed.

Lemma binary_closes d v t o b basic_blocks s s' : loop_header_bb s.1 = None → has_block s.2 b →
  runs (binary_code d v t o b basic_blocks) s tt s' →
  closes basic_blocks b s s' ∧ loop_ctx s'.1 = loop_ctx s.1.
Proof.
  intros Hh Hb (c & s1 & H1 & (cmp & s2 & H2 & (hd & ? & [-> ->]%runs_get & (body & ? & [-> ->]%runs_get & H)%runs_bind)%runs_bind)%runs_bind)%runs_bind.
  assert (P : pre_run b s s2).
  { pose proof (pre_constant _ _ _ _ _ _ Hb H1) as P1. eapply pre_trans; [done..|].
    eapply pre_cmpi; [by eapply pre_block|done]. }
  assert (Hn : loop_header_bb s2.1 = None).
  { destruct P as (? & [_ Hc] & _). unfold loop_ctx in Hc. congruence. }
  rewrite Hn in H. eapply pre_ends; [done|exact P|]. eapply cond_br_ends; [done|by eapply pre_block|done].
Qed.

Lemma switch_closes discr targets b basic_blocks s s' : loop_header_bb s.1 = None → has_block s.2 b →
  runs (terminator_code (SwitchInt discr targets) b basic_blocks) s tt s' →
  closes basic_blocks b s s' ∧ loop_ctx s'.1 = loop_ctx s.1.
Proof.
  intros Hh Hb. simpl. unfold codegen_switch_int.
  intros (cd & ? & [-> ->]%runs_get & H)%runs_bind.
  destruct (extract_switch_const _ _ _) as [c|].
  { apply runs_bind in H as (t & ? & [_ ->]%runs_lift & H). eapply pre_ends; [done|apply pre_refl|].
    by eapply goto_ends. }
  apply runs_bind in H as (d & s1 & H1 & (o & ? & [_ ->]%runs_lift & ([] & ? & ->%runs_modify & H)%runs_bind)%runs_bind).
  set (s2 := (save_snapshots (vec_push (Switch.iter targets).*2 o) s1.1, s1.2)) in *.
  assert (P : pre_run b s s2).
  { pose proof (pre_tame _ _ _ (tame_operand _ _ _ Htame _ _ _ _ _ Hb H1)) as P1.
    eapply pre_trans; [done..|]. by apply pre_modify. }
  pose proof (pre_block _ _ _ _ P Hb) as Hb2. pose proof P as (new & [_ Hc] & _).
  assert (Hh2 : loop_header_bb s2.1 = None) by (unfold loop_ctx in Hc; congruence).
  eapply pre_closes; [done|exact P|]. clearbody s2. destruct (Switch.iter targets) as [|[v0 t0] [|[v1 t1] [|]]].
  - eapply pre_ends; [done|apply pre_refl|]. by eapply goto_ends.
  - by eapply binary_closes.
  - apply runs_bind in H as ([] & ? & [_ ->]%runs_lift & H); [by eapply binary_closes|by apply runs_panic in H].
  - by apply runs_panic in H.
Qed.

Lemma terminator_closes k b basic_blocks s s' : loop_header_bb s.1 = None → has_block s.2 b →
  runs (terminator_code k b basic_blocks) s tt s' →
  closes basic_blocks b s s' ∧ loop_ctx s'.1 = loop_ctx s.1.
Proof.
  intros Hh Hb H. pose proof (pre_refl b s) as P.
  destruct k; simpl in H; try by apply runs_panic in H.
  all: try by (eapply pre_ends; [done|exact P|]; eapply goto_ends).
  - by eapply switch_closes.
  - eapply pre_ends; [done|exact P|]. by apply return_closes.
  - by eapply call_closes.
Qed.

Lemma block_closes basic_blocks bb b s s' : loop_header_bb s.1 = None → has_block s.2 b →
  basic_blocks !! bb = Some b → runs (block_code basic_blocks bb) s tt s' →
  closes basic_blocks b s s' ∧ loop_ctx s'.1 = loop_ctx s.1.
Proof.
  intros Hh Hb Hbb (d & ? & [_ ->]%runs_lift & (b' & ? & [Hb' ->]%runs_lift & ([] & ? & ->%runs_modify & ([] & s1 & H1 & (k & ? & [_ ->]%runs_lift & H)%runs_bind)%runs_bind)%runs_bind)%runs_bind)%runs_bind.
  rewrite Hbb in Hb'. injection Hb' as <-.
  assert (P : pre_run b s s1).
  { eapply (pre_trans _ _ (enter_block bb s.1, s.2)); [done|apply pre_modify, enter_block_ctx|].
    apply pre_tame. eapply tame_statements; [exact Htame|done|exact H1]. }
  eapply pre_closes; [done|exact P|]. pose proof (pre_block _ _ _ _ P Hb) as Hb1.
  destruct P as (? & [_ Hc] & _). eapply terminator_closes; [unfold loop_ctx in Hc; congruence|done..].
Qed.

(** The end of a loop: its operation and the branch to its exit. *)
Lemma loop_closes (outer : Blocks) exit ls results o b s s' : has_block s.2 b → ends_block o = false →
  runs (_ ← append b o; _ ← ssa_insert_all ls results; branch_to outer exit b) s tt s' →
  closes outer b s s' ∧ loop_ctx s'.1 = loop_ctx s.1.
Proof.
  intros Hb Ho ([] & ? & ->%runs_modify & ([] & ? & [_ ->]%runs_ssa_insert_all & (ex & ? & [Hex ->]%runs_lift & ->%runs_modify)%runs_bind)%runs_bind)%runs_bind.
  destruct (outer !! exit) as [e|] eqn:E; [|done]. injection Hex as ->. cbn [fst snd].
  split; [|done]. set (st := with_ssa s.1 _). pose proof (appends_append b o s) as G0.
  pose proof (appends_trans _ _ _ _ _ _ Hb G0 (appends_same b _ st) : appends b [o] s (st, append_operation b o s.2)) as G1.
  set (s1 := (st, append_operation b o s.2)) in *. clear G0.
  pose proof (appends_append b (CfBr ex []) s1) as G2. split.
  - etrans; eapply appends_keeps; [by left|exact G1|by left|exact G2].
  - exists [o], (CfBr ex []). split_and!; [|by unfold inner; simpl; rewrite Ho|done|].
    + pose proof (g_ops _ _ _ _ G2) as E2. rewrite (g_ops _ _ _ _ G1), <-app_assoc in E2. exact E2.
    + intros t ->%list_elem_of_singleton. by exists exit.
Qed.

(** What is confined to new blocks leaves the block as it is. *)
Lemma keeps_closes (outer : Blocks) b s s1 s' : has_block s.2 b → keeps [] s s1 →
  closes outer b s1 s' → closes outer b s s'.
Proof.
  intros Hb K [K' (pre & o & Ho & ?)]. split.
  - etrans; [|done]. eapply keeps_mono; [|done]. set_solver.
  - exists pre, o. split; [|done]. by rewrite Ho, (k_ops _ _ _ K) by (done || apply not_elem_of_nil).
Qed.

(** The blocks of a region are its blocks. *)
Lemma with_body_values body r (outer : Blocks) bb b' :
  bb ∈ body → with_body body r outer !! bb = Some b' → b' = r.
Proof. intros Hin. rewrite with_body_lookup by done. by intros [= <-]. Qed.

Lemma for_closes l b (outer : Blocks) s s' : has_block s.2 b →
  runs (for_code l b outer) s tt s' → closes outer b s s' ∧ loop_header_bb s'.1 = None.
Proof.
  intros Hb. unfold codegen_scf_for_loop.
  intros (lb & sa & H1 & (step & sb & H2 & (ub & s1 & H3 & (inits & ? & [_ ->]%runs_ssa_values & (results & s2 & Hres & H)%runs_bind)%runs_bind)%runs_bind)%runs_bind)%runs_bind.
  destruct (for_loop_bounds _ _ _ Htame _ _ _ _ _ _ _ _ _ H1 H2 H3 Hb) as (R1 & _). clear H1 H2 H3 sa sb.
  assert (P : pre_run b s s1).
  { eexists. split; [exact R1|]. unfold bound_ops. by destruct (rl_bound_const l). }
  pose proof (pre_block _ _ _ _ P Hb) as Hb1.
  assert (K2 : keeps [] s1 s2) by (eapply confined_results; [by intros ? ?%elem_of_nil|exact Hres]).
  apply runs_bind in H as (body & s3 & Hbody & H). pose proof Hbody as [Eb E3]%runs_block_new.
  apply runs_bind in H as (eb & ? & [_ ->]%runs_lift & (ea & ? & [_ ->]%runs_get & (iv & ? & [_ ->]%runs_lift & ([] & s7 & ->%runs_map_for_args & ([] & s8 & ->%runs_modify & H)%runs_bind)%runs_bind)%runs_bind)%runs_bind).
  apply runs_bind in H as ([] & s9 & H9 & ([] & s10 & ->%runs_modify & H)%runs_bind).
  set (st8 := with_loop _ _ _ _ _) in H9.
  assert (K9 : keeps [body] (st8, s3.2) s9).
  { eapply (confined_iter _ _ [body]); [|..|exact H9].
    - intros bb Hbb. unfold for_body_block. apply confined_bind; [apply confined_get|]. intros sk.
      case_bool_decide; [apply confined_ret|]. apply confined_block.
      intros b' ->%with_body_values; [by left|done].
    - intros b' ->%list_elem_of_singleton. rewrite E3, Eb. apply new_block_has_block. by right. }
  assert (K : keeps [] s1 (with_skip (with_loop s9.1 None [] ∅ None) ∅, s9.2)).
  { etrans; [exact K2|]. apply (keeps_new [] (int_type 32 :: (value_type <$> inits))). rewrite Eb, E3 in K9.
    by destruct K9. }
  eapply loop_closes in H as [C E]; [|by apply (k_blocks _ _ _ K)|done].
  split; [eapply pre_then; [done|exact P|by eapply keeps_closes]|]. unfold loop_ctx in E. simpl in E. congruence.
Qed.

Lemma confined_before wl b W : b ∈ W →
  confined (codegen_before is_option_ty codegen_assign codegen_operand mir wl b) W.
Proof. intros Hb. unfold codegen_before. confine. case_match; confine. Qed.

Lemma while_closes wl b (outer : Blocks) s s' : has_block s.2 b →
  runs (while_code wl b outer) s tt s' → closes outer b s s' ∧ loop_header_bb s'.1 = None.
Proof.
  intros Hb. unfold codegen_scf_while_loop.
  intros (inits & ? & [_ ->]%runs_ssa_values & (results & s1 & Hres & H)%runs_bind)%runs_bind.
  assert (K1 : keeps [] s s1) by (eapply confined_results; [by intros ? ?%elem_of_nil|exact Hres]).
  set (types := value_type <$> inits) in *.
  apply runs_bind in H as (before & s2 & [Eb ->]%runs_block_new & (bargs & ? & [-> ->]%runs_get & ([] & ? & [_ ->]%runs_ssa_insert_all & ([] & s3 & H3 & H)%runs_bind)%runs_bind)%runs_bind).
  apply runs_bind in H as (after & s4 & [Ea ->]%runs_block_new & (aargs & ? & [-> ->]%runs_get & ([] & ? & [_ ->]%runs_ssa_insert_all & ([] & ? & ->%runs_modify & H)%runs_bind)%runs_bind)%runs_bind).
  apply runs_bind in H as ([] & s5 & H5 & ([] & ? & ->%runs_modify & H)%runs_bind).
  cbn [fst snd] in *.
  assert (K3 : keeps [before] (s1.1, (new_block types s1.2).2) s3).
  { eapply (confined_before wl before [before]) in H3 as [K31 K32 K33]; [by split|by left|].
    intros ? ->%list_elem_of_singleton. rewrite Eb. apply new_block_has_block. by right. }
  assert (K5 : keeps [after; before] (s3.1, (new_block types s3.2).2) s5).
  { eapply (confined_iter _ _ [after; before]) in H5 as [K51 K52 K53]; [by split|..].
    - intros bb Hbb. apply confined_block.
      intros b' [[_ <-]|[_ ->%with_body_values]]%lookup_insert_Some; [set_solver..|done].
    - intros b' [->| ->%list_elem_of_singleton]%elem_of_cons; apply new_block_has_block; [by right|].
      left. apply (k_blocks _ _ _ K3). rewrite Eb. apply new_block_has_block. by right. }
  assert (K : keeps [] s (with_loop s5.1 None [] ∅ (loop_back_edge_bb s5.1), s5.2)).
  { etrans; [exact K1|]. apply (keeps_new [] types). rewrite Eb in *.
    etrans; [exact K3|]. apply (keeps_new _ types). rewrite Ea in *. by destruct K5. }
  apply loop_closes in H as [C E]; [|by apply (k_blocks _ _ _ K)|done].
  split; [by eapply keeps_closes|]. unfold loop_ctx in E. simpl in E. congruence.
Qed.
End emitters.

(** ** Every emitter keeps the branch invariant

    [emits]: a computation that is given blocks that exist keeps the invariant of
    [TritonEmitFacts] on the blocks of the function. *)
Section emits.
Context {BlockRef Value MType Mod : Type} `{!EqDecision BlockRef} `{!EqDecision Value}.
Context `{!MlirBuilder BlockRef Value MType Mod} `{!ScfBuilder BlockRef Value MType Mod}.
Abbreviation State := (CodegenState Value).
Abbreviation gen := (cg (State * Mod)).
Abbreviation Blocks := (gmap BasicBlock BlockRef).
Implicit Types (s : State * Mod) (b : BlockRef) (W : list BlockRef).
Context (r : Blocks) (init : BlockRef → list Value) (joins : gmap BasicBlock (list Local)).
Context (Hinj : ∀ t t' b, r !! t = Some b → r !! t' = Some b → t = t').
Context (Hphis : ∀ t, NoDup (phis_of joins t)).

Definition branch_inv s : Prop := emit_inv r init joins s ∧ ∀ t b, r !! t = Some b → has_block s.2 b.
Definition emits {A} (c : gen A) W : Prop := ∀ s a s', branch_inv s → (∀ b, b ∈ W → has_block s.2 b) →
  runs c s a s' → branch_inv s' ∧ ∀ b, has_block s.2 b → has_block s'.2 b.
Definition foreign b : Prop := ∀ t, r !! t ≠ Some b.

Lemma emits_seq {A B} (c : gen A) (f : A → gen B) W : emits c W → (∀ a, emits (f a) W) → emits (c ≫= f) W.
Proof.
  intros Hc Hf s a s' Hi HW (x & s1 & H1 & H2)%runs_bind. destruct (Hc _ _ _ Hi HW H1) as [Hi1 K1].
  destruct (Hf x _ _ _ Hi1 ltac:(intros; by apply K1, HW) H2) as [? K2]. split; [done|]. intros. by apply K2, K1.
Qed.
Lemma emits_mret {A} (x : A) W : emits (mret x) W.
Proof. by intros s a s' Hi _ [_ ->]%runs_ret. Qed.
Lemma emits_lift {A} (o : outcome A) W : emits (cg_lift o) W.
Proof. by intros s a s' Hi _ [_ ->]%runs_lift. Qed.
Lemma emits_get {A} (f : State * Mod → A) W : emits (cg_get f) W.
Proof. by intros s a s' Hi _ [_ ->]%runs_get. Qed.
Lemma emits_panic {A} W : emits (cg_panic : gen A) W.
Proof. by intros s a s' _ _ []%runs_panic. Qed.
Lemma emits_iter {A} (f : A → gen unit) l W : (∀ a, a ∈ l → emits (f a) W) → emits (cg_iter f l) W.
Proof.
  induction l as [|x l IH]; intros Hf; simpl; [apply emits_mret|].
  apply emits_seq; [apply Hf; by left|]. intros _. apply IH. intros. apply Hf. by right.
Qed.

(** What does not change the phi arguments or append a branch. *)
Lemma branch_inv_plain s s' b new : branch_inv s →
  phi_join_locals s'.1 = phi_join_locals s.1 → phi_block_args s'.1 = phi_block_args s.1 →
  appends b new s s' → Forall (λ o, is_branch o = false) new →
  branch_inv s' ∧ ∀ b, has_block s.2 b → has_block s'.2 b.
Proof.
  intros [Hi Hb] Ej Ep G Hnew. split; [|apply (g_blocks _ _ _ _ G)]. split; [|intros t b' Ht; by eapply (g_blocks _ _ _ _ G), Hb].
  apply (emit_inv_plain r init joins s s') in Hi as [? _]; [done..| | |].
  - intros t l _. by rewrite Ep.
  - intros t b' Ht. by eapply (g_args _ _ _ _ G), Hb.
  - intros t b' Ht. destruct (decide (b' = b)) as [->|Hne]; [exists new; by rewrite (g_ops _ _ _ _ G)|].
    exists []. rewrite app_nil_r. split; [by eapply (g_other _ _ _ _ G); [eapply Hb|]|constructor].
Qed.
Lemma emits_tame {A} (c : gen A) b W : b ∈ W → tame c b → emits c W.
Proof.
  intros Hb Hc s a s' Hi HW H. destruct (Hc _ _ _ (HW b Hb) H) as (new & G & Hp & Hctl).
  unfold control in Hctl. eapply branch_inv_plain; [done|congruence..|exact G|].
  apply Forall_forall. rewrite forallb_forall in Hp. intros o Ho%list_elem_of_In%Hp. by destruct o.
Qed.
Lemma emits_modify (f : State → State) W :
  (∀ st, phi_join_locals (f st) = phi_join_locals st ∧ phi_block_args (f st) = phi_block_args st) → emits (st_modify f) W.
Proof.
  intros Hf s a s' Hi _ ->%runs_modify. destruct (Hf s.1). split; [|done]. destruct Hi as [Hi Hb].
  split; [|exact Hb]. apply (emit_inv_plain r init joins s (f s.1, s.2)) in Hi as [? _]; try done.
  - intros t l _. simpl. congruence.
  - intros. exists []. split; [by rewrite app_nil_r|constructor].
Qed.
Lemma emits_append_op b o W : b ∈ W → is_branch o = false → emits (append b o) W.
Proof.
  intros Hb Ho s a s' Hi _ ->%runs_modify.
  apply (branch_inv_plain s (s.1, append_operation b o s.2) b [o]); [done..|apply (appends_append b o s)|by repeat constructor].
Qed.
Lemma emits_results ts W : emits (results_new ts) W.
Proof.
  intros s a s' [Hi Hb] _ [-> ->]%runs_results_new. split; [split|].
  - apply (emit_inv_plain r init joins s (s.1, (new_results ts s.2).2)) in Hi as [? _]; try done; simpl; intros.
    + by rewrite new_results_args.
    + exists []. split; [by rewrite app_nil_r, new_results_ops|constructor].
  - intros t b Ht. apply new_results_has_block. by eapply Hb.
  - intros b ?. by apply new_results_has_block.
Qed.
Lemma emits_ssa_values ls W : emits (cg_map ssa_value ls) W.
Proof. by intros s a s' Hi _ [_ ->]%runs_ssa_values. Qed.
Lemma emits_ssa_insert l v W : emits (ssa_insert l v) W.
Proof. by apply emits_modify. Qed.
Lemma emits_ssa_insert_all ls vs W : emits (ssa_insert_all ls vs) W.
Proof. unfold ssa_insert_all. destruct (_ <? _); [apply emits_panic|]. apply emits_iter. intros. apply emits_ssa_insert. Qed.
Lemma emits_yield ls b W : b ∈ W → emits (yield_locals ls b) W.
Proof. intros Hb. apply emits_seq; [apply emits_ssa_values|]. intros. by apply emits_append_op. Qed.

(** A new block is none of the function's. *)
Lemma emits_new {A} ts (f : BlockRef → gen A) W :
  (∀ b, foreign b → emits (f b) (b :: W)) → emits (block_new ts ≫= f) W.
Proof.
  intros Hf s a s' [Hi Hb] HW (b & s1 & [-> ->]%runs_block_new & H)%runs_bind.
  assert (Hnew : ∀ b, has_block s.2 b → b ≠ (new_block ts s.2).1) by (intros b' H' ->; by apply (new_block_new ts s.2)).
  assert (Hi1 : branch_inv (s.1, (new_block ts s.2).2)).
  { split; [|intros t b' Ht; apply new_block_has_block; left; by eapply Hb].
    apply (emit_inv_plain r init joins s (s.1, (new_block ts s.2).2)) in Hi as [? _]; try done; simpl; intros t b' Ht; pose proof (Hnew _ (Hb _ _ Ht)).
    - by apply new_block_args.
    - exists []. split; [by rewrite app_nil_r, new_block_ops, decide_False|constructor]. }
  apply Hf in H as [Hi' K]; [|by intros t Ht; eapply Hnew; [eapply Hb|]|done|].
  - split; [done|]. intros b' ?. apply K, new_block_has_block. by left.
  - intros b' [->|Hin]%elem_of_cons; apply new_block_has_block; [by right|left; by apply HW].
Qed.

(** ** Branches *)
Lemma make_phi_blocks t tb st m q : make_phi_args t tb st m = Ret q → ∀ b, has_block m b → has_block q.1.2 b.
Proof. destruct q as [[st1 m1] args]. intros [[_ _ K] _]%make_phi_args_stays. exact K. Qed.

Lemma emits_goto bbs t b W : extends_blocks r bbs → b ∈ W → emits (goto bbs t b) W.
Proof.
  intros Hbbs Hb s [] s' [Hi Hh] HW H. destruct (confined_goto bbs t b [b] ltac:(by left) s tt s') as [_ _ K].
  { by intros b' ->%list_elem_of_singleton; apply HW. }
  { done. }
  split; [|exact K]. split; [|intros t' b' Ht'; by eapply K, Hh].
  unfold runs, goto in H. destruct (codegen_goto bbs t b s.1 s.2) as [q| |] eqn:E; simpl in H; try done.
  injection H as <-. eapply (goto_ok r init joins Hinj Hphis); [done| |exact E]. by destruct s.
Qed.
Lemma emits_cond_br bbs cmp t o b W : extends_blocks r bbs → b ∈ W → emits (cond_br bbs cmp t o b) W.
Proof.
  intros Hbbs Hb s [] s' [Hi Hh] HW H. destruct (confined_cond_br bbs cmp t o b [b] ltac:(by left) s tt s') as [_ _ K].
  { by intros b' ->%list_elem_of_singleton; apply HW. }
  { done. }
  split; [|exact K]. split; [|intros t' b' Ht'; by eapply K, Hh].
  unfold runs, cond_br in H. destruct (codegen_cond_br bbs cmp t o b s.1 s.2) as [q| |] eqn:E; simpl in H; try done.
  injection H as <-. eapply (cond_br_ok r init joins Hinj Hphis); [done| |exact E]. by destruct s.
Qed.

(** The end of a loop. *)
Lemma emits_loop_end (outer : Blocks) exit ls results o b W : b ∈ W → is_loop_op o = true →
  emits (_ ← append b o; _ ← ssa_insert_all ls results; branch_to outer exit b) W.
Proof.
  intros Hb Ho s [] s' Hi HW ([] & s1 & H1 & ([] & s2 & H2 & (ex & ? & [_ ->]%runs_lift & ->%runs_modify)%runs_bind)%runs_bind)%runs_bind.
  destruct (emits_append_op b o W Hb ltac:(by destruct o) s tt s1 Hi HW H1) as [Hi1 K1].
  destruct (emits_ssa_insert_all ls results W s1 tt s2 Hi1 ltac:(intros; by apply K1, HW) H2) as [[Hi2 Hh2] K2].
  apply runs_modify in H1 as ->. apply runs_ssa_insert_all in H2 as [_ ->].
  split; [split|].
  - apply (emit_append_ok r init joins _ b); [done|]. right. split; [done|]. exists o. simpl.
    by rewrite append_operation_ops, decide_True, last_snoc.
  - intros t b' Ht. simpl. apply append_has_block. by eapply Hh2.
  - intros b' ?. simpl. apply append_has_block. by apply (K2 b'), (K1 b').
Qed.
End emits.
Create HintDb emits.
#[export] Hint Resolve emits_mret emits_lift emits_get emits_panic emits_results emits_append_op emits_ssa_values
  emits_ssa_insert emits_ssa_insert_all emits_yield emits_goto emits_cond_br list_elem_of_here list_elem_of_further : emits.
(** Down a chain of binds. *)
Ltac emit_chain := repeat (first [solve [eauto with emits]|apply emits_new; intros ? ?|
  apply emits_modify; by intros|apply emits_seq; [solve [eauto with emits|apply emits_modify; by intros]|intros ?]]).

Section emits_code.
Context {BlockRef Value MType Mod : Type} `{!EqDecision BlockRef} `{!EqDecision Value}.
Context `{!MlirBuilder BlockRef Value MType Mod} `{!ScfBuilder BlockRef Value MType Mod}.
Abbreviation State := (CodegenState Value).
Abbreviation gen := (cg (State * Mod)).
Abbreviation Blocks := (gmap BasicBlock BlockRef).
Implicit Types (s : State * Mod) (b : BlockRef) (W : list BlockRef).
Context (r : Blocks) (init : BlockRef → list Value) (joins : gmap BasicBlock (list Local)).
Context (Hinj : ∀ t t' b, r !! t = Some b → r !! t' = Some b → t = t').
Context (Hphis : ∀ t, NoDup (phis_of joins t)).
Context (instantiate : Const → Const) (is_option_ty : Place → bool).
Context (codegen_assign : Place → Rvalue → BlockRef → gen unit).
Context (codegen_operand : Operand → BlockRef → gen Value).
Context (method : Operand → list Operand → Place → BlockRef → gen (option Value)).
Context (fuel : nat) (mir : Body).
Context (Htame : tame_handlers codegen_assign codegen_operand method).
Abbreviation emits := (emits r init joins).
Abbreviation foreign := (foreign r).

Lemma emits_statements stmts b W : b ∈ W → emits (codegen_statements is_option_ty codegen_assign stmts b) W.
Proof. intros Hb. by eapply (emits_tame _ _ _ _ b), tame_statements. Qed.
Lemma emits_operand op b W : b ∈ W → emits (codegen_operand op b) W.
Proof. intros Hb. by apply (emits_tame _ _ _ _ b), (tame_operand _ _ _ Htame). Qed.
Lemma emits_method f args dest b W : b ∈ W → emits (method f args dest b) W.
Proof. intros Hb. by apply (emits_tame _ _ _ _ b), (tame_method _ _ _ Htame). Qed.
Lemma emits_constant b n ty W : b ∈ W → emits (arith_constant b n ty) W.
Proof. intros Hb. unfold arith_constant. emit_chain. Qed.
Lemma emits_cmpi_eq b x y W : b ∈ W → emits (arith_cmpi_eq b x y) W.
Proof. intros Hb. unfold arith_cmpi_eq. emit_chain. Qed.
#[local] Hint Resolve emits_statements emits_operand emits_method emits_constant emits_cmpi_eq : emits.

Section blocks.
Context (bbs : Blocks) (Hbbs : extends_blocks r bbs).

Lemma emits_call f args dest t b W : b ∈ W → emits (codegen_terminator_call method f args dest t b bbs) W.
Proof. intros Hb. unfold codegen_terminator_call. apply emits_seq; [by apply emits_method|]. intros [v|]; emit_chain. Qed.
#[local] Hint Resolve emits_call : emits.

Lemma emits_arm chain carry W : emits (codegen_arm is_option_ty codegen_assign method mir chain carry bbs) W.
Proof.
  unfold codegen_arm. apply emits_new; [done..|]. intros b _. apply emits_seq; [|intros; emit_chain].
  apply emits_iter. intros bb _. unfold codegen_arm_block. emit_chain. by repeat case_match; eauto with emits.
Qed.
#[local] Hint Resolve emits_arm : emits.

Lemma emits_scf_if c t f b W : b ∈ W →
  emits (codegen_loop_body_switch_as_scf_if is_option_ty codegen_assign method fuel mir c t f b bbs) W.
Proof. intros Hb. unfold codegen_loop_body_switch_as_scf_if. emit_chain. case_match; eauto with emits. Qed.
#[local] Hint Resolve emits_scf_if : emits.

Lemma emits_binary d v t o b W : b ∈ W →
  emits (codegen_switch_binary is_option_ty codegen_assign method fuel mir d v t o b bbs) W.
Proof. intros Hb. unfold codegen_switch_binary. emit_chain. repeat case_match; eauto with emits. Qed.
#[local] Hint Resolve emits_binary : emits.

Lemma emits_terminator k b W : b ∈ W →
  emits (codegen_terminator instantiate is_option_ty codegen_assign codegen_operand method fuel mir k b bbs) W.
Proof.
  intros Hb. destruct k; simpl; eauto with emits; unfold codegen_return, codegen_switch_int; emit_chain.
  case_match; emit_chain. repeat (case_match; emit_chain).
Qed.
#[local] Hint Resolve emits_terminator : emits.

Lemma emits_block bb W : (∀ b, bbs !! bb = Some b → b ∈ W) →
  emits (codegen_basic_block instantiate is_option_ty codegen_assign codegen_operand method fuel mir bbs bb) W.
Proof.
  intros HW. unfold codegen_basic_block. apply emits_seq; [eauto with emits|]. intros d.
  destruct (bbs !! bb) as [b|]; [specialize (HW b eq_refl)|].
  2: { intros s a s' _ _ (b & s1 & [Hn _]%runs_lift & _)%runs_bind. done. }
  intros s a s' Hi Hs (b' & s1 & [[= <-] ->]%runs_lift & Hr)%runs_bind. revert s a s' Hi Hs Hr.
  change (emits (_ ← st_modify (enter_block bb); _ ← codegen_statements is_option_ty codegen_assign (statements d) b;
    k ← cg_lift (terminator d);
    codegen_terminator instantiate is_option_ty codegen_assign codegen_operand method fuel mir k b bbs) W).
  apply emits_seq; [apply emits_modify, enter_block_same|]. intros _. emit_chain.
Qed.
End blocks.

(** The map of a region: the blocks of the loop are its one block. *)
Lemma with_body_extends body region : (∀ bb, bb ∈ body → r !! bb = None) → foreign region →
  extends_blocks r (with_body body region r).
Proof.
  intros Hbody Hf t b Ht. destruct (decide (t ∈ body)) as [Hin|Hout].
  - rewrite with_body_lookup in Ht by done. injection Ht as <-. right. split; [by apply Hbody|exact Hf].
  - left. by rewrite with_body_outside in Ht.
Qed.

#[local] Hint Resolve emits_loop_end : emits.
Lemma emits_for_bound l b W : b ∈ W → emits (for_bound l b) W.
Proof. intros Hb. unfold for_bound. repeat case_match; eauto with emits. unfold ssa_value. emit_chain. Qed.
Lemma emits_map_for_args l iv args W : emits (map_for_args l iv args) W.
Proof. unfold map_for_args. emit_chain. destruct (rl_next_result_local l); emit_chain. Qed.
#[local] Hint Resolve emits_for_bound emits_map_for_args : emits.

Lemma emits_for l b W : (∀ bb, bb ∈ rl_body_bbs l → r !! bb = None) → b ∈ W →
  emits (codegen_scf_for_loop instantiate is_option_ty codegen_assign codegen_operand method fuel mir l b r) W.
Proof.
  intros Hl Hb. unfold codegen_scf_for_loop. emit_chain. apply emits_seq; [|intros _; emit_chain].
  apply emits_iter. intros bb Hin. unfold for_body_block. emit_chain. case_bool_decide; [apply emits_mret|].
  apply emits_block; [by apply with_body_extends|]. intros b' ->%with_body_values; [by left|done].
Qed.

Lemma emits_before wl b W : b ∈ W → emits (codegen_before is_option_ty codegen_assign codegen_operand mir wl b) W.
Proof. intros Hb. unfold codegen_before. emit_chain. case_match; emit_chain. Qed.
#[local] Hint Resolve emits_before : emits.

Lemma emits_while wl b W : (∀ bb, bb ∈ wl_header_bb wl :: wl_body_bbs wl → r !! bb = None) → b ∈ W →
  emits (codegen_scf_while_loop instantiate is_option_ty codegen_assign codegen_operand method fuel mir wl b r) W.
Proof.
  intros Hl Hb. unfold codegen_scf_while_loop. emit_chain. apply emits_seq; [|intros _; emit_chain].
  apply emits_iter. intros bb Hin. apply emits_block.
  - intros t b' [[<- <-]|[_ Ht]]%lookup_insert_Some; [right; split; [apply Hl; by left|done]|].
    eapply with_body_extends; [| |exact Ht]; [|done]. intros ??. apply Hl. by right.
  - intros b' [[_ <-]|[_ ->%with_body_values]]%lookup_insert_Some; [..|done]; set_solver.
Qed.
End emits_code.
