(* ===== verification/TritonFuncThms.v ===== *)
(** * Code generation of a function: the theorems

    The blocks a function gets, how they end, what its branches pass to their
    targets, and a kind of function that never compiles. *)
From S2P Require Import Prelude Codegen Mir Worklist TritonCfg TritonPhi TritonPhiFacts TritonPhiFix TritonLoops TritonLoopsThms TritonEmit TritonEmitFacts TritonScf TritonFunc TritonScfFacts TritonForFacts TritonScfModel TritonScfBugs TritonConfined TritonFuncFacts.

Section func.
Context {BlockRef Value MType Mod : Type} `{!EqDecision BlockRef} `{!EqDecision Value}.
Context `{!MlirBuilder BlockRef Value MType Mod} `{!ScfBuilder BlockRef Value MType Mod} `{!HashOrder nat}.
Abbreviation State := (CodegenState Value).
Abbreviation gen := (cg (State * Mod)).
Abbreviation Blocks := (gmap BasicBlock BlockRef).
Implicit Types (s : State * Mod) (b : BlockRef) (bb : BasicBlock) (m : Mod).
Context (map_type : Ty → MType) (is_option : Ty → bool).

(** ** The arguments of the entry block *)
(** Where a parameter is after the creation of the entry block [b]. *)
Definition param_ok b s (p : Local * Ty) : Prop :=
  if is_option p.2 then option_table s.1 !! p.1 = Some None
  else ∃ v, ssa_values s.1 !! p.1 = Some v ∧ v ∈ block_args s.2 b ∧ value_type v = map_type p.2.

Lemma entry_args_ok b ps : ∀ s a s', NoDup ps.*1 → runs (cg_iter (entry_arg map_type is_option b) ps) s a s' →
  (∀ p, p ∈ ps → param_ok b s' p) ∧
  (∃ vs, block_args s'.2 b = block_args s.2 b ++ vs ∧
     value_type <$> vs = map_type <$> List.filter (λ ty, negb (is_option ty)) ps.*2) ∧
  (∀ b', b' ≠ b → block_args s'.2 b' = block_args s.2 b') ∧
  (∀ b', block_ops s'.2 b' = block_ops s.2 b') ∧ (∀ b', has_block s'.2 b' ↔ has_block s.2 b') ∧
  (∀ l, l ∉ ps.*1 → ssa_values s'.1 !! l = ssa_values s.1 !! l ∧ option_table s'.1 !! l = option_table s.1 !! l).
Proof.
  induction ps as [|[l ty] ps IH]; intros s a s' Hnd.
  { intros ->%runs_iter_nil. split_and!; try done; [by intros p ?%elem_of_nil|].
    exists []. by rewrite app_nil_r. }
  intros (s1 & H1 & H2)%runs_iter_cons. rewrite fmap_cons in Hnd. apply NoDup_cons in Hnd as [Hl Hnd].
  destruct (IH _ _ _ Hnd H2) as (Hp & (vs & Hvs & Hty) & Ho & Hops & Hb & Hkeep). destruct (Hkeep l Hl) as [K1 K2].
  unfold entry_arg in H1. destruct (is_option ty) eqn:Eo.
  - apply runs_modify in H1 as ->. cbn [fst snd] in *. split_and!; try done.
    + intros p [->|Hin]%elem_of_cons; [|by apply Hp]. unfold param_ok. cbn [fst snd]. rewrite Eo, K2. apply lookup_insert_eq.
    + exists vs. split; [done|]. rewrite fmap_cons. cbn [snd List.filter]. by rewrite Eo.
    + intros x [Hx Hxs]%not_elem_of_cons. destruct (Hkeep x Hxs) as [-> ->]. simpl. by rewrite lookup_insert_ne.
  - apply runs_bind in H1 as (v & s0 & Hv & ->%runs_modify). unfold runs, argument_new in Hv.
    pose proof (add_argument_args b (map_type ty) s.2) as Aargs. pose proof (add_argument_ops b (map_type ty) s.2) as Aops.
    pose proof (add_argument_type b (map_type ty) s.2) as Aty.
    pose proof (add_argument_has_block b (map_type ty) s.2) as Ahb.
    destruct (add_argument b (map_type ty) s.2) as [v' m1]. injection Hv as -> <-. cbn [fst snd] in *.
    split_and!.
    + intros p [->|Hin]%elem_of_cons; [|by apply Hp]. unfold param_ok. cbn [fst snd]. rewrite Eo. exists v. split_and!; [|  |done].
      * rewrite K1. apply lookup_insert_eq.
      * rewrite Hvs, Aargs, decide_True by done. set_solver.
    + exists (v :: vs). split; [by rewrite Hvs, Aargs, decide_True, <-app_assoc|].
      rewrite !fmap_cons. cbn [snd List.filter]. rewrite Eo. cbn [negb]. by rewrite fmap_cons, Aty, Hty.
    + intros b' Hne. by rewrite Ho, Aargs, decide_False.
    + intros b'. by rewrite Hops.
    + intros b'. by rewrite Hb.
    + intros x [Hx Hxs]%not_elem_of_cons. destruct (Hkeep x Hxs) as [-> ->]. simpl. by rewrite lookup_insert_ne.
Qed.

(** ** Block creation *)
(** The blocks of the map are distinct and exist, those created since [m] are
    empty, and the entry block has the arguments of the parameters. *)
Record blocks_ok (inputs : list Ty) (m : Mod) (r : Blocks) s : Prop := {
  bo_inj bb bb' b : r !! bb = Some b → r !! bb' = Some b → bb = bb';
  bo_has bb b : r !! bb = Some b → has_block s.2 b;
  bo_new bb b : r !! bb = Some b → ¬ has_block m b;
  bo_ops bb b : r !! bb = Some b → block_ops s.2 b = [];
  bo_args bb b : r !! bb = Some b →
    value_type <$> block_args s.2 b = if bb =? 0 then arg_types map_type is_option inputs else [];
  bo_params b p : r !! 0 = Some b → p ∈ zip (seq 1 (length inputs)) inputs → param_ok b s p;
  bo_old b : has_block m b → has_block s.2 b ∧ block_ops s.2 b = block_ops m b ∧ block_args s.2 b = block_args m b }.

Lemma zip_seq_fst (inputs : list Ty) : (zip (seq 1 (length inputs)) inputs).*1 = seq 1 (length inputs).
Proof. apply fst_zip. by rewrite length_seq. Qed.
Lemma zip_seq_snd (inputs : list Ty) : (zip (seq 1 (length inputs)) inputs).*2 = inputs.
Proof. apply snd_zip. by rewrite length_seq. Qed.

Lemma create_block_ok inputs m r bb s r' s' :
  blocks_ok inputs m r s → runs (create_block map_type is_option inputs r bb) s r' s' →
  blocks_ok inputs m r' s' ∧ dom r' = {[bb]} ∪ dom r.
Proof.
  intros Hr Hrun. unfold create_block in Hrun.
  apply runs_bind in Hrun as (b & s1 & [-> ->]%runs_block_new & ([] & s2 & H2 & [-> ->]%runs_ret)%runs_bind).
  set (b := (new_block [] s.2).1) in *. set (m1 := (new_block [] s.2).2) in *.
  assert (Hargs1 : block_args m1 b = []).
  { pose proof (new_block_types [] s.2) as E. fold m1 b in E. by apply fmap_nil_inv in E. }
  assert (Hops1 : ∀ x, block_ops m1 x = if decide (x = b) then [] else block_ops s.2 x) by (intros; apply new_block_ops).
  assert (Hhas1 : ∀ x, has_block m1 x ↔ has_block s.2 x ∨ x = b) by (intros; apply new_block_has_block).
  assert (Hne : ∀ x, has_block s.2 x → x ≠ b) by (intros x Hx ->; by apply (new_block_new [] s.2)).
  assert (H : (∀ x, block_ops s2.2 x = block_ops m1 x) ∧ (∀ x, has_block s2.2 x ↔ has_block m1 x) ∧
    (∀ x, x ≠ b → block_args s2.2 x = block_args m1 x) ∧
    (value_type <$> block_args s2.2 b = if bb =? 0 then arg_types map_type is_option inputs else []) ∧
    (bb = 0 → ∀ p, p ∈ zip (seq 1 (length inputs)) inputs → param_ok b s2 p) ∧
    (bb ≠ 0 → s2 = (s.1, m1))).
  { destruct (Nat.eqb_spec bb 0) as [->|Hz].
    - apply entry_args_ok in H2 as (Hp & (vs & Hvs & Hty) & Ho & Hops & Hb & _); [|rewrite zip_seq_fst; apply NoDup_seq].
      rewrite zip_seq_snd in Hty. cbn [fst snd] in *. split_and!; try done. by rewrite Hvs, Hargs1.
    - apply runs_ret in H2 as [_ ->]. cbn [snd]. by rewrite Hargs1. }
  destruct H as (Eops & Ehas & Eargs & Ety & Epar & Esame). split; [|apply dom_insert_L].
  split.
  - intros x x' y. rewrite !lookup_insert_Some. intros [[<- <-]|[? H3]] [[<- E]|[? H4]]; try done.
    + by destruct (Hne _ (bo_has _ _ _ _ Hr _ _ H4)).
    + subst y. by destruct (Hne _ (bo_has _ _ _ _ Hr _ _ H3)).
    + by eapply (bo_inj _ _ _ _ Hr).
  - intros x y. rewrite lookup_insert_Some, Ehas, Hhas1.
    intros [[<- <-]|[? H3%(bo_has _ _ _ _ Hr)]]; [by right|by left].
  - intros x y. rewrite lookup_insert_Some. intros [[<- <-]|[? H3]]; [|by eapply (bo_new _ _ _ _ Hr)].
    intros Hb. by apply (Hne b); [apply (bo_old _ _ _ _ Hr)|].
  - intros x y. rewrite lookup_insert_Some, Eops, Hops1. intros [[<- <-]|[? H3]]; [by rewrite decide_True|].
    rewrite decide_False by (apply Hne; by eapply (bo_has _ _ _ _ Hr)). by eapply (bo_ops _ _ _ _ Hr).
  - intros x y. rewrite lookup_insert_Some. intros [[<- <-]|[? H3]]; [done|].
    pose proof (Hne _ (bo_has _ _ _ _ Hr _ _ H3)). rewrite Eargs by done. unfold m1. rewrite new_block_args by done.
    by eapply (bo_args _ _ _ _ Hr).
  - intros y p. rewrite lookup_insert_Some. intros [[Hz <-]|[Hz H3]] Hp; [by apply Epar|].
    pose proof (bo_params _ _ _ _ Hr _ _ H3 Hp) as Hpar. rewrite Esame by done. unfold param_ok in *. cbn [fst snd].
    destruct (is_option p.2); [done|]. destruct Hpar as (v & ? & ? & ?). exists v. split_and!; [done| |done].
    unfold m1. rewrite new_block_args; [done|]. apply Hne. by eapply (bo_has _ _ _ _ Hr).
  - intros y Hy. destruct (bo_old _ _ _ _ Hr y Hy) as (Hb & Ho & Ha). pose proof (Hne _ Hb).
    rewrite Ehas, Hhas1, Eops, Hops1, decide_False, Eargs by done. unfold m1. rewrite new_block_args by done. auto.
Qed.

Lemma create_blocks_ok inputs region m bbs : ∀ r s r' s',
  blocks_ok inputs m r s → runs (create_blocks map_type is_option inputs region r bbs) s r' s' →
  blocks_ok inputs m r' s' ∧ dom r' = (list_to_set bbs ∖ region) ∪ dom r.
Proof.
  induction bbs as [|bb bbs IH]; intros r s r' s' Hr Hrun; cbn [create_blocks] in Hrun.
  { apply runs_ret in Hrun as [-> ->]. split; [done|]. set_solver. }
  case_bool_decide as Hin.
  - destruct (IH _ _ _ _ Hr Hrun) as [? ->]. split; [done|]. set_solver.
  - apply runs_bind in Hrun as (r1 & s1 & H1 & H2).
    destruct (create_block_ok _ _ _ _ _ _ _ Hr H1) as [Hr1 E1].
    destruct (IH _ _ _ _ Hr1 H2) as [? ->]. split; [done|]. rewrite E1. set_solver.
Qed.

Lemma create_blocks_ctx inputs region bbs : ∀ r s r' s',
  runs (create_blocks map_type is_option inputs region r bbs) s r' s' → loop_ctx s'.1 = loop_ctx s.1.
Proof.
  assert (Hargs : ∀ b ps s s', runs (cg_iter (entry_arg map_type is_option b) ps) s tt s' → loop_ctx s'.1 = loop_ctx s.1).
  { intros b ps s s'. apply (runs_iter_ind _ (λ s s', loop_ctx s'.1 = loop_ctx s.1)); [split; congruence|].
    intros [l ty] s1 s2 _. unfold entry_arg. destruct (is_option ty); [by intros ->%runs_modify|].
    intros (v & s0 & Hv & ->%runs_modify)%runs_bind. unfold runs, argument_new in Hv.
    destruct (add_argument b (map_type ty) s1.2). by injection Hv as -> <-. }
  induction bbs as [|bb bbs IH]; intros r s r' s' Hrun; cbn [create_blocks] in Hrun.
  { by apply runs_ret in Hrun as [-> ->]. }
  case_bool_decide; [by eapply IH|]. apply runs_bind in Hrun as (r1 & s1 & H1 & ->%IH).
  apply runs_bind in H1 as (b & ? & [-> ->]%runs_block_new & ([] & s2 & H2 & [-> ->]%runs_ret)%runs_bind).
  destruct (bb =? 0); [by apply Hargs in H2|by apply runs_ret in H2 as [_ ->]].
Qed.

(** ** Block processing *)
Context (instantiate : Const → Const) (is_option_place : Place → bool).
Context (codegen_assign : Place → Rvalue → BlockRef → gen unit).
Context (codegen_operand : Operand → BlockRef → gen Value).
Context (method : Operand → list Operand → Place → BlockRef → gen (option Value)).
Context (fuel : nat) (mir : Body).
Context (Htame : tame_handlers codegen_assign codegen_operand method).
Context (region : gset BasicBlock) (loop_init : gmap BasicBlock RangeLoopInfo) (while_init : gmap BasicBlock WhileLoopInfo).
Context (r : Blocks) (Hinj : ∀ bb bb' b, r !! bb = Some b → r !! bb' = Some b → bb = bb').
Abbreviation process := (process_block instantiate is_option_place codegen_assign codegen_operand method fuel mir
  region loop_init while_init r).

Lemma process_block_closes bb s s' :
  bb ∉ region → loop_header_bb s.1 = None → (∀ b, r !! bb = Some b → has_block s.2 b) →
  runs (process bb) s tt s' → ∃ b, r !! bb = Some b ∧ closes r b s s' ∧ loop_header_bb s'.1 = None.
Proof.
  intros Hbb Hh Hhas (d & ? & [Hd ->]%runs_lift & H)%runs_bind. rewrite bool_decide_false in H by done.
  assert (Hinit : ∀ stmts b c, r !! bb = Some b →
    (∀ s1, has_block s1.2 b → runs (c b) s1 tt s' → closes r b s1 s' ∧ loop_header_bb s'.1 = None) →
    runs (_ ← codegen_statements is_option_place codegen_assign stmts b; c b) s tt s' →
    closes r b s s' ∧ loop_header_bb s'.1 = None).
  { intros stmts b c Hb Hc ([] & s1 & H1 & H2)%runs_bind. pose proof (Hhas _ Hb) as Hbs.
    eapply tame_statements, pre_tame in H1; [|done..].
    destruct (Hc s1) as [? ?]; [by eapply pre_block|done|]. split; [by eapply pre_then|done]. }
  destruct (loop_init !! bb) as [l|].
  { apply runs_bind in H as (b & ? & [Hb ->]%runs_lift & H). destruct (r !! bb) as [b'|] eqn:E; [|done].
    injection Hb as ->. exists b. split; [done|].
    apply (Hinit (statements d) b (λ b, codegen_scf_for_loop instantiate is_option_place codegen_assign codegen_operand
      method fuel mir l b r)); [done| |exact H]. intros. by eapply for_closes. }
  destruct (while_init !! bb) as [wl|].
  { apply runs_bind in H as (b & ? & [Hb ->]%runs_lift & H). destruct (r !! bb) as [b'|] eqn:E; [|done].
    injection Hb as ->. exists b. split; [done|].
    apply (Hinit (statements d) b (λ b, codegen_scf_while_loop instantiate is_option_place codegen_assign codegen_operand
      method fuel mir wl b r)); [done| |exact H]. intros. by eapply while_closes. }
  destruct (r !! bb) as [b|] eqn:E.
  - exists b. split; [done|]. eapply block_closes in H as [C Ec]; [|done|done|by apply Hhas|done].
    split; [done|]. unfold loop_ctx in Ec. congruence.
  - unfold codegen_basic_block in H. by apply runs_bind in H as (? & ? & [_ ->]%runs_lift & (b & ? & [Hb ->]%runs_lift & _)%runs_bind); rewrite E in Hb.
Qed.

(** The operations of a finished block. *)
Definition block_done (m : Mod) b : Prop :=
  ∃ pre o, block_ops m b = pre ++ [o] ∧ inner pre ∧ ends_block o = true ∧
    ∀ t, t ∈ op_targets o → ∃ bb, r !! bb = Some t.

(** The blocks that processing [l] writes. *)
Definition written (l : list BasicBlock) b : Prop := ∃ bb, bb ∈ l ∧ bb ∉ region ∧ r !! bb = Some b.

Lemma process_blocks_done l : ∀ s s', NoDup l → loop_header_bb s.1 = None →
  (∀ bb b, r !! bb = Some b → has_block s.2 b) → (∀ b, written l b → block_ops s.2 b = []) →
  runs (cg_iter process l) s tt s' →
  (∀ b, written l b → block_done s'.2 b) ∧
  (∀ b, has_block s.2 b → ¬ written l b → block_ops s'.2 b = block_ops s.2 b) ∧
  (∀ b, has_block s.2 b → has_block s'.2 b ∧ block_args s.2 b `prefix_of` block_args s'.2 b) ∧
  loop_header_bb s'.1 = None.
Proof.
  induction l as [|bb l IH]; intros s s' Hnd Hh Hhas Hnew.
  { intros ->%runs_iter_nil. split_and!; [by intros b (? & ?%elem_of_nil & _)|done..]. }
  intros (s1 & H1 & H2)%runs_iter_cons. apply NoDup_cons in Hnd as [Hbb Hnd].
  assert (Hw : ∀ b, written (bb :: l) b ↔ (bb ∉ region ∧ r !! bb = Some b) ∨ written l b).
  { intros b. unfold written. setoid_rewrite elem_of_cons. naive_solver. }
  destruct (decide (bb ∈ region)) as [Hin|Hout].
  { unfold process_block in H1. rewrite bool_decide_true in H1 by done.
    apply runs_bind in H1 as (? & ? & [_ ->]%runs_lift & [_ ->]%runs_ret).
    destruct (IH s s') as (D & O & A & N); [done..|intros; apply Hnew, Hw; by right|done|].
    split_and!; [intros b; rewrite Hw; intros [[]|]; [done|by apply D]| |done..].
    intros b Hb Hn. apply O; [done|]. rewrite Hw in Hn. tauto. }
  destruct (process_block_closes bb s s1) as (b0 & Hb0 & [K (pre & o & Ho & Hdone)] & Hh1); [done..|eauto|done|].
  assert (Hn0 : ¬ written l b0) by (intros (bb' & Hl & _ & E); by rewrite (Hinj _ _ _ Hb0 E) in Hbb).
  destruct (IH s1 s') as (D & O & A & N); [done..| | |done|].
  { intros. by eapply (k_blocks _ _ _ K), Hhas. }
  { intros b Hb. rewrite (k_ops _ _ _ K); [apply Hnew, Hw; by right| |by intros ->%list_elem_of_singleton].
    destruct Hb as (bb' & _ & _ & E). by eapply Hhas. }
  split_and!.
  - intros b. rewrite Hw. intros [[_ E]|]; [|by apply D]. simplify_eq. exists pre, o. split; [|done].
    rewrite O by (done || by eapply (k_blocks _ _ _ K), Hhas). rewrite Ho, Hnew; [done|]. apply Hw. by left.
  - intros b Hb Hn. rewrite Hw in Hn. rewrite O; [|by apply (k_blocks _ _ _ K)|tauto].
    apply (k_ops _ _ _ K); [done|]. intros ->%list_elem_of_singleton. tauto.
  - intros b Hb. destruct (A b) as [? ?]; [by apply (k_blocks _ _ _ K)|]. split; [done|].
    etrans; [by apply (k_args _ _ _ K)|done].
  - done.
Qed.

(** A block outside the loops whose goto has no block to branch to. *)
Lemma process_goto_some bb d t s s' : bb ∉ region → loop_init !! bb = None → while_init !! bb = None →
  block_at mir bb = Ret d → terminator d = Ret (Goto t) → loop_header_bb s.1 = None →
  (∀ b, r !! bb = Some b → has_block s.2 b) → runs (process bb) s tt s' → is_Some (r !! t).
Proof.
  intros Hbb Hl Hw Hd Hk Hh Hhas (d' & ? & [_ ->]%runs_lift & H)%runs_bind.
  rewrite bool_decide_false, Hl, Hw in H by done.
  apply runs_bind in H as (d2 & ? & [E ->]%runs_lift & (b & ? & [Hb ->]%runs_lift & ([] & ? & ->%runs_modify & ([] & s1 & H1 & (k & ? & [E2 ->]%runs_lift & H)%runs_bind)%runs_bind)%runs_bind)%runs_bind).
  rewrite Hd in E. injection E as <-. rewrite Hk in E2. injection E2 as <-.
  destruct (r !! bb) as [b'|] eqn:Eb; [|done]. injection Hb as ->.
  pose proof (Hhas _ eq_refl) as Hbs. eapply tame_statements, pre_tame in H1; [|done..].
  eapply (goto_ends r t b s1); [|by eapply pre_block|exact H].
  destruct H1 as (? & [_ Hc] & _). cbn [fst] in Hc. rewrite enter_block_ctx in Hc. unfold loop_ctx in Hc. congruence.
Qed.

(** The branches of the function, while its blocks are processed. *)
Lemma process_emits init joins bb s s' : (∀ t, NoDup (phis_of joins t)) →
  (∀ bb l t, loop_init !! bb = Some l → t ∈ rl_body_bbs l → r !! t = None) →
  (∀ bb wl t, while_init !! bb = Some wl → t ∈ wl_header_bb wl :: wl_body_bbs wl → r !! t = None) →
  branch_inv r init joins s → runs (process bb) s tt s' → branch_inv r init joins s'.
Proof.
  intros Hphis Hfor Hwhile Hi (d & ? & [_ ->]%runs_lift & H)%runs_bind.
  case_bool_decide; [by apply runs_ret in H as [_ ->]|].
  assert (Hemit : ∀ c : gen unit, (∀ b, r !! bb = Some b → emits r init joins c [b]) →
    is_Some (r !! bb) → runs c s tt s' → branch_inv r init joins s').
  { intros c Hc [b Hb] Hr. eapply (Hc b Hb); [exact Hi| |exact Hr]. intros b' ->%list_elem_of_singleton. by eapply (proj2 Hi). }
  destruct (loop_init !! bb) as [l|] eqn:El; [|destruct (while_init !! bb) as [wl|] eqn:Ew].
  - apply runs_bind in H as (b & ? & [Hb ->]%runs_lift & H). destruct (r !! bb) as [b'|] eqn:E; [|done]. injection Hb as ->.
    eapply Hemit; [|done|exact H]. intros ? [= <-]. apply emits_seq; [by eapply emits_statements; [exact Htame|left]|].
    intros _. apply emits_for; [done..|intros t; by eapply Hfor|by left].
  - apply runs_bind in H as (b & ? & [Hb ->]%runs_lift & H). destruct (r !! bb) as [b'|] eqn:E; [|done]. injection Hb as ->.
    eapply Hemit; [|done|exact H]. intros ? [= <-]. apply emits_seq; [by eapply emits_statements; [exact Htame|left]|].
    intros _. apply emits_while; [done..|intros t; by eapply Hwhile|by left].
  - eapply Hemit; [| |exact H].
    + intros b Hb. apply emits_block; [done..|by intros ? ? ?; left|]. rewrite Hb. intros ? [= <-]. by left.
    + unfold codegen_basic_block in H. apply runs_bind in H as (? & ? & [_ ->]%runs_lift & (b & ? & [Hb ->]%runs_lift & _)%runs_bind).
      by destruct (r !! bb).
Qed.
End func.

Section body.
Context {BlockRef Value MType Mod : Type} `{!EqDecision BlockRef} `{!EqDecision Value}.
Context `{!MlirBuilder BlockRef Value MType Mod} `{!ScfBuilder BlockRef Value MType Mod}.
Abbreviation State := (CodegenState Value).
Abbreviation Blocks := (gmap BasicBlock BlockRef).
Implicit Types (s : State * Mod).
Context (map_type : Ty → MType) (is_option : Ty → bool) (instantiate : Const → Const) (is_option_place : Place → bool).
Context (codegen_assign : Place → Rvalue → BlockRef → cg (State * Mod) unit).
Context (codegen_operand : Operand → BlockRef → cg (State * Mod) Value).
Context (method : Operand → list Operand → Place → BlockRef → cg (State * Mod) (option Value)).
Context (fuel : nat) (mir : Body) (Htame : tame_handlers codegen_assign codegen_operand method).
Context (inputs : list Ty) (an : Analyses) (Hnd : NoDup (an_bfs an)).

(** The stages of a body: the creation of the blocks, then their processing. *)
Lemma body_stages st m (r : Blocks) s' :
  runs (codegen_body map_type is_option instantiate is_option_place codegen_assign codegen_operand method fuel mir
    inputs an) (st, m) r s' → loop_header_bb st = None →
  ∃ s1, blocks_ok map_type is_option inputs m r s1 ∧ loop_header_bb s1.1 = None ∧
    dom r = list_to_set (an_bfs an) ∖ an_region an ∧
    runs (cg_iter (process_block instantiate is_option_place codegen_assign codegen_operand method fuel mir
      (an_region an) (an_loop_init an) (an_while_init an) r) (an_bfs an)) s1 tt s'.
Proof.
  intros ([] & ? & ->%runs_modify & (r' & s1 & H1 & ([] & s2 & H2 & [-> ->]%runs_ret)%runs_bind)%runs_bind)%runs_bind Hh.
  assert (Hempty : blocks_ok map_type is_option inputs m ∅ (with_phi_joins (with_const_disc st (an_const_disc an)) (an_phi an), m))
    by (split; intros *; rewrite ?lookup_empty; intros; split_and?; done).
  exists s1. destruct (create_blocks_ok _ _ _ _ _ _ _ _ _ _ Hempty H1) as [Hr Hdom].
  apply create_blocks_ctx in H1. unfold loop_ctx in H1. simpl in H1.
  split_and!; [done|congruence|rewrite Hdom, dom_empty_L; clear; set_solver|done].
Qed.

Lemma body_processed st m (r : Blocks) s' l1 l2 :
  runs (codegen_body map_type is_option instantiate is_option_place codegen_assign codegen_operand method fuel mir
    inputs an) (st, m) r s' → loop_header_bb st = None → an_bfs an = l1 ++ l2 →
  ∃ s1 s2, blocks_ok map_type is_option inputs m r s1 ∧
    runs (cg_iter (process_block instantiate is_option_place codegen_assign codegen_operand method fuel mir
      (an_region an) (an_loop_init an) (an_while_init an) r) l2) s2 tt s' ∧
    loop_header_bb s2.1 = None ∧ (∀ bb b, r !! bb = Some b → has_block s2.2 b) ∧
    (∀ b, written (an_region an) r l1 b → block_done r s2.2 b) ∧
    (∀ b, has_block s1.2 b → ¬ written (an_region an) r l1 b → block_ops s2.2 b = block_ops s1.2 b) ∧
    (∀ b, has_block s1.2 b → block_args s1.2 b `prefix_of` block_args s2.2 b).
Proof.
  intros Hrun Hh Hl. destruct (body_stages _ _ _ _ Hrun Hh) as (s1 & Hr & Hh1 & Hdom & Hp).
  rewrite Hl in Hp, Hnd. apply NoDup_app in Hnd as (Hnd1 & _ & _).
  apply runs_iter_app in Hp as (s2 & H1 & H2). exists s1, s2.
  eapply process_blocks_done in H1 as (D & O & A & N); [|done|by eapply bo_inj|done|done|by eapply bo_has|].
  2: { intros b (bb & _ & _ & E). by eapply bo_ops. }
  split_and!; try done; intros.
  - by eapply A, bo_has.
  - by apply A.
Qed.
End body.

(** The order in which the blocks are processed. *)
Lemma analyse_order instantiate def_path generic_args fuel rounds mir an `{!HashOrder nat} :
  body_ok mir = true → analyse instantiate def_path generic_args fuel rounds mir = Ret an →
  NoDup (an_bfs an) ∧ ∀ bb, bb ∈ an_bfs an ↔
    search_reach (Mir.is_unreachable_block mir) (folded_targets instantiate (an_const_disc an) mir) [0] bb.
Proof.
  intros Hok. unfold analyse.
  destruct (compute_const_disc_locals instantiate fuel mir) as [cd| |]; simpl; try done.
  destruct (compute_reachable_blocks instantiate fuel mir cd) as [[vis ord]| |] eqn:E; simpl; try done.
  destruct (detect_range_loop _ _ _); simpl; try done. destruct (detect_while_loop _ _ _); simpl; try done.
  destruct (init_bb_map mir _ rl_header_bb _); simpl; try done.
  destruct (init_bb_map mir _ wl_header_bb _); simpl; try done.
  destruct (compute_phi_join_locals _ _ _ _ _ _); simpl; try done. intros [= <-]. simpl.
  destruct (reachable_spec instantiate mir cd Hok) as (vis' & ord' & E' & _ & Hnd & Hin).
  unfold compute_reachable_blocks in E, E'. pose proof (loop_det _ _ _ _ _ _ E E') as [= -> ->]. done.
Qed.

(** What a function compiles to is what its body compiles to. *)
Lemma function_body {BlockRef Value MType Mod : Type} `{!EqDecision BlockRef} `{!EqDecision Value}
    `{!MlirBuilder BlockRef Value MType Mod} `{!ScfBuilder BlockRef Value MType Mod} `{!HashOrder nat}
    map_type to_result is_tensor is_option instantiate is_option_place def_path
    codegen_assign codegen_operand method generic_args fuel rounds mir inputs output m r s' :
  codegen_function map_type to_result is_tensor is_option instantiate is_option_place def_path
    codegen_assign codegen_operand method generic_args fuel rounds mir inputs output m =
    Ret (inr (Some r, (s' : CodegenState Value * Mod))) →
  ∃ an, analyse instantiate def_path generic_args fuel rounds mir = Ret an ∧
    runs (codegen_body map_type is_option instantiate is_option_place codegen_assign codegen_operand method fuel mir
      inputs an) (new_state, m) r s'.
Proof.
  intros Hrun. unfold codegen_function in Hrun.
  destruct (existsb is_slice_ref inputs); [by apply runs_ret in Hrun as [[=] _]|].
  destruct (existsb is_tensor _); [by apply runs_ret in Hrun as [[=] _]|].
  apply runs_bind in Hrun as (an & ? & [Han ->]%runs_lift & (r' & s2 & Hbody & [[= ->] ->]%runs_ret)%runs_bind).
  by exists an.
Qed.

(** C3: Code generation of a function, when it succeeds, makes one MLIR block for
    each block that the folded control flow reaches and that lies outside the
    detected loops; each is new and ends in exactly one branch or return, at its
    end, that only goes to such blocks; the entry block starts with the function's
    arguments, and no block of another function changes. *)
Theorem function_well_formed {BlockRef Value MType Mod : Type} `{!EqDecision BlockRef} `{!EqDecision Value}
    `{!MlirBuilder BlockRef Value MType Mod} `{!ScfBuilder BlockRef Value MType Mod} `{!HashOrder nat}
    map_type to_result is_tensor is_option instantiate is_option_place def_path
    codegen_assign codegen_operand method generic_args fuel rounds mir inputs output m r st m'
    (Htame : tame_handlers codegen_assign codegen_operand method) (Hok : body_ok mir = true)
    (Hrun : codegen_function map_type to_result is_tensor is_option instantiate is_option_place def_path
      codegen_assign codegen_operand method generic_args fuel rounds mir inputs output m =
      Ret (inr (Some r, ((st, m') : CodegenState Value * Mod)))) :
  ∃ an, analyse instantiate def_path generic_args fuel rounds mir = Ret an ∧
    (∀ bb, is_Some (r !! bb) ↔ bb ∉ an_region an ∧
       search_reach (Mir.is_unreachable_block mir) (folded_targets instantiate (an_const_disc an) mir) [0] bb) ∧
    (∀ bb bb' b, r !! bb = Some b → r !! bb' = Some b → bb = bb') ∧
    (∀ bb b, r !! bb = Some b → ¬ has_block m b ∧ block_done r m' b) ∧
    (∀ b, r !! 0 = Some b → arg_types map_type is_option inputs `prefix_of` (value_type <$> block_args m' b)) ∧
    (∀ b, has_block m b → block_ops m' b = block_ops m b).
Proof.
  apply function_body in Hrun as (an & Han & Hbody). exists an. split; [done|].
  destruct (analyse_order _ _ _ _ _ _ _ Hok Han) as [Hnd Hord].
  pose proof (body_stages _ _ _ _ _ _ _ _ _ _ _ _ _ _ _ Hbody eq_refl) as (_ & _ & _ & Hdom & _).
  eapply (body_processed _ _ _ _ _ _ _ _ _ Htame _ _ Hnd _ _ _ _ (an_bfs an) []) in Hbody
    as (s1 & s2 & Hr & <-%runs_iter_nil & _ & _ & D & O & A); [|done|by rewrite app_nil_r].
  assert (Hd : ∀ bb, is_Some (r !! bb) ↔ bb ∈ an_bfs an ∧ bb ∉ an_region an).
  { intros bb. rewrite <-elem_of_dom, Hdom, elem_of_difference, elem_of_list_to_set. done. }
  split_and!.
  - intros bb. rewrite Hd, Hord. tauto.
  - apply (bo_inj _ _ _ _ _ _ Hr).
  - intros bb b Hb. split; [by eapply bo_new|]. apply D. exists bb.
    destruct (proj1 (Hd bb)); [by exists b|done].
  - intros b Hb. pose proof (bo_args _ _ _ _ _ _ Hr 0 b Hb) as Harg. simpl in Harg. rewrite <-Harg.
    destruct (A b) as [vs Hvs]; [by eapply bo_has|]. cbn [snd] in Hvs. rewrite Hvs, fmap_app. by eexists.
  - intros b Hb. destruct (bo_old _ _ _ _ _ _ Hr b Hb) as (Hb1 & <- & _). apply O; [done|].
    intros (bb & _ & _ & E). by apply (bo_new _ _ _ _ _ _ Hr _ _ E).
Qed.

(** ** The branches of a function *)
(** The blocks of a loop belong to no block of the function. *)
Lemma foldl_union_in {L} (f : L → gset BasicBlock) ls (acc : gset BasicBlock) x :
  x ∈ foldl (λ s l, s ∪ f l) acc ls ↔ x ∈ acc ∨ ∃ l, l ∈ ls ∧ x ∈ f l.
Proof.
  revert acc. induction ls as [|l ls IH]; intros acc; simpl.
  - split; [by left|]. by intros [?|(? & ?%elem_of_nil & _)].
  - rewrite IH, elem_of_union. setoid_rewrite elem_of_cons. naive_solver.
Qed.
Lemma init_bb_map_in {L} mir region (header : L → BasicBlock) ls m bb l :
  init_bb_map mir region header ls = Ret m → m !! bb = Some l → l ∈ ls.
Proof.
  intros Hm. revert bb l. unfold init_bb_map in Hm.
  assert (H : ∀ ls' m', ls' ⊆ ls → (∀ bb l, m' !! bb = Some l → l ∈ ls) →
    ofold (add_init mir region header) m' ls' = Ret m → ∀ bb l, m !! bb = Some l → l ∈ ls); [|by eapply (H ls ∅)].
  clear Hm. induction ls' as [|x ls' IH]; intros m' Hs Hm'; [by intros [= <-]|]. cbn [ofold].
  destruct (add_init mir region header m' x) as [m1| |] eqn:E; simpl; try done. apply IH; [set_solver|].
  unfold add_init in E. destruct (find_init _ _ _ _) as [o| |]; simpl in E; try done. injection E as <-.
  destruct o as [b|]; [|done]. intros bb l [[_ <-]|[_ ?]]%lookup_insert_Some; [set_solver|by eapply Hm'].
Qed.
Lemma analyse_loops instantiate def_path generic_args fuel rounds mir an `{!HashOrder nat} :
  analyse instantiate def_path generic_args fuel rounds mir = Ret an →
  (∀ bb l t, an_loop_init an !! bb = Some l → t ∈ rl_body_bbs l → t ∈ an_region an) ∧
  (∀ bb wl t, an_while_init an !! bb = Some wl → t ∈ wl_header_bb wl :: wl_body_bbs wl → t ∈ an_region an) ∧
  ∀ t, NoDup (phis_of (an_phi an) t).
Proof.
  unfold analyse.
  destruct (compute_const_disc_locals instantiate fuel mir) as [cd| |]; simpl; try done.
  destruct (compute_reachable_blocks instantiate fuel mir cd) as [[vis ord]| |]; simpl; try done.
  destruct (detect_range_loop _ _ _) as [ls| |]; simpl; try done.
  destruct (detect_while_loop _ _ _) as [wls| |]; simpl; try done.
  destruct (init_bb_map mir _ rl_header_bb _) as [lm| |] eqn:El; simpl; try done.
  destruct (init_bb_map mir _ wl_header_bb _) as [wm| |] eqn:Ew; simpl; try done.
  destruct (compute_phi_join_locals _ _ _ _ _ _) as [phi| |] eqn:Ep; simpl; try done. intros [= <-]. simpl.
  split_and!; [| |by eapply phi_joins_nodup].
  - intros bb l t Hl Ht. apply foldl_union_in. left. apply foldl_union_in. right. exists l.
    split; [by eapply init_bb_map_in|]. unfold range_loop_region. set_solver.
  - intros bb wl t Hl Ht. apply foldl_union_in. right. exists wl.
    split; [by eapply init_bb_map_in|]. unfold while_loop_region. set_solver.
Qed.

(** Creating the blocks makes no phi argument. *)
Lemma create_blocks_control {BlockRef Value MType Mod : Type} `{!EqDecision BlockRef} `{!EqDecision Value}
    `{!MlirBuilder BlockRef Value MType Mod} `{!ScfBuilder BlockRef Value MType Mod}
    map_type is_option inputs region bbs : ∀ (r : gmap BasicBlock BlockRef) (s : CodegenState Value * Mod) r' s',
  runs (create_blocks map_type is_option inputs region r bbs) s r' s' → control s'.1 = control s.1.
Proof.
  assert (Hargs : ∀ b ps s s', runs (cg_iter (entry_arg map_type is_option b) ps) s tt s' → control s'.1 = control s.1).
  { intros b ps s s'. apply (runs_iter_ind _ (λ s s', control s'.1 = control s.1)); [split; congruence|].
    intros [l ty] s1 s2 _. unfold entry_arg. destruct (is_option ty); [by intros ->%runs_modify|].
    intros (v & s0 & Hv & ->%runs_modify)%runs_bind. unfold runs, argument_new in Hv.
    destruct (add_argument b (map_type ty) s1.2). by injection Hv as -> <-. }
  induction bbs as [|bb bbs IH]; intros r s r' s' Hrun; cbn [create_blocks] in Hrun.
  { by apply runs_ret in Hrun as [-> ->]. }
  case_bool_decide; [by eapply IH|]. apply runs_bind in Hrun as (r1 & s1 & H1 & ->%IH).
  apply runs_bind in H1 as (b & ? & [-> ->]%runs_block_new & ([] & s2 & H2 & [-> ->]%runs_ret)%runs_bind).
  destruct (bb =? 0); [by apply Hargs in H2|by apply runs_ret in H2 as [_ ->]].
Qed.

(** The branch invariant holds when the body is compiled. *)
Lemma body_branch_inv {BlockRef Value MType Mod : Type} `{!EqDecision BlockRef} `{!EqDecision Value}
    `{!MlirBuilder BlockRef Value MType Mod} `{!ScfBuilder BlockRef Value MType Mod}
    map_type is_option instantiate is_option_place codegen_assign codegen_operand method fuel mir inputs an m
    (r : gmap BasicBlock BlockRef) (s' : CodegenState Value * Mod) :
  tame_handlers codegen_assign codegen_operand method →
  (∀ bb l t, an_loop_init an !! bb = Some l → t ∈ rl_body_bbs l → t ∈ an_region an) →
  (∀ bb wl t, an_while_init an !! bb = Some wl → t ∈ wl_header_bb wl :: wl_body_bbs wl → t ∈ an_region an) →
  (∀ t, NoDup (phis_of (an_phi an) t)) →
  runs (codegen_body map_type is_option instantiate is_option_place codegen_assign codegen_operand method fuel mir
    inputs an) (new_state, m) r s' →
  ∃ s1, blocks_ok map_type is_option inputs m r s1 ∧ branch_inv r (block_args s1.2) (an_phi an) s'.
Proof.
  intros Htame Hfor Hwhile Hphis ([] & ? & ->%runs_modify & (r' & s1 & H1 & ([] & s2 & H2 & [-> ->]%runs_ret)%runs_bind)%runs_bind)%runs_bind.
  assert (Hempty : blocks_ok map_type is_option inputs m ∅ (with_phi_joins (with_const_disc (@new_state Value) (an_const_disc an)) (an_phi an), m))
    by (split; intros *; rewrite ?lookup_empty; intros; split_and?; done).
  destruct (create_blocks_ok _ _ _ _ _ _ _ _ _ _ Hempty H1) as [Hr Hdom].
  pose proof (create_blocks_control _ _ _ _ _ _ _ _ _ H1) as Hctl. unfold control in Hctl. simpl in Hctl.
  assert (Hout : ∀ t, t ∈ an_region an → r' !! t = None).
  { intros t Ht. apply not_elem_of_dom. rewrite Hdom, dom_empty_L. clear -Ht. set_solver. }
  set (init := block_args s1.2).
  assert (Hstep : branch_inv r' init (an_phi an) s1 → branch_inv r' init (an_phi an) s2).
  { revert H2. apply (runs_iter_ind _ (λ s s', branch_inv r' init (an_phi an) s → branch_inv r' init (an_phi an) s'));
      [split; [by intros ?|intros ? ? ?; auto]|].
    intros bb s3 s4 _ H Hi. eapply process_emits; [exact Htame|apply (bo_inj _ _ _ _ _ _ Hr)|exact Hphis|..|exact Hi|exact H].
    - intros bb' l t Hl Ht. by eapply Hout, Hfor.
    - intros bb' l t Hl Ht. by eapply Hout, Hwhile. }
  exists s1. split; [exact Hr|]. apply Hstep. split; [split|].
  - congruence.
  - intros t b Ht. left. split; [|done]. intros l _. replace (phi_block_args s1.1) with (∅ : gmap (BasicBlock * Local) Value) by congruence.
    apply lookup_empty.
  - intros t b pre o post Ht E. rewrite (bo_ops _ _ _ _ _ _ Hr _ _ Ht) in E. by destruct pre.
  - intros t b Ht. by eapply (bo_has _ _ _ _ _ _ Hr).
Qed.

(** What a branch to a block of the function must pass: one operand per argument
    that the block has beyond the arguments of the function, and these are the
    arguments of its phi locals, in order. *)
Definition passes {BlockRef Value MType Mod : Type} `{!EqDecision BlockRef} `{!MlirBuilder BlockRef Value MType Mod}
    (params : list MType) (r : gmap BasicBlock BlockRef) (phi : gmap BasicBlock (list Local))
    (st : CodegenState Value) (m : Mod) (target : BlockRef) (args : list Value) : Prop :=
  ∃ t, r !! t = Some target ∧ ∃ ins vs, block_args m target = ins ++ vs ∧
    value_type <$> ins = (if t =? 0 then params else []) ∧
    Forall2 (λ l v, phi_block_args st !! (t, l) = Some v) (phis_of phi t) vs ∧ length args = length vs.

(** C17: In every function that code generation compiles, a branch at the end of a
    block passes as many operands as its target has block arguments beyond the
    function's own, and these arguments are those of the phi locals of the target,
    in order; except that the branch that follows a loop, to its exit, passes
    nothing, whatever the arguments of the exit are. *)
Theorem branches_match_block_args {BlockRef Value MType Mod : Type} `{!EqDecision BlockRef} `{!EqDecision Value}
    `{!MlirBuilder BlockRef Value MType Mod} `{!ScfBuilder BlockRef Value MType Mod} `{!HashOrder nat}
    map_type to_result is_tensor is_option instantiate is_option_place def_path
    codegen_assign codegen_operand method generic_args fuel rounds mir inputs output m r st m'
    (Htame : tame_handlers codegen_assign codegen_operand method) (Hok : body_ok mir = true)
    (Hrun : codegen_function map_type to_result is_tensor is_option instantiate is_option_place def_path
      codegen_assign codegen_operand method generic_args fuel rounds mir inputs output m =
      Ret (inr (Some r, ((st, m') : CodegenState Value * Mod)))) :
  ∃ an, analyse instantiate def_path generic_args fuel rounds mir = Ret an ∧
    let ok := passes (arg_types map_type is_option inputs) r (an_phi an) st m' in
    ∀ bb b pre o, r !! bb = Some b → block_ops m' b = pre ++ [o] →
      match o with
      | CfBr target args => ok target args ∨ args = [] ∧ ∃ l, last pre = Some l ∧ is_loop_op l = true
      | CfCondBr _ t1 t2 args1 args2 => ok t1 args1 ∧ ok t2 args2
      | _ => True
      end.
Proof.
  apply function_body in Hrun as (an & Han & Hbody). exists an. split; [done|]. intros ok bb b pre o Hbb Ho.
  destruct (analyse_order _ _ _ _ _ _ _ Hok Han) as [Hnd _].
  destruct (analyse_loops _ _ _ _ _ _ _ Han) as (Hfor & Hwhile & Hphis).
  destruct (body_branch_inv _ _ _ _ _ _ _ _ _ _ _ _ _ _ Htame Hfor Hwhile Hphis Hbody) as (s1 & Hr & [[_ _ Hops] _]).
  pose proof Hbody as Hproc.
  eapply (body_processed _ _ _ _ _ _ _ _ _ Htame _ _ Hnd _ _ _ _ (an_bfs an) []) in Hproc
    as (s2 & s3 & _ & <-%runs_iter_nil & _ & _ & D & _); [|done|by rewrite app_nil_r].
  pose proof (body_stages _ _ _ _ _ _ _ _ _ _ _ _ _ _ _ Hbody eq_refl) as (_ & _ & _ & Hdom & _).
  destruct (D b) as (pre' & o' & Ho' & _ & _ & Ht).
  { exists bb. apply (elem_of_dom_2 (M := gmap BasicBlock)) in Hbb as Hd. rewrite Hdom in Hd.
    apply elem_of_difference in Hd as [Hd%elem_of_list_to_set Hd']. by split_and!. }
  cbn [snd] in Ho'. rewrite Ho in Ho'. apply app_inj_2 in Ho' as [_ [= <-]]; [|done].
  specialize (Hops bb b pre o [] Hbb Ho).
  assert (Hok' : ∀ target args, (∃ t, r !! t = Some target) → edge_ok r (block_args s1.2) (an_phi an) (st, m') target args → ok target args).
  { intros target args [t Htt] He. destruct (He t Htt) as [Hlen (vs & Hvs & Hb)]. exists t. split; [done|].
    exists (block_args s1.2 target), vs. split_and!; [done|by eapply (bo_args _ _ _ _ _ _ Hr)|exact Hvs|].
    rewrite Hlen. by eapply Forall2_length. }
  destruct o; try done; simpl in Hops, Ht.
  - destruct Hops as [He|[-> Hl]]; [left|by right]. apply Hok'; [|exact He]. apply Ht. by left.
  - destruct Hops as [He1 He2]. split; apply Hok'; try done; apply Ht; [by left|right; by left].
Qed.

(** C19: A function in which a reachable block outside the loops, other than the
    one where a loop is emitted, goes to a block of a loop is never compiled: a
    loop has one block it is entered from. *)
Theorem loop_entered_twice_never_compiles {BlockRef Value MType Mod : Type} `{!EqDecision BlockRef} `{!EqDecision Value}
    `{!MlirBuilder BlockRef Value MType Mod} `{!ScfBuilder BlockRef Value MType Mod} `{!HashOrder nat}
    map_type to_result is_tensor is_option instantiate is_option_place def_path
    codegen_assign codegen_operand method generic_args fuel rounds mir inputs output m an bb d t
    (Htame : tame_handlers codegen_assign codegen_operand method) (Hok : body_ok mir = true)
    (Han : analyse instantiate def_path generic_args fuel rounds mir = Ret an)
    (Hbb : bb ∈ an_bfs an) (Hout : bb ∉ an_region an)
    (Hfor : an_loop_init an !! bb = None) (Hwhile : an_while_init an !! bb = None)
    (Hd : block_at mir bb = Ret d) (Hk : terminator d = Ret (Goto t)) (Ht : t ∈ an_region an) :
  ∀ r (s : CodegenState Value * Mod),
    codegen_function map_type to_result is_tensor is_option instantiate is_option_place def_path
      codegen_assign codegen_operand method generic_args fuel rounds mir inputs output m ≠ Ret (inr (Some r, s)).
Proof.
  intros r s (an' & Han' & Hbody)%function_body. rewrite Han in Han'. injection Han' as <-.
  destruct (analyse_order _ _ _ _ _ _ _ Hok Han) as [Hnd _].
  pose proof (body_stages _ _ _ _ _ _ _ _ _ _ _ _ _ _ _ Hbody eq_refl) as (_ & _ & _ & Hdom & _).
  apply list_elem_of_split in Hbb as (l1 & l2 & El).
  eapply (body_processed _ _ _ _ _ _ _ _ _ Htame _ _ Hnd _ _ _ _ l1 (bb :: l2)) in Hbody
    as (s1 & s2 & Hr & (s3 & Hrun & _)%runs_iter_cons & Hh & Hhas & _); [|done..].
  assert (Hin : t ∈ dom r).
  { apply elem_of_dom. eapply process_goto_some; [exact Htame|exact Hout|..|exact Hrun]; try done. by apply Hhas. }
  rewrite Hdom in Hin. set_solver.
Qed.

(** ** Concrete functions *)
Definition count_blocks (entry : list BasicBlockData) (header : BasicBlock) : Body := mkBody
  (entry ++
   [ mkBlock [Assign (loop_place 4) (BinaryOp BLt (Copy (loop_place 1)) (loop_const 10))]
       (Some (SwitchInt (Move (loop_place 4)) (Switch.static_if 0 (header + 2) (header + 1))));
     mkBlock [Assign (loop_place 1) (BinaryOp Add (Copy (loop_place 1)) (loop_const 1))] (Some (Goto header));
     mkBlock [] (Some Return) ])
  [TyBool; TyUint U32; TyUint U32; TyBool; TyBool] 3.
(** [while _1 < 10 { _1 += 1 }] *)
Definition count_body : Body := count_blocks [mkBlock [] (Some (Goto 1))] 1.
(** [if _3 { _1 = _2 } else { _1 = _1 + _2 }; while _1 < 10 { _1 += 1 }] *)
Definition branch_count_body : Body := count_blocks
  [ mkBlock [] (Some (SwitchInt (Copy (loop_place 3)) (Switch.static_if 0 2 1)));
    mkBlock [Assign (loop_place 1) (Use (Copy (loop_place 2)))] (Some (Goto 3));
    mkBlock [Assign (loop_place 1) (BinaryOp Add (Copy (loop_place 1)) (Copy (loop_place 2)))] (Some (Goto 3)) ] 3.
Definition compile_function (mir : Body) : outcome (MlirError + (option (gmap BasicBlock nat) * (CodegenState SValue * Store))) :=
  codegen_function (λ _, 7) Some (λ _, false) (λ _, false) (λ c, c) (λ _, false) (λ _, ""%string)
    (int_assign (λ _, false)) (int_operand (λ _, false)) int_method [] 60 60 mir [TyUint U32; TyUint U32; TyBool] (TyTuple [])
    empty_store.
Definition analyse_function (mir : Body) : outcome Analyses := analyse (λ c, c) (λ _, ""%string) [] 60 60 mir.

Lemma function_well_formed_witness : ∃ r st m',
  compile_function count_body = Ret (inr (Some r, (st, m'))) ∧ dom r = {[0; 3]} ∧
  (∀ bb b, r !! bb = Some b → block_done r m' b) ∧
  (∀ b, r !! 0 = Some b → [7; 7; 7] `prefix_of` (sv_ty <$> block_args m' b)).
Proof.
  do 3 eexists. split; [vm_compute; reflexivity|]. split; [vm_compute; reflexivity|].
  edestruct (function_well_formed (λ _, 7) Some (λ _, false) (λ _, false) (λ c, c) (λ _, false) (λ _, ""%string)
    (int_assign (λ _, false)) (int_operand (λ _, false)) int_method [] 60 60 count_body
    [TyUint U32; TyUint U32; TyBool] (TyTuple []) empty_store)
    as (an & Han & Hdom & Hinj & Hdone & Hargs & Hold); [apply int_tame|reflexivity|vm_compute; reflexivity|].
  split; [intros bb b Hb; exact (proj2 (Hdone bb b Hb))|exact Hargs].
Defined.

Lemma loop_entered_twice_never_compiles_witness :
  compile_function branch_count_body = Panic ∧
  ∀ r s, compile_function branch_count_body ≠ Ret (inr (Some r, s)).
Proof.
  split; [vm_compute; reflexivity|]. intros r s. unfold compile_function.
  eapply (loop_entered_twice_never_compiles _ _ _ _ _ _ _ _ _ _ _ _ _ _ _ _ _ _ 2
    (mkBlock [Assign (loop_place 1) (BinaryOp Add (Copy (loop_place 1)) (Copy (loop_place 2)))] (Some (Goto 3))) 3);
    [apply int_tame|reflexivity|vm_compute; reflexivity|..].
  - simpl. set_solver.
  - vm_compute; intros H; discriminate H.
  - reflexivity.
  - reflexivity.
  - reflexivity.
  - reflexivity.
  - vm_compute. reflexivity.
Defined.

(** [if _3 { while _1 < 10 { _1 += 1 } } else if _3 { _1 = _1 + _2 } else { _1 = _2 }]: the
    block after the loop is the join of the other two arms. *)
Definition loop_arm_body : Body := mkBody
  [ mkBlock [] (Some (SwitchInt (Copy (loop_place 3)) (Switch.static_if 0 4 1)));
    mkBlock [] (Some (Goto 2));
    mkBlock [Assign (loop_place 4) (BinaryOp BLt (Copy (loop_place 1)) (loop_const 10))]
       (Some (SwitchInt (Move (loop_place 4)) (Switch.static_if 0 7 3)));
    mkBlock [Assign (loop_place 1) (BinaryOp Add (Copy (loop_place 1)) (loop_const 1))] (Some (Goto 2));
    mkBlock [] (Some (SwitchInt (Copy (loop_place 3)) (Switch.static_if 0 5 6)));
    mkBlock [Assign (loop_place 1) (Use (Copy (loop_place 2)))] (Some (Goto 7));
    mkBlock [Assign (loop_place 1) (BinaryOp Add (Copy (loop_place 1)) (Copy (loop_place 2)))] (Some (Goto 7));
    mkBlock [] (Some Return) ]
  [TyBool; TyUint U32; TyUint U32; TyBool; TyBool] 3.

(** The arms pass one value to the join, which has one argument; the loop passes
    none. *)
Lemma branches_match_block_args_witness : ∃ r st m' an,
  compile_function loop_arm_body = Ret (inr (Some r, (st, m'))) ∧ analyse_function loop_arm_body = Ret an ∧
  r !! 7 = Some 52 ∧ length (block_args m' 52) = 1 ∧
  block_ops m' 51 = [ScfWhile [mkSValue 100 7] 56 57 [mkSValue 105 7]; CfBr 52 []] ∧
  block_ops m' 55 = [CfBr 52 [mkSValue 101 7]] ∧
  ∀ bb b pre target args, r !! bb = Some b → block_ops m' b = pre ++ [CfBr target args] →
    passes [7; 7; 7] r (an_phi an) st m' target args ∨ args = [] ∧ ∃ l, last pre = Some l ∧ is_loop_op l = true.
Proof.
  destruct (compile_function loop_arm_body) as [[e|[[r|] [st m']]]| |] eqn:E; [by vm_compute in E| |by vm_compute in E..].
  unfold compile_function in E.
  destruct (branches_match_block_args _ _ _ _ _ _ _ _ _ _ _ _ _ loop_arm_body _ _ _ _ _ _ (int_tame (λ _, false)) eq_refl E) as (an & Han & H).
  exists r, st, m', an. split; [reflexivity|]. split; [exact Han|].
  vm_compute in E. injection E as <- <- <-. split; [reflexivity|]. split; [reflexivity|]. split; [reflexivity|]. split; [reflexivity|].
  intros bb b pre target args Hb Ho. exact (H bb b pre (CfBr target args) Hb Ho).
Defined.
