(* ===== verification/PlaceTypes.v ===== *)
(** * Types of places and operands

    [rustc_middle/src/mir/statement.rs]: [PlaceTy] and its projections,
    [Place::ty] and [Operand::ty]; [builtin_deref] and [builtin_index] of
    [ty/sty.rs] and [Const::ty] of [mir/consts.rs].  What [Box] points to is a
    parameter. *)
From S2P Require Import Prelude Mir.
#[local] Open Scope Z_scope.

(** [Const::ty] *)
Definition ty_of_const (c : Const) : Ty :=
  match c with
  | ConstTy ty ct => match ct with CkValue cv => cv.1 | _ => ty end
  | ConstVal _ ty | ConstUnevaluated _ ty => ty
  end.

Record PlaceTy := mkPlaceTy { pt_ty : Ty; pt_variant : option VariantIdx }.
Definition from_ty (ty : Ty) : PlaceTy := mkPlaceTy ty None.

Definition builtin_index (ty : Ty) : option Ty :=
  match ty with TyArray t _ | TySlice t => Some t | _ => None end.

Definition is_field_elem (e : PlaceElem) : bool := match e with Field _ _ => true | _ => false end.

Section place.
Context (boxed_ty : Ty → option Ty).

Definition builtin_deref (explicit : bool) (ty : Ty) : option Ty :=
  match boxed_ty ty with
  | Some boxed => Some boxed
  | None =>
      match ty with
      | TyRef t => Some t
      | TyRawPtr t => if explicit then Some t else None
      | _ => None
      end
  end.

(** The type of a subslice; lengths are [u64]. *)
Definition subslice_ty (ty : Ty) (from to : Z) (from_end : bool) : outcome Ty :=
  match ty with
  | TySlice _ => Ret ty
  | TyArray inner size =>
      if from_end then
        n ← unwrap size;
        Ret (TyArray inner (Some (as_u 64 (n - from - to))))
      else Ret (TyArray inner (Some (as_u 64 (to - from))))
  | _ => Panic
  end.

Definition projection_ty (self : PlaceTy) (elem : PlaceElem) : outcome PlaceTy :=
  if bool_decide (is_Some (pt_variant self)) && negb (is_field_elem elem) then Panic
  else match elem with
  | Deref => t ← unwrap (builtin_deref true (pt_ty self)); Ret (from_ty t)
  | Index _ | ConstantIndex _ _ _ => t ← unwrap (builtin_index (pt_ty self)); Ret (from_ty t)
  | Subslice from to from_end => t ← subslice_ty (pt_ty self) from to from_end; Ret (from_ty t)
  | Downcast index => Ret (mkPlaceTy (pt_ty self) (Some index))
  | Field _ fty => Ret (from_ty fty)
  | OpaqueCast ty | UnwrapUnsafeBinder ty => Ret (from_ty ty)
  end.

Definition multi_projection_ty (self : PlaceTy) (elems : list PlaceElem) : outcome PlaceTy :=
  ofold projection_ty self elems.

(** [Place::ty] *)
Definition place_ty (mir : Body) (place : Place) : outcome PlaceTy :=
  t ← local_ty mir (pl_local place);
  multi_projection_ty (from_ty t) (pl_projection place).

(** [Operand::ty] *)
Definition operand_ty (mir : Body) (op : Operand) : outcome Ty :=
  match op with
  | Copy l | Move l => p ← place_ty mir l; Ret (pt_ty p)
  | Constant c => Ret (ty_of_const c)
  | RuntimeChecks => Ret TyBool
  end.

(** The type of a whole local. *)
Lemma place_ty_local mir p : no_projection p = true →
  place_ty mir p = t ← local_ty mir (pl_local p); Ret (from_ty t).
Proof. unfold no_projection, place_ty. by destruct (pl_projection p). Qed.

Lemma ofold_last {A S} (f : S → A → outcome S) l a s s' :
  ofold f s (l ++ [a]) = Ret s' → ∃ s1, ofold f s l = Ret s1 ∧ f s1 a = Ret s'.
Proof.
  revert s. induction l as [|x l IH]; intros s; cbn [app ofold].
  - destruct (f s a) as [s1| |] eqn:E; try done. intros [= ->]. by exists s.
  - destruct (f s x) as [s1| |]; try done. apply IH.
Qed.

(** A field has the type its projection carries, whatever comes before it. *)
Lemma place_ty_field mir p elems f t pty : pl_projection p = elems ++ [Field f t] →
  place_ty mir p = Ret pty → pty = from_ty t.
Proof.
  unfold place_ty, multi_projection_ty. intros ->. destruct (local_ty mir _) as [t0| |]; try done.
  intros (s1 & _ & H)%ofold_last. unfold projection_ty in H.
  rewrite andb_false_r in H. by injection H as <-.
Qed.
End place.
