(* ===== verification/TritonTypes.v ===== *)
(** * Types in the Triton backend

    [rustc_codegen_llvm/src/mlir/codegen/triton/types.rs]: [TypeMapper], which
    gives the MLIR type of a Rust type.  A [todo!], [unimplemented!] or missing
    handler panics.  Normalising an alias is a query of the type checker; its
    answer is mapped again, so that the recursion runs on fuel.  Type queries
    are the record [TyCtxt]. *)
From S2P Require Import Prelude Mir TritonArith.

(** What the backend asks of the type context: the path of a definition and
    how [{:?}] prints it, its kind, the type of the first field of a struct,
    what an alias and a type of the generic body normalise to, the pointee of a
    [Box], and the memory of constants: the value of an unevaluated constant,
    the bytes of an allocation ([None] when it is not memory), sizes and the
    field offsets of tuples. *)
Record TyCtxt := mkTyCtxt {
  def_path_str : DefId → string;
  adt_debug : DefId → string;
  is_enum : DefId → bool;
  first_field_ty : DefId → list Ty → Ty;
  try_normalize : nat → option Ty;
  normalize : Ty → Ty;
  boxed_ty : Ty → option Ty;
  const_eval_resolve : nat → option ConstValue;
  global_alloc : AllocId → option (Z → Z → option Scalar);
  size_of : Ty → option Z;
  field_offsets : Ty → option (option (list Z)) }.

(** [i64::MIN], a dynamic dimension. *)
Definition DYNAMIC : Z := (- 2 ^ 63)%Z.
Definition tensor_type (dims : list Z) (elem : MlirTy) : MlirTy := MTensor dims elem.
Definition pointer_type (pointee : MlirTy) : MlirTy := MPointer pointee.

Definition create_int_type (t : IntTy) : outcome MlirTy :=
  match t with
  | Isize => Panic
  | I8 => Ret (MInt 8)
  | I16 => Ret (MInt 16)
  | I32 => Ret (MInt 32)
  | I64 => Ret (MInt 64)
  | I128 => Ret (MInt 128)
  end.
Definition create_uint_type (t : UintTy) : outcome MlirTy :=
  match t with
  | Usize => Panic
  | U8 => Ret (MInt 8)
  | U16 => Ret (MInt 16)
  | U32 => Ret (MInt 32)
  | U64 => Ret (MInt 64)
  | U128 => Ret (MInt 128)
  end.
Definition create_float_type (t : FloatTy) : outcome MlirTy :=
  match t with
  | F16 => Ret (MFloat 16)
  | F32 => Ret (MFloat 32)
  | F64 => Ret (MFloat 64)
  | F128 => Panic
  end.
Definition create_bool_type : MlirTy := MInt 1.

Section mapper.
Context (tcx : TyCtxt).

(** [debug_assert_eq!(args.len(), 1)] and [args[0].expect_ty()] *)
Definition only_arg (args : list Ty) : outcome Ty := match args with [t] => Ret t | _ => Panic end.

Section handlers.
Context (map_type : Ty → outcome MlirTy).

Definition create_tuple_type (tys : list Ty) : outcome MlirTy :=
  types ← omapM map_type tys; Ret (MTuple types).
Definition create_raw_ptr_type (ty : Ty) : outcome MlirTy :=
  t ← map_type ty; Ret (pointer_type t).

Definition triton_tensor_handler (args : list Ty) : outcome MlirTy :=
  arg_ty ← only_arg args; t ← map_type arg_ty; Ret (tensor_type [DYNAMIC] t).
Definition triton_pointer_handler (args : list Ty) : outcome MlirTy :=
  arg_ty ← only_arg args; t ← map_type arg_ty; Ret (pointer_type t).
Definition triton_bool_handler (args : list Ty) : outcome MlirTy := Ret create_bool_type.
Definition triton_program_axis_handler (args : list Ty) : outcome MlirTy := Ret (MInt 32).

(** [ADT_HANDLER_MAP] *)
Definition adt_handler (name : string) : option (list Ty → outcome MlirTy) :=
  if String.eqb name "triton::llvm::triton::tensor::LlvmTensor" then Some triton_tensor_handler
  else if String.eqb name "triton::llvm::triton::pointer::LlvmPointer" then Some triton_pointer_handler
  else if String.eqb name "triton::llvm::triton::types::LlvmBool" then Some triton_bool_handler
  else if String.eqb name "triton::Axis" then Some triton_program_axis_handler
  else None.

Definition map_adt_ty (def : DefId) (args : list Ty) : outcome MlirTy :=
  match adt_handler (def_path_str tcx def) with
  | Some handler => handler args
  | None => if is_enum tcx def then Ret (MInt 32) else Panic
  end.

Definition map_alias_ty (id : nat) : outcome MlirTy :=
  match try_normalize tcx id with Some normalized => map_type normalized | None => Panic end.
End handlers.

Fixpoint map_type (fuel : nat) (ty : Ty) : outcome MlirTy :=
  match fuel with
  | O => Diverge
  | S f =>
      match ty with
      | TyInt int_ty => create_int_type int_ty
      | TyUint uint_ty => create_uint_type uint_ty
      | TyFloat float_ty => create_float_type float_ty
      | TyBool => Ret create_bool_type
      | TyArray elem_ty _ => map_type f elem_ty
      | TyAdt def args => map_adt_ty (map_type f) def args
      | TyStr => Ret (MInt 64)
      | TyRawPtr t => create_raw_ptr_type (map_type f) t
      | TyRef inner_ty =>
          match inner_ty with TySlice _ | TyStr => Ret (MInt 64) | _ => map_type f inner_ty end
      | TyFnDef _ | TyFnPtr => Ret (MInt 64)
      | TyNever => Ret (MInt 64)
      | TyTuple tys => create_tuple_type (map_type f) tys
      | TyAlias id => map_alias_ty (map_type f) id
      | TyChar | TyForeign | TyPat _ | TySlice _ | TyUnsafeBinder | TyDynamic | TyClosure
      | TyCoroutineClosure | TyCoroutine | TyCoroutineWitness | TyParam | TyBound | TyPlaceholder
      | TyInfer _ | TyError => Panic
      end
  end.

(** ** Fuel

    A type that names no alias needs its depth; one that does needs the depth
    of what the alias normalises to, which names none. *)
Fixpoint ty_depth (ty : Ty) : nat :=
  match ty with
  | TyArray t _ | TyRawPtr t | TyRef t | TyPat t | TySlice t => S (ty_depth t)
  | TyAdt _ ts | TyTuple ts => S (max_list (ty_depth <$> ts))
  | _ => 1
  end.
Fixpoint alias_free (ty : Ty) : bool :=
  match ty with
  | TyAlias _ => false
  | TyArray t _ | TyRawPtr t | TyRef t | TyPat t | TySlice t => alias_free t
  | TyAdt _ ts | TyTuple ts => forallb alias_free ts
  | _ => true
  end.
Definition normalizes : Prop := ∀ id t, try_normalize tcx id = Some t → alias_free t = true.
(** The aliases a type names. *)
Fixpoint aliases (ty : Ty) : list nat :=
  match ty with
  | TyAlias id => [id]
  | TyArray t _ | TyRawPtr t | TyRef t | TyPat t | TySlice t => aliases t
  | TyAdt _ ts | TyTuple ts => concat (aliases <$> ts)
  | _ => []
  end.
Definition normal_depth (id : nat) : nat := match try_normalize tcx id with Some t => ty_depth t | None => 0 end.
Definition map_fuel (ty : Ty) : nat := ty_depth ty + max_list (normal_depth <$> aliases ty).
End mapper.

(** ** Facts *)
Section facts.
Context (tcx : TyCtxt).

Lemma omapM_ends {A B} (f : A → outcome B) l : (∀ a, a ∈ l → f a ≠ Diverge) → omapM f l ≠ Diverge.
Proof.
  induction l as [|a l IH]; intros Hf; simpl; [done|].
  pose proof (Hf a (list_elem_of_here _ _)). destruct (f a); try done. simpl.
  assert (omapM f l ≠ Diverge) by (apply IH; intros; apply Hf; by right). by destruct (omapM f l).
Qed.

Lemma handlers_end (mt : Ty → outcome MlirTy) def args :
  (∀ a, a ∈ args → mt a ≠ Diverge) → map_adt_ty tcx mt def args ≠ Diverge.
Proof.
  intros Hm. assert (Hone : ∀ (g : MlirTy → MlirTy), (t ← only_arg args; m ← mt t; Ret (g m)) ≠ Diverge).
  { intros g. destruct args as [|t [|]]; try done. simpl. pose proof (Hm t (list_elem_of_here _ _)). by destruct (mt t). }
  unfold map_adt_ty, adt_handler. repeat case_match; simplify_eq; try done; apply Hone.
Qed.

Lemma ends_bind {A B} (m : outcome A) (f : A → outcome B) : m ≠ Diverge → (∀ a, f a ≠ Diverge) → m ≫= f ≠ Diverge.
Proof. by destruct m; simpl. Qed.

(** The recursion on a type ends if it does on the aliases in it. *)
Lemma map_type_ends (n : nat) : ∀ f ty,
  (∀ id t g, id ∈ aliases ty → try_normalize tcx id = Some t → n ≤ g → map_type tcx g t ≠ Diverge) →
  ty_depth ty + n ≤ f → map_type tcx f ty ≠ Diverge.
Proof.
  induction f as [|f IH]; intros ty Hal Hd; [destruct ty; simpl in Hd; lia|].
  assert (Hlist : ∀ ts a, a ∈ ts → aliases ty = concat (aliases <$> ts) →
    ty_depth ty = S (max_list (ty_depth <$> ts)) → map_type tcx f a ≠ Diverge).
  { intros ts a Ha Ea Ed. apply IH.
    - intros id t g Hid. apply Hal. rewrite Ea. apply elem_of_concat. exists (aliases a).
      split; [done|]. by apply list_elem_of_fmap_2.
    - pose proof (max_list_elem_of_le (ty_depth a) (ty_depth <$> ts) (list_elem_of_fmap_2 _ _ _ Ha)). lia. }
  destruct ty; simpl; simpl in Hd; try done.
  - by destruct t.
  - by destruct t.
  - by destruct t.
  - apply handlers_end. intros a Ha. by apply (Hlist args).
  - apply IH; [exact Hal|lia].
  - unfold create_raw_ptr_type. apply ends_bind; [|done]. apply IH; [exact Hal|lia].
  - case_match; try done; (apply IH; [exact Hal|simpl in *; lia]).
  - unfold create_tuple_type. apply ends_bind; [|done]. apply omapM_ends. intros a Ha. by apply (Hlist tys).
  - unfold map_alias_ty. destruct (try_normalize tcx id) as [t|] eqn:E; [|done].
    apply (Hal id t); [by left|done|lia].
Qed.

Lemma alias_free_aliases ty : alias_free ty = true → aliases ty = [].
Proof.
  revert ty. fix IH 1. intros [] H; simpl in *; try done; try (by apply IH).
  - induction args as [|a ts IHts]; [done|]. cbn [forallb] in H. apply andb_true_iff in H as [H1 H2].
    rewrite fmap_cons. cbn [concat]. by rewrite (IH a H1), IHts.
  - induction tys as [|a ts IHts]; [done|]. cbn [forallb] in H. apply andb_true_iff in H as [H1 H2].
    rewrite fmap_cons. cbn [concat]. by rewrite (IH a H1), IHts.
Qed.

(** [map_fuel] is enough. *)
Lemma map_type_terminates ty f : normalizes tcx → map_fuel tcx ty ≤ f → map_type tcx f ty ≠ Diverge.
Proof.
  intros Hn Hf. unfold map_fuel in Hf. apply (map_type_ends (max_list (normal_depth tcx <$> aliases ty))); [|lia].
  intros id t g Hid Ht Hg. apply (map_type_ends 0).
  - intros id' t' g' Hid'. rewrite alias_free_aliases in Hid' by (by eapply Hn). by apply elem_of_nil in Hid'.
  - pose proof (max_list_elem_of_le (normal_depth tcx id) (normal_depth tcx <$> aliases ty)
      (list_elem_of_fmap_2 _ _ _ Hid)) as H. unfold normal_depth in H at 1. rewrite Ht in H. lia.
Qed.
End facts.
