(* ===== verification/TritonOperand.v ===== *)
(** * Operands in the Triton backend

    [rustc_codegen_llvm/src/mlir/codegen/triton/mod.rs]: [codegen_operand] and
    what it calls, constants of every kind ([codegen_constant_cast],
    [codegen_const_value], [codegen_scalar_const_value], [codegen_const_adt],
    [codegen_param_const], [codegen_tuple_constant]) and reads of places
    ([codegen_copy]); [codegen_option_operand]; [try_read_array_ref_const].
    The integer constants are those of [rustc_mlir/src/shared/arith.rs].

    Building an operation is assumed to succeed; what the code asks of the type
    context is [TyCtxt]. *)
From S2P Require Import Prelude Codegen Mir PlaceTypes ScalarInts TritonArith TritonPhi TritonTypes TritonEmit.

#[export] Instance Value_eq_dec : EqDecision Value.
Proof. solve_decision. Defined.

Abbreviation State := (CodegenState Value).
Abbreviation emit := TritonArith.append_operation.

(** ** Integer constants: [shared::arith::Int] *)
Inductive MlirInt :=
  | II1 (v : Z) | II8 (v : Z) | II16 (v : Z) | II32 (v : Z) | II64 (v : Z) | II128 (v : Z) | IIsize (v : Z)
  | IU8 (v : Z) | IU16 (v : Z) | IU32 (v : Z) | IU64 (v : Z) | IU128 (v : Z) | IUsize (v : Z).

(** [Int::from_scalar]; [None] is [Error::InvalidType]. *)
Definition from_scalar (ty : Ty) (scalar : ScalarInt) : outcome (option MlirInt) :=
  match ty with
  | TyBool => v ← SI.to_u8 scalar; Ret (Some (II1 (Z.land v 1)))
  | TyInt int_ty =>
      v ← match int_ty with
          | I8 => v ← SI.to_u8 scalar; Ret (II8 v)
          | I16 => v ← SI.to_u16 scalar; Ret (II16 v)
          | I32 => v ← SI.to_u32 scalar; Ret (II32 v)
          | I64 => v ← SI.to_u64 scalar; Ret (II64 v)
          | I128 => v ← SI.to_u128 scalar; Ret (II128 v)
          | Isize => v ← SI.to_u64 scalar; Ret (IIsize v)
          end;
      Ret (Some v)
  | TyUint uint_ty =>
      v ← match uint_ty with
          | U8 => v ← SI.to_u8 scalar; Ret (IU8 v)
          | U16 => v ← SI.to_u16 scalar; Ret (IU16 v)
          | U32 => v ← SI.to_u32 scalar; Ret (IU32 v)
          | U64 => v ← SI.to_u64 scalar; Ret (IU64 v)
          | U128 => v ← SI.to_u128 scalar; Ret (IU128 v)
          | Usize => v ← SI.to_u64 scalar; Ret (IUsize v)
          end;
      Ret (Some v)
  | _ => Ret None
  end.

(** [Int::ty] and [Int::attr] *)
Definition int_ty (i : MlirInt) : MlirTy :=
  MInt match i with
       | II1 _ => 1
       | II8 _ | IU8 _ => 8
       | II16 _ | IU16 _ => 16
       | II32 _ | IU32 _ => 32
       | II64 _ | IU64 _ | IIsize _ | IUsize _ => 64
       | II128 _ | IU128 _ => 128
       end.
Definition int_attr (i : MlirInt) : Z :=
  match i with
  | II1 v | II8 v | II16 v | II32 v | II64 v | II128 v | IIsize v
  | IU8 v | IU16 v | IU32 v | IU64 v | IU128 v | IUsize v => v
  end.

(** [create_int_constant], appended. *)
Definition create_int_constant (i : MlirInt) : gen Value := emit (constant (int_attr i)) [] (int_ty i).

(** ** Places *)
(** The two shapes of [(_opt as Some).0]. *)
Definition option_field (projection : list PlaceElem) : bool :=
  match projection with [Downcast _; Field _ _] | [Field _ _] => true | _ => false end.

Definition codegen_copy (st : State) (place : Place) : outcome Value :=
  let local := pl_local place in
  match (if option_field (pl_projection place) then option_table st !! local else None) with
  | Some opt_val => unwrap opt_val
  | None =>
      if bool_decide (is_Some (option_table st !! local)) then Panic
      else
        match pl_projection place, tuple_fields st !! local with
        | [Field field_idx _], Some fields => unwrap (fields !! field_idx)
        | _, _ => unwrap (ssa_values st !! local)
        end
  end.

Section operand.
Context (tcx : TyCtxt) (args : list GenericArg) (fuel : nat).
Abbreviation map_ty ty := (cg_lift (map_type tcx fuel ty)).

(** [is_option_ty] of a normalised type. *)
Definition is_option (ty : Ty) : bool := is_option_ty (def_path_str tcx) ty.

(** ** Constants *)
Definition codegen_scalar (ty : Ty) (scalar : Scalar) : gen Value :=
  match scalar with
  | ScalarInt_ scalar_int =>
      i ← cg_lift (from_scalar ty scalar_int);
      match i with Some i => create_int_constant i | None => err CreateOperation end
  | ScalarPtr _ _ => todo
  end.

Definition int_from_scalar (ty : Ty) (scalar_int : ScalarInt) : gen MlirInt :=
  i ← cg_lift (from_scalar ty scalar_int);
  match i with Some i => mret i | None => err InvalidScalar end.

(** The discriminant of an enum constant, by its size. *)
Definition enum_scalar (s : ScalarInt) : outcome MlirInt :=
  match si_size s with
  | 1%Z => v ← SI.to_u8 s; Ret (II8 v)
  | 2%Z => v ← SI.to_u16 s; Ret (II16 v)
  | 4%Z => v ← SI.to_u32 s; Ret (II32 v)
  | 8%Z => v ← SI.to_u64 s; Ret (II64 v)
  | _ => Panic
  end.

Definition codegen_scalar_const_value (ty : Ty) (scalar : Scalar) : gen Value :=
  match scalar with
  | ScalarInt_ scalar_int =>
      match ty with
      | TyUint _ | TyInt _ => value ← int_from_scalar ty scalar_int; create_int_constant value
      | TyAdt def ts =>
          int_val ← (if is_enum tcx def then cg_lift (enum_scalar scalar_int)
                     else int_from_scalar (first_field_ty tcx def ts) scalar_int);
          create_int_constant int_val
      | TyBool => val ← cg_lift (SI.to_u8 scalar_int); emit (constant val) [] (MInt 1)
      | TyFloat float_ty =>
          bits ← cg_lift match float_ty with
                         | F32 => SI.to_u32 scalar_int
                         | F64 => SI.to_u64 scalar_int
                         | F16 | F128 => Panic
                         end;
          mlir_ty ← map_ty ty;
          emit (float_constant float_ty bits) [] mlir_ty
      | _ => todo
      end
  | ScalarPtr _ _ => todo
  end.

(** Zero-sized, slice and indirect constants are a placeholder. *)
Definition codegen_const_value (const_val : ConstValue) (ty : Ty) : gen Value :=
  match const_val with
  | CvScalar scalar => codegen_scalar_const_value ty scalar
  | CvZeroSized | CvSlice | CvIndirect _ _ => create_int_constant (II64 0)
  end.

Definition codegen_const_adt (def : DefId) (value : Value) (raw_list : list Ty) : gen Value :=
  let name := adt_debug tcx def in
  if String.eqb name "triton::llvm::triton::tensor::Tensor" then
    arg ← cg_lift (unwrap (raw_list !! 0));
    ty ← map_ty (normalize tcx arg);
    emit ub_poison [] (tensor_type [DYNAMIC] ty)
  else if String.eqb name "triton::llvm::triton::pointer::Pointer" then mret value
  else if is_enum tcx def then mret value
  else todo.

Definition codegen_param_value (value : Ty * ValTree) : gen Value :=
  match valtree_try_to_leaf value.2 with
  | Some scalar => codegen_scalar value.1 (ScalarInt_ scalar)
  | None => todo
  end.
Definition codegen_param_const (index : nat) : gen Value :=
  c ← cg_lift (const_at args index);
  value ← cg_lift (to_value c);
  codegen_param_value value.

Definition codegen_constant_cast (c : Const) (normalized_ty : Ty) : gen Value :=
  match c with
  | ConstVal const_val ty =>
      value ← codegen_const_value const_val ty;
      match normalized_ty with
      | TyRawPtr _ =>
          if negb (is_integer (v_ty value)) then cg_panic
          else ptr_ty ← map_ty normalized_ty; emit int_to_ptr [value] ptr_ty
      | TyAdt def ts => codegen_const_adt def value ts
      | TyInt _ | TyUint _ | TyFloat _ | TyBool => mret value
      | TyRef _ | TyStr => mret value
      | TyFnPtr | TyFnDef _ => mret value
      | _ => todo
      end
  | ConstTy _ const_val =>
      match const_val with CkParam param => codegen_param_const param | _ => todo end
  | ConstUnevaluated _ _ => todo
  end.

(** ** Operands *)
Definition codegen_operand (st : State) (operand : Operand) (normalized_ty : Ty) : gen Value :=
  match operand with
  | Copy place | Move place => cg_lift (codegen_copy st place)
  | Constant const_operand => codegen_constant_cast const_operand normalized_ty
  | RuntimeChecks => todo
  end.

(** The entry of an [Option] local: [*state.option_table.get(..).unwrap_or_else(panic)]. *)
Definition option_entry (st : State) (operand : Operand) : outcome (option Value) :=
  match operand with
  | Copy p | Move p => unwrap (option_table st !! pl_local p)
  | Constant _ => Ret None
  | RuntimeChecks => Panic
  end.

(** The normalised type of an operand. *)
Definition operand_norm_ty (mir : Body) (op : Operand) : outcome Ty :=
  ty ← operand_ty (boxed_ty tcx) mir op; Ret (normalize tcx ty).

Definition codegen_option_operand (mir : Body) (st : State) (operand : Operand) : gen (option Value) :=
  ty ← cg_lift (operand_norm_ty mir operand);
  if is_option ty then cg_lift (option_entry st operand)
  else value ← codegen_operand st operand ty; mret (Some value).

(** ** Tuple constants *)
(** [layout_of(..)?] fails with [CodegenFailed]. *)
Definition or_failed {A} (o : option A) : gen A :=
  match o with Some a => mret a | None => err CodegenFailed end.

Fixpoint tuple_fields_from (read : Z → Z → option Scalar) (base_offset : Z) (offsets : list Z)
    (field_idx : nat) (elem_tys : list Ty) : gen (list Value) :=
  match elem_tys with
  | [] => mret []
  | field_ty :: elem_tys' =>
      let normalized_field_ty := normalize tcx field_ty in
      size ← or_failed (size_of tcx normalized_field_ty);
      off ← cg_lift (unwrap (offsets !! field_idx));
      scalar ← or_failed (read (base_offset + off)%Z size);
      value ← codegen_scalar normalized_field_ty scalar;
      values ← tuple_fields_from read base_offset offsets (S field_idx) elem_tys';
      mret (value :: values)
  end.

Definition codegen_tuple_constant (const_op : Const) (elem_tys : list Ty) : gen (list Value) :=
  match const_op with
  | ConstVal (CvIndirect alloc_id base_offset) _ =>
      alloc ← cg_lift (unwrap (global_alloc tcx alloc_id));
      fields ← or_failed (field_offsets tcx (ty_of_const const_op));
      offsets ← cg_lift (unwrap fields);
      tuple_fields_from alloc base_offset offsets 0 elem_tys
  | _ => todo
  end.

(** ** References to constant arrays *)
Definition elem_size_bytes (ty : Ty) : option Z :=
  match ty with
  | TyInt I8 | TyUint U8 => Some 1%Z
  | TyInt I16 | TyUint U16 => Some 2%Z
  | TyInt I32 | TyUint U32 => Some 4%Z
  | TyInt I64 | TyUint U64 => Some 8%Z
  | _ => None
  end.

(** An element, sign-extended. *)
Definition read_elem (size : Z) (s : Scalar) : outcome (option Z) :=
  match s with
  | ScalarInt_ s =>
      match size with
      | 1%Z => v ← SI.to_i8 s; Ret (Some v)
      | 2%Z => v ← SI.to_i16 s; Ret (Some v)
      | 4%Z => v ← SI.to_i32 s; Ret (Some v)
      | 8%Z => v ← SI.to_i64 s; Ret (Some v)
      | _ => Ret None
      end
  | ScalarPtr _ _ => Ret None
  end.

(** Elements [i], [i + 1], ..., [n] of them. *)
Fixpoint read_elems (read : Z → Z → option Scalar) (base_offset size : Z) (i n : nat) : outcome (option (list Z)) :=
  match n with
  | O => Ret (Some [])
  | S n' =>
      match read (base_offset + Z.of_nat i * size)%Z size with
      | None => Ret None
      | Some scalar =>
          v ← read_elem size scalar;
          match v with
          | None => Ret None
          | Some val =>
              rest ← read_elems read base_offset size (S i) n';
              Ret (option_map (cons val) rest)
          end
      end
  end.

(** The allocation behind a constant reference. *)
Definition const_pointer (c : Const) : option (AllocId * Z) :=
  const_val ← match c with
              | ConstVal cv _ => Some cv
              | ConstUnevaluated uv _ => const_eval_resolve tcx uv
              | ConstTy _ _ => None
              end;
  match const_val with
  | CvScalar (ScalarPtr alloc_id offset) | CvIndirect alloc_id offset => Some (alloc_id, offset)
  | _ => None
  end.

Definition try_read_array_ref_const (src_ty : Ty) (c : Const) : outcome (option (list Z)) :=
  match src_ty with
  | TyRef (TyArray elem_ty len) =>
      if negb (is_integral elem_ty) then Ret None
      else
        match elem_size_bytes elem_ty, len, const_pointer c with
        | Some size, Some n, Some (alloc_id, base_offset) =>
            match global_alloc tcx alloc_id with
            | Some alloc => read_elems alloc base_offset size 0 (Z.to_nat n)
            | None => Ret None
            end
        | _, _, _ => Ret None
        end
  | _ => Ret None
  end.
End operand.
