(* ===== verification/TritonAssign.v ===== *)
(** * Assignments in the Triton backend

    [rustc_codegen_llvm/src/mlir/codegen/triton/mod.rs]: [codegen_assign], with
    [codegen_cast], the construction of aggregates and the tables in which
    locals without an MLIR value are tracked.  Arithmetic is [TritonArith], and
    the constants of array elements are folded by [TritonConst].

    The state is passed explicitly; operations are appended to the block of the
    monad. *)
From S2P Require Import Prelude Codegen Mir PlaceTypes ScalarInts TritonArith TritonConst TritonPhi TritonTypes TritonEmit TritonOperand.

Section tables.
Implicit Types st : State.

Definition set_ssa (l : Local) (v : Value) st : State := with_ssa st (<[l := v]> (ssa_values st)).
Definition set_option (l : Local) (v : option Value) st : State := with_option st (<[l := v]> (option_table st)).
Definition set_tuple (l : Local) (vs : list Value) st : State := with_tuple st (<[l := vs]> (tuple_fields st)).

Definition set_const_array (l : Local) (v : list Z) st : State :=
  let a := array_tables st in
  with_arrays st (mkArrays (<[l := v]> (const_arrays a)) (ptr_to_const_array a) (slice_shape a)
    (dyn_arrays a) (ptr_to_dyn_array a) (slice_dyn_values a)).
Definition set_ptr_const (l : Local) (v : Local) st : State :=
  let a := array_tables st in
  with_arrays st (mkArrays (const_arrays a) (<[l := v]> (ptr_to_const_array a)) (slice_shape a)
    (dyn_arrays a) (ptr_to_dyn_array a) (slice_dyn_values a)).
Definition set_slice_shape (l : Local) (v : list Z) st : State :=
  let a := array_tables st in
  with_arrays st (mkArrays (const_arrays a) (ptr_to_const_array a) (<[l := v]> (slice_shape a))
    (dyn_arrays a) (ptr_to_dyn_array a) (slice_dyn_values a)).
Definition set_dyn_array (l : Local) (v : list Value) st : State :=
  let a := array_tables st in
  with_arrays st (mkArrays (const_arrays a) (ptr_to_const_array a) (slice_shape a)
    (<[l := v]> (dyn_arrays a)) (ptr_to_dyn_array a) (slice_dyn_values a)).
Definition set_ptr_dyn (l : Local) (v : Local) st : State :=
  let a := array_tables st in
  with_arrays st (mkArrays (const_arrays a) (ptr_to_const_array a) (slice_shape a)
    (dyn_arrays a) (<[l := v]> (ptr_to_dyn_array a)) (slice_dyn_values a)).
Definition set_slice_dyn (l : Local) (v : list Value) st : State :=
  let a := array_tables st in
  with_arrays st (mkArrays (const_arrays a) (ptr_to_const_array a) (slice_shape a)
    (dyn_arrays a) (ptr_to_dyn_array a) (<[l := v]> (slice_dyn_values a))).

Definition lookup_const_array (l : Local) st := const_arrays (array_tables st) !! l.
Definition lookup_ptr_const (l : Local) st := ptr_to_const_array (array_tables st) !! l.
Definition lookup_slice_shape (l : Local) st := slice_shape (array_tables st) !! l.
Definition lookup_dyn_array (l : Local) st := dyn_arrays (array_tables st) !! l.
Definition lookup_ptr_dyn (l : Local) st := ptr_to_dyn_array (array_tables st) !! l.
Definition lookup_slice_dyn (l : Local) st := slice_dyn_values (array_tables st) !! l.
End tables.

(** The pattern [Operand::Copy(p) | Operand::Move(p)]. *)
Definition operand_place (op : Operand) : option Place :=
  match op with Copy p | Move p => Some p | _ => None end.

(** [if let Some(x) = e { return .. }], in order. *)
Definition or_else {A} (o o' : option A) : option A := match o with Some a => Some a | None => o' end.

(** Copying a whole local whose value is in a side table aliases the entry. *)
Definition copy_side_table (dest src : Local) (st : State) : option State :=
  or_else (option_map (λ elems, set_dyn_array dest elems st) (lookup_dyn_array src st))
  (or_else (option_map (λ arr, set_ptr_const dest arr st) (lookup_ptr_const src st))
  (or_else (option_map (λ arr, set_ptr_dyn dest arr st) (lookup_ptr_dyn src st))
  (or_else (option_map (λ vals, set_slice_dyn dest vals st) (lookup_slice_dyn src st))
  (or_else (option_map (λ shape, set_slice_shape dest shape st) (lookup_slice_shape src st))
           (option_map (λ fields, set_tuple dest fields st) (tuple_fields st !! src)))))).

(** The three insertions for a slice coerced from a reference to an array. *)
Definition slice_from_dyn (dest src : Local) (st : State) : State :=
  match lookup_ptr_dyn src st with
  | Some arr => match lookup_dyn_array arr st with Some vals => set_slice_dyn dest vals st | None => st end
  | None => st
  end.
Definition slice_from_const (dest src : Local) (st : State) : State :=
  match lookup_ptr_const src st with
  | Some arr => match lookup_const_array arr st with Some shape => set_slice_shape dest shape st | None => st end
  | None => st
  end.
Definition slice_from_shape (dest src : Local) (st : State) : State :=
  match lookup_slice_shape src st with Some shape => set_slice_shape dest shape st | None => st end.

(** [&arr] and [&raw const arr] *)
Definition ref_to_array (dest : Local) (src_place : Place) (st : State) : option State :=
  if no_projection src_place then
    let src := pl_local src_place in
    if bool_decide (is_Some (lookup_const_array src st)) then Some (set_ptr_const dest src st)
    else if bool_decide (is_Some (lookup_dyn_array src st)) then Some (set_ptr_dyn dest src st)
    else None
  else None.

(** The pointer and length of a slice: [slice_from_raw_parts]. *)
Definition tuple_of_pointer (dest : Local) (first_op : option Operand) (st : State) : option State :=
  op ← first_op;
  p ← operand_place op;
  or_else (arr ← lookup_ptr_const (pl_local p) st; shape ← lookup_const_array arr st;
           Some (set_slice_shape dest shape st))
          (arr ← lookup_ptr_dyn (pl_local p) st; vals ← lookup_dyn_array arr st;
           Some (set_slice_dyn dest vals st)).

(** An element of a constant array, by the size of the scalar. *)
Definition array_scalar (s : ScalarInt) : outcome Z :=
  match si_size s with
  | 1%Z => SI.to_u8 s
  | 2%Z => SI.to_i16 s
  | 4%Z => SI.to_i32 s
  | 8%Z => SI.to_i64 s
  | _ => Panic
  end.

(** [collect] into an option: stops at the first [None]. *)
Fixpoint collect_options {A B} (f : A → outcome (option B)) (l : list A) : outcome (option (list B)) :=
  match l with
  | [] => Ret (Some [])
  | a :: l' => obind (f a) (λ b, obind (collect_options f l') (λ bs, Ret (Some (b :: bs))))
  end.

(** Whether the printed type contains the name of the float type. *)
Fixpoint mentions_float (width : Z) (t : MlirTy) : bool :=
  match t with
  | MInt _ => false
  | MFloat w => Z.eqb w width
  | MTensor _ e | MUnrankedTensor e | MPointer e | MTensorDesc _ e => mentions_float width e
  | MTuple es => existsb (mentions_float width) es
  end.
Definition float_bits (t : MlirTy) : Z :=
  if mentions_float 16 t then 16 else if mentions_float 32 t then 32
  else if mentions_float 64 t then 64 else 128.

Section assign.
Context (tcx : TyCtxt) (args : list GenericArg) (infer : ArithKind → MlirTy → MlirTy → MlirTy).
Context (fuel const_fuel : nat) (mir : Body).
Abbreviation map_ty ty := (cg_lift (map_type tcx fuel ty)).
Abbreviation operand := (codegen_operand tcx args fuel).
Abbreviation norm_ty := (operand_norm_ty tcx mir).

(** The operand at its own type. *)
Definition operand_at_ty (st : State) (op : Operand) : gen Value :=
  ty ← cg_lift (norm_ty op); operand st op ty.
(** A field of an aggregate: a place is read whatever its type. *)
Definition field_operand (st : State) (op : Operand) : gen Value :=
  match op with
  | Copy p | Move p => cg_lift (codegen_copy st p)
  | Constant _ | RuntimeChecks => operand_at_ty st op
  end.

(** ** Casts *)
Definition float_to_float (src_val : Value) (dest_ty : MlirTy) : gen Value :=
  if bool_decide (v_ty src_val = dest_ty) then mret src_val
  else if Z.ltb (float_bits dest_ty) (float_bits (v_ty src_val)) then emit truncf [src_val] dest_ty
  else emit extf [src_val] dest_ty.

Definition codegen_cast (st : State) (cast_kind : CastKind) (op : Operand) (ty : Ty) : gen Value :=
  let normalized_ty := normalize tcx ty in
  match cast_kind with
  | PointerWithExposedProvenance | PtrToPtr | IntToInt => operand st op normalized_ty
  | IntToFloat =>
      src_val ← operand st op normalized_ty; dest_ty ← map_ty normalized_ty; emit sitofp [src_val] dest_ty
  | FloatToInt =>
      src_val ← operand st op normalized_ty; dest_ty ← map_ty normalized_ty; emit fptosi [src_val] dest_ty
  | FloatToFloat =>
      src_val ← operand st op normalized_ty; dest_ty ← map_ty normalized_ty; float_to_float src_val dest_ty
  | PointerCoercion Unsize => mlir_ty ← map_ty normalized_ty; emit ub_poison [] mlir_ty
  | _ => err CodegenFailed
  end.

(** The side-table entries a cast makes before its value: it may be done, or
    go on to [codegen_cast] in a new state. *)
Definition cast_tables (dest : Local) (cast_kind : CastKind) (op : Operand) (st : State) : outcome (State + State) :=
  match cast_kind with
  | PtrToPtr =>
      Ret match p ← operand_place op; lookup_ptr_const (pl_local p) st with
          | Some arr => inl (set_ptr_const dest arr st)
          | None => inr st
          end
  | Transmute =>
      Ret match p ← operand_place op; lookup_slice_shape (pl_local p) st with
          | Some shape => inl (set_slice_shape dest shape st)
          | None => inr st
          end
  | PointerCoercion Unsize =>
      match op with
      | Constant c =>
          shape ← try_read_array_ref_const tcx (normalize tcx (ty_of_const c)) c;
          Ret (inr match shape with Some shape => set_slice_shape dest shape st | None => st end)
      | Copy p | Move p =>
          Ret (inr (if no_projection p then
                      slice_from_shape dest (pl_local p) (slice_from_const dest (pl_local p)
                        (slice_from_dyn dest (pl_local p) st))
                    else st))
      | RuntimeChecks => Ret (inr st)
      end
  | _ => Ret (inr st)
  end.

Definition assign_cast (dest : Local) (cast_kind : CastKind) (op : Operand) (ty : Ty) (st : State) : gen State :=
  r ← cg_lift (cast_tables dest cast_kind op st);
  match r with
  | inl st' => mret st'
  | inr st' => result ← codegen_cast st' cast_kind op ty; mret (set_ssa dest result st')
  end.

(** ** Copies *)
Definition tuple_operand (st : State) (op : Operand) (elem_tys : list Ty) : gen (list Value) :=
  match op with
  | Copy src | Move src => cg_lift (unwrap (tuple_fields st !! pl_local src))
  | Constant c => codegen_tuple_constant tcx c elem_tys
  | RuntimeChecks => todo
  end.

Definition assign_use (dest : Local) (op : Operand) (st : State) : gen State :=
  normalized_ty ← cg_lift (norm_ty op);
  if is_option tcx normalized_ty then
    opt_value ← cg_lift (option_entry st op); mret (set_option dest opt_value st)
  else match normalized_ty with
  | TyTuple elem_tys => fields ← tuple_operand st op elem_tys; mret (set_tuple dest fields st)
  | _ =>
      match src ← operand_as_local op; copy_side_table dest src st with
      | Some st' => mret st'
      | None =>
          st' ← (match op with
                 | Constant c =>
                     shape ← cg_lift (try_read_array_ref_const tcx (normalize tcx (ty_of_const c)) c);
                     mret match shape with Some shape => set_slice_shape dest shape st | None => st end
                 | _ => mret st
                 end : gen State);
          result ← operand st' op normalized_ty;
          mret (set_ssa dest result st')
      end
  end.

(** ** Aggregates *)
Definition array_elem (op : Operand) : outcome (option Z) :=
  r ← to_scalar_int args op;
  match r with
  | inr s => v ← array_scalar s; Ret (Some v)
  | inl _ => fold_operand_as_i32 args mir const_fuel op
  end.

Definition is_triton_adt (def : DefId) : bool :=
  String.eqb (adt_debug tcx def) "triton::llvm::triton::tensor::LlvmTensor" ||
  String.eqb (adt_debug tcx def) "triton::llvm::triton::pointer::LlvmPointer".

Definition codegen_create_tensor (fields : list Operand) : gen (option Value) :=
  arg1 ← cg_lift (unwrap (fields !! 0));
  arg1_ty ← cg_lift (norm_ty arg1);
  match arg1_ty with
  | TyRawPtr pointee =>
      pointee_ty ← map_ty pointee;
      v ← emit ub_poison [] (tensor_type [DYNAMIC] pointee_ty); mret (Some v)
  | _ => todo
  end.
Definition codegen_create_pointer (st : State) (fields : list Operand) : gen (option Value) :=
  arg1 ← cg_lift (unwrap (fields !! 0));
  v ← operand_at_ty st arg1; mret (Some v).

Definition codegen_aggregate_create (st : State) (k : AggregateKind) (fields : list Operand) : gen (option Value) :=
  match k with
  | AggAdt def _ =>
      if String.eqb (adt_debug tcx def) "triton::llvm::triton::tensor::LlvmTensor" then codegen_create_tensor fields
      else if String.eqb (adt_debug tcx def) "triton::llvm::triton::pointer::LlvmPointer" then codegen_create_pointer st fields
      else todo
  | _ => todo
  end.

Definition codegen_option_aggregate (dest : Local) (variant_index : VariantIdx) (fields : list Operand) (st : State) : gen State :=
  if variant_index =? 0 then mret (set_option dest None st)
  else
    inner_op ← cg_lift (unwrap (fields !! 0));
    inner_value ← operand_at_ty st inner_op;
    mret (set_option dest (Some inner_value) st).

Definition assign_tuple (dest : Local) (fields : list Operand) (st : State) : gen State :=
  match tuple_of_pointer dest (head fields) st with
  | Some st' => mret st'
  | None =>
      vs ← cg_map (λ op, match op with Copy p | Move p => cg_lift (codegen_copy st p) | _ => todo end) fields;
      mret (set_tuple dest vs st)
  end.

Definition assign_array (dest : Local) (fields : list Operand) (st : State) : gen State :=
  elems ← cg_lift (collect_options array_elem fields);
  match elems with
  | Some elems => mret (set_const_array dest elems st)
  | None => dyn_elems ← cg_map (field_operand st) fields; mret (set_dyn_array dest dyn_elems st)
  end.

Definition assign_aggregate (place : Place) (k : AggregateKind) (fields : list Operand) (st : State) : gen State :=
  let dest := pl_local place in
  let create :=
    result ← codegen_aggregate_create st k fields;
    mret (match result with Some v => set_ssa dest v st | None => st end) in
  match k with
  | AggAdt def variant_index =>
      t ← cg_lift (place_ty (boxed_ty tcx) mir place);
      if is_option tcx (normalize tcx (pt_ty t)) then codegen_option_aggregate dest variant_index fields st
      else if negb (is_triton_adt def) then
        vs ← cg_map (field_operand st) fields; mret (set_tuple dest vs st)
      else create
  | AggTuple => assign_tuple dest fields st
  | AggArray _ => assign_array dest fields st
  | _ => create
  end.

(** ** Arithmetic *)
(** The arithmetic of [TritonArith] on the two tables it writes. *)
Definition with_arith (arith : ArithState → gen ArithState) (st : State) : gen State :=
  r ← arith (mkArithState (ssa_values st) (tuple_fields st));
  mret (with_tuple (with_ssa st (TritonArith.ssa_values r)) (TritonArith.tuple_fields r)).

(** ** [codegen_assign] *)
Definition codegen_assign (place : Place) (rvalue : Rvalue) (st : State) : gen State :=
  let dest := pl_local place in
  match rvalue with
  | Use op => assign_use dest op st
  | Cast cast_kind op ty => assign_cast dest cast_kind op ty st
  | Aggregate k fields => assign_aggregate place k fields st
  | RvRef _ src_place | RvRawPtr _ src_place =>
      match ref_to_array dest src_place st with Some st' => mret st' | None => todo end
  | BinaryOp op l r => with_arith (codegen_binary_rvalue infer norm_ty (operand st) place op (l, r)) st
  | UnaryOp op v => with_arith (codegen_unary_rvalue infer norm_ty (operand st) place op v) st
  | Discriminant src_place =>
      t ← cg_lift (place_ty (boxed_ty tcx) mir src_place);
      if is_option tcx (normalize tcx (pt_ty t)) then
        opt ← cg_lift (unwrap (option_table st !! pl_local src_place));
        result ← create_int_constant (II8 (match opt with None => 0 | Some _ => 1 end));
        mret (set_ssa dest result st)
      else todo
  | Repeat _ _ | ThreadLocalRef _ | CopyForDeref _ | WrapUnsafeBinder _ _ | Reborrow _ _ _ => todo
  end.
End assign.
