(* ===== verification/TritonAssignSem.v ===== *)
(** * Straight-line code: the meaning of MIR and of the emitted operations

    The specification of [codegen_assign] on scalars.  On the side of MIR, an
    environment gives each local its bits, the components of a tuple of
    scalars, or the payload of an [Option] of a scalar; rvalues mean what the
    interpreter makes of them ([IntOps]).  On the side of MLIR, an environment
    gives each value its bits, and operations mean what the [arith] dialect
    documents.  [represents] relates the two through the tables of the code
    generator. *)
From S2P Require Import Prelude Codegen Mir PlaceTypes ScalarInts IntOps TritonArith TritonArithFacts TritonConstThms TritonPhi TritonTypes TritonEmit TritonOperand TritonAssign.
#[local] Open Scope Z_scope.

#[export] Instance FloatTy_eq_dec : EqDecision FloatTy.
Proof. solve_decision. Defined.
#[export] Instance Ty_eq_dec : EqDecision Ty.
Proof.
  unfold EqDecision, Decision. fix IH 1. intros [] []; try (right; discriminate); try (by left).
  - destruct (decide (t = t0)) as [->|]; [by left|right; congruence].
  - destruct (decide (t = t0)) as [->|]; [by left|right; congruence].
  - destruct (decide (t = t0)) as [->|]; [by left|right; congruence].
  - destruct (decide (def = def0)) as [->|]; [|right; congruence].
    destruct (@list_eq_dec _ IH args args0) as [->|]; [by left|right; congruence].
  - destruct (IH elem elem0) as [->|]; [|right; congruence].
    destruct (decide (len = len0)) as [->|]; [by left|right; congruence].
  - destruct (IH t t0) as [->|]; [by left|right; congruence].
  - destruct (IH elem elem0) as [->|]; [by left|right; congruence].
  - destruct (IH t t0) as [->|]; [by left|right; congruence].
  - destruct (IH t t0) as [->|]; [by left|right; congruence].
  - destruct (decide (def = def0)) as [->|]; [by left|right; congruence].
  - destruct (@list_eq_dec _ IH tys tys0) as [->|]; [by left|right; congruence].
  - destruct (decide (id = id0)) as [->|]; [by left|right; congruence].
  - destruct (decide (is_int_var = is_int_var0)) as [->|]; [by left|right; congruence].
Defined.

(** ** Values of MIR *)
Inductive MVal :=
  | VInt (z : Z)
  | VTup (zs : list Z)
  | VOpt (o : option Z).
Abbreviation Env := (gmap Local MVal).

(** Scalars are integers and booleans; a pointer-sized integer has 64 bits. *)
Definition scalar_width (ty : Ty) : option Z :=
  match num_ty ty with
  | Some t => Some (Size.bits (num_size 8 t))
  | None => match ty with TyBool => Some 1 | _ => None end
  end.

Section sem.
Context (tcx : TyCtxt) (args : list GenericArg) (mir : Body).
Implicit Types (env : Env) (op : Operand) (p : Place) (l : Local).

Definition local_nty l : option Ty := normalize tcx <$> local_decls mir !! l.
Definition operand_nty op : option Ty :=
  match operand_norm_ty tcx mir op with Ret t => Some t | _ => None end.
Definition operand_num op : option NumTy := operand_nty op ≫= num_ty.

(** ** Evaluation *)
Definition read_place env p : option MVal :=
  v ← env !! pl_local p;
  match pl_projection p, v with
  | [], _ => Some v
  | [Field i _], VTup zs => VInt <$> zs !! i
  | [Downcast _; Field O _], VOpt (Some z) => Some (VInt z)
  | _, _ => None
  end.

(** The bits of a well-formed scalar constant. *)
Definition scalar_bits (ty : Ty) (s : ScalarInt) : option Z :=
  match num_ty ty, ty with
  | Some t, _ => if (si_size s =? num_size 8 t) && (0 <=? si_data s) && (si_data s <? 2 ^ Size.bits (num_size 8 t))
                 then Some (si_data s) else None
  | None, TyBool => if (si_size s =? 1) && (0 <=? si_data s) && (si_data s <? 2) then Some (si_data s) else None
  | None, _ => None
  end.
Definition const_value (c : Const) : option Z :=
  match c with
  | ConstVal (CvScalar (ScalarInt_ s)) ty => scalar_bits ty s
  | ConstTy ty (CkParam i) =>
      match args !! i with
      | Some (ArgConst (CkValue (ty', Leaf s))) => if bool_decide (ty' = ty) then scalar_bits ty s else None
      | _ => None
      end
  | _ => None
  end.

Definition eval_operand env op : option MVal :=
  match op with
  | Copy p | Move p => read_place env p
  | Constant c => VInt <$> const_value c
  | RuntimeChecks => None
  end.
Definition eval_int env op : option Z :=
  match eval_operand env op with Some (VInt z) => Some z | _ => None end.
Definition eval_imm env op : option ImmTy :=
  t ← operand_num op; z ← eval_int env op; Some (mkImm (mkScalarInt z (num_size 8 t)) t).

Definition result_value (r : ImmResult) : option MVal :=
  match r with
  | ResInt s _ => Some (VInt (si_data s))
  | ResBool b => Some (VInt (Z.b2z b))
  | ResPair s _ b => Some (VTup [si_data s; Z.b2z b])
  | ResOrdering _ => None
  end.
Definition interp_value (r : InterpResult) : option MVal :=
  match r with Ret (inr res) => result_value res | _ => None end.

(** Integer conversion: extended by the sign of the source, truncated to the
    target. *)
Definition int_to_int (t t' : NumTy) (z : Z) : Z :=
  as_u (Size.bits (num_size 8 t')) (if is_signed t then as_i (Size.bits (num_size 8 t)) z else z).

Definition eval_rvalue env (rv : Rvalue) : option MVal :=
  match rv with
  | Use op => eval_operand env op
  | BinaryOp op l r => x ← eval_imm env l; y ← eval_imm env r; interp_value (binary_int_op 8 op x y)
  | UnaryOp op v => x ← eval_imm env v; interp_value (unary_int_op 8 op x)
  | Cast IntToInt op ty =>
      t ← operand_num op; t' ← num_ty (normalize tcx ty); z ← eval_int env op; Some (VInt (int_to_int t t' z))
  | Aggregate AggTuple fields => VTup <$> mapM (eval_int env) fields
  | Aggregate (AggAdt def v) fields =>
      if Nat.eqb v 0 then Some (VOpt None) else f ← head fields; VOpt ∘ Some <$> eval_int env f
  | _ => None
  end.

Definition eval_assign env (s : Place * Rvalue) : option Env :=
  v ← eval_rvalue env s.2; Some (<[pl_local s.1 := v]> env).
Definition eval_assigns env (l : list (Place * Rvalue)) : option Env :=
  foldl (λ e s, e ≫= λ env, eval_assign env s) (Some env) l.

(** ** Well-typed assignments

    The type of a right-hand side; an aggregate of an enum is an [Option] of the
    destination's type. *)
Definition result_ty (op : BinOp) (t : Ty) : Ty :=
  if is_overflowing op then TyTuple [t; TyBool]
  else match op with BEq | BNe | BLt | BLe | BGt | BGe => TyBool | _ => t end.
Definition option_payload (ty : Ty) : option Ty :=
  match ty with TyAdt _ [t] => if is_option tcx ty then Some t else None | _ => None end.
Definition rvalue_ok (rv : Rvalue) (dest_ty : Ty) : bool :=
  match rv with
  | Use op => bool_decide (operand_nty op = Some dest_ty)
  | BinaryOp op l r =>
      match operand_nty l with Some t => bool_decide (operand_nty r = Some t ∧ dest_ty = result_ty op t) | None => false end
  | UnaryOp _ v => bool_decide (operand_nty v = Some dest_ty)
  | Cast _ _ ty => bool_decide (normalize tcx ty = dest_ty)
  | Aggregate AggTuple fields => bool_decide (TyTuple <$> mapM operand_nty fields = Some dest_ty)
  | Aggregate (AggAdt _ v) fields =>
      match option_payload dest_ty with
      | Some t => (Nat.eqb v 0) || bool_decide (head fields ≫= operand_nty = Some t)
      | None => false
      end
  | _ => false
  end.

(** A place is a local, a field of a tuple or the payload of an [Option], and the
    types in its projections are those of the local. *)
Definition place_ok p : bool :=
  match pl_projection p, local_nty (pl_local p) with
  | [], Some _ => true
  | [Field i t], Some (TyTuple ts) => bool_decide (ts !! i = Some (normalize tcx t))
  | [Downcast _; Field O t], Some ty => bool_decide (option_payload ty = Some (normalize tcx t))
  | _, _ => false
  end.
Definition operand_ok op : bool :=
  match op with Copy p | Move p => place_ok p | Constant _ => true | RuntimeChecks => false end.
Definition operands_of (rv : Rvalue) : list Operand :=
  match rv with
  | Use op | UnaryOp _ op | Cast _ op _ => [op]
  | BinaryOp _ l r => [l; r]
  | Aggregate _ fields => fields
  | _ => []
  end.
Definition typed_assign (s : Place * Rvalue) : bool :=
  no_projection s.1 && forallb operand_ok (operands_of s.2) &&
  match local_nty (pl_local s.1) with Some t => rvalue_ok s.2 t | None => false end.

(** ** What the backend compiles as MIR means it

    Left out, and shown to go wrong elsewhere: order and division of unsigned
    integers, shifts by the width or more, overflowing checked arithmetic,
    negation of other integers than [i32], conversion to another width.  A tuple
    is made of places. *)
Definition checked_value (v : option MVal) : bool :=
  match v with Some (VTup [_; flag]) => flag =? 0 | _ => true end.
Definition compiled_op env (op : BinOp) (l r : Operand) : bool :=
  match operand_num l with
  | Some t =>
      let plain := default op (plain_op op) in
      bool_decide (is_Some (emitted_kind plain (is_signed t))) &&
      (is_signed t || negb (sign_sensitive plain)) &&
      (negb (is_shift op) || match eval_int env r with Some y => y <? Size.bits (num_size 8 t) | None => false end) &&
      checked_value (eval_rvalue env (BinaryOp op l r))
  | None => false
  end.
Definition compiled env (rv : Rvalue) : bool :=
  match rv with
  | Use _ => true
  | BinaryOp op l r => compiled_op env op l r
  | UnaryOp Neg v => bool_decide (operand_num v = Some (SInt I32))
  | Cast IntToInt op ty =>
      bool_decide (scalar_width (normalize tcx ty) = operand_nty op ≫= scalar_width)
  | Aggregate AggTuple fields => forallb (λ op, bool_decide (is_Some (operand_place op))) fields
  | Aggregate (AggAdt _ _) _ => true
  | _ => false
  end.
Fixpoint compiled_all env (l : list (Place * Rvalue)) : bool :=
  match l with
  | [] => true
  | s :: l' => typed_assign s && compiled env s.2 &&
               match eval_assign env s with Some env' => compiled_all env' l' | None => false end
  end.
End sem.

(** ** Emitted operations *)
Abbreviation MEnv := (nat → option Z).
Section exec.
Context (eval : arith_eval).

Definition op_value (ρ : MEnv) (o : ArithOp) : option Z :=
  match ao_kind o, ao_args o, v_ty (ao_result o) with
  | constant n, [], MInt w => Some (as_u w n)
  | _, _, _ => eval_op eval ρ o
  end.
Definition exec_op (ρ : MEnv) (o : ArithOp) : option MEnv :=
  z ← op_value ρ o; Some (λ i, if Nat.eqb i (v_id (ao_result o)) then Some z else ρ i).
Fixpoint exec_ops (ρ : MEnv) (ops : list ArithOp) : option MEnv :=
  match ops with [] => Some ρ | o :: ops' => ρ' ← exec_op ρ o; exec_ops ρ' ops' end.
End exec.

(** ** Representation *)
(** The value has the bits [z] of a scalar of type [ty]; [n] values exist. *)
Definition holds (ρ : MEnv) (n : nat) (ty : Ty) (z : Z) (v : Value) : Prop :=
  ∃ w, scalar_width ty = Some w ∧ v_ty v = MInt w ∧ ρ (v_id v) = Some z ∧ 0 ≤ z < 2 ^ w ∧ (v_id v < n)%nat.

Section represents.
Context (tcx : TyCtxt) (mir : Body).

Definition tuple_holds (ρ : MEnv) (n : nat) (tys : list Ty) (zs : list Z) (vs : list Value) : Prop :=
  Forall2 (λ tz v, holds ρ n tz.1 tz.2 v) (zip tys zs) vs ∧ length tys = length zs.

Definition local_holds (ρ : MEnv) (n : nat) (st : State) (l : Local) (v : MVal) : Prop :=
  match v, local_nty tcx mir l with
  | VInt z, Some ty => ∃ val, ssa_values st !! l = Some val ∧ holds ρ n ty z val
  | VTup zs, Some (TyTuple tys) => ∃ vs, tuple_fields st !! l = Some vs ∧ tuple_holds ρ n tys zs vs
  | VOpt o, Some ty => ∃ t ov, option_payload tcx ty = Some t ∧ option_table st !! l = Some ov ∧
      match o, ov with None, None => True | Some z, Some val => holds ρ n t z val | _, _ => False end
  | _, _ => False
  end.

Definition is_pointer (ty : Ty) : bool := match ty with TyRef _ | TyRawPtr _ => true | _ => false end.

(** The tables only track locals of the types they are for. *)
Record tables_typed (st : State) : Prop := {
  tt_option l t : local_nty tcx mir l = Some t → is_option tcx t = false → option_table st !! l = None;
  tt_tuple l t w : local_nty tcx mir l = Some t → scalar_width t = Some w → tuple_fields st !! l = None;
  tt_pointer l t : local_nty tcx mir l = Some t → is_pointer t = false →
    lookup_ptr_const l st = None ∧ lookup_ptr_dyn l st = None;
  tt_arrays l t w : local_nty tcx mir l = Some t → scalar_width t = Some w →
    lookup_dyn_array l st = None ∧ lookup_slice_dyn l st = None ∧ lookup_slice_shape l st = None }.

Record represents (env : Env) (st : State) (ρ : MEnv) (n : nat) : Prop := {
  rp_tables : tables_typed st;
  rp_local l v : env !! l = Some v → local_holds ρ n st l v }.
End represents.
