(* ===== verification/TritonAssignFacts.v ===== *)
(** * Straight-line code: operands and the rules of the simulation

    [means] is the judgement of the simulation: a code-generation step succeeds,
    and what it appends, executed, establishes a postcondition on the values
    and keeps the values that exist. *)
From S2P Require Import Prelude Codegen Mir PlaceTypes ScalarInts IntOps TritonArith TritonArithFacts TritonArithThms TritonConstThms TritonPhi TritonTypes TritonEmit TritonOperand TritonAssign TritonAssignSem.
#[local] Open Scope Z_scope.

Section means.
Context (eval : arith_eval).
Implicit Types (ρ : MEnv) (n : nat).

Definition extends n ρ ρ' : Prop := ∀ i, (i < n)%nat → ρ' i = ρ i.

Definition means ρ n {A} (c : gen A) (Q : MEnv → nat → A → Prop) : Prop := ∀ blk, next_value blk = n →
  ∃ a blk' ops ρ', c blk = Ret (inr (a, blk')) ∧ mb_ops blk' = mb_ops blk ++ ops ∧
    exec_ops eval ρ ops = Some ρ' ∧ (n ≤ next_value blk')%nat ∧ extends n ρ ρ' ∧ Q ρ' (next_value blk') a.

Lemma exec_ops_app ρ l1 l2 : exec_ops eval ρ (l1 ++ l2) = ρ' ← exec_ops eval ρ l1; exec_ops eval ρ' l2.
Proof. revert ρ. induction l1 as [|o l1 IH]; intros ρ; [done|]. simpl. destruct (exec_op eval ρ o); simpl; [apply IH|done]. Qed.

Lemma means_ret {A} ρ n (a : A) (Q : MEnv → nat → A → Prop) : Q ρ n a → means ρ n (mret a) Q.
Proof. intros HQ blk <-. exists a, blk, [], ρ. rewrite app_nil_r. by split_and!. Qed.

Lemma means_lift {A} ρ n (o : outcome A) a (Q : MEnv → nat → A → Prop) : o = Ret a → Q ρ n a → means ρ n (cg_lift o) Q.
Proof. intros -> HQ blk <-. exists a, blk, [], ρ. rewrite app_nil_r. by split_and!. Qed.

Lemma means_bind {A B} ρ n (c : gen A) (f : A → gen B) P (Q : MEnv → nat → B → Prop) :
  means ρ n c P →
  (∀ a ρ' n', P ρ' n' a → (n ≤ n')%nat → extends n ρ ρ' → means ρ' n' (f a) Q) → means ρ n (c ≫= f) Q.
Proof.
  intros Hc Hf blk Hn. destruct (Hc blk Hn) as (a & b1 & o1 & ρ1 & E1 & M1 & X1 & L1 & K1 & P1).
  destruct (Hf a ρ1 _ P1 L1 K1 b1 eq_refl) as (b & b2 & o2 & ρ2 & E2 & M2 & X2 & L2 & K2 & P2).
  exists b, b2, (o1 ++ o2), ρ2. unfold mbind, cg_bind. rewrite E1. cbn [mbind outcome_bind]. split_and!; [done| | | | |done].
  - by rewrite M2, M1, app_assoc.
  - by rewrite exec_ops_app, X1.
  - lia.
  - intros i Hi. rewrite K2 by lia. by apply K1.
Qed.

Lemma means_lift_bind {A B} ρ n (o : outcome A) a (f : A → gen B) Q :
  o = Ret a → means ρ n (f a) Q → means ρ n (cg_lift o ≫= f) Q.
Proof.
  intros Ho Hf. apply (means_bind _ _ _ _ (λ ρ' n' x, x = a ∧ ρ' = ρ ∧ n' = n)); [by eapply means_lift|].
  by intros ? ? ? (-> & -> & ->) _ _.
Qed.

Lemma means_ret_bind {A B} ρ n (a : A) (f : A → gen B) Q : means ρ n (f a) Q → means ρ n (mret a ≫= f) Q.
Proof. intros H. by apply (means_lift_bind _ _ (Ret a) a). Qed.

Lemma means_mono {A} ρ n (c : gen A) P (Q : MEnv → nat → A → Prop) :
  means ρ n c P → (∀ ρ' n' a, extends n ρ ρ' → (n ≤ n')%nat → P ρ' n' a → Q ρ' n' a) → means ρ n c Q.
Proof.
  intros Hc HPQ blk Hn. destruct (Hc blk Hn) as (a & b1 & o1 & ρ1 & E1 & M1 & X1 & L1 & K1 & P1).
  exists a, b1, o1, ρ1. split_and!; try done. by apply HPQ.
Qed.

(** One operation. *)
Lemma means_emit ρ n kind args ty z (Q : MEnv → nat → Value → Prop) :
  op_value eval ρ (mkArithOp (mkValue n ty) kind args) = Some z →
  (∀ ρ', ρ' n = Some z → extends n ρ ρ' → Q ρ' (S n) (mkValue n ty)) → means ρ n (emit kind args ty) Q.
Proof.
  intros Hz HQ blk <-. eexists _, _, [_], _. split_and!; [reflexivity..| | | |].
  - cbn [exec_ops]. unfold exec_op. rewrite Hz. reflexivity.
  - simpl. lia.
  - intros i Hi. simpl. by rewrite (proj2 (Nat.eqb_neq _ _)) by lia.
  - apply HQ; [simpl; by rewrite Nat.eqb_refl|]. intros i Hi. simpl. by rewrite (proj2 (Nat.eqb_neq _ _)) by lia.
Qed.
End means.

(** ** Values persist *)
Lemma holds_extends ρ ρ' n n' ty z v :
  holds ρ n ty z v → (n ≤ n')%nat → extends n ρ ρ' → holds ρ' n' ty z v.
Proof. intros (w & ? & ? & ? & ? & ?) Hn Hx. exists w. split_and!; try done; [by rewrite Hx|lia..]. Qed.

Lemma scalar_width_pos ty w : scalar_width ty = Some w → 1 ≤ w.
Proof. unfold scalar_width. destruct ty as [| |[]|[]| | | | | | | | | | | | | | | | | | | | | | | | |]; simpl; intros ?; by simplify_eq. Qed.

Section represents.
Context (tcx : TyCtxt) (mir : Body).
Implicit Types (env : Env) (st : State) (ρ : MEnv) (n : nat).
Abbreviation nty := (local_nty tcx mir).

Lemma local_holds_extends ρ ρ' n n' st l v :
  local_holds tcx mir ρ n st l v → (n ≤ n')%nat → extends n ρ ρ' → local_holds tcx mir ρ' n' st l v.
Proof.
  intros H Hn Hx. unfold local_holds in *. destruct v as [z|zs|o], (local_nty tcx mir l) as [ty|]; try done.
  - destruct H as (val & ? & ?). exists val. split; [done|]. by eapply holds_extends.
  - destruct ty; try done. destruct H as (vs & ? & H & ?). exists vs. split; [done|]. split; [|done].
    eapply Forall2_impl; [exact H|]. intros x y Hxy. exact (holds_extends _ _ _ _ _ _ _ Hxy Hn Hx).
  - destruct H as (t & ov & ? & ? & H). exists t, ov. split_and!; [done..|].
    destruct o, ov; try done. by eapply holds_extends.
Qed.

Lemma represents_extends env st ρ ρ' n n' :
  represents tcx mir env st ρ n → (n ≤ n')%nat → extends n ρ ρ' → represents tcx mir env st ρ' n'.
Proof. intros [Ht Hl] Hn Hx. split; [done|]. intros l v Hv. eapply local_holds_extends; [by apply Hl|done..]. Qed.

Lemma scalar_not_option ty w : scalar_width ty = Some w → is_option tcx ty = false.
Proof. by destruct ty. Qed.
Lemma payload_is_option ty t : option_payload tcx ty = Some t → is_option tcx ty = true.
Proof. unfold option_payload. destruct ty; try done. destruct args as [|? []]; try done. by destruct (is_option tcx _). Qed.

Lemma represents_set_ssa env st ρ n l ty z v : represents tcx mir env st ρ n →
  nty l = Some ty → holds ρ n ty z v → represents tcx mir (<[l := VInt z]> env) (set_ssa l v st) ρ n.
Proof.
  intros [[T1 T2 T3 T4] Hl] Hty Hv. split; [split; [exact T1|exact T2|exact T3|exact T4]|]. intros l' v'.
  destruct (decide (l' = l)) as [->|Hne].
  - rewrite lookup_insert_eq. intros [= <-]. unfold local_holds. rewrite Hty. exists v. simpl. by rewrite lookup_insert_eq.
  - rewrite lookup_insert_ne by done. intros Hv'%Hl. unfold local_holds in *. simpl. by rewrite lookup_insert_ne.
Qed.

Lemma represents_set_tuple env st ρ n l tys zs vs : represents tcx mir env st ρ n →
  nty l = Some (TyTuple tys) → tuple_holds ρ n tys zs vs →
  represents tcx mir (<[l := VTup zs]> env) (set_tuple l vs st) ρ n.
Proof.
  intros [[T1 T2 T3 T4] Hl] Hty Hv. split; [split; [exact T1| |exact T3|exact T4]|].
  - intros l' t w Ht Hw. simpl. rewrite lookup_insert_ne; [by eapply T2|]. intros ->. rewrite Hty in Ht. by simplify_eq.
  - intros l' v'. destruct (decide (l' = l)) as [->|Hne].
    + rewrite lookup_insert_eq. intros [= <-]. unfold local_holds. rewrite Hty. exists vs. simpl. by rewrite lookup_insert_eq.
    + rewrite lookup_insert_ne by done. intros Hv'%Hl. unfold local_holds in *. simpl. by rewrite lookup_insert_ne.
Qed.

Lemma represents_set_option env st ρ n l ty t o ov : represents tcx mir env st ρ n →
  nty l = Some ty → option_payload tcx ty = Some t →
  match o, ov with None, None => True | Some z, Some val => holds ρ n t z val | _, _ => False end →
  represents tcx mir (<[l := VOpt o]> env) (set_option l ov st) ρ n.
Proof.
  intros [[T1 T2 T3 T4] Hl] Hty Hp Hv. split; [split; [|exact T2|exact T3|exact T4]|].
  - intros l' t' Ht Ho. simpl. rewrite lookup_insert_ne; [by eapply T1|]. intros ->.
    apply payload_is_option in Hp. congruence.
  - intros l' v'. destruct (decide (l' = l)) as [->|Hne].
    + rewrite lookup_insert_eq. intros [= <-]. unfold local_holds. rewrite Hty. exists t, ov. simpl. by rewrite lookup_insert_eq.
    + rewrite lookup_insert_ne by done. intros Hv'%Hl. unfold local_holds in *. simpl. by rewrite lookup_insert_ne.
Qed.
End represents.

(** ** Constants *)
Section reads.
Implicit Types s : ScalarInt.
Lemma to_bits_read s k : si_size s = k → size_ok k → 0 ≤ si_data s < 2 ^ Size.bits k → SI.to_bits s k = Ret (si_data s).
Proof. intros <- Hs Hd. apply to_bits_ok. by split. Qed.
Lemma to_u8_ok s : si_size s = 1 → 0 ≤ si_data s < 2 ^ 8 → SI.to_u8 s = Ret (si_data s).
Proof. intros H Hd. unfold SI.to_u8. rewrite (to_bits_read s 1 H ltac:(unfold size_ok; lia) Hd). simpl. by rewrite (proj2 (Z.ltb_lt _ _)) by lia. Qed.
Lemma to_u16_ok s : si_size s = 2 → 0 ≤ si_data s < 2 ^ 16 → SI.to_u16 s = Ret (si_data s).
Proof. intros H Hd. unfold SI.to_u16. rewrite (to_bits_read s 2 H ltac:(unfold size_ok; lia) Hd). simpl. by rewrite (proj2 (Z.ltb_lt _ _)) by lia. Qed.
Lemma to_u32_ok s : si_size s = 4 → 0 ≤ si_data s < 2 ^ 32 → SI.to_u32 s = Ret (si_data s).
Proof. intros H Hd. unfold SI.to_u32. rewrite (to_bits_read s 4 H ltac:(unfold size_ok; lia) Hd). simpl. by rewrite (proj2 (Z.ltb_lt _ _)) by lia. Qed.
Lemma to_u64_ok s : si_size s = 8 → 0 ≤ si_data s < 2 ^ 64 → SI.to_u64 s = Ret (si_data s).
Proof. intros H Hd. unfold SI.to_u64. rewrite (to_bits_read s 8 H ltac:(unfold size_ok; lia) Hd). simpl. by rewrite (proj2 (Z.ltb_lt _ _)) by lia. Qed.
Lemma to_u128_ok s : si_size s = 16 → 0 ≤ si_data s < 2 ^ 128 → SI.to_u128 s = Ret (si_data s).
Proof. intros H Hd. exact (to_bits_read s 16 H ltac:(unfold size_ok; lia) Hd). Qed.
End reads.

(** A well-formed scalar constant becomes an [Int] of its width with its bits. *)
Lemma from_scalar_ok ty s z : scalar_bits ty s = Some z → ∃ i w,
  from_scalar ty s = Ret (Some i) ∧ scalar_width ty = Some w ∧ int_ty i = MInt w ∧ int_attr i = z ∧ 0 ≤ z < 2 ^ w.
Proof.
  unfold scalar_bits, scalar_width. destruct ty as [| |t|t| | | | | | | | | | | | | | | | | | | | | | | | |]; simpl; try done.
  - destruct (_ && _) eqn:E; [|done]. intros [= <-]. rewrite !andb_true_iff, Z.eqb_eq, Z.leb_le, Z.ltb_lt in E.
    destruct E as [[Hs H0] H1]. rewrite to_u8_ok by lia. simpl. eexists _, _. split_and!; try done.
    assert (si_data s = 0 ∨ si_data s = 1) as [->| ->] by lia; done.
  - destruct (_ && _) eqn:E; [|done]. intros [= <-]. rewrite !andb_true_iff, Z.eqb_eq, Z.leb_le, Z.ltb_lt in E.
    destruct E as [[Hs H0] H1]. destruct t; simpl in *;
      rewrite ?to_u8_ok, ?to_u16_ok, ?to_u32_ok, ?to_u64_ok, ?to_u128_ok by done; simpl; by eexists _, _.
  - destruct (_ && _) eqn:E; [|done]. intros [= <-]. rewrite !andb_true_iff, Z.eqb_eq, Z.leb_le, Z.ltb_lt in E.
    destruct E as [[Hs H0] H1]. destruct t; simpl in *;
      rewrite ?to_u8_ok, ?to_u16_ok, ?to_u32_ok, ?to_u64_ok, ?to_u128_ok by done; simpl; by eexists _, _.
Qed.

(** ** The simulation, one right-hand side at a time *)
Section sim.
Context (tcx : TyCtxt) (args : list GenericArg) (fuel : nat) (mir : Body) (eval : arith_eval).
Context (Hdoc : arith_doc eval) (Hnorm : ∀ t, is_Some (scalar_width t) → normalize tcx t = t).
Implicit Types (env : Env) (st : State) (ρ : MEnv) (n : nat) (op : Operand) (p : Place).
Abbreviation nty := (local_nty tcx mir).
Abbreviation opty := (operand_nty tcx mir).
Abbreviation rep := (represents tcx mir).
Abbreviation emitted := (means eval).

(** ** Types of places *)
Lemma operand_nty_place op p t : operand_place op = Some p → opty op = Some t →
  ∃ pty, place_ty (boxed_ty tcx) mir p = Ret pty ∧ t = normalize tcx (pt_ty pty).
Proof.
  unfold operand_nty, operand_norm_ty. intros Hp.
  assert (operand_ty (boxed_ty tcx) mir op = p ← place_ty (boxed_ty tcx) mir p; Ret (pt_ty p)) as ->
    by (by destruct op; simplify_eq/=).
  destruct (place_ty _ mir p) as [pty| |]; simpl; try done. intros [= <-]. by exists pty.
Qed.

Lemma operand_nty_local op p t : operand_place op = Some p → pl_projection p = [] → opty op = Some t →
  nty (pl_local p) = Some t.
Proof.
  intros Hp Hproj (pty & Hpty & ->)%(operand_nty_place _ p); [|done]. unfold local_nty.
  rewrite place_ty_local in Hpty by (unfold no_projection; by rewrite Hproj). unfold local_ty in Hpty.
  destruct (local_decls mir !! pl_local p); simpl in Hpty; [|done]. by injection Hpty as <-.
Qed.

Lemma operand_nty_field op p elems i ft t : operand_place op = Some p → pl_projection p = elems ++ [Field i ft] →
  opty op = Some t → t = normalize tcx ft.
Proof. intros Hp Hproj (pty & Hpty & ->)%(operand_nty_place _ p); [|done]. by eapply place_ty_field in Hpty as ->. Qed.

Lemma operand_norm_ret op t : opty op = Some t → operand_norm_ty tcx mir op = Ret t.
Proof. unfold operand_nty. destruct (operand_norm_ty tcx mir op); naive_solver. Qed.

(** ** Places *)
(** Reading a scalar place gives a value with its bits. *)
Lemma copy_holds env st ρ n op p t z :
  rep env st ρ n → operand_place op = Some p → place_ok tcx mir p = true → opty op = Some t →
  read_place env p = Some (VInt z) → ∃ v, codegen_copy st p = Ret v ∧ holds ρ n t z v.
Proof.
  intros [Ht Hl] Hp Hok Hty Hr. unfold read_place in Hr. destruct (env !! pl_local p) as [mv|] eqn:Ev; [|done].
  apply Hl in Ev. unfold place_ok in Hok. unfold codegen_copy, local_holds in *.
  destruct (pl_projection p) as [|e l] eqn:Eproj.
  - injection Hr as ->. pose proof (operand_nty_local _ _ _ Hp Eproj Hty) as Hlt. rewrite Hlt in Ev.
    destruct Ev as (v & Hv & Hh). destruct Hh as (w & Hw & ?). exists v. split; [|by exists w].
    rewrite (tt_option _ _ _ Ht _ _ Hlt (scalar_not_option _ _ _ Hw)), bool_decide_false by (by intros [? ?]).
    by rewrite Hv.
  - destruct e as [|i ft| | | |vi| |]; try done; cbn [mbind option_bind] in Hr.
    + destruct l; [|done]. destruct mv as [|zs|]; try done. destruct (nty (pl_local p)) as [lt|] eqn:Hlt; [|done].
      destruct lt; try done. apply bool_decide_eq_true in Hok. destruct Ev as (vs & Hvs & Hh & Hlen).
      destruct (zs !! i) as [z'|] eqn:Hz; [|done]. injection Hr as ->.
      rewrite (operand_nty_field _ _ [] _ _ _ Hp Eproj Hty).
      assert (Hzip : zip tys zs !! i = Some (normalize tcx ft, z)) by (by apply lookup_zip_Some).
      destruct (Forall2_lookup_l _ _ _ _ _ Hh Hzip) as (v & Hv & Hhv). exists v. split; [|done].
      assert (Ho : option_table st !! pl_local p = None) by (by eapply (tt_option _ _ _ Ht)). simpl. rewrite Ho, Hvs.
      rewrite bool_decide_false by (by intros [? ?]). by rewrite Hv.
    + destruct l as [|e' l]; [by destruct mv as [| |[]]|].
      destruct e' as [|j ft| | | | | |]; try (by destruct mv as [| |[]]). destruct j; [|by destruct mv as [| |[]]].
      destruct l; [|by destruct mv as [| |[]]]. destruct mv as [| |[z'|]]; try done. injection Hr as ->.
      destruct (nty (pl_local p)) as [lt|] eqn:Hlt; [|done]. apply bool_decide_eq_true in Hok.
      destruct Ev as (t1 & [v|] & Hpay & Ho & Hh); [|done].
      rewrite (operand_nty_field _ _ [Downcast vi] _ _ _ Hp Eproj Hty).
      exists v. simpl. rewrite Ho. split; [done|]. congruence.
Qed.

(** ** Operands *)
Lemma bool_bits s z : scalar_bits TyBool s = Some z → SI.to_u8 s = Ret z.
Proof.
  unfold scalar_bits. simpl. destruct (_ && _) eqn:E; [|done]. intros [= <-].
  rewrite !andb_true_iff, Z.eqb_eq, Z.leb_le, Z.ltb_lt in E. destruct E as [[? ?] ?]. by apply to_u8_ok; [|lia].
Qed.
Lemma const_op ρ i w z : 0 ≤ z < 2 ^ w → op_value eval ρ (mkArithOp (mkValue i (MInt w)) (constant z) []) = Some z.
Proof. intros Hz. unfold op_value. simpl. by rewrite as_u_id. Qed.

(** The type at which a scalar constant is asked for does not matter. *)
Lemma means_constant ρ n ty hint c z (Q : MEnv → nat → Value → Prop) :
  const_value args c = Some z → opty (Constant c) = Some ty → is_Some (scalar_width hint) →
  (∀ ρ' v, holds ρ' (S n) ty z v → extends n ρ ρ' → Q ρ' (S n) v) →
  emitted ρ n (codegen_constant_cast tcx args fuel c hint) Q.
Proof.
  unfold operand_nty, operand_norm_ty. simpl. intros Hc [= <-] Hhint HQ.
  assert (Hint : ∀ i w (Q' : MEnv → nat → Value → Prop), int_ty i = MInt w → int_attr i = z → 0 ≤ z < 2 ^ w → 1 ≤ w →
    (∀ ρ', ρ' n = Some z → extends n ρ ρ' → Q' ρ' (S n) (mkValue n (MInt w))) →
    emitted ρ n (create_int_constant i) Q').
  { intros i w Q' Hi Ha Hz Hw HQ'. unfold create_int_constant. rewrite Hi, Ha. eapply means_emit; [|exact HQ'].
    unfold op_value. simpl. by rewrite as_u_id. }
  unfold const_value in Hc. destruct c as [ty ck|uv ty|cv ty]; [|done|].
  - destruct ck as [i| | | | | | |]; try done. destruct (args !! i) as [[|?|[| | | | |[ty' [s|]]| |]]|] eqn:Ei; try done.
    case_bool_decide as Ety; [|done]. subst ty'. apply from_scalar_ok in Hc as (j & w & Hj & Hw & Hjt & Hja & Hz).
    simpl. unfold codegen_param_const. unfold const_at. rewrite Ei.
    eapply means_lift_bind; [done|]. eapply means_lift_bind; [done|]. unfold codegen_param_value. simpl.
    eapply means_lift_bind; [done|]. cbn iota beta. pose proof (scalar_width_pos _ _ Hw).
    eapply (Hint _ w); try done. intros ρ' Hρ Hx. apply HQ; [|done]. simpl. rewrite Hnorm by (by exists w).
    exists w. split_and!; (done || (simpl; lia)).
  - destruct cv as [[s|]| | |]; try done. pose proof Hc as Hbits. apply from_scalar_ok in Hc as (j & w & Hj & Hw & Hjt & Hja & Hz).
    pose proof (scalar_width_pos _ _ Hw).
    assert (HQ' : ∀ ρ', ρ' n = Some z → extends n ρ ρ' → Q ρ' (S n) (mkValue n (MInt w))).
    { intros ρ' Hρ Hx. apply HQ; [|done]. cbn [ty_of_const]. rewrite Hnorm by (by exists w).
      exists w. split_and!; (done || simpl; lia). }
    assert (Hscalar : ∀ (m : gen Value) k, (∀ v, k v = mret v) →
      emitted ρ n m (λ ρ' n' v, n' = S n ∧ v = mkValue n (MInt w) ∧ ρ' n = Some z ∧ extends n ρ ρ') → emitted ρ n (m ≫= k) Q).
    { intros m k Hk Hm. eapply means_bind; [exact Hm|]. intros v ρ' n' (-> & -> & ? & ?) _ _. rewrite Hk. by apply means_ret, HQ'. }
    assert (Hfrom : emitted ρ n (value ← int_from_scalar ty s; create_int_constant value)
      (λ ρ' n' v, n' = S n ∧ v = mkValue n (MInt w) ∧ ρ' n = Some z ∧ extends n ρ ρ')).
    { unfold int_from_scalar. eapply (means_bind _ _ _ _ _ (λ ρ' n' i, i = j ∧ ρ' = ρ ∧ n' = n)).
      - eapply means_lift_bind; [done|]. by apply means_ret.
      - intros ? ? ? (-> & -> & ->) _ _. by eapply Hint. }
    destruct ty; try done; cbn [codegen_constant_cast codegen_const_value codegen_scalar_const_value];
      (apply Hscalar; [destruct Hhint as [? Hh]; by destruct hint|]); try exact Hfrom.
    injection Hw as <-. eapply means_lift_bind; [by apply bool_bits|]. eapply means_emit; [by rewrite const_op|]. done.
Qed.

Lemma eval_int_inv env op z : eval_int args env op = Some z → eval_operand args env op = Some (VInt z).
Proof. unfold eval_int. destruct (eval_operand args env op) as [[]|]; naive_solver. Qed.

Lemma means_operand_hint env st ρ n op ty hint z : rep env st ρ n → operand_ok tcx mir op = true → opty op = Some ty →
  eval_int args env op = Some z → is_Some (scalar_width hint) →
  emitted ρ n (codegen_operand tcx args fuel st op hint) (λ ρ' n' v, holds ρ' n' ty z v).
Proof.
  intros Hr Hok Hty Hz%eval_int_inv Hhint. destruct op as [p|p|c|]; simpl in *; try done.
  - destruct (copy_holds env st ρ n (Copy p) p ty z Hr eq_refl Hok Hty Hz) as (v & Hv & Hh). by eapply means_lift.
  - destruct (copy_holds env st ρ n (Move p) p ty z Hr eq_refl Hok Hty Hz) as (v & Hv & Hh). by eapply means_lift.
  - destruct (const_value args c) as [z'|] eqn:Hc; [|done]. injection Hz as ->.
    eapply means_constant; [done..|]. by intros.
Qed.

(** A scalar has a scalar type, and is in its range. *)
Lemma eval_int_width env st ρ n op ty z : rep env st ρ n → operand_ok tcx mir op = true → opty op = Some ty →
  eval_int args env op = Some z → ∃ w, scalar_width ty = Some w ∧ 0 ≤ z < 2 ^ w.
Proof.
  intros Hr Ho Ht Hz. pose proof (means_operand_hint env st ρ n op ty TyBool z Hr Ho Ht Hz (ex_intro _ 1 eq_refl) (mkMBlock n []) eq_refl)
    as (v & _ & _ & _ & _ & _ & _ & _ & _ & w & Hw & _ & _ & Hb & _). by exists w.
Qed.

Lemma means_operand env st ρ n op ty z : rep env st ρ n → operand_ok tcx mir op = true → opty op = Some ty →
  eval_int args env op = Some z → emitted ρ n (codegen_operand tcx args fuel st op ty) (λ ρ' n' v, holds ρ' n' ty z v).
Proof.
  intros Hr Ho Ht Hz. destruct (eval_int_width _ _ _ _ _ _ _ Hr Ho Ht Hz) as (w & Hw & _).
  by eapply means_operand_hint.
Qed.

Lemma means_operand_at_ty env st ρ n op ty z : rep env st ρ n → operand_ok tcx mir op = true → opty op = Some ty →
  eval_int args env op = Some z → emitted ρ n (operand_at_ty tcx args fuel mir st op) (λ ρ' n' v, holds ρ' n' ty z v).
Proof.
  intros Hr Hok Hty Hz. unfold operand_at_ty. eapply means_lift_bind; [by apply operand_norm_ret|]. by eapply means_operand.
Qed.

(** ** Arithmetic *)
Context (infer : ArithKind → MlirTy → MlirTy → MlirTy) (Hinfer : ∀ k t, infer k t t = t).

Definition is_cmp (op : BinOp) : bool := match op with BEq | BNe | BLt | BLe | BGt | BGe => true | _ => false end.

(** [lower_scalar] with the type of the result. *)
Lemma lower_scalar_typed (op : BinOp) ty l r blk w k : v_ty l = MInt w → v_ty r = MInt w → emitted_kind op (is_int_ty ty) = Some k →
  let v := mkValue (next_value blk) (if is_cmp op then MInt 1 else MInt w) in
  lower_binary_op infer op ty l r blk =
    Ret (inr (Some v, mkMBlock (S (next_value blk)) (mb_ops blk ++ [mkArithOp v k [l; r]]))).
Proof.
  intros Hl Hr Hk. destruct op; simplify_eq/=; unfold codegen_add, codegen_sub, codegen_mul, codegen_div,
    codegen_rem, codegen_shl, codegen_shr, codegen_xor, codegen_and, codegen_or, codegen_arith, codegen_scalar_only,
    codegen_bitwise, codegen_cmpi, align_operands, create_muli, is_tensor, is_integer, is_int_ty in *;
    unfold mbind, cg_bind, mret, cg_ret; rewrite ?Hl, ?Hr; simpl; rewrite ?Hl, ?bool_decide_true by done; simpl;
    unfold create, TritonArith.append_operation; rewrite ?Hl, ?Hr, ?Hinfer; try done; by destruct ty.
Qed.

Lemma num_ty_of t : num_ty (ty_of t) = Some t.
Proof. by destruct t. Qed.
Lemma num_ty_inv ty t : num_ty ty = Some t → ty = ty_of t.
Proof. destruct ty; simpl; by intros [= <-]. Qed.
Lemma num_width ty t : num_ty ty = Some t → scalar_width ty = Some (Size.bits (num_size 8 t)).
Proof. unfold scalar_width. by intros ->. Qed.
Lemma num_size_ok t : size_ok (num_size 8 t).
Proof. unfold size_ok. destruct t as [[]|[]]; simpl; lia. Qed.

Lemma lower_means ρ n (op : BinOp) ty t k l r x y z : num_ty ty = Some t →
  holds ρ n ty x l → holds ρ n ty y r → emitted_kind op (is_signed t) = Some k →
  eval k (Size.bits (num_size 8 t)) x y = Some z → 0 ≤ z < 2 ^ (if is_cmp op then 1 else Size.bits (num_size 8 t)) →
  emitted ρ n (lower_binary_op infer op ty l r)
    (λ ρ' n' o, ∃ v, o = Some v ∧ holds ρ' n' (if is_cmp op then TyBool else ty) z v).
Proof.
  intros Hty (w & Hw & Hl & Hx & Hrx & Hln) (w' & Hw' & Hr & Hy & Hry & Hrn) Hk Hz Hrz blk Hn.
  pose proof (num_width _ _ Hty) as Hw2. simplify_eq.
  assert (Hsig : is_int_ty ty = is_signed t) by (rewrite (num_ty_inv _ _ Hty); by destruct t). rewrite <-Hsig in Hk.
  pose proof (lower_scalar_typed op ty l r blk _ k Hl Hr Hk) as Hlow. cbv zeta in Hlow.
  set (v := mkValue _ _) in Hlow. exists (Some v). eexists _, [_]. eexists. split_and!; [exact Hlow|reflexivity| | | |].
  - cbn [exec_ops]. unfold exec_op, op_value. cbn [ao_kind ao_args ao_result].
    assert (Hev : eval_op eval ρ (mkArithOp v k [l; r]) = Some z).
    { unfold eval_op. cbn [ao_args ao_kind]. rewrite Hl, Hr, bool_decide_true, Hx, Hy by done. exact Hz. }
    replace (match k with constant _ => _ | _ => _ end) with (Some z) by (rewrite <-Hev; by destruct k). reflexivity.
  - simpl. lia.
  - intros i Hi. simpl. by rewrite (proj2 (Nat.eqb_neq _ _)) by lia.
  - exists v. split; [done|]. exists (if is_cmp op then 1 else Size.bits (num_size 8 t)). split_and!.
    + by destruct (is_cmp op).
    + unfold v. by destruct (is_cmp op).
    + simpl. by rewrite Nat.eqb_refl.
    + lia.
    + lia.
    + simpl. lia.
Qed.

(** ** The interpreter's result *)
Lemma cmp_bool (op : BinOp) l r res : is_cmp op = true → binary_int_op 8 op l r = Ret (inr res) → ∃ c, res = ResBool c.
Proof.
  intros Hop. assert (Hu : ∀ t x y, unsigned_op 8 op t x y = Ret (inr res) → ∃ c, res = ResBool c).
  { intros t x y. destruct op; try done; simpl; intros [= <-]; by eexists. }
  assert (Hs : ∀ t x y nul q, signed_op 8 op t x y nul = Some q → q = Ret (inr res) → ∃ c, res = ResBool c).
  { intros t x y nul q. destruct op; try done; simpl; intros [= <-] [= <-]; by eexists. }
  unfold binary_int_op. assert (is_shift op = false) as -> by (by destruct op). destruct (negb _); [done|].
  destruct (is_signed _).
  - destruct (SI.to_int (imm l) _), (SI.to_int (imm r) _); try done. simpl. destruct (signed_op _ _ _ _ _ _) eqn:E; [by eapply Hs|].
    destruct (SI.to_bits (imm l) _), (SI.to_bits (imm r) _); try done. simpl. apply Hu.
  - destruct (SI.to_bits (imm l) _), (SI.to_bits (imm r) _); try done. simpl. apply Hu.
Qed.

Lemma interp_agrees (op : BinOp) t k x y res :
  0 ≤ x < 2 ^ Size.bits (num_size 8 t) → 0 ≤ y < 2 ^ Size.bits (num_size 8 t) → emitted_kind op (is_signed t) = Some k →
  (is_signed t = true ∨ sign_sensitive op = false) → (is_shift op = true → y < Size.bits (num_size 8 t)) →
  binary_int_op 8 op (mkImm (mkScalarInt x (num_size 8 t)) t) (mkImm (mkScalarInt y (num_size 8 t)) t) = Ret (inr res) →
  ∃ z, result_bits res = Some z ∧ eval k (Size.bits (num_size 8 t)) x y = Some z ∧ 0 ≤ z < 2 ^ (if is_cmp op then 1 else Size.bits (num_size 8 t)).
Proof.
  intros Hx Hy Hk Hsen Hsh Hres. pose proof (bits_range _ (num_size_ok t)) as Hb.
  assert (Hag : eval k (Size.bits (num_size 8 t)) x y = result_bits res) by (eapply (int_op_agrees 8 eval Hdoc t (num_size_ok t)); eauto).
  pose proof Hres as Hrange. apply (binary_int_op_ranged 8 t (num_size_ok t)) in Hrange; [|done].
  rewrite Hag. destruct (is_cmp op) eqn:Hc.
  - apply cmp_bool in Hres as [c ->]; [|done]. exists (Z.b2z c). split_and!; try done; destruct c; simpl; lia.
  - assert (H2 : 2 ≤ 2 ^ Size.bits (num_size 8 t)) by (change 2 with (2 ^ 1) at 1; apply Z.pow_le_mono_r; lia).
    edestruct interp_result_bits as [z Hz]; [|exact Hres|]; [by eexists|]. exists z. split_and!; try done.
    all: destruct res as [s ?|c|c|s ? ?]; simpl in Hz; simplify_eq; try (destruct Hrange as (_ & _ & ?)); 
      try destruct c; simpl; lia.
Qed.

Lemma means_binary_op env st ρ n (op : BinOp) l r ty t x y res : rep env st ρ n →
  operand_ok tcx mir l = true → operand_ok tcx mir r = true → opty l = Some ty → opty r = Some ty → num_ty ty = Some t →
  eval_int args env l = Some x → eval_int args env r = Some y → is_Some (emitted_kind op (is_signed t)) →
  (is_signed t = true ∨ sign_sensitive op = false) → (is_shift op = true → y < Size.bits (num_size 8 t)) →
  binary_int_op 8 op (mkImm (mkScalarInt x (num_size 8 t)) t) (mkImm (mkScalarInt y (num_size 8 t)) t) = Ret (inr res) →
  ∃ z, result_bits res = Some z ∧
  emitted ρ n (codegen_binary_op infer (operand_norm_ty tcx mir) (codegen_operand tcx args fuel st) op (l, r))
    (λ ρ' n' o, ∃ v, o = Some v ∧ holds ρ' n' (if is_cmp op then TyBool else ty) z v).
Proof.
  intros Hr Hlo Hro Hlt Hrt Hnum Hx Hy [k Hk] Hsen Hsh Hres.
  assert (Hrange : ∀ op z, operand_ok tcx mir op = true → opty op = Some ty → eval_int args env op = Some z →
    0 ≤ z < 2 ^ Size.bits (num_size 8 t)).
  { intros o z Ho Ht Hz. destruct (eval_int_width _ _ _ _ _ _ _ Hr Ho Ht Hz) as (w & Hw & Hb).
    rewrite (num_width _ _ Hnum) in Hw. by injection Hw as <-. }
  destruct (interp_agrees op t k x y res) as (z & Hz & Hev & Hzr); [by apply (Hrange l)|by apply (Hrange r)|done|done|done|done|].
  exists z. split; [done|]. unfold codegen_binary_op. cbn [fst snd].
  eapply means_lift_bind; [by apply operand_norm_ret|]. eapply means_lift_bind; [by apply operand_norm_ret|].
  eapply means_bind; [by eapply means_operand|]. intros vl ρ1 n1 Hl Hn1 Hx1. cbn beta in Hl.
  eapply means_bind; [eapply means_operand; [by eapply represents_extends|done..]|]. intros vr ρ2 n2 Hvr Hn2 Hx2. cbn beta in Hvr.
  eapply lower_means; try done. by eapply holds_extends.
Qed.
End sim.
