(* ===== verification/TritonAssignThms.v ===== *)
(** * Straight-line code: assignments are compiled as MIR means them *)
From S2P Require Import Prelude Codegen Mir PlaceTypes ScalarInts IntOps TritonArith TritonArithFacts TritonArithThms TritonConstThms TritonPhi TritonTypes TritonEmit TritonOperand TritonAssign TritonAssignSem TritonAssignFacts.
#[local] Open Scope Z_scope.

Section assign.
Context (tcx : TyCtxt) (args : list GenericArg) (fuel const_fuel : nat) (mir : Body) (eval : arith_eval).
Context (Hdoc : arith_doc eval) (Hnorm : ∀ t, is_Some (scalar_width t) → normalize tcx t = t).
Context (infer : ArithKind → MlirTy → MlirTy → MlirTy) (Hinfer : ∀ k t, infer k t t = t).
Implicit Types (env : Env) (st : State) (ρ : MEnv) (n : nat) (p : Place) (l : Local).
Abbreviation nty := (local_nty tcx mir).
Abbreviation opty := (operand_nty tcx mir).
Abbreviation rep := (represents tcx mir).
Abbreviation emitted := (means eval).
Abbreviation ok := (operand_ok tcx mir).
(** The state represents the environment. *)
Abbreviation yields env := (λ ρ' n' st', rep env st' ρ' n').

(** ** Copies *)
Lemma scalar_no_side_table env st ρ n l dest ty w : rep env st ρ n → nty l = Some ty → scalar_width ty = Some w →
  copy_side_table dest l st = None.
Proof.
  intros [[_ T2 T3 T4] _] Ht Hw. destruct (T3 _ _ Ht) as [P1 P2]; [by destruct ty|]. destruct (T4 _ _ _ Ht Hw) as (A1 & A2 & A3).
  unfold copy_side_table. by rewrite A1, P1, P2, A2, A3, (T2 _ _ _ Ht Hw).
Qed.

Lemma use_scalar env st ρ n dest op ty z : rep env st ρ n → nty dest = Some ty → opty op = Some ty → ok op = true →
  eval_int args env op = Some z →
  emitted ρ n (assign_use tcx args fuel mir dest op st) (yields (<[dest := VInt z]> env)).
Proof.
  intros Hr Hd Hty Hok Hz. destruct (eval_int_width tcx args fuel mir eval Hnorm _ _ _ _ _ _ _ Hr Hok Hty Hz) as (w & Hw & _).
  unfold assign_use. eapply means_lift_bind; [by apply operand_norm_ret|]. rewrite (scalar_not_option _ _ _ Hw).
  assert (Hm : ∀ (X : list Ty → gen State) Y, match ty with TyTuple ts => X ts | _ => Y end = Y) by (by destruct ty).
  rewrite Hm. clear Hm.
  assert (operand_as_local op ≫= (λ src, copy_side_table dest src st) = None) as ->.
  { destruct (operand_as_local op) as [q|] eqn:Hq; [|done]. simpl.
    apply (scalar_no_side_table env st ρ n q dest ty w Hr); [|done].
    destruct op as [p|p| |]; simpl in Hq; try done; destruct (no_projection p) eqn:Hp; simplify_eq;
      unfold no_projection in Hp; eapply (operand_nty_local tcx mir _ p); try done; by destruct (pl_projection p). }
  assert (Hgo : ∀ st', st' = st → emitted ρ n (result ← codegen_operand tcx args fuel st' op ty; mret (set_ssa dest result st'))
    (yields (<[dest := VInt z]> env))).
  { intros ? ->. eapply means_bind; [by eapply means_operand|]. intros v ρ' n' Hv Hn Hx. apply means_ret.
    eapply represents_set_ssa; [by eapply represents_extends|done..]. }
  destruct op as [p|p|c|]; try (by apply means_ret_bind, Hgo).
  assert (Hc : normalize tcx (ty_of_const c) = ty) by (by injection Hty).
  assert (Hread : try_read_array_ref_const tcx (normalize tcx (ty_of_const c)) c = Ret None) by (rewrite Hc; by destruct ty).
  eapply means_bind.
  - eapply means_lift_bind; [exact Hread|]. by apply (means_ret _ _ _ _ (λ ρ' n' st', st' = st ∧ ρ' = ρ ∧ n' = n)).
  - intros st' ρ' n' (-> & -> & ->) _ _. by apply Hgo.
Qed.

(** A tuple or an [Option] is read from a whole local. *)
Lemma whole_place env op v : eval_operand args env op = Some v → (∀ z, v ≠ VInt z) →
  ∃ p, operand_place op = Some p ∧ pl_projection p = [] ∧ env !! pl_local p = Some v.
Proof.
  intros Hv Hne. assert (Hp : ∀ p, read_place env p = Some v → pl_projection p = [] ∧ env !! pl_local p = Some v).
  { intros p. unfold read_place. destruct (env !! pl_local p) as [mv|]; [|done]. simpl.
    destruct (pl_projection p) as [|[] [|[] [|]]]; try (by intros [= ->]); destruct mv as [|zs|[z|]]; try done; simpl;
      try (destruct (zs !! _); [|done]; intros [= <-]; by destruct (Hne z)); try (destruct f; try done; intros [= <-]; by destruct (Hne z)). }
  destruct op as [p|p|c|]; simpl in Hv; try done; [by exists p; split; [|apply Hp]..|].
  destruct (const_value args c); simpl in Hv; simplify_eq. by destruct (Hne z).
Qed.

Lemma use_other env st ρ n dest op ty v : rep env st ρ n → nty dest = Some ty → opty op = Some ty →
  eval_operand args env op = Some v → (∀ z, v ≠ VInt z) →
  emitted ρ n (assign_use tcx args fuel mir dest op st) (yields (<[dest := v]> env)).
Proof.
  intros Hr Hd Hty Hv Hne. destruct (whole_place _ _ _ Hv Hne) as (p & Hp & Hproj & Hl).
  pose proof (operand_nty_local _ _ _ _ _ Hp Hproj Hty) as Hlt. apply (rp_local _ _ _ _ _ _ Hr) in Hl. unfold local_holds in Hl.
  unfold assign_use. eapply means_lift_bind; [by apply operand_norm_ret|]. destruct v as [z|zs|o]; [by destruct (Hne z)|..].
  - rewrite Hlt in Hl. destruct ty; try done. simpl. destruct Hl as (vs & Hvs & Hh).
    eapply means_bind; [|intros vs' ρ' n' H' _ _; apply means_ret, H'].
    destruct op; simplify_eq/=; (eapply means_lift; [by rewrite Hvs|]); by eapply represents_set_tuple.
  - rewrite Hlt in Hl. destruct Hl as (t & ov & Hpay & Ho & Hh). rewrite (payload_is_option _ _ _ Hpay).
    eapply means_lift_bind; [|by apply means_ret; eapply represents_set_option].
    unfold option_entry. by destruct op; simplify_eq/=; rewrite Ho.
Qed.

(** ** Arithmetic *)
Lemma with_arith_ssa st l v :
  with_tuple (with_ssa st (<[l := v]> (ssa_values st))) (tuple_fields st) = set_ssa l v st.
Proof. done. Qed.
Lemma with_arith_tuple st l vs :
  with_tuple (with_ssa st (ssa_values st)) (<[l := vs]> (tuple_fields st)) = set_tuple l vs st.
Proof. by destruct st. Qed.

Lemma eval_imm_inv env op i : eval_imm tcx args mir env op = Some i → ∃ ty t z, opty op = Some ty ∧ num_ty ty = Some t ∧
  eval_int args env op = Some z ∧ i = mkImm (mkScalarInt z (num_size 8 t)) t.
Proof.
  unfold eval_imm, operand_num. destruct (opty op) as [ty|]; [|done]. simpl. destruct (num_ty ty) as [t|] eqn:Ht; [|done]. simpl.
  destruct (eval_int args env op) as [z|]; [|done]. intros [= <-]. by exists ty, t, z.
Qed.

Lemma interp_value_inv r v : interp_value r = Some v → ∃ res, r = Ret (inr res) ∧ result_value res = Some v.
Proof. destruct r as [[|res]| |]; simpl; try done. by exists res. Qed.

(** The operands of a binary operation that is compiled right. *)
Lemma compiled_operands env (op : BinOp) a b v dest_ty :
  rvalue_ok tcx mir (BinaryOp op a b) dest_ty = true → compiled_op tcx args mir env op a b = true →
  eval_rvalue tcx args mir env (BinaryOp op a b) = Some v → ∃ ty t x y res,
    let plain := default op (plain_op op) in
    opty a = Some ty ∧ opty b = Some ty ∧ num_ty ty = Some t ∧ eval_int args env a = Some x ∧ eval_int args env b = Some y ∧
    dest_ty = result_ty op ty ∧ is_Some (emitted_kind plain (is_signed t)) ∧
    (is_signed t = true ∨ sign_sensitive plain = false) ∧ (is_shift op = true → y < Size.bits (num_size 8 t)) ∧
    binary_int_op 8 op (mkImm (mkScalarInt x (num_size 8 t)) t) (mkImm (mkScalarInt y (num_size 8 t)) t) = Ret (inr res) ∧
    result_value res = Some v ∧ checked_value (Some v) = true.
Proof.
  intros Hrv Hc Hv. pose proof Hv as Hv'. simpl in Hv.
  destruct (eval_imm tcx args mir env a) as [li|] eqn:El; [|done]. destruct (eval_imm tcx args mir env b) as [ri|] eqn:Er; [|done].
  simpl in Hv. apply interp_value_inv in Hv as (res & Hres & Hval).
  apply eval_imm_inv in El as (ty & t & x & Hlt & Hnum & Hx & ->). apply eval_imm_inv in Er as (ty' & t' & y & Hrt & Hnum' & Hy & ->).
  simpl in Hrv. rewrite Hlt in Hrv. apply bool_decide_eq_true in Hrv as [E ->]. rewrite Hrt in E. simplify_eq.
  unfold compiled_op, operand_num in Hc. rewrite Hlt in Hc. cbn [mbind option_bind] in Hc. rewrite Hnum, Hy, Hv', !andb_true_iff in Hc.
  destruct Hc as [[[Hk%bool_decide_eq_true Hsen] Hsh] Hflag]. exists ty, t, x, y, res. split_and!; try done.
  - destruct (is_signed t); [by left|]. right. by destruct (sign_sensitive _).
  - intros Hs. rewrite Hs in Hsh. by apply Z.ltb_lt.
Qed.

(** An operation without a flag. *)
Lemma assign_plain env st ρ n p (op : BinOp) a b v dest_ty : rep env st ρ n → nty (pl_local p) = Some dest_ty →
  ok a = true → ok b = true → plain_op op = None → rvalue_ok tcx mir (BinaryOp op a b) dest_ty = true →
  compiled_op tcx args mir env op a b = true → eval_rvalue tcx args mir env (BinaryOp op a b) = Some v →
  emitted ρ n (with_arith (codegen_binary_rvalue infer (operand_norm_ty tcx mir) (codegen_operand tcx args fuel st) p op (a, b)) st)
    (yields (<[pl_local p := v]> env)).
Proof.
  intros Hr Hd Ha Hb Hplain Hrv Hc Hv.
  destruct (compiled_operands _ _ _ _ _ _ Hrv Hc Hv) as (ty & t & x & y & res & Hta & Htb & Hnum & Hx & Hy & -> & Hk & Hsen & Hsh & Hres & Hval & _).
  rewrite Hplain in *. simpl in Hk, Hsen.
  destruct (means_binary_op tcx args fuel mir eval Hdoc Hnorm infer Hinfer env st ρ n op a b ty t x y res) as (z & Hz & Hm); try done.
  unfold with_arith, codegen_binary_rvalue. rewrite Hplain. eapply means_bind.
  - eapply means_bind; [exact Hm|]. intros o ρ1 n1 (w & -> & Hw) Hn1 Hx1.
    apply (means_ret _ _ _ _ (λ ρ' n' r, ∃ w, r = mkArithState (<[pl_local p := w]> (ssa_values st)) (tuple_fields st) ∧
      rep env st ρ' n' ∧ holds ρ' n' (if is_cmp op then TyBool else ty) z w)).
    exists w. split_and!; [done|by eapply represents_extends|done].
  - intros r ρ1 n1 (w & -> & Hr1 & Hw) _ _. apply means_ret. cbn [TritonArith.ssa_values TritonArith.tuple_fields].
    rewrite with_arith_ssa. assert (v = VInt z) as -> by (destruct res; by simplify_eq/=).
    eapply represents_set_ssa; [done|exact Hd|]. unfold result_ty.
    destruct op; simplify_eq/=; done.
Qed.

(** A checked operation adds a flag, which is zero. *)
Lemma assign_checked env st ρ n p (op plain : BinOp) a b v dest_ty : rep env st ρ n → nty (pl_local p) = Some dest_ty →
  ok a = true → ok b = true → plain_op op = Some plain → rvalue_ok tcx mir (BinaryOp op a b) dest_ty = true →
  compiled_op tcx args mir env op a b = true → eval_rvalue tcx args mir env (BinaryOp op a b) = Some v →
  emitted ρ n (with_arith (codegen_binary_rvalue infer (operand_norm_ty tcx mir) (codegen_operand tcx args fuel st) p op (a, b)) st)
    (yields (<[pl_local p := v]> env)).
Proof.
  intros Hr Hd Ha Hb Hplain Hrv Hc Hv.
  destruct (compiled_operands _ _ _ _ _ _ Hrv Hc Hv) as (ty & t & x & y & res & Hta & Htb & Hnum & Hx & Hy & -> & Hk & Hsen & Hsh & Hres & Hval & Hflag).
  rewrite Hplain in *. simpl in Hk, Hsen. assert (Hpl : plain_of op = Some plain) by (by destruct op).
  destruct (checked_pair 8 op _ _ res ltac:(by eexists) Hres) as (s & t' & flag & ->).
  pose proof (checked_is_plain 8 op plain (mkImm (mkScalarInt x (num_size 8 t)) t) (mkImm (mkScalarInt y (num_size 8 t)) t) Hpl) as Hpr.
  rewrite Hres in Hpr. assert (is_shift plain = false ∧ is_cmp plain = false) as (Hns & Hnc) by (clear -Hplain; by destruct op; simplify_eq/=).
  destruct (means_binary_op tcx args fuel mir eval Hdoc Hnorm infer Hinfer env st ρ n plain a b ty t x y (ResInt s t')) as (z & Hz & Hm);
    try done; [by rewrite Hns|]. rewrite Hnc in Hm. simpl in Hval, Hz. simplify_eq. apply Z.eqb_eq in Hflag.
  unfold with_arith, codegen_binary_rvalue. rewrite Hplain. eapply means_bind.
  - eapply means_bind; [exact Hm|]. intros o ρ1 n1 (w & -> & Hw) Hn1 Hx1.
    eapply means_bind; [eapply (means_emit _ _ _ _ _ _ 0 (λ ρ' n' f, holds ρ' n' ty (si_data s) w ∧ holds ρ' n' TyBool 0 f ∧ rep env st ρ' n'));
      [by apply const_op|]|].
    + intros ρ2 Hρ2 Hx2. split_and!; [eapply holds_extends; [done|lia|done]| |eapply represents_extends; [exact Hr|lia|]].
      * exists 1. split_and!; try done. simpl. lia.
      * intros i Hi. rewrite Hx2 by lia. by apply Hx1.
    + intros f ρ2 n2 (Hw2 & Hf & Hr2) Hn2 Hx2.
      apply (means_ret _ _ _ _ (λ ρ' n' r, ∃ w f, r = mkArithState (ssa_values st) (<[pl_local p := [w; f]]> (tuple_fields st)) ∧
        rep env st ρ' n' ∧ holds ρ' n' ty (si_data s) w ∧ holds ρ' n' TyBool 0 f)). by exists w, f.
  - intros r ρ1 n1 (w & f & -> & Hr1 & Hw & Hf) _ _. apply means_ret. cbn [TritonArith.ssa_values TritonArith.tuple_fields].
    rewrite with_arith_tuple. apply (represents_set_tuple _ _ _ _ _ _ _ [ty; TyBool]); [done| |split; [|done]].
    + rewrite Hd. unfold result_ty. by destruct op; simplify_eq/=.
    + rewrite Hflag. by repeat constructor.
Qed.

(** ** Negation *)
Lemma neg_bits x v : 0 ≤ x < 2 ^ 32 → interp_value (unary_int_op 8 Neg (mkImm (mkScalarInt x 4) (SInt I32))) = Some v →
  v = VInt (as_u 32 (0 - x)).
Proof.
  intros Hx. unfold unary_int_op. cbn [imm imm_ty is_signed num_size]. rewrite (read_int 8 (SInt I32)) by done.
  cbn [mbind outcome_bind]. rewrite (truncate_from_int_ok 4) by done. cbn. intros [= <-]. f_equal.
  rewrite (as_u_128' 4) by done. change (Size.bits 4) with 32. exact (as_u_minus 4 ltac:(done) 0 x).
Qed.

Lemma assign_neg env st ρ n p a v dest_ty : rep env st ρ n → nty (pl_local p) = Some dest_ty →
  ok a = true → opty a = Some dest_ty → operand_num tcx mir a = Some (SInt I32) →
  eval_rvalue tcx args mir env (UnaryOp Neg a) = Some v →
  emitted ρ n (with_arith (codegen_unary_rvalue infer (operand_norm_ty tcx mir) (codegen_operand tcx args fuel st) p Neg a) st)
    (yields (<[pl_local p := v]> env)).
Proof.
  intros Hr Hd Ha Hta Hi32 Hv. cbn [eval_rvalue] in Hv. destruct (eval_imm tcx args mir env a) as [i|] eqn:Ei; [|done].
  apply eval_imm_inv in Ei as (ty & t & x & Hty & Hnum & Hx & ->). unfold operand_num in Hi32. rewrite Hty in Hi32, Hta.
  injection Hta as <-. cbn [mbind option_bind] in *. rewrite Hnum in Hi32. injection Hi32 as ->.
  destruct (eval_int_width tcx args fuel mir eval Hnorm _ _ _ _ _ _ _ Hr Ha Hty Hx) as (w & Hw & Hrx).
  rewrite (num_width _ _ Hnum) in Hw. injection Hw as <-. apply neg_bits in Hv as ->; [|done].
  unfold with_arith, codegen_unary_rvalue. eapply means_bind.
  - eapply means_lift_bind; [by apply operand_norm_ret|].
    eapply means_bind; [by eapply means_operand|]. intros val ρ1 n1 Hval Hn1 Hx1. cbn beta in Hval.
    pose proof Hval as (w & Hw & Hvt & Hvx & _ & Hid). rewrite (num_width _ _ Hnum) in Hw. injection Hw as <-.
    rewrite Hvt. cbn [is_integer]. eapply (means_bind _ _ _ _ _ (λ ρ' n' r, holds ρ' n' ty (as_u 32 (0 - x)) r ∧ rep env st ρ' n')).
    + eapply means_bind; [eapply (means_emit _ _ _ _ _ _ 0 (λ ρ' n' z, z = mkValue n1 (MInt 32) ∧ ρ' n1 = Some 0 ∧ n' = S n1 ∧ extends n1 ρ1 ρ'));
        [by apply const_op|done]|].
      intros z ρ2 n2 (-> & Hz & -> & Hx2) Hn2 _. unfold create. rewrite Hvt, Hinfer.
      apply (means_emit _ _ _ _ _ _ (as_u 32 (0 - x))).
      { unfold op_value, eval_op. cbn [ao_kind ao_args v_ty v_id]. rewrite Hvt, bool_decide_true, Hz by done.
        rewrite Hx2, Hvx by done. cbn [mbind option_bind]. apply (doc_subi _ Hdoc). split; [lia|done]. }
      intros ρ3 Hρ3 Hx3. split.
      * exists 32. split_and!; try done; [by rewrite (num_width _ _ Hnum)|apply (as_u_bounds 4); done..|simpl; lia].
      * eapply represents_extends; [exact Hr|lia|]. intros j Hj. rewrite Hx3, Hx2 by lia. by apply Hx1.
    + intros r ρ2 n2 [Hh Hr2] _ _.
      apply (means_ret _ _ _ _ (λ ρ' n' q, ∃ r, q = mkArithState (<[pl_local p := r]> (ssa_values st)) (tuple_fields st) ∧
        holds ρ' n' ty (as_u 32 (0 - x)) r ∧ rep env st ρ' n')). by exists r.
  - intros q ρ1 n1 (r & -> & Hh & Hr1) _ _. apply means_ret. cbn [TritonArith.ssa_values TritonArith.tuple_fields].
    rewrite with_arith_ssa. by eapply represents_set_ssa.
Qed.

(** ** Conversions that keep the width *)
Lemma same_width_conversion t t' z : Size.bits (num_size 8 t') = Size.bits (num_size 8 t) → 0 ≤ z < 2 ^ Size.bits (num_size 8 t) →
  int_to_int t t' z = z.
Proof.
  intros Hw Hz. unfold int_to_int. rewrite Hw. destruct (is_signed t); [|by apply as_u_id].
  rewrite (as_u_as_i (num_size 8 t)) by apply num_size_ok. by apply as_u_id.
Qed.

Lemma assign_int_to_int env st ρ n dest a ty v dest_ty : rep env st ρ n → nty dest = Some dest_ty → ok a = true →
  normalize tcx ty = dest_ty → scalar_width dest_ty = opty a ≫= scalar_width →
  eval_rvalue tcx args mir env (Cast IntToInt a ty) = Some v →
  emitted ρ n (assign_cast tcx args fuel dest IntToInt a ty st) (yields (<[dest := v]> env)).
Proof.
  intros Hr Hd Ha Hty Hw Hv. simpl in Hv. unfold operand_num in Hv. destruct (opty a) as [aty|] eqn:Haty; [|done]. simpl in Hv, Hw.
  destruct (num_ty aty) as [t|] eqn:Ht; [|done]. simpl in Hv. rewrite Hty in Hv. destruct (num_ty dest_ty) as [t'|] eqn:Ht'; [|done]. simpl in Hv.
  destruct (eval_int args env a) as [z|] eqn:Hz; [|done]. simpl in Hv. injection Hv as <-.
  rewrite (num_width _ _ Ht), (num_width _ _ Ht') in Hw. injection Hw as Hw.
  destruct (eval_int_width tcx args fuel mir eval Hnorm _ _ _ _ _ _ _ Hr Ha Haty Hz) as (w & Hwz & Hrz).
  rewrite (num_width _ _ Ht) in Hwz. injection Hwz as <-. rewrite same_width_conversion by done.
  unfold assign_cast, codegen_cast. cbn [cast_tables]. eapply means_lift_bind; [done|]. cbn iota. rewrite Hty.
  eapply means_bind; [eapply means_operand_hint; try done; by rewrite (num_width _ _ Ht')|].
  intros r ρ1 n1 (w & Hw1 & ? & ? & ? & ?) Hn Hx. apply means_ret. eapply represents_set_ssa; [by eapply represents_extends|done|].
  rewrite (num_width _ _ Ht) in Hw1. injection Hw1 as <-. exists (Size.bits (num_size 8 t)). split_and!; try done; [|lia..].
  by rewrite (num_width _ _ Ht'), Hw.
Qed.

(** ** Aggregates *)
Lemma means_fields env st ρ n fields : ∀ tys zs, rep env st ρ n → forallb ok fields = true →
  forallb (λ op, bool_decide (is_Some (operand_place op))) fields = true →
  mapM opty fields = Some tys → mapM (eval_int args env) fields = Some zs →
  emitted ρ n (cg_map (λ op, match op with Copy p | Move p => cg_lift (codegen_copy st p) | _ => todo end) fields)
    (λ ρ' n' vs, tuple_holds ρ' n' tys zs vs ∧ ρ' = ρ ∧ n' = n).
Proof.
  induction fields as [|op fields IH]; intros tys zs Hr Hok Hpl Ht Hz; simpl in *; simplify_eq.
  { injection Ht as <-. injection Hz as <-. apply means_ret. by split_and!. }
  apply andb_true_iff in Hok as [Ho Hok]. apply andb_true_iff in Hpl as [[p Hp]%bool_decide_eq_true Hpl].
  destruct (opty op) as [t|] eqn:Et; [|done]. destruct (mapM opty fields) as [ts|]; [|done].
  destruct (eval_int args env op) as [z|] eqn:Ez; [|done]. destruct (mapM (eval_int args env) fields) as [zs'|]; [|done].
  injection Ht as <-. injection Hz as <-. apply eval_int_inv in Ez.
  destruct (copy_holds tcx mir env st ρ n op p t z Hr Hp) as (v & Hv & Hh); [by destruct op; simplify_eq/=|done|by destruct op; simplify_eq/=|].
  eapply (means_bind _ _ _ _ _ (λ ρ' n' v', v' = v ∧ ρ' = ρ ∧ n' = n)).
  { destruct op; simplify_eq/=; by eapply means_lift. }
  intros ? ? ? (-> & -> & ->) _ _. eapply means_bind; [by eapply IH|]. intros vs ? ? ([Hvs Hlen] & -> & ->) _ _.
  apply means_ret. split_and!; [|done..]. split; [by constructor|]. simpl. by rewrite Hlen.
Qed.

Lemma no_pointer env st ρ n op p t z : rep env st ρ n → operand_place op = Some p → ok op = true → opty op = Some t →
  eval_int args env op = Some z → lookup_ptr_const (pl_local p) st = None ∧ lookup_ptr_dyn (pl_local p) st = None.
Proof.
  intros Hr Hp Hok Ht Hz. assert (Hpok : place_ok tcx mir p = true) by (by destruct op; simplify_eq/=).
  destruct (pl_projection p) as [|e es] eqn:Eproj.
  - pose proof (operand_nty_local _ _ _ _ _ Hp Eproj Ht) as Hlt. eapply (tt_pointer _ _ _ (rp_tables _ _ _ _ _ _ Hr)); [exact Hlt|].
    destruct (eval_int_width tcx args fuel mir eval Hnorm _ _ _ _ _ _ _ Hr Hok Ht Hz) as (w & Hw & _). by destruct t.
  - unfold place_ok in Hpok. rewrite Eproj in Hpok. destruct (nty (pl_local p)) as [lt|] eqn:Hlt; [|by destruct e, es as [|[] []]; try destruct f].
    eapply (tt_pointer _ _ _ (rp_tables _ _ _ _ _ _ Hr)); [exact Hlt|]. by destruct lt; try done; destruct e, es as [|[] []]; try destruct f.
Qed.

Lemma assign_tuple_ok env st ρ n dest fields v dest_ty : rep env st ρ n → nty dest = Some dest_ty →
  forallb ok fields = true → rvalue_ok tcx mir (Aggregate AggTuple fields) dest_ty = true →
  compiled tcx args mir env (Aggregate AggTuple fields) = true →
  eval_rvalue tcx args mir env (Aggregate AggTuple fields) = Some v →
  emitted ρ n (assign_tuple dest fields st) (yields (<[dest := v]> env)).
Proof.
  intros Hr Hd Hok Hrv Hc Hv. simpl in *. apply bool_decide_eq_true in Hrv.
  destruct (mapM opty fields) as [tys|] eqn:Et; [|done]. injection Hrv as <-.
  destruct (mapM (eval_int args env) fields) as [zs|] eqn:Ez; [|done]. injection Hv as <-.
  assert (tuple_of_pointer dest (head fields) st = None) as Hnone.
  { destruct fields as [|op fields]; [done|]. simpl in *. apply andb_true_iff in Hok as [Ho _].
    apply andb_true_iff in Hc as [[p Hp]%bool_decide_eq_true _].
    destruct (opty op) as [t|] eqn:Eto; [|done]. destruct (eval_int args env op) as [z|] eqn:Ezo; [|done].
    destruct (no_pointer env st ρ n op p t z) as [P1 P2]; [done..|]. rewrite Hp. simpl. by rewrite P1, P2. }
  unfold assign_tuple. rewrite Hnone. eapply means_bind; [by eapply means_fields|].
  intros vs ? ? (Hvs & -> & ->) _ _. apply means_ret. by eapply represents_set_tuple.
Qed.

Lemma assign_option_ok env st ρ n p def vi fields v dest_ty : rep env st ρ n → no_projection p = true →
  nty (pl_local p) = Some dest_ty → forallb ok fields = true →
  rvalue_ok tcx mir (Aggregate (AggAdt def vi) fields) dest_ty = true →
  eval_rvalue tcx args mir env (Aggregate (AggAdt def vi) fields) = Some v →
  emitted ρ n (assign_aggregate tcx args fuel const_fuel mir p (AggAdt def vi) fields st) (yields (<[pl_local p := v]> env)).
Proof.
  intros Hr Hproj Hd Hok Hrv Hv. cbn [rvalue_ok] in Hrv. destruct (option_payload tcx dest_ty) as [t|] eqn:Hpay; [|done].
  unfold assign_aggregate. pose proof Hd as Hdl. unfold local_nty in Hdl.
  destruct (local_decls mir !! pl_local p) as [lt|] eqn:Elt; [|done]. simpl in Hdl. injection Hdl as Hlt.
  eapply (means_lift_bind _ _ _ _ (from_ty lt)).
  { rewrite place_ty_local by done. unfold local_ty. by rewrite Elt. }
  cbn [pt_ty from_ty]. rewrite Hlt, (payload_is_option _ _ _ Hpay). unfold codegen_option_aggregate. cbn [eval_rvalue] in Hv.
  destruct (Nat.eqb_spec vi 0) as [->|Hvi].
  - injection Hv as <-. apply means_ret. by eapply represents_set_option.
  - destruct fields as [|f fields]; [done|]. simpl in Hok, Hv, Hrv. apply andb_true_iff in Hok as [Hf _].
    apply bool_decide_eq_true in Hrv. destruct (eval_int args env f) as [z|] eqn:Ez; [|done]. injection Hv as <-.
    eapply means_lift_bind; [done|].
    eapply means_bind; [by eapply means_operand_at_ty|]. intros w ρ1 n1 Hw Hn Hx. cbn beta in Hw. apply means_ret.
    eapply represents_set_option; [by eapply represents_extends|done..].
Qed.

(** ** One assignment *)
Lemma means_assign env env' st ρ n (s : Place * Rvalue) : rep env st ρ n → typed_assign tcx mir s = true →
  compiled tcx args mir env s.2 = true → eval_assign tcx args mir env s = Some env' →
  emitted ρ n (codegen_assign tcx args infer fuel const_fuel mir s.1 s.2 st) (yields env').
Proof.
  destruct s as [p rv]. unfold typed_assign, eval_assign. cbn [fst snd]. intros Hr Hty Hc He.
  apply andb_true_iff in Hty as [[Hproj Hops]%andb_true_iff Hrv]. destruct (nty (pl_local p)) as [dest_ty|] eqn:Hd; [|done].
  destruct (eval_rvalue tcx args mir env rv) as [v|] eqn:Hv; [|done]. injection He as <-.
  destruct rv as [op| | | | |ck op ty|op a b|op a| |k fields| | |]; try done; unfold codegen_assign; cbn [operands_of forallb] in Hops.
  - simpl in Hrv. apply bool_decide_eq_true in Hrv. rewrite andb_true_r in Hops. simpl in Hv. destruct v as [z| |].
    + eapply use_scalar; try done. unfold eval_int. by rewrite Hv.
    + by eapply use_other.
    + by eapply use_other.
  - destruct ck; try done. rewrite andb_true_r in Hops. simpl in Hrv, Hc. apply bool_decide_eq_true in Hrv, Hc.
    eapply assign_int_to_int; try done. by rewrite <-Hrv.
  - rewrite andb_true_r in Hops. apply andb_true_iff in Hops as [Ha Hb].
    destruct (plain_op op) as [plain|] eqn:Hp; [by eapply assign_checked|by eapply assign_plain].
  - destruct op; try done. rewrite andb_true_r in Hops. simpl in Hrv, Hc. apply bool_decide_eq_true in Hrv, Hc. by eapply assign_neg.
  - destruct k; try done; [by eapply assign_tuple_ok|by eapply assign_option_ok].
Qed.
End assign.
