(* ===== verification/TritonStraight.v ===== *)
(** * Straight-line code: a sequence of assignments *)
From S2P Require Import Prelude Codegen Mir PlaceTypes ScalarInts IntOps TritonArith TritonArithFacts TritonArithThms TritonPhi TritonTypes TritonEmit TritonOperand TritonAssign TritonAssignSem TritonAssignFacts TritonAssignThms.
#[local] Open Scope Z_scope.

(** The assignments of a block, as [codegen_basic_block] runs them. *)
Fixpoint codegen_assigns (tcx : TyCtxt) (args : list GenericArg) (infer : ArithKind → MlirTy → MlirTy → MlirTy)
    (fuel const_fuel : nat) (mir : Body) (l : list (Place * Rvalue)) (st : State) : gen State :=
  match l with
  | [] => mret st
  | s :: l' =>
      st' ← codegen_assign tcx args infer fuel const_fuel mir s.1 s.2 st;
      codegen_assigns tcx args infer fuel const_fuel mir l' st'
  end.

(** Scalar types are closed: normalising them does nothing. *)
Definition scalars_closed (tcx : TyCtxt) : Prop := ∀ t, is_Some (scalar_width t) → normalize tcx t = t.

Section straight.
Context (tcx : TyCtxt) (args : list GenericArg) (infer : ArithKind → MlirTy → MlirTy → MlirTy).
Context (fuel const_fuel : nat) (mir : Body) (eval : arith_eval).
Context (Hdoc : arith_doc eval) (Hnorm : scalars_closed tcx) (Hinfer : ∀ k t, infer k t t = t).

Lemma eval_assigns_none l : foldl (λ e s, e ≫= λ env, eval_assign tcx args mir env s) None l = None.
Proof. by induction l. Qed.

Lemma compiled_evals l : ∀ env, compiled_all tcx args mir env l = true → ∃ env', eval_assigns tcx args mir env l = Some env'.
Proof.
  unfold eval_assigns. induction l as [|s l IH]; intros env Hc; [by exists env|]. cbn [compiled_all foldl mbind option_bind] in *.
  destruct (eval_assign tcx args mir env s) as [env1|]; [|by rewrite andb_false_r in Hc].
  apply andb_true_iff in Hc as [_ Hc]. by apply IH.
Qed.

Lemma means_assigns l : ∀ env env' st ρ n, represents tcx mir env st ρ n → compiled_all tcx args mir env l = true →
  eval_assigns tcx args mir env l = Some env' →
  means eval ρ n (codegen_assigns tcx args infer fuel const_fuel mir l st) (λ ρ' n' st', represents tcx mir env' st' ρ' n').
Proof.
  unfold eval_assigns. induction l as [|s l IH]; intros env env' st ρ n Hr Hc He; cbn [compiled_all foldl mbind option_bind codegen_assigns] in *.
  { injection He as <-. by apply means_ret. }
  apply andb_true_iff in Hc as [[Hty Hcs]%andb_true_iff Hc].
  destruct (eval_assign tcx args mir env s) as [env1|] eqn:E1; [|done].
  eapply means_bind; [by eapply (means_assign tcx args fuel const_fuel mir eval Hdoc Hnorm infer Hinfer)|]. intros st1 ρ1 n1 Hr1 _ _. exact (IH _ _ _ _ _ Hr1 Hc He).
Qed.
End straight.

(** C4: A sequence of well-typed assignments to locals over integers, booleans,
    tuples of them and options of them (copies, constants, generic parameters,
    arithmetic, comparisons, shifts below the width, checked arithmetic that
    does not overflow, negation of [i32], conversions that keep the width,
    tuples and options) compiles without error, and executing the appended
    operations from values that represent the environment gives values that
    represent the environment after the assignments, as the interpreter
    computes it; no existing value changes. *)
Theorem straight_line_refines tcx args infer fuel const_fuel mir eval env st ρ blk stmts :
  arith_doc eval → scalars_closed tcx → (∀ k t, infer k t t = t) →
  represents tcx mir env st ρ (next_value blk) → compiled_all tcx args mir env stmts = true →
  ∃ env' st' blk' ops ρ',
    eval_assigns tcx args mir env stmts = Some env' ∧
    codegen_assigns tcx args infer fuel const_fuel mir stmts st blk = Ret (inr (st', blk')) ∧
    mb_ops blk' = mb_ops blk ++ ops ∧ exec_ops eval ρ ops = Some ρ' ∧
    represents tcx mir env' st' ρ' (next_value blk') ∧ ∀ i, (i < next_value blk)%nat → ρ' i = ρ i.
Proof.
  intros Hdoc Hnorm Hinfer Hr Hc. destruct (compiled_evals tcx args mir stmts env Hc) as [env' He].
  destruct (means_assigns tcx args infer fuel const_fuel mir eval Hdoc Hnorm Hinfer stmts env env' st ρ _ Hr Hc He blk eq_refl)
    as (st' & blk' & ops & ρ' & ? & ? & ? & ? & ? & ?). by exists env', st', blk', ops, ρ'.
Qed.

(** ** A concrete block

    [_3 = _1 + N; _4 = _3 < _2; _5 = CheckedSub(_3, _2); _6 = _5.0; _7 = Some(_6);
    _8 = (_7 as Some).0; _9 = -_8; _10 = (_9, _4)], for [N = 5]. *)
Definition str_tcx : TyCtxt := mkTyCtxt (λ _, "core::option::Option"%string) (λ _, "core::option::Option"%string) (λ _, true) (λ _ _, TyError)
  (λ _, None) (λ t, t) (λ _, None) (λ _, None) (λ _, None) (λ _, None) (λ _, None).
Definition i32 : Ty := TyInt I32.
Definition str_mir : Body := mkBody [] [TyTuple []; i32; i32; i32; TyBool; TyTuple [i32; TyBool]; i32; TyAdt 0 [i32]; i32; i32; TyTuple [i32; TyBool]] 2.
Definition str_args : list GenericArg := [ArgConst (CkValue (i32, Leaf (mkScalarInt 5 4)))].
Definition loc (l : Local) : Place := mkPlace l [].
Definition str_block : list (Place * Rvalue) :=
  [(loc 3, BinaryOp Add (Copy (loc 1)) (Constant (ConstTy i32 (CkParam 0))));
   (loc 4, BinaryOp BLt (Copy (loc 3)) (Copy (loc 2)));
   (loc 5, BinaryOp SubWithOverflow (Copy (loc 3)) (Copy (loc 2)));
   (loc 6, Use (Move (mkPlace 5 [Field 0 i32])));
   (loc 7, Aggregate (AggAdt 0 1) [Move (loc 6)]);
   (loc 8, Use (Copy (mkPlace 7 [Downcast 1; Field 0 i32])));
   (loc 9, UnaryOp Neg (Copy (loc 8)));
   (loc 10, Aggregate AggTuple [Copy (loc 9); Copy (loc 4)])].
Definition str_env : Env := {[1%nat := VInt 7; 2%nat := VInt 3]}.
Definition str_state : State :=
  with_ssa new_state {[1%nat := mkValue 0 (MInt 32); 2%nat := mkValue 1 (MInt 32)]}.
Definition str_values : MEnv := λ i, match i with 0%nat => Some 7 | 1%nat => Some 3 | _ => None end.

Lemma str_represents : represents str_tcx str_mir str_env str_state str_values 2.
Proof.
  split; [split; intros; by rewrite ?lookup_empty|].
  intros l v. unfold str_env. rewrite lookup_insert_Some. intros [[<- <-]|[_ [<- <-]%lookup_singleton_Some]].
  - exists (mkValue 0 (MInt 32)). split; [done|]. exists 32. split_and!; try done; simpl; lia.
  - exists (mkValue 1 (MInt 32)). split; [done|]. exists 32. split_and!; try done; simpl; lia.
Qed.

Lemma str_closed : scalars_closed str_tcx.
Proof. done. Qed.

Lemma straight_line_refines_witness : compiled_all str_tcx str_args str_mir str_env str_block = true ∧
  ∃ env' st' blk' ops ρ', eval_assigns str_tcx str_args str_mir str_env str_block = Some env' ∧
    codegen_assigns str_tcx str_args infer_left 4 4 str_mir str_block str_state (mkMBlock 2 []) = Ret (inr (st', blk')) ∧
    mb_ops blk' = ops ∧ exec_ops arith_ref str_values ops = Some ρ' ∧
    represents str_tcx str_mir env' st' ρ' (next_value blk').
Proof.
  assert (Hc : compiled_all str_tcx str_args str_mir str_env str_block = true) by (vm_compute; reflexivity).
  split; [exact Hc|].
  destruct (straight_line_refines str_tcx str_args infer_left 4 4 str_mir arith_ref str_env str_state str_values (mkMBlock 2 []) str_block
    arith_ref_doc str_closed (λ _ _, eq_refl) str_represents Hc) as (env' & st' & blk' & ops & ρ' & H1 & H2 & H3 & H4 & H5 & _).
  exists env', st', blk', ops, ρ'. split; [exact H1|]. split; [exact H2|]. split; [exact H3|]. split; [exact H4|exact H5].
Defined.

(** The environment at the end: [_10 = (-9, false)]. *)
Example str_result : (λ env, (env !! 10%nat, env !! 7%nat)) <$> eval_assigns str_tcx str_args str_mir str_env str_block =
  Some (Some (VTup [2 ^ 32 - 9; 0]), Some (VOpt (Some 9))).
Proof. vm_compute. reflexivity. Qed.

(** ** Where assignments go wrong *)
Section divergences.
Context (tcx : TyCtxt) (args : list GenericArg) (infer : ArithKind → MlirTy → MlirTy → MlirTy).
Context (fuel const_fuel : nat) (mir : Body).
Abbreviation assign := (codegen_assign tcx args infer (S fuel) const_fuel mir).
Implicit Types (st : State) (blk : MBlock) (dest src : Place).

Ltac run_assign :=
  repeat first [progress cbv [codegen_assign assign_cast assign_use assign_array assign_aggregate cast_tables codegen_cast codegen_operand
    operand_norm_ty operand_ty place_ty int_from_scalar mbind cg_bind cg_lift outcome_bind mret cg_ret outcome_ret] | progress cbn].

Lemma cast_copies dest src ty st v blk : codegen_copy st src = Ret v →
  assign dest (Cast IntToInt (Copy src) ty) st blk = Ret (inr (set_ssa (pl_local dest) v st, blk)).
Proof.
  intros E. run_assign. by rewrite E.
Qed.
Lemma constant_option_is_none dest c st blk : is_option tcx (normalize tcx (ty_of_const c)) = true →
  assign dest (Use (Constant c)) st blk = Ret (inr (set_option (pl_local dest) None st, blk)).
Proof. intros E. run_assign. by rewrite E. Qed.

Definition five : Const := ConstVal (CvScalar (ScalarInt_ (mkScalarInt 5 4))) i32.
Lemma field_store_lost l i t st blk fields : normalize tcx i32 = i32 →
  tuple_fields st !! l = Some fields → option_table st !! l = None →
  ∃ st' blk', assign (mkPlace l [Field i t]) (Use (Constant five)) st blk = Ret (inr (st', blk')) ∧
    codegen_copy st' (mkPlace l [Field i t]) = unwrap (fields !! i).
Proof.
  intros Hn Ht Ho. eexists _, _. split.
  - run_assign. rewrite Hn. run_assign. reflexivity.
  - unfold codegen_copy. cbn. by rewrite Ho, bool_decide_false, Ht by (by intros [? ?]).
Qed.

Lemma array_readers_disagree x : 128 ≤ x < 256 →
  array_scalar (mkScalarInt x 1) = Ret x ∧ read_elem 1 (ScalarInt_ (mkScalarInt x 1)) = Ret (Some (x - 256)).
Proof.
  intros Hx. cbn [array_scalar si_size read_elem]. rewrite to_u8_ok by (done || (cbn [si_data]; lia)). split; [done|].
  unfold SI.to_i8. pose proof (to_int_ok (mkScalarInt x 1)) as E. cbn [si_size] in E.
  rewrite E by (split; [unfold size_ok; cbn; lia|cbn [si_data si_size]; change (Size.bits 1) with 8; lia]). cbn [mbind outcome_bind].
  change (Size.bits 1) with 8. unfold as_i. rewrite as_u_id by (cbn [si_data]; lia). cbn [si_data].
  rewrite (proj2 (Z.ltb_ge _ _)) by lia. change (2 ^ 8) with 256. rewrite (proj2 (Z.leb_le _ _)), (proj2 (Z.ltb_lt _ _)) by lia. done.
Qed.

Lemma reassigned_array_keeps_values l d t n fields elems vs st blk :
  local_ty mir l = Ret (TyArray t n) → normalize tcx (TyArray t n) = TyArray t n →
  collect_options (array_elem args const_fuel mir) fields = Ret (Some elems) → lookup_dyn_array l st = Some vs →
  ∃ st1 st2, assign (mkPlace l []) (Aggregate (AggArray t) fields) st blk = Ret (inr (st1, blk)) ∧
    assign (mkPlace d []) (Use (Copy (mkPlace l []))) st1 blk = Ret (inr (st2, blk)) ∧
    lookup_const_array l st1 = Some elems ∧ lookup_dyn_array d st2 = Some vs.
Proof.
  intros Hl Hn Hc Hd. exists (set_const_array l elems st), (set_dyn_array d vs (set_const_array l elems st)). split_and!.
  - run_assign. by rewrite Hc.
  - run_assign. rewrite Hl. run_assign. rewrite Hn. run_assign.
    unfold copy_side_table. change (lookup_dyn_array l (set_const_array l elems st)) with (lookup_dyn_array l st). by rewrite Hd.
  - unfold lookup_const_array. cbn. by rewrite lookup_insert_eq.
  - unfold lookup_dyn_array. cbn. by rewrite lookup_insert_eq.
Qed.

Lemma float_conversion_is_signed dest src st v blk : codegen_copy st src = Ret v → normalize tcx (TyFloat F32) = TyFloat F32 →
  ∃ st' blk' o, assign dest (Cast IntToFloat (Copy src) (TyFloat F32)) st blk = Ret (inr (st', blk')) ∧
    mb_ops blk' = mb_ops blk ++ [o] ∧ ao_kind o = sitofp ∧ ao_args o = [v].
Proof.
  intros E Hn. eexists _, _, _. split.
  - run_assign. rewrite E. run_assign. rewrite Hn. run_assign. reflexivity.
  - cbn. done.
Qed.
End divergences.

(** C35: Where the code of an assignment is not what the MIR means.  A conversion
    between integers keeps the value and type it converts, whatever the target;
    a constant of an option type is recorded as [None], whatever it is; a value
    stored in a field of a tuple is lost, reading the field gives the one before;
    a byte above 127 of a constant array is read as itself from an aggregate and
    as negative from a reference; an array whose elements become constant keeps
    its old elements for the next copy; and an integer converts to a float as a
    signed one, whatever its type. *)
Theorem assignment_divergences (tcx : TyCtxt) (args : list GenericArg) (infer : ArithKind → MlirTy → MlirTy → MlirTy)
    (fuel const_fuel : nat) (mir : Body) :
  let assign := codegen_assign tcx args infer (S fuel) const_fuel mir in
  (∀ dest src ty st v blk, codegen_copy st src = Ret v →
    assign dest (Cast IntToInt (Copy src) ty) st blk = Ret (inr (set_ssa (pl_local dest) v st, blk))) ∧
  (∀ dest c st blk, is_option tcx (normalize tcx (ty_of_const c)) = true →
    assign dest (Use (Constant c)) st blk = Ret (inr (set_option (pl_local dest) None st, blk))) ∧
  (∀ l i t st blk fields, normalize tcx i32 = i32 → tuple_fields st !! l = Some fields → option_table st !! l = None →
    ∃ st' blk', assign (mkPlace l [Field i t]) (Use (Constant five)) st blk = Ret (inr (st', blk')) ∧
      codegen_copy st' (mkPlace l [Field i t]) = unwrap (fields !! i)) ∧
  (∀ x, 128 ≤ x < 256 → array_scalar (mkScalarInt x 1) = Ret x ∧ read_elem 1 (ScalarInt_ (mkScalarInt x 1)) = Ret (Some (x - 256))) ∧
  (∀ l d t n fields elems vs st blk,
    local_ty mir l = Ret (TyArray t n) → normalize tcx (TyArray t n) = TyArray t n →
    collect_options (array_elem args const_fuel mir) fields = Ret (Some elems) → lookup_dyn_array l st = Some vs →
    ∃ st1 st2, assign (mkPlace l []) (Aggregate (AggArray t) fields) st blk = Ret (inr (st1, blk)) ∧
      assign (mkPlace d []) (Use (Copy (mkPlace l []))) st1 blk = Ret (inr (st2, blk)) ∧
      lookup_const_array l st1 = Some elems ∧ lookup_dyn_array d st2 = Some vs) ∧
  (∀ dest src st v blk, codegen_copy st src = Ret v → normalize tcx (TyFloat F32) = TyFloat F32 →
    ∃ st' blk' o, assign dest (Cast IntToFloat (Copy src) (TyFloat F32)) st blk = Ret (inr (st', blk')) ∧
      mb_ops blk' = mb_ops blk ++ [o] ∧ ao_kind o = sitofp ∧ ao_args o = [v]).
Proof.
  cbv zeta. split; [intros; by apply cast_copies|]. split; [intros; by apply constant_option_is_none|].
  split; [intros; by apply field_store_lost|]. split; [intros; by apply array_readers_disagree|].
  split; [intros; by eapply reassigned_array_keeps_values|intros; by apply float_conversion_is_signed].
Qed.

(** [let mut t = (_1, _2); t.0 = 5;] leaves [t.0] at [_1]. *)
Lemma assignment_divergences_witness :
  let st := set_tuple 3 [mkValue 0 (MInt 32); mkValue 1 (MInt 32)] str_state in
  ∃ st' blk', codegen_assign str_tcx str_args infer_left 4 4 str_mir (mkPlace 3 [Field 0 i32]) (Use (Constant five)) st (mkMBlock 2 [])
      = Ret (inr (st', blk')) ∧
    codegen_copy st' (mkPlace 3 [Field 0 i32]) = Ret (mkValue 0 (MInt 32)).
Proof.
  destruct (assignment_divergences str_tcx str_args infer_left 3 4 str_mir) as (_ & _ & H & _).
  exact (H 3%nat 0%nat i32 (set_tuple 3 [mkValue 0 (MInt 32); mkValue 1 (MInt 32)] str_state) (mkMBlock 2 [])
    [mkValue 0 (MInt 32); mkValue 1 (MInt 32)] eq_refl eq_refl eq_refl).
Defined.
