(* ===== verification/TritonTensor.v ===== *)
(** * Triton backend: tensor operations

    [rustc_codegen_llvm/src/mlir/codegen/triton/ops/triton/tensor.rs]: the
    handlers of calls that create, move and reshape tensors, with the builders of
    [rustc_mlir/src/triton/tensor.rs], each modelled by the operation it builds.
    [TritonMath] has the other handlers and the table that chooses one.

    A block holds the operations of this file and, lifted, those of [TritonArith]
    and [TritonOperand].  Debug assertions and overflow checks of [i32] and [i64]
    arithmetic are on: they panic. *)
From S2P Require Import Prelude Codegen Mir PlaceTypes ScalarInts TritonArith TritonConst TritonPhi TritonTypes TritonEmit TritonOperand TritonAssign.
#[local] Open Scope Z_scope.

(** ** Operations *)
Inductive InputPrecision := TF32 | TF32x3 | IEEE | BF16x3 | BF16x6.
Inductive ScaleDotElemType := E4M3 | E5M2 | E2M3 | E3M2 | E2M1 | BF16 | FP16.
Inductive RmwOp := RmwAnd | RmwOr | RmwXor | RmwAdd | RmwFadd | RmwMax | RmwMin | RmwUmax | RmwUmin | RmwXchg.
Inductive MathFn := absf | ceil | floor | cos | sin | exp | exp2 | log | log2 | sqrt | erf.
Inductive ProgramAxis := Axis0 | Axis1 | Axis2.

(** The operation of a combine region. *)
Inductive CombineOp := CAddf | CAddi | CMulf | CMuli | CMaximumf | CMaxsi | CMinimumf | CMinsi | CXori.
Inductive RegionEnd := ReduceReturn | ScanReturn.
(** A region of one block: its arguments, one operation on some of them, and the
    return of its result. *)
Record Region := mkRegion {
  rg_args : list MlirTy;
  rg_op : CombineOp;
  rg_operands : list nat;
  rg_result : MlirTy;
  rg_end : RegionEnd }.

(** [tt_load mask other], [tt_store mask] and [atomic_rmw op mask] say which
    optional operands are there; the attributes the code never varies (cache,
    eviction, volatility, memory semantics and scope, NaN propagation) are left
    out. *)
Inductive TKind :=
  | arith (k : ArithKind)
  | trunci | extsi | select
  | maximumf | minimumf | minsi
  | make_range (start end_ : Z)
  | add_ptr
  | tt_load (mask other : bool)
  | tt_store (mask : bool)
  | cat
  | expand_dims (axis : Z)
  | trans (order : list Z)
  | reshape (allow_reorder efficient_layout : bool)
  | join
  | split
  | dot (precision : InputPrecision) (max_num_imprecise_acc : Z)
  | dot_scaled (lhs rhs : ScaleDotElemType) (fast_math : bool)
  | reduce (axis : Z) (combine_op : Region)
  | scan (axis : Z) (reverse : bool) (combine_op : Region)
  | math (f : MathFn)
  | fma | clampf | precise_sqrt | precise_divf | mulhiui
  | extern_elementwise (symbol : string)
  | gather (axis : Z)
  | histogram (mask : bool)
  | atomic_rmw (op : RmwOp) (mask : bool)
  | atomic_cas
  | get_program_id (axis : ProgramAxis) | get_num_programs (axis : ProgramAxis)
  | make_tensor_ptr (shape strides offsets : nat) (order : list Z)
  | make_tensor_descriptor (shape strides : nat)
  | advance | descriptor_load | descriptor_store
  | assert_op (message : string)
  | tt_print (prefix : string)
  | call (callee : string).

Record TOp := mkTOp { to_results : list Value; to_kind : TKind; to_args : list Value }.
Record TBlock := mkTBlock { tb_next : nat; tb_ops : list TOp }.

(** The state of the handlers: [CodegenState] with its [desc_block_shapes]. *)
Record TState := mkTState { ts_state : State; desc_block_shapes : gmap Local (list Z) }.
Definition on_state (f : State → State) (st : TState) : TState := mkTState (f (ts_state st)) (desc_block_shapes st).

Abbreviation tgen := (cg TBlock).
Definition terr {A} (e : MlirError) : tgen A := λ _, Ret (inl e).

(** Values of the types [tys], numbered from [n]. *)
Fixpoint fresh_values (n : nat) (tys : list MlirTy) : list Value :=
  match tys with [] => [] | t :: tys' => mkValue n t :: fresh_values (S n) tys' end.
(** Build an operation and append it; the answer is its results. *)
Definition append (k : TKind) (args : list Value) (tys : list MlirTy) : tgen (list Value) := λ b,
  let vs := fresh_values (tb_next b) tys in
  Ret (inr (vs, mkTBlock (tb_next b + length tys)%nat (tb_ops b ++ [mkTOp vs k args]))).
Definition append1 (k : TKind) (args : list Value) (ty : MlirTy) : tgen Value :=
  vs ← append k args [ty]; cg_lift (unwrap (head vs)).
Definition append0 (k : TKind) (args : list Value) : tgen unit := _ ← append k args []; mret tt.

(** Code of the other files, on the same block. *)
Definition of_arith (o : ArithOp) : TOp := mkTOp [ao_result o] (arith (ao_kind o)) (ao_args o).
Definition lift {A} (m : gen A) : tgen A := λ b,
  r ← m (mkMBlock (tb_next b) []);
  match r with
  | inl e => Ret (inl e)
  | inr (a, mb) => Ret (inr (a, mkTBlock (next_value mb) (tb_ops b ++ (of_arith <$> mb_ops mb))))
  end.

(** ** Types and dimensions *)
(** [RankedTensorType::try_from(..)?] *)
Definition ranked_tensor (t : MlirTy) : tgen (list Z * MlirTy) :=
  match ranked t with Some r => mret r | None => terr InvalidType end.
(** The element type of a ranked tensor, or the type itself. *)
Definition elem_ty_from_type (t : MlirTy) : MlirTy := match ranked t with Some (_, e) => e | None => t end.
Definition elem_ty (v : Value) : MlirTy := elem_ty_from_type (v_ty v).

(** Checked [i64] and [i32] arithmetic. *)
Definition check_i64 (z : Z) : outcome Z := if (- 2 ^ 63 <=? z) && (z <? 2 ^ 63) then Ret z else Panic.
Definition check_i32 (z : Z) : outcome Z := if (- 2 ^ 31 <=? z) && (z <? 2 ^ 31) then Ret z else Panic.
(** [dims.iter().product()] *)
Definition product (dims : list Z) : outcome Z := ofold (λ p d, check_i64 (p * d)) 1 dims.
Definition as_i32 (z : Z) : Z := as_i 32 z.

(** [Vec::insert(axis as usize, 1)] *)
Definition insert_dim (dims : list Z) (axis : Z) : outcome (list Z) :=
  if (0 <=? axis) && (axis <=? Z.of_nat (length dims))
  then Ret (take (Z.to_nat axis) dims ++ [1] ++ drop (Z.to_nat axis) dims) else Panic.
(** [dims[i as usize]] *)
Definition index_dim (dims : list Z) (i : Z) : outcome Z :=
  if 0 <=? i then unwrap (dims !! Z.to_nat i) else Panic.

Definition reduced_dims (axis : Z) (dims : list Z) : list Z :=
  snd <$> filter (λ d, Z.of_nat d.1 ≠ axis) (zip (seq 0 (length dims)) dims).
Definition kept_dims (axis : Z) (dims : list Z) : list Z :=
  imap (λ i d, if Z.of_nat i =? axis then 1 else d) dims.
Definition reduce_result_ty (src : Value) (axis : Z) : MlirTy :=
  match ranked (v_ty src) with
  | Some (dims, elem) =>
      let out_dims := reduced_dims axis dims in
      match out_dims with [] => elem | _ => tensor_type out_dims elem end
  | None => v_ty src
  end.

(** ** Handlers

    A handler gets the operands [fargs] and the destination of the call. *)
Section tensor.
Context (tcx : TyCtxt) (gargs : list GenericArg) (fuel const_fuel : nat) (mir : Body).
Implicit Types (fargs : list Operand) (destination : Place) (st : TState).

(** [args[i].node] *)
Definition farg fargs (i : nat) : tgen Operand := cg_lift (unwrap (fargs !! i)).
(** [debug_assert!(args.len() == n)] *)
Definition expect_args fargs (n : nat) : tgen unit :=
  if Nat.eqb (length fargs) n then mret tt else cg_panic.
(** The operand at its type in the body. *)
Definition operand_value st (op : Operand) : tgen Value :=
  ty ← cg_lift (operand_ty (boxed_ty tcx) mir op);
  lift (codegen_operand tcx gargs fuel (ts_state st) op ty).
Definition eval_arg fargs (i : nat) st : tgen Value := op ← farg fargs i; operand_value st op.
Definition eval_option_arg fargs (i : nat) st : tgen (option Value) :=
  op ← farg fargs i; lift (codegen_option_operand tcx gargs fuel mir (ts_state st) op).
(** [to_scalar_int(args[i])], an [Err] being [None]. *)
Definition scalar_arg fargs (i : nat) : tgen (option ScalarInt) :=
  op ← farg fargs i;
  r ← cg_lift (to_scalar_int gargs op);
  mret match r with inr s => Some s | inl _ => None end.
(** [to_scalar_int(..).map(f).unwrap_or(d)] *)
Definition scalar_or {A} (o : option ScalarInt) (f : ScalarInt → outcome A) (d : A) : tgen A :=
  match o with Some s => cg_lift (f s) | None => mret d end.
(** [try_eval_const_i32(args[i])?] *)
Definition const_i32_arg fargs (i : nat) : tgen Z :=
  op ← farg fargs i;
  r ← cg_lift (try_eval_const_i32 gargs mir const_fuel op);
  match r with inr z => mret z | inl e => terr e end.

(** The MLIR type of the destination. *)
Definition dest_rust_ty destination : outcome Ty :=
  t ← place_ty (boxed_ty tcx) mir destination; Ret (normalize tcx (pt_ty t)).
Definition dest_mlir_ty destination : tgen MlirTy :=
  ty ← cg_lift (dest_rust_ty destination); cg_lift (map_type tcx fuel ty).

Definition codegen_ub_stub destination : tgen (option Value) :=
  dest_ty ← cg_lift (dest_rust_ty destination);
  match dest_ty with
  | TyTuple [] => mret None
  | _ =>
      result_ty ← cg_lift (map_type tcx fuel dest_ty);
      v ← append1 (arith ub_poison) [] result_ty; mret (Some v)
  end.

(** *** Shapes in slices *)
Definition shape_from_slice_arg (arg : Operand) st : tgen (list Z) :=
  match operand_place arg with
  | Some p => match lookup_slice_shape (pl_local p) (ts_state st) with Some s => mret s | None => terr CodegenFailed end
  | None => terr CodegenFailed
  end.
Definition shape_arg fargs (i : nat) st : tgen (list Z) := op ← farg fargs i; shape_from_slice_arg op st.
Definition shape_from_slice_arg_i32 (arg : Operand) st : option (list Z) :=
  p ← operand_place arg; option_map (map as_i32) (lookup_slice_shape (pl_local p) (ts_state st)).

(** The values of a slice, [None] for an error; constants are made by [mk]. *)
Definition slice_values (mk : Z → MlirInt) (arg : Operand) st : tgen (option (list Value)) :=
  match operand_place arg with
  | None => mret None
  | Some p =>
      match lookup_slice_dyn (pl_local p) (ts_state st), lookup_slice_shape (pl_local p) (ts_state st) with
      | Some vals, _ => mret (Some vals)
      | None, Some shape => vs ← cg_map (λ v, lift (create_int_constant (mk v))) shape; mret (Some vs)
      | None, None => mret None
      end
  end.
Definition slice_as_i64_values : Operand → TState → tgen (option (list Value)) := slice_values (λ v, II64 (as_u 64 v)).
Definition slice_as_i32_values : Operand → TState → tgen (option (list Value)) := slice_values (λ v, II32 (as_u 32 v)).
(** [?] *)
Definition or_codegen_failed {A} (o : option A) : tgen A :=
  match o with Some a => mret a | None => terr CodegenFailed end.

(** *** Splats *)
Definition splat_scalar_const (scalar_val : Value) (result_ty : MlirTy) : tgen Value :=
  if is_tensor result_ty then append1 (arith splat) [scalar_val] result_ty else mret scalar_val.

(** The scalar zero of an element type: for integers always an [i32];
    [FloatAttribute] is of float types only. *)
Definition zero_constant (elem : MlirTy) : tgen Value :=
  if is_integer elem then lift (create_int_constant (II32 0))
  else if is_float elem then append1 (arith float_zero) [] elem else cg_panic.
(** A tensor of null pointers. *)
Definition null_pointers (elem tensor_ty : MlirTy) : tgen Value :=
  null_i64 ← lift (create_int_constant (II64 0));
  null_ptr ← append1 (arith int_to_ptr) [null_i64] elem;
  append1 (arith splat) [null_ptr] tensor_ty.
Definition zero_tensor (elem tensor_ty : MlirTy) : tgen Value :=
  if negb (is_integer elem) && negb (is_float elem) then null_pointers elem tensor_ty
  else zero_val ← zero_constant elem; append1 (arith splat) [zero_val] tensor_ty.

(** ** Creation *)
Definition make_range_op (start end_ : Z) : tgen Value :=
  n ← cg_lift (check_i32 (end_ - start));
  append1 (make_range start end_) [] (tensor_type [n] (MInt 32)).

Definition codegen_arange fargs : tgen (option Value) :=
  _ ← expect_args fargs 2;
  start ← const_i32_arg fargs 0;
  end_ ← const_i32_arg fargs 1;
  v ← make_range_op start end_; mret (Some v).

Definition codegen_arange_f32 fargs : tgen (option Value) :=
  _ ← expect_args fargs 2;
  start ← const_i32_arg fargs 0;
  end_ ← const_i32_arg fargs 1;
  n ← cg_lift (check_i32 (end_ - start));
  i32_range ← make_range_op start end_;
  v ← append1 (arith sitofp) [i32_range] (tensor_type [n] (MFloat 32)); mret (Some v).

Definition zeros_shape fargs st : list Z :=
  default [1] (op ← head fargs; p ← operand_place op; lookup_slice_shape (pl_local p) (ts_state st)).
Definition codegen_zeros fargs destination st : tgen (option Value) :=
  let shape := zeros_shape fargs st in
  mapped ← dest_mlir_ty destination;
  elem_mlir_ty ← (if is_tensor mapped then t ← ranked_tensor mapped; mret t.2 else mret mapped : tgen MlirTy);
  v ← zero_tensor elem_mlir_ty (tensor_type shape elem_mlir_ty); mret (Some v).

Definition codegen_zeros_like fargs st : tgen (option Value) :=
  _ ← expect_args fargs 1;
  tensor ← eval_arg fargs 0 st;
  t ← ranked_tensor (v_ty tensor);
  v ← zero_tensor t.2 (v_ty tensor); mret (Some v).

(** [rustc_mlir]'s [zeros_like] ends in [todo!] for a tensor; the operand's own
    error is dropped. *)
Definition codegen_zeros_pointer_call fargs destination st : tgen (option Value) :=
  match fargs with
  | [] => codegen_ub_stub destination
  | op :: _ => λ b,
      r ← operand_value st op b;
      match r with
      | inr (v, b') => match ranked (v_ty v) with Some _ => Panic | None => Ret (inl CreateOperation) end
      | inl _ => codegen_ub_stub destination b
      end
  end.

Definition codegen_full_call fargs destination st : tgen (option Value) :=
  scalar ← eval_arg fargs 1 st;
  mapped_ty ← dest_mlir_ty destination;
  shape_op ← farg fargs 0;
  let result_ty :=
    match p ← operand_place shape_op; lookup_slice_shape (pl_local p) (ts_state st) with
    | Some shape => tensor_type shape (elem_ty_from_type mapped_ty)
    | None => mapped_ty
    end in
  v ← splat_scalar_const scalar result_ty; mret (Some v).

(** ** Memory *)
Definition codegen_add_ptr fargs st : tgen (option Value) :=
  _ ← expect_args fargs 2;
  ptr ← eval_arg fargs 0 st;
  offset ← eval_arg fargs 1 st;
  _ ← (if is_tensor (v_ty offset) then mret tt else cg_panic : tgen unit);
  ptr ← lift (like_tensor offset ptr);
  v ← append1 add_ptr [ptr; offset] (v_ty ptr); mret (Some v).

(** The result of a load: the shape of the pointer, the element of the
    destination. *)
Definition load_result_ty (ptr : Value) (dest : MlirTy) : MlirTy :=
  match ranked (v_ty ptr) with
  | Some (shape, _) => tensor_type shape (elem_ty_from_type dest)
  | None => dest
  end.
Definition is_some {A} (o : option A) : bool := match o with Some _ => true | None => false end.
Definition load_op (ptr : Value) (mask other : option Value) (result_ty : MlirTy) : tgen Value :=
  append1 (tt_load (is_some mask) (is_some other)) (ptr :: option_list mask ++ option_list other) result_ty.

Definition codegen_load fargs destination st : tgen (option Value) :=
  ptr ← eval_arg fargs 0 st;
  mask ← eval_option_arg fargs 1 st;
  other ← eval_option_arg fargs 2 st;
  dest ← dest_mlir_ty destination;
  v ← load_op ptr mask other (load_result_ty ptr dest); mret (Some v).

Definition codegen_load_scalar_f32_as_i32 fargs st : tgen (option Value) :=
  _ ← expect_args fargs 2;
  ptr ← eval_arg fargs 0 st;
  offset ← eval_arg fargs 1 st;
  new_ptr ← append1 add_ptr [ptr; offset] (pointer_type (MFloat 32));
  f32_val ← load_op new_ptr None None (MFloat 32);
  v ← append1 (arith fptosi) [f32_val] (MInt 32); mret (Some v).

Definition codegen_store fargs st : tgen (option Value) :=
  ptr ← eval_arg fargs 0 st;
  value ← eval_arg fargs 1 st;
  mask ← eval_option_arg fargs 2 st;
  _ ← append0 (tt_store (is_some mask)) (ptr :: value :: option_list mask);
  mret None.

(** The slice of [slice_from_raw_parts]: only the tables change. *)
Definition codegen_transmute_slice fargs destination st : option Value * TState :=
  let dest := pl_local destination in
  match op ← head fargs; operand_place op with
  | Some p =>
      match lookup_slice_shape (pl_local p) (ts_state st), lookup_slice_dyn (pl_local p) (ts_state st) with
      | Some shape, _ => (None, on_state (set_slice_shape dest shape) st)
      | None, Some vals => (None, on_state (set_slice_dyn dest vals) st)
      | None, None => (None, st)
      end
  | None => (None, st)
  end.

(** ** Shapes *)
Definition codegen_cat_call fargs st : tgen (option Value) :=
  lhs ← eval_arg fargs 0 st;
  rhs ← eval_arg fargs 1 st;
  l ← ranked_tensor (v_ty lhs);
  r ← ranked_tensor (v_ty rhs);
  result_dims ← cg_lift (omapM (λ d, check_i64 (d.1 + d.2)) (zip l.1 r.1));
  v ← append1 cat [lhs; rhs] (tensor_type result_dims l.2); mret (Some v).

Definition codegen_broadcast_call fargs destination st : tgen (option Value * TState) :=
  lhs ← eval_arg fargs 0 st;
  rhs ← eval_arg fargs 1 st;
  l ← ranked_tensor (v_ty lhs);
  r ← ranked_tensor (v_ty rhs);
  let broadcast_dims := zip_with broadcast_dim l.1 r.1 in
  lhs_out ← lift (do_broadcast broadcast_dims l.2 lhs l.1);
  rhs_out ← lift (do_broadcast broadcast_dims l.2 rhs r.1);
  mret (None, on_state (set_tuple (pl_local destination) [lhs_out; rhs_out]) st).

Definition broadcast_valid (src_dims shape : list Z) : bool :=
  Nat.eqb (length src_dims) (length shape) &&
  forallb (λ d, (d.1 =? 1) || (d.1 =? d.2) || (d.1 =? DYNAMIC) || (d.2 =? DYNAMIC)) (zip src_dims shape).
Definition codegen_broadcast_to_call fargs st : tgen (option Value) :=
  src ← eval_arg fargs 0 st;
  shape ← shape_arg fargs 1 st;
  t ← ranked_tensor (v_ty src);
  if broadcast_valid t.1 shape then v ← append1 (arith broadcast) [src] (tensor_type shape t.2); mret (Some v)
  else mret (Some src).

Definition codegen_expand_dims_call fargs st : tgen (option Value) :=
  src ← eval_arg fargs 0 st;
  s ← scalar_arg fargs 1;
  axis ← (match s with Some s => cg_lift (SI.to_i32 s) | None => terr CodegenFailed end : tgen Z);
  match ranked (v_ty src) with
  | Some (src_dims, elem) =>
      let insert_at := if axis <? 0 then Z.of_nat (length src_dims) + axis + 1 else axis in
      result_dims ← cg_lift (insert_dim src_dims insert_at);
      v ← append1 (expand_dims axis) [src] (tensor_type result_dims elem); mret (Some v)
  | None => v ← append1 (arith splat) [src] (tensor_type [1] (v_ty src)); mret (Some v)
  end.

Definition codegen_permute_call fargs st : tgen (option Value) :=
  src ← eval_arg fargs 0 st;
  order ← shape_arg fargs 1 st;
  let order_i32 := as_i32 <$> order in
  t ← ranked_tensor (v_ty src);
  if negb (Nat.eqb (length order_i32) (length t.1)) then mret (Some src)
  else
    result_dims ← cg_lift (omapM (index_dim t.1) order_i32);
    v ← append1 (trans order_i32) [src] (tensor_type result_dims t.2); mret (Some v).
Definition codegen_trans_call fargs st : tgen (option Value) := codegen_permute_call fargs st.

(** [args.get(i).and_then(to_scalar_int.ok()).map(to_u8 != 0).unwrap_or(false)] *)
Definition flag_arg fargs (i : nat) : tgen bool :=
  match fargs !! i with
  | Some op =>
      r ← cg_lift (to_scalar_int gargs op);
      match r with inr s => n ← cg_lift (SI.to_u8 s); mret (negb (n =? 0)) | inl _ => mret false end
  | None => mret false
  end.

Definition codegen_reshape_call fargs st : tgen (option Value) :=
  src ← eval_arg fargs 0 st;
  shape ← shape_arg fargs 1 st;
  allow_reorder ← flag_arg fargs 2;
  t ← ranked_tensor (v_ty src);
  src_numel ← cg_lift (product t.1);
  dst_numel ← cg_lift (product shape);
  if negb (src_numel =? dst_numel) && (0 <? src_numel) && (0 <? dst_numel) then mret (Some src)
  else v ← append1 (reshape allow_reorder false) [src] (tensor_type shape t.2); mret (Some v).

Definition codegen_ravel_call fargs st : tgen (option Value) :=
  src ← eval_arg fargs 0 st;
  allow_reorder ← flag_arg fargs 1;
  t ← ranked_tensor (v_ty src);
  total ← cg_lift (product t.1);
  if Nat.eqb (length t.1) 1 || (total <? 0) then mret (Some src)
  else v ← append1 (reshape allow_reorder false) [src] (tensor_type [total] t.2); mret (Some v).

Definition codegen_view_call fargs st : tgen (option Value) :=
  src ← eval_arg fargs 0 st;
  shape ← shape_arg fargs 1 st;
  t ← ranked_tensor (v_ty src);
  src_numel ← cg_lift (product t.1);
  dst_numel ← cg_lift (product shape);
  if negb (src_numel =? dst_numel) && (0 <? src_numel) && (0 <? dst_numel) then mret (Some src)
  else v ← append1 (reshape false false) [src] (tensor_type shape t.2); mret (Some v).

Definition codegen_join_call fargs st : tgen (option Value) :=
  lhs ← eval_arg fargs 0 st;
  rhs ← eval_arg fargs 1 st;
  t ← ranked_tensor (v_ty lhs);
  v ← append1 join [lhs; rhs] (tensor_type (t.1 ++ [2]) t.2); mret (Some v).

(** The dimensions before the last one, and the last one. *)
Definition leading_dims (dims : list Z) : list Z := take (length dims - 1)%nat dims.

Definition codegen_interleave_call fargs st : tgen (option Value) :=
  lhs ← eval_arg fargs 0 st;
  rhs ← eval_arg fargs 1 st;
  t ← ranked_tensor (v_ty lhs);
  join_val ← append1 join [lhs; rhs] (tensor_type (t.1 ++ [2]) t.2);
  doubled ← cg_lift (check_i64 (2 * default 1 (last t.1)));
  v ← append1 (reshape false false) [join_val] (tensor_type (leading_dims t.1 ++ [doubled]) t.2); mret (Some v).

Definition codegen_split_call fargs destination st : tgen (option Value * TState) :=
  src ← eval_arg fargs 0 st;
  t ← ranked_tensor (v_ty src);
  let record vs := (None, on_state (set_tuple (pl_local destination) vs) st) in
  if negb (default 0 (last t.1) =? 2) then mret (record [src; src])
  else
    let out_ty := tensor_type (leading_dims t.1) t.2 in
    vs ← append split [src] [out_ty; out_ty];
    mret (record vs).

(** ** Casts *)
Definition is_dynamic (t : MlirTy) : bool :=
  match ranked t with Some (dims, _) => existsb (Z.eqb DYNAMIC) dims | None => true end.

(** A tensor type of unknown shape takes the shape of the operand. *)
Definition cast_result_ty (src_value : Value) (dest : MlirTy) : tgen MlirTy :=
  if is_tensor dest && is_dynamic dest then
    t ← ranked_tensor (v_ty src_value);
    let dest_elem_ty := match ranked dest with Some (_, e) => e | None => t.2 end in
    mret (tensor_type t.1 dest_elem_ty)
  else mret dest.

Definition cast_kind (src_elem dst_elem : MlirTy) : TKind :=
  if is_float src_elem && is_float dst_elem then
    if float_bits dst_elem <? float_bits src_elem then arith truncf else arith extf
  else if is_integer src_elem && is_float dst_elem then arith sitofp
  else if is_float src_elem && is_integer dst_elem then arith fptosi
  else trunci.

Definition codegen_cast_call fargs destination st : tgen (option Value) :=
  src_value ← eval_arg fargs 0 st;
  mapped ← dest_mlir_ty destination;
  dest ← cast_result_ty src_value mapped;
  if bool_decide (v_ty src_value = dest) then mret (Some src_value)
  else v ← append1 (cast_kind (elem_ty src_value) (elem_ty_from_type dest)) [src_value] dest; mret (Some v).

(** ** Matrix products *)
Definition accumulator (acc_opt : option Value) (elem out_ty : MlirTy) : tgen Value :=
  match acc_opt with
  | Some v => mret v
  | None => zero_val ← zero_constant elem; append1 (arith splat) [zero_val] out_ty
  end.
(** Two matrices whose inner dimensions agree: the rows of one and the columns of
    the other. *)
Definition dot_dims (a b : MlirTy) : option (Z * Z) :=
  match ranked a, ranked b with
  | Some ([m; k], _), Some ([k'; n], _) =>
      if (k =? k') || (k =? DYNAMIC) || (k' =? DYNAMIC) then Some (m, n) else None
  | _, _ => None
  end.

Definition input_precision (i : Z) : InputPrecision :=
  match i with 0 => TF32 | 1 => TF32x3 | 2 => IEEE | 3 => BF16x3 | 4 => BF16x6 | _ => IEEE end.

Definition codegen_dot_call fargs st : tgen (option Value) :=
  a ← eval_arg fargs 0 st;
  b ← eval_arg fargs 1 st;
  match dot_dims (v_ty a) (v_ty b) with
  | None => mret (Some a)
  | Some (m, n) =>
      acc_opt ← eval_option_arg fargs 2 st;
      let elem := elem_ty a in
      c ← accumulator acc_opt elem (tensor_type [m; n] elem);
      s ← scalar_arg fargs 3;
      precision_int ← scalar_or s (λ s, z ← SI.to_bits_unchecked s; Ret (as_i32 z)) 2;
      _ ← eval_option_arg fargs 4 st;
      v ← append1 (dot (input_precision precision_int) 0) [a; b; c] (v_ty c); mret (Some v)
  end.

Definition all_types : list ScaleDotElemType := [E4M3; E5M2; E2M3; E3M2; E2M1; BF16; FP16].
(** [s.to_bits_unchecked() as usize] indexes the table. *)
Definition dot_format (z : Z) (d : ScaleDotElemType) : ScaleDotElemType := default d (all_types !! Z.to_nat (as_u 64 z)).

Definition codegen_dot_scaled_call fargs st : tgen (option Value) :=
  lhs ← eval_arg fargs 0 st;
  lhs_scale ← eval_arg fargs 1 st;
  rhs ← eval_arg fargs 3 st;
  rhs_scale ← eval_arg fargs 4 st;
  match dot_dims (v_ty lhs) (v_ty rhs) with
  | None => mret (Some lhs)
  | Some (m, n) =>
      lf ← scalar_arg fargs 2; lhs_fmt_int ← scalar_or lf SI.to_bits_unchecked 0;
      rf ← scalar_arg fargs 5; rhs_fmt_int ← scalar_or rf SI.to_bits_unchecked 0;
      fm ← scalar_arg fargs 7;
      fast_math ← scalar_or fm (λ s, z ← SI.to_bits_unchecked s; Ret (negb (z =? 0))) false;
      acc_opt ← eval_option_arg fargs 6 st;
      let elem := elem_ty lhs in
      c ← accumulator acc_opt elem (tensor_type [m; n] elem);
      v ← append1 (dot_scaled (dot_format lhs_fmt_int E4M3) (dot_format rhs_fmt_int E5M2) fast_math)
            [lhs; rhs; c; lhs_scale; rhs_scale] (v_ty c);
      mret (Some v)
  end.

(** ** Block pointers and descriptors *)
(** [debug_assert_eq!] of two lengths in the builders. *)
Definition same_length (l l' : list Value) : tgen unit :=
  if Nat.eqb (length l) (length l') then mret tt else cg_panic.

Definition codegen_make_block_ptr_call fargs destination st : tgen (option Value) :=
  base ← eval_arg fargs 0 st;
  shape_op ← farg fargs 1; shape ← slice_as_i64_values shape_op st ≫= or_codegen_failed;
  strides_op ← farg fargs 2; strides ← slice_as_i64_values strides_op st ≫= or_codegen_failed;
  offsets_op ← farg fargs 3; offsets ← slice_as_i32_values offsets_op st ≫= or_codegen_failed;
  order_op ← farg fargs 4;
  match operand_place order_op with
  | None => codegen_ub_stub destination
  | Some p =>
      let order := as_i32 <$> default [] (lookup_slice_shape (pl_local p) (ts_state st)) in
      result_ty ← dest_mlir_ty destination;
      _ ← same_length shape strides;
      _ ← same_length shape offsets;
      v ← append1 (make_tensor_ptr (length shape) (length strides) (length offsets) order)
            (base :: shape ++ strides ++ offsets) result_ty;
      mret (Some v)
  end.

Definition codegen_advance_call fargs destination st : tgen (option Value) :=
  ptr ← eval_arg fargs 0 st;
  op ← farg fargs 1;
  offsets ← slice_as_i32_values op st;
  match offsets with
  | None => codegen_ub_stub destination
  | Some offsets => v ← append1 advance (ptr :: offsets) (v_ty ptr); mret (Some v)
  end.

(** The type of a descriptor's elements; whatever it does not know is [f32]. *)
Definition descriptor_elem (dest_ty : Ty) : outcome MlirTy :=
  match dest_ty with
  | TyAdt _ (t :: _) =>
      Ret match t with
          | TyFloat F32 => MFloat 32
          | TyFloat F64 => MFloat 64
          | TyInt I32 => MInt 32
          | TyInt I64 => MInt 64
          | _ => MFloat 32
          end
  | _ => Ret (MFloat 32)
  end.
(** [Type::parse("!tt.tensordesc<..>")]: a descriptor has dimensions, none of
    them negative. *)
Definition tensordesc_type (dims : list Z) (elem : MlirTy) : outcome MlirTy :=
  match dims with
  | [] => Panic
  | _ => if forallb (Z.leb 0) dims then Ret (MTensorDesc dims elem) else Panic
  end.

Definition record_block_shape fargs destination st : TState :=
  match op ← fargs !! 3%nat; shape_from_slice_arg_i32 op st with
  | Some shape => mkTState (ts_state st) (<[pl_local destination := shape]> (desc_block_shapes st))
  | None => st
  end.

Definition codegen_make_tensor_descriptor_call fargs destination st0 : tgen (option Value * TState) :=
  let st := record_block_shape fargs destination st0 in
  base ← eval_arg fargs 0 st;
  shape_op ← farg fargs 1; shape ← slice_as_i32_values shape_op st;
  match shape with
  | None => v ← codegen_ub_stub destination; mret (v, st)
  | Some shape =>
      strides_op ← farg fargs 2; strides_i32 ← slice_as_i32_values strides_op st;
      match strides_i32 with
      | None => v ← codegen_ub_stub destination; mret (v, st)
      | Some strides_i32 =>
          strides ← cg_map (λ v, append1 extsi [v] (MInt 64)) strides_i32;
          result_ty ← (match desc_block_shapes st !! pl_local destination with
                       | Some block_shape =>
                           ty ← cg_lift (dest_rust_ty destination);
                           elem ← cg_lift (descriptor_elem ty);
                           cg_lift (tensordesc_type block_shape elem)
                       | None => dest_mlir_ty destination
                       end : tgen MlirTy);
          _ ← same_length shape strides;
          v ← append1 (make_tensor_descriptor (length shape) (length strides)) (base :: shape ++ strides) result_ty;
          mret (Some v, st)
      end
  end.

(** The block shape recorded for a whole local. *)
Definition descriptor_shape (op : Operand) st : option (list Z) :=
  match operand_place op with
  | Some p => if no_projection p then desc_block_shapes st !! pl_local p else None
  | None => None
  end.
Definition codegen_load_tensor_descriptor_call fargs destination st : tgen (option Value) :=
  _ ← farg fargs 1;
  desc_op ← farg fargs 0;
  desc ← operand_value st desc_op;
  index_op ← farg fargs 1;
  indices ← slice_as_i32_values index_op st;
  match indices with
  | None => codegen_ub_stub destination
  | Some indices =>
      mapped ← dest_mlir_ty destination;
      let result_ty :=
        match descriptor_shape desc_op st with
        | Some block_shape => tensor_type block_shape (elem_ty_from_type mapped)
        | None => mapped
        end in
      v ← append1 descriptor_load (desc :: indices) result_ty; mret (Some v)
  end.

Definition codegen_store_tensor_descriptor_call fargs st : tgen (option Value) :=
  desc ← eval_arg fargs 0 st;
  index_op ← farg fargs 1;
  indices ← slice_as_i32_values index_op st;
  match indices with
  | None => mret None
  | Some indices => src ← eval_arg fargs 2 st; _ ← append0 descriptor_store (desc :: src :: indices); mret None
  end.
End tensor.
