(* ===== verification/TritonMath.v ===== *)
(** * Triton backend: the handlers of calls

    The rest of [ops/triton/tensor.rs] and [ops/triton/program.rs]: elementwise
    mathematics, reductions, scans, atomic operations and hints; the call handlers
    of [ops/binaryops.rs]; and, from [ops/terminator.rs], calls of functions
    that are compiled ([codegen_call]), the table that chooses the handler of a
    call by the name of the function, and what [codegen_terminator_call] does
    with the value.

    What the type context says of a function (its result, its symbol) and how an
    operand prints are parameters. *)
From S2P Require Import Prelude Codegen Mir PlaceTypes ScalarInts TritonArith TritonConst TritonPhi TritonTypes TritonEmit TritonOperand TritonAssign TritonTensor.
#[local] Open Scope Z_scope.

Section math.
Context (tcx : TyCtxt) (gargs : list GenericArg) (infer : ArithKind → MlirTy → MlirTy → MlirTy).
Context (fuel const_fuel : nat) (mir : Body).
Implicit Types (fargs : list Operand) (destination : Place) (st : TState).
Abbreviation eval_arg := (eval_arg tcx gargs fuel mir).
Abbreviation eval_option_arg := (eval_option_arg tcx gargs fuel mir).
Abbreviation operand_value := (operand_value tcx gargs fuel mir).
Abbreviation dest_mlir_ty := (dest_mlir_ty tcx fuel mir).
Abbreviation codegen_ub_stub := (codegen_ub_stub tcx fuel mir).
Abbreviation scalar_arg := (scalar_arg gargs).

(** ** Elementwise operations *)
Definition codegen_math_unary (mlir_op : MathFn) fargs st : tgen (option Value) :=
  x ← eval_arg fargs 0 st;
  v ← append1 (math mlir_op) [x] (v_ty x); mret (Some v).
Definition codegen_binary_elementwise (mlir_op : TKind) fargs st : tgen (option Value) :=
  lhs ← eval_arg fargs 0 st;
  rhs ← eval_arg fargs 1 st;
  v ← append1 mlir_op [lhs; rhs] (v_ty lhs); mret (Some v).

Definition codegen_abs_call fargs st : tgen (option Value) := codegen_math_unary absf fargs st.
Definition codegen_ceil_call fargs st : tgen (option Value) := codegen_math_unary ceil fargs st.
Definition codegen_floor_call fargs st : tgen (option Value) := codegen_math_unary floor fargs st.
Definition codegen_cos_call fargs st : tgen (option Value) := codegen_math_unary cos fargs st.
Definition codegen_sin_call fargs st : tgen (option Value) := codegen_math_unary sin fargs st.
Definition codegen_exp_call fargs st : tgen (option Value) := codegen_math_unary exp fargs st.
Definition codegen_exp2_call fargs st : tgen (option Value) := codegen_math_unary exp2 fargs st.
Definition codegen_log_call fargs st : tgen (option Value) := codegen_math_unary log fargs st.
Definition codegen_log2_call fargs st : tgen (option Value) := codegen_math_unary log2 fargs st.
Definition codegen_sqrt_call fargs st : tgen (option Value) := codegen_math_unary sqrt fargs st.
Definition codegen_erf_call fargs st : tgen (option Value) := codegen_math_unary erf fargs st.
Definition codegen_maximum fargs st : tgen (option Value) := codegen_binary_elementwise maximumf fargs st.
Definition codegen_fdiv_call fargs st : tgen (option Value) := codegen_binary_elementwise (arith divf) fargs st.
(** The result types of these three are inferred: that of the operands. *)
Definition codegen_div_rn_call fargs st : tgen (option Value) := codegen_binary_elementwise precise_divf fargs st.
Definition codegen_umulhi_call fargs st : tgen (option Value) := codegen_binary_elementwise mulhiui fargs st.
Definition codegen_sqrt_rn_call fargs st : tgen (option Value) :=
  x ← eval_arg fargs 0 st;
  v ← append1 precise_sqrt [x] (v_ty x); mret (Some v).

(** The constant [1.0] of a float type, by its bits; [FloatAttribute] is of no
    other type. *)
Definition float_one (t : MlirTy) : outcome ArithKind :=
  match t with
  | MFloat 16 => Ret (float_constant F16 15360)
  | MFloat 32 => Ret (float_constant F32 1065353216)
  | MFloat 64 => Ret (float_constant F64 4607182418800017408)
  | _ => Panic
  end.
Definition one_constant (elem : MlirTy) : tgen Value := k ← cg_lift (float_one elem); append1 (arith k) [] elem.

(** [1.0 / sqrt(x)] *)
Definition codegen_rsqrt_call fargs st : tgen (option Value) :=
  x ← eval_arg fargs 0 st;
  sqrt_val ← append1 precise_sqrt [x] (v_ty x);
  elem ← (if is_tensor (v_ty x) then t ← ranked_tensor (v_ty x); mret t.2 else mret (v_ty x) : tgen MlirTy);
  one_scalar ← one_constant elem;
  one_val ← splat_scalar_const one_scalar (v_ty x);
  v ← append1 precise_divf [one_val; sqrt_val] (v_ty one_val); mret (Some v).

Definition codegen_atan_call fargs st : tgen (option Value) :=
  x ← eval_arg fargs 0 st;
  v ← append1 (extern_elementwise "__nv_atanf") [x] (v_ty x); mret (Some v).

(** [1 / (1 + exp(0 - x))] *)
Definition expect_value (o : option Value) : tgen Value := cg_lift (unwrap o).
Definition codegen_sigmoid_call fargs st : tgen (option Value) :=
  x ← eval_arg fargs 0 st;
  zero ← append1 (arith float_zero) [] (MFloat 32);
  neg_x ← lift (codegen_sub infer zero x) ≫= expect_value;
  exp_neg_x ← append1 (math exp) [neg_x] (v_ty neg_x);
  one_a ← one_constant (MFloat 32);
  one_plus ← lift (codegen_add infer one_a exp_neg_x) ≫= expect_value;
  one_b ← one_constant (MFloat 32);
  lift (codegen_div infer one_b one_plus).

(** ** Regions *)
Definition choose_float_int_op (elem : MlirTy) (float_op int_op : CombineOp) : CombineOp :=
  if is_integer elem then int_op else float_op.
Definition build_reduce_region (elem : MlirTy) (combine_op : CombineOp) : Region :=
  mkRegion [elem; elem] combine_op [0; 1]%nat elem ReduceReturn.
Definition build_scan_region (elem : MlirTy) (combine_op : CombineOp) : Region :=
  mkRegion [elem; elem] combine_op [0; 1]%nat elem ScanReturn.

(** [exp(x - max(x)) / sum(exp(x - max(x)))] along the last axis *)
Definition codegen_softmax_call fargs st : tgen (option Value) :=
  x ← eval_arg fargs 0 st;
  t ← ranked_tensor (v_ty x);
  let axis := Z.of_nat (length t.1) - 1 in
  let tensor_ty := v_ty x in
  x_max ← append1 (reduce axis (build_reduce_region t.2 CMaximumf)) [x] (reduce_result_ty x axis);
  x_max_bcast ← append1 (arith splat) [x_max] tensor_ty;
  x_sub ← append1 (arith subf) [x; x_max_bcast] tensor_ty;
  exp_x ← append1 (math exp) [x_sub] tensor_ty;
  sum_e ← append1 (reduce axis (build_reduce_region t.2 CAddf)) [exp_x] (reduce_result_ty exp_x axis);
  sum_e_bcast ← append1 (arith splat) [sum_e] tensor_ty;
  y ← append1 (arith divf) [exp_x; sum_e_bcast] tensor_ty;
  mret (Some y).

Definition codegen_minimum_call fargs st : tgen (option Value) :=
  lhs ← eval_arg fargs 0 st;
  rhs ← eval_arg fargs 1 st;
  v ← append1 (if is_integer (elem_ty lhs) then minsi else minimumf) [lhs; rhs] (v_ty lhs); mret (Some v).
Definition codegen_clamp_call fargs st : tgen (option Value) :=
  x ← eval_arg fargs 0 st;
  min_val ← eval_arg fargs 1 st;
  max_val ← eval_arg fargs 2 st;
  v ← append1 clampf [x; min_val; max_val] (v_ty x); mret (Some v).
Definition codegen_fma_call fargs st : tgen (option Value) :=
  a ← eval_arg fargs 0 st;
  b ← eval_arg fargs 1 st;
  c ← eval_arg fargs 2 st;
  v ← append1 fma [a; b; c] (v_ty a); mret (Some v).

(** [(a + b - 1) / b]; the attribute [1 : ty] parses for scalars of integer or
    float type. *)
Definition codegen_cdiv_call fargs st : tgen (option Value) :=
  a ← eval_arg fargs 0 st;
  b ← eval_arg fargs 1 st;
  let ty := v_ty a in
  if negb (is_integer ty) then terr CodegenFailed
  else
    one ← append1 (arith (constant 1)) [] ty;
    sum ← append1 (arith addi) [a; b] ty;
    numerator ← append1 (arith subi) [sum; one] ty;
    v ← append1 (arith divsi) [numerator; b] ty; mret (Some v).

Definition codegen_where_call fargs st : tgen (option Value) :=
  cond ← eval_arg fargs 0 st;
  true_val ← eval_arg fargs 1 st;
  false_val ← eval_arg fargs 2 st;
  v ← append1 select [cond; true_val; false_val] (v_ty true_val); mret (Some v).

(** ** Reductions and scans *)
(** [args[1]]: a constant axis, else 0. *)
Definition axis_arg fargs : tgen Z :=
  if (1 <? length fargs)%nat then s ← scalar_arg fargs 1; scalar_or s SI.to_i32 0 else mret 0.

Definition codegen_reduce_unary (combine_op_float combine_op_int : CombineOp) fargs st : tgen (option Value) :=
  src ← eval_arg fargs 0 st;
  axis ← axis_arg fargs;
  keep_dims ← (if (2 <? length fargs)%nat
               then s ← scalar_arg fargs 2;
                    scalar_or s (λ s, z ← SI.to_bits_unchecked s; Ret (negb (z =? 0))) false
               else mret false : tgen bool);
  let elem := elem_ty src in
  let region := build_reduce_region elem (choose_float_int_op elem combine_op_float combine_op_int) in
  result ← append1 (reduce axis region) [src] (reduce_result_ty src axis);
  match ranked (v_ty src) with
  | Some (src_dims, _) =>
      if keep_dims && negb (is_tensor (v_ty result)) then
        v ← append1 (arith splat) [result] (tensor_type (kept_dims axis src_dims) (v_ty result)); mret (Some v)
      else mret (Some result)
  | None => mret (Some result)
  end.

Definition codegen_sum_call fargs st : tgen (option Value) := codegen_reduce_unary CAddf CAddi fargs st.
Definition codegen_max_call fargs st : tgen (option Value) := codegen_reduce_unary CMaximumf CMaxsi fargs st.
Definition codegen_min_call fargs st : tgen (option Value) := codegen_reduce_unary CMinimumf CMinsi fargs st.
Definition codegen_xor_sum_call fargs st : tgen (option Value) := codegen_reduce_unary CXori CXori fargs st.

Definition codegen_scan_unary (combine_op_float combine_op_int : CombineOp) (reverse : bool) fargs st : tgen (option Value) :=
  src ← eval_arg fargs 0 st;
  axis ← axis_arg fargs;
  let elem := elem_ty src in
  let region := build_scan_region elem (choose_float_int_op elem combine_op_float combine_op_int) in
  v ← append1 (scan axis reverse region) [src] (v_ty src); mret (Some v).
Definition codegen_cumsum_call fargs st : tgen (option Value) := codegen_scan_unary CAddf CAddi false fargs st.
Definition codegen_cumprod_call fargs st : tgen (option Value) := codegen_scan_unary CMulf CMuli false fargs st.

(** An optional operand the call may not have. *)
Definition mask_arg fargs (i : nat) st : tgen (option Value) :=
  if (i <? length fargs)%nat then eval_option_arg fargs i st else mret None.

Definition codegen_histogram_call fargs destination st : tgen (option Value) :=
  src ← eval_arg fargs 0 st;
  mask ← mask_arg fargs 1 st;
  result_ty ← dest_mlir_ty destination;
  v ← append1 (histogram (is_some mask)) (src :: option_list mask) result_ty; mret (Some v).
Definition codegen_gather_call fargs destination st : tgen (option Value) :=
  src ← eval_arg fargs 0 st;
  indices ← eval_arg fargs 1 st;
  s ← scalar_arg fargs 2; axis ← scalar_or s SI.to_i32 0;
  result_ty ← dest_mlir_ty destination;
  v ← append1 (gather axis) [src; indices] result_ty; mret (Some v).

(** ** Atomic operations *)
Definition codegen_atomic_rmw_impl (rmw_op : RmwOp) fargs st : tgen (option Value) :=
  ptr ← eval_arg fargs 0 st;
  val ← eval_arg fargs 1 st;
  mask ← mask_arg fargs 2 st;
  v ← append1 (atomic_rmw rmw_op (is_some mask)) (ptr :: val :: option_list mask) (v_ty val); mret (Some v).

(** The value is evaluated to choose the operation, and again to use it; an
    operand that fails has appended nothing. *)
Definition codegen_atomic_add_call fargs st : tgen (option Value) := λ b,
  r ← eval_arg fargs 1 st b;
  match r with
  | inr (v, b') =>
      codegen_atomic_rmw_impl (if is_integer (elem_ty v) then RmwAdd else RmwFadd) fargs st b'
  | inl _ => codegen_atomic_rmw_impl RmwFadd fargs st b
  end.
Definition codegen_atomic_cas_call fargs st : tgen (option Value) :=
  ptr ← eval_arg fargs 0 st;
  cmp ← eval_arg fargs 1 st;
  val ← eval_arg fargs 2 st;
  v ← append1 atomic_cas [ptr; cmp; val] (v_ty val); mret (Some v).

(** ** Programs, hints, debugging *)
Definition program_axis (z : Z) : outcome ProgramAxis :=
  match z with 0 => Ret Axis0 | 1 => Ret Axis1 | 2 => Ret Axis2 | _ => Panic end.
Definition codegen_program_id fargs : tgen (option Value) :=
  _ ← expect_args fargs 1;
  s ← scalar_arg fargs 0;
  value ← (match s with Some s => mret s | None => terr InvalidScalar end : tgen ScalarInt);
  bits ← cg_lift (SI.to_bits value (si_size value));
  axis ← cg_lift (program_axis (as_i32 bits));
  v ← append1 (get_program_id axis) [] (MInt 32); mret (Some v).
Definition codegen_num_programs_call fargs : tgen (option Value) :=
  s ← scalar_arg fargs 0; axis_val ← scalar_or s SI.to_i32 0;
  axis ← cg_lift (program_axis axis_val);
  v ← append1 (get_num_programs axis) [] (MInt 32); mret (Some v).

Definition codegen_multiple_of_call fargs st : tgen (option Value) := v ← eval_arg fargs 0 st; mret (Some v).
Definition codegen_identity_call fargs st : tgen (option Value) :=
  _ ← expect_args fargs 1; v ← eval_arg fargs 0 st; mret (Some v).
Definition codegen_device_assert_call fargs st : tgen (option Value) :=
  cond ← eval_arg fargs 0 st; _ ← append0 (assert_op "device_assert") [cond]; mret None.

(** The operands that have a value; one that fails has appended nothing. *)
Fixpoint print_values (fargs : list Operand) st : tgen (list Value) :=
  match fargs with
  | [] => mret []
  | op :: fargs' => λ b,
      r ← operand_value st op b;
      match r with
      | inr (v, b') => (vs ← print_values fargs' st; mret (v :: vs)) b'
      | inl _ => print_values fargs' st b
      end
  end.
Definition codegen_device_print_call fargs st : tgen (option Value) :=
  vs ← print_values (tail fargs) st; _ ← append0 (tt_print "device_print:") vs; mret None.

(** ** Binary operations *)
Definition binary_call (f : Value → Value → gen (option Value)) fargs st : tgen (option Value) :=
  _ ← expect_args fargs 2;
  lhs ← eval_arg fargs 0 st;
  rhs ← eval_arg fargs 1 st;
  lift (f lhs rhs).
Definition codegen_neg_call fargs st : tgen (option Value) :=
  _ ← expect_args fargs 1;
  x ← eval_arg fargs 0 st;
  lift (codegen_neg infer x).
(** [codegen_binary_cmp] *)
Definition cmp_call (fp : FpPredicate) (int : Predicate) : list Operand → TState → tgen (option Value) :=
  binary_call (lower_cmp fp int).

(** ** Calls of compiled functions

    [fn_output] is the declared result of a function, [symbol_name] the symbol
    of the instance a function resolves to. *)
Context (fn_output : DefId → Ty) (fn_ptr_output : Ty) (symbol_name : DefId → option string).
Context (operand_debug : Operand → string).

Definition return_ty (func : Operand) : outcome Ty :=
  ty ← operand_ty (boxed_ty tcx) mir func;
  let fn_ty := normalize tcx ty in
  Ret match fn_ty with TyFnDef def => fn_output def | TyFnPtr => fn_ptr_output | _ => fn_ty end.
Definition callee_name (func : Operand) (func_name : string) : outcome string :=
  match func with
  | Constant c =>
      match normalize tcx (ty_of_const c) with
      | TyFnDef def => Ret (default func_name (symbol_name def))
      | TyFnPtr => Panic
      | _ => Ret func_name
      end
  | _ => Ret func_name
  end.
(** Unit has no result, a tuple one per component. *)
Definition result_types (ret_ty : Ty) : outcome (list MlirTy) :=
  match ret_ty with
  | TyTuple elem_tys => omapM (map_type tcx fuel) elem_tys
  | _ => t ← map_type tcx fuel ret_ty; Ret [t]
  end.

(** The single argument of a call whose fields are tracked. *)
Definition tracked_argument fargs destination st : option (list Value) :=
  match fargs with
  | [op] =>
      p ← operand_place op;
      if no_projection p && no_projection destination then tuple_fields (ts_state st) !! pl_local p else None
  | _ => None
  end.
Definition codegen_call (func : Operand) (func_name : string) fargs destination st : tgen (option Value * TState) :=
  match tracked_argument fargs destination st with
  | Some fields => mret (None, on_state (set_tuple (pl_local destination) fields) st)
  | None =>
      values ← cg_map (operand_value st) fargs;
      ret_ty ← cg_lift (return_ty func);
      callee ← cg_lift (callee_name func func_name);
      tys ← cg_lift (result_types ret_ty);
      results ← append (call callee) values tys;
      mret (head results, st)
  end.
(** ** The table of handlers *)
Section table.
Context (fargs : list Operand) (destination : Place) (st : TState).
Abbreviation codegen_arange := (TritonTensor.codegen_arange gargs const_fuel mir).
Abbreviation codegen_arange_f32 := (TritonTensor.codegen_arange_f32 gargs const_fuel mir).
Abbreviation codegen_load := (TritonTensor.codegen_load tcx gargs fuel mir).
Abbreviation codegen_load_scalar_f32_as_i32 := (TritonTensor.codegen_load_scalar_f32_as_i32 tcx gargs fuel mir).
Abbreviation codegen_store := (TritonTensor.codegen_store tcx gargs fuel mir).
Abbreviation codegen_zeros := (TritonTensor.codegen_zeros tcx fuel mir).
Abbreviation codegen_zeros_like := (TritonTensor.codegen_zeros_like tcx gargs fuel mir).
Abbreviation codegen_add_ptr := (TritonTensor.codegen_add_ptr tcx gargs fuel mir).
Abbreviation codegen_cast_call := (TritonTensor.codegen_cast_call tcx gargs fuel mir).
Abbreviation codegen_cat_call := (TritonTensor.codegen_cat_call tcx gargs fuel mir).
Abbreviation codegen_broadcast_call := (TritonTensor.codegen_broadcast_call tcx gargs fuel mir).
Abbreviation codegen_broadcast_to_call := (TritonTensor.codegen_broadcast_to_call tcx gargs fuel mir).
Abbreviation codegen_expand_dims_call := (TritonTensor.codegen_expand_dims_call tcx gargs fuel mir).
Abbreviation codegen_permute_call := (TritonTensor.codegen_permute_call tcx gargs fuel mir).
Abbreviation codegen_reshape_call := (TritonTensor.codegen_reshape_call tcx gargs fuel mir).
Abbreviation codegen_trans_call := (TritonTensor.codegen_trans_call tcx gargs fuel mir).
Abbreviation codegen_ravel_call := (TritonTensor.codegen_ravel_call tcx gargs fuel mir).
Abbreviation codegen_view_call := (TritonTensor.codegen_view_call tcx gargs fuel mir).
Abbreviation codegen_join_call := (TritonTensor.codegen_join_call tcx gargs fuel mir).
Abbreviation codegen_interleave_call := (TritonTensor.codegen_interleave_call tcx gargs fuel mir).
Abbreviation codegen_split_call := (TritonTensor.codegen_split_call tcx gargs fuel mir).
Abbreviation codegen_dot_call := (TritonTensor.codegen_dot_call tcx gargs fuel mir).
Abbreviation codegen_dot_scaled_call := (TritonTensor.codegen_dot_scaled_call tcx gargs fuel mir).
Abbreviation codegen_make_block_ptr_call := (TritonTensor.codegen_make_block_ptr_call tcx gargs fuel mir).
Abbreviation codegen_advance_call := (TritonTensor.codegen_advance_call tcx gargs fuel mir).
Abbreviation codegen_make_tensor_descriptor_call := (TritonTensor.codegen_make_tensor_descriptor_call tcx gargs fuel mir).
Abbreviation codegen_load_tensor_descriptor_call := (TritonTensor.codegen_load_tensor_descriptor_call tcx gargs fuel mir).
Abbreviation codegen_store_tensor_descriptor_call := (TritonTensor.codegen_store_tensor_descriptor_call tcx gargs fuel mir).
Abbreviation codegen_full_call := (TritonTensor.codegen_full_call tcx gargs fuel mir).

(** A handler that leaves the state as it is. *)
Definition pure (m : tgen (option Value)) : tgen (option Value * TState) := v ← m; mret (v, st).
Fixpoint lookup_handler {A} (name : string) (table : list (string * A)) (default : A) : A :=
  match table with
  | [] => default
  | (key, handler) :: table' => if String.eqb name key then handler else lookup_handler name table' default
  end.

Definition handler_table : list (string * tgen (option Value * TState)) :=
  [("core::ops::Mul::mul", pure (binary_call (codegen_mul infer) fargs st));
   ("core::ops::Add::add", pure (binary_call (codegen_add infer) fargs st));
   ("core::ops::Sub::sub", pure (binary_call (codegen_sub infer) fargs st));
   ("core::ops::Neg::neg", pure (codegen_neg_call fargs st));
   ("core::ops::Div::div", pure (binary_call (codegen_div infer) fargs st));
   ("core::ops::BitAnd::bitand", pure (binary_call (codegen_and infer) fargs st));
   ("core::ops::BitOr::bitor", pure (binary_call (codegen_or infer) fargs st));
   ("triton::Triton::program_id", pure (codegen_program_id fargs));
   ("triton::Triton::arange", pure (codegen_arange fargs));
   ("triton::Triton::arange_f32", pure (codegen_arange_f32 fargs));
   ("triton::Triton::load", pure (codegen_load fargs destination st));
   ("triton::Triton::load_scalar_f32_as_i32", pure (codegen_load_scalar_f32_as_i32 fargs st));
   ("triton::Triton::store", pure (codegen_store fargs st));
   ("triton::Triton::maximum", pure (codegen_maximum fargs st));
   ("triton::Triton::zeros", pure (codegen_zeros fargs destination st));
   ("triton::Triton::zeros_like", pure (codegen_zeros_like fargs st));
   ("transmute", mret (codegen_transmute_slice fargs destination st));
   ("triton_kitchen_sink::transmute", mret (codegen_transmute_slice fargs destination st));
   ("triton::types::Comparison::lt", pure (binary_call (codegen_cmpi SLT) fargs st));
   ("triton::types::Comparison::ge", pure (cmp_call OGE SGE fargs st));
   ("triton::types::Comparison::gt", pure (cmp_call OGT SGT fargs st));
   ("triton::types::Comparison::le", pure (cmp_call OLE SLE fargs st));
   ("triton::types::Comparison::eq", pure (cmp_call OEQ EQ fargs st));
   ("triton::types::Comparison::ne", pure (cmp_call ONE NE fargs st));
   ("triton::Triton::gt", pure (cmp_call OGT SGT fargs st));
   ("triton::Triton::ge", pure (cmp_call OGE SGE fargs st));
   ("triton::Triton::lt", pure (cmp_call OLT SLT fargs st));
   ("triton::Triton::le", pure (cmp_call OLE SLE fargs st));
   ("triton::Triton::eq", pure (cmp_call OEQ EQ fargs st));
   ("triton::Triton::ne", pure (cmp_call ONE NE fargs st));
   ("triton::Triton::lt_scalar", pure (cmp_call OLT SLT fargs st));
   ("triton::Triton::le_scalar", pure (cmp_call OLE SLE fargs st));
   ("triton::Triton::gt_scalar", pure (cmp_call OGT SGT fargs st));
   ("triton::Triton::ge_scalar", pure (cmp_call OGE SGE fargs st));
   ("triton::Triton::eq_scalar", pure (cmp_call OEQ EQ fargs st));
   ("triton::Triton::ne_scalar", pure (cmp_call ONE NE fargs st));
   ("triton::types::AddOffsets::add_offsets", pure (codegen_add_ptr fargs st));
   ("triton::Triton::cast", pure (codegen_cast_call fargs destination st));
   ("triton::Triton::cat", pure (codegen_cat_call fargs st));
   ("triton::Triton::broadcast", codegen_broadcast_call fargs destination st);
   ("triton::Triton::broadcast_to", pure (codegen_broadcast_to_call fargs st));
   ("triton::Triton::broadcast_to_i32", pure (codegen_broadcast_to_call fargs st));
   ("triton::Triton::expand_dims", pure (codegen_expand_dims_call fargs st));
   ("triton::Triton::expand_dims_i32", pure (codegen_expand_dims_call fargs st));
   ("triton::Triton::permute", pure (codegen_permute_call fargs st));
   ("triton::Triton::reshape", pure (codegen_reshape_call fargs st));
   ("triton::Triton::trans", pure (codegen_trans_call fargs st));
   ("triton::Triton::ravel", pure (codegen_ravel_call fargs st));
   ("triton::Triton::view", pure (codegen_view_call fargs st));
   ("triton::Triton::join", pure (codegen_join_call fargs st));
   ("triton::Triton::interleave", pure (codegen_interleave_call fargs st));
   ("triton::Triton::split", codegen_split_call fargs destination st);
   ("triton::Triton::dot", pure (codegen_dot_call fargs st));
   ("triton::Triton::dot_scaled", pure (codegen_dot_scaled_call fargs st));
   ("triton::Triton::make_block_ptr", pure (codegen_make_block_ptr_call fargs destination st));
   ("triton::Triton::advance", pure (codegen_advance_call fargs destination st));
   ("triton::Triton::make_tensor_descriptor", codegen_make_tensor_descriptor_call fargs destination st);
   ("triton::Triton::load_tensor_descriptor", pure (codegen_load_tensor_descriptor_call fargs destination st));
   ("triton::Triton::store_tensor_descriptor", pure (codegen_store_tensor_descriptor_call fargs st));
   ("triton::Triton::num_programs", pure (codegen_num_programs_call fargs));
   ("triton::Triton::full", pure (codegen_full_call fargs destination st));
   ("triton::Triton::flip", pure (codegen_ub_stub destination));
   ("triton::Triton::gather", pure (codegen_gather_call fargs destination st));
   ("triton::Triton::abs", pure (codegen_abs_call fargs st));
   ("triton::Triton::ceil", pure (codegen_ceil_call fargs st));
   ("triton::Triton::floor", pure (codegen_floor_call fargs st));
   ("triton::Triton::cos", pure (codegen_cos_call fargs st));
   ("triton::Triton::sin", pure (codegen_sin_call fargs st));
   ("triton::Triton::exp", pure (codegen_exp_call fargs st));
   ("triton::Triton::exp2", pure (codegen_exp2_call fargs st));
   ("triton::Triton::log", pure (codegen_log_call fargs st));
   ("triton::Triton::log2", pure (codegen_log2_call fargs st));
   ("triton::Triton::rsqrt", pure (codegen_rsqrt_call fargs st));
   ("triton::Triton::sigmoid", pure (codegen_sigmoid_call fargs st));
   ("triton::Triton::sqrt", pure (codegen_sqrt_call fargs st));
   ("triton::Triton::sqrt_rn", pure (codegen_sqrt_rn_call fargs st));
   ("triton::Triton::erf", pure (codegen_erf_call fargs st));
   ("triton::Triton::atan", pure (codegen_atan_call fargs st));
   ("triton::Triton::softmax", pure (codegen_softmax_call fargs st));
   ("triton::Triton::minimum", pure (codegen_minimum_call fargs st));
   ("triton::Triton::clamp", pure (codegen_clamp_call fargs st));
   ("triton::Triton::fma", pure (codegen_fma_call fargs st));
   ("triton::Triton::fdiv", pure (codegen_fdiv_call fargs st));
   ("triton::Triton::div_rn", pure (codegen_div_rn_call fargs st));
   ("triton::Triton::cdiv", pure (codegen_cdiv_call fargs st));
   ("triton::Triton::swizzle2d", pure (codegen_ub_stub destination));
   ("triton::Triton::sum", pure (codegen_sum_call fargs st));
   ("triton::Triton::max", pure (codegen_max_call fargs st));
   ("triton::Triton::max_with_indices", pure (codegen_ub_stub destination));
   ("triton::Triton::min", pure (codegen_min_call fargs st));
   ("triton::Triton::min_with_indices", pure (codegen_ub_stub destination));
   ("triton::Triton::argmax", pure (codegen_ub_stub destination));
   ("triton::Triton::argmin", pure (codegen_ub_stub destination));
   ("triton::Triton::xor_sum", pure (codegen_xor_sum_call fargs st));
   ("triton::Triton::cumsum", pure (codegen_cumsum_call fargs st));
   ("triton::Triton::cumprod", pure (codegen_cumprod_call fargs st));
   ("triton::Triton::sort", pure (codegen_ub_stub destination));
   ("triton::Triton::histogram", pure (codegen_histogram_call fargs destination st));
   ("triton::Triton::reduce", pure (codegen_ub_stub destination));
   ("triton::Triton::associative_scan", pure (codegen_ub_stub destination));
   ("triton::Triton::atomic_add", pure (codegen_atomic_add_call fargs st));
   ("triton::Triton::atomic_max", pure (codegen_atomic_rmw_impl RmwMax fargs st));
   ("triton::Triton::atomic_min", pure (codegen_atomic_rmw_impl RmwMin fargs st));
   ("triton::Triton::atomic_xchg", pure (codegen_atomic_rmw_impl RmwXchg fargs st));
   ("triton::Triton::atomic_cas", pure (codegen_atomic_cas_call fargs st));
   ("triton::Triton::atomic_and", pure (codegen_atomic_rmw_impl RmwAnd fargs st));
   ("triton::Triton::atomic_or", pure (codegen_atomic_rmw_impl RmwOr fargs st));
   ("triton::Triton::atomic_xor", pure (codegen_atomic_rmw_impl RmwXor fargs st));
   ("triton::Triton::umulhi", pure (codegen_umulhi_call fargs st));
   ("triton::Triton::rand", pure (codegen_ub_stub destination));
   ("triton::Triton::randn", pure (codegen_ub_stub destination));
   ("triton::Triton::randint", pure (codegen_ub_stub destination));
   ("triton::Triton::randint4x", pure (codegen_ub_stub destination));
   ("triton::Triton::inline_asm_elementwise", pure (codegen_ub_stub destination));
   ("triton::Triton::multiple_of", pure (codegen_multiple_of_call fargs st));
   ("triton::Triton::max_contiguous", pure (codegen_multiple_of_call fargs st));
   ("triton::Triton::max_constancy", pure (codegen_multiple_of_call fargs st));
   ("triton::Triton::where_", pure (codegen_where_call fargs st));
   ("Into::into", pure (codegen_identity_call fargs st));
   ("triton::Triton::assume", pure (mret None));
   ("triton::Triton::device_assert", pure (codegen_device_assert_call fargs st));
   ("triton::Triton::device_print", pure (codegen_device_print_call fargs st))].

Definition call_handler (func : Operand) (func_name : string) : tgen (option Value * TState) :=
  lookup_handler func_name handler_table (codegen_call func func_name fargs destination st).
End table.

(** The name of a function: its path, or how the operand prints. *)
Definition func_name_of (func : Operand) : string :=
  match func with
  | Constant c => match ty_of_const c with TyFnDef def => def_path_str tcx def | _ => operand_debug func end
  | _ => String.append "XX" (operand_debug func)
  end.

(** [codegen_terminator_call], up to the jump to the target. *)
Definition codegen_call_value (func : Operand) fargs destination st : tgen TState :=
  r ← call_handler fargs destination st func (func_name_of func);
  mret match r with
       | (Some value, st') => on_state (set_ssa (pl_local destination) value) st'
       | (None, st') => st'
       end.
End math.
