(* ===== verification/TritonTensorTypes.v ===== *)
(** * Triton backend: the types of tensor calls

    What Triton's verifier requires of the operations, as the documentation of
    the builders in [rustc_mlir/src/triton/tensor.rs] states it; the shape of the
    result each call of the API promises; and that the handlers keep the promise
    with operations the verifier accepts. *)
From S2P Require Import Prelude Codegen Mir PlaceTypes ScalarInts IntOps TritonArith TritonArithFacts TritonArithThms TritonArithTypes TritonConst TritonConstFacts TritonPhi TritonTypes TritonEmit TritonOperand TritonAssign TritonTensor TritonMath.
#[local] Open Scope Z_scope.

(** ** The verifier *)
Definition shape (t : MlirTy) : option (list Z) := option_map fst (ranked t).
Definition same_shape (t t' : MlirTy) : Prop := shape t = shape t'.
Definition float_elem (t : MlirTy) : Prop := is_float (elem_ty_from_type t) = true.
Definition int_elem (t : MlirTy) : Prop := is_integer (elem_ty_from_type t) = true.
Definition bool_elem (t : MlirTy) : Prop := elem_ty_from_type t = MInt 1.
Definition numel (dims : list Z) : Z := foldr Z.mul 1 dims.

Definition arith_ok (k : ArithKind) (args results : list MlirTy) : Prop :=
  match k, args, results with
  | splat, [x], [r] => is_tensor x = false ∧ ∃ d, r = MTensor d x
  | broadcast, [MTensor d e], [r] => ∃ d', r = MTensor d' e ∧ Forall2 (λ a b, a = 1 ∨ a = b) d d'
  | constant _, [], [r] => is_integer r = true
  | (float_zero | float_constant _ _), [], [r] => is_float r = true
  | int_to_ptr, [x], [r] => x = MInt 64 ∧ ∃ p, r = MPointer p
  | (addi | subi | muli | divsi | remsi | andi | ori | xori | shli | shrsi | shrui), [x; y], [r] => y = x ∧ r = x ∧ int_elem x
  | (addf | subf | mulf | divf), [x; y], [r] => y = x ∧ r = x ∧ float_elem x
  | negf, [x], [r] => r = x ∧ float_elem x
  | cmpi _, [x; y], [r] => y = x ∧ int_elem x ∧ bool_elem r ∧ same_shape x r
  | cmpf _, [x; y], [r] => y = x ∧ float_elem x ∧ bool_elem r ∧ same_shape x r
  | sitofp, [x], [r] => same_shape x r ∧ int_elem x ∧ float_elem r
  | fptosi, [x], [r] => same_shape x r ∧ float_elem x ∧ int_elem r
  | truncf, [x], [r] => same_shape x r ∧ ∃ w w', elem_ty_from_type x = MFloat w ∧ elem_ty_from_type r = MFloat w' ∧ w' < w
  | extf, [x], [r] => same_shape x r ∧ ∃ w w', elem_ty_from_type x = MFloat w ∧ elem_ty_from_type r = MFloat w' ∧ w < w'
  | _, _, _ => False
  end.

Definition combine_is_int (op : CombineOp) : bool :=
  match op with CAddi | CMuli | CMaxsi | CMinsi | CXori => true | _ => false end.
Definition region_ok (e : MlirTy) (rg : Region) (end_ : RegionEnd) : Prop :=
  rg_args rg = [e; e] ∧ rg_operands rg = [0; 1]%nat ∧ rg_result rg = e ∧ rg_end rg = end_ ∧
  (if combine_is_int (rg_op rg) then is_integer e else is_float e) = true.

(** The type of a reduction: a dimension less, the element when none is left. *)
Definition reduced_ty (d : list Z) (e : MlirTy) (axis : Z) : MlirTy :=
  match reduced_dims axis d with [] => e | d' => MTensor d' e end.

(** The optional operands [mask] and [other] of a memory access to [p]. *)
Definition access_ok (p v : MlirTy) (mask other : bool) (rest : list MlirTy) : Prop :=
  elem_ty_from_type p = MPointer (elem_ty_from_type v) ∧ same_shape p v ∧
  ∃ m, bool_elem m ∧ same_shape p m ∧ rest = (if mask then [m] else []) ++ (if other then [v] else []).

Definition rmw_ok (op : RmwOp) (t : MlirTy) : Prop :=
  match op with
  | RmwFadd => float_elem t
  | RmwXchg => int_elem t ∨ float_elem t
  | _ => int_elem t
  end.

Definition op_ok (k : TKind) (args results : list MlirTy) : Prop :=
  match k, args, results with
  | arith k, _, _ => arith_ok k args results
  | trunci, [x], [r] => same_shape x r ∧ ∃ w w', elem_ty_from_type x = MInt w ∧ elem_ty_from_type r = MInt w' ∧ w' < w
  | extsi, [x], [r] => same_shape x r ∧ ∃ w w', elem_ty_from_type x = MInt w ∧ elem_ty_from_type r = MInt w' ∧ w < w'
  | select, [c; x; y], [r] => y = x ∧ r = x ∧ bool_elem c ∧ (c = MInt 1 ∨ same_shape c x)
  | (maximumf | minimumf | precise_divf), [x; y], [r] => y = x ∧ r = x ∧ float_elem x
  | (minsi | mulhiui), [x; y], [r] => y = x ∧ r = x ∧ int_elem x
  | precise_sqrt, [x], [r] => r = x ∧ float_elem x
  | math _, [x], [r] => r = x ∧ float_elem x
  | extern_elementwise _, [x], [r] => same_shape x r
  | (fma | clampf), [x; y; z], [r] => y = x ∧ z = x ∧ r = x ∧ float_elem x
  | make_range start end_, [], [r] => start < end_ ∧ r = MTensor [end_ - start] (MInt 32)
  | add_ptr, [p; o], [r] => r = p ∧ (∃ t, elem_ty_from_type p = MPointer t) ∧ same_shape p o ∧ int_elem o
  | tt_load mask other, p :: rest, [r] => access_ok p r mask other rest
  | tt_store mask, p :: v :: rest, [] => access_ok p v mask false rest
  | cat, [MTensor [a] e; MTensor [b] e'], [r] => e' = e ∧ r = MTensor [a + b] e
  | expand_dims axis, [MTensor d e], [r] =>
      0 ≤ axis ≤ Z.of_nat (length d) ∧ ∃ d1 d2, d = d1 ++ d2 ∧ Z.of_nat (length d1) = axis ∧ r = MTensor (d1 ++ 1 :: d2) e
  | trans order, [MTensor d e], [r] =>
      order ≡ₚ seqZ 0 (Z.of_nat (length d)) ∧ ∃ d', r = MTensor d' e ∧ Forall2 (λ i x, d !! Z.to_nat i = Some x) order d'
  | reshape _ _, [MTensor d e], [r] => ∃ d', r = MTensor d' e ∧ numel d' = numel d
  | join, [x; y], [r] => y = x ∧ ∃ d e, x = MTensor d e ∧ r = MTensor (d ++ [2]) e
  | split, [x], [r; r'] => r' = r ∧ ∃ d e, x = MTensor (d ++ [2]) e ∧ r = MTensor d e
  | dot _ _, [MTensor [m; k] e; MTensor [k'; n] e'; c], [r] => k' = k ∧ e' = e ∧ r = c ∧ shape c = Some [m; n]
  | reduce axis rg, [MTensor d e], [r] =>
      0 ≤ axis < Z.of_nat (length d) ∧ r = reduced_ty d e axis ∧ region_ok e rg ReduceReturn
  | scan axis _ rg, [MTensor d e], [r] =>
      0 ≤ axis < Z.of_nat (length d) ∧ r = MTensor d e ∧ region_ok e rg ScanReturn
  | atomic_rmw op mask, p :: v :: rest, [r] => r = v ∧ access_ok p v mask false rest ∧ rmw_ok op v
  | atomic_cas, [p; c; v], [r] => c = v ∧ r = v ∧ access_ok p v false false []
  | (get_program_id _ | get_num_programs _), [], [r] => r = MInt 32
  | assert_op _, [c], [] => bool_elem c
  | _, _, _ => False
  end.
Definition tt_ok (o : TOp) : Prop := op_ok (to_kind o) (v_ty <$> to_args o) (v_ty <$> to_results o).

(** ** Emission *)
Definition temits {A} (m : tgen A) (Q : A → Prop) : Prop := ∀ b, ∃ a b' new,
  m b = Ret (inr (a, b')) ∧ tb_ops b' = tb_ops b ++ new ∧ Forall tt_ok new ∧ Q a.

Lemma temits_ret {A} (a : A) (Q : A → Prop) : Q a → temits (mret a) Q.
Proof. intros Ha b. exists a, b, []. rewrite app_nil_r. by split_and!. Qed.

Lemma temits_bind {A B} (m : tgen A) (f : A → tgen B) (P : A → Prop) (Q : B → Prop) :
  temits m P → (∀ a, P a → temits (f a) Q) → temits (m ≫= f) Q.
Proof.
  intros Hm Hf b. destruct (Hm b) as (a & b1 & n1 & E1 & H1 & W1 & Ha).
  destruct (Hf a Ha b1) as (c & b2 & n2 & E2 & H2 & W2 & Hc). exists c, b2, (n1 ++ n2).
  unfold mbind, cg_bind. rewrite E1. simpl. rewrite E2, H2, H1, app_assoc.
  split_and!; [done..|by apply Forall_app|done].
Qed.

(** A computation that appends nothing. *)
Lemma temits_pure {A B} (m : tgen A) (f : A → tgen B) a (Q : B → Prop) :
  (∀ b, m b = Ret (inr (a, b))) → temits (f a) Q → temits (m ≫= f) Q.
Proof.
  intros Hm Hf. apply (temits_bind _ _ (.= a)); [|by intros ? ->]. intros b. exists a, b, [].
  rewrite Hm, app_nil_r. by split_and!.
Qed.

Lemma fresh_values_types n tys : v_ty <$> fresh_values n tys = tys.
Proof. revert n. induction tys as [|t tys IH]; intros n; simpl; [done|]. by rewrite IH. Qed.

Lemma temits_append k args tys Q :
  (∀ vs, v_ty <$> vs = tys → op_ok k (v_ty <$> args) tys ∧ Q vs) → temits (append k args tys) Q.
Proof.
  intros H b. assert (E := fresh_values_types (tb_next b) tys).
  destruct (H _ E) as [Hok Hq]. eexists _, _, _. split_and!; [reflexivity|reflexivity| |exact Hq].
  apply Forall_singleton. unfold tt_ok. simpl. by rewrite E.
Qed.

Lemma temits_append1 {B} k args ty (f : Value → tgen B) Q :
  op_ok k (v_ty <$> args) [ty] → (∀ v, v_ty v = ty → temits (f v) Q) → temits (append1 k args ty ≫= f) Q.
Proof.
  intros Hok Hf. apply (temits_bind _ _ (λ v, v_ty v = ty)); [|done]. unfold append1.
  apply (temits_bind _ _ (λ vs, v_ty <$> vs = [ty])); [by apply temits_append|].
  intros vs Hvs. destruct vs as [|v [|]]; simplify_eq/=. intros b. exists v, b, []. rewrite app_nil_r. by split_and!.
Qed.

Lemma temits_append0 {B} k args (f : unit → tgen B) Q :
  op_ok k (v_ty <$> args) [] → temits (f tt) Q → temits (append0 k args ≫= f) Q.
Proof.
  intros Hok Hf. apply (temits_bind _ _ (λ _, True)); [|by intros [] _]. unfold append0.
  eapply temits_bind; [by apply (temits_append _ _ _ (λ _, True))|]. intros _ _. by apply temits_ret.
Qed.

(** An operation of [TritonArith], lifted. *)
Lemma temits_emit {B} k args ty (f : Value → tgen B) Q :
  arith_ok k (v_ty <$> args) [ty] → (∀ v, v_ty v = ty → temits (f v) Q) → temits (lift (emit k args ty) ≫= f) Q.
Proof.
  intros Hok Hf. apply (temits_bind _ _ (λ v, v_ty v = ty)); [|done].
  intros b. eexists _, _, _. split_and!; [reflexivity|reflexivity| |done]. by apply Forall_singleton.
Qed.
Lemma lift_ret {A} (a : A) b : lift (mret a) b = Ret (inr (a, b)).
Proof. unfold lift. simpl. destruct b. simpl. by rewrite app_nil_r. Qed.

Lemma temits_int_constant {B} i (f : Value → tgen B) Q :
  (∀ v, v_ty v = int_ty i → temits (f v) Q) → temits (lift (create_int_constant i) ≫= f) Q.
Proof. intros Hf. apply temits_emit; [|done]. by destruct i. Qed.

Lemma temits_like_tensor {B} t v d e (f : Value → tgen B) Q :
  v_ty t = MTensor d e → is_tensor (v_ty v) = false →
  (∀ r, v_ty r = MTensor d (v_ty v) → temits (f r) Q) → temits (lift (like_tensor t v) ≫= f) Q.
Proof.
  intros Ht Hv Hf. unfold like_tensor, ranked_or_err. rewrite Ht. simpl.
  apply (temits_emit splat [v] (MTensor d (v_ty v))); [|done]. split; [done|by eexists].
Qed.

Lemma temits_broadcast {B} bd e v d (f : Value → tgen B) Q :
  v_ty v = MTensor d e → Forall2 (λ a b, a = 1 ∨ a = b) d bd →
  (∀ r, v_ty r = MTensor bd e → temits (f r) Q) → temits (lift (do_broadcast bd e v d) ≫= f) Q.
Proof.
  intros Hv Hd Hf. unfold do_broadcast. case_bool_decide as E.
  - subst bd. apply (temits_pure _ _ v); [apply lift_ret|by apply Hf].
  - apply temits_emit; [|done]. simpl. rewrite Hv. by exists bd.
Qed.

Lemma temits_ranked {B} t d e (f : list Z * MlirTy → tgen B) Q :
  t = MTensor d e → temits (f (d, e)) Q → temits (ranked_tensor t ≫= f) Q.
Proof. intros -> Hf. by apply (temits_pure _ _ (d, e)). Qed.

Lemma temits_lift_ret {A B} (o : outcome A) a (f : A → tgen B) Q :
  o = Ret a → temits (f a) Q → temits (cg_lift o ≫= f) Q.
Proof. intros -> Hf. by apply (temits_pure _ _ a). Qed.

(** ** What the calls promise *)
Section calls.
Context (tcx : TyCtxt) (gargs : list GenericArg) (infer : ArithKind → MlirTy → MlirTy → MlirTy).
Context (fuel const_fuel : nat) (mir : Body).
Context (fn_output : DefId → Ty) (fn_ptr_output : Ty) (symbol_name : DefId → option string) (operand_debug : Operand → string).
Context (destination : Place) (st : TState).
Implicit Types (op : Operand) (v x : Value) (d sh : list Z) (e t : MlirTy).

(** An operand that is read from the tables; an optional one; a constant; a
    slice of known elements; the type of the destination. *)
Definition evaluates op v : Prop := ∃ p ty,
  operand_place op = Some p ∧ codegen_copy (ts_state st) p = Ret v ∧ operand_ty (boxed_ty tcx) mir op = Ret ty.
Definition evaluates_option op (o : option Value) : Prop := ∃ ty,
  operand_norm_ty tcx mir op = Ret ty ∧ is_option tcx ty = true ∧ option_entry (ts_state st) op = Ret o.
Definition is_const op (s : ScalarInt) : Prop := to_scalar_int gargs op = Ret (inr s).
Definition const_i32 op (n : Z) : Prop := ∃ s, is_const op s ∧ SI.to_i32 s = Ret n.
Definition const_bool op (b : bool) : Prop := is_const op (mkScalarInt (Z.b2z b) 1).
(** A constant of the enumeration [Axis], which is represented as an [i32]; an
    [Option<i32>], which is no scalar. *)
Definition const_axis op (n : Z) : Prop := is_const op (mkScalarInt n 4) ∧ 0 <= n < 3.
Definition option_operand op : Prop := ∃ err, to_scalar_int gargs op = Ret (inl err).
Definition slice op sh : Prop := ∃ p, operand_place op = Some p ∧ lookup_slice_shape (pl_local p) (ts_state st) = Some sh.
Definition dest_is t : Prop := ∃ ty, dest_rust_ty tcx mir destination = Ret ty ∧ map_type tcx fuel ty = Ret t.

(** An element count that fits the code's [i64]. *)
Definition countable d : Prop := Forall (Z.le 1) d ∧ numel d < 2 ^ 63.
Definition optional_ty (o : option Value) (P : MlirTy → Prop) : Prop :=
  match o with Some v => P (v_ty v) | None => True end.
Definition is_mask d t : Prop := t = MTensor d (MInt 1).

Definition float_calls : list string :=
  ["triton::Triton::abs"; "triton::Triton::ceil"; "triton::Triton::floor"; "triton::Triton::cos"; "triton::Triton::sin";
   "triton::Triton::exp"; "triton::Triton::exp2"; "triton::Triton::log"; "triton::Triton::log2"; "triton::Triton::sqrt";
   "triton::Triton::erf"; "triton::Triton::sqrt_rn"; "triton::Triton::atan"].
Definition float_pair_calls : list string :=
  ["triton::Triton::maximum"; "triton::Triton::minimum"; "triton::Triton::div_rn"].
Definition float_triple_calls : list string := ["triton::Triton::clamp"; "triton::Triton::fma"].
Definition reduce_calls : list string := ["triton::Triton::sum"; "triton::Triton::max"; "triton::Triton::min"].
Definition scan_calls : list string := ["triton::Triton::cumsum"; "triton::Triton::cumprod"].
Definition hint_calls : list string :=
  ["triton::Triton::multiple_of"; "triton::Triton::max_contiguous"; "triton::Triton::max_constancy"].
(** The atomic operations with a value and a mask, and the element types they
    are implemented for. *)
Definition atomic_calls : list (string * RmwOp) :=
  [("triton::Triton::atomic_and", RmwAnd); ("triton::Triton::atomic_or", RmwOr); ("triton::Triton::atomic_xor", RmwXor);
   ("triton::Triton::atomic_max", RmwMax); ("triton::Triton::atomic_min", RmwMin); ("triton::Triton::atomic_xchg", RmwXchg)].
Definition numeric e : Prop := is_integer e = true ∨ is_float e = true.
Definition arith_calls : list string :=
  ["core::ops::Add::add"; "core::ops::Sub::sub"; "core::ops::Mul::mul"; "core::ops::Div::div"].
Definition bitwise_calls : list string := ["core::ops::BitAnd::bitand"; "core::ops::BitOr::bitor"].
Definition compare_calls : list string :=
  ["triton::types::Comparison::ge"; "triton::types::Comparison::gt"; "triton::types::Comparison::le";
   "triton::types::Comparison::eq"; "triton::types::Comparison::ne";
   "triton::Triton::gt"; "triton::Triton::ge"; "triton::Triton::lt"; "triton::Triton::le"; "triton::Triton::eq"; "triton::Triton::ne";
   "triton::Triton::lt_scalar"; "triton::Triton::le_scalar"; "triton::Triton::gt_scalar"; "triton::Triton::ge_scalar";
   "triton::Triton::eq_scalar"; "triton::Triton::ne_scalar"].
(** Two operands of one shape, or a scalar and a tensor; the shape of the result. *)
Definition pair_shape (s s' r : option (list Z)) : Prop := r = s ∧ (s' = s ∨ s' = None) ∨ r = s' ∧ s = None.

(** Conversions that exist: between floats of any width, from and to integers,
    and to narrower integers. *)
Definition float_width (w : Z) : Prop := w = 16 ∨ w = 32 ∨ w = 64.
Definition castable e e' : Prop :=
  match e, e' with
  | MFloat w, MFloat w' => float_width w ∧ float_width w'
  | MInt _, MFloat _ | MFloat _, MInt _ => True
  | MInt w, MInt w' => w' <= w
  | _, _ => False
  end.

(** [call_ok name args tys]: a call with the operands of the API's signature (the
    trait [Triton] of [tests/data/triton_kitchen_sink.rs]), whose operands have
    the shapes, elements and constants listed here, and the types of its results.
    The operands that no condition mentions are those the handlers do not look
    at.  Not listed are [dot_scaled], block pointers and descriptors, [gather],
    [histogram], assertions and prints, whose rules are not modelled, and the calls
    that are compiled to [ub.poison] ([flip], [swizzle2d], [argmax], [argmin], the
    reductions with indices, [sort], [reduce], [associative_scan], random numbers
    and inline assembly). *)
Inductive call_ok : string → list Operand → list MlirTy → Prop :=
  | ok_arange a b lo hi : const_i32 a lo → const_i32 b hi → lo < hi → hi - lo < 2 ^ 31 →
      call_ok "triton::Triton::arange" [a; b] [MTensor [hi - lo] (MInt 32)]
  | ok_arange_f32 a b lo hi : const_i32 a lo → const_i32 b hi → lo < hi → hi - lo < 2 ^ 31 →
      call_ok "triton::Triton::arange_f32" [a; b] [MTensor [hi - lo] (MFloat 32)]
  | ok_zeros s sh e : slice s sh → dest_is (MTensor [DYNAMIC] e) → e = MInt 32 ∨ is_float e = true ∨ (∃ t, e = MPointer t) →
      call_ok "triton::Triton::zeros" [s] [MTensor sh e]
  | ok_zeros_like a x sh e : evaluates a x → v_ty x = MTensor sh e → e = MInt 32 ∨ is_float e = true ∨ (∃ t, e = MPointer t) →
      call_ok "triton::Triton::zeros_like" [a] [MTensor sh e]
  | ok_full s a sh x : slice s sh → evaluates a x → is_tensor (v_ty x) = false → dest_is (MTensor [DYNAMIC] (v_ty x)) →
      call_ok "triton::Triton::full" [s; a] [MTensor sh (v_ty x)]
  | ok_add_offsets p o vp vo t d w : evaluates p vp → evaluates o vo → v_ty vp = MPointer t → v_ty vo = MTensor d (MInt w) →
      call_ok "triton::types::AddOffsets::add_offsets" [p; o] [MTensor d (MPointer t)]
  | ok_load p m o bc pad cm ev vol vp vm vo d e : evaluates p vp → evaluates_option m vm → evaluates_option o vo →
      v_ty vp = MTensor d (MPointer e) → dest_is (MTensor [DYNAMIC] e) →
      optional_ty vm (is_mask d) → optional_ty vo (.= MTensor d e) →
      call_ok "triton::Triton::load" [p; m; o; bc; pad; cm; ev; vol] [MTensor d e]
  | ok_store p a m bc cm ev vp va vm d e : evaluates p vp → evaluates a va → evaluates_option m vm →
      v_ty vp = MTensor d (MPointer e) → v_ty va = MTensor d e → optional_ty vm (is_mask d) →
      tuple_fields (ts_state st) !! pl_local destination = None →
      call_ok "triton::Triton::store" [p; a; m; bc; cm; ev] []
  | ok_load_scalar p o vp vo w : evaluates p vp → evaluates o vo → v_ty vp = MPointer (MFloat 32) → v_ty vo = MInt w →
      call_ok "triton::Triton::load_scalar_f32_as_i32" [p; o] [MInt 32]
  | ok_float name a x : name ∈ float_calls → evaluates a x → float_elem (v_ty x) → call_ok name [a] [v_ty x]
  | ok_float_pair name a b x y : name ∈ float_pair_calls → evaluates a x → evaluates b y → v_ty y = v_ty x →
      float_elem (v_ty x) → call_ok name [a; b] [v_ty x]
  | ok_fdiv a b ieee x y : evaluates a x → evaluates b y → v_ty y = v_ty x → float_elem (v_ty x) →
      call_ok "triton::Triton::fdiv" [a; b; ieee] [v_ty x]
  | ok_float_triple name a b c x y z : name ∈ float_triple_calls → evaluates a x → evaluates b y → evaluates c z →
      v_ty y = v_ty x → v_ty z = v_ty x → float_elem (v_ty x) → call_ok name [a; b; c] [v_ty x]
  | ok_minimum_int a b x y : evaluates a x → evaluates b y → v_ty y = v_ty x → int_elem (v_ty x) →
      call_ok "triton::Triton::minimum" [a; b] [v_ty x]
  | ok_umulhi a b x y : evaluates a x → evaluates b y → v_ty y = v_ty x → int_elem (v_ty x) →
      call_ok "triton::Triton::umulhi" [a; b] [v_ty x]
  | ok_cdiv a b x y w : evaluates a x → evaluates b y → v_ty x = MInt w → v_ty y = MInt w →
      call_ok "triton::Triton::cdiv" [a; b] [MInt w]
  | ok_where c a b vc x y d e : evaluates c vc → evaluates a x → evaluates b y → v_ty vc = MTensor d (MInt 1) →
      v_ty x = MTensor d e → v_ty y = MTensor d e → call_ok "triton::Triton::where_" [c; a; b] [MTensor d e]
  | ok_rsqrt a x d w : evaluates a x → v_ty x = MFloat w ∨ v_ty x = MTensor d (MFloat w) → float_width w →
      call_ok "triton::Triton::rsqrt" [a] [v_ty x]
  | ok_sigmoid a x d : evaluates a x → v_ty x = MFloat 32 ∨ v_ty x = MTensor d (MFloat 32) →
      call_ok "triton::Triton::sigmoid" [a] [v_ty x]
  | ok_softmax a dim keep ieee x n w : evaluates a x → v_ty x = MTensor [n] (MFloat w) →
      call_ok "triton::Triton::softmax" [a; dim; keep; ieee] [v_ty x]
  | ok_cast a rounding bitcast x d e e' : evaluates a x → v_ty x = MTensor d e → dest_is (MTensor [DYNAMIC] e') → castable e e' →
      call_ok "triton::Triton::cast" [a; rounding; bitcast] [MTensor d e']
  | ok_cat a b reorder x y m n e : evaluates a x → evaluates b y → v_ty x = MTensor [m] e → v_ty y = MTensor [n] e →
      0 <= m → 0 <= n → m + n < 2 ^ 63 → call_ok "triton::Triton::cat" [a; b; reorder] [MTensor [m + n] e]
  | ok_broadcast a b x y d1 d2 e : evaluates a x → evaluates b y → v_ty x = MTensor d1 e → v_ty y = MTensor d2 e →
      broadcastable d1 d2 → call_ok "triton::Triton::broadcast" [a; b] [MTensor (zip_with Z.max d1 d2) e; MTensor (zip_with Z.max d1 d2) e]
  | ok_broadcast_to a s x d sh e : evaluates a x → slice s sh → v_ty x = MTensor d e → Forall2 (λ n m, n = 1 ∨ n = m) d sh →
      call_ok "triton::Triton::broadcast_to" [a; s] [MTensor sh e]
  | ok_expand_dims a n x d1 d2 e : evaluates a x → const_i32 n (Z.of_nat (length d1)) → v_ty x = MTensor (d1 ++ d2) e →
      call_ok "triton::Triton::expand_dims" [a; n] [MTensor (d1 ++ 1 :: d2) e]
  | ok_permute name a s x d d' order e : name = "triton::Triton::permute" ∨ name = "triton::Triton::trans" →
      evaluates a x → slice s order → v_ty x = MTensor d e → order ≡ₚ seqZ 0 (Z.of_nat (length d)) → Z.of_nat (length d) < 2 ^ 31 →
      Forall2 (λ i n, d !! Z.to_nat i = Some n) order d' → call_ok name [a; s] [MTensor d' e]
  | ok_reshape a s r x d sh e b : evaluates a x → slice s sh → const_bool r b → v_ty x = MTensor d e →
      countable d → countable sh → numel sh = numel d → call_ok "triton::Triton::reshape" [a; s; r] [MTensor sh e]
  | ok_view a s x d sh e : evaluates a x → slice s sh → v_ty x = MTensor d e → countable d → countable sh →
      numel sh = numel d → call_ok "triton::Triton::view" [a; s] [MTensor sh e]
  | ok_ravel a r x d e b : evaluates a x → const_bool r b → v_ty x = MTensor d e → countable d →
      call_ok "triton::Triton::ravel" [a; r] [MTensor [numel d] e]
  | ok_join a b x y d e : evaluates a x → evaluates b y → v_ty x = MTensor d e → v_ty y = MTensor d e →
      call_ok "triton::Triton::join" [a; b] [MTensor (d ++ [2]) e]
  | ok_interleave a b x y d n e : evaluates a x → evaluates b y → v_ty x = MTensor (d ++ [n]) e → v_ty y = MTensor (d ++ [n]) e →
      0 <= n < 2 ^ 62 → call_ok "triton::Triton::interleave" [a; b] [MTensor (d ++ [2 * n]) e]
  | ok_split a x d e : evaluates a x → v_ty x = MTensor (d ++ [2]) e →
      call_ok "triton::Triton::split" [a] [MTensor d e; MTensor d e]
  | ok_dot a b c p i x y vc vi s m k n e : evaluates a x → evaluates b y → evaluates_option c vc → evaluates_option i vi →
      is_const p s → si_wf s →
      v_ty x = MTensor [m; k] e → v_ty y = MTensor [k; n] e →
      match vc with Some vc => ∃ ec, v_ty vc = MTensor [m; n] ec | None => e = MInt 32 ∨ is_float e = true end →
      call_ok "triton::Triton::dot" [a; b; c; p; i] [match vc with Some vc => v_ty vc | None => MTensor [m; n] e end]
  | ok_reduce name a axis k x d e : name ∈ reduce_calls → evaluates a x → option_operand axis → const_bool k false →
      v_ty x = MTensor d e → d ≠ [] → numeric e → call_ok name [a; axis; k] [reduced_ty d e 0]
  | ok_reduce_keep name a axis k x len e : name ∈ reduce_calls → evaluates a x → option_operand axis → const_bool k true →
      v_ty x = MTensor [len] e → numeric e → is_tensor e = false → call_ok name [a; axis; k] [MTensor [1] e]
  | ok_scan name a n reverse x d e axis : name ∈ scan_calls → evaluates a x → const_i32 n axis → v_ty x = MTensor d e →
      0 <= axis < Z.of_nat (length d) → numeric e → call_ok name [a; n; reverse] [MTensor d e]
  | ok_atomic_add p a m sem scope vp va vm d e : evaluates p vp → evaluates a va → evaluates_option m vm →
      v_ty vp = MTensor d (MPointer e) → v_ty va = MTensor d e → numeric e → optional_ty vm (is_mask d) →
      call_ok "triton::Triton::atomic_add" [p; a; m; sem; scope] [MTensor d e]
  | ok_atomic name rmw p a m sem scope vp va vm d e : (name, rmw) ∈ atomic_calls →
      evaluates p vp → evaluates a va → evaluates_option m vm →
      v_ty vp = MTensor d (MPointer e) → v_ty va = MTensor d e → rmw_ok rmw (MTensor d e) → optional_ty vm (is_mask d) →
      call_ok name [p; a; m; sem; scope] [MTensor d e]
  | ok_atomic_cas p c a sem scope vp vc va d e : evaluates p vp → evaluates c vc → evaluates a va →
      v_ty vp = MTensor d (MPointer e) → v_ty vc = MTensor d e → v_ty va = MTensor d e →
      call_ok "triton::Triton::atomic_cas" [p; c; a; sem; scope] [MTensor d e]
  | ok_program_id a n : const_axis a n → call_ok "triton::Triton::program_id" [a] [MInt 32]
  | ok_num_programs a n : const_axis a n → call_ok "triton::Triton::num_programs" [a] [MInt 32]
  | ok_arith name a b x y s s' r e : name ∈ arith_calls → evaluates a x → evaluates b y → v_ty x = with_shape s e →
      v_ty y = with_shape s' e → pair_shape s s' r → numeric e → call_ok name [a; b] [with_shape r e]
  | ok_bitwise name a b x y s s' r w : name ∈ bitwise_calls → evaluates a x → evaluates b y → v_ty x = with_shape s (MInt w) →
      v_ty y = with_shape s' (MInt w) → pair_shape s s' r → call_ok name [a; b] [with_shape r (MInt w)]
  | ok_compare name a b x y s s' r e : name ∈ compare_calls → evaluates a x → evaluates b y → v_ty x = with_shape s e →
      v_ty y = with_shape s' e → pair_shape s s' r → is_integer e = true ∨ is_float e = true ∧ r ≠ None →
      call_ok name [a; b] [with_shape r (MInt 1)]
  | ok_lt_int a b x y s s' r w : evaluates a x → evaluates b y → v_ty x = with_shape s (MInt w) →
      v_ty y = with_shape s' (MInt w) → pair_shape s s' r →
      call_ok "triton::types::Comparison::lt" [a; b] [with_shape r (MInt 1)]
  | ok_neg a x s e : evaluates a x → v_ty x = with_shape s e → numeric e → call_ok "core::ops::Neg::neg" [a] [with_shape s e]
  | ok_into a x : evaluates a x → call_ok "Into::into" [a] [v_ty x]
  | ok_hint name a values x : name ∈ hint_calls → evaluates a x → call_ok name [a; values] [v_ty x].
End calls.

(** ** The handlers keep the promises *)
Section handlers.
Context (tcx : TyCtxt) (gargs : list GenericArg) (fuel const_fuel : nat) (mir : Body) (destination : Place) (st : TState).
Implicit Types (op : Operand) (v x : Value) (d sh : list Z) (e t : MlirTy).
Abbreviation evaluates := (evaluates tcx mir st).
Abbreviation evaluates_option := (evaluates_option tcx mir st).
Abbreviation const_i32 := (const_i32 gargs).
Abbreviation slice := (slice st).
Abbreviation dest_is := (dest_is tcx fuel mir destination).

(** A handler that answers a value of type [t]. *)
Definition gives t (o : option Value) : Prop := ∃ v, o = Some v ∧ v_ty v = t.
Lemma gives_some v t : v_ty v = t → temits (mret (Some v)) (gives t).
Proof. intros Hv. apply temits_ret. by exists v. Qed.

Lemma eval_arg_eq fargs i op v b : fargs !! i = Some op → evaluates op v →
  eval_arg tcx gargs fuel mir fargs i st b = Ret (inr (v, b)).
Proof.
  intros Hop (p & ty & Hp & Hv & Ht).
  unfold eval_arg, farg, operand_value, mbind, cg_bind, cg_lift. rewrite Hop. cbn [unwrap mbind outcome_bind]. rewrite Ht. cbn [mbind outcome_bind].
  destruct op; simplify_eq/=; unfold lift, cg_lift; rewrite Hv; destruct b; simpl; by rewrite app_nil_r.
Qed.
Lemma temits_eval {B} fargs i op v (f : Value → tgen B) Q :
  fargs !! i = Some op → evaluates op v → temits (f v) Q → temits (eval_arg tcx gargs fuel mir fargs i st ≫= f) Q.
Proof. intros Hop Hv. apply temits_pure. intros b. by apply (eval_arg_eq fargs i op v b). Qed.
Lemma temits_eval_option {B} fargs i op o (f : option Value → tgen B) Q :
  fargs !! i = Some op → evaluates_option op o → temits (f o) Q → temits (eval_option_arg tcx gargs fuel mir fargs i st ≫= f) Q.
Proof.
  intros Hop (ty & Ht & Ho & Hv). apply temits_pure. intros b.
  unfold eval_option_arg, farg, lift, codegen_option_operand, mbind, cg_bind, cg_lift.
  rewrite Hop. cbn [unwrap mbind outcome_bind]. rewrite Ht. cbn [mbind outcome_bind]. rewrite Ho. cbn [mbind outcome_bind]. rewrite Hv. destruct b. simpl. by rewrite app_nil_r.
Qed.
Lemma temits_const {B} fargs i op n (f : Z → tgen B) Q :
  fargs !! i = Some op → const_i32 op n → temits (f n) Q → temits (const_i32_arg gargs const_fuel mir fargs i ≫= f) Q.
Proof.
  intros Hop (s & Hs & Hn). apply temits_pure. intros b.
  unfold const_i32_arg, farg, try_eval_const_i32, mbind, cg_bind, cg_lift. rewrite Hop. cbn [unwrap mbind outcome_bind].
  rewrite Hs. cbn [mbind outcome_bind]. by rewrite Hn.
Qed.
Lemma temits_scalar {B} fargs i op s (f : option ScalarInt → tgen B) Q :
  fargs !! i = Some op → is_const gargs op s → temits (f (Some s)) Q → temits (scalar_arg gargs fargs i ≫= f) Q.
Proof.
  intros Hop Hs. apply temits_pure. intros b.
  unfold scalar_arg, farg, mbind, cg_bind, cg_lift. rewrite Hop. cbn [unwrap mbind outcome_bind]. by rewrite Hs.
Qed.
Lemma temits_shape {B} fargs i op sh (f : list Z → tgen B) Q :
  fargs !! i = Some op → slice op sh → temits (f sh) Q → temits (shape_arg fargs i st ≫= f) Q.
Proof.
  intros Hop (p & Hp & Hs). apply temits_pure. intros b.
  unfold shape_arg, farg, shape_from_slice_arg, mbind, cg_bind, cg_lift. rewrite Hop. cbn [unwrap mbind outcome_bind].
  by rewrite Hp, Hs.
Qed.
Lemma temits_dest {B} t (f : MlirTy → tgen B) Q :
  dest_is t → temits (f t) Q → temits (dest_mlir_ty tcx fuel mir destination ≫= f) Q.
Proof.
  intros (ty & Hd & Ht). apply temits_pure. intros b.
  unfold dest_mlir_ty, mbind, cg_bind, cg_lift. rewrite Hd. cbn [mbind outcome_bind]. by rewrite Ht.
Qed.
Lemma temits_expect {B} fargs n (f : unit → tgen B) Q :
  length fargs = n → temits (f tt) Q → temits (expect_args fargs n ≫= f) Q.
Proof. intros <-. apply temits_pure. intros b. unfold expect_args. by rewrite Nat.eqb_refl. Qed.

(** One step of a handler. *)
Ltac tstep :=
  cbn beta;
  lazymatch goal with
  | |- temits (eval_arg _ _ _ _ _ _ _ ≫= _) _ => eapply temits_eval; [reflexivity|eassumption|]
  | |- temits (eval_option_arg _ _ _ _ _ _ _ ≫= _) _ => eapply temits_eval_option; [reflexivity|eassumption|]
  | |- temits (const_i32_arg _ _ _ _ _ ≫= _) _ => eapply temits_const; [reflexivity|eassumption|]
  | |- temits (scalar_arg _ _ _ ≫= _) _ => eapply temits_scalar; [reflexivity|eassumption|]
  | |- temits (shape_arg _ _ _ ≫= _) _ => eapply temits_shape; [reflexivity|eassumption|]
  | |- temits (dest_mlir_ty _ _ _ _ ≫= _) _ => eapply temits_dest; [eassumption|]
  | |- temits (expect_args _ _ ≫= _) _ => eapply temits_expect; [reflexivity|]
  | |- temits (ranked_tensor _ ≫= _) _ => eapply temits_ranked; [eassumption|cbn [fst snd]]
  | |- temits (append1 _ _ _ ≫= _) _ => eapply temits_append1; [|intros ?v ?Hv]
  | |- temits (mret (Some _)) _ => by apply gives_some
  end.

Lemma check_i32_ok z : - 2 ^ 31 <= z < 2 ^ 31 → check_i32 z = Ret z.
Proof. intros. unfold check_i32. rewrite (proj2 (Z.leb_le _ _)), (proj2 (Z.ltb_lt _ _)) by lia. done. Qed.
Lemma check_i64_ok z : - 2 ^ 63 <= z < 2 ^ 63 → check_i64 z = Ret z.
Proof. intros. unfold check_i64. rewrite (proj2 (Z.leb_le _ _)), (proj2 (Z.ltb_lt _ _)) by lia. done. Qed.

Lemma temits_range {B} lo hi (f : Value → tgen B) Q : lo < hi → hi - lo < 2 ^ 31 →
  (∀ v, v_ty v = MTensor [hi - lo] (MInt 32) → temits (f v) Q) → temits (make_range_op lo hi ≫= f) Q.
Proof.
  intros H1 H2 Hf. apply (temits_bind _ _ (λ v, v_ty v = MTensor [hi - lo] (MInt 32))); [|done].
  unfold make_range_op. eapply temits_lift_ret; [apply check_i32_ok; lia|].
  unfold append1. eapply temits_bind; [apply (temits_append _ _ _ (λ vs, v_ty <$> vs = [MTensor [hi - lo] (MInt 32)]))|].
  { intros vs Hvs. split; [|done]. split; [lia|done]. }
  intros vs Hvs. destruct vs as [|v [|]]; simplify_eq/=. by apply temits_ret.
Qed.

Lemma gives_arange a b lo hi : const_i32 a lo → const_i32 b hi → lo < hi → hi - lo < 2 ^ 31 →
  temits (codegen_arange gargs const_fuel mir [a; b]) (gives (MTensor [hi - lo] (MInt 32))).
Proof. intros. unfold codegen_arange. do 3 tstep. apply temits_range; [done..|]. intros v Hv. tstep. Qed.
Lemma gives_arange_f32 a b lo hi : const_i32 a lo → const_i32 b hi → lo < hi → hi - lo < 2 ^ 31 →
  temits (codegen_arange_f32 gargs const_fuel mir [a; b]) (gives (MTensor [hi - lo] (MFloat 32))).
Proof.
  intros. unfold codegen_arange_f32. do 3 tstep. eapply temits_lift_ret; [apply check_i32_ok; lia|].
  apply temits_range; [done..|]. intros v Hv. tstep; [|tstep]. simpl. rewrite Hv. done.
Qed.

(** *** Creation and memory *)
Definition zeroable e : Prop := e = MInt 32 ∨ is_float e = true ∨ ∃ t, e = MPointer t.
Lemma temits_zero_constant {B} e (f : Value → tgen B) Q : e = MInt 32 ∨ is_float e = true →
  (∀ v, v_ty v = e → temits (f v) Q) → temits (zero_constant e ≫= f) Q.
Proof.
  intros He Hf. unfold zero_constant. destruct He as [->|He]; [by apply temits_int_constant|].
  destruct e; try done. simpl. tstep; [done|by apply Hf].
Qed.
Lemma temits_splat e d v : v_ty v = e → is_tensor e = false →
  temits (append1 (arith splat) [v] (MTensor d e)) (λ r, v_ty r = MTensor d e).
Proof.
  intros Hv Ht. unfold append1. eapply (temits_bind _ _ (λ vs, v_ty <$> vs = [MTensor d e])).
  - apply temits_append. intros vs Hvs. simpl. rewrite Hv. split; [|done]. split; [done|by eexists].
  - intros vs Hvs. destruct vs as [|r [|]]; simplify_eq/=. by apply temits_ret.
Qed.
Lemma temits_zero {B} e d (f : Value → tgen B) Q : zeroable e →
  (∀ v, v_ty v = MTensor d e → temits (f v) Q) → temits (zero_tensor e (MTensor d e) ≫= f) Q.
Proof.
  intros He Hf. apply (temits_bind _ _ (λ v, v_ty v = MTensor d e)); [|done]. unfold zero_tensor.
  assert (Hsplat := temits_splat e d).
  destruct He as [->|[He|[t ->]]].
  - apply temits_zero_constant; [by left|]. intros v Hv. by apply Hsplat.
  - destruct e; try done. simpl. apply temits_zero_constant; [by right|]. intros v Hv. by apply Hsplat.
  - simpl. unfold null_pointers. apply temits_int_constant. intros v Hv. simpl in Hv.
    eapply temits_append1; [simpl; rewrite Hv; by eauto|]. intros v' Hv'. by apply Hsplat.
Qed.

Lemma gives_zeros s sh e : slice s sh → dest_is (MTensor [DYNAMIC] e) → zeroable e →
  temits (codegen_zeros tcx fuel mir [s] destination st) (gives (MTensor sh e)).
Proof.
  intros (p & Hp & Hs) Hd He. unfold codegen_zeros. replace (zeros_shape [s] st) with sh.
  2: { unfold zeros_shape. simpl. rewrite Hp. simpl. by rewrite Hs. }
  cbn zeta. tstep. simpl. apply (temits_pure _ _ e); [done|]. apply temits_zero; [done|].
  intros v Hv. tstep.
Qed.
Lemma gives_zeros_like a x sh e : evaluates a x → v_ty x = MTensor sh e → zeroable e →
  temits (codegen_zeros_like tcx gargs fuel mir [a] st) (gives (MTensor sh e)).
Proof. intros. unfold codegen_zeros_like. do 3 tstep. rewrite H0. apply temits_zero; [done|]. intros v Hv. tstep. Qed.
Lemma gives_full s a sh x : slice s sh → evaluates a x → is_tensor (v_ty x) = false → dest_is (MTensor [DYNAMIC] (v_ty x)) →
  temits (codegen_full_call tcx gargs fuel mir [s; a] destination st) (gives (MTensor sh (v_ty x))).
Proof.
  intros (p & Hp & Hs) Ha Ht Hd. unfold codegen_full_call. do 2 tstep. apply (temits_pure _ _ s); [done|].
  rewrite Hp. simpl. rewrite Hs. unfold splat_scalar_const. simpl. tstep; [|tstep].
  split; [done|by eexists].
Qed.

Lemma gives_add_ptr p o vp vo t d w : evaluates p vp → evaluates o vo → v_ty vp = MPointer t → v_ty vo = MTensor d (MInt w) →
  temits (codegen_add_ptr tcx gargs fuel mir [p; o] st) (gives (MTensor d (MPointer t))).
Proof.
  intros Hp Ho Hvp Hvo. unfold codegen_add_ptr. do 3 tstep. rewrite Hvo. simpl. apply (temits_pure _ _ tt); [done|].
  eapply temits_like_tensor; [done|by rewrite Hvp|]. intros r Hr. rewrite Hvp in Hr. rewrite Hr. tstep; [|tstep].
  simpl. rewrite Hr, Hvo. repeat split. by exists t.
Qed.

Lemma option_args (o : option Value) (t : MlirTy) : optional_ty o (.= t) → v_ty <$> option_list o = if is_some o then [t] else [].
Proof. destruct o; simpl; [by intros ->|done]. Qed.
Lemma gives_load p m o rest vp vm vo d e : evaluates p vp → evaluates_option m vm → evaluates_option o vo →
  v_ty vp = MTensor d (MPointer e) → dest_is (MTensor [DYNAMIC] e) →
  optional_ty vm (is_mask d) → optional_ty vo (.= MTensor d e) →
  temits (codegen_load tcx gargs fuel mir (p :: m :: o :: rest) destination st) (gives (MTensor d e)).
Proof.
  intros Hp Hm Ho Hvp Hd Hvm Hvo. unfold codegen_load. do 4 tstep. unfold load_op, load_result_ty. rewrite Hvp. simpl.
  tstep; [|tstep]. simpl. rewrite Hvp. split_and!; [done..|]. exists (MTensor d (MInt 1)). split_and!; [done..|].
  by rewrite fmap_app, (option_args vm (MTensor d (MInt 1))), (option_args vo (MTensor d e)).
Qed.
Lemma emits_store p a m rest vp va vm d e : evaluates p vp → evaluates a va → evaluates_option m vm →
  v_ty vp = MTensor d (MPointer e) → v_ty va = MTensor d e → optional_ty vm (is_mask d) →
  temits (codegen_store tcx gargs fuel mir (p :: a :: m :: rest) st) (.= None).
Proof.
  intros Hp Ha Hm Hvp Hva Hvm. unfold codegen_store. do 3 tstep. apply temits_append0; [|by apply temits_ret].
  simpl. rewrite Hvp, Hva. split_and!; [done..|]. exists (MTensor d (MInt 1)). split_and!; [done..|].
  rewrite app_nil_r. exact (option_args vm (MTensor d (MInt 1)) Hvm).
Qed.
Lemma gives_load_scalar p o vp vo w : evaluates p vp → evaluates o vo → v_ty vp = MPointer (MFloat 32) → v_ty vo = MInt w →
  temits (codegen_load_scalar_f32_as_i32 tcx gargs fuel mir [p; o] st) (gives (MInt 32)).
Proof.
  intros Hp Ho Hvp Hvo. unfold codegen_load_scalar_f32_as_i32. do 3 tstep. tstep.
  { simpl. rewrite Hvp, Hvo. repeat split. by eexists. }
  unfold load_op. tstep.
  { simpl. rewrite Hv. split_and!; [done..|]. by exists (MInt 1). }
  tstep; [|tstep]. simpl. by rewrite Hv0.
Qed.

(** *** Shapes *)
Lemma gives_cat a b rest x y m n e : evaluates a x → evaluates b y → v_ty x = MTensor [m] e → v_ty y = MTensor [n] e →
  0 <= m → 0 <= n → m + n < 2 ^ 63 → temits (codegen_cat_call tcx gargs fuel mir (a :: b :: rest) st) (gives (MTensor [m + n] e)).
Proof.
  intros Ha Hb Hx Hy Hm Hn Hmn. unfold codegen_cat_call. do 4 tstep. apply (temits_lift_ret _ [m + n]).
  { simpl. by rewrite check_i64_ok by lia. }
  tstep; [|tstep]. simpl. by rewrite Hx, Hy.
Qed.

(** The results of a call that records a tuple. *)
Definition returned (r : option Value * TState) : list Value :=
  match r with
  | (Some v, _) => [v]
  | (None, st') => default [] (tuple_fields (ts_state st') !! pl_local destination)
  end.
Definition returns tys (r : option Value * TState) : Prop := v_ty <$> returned r = tys.
Lemma returns_tuple vs tys : v_ty <$> vs = tys →
  temits (mret (None, on_state (set_tuple (pl_local destination) vs) st)) (returns tys).
Proof. intros H. apply temits_ret. unfold returns. simpl. by rewrite lookup_insert_eq. Qed.

Lemma returns_broadcast a b x y d1 d2 e : evaluates a x → evaluates b y → v_ty x = MTensor d1 e → v_ty y = MTensor d2 e →
  broadcastable d1 d2 → temits (codegen_broadcast_call tcx gargs fuel mir [a; b] destination st)
    (returns [MTensor (zip_with Z.max d1 d2) e; MTensor (zip_with Z.max d1 d2) e]).
Proof.
  intros Ha Hb Hx Hy Hd. unfold codegen_broadcast_call. do 4 tstep. cbn zeta. rewrite (broadcast_dims _ _ Hd).
  destruct (broadcast_ok _ _ Hd) as (_ & _ & H1 & H2).
  eapply temits_broadcast; [done..|]. intros l Hl. eapply temits_broadcast; [done..|]. intros r Hr.
  apply returns_tuple. simpl. by rewrite Hl, Hr.
Qed.
Lemma gives_broadcast_to a s x d sh e : evaluates a x → slice s sh → v_ty x = MTensor d e → Forall2 (λ n m, n = 1 ∨ n = m) d sh →
  temits (codegen_broadcast_to_call tcx gargs fuel mir [a; s] st) (gives (MTensor sh e)).
Proof.
  intros Ha Hs Hx Hd. unfold codegen_broadcast_to_call. do 3 tstep. replace (broadcast_valid d sh) with true.
  - tstep; [|tstep]. simpl. rewrite Hx. by exists sh.
  - unfold broadcast_valid. rewrite (Forall2_length _ _ _ Hd), Nat.eqb_refl. simpl. symmetry.
    clear Hx Hs. induction Hd as [|n m d sh Hn Hd IH]; simpl; [done|].
    destruct Hn as [->| ->]; [done|]. by rewrite Z.eqb_refl, orb_true_r.
Qed.

Lemma insert_dim_app d1 d2 : insert_dim (d1 ++ d2) (Z.of_nat (length d1)) = Ret (d1 ++ 1 :: d2).
Proof.
  unfold insert_dim. rewrite (proj2 (Z.leb_le _ _)), (proj2 (Z.leb_le _ _)) by (rewrite ?length_app; lia). simpl.
  by rewrite Nat2Z.id, take_app_length, drop_app_length.
Qed.
Lemma gives_expand_dims a n x d1 d2 e : evaluates a x → const_i32 n (Z.of_nat (length d1)) → v_ty x = MTensor (d1 ++ d2) e →
  temits (codegen_expand_dims_call tcx gargs fuel mir [a; n] st) (gives (MTensor (d1 ++ 1 :: d2) e)).
Proof.
  intros Ha (s & Hs & Hn) Hx. unfold codegen_expand_dims_call. do 2 tstep. apply (temits_lift_ret _ _ _ _ Hn).
  rewrite Hx. simpl. rewrite (proj2 (Z.ltb_ge _ _)) by lia.
  eapply temits_lift_ret; [apply insert_dim_app|]. tstep; [|tstep]. simpl. rewrite Hx. rewrite length_app.
  split; [lia|]. by exists d1, d2.
Qed.

Lemma order_bounds order n : order ≡ₚ seqZ 0 n → Forall (λ i, 0 <= i < n) order.
Proof. intros Ho. rewrite Ho. apply Forall_forall. intros i Hi%elem_of_seqZ. lia. Qed.
Lemma index_dims d order d' : Forall (Z.le 0) order → Forall2 (λ i n, d !! Z.to_nat i = Some n) order d' →
  omapM (index_dim d) order = Ret d'.
Proof.
  intros Ho Hd. induction Hd as [|i n order d' Hi Hd IH]; [done|]. apply Forall_cons in Ho as [H0 Ho].
  assert (E : index_dim d i = Ret n) by (unfold index_dim; by rewrite (proj2 (Z.leb_le 0 i)), Hi).
  simpl. rewrite E. simpl. by rewrite IH.
Qed.
Lemma as_i32_order order n : Forall (λ i, 0 <= i < n) order → n < 2 ^ 31 → as_i32 <$> order = order.
Proof.
  intros Ho Hn. induction Ho as [|i order Hi Ho IH]; simpl; [done|]. f_equal; [|done].
  apply as_i_32_id. unfold is_i32. lia.
Qed.
Lemma gives_permute a s x d d' order e : evaluates a x → slice s order → v_ty x = MTensor d e →
  order ≡ₚ seqZ 0 (Z.of_nat (length d)) → Z.of_nat (length d) < 2 ^ 31 → Forall2 (λ i n, d !! Z.to_nat i = Some n) order d' →
  temits (codegen_permute_call tcx gargs fuel mir [a; s] st) (gives (MTensor d' e)).
Proof.
  intros Ha Hs Hx Ho Hd Hd'. unfold codegen_permute_call. do 2 tstep. cbn zeta. tstep.
  assert (Hb := order_bounds _ _ Ho). rewrite (as_i32_order _ _ Hb Hd).
  rewrite (proj2 (Nat.eqb_eq _ _)) by (rewrite Ho, length_seqZ; lia). simpl.
  eapply temits_lift_ret.
  { apply index_dims; [|done]. eapply Forall_impl; [exact Hb|]. simpl. lia. }
  tstep; [|tstep]. simpl. rewrite Hx. split; [done|]. by exists d'.
Qed.

Lemma product_numel d : countable d → product d = Ret (numel d).
Proof.
  intros [Hd Hn]. unfold product. assert (H : ∀ p, 1 <= p → p * numel d < 2 ^ 63 →
    ofold (λ (p n : Z), check_i64 (p * n)) p d = Ret (p * numel d)).
  { clear Hn. induction Hd as [|n d H1 Hd IH]; intros p Hp Hn; simpl in *; [by rewrite Z.mul_1_r|].
    assert (1 <= numel d). { clear -Hd. induction Hd; simpl; [lia|]. nia. }
    rewrite check_i64_ok by nia. simpl. rewrite IH by nia. f_equal. lia. }
  rewrite H by lia. f_equal. lia.
Qed.
Lemma numel_pos d : countable d → 1 <= numel d.
Proof. intros [Hd _]. induction Hd; simpl; [lia|]. nia. Qed.
Lemma temits_flag {B} fargs i op b (f : bool → tgen B) Q : fargs !! i = Some op → const_bool gargs op b →
  temits (f b) Q → temits (flag_arg gargs fargs i ≫= f) Q.
Proof.
  intros Hop Hb. apply temits_pure. intros blk. unfold flag_arg. rewrite Hop.
  unfold mbind, cg_bind, cg_lift. rewrite Hb. by destruct b.
Qed.

Lemma gives_reshape a s r x d sh e b : evaluates a x → slice s sh → const_bool gargs r b → v_ty x = MTensor d e →
  countable d → countable sh → numel sh = numel d → temits (codegen_reshape_call tcx gargs fuel mir [a; s; r] st) (gives (MTensor sh e)).
Proof.
  intros Ha Hs Hr Hx Hd Hsh Hn. unfold codegen_reshape_call. do 2 tstep. eapply temits_flag; [reflexivity|done|]. tstep.
  do 2 (eapply temits_lift_ret; [by apply product_numel|]). rewrite Hn, Z.eqb_refl. simpl. tstep; [|tstep].
  simpl. rewrite Hx. by exists sh.
Qed.
Lemma gives_view a s x d sh e : evaluates a x → slice s sh → v_ty x = MTensor d e →
  countable d → countable sh → numel sh = numel d → temits (codegen_view_call tcx gargs fuel mir [a; s] st) (gives (MTensor sh e)).
Proof.
  intros Ha Hs Hx Hd Hsh Hn. unfold codegen_view_call. do 3 tstep.
  do 2 (eapply temits_lift_ret; [by apply product_numel|]). rewrite Hn, Z.eqb_refl. simpl. tstep; [|tstep].
  simpl. rewrite Hx. by exists sh.
Qed.
Lemma gives_ravel a r x d e b : evaluates a x → const_bool gargs r b → v_ty x = MTensor d e → countable d →
  temits (codegen_ravel_call tcx gargs fuel mir [a; r] st) (gives (MTensor [numel d] e)).
Proof.
  intros Ha Hr Hx Hd. unfold codegen_ravel_call. tstep. eapply temits_flag; [reflexivity|done|]. tstep.
  eapply temits_lift_ret; [by apply product_numel|]. pose proof (numel_pos d Hd).
  rewrite (proj2 (Z.ltb_ge _ _)) by lia. rewrite orb_false_r. destruct (Nat.eqb_spec (length d) 1) as [E|E].
  - apply gives_some. destruct d as [|n [|]]; try done. simpl. by rewrite Z.mul_1_r.
  - tstep; [|tstep]. simpl. rewrite Hx. exists [numel d]. split; [done|]. simpl. lia.
Qed.

Lemma gives_join a b x y d e : evaluates a x → evaluates b y → v_ty x = MTensor d e → v_ty y = MTensor d e →
  temits (codegen_join_call tcx gargs fuel mir [a; b] st) (gives (MTensor (d ++ [2]) e)).
Proof.
  intros Ha Hb Hx Hy. unfold codegen_join_call. do 3 tstep. tstep; [|tstep]. simpl. rewrite Hx, Hy.
  split; [done|]. by exists d, e.
Qed.
Lemma leading_app d n : leading_dims (d ++ [n]) = d.
Proof. unfold leading_dims. rewrite length_app. simpl. rewrite Nat.add_sub. by rewrite take_app_length. Qed.
Lemma numel_app d d' : numel (d ++ d') = numel d * numel d'.
Proof. induction d as [|n d IH]; simpl; [lia|]. rewrite IH. lia. Qed.
Lemma gives_interleave a b x y d n e : evaluates a x → evaluates b y → v_ty x = MTensor (d ++ [n]) e → v_ty y = MTensor (d ++ [n]) e →
  0 <= n < 2 ^ 62 → temits (codegen_interleave_call tcx gargs fuel mir [a; b] st) (gives (MTensor (d ++ [2 * n]) e)).
Proof.
  intros Ha Hb Hx Hy Hn. unfold codegen_interleave_call. do 3 tstep. tstep.
  { simpl. rewrite Hx, Hy. split; [done|]. by exists (d ++ [n]), e. }
  rewrite last_snoc, leading_app. cbn [from_option id]. eapply temits_lift_ret; [apply check_i64_ok; lia|].
  tstep; [|tstep]. cbn [fmap list_fmap]. rewrite Hv. exists (d ++ [2 * n]). split; [done|]. rewrite !numel_app. simpl. lia.
Qed.
Lemma returns_split a x d e : evaluates a x → v_ty x = MTensor (d ++ [2]) e →
  temits (codegen_split_call tcx gargs fuel mir [a] destination st) (returns [MTensor d e; MTensor d e]).
Proof.
  intros Ha Hx. unfold codegen_split_call. do 2 tstep. rewrite last_snoc, leading_app. cbn zeta. simpl.
  eapply temits_bind; [apply (temits_append _ _ _ (λ vs, v_ty <$> vs = [MTensor d e; MTensor d e]))|].
  { intros vs Hvs. split; [|done]. simpl. rewrite Hx. split; [done|]. by exists d, e. }
  intros vs Hvs. by apply returns_tuple.
Qed.

Lemma gives_dot a b c p i s x y vc vi m k n e : evaluates a x → evaluates b y → evaluates_option c vc → evaluates_option i vi →
  is_const gargs p s → si_wf s → v_ty x = MTensor [m; k] e → v_ty y = MTensor [k; n] e →
  match vc with Some vc => ∃ ec, v_ty vc = MTensor [m; n] ec | None => e = MInt 32 ∨ is_float e = true end →
  temits (codegen_dot_call tcx gargs fuel mir [a; b; c; p; i] st)
    (gives (match vc with Some vc => v_ty vc | None => MTensor [m; n] e end)).
Proof.
  intros Ha Hb Hc Hi Hp Hs Hx Hy He. unfold codegen_dot_call. do 2 tstep.
  unfold dot_dims. rewrite Hx, Hy. cbn [ranked]. rewrite Z.eqb_refl. cbn [orb]. tstep. cbn zeta.
  unfold elem_ty. rewrite Hx. cbn [elem_ty_from_type ranked].
  set (t := match vc with Some vc => v_ty vc | None => MTensor [m; n] e end).
  assert (Ht : shape t = Some [m; n]). { unfold t. destruct vc as [vc|]; [|done]. destruct He as [ec ->]. done. }
  apply (temits_bind _ _ (λ c, v_ty c = t)).
  { unfold accumulator, t. destruct vc as [vc|]; [by apply temits_ret|]. apply temits_zero_constant; [done|]. intros z Hz.
    apply temits_splat; [done|]. by destruct He as [->|He]; [|destruct e]. }
  intros acc Hacc. tstep. unfold scalar_or. eapply temits_lift_ret.
  { unfold SI.to_bits_unchecked. by rewrite (check_data_ok s Hs). }
  tstep. tstep; [|apply gives_some; congruence]. cbn [fmap list_fmap]. rewrite Hx, Hy, Hacc. by split_and!.
Qed.

(** *** Casts *)
Lemma float_bits_width w : float_width w → float_bits (MFloat w) = w.
Proof. by intros [->|[->| ->]]. Qed.
Lemma cast_kind_ok d e e' : castable e e' → e ≠ e' → op_ok (cast_kind e e') [MTensor d e] [MTensor d e'].
Proof.
  unfold cast_kind. destruct e, e'; simpl; try done; intros Hc Hne.
  - split; [done|]. do 2 eexists. split_and!; [done..|]. assert (width ≠ width0) by congruence. lia.
  - destruct Hc as [H1 H2]. rewrite !float_bits_width by done. assert (width ≠ width0) by congruence.
    destruct (Z.ltb_spec width0 width); (split; [done|]); do 2 eexists; (split_and!; [done..|lia]).
Qed.
Lemma gives_cast a rest x d e e' : evaluates a x → v_ty x = MTensor d e → dest_is (MTensor [DYNAMIC] e') → castable e e' →
  temits (codegen_cast_call tcx gargs fuel mir (a :: rest) destination st) (gives (MTensor d e')).
Proof.
  intros Ha Hx Hd Hc. unfold codegen_cast_call. do 2 tstep. unfold cast_result_ty. simpl.
  apply (temits_pure _ _ (MTensor d e')); [intros b; by rewrite Hx|]. rewrite Hx. case_bool_decide as E.
  - apply gives_some. by rewrite Hx.
  - unfold elem_ty. rewrite Hx. simpl. tstep; [|tstep]. simpl. rewrite Hx. apply cast_kind_ok; [done|congruence].
Qed.

(** *** Elementwise operations *)
Lemma float_not_int t : float_elem t → is_integer (elem_ty_from_type t) = false.
Proof. unfold float_elem. by destruct (elem_ty_from_type t). Qed.
Lemma gives_math f a x : evaluates a x → float_elem (v_ty x) → temits (codegen_math_unary tcx gargs fuel mir f [a] st) (gives (v_ty x)).
Proof. intros. unfold codegen_math_unary. tstep. tstep; [|tstep]. by split. Qed.
Lemma gives_binary k a b rest x y : evaluates a x → evaluates b y → op_ok k [v_ty x; v_ty y] [v_ty x] →
  temits (codegen_binary_elementwise tcx gargs fuel mir k (a :: b :: rest) st) (gives (v_ty x)).
Proof. intros. unfold codegen_binary_elementwise. do 2 tstep. tstep; [done|tstep]. Qed.
Lemma gives_minimum a b x y : evaluates a x → evaluates b y → v_ty y = v_ty x → int_elem (v_ty x) ∨ float_elem (v_ty x) →
  temits (codegen_minimum_call tcx gargs fuel mir [a; b] st) (gives (v_ty x)).
Proof.
  intros Ha Hb Hy He. unfold codegen_minimum_call. do 2 tstep. tstep; [|tstep]. simpl. unfold elem_ty.
  destruct He as [He|He]; [rewrite He; by split_and!|]. rewrite float_not_int by done. by split_and!.
Qed.
Lemma gives_sqrt_rn a x : evaluates a x → float_elem (v_ty x) → temits (codegen_sqrt_rn_call tcx gargs fuel mir [a] st) (gives (v_ty x)).
Proof. intros. unfold codegen_sqrt_rn_call. tstep. tstep; [|tstep]. by split. Qed.
Lemma gives_atan a x : evaluates a x → temits (codegen_atan_call tcx gargs fuel mir [a] st) (gives (v_ty x)).
Proof. intros. unfold codegen_atan_call. tstep. tstep; [|tstep]. done. Qed.
Lemma gives_clamp a b c x y z : evaluates a x → evaluates b y → evaluates c z → v_ty y = v_ty x → v_ty z = v_ty x →
  float_elem (v_ty x) → temits (codegen_clamp_call tcx gargs fuel mir [a; b; c] st) (gives (v_ty x)).
Proof. intros. unfold codegen_clamp_call. do 3 tstep. tstep; [|tstep]. by split_and!. Qed.
Lemma gives_fma a b c x y z : evaluates a x → evaluates b y → evaluates c z → v_ty y = v_ty x → v_ty z = v_ty x →
  float_elem (v_ty x) → temits (codegen_fma_call tcx gargs fuel mir [a; b; c] st) (gives (v_ty x)).
Proof. intros. unfold codegen_fma_call. do 3 tstep. tstep; [|tstep]. by split_and!. Qed.
Lemma gives_cdiv a b x y w : evaluates a x → evaluates b y → v_ty x = MInt w → v_ty y = MInt w →
  temits (codegen_cdiv_call tcx gargs fuel mir [a; b] st) (gives (MInt w)).
Proof.
  intros Ha Hb Hx Hy. unfold codegen_cdiv_call. do 2 tstep. rewrite Hx. simpl. tstep; [done|].
  tstep; [simpl; by rewrite Hx, Hy|]. tstep; [simpl; by rewrite Hv0, Hv|]. tstep; [simpl; by rewrite Hv1, Hy|tstep].
Qed.
Lemma gives_where c a b vc x y d e : evaluates c vc → evaluates a x → evaluates b y → v_ty vc = MTensor d (MInt 1) →
  v_ty x = MTensor d e → v_ty y = MTensor d e → temits (codegen_where_call tcx gargs fuel mir [c; a; b] st) (gives (MTensor d e)).
Proof.
  intros Hc Ha Hb Hvc Hx Hy. unfold codegen_where_call. do 3 tstep. rewrite Hx. tstep; [|tstep]. simpl. rewrite Hvc, Hx, Hy.
  split_and!; [done..|]. by right.
Qed.

(** The constant 1.0, and its splat. *)
Lemma temits_one {B} w (f : Value → tgen B) Q : float_width w →
  (∀ v, v_ty v = MFloat w → temits (f v) Q) → temits (one_constant (MFloat w) ≫= f) Q.
Proof.
  intros Hw Hf. apply (temits_bind _ _ (λ v, v_ty v = MFloat w)); [|done]. unfold one_constant.
  eapply (temits_bind _ _ (λ k, ∃ (c : FloatTy) (z : Z), k = float_constant c z)).
  - destruct Hw as [->|[->| ->]]; intros b; eexists _, b, []; rewrite app_nil_r; (split_and!; [reflexivity|done..|by do 2 eexists]).
  - intros k (c & z & ->). unfold append1.
    eapply temits_bind; [apply (temits_append _ _ _ (λ vs, v_ty <$> vs = [MFloat w])); by intros vs Hvs|].
    intros vs Hvs. destruct vs as [|v [|]]; simplify_eq/=. by apply temits_ret.
Qed.
Lemma gives_rsqrt a x d w : evaluates a x → v_ty x = MFloat w ∨ v_ty x = MTensor d (MFloat w) → float_width w →
  temits (codegen_rsqrt_call tcx gargs fuel mir [a] st) (gives (v_ty x)).
Proof.
  intros Ha Hx Hw. unfold codegen_rsqrt_call. tstep.
  assert (Hf : float_elem (v_ty x)) by (destruct Hx as [-> | ->]; done). tstep; [by split|].
  apply (temits_pure _ _ (MFloat w)); [by destruct Hx as [-> | ->]|]. apply temits_one; [done|]. intros one Hone.
  apply (temits_bind _ _ (λ v, v_ty v = v_ty x)).
  { unfold splat_scalar_const. destruct Hx as [Hx|Hx]; rewrite Hx; simpl; [by apply temits_ret|by apply temits_splat]. }
  intros o Ho. rewrite Ho. tstep; [|tstep]. simpl. by rewrite Ho, Hv.
Qed.

(** [1.0 op y] and [0.0 op y] for a scalar or a tensor [y]. *)
Lemma temits_float_arith infer (Hinfer : ∀ k t, infer k t t = t) scalar_int tensor_int float l r s :
  float ∈ [addf; subf; mulf; divf] → v_ty l = MFloat 32 → v_ty r = with_shape s (MFloat 32) →
  temits (lift (codegen_arith infer scalar_int tensor_int float l r)) (gives (with_shape s (MFloat 32))).
Proof.
  intros Hk Hl Hr b. unfold lift, codegen_arith, align_operands. rewrite Hl, Hr.
  assert (Hok : ∀ t, float_elem t → arith_ok float [t; t] [t]).
  { intros t Ht. repeat (apply elem_of_cons in Hk as [->|Hk]; [by split_and!|]). by apply elem_of_nil in Hk. }
  destruct s as [d|]; simpl; unfold like_tensor, ranked_or_err, create, mbind, cg_bind;
    repeat (first [rewrite Hr|rewrite Hl|rewrite Hinfer]; simpl);
    (eexists _, _, _; split; [reflexivity|]; split; [reflexivity|]; split; [|by eexists]).
  - apply Forall_cons. split; [|apply Forall_singleton]; unfold tt_ok; simpl; rewrite ?Hl, ?Hr; [split; [done|by eexists]|by apply Hok].
  - apply Forall_singleton. unfold tt_ok. simpl. rewrite Hl, Hr. by apply Hok.
Qed.
Lemma temits_expect_value {B} (m : tgen (option Value)) t (f : Value → tgen B) Q :
  temits m (gives t) → (∀ v, v_ty v = t → temits (f v) Q) → temits ((m ≫= expect_value) ≫= f) Q.
Proof.
  intros Hm Hf. apply (temits_bind _ _ (λ v, v_ty v = t)); [|done]. eapply temits_bind; [exact Hm|].
  intros ? (v & -> & Hv) b. exists v, b, []. rewrite app_nil_r. by split_and!.
Qed.
Lemma gives_sigmoid infer (Hinfer : ∀ k t, infer k t t = t) a x s : evaluates a x → v_ty x = with_shape s (MFloat 32) →
  temits (codegen_sigmoid_call tcx gargs infer fuel mir [a] st) (gives (v_ty x)).
Proof.
  intros Ha Hx. rewrite Hx. unfold codegen_sigmoid_call. assert (H32 : float_width 32) by (unfold float_width; lia).
  assert (Hf : float_elem (with_shape s (MFloat 32))) by by destruct s.
  tstep. tstep; [done|]. eapply temits_expect_value; [apply temits_float_arith; [done|set_solver|done|exact Hx]|]. intros neg Hneg.
  tstep; [simpl; rewrite Hneg; by split|]. apply temits_one; [done|]. intros one Hone.
  eapply temits_expect_value; [apply temits_float_arith; [done|set_solver|done|by rewrite Hv0, Hneg]|]. intros plus Hplus.
  apply temits_one; [done|]. intros one' Hone'. apply temits_float_arith; [done|set_solver|done..].
Qed.

(** *** Arithmetic and comparisons *)
Definition gemits {A} (m : gen A) (Q : A → Prop) : Prop := ∀ b, ∃ a b' new,
  m b = Ret (inr (a, b')) ∧ mb_ops b' = mb_ops b ++ new ∧ Forall tt_ok (of_arith <$> new) ∧ Q a.
Lemma gemits_ret {A} (a : A) (Q : A → Prop) : Q a → gemits (mret a) Q.
Proof. intros Ha b. exists a, b, []. rewrite app_nil_r. by split_and!. Qed.
Lemma gemits_bind {A B} (m : gen A) (f : A → gen B) (P : A → Prop) (Q : B → Prop) :
  gemits m P → (∀ a, P a → gemits (f a) Q) → gemits (m ≫= f) Q.
Proof.
  intros Hm Hf b. destruct (Hm b) as (a & b1 & n1 & E1 & H1 & W1 & Ha).
  destruct (Hf a Ha b1) as (c & b2 & n2 & E2 & H2 & W2 & Hc). exists c, b2, (n1 ++ n2).
  unfold mbind, cg_bind. rewrite E1. simpl. rewrite E2, H2, H1, app_assoc, fmap_app.
  split_and!; [done..|by apply Forall_app|done].
Qed.
Lemma gemits_append {B} k args ty (f : Value → gen B) Q :
  arith_ok k (v_ty <$> args) [ty] → (∀ v, v_ty v = ty → gemits (f v) Q) → gemits (TritonArith.append_operation k args ty ≫= f) Q.
Proof.
  intros Hok Hf. apply (gemits_bind _ _ (λ v, v_ty v = ty)); [|done]. intros b. eexists _, _, [mkArithOp (mkValue (next_value b) ty) k args].
  split_and!; [reflexivity|reflexivity|by apply Forall_singleton|done].
Qed.
Lemma gemits_ranked {A} t d e (f : list Z * MlirTy → gen A) Q : t = MTensor d e → gemits (f (d, e)) Q → gemits (ranked_or_err t ≫= f) Q.
Proof. intros -> Hf. apply (gemits_bind _ _ (.= (d, e))); [by apply gemits_ret|by intros ? ->]. Qed.
Lemma temits_lift {A} (m : gen A) Q : gemits m Q → temits (lift m) Q.
Proof.
  intros Hm b. destruct (Hm (mkMBlock (tb_next b) [])) as (a & b' & new & E & Hn & Hok & Ha). simpl in Hn.
  eexists a, _, (of_arith <$> new). unfold lift, mbind, cg_bind. rewrite E. simpl. rewrite Hn. by split_and!.
Qed.

Lemma numeric_scalar e : numeric e → is_tensor e = false.
Proof. intros [He|He]; by destruct e. Qed.
Lemma elem_with_shape s e : is_tensor e = false → elem_ty_from_type (with_shape s e) = e.
Proof. destruct s; [done|]. by destruct e. Qed.
Lemma tensor_with_shape s e : is_tensor e = false → is_tensor (with_shape s e) = is_some s.
Proof. by destruct s. Qed.

(** Operands made to agree: a pair of tensors, or nothing for two scalars. *)
Definition agreed (r : option (list Z)) e (p : option (Value * Value)) : Prop :=
  match r, p with
  | Some d, Some (l, r) => v_ty l = MTensor d e ∧ v_ty r = MTensor d e
  | None, None => True
  | _, _ => False
  end.
Lemma gemits_align pair l r s s' rs e : (∀ l r b, v_ty l = v_ty r → pair l r b = Ret (inr ((l, r), b))) →
  v_ty l = with_shape s e → v_ty r = with_shape s' e → pair_shape s s' rs → is_tensor e = false →
  gemits (align_operands pair l r) (agreed rs e).
Proof.
  intros Hpair Hl Hr Hs He. unfold align_operands. rewrite Hl, Hr, !tensor_with_shape by done.
  assert (Hsplat : ∀ u v d (f : Value → gen (option (Value * Value))), v_ty u = MTensor d e → v_ty v = e →
    (∀ w, v_ty w = MTensor d e → gemits (f w) (agreed (Some d) e)) → gemits (like_tensor u v ≫= f) (agreed (Some d) e)).
  { intros u v d f Ht Hv Hf. unfold like_tensor, ranked_or_err. rewrite Ht. simpl. rewrite Hv.
    apply (gemits_append splat [v]); [|done]. simpl. rewrite Hv. split; [done|by eexists]. }
  destruct Hs as [[-> [->| ->]]|[-> ->]]; [destruct s as [d|]|destruct s as [d|]|destruct s' as [d|]]; simpl in *;
    try (by apply gemits_ret);
    try (eapply Hsplat; [done|done|]; intros w Hw; by apply gemits_ret).
  eapply (gemits_bind _ _ (.= (l, r))); [|intros ? ->; by apply gemits_ret].
  intros b. exists (l, r), b, []. rewrite app_nil_r. split_and!; [apply Hpair; congruence|done..].
Qed.
Lemma pair_same l r b : v_ty l = v_ty r → maybe_broadcast_pair l r b = Ret (inr ((l, r), b)).
Proof. intros E. unfold maybe_broadcast_pair. rewrite E. destruct (ranked (v_ty r)) as [[d e]|]; [|done]. by rewrite bool_decide_true. Qed.
Lemma pair_shape_scalars s s' : pair_shape s s' None → s = None ∧ s' = None.
Proof. by intros [[<- [->| ->]]|[<- ->]]. Qed.

Section arith.
Context (infer : ArithKind → MlirTy → MlirTy → MlirTy) (Hinfer : ∀ k t, infer k t t = t).
Implicit Types (s r : option (list Z)).

(** The kinds that make a scalar integer, a tensor of integers and a float. *)
Definition arith_kinds (i f : ArithKind) : Prop :=
  (i = addi ∧ f = addf) ∨ (i = subi ∧ f = subf) ∨ (i = muli ∧ f = mulf) ∨ (i = divsi ∧ f = divf).
Lemma arith_int_ok i f t : arith_kinds i f → int_elem t → arith_ok i [t; t] [t].
Proof. intros [[-> ->]|[[-> ->]|[[-> ->]|[-> ->]]]] Ht; by split_and!. Qed.
Lemma arith_float_ok i f t : arith_kinds i f → float_elem t → arith_ok f [t; t] [t].
Proof. intros [[-> ->]|[[-> ->]|[[-> ->]|[-> ->]]]] Ht; by split_and!. Qed.

(** A created operation, last. *)
Lemma gemits_create k l q t : v_ty l = t → v_ty q = t → arith_ok k [t; t] [t] →
  gemits (v ← create infer k l q; mret (Some v)) (gives t).
Proof.
  intros Hl Hq Hk. unfold create. rewrite Hl, Hq, Hinfer.
  apply gemits_append; [cbn [fmap list_fmap]; by rewrite Hl, Hq|]. intros v Hv. apply gemits_ret. by exists v.
Qed.
Lemma gemits_arith scalar_int i f x y s s' r e : arith_kinds i f →
  (∀ w l q, e = MInt w → v_ty l = e → v_ty q = e → gemits (v ← scalar_int l q; mret (Some v)) (gives e)) →
  v_ty x = with_shape s e → v_ty y = with_shape s' e → pair_shape s s' r → numeric e →
  gemits (codegen_arith infer scalar_int i f x y) (gives (with_shape r e)).
Proof.
  intros Hk Hsc Hx Hy Hs He. assert (Ht := numeric_scalar e He). unfold codegen_arith.
  eapply gemits_bind; [by eapply gemits_align; [apply pair_same|..]|]. intros [[l q]|] Hp; destruct r as [d|]; try done.
  - destruct Hp as [Hl Hq]. eapply gemits_ranked; [done|]. eapply gemits_ranked; [done|]. simpl.
    destruct (is_integer e) eqn:Ei; simpl; (apply gemits_create; [done..|]); [by eapply arith_int_ok|].
    destruct He as [He|He]; [congruence|by eapply arith_float_ok].
  - destruct (pair_shape_scalars _ _ Hs) as [-> ->]. simpl in *. rewrite Hx. destruct (is_integer e) eqn:Ei.
    + destruct e; try done. by eapply Hsc.
    + destruct He as [He|He]; [congruence|]. apply gemits_create; [done..|]. eapply arith_float_ok; [done|]. unfold float_elem. by destruct e.
Qed.
Lemma gemits_muli w l q : v_ty l = MInt w → v_ty q = MInt w → gemits (v ← create_muli infer l q; mret (Some v)) (gives (MInt w)).
Proof. intros Hl Hq. unfold create_muli. rewrite Hl, Hq, bool_decide_true by done. simpl. by apply gemits_create. Qed.
Lemma gemits_bitwise k x y s s' r w : k = andi ∨ k = ori → v_ty x = with_shape s (MInt w) → v_ty y = with_shape s' (MInt w) →
  pair_shape s s' r → gemits (codegen_bitwise infer k x y) (gives (with_shape r (MInt w))).
Proof.
  intros Hk Hx Hy Hs. unfold codegen_bitwise. eapply gemits_bind; [by eapply gemits_align|].
  assert (Hok : ∀ t, int_elem t → arith_ok k [t; t] [t]) by (intros t Ht; by destruct Hk as [-> | ->]; split_and!).
  intros [[l q]|] Hp; destruct r as [d|]; try done.
  - destruct Hp as [Hl Hq]. simpl. apply (gemits_bind _ _ (.= true)); [rewrite Hl; simpl; eapply gemits_ranked; [done|by apply gemits_ret]|].
    intros ? ->. by apply gemits_create; [..|apply Hok].
  - destruct (pair_shape_scalars _ _ Hs) as [-> ->]. simpl in *. rewrite Hx. simpl. apply (gemits_bind _ _ (.= true)); [by apply gemits_ret|].
    intros ? ->. by apply gemits_create; [..|apply Hok].
Qed.
Lemma gemits_cmpi p x y s s' r w : v_ty x = with_shape s (MInt w) → v_ty y = with_shape s' (MInt w) → pair_shape s s' r →
  gemits (codegen_cmpi p x y) (gives (with_shape r (MInt 1))).
Proof.
  intros Hx Hy Hs. unfold codegen_cmpi. eapply gemits_bind; [by eapply gemits_align|].
  intros [[l q]|] Hp; destruct r as [d|]; try done.
  - destruct Hp as [Hl Hq]. eapply gemits_ranked; [done|]. apply gemits_append; [cbn [fmap list_fmap]; rewrite Hl, Hq; by split_and!|]. intros v Hv. apply gemits_ret. by exists v.
  - destruct (pair_shape_scalars _ _ Hs) as [-> ->]. simpl in *.
    apply gemits_append; [cbn [fmap list_fmap]; rewrite Hx, Hy; by split_and!|]. intros v Hv. apply gemits_ret. by exists v.
Qed.
Lemma gemits_cmpf p x y s s' d e : v_ty x = with_shape s e → v_ty y = with_shape s' e → pair_shape s s' (Some d) → is_float e = true →
  gemits (codegen_cmpf p x y) (gives (MTensor d (MInt 1))).
Proof.
  intros Hx Hy Hs He. unfold codegen_cmpf. eapply gemits_bind; [eapply gemits_align; [done|exact Hx|exact Hy|exact Hs|by destruct e]|].
  intros [[l q]|] Hp; [|done]. destruct Hp as [Hl Hq]. eapply gemits_ranked; [done|]. apply gemits_append; [cbn [fmap list_fmap]; rewrite Hl, Hq; by split_and!|]. intros v Hv. apply gemits_ret. by exists v.
Qed.
Lemma gemits_elem {A} x s e (f : MlirTy → gen A) Q : v_ty x = with_shape s e → is_tensor e = false → gemits (f e) Q →
  gemits ((if is_tensor (v_ty x) then t ← ranked_or_err (v_ty x); mret t.2 else mret (v_ty x)) ≫= f) Q.
Proof.
  intros Hx He Hf. rewrite Hx, tensor_with_shape by done. apply (gemits_bind _ _ (.= e)); [|by intros ? ->].
  destruct s as [d|]; simpl; [|by apply gemits_ret]. by apply (gemits_bind _ _ (.= (d, e))); [apply gemits_ret|intros ? ->; apply gemits_ret].
Qed.
Lemma gemits_cmp fp ip x y s s' r e : v_ty x = with_shape s e → v_ty y = with_shape s' e → pair_shape s s' r →
  is_integer e = true ∨ is_float e = true ∧ r ≠ None → gemits (lower_cmp fp ip x y) (gives (with_shape r (MInt 1))).
Proof.
  intros Hx Hy Hs He. unfold lower_cmp. eapply gemits_elem; [done|destruct He as [He|[He _]]; by destruct e|].
  destruct He as [He|[He Hr]].
  - destruct e; try done. simpl. by eapply gemits_cmpi.
  - rewrite He. destruct r as [d|]; [|done]. by eapply gemits_cmpf.
Qed.
Lemma gemits_sub x y s s' r e : v_ty x = with_shape s e → v_ty y = with_shape s' e → pair_shape s s' r → numeric e →
  gemits (codegen_sub infer x y) (gives (with_shape r e)).
Proof.
  intros Hx Hy Hs He. eapply gemits_arith; [by unfold arith_kinds; auto| |exact Hx|exact Hy|exact Hs|exact He].
  intros w l q -> Hl Hq. by apply gemits_create.
Qed.
Lemma gemits_neg x s e : v_ty x = with_shape s e → numeric e → gemits (codegen_neg infer x) (gives (with_shape s e)).
Proof.
  intros Hx He. unfold codegen_neg. eapply gemits_elem; [done|by apply numeric_scalar|].
  apply gemits_append.
  { simpl. destruct (is_integer e) eqn:Ei; [done|]. destruct He; [congruence|done]. }
  intros z Hz. apply (gemits_sub _ _ None s); [exact Hz|exact Hx|by right|done].
Qed.
End arith.

Lemma gives_pair f a b x y t : evaluates a x → evaluates b y → gemits (f x y) (gives t) →
  temits (binary_call tcx gargs fuel mir f [a; b] st) (gives t).
Proof. intros Ha Hb Hf. unfold binary_call. do 3 tstep. by apply temits_lift. Qed.
Lemma gives_neg infer a x s e : (∀ k t, infer k t t = t) → evaluates a x → v_ty x = with_shape s e → numeric e →
  temits (codegen_neg_call tcx gargs infer fuel mir [a] st) (gives (with_shape s e)).
Proof. intros Hinfer Ha Hx He. unfold codegen_neg_call. do 2 tstep. apply temits_lift. by apply gemits_neg. Qed.

(** *** Reductions, scans *)
Lemma region_reduce e fop iop : combine_is_int fop = false → combine_is_int iop = true → numeric e →
  region_ok e (build_reduce_region e (choose_float_int_op e fop iop)) ReduceReturn.
Proof.
  intros Hf Hi He. split_and!; [done..|]. unfold choose_float_int_op. simpl.
  destruct He as [He|He]; [rewrite He; by rewrite Hi|]. destruct e; try done. simpl. by rewrite Hf.
Qed.
Lemma region_scan e fop iop : combine_is_int fop = false → combine_is_int iop = true → numeric e →
  region_ok e (build_scan_region e (choose_float_int_op e fop iop)) ScanReturn.
Proof. intros Hf Hi He. destruct (region_reduce e fop iop Hf Hi He) as (H1 & H2 & H3 & _ & H5). by split_and!. Qed.
Lemma reduce_result x d e axis : v_ty x = MTensor d e → reduce_result_ty x axis = reduced_ty d e axis.
Proof. intros Hx. unfold reduce_result_ty, reduced_ty. rewrite Hx. simpl. by destruct (reduced_dims axis d). Qed.
Lemma temits_axis {B} a n rest axis (f : Z → tgen B) Q : const_i32 n axis → temits (f axis) Q →
  temits (axis_arg gargs (a :: n :: rest) ≫= f) Q.
Proof.
  intros (s & Hs & Hn). apply temits_pure. intros b. unfold axis_arg, scalar_arg, scalar_or, farg, mbind, cg_bind, cg_lift. simpl.
  rewrite Hs. simpl. by rewrite Hn.
Qed.
(** An axis that is an [Option] is taken for 0. *)
Lemma temits_no_axis {B} a n rest (f : Z → tgen B) Q : option_operand gargs n → temits (f 0) Q →
  temits (axis_arg gargs (a :: n :: rest) ≫= f) Q.
Proof.
  intros (e & He). apply temits_pure. intros b. unfold axis_arg, scalar_arg, scalar_or, farg, mbind, cg_bind, cg_lift. simpl.
  by rewrite He.
Qed.
Lemma temits_keep {B} a n k b (f : bool → tgen B) Q : const_bool gargs k b → temits (f b) Q →
  temits ((if (2 <? length [a; n; k])%nat
           then s ← scalar_arg gargs [a; n; k] 2; scalar_or s (λ s, z ← SI.to_bits_unchecked s; Ret (negb (z =? 0))) false
           else mret false : tgen bool) ≫= f) Q.
Proof.
  intros Hk. apply temits_pure. intros blk. unfold scalar_arg, farg, scalar_or, mbind, cg_bind, cg_lift. simpl.
  rewrite Hk. by destruct b.
Qed.

Lemma gives_reduce fop iop a n k x d e : combine_is_int fop = false → combine_is_int iop = true →
  evaluates a x → option_operand gargs n → const_bool gargs k false → v_ty x = MTensor d e → d ≠ [] → numeric e →
  temits (codegen_reduce_unary tcx gargs fuel mir fop iop [a; n; k] st) (gives (reduced_ty d e 0)).
Proof.
  intros Hf Hi Ha Hn Hk Hx Hd He. unfold codegen_reduce_unary. tstep. eapply temits_no_axis; [done|cbn beta].
  eapply temits_keep; [done|]. cbn zeta. rewrite (reduce_result x d e 0 Hx). unfold elem_ty. rewrite Hx. cbn [elem_ty_from_type ranked].
  tstep; [|by apply gives_some]. cbn [fmap list_fmap]. rewrite Hx.
  split_and!; [lia|destruct d; [done|simpl; lia]|done|by apply region_reduce].
Qed.
Lemma gives_reduce_keep fop iop a n k x len e : combine_is_int fop = false → combine_is_int iop = true →
  evaluates a x → option_operand gargs n → const_bool gargs k true → v_ty x = MTensor [len] e → numeric e → is_tensor e = false →
  temits (codegen_reduce_unary tcx gargs fuel mir fop iop [a; n; k] st) (gives (MTensor [1] e)).
Proof.
  intros Hf Hi Ha Hn Hk Hx He Ht. unfold codegen_reduce_unary. tstep. eapply temits_no_axis; [done|cbn beta].
  eapply temits_keep; [done|]. cbn zeta. rewrite (reduce_result x [len] e 0 Hx). unfold elem_ty. rewrite Hx. cbn [elem_ty_from_type ranked].
  tstep; [cbn [fmap list_fmap]; rewrite Hx; split_and!; [simpl; lia..|done|by apply region_reduce]|].
  change (reduced_ty [len] e 0) with e in Hv. rewrite Hv, Ht. simpl. tstep; [|tstep]. simpl. rewrite Hv. split; [done|by eexists].
Qed.
Lemma gives_scan fop iop a n rest x d e axis : combine_is_int fop = false → combine_is_int iop = true →
  evaluates a x → const_i32 n axis → v_ty x = MTensor d e → 0 <= axis < Z.of_nat (length d) → numeric e →
  temits (codegen_scan_unary tcx gargs fuel mir fop iop false (a :: n :: rest) st) (gives (MTensor d e)).
Proof.
  intros Hf Hi Ha Hn Hx Hax He. unfold codegen_scan_unary. tstep. eapply temits_axis; [eassumption|cbn beta]. cbn zeta.
  unfold elem_ty. rewrite Hx. cbn [elem_ty_from_type ranked]. tstep; [|tstep]. cbn [fmap list_fmap]. rewrite Hx.
  split_and!; [lia..|done|by apply region_scan].
Qed.
Lemma gives_softmax a rest x n w : evaluates a x → v_ty x = MTensor [n] (MFloat w) →
  temits (codegen_softmax_call tcx gargs fuel mir (a :: rest) st) (gives (v_ty x)).
Proof.
  intros Ha Hx. unfold codegen_softmax_call. do 2 tstep. cbn zeta. rewrite (reduce_result x _ _ _ Hx). rewrite Hx. simpl.
  assert (Hr : ∀ c, combine_is_int c = false → region_ok (MFloat w) (build_reduce_region (MFloat w) c) ReduceReturn).
  { intros c Hc. split_and!; [done..|]. simpl. by rewrite Hc. }
  tstep; [cbn [fmap list_fmap]; rewrite Hx; split_and!; [simpl; lia..|done|by apply Hr]|].
  tstep; [simpl; rewrite Hv; split; [done|by eexists]|]. tstep; [simpl; rewrite Hx, Hv0; by split_and!|].
  tstep; [simpl; rewrite Hv1; by split_and!|]. rewrite (reduce_result _ _ _ _ Hv2).
  tstep; [cbn [fmap list_fmap]; rewrite Hv2; split_and!; [simpl; lia..|done|by apply Hr]|].
  tstep; [simpl; rewrite Hv3; split; [done|by eexists]|]. tstep; [simpl; rewrite Hv2, Hv4; by split_and!|tstep].
Qed.

(** *** Atomic operations, programs, hints *)
Lemma gives_atomic rmw p a m rest vp va vm d e : evaluates p vp → evaluates a va → evaluates_option m vm →
  v_ty vp = MTensor d (MPointer e) → v_ty va = MTensor d e → rmw_ok rmw (MTensor d e) → optional_ty vm (is_mask d) →
  temits (codegen_atomic_rmw_impl tcx gargs fuel mir rmw (p :: a :: m :: rest) st) (gives (MTensor d e)).
Proof.
  intros Hp Ha Hm Hvp Hva Hop Hvm. unfold codegen_atomic_rmw_impl. do 2 tstep. unfold mask_arg. cbn [length Nat.ltb Nat.leb].
  tstep. rewrite Hva. tstep; [|tstep].
  cbn [fmap list_fmap]. rewrite Hvp, Hva. split; [done|]. split; [|done]. split; [done|]. split; [done|]. exists (MTensor d (MInt 1)).
  split_and!; [done..|]. rewrite app_nil_r. exact (option_args vm (MTensor d (MInt 1)) Hvm).
Qed.
Lemma gives_atomic_add p a m rest vp va vm d e : evaluates p vp → evaluates a va → evaluates_option m vm →
  v_ty vp = MTensor d (MPointer e) → v_ty va = MTensor d e → numeric e → optional_ty vm (is_mask d) →
  temits (codegen_atomic_add_call tcx gargs fuel mir (p :: a :: m :: rest) st) (gives (MTensor d e)).
Proof.
  intros Hp Ha Hm Hvp Hva He Hvm. unfold codegen_atomic_add_call.
  set (rmw := if is_integer (elem_ty va) then RmwAdd else RmwFadd).
  assert (Hop : rmw_ok rmw (MTensor d e)).
  { unfold rmw, elem_ty. rewrite Hva. destruct He as [He|He]; destruct e; done. }
  intros b. rewrite (eval_arg_eq _ _ a va) by done. by apply (gives_atomic rmw p a m rest vp va vm).
Qed.
Lemma gives_atomic_cas p c a rest vp vc va d e : evaluates p vp → evaluates c vc → evaluates a va →
  v_ty vp = MTensor d (MPointer e) → v_ty vc = MTensor d e → v_ty va = MTensor d e →
  temits (codegen_atomic_cas_call tcx gargs fuel mir (p :: c :: a :: rest) st) (gives (MTensor d e)).
Proof.
  intros Hp Hc Ha Hvp Hvc Hva. unfold codegen_atomic_cas_call. do 3 tstep. rewrite Hva. tstep; [|tstep].
  cbn [fmap list_fmap]. rewrite Hvp, Hvc, Hva. split; [done|]. split; [done|]. split; [done|]. split; [done|].
  by exists (MTensor d (MInt 1)).
Qed.

Lemma gives_program_id a n : const_axis gargs a n → temits (codegen_program_id gargs [a]) (gives (MInt 32)).
Proof.
  intros [Ha Hn]. unfold codegen_program_id. do 2 tstep. apply (temits_pure _ _ (mkScalarInt n 4)); [done|].
  assert (E : n = 0 ∨ n = 1 ∨ n = 2) by lia.
  destruct E as [->|[->| ->]]; (eapply temits_lift_ret; [reflexivity|]; eapply temits_lift_ret; [reflexivity|]; tstep; [done|tstep]).
Qed.
Lemma gives_num_programs a n : const_axis gargs a n → temits (codegen_num_programs_call gargs [a]) (gives (MInt 32)).
Proof.
  intros [Hs Hn]. unfold codegen_num_programs_call. tstep. unfold scalar_or.
  assert (E : n = 0 ∨ n = 1 ∨ n = 2) by lia.
  destruct E as [->|[->| ->]]; (eapply temits_lift_ret; [reflexivity|]; eapply temits_lift_ret; [reflexivity|]; tstep; [done|tstep]).
Qed.
Lemma gives_multiple_of a rest x : evaluates a x → temits (codegen_multiple_of_call tcx gargs fuel mir (a :: rest) st) (gives (v_ty x)).
Proof. intros Ha. unfold codegen_multiple_of_call. tstep. tstep. Qed.
Lemma gives_identity a x : evaluates a x → temits (codegen_identity_call tcx gargs fuel mir [a] st) (gives (v_ty x)).
Proof. intros Ha. unfold codegen_identity_call. do 2 tstep. tstep. Qed.

(** From a handler to the call. *)
Lemma returns_pure m t : temits m (gives t) → temits (pure st m) (returns [t]).
Proof.
  intros Hm. unfold pure. eapply temits_bind; [exact Hm|]. intros ? (v & -> & Hv). apply temits_ret.
  unfold returns. simpl. by rewrite Hv.
Qed.
Lemma returns_none m : temits m (.= None) → tuple_fields (ts_state st) !! pl_local destination = None →
  temits (pure st m) (returns []).
Proof.
  intros Hm Hd. unfold pure. eapply temits_bind; [exact Hm|]. intros ? ->. apply temits_ret.
  unfold returns. simpl. by rewrite Hd.
Qed.
End handlers.

Create HintDb call_groups discriminated.
Create HintDb calls discriminated.
Ltac dispatch := cbv [call_handler handler_table lookup_handler String.eqb Ascii.eqb Bool.eqb].
Ltac each_call H := repeat (apply elem_of_cons in H as [->|H]); try by apply elem_of_nil in H.

(** The calls that come in groups. *)
Section groups.
Context (tcx : TyCtxt) (gargs : list GenericArg) (infer : ArithKind → MlirTy → MlirTy → MlirTy).
Context (fuel const_fuel : nat) (mir : Body).
Context (fn_output : DefId → Ty) (fn_ptr_output : Ty) (symbol_name : DefId → option string).
Context (destination : Place) (st : TState) (func : Operand).
Abbreviation handle name fargs :=
  (call_handler tcx gargs infer fuel const_fuel mir fn_output fn_ptr_output symbol_name fargs destination st func name).

Lemma handle_float name a x : name ∈ float_calls → evaluates tcx mir st a x → float_elem (v_ty x) →
  temits (handle name [a]) (returns destination [v_ty x]).
Proof.
  intros Hn Ha Hx. each_call Hn; dispatch; apply returns_pure;
    (by apply gives_math) || (by apply gives_sqrt_rn) || by apply gives_atan.
Qed.
Lemma handle_float_pair name a b x y : name ∈ float_pair_calls → evaluates tcx mir st a x → evaluates tcx mir st b y →
  v_ty y = v_ty x → float_elem (v_ty x) → temits (handle name [a; b]) (returns destination [v_ty x]).
Proof.
  intros Hn Ha Hb Hy Hx. assert (Hk : ∀ k, k = maximumf ∨ k = arith divf ∨ k = precise_divf → op_ok k [v_ty x; v_ty y] [v_ty x]).
  { rewrite Hy. intros k [->|[->| ->]]; by split_and!. }
  each_call Hn; dispatch; apply returns_pure;
    (eapply gives_minimum; by eauto) || (eapply gives_binary; [done..|apply Hk; by auto]).
Qed.
Lemma handle_float_triple name a b c x y z : name ∈ float_triple_calls → evaluates tcx mir st a x → evaluates tcx mir st b y →
  evaluates tcx mir st c z → v_ty y = v_ty x → v_ty z = v_ty x → float_elem (v_ty x) →
  temits (handle name [a; b; c]) (returns destination [v_ty x]).
Proof.
  intros Hn Ha Hb Hc Hy Hz Hx. each_call Hn; dispatch; apply returns_pure; (by eapply gives_clamp) || by eapply gives_fma.
Qed.
Lemma handle_reduce name a n k x d e : name ∈ reduce_calls → evaluates tcx mir st a x → option_operand gargs n →
  const_bool gargs k false → v_ty x = MTensor d e → d ≠ [] → numeric e →
  temits (handle name [a; n; k]) (returns destination [reduced_ty d e 0]).
Proof. intros Hn Ha Hax Hk Hx Hb He. each_call Hn; dispatch; apply returns_pure; by eapply gives_reduce. Qed.
Lemma handle_reduce_keep name a n k x len e : name ∈ reduce_calls → evaluates tcx mir st a x → option_operand gargs n →
  const_bool gargs k true → v_ty x = MTensor [len] e → numeric e → is_tensor e = false →
  temits (handle name [a; n; k]) (returns destination [MTensor [1] e]).
Proof. intros Hn Ha Hax Hk Hx He Ht. each_call Hn; dispatch; apply returns_pure; by eapply gives_reduce_keep. Qed.
Lemma handle_scan name a n r x d e axis : name ∈ scan_calls → evaluates tcx mir st a x → const_i32 gargs n axis →
  v_ty x = MTensor d e → 0 <= axis < Z.of_nat (length d) → numeric e →
  temits (handle name [a; n; r]) (returns destination [MTensor d e]).
Proof. intros Hn Ha Hax Hx Hb He. each_call Hn; dispatch; apply returns_pure; by eapply gives_scan. Qed.
Lemma handle_atomic name rmw p a m sem scope vp va vm d e : (name, rmw) ∈ atomic_calls → evaluates tcx mir st p vp →
  evaluates tcx mir st a va → evaluates_option tcx mir st m vm →
  v_ty vp = MTensor d (MPointer e) → v_ty va = MTensor d e → rmw_ok rmw (MTensor d e) → optional_ty vm (is_mask d) →
  temits (handle name [p; a; m; sem; scope]) (returns destination [MTensor d e]).
Proof.
  intros Hn Hp Ha Hm Hvp Hva Hop Hvm.
  repeat (apply elem_of_cons in Hn as [[= -> ->]|Hn]); try (by apply elem_of_nil in Hn); dispatch; apply returns_pure; by eapply gives_atomic.
Qed.
Lemma handle_hint name a values x : name ∈ hint_calls → evaluates tcx mir st a x →
  temits (handle name [a; values]) (returns destination [v_ty x]).
Proof. intros Hn Ha. each_call Hn; dispatch; apply returns_pure; by apply gives_multiple_of. Qed.
Lemma handle_permute name a s x d d' order e : name = "triton::Triton::permute" ∨ name = "triton::Triton::trans" →
  evaluates tcx mir st a x → slice st s order → v_ty x = MTensor d e → order ≡ₚ seqZ 0 (Z.of_nat (length d)) →
  Z.of_nat (length d) < 2 ^ 31 → Forall2 (λ i n, d !! Z.to_nat i = Some n) order d' →
  temits (handle name [a; s]) (returns destination [MTensor d' e]).
Proof.
  intros Hn Ha Hs Hx Ho Hd Hd'. destruct Hn as [-> | ->]; dispatch; apply returns_pure; unfold codegen_trans_call; by eapply gives_permute.
Qed.
Lemma handle_arith name a b x y s s' r e : (∀ k t, infer k t t = t) → name ∈ arith_calls → evaluates tcx mir st a x →
  evaluates tcx mir st b y → v_ty x = with_shape s e → v_ty y = with_shape s' e → pair_shape s s' r → numeric e →
  temits (handle name [a; b]) (returns destination [with_shape r e]).
Proof.
  intros Hinfer Hn Ha Hb Hx Hy Hs He. each_call Hn; dispatch; apply returns_pure; eapply gives_pair; try done;
    (eapply gemits_arith; [exact Hinfer|unfold arith_kinds; by auto| |exact Hx|exact Hy|exact Hs|exact He]);
    intros w l q -> Hl Hq; by first [apply gemits_create|apply gemits_muli].
Qed.
Lemma handle_bitwise name a b x y s s' r w : (∀ k t, infer k t t = t) → name ∈ bitwise_calls → evaluates tcx mir st a x →
  evaluates tcx mir st b y → v_ty x = with_shape s (MInt w) → v_ty y = with_shape s' (MInt w) → pair_shape s s' r →
  temits (handle name [a; b]) (returns destination [with_shape r (MInt w)]).
Proof.
  intros Hinfer Hn Ha Hb Hx Hy Hs. each_call Hn; dispatch; apply returns_pure; (eapply gives_pair; [done..|]);
    (eapply gemits_bitwise; [exact Hinfer|by auto|exact Hx|exact Hy|exact Hs]).
Qed.
Lemma handle_compare name a b x y s s' r e : name ∈ compare_calls → evaluates tcx mir st a x → evaluates tcx mir st b y →
  v_ty x = with_shape s e → v_ty y = with_shape s' e → pair_shape s s' r → is_integer e = true ∨ is_float e = true ∧ r ≠ None →
  temits (handle name [a; b]) (returns destination [with_shape r (MInt 1)]).
Proof.
  intros Hn Ha Hb Hx Hy Hs He. each_call Hn; dispatch; apply returns_pure; (eapply gives_pair; [done..|]);
    (eapply gemits_cmp; [exact Hx|exact Hy|exact Hs|exact He]).
Qed.
End groups.

#[export] Hint Resolve handle_float handle_float_pair handle_float_triple handle_reduce handle_reduce_keep handle_scan
  handle_atomic handle_hint handle_permute handle_arith handle_bitwise handle_compare : call_groups.
#[export] Hint Resolve gives_arange gives_arange_f32 gives_zeros gives_zeros_like gives_full gives_add_ptr gives_load
  gives_load_scalar gives_minimum gives_cdiv gives_where gives_rsqrt gives_softmax gives_cast gives_cat gives_broadcast_to
  gives_expand_dims gives_reshape gives_view gives_ravel gives_join gives_interleave gives_dot gives_atomic_add
  gives_atomic_cas gives_identity gives_program_id gives_num_programs : calls.
#[export] Hint Constants Opaque : call_groups.
#[export] Hint Constants Opaque : calls.

(** ** The theorem *)
Section theorem.
Context (tcx : TyCtxt) (gargs : list GenericArg) (infer : ArithKind → MlirTy → MlirTy → MlirTy).
Context (fuel const_fuel : nat) (mir : Body).
Context (fn_output : DefId → Ty) (fn_ptr_output : Ty) (symbol_name : DefId → option string).

(** C5: Every call that [call_ok] lists is compiled: with the operands of the
    API's signature, and of the shapes, elements and constants [call_ok] asks for
    (element types the operation is implemented for, vectors for [softmax] and
    [cat], axis 0 for the reductions, whose axis the handlers do not read), the
    handler the table chooses returns, every operation it appends satisfies the
    documented rules of Triton's verifier, and what it answers, a value or the
    components of a tuple, has the promised type. *)
Theorem tensor_calls_well_typed destination st func name args tys b (Hinfer : ∀ k t, infer k t t = t)
    (Hcall : call_ok tcx gargs fuel mir destination st name args tys) :
  ∃ r b' new,
    call_handler tcx gargs infer fuel const_fuel mir fn_output fn_ptr_output symbol_name args destination st func name b
      = Ret (inr (r, b')) ∧
    tb_ops b' = tb_ops b ++ new ∧ Forall tt_ok new ∧ v_ty <$> returned destination r = tys.
Proof.
  cut (temits (call_handler tcx gargs infer fuel const_fuel mir fn_output fn_ptr_output symbol_name args destination st func name)
         (returns destination tys)); [intros H; exact (H b)|].
  clear b. destruct Hcall; try solve [eauto with call_groups]; dispatch; try solve [apply returns_pure; eauto with calls].
  - eapply returns_none; [by eapply emits_store|done].
  - apply returns_pure. unfold codegen_fdiv_call. eapply gives_binary; [done..|]. simpl. by split_and!.
  - apply returns_pure. unfold codegen_umulhi_call. eapply gives_binary; [done..|]. simpl. by split_and!.
  - apply returns_pure. destruct H0; [by eapply (gives_sigmoid _ _ _ _ _ _ Hinfer _ _ None)|].
    by eapply (gives_sigmoid _ _ _ _ _ _ Hinfer _ _ (Some d)).
  - by eapply returns_broadcast.
  - by eapply returns_split.
  - apply returns_pure. eapply gives_pair; [done..|]. by eapply gemits_cmpi.
  - apply returns_pure. by eapply gives_neg.
Qed.
End theorem.

(** ** An example: [interleave] of two [tensor<4x8xf32>] *)
Definition tensor_path : string := "triton::llvm::triton::tensor::LlvmTensor".
Definition kernel_path (def : DefId) : string :=
  match def with O => tensor_path | S O => "core::option::Option" | _ => "triton::llvm::triton::pointer::LlvmPointer" end%string.
Definition kernel_tcx : TyCtxt := mkTyCtxt kernel_path kernel_path (Nat.eqb 1) (λ _ _, TyError)
  (λ _, None) (λ t, t) (λ _, None) (λ _, None) (λ _, None) (λ _, None) (λ _, None).
Definition tensor_of (t : Ty) : Ty := TyAdt 0 [t].
Definition local_op (l : Local) : Operand := Copy (mkPlace l []).
(** Local [i + 1] has the value [i], of the [i]-th type; local 0 is the
    destination. *)
Definition kernel_state (tys : list MlirTy) : TState :=
  mkTState (with_ssa new_state (list_to_map (imap (λ i t, (S i, mkValue i t)) tys))) ∅.
Definition kernel_body (tys : list Ty) : Body := mkBody [] tys 0.
Definition kernel_call (decls : list Ty) (st : TState) (name : string) (fargs : list Operand) :
    outcome (MlirError + ((option Value * TState) * TBlock)) :=
  call_handler kernel_tcx [] infer_left 3 3 (kernel_body decls) (λ _, TyTuple []) (TyTuple []) (λ _, None)
    fargs (mkPlace 0 []) st RuntimeChecks name (mkTBlock 10 []).

Lemma tensor_calls_well_typed_witness :
  ∃ r b' new,
    kernel_call (replicate 3 (tensor_of (TyFloat F32))) (kernel_state (replicate 2 (MTensor [4; 8] (MFloat 32))))
      "triton::Triton::interleave" [local_op 1; local_op 2] = Ret (inr (r, b')) ∧
    tb_ops b' = new ∧ length new = 2%nat ∧ Forall tt_ok new ∧ v_ty <$> returned (mkPlace 0 []) r = [MTensor [4; 16] (MFloat 32)].
Proof.
  set (decls := replicate 3 (tensor_of (TyFloat F32))). set (st := kernel_state (replicate 2 (MTensor [4; 8] (MFloat 32)))).
  destruct (tensor_calls_well_typed kernel_tcx [] infer_left 3 3 (kernel_body decls) (λ _, TyTuple []) (TyTuple []) (λ _, None)
    (mkPlace 0 []) st RuntimeChecks "triton::Triton::interleave" [local_op 1; local_op 2] [MTensor [4; 2 * 8] (MFloat 32)]
    (mkTBlock 10 [])) as (r & b' & new & E & Hn & Hok & Ht).
  - reflexivity.
  - apply (ok_interleave _ _ _ _ _ _ _ _ (mkValue 0 (MTensor [4; 8] (MFloat 32))) (mkValue 1 (MTensor [4; 8] (MFloat 32))) [4] 8).
    + exists (mkPlace 1 []), (tensor_of (TyFloat F32)). repeat split; reflexivity.
    + exists (mkPlace 2 []), (tensor_of (TyFloat F32)). repeat split; reflexivity.
    + reflexivity.
    + reflexivity.
    + lia.
  - exists r, b', new. assert (E' := E). vm_compute in E'. injection E' as _ Hb. simpl in Hn.
    split; [exact E|]. split; [exact Hn|]. split; [by rewrite <-Hn, <-Hb|]. split; [exact Hok|exact Ht].
Defined.
