(* ===== verification/TritonTensorThms.v ===== *)
(** * Triton backend: what tensor calls compute, and where they go wrong

    A meaning of the emitted operations on tensors in row-major order, over a
    parameter for the elements; the calls that expand to several operations
    compute the formulas they stand for.  The second part shows
    which calls are compiled to operations the verifier refuses, and which operands
    are not read. *)
From S2P Require Import Prelude Codegen Mir PlaceTypes ScalarInts IntOps TritonArith TritonArithFacts TritonArithThms TritonArithTypes TritonConst TritonConstFacts TritonPhi TritonTypes TritonEmit TritonOperand TritonAssign TritonTensor TritonMath TritonTensorTypes.
#[local] Open Scope Z_scope.

(** ** Values *)
Inductive TVal (A : Type) := TScalar (a : A) | TTensor (dims : list Z) (data : list A).
Arguments TScalar {A}. Arguments TTensor {A}.

(** The operations on elements; [el_reduce] is the combination of all elements
    of a list, whose order the dialect leaves open. *)
Record Elems (A : Type) := mkElems {
  el_const : ArithKind → option A;
  el_un : TKind → A → option A;
  el_bin : TKind → A → A → option A;
  el_reduce : CombineOp → list A → option A }.
Arguments el_const {A}. Arguments el_un {A}. Arguments el_bin {A}. Arguments el_reduce {A}.

Record FloatOps (A : Type) := mkFloatOps {
  fzero : A; fone : A;
  fadd : A → A → A; fsub : A → A → A; fmul : A → A → A; fdiv : A → A → A; fmax : A → A → A;
  fexp : A → A; fsqrt : A → A;
  freduce : CombineOp → list A → A }.
Arguments fzero {A}. Arguments fone {A}. Arguments fadd {A}. Arguments fsub {A}. Arguments fmul {A}. Arguments fdiv {A}.
Arguments fmax {A}. Arguments fexp {A}. Arguments fsqrt {A}. Arguments freduce {A}.
Definition float_elems {A} (o : FloatOps A) : Elems A := {|
  el_const k := match k with
                | float_zero => Some (fzero o)
                | float_constant F16 15360 | float_constant F32 1065353216 | float_constant F64 4607182418800017408 => Some (fone o)
                | _ => None
                end;
  el_un k a := match k with math exp => Some (fexp o a) | precise_sqrt => Some (fsqrt o a) | _ => None end;
  el_bin k a b := match k with
                  | arith addf => Some (fadd o a b)
                  | arith subf => Some (fsub o a b)
                  | arith mulf => Some (fmul o a b)
                  | arith divf | precise_divf => Some (fdiv o a b)
                  | maximumf => Some (fmax o a b)
                  | _ => None
                  end;
  el_reduce op l := match l with [] => None | _ => Some (freduce o op l) end |}.

(** Integers of [w] bits, as their unsigned representation. *)
Definition int_elems (w : Z) : Elems Z := {|
  el_const k := match k with constant n => Some (as_u w n) | _ => None end;
  el_un _ _ := None;
  el_bin k a b := match k with
                  | arith addi => Some (as_u w (a + b))
                  | arith subi => Some (as_u w (a - b))
                  | arith muli => Some (as_u w (a * b))
                  | arith divsi =>
                      let q := Z.quot (as_i w a) (as_i w b) in
                      if (b =? 0) || (q =? 2 ^ (w - 1)) then None else Some (as_u w q)
                  | _ => None
                  end;
  el_reduce _ _ := None |}.

(** ** Operations *)
Fixpoint riffle {A} (l l' : list A) : list A :=
  match l, l' with a :: l, b :: l' => a :: b :: riffle l l' | _, _ => [] end.
Fixpoint unriffle {A} (l : list A) : list A * list A :=
  match l with a :: b :: l' => let r := unriffle l' in (a :: r.1, b :: r.2) | _ => ([], []) end.

Section sem.
Context {A : Type} (el : Elems A).
Abbreviation Vals := (gmap nat (TVal A)).
Implicit Types (ρ : Vals) (x y : TVal A) (d : list Z) (l : list A).

Definition lift_un (f : A → option A) x : option (TVal A) :=
  match x with TScalar a => TScalar <$> f a | TTensor d l => TTensor d <$> mapM f l end.
Definition lift_bin (f : A → A → option A) x y : option (TVal A) :=
  match x, y with
  | TScalar a, TScalar b => TScalar <$> f a b
  | TTensor d l, TTensor d' l' =>
      if bool_decide (d = d' ∧ length l = length l') then TTensor d <$> mapM (λ p, f p.1 p.2) (zip l l') else None
  | _, _ => None
  end.

(** The values of the results, from those of the operands and the types of the
    results. *)
Definition op_values (k : TKind) (xs : list (TVal A)) (tys : list MlirTy) : option (list (TVal A)) :=
  match k, xs, tys with
  | arith splat, [TScalar a], [MTensor d _] => Some [TTensor d (replicate (Z.to_nat (numel d)) a)]
  | arith k, [], [_] => a ← el_const el k; Some [TScalar a]
  | join, [TTensor d l; TTensor d' l'], [_] =>
      if bool_decide (d = d' ∧ length l = length l') then Some [TTensor (d ++ [2]) (riffle l l')] else None
  | split, [TTensor d l], [_; _] =>
      if bool_decide (last d = Some 2) then
        let r := unriffle l in Some [TTensor (leading_dims d) r.1; TTensor (leading_dims d) r.2]
      else None
  | reshape false _, [TTensor d l], [MTensor d' _] =>
      if numel d =? numel d' then Some [TTensor d' l] else None
  | reduce 0 rg, [TTensor [_] l], [_] => a ← el_reduce el (rg_op rg) l; Some [TScalar a]
  | k, [x], [_] => v ← lift_un (el_un el k) x; Some [v]
  | k, [x; y], [_] => v ← lift_bin (el_bin el k) x y; Some [v]
  | _, _, _ => None
  end.

Definition exec_top ρ (o : TOp) : option Vals :=
  xs ← mapM (λ v, ρ !! v_id v) (to_args o);
  vs ← op_values (to_kind o) xs (v_ty <$> to_results o);
  Some (list_to_map (zip (v_id <$> to_results o) vs) ∪ ρ).
Fixpoint exec_tops ρ (ops : list TOp) : option Vals :=
  match ops with [] => Some ρ | o :: ops' => ρ' ← exec_top ρ o; exec_tops ρ' ops' end.

(** ** Emission with its meaning *)
Definition unused ρ (n : nat) : Prop := ∀ i, (n ≤ i)%nat → ρ !! i = None.
Definition tcomp {B} ρ (m : tgen B) (Q : B → Vals → Prop) : Prop := ∀ b, unused ρ (tb_next b) → ∃ a b' new ρ',
  m b = Ret (inr (a, b')) ∧ tb_ops b' = tb_ops b ++ new ∧ exec_tops ρ new = Some ρ' ∧
  unused ρ' (tb_next b') ∧ ρ ⊆ ρ' ∧ Q a ρ'.

Lemma exec_tops_app ρ o1 o2 : exec_tops ρ (o1 ++ o2) = ρ' ← exec_tops ρ o1; exec_tops ρ' o2.
Proof. revert ρ. induction o1 as [|o o1 IH]; intros ρ; simpl; [done|]. destruct (exec_top ρ o); simpl; [apply IH|done]. Qed.

Lemma tcomp_ret {B} ρ (a : B) (Q : B → Vals → Prop) : Q a ρ → tcomp ρ (mret a) Q.
Proof. intros Ha b Hb. exists a, b, [], ρ. rewrite app_nil_r. by split_and!. Qed.
Lemma tcomp_bind {B C} ρ (m : tgen B) (f : B → tgen C) (P : B → Vals → Prop) (Q : C → Vals → Prop) :
  tcomp ρ m P → (∀ a ρ', ρ ⊆ ρ' → P a ρ' → tcomp ρ' (f a) Q) → tcomp ρ (m ≫= f) Q.
Proof.
  intros Hm Hf b Hb. destruct (Hm b Hb) as (a & b1 & n1 & ρ1 & E1 & H1 & X1 & F1 & S1 & Ha).
  destruct (Hf a ρ1 S1 Ha b1 F1) as (c & b2 & n2 & ρ2 & E2 & H2 & X2 & F2 & S2 & Hc).
  exists c, b2, (n1 ++ n2), ρ2. unfold mbind, cg_bind. rewrite E1. simpl. rewrite E2, H2, H1, app_assoc, exec_tops_app, X1.
  split_and!; try done. by etrans.
Qed.
Lemma tcomp_pure {B C} ρ (m : tgen B) (f : B → tgen C) a (Q : C → Vals → Prop) :
  (∀ b, m b = Ret (inr (a, b))) → tcomp ρ (f a) Q → tcomp ρ (m ≫= f) Q.
Proof.
  intros Hm Hf. apply (tcomp_bind _ _ _ (λ a' ρ', a' = a ∧ ρ' = ρ)); [|by intros ? ? _ [-> ->]].
  intros b Hb. exists a, b, [], ρ. rewrite Hm, app_nil_r. by split_and!.
Qed.

(** The values [vs] have the meanings [xs]. *)
Definition have ρ (vs : list Value) (xs : list (TVal A)) : Prop := Forall2 (λ v x, ρ !! v_id v = Some x) vs xs.
Lemma have_mapM ρ vs xs : have ρ vs xs → mapM (λ v, ρ !! v_id v) vs = Some xs.
Proof. intros H. by apply mapM_Some. Qed.

Lemma fresh_ids n tys : v_id <$> fresh_values n tys = seq n (length tys).
Proof. revert n. induction tys as [|t tys IH]; intros n; simpl; [done|]. by rewrite IH. Qed.
Lemma new_values ρ n tys (xs : list (TVal A)) : unused ρ n → length xs = length tys →
  let ρ' := list_to_map (zip (seq n (length tys)) xs) ∪ ρ in
  ρ ⊆ ρ' ∧ unused ρ' (n + length tys) ∧ have ρ' (fresh_values n tys) xs.
Proof.
  intros Hn Hl ρ'.
  assert (Hnew : ∀ i, (i < length tys)%nat → (list_to_map (zip (seq n (length tys)) xs) : Vals) !! (n + i)%nat = xs !! i).
  { intros i Hi. destruct (xs !! i) as [x|] eqn:E; [|apply lookup_ge_None in E; lia].
    apply elem_of_list_to_map_1.
    - rewrite fst_zip by (rewrite length_seq; lia). apply NoDup_seq.
    - apply list_elem_of_lookup. exists i. rewrite lookup_zip_with, E, (lookup_seq_lt _ _ _ Hi). done. }
  assert (Hold : ∀ i, (i < n ∨ n + length tys ≤ i)%nat → (list_to_map (zip (seq n (length tys)) xs) : Vals) !! i = None).
  { intros i Hi. apply not_elem_of_list_to_map_1. rewrite fst_zip by (rewrite length_seq; lia). rewrite elem_of_seq. lia. }
  split_and!.
  - apply map_union_subseteq_r. apply map_disjoint_spec. intros i x y Hx Hy.
    destruct (decide (i < n)%nat); [|by rewrite (Hn i) in Hy by lia]. by rewrite Hold in Hx by lia.
  - intros i Hi. unfold ρ'. apply lookup_union_None. split; [by apply Hold; lia|by apply Hn; lia].
  - unfold have. apply Forall2_same_length_lookup_2; [by rewrite <-(length_fmap v_id), fresh_ids, length_seq|].
    intros i v x Hv Hx. assert (Hid : v_id v = (n + i)%nat ∧ (i < length tys)%nat).
    { apply (f_equal (fmap v_id)) in Hv. rewrite <-list_lookup_fmap, fresh_ids in Hv. simpl in Hv. apply lookup_seq in Hv. lia. }
    destruct Hid as [-> Hi]. unfold ρ'. apply lookup_union_Some_l. by rewrite Hnew.
Qed.

Lemma tcomp_append ρ k args tys xs ys (Q : list Value → Vals → Prop) :
  have ρ args xs → op_values k xs tys = Some ys → length ys = length tys →
  (∀ vs ρ', ρ ⊆ ρ' → have ρ' vs ys → v_ty <$> vs = tys → Q vs ρ') → tcomp ρ (append k args tys) Q.
Proof.
  intros Ha Hk Hl HQ b Hb. set (vs := fresh_values (tb_next b) tys).
  destruct (new_values ρ (tb_next b) tys ys Hb Hl) as (H1 & H2 & H3).
  eexists vs, _, _, _. split; [reflexivity|]. split; [reflexivity|]. cbn [exec_tops tb_next].
  unfold exec_top. cbn [to_args to_kind to_results]. rewrite (have_mapM _ _ _ Ha). unfold vs. rewrite fresh_values_types, fresh_ids.
  cbn [mbind option_bind]. rewrite Hk. cbn [mbind option_bind]. split; [reflexivity|]. split; [exact H2|]. split; [exact H1|].
  apply HQ; [exact H1|exact H3|apply fresh_values_types].
Qed.
Lemma tcomp_append1 {B} ρ k args ty xs y (f : Value → tgen B) (Q : B → Vals → Prop) :
  have ρ args xs → op_values k xs [ty] = Some [y] →
  (∀ v ρ', ρ ⊆ ρ' → ρ' !! v_id v = Some y → v_ty v = ty → tcomp ρ' (f v) Q) → tcomp ρ (append1 k args ty ≫= f) Q.
Proof.
  intros Ha Hk Hf. apply (tcomp_bind _ _ _ (λ v ρ', ρ' !! v_id v = Some y ∧ v_ty v = ty)); [|by intros v ρ' H [? ?]; apply Hf].
  unfold append1. apply (tcomp_bind _ _ _ (λ vs ρ', have ρ' vs [y] ∧ v_ty <$> vs = [ty])).
  - by eapply tcomp_append.
  - intros vs ρ' _ [Hvs Ht]. destruct vs as [|v [|]]; simplify_eq/=. apply Forall2_cons_1 in Hvs as [Hv _]. by apply tcomp_ret.
Qed.
End sem.

(** ** Shapes of values *)
Definition map_val {A} (f : A → A) (x : TVal A) : TVal A :=
  match x with TScalar a => TScalar (f a) | TTensor d l => TTensor d (f <$> l) end.
(** A value of the shape [s]: a scalar, or as many elements as the dimensions say. *)
Definition shaped {A} (s : option (list Z)) (x : TVal A) : Prop :=
  match s, x with
  | None, TScalar _ => True
  | Some d, TTensor d' l => d' = d ∧ Z.of_nat (length l) = numel d
  | _, _ => False
  end.

Lemma mapM_pure {A B} (f : A → B) l : mapM (λ a, Some (f a)) l = Some (f <$> l).
Proof. apply mapM_Some. induction l; simpl; by constructor. Qed.
Lemma zip_replicate {A B C} (f : A → B → C) l b :
  mapM (λ p, Some (f p.1 p.2)) (zip l (replicate (length l) b)) = Some ((λ a, f a b) <$> l).
Proof.
  rewrite (mapM_pure (λ p : A * B, f p.1 p.2)). f_equal. induction l as [|a l IH]; simpl; [done|]. f_equal. exact IH.
Qed.
Lemma replicate_zip {A B C} (f : B → A → C) l b :
  mapM (λ p, Some (f p.1 p.2)) (zip (replicate (length l) b) l) = Some (f b <$> l).
Proof.
  rewrite (mapM_pure (λ p : B * A, f p.1 p.2)). f_equal. induction l as [|a l IH]; simpl; [done|]. f_equal. exact IH.
Qed.
Lemma to_nat_numel {A} (l : list A) d : Z.of_nat (length l) = numel d → Z.to_nat (numel d) = length l.
Proof. intros <-. apply Nat2Z.id. Qed.

Lemma riffle_lookup {A} (l l' : list A) i : length l = length l' →
  riffle l l' !! (2 * i)%nat = l !! i ∧ riffle l l' !! (2 * i + 1)%nat = l' !! i.
Proof.
  revert l' i. induction l as [|a l IH]; intros [|b l'] i Hl; simplify_eq/=; [by rewrite !lookup_nil|].
  destruct i as [|i]; [done|]. replace (S i + (S i + 0))%nat with (S (S (2 * i)))%nat by lia.
  replace (S (S (2 * i)) + 1)%nat with (S (S (2 * i + 1)))%nat by lia. simpl. by apply IH.
Qed.
Lemma unriffle_riffle {A} (l l' : list A) : length l = length l' → unriffle (riffle l l') = (l, l').
Proof. revert l'. induction l as [|a l IH]; intros [|b l'] Hl; simplify_eq/=; [done|]. by rewrite IH. Qed.

(** ** The formulas *)
Section formulas.
Context {A : Type} (o : FloatOps A).
Definition softmax (l : list A) : list A :=
  let m := freduce o CMaximumf l in
  let e := (λ a, fexp o (fsub o a m)) <$> l in
  let s := freduce o CAddf e in
  (λ a, fdiv o a s) <$> e.
Definition sigmoid (a : A) : A := fdiv o (fone o) (fadd o (fone o) (fexp o (fsub o (fzero o) a))).
Definition rsqrt (a : A) : A := fdiv o (fone o) (fsqrt o a).
End formulas.

Section handlers.
Context {A : Type} (el : Elems A).
Context (tcx : TyCtxt) (gargs : list GenericArg) (fuel : nat) (mir : Body) (st : TState).
Abbreviation Vals := (gmap nat (TVal A)).
Implicit Types (ρ : Vals).

(** The operand [a] has the value [v], with the meaning [x]. *)
Definition input ρ (a : Operand) (v : Value) (x : TVal A) : Prop := evaluates tcx mir st a v ∧ ρ !! v_id v = Some x.
Definition computes ρ (m : tgen (option Value)) (y : TVal A) : Prop :=
  tcomp el ρ m (λ r ρ', ∃ v, r = Some v ∧ ρ' !! v_id v = Some y).

Lemma tcomp_eval {C} ρ fargs i a v x (f : Value → tgen C) Q : fargs !! i = Some a → input ρ a v x →
  (ρ !! v_id v = Some x → tcomp el ρ (f v) Q) → tcomp el ρ (eval_arg tcx gargs fuel mir fargs i st ≫= f) Q.
Proof. intros Hi [Ha Hx] Hf. eapply tcomp_pure; [intros b; by apply (eval_arg_eq tcx gargs fuel mir st fargs i a v b)|by apply Hf]. Qed.
Lemma tcomp_ranked {C} ρ t d e (f : list Z * MlirTy → tgen C) Q :
  t = MTensor d e → tcomp el ρ (f (d, e)) Q → tcomp el ρ (ranked_tensor t ≫= f) Q.
Proof. intros -> Hf. by apply (tcomp_pure el ρ _ f (d, e)). Qed.
Lemma tcomp_lift {B C} ρ (m : outcome B) a (f : B → tgen C) Q :
  m = Ret a → tcomp el ρ (f a) Q → tcomp el ρ (cg_lift m ≫= f) Q.
Proof. intros -> Hf. by apply (tcomp_pure el ρ _ f a). Qed.
Lemma computes_some ρ v y : ρ !! v_id v = Some y → computes ρ (mret (Some v)) y.
Proof. intros Hv. apply tcomp_ret. by exists v. Qed.

Lemma computes_join ρ a b x y d l l' e : input ρ a x (TTensor d l) → input ρ b y (TTensor d l') → v_ty x = MTensor d e →
  length l = length l' → computes ρ (codegen_join_call tcx gargs fuel mir [a; b] st) (TTensor (d ++ [2]) (riffle l l')).
Proof.
  intros Ha Hb Hx Hl. unfold codegen_join_call. eapply tcomp_eval; [reflexivity|done|intros Hxv].
  eapply tcomp_eval; [reflexivity|done|intros Hyv]. eapply tcomp_ranked; [done|].
  eapply tcomp_append1; [by repeat constructor|simpl; by rewrite bool_decide_true|].
  intros v ρ' _ Hv _. by apply computes_some.
Qed.

Lemma computes_interleave ρ a b x y d n l l' e : input ρ a x (TTensor (d ++ [n]) l) → input ρ b y (TTensor (d ++ [n]) l') →
  v_ty x = MTensor (d ++ [n]) e → length l = length l' → 0 <= n < 2 ^ 62 →
  computes ρ (codegen_interleave_call tcx gargs fuel mir [a; b] st) (TTensor (d ++ [2 * n]) (riffle l l')).
Proof.
  intros Ha Hb Hx Hl Hn. unfold codegen_interleave_call. eapply tcomp_eval; [reflexivity|done|intros Hxv].
  eapply tcomp_eval; [reflexivity|done|intros Hyv]. eapply tcomp_ranked; [done|].
  eapply tcomp_append1; [by repeat constructor|simpl; by rewrite bool_decide_true|].
  intros v ρ' _ Hv _. cbn [fst snd]. rewrite last_snoc, leading_app. cbn [from_option id].
  eapply tcomp_lift; [apply check_i64_ok; lia|].
  eapply tcomp_append1; [by repeat constructor| |].
  { simpl. rewrite !numel_app. simpl. by rewrite (proj2 (Z.eqb_eq _ _)) by lia. }
  intros w ρ2 _ Hw _. by apply computes_some.
Qed.

Lemma computes_split ρ a x d l e destination : input ρ a x (TTensor (d ++ [2]) l) → v_ty x = MTensor (d ++ [2]) e →
  tcomp el ρ (codegen_split_call tcx gargs fuel mir [a] destination st) (λ r ρ',
    have ρ' (returned destination r) [TTensor d (unriffle l).1; TTensor d (unriffle l).2]).
Proof.
  intros Ha Hx. unfold codegen_split_call. eapply tcomp_eval; [reflexivity|done|intros Hxv]. eapply tcomp_ranked; [done|].
  cbn [fst snd]. rewrite last_snoc, leading_app. cbn zeta. simpl.
  eapply tcomp_bind.
  { apply (tcomp_append el ρ split [x] _ [TTensor (d ++ [2]) l] [TTensor d (unriffle l).1; TTensor d (unriffle l).2]
      (λ vs ρ', have ρ' vs [TTensor d (unriffle l).1; TTensor d (unriffle l).2])); [by repeat constructor| |done|done].
    simpl. rewrite last_snoc, bool_decide_true by done. by rewrite leading_app. }
  intros vs ρ' _ Hvs. apply tcomp_ret. simpl. by rewrite lookup_insert_eq.
Qed.
End handlers.

(** One operation of a handler, with its operands and its value. *)
Ltac haves := repeat (eapply List.Forall2_cons; [eassumption|]); apply List.Forall2_nil.
Ltac cstep v ρ' Hs Hv := eapply tcomp_append1; [haves| |intros v ρ' Hs Hv ?Ht].

Section floats.
Context {A : Type} (o : FloatOps A).
Context (tcx : TyCtxt) (gargs : list GenericArg) (fuel : nat) (mir : Body) (st : TState).
Abbreviation el := (float_elems o).
Abbreviation Vals := (gmap nat (TVal A)).
Implicit Types (ρ : Vals) (x : TVal A).
Abbreviation input := (input tcx mir st).
Abbreviation computes := (computes el).

Lemma reduce_some op l : l ≠ [] → el_reduce el op l = Some (freduce o op l).
Proof. by destruct l. Qed.
Lemma computes_softmax ρ a rest (x : Value) n w l : input ρ a x (TTensor [n] l) → v_ty x = MTensor [n] (MFloat w) →
  Z.of_nat (length l) = n → l ≠ [] →
  computes ρ (codegen_softmax_call tcx gargs fuel mir (a :: rest) st) (TTensor [n] (softmax o l)).
Proof.
  intros Ha Hx Hn Hl. unfold codegen_softmax_call. eapply tcomp_eval; [reflexivity|exact Ha|intros Hxv]. eapply tcomp_ranked; [done|].
  cbn zeta. cbn [fst snd length]. change (Z.of_nat 1 - 1) with 0. rewrite Hx.
  assert (Hlen : Z.to_nat (numel [n]) = length l) by (apply to_nat_numel; simpl; lia).
  set (m := freduce o CMaximumf l). set (e := (λ a, fexp o (fsub o a m)) <$> l). set (s := freduce o CAddf e).
  cstep vm ρ1 S1 Hm; [cbn [op_values]; rewrite reduce_some by done; reflexivity|].
  cstep vb ρ2 S2 Hb; [cbn [op_values]; rewrite Hlen; reflexivity|].
  assert (Hx2 : ρ2 !! v_id x = Some (TTensor [n] l)) by (eapply lookup_weaken, S2; by eapply lookup_weaken).
  cstep vs ρ3 S3 Hs.
  { simpl. rewrite bool_decide_true by (by rewrite length_replicate). rewrite (zip_replicate (fsub o)). reflexivity. }
  cstep ve ρ4 S4 He.
  { simpl. rewrite (mapM_pure (fexp o)). simpl. rewrite <-list_fmap_compose. reflexivity. }
  assert (Hee : ρ4 !! v_id ve = Some (TTensor [n] e)) by done.
  assert (Hle : length e = length l) by apply length_fmap.
  cstep vt ρ5 S5 Hsum; [cbn [op_values]; rewrite reduce_some by (intros E; by destruct l); reflexivity|].
  cstep vu ρ6 S6 Hu; [cbn [op_values]; rewrite Hlen; reflexivity|].
  assert (He6 : ρ6 !! v_id ve = Some (TTensor [n] e)) by (eapply lookup_weaken, S6; by eapply lookup_weaken).
  cstep vy ρ7 S7 Hy.
  { simpl. rewrite bool_decide_true by (by rewrite length_replicate). rewrite <-Hle, (zip_replicate (fdiv o)). reflexivity. }
  apply computes_some. exact Hy.
Qed.

(** A scalar spread over a shape, and an operation with it on the left. *)
Definition splat_val (s : option (list Z)) (b : A) : TVal A :=
  match s with None => TScalar b | Some d => TTensor d (replicate (Z.to_nat (numel d)) b) end.
Lemma lift_un_map (f : A → A) x : lift_un (λ a, Some (f a)) x = Some (map_val f x).
Proof. destruct x as [a|d l]; simpl; [done|]. by rewrite (mapM_pure f). Qed.
Lemma lift_bin_splat (f : A → A → A) (s : option (list Z)) (b : A) x : shaped s x →
  lift_bin (λ a b, Some (f a b)) (splat_val s b) x = Some (map_val (f b) x).
Proof.
  intros Hx. destruct s as [d|], x as [a|d' l]; simpl; try done. destruct Hx as [-> Hl].
  rewrite (to_nat_numel l d Hl), bool_decide_true by (by rewrite length_replicate).
  by rewrite (replicate_zip f).
Qed.
Lemma shaped_map f s x : shaped s x → shaped s (map_val f x).
Proof. destruct s as [d|], x as [a|d' l]; simpl; try done. by rewrite length_fmap. Qed.

Lemma tcomp_one {C} ρ w (f : Value → tgen C) Q : float_width w →
  (∀ v ρ', ρ ⊆ ρ' → ρ' !! v_id v = Some (TScalar (fone o)) → v_ty v = MFloat w → tcomp el ρ' (f v) Q) →
  tcomp el ρ (one_constant (MFloat w) ≫= f) Q.
Proof.
  intros Hw Hf. apply (tcomp_bind _ _ _ _ (λ v ρ', ρ' !! v_id v = Some (TScalar (fone o)) ∧ v_ty v = MFloat w));
    [|by intros v ρ' H [? ?]; apply Hf]. unfold one_constant.
  destruct Hw as [->|[->| ->]]; (eapply tcomp_lift; [reflexivity|]); unfold append1;
    (eapply (tcomp_bind _ _ _ _ (λ vs ρ', have ρ' vs [TScalar (fone o)] ∧ v_ty <$> vs = [_]));
     [by eapply (tcomp_append _ _ _ _ _ []); [apply List.Forall2_nil|reflexivity|..]|]);
    (intros vs ρ' _ [Hvs Ht]; destruct vs as [|v [|]]; simplify_eq/=; apply Forall2_cons_1 in Hvs as [Hv _]; by apply tcomp_ret).
Qed.
(** A splat of [b] to the type of a value of shape [s]. *)
Lemma tcomp_splat ρ v b s e : ρ !! v_id v = Some (TScalar b) → v_ty v = e → is_tensor e = false →
  tcomp el ρ (splat_scalar_const v (with_shape s e)) (λ r ρ', ρ' !! v_id r = Some (splat_val s b) ∧ v_ty r = with_shape s e).
Proof.
  intros Hv Ht He. unfold splat_scalar_const. destruct s as [d|]; simpl; [|rewrite He; by apply tcomp_ret].
  unfold append1. eapply (tcomp_bind _ _ _ _ (λ vs ρ', have ρ' vs [splat_val (Some d) b] ∧ v_ty <$> vs = [MTensor d e])).
  - eapply tcomp_append; [haves|reflexivity|done|done].
  - intros vs ρ' _ [Hvs Hty]. destruct vs as [|r [|]]; simplify_eq/=. apply Forall2_cons_1 in Hvs as [Hr _]. by apply tcomp_ret.
Qed.

Lemma computes_rsqrt ρ a v x s w : input ρ a v x → v_ty v = with_shape s (MFloat w) → shaped s x → float_width w →
  computes ρ (codegen_rsqrt_call tcx gargs fuel mir [a] st) (map_val (rsqrt o) x).
Proof.
  intros Ha Hv Hx Hw. unfold codegen_rsqrt_call. eapply tcomp_eval; [reflexivity|exact Ha|intros Hxv]. rewrite Hv.
  cstep vq ρ1 S1 Hq; [cbn [op_values]; rewrite (lift_un_map (fsqrt o)); reflexivity|].
  apply (tcomp_pure el ρ1 _ _ (MFloat w)); [by destruct s|]. apply tcomp_one; [done|]. intros one ρ2 S2 Hone Ht1.
  eapply tcomp_bind; [by apply tcomp_splat|]. intros ov ρ3 S3 [Ho Hot].
  assert (Hq3 : ρ3 !! v_id vq = Some (map_val (fsqrt o) x)) by (eapply lookup_weaken, S3; by eapply lookup_weaken).
  cstep vr ρ4 S4 Hr.
  { cbn [op_values]. rewrite (lift_bin_splat (fdiv o)) by by apply shaped_map. reflexivity. }
  apply computes_some. rewrite Hr. f_equal. destruct x as [b|d l]; simpl; [done|]. by rewrite <-list_fmap_compose.
Qed.

(** [codegen_add], [codegen_sub] and [codegen_div] of a scalar float and a float
    of any shape: a splat and the operation. *)
Lemma lift_float_arith infer (Hinfer : ∀ k t, infer k t t = t) scalar_int tensor_int float l r s b :
  v_ty l = MFloat 32 → v_ty r = with_shape s (MFloat 32) →
  lift (codegen_arith infer scalar_int tensor_int float l r) b =
    (v ← splat_scalar_const l (with_shape s (MFloat 32));
     w ← append1 (arith float) [v; r] (with_shape s (MFloat 32)); mret (Some w)) b.
Proof.
  intros Hl Hr. unfold lift, codegen_arith, align_operands, splat_scalar_const. rewrite Hl, Hr.
  destruct s as [d|]; simpl; unfold like_tensor, ranked_or_err, create, mbind, cg_bind;
    repeat (first [rewrite Hr|rewrite Hl|rewrite Hinfer]; simpl); rewrite ?Nat.add_1_r, <-?app_assoc; done.
Qed.
Lemma tcomp_float_arith infer (Hinfer : ∀ k t, infer k t t = t) scalar_int tensor_int float (f : A → A → A) ρ l r s c x :
  (∀ a b, el_bin el (arith float) a b = Some (f a b)) → v_ty l = MFloat 32 → v_ty r = with_shape s (MFloat 32) →
  ρ !! v_id l = Some (TScalar c) → ρ !! v_id r = Some x → shaped s x →
  tcomp el ρ (lift (codegen_arith infer scalar_int tensor_int float l r)) (λ q ρ', ∃ v, q = Some v ∧
    ρ' !! v_id v = Some (map_val (f c) x) ∧ v_ty v = with_shape s (MFloat 32)).
Proof.
  intros Hf Hl Hr Hlv Hrv Hx b Hb. rewrite (lift_float_arith infer Hinfer _ _ _ _ _ s) by done.
  revert b Hb. change (tcomp el ρ (v ← splat_scalar_const l (with_shape s (MFloat 32));
     w ← append1 (arith float) [v; r] (with_shape s (MFloat 32)); mret (Some w)) (λ q ρ', ∃ v, q = Some v ∧
    ρ' !! v_id v = Some (map_val (f c) x) ∧ v_ty v = with_shape s (MFloat 32))).
  eapply tcomp_bind; [by apply tcomp_splat|]. intros v ρ1 S1 [Hv Ht].
  assert (Hr1 : ρ1 !! v_id r = Some x) by by eapply lookup_weaken.
  cstep vr ρ2 S2 Hvr.
  { replace (op_values el (arith float) [splat_val s c; x] [with_shape s (MFloat 32)]) with
      (v ← lift_bin (el_bin el (arith float)) (splat_val s c) x; Some [v]) by by destruct float, s, x.
    replace (lift_bin (el_bin el (arith float)) (splat_val s c) x) with (lift_bin (λ a b, Some (f a b)) (splat_val s c) x).
    - rewrite lift_bin_splat by done. reflexivity.
    - unfold lift_bin. destruct (splat_val s c), x; try done; [by rewrite Hf|]. case_bool_decide; [|done]. f_equal.
      apply mapM_ext. intros p. by rewrite Hf. }
  apply tcomp_ret. by exists vr.
Qed.
Lemma tcomp_expected {C} ρ (m : tgen (option Value)) (P : Value → Vals → Prop) (f : Value → tgen C) Q :
  tcomp el ρ m (λ q ρ', ∃ v, q = Some v ∧ P v ρ') → (∀ v ρ', ρ ⊆ ρ' → P v ρ' → tcomp el ρ' (f v) Q) →
  tcomp el ρ ((m ≫= expect_value) ≫= f) Q.
Proof.
  intros Hm Hf. apply (tcomp_bind _ _ _ _ P); [|done]. eapply tcomp_bind; [exact Hm|].
  intros ? ρ' S (v & -> & Hv) b Hb. exists v, b, [], ρ'. rewrite app_nil_r. by split_and!.
Qed.

Lemma computes_sigmoid infer (Hinfer : ∀ k t, infer k t t = t) ρ a v x s : input ρ a v x →
  v_ty v = with_shape s (MFloat 32) → shaped s x →
  computes ρ (codegen_sigmoid_call tcx gargs infer fuel mir [a] st) (map_val (sigmoid o) x).
Proof.
  intros Ha Hv Hx. unfold codegen_sigmoid_call. assert (H32 : float_width 32) by (unfold float_width; lia).
  eapply tcomp_eval; [reflexivity|exact Ha|intros Hxv].
  eapply tcomp_append1; [apply List.Forall2_nil|reflexivity|]. intros z ρ1 S1 Hz Htz.
  eapply tcomp_expected; [eapply (tcomp_float_arith infer Hinfer _ _ _ (fsub o) _ _ _ s); [done|done|done|exact Hz|by eapply lookup_weaken|done]|].
  intros neg ρ2 S2 [Hneg Htn]. rewrite Htn.
  cstep ve ρ3 S3 He; [cbn [op_values]; rewrite (lift_un_map (fexp o)); reflexivity|].
  apply tcomp_one; [done|]. intros one ρ4 S4 Hone Hto.
  eapply tcomp_expected; [eapply (tcomp_float_arith infer Hinfer _ _ _ (fadd o) _ _ _ s); [done|done|done|exact Hone|by eapply lookup_weaken|by repeat apply shaped_map]|].
  intros plus ρ5 S5 [Hp Htp]. apply tcomp_one; [done|]. intros one' ρ6 S6 Hone' Hto'.
  intros b Hb.
  destruct (tcomp_float_arith infer Hinfer (create infer divsi) divsi divf (fdiv o) ρ6 one' plus s (fone o)
    (map_val (fadd o (fone o)) (map_val (fexp o) (map_val (fsub o (fzero o)) x)))) with (b := b)
    as (q & b' & new & ρ7 & E & Hn & Hx7 & Hu & S7 & r & -> & Hr & _); try done.
  { by eapply lookup_weaken. }
  { by repeat apply shaped_map. }
  exists (Some r), b', new, ρ7. split_and!; try done. exists r. split; [done|]. rewrite Hr. f_equal.
  destruct x as [c|d l]; simpl; [done|]. by rewrite <-!list_fmap_compose.
Qed.
End floats.

(** ** [cdiv] *)
Section cdiv.
Context (tcx : TyCtxt) (gargs : list GenericArg) (fuel : nat) (mir : Body) (st : TState) (w : Z) (Hw : 1 < w).
Lemma as_i_nonneg z : 0 <= z < 2 ^ (w - 1) → as_i w z = z.
Proof.
  intros Hz. assert (2 ^ (w - 1) < 2 ^ w) by (apply Z.pow_lt_mono_r; lia). unfold as_i. rewrite as_u_id by lia.
  by rewrite (proj2 (Z.ltb_lt _ _)) by lia.
Qed.
(** The ceiling of the quotient, for a numerator that does not overflow. *)
Lemma computes_cdiv ρ a b x y m n : input tcx mir st ρ a x (TScalar m) → input tcx mir st ρ b y (TScalar n) →
  v_ty x = MInt w → 0 <= m → 0 < n < 2 ^ (w - 1) → m + n - 1 < 2 ^ (w - 1) →
  computes (int_elems w) ρ (codegen_cdiv_call tcx gargs fuel mir [a; b] st) (TScalar ((m + n - 1) / n)).
Proof.
  intros Ha Hb Hx Hm Hn Hs. unfold codegen_cdiv_call.
  assert (Hp : 2 ^ (w - 1) < 2 ^ w) by (apply Z.pow_lt_mono_r; lia). assert (2 ^ 1 <= 2 ^ (w - 1)) by (apply Z.pow_le_mono_r; lia).
  eapply tcomp_eval; [reflexivity|exact Ha|intros Hxv]. eapply tcomp_eval; [reflexivity|exact Hb|intros Hyv].
  rewrite Hx. cbn [is_integer negb].
  eapply tcomp_append1; [apply List.Forall2_nil|reflexivity|]. intros one ρ1 S1 Hone _. rewrite as_u_id in Hone by lia.
  assert (Hx1 : ρ1 !! v_id x = Some (TScalar m)) by by eapply lookup_weaken.
  assert (Hy1 : ρ1 !! v_id y = Some (TScalar n)) by by eapply lookup_weaken.
  cstep vs ρ2 S2 Hsum; [simpl; rewrite as_u_id by lia; reflexivity|].
  assert (Ho2 : ρ2 !! v_id one = Some (TScalar 1)) by by eapply lookup_weaken.
  cstep vn ρ3 S3 Hnum; [simpl; rewrite as_u_id by lia; reflexivity|].
  assert (Hy3 : ρ3 !! v_id y = Some (TScalar n)) by (eapply lookup_weaken, S3; by eapply lookup_weaken).
  assert (Hle : (m + n - 1) / n <= m + n - 1) by (apply Z.div_le_upper_bound; nia).
  assert (H0 : 0 <= (m + n - 1) / n) by (apply Z.div_pos; lia).
  cstep vd ρ4 S4 Hd.
  { simpl. rewrite !as_i_nonneg, Z.quot_div_nonneg by lia. rewrite (proj2 (Z.eqb_neq _ _)), (proj2 (Z.eqb_neq _ _)) by lia.
    simpl. rewrite as_u_id by lia. reflexivity. }
  by apply computes_some.
Qed.
End cdiv.

(** ** Calls *)
Section calls.
Context (tcx : TyCtxt) (gargs : list GenericArg) (infer : ArithKind → MlirTy → MlirTy → MlirTy).
Context (fuel const_fuel : nat) (mir : Body).
Context (fn_output : DefId → Ty) (fn_ptr_output : Ty) (symbol_name : DefId → option string).
Context (destination : Place) (st : TState) (func : Operand).

(** The call [name args] is compiled to operations that, run on the values [ρ],
    give its results the values [ys]. *)
Definition call_runs {A} (el : Elems A) (ρ : gmap nat (TVal A)) (name : string) (args : list Operand) (ys : list (TVal A)) : Prop :=
  ∀ b, unused ρ (tb_next b) → ∃ r b' new ρ',
    call_handler tcx gargs infer fuel const_fuel mir fn_output fn_ptr_output symbol_name args destination st func name b
      = Ret (inr (r, b')) ∧
    tb_ops b' = tb_ops b ++ new ∧ exec_tops el ρ new = Some ρ' ∧ have ρ' (returned destination r) ys.

Lemma call_runs_tcomp {A} (el : Elems A) ρ name args ys :
  tcomp el ρ (call_handler tcx gargs infer fuel const_fuel mir fn_output fn_ptr_output symbol_name args destination st func name)
    (λ r ρ', have ρ' (returned destination r) ys) → call_runs el ρ name args ys.
Proof. intros H b Hb. destruct (H b Hb) as (r & b' & new & ρ' & E & Hn & Hx & _ & _ & Hr). by exists r, b', new, ρ'. Qed.
Lemma tcomp_pure_call {A} (el : Elems A) ρ m y :
  computes el ρ m y → tcomp el ρ (pure st m) (λ r ρ', have ρ' (returned destination r) [y]).
Proof.
  intros Hm. unfold pure. eapply tcomp_bind; [exact Hm|]. intros ? ρ' _ (v & -> & Hv). apply tcomp_ret. by constructor.
Qed.

(** C6: What the calls that expand to several operations compute, element by
    element, for any meaning of the arithmetic of floats: [softmax] of a vector,
    whatever its other three operands, is [exp(x - max x) / sum (exp(x - max x))];
    [sigmoid] of [f32] scalars and tensors is [1 / (1 + exp(0 - x))] (its constants
    are [f32]); [rsqrt] is [1 / sqrt(x)]; [interleave] puts element [i] of its
    operands at [2i] and [2i + 1] of a tensor whose last dimension is doubled;
    [split] of what [join] makes gives the operands of [join] back; and [cdiv] of
    integers [0 <= m] and [0 < n] whose sum does not overflow is the quotient
    rounded up. *)
Theorem tensor_calls_compute {A : Type} (o : FloatOps A) (ρ : gmap nat (TVal A)) (ρi : gmap nat (TVal Z))
    (Hinfer : ∀ k t, infer k t t = t) :
  (∀ a dim keep ieee v n w l, input tcx mir st ρ a v (TTensor [n] l) → v_ty v = MTensor [n] (MFloat w) → Z.of_nat (length l) = n → l ≠ [] →
     call_runs (float_elems o) ρ "triton::Triton::softmax" [a; dim; keep; ieee] [TTensor [n] (softmax o l)]) ∧
  (∀ a v x s, input tcx mir st ρ a v x → v_ty v = with_shape s (MFloat 32) → shaped s x →
     call_runs (float_elems o) ρ "triton::Triton::sigmoid" [a] [map_val (sigmoid o) x]) ∧
  (∀ a v x s w, input tcx mir st ρ a v x → v_ty v = with_shape s (MFloat w) → shaped s x → float_width w →
     call_runs (float_elems o) ρ "triton::Triton::rsqrt" [a] [map_val (rsqrt o) x]) ∧
  (∀ a b x y d n l l' e, input tcx mir st ρ a x (TTensor (d ++ [n]) l) → input tcx mir st ρ b y (TTensor (d ++ [n]) l') →
     v_ty x = MTensor (d ++ [n]) e → length l = length l' → 0 <= n < 2 ^ 62 →
     ∃ k, call_runs (float_elems o) ρ "triton::Triton::interleave" [a; b] [TTensor (d ++ [2 * n]) k] ∧
       ∀ i, k !! (2 * i)%nat = l !! i ∧ k !! (2 * i + 1)%nat = l' !! i) ∧
  (∀ a b x y d l l' e, input tcx mir st ρ a x (TTensor d l) → input tcx mir st ρ b y (TTensor d l') →
     v_ty x = MTensor d e → length l = length l' →
     ∃ z, call_runs (float_elems o) ρ "triton::Triton::join" [a; b] [z] ∧
       ∀ c v, input tcx mir st ρ c v z → v_ty v = MTensor (d ++ [2]) e →
         call_runs (float_elems o) ρ "triton::Triton::split" [c] [TTensor d l; TTensor d l']) ∧
  (∀ w a b x y m n, 1 < w → input tcx mir st ρi a x (TScalar m) → input tcx mir st ρi b y (TScalar n) → v_ty x = MInt w →
     0 <= m → 0 < n < 2 ^ (w - 1) → m + n - 1 < 2 ^ (w - 1) →
     call_runs (int_elems w) ρi "triton::Triton::cdiv" [a; b] [TScalar (- (- m / n))]).
Proof.
  split_and!.
  - intros. apply call_runs_tcomp. dispatch. apply tcomp_pure_call. by eapply computes_softmax.
  - intros. apply call_runs_tcomp. dispatch. apply tcomp_pure_call. by eapply computes_sigmoid.
  - intros. apply call_runs_tcomp. dispatch. apply tcomp_pure_call. by eapply computes_rsqrt.
  - intros. exists (riffle l l'). split; [|intros i; by apply riffle_lookup].
    apply call_runs_tcomp. dispatch. apply tcomp_pure_call. by eapply computes_interleave.
  - intros. exists (TTensor (d ++ [2]) (riffle l l')). split; [|intros c v Hc Hv]; apply call_runs_tcomp; dispatch.
    + apply tcomp_pure_call. by eapply computes_join.
    + replace [TTensor d l; TTensor d l'] with [TTensor d (unriffle (riffle l l')).1; TTensor d (unriffle (riffle l l')).2]
        by by rewrite unriffle_riffle. by eapply computes_split.
  - intros w a b x y m n Hw Ha Hb Hx Hm Hn Hs. apply call_runs_tcomp. dispatch. apply tcomp_pure_call.
    replace (- (- m / n)) with ((m + n - 1) / n); [by eapply computes_cdiv|].
    pose proof (Z.div_mod m n ltac:(lia)) as E. pose proof (Z.mod_pos_bound m n ltac:(lia)) as Hb'.
    set (q := m / n) in *. set (r := m `mod` n) in *. destruct (decide (r = 0)) as [Hr|Hr].
    + rewrite <-(Z.div_unique (m + n - 1) n q (n - 1)), <-(Z.div_unique (- m) n (- q) 0) by lia. lia.
    + rewrite <-(Z.div_unique (m + n - 1) n (q + 1) (r - 1)), <-(Z.div_unique (- m) n (- q - 1) (n - r)) by lia. lia.
Qed.
End calls.

(** Fixed point numbers with 6 fractional bits, powers of two as exponentials. *)
Definition fixed_point : FloatOps Z := {|
  fzero := 0; fone := 64; fadd := Z.add; fsub := Z.sub; fmul a b := a * b / 64; fdiv a b := 64 * a / b; fmax := Z.max;
  fexp a := Z.shiftl 64 (a / 64); fsqrt a := Z.sqrt (64 * a);
  freduce op l := match op with CMaximumf => foldr Z.max 0 l | _ => foldr Z.add 0 l end |}.

Lemma tensor_calls_compute_witness :
  ∃ r b' new ρ',
    kernel_call (replicate 2 (tensor_of (TyFloat F32))) (kernel_state [MTensor [3] (MFloat 32)]) "triton::Triton::softmax"
      (local_op 1 :: replicate 3 RuntimeChecks)
      = Ret (inr (r, b')) ∧
    tb_ops b' = new ∧ length new = 7%nat ∧
    exec_tops (float_elems fixed_point) {[ 0%nat := TTensor [3] [64; 128; 128] ]} new = Some ρ' ∧
    have ρ' (returned (mkPlace 0 []) r) [TTensor [3] [12; 25; 25]].
Proof.
  set (decls := replicate 2 (tensor_of (TyFloat F32))). set (st := kernel_state [MTensor [3] (MFloat 32)]).
  set (x := TTensor [3] [64; 128; 128] : TVal Z). set (ρ := {[ 0%nat := x ]} : gmap nat (TVal Z)).
  destruct (tensor_calls_compute kernel_tcx [] infer_left 3 3 (kernel_body decls) (λ _, TyTuple []) (TyTuple []) (λ _, None)
    (mkPlace 0 []) st RuntimeChecks fixed_point ρ ∅ ltac:(reflexivity)) as (Hsoftmax & _).
  destruct (Hsoftmax (local_op 1) RuntimeChecks RuntimeChecks RuntimeChecks (mkValue 0 (MTensor [3] (MFloat 32))) 3 32 [64; 128; 128]) with (b := mkTBlock 10 [])
    as (r & b' & new & ρ' & E & Hn & Hx & Hr).
  - split; [|reflexivity]. exists (mkPlace 1 []), (tensor_of (TyFloat F32)). repeat split; reflexivity.
  - reflexivity.
  - reflexivity.
  - discriminate.
  - intros i Hi. apply lookup_singleton_ne. simpl in Hi. lia.
  - exists r, b', new, ρ'. assert (E' := E). vm_compute in E'. injection E' as _ Hb. simpl in Hn.
    split; [exact E|]. split; [exact Hn|]. split; [by rewrite <-Hn, <-Hb|]. split; [exact Hx|exact Hr].
Defined.

(** ** Divergences *)
Section refuse.
Implicit Types (v x : Value) (d : list Z) (e t : MlirTy).

(** The computation returns, and has appended an operation the verifier refuses. *)
Definition appends {A} (m : tgen A) (P : list TOp → Prop) : Prop := ∀ b, ∃ a b' new,
  m b = Ret (inr (a, b')) ∧ tb_ops b' = tb_ops b ++ new ∧ P new.
Definition refuses {A} (m : tgen A) : Prop := appends m (λ new, ¬ Forall tt_ok new).
Definition goes_on {A} (m : tgen A) : Prop := appends m (λ _, True).

Lemma goes_on_ret {A} (a : A) : goes_on (mret a).
Proof. intros b. exists a, b, []. by rewrite app_nil_r. Qed.
Lemma appends_pure {A B} (m : tgen A) (f : A → tgen B) a P :
  (∀ b, m b = Ret (inr (a, b))) → appends (f a) P → appends (m ≫= f) P.
Proof. intros Hm Hf b. unfold mbind, cg_bind. rewrite Hm. apply Hf. Qed.
Lemma appends_eval tcx gargs fuel mir st fargs i op v {B} (f : Value → tgen B) P :
  fargs !! i = Some op → evaluates tcx mir st op v → appends (f v) P →
  appends (eval_arg tcx gargs fuel mir fargs i st ≫= f) P.
Proof. intros Hop Hv. apply appends_pure. intros b. by apply (eval_arg_eq tcx gargs fuel mir st fargs i op v b). Qed.

Lemma append1_run {B} k args ty (f : Value → tgen B) b : (append1 k args ty ≫= f) b =
  f (mkValue (tb_next b) ty) (mkTBlock (tb_next b + 1) (tb_ops b ++ [mkTOp [mkValue (tb_next b) ty] k args])).
Proof. reflexivity. Qed.
Lemma refuses_append1 {B} k args ty (f : Value → tgen B) :
  ¬ op_ok k (v_ty <$> args) [ty] → (∀ v, goes_on (f v)) → refuses (append1 k args ty ≫= f).
Proof.
  intros Hno Hf b. rewrite append1_run.
  destruct (Hf (mkValue (tb_next b) ty) (mkTBlock (tb_next b + 1) (tb_ops b ++ [mkTOp [mkValue (tb_next b) ty] k args])))
    as (a & b' & new & E & Hn & _).
  exists a, b', (mkTOp [mkValue (tb_next b) ty] k args :: new). rewrite E, Hn. simpl. rewrite <-app_assoc. split_and!; [done..|].
  by intros [Hok _]%Forall_cons.
Qed.
Lemma refuses_bind {A B} (m : tgen A) (f : A → tgen B) : refuses m → (∀ a, goes_on (f a)) → refuses (m ≫= f).
Proof.
  intros Hm Hf b. destruct (Hm b) as (a & b1 & n1 & E1 & H1 & Hno). destruct (Hf a b1) as (c & b2 & n2 & E2 & H2 & _).
  exists c, b2, (n1 ++ n2). unfold mbind, cg_bind. rewrite E1. simpl. rewrite E2, H2, H1, app_assoc. split_and!; [done..|].
  by intros [? _]%Forall_app.
Qed.
(** Operations before and after the one that is refused. *)
Lemma refuses_after {B} k args ty (f : Value → tgen B) :
  (∀ v, v_ty v = ty → refuses (f v)) → refuses (append1 k args ty ≫= f).
Proof.
  intros Hf b. rewrite append1_run.
  destruct (Hf (mkValue (tb_next b) ty) eq_refl (mkTBlock (tb_next b + 1) (tb_ops b ++ [mkTOp [mkValue (tb_next b) ty] k args])))
    as (a & b' & new & E & Hn & Hno).
  exists a, b', (mkTOp [mkValue (tb_next b) ty] k args :: new). rewrite E, Hn. simpl. rewrite <-app_assoc. split_and!; [done..|].
  by intros [_ Hok]%Forall_cons.
Qed.
Lemma goes_on_append1 {B} k args ty (f : Value → tgen B) : (∀ v, goes_on (f v)) → goes_on (append1 k args ty ≫= f).
Proof.
  intros Hf b. rewrite append1_run.
  destruct (Hf (mkValue (tb_next b) ty) (mkTBlock (tb_next b + 1) (tb_ops b ++ [mkTOp [mkValue (tb_next b) ty] k args])))
    as (a & b' & new & E & Hn & _).
  exists a, b', (mkTOp [mkValue (tb_next b) ty] k args :: new). rewrite E, Hn. simpl. by rewrite <-app_assoc.
Qed.
Lemma refuses_pure st (m : tgen (option Value)) : refuses m → refuses (pure st m).
Proof.
  intros Hm b. destruct (Hm b) as (a & b' & new & E & Hn & Hno). unfold pure, mbind, cg_bind. rewrite E.
  by exists (a, st), b', new.
Qed.
End refuse.

Ltac fold_refuses := lazymatch goal with |- @appends ?A ?m _ => change (@refuses A m) end.
Ltac rstep :=
  cbn beta;
  lazymatch goal with
  | |- refuses (pure _ _) => apply refuses_pure
  | |- refuses (expect_args _ _ ≫= _) => eapply appends_pure; [reflexivity|fold_refuses]
  | |- refuses (eval_arg _ _ _ _ _ _ _ ≫= _) => eapply appends_eval; [reflexivity|eassumption|fold_refuses]
  | |- goes_on (append1 _ _ _ ≫= _) => apply goes_on_append1; intros ?
  | |- goes_on (mret _) => apply goes_on_ret
  end.

Section divergences.
Context (tcx : TyCtxt) (gargs : list GenericArg) (infer : ArithKind → MlirTy → MlirTy → MlirTy).
Context (fuel const_fuel : nat) (mir : Body).
Context (fn_output : DefId → Ty) (fn_ptr_output : Ty) (symbol_name : DefId → option string).
Context (destination : Place) (st : TState) (func : Operand).
Abbreviation evaluates := (evaluates tcx mir st).
Abbreviation handle name args :=
  (call_handler tcx gargs infer fuel const_fuel mir fn_output fn_ptr_output symbol_name args destination st func name).

(** Calls that the signatures of the API allow, with the elements and shapes for
    which they go wrong. *)
Inductive call_refused : string → list Operand → Prop :=
  | bad_zeros_like a x d w : evaluates a x → v_ty x = MTensor d (MInt w) → w ≠ 32 →
      call_refused "triton::Triton::zeros_like" [a]
  | bad_cast a rounding bitcast x d w w' : evaluates a x → v_ty x = MTensor d (MInt w) →
      dest_is tcx fuel mir destination (MTensor [DYNAMIC] (MInt w')) → w < w' →
      call_refused "triton::Triton::cast" [a; rounding; bitcast]
  | bad_maximum a b x y : evaluates a x → evaluates b y → int_elem (v_ty x) → call_refused "triton::Triton::maximum" [a; b]
  | bad_abs a x : evaluates a x → int_elem (v_ty x) → call_refused "triton::Triton::abs" [a]
  | bad_clamp a b c x y z : evaluates a x → evaluates b y → evaluates c z → int_elem (v_ty x) →
      call_refused "triton::Triton::clamp" [a; b; c]
  | bad_lt a b x y d e : evaluates a x → evaluates b y → v_ty x = MTensor d e → v_ty y = MTensor d e → is_float e = true →
      call_refused "triton::types::Comparison::lt" [a; b]
  | bad_softmax a dim keep ieee x m d n e : evaluates a x → v_ty x = MTensor (m :: d ++ [n]) e →
      call_refused "triton::Triton::softmax" [a; dim; keep; ieee]
  | bad_cat a b reorder x y m n d m' n' d' e : evaluates a x → evaluates b y →
      v_ty x = MTensor (m :: n :: d) e → v_ty y = MTensor (m' :: n' :: d') e →
      Forall (λ p : Z * Z, - 2 ^ 63 <= p.1 + p.2 < 2 ^ 63) (zip (m :: n :: d) (m' :: n' :: d')) →
      call_refused "triton::Triton::cat" [a; b; reorder]
  | bad_expand_dims a n x d e axis : evaluates a x → const_i32 gargs n axis → v_ty x = MTensor d e →
      - Z.of_nat (length d) - 1 <= axis < 0 → call_refused "triton::Triton::expand_dims" [a; n]
  | bad_atomic name rmw p a m sem scope vp va vm : (name, rmw) ∈ [("triton::Triton::atomic_max", RmwMax); ("triton::Triton::atomic_min", RmwMin)] →
      evaluates p vp → evaluates a va → evaluates_option tcx mir st m vm → float_elem (v_ty va) →
      call_refused name [p; a; m; sem; scope].

Lemma int_not_float t : int_elem t → float_elem t → False.
Proof. unfold int_elem, float_elem. by destruct (elem_ty_from_type t). Qed.
Lemma refuses_atomic rmw p a m rest vp va vm : evaluates p vp → evaluates a va → evaluates_option tcx mir st m vm →
  ¬ rmw_ok rmw (v_ty va) → refuses (codegen_atomic_rmw_impl tcx gargs fuel mir rmw (p :: a :: m :: rest) st).
Proof.
  intros Hp Ha (ty & Ht & Ho & Hv) Hno. unfold codegen_atomic_rmw_impl. do 2 rstep.
  eapply (appends_pure _ _ vm).
  { intros b. unfold mask_arg. cbn [length Nat.ltb Nat.leb]. unfold eval_option_arg, farg, lift, codegen_option_operand, mbind, cg_bind, cg_lift.
    cbn [list_lookup lookup unwrap mbind outcome_bind]. rewrite Ht. cbn [mbind outcome_bind]. rewrite Ho. cbn [mbind outcome_bind]. rewrite Hv. destruct b. simpl. by rewrite app_nil_r. }
  apply refuses_append1; [|intros; rstep]. intros H. by destruct H as (_ & _ & H).
Qed.
Lemma reduced_matrix m d axis : axis ≠ 0 → reduced_dims axis (m :: d) ≠ [].
Proof. intros H. unfold reduced_dims. cbn [length seq zip zip_with]. rewrite filter_cons_True by (simpl; lia). done. Qed.
Lemma refuses_zeros_like a x d w : evaluates a x → v_ty x = MTensor d (MInt w) → w ≠ 32 →
  refuses (codegen_zeros_like tcx gargs fuel mir [a] st).
Proof.
  intros Ha Hx Hw. unfold codegen_zeros_like. do 2 rstep. rewrite Hx. eapply appends_pure; [reflexivity|]. fold_refuses.
  apply refuses_bind; [|intros; rstep]. cbn [snd]. unfold zero_tensor. simpl. intros b.
  eexists _, _, [_; _]. split; [reflexivity|]. split; [simpl; by rewrite <-app_assoc|].
  intros [_ [[_ (d' & [= _ E])] _]%Forall_cons]%Forall_cons. done.
Qed.
Lemma refuses_cast a rest x d w w' : evaluates a x → v_ty x = MTensor d (MInt w) →
  dest_is tcx fuel mir destination (MTensor [DYNAMIC] (MInt w')) → w < w' →
  refuses (codegen_cast_call tcx gargs fuel mir (a :: rest) destination st).
Proof.
  intros Ha Hx (ty & Hd & Ht) Hw. unfold codegen_cast_call. rstep.
  apply (appends_pure _ _ (MTensor [DYNAMIC] (MInt w'))).
  { intros b. unfold dest_mlir_ty, mbind, cg_bind, cg_lift. rewrite Hd. cbn [mbind outcome_bind]. by rewrite Ht. }
  apply (appends_pure _ _ (MTensor d (MInt w'))); [intros b; unfold cast_result_ty; simpl; by rewrite Hx|]. fold_refuses.
  rewrite bool_decide_false by (rewrite Hx; intros [= E]; lia).
  apply refuses_append1; [|intros; rstep]. unfold elem_ty. cbn [fmap list_fmap]. rewrite Hx. simpl.
  intros (_ & v & v' & [= <-] & [= <-] & Hlt). lia.
Qed.
Lemma refuses_lt a b x y d e : evaluates a x → evaluates b y → v_ty x = MTensor d e → v_ty y = MTensor d e → is_float e = true →
  refuses (binary_call tcx gargs fuel mir (codegen_cmpi SLT) [a; b] st).
Proof.
  intros Ha Hb Hx Hy He. unfold binary_call. do 3 rstep. intros blk.
  assert (El : lift (codegen_cmpi SLT x y) blk = Ret (inr (Some (mkValue (tb_next blk) (MTensor d (MInt 1))),
    mkTBlock (S (tb_next blk)) (tb_ops blk ++ [mkTOp [mkValue (tb_next blk) (MTensor d (MInt 1))] (arith (cmpi SLT)) [x; y]])))).
  { destruct x, y. simpl in *. subst. reflexivity. }
  rewrite El. eexists _, _, [_]. split; [reflexivity|]. split; [reflexivity|].
  intros [Hok _]%Forall_cons. unfold tt_ok in Hok. cbn in Hok. destruct Hok as (_ & Hi & _). rewrite Hx in Hi. unfold int_elem in Hi. simpl in Hi.
  by destruct e.
Qed.
Lemma refuses_softmax a rest x m d n e : evaluates a x → v_ty x = MTensor (m :: d ++ [n]) e →
  refuses (codegen_softmax_call tcx gargs fuel mir (a :: rest) st).
Proof.
  intros Ha Hx. unfold codegen_softmax_call. rstep. rewrite Hx. eapply appends_pure; [reflexivity|]. fold_refuses.
  cbn zeta. apply refuses_after. intros v Hv. apply refuses_append1; [|intros; repeat rstep].
  intros [Hno _]. revert Hno. cbn [v_ty]. rewrite Hv. unfold reduce_result_ty. rewrite Hx. cbn [ranked fst].
  destruct (reduced_dims _ _) eqn:E; [|done]. exfalso. revert E. apply reduced_matrix. simpl. rewrite length_app. simpl. lia.
Qed.
Lemma refuses_cat a b rest x y m n d m' n' d' e : evaluates a x → evaluates b y →
  v_ty x = MTensor (m :: n :: d) e → v_ty y = MTensor (m' :: n' :: d') e →
  Forall (λ p : Z * Z, - 2 ^ 63 <= p.1 + p.2 < 2 ^ 63) (zip (m :: n :: d) (m' :: n' :: d')) →
  refuses (codegen_cat_call tcx gargs fuel mir (a :: b :: rest) st).
Proof.
  intros Ha Hb Hx Hy Hs. unfold codegen_cat_call. do 2 rstep.
  eapply appends_pure; [rewrite Hx; reflexivity|]. eapply appends_pure; [rewrite Hy; reflexivity|].
  eapply appends_pure.
  { intros blk. unfold cg_lift. cbn [fst]. rewrite (omapM_total _ (λ p : Z * Z, p.1 + p.2)); [reflexivity|].
    intros p Hp. apply check_i64_ok. exact (proj1 (Forall_forall _ _) Hs p Hp). }
  apply refuses_append1; [|intros; rstep]. cbn [fmap list_fmap]. rewrite Hx. by intros [].
Qed.
Lemma refuses_expand_dims a n x d e axis : evaluates a x → const_i32 gargs n axis → v_ty x = MTensor d e →
  - Z.of_nat (length d) - 1 <= axis < 0 → refuses (codegen_expand_dims_call tcx gargs fuel mir [a; n] st).
Proof.
  intros Ha (s & Hs & Hn) Hx Hax. unfold codegen_expand_dims_call. rstep.
  eapply (appends_pure _ _ (Some s)); [intros b; unfold scalar_arg, farg, mbind, cg_bind, cg_lift; simpl; by rewrite Hs|].
  eapply (appends_pure _ _ axis); [intros b; unfold cg_lift; by rewrite Hn|]. rewrite Hx. cbn [ranked].
  rewrite (proj2 (Z.ltb_lt axis 0)) by lia. cbn zeta.
  eapply appends_pure.
  { intros b. unfold cg_lift, insert_dim. rewrite (proj2 (Z.leb_le _ _)), (proj2 (Z.leb_le _ _)) by lia. reflexivity. }
  apply refuses_append1; [|intros; rstep]. simpl. rewrite Hx. intros [H _]. lia.
Qed.


(** The reductions of a tensor with two dimensions or more, and the scans. *)
Lemma reduced_first m d : reduced_dims 0 (m :: d) = d.
Proof.
  unfold reduced_dims. cbn [length seq zip zip_with]. rewrite filter_cons_False by (simpl; lia).
  assert (H : ∀ k l, snd <$> filter (λ d : nat * Z, Z.of_nat d.1 ≠ 0) (zip (seq (S k) (length l)) l) = l).
  { intros k l. revert k. induction l as [|z l IH]; intros k; [done|]. cbn [length seq zip zip_with].
    rewrite filter_cons_True by (simpl; lia). rewrite fmap_cons. f_equal. apply IH. }
  apply H.
Qed.
Lemma bind_pure {A B} (m : tgen A) (f : A → tgen B) a b : m b = Ret (inr (a, b)) → (m ≫= f) b = f a b.
Proof. intros Hm. unfold mbind, cg_bind. by rewrite Hm. Qed.
Lemma reduce_run fop iop a axis k x keep m n d e b : evaluates a x → option_operand gargs axis → const_bool gargs k keep →
  v_ty x = MTensor (m :: n :: d) e →
  codegen_reduce_unary tcx gargs fuel mir fop iop [a; axis; k] st b =
    Ret (inr (Some (mkValue (tb_next b) (MTensor (n :: d) e)), mkTBlock (tb_next b + 1)
      (tb_ops b ++ [mkTOp [mkValue (tb_next b) (MTensor (n :: d) e)]
         (reduce 0 (build_reduce_region e (choose_float_int_op e fop iop))) [x]]))).
Proof.
  intros Ha [err Hax] Hk Hx. unfold codegen_reduce_unary.
  erewrite bind_pure by (by apply (eval_arg_eq tcx gargs fuel mir st [a; axis; k] 0 a x b)).
  rewrite (bind_pure _ _ 0).
  2: { unfold axis_arg, scalar_arg, farg, scalar_or, mbind, cg_bind, cg_lift. simpl. by rewrite Hax. }
  rewrite (bind_pure _ _ keep).
  2: { unfold scalar_arg, farg, scalar_or, mbind, cg_bind, cg_lift. simpl. rewrite Hk. by destruct keep. }
  cbn zeta. unfold elem_ty, reduce_result_ty. rewrite Hx. cbn [ranked elem_ty_from_type]. rewrite reduced_first, append1_run.
  cbn [v_ty is_tensor negb tensor_type]. by rewrite andb_false_r.
Qed.
Lemma scan_run fop iop a n reverse x axis b : evaluates a x → const_i32 gargs n axis →
  codegen_scan_unary tcx gargs fuel mir fop iop false [a; n; reverse] st b =
    Ret (inr (Some (mkValue (tb_next b) (v_ty x)), mkTBlock (tb_next b + 1)
      (tb_ops b ++ [mkTOp [mkValue (tb_next b) (v_ty x)]
         (scan axis false (build_scan_region (elem_ty x) (choose_float_int_op (elem_ty x) fop iop))) [x]]))).
Proof.
  intros Ha (s & Hs & Hn). unfold codegen_scan_unary.
  erewrite bind_pure by (by apply (eval_arg_eq tcx gargs fuel mir st [a; n; reverse] 0 a x b)).
  rewrite (bind_pure _ _ axis).
  2: { unfold axis_arg, scalar_arg, farg, scalar_or, mbind, cg_bind, cg_lift. simpl. rewrite Hs. simpl. by rewrite Hn. }
  by rewrite append1_run.
Qed.

(** C39: Operands the handlers do not read.  [sum], [max] and [min] of a tensor with
    two dimensions or more reduce the first one, whatever the [Option] that names
    the axis is, and drop it whatever [keep_dims] says; [cumsum] and [cumprod]
    scan forwards whatever [reverse] says. *)
Theorem tensor_operands_ignored name a axis c x b (Ha : evaluates a x) :
  (∀ keep m n d e, name ∈ reduce_calls → option_operand gargs axis → const_bool gargs c keep →
     v_ty x = MTensor (m :: n :: d) e →
     ∃ v b' rg, handle name [a; axis; c] b = Ret (inr ((Some v, st), b')) ∧
       tb_ops b' = tb_ops b ++ [mkTOp [v] (reduce 0 rg) [x]] ∧ v_ty v = MTensor (n :: d) e) ∧
  (∀ n, name ∈ scan_calls → const_i32 gargs axis n →
     ∃ v b' rg, handle name [a; axis; c] b = Ret (inr ((Some v, st), b')) ∧
       tb_ops b' = tb_ops b ++ [mkTOp [v] (scan n false rg) [x]] ∧ v_ty v = v_ty x).
Proof.
  split.
  - intros keep m n d e Hn Hax Hk Hx.
    each_call Hn; dispatch; unfold pure, codegen_sum_call, codegen_max_call, codegen_min_call, mbind, cg_bind;
      erewrite reduce_run by done; by eexists _, _, _.
  - intros n Hn Hax.
    each_call Hn; dispatch; unfold pure, codegen_cumsum_call, codegen_cumprod_call, mbind, cg_bind;
      erewrite scan_run by done; by eexists _, _, _.
Qed.
End divergences.

Definition f32_tensor : Ty := tensor_of (TyFloat F32).
Definition const_op (n size : Z) (ty : Ty) : Operand := Constant (ConstVal (CvScalar (ScalarInt_ (mkScalarInt n size))) ty).


(** [sum] of a 4x8 matrix along [Some(1)], keeping the dimension. *)
Lemma tensor_operands_ignored_witness :
  ∃ v b' rg,
    kernel_call [f32_tensor; f32_tensor; TyAdt 1 [TyInt I32]] (kernel_state [MTensor [4; 8] (MFloat 32)]) "triton::Triton::sum"
      [local_op 1; local_op 2; const_op 1 1 TyBool] = Ret (inr ((Some v, kernel_state [MTensor [4; 8] (MFloat 32)]), b')) ∧
    tb_ops b' = [mkTOp [v] (reduce 0 rg) [mkValue 0 (MTensor [4; 8] (MFloat 32))]] ∧ v_ty v = MTensor [8] (MFloat 32).
Proof.
  destruct (tensor_operands_ignored kernel_tcx [] infer_left 3 3 (kernel_body [f32_tensor; f32_tensor; TyAdt 1 [TyInt I32]]) (λ _, TyTuple []) (TyTuple [])
    (λ _, None) (mkPlace 0 []) (kernel_state [MTensor [4; 8] (MFloat 32)]) RuntimeChecks "triton::Triton::sum" (local_op 1) (local_op 2)
    (const_op 1 1 TyBool) (mkValue 0 (MTensor [4; 8] (MFloat 32))) (mkTBlock 10 [])) as [Hsum _].
  - exists (mkPlace 1 []), f32_tensor. repeat split; reflexivity.
  - apply (Hsum true 4 8 [] (MFloat 32)).
    + by left.
    + by eexists.
    + reflexivity.
    + reflexivity.
Defined.
