(* ===== verification/Leb128.v ===== *)
(** * LEB128

    [rustc_serialize/src/leb128.rs]: the variable-length encoding of integers,
    for every width, and [MemDecoder], the cursor of [opaque.rs] it is read
    from.  Overflow checks are on: a shift by the width or more panics. *)
From S2P Require Import Prelude.
#[local] Open Scope Z_scope.

(** ** The cursor *)
(** The slice from [start] to [end], and where in it [current] is. *)
Record MemDecoder := mkDecoder { dec_data : list Z; dec_current : nat }.
Definition advance (d : MemDecoder) (n : nat) : MemDecoder := mkDecoder (dec_data d) (dec_current d + n).
Definition remaining (d : MemDecoder) : nat := (length (dec_data d) - dec_current d)%nat.

Definition read_u8 (d : MemDecoder) : outcome (Z * MemDecoder) :=
  if (dec_current d =? length (dec_data d))%nat then Panic
  else byte ← unwrap (dec_data d !! dec_current d); Ret (byte, advance d 1).

(** ** Writing *)
(** [max_leb128_len] of a type of [w] bits: [w.div_ceil(7)]. *)
Definition max_leb128_len (w : Z) : nat := Z.to_nat ((w + (7 - 1)) / 7).
Definition largest_max_leb128_len : nat := max_leb128_len 128.

(** [*out.get_unchecked_mut(i) = byte]: out of bounds is undefined. *)
Definition set_unchecked (out : list Z) (i : nat) (byte : Z) : outcome (list Z) :=
  if (i <? length out)%nat then Ret (<[i := byte]> out) else Panic.

Definition write_unsigned_step (s : list Z * Z * nat) : outcome ((list Z * Z * nat) + (list Z * nat)) :=
  let '(out, value, i) := s in
  if value <? 0x80 then
    out' ← set_unchecked out i (as_u 8 value); Ret (inr (out', (i + 1)%nat))
  else
    out' ← set_unchecked out i (as_u 8 (Z.lor (Z.land value 0x7f) 0x80));
    Ret (inl (out', Z.shiftr value 7, (i + 1)%nat)).
Definition write_unsigned_leb128 (fuel : nat) (out : list Z) (value : Z) : outcome (list Z * nat) :=
  loop fuel write_unsigned_step (out, value, 0%nat).

Definition write_signed_step (s : list Z * Z * nat) : outcome ((list Z * Z * nat) + (list Z * nat)) :=
  let '(out, value, i) := s in
  let byte := Z.land (as_u 8 value) 0x7f in
  let value := Z.shiftr value 7 in
  let more := negb (((value =? 0) && (Z.land byte 0x40 =? 0)) || ((value =? -1) && negb (Z.land byte 0x40 =? 0))) in
  let byte := if more then Z.lor byte 0x80 else byte in
  out' ← set_unchecked out i byte;
  if more then Ret (inl (out', value, (i + 1)%nat)) else Ret (inr (out', (i + 1)%nat)).
Definition write_signed_leb128 (fuel : nat) (out : list Z) (value : Z) : outcome (list Z * nat) :=
  loop fuel write_signed_step (out, value, 0%nat).

(** ** Reading *)
(** [x << s] at an unsigned and a signed type of [w] bits. *)
Definition shl_u (w x s : Z) : outcome Z := if s <? w then Ret (as_u w (Z.shiftl x s)) else Panic.
Definition shl_i (w x s : Z) : outcome Z := if s <? w then Ret (as_i w (Z.shiftl x s)) else Panic.

Definition read_unsigned_step (w : Z) (s : Z * Z * MemDecoder) : outcome ((Z * Z * MemDecoder) + (Z * MemDecoder)) :=
  let '(result, shift, d) := s in
  r ← read_u8 d;
  let '(byte, d) := r in
  if Z.land byte 0x80 =? 0 then
    part ← shl_u w (as_u w byte) shift; Ret (inr (Z.lor result part, d))
  else
    part ← shl_u w (as_u w (Z.land byte 0x7f)) shift; Ret (inl (Z.lor result part, shift + 7, d)).
Definition read_unsigned_leb128 (w : Z) (fuel : nat) (d : MemDecoder) : outcome (Z * MemDecoder) :=
  r ← read_u8 d;
  let '(byte, d) := r in
  if Z.land byte 0x80 =? 0 then Ret (as_u w byte, d)
  else loop fuel (read_unsigned_step w) (as_u w (Z.land byte 0x7f), 7, d).

Definition read_signed_step (w : Z) (s : Z * Z * MemDecoder) : outcome ((Z * Z * MemDecoder) + (Z * Z * Z * MemDecoder)) :=
  let '(result, shift, d) := s in
  r ← read_u8 d;
  let '(byte, d) := r in
  part ← shl_i w (as_i w (Z.land byte 0x7f)) shift;
  let result := Z.lor result part in
  let shift := shift + 7 in
  Ret (if Z.land byte 0x80 =? 0 then inr (result, shift, byte, d) else inl (result, shift, d)).
(** What follows the loop: sign extension when the last byte has its sign bit. *)
Definition read_signed_finish (w : Z) (s : Z * Z * Z * MemDecoder) : outcome (Z * MemDecoder) :=
  let '(result, shift, byte, d) := s in
  if (shift <? w) && negb (Z.land byte 0x40 =? 0) then
    ones ← shl_i w (-1) shift; Ret (Z.lor result ones, d)
  else Ret (result, d).
Definition read_signed_leb128 (w : Z) (fuel : nat) (d : MemDecoder) : outcome (Z * MemDecoder) :=
  r ← loop fuel (read_signed_step w) (0, 0, d);
  read_signed_finish w r.

(** ** Fuel: a write takes a round per byte of its buffer, a read consumes the input *)
Definition write_fuel (w : Z) : nat := max_leb128_len w.
Definition read_fuel (d : MemDecoder) : nat := S (remaining d).

(** ** The encoding *)
(** The bytes of a value, least significant group of seven bits first. *)
Fixpoint uleb (n : nat) (v : Z) : list Z :=
  match n with
  | O => []
  | S n' => if v <? 128 then [v] else (v mod 128 + 128) :: uleb n' (v / 128)
  end.
Fixpoint sleb (n : nat) (v : Z) : list Z :=
  match n with
  | O => []
  | S n' => if (-64 <=? v) && (v <? 64) then [v mod 128] else (v mod 128 + 128) :: sleb n' (v / 128)
  end.
Definition uleb128 (w v : Z) : list Z := uleb (max_leb128_len w) v.
Definition sleb128 (w v : Z) : list Z := sleb (max_leb128_len w) v.

(** The widths of Rust's integers that are encoded this way. *)
Definition leb_width (w : Z) : Prop := w = 16 ∨ w = 32 ∨ w = 64 ∨ w = 128.

(** The decoder stands before these bytes. *)
Definition before (d : MemDecoder) (l : list Z) : Prop := drop (dec_current d) (dec_data d) = l.
Definition is_byte (b : Z) : Prop := 0 ≤ b < 256.

(** ** Bits of a byte *)
Lemma byte_forall (P : Z → bool) : forallb P (seqZ 0 256) = true → ∀ b, is_byte b → P b = true.
Proof. intros H b Hb. rewrite forallb_forall in H. apply H. apply list_elem_of_In, elem_of_seqZ. unfold is_byte in Hb. lia. Qed.

Lemma byte_stop b : is_byte b → (Z.land b 0x80 =? 0) = (b <? 128).
Proof.
  intros Hb. apply eqb_true_iff. revert b Hb.
  apply (byte_forall (λ b, eqb (Z.land b 0x80 =? 0) (b <? 128))). vm_compute. reflexivity.
Qed.
Lemma byte_sign b : is_byte b → (Z.land (Z.land b 0x7f) 0x40 =? 0) = (b mod 128 <? 64) ∧ (Z.land b 0x40 =? 0) = (b mod 128 <? 64).
Proof.
  intros Hb. split; apply eqb_true_iff; revert b Hb.
  - apply (byte_forall (λ b, eqb (Z.land (Z.land b 0x7f) 0x40 =? 0) (b mod 128 <? 64))). vm_compute. reflexivity.
  - apply (byte_forall (λ b, eqb (Z.land b 0x40 =? 0) (b mod 128 <? 64))). vm_compute. reflexivity.
Qed.
Lemma low_bits v : Z.land v 0x7f = v mod 128.
Proof. change 0x7f with (Z.ones 7). by rewrite Z.land_ones. Qed.
Lemma byte_more b : 0 ≤ b < 128 → Z.lor b 0x80 = b + 128.
Proof.
  intros Hb. apply Z.eqb_eq. assert (Hbyte : is_byte b) by (unfold is_byte; lia).
  pose proof (byte_forall (λ b, implb (b <? 128) (Z.lor b 0x80 =? b + 128)) ltac:(vm_compute; reflexivity) b Hbyte) as H.
  cbv beta in H. destruct (Z.ltb_spec b 128); [done|lia].
Qed.
Lemma shiftr_7 v : Z.shiftr v 7 = v / 128.
Proof. by rewrite Z.shiftr_div_pow2. Qed.
Lemma mod_128 v : 0 ≤ v mod 128 < 128.
Proof. by apply Z.mod_pos_bound. Qed.
Lemma as_u_8_mod v : as_u 8 v mod 128 = v mod 128.
Proof. unfold as_u. change (2 ^ 8) with (2 * 128). apply Z.mod_mod_divide. by exists 2. Qed.

Lemma testbit_above s r k : 0 ≤ s → 0 ≤ r < 2 ^ s → s ≤ k → Z.testbit r k = false.
Proof. intros Hs Hr Hk. rewrite <- (Z.mod_small r (2 ^ s)) by lia. by apply Z.mod_pow2_bits_high. Qed.

(** A part above [s] bits is added. *)
Lemma lor_above r a s : 0 ≤ s → 0 ≤ r < 2 ^ s → Z.lor r (a * 2 ^ s) = a * 2 ^ s + r.
Proof.
  intros Hs Hr. rewrite <- Z.shiftl_mul_pow2 by done. rewrite Z.lor_comm, Z.add_nocarry_lxor.
  - apply Z.bits_inj'. intros k Hk. rewrite Z.lor_spec, Z.lxor_spec.
    destruct (Z.ltb_spec k s).
    + rewrite Z.shiftl_spec_low by done. by rewrite xorb_false_l.
    + assert (Z.testbit r k = false) as -> by (apply (testbit_above s); lia). by rewrite orb_false_r, xorb_false_r.
  - apply Z.bits_inj'. intros k Hk. rewrite Z.land_spec, Z.bits_0. destruct (Z.ltb_spec k s).
    + by rewrite Z.shiftl_spec_low.
    + assert (Z.testbit r k = false) as -> by (apply (testbit_above s); lia). by rewrite andb_false_r.
Qed.

(** ** Writing *)
(** [l] is placed at [i]. *)
Definition placed (out : list Z) (i : nat) (l : list Z) (out' : list Z) : Prop :=
  take i out' = take i out ∧ take (length l) (drop i out') = l ∧ length out' = length out.

Lemma set_unchecked_ok out i b : (i < length out)%nat → set_unchecked out i b = Ret (<[i := b]> out).
Proof. intros H. unfold set_unchecked. by rewrite (proj2 (Nat.ltb_lt _ _) H). Qed.

Lemma placed_one out i b : (i < length out)%nat → placed out i [b] (<[i := b]> out).
Proof.
  intros H. split_and!; [by rewrite take_insert_ge| |by rewrite length_insert].
  simpl. rewrite (drop_S _ b) by (by rewrite list_lookup_insert_eq). done.
Qed.
Lemma placed_cons out i b l out' : (i < length out)%nat → placed (<[i := b]> out) (i + 1) l out' → placed out i (b :: l) out'.
Proof.
  intros Hi (Ht & Hl & Hn). rewrite length_insert in Hn.
  assert (Hb : out' !! i = Some b).
  { rewrite <- (lookup_take_lt out' (i + 1)) by lia. rewrite Ht, lookup_take_lt by lia. by apply list_lookup_insert_eq. }
  split_and!; [| |done].
  - apply (f_equal (take i)) in Ht. rewrite !take_take in Ht. replace (i `min` (i + 1))%nat with i in Ht by lia.
    by rewrite Ht, take_insert_ge.
  - rewrite (drop_S _ b) by done. cbn [length take]. f_equal. by replace (S i) with (i + 1)%nat by lia.
Qed.

Lemma pow_7 n : 2 ^ (7 * Z.of_nat (S n)) = 128 * 2 ^ (7 * Z.of_nat n).
Proof. replace (7 * Z.of_nat (S n)) with (7 + 7 * Z.of_nat n) by lia. by rewrite Z.pow_add_r by lia. Qed.

Lemma write_unsigned_step_eq out v i : (i < length out)%nat →
  write_unsigned_step (out, v, i) =
    if v <? 128 then Ret (inr (<[i := as_u 8 v]> out, (i + 1)%nat))
    else Ret (inl (<[i := v mod 128 + 128]> out, v / 128, (i + 1)%nat)).
Proof.
  intros Hi. unfold write_unsigned_step. rewrite !set_unchecked_ok by done. rewrite low_bits, byte_more by apply mod_128.
  pose proof (mod_128 v). by rewrite (as_u_id _ (_ + 128)), shiftr_7 by lia.
Qed.
Lemma write_unsigned_ok n : ∀ out v i, (1 ≤ n)%nat → 0 ≤ v < 2 ^ (7 * Z.of_nat n) → (i + n ≤ length out)%nat →
  ∃ out', loop n write_unsigned_step (out, v, i) = Ret (out', (i + length (uleb n v))%nat) ∧ placed out i (uleb n v) out'.
Proof.
  induction n as [|n IH]; intros out v i Hn Hv Hlen; [lia|]. rewrite pow_7 in Hv.
  cbn [loop uleb]. rewrite write_unsigned_step_eq by lia. destruct (Z.ltb_spec v 128).
  - cbn [mbind outcome_bind length]. rewrite as_u_id by lia. eexists. split; [done|]. apply placed_one. lia.
  - cbn [mbind outcome_bind length]. assert (Hd : 1 ≤ v / 128 < 2 ^ (7 * Z.of_nat n)) by (split; [apply Z.div_le_lower_bound; lia|apply Z.div_lt_upper_bound; lia]).
    assert (1 ≤ n)%nat by (destruct n; [change (2 ^ (7 * Z.of_nat 0)) with 1 in Hd; lia|lia]).
    destruct (IH (<[i := v mod 128 + 128]> out) (v / 128) (i + 1)%nat) as (out' & E & Hp);
      [done|lia|rewrite length_insert; lia|].
    exists out'. split; [by rewrite E, <- Nat.add_assoc|]. apply placed_cons; [lia|done].
Qed.

Lemma signed_byte v : Z.land (as_u 8 v) 0x7f = v mod 128.
Proof. by rewrite low_bits, as_u_8_mod. Qed.

Lemma write_more v : let byte := v mod 128 in
  (((v / 128 =? 0) && (Z.land byte 0x40 =? 0)) || ((v / 128 =? -1) && negb (Z.land byte 0x40 =? 0))) = ((-64 <=? v) && (v <? 64)).
Proof.
  cbv zeta. pose proof (mod_128 v). destruct (byte_sign (v mod 128)) as [_ ->]; [unfold is_byte; lia|]. rewrite Z.mod_mod by lia.
  pose proof (Z.div_mod v 128 ltac:(lia)).
  destruct (Z.eqb_spec (v / 128) 0), (Z.eqb_spec (v / 128) (-1)), (Z.ltb_spec (v mod 128) 64), (Z.leb_spec (-64) v), (Z.ltb_spec v 64); simpl; done || lia.
Qed.

Lemma write_signed_step_eq out v i : (i < length out)%nat →
  write_signed_step (out, v, i) =
    if (-64 <=? v) && (v <? 64) then Ret (inr (<[i := v mod 128]> out, (i + 1)%nat))
    else Ret (inl (<[i := v mod 128 + 128]> out, v / 128, (i + 1)%nat)).
Proof.
  intros Hi. unfold write_signed_step. rewrite signed_byte, shiftr_7, write_more, set_unchecked_ok by done.
  rewrite byte_more by apply mod_128. by destruct ((-64 <=? v) && (v <? 64)).
Qed.

Lemma pow_7_half n : (1 ≤ n)%nat → 2 ^ (7 * Z.of_nat (S n) - 1) = 128 * 2 ^ (7 * Z.of_nat n - 1).
Proof. intros. replace (7 * Z.of_nat (S n) - 1) with (7 + (7 * Z.of_nat n - 1)) by lia. by rewrite Z.pow_add_r by lia. Qed.

Lemma write_signed_ok n : ∀ out v i, (1 ≤ n)%nat → - 2 ^ (7 * Z.of_nat n - 1) ≤ v < 2 ^ (7 * Z.of_nat n - 1) → (i + n ≤ length out)%nat →
  ∃ out', loop n write_signed_step (out, v, i) = Ret (out', (i + length (sleb n v))%nat) ∧ placed out i (sleb n v) out'.
Proof.
  induction n as [|n IH]; intros out v i Hn Hv Hlen; [lia|].
  cbn [loop sleb]. rewrite write_signed_step_eq by lia.
  destruct ((-64 <=? v) && (v <? 64)) eqn:E; cbn [mbind outcome_bind length].
  - eexists. split; [done|]. apply placed_one. lia.
  -    assert (Hn1 : (1 ≤ n)%nat) by (destruct n; [change (2 ^ (7 * Z.of_nat 1 - 1)) with 64 in Hv; lia|lia]).
    rewrite pow_7_half in Hv by done.
    destruct (IH (<[i := v mod 128 + 128]> out) (v / 128) (i + 1)%nat) as (out' & E' & Hp); [done| |rewrite length_insert; lia|].
    { split; [apply Z.div_le_lower_bound; lia|apply Z.div_lt_upper_bound; lia]. }
    exists out'. split; [by rewrite E', <- Nat.add_assoc|]. apply placed_cons; [lia|done].
Qed.

(** ** Reading *)
Lemma before_advance d l1 l2 : before d (l1 ++ l2) → before (advance d (length l1)) l2.
Proof. unfold before, advance. simpl. intros H. by rewrite <- drop_drop, H, drop_app_length. Qed.
Lemma before_cons d b l : before d (b :: l) → read_u8 d = Ret (b, advance d 1) ∧ before (advance d 1) l.
Proof.
  intros H. split; [|by apply (before_advance d [b])]. unfold before in H. unfold read_u8.
  assert (Hl : dec_data d !! dec_current d = Some b) by (rewrite <- (Nat.add_0_r (dec_current d)), <- lookup_drop, H; done).
  pose proof (lookup_lt_Some _ _ _ Hl). rewrite (proj2 (Nat.eqb_neq _ _)) by lia. by rewrite Hl.
Qed.
Lemma advance_advance d n m : advance (advance d n) m = advance d (n + m).
Proof. unfold advance. simpl. by rewrite Nat.add_assoc. Qed.
Lemma before_remaining d l : before d l → (length l <= remaining d)%nat.
Proof. intros <-. unfold remaining. rewrite length_drop. lia. Qed.

(** One round on a last byte, and on one that is followed by others. *)
Lemma read_unsigned_last w r s d b l : before d (b :: l) → 0 ≤ b < 128 → 0 ≤ s < w → 0 ≤ r < 2 ^ s → b * 2 ^ s < 2 ^ w →
  read_unsigned_step w (r, s, d) = Ret (inr (b * 2 ^ s + r, advance d 1)).
Proof.
  intros [E _]%before_cons Hb Hs Hr Hw. unfold read_unsigned_step. rewrite E. cbn [mbind outcome_bind].
  rewrite byte_stop by (unfold is_byte; lia). rewrite (proj2 (Z.ltb_lt _ _)) by lia. unfold shl_u.
  rewrite (proj2 (Z.ltb_lt s w)) by lia. assert (1 ≤ 2 ^ s) by (pose proof (Z.pow_pos_nonneg 2 s); lia).
  cbn [mbind outcome_bind]. rewrite (as_u_id w b), Z.shiftl_mul_pow2, as_u_id by nia. by rewrite lor_above by lia.
Qed.
Lemma read_unsigned_more w r s d b l : before d (b + 128 :: l) → 0 ≤ b < 128 → 0 ≤ s < w → 0 ≤ r < 2 ^ s → b * 2 ^ s < 2 ^ w →
  read_unsigned_step w (r, s, d) = Ret (inl (b * 2 ^ s + r, s + 7, advance d 1)).
Proof.
  intros [E _]%before_cons Hb Hs Hr Hw. unfold read_unsigned_step. rewrite E. cbn [mbind outcome_bind].
  rewrite byte_stop by (unfold is_byte; lia). rewrite (proj2 (Z.ltb_ge _ _)) by lia. unfold shl_u. rewrite low_bits.
  assert ((b + 128) mod 128 = b) as -> by (replace (b + 128) with (b + 1 * 128) by lia; rewrite Z_mod_plus_full; apply Z.mod_small; lia).
  rewrite (proj2 (Z.ltb_lt s w)) by lia. assert (1 ≤ 2 ^ s) by (pose proof (Z.pow_pos_nonneg 2 s); lia).
  cbn [mbind outcome_bind]. rewrite (as_u_id w b), Z.shiftl_mul_pow2, as_u_id by nia. by rewrite lor_above by lia.
Qed.

Lemma pow_plus_7 s : 0 ≤ s → 2 ^ (s + 7) = 128 * 2 ^ s.
Proof. intros. rewrite Z.pow_add_r by lia. lia. Qed.
Lemma split_7 v s r : v / 128 * 2 ^ s * 128 + (v mod 128 * 2 ^ s + r) = v * 2 ^ s + r.
Proof. rewrite (Z.div_mod v 128) at 3 by lia. ring. Qed.

Lemma read_unsigned_loop w n : ∀ v r s d rest fuel, (1 ≤ n)%nat → 0 ≤ v < 2 ^ (7 * Z.of_nat n) → 0 ≤ s < w → 0 ≤ r < 2 ^ s →
  v * 2 ^ s + r < 2 ^ w → before d (uleb n v ++ rest) → (length (uleb n v) ≤ fuel)%nat →
  loop fuel (read_unsigned_step w) (r, s, d) = Ret (v * 2 ^ s + r, advance d (length (uleb n v))).
Proof.
  induction n as [|n IH]; intros v r s d rest fuel Hn Hv Hs Hr Hw Hd Hf; [lia|]. cbn [uleb] in *. rewrite pow_7 in Hv.
  destruct (Z.ltb_spec v 128); (destruct fuel as [|fuel]; [simpl in Hf; lia|]); cbn [loop length] in *.
  - by rewrite (read_unsigned_last _ _ _ _ _ _ Hd) by lia.
  - pose proof (mod_128 v). pose proof (Z.div_mod v 128 ltac:(lia)). assert (0 < 2 ^ s) by (apply Z.pow_pos_nonneg; lia).
    assert (Hq : 1 ≤ v / 128 < 2 ^ (7 * Z.of_nat n)) by (split; [apply Z.div_le_lower_bound; lia|apply Z.div_lt_upper_bound; lia]).
    assert (1 ≤ n)%nat by (destruct n; [change (2 ^ (7 * Z.of_nat 0)) with 1 in Hq; lia|lia]).
    rewrite (read_unsigned_more w r s d _ _ Hd) by (lia || nia). cbn [mbind outcome_bind].
    assert (Hs7 : s + 7 < w) by (apply (Z.pow_lt_mono_r_iff 2); [lia..|]; rewrite pow_plus_7 by lia; nia).
    rewrite (IH (v / 128) _ _ _ rest); [|done|lia|lia| | |exact (before_advance _ [v mod 128 + 128] _ Hd)|lia].
    + rewrite advance_advance, pow_plus_7 by lia. do 2 f_equal. by rewrite <- (split_7 v s r), (Z.mul_comm 128), Z.mul_assoc.
    + rewrite pow_plus_7 by lia. nia.
    + rewrite pow_plus_7 by lia. pose proof (split_7 v s r). nia.
Qed.

Lemma signed_id w x : 1 ≤ w → - 2 ^ (w - 1) ≤ x < 2 ^ (w - 1) → as_i w x = x.
Proof.
  intros Hw Hx. unfold as_i, as_u. assert (E : 2 ^ w = 2 * 2 ^ (w - 1)) by (rewrite <- Z.pow_succ_r by lia; f_equal; lia).
  rewrite E. destruct (Z.ltb_spec x 0).
  - rewrite <- (Z_mod_plus_full x 1), Z.mul_1_l, Z.mod_small by lia. destruct (Z.ltb_spec (x + 2 * 2 ^ (w - 1)) (2 ^ (w - 1))); lia.
  - rewrite Z.mod_small by lia. destruct (Z.ltb_spec x (2 ^ (w - 1))); lia.
Qed.
Lemma as_i_plus w x k : as_i w (x + k * 2 ^ w) = as_i w x.
Proof. unfold as_i, as_u. by rewrite Z_mod_plus_full. Qed.

Lemma seven_bits v : -64 ≤ v < 64 → v mod 128 = if v <? 0 then v + 128 else v.
Proof.
  intros Hv. destruct (Z.ltb_spec v 0); [|apply Z.mod_small; lia].
  rewrite <- (Z_mod_plus_full v 1). apply Z.mod_small. lia.
Qed.

Section signed.
Context (w : Z) (Hw : 8 ≤ w).
(** The value [v] above [s] bits [r] is an integer of the width. *)
Definition fits (v r s : Z) : Prop :=
  0 ≤ s < w ∧ 0 ≤ r < 2 ^ s ∧ - 2 ^ (w - 1) ≤ v * 2 ^ s + r < 2 ^ (w - 1).

Lemma fits_pow s : 0 ≤ s < w → 2 ^ (w - 1) = 2 ^ (w - 1 - s) * 2 ^ s ∧ 1 ≤ 2 ^ s ∧ 1 ≤ 2 ^ (w - 1 - s).
Proof.
  intros Hs. rewrite <- Z.pow_add_r by lia. split; [f_equal; lia|].
  split; [pose proof (Z.pow_pos_nonneg 2 s); lia|pose proof (Z.pow_pos_nonneg 2 (w - 1 - s)); lia].
Qed.
Lemma fits_high v r s : fits v r s → - 2 ^ (w - 1) ≤ v * 2 ^ s < 2 ^ (w - 1).
Proof. intros (Hs & Hr & Hv). destruct (fits_pow s Hs) as (E & ? & ?). rewrite E in Hv |- *.
  set (P := 2 ^ s) in *. set (K := 2 ^ (w - 1 - s)) in *. assert (- K ≤ v) by nia. nia. Qed.

(** A value that does not fit in seven bits leaves room for more. *)
Lemma fits_more v r s : fits v r s → ¬ (-64 ≤ v < 64) → fits (v / 128) (v mod 128 * 2 ^ s + r) (s + 7) ∧ v mod 128 * 2 ^ s < 2 ^ (w - 1).
Proof.
  intros Hf Hv. pose proof (fits_high _ _ _ Hf) as Hh. destruct Hf as (Hs & Hr & Ho). pose proof (mod_128 v).
  destruct (fits_pow s Hs) as (E & ? & ?).
  assert (Hs7 : s + 7 < w).
  { assert (64 * 2 ^ s < 2 ^ (w - 1)) by nia.
    assert (s + 6 < w - 1); [|lia]. apply (Z.pow_lt_mono_r_iff 2); [lia..|]. rewrite Z.pow_add_r by lia. lia. }
  assert (128 * 2 ^ s ≤ 2 ^ (w - 1)) by (rewrite <- (pow_plus_7 s) by lia; apply Z.pow_le_mono_r; lia).
  split; [|nia]. split_and!; [lia..|nia|rewrite pow_plus_7 by lia; nia| |].
  - rewrite pow_plus_7 by lia. rewrite (Z.mul_comm 128), Z.mul_assoc, split_7. lia.
  - rewrite pow_plus_7 by lia. rewrite (Z.mul_comm 128), Z.mul_assoc, split_7. lia.
Qed.

Lemma read_signed_byte r s d b l : before d (b :: l) → is_byte b → 0 ≤ s < w →
  read_signed_step w (r, s, d) =
    let result := Z.lor r (as_i w (b mod 128 * 2 ^ s)) in
    Ret (if b <? 128 then inr (result, s + 7, b, advance d 1) else inl (result, s + 7, advance d 1)).
Proof.
  intros [E _]%before_cons Hb Hs. unfold read_signed_step. rewrite E. cbn [mbind outcome_bind]. rewrite byte_stop by done.
  unfold shl_i. rewrite low_bits, (proj2 (Z.ltb_lt s w)) by lia. cbn [mbind outcome_bind].
  pose proof (mod_128 b). assert (2 ^ 7 ≤ 2 ^ (w - 1)) by (apply Z.pow_le_mono_r; lia).
  by rewrite (signed_id w (b mod 128)), Z.shiftl_mul_pow2 by lia.
Qed.

Lemma read_signed_last r s d v l : fits v r s → -64 ≤ v < 64 → before d (v mod 128 :: l) →
  ∃ res b, read_signed_step w (r, s, d) = Ret (inr (res, s + 7, b, advance d 1)) ∧
    read_signed_finish w (res, s + 7, b, advance d 1) = Ret (v * 2 ^ s + r, advance d 1).
Proof.
  intros Hf Hv Hd. pose proof (fits_high _ _ _ Hf) as Hh. destruct Hf as (Hs & Hr & Ho).
  pose proof (mod_128 v) as Hm. assert (Hbyte : is_byte (v mod 128)) by (unfold is_byte; lia).
  rewrite (read_signed_byte _ _ _ _ _ Hd) by done. rewrite Z.mod_mod by lia. rewrite (proj2 (Z.ltb_lt _ _)) by lia.
  eexists _, _. split; [done|]. unfold read_signed_finish. destruct (byte_sign _ Hbyte) as [_ ->]. rewrite Z.mod_mod by lia.
  rewrite (seven_bits v) in * by done. destruct (fits_pow s Hs) as (E & ? & ?).
  destruct (Z.ltb_spec (s + 7) w) as [Hlt|Hge].
  - assert (128 * 2 ^ s ≤ 2 ^ (w - 1)) by (rewrite <- (pow_plus_7 s) by lia; apply Z.pow_le_mono_r; lia).
    destruct (Z.ltb_spec v 0).
    + rewrite (proj2 (Z.ltb_ge (v + 128) 64)) by lia. cbn [negb andb]. unfold shl_i. rewrite (proj2 (Z.ltb_lt (s + 7) w)) by lia.
      cbn [mbind outcome_bind]. rewrite Z.shiftl_mul_pow2 by lia. rewrite (signed_id w ((v + 128) * 2 ^ s)) by nia.
      rewrite (signed_id w (-1 * 2 ^ (s + 7))) by (rewrite ?pow_plus_7 by lia; nia).
      rewrite (lor_above r (v + 128) s) by lia.
      rewrite lor_above; [|lia|rewrite pow_plus_7 by lia; nia]. rewrite pow_plus_7 by lia. do 2 f_equal. lia.
    + rewrite (proj2 (Z.ltb_lt v 64)) by lia. cbn [negb andb]. rewrite signed_id by nia. by rewrite lor_above by lia.
  - cbn [andb]. assert (as_i w ((if v <? 0 then v + 128 else v) * 2 ^ s) = v * 2 ^ s) as ->; [|by rewrite lor_above by lia].
    destruct (Z.ltb_spec v 0); [|by apply signed_id; lia].
    replace ((v + 128) * 2 ^ s) with (v * 2 ^ s + 2 ^ (s + 7 - w) * 2 ^ w).
    + rewrite as_i_plus. apply signed_id; lia.
    + rewrite <- Z.pow_add_r by lia. replace (s + 7 - w + w) with (s + 7) by lia. rewrite pow_plus_7 by lia. lia.
Qed.

Lemma read_signed_loop n : ∀ v r s d rest fuel, (1 ≤ n)%nat → - 2 ^ (7 * Z.of_nat n - 1) ≤ v < 2 ^ (7 * Z.of_nat n - 1) →
  fits v r s → before d (sleb n v ++ rest) → (length (sleb n v) ≤ fuel)%nat →
  (x ← loop fuel (read_signed_step w) (r, s, d); read_signed_finish w x) = Ret (v * 2 ^ s + r, advance d (length (sleb n v))).
Proof.
  induction n as [|n IH]; intros v r s d rest fuel Hn Hv Hf Hd Hfuel; [lia|]. cbn [sleb] in *.
  destruct ((-64 <=? v) && (v <? 64)) eqn:E; (destruct fuel as [|fuel]; [simpl in Hfuel; lia|]); cbn [loop length] in *.
  - destruct (read_signed_last r s d v rest Hf ltac:(lia) Hd) as (res & b & E1 & E2). rewrite E1. exact E2.
  - assert (Hn1 : (1 ≤ n)%nat) by (destruct n; [change (2 ^ (7 * Z.of_nat 1 - 1)) with 64 in Hv; lia|lia]).
    rewrite pow_7_half in Hv by done. destruct (fits_more v r s Hf ltac:(lia)) as [Hf' Hsmall]. pose proof (mod_128 v).
    pose proof Hf as (Hs & Hr & _). destruct (fits_pow s Hs) as (_ & ? & _).
    rewrite (read_signed_byte r s d _ _ Hd) by (unfold is_byte; lia). rewrite (proj2 (Z.ltb_ge _ _)) by lia.
    assert ((v mod 128 + 128) mod 128 = v mod 128) as -> by
      (rewrite <- (Z.mul_1_l 128) at 2; rewrite Z_mod_plus_full; by apply Z.mod_mod).
    rewrite signed_id, lor_above by nia. cbn [mbind outcome_bind].
    rewrite (IH (v / 128) (v mod 128 * 2 ^ s + r) (s + 7) (advance d 1) rest fuel); [|done| |exact Hf'|exact (before_advance _ [v mod 128 + 128] _ Hd)|lia].
    + rewrite advance_advance, pow_plus_7 by lia. do 2 f_equal. by rewrite <- (split_7 v s r), (Z.mul_comm 128), Z.mul_assoc.
    + split; [apply Z.div_le_lower_bound; lia|apply Z.div_lt_upper_bound; lia].
Qed.
End signed.

(** ** Whole integers *)
Lemma leb_width_bounds w : leb_width w → 8 ≤ w ∧ (1 ≤ max_leb128_len w)%nat ∧ w ≤ 7 * Z.of_nat (max_leb128_len w).
Proof. intros [-> | [-> | [-> | ->]]]; vm_compute; repeat split; congruence || lia. Qed.

Lemma length_uleb n v : (length (uleb n v) ≤ n)%nat.
Proof. revert v. induction n as [|n IH]; intros v; simpl; [done|]. destruct (v <? 128); simpl; [lia|]. pose proof (IH (v / 128)). lia. Qed.
Lemma length_sleb n v : (length (sleb n v) ≤ n)%nat.
Proof.
  revert v. induction n as [|n IH]; intros v; simpl; [done|].
  destruct ((-64 <=? v) && (v <? 64)); simpl; [lia|]. pose proof (IH (v / 128)). lia.
Qed.
Lemma uleb_bytes n v : 0 ≤ v → Forall is_byte (uleb n v).
Proof.
  revert v. induction n as [|n IH]; intros v Hv; simpl; [done|]. pose proof (mod_128 v). unfold is_byte in *.
  destruct (Z.ltb_spec v 128); repeat constructor; try lia. apply IH. by apply Z.div_pos.
Qed.
Lemma sleb_bytes n v : Forall is_byte (sleb n v).
Proof.
  revert v. induction n as [|n IH]; intros v; simpl; [done|]. pose proof (mod_128 v). unfold is_byte in *.
  destruct ((-64 <=? v) && (v <? 64)); repeat constructor; try lia. apply IH.
Qed.

Section whole.
Context (w : Z) (Hwidth : leb_width w).

Lemma write_unsigned_leb128_ok out v : 0 ≤ v < 2 ^ w → length out = max_leb128_len w →
  ∃ out', write_unsigned_leb128 (write_fuel w) out v = Ret (out', length (uleb128 w v)) ∧
    take (length (uleb128 w v)) out' = uleb128 w v ∧ length out' = length out.
Proof.
  destruct (leb_width_bounds w Hwidth) as (? & ? & ?). intros Hv Hout.
  assert (2 ^ w ≤ 2 ^ (7 * Z.of_nat (max_leb128_len w))) by (apply Z.pow_le_mono_r; lia).
  destruct (write_unsigned_ok (max_leb128_len w) out v 0) as (out' & E & _ & Ht & Hl); [done|lia|lia|]. by exists out'.
Qed.
Lemma write_signed_leb128_ok out v : - 2 ^ (w - 1) ≤ v < 2 ^ (w - 1) → length out = max_leb128_len w →
  ∃ out', write_signed_leb128 (write_fuel w) out v = Ret (out', length (sleb128 w v)) ∧
    take (length (sleb128 w v)) out' = sleb128 w v ∧ length out' = length out.
Proof.
  destruct (leb_width_bounds w Hwidth) as (? & ? & ?). intros Hv Hout.
  assert (2 ^ (w - 1) ≤ 2 ^ (7 * Z.of_nat (max_leb128_len w) - 1)) by (apply Z.pow_le_mono_r; lia).
  destruct (write_signed_ok (max_leb128_len w) out v 0) as (out' & E & _ & Ht & Hl); [done|lia|lia|]. by exists out'.
Qed.

Lemma read_unsigned_leb128_ok v d rest : 0 ≤ v < 2 ^ w → before d (uleb128 w v ++ rest) →
  read_unsigned_leb128 w (read_fuel d) d = Ret (v, advance d (length (uleb128 w v))).
Proof.
  destruct (leb_width_bounds w Hwidth) as (Hw & Hn & Hcover). intros Hv Hd.
  assert (Hpow : 2 ^ w ≤ 2 ^ (7 * Z.of_nat (max_leb128_len w))) by (apply Z.pow_le_mono_r; lia).
  pose proof (before_remaining d _ Hd) as Hrem. rewrite length_app in Hrem.
  unfold read_unsigned_leb128, read_fuel. unfold uleb128 in *. destruct (max_leb128_len w) as [|n]; [lia|]. cbn [uleb] in *.
  assert (2 ^ 8 ≤ 2 ^ w) by (apply Z.pow_le_mono_r; lia). change (2 ^ 8) with 256 in *.
  destruct (Z.ltb_spec v 128); (pose proof (before_cons d _ _ Hd) as [-> Hd']); cbn [mbind outcome_bind].
  - rewrite byte_stop by (unfold is_byte; lia). rewrite (proj2 (Z.ltb_lt _ _)) by lia. by rewrite as_u_id by lia.
  - pose proof (mod_128 v). rewrite byte_stop by (unfold is_byte; lia). rewrite (proj2 (Z.ltb_ge _ _)) by lia.
    rewrite low_bits. assert ((v mod 128 + 128) mod 128 = v mod 128) as -> by
      (rewrite <- (Z.mul_1_l 128) at 2; rewrite Z_mod_plus_full; by apply Z.mod_mod).
    rewrite pow_7 in Hpow. pose proof (Z.div_mod v 128 ltac:(lia)).
    assert (Hq : 1 ≤ v / 128 < 2 ^ (7 * Z.of_nat n)) by (split; [apply Z.div_le_lower_bound; lia|apply Z.div_lt_upper_bound; lia]).
    assert (1 ≤ n)%nat by (destruct n; [change (2 ^ (7 * Z.of_nat 0)) with 1 in Hq; lia|lia]).
    cbn [length] in Hrem. rewrite as_u_id by lia.
    rewrite (read_unsigned_loop w n (v / 128) (v mod 128) 7 (advance d 1) rest); change (2 ^ 7) with 128; try lia; [|done].
    rewrite advance_advance. do 2 f_equal. lia.
Qed.

Lemma read_signed_leb128_ok v d rest : - 2 ^ (w - 1) ≤ v < 2 ^ (w - 1) → before d (sleb128 w v ++ rest) →
  read_signed_leb128 w (read_fuel d) d = Ret (v, advance d (length (sleb128 w v))).
Proof.
  destruct (leb_width_bounds w Hwidth) as (? & ? & ?). intros Hv Hd.
  assert (2 ^ (w - 1) ≤ 2 ^ (7 * Z.of_nat (max_leb128_len w) - 1)) by (apply Z.pow_le_mono_r; lia).
  pose proof (before_remaining d _ Hd) as Hrem. rewrite length_app in Hrem.
  unfold read_signed_leb128, read_fuel, sleb128 in *.
  rewrite (read_signed_loop w ltac:(lia) (max_leb128_len w) v 0 0 d rest); [do 2 f_equal; lia|done|lia| |done|lia].
  unfold fits. change (2 ^ 0) with 1. lia.
Qed.
End whole.

(** ** Any input: a reader returns or panics *)
Lemma loop_ends {St R} (step : St → outcome (St + R)) (m : St → nat) :
  (∀ s, step s ≠ Diverge) → (∀ s s', step s = Ret (inl s') → (m s' < m s)%nat) →
  ∀ fuel s, (m s < fuel)%nat → loop fuel step s ≠ Diverge.
Proof.
  intros Hs Hm. induction fuel as [|fuel IH]; intros s Hf; [lia|]. simpl. pose proof (Hs s). pose proof (Hm s).
  destruct (step s) as [[s'|r]| |]; simpl; try done. apply IH. specialize (H0 s' eq_refl). lia.
Qed.
Lemma read_u8_consumes d b d' : read_u8 d = Ret (b, d') → (remaining d' < remaining d)%nat.
Proof.
  unfold read_u8. case_match; [done|]. destruct (_ !! _) eqn:E; [|done]. intros [= <- <-]. apply lookup_lt_Some in E.
  unfold remaining, advance. simpl. lia.
Qed.
Lemma read_u8_ends d : read_u8 d ≠ Diverge.
Proof. unfold read_u8. case_match; [done|]. by destruct (_ !! _). Qed.

Lemma read_unsigned_ends w d : read_unsigned_leb128 w (read_fuel d) d ≠ Diverge.
Proof.
  unfold read_unsigned_leb128. pose proof (read_u8_ends d). destruct (read_u8 d) as [[b d']| |] eqn:E; try done. cbn [mbind outcome_bind].
  destruct (Z.land b 0x80 =? 0); [done|]. apply (loop_ends _ (λ s, remaining s.2)).
  - intros [[r s] d1]. unfold read_unsigned_step, shl_u. pose proof (read_u8_ends d1).
    destruct (read_u8 d1) as [[b1 d1']| |]; try done. simpl. by destruct (Z.land b1 0x80 =? 0), (s <? w).
  - intros [[r s] d1] [[r' s'] d2]. unfold read_unsigned_step, shl_u.
    destruct (read_u8 d1) as [[b1 d1']| |] eqn:E1; try done. simpl. apply read_u8_consumes in E1.
    destruct (Z.land b1 0x80 =? 0), (s <? w); simpl; try done. by intros [= <- <- <-].
  - apply read_u8_consumes in E. simpl. unfold read_fuel. lia.
Qed.
Lemma read_signed_ends w d : read_signed_leb128 w (read_fuel d) d ≠ Diverge.
Proof.
  unfold read_signed_leb128. assert (loop (read_fuel d) (read_signed_step w) (0, 0, d) ≠ Diverge).
  { apply (loop_ends _ (λ s, remaining s.2)); [..|simpl; unfold read_fuel; lia].
    - intros [[r s] d1]. unfold read_signed_step, shl_i. pose proof (read_u8_ends d1).
      destruct (read_u8 d1) as [[b1 d1']| |]; try done. simpl. by destruct (s <? w).
    - intros [[r s] d1] [[r' s'] d2]. unfold read_signed_step, shl_i.
      destruct (read_u8 d1) as [[b1 d1']| |] eqn:E1; try done. simpl. apply read_u8_consumes in E1.
      destruct (s <? w); simpl; [|done]. destruct (Z.land b1 0x80 =? 0); [done|]. by intros [= <- <- <-]. }
  destruct (loop _ _ _) as [[[[r s] b] d']| |]; try done. simpl. unfold shl_i. case_match; [|done]. by destruct (s <? w).
Qed.

(** ** Truncated input: a reader panics *)
Definition strict_prefix (l l' : list Z) : Prop := ∃ t, t ≠ [] ∧ l' = l ++ t.
(** Bytes that announce another one. *)
Definition continues (b : Z) : Prop := 128 ≤ b < 256.

Lemma strict_prefix_cons l b l' : strict_prefix l (b :: l') → l = [] ∨ ∃ l1, l = b :: l1 ∧ strict_prefix l1 l'.
Proof.
  intros (t & Ht & E). destruct l as [|c l1]; [by left|]. right. injection E as -> ->. exists l1. split; [done|]. by exists t.
Qed.
Lemma strict_prefix_nil l : ¬ strict_prefix l [].
Proof. intros (t & Ht & E). by apply eq_sym, app_eq_nil in E as [_ ->]. Qed.
Lemma strict_prefix_app l a b : strict_prefix l (a ++ b) → strict_prefix l a ∨ ∃ l1, l = a ++ l1 ∧ strict_prefix l1 b.
Proof.
  revert l. induction a as [|x a IH]; intros l Hl; [right; by exists l|].
  apply strict_prefix_cons in Hl as [-> |(l1 & -> & Hl)]; [left; by exists (x :: a)|].
  destruct (IH l1 Hl) as [(t & Ht & ->)|(l2 & -> & H2)]; [left; by exists t|right; by exists l2].
Qed.

Lemma uleb_continues n : ∀ v l, strict_prefix l (uleb n v) → Forall continues l.
Proof.
  induction n as [|n IH]; intros v l Hl; simpl in Hl; [by apply strict_prefix_nil in Hl|]. pose proof (mod_128 v).
  destruct (v <? 128); apply strict_prefix_cons in Hl as [-> |(l1 & -> & Hl)]; try done.
  - by apply strict_prefix_nil in Hl.
  - constructor; [unfold continues; lia|by apply (IH (v / 128))].
Qed.
Lemma sleb_continues n : ∀ v l, strict_prefix l (sleb n v) → Forall continues l.
Proof.
  induction n as [|n IH]; intros v l Hl; simpl in Hl; [by apply strict_prefix_nil in Hl|]. pose proof (mod_128 v).
  destruct ((-64 <=? v) && (v <? 64)); apply strict_prefix_cons in Hl as [-> |(l1 & -> & Hl)]; try done.
  - by apply strict_prefix_nil in Hl.
  - constructor; [unfold continues; lia|by apply (IH (v / 128))].
Qed.

Lemma read_u8_end d : before d [] → read_u8 d = Panic.
Proof.
  intros H. unfold read_u8. case_match eqn:E; [done|]. rewrite lookup_ge_None_2; [done|].
  apply (f_equal length) in H. rewrite length_drop in H. simpl in H. lia.
Qed.
Lemma before_length d l : before d l → remaining d = length l.
Proof. intros <-. unfold remaining. by rewrite length_drop. Qed.

Lemma read_unsigned_step_continues w r s d b l : before d (b :: l) → continues b →
  read_unsigned_step w (r, s, d) = Panic ∨ ∃ r', read_unsigned_step w (r, s, d) = Ret (inl (r', s + 7, advance d 1)).
Proof.
  intros [E _]%before_cons Hb. unfold continues in Hb. unfold read_unsigned_step, shl_u. rewrite E. cbn [mbind outcome_bind].
  rewrite byte_stop by (unfold is_byte; lia). rewrite (proj2 (Z.ltb_ge _ _)) by lia. destruct (s <? w); [right; by eexists|by left].
Qed.
Lemma read_unsigned_continues w l : ∀ fuel r s d, Forall continues l → before d l → (length l < fuel)%nat →
  loop fuel (read_unsigned_step w) (r, s, d) = Panic.
Proof.
  induction l as [|b l IH]; intros fuel r s d Hl Hd Hf; (destruct fuel as [|fuel]; [simpl in Hf; lia|]); cbn [loop].
  - assert (read_unsigned_step w (r, s, d) = Panic) as ->; [|done]. unfold read_unsigned_step. by rewrite read_u8_end.
  - apply Forall_cons in Hl as [Hb Hl]. destruct (read_unsigned_step_continues w r s d b l Hd Hb) as [-> | [r' ->]]; [done|].
    apply IH; [done|by apply before_cons in Hd as [_ Hd]|simpl in Hf; lia].
Qed.
Lemma read_signed_step_continues w r s d b l : before d (b :: l) → continues b →
  read_signed_step w (r, s, d) = Panic ∨ ∃ r', read_signed_step w (r, s, d) = Ret (inl (r', s + 7, advance d 1)).
Proof.
  intros [E _]%before_cons Hb. unfold continues in Hb. unfold read_signed_step, shl_i. rewrite E. cbn [mbind outcome_bind].
  rewrite byte_stop by (unfold is_byte; lia). rewrite (proj2 (Z.ltb_ge _ _)) by lia. destruct (s <? w); [right; by eexists|by left].
Qed.
Lemma read_signed_continues w l : ∀ fuel r s d, Forall continues l → before d l → (length l < fuel)%nat →
  loop fuel (read_signed_step w) (r, s, d) = Panic.
Proof.
  induction l as [|b l IH]; intros fuel r s d Hl Hd Hf; (destruct fuel as [|fuel]; [simpl in Hf; lia|]); cbn [loop].
  - assert (read_signed_step w (r, s, d) = Panic) as ->; [|done]. unfold read_signed_step. by rewrite read_u8_end.
  - apply Forall_cons in Hl as [Hb Hl]. destruct (read_signed_step_continues w r s d b l Hd Hb) as [-> | [r' ->]]; [done|].
    apply IH; [done|by apply before_cons in Hd as [_ Hd]|simpl in Hf; lia].
Qed.

Lemma read_unsigned_truncated w v d l : strict_prefix l (uleb128 w v) → before d l →
  read_unsigned_leb128 w (read_fuel d) d = Panic.
Proof.
  intros Hl%uleb_continues Hd. unfold read_unsigned_leb128, read_fuel. rewrite (before_length d l Hd).
  destruct l as [|b l]; [by rewrite read_u8_end|]. apply Forall_cons in Hl as [Hb Hl]. unfold continues in Hb.
  apply before_cons in Hd as [-> Hd]. cbn [mbind outcome_bind]. rewrite byte_stop by (unfold is_byte; lia).
  rewrite (proj2 (Z.ltb_ge _ _)) by lia. apply (read_unsigned_continues w l); [done|done|simpl; lia].
Qed.
Lemma read_signed_truncated w v d l : strict_prefix l (sleb128 w v) → before d l →
  read_signed_leb128 w (read_fuel d) d = Panic.
Proof.
  intros Hl%sleb_continues Hd. unfold read_signed_leb128, read_fuel. rewrite (before_length d l Hd).
  by rewrite (read_signed_continues w l) by (done || lia).
Qed.
