(* ===== verification/Opaque.v ===== *)
(** * The opaque encoders and the memory decoder

    [rustc_serialize/src/opaque.rs] and [opaque/mem_encoder.rs]: [FileEncoder],
    which buffers, flushes and delays its I/O errors, [MemEncoder], and
    [MemDecoder].  Both encoders provide [write_with] and a write of raw bytes
    ([Sink]), from which the methods of the trait [Encoder] are derived by the
    same macros.

    Writing to a file is a parameter ([FileOps]): a write either appends or
    fails.  The flush strategy is a parameter too: a function of its own state. *)
From S2P Require Import Prelude Leb128.
#[local] Open Scope Z_scope.

(** [to_le_bytes] and [from_le_bytes] *)
Fixpoint le_bytes (n : nat) (v : Z) : list Z :=
  match n with O => [] | S n' => v mod 256 :: le_bytes n' (v / 256) end.
Fixpoint from_le_bytes (l : list Z) : Z :=
  match l with [] => 0 | b :: l' => b + 256 * from_le_bytes l' end.

(** [rust-end-file] *)
Definition MAGIC_END_BYTES : list Z := [114; 117; 115; 116; 45; 101; 110; 100; 45; 102; 105; 108; 101].

(** A function that is given a buffer of a fixed size and returns how many of
    its first bytes it wrote. *)
Definition BufVisitor := list Z → outcome (list Z * nat).

(** ** The trait [Encoder] *)
Class Sink (E : Type) := {
  write_with : nat → BufVisitor → E → outcome E;
  emit_raw_bytes : list Z → E → outcome E }.

Section encoder.
Context {E : Type} `{!Sink E}.

(** [write_with] of a whole array. *)
Definition write_array (bs : list Z) (e : E) : outcome E :=
  write_with (length bs) (λ _, Ret (bs, length bs)) e.
(** The macro [write_leb128!], for unsigned and signed integers of [w] bits. *)
Definition emit_unsigned (w v : Z) (e : E) : outcome E :=
  write_with (max_leb128_len w) (λ buf, write_unsigned_leb128 (write_fuel w) buf v) e.
Definition emit_signed (w v : Z) (e : E) : outcome E :=
  write_with (max_leb128_len w) (λ buf, write_signed_leb128 (write_fuel w) buf v) e.

Definition emit_usize (v : Z) : E → outcome E := emit_unsigned 64 v.
Definition emit_u128 (v : Z) : E → outcome E := emit_unsigned 128 v.
Definition emit_u64 (v : Z) : E → outcome E := emit_unsigned 64 v.
Definition emit_u32 (v : Z) : E → outcome E := emit_unsigned 32 v.
Definition emit_u16 (v : Z) : E → outcome E := write_array (le_bytes 2 v).
Definition emit_u8 (v : Z) : E → outcome E := write_array [v].
Definition emit_isize (v : Z) : E → outcome E := emit_signed 64 v.
Definition emit_i128 (v : Z) : E → outcome E := emit_signed 128 v.
Definition emit_i64 (v : Z) : E → outcome E := emit_signed 64 v.
Definition emit_i32 (v : Z) : E → outcome E := emit_signed 32 v.
Definition emit_i16 (v : Z) : E → outcome E := write_array (le_bytes 2 (as_u 16 v)).

(** The methods that the trait provides. *)
Definition emit_i8 (v : Z) : E → outcome E := emit_u8 (as_u 8 v).
Definition emit_bool (v : bool) : E → outcome E := emit_u8 (if v then 1 else 0).
Definition emit_char (v : Z) : E → outcome E := emit_u32 v.
Definition STR_SENTINEL : Z := 0xC1.
Definition BYTE_STR_SENTINEL : Z := 0xC2.
Definition emit_str (v : list Z) (e : E) : outcome E :=
  e ← emit_usize (Z.of_nat (length v)) e;
  e ← emit_raw_bytes v e;
  emit_u8 STR_SENTINEL e.
Definition emit_byte_str (v : list Z) (e : E) : outcome E :=
  e ← emit_usize (Z.of_nat (length v)) e;
  e ← emit_raw_bytes v e;
  emit_u8 BYTE_STR_SENTINEL e.
End encoder.

(** ** [MemEncoder] *)
Record MemEncoder := mkMemEncoder { me_data : list Z }.
Module MemEnc.
Definition new : MemEncoder := mkMemEncoder [].
Definition position (e : MemEncoder) : nat := length (me_data e).
Definition finish (e : MemEncoder) : list Z := me_data e.
Definition write_with (n : nat) (visitor : BufVisitor) (e : MemEncoder) : outcome MemEncoder :=
  r ← visitor (replicate n 0);
  let '(buf, written) := r in
  if (n <? written)%nat then Panic else Ret (mkMemEncoder (me_data e ++ take written buf)).
Definition emit_raw_bytes (s : list Z) (e : MemEncoder) : outcome MemEncoder := Ret (mkMemEncoder (me_data e ++ s)).
End MemEnc.
#[export] Instance mem_sink : Sink MemEncoder := {|
  write_with := MemEnc.write_with; emit_raw_bytes := MemEnc.emit_raw_bytes |}.

(** ** [FileEncoder] *)
Definition BUF_SIZE : nat := Z.to_nat (64 * 1024).
#[global] Opaque BUF_SIZE.

(** [File::write_all]: the file after the call, and the error. *)
Class FileOps (File IoError : Type) := { file_write_all : File → list Z → File * option IoError }.

(** [buf[..n]] and [buf.get_mut(..n)] *)
Definition prefix (l : list Z) (n : nat) : option (list Z) := if (n <=? length l)%nat then Some (take n l) else None.

Module FileEnc.
Section file.
Context {File IoError Strategy : Type} `{!FileOps File IoError} (call : Strategy → list Z → Strategy).

Record FileEncoder := mkFileEncoder {
  buf : list Z; buffered : nat; flushed : nat; file : File; res : option IoError; path : string;
  flush_strategy : option Strategy; finished : bool }.
Definition set_buf (bs : list Z) (n : nat) (e : FileEncoder) : FileEncoder :=
  mkFileEncoder bs n (flushed e) (file e) (res e) (path e) (flush_strategy e) (finished e).
Definition set_file (f : File) (r : option IoError) (e : FileEncoder) : FileEncoder :=
  mkFileEncoder (buf e) (buffered e) (flushed e) f r (path e) (flush_strategy e) (finished e).
Definition set_flushed (n : nat) (e : FileEncoder) : FileEncoder :=
  mkFileEncoder (buf e) (buffered e) n (file e) (res e) (path e) (flush_strategy e) (finished e).
Definition set_finished (b : bool) (e : FileEncoder) : FileEncoder :=
  mkFileEncoder (buf e) (buffered e) (flushed e) (file e) (res e) (path e) (flush_strategy e) b.
Definition call_strategy (bs : list Z) (e : FileEncoder) : FileEncoder :=
  mkFileEncoder (buf e) (buffered e) (flushed e) (file e) (res e) (path e)
    (option_map (λ f, call f bs) (flush_strategy e)) (finished e).
(** [if self.res.is_ok() { self.res = self.file.write_all(bs) }] *)
Definition try_write (bs : list Z) (e : FileEncoder) : FileEncoder :=
  match res e with
  | None => let '(f, r) := file_write_all (file e) bs in set_file f r e
  | Some _ => e
  end.

(** [new] and [with_flush_strategy], once the file is open. *)
Definition new (p : string) (f : File) (strategy : option Strategy) : FileEncoder :=
  mkFileEncoder (replicate BUF_SIZE 0) 0 0 f None p strategy false.
Definition position (e : FileEncoder) : nat := flushed e + buffered e.

Definition flush (e : FileEncoder) : outcome FileEncoder :=
  let e := set_finished false e in
  bs ← unwrap (prefix (buf e) (buffered e));
  let e := try_write bs e in
  let e := set_flushed (flushed e + buffered e) e in
  let e := call_strategy bs e in
  Ret (set_buf (buf e) 0 e).

(** [self.buf.get_unchecked_mut(self.buffered..)] *)
Definition buffer_empty (e : FileEncoder) : outcome (list Z) :=
  if (buffered e <=? length (buf e))%nat then Ret (drop (buffered e) (buf e)) else Panic.
(** Bytes [bs] are written to the buffer from [buffered] on. *)
Definition copy_at (bs : list Z) (e : FileEncoder) : list Z :=
  take (buffered e) (buf e) ++ bs ++ drop (buffered e + length bs) (buf e).

Definition write_all_cold_path (bs : list Z) (e : FileEncoder) : outcome FileEncoder :=
  e ← flush e;
  match prefix (buf e) (length bs) with
  | Some _ => Ret (set_buf (bs ++ drop (length bs) (buf e)) (buffered e + length bs) e)
  | None =>
      let e := match res e with None => call_strategy bs (try_write bs e) | Some _ => e end in
      Ret (set_flushed (flushed e + length bs) e)
  end.
Definition write_all (bs : list Z) (e : FileEncoder) : outcome FileEncoder :=
  let e := set_finished false e in
  empty ← buffer_empty e;
  match prefix empty (length bs) with
  | Some _ => Ret (set_buf (copy_at bs e) (buffered e + length bs) e)
  | None => write_all_cold_path bs e
  end.

Definition write_with (n : nat) (visitor : BufVisitor) (e : FileEncoder) : outcome FileEncoder :=
  let e := set_finished false e in
  if (BUF_SIZE <? n)%nat then Panic
  else
    let flush_threshold := (BUF_SIZE - n)%nat in
    e ← (if (flush_threshold <? buffered e)%nat then flush e else Ret e);
    empty ← buffer_empty e;
    chunk ← unwrap (prefix empty n);
    r ← visitor chunk;
    let '(chunk, written) := r in
    if (n <? written)%nat then Panic
    else Ret (set_buf (copy_at chunk e) (buffered e + written) e).

(** The position, or the path and the error. *)
Definition finish (e : FileEncoder) : outcome ((nat + string * IoError) * FileEncoder) :=
  e ← write_all MAGIC_END_BYTES e;
  e ← flush e;
  let e := set_finished true e in
  let r := match res e with None => inl (position e) | Some err => inr (path e, err) end in
  Ret (r, set_file (file e) None e).
End file.
End FileEnc.
Arguments FileEnc.FileEncoder : clear implicits.

#[export] Instance file_sink {File IoError Strategy} `{!FileOps File IoError} (call : Strategy → list Z → Strategy) :
    Sink (FileEnc.FileEncoder File IoError Strategy) := {|
  write_with := FileEnc.write_with call; emit_raw_bytes := FileEnc.write_all call |}.

(** ** [MemDecoder] *)
Module MemDec.
(** [strip_suffix] *)
Definition strip_suffix (data suffix : list Z) : option (list Z) :=
  let n := (length data - length suffix)%nat in
  if bool_decide (drop n data = suffix) then Some (take n data) else None.
(** [None] is [Err(())]. *)
Definition new (data : list Z) (position : nat) : outcome (option MemDecoder) :=
  match strip_suffix data MAGIC_END_BYTES with
  | None => Ret None
  | Some data => if (position <=? length data)%nat then Ret (Some (mkDecoder data position)) else Panic
  end.
Definition len (d : MemDecoder) : nat := length (dec_data d).
Definition position (d : MemDecoder) : nat := dec_current d.
Definition split_at (position : nat) (d : MemDecoder) : outcome MemDecoder :=
  if (position <=? len d)%nat then Ret (mkDecoder (dec_data d) position) else Panic.
Definition peek_byte (d : MemDecoder) : outcome Z :=
  if (dec_current d =? length (dec_data d))%nat then Panic else unwrap (dec_data d !! dec_current d).
Definition read_raw_bytes (bytes : nat) (d : MemDecoder) : outcome (list Z * MemDecoder) :=
  if (remaining d <? bytes)%nat then Panic
  else Ret (take bytes (drop (dec_current d) (dec_data d)), advance d bytes).
Definition read_array (n : nat) (d : MemDecoder) : outcome (list Z * MemDecoder) := read_raw_bytes n d.
Definition with_position {T} (pos : nat) (func : MemDecoder → outcome (T * MemDecoder)) (d : MemDecoder) : outcome (T * MemDecoder) :=
  if (len d <=? pos)%nat then Panic
  else r ← func (mkDecoder (dec_data d) pos); Ret (r.1, mkDecoder (dec_data r.2) (dec_current d)).
End MemDec.

(** The macro [read_leb128!]. *)
Definition read_unsigned (w : Z) (d : MemDecoder) : outcome (Z * MemDecoder) := read_unsigned_leb128 w (read_fuel d) d.
Definition read_signed (w : Z) (d : MemDecoder) : outcome (Z * MemDecoder) := read_signed_leb128 w (read_fuel d) d.
Definition read_usize : MemDecoder → outcome (Z * MemDecoder) := read_unsigned 64.
Definition read_u128 : MemDecoder → outcome (Z * MemDecoder) := read_unsigned 128.
Definition read_u64 : MemDecoder → outcome (Z * MemDecoder) := read_unsigned 64.
Definition read_u32 : MemDecoder → outcome (Z * MemDecoder) := read_unsigned 32.
Definition read_u16 (d : MemDecoder) : outcome (Z * MemDecoder) := r ← MemDec.read_array 2 d; Ret (from_le_bytes r.1, r.2).
Definition read_isize : MemDecoder → outcome (Z * MemDecoder) := read_signed 64.
Definition read_i128 : MemDecoder → outcome (Z * MemDecoder) := read_signed 128.
Definition read_i64 : MemDecoder → outcome (Z * MemDecoder) := read_signed 64.
Definition read_i32 : MemDecoder → outcome (Z * MemDecoder) := read_signed 32.
Definition read_i16 (d : MemDecoder) : outcome (Z * MemDecoder) := r ← MemDec.read_array 2 d; Ret (as_i 16 (from_le_bytes r.1), r.2).
(** The methods that the trait provides. *)
Definition read_i8 (d : MemDecoder) : outcome (Z * MemDecoder) := r ← read_u8 d; Ret (as_i 8 r.1, r.2).
Definition read_bool (d : MemDecoder) : outcome (bool * MemDecoder) := r ← read_u8 d; Ret (negb (r.1 =? 0), r.2).
(** [char::from_u32]: the Unicode scalar values. *)
Definition char_from_u32 (bits : Z) : option Z :=
  if (0x110000 <=? bits) || ((0xD800 <=? bits) && (bits <=? 0xDFFF)) then None else Some bits.
Definition read_char (d : MemDecoder) : outcome (Z * MemDecoder) :=
  r ← read_u32 d; c ← unwrap (char_from_u32 r.1); Ret (c, r.2).
(** A string with its sentinel; [len + 1] is checked. *)
Definition read_sentinel (sentinel : Z) (d : MemDecoder) : outcome (list Z * MemDecoder) :=
  r ← read_usize d;
  let '(len, d) := r in
  if 2 ^ 64 <=? len + 1 then Panic
  else
    let len := Z.to_nat len in
    r ← MemDec.read_raw_bytes (len + 1) d;
    let '(bytes, d) := r in
    last ← unwrap (bytes !! len);
    if last =? sentinel then Ret (take len bytes, d) else Panic.
Definition read_str : MemDecoder → outcome (list Z * MemDecoder) := read_sentinel STR_SENTINEL.
Definition read_byte_str : MemDecoder → outcome (list Z * MemDecoder) := read_sentinel BYTE_STR_SENTINEL.

(** ** What the encoders write

    [SinkLaws] is the contract of an encoder: a write appends its bytes to what
    was written before.  [MemEncoder] and [FileEncoder] discharge it, the second
    until an I/O error, which [finish] reports.  The laws of the trait's methods
    follow for every encoder that has it. *)
(** On any buffer of [n] bytes the visitor writes [bs] at its start. *)
Definition visits (n : nat) (visitor : BufVisitor) (bs : list Z) : Prop :=
  ∀ b, length b = n → ∃ b', visitor b = Ret (b', length bs) ∧ take (length bs) b' = bs ∧ length b' = n.

Class SinkLaws (E : Type) `{!Sink E} := {
  (** the encoder has been given these bytes so far *)
  given : E → list Z → Prop;
  write_with_law n visitor bs e l : (n ≤ BUF_SIZE)%nat → visits n visitor bs → given e l →
    ∃ e', write_with n visitor e = Ret e' ∧ given e' (l ++ bs);
  emit_raw_bytes_law bs e l : given e l → ∃ e', emit_raw_bytes bs e = Ret e' ∧ given e' (l ++ bs) }.

(** ** The methods of [Encoder] *)
Section methods.
Context {E : Type} `{!Sink E} `{!SinkLaws E}.
Definition appends (f : E → outcome E) (bs : list Z) : Prop :=
  ∀ e l, given e l → ∃ e', f e = Ret e' ∧ given e' (l ++ bs).

Lemma appends_nil : appends (λ e, Ret e) [].
Proof. intros e l H. exists e. by rewrite app_nil_r. Qed.
Lemma appends_bind f g a b : appends f a → appends g b → appends (λ e, e ← f e; g e) (a ++ b).
Proof.
  intros Hf Hg e l H. destruct (Hf e l H) as (e1 & -> & H1). destruct (Hg e1 _ H1) as (e2 & E2 & H2).
  exists e2. by rewrite app_assoc.
Qed.
Lemma appends_raw bs : appends (emit_raw_bytes bs) bs.
Proof. intros e l. apply emit_raw_bytes_law. Qed.

Lemma buf_size_eq : Z.of_nat BUF_SIZE = 65536.
Proof. with_strategy transparent [BUF_SIZE] unfold BUF_SIZE. rewrite Z2Nat.id; lia. Qed.

Lemma appends_array bs : (length bs ≤ 256)%nat → appends (write_array bs) bs.
Proof.
  intros Hn e l. apply write_with_law; [pose proof buf_size_eq; lia|]. intros b Hb. exists bs. by rewrite firstn_all.
Qed.
Lemma leb_buffer w : leb_width w → (max_leb128_len w ≤ BUF_SIZE)%nat.
Proof. intros Hw. pose proof buf_size_eq. destruct Hw as [-> | [-> | [-> | ->]]]; apply Nat2Z.inj_le; rewrite H; by vm_compute. Qed.
Lemma appends_unsigned w v : leb_width w → 0 ≤ v < 2 ^ w → appends (emit_unsigned w v) (uleb128 w v).
Proof.
  intros Hw Hv e l. apply write_with_law; [by apply leb_buffer|]. intros b Hb.
  destruct (write_unsigned_leb128_ok w Hw b v Hv Hb) as (b' & E1 & E2 & E3). exists b'. by rewrite E3.
Qed.
Lemma appends_signed w v : leb_width w → - 2 ^ (w - 1) ≤ v < 2 ^ (w - 1) → appends (emit_signed w v) (sleb128 w v).
Proof.
  intros Hw Hv e l. apply write_with_law; [by apply leb_buffer|]. intros b Hb.
  destruct (write_signed_leb128_ok w Hw b v Hv Hb) as (b' & E1 & E2 & E3). exists b'. by rewrite E3.
Qed.
Lemma appends_sentinel (v : list Z) (s : Z) : Z.of_nat (length v) < 2 ^ 64 →
  appends (λ e, e ← emit_usize (Z.of_nat (length v)) e; e ← emit_raw_bytes v e; emit_u8 s e)
    (uleb128 64 (Z.of_nat (length v)) ++ v ++ [s]).
Proof.
  intros Hv. apply appends_bind; [apply appends_unsigned; [unfold leb_width; lia|lia]|].
  apply appends_bind; [apply appends_raw|]. apply appends_array. simpl. lia.
Qed.
End methods.

(** ** [MemEncoder] *)
#[export] Instance mem_laws : SinkLaws MemEncoder.
Proof.
  refine {| given e l := me_data e = l |}.
  - intros n visitor bs e l _ Hv <-. simpl. unfold MemEnc.write_with.
    destruct (Hv (replicate n 0) ltac:(apply length_replicate)) as (b' & -> & E1 & E2). simpl.
    rewrite (proj2 (Nat.ltb_ge _ _)).
    + eexists. split; [done|]. simpl. by rewrite E1.
    + rewrite <- E2, <- E1. rewrite length_take. lia.
  - intros bs e l <-. by eexists.
Defined.

(** ** [FileEncoder] *)
(** A write that succeeds appends. *)
Class FileLaws (File IoError : Type) `{!FileOps File IoError} := {
  contents : File → list Z;
  file_write_all_law f bs f' : file_write_all f bs = (f', None) → contents f' = contents f ++ bs }.

Section file.
Context {File IoError Strategy : Type} `{!FileOps File IoError} `{!FileLaws File IoError}.
Context (call : Strategy → list Z → Strategy).
Abbreviation enc := (FileEnc.FileEncoder File IoError Strategy).
Implicit Types (e : enc) (l bs : list Z).
Import FileEnc.

(** No write fails. *)
Definition reliable : Prop := ∀ (f : File) bs, (file_write_all f bs).2 = None.

(** The invariant of the type, and what it has been given: unless a write
    failed, the file followed by the buffered bytes. *)
Definition file_wf e : Prop := length (buf e) = BUF_SIZE ∧ (buffered e ≤ BUF_SIZE)%nat.
Definition file_given e l : Prop :=
  file_wf e ∧ (flushed e + buffered e)%nat = length l ∧
  (res e = None → contents (file e) ++ take (buffered e) (buf e) = l) ∧ (reliable → res e = None).

Lemma prefix_some l n : (n ≤ length l)%nat → prefix l n = Some (take n l).
Proof. intros H. unfold prefix. by rewrite (proj2 (Nat.leb_le _ _) H). Qed.
Lemma prefix_none l n : (length l < n)%nat → prefix l n = None.
Proof. intros H. unfold prefix. by rewrite (proj2 (Nat.leb_gt _ _) H). Qed.

Lemma given_finished b e l : file_given (set_finished b e) l ↔ file_given e l.
Proof. done. Qed.

Lemma flush_ok e l : file_given e l → ∃ e', flush call e = Ret e' ∧ file_given e' l ∧ buffered e' = 0%nat ∧ path e' = path e.
Proof.
  intros [[Hb Hn] (Hl & Hc & Hr)]. unfold flush. rewrite prefix_some by (simpl; lia). simpl. unfold try_write. simpl.
  destruct (res e) as [err|] eqn:Er; simpl.
  - eexists. split; [done|]. split_and!; [split; [split|split_and!]|done|done]; simpl; rewrite ?Er; try done; lia.
  - destruct (file_write_all (file e) _) as [f r] eqn:Ew. eexists. split; [done|].
    split_and!; [split; [split|split_and!]|done|done]; simpl; try done; try lia.
    + intros ->. rewrite app_nil_r. apply file_write_all_law in Ew. rewrite Ew. by apply Hc.
    + intros Hrel. by rewrite <- (Hrel (file e) (take (buffered e) (buf e))), Ew.
Qed.

Lemma length_copy_at bs e : file_wf e → (buffered e + length bs ≤ BUF_SIZE)%nat → length (copy_at bs e) = BUF_SIZE.
Proof. intros [Hb Hn] Hl. unfold copy_at. rewrite !length_app, length_take, length_drop. lia. Qed.
Lemma take_copy_at bs e k : file_wf e → (k ≤ length bs)%nat → (buffered e + length bs ≤ BUF_SIZE)%nat →
  take (buffered e + k) (copy_at bs e) = take (buffered e) (buf e) ++ take k bs.
Proof.
  intros [Hb Hn] Hk Hl. unfold copy_at. rewrite take_app_ge by (rewrite length_take; lia).
  rewrite length_take. f_equal. rewrite take_app_le by lia. f_equal. lia.
Qed.

(** The first [k] bytes of [chunk] are appended to the buffer. *)
Lemma given_copy chunk k e l : file_given e l → (k ≤ length chunk)%nat → (buffered e + length chunk ≤ BUF_SIZE)%nat →
  file_given (set_buf (copy_at chunk e) (buffered e + k) e) (l ++ take k chunk).
Proof.
  intros [Hwf (Hl & Hc & Hrel)] Hk Hn. split_and!; [split|..]; simpl.
  - by apply length_copy_at.
  - lia.
  - rewrite length_app, length_take. lia.
  - intros Hr. rewrite take_copy_at by done. by rewrite app_assoc, Hc.
  - exact Hrel.
Qed.

Lemma buffer_empty_ok e : file_wf e → buffer_empty e = Ret (drop (buffered e) (buf e)).
Proof. intros [Hb Hn]. unfold buffer_empty. by rewrite (proj2 (Nat.leb_le _ _)) by lia. Qed.

Lemma file_write_with_ok n visitor bs e l : (n ≤ BUF_SIZE)%nat → visits n visitor bs → file_given e l →
  ∃ e', FileEnc.write_with call n visitor e = Ret e' ∧ file_given e' (l ++ bs) ∧ path e' = path e.
Proof.
  intros Hn Hv Hg. unfold FileEnc.write_with. rewrite (proj2 (Nat.ltb_ge _ _)) by done.
  assert (∃ e1, (if (BUF_SIZE - n <? buffered (set_finished false e))%nat then flush call (set_finished false e) else Ret (set_finished false e)) = Ret e1 ∧
    file_given e1 l ∧ (buffered e1 + n ≤ BUF_SIZE)%nat ∧ path e1 = path e) as (e1 & -> & Hg1 & Hroom & Hp).
  { destruct (Nat.ltb_spec (BUF_SIZE - n) (buffered (set_finished false e))); [|exists (set_finished false e); split_and!; try done; simpl in *; lia].
    destruct (flush_ok (set_finished false e) l Hg) as (e1 & E & ? & E0 & ?). exists e1. rewrite E0. split_and!; done || lia. }
  cbn [mbind outcome_bind]. pose proof (proj1 Hg1) as Hwf. rewrite buffer_empty_ok by done. cbn [mbind outcome_bind].
  destruct Hwf as [Hb1 Hb2]. rewrite prefix_some by (rewrite length_drop; lia). cbn [unwrap mbind outcome_bind].
  destruct (Hv (take n (drop (buffered e1) (buf e1)))) as (b' & -> & E1 & E2); [rewrite length_take, length_drop; lia|].
  cbn [mbind outcome_bind]. assert (length bs ≤ n)%nat by (rewrite <- E2, <- E1, length_take; lia).
  rewrite (proj2 (Nat.ltb_ge _ _)) by done. eexists. split; [done|]. split; [|done].
  rewrite <- E1 at 2. apply given_copy; [done|lia|lia].
Qed.

Lemma file_write_all_ok bs e l : file_given e l →
  ∃ e', write_all call bs e = Ret e' ∧ file_given e' (l ++ bs) ∧ path e' = path e.
Proof.
  intros Hg. unfold write_all. pose proof (proj1 Hg) as [Hb Hn]. rewrite buffer_empty_ok by done. cbn [mbind outcome_bind].
  change (buffered (set_finished false e)) with (buffered e). change (buf (set_finished false e)) with (buf e).
  destruct (decide (buffered e + length bs ≤ BUF_SIZE)%nat).
  { rewrite prefix_some by (rewrite length_drop; lia). eexists. split; [done|]. split; [|done].
    rewrite <- (firstn_all bs) at 3. apply (given_copy bs (length bs) (set_finished false e)); [done|lia|done]. }
  rewrite prefix_none by (rewrite length_drop; lia). unfold write_all_cold_path.
  destruct (flush_ok (set_finished false e) l Hg) as (e1 & -> & Hg1 & E0 & Hp). cbn [mbind outcome_bind].
  destruct Hg1 as [[Hb1 Hn1] (Hl1 & Hc1 & Hr1)]. rewrite E0 in *. rewrite Nat.add_0_r in Hl1.
  destruct (decide (length bs ≤ BUF_SIZE)%nat).
  - rewrite prefix_some by lia. eexists. split; [done|]. split; [|done]. split_and!; [split|..]; simpl.
    + rewrite length_app, length_drop. lia.
    + done.
    + rewrite length_app. lia.
    + intros Hr. rewrite take_app_length. specialize (Hc1 Hr). rewrite take_0, app_nil_r in Hc1. by rewrite Hc1.
    + exact Hr1.
  - rewrite prefix_none by lia. eexists. split; [done|]. unfold try_write.
    destruct (res e1) as [err|] eqn:Er; [|destruct (file_write_all (file e1) bs) as [f r] eqn:Ew];
      (split; [|done]); (split_and!; [split|..]); simpl; rewrite ?E0, ?length_app; try done; try lia; rewrite ?Er; try done.
    + intros ->. apply file_write_all_law in Ew. specialize (Hc1 eq_refl). rewrite take_0, app_nil_r in *. by rewrite Ew, Hc1.
    + intros Hrel. by rewrite <- (Hrel (file e1) bs), Ew.
Qed.

Definition file_laws (p : string) : @SinkLaws enc (file_sink call).
Proof.
  refine (@Build_SinkLaws enc (file_sink call) (λ e l, file_given e l ∧ path e = p) _ _).
  - intros n visitor bs e l Hn Hv [Hg Hp]. destruct (file_write_with_ok n visitor bs e l Hn Hv Hg) as (e' & ? & ? & ?).
    exists e'. split_and!; [done..|congruence].
  - intros bs e l [Hg Hp]. destruct (file_write_all_ok bs e l Hg) as (e' & ? & ? & ?). exists e'. split_and!; [done..|congruence].
Defined.

Lemma new_given p f s : contents f = [] → file_given (FileEnc.new p f s) [].
Proof.
  intros Hf. split_and!; [split|..]; simpl; [apply length_replicate|lia|done| |done]. intros _. by rewrite take_0, app_nil_r.
Qed.

(** [finish]: the whole file and its length, or the path and an error. *)
Lemma finish_ok e l : file_given e l → ∃ r e', FileEnc.finish call e = Ret (r, e') ∧ finished e' = true ∧ res e' = None ∧
  match r with
  | inl n => n = length (l ++ MAGIC_END_BYTES) ∧ contents (file e') = l ++ MAGIC_END_BYTES
  | inr (p, _) => p = path e ∧ ¬ reliable
  end.
Proof.
  intros Hg. unfold FileEnc.finish. destruct (file_write_all_ok MAGIC_END_BYTES e l Hg) as (e1 & -> & Hg1 & Hp1). cbn [mbind outcome_bind].
  destruct (flush_ok e1 _ Hg1) as (e2 & -> & [Hwf (Hl & Hc & Hrel)] & E0 & Hp2). cbn [mbind outcome_bind]. eexists _, _. split; [done|].
  split; [done|]. split; [done|]. change (res (set_finished true e2)) with (res e2). destruct (res e2) as [err|]; simpl.
  - split; [congruence|]. intros Hr. by discriminate (Hrel Hr).
  - split; [exact Hl|]. specialize (Hc eq_refl). by rewrite E0, take_0, app_nil_r in Hc.
Qed.
End file.
