(* ===== verification/Serialize.v ===== *)
(** * Encodable and decodable types

    [rustc_serialize/src/serialize.rs]: the traits [Encodable] and [Decodable]
    and their implementations for integers, booleans, characters, strings,
    [()], [NonZero], [Option], [Result], tuples and vectors, and the
    specialisations of [opaque.rs] for bytes and for integers of a fixed size.
    A type that is both is an instance of [Serializable]: it encodes to any
    encoder and decodes from a [MemDecoder].  [SerializableLaws] is its
    contract: decoding gives back what was encoded, truncated input panics, and
    decoding ends. *)
From S2P Require Import Prelude Leb128 Opaque.
#[local] Open Scope Z_scope.

Class Serializable (T : Type) := {
  encode : ∀ {E} `{!Sink E}, T → E → outcome E;
  decode : MemDecoder → outcome (T * MemDecoder) }.

(** ** Types *)
Inductive IntKind := KUsize | KU8 | KU16 | KU32 | KU64 | KU128 | KIsize | KI8 | KI16 | KI32 | KI64 | KI128.
Record Int (k : IntKind) := MkInt { int_val : Z }.
Arguments MkInt {k}. Arguments int_val {k}.
Record Char := MkChar { char_val : Z }.
Record Str := MkStr { str_bytes : list Z }.
Record NonZero (k : IntKind) := MkNonZero { nz_val : Int k }.
Arguments MkNonZero {k}. Arguments nz_val {k}.
Record IntEncodedWithFixedSize := MkFixed { fixed_val : Z }.

(** [direct_serialize_impls!] *)
Definition emit_int {E} `{!Sink E} (k : IntKind) : Z → E → outcome E :=
  match k with
  | KUsize => emit_usize | KU8 => emit_u8 | KU16 => emit_u16 | KU32 => emit_u32 | KU64 => emit_u64 | KU128 => emit_u128
  | KIsize => emit_isize | KI8 => emit_i8 | KI16 => emit_i16 | KI32 => emit_i32 | KI64 => emit_i64 | KI128 => emit_i128
  end.
Definition read_int (k : IntKind) : MemDecoder → outcome (Z * MemDecoder) :=
  match k with
  | KUsize => read_usize | KU8 => read_u8 | KU16 => read_u16 | KU32 => read_u32 | KU64 => read_u64 | KU128 => read_u128
  | KIsize => read_isize | KI8 => read_i8 | KI16 => read_i16 | KI32 => read_i32 | KI64 => read_i64 | KI128 => read_i128
  end.
#[export] Instance int_serializable k : Serializable (Int k) := {|
  encode E _ v := emit_int k (int_val v);
  decode d := r ← read_int k d; Ret (MkInt r.1, r.2) |}.
#[export] Instance bool_serializable : Serializable bool := {|
  encode E _ v := emit_bool v;
  decode := read_bool |}.
#[export] Instance char_serializable : Serializable Char := {|
  encode E _ v := emit_char (char_val v);
  decode d := r ← read_char d; Ret (MkChar r.1, r.2) |}.
#[export] Instance str_serializable : Serializable Str := {|
  encode E _ v := emit_str (str_bytes v);
  decode d := r ← read_str d; Ret (MkStr r.1, r.2) |}.
#[export] Instance unit_serializable : Serializable unit := {|
  encode E _ v e := Ret e;
  decode d := Ret (tt, d) |}.
(** [NonZero::new(T::decode(d)).unwrap()] *)
#[export] Instance nonzero_serializable k : Serializable (NonZero k) := {|
  encode E _ v := encode (nz_val v);
  decode d :=
    r ← decode d;
    if int_val (k := k) r.1 =? 0 then Panic else Ret (MkNonZero r.1, r.2) |}.
#[export] Instance fixed_serializable : Serializable IntEncodedWithFixedSize := {|
  encode E _ v := write_array (le_bytes 8 (fixed_val v));
  decode d := r ← MemDec.read_array 8 d; Ret (MkFixed (from_le_bytes r.1), r.2) |}.

Section compound.
Context {A B : Type} `{!Serializable A} `{!Serializable B}.
#[export] Instance option_serializable : Serializable (option A) := {|
  encode E _ v e :=
    match v with
    | None => emit_u8 0 e
    | Some v => e ← emit_u8 1 e; encode v e
    end;
  decode d :=
    r ← read_u8 d;
    if r.1 =? 0 then Ret (None, r.2)
    else if r.1 =? 1 then v ← decode r.2; Ret (Some v.1, v.2)
    else Panic |}.
(** [Result]: [inl] is [Ok]. *)
#[export] Instance result_serializable : Serializable (A + B) := {|
  encode E _ v e :=
    match v with
    | inl v => e ← emit_u8 0 e; encode v e
    | inr v => e ← emit_u8 1 e; encode v e
    end;
  decode d :=
    r ← read_u8 d;
    if r.1 =? 0 then v ← decode r.2; Ret (inl v.1, v.2)
    else if r.1 =? 1 then v ← decode r.2; Ret (inr v.1, v.2)
    else Panic |}.
#[export] Instance tuple_serializable : Serializable (A * B) := {|
  encode E _ v e := e ← encode v.1 e; encode v.2 e;
  decode d := a ← decode d; b ← decode a.2; Ret ((a.1, b.1), b.2) |}.

(** Slices and vectors: the length, then the elements. *)
Definition encode_elems {E} `{!Sink E} (l : list A) (e : E) : outcome E := ofold (λ e x, encode x e) e l.
(** [(0..len).map(|_| Decodable::decode(d)).collect()] *)
Fixpoint decode_elems (len : nat) (d : MemDecoder) : outcome (list A * MemDecoder) :=
  match len with
  | O => Ret ([], d)
  | S n => x ← decode d; l ← decode_elems n x.2; Ret (x.1 :: l.1, l.2)
  end.
#[export] Instance vec_serializable : Serializable (list A) := {|
  encode E _ v e := e ← emit_usize (Z.of_nat (length v)) e; encode_elems v e;
  decode d := r ← read_usize d; decode_elems (Z.to_nat r.1) r.2 |}.
End compound.

(** The specialisation for bytes. *)
Definition encode_bytes {E} `{!Sink E} (v : list (Int KU8)) (e : E) : outcome E :=
  e ← emit_usize (Z.of_nat (length v)) e;
  emit_raw_bytes (map int_val v) e.
Definition decode_bytes (d : MemDecoder) : outcome (list (Int KU8) * MemDecoder) :=
  r ← read_usize d;
  l ← MemDec.read_raw_bytes (Z.to_nat r.1) r.2;
  Ret (map MkInt l.1, l.2).

(** ** The contract *)
Class SerializableLaws (T : Type) `{!Serializable T} := {
  (** the values of the type, and their bytes *)
  valid : T → Prop;
  bytes_of : T → list Z;
  encode_law {E} `{!Sink E} `{!SinkLaws E} v : valid v → appends (encode v) (bytes_of v);
  decode_law v d rest : valid v → before d (bytes_of v ++ rest) → decode d = Ret (v, advance d (length (bytes_of v)));
  truncated_law v d l : valid v → strict_prefix l (bytes_of v) → before d l → decode d = Panic;
  ends_law d : decode d ≠ Diverge }.

(** ** Integers *)
Definition int_width (k : IntKind) : Z :=
  match k with
  | KU8 | KI8 => 8 | KU16 | KI16 => 16 | KU32 | KI32 => 32
  | KUsize | KU64 | KIsize | KI64 => 64 | KU128 | KI128 => 128
  end.
Definition int_signed (k : IntKind) : bool :=
  match k with KIsize | KI8 | KI16 | KI32 | KI64 | KI128 => true | _ => false end.
Definition int_ok (k : IntKind) (v : Z) : Prop :=
  if int_signed k then - 2 ^ (int_width k - 1) ≤ v < 2 ^ (int_width k - 1) else 0 ≤ v < 2 ^ int_width k.
Definition int_bytes (k : IntKind) (v : Z) : list Z :=
  match k with
  | KU8 | KI8 => [as_u 8 v]
  | KU16 | KI16 => le_bytes 2 (as_u 16 v)
  | _ => if int_signed k then sleb128 (int_width k) v else uleb128 (int_width k) v
  end.

Lemma length_le_bytes n v : length (le_bytes n v) = n.
Proof. revert v. induction n as [|n IH]; intros v; simpl; [done|]. by rewrite IH. Qed.
Lemma from_to_le_bytes n : ∀ v, 0 ≤ v < 256 ^ Z.of_nat n → from_le_bytes (le_bytes n v) = v.
Proof.
  induction n as [|n IH]; intros v Hv; simpl; [simpl in Hv; lia|].
  rewrite Nat2Z.inj_succ, Z.pow_succ_r in Hv by lia. pose proof (Z.div_mod v 256 ltac:(lia)).
  rewrite IH by (split; [apply Z.div_pos; lia|apply Z.div_lt_upper_bound; lia]). lia.
Qed.

(** *** Raw bytes *)
Lemma read_raw_ok bs d rest : before d (bs ++ rest) →
  MemDec.read_raw_bytes (length bs) d = Ret (bs, advance d (length bs)).
Proof.
  intros Hd. unfold MemDec.read_raw_bytes. rewrite (before_length d _ Hd), length_app. rewrite (proj2 (Nat.ltb_ge _ _)) by lia.
  unfold before in Hd. by rewrite Hd, take_app_length.
Qed.
Lemma read_raw_short n d l : before d l → (length l < n)%nat → MemDec.read_raw_bytes n d = Panic.
Proof. intros Hd Hn. unfold MemDec.read_raw_bytes. rewrite (before_length d _ Hd). by rewrite (proj2 (Nat.ltb_lt _ _)). Qed.
Lemma strict_prefix_length l l' : strict_prefix l l' → (length l < length l')%nat.
Proof. intros (t & Ht & ->). rewrite length_app. destruct t; [done|]. simpl. lia. Qed.
Lemma strict_prefix_one l b : strict_prefix l [b] → l = [].
Proof. intros H%strict_prefix_length. simpl in H. destruct l; [done|]. simpl in H. lia. Qed.

Lemma read_usize_ok v d rest : 0 ≤ v < 2 ^ 64 → before d (uleb128 64 v ++ rest) →
  read_usize d = Ret (v, advance d (length (uleb128 64 v))).
Proof. intros Hv Hd. apply (read_unsigned_leb128_ok 64) with rest; [unfold leb_width; lia|done|done]. Qed.

(** ** The instances *)
(** Composition of decoders: the second starts where the first ends. *)
Lemma decode_split {T} `{!Serializable T} `{!SerializableLaws T} v d rest : valid v → before d (bytes_of v ++ rest) →
  decode d = Ret (v, advance d (length (bytes_of v))) ∧ before (advance d (length (bytes_of v))) rest.
Proof. intros Hv Hd. split; [by apply (decode_law v d rest)|by apply before_advance]. Qed.
Lemma before_all {T} `{!Serializable T} `{!SerializableLaws T} v d : valid v → before d (bytes_of v) →
  decode d = Ret (v, advance d (length (bytes_of v))).
Proof. intros Hv Hd. apply (decode_law v d []); [done|by rewrite app_nil_r]. Qed.

Lemma leb_width_int k : (int_width k = 32 ∨ int_width k = 64 ∨ int_width k = 128) → leb_width (int_width k).
Proof. unfold leb_width. lia. Qed.

Lemma emit_int_ok {E} `{!Sink E} `{!SinkLaws E} k v : int_ok k v → appends (emit_int k v) (int_bytes k v).
Proof.
  intros Hv. destruct k; unfold int_ok in Hv; simpl in *;
    try (apply appends_unsigned; [unfold leb_width; lia|done]); try (apply appends_signed; [unfold leb_width; lia|done]).
  - rewrite as_u_id by done. apply appends_array. simpl. lia.
  - rewrite as_u_id by done. apply appends_array. simpl. lia.
  - apply appends_array. simpl. lia.
  - apply appends_array. simpl. lia.
Qed.

Lemma signed_low w v : 1 ≤ w → as_i w (as_u w v) = as_i w v.
Proof. intros Hw. unfold as_i, as_u. by rewrite Z.mod_mod by (apply Z.pow_nonzero; lia). Qed.
Lemma read_le_ok n v d rest : 0 ≤ v < 256 ^ Z.of_nat n → before d (le_bytes n v ++ rest) →
  MemDec.read_array n d = Ret (le_bytes n v, advance d n) ∧ from_le_bytes (le_bytes n v) = v.
Proof.
  intros Hv Hd. split; [|by apply from_to_le_bytes]. pose proof (read_raw_ok _ d rest Hd) as H. by rewrite length_le_bytes in H.
Qed.
Lemma read_int_ok k v d rest : int_ok k v → before d (int_bytes k v ++ rest) →
  read_int k d = Ret (v, advance d (length (int_bytes k v))).
Proof.
  intros Hv Hd. destruct k; unfold int_ok in Hv; simpl in Hv, Hd;
    try (apply read_unsigned_leb128_ok with rest; [unfold leb_width; simpl; lia|done|done]);
    try (apply read_signed_leb128_ok with rest; [unfold leb_width; simpl; lia|done|done]).
  - rewrite as_u_id in Hd by done. apply before_cons in Hd as [E _]. simpl. by rewrite E.
  - simpl. unfold read_u16. rewrite as_u_id in Hd by done. destruct (read_le_ok 2 v d rest) as [-> E]; [done|done|].
    cbn [mbind outcome_bind fst snd]. by rewrite E.
  - apply before_cons in Hd as [E _]. simpl. unfold read_i8. rewrite E. cbn [mbind outcome_bind fst snd].
    by rewrite signed_low, signed_id by lia.
  - simpl. unfold read_i16. destruct (read_le_ok 2 (as_u 16 v) d rest) as [-> E]; [apply as_u_range; lia|done|].
    cbn [mbind outcome_bind fst snd]. rewrite E. by rewrite signed_low, signed_id by lia.
Qed.
Lemma read_int_truncated k v d l : strict_prefix l (int_bytes k v) → before d l → read_int k d = Panic.
Proof.
  intros Hl Hd. destruct k; simpl in Hl; try (by apply read_unsigned_truncated with v l); try (by apply read_signed_truncated with v l).
  - apply strict_prefix_one in Hl as ->. by apply read_u8_end.
  - apply strict_prefix_length in Hl. simpl. unfold read_u16, MemDec.read_array. by rewrite (read_raw_short 2 d l).
  - apply strict_prefix_one in Hl as ->. simpl. unfold read_i8. by rewrite read_u8_end.
  - apply strict_prefix_length in Hl. simpl. unfold read_i16, MemDec.read_array. by rewrite (read_raw_short 2 d l).
Qed.
Lemma read_raw_ends n d : MemDec.read_raw_bytes n d ≠ Diverge.
Proof. unfold MemDec.read_raw_bytes. by case_match. Qed.
Lemma bind_ends {A B} (m : outcome A) (f : A → outcome B) : m ≠ Diverge → (∀ a, f a ≠ Diverge) → m ≫= f ≠ Diverge.
Proof. by destruct m; simpl. Qed.
Lemma unwrap_ends {A} (o : option A) : unwrap o ≠ Diverge.
Proof. by destruct o. Qed.
Lemma read_int_ends k d : read_int k d ≠ Diverge.
Proof.
  destruct k; simpl; try apply read_unsigned_ends; try apply read_signed_ends; try apply read_u8_ends;
    apply bind_ends; done || apply read_u8_ends || apply read_raw_ends.
Qed.

#[export] Instance int_laws k : SerializableLaws (Int k).
Proof.
  refine {| valid v := int_ok k (int_val v); bytes_of v := int_bytes k (int_val v) |}.
  - intros E ? ? v Hv. by apply emit_int_ok.
  - intros [v] d rest Hv Hd. simpl in *. by rewrite (read_int_ok k v d rest Hv Hd).
  - intros [v] d l _ Hl Hd. simpl in *. by rewrite (read_int_truncated k v d l Hl Hd).
  - intros d. simpl. apply bind_ends; [apply read_int_ends|done].
Defined.

#[export] Instance bool_laws : SerializableLaws bool.
Proof.
  refine {| valid v := True; bytes_of (v : bool) := [if v then 1 else 0] |}.
  - intros E ? ? v _. apply appends_array. simpl. lia.
  - intros v d rest _ Hd. apply before_cons in Hd as [E _]. simpl. unfold read_bool. rewrite E. by destruct v.
  - intros v d l _ ->%strict_prefix_one Hd. simpl. unfold read_bool. by rewrite read_u8_end.
  - intros d. simpl. apply bind_ends; [apply read_u8_ends|done].
Defined.

#[export] Instance char_laws : SerializableLaws Char.
Proof.
  refine {| valid v := 0 ≤ char_val v ∧ char_from_u32 (char_val v) = Some (char_val v); bytes_of v := uleb128 32 (char_val v) |}.
  - intros E ? ? v [Hv Hc]. apply appends_unsigned; [unfold leb_width; lia|]. unfold char_from_u32 in Hc.
    destruct (Z.leb_spec 0x110000 (char_val v)); [done|]. lia.
  - intros [v] d rest [Hv Hc] Hd. simpl in *. unfold read_char, read_u32, read_unsigned.
    rewrite (read_unsigned_leb128_ok 32) with (v := v) (rest := rest); [cbn [mbind outcome_bind fst snd]; by rewrite Hc|unfold leb_width; lia| |done].
    unfold char_from_u32 in Hc. destruct (Z.leb_spec 0x110000 v); [done|]. lia.
  - intros [v] d l _ Hl Hd. simpl in *. unfold read_char, read_u32, read_unsigned. by rewrite (read_unsigned_truncated 32 v d l).
  - intros d. simpl. apply bind_ends; [|done]. apply bind_ends; [apply read_unsigned_ends|]. intros a.
    apply bind_ends; [apply unwrap_ends|done].
Defined.

#[export] Instance unit_laws : SerializableLaws unit.
Proof.
  refine {| valid v := True; bytes_of v := [] |}.
  - intros E ? ? v _. apply appends_nil.
  - intros [] d rest _ _. simpl. unfold advance. rewrite Nat.add_0_r. by destruct d.
  - intros v d l _ Hl. by apply strict_prefix_nil in Hl.
  - done.
Defined.

#[export] Instance nonzero_laws k : SerializableLaws (NonZero k).
Proof.
  refine {| valid v := valid (nz_val v) ∧ int_val (nz_val v) ≠ 0; bytes_of v := bytes_of (nz_val v) |}.
  - intros E ? ? v [Hv _]. by apply (encode_law (nz_val v)).
  - intros [v] d rest [Hv Hz] Hd. cbn -[decode bytes_of valid] in *. cbn [decode nonzero_serializable].
    rewrite (decode_law v d rest Hv Hd). cbn [mbind outcome_bind fst snd]. by rewrite (proj2 (Z.eqb_neq _ _) Hz).
  - intros [v] d l [Hv _] Hl Hd. cbn [decode nonzero_serializable]. by rewrite (truncated_law v d l Hv Hl Hd).
  - intros d. cbn [decode nonzero_serializable]. apply bind_ends; [apply ends_law|]. intros a. by case_match.
Defined.

#[export] Instance fixed_laws : SerializableLaws IntEncodedWithFixedSize.
Proof.
  refine {| valid v := 0 ≤ fixed_val v < 2 ^ 64; bytes_of v := le_bytes 8 (fixed_val v) |}.
  - intros E ? ? v Hv. apply appends_array. rewrite length_le_bytes. lia.
  - intros [v] d rest Hv Hd. cbn [decode fixed_serializable fixed_val] in *. destruct (read_le_ok 8 v d rest) as [-> E]; [done|done|].
    cbn [mbind outcome_bind fst snd]. by rewrite E, length_le_bytes.
  - intros [v] d l _ Hl%strict_prefix_length Hd. cbn [decode fixed_serializable]. rewrite length_le_bytes in Hl. unfold MemDec.read_array.
    by rewrite (read_raw_short 8 d l).
  - intros d. cbn [decode fixed_serializable]. apply bind_ends; [apply read_raw_ends|done].
Defined.

(** *** Compound types *)
(** A tag byte, then the rest. *)
Lemma tag_ok b d l : before d (b :: l) → read_u8 d = Ret (b, advance d 1) ∧ before (advance d 1) l.
Proof. apply before_cons. Qed.

Section compound_laws.
Context {A B : Type} `{!Serializable A} `{!Serializable B} `{!SerializableLaws A} `{!SerializableLaws B}.

#[export] Instance option_laws : SerializableLaws (option A).
Proof.
  refine {| valid v := match v with Some v => valid v | None => True end;
            bytes_of v := match v with Some v => 1 :: bytes_of v | None => [0] end |}.
  - intros E ? ? [v|] Hv; [|apply appends_array; simpl; lia].
    apply (appends_bind _ _ [1]); [apply appends_array; simpl; lia|by apply encode_law].
  - intros [v|] d rest Hv Hd; cbn [decode option_serializable]; apply tag_ok in Hd as [-> Hd]; cbn [mbind outcome_bind fst snd]; simpl; [|done].
    rewrite (decode_law v _ rest Hv Hd). cbn [mbind outcome_bind fst snd]. by rewrite advance_advance.
  - intros [v|] d l Hv Hl Hd; cbn [decode option_serializable].
    + apply strict_prefix_cons in Hl as [-> |(l1 & -> & Hl)]; [by rewrite read_u8_end|]. apply tag_ok in Hd as [-> Hd]. simpl.
      by rewrite (truncated_law v _ l1 Hv Hl Hd).
    + apply strict_prefix_one in Hl as ->. by rewrite read_u8_end.
  - intros d. cbn [decode option_serializable]. apply bind_ends; [apply read_u8_ends|]. intros a. do 2 (case_match; [try done|]); [|done].
    apply bind_ends; [apply ends_law|done].
Defined.

#[export] Instance result_laws : SerializableLaws (A + B).
Proof.
  refine {| valid v := match v with inl v => valid v | inr v => valid v end;
            bytes_of v := match v with inl v => 0 :: bytes_of v | inr v => 1 :: bytes_of v end |}.
  - intros E ? ? [v|v] Hv; (apply (appends_bind _ _ [_]); [apply appends_array; simpl; lia|by apply encode_law]).
  - intros [v|v] d rest Hv Hd; cbn [decode result_serializable]; apply tag_ok in Hd as [-> Hd]; cbn [mbind outcome_bind fst snd]; simpl;
      rewrite (decode_law v _ rest Hv Hd); cbn [mbind outcome_bind fst snd]; by rewrite advance_advance.
  - intros [v|v] d l Hv Hl Hd; cbn [decode result_serializable];
      (apply strict_prefix_cons in Hl as [-> |(l1 & -> & Hl)]; [by rewrite read_u8_end|]); apply tag_ok in Hd as [-> Hd]; simpl;
      by rewrite (truncated_law v _ l1 Hv Hl Hd).
  - intros d. cbn [decode result_serializable]. apply bind_ends; [apply read_u8_ends|]. intros a.
    case_match; [|case_match; [|done]]; (apply bind_ends; [apply ends_law|done]).
Defined.

#[export] Instance tuple_laws : SerializableLaws (A * B).
Proof.
  refine {| valid v := valid v.1 ∧ valid v.2; bytes_of v := bytes_of v.1 ++ bytes_of v.2 |}.
  - intros E ? ? v [Ha Hb]. apply appends_bind; by apply encode_law.
  - intros [a b] d rest [Ha Hb] Hd. cbn [decode tuple_serializable fst snd] in *. rewrite <- app_assoc in Hd.
    destruct (decode_split a d _ Ha Hd) as [-> Hd']. cbn [mbind outcome_bind fst snd].
    rewrite (decode_law b _ rest Hb Hd'). cbn [mbind outcome_bind fst snd]. by rewrite advance_advance, length_app.
  - intros [a b] d l [Ha Hb] Hl Hd. cbn [decode tuple_serializable fst snd] in *.
    apply strict_prefix_app in Hl as [Hl|(l1 & -> & Hl)]; [by rewrite (truncated_law a d l Ha Hl Hd)|].
    destruct (decode_split a d _ Ha Hd) as [-> Hd']. cbn [mbind outcome_bind fst snd]. by rewrite (truncated_law b _ l1 Hb Hl Hd').
  - intros d. cbn [decode tuple_serializable]. apply bind_ends; [apply ends_law|]. intros a.
    apply bind_ends; [apply ends_law|done].
Defined.

Definition elems_bytes (l : list A) : list Z := concat (map bytes_of l).
Lemma encode_elems_ok {E} `{!Sink E} `{!SinkLaws E} l : Forall valid l → appends (encode_elems l) (elems_bytes l).
Proof.
  induction l as [|x l IH]; intros Hl; [apply appends_nil|]. apply Forall_cons in Hl as [Hx Hl].
  intros e bs Hg. destruct (encode_law x Hx e bs Hg) as (e1 & E1 & H1). destruct (IH Hl e1 _ H1) as (e2 & E2 & H2).
  exists e2. unfold encode_elems in *. cbn [ofold]. rewrite E1. cbn [mbind outcome_bind]. split; [done|].
  unfold elems_bytes in *. cbn [map concat]. by rewrite app_assoc.
Qed.
Lemma decode_elems_ok l : ∀ d rest, Forall valid l → before d (elems_bytes l ++ rest) →
  decode_elems (length l) d = Ret (l, advance d (length (elems_bytes l))).
Proof.
  induction l as [|x l IH]; intros d rest Hl Hd.
  { cbn. unfold advance. rewrite Nat.add_0_r. by destruct d. }
  apply Forall_cons in Hl as [Hx Hl]. unfold elems_bytes in *. cbn [map concat length decode_elems] in *.
  rewrite <- app_assoc in Hd. destruct (decode_split x d _ Hx Hd) as [-> Hd']. cbn [mbind outcome_bind fst snd].
  rewrite (IH _ rest Hl Hd'). cbn [mbind outcome_bind fst snd]. by rewrite advance_advance, length_app.
Qed.
Lemma decode_elems_truncated v : ∀ d l, Forall valid v → strict_prefix l (elems_bytes v) → before d l →
  decode_elems (A := A) (length v) d = Panic.
Proof.
  induction v as [|x v IH]; intros d l Hv Hl Hd; [by apply strict_prefix_nil in Hl|].
  apply Forall_cons in Hv as [Hx Hv]. unfold elems_bytes in *. cbn [map concat length decode_elems] in *.
  apply strict_prefix_app in Hl as [Hl|(l1 & -> & Hl)]; [by rewrite (truncated_law x d l Hx Hl Hd)|].
  destruct (decode_split x d _ Hx Hd) as [-> Hd']. cbn [mbind outcome_bind fst snd]. by rewrite (IH _ l1 Hv Hl Hd').
Qed.
Lemma decode_elems_ends n : ∀ d, decode_elems (A := A) n d ≠ Diverge.
Proof.
  induction n as [|n IH]; intros d; [done|]. cbn [decode_elems]. apply bind_ends; [apply ends_law|]. intros a.
  apply bind_ends; [apply IH|done].
Qed.

#[export] Instance vec_laws : SerializableLaws (list A).
Proof.
  refine {| valid v := Forall valid v ∧ Z.of_nat (length v) < 2 ^ 64;
            bytes_of v := uleb128 64 (Z.of_nat (length v)) ++ elems_bytes v |}.
  - intros E ? ? v [Hv Hn]. apply appends_bind; [apply appends_unsigned; [unfold leb_width; lia|lia]|by apply encode_elems_ok].
  - intros v d rest [Hv Hn] Hd. cbn [decode vec_serializable]. rewrite <- app_assoc in Hd.
    rewrite (read_usize_ok (Z.of_nat (length v)) d _ ltac:(lia) Hd). cbn [mbind outcome_bind fst snd]. rewrite Nat2Z.id.
    rewrite (decode_elems_ok v _ rest Hv) by (by apply before_advance). by rewrite advance_advance, length_app.
  - intros v d l [Hv Hn] Hl Hd. cbn [decode vec_serializable].
    apply strict_prefix_app in Hl as [Hl|(l1 & -> & Hl)].
    + unfold read_usize, read_unsigned. by rewrite (read_unsigned_truncated 64 _ d l Hl Hd).
    + rewrite (read_usize_ok (Z.of_nat (length v)) d _ ltac:(lia) Hd). cbn [mbind outcome_bind fst snd]. rewrite Nat2Z.id.
      by rewrite (decode_elems_truncated v _ l1 Hv Hl) by (by apply before_advance).
  - intros d. cbn [decode vec_serializable]. apply bind_ends; [apply read_unsigned_ends|]. intros a. apply decode_elems_ends.
Defined.
End compound_laws.

(** *** Strings *)
Definition sentinel_bytes (s : Z) (v : list Z) : list Z := uleb128 64 (Z.of_nat (length v)) ++ v ++ [s].
Lemma read_sentinel_ok s v d rest : Z.of_nat (length v) + 1 < 2 ^ 64 → before d (sentinel_bytes s v ++ rest) →
  read_sentinel s d = Ret (v, advance d (length (sentinel_bytes s v))).
Proof.
  intros Hn Hd. unfold sentinel_bytes, read_sentinel in *. rewrite <- app_assoc in Hd.
  rewrite (read_usize_ok (Z.of_nat (length v)) d _ ltac:(lia) Hd). cbn [mbind outcome_bind]. apply before_advance in Hd.
  rewrite (proj2 (Z.leb_gt _ _)) by lia. rewrite Nat2Z.id. pose proof (read_raw_ok (v ++ [s]) _ rest Hd) as E.
  rewrite length_app in E. cbn [length] in E. rewrite E. cbn [mbind outcome_bind]. rewrite lookup_app_r, Nat.sub_diag by lia.
  cbn [lookup list_lookup unwrap mbind outcome_bind]. rewrite Z.eqb_refl, take_app_length. by rewrite advance_advance, !length_app.
Qed.
Lemma read_sentinel_truncated s v d l : Z.of_nat (length v) + 1 < 2 ^ 64 → strict_prefix l (sentinel_bytes s v) → before d l →
  read_sentinel s d = Panic.
Proof.
  intros Hn Hl Hd. unfold sentinel_bytes, read_sentinel in *. apply strict_prefix_app in Hl as [Hl|(l1 & -> & Hl)].
  - unfold read_usize, read_unsigned. by rewrite (read_unsigned_truncated 64 _ d l Hl Hd).
  - rewrite (read_usize_ok (Z.of_nat (length v)) d _ ltac:(lia) Hd). cbn [mbind outcome_bind]. apply before_advance in Hd.
    rewrite (proj2 (Z.leb_gt _ _)) by lia. rewrite Nat2Z.id. apply strict_prefix_length in Hl. rewrite length_app in Hl. cbn [length] in Hl.
    by rewrite (read_raw_short _ _ l1 Hd).
Qed.
Lemma read_sentinel_ends s d : read_sentinel s d ≠ Diverge.
Proof.
  unfold read_sentinel. apply bind_ends; [apply read_unsigned_ends|]. intros [n d']. case_match; [done|].
  apply bind_ends; [apply read_raw_ends|]. intros [bs d'']. apply bind_ends; [apply unwrap_ends|]. intros x. by case_match.
Qed.

#[export] Instance str_laws : SerializableLaws Str.
Proof.
  refine {| valid v := Z.of_nat (length (str_bytes v)) + 1 < 2 ^ 64; bytes_of v := sentinel_bytes STR_SENTINEL (str_bytes v) |}.
  - intros E ? ? v Hv. apply appends_sentinel. lia.
  - intros [v] d rest Hv Hd. cbn [decode str_serializable str_bytes] in *. unfold read_str. by rewrite (read_sentinel_ok _ v d rest Hv Hd).
  - intros [v] d l Hv Hl Hd. cbn [decode str_serializable str_bytes] in *. unfold read_str. by rewrite (read_sentinel_truncated _ v d l Hv Hl Hd).
  - intros d. cbn [decode str_serializable]. apply bind_ends; [apply read_sentinel_ends|done].
Defined.

(** ** Properties *)
Lemma decode_u8s n : ∀ d, decode_elems (A := Int KU8) n d =
  if (remaining d <? n)%nat then Panic else Ret (map MkInt (take n (drop (dec_current d) (dec_data d))), advance d n).
Proof.
  induction n as [|n IH]; intros d.
  { rewrite (proj2 (Nat.ltb_ge _ _)) by lia. simpl. unfold advance. rewrite Nat.add_0_r. by destruct d. }
  cbn [decode_elems decode int_serializable read_int]. unfold read_u8. pose proof (eq_refl (remaining d)) as Hr. unfold remaining in Hr at 2.
  destruct (Nat.eqb_spec (dec_current d) (length (dec_data d))) as [E|E].
  { by rewrite (proj2 (Nat.ltb_lt _ _)) by lia. }
  destruct (dec_data d !! dec_current d) as [b|] eqn:Hb; cbn [unwrap mbind outcome_bind fst snd].
  - apply lookup_lt_Some in Hb as Hlt. rewrite IH. unfold remaining at 1. cbn [advance dec_data dec_current].
    destruct (Nat.ltb_spec (length (dec_data d) - (dec_current d + 1)) n), (Nat.ltb_spec (remaining d) (S n)); try lia; [done|].
    cbn [mbind outcome_bind fst snd]. rewrite (drop_S (dec_data d) b (dec_current d)) by done. rewrite advance_advance. cbn [take map].
    by replace (S (dec_current d)) with (dec_current d + 1)%nat by lia.
  - apply lookup_ge_None in Hb. by rewrite (proj2 (Nat.ltb_lt _ _)) by lia.
Qed.
Lemma elems_bytes_u8 (v : list (Int KU8)) : Forall valid v → elems_bytes v = map int_val v.
Proof.
  unfold elems_bytes. induction v as [|x v IH]; intros Hv; [done|]. apply Forall_cons in Hv as [Hx Hv]. cbn [map concat].
  rewrite IH by done. simpl. unfold valid in Hx. simpl in Hx. unfold int_ok in Hx. simpl in Hx. by rewrite as_u_id.
Qed.

(** The specialised encoding of a byte slice writes the bytes of the generic
    one, to any encoder, and leaves a memory encoder in the same state; the
    specialised decoding is the generic one on every input, well formed or not. *)
Theorem byte_slices_specialized (v : list (Int KU8)) :
  Forall valid v → Z.of_nat (length v) < 2 ^ 64 →
  (∀ (E : Type) (s : Sink E) (laws : SinkLaws E), appends (encode_bytes v) (bytes_of v)) ∧
  (∀ e : MemEncoder, encode_bytes v e = encode v e) ∧ ∀ d, decode_bytes d = decode d.
Proof.
  intros Hv Hn.
  assert (Hb : ∀ (E : Type) (s : Sink E) (laws : SinkLaws E), appends (encode_bytes v) (bytes_of v)).
  { intros E s laws. cbn [bytes_of vec_laws]. rewrite elems_bytes_u8 by done.
    apply appends_bind; [apply appends_unsigned; [unfold leb_width; lia|lia]|apply appends_raw]. }
  split_and!; [exact Hb| |].
  - intros e. destruct (Hb _ _ mem_laws e _ eq_refl) as (e1 & -> & H1).
    destruct (@encode_law _ _ vec_laws _ _ mem_laws v (conj Hv Hn) e _ eq_refl) as (e2 & -> & H2). simpl in H1, H2.
    destruct e1, e2. simpl in *. by subst.
  - intros d. unfold decode_bytes. cbn [decode vec_serializable]. destruct (read_usize d) as [[n d']| |]; [|done..].
    cbn [mbind outcome_bind fst snd]. rewrite decode_u8s. unfold MemDec.read_raw_bytes. by case_match.
Qed.
Lemma byte_slices_specialized_witness :
  encode_bytes [MkInt 200; MkInt 7] (mkMemEncoder [9]) = encode ([MkInt 200; MkInt 7] : list (Int KU8)) (mkMemEncoder [9]).
Proof.
  apply (byte_slices_specialized [MkInt 200; MkInt 7]); [|simpl; lia].
  repeat constructor; simpl; unfold int_ok; simpl; lia.
Defined.

(** C10: LEB128, at 16, 32, 64 and 128 bits.  Writing a value of the type to a
    buffer of [max_leb128_len] bytes stays in the buffer; reading the bytes that
    were written, whatever follows them, gives the value back and stops after
    them; reading a proper prefix of them panics; and reading ends on every
    input. *)
Theorem leb128_round_trip (w v : Z) (out rest : list Z) :
  leb_width w → length out = max_leb128_len w →
  (0 ≤ v < 2 ^ w → ∃ out' n, write_unsigned_leb128 (write_fuel w) out v = Ret (out', n) ∧ (1 ≤ n ≤ max_leb128_len w)%nat ∧
     (∀ d, before d (take n out' ++ rest) → read_unsigned_leb128 w (read_fuel d) d = Ret (v, advance d n)) ∧
     ∀ k, (k < n)%nat → ∀ d, before d (take k out') → read_unsigned_leb128 w (read_fuel d) d = Panic) ∧
  (- 2 ^ (w - 1) ≤ v < 2 ^ (w - 1) → ∃ out' n, write_signed_leb128 (write_fuel w) out v = Ret (out', n) ∧ (1 ≤ n ≤ max_leb128_len w)%nat ∧
     (∀ d, before d (take n out' ++ rest) → read_signed_leb128 w (read_fuel d) d = Ret (v, advance d n)) ∧
     ∀ k, (k < n)%nat → ∀ d, before d (take k out') → read_signed_leb128 w (read_fuel d) d = Panic) ∧
  ∀ d, read_unsigned_leb128 w (read_fuel d) d ≠ Diverge ∧ read_signed_leb128 w (read_fuel d) d ≠ Diverge.
Proof.
  intros Hw Hout. destruct (leb_width_bounds w Hw) as (_ & Hn & _).
  assert (Hprefix : ∀ (bs out' : list Z) k, take (length bs) out' = bs → (k < length bs)%nat → strict_prefix (take k out') bs).
  { intros bs out' k E Hk. exists (drop k bs). split.
    - intros E0%(f_equal length). rewrite length_drop in E0. simpl in E0. lia.
    - assert (take k out' = take k bs) as ->; [|by rewrite take_drop]. rewrite <- E, take_take. by replace (k `min` length bs)%nat with k by lia. }
  split_and!; [intros Hv..|intros d; split; [apply read_unsigned_ends|apply read_signed_ends]].
  - destruct (write_unsigned_leb128_ok w Hw out v Hv Hout) as (out' & E & Ht & _). exists out', (length (uleb128 w v)).
    split_and!; [exact E| |apply length_uleb| |].
    + unfold uleb128. destruct (max_leb128_len w); [lia|]. simpl. case_match; simpl; lia.
    + intros d Hd. rewrite Ht in Hd. by apply (read_unsigned_leb128_ok w Hw v d rest).
    + intros k Hk d. apply read_unsigned_truncated with v. by apply Hprefix.
  - destruct (write_signed_leb128_ok w Hw out v Hv Hout) as (out' & E & Ht & _). exists out', (length (sleb128 w v)).
    split_and!; [exact E| |apply length_sleb| |].
    + unfold sleb128. destruct (max_leb128_len w); [lia|]. simpl. case_match; simpl; lia.
    + intros d Hd. rewrite Ht in Hd. by apply (read_signed_leb128_ok w Hw v d rest).
    + intros k Hk d. apply read_signed_truncated with v. by apply Hprefix.
Qed.
Lemma leb128_round_trip_witness : ∃ out' n, write_signed_leb128 (write_fuel 16) [0; 0; 0] (-300) = Ret (out', n) ∧
  read_signed_leb128 16 (read_fuel (mkDecoder (take n out') 0)) (mkDecoder (take n out') 0) = Ret (-300, advance (mkDecoder (take n out') 0) n).
Proof.
  destruct (leb128_round_trip 16 (-300) [0; 0; 0] []) as (_ & H & _); [by left|by vm_compute|].
  destruct (H ltac:(lia)) as (out' & n & E & _ & Hr & _). exists out', n. split; [exact E|].
  apply Hr. unfold before. simpl. by rewrite app_nil_r.
Defined.

(** The bytes that [finish] left, opened again. *)
Lemma reopen l : MemDec.new (l ++ MAGIC_END_BYTES) 0 = Ret (Some (mkDecoder l 0)).
Proof.
  unfold MemDec.new, MemDec.strip_suffix. rewrite length_app, Nat.add_sub, drop_app_length, take_app_length.
  by rewrite bool_decide_true.
Qed.

(** C9: A value of a serialisable type, encoded to a file and finished: either
    some write to the file failed, and [finish] returns the path and an error,
    or it returns the number of bytes in the file, and opening them again and
    decoding gives the value back and consumes all of it.  The flush strategy,
    the buffering and what was encoded do not matter. *)
Theorem file_round_trip (File IoError Strategy T : Type) (ops : FileOps File IoError) (laws : FileLaws File IoError)
    (call : Strategy → list Z → Strategy) (ser : Serializable T) (ser_laws : SerializableLaws T)
    (p : string) (f : File) (s : option Strategy) (v : T) :
  contents f = [] → valid v →
  ∃ e r e', @encode T _ _ (file_sink call) v (FileEnc.new p f s) = Ret e ∧ FileEnc.finish call e = Ret (r, e') ∧
    FileEnc.finished e' = true ∧
    match r with
    | inl n => n = length (contents (FileEnc.file e')) ∧ ∃ d d',
        MemDec.new (contents (FileEnc.file e')) 0 = Ret (Some d) ∧ decode d = Ret (v, d') ∧ MemDec.position d' = MemDec.len d'
    | inr (q, _) => q = p ∧ ¬ reliable (File := File) (IoError := IoError)
    end.
Proof.
  intros Hf Hv.
  destruct (@encode_law T _ _ _ (file_sink call) (file_laws call p) v Hv (FileEnc.new p f s) []) as (e & E & Hg & Hp).
  { split; [by apply new_given|done]. }
  destruct (finish_ok call e _ Hg) as (r & e' & Ef & Hfin & _ & Hr). exists e, r, e'. split_and!; [done..|].
  destruct r as [n|[q err]]; [|by rewrite <- Hp].
  destruct Hr as [-> Hc]. rewrite Hc, reopen. split; [done|]. eexists _, _. split; [done|].
  split; [by apply before_all|]. by unfold MemDec.position, MemDec.len.
Qed.

(** A file in memory, and a value with every kind of part. *)
Definition mem_file : FileOps (list Z) unit := {| file_write_all f bs := (f ++ bs, None) |}.
Definition mem_file_laws : @FileLaws (list Z) unit mem_file.
Proof. refine (@Build_FileLaws _ _ mem_file (λ f, f) _). intros f bs f'. cbn. by intros [= <-]. Defined.
Definition ser_example : list (option (Int KI64 * Str) + Char) :=
  [inl (Some (MkInt (-1000000), MkStr [104; 105])); inr (MkChar 955); inl None].

Lemma ser_example_valid : valid ser_example.
Proof.
  split; [|simpl; lia]. repeat constructor; simpl; unfold int_ok; simpl; lia || done.
Qed.
Lemma file_round_trip_witness : ∃ e r e', @encode _ _ _ (@file_sink _ _ _ mem_file (λ (n : nat) _, S n)) ser_example
    (FileEnc.new "out"%string [] (Some 0%nat)) = Ret e ∧
  @FileEnc.finish _ _ _ mem_file (λ n _, S n) e = Ret (r, e') ∧ r = inl (length (FileEnc.file e')).
Proof.
  destruct (file_round_trip (list Z) unit nat _ mem_file mem_file_laws (λ n _, S n) _ _ "out" [] (Some 0%nat) ser_example eq_refl ser_example_valid)
    as (e & r & e' & H1 & H2 & _ & H3). exists e, r, e'. split; [exact H1|]. split; [exact H2|].
  destruct r as [n|[q err]]; [destruct H3 as [-> _]; reflexivity|].
  destruct H3 as [_ H3]. destruct H3. by intros f bs.
Defined.

(** ** The modelled types

    Every type built from the implementations above, with its codec and the laws
    of its codec. *)
Inductive SerTy :=
  | SUnit | SBool | SChar | SStr | SFixed
  | SInt (k : IntKind) | SNonZero (k : IntKind)
  | SOption (t : SerTy) | SResult (t u : SerTy) | STuple (t u : SerTy) | SVec (t : SerTy).
Fixpoint ser_type (t : SerTy) : Type :=
  match t with
  | SUnit => unit | SBool => bool | SChar => Char | SStr => Str | SFixed => IntEncodedWithFixedSize
  | SInt k => Int k | SNonZero k => NonZero k
  | SOption t => option (ser_type t) | SResult t u => ser_type t + ser_type u
  | STuple t u => ser_type t * ser_type u | SVec t => list (ser_type t)
  end.
Fixpoint ser_codec (t : SerTy) : Serializable (ser_type t) :=
  match t with
  | SUnit => unit_serializable | SBool => bool_serializable | SChar => char_serializable | SStr => str_serializable
  | SFixed => fixed_serializable | SInt k => int_serializable k | SNonZero k => nonzero_serializable k
  | SOption t => @option_serializable _ (ser_codec t)
  | SResult t u => @result_serializable _ _ (ser_codec t) (ser_codec u)
  | STuple t u => @tuple_serializable _ _ (ser_codec t) (ser_codec u)
  | SVec t => @vec_serializable _ (ser_codec t)
  end.
Fixpoint ser_laws (t : SerTy) : @SerializableLaws (ser_type t) (ser_codec t) :=
  match t with
  | SUnit => unit_laws | SBool => bool_laws | SChar => char_laws | SStr => str_laws
  | SFixed => fixed_laws | SInt k => int_laws k | SNonZero k => nonzero_laws k
  | SOption t => @option_laws _ _ (ser_laws t)
  | SResult t u => @result_laws _ _ _ _ (ser_laws t) (ser_laws u)
  | STuple t u => @tuple_laws _ _ _ _ (ser_laws t) (ser_laws u)
  | SVec t => @vec_laws _ _ (ser_laws t)
  end.

(** Decoding what is left of a finished file. *)
Lemma decode_truncated {T} `{!Serializable T} `{!SerializableLaws T} v l :
  valid v → strict_prefix l (bytes_of v ++ MAGIC_END_BYTES) →
  MemDec.new l 0 = Ret None ∨ ∃ d, MemDec.new l 0 = Ret (Some d) ∧ decode (T := T) d = Panic.
Proof.
  intros Hv (t & Ht & E). unfold MemDec.new, MemDec.strip_suffix.
  set (n := (length l - length MAGIC_END_BYTES)%nat). case_bool_decide as Hm; [right|by left].
  exists (mkDecoder (take n l) 0). split; [done|]. apply (truncated_law v _ (take n l) Hv); [|done].
  assert (Hn : (n + length MAGIC_END_BYTES = length l)%nat).
  { apply (f_equal length) in Hm. rewrite length_drop in Hm. unfold n in *. lia. }
  assert (Hlt : (n < length (bytes_of v))%nat).
  { apply (f_equal length) in E. rewrite !length_app in E. destruct t; [done|]. cbn [length] in E. lia. }
  exists (drop n (bytes_of v)). split.
  - intros E0%(f_equal length). rewrite length_drop in E0. simpl in E0. lia.
  - assert (take n l = take n (bytes_of v)) as ->; [|by rewrite take_drop].
    apply (f_equal (take n)) in E. rewrite !take_app_le in E by lia. done.
Qed.

(** C30: A file that was cut short is never decoded.  For every type built from
    integers, booleans, characters, strings, [()], [NonZero], [Option], [Result],
    pairs and vectors, and every valid value of it, encoded to an empty file and
    finished: unless a write failed, whatever proper prefix of the contents of the
    file is left, opening it is refused, or decoding the value from it panics. *)
Theorem truncated_file_never_decodes (File IoError Strategy : Type) (ops : FileOps File IoError) (laws : FileLaws File IoError)
    (call : Strategy → list Z → Strategy) (t : SerTy) (p : string) (f : File) (s : option Strategy) (v : ser_type t) :
  contents f = [] → @valid _ _ (ser_laws t) v →
  ∃ e r e', @encode _ (ser_codec t) _ (file_sink call) v (FileEnc.new p f s) = Ret e ∧ FileEnc.finish call e = Ret (r, e') ∧
    match r with
    | inl _ => ∀ l, strict_prefix l (contents (FileEnc.file e')) →
        MemDec.new l 0 = Ret None ∨ ∃ d, MemDec.new l 0 = Ret (Some d) ∧ @decode _ (ser_codec t) d = Panic
    | inr _ => ¬ reliable (File := File) (IoError := IoError)
    end.
Proof.
  intros Hf Hv.
  destruct (@encode_law _ _ (ser_laws t) _ (file_sink call) (file_laws call p) v Hv (FileEnc.new p f s) []) as (e & E & Hg & _).
  { split; [by apply new_given|done]. }
  destruct (finish_ok call e _ Hg) as (r & e' & Ef & _ & _ & Hr). exists e, r, e'. split_and!; [done..|].
  destruct r as [n|[q err]]; [|by destruct Hr].
  destruct Hr as [_ Hc]. rewrite Hc. intros l Hl. by apply (@decode_truncated _ _ (ser_laws t) v).
Qed.
(** [Some('λ')] is written as [1; 187; 7] and the end marker. *)
Lemma truncated_file_never_decodes_witness : ∃ e r e',
  @encode _ (ser_codec (SOption SChar)) _ (@file_sink _ _ _ mem_file (λ (n : nat) _, S n)) (Some (MkChar 955))
    (FileEnc.new "out"%string [] (Some 0%nat)) = Ret e ∧
  @FileEnc.finish _ _ _ mem_file (λ n _, S n) e = Ret (r, e') ∧
  match r with
  | inl _ => ∀ l, strict_prefix l (FileEnc.file e') →
      MemDec.new l 0 = Ret None ∨ ∃ d, MemDec.new l 0 = Ret (Some d) ∧ @decode _ (ser_codec (SOption SChar)) d = Panic
  | inr _ => False
  end.
Proof.
  destruct (truncated_file_never_decodes (list Z) unit nat mem_file mem_file_laws (λ n _, S n) (SOption SChar) "out" [] (Some 0%nat)
    (Some (MkChar 955)) eq_refl ltac:(split; [simpl; lia|done])) as (e & r & e' & H1 & H2 & H3).
  exists e, r, e'. split; [exact H1|]. split; [exact H2|].
  destruct r as [n|q]; [exact H3|]. apply H3. by intros f bs.
Defined.
